(* ===== verification/_CoqProject ===== *)
-Q . S2P
Prelude.v
Errors.v
Varint.v
Stream.v
Multiselect.v
ReadBuffer.v
Multihash.v
ByteUtil.v
Base58.v
Multibase.v
ContentIdentifier.v
MultiaddrCodec.v
MultiaddrPlain.v
Multiaddress.v
PeerAddress.v
Literals.v
TcpUtil.v
Keys.v
Hashers.v
Providers.v
Ecdh.v
SamplePeer.v
Interop.v
Tls.v
Certificate.v
SslContext.v
Keccak.v
Quic.v
QuicSafe.v
QuicAuth.v
QuicLoop.v
QuicTransport.v
AddressRepository.v
PeerRepository.v
ConnectionManager.v
EventBus.v
ListenerManager.v
Dialer.v
Host.v
CApi.v
CApiSafe.v
CEcho.v
CClient.v
Protocols.v
Identify.v
TimeCache.v
Backoff.v
Score.v
GossipState.v
GossipOps.v
GossipHandlers.v
GossipFrame.v
GossipInv.v
GossipMesh.v
GossipSafe.v
GossipSafeRpc.v
GossipSafeTick.v
GossipRun.v
GossipToy.v
GossipUndefined.v
GossipIds.v
GossipChat.v
GossipRelay.v
GossipProps.v
GossipLimits.v
GossipMeshSize.v
