(* ===== verification/Prelude.v ===== *)
(** * A verification library for leanp2p

    leanp2p is a C++23 implementation of core libp2p building blocks.  This
    library models the parts that carry its protocol logic as executable Rocq
    definitions and proves what makes them correct.  File names below are
    relative to [src/]; [include/libp2p/...] are the headers.

    ** The program and the files

    - [Errors.v]: the messages of all categories of errors.  Theorem: in each of them a
      message identifies its error.

    Bytes on a connection:
    - [Varint.v]: unsigned varints.  [EncodeVarint] ([basic/encode_varint.hpp]),
      the incremental [VarintPrefixReader] ([basic/varint_prefix_reader.cpp]) and
      [UVarint] ([multi/uvarint.cpp]), on 64-bit integers with their wrap-around.
      Theorems: round trip, exact classification of every input, agreement of the
      two decoders, canonical encodings.
    - [Stream.v]: [read], [write], [readVarintMessage], [writeVarintMessage]
      ([include/libp2p/basic/*.hpp]) over the abstract classes [Reader] and
      [Writer], which are type classes with laws.  Theorems: framing is exact
      under any fragmentation, and the reader allocates within its limit.
    - [ReadBuffer.v]: [ReadBuffer] and [FixedBufferCollector]
      ([basic/read_buffer.cpp]).  Theorem: a refinement of a byte queue.
    - [Multiselect.v]: protocol negotiation ([protocol_muxer/multiselect.cpp] and
      its headers) over any connection with the [Reader]/[Writer] laws.
      Theorems: agreement on a first protocol in common, the responder's
      behaviour on any list of proposals, soundness on every connection, and the
      failure of the initiator's fallback.

    - [Protocols.v]: the echo and ping protocols ([protocol/echo/echo.cpp],
      [protocol/ping.cpp]) over such connections.  Theorems: the servers send back
      exactly what they got and end with the stream; a ping accepts its own answer
      only; the client's loop holds one stream.

    Names of data, peers and places:
    - [Multihash.v]: multihashes and peer ids ([multi/multihash.cpp],
      [peer/peer_id.cpp]).  Theorems: round trip, soundness of parsing.
    - [ByteUtil.v], [Base58.v], [Multibase.v], [ContentIdentifier.v]: integers as
      bytes and text ([common/byteutil.cpp]), base 58, bases 16, 32 and 64 and the
      codec over them ([multi/multibase_codec/]), content identifiers
      ([multi/content_identifier_codec.cpp]).  Theorems: each is a bijection onto
      the texts it accepts or a round trip, with the inputs it loses.
    - [MultiaddrCodec.v], [MultiaddrPlain.v], [Multiaddress.v]: the protocol table,
      the conversion between text and bytes ([multi/converters/]), a concrete
      instance of the libraries it uses, and the class ([multi/multiaddress.cpp]).
      Theorems: what [create] makes of every text, the queries on addresses whose
      values do not look like protocols, encapsulation; and concrete inputs on
      which the searches in the text go wrong.
    - [PeerAddress.v], [TcpUtil.v]: peer addresses ([peer/peer_address.cpp]) and
      the endpoints of transports ([transport/tcp/tcp_util.hpp]).  Theorems: round
      trips, and which ids of public keys survive their text form.
    - [Literals.v]: hexadecimal forms, the order of peer ids and the literals of
      [common/literals.cpp].

    Keys and certificates:
    - [Keys.v]: keys, the crypto provider, the validator, the marshaller and the
      identity manager ([crypto/key_marshaller.cpp],
      [crypto/key_validator/key_validator_impl.cpp],
      [crypto/crypto_provider/crypto_provider_impl.cpp],
      [peer/identity_manager.cpp]).  Theorems: marshalled keys come back validated,
      generated keys work, stretching ends, and exactly which inputs make
      verification read out of bounds.
    - [Hashers.v], [Providers.v], [Ecdh.v]: the hash objects and HMAC with its contexts on
      a heap ([crypto/sha/], [crypto/hmac_provider/]), the providers of each key type
      and AES-CTR ([crypto/*_provider/]) and ephemeral keys, as the sequences of library
      calls they make, each of which may fail.  Theorems: the hashers refine a buffer
      when no call fails, the providers keep the laws that [Keys.v] assumes of them, encryption in chunks
      is undone, two ends of a key exchange agree; and which failures leak a context.
    - [SamplePeer.v] ([include/libp2p/common/sample_peer.hpp]): peers made from a number.
      Theorem: they can be reached at the addresses they state.
    - [Interop.v] ([test-plans/]): the interoperability test, a program that runs as
      listener and as dialer and passes the address through a Redis server.  Theorems:
      the dialer connects to the listener, and the wait for the server ends.
    - [Tls.v]: the certificate that carries a peer's identity
      ([security/tls/tls_details.cpp]).  Theorems: an accepted identity was proved
      by the owner of the key, and an honest certificate with its extension is accepted.
    - [Certificate.v]: the assembly of that certificate from OpenSSL objects and their
      lifetime ([security/tls/tls_details.cpp]), the choice of the application protocol
      ([security/tls/ssl_context.cpp]); every call may fail, an allocation too.  Theorem:
      it implements the interface that [Tls.v] is proved against and frees its objects,
      and what the failures do whose results the code ignores.
    - [SslContext.v] ([security/tls/ssl_context.cpp]): the contexts of OpenSSL that a host
      makes, with the methods and options that Boost has and the versions they allow.
      Theorem: two hosts accept each other's certificates and learn who the other is,
      over TLS 1.3 only with a certificate demanded of both; and when they are refused.
    - [Keccak.v]: Keccak-256 ([crypto/sha/keccak.cpp]).  Theorem: equal, bit for bit,
      to the sponge of FIPS 202, which Module [Fips] transcribes.

    QUIC ([transport/quic/]):
    - [Quic.v]: the engine, its connections and streams, and the callbacks of lsquic with
      the calls that the application makes inside them, as functions on a heap of
      contexts that point to each other.
    - [QuicSafe.v], [QuicAuth.v]: the invariant of those pointers under any sequence of
      callbacks and calls, the ways in which an event can fail, and that a connection is only
      handed over for the peer that was asked for and has proved its identity.
    - [QuicLoop.v]: the settings of an engine, the loop that reads UDP packets, the
      sending of packets, the timer, and the handlers that wait in the event loop, around
      the state of [Quic.v].  Theorems: every packet is delivered once and in order, a
      started engine keeps reading, and nothing is called once it is destroyed; and the
      failures after which it does not go on.
    - [QuicTransport.v] ([transport/quic/transport.cpp]): dialling a multiaddress.
      Theorem: which engine is asked to connect to which endpoint.

    Peers, connections and the host:
    - [AddressRepository.v], [PeerRepository.v]: what is known about peers
      ([peer/*_repository/*.cpp]).  Theorems: the address book lists every known
      address once, garbage collection is exact, failed addresses move to the
      end; the protocol repository refines a set per peer.
    - [ConnectionManager.v] ([network/connection_manager.cpp]): the lists of connections,
      with the calls that connections make back while they are closed, nested to any
      depth.  Theorem: the published events determine the connected peers, except for
      those that a garbage collection drops in silence.
    - [EventBus.v] ([include/libp2p/event/bus.hpp]): channels, subscriptions and the
      dispatch to callbacks that may use the bus and throw.  Theorems: who is called,
      that nobody is after unsubscribing, and that the connected peers of the
      connection manager can be followed over the bus.
    - [ListenerManager.v] ([network/listener_manager.cpp], [transport_manager.cpp],
      [transport/quic/listener.cpp]): listeners, the coroutines that accept, and
      the choice of a handler for a stream.  Theorems: registered means listening,
      a stream reaches the handler of the negotiated protocol; and how accepting
      stops.
    - [Dialer.v] ([network/dialer.cpp]): [dial] in pieces between its suspensions, in
      any interleaving.  Theorems: every dial returns, at most one attempt per
      peer, addresses are tried in order, connections are reused.
    - [Host.v] ([host/basic_host.cpp]): the object that composes these.  Theorems:
      the announced addresses, connectedness.
    - [CApi.v], [CApiSafe.v] ([c/libp2p_c.cpp], [include/libp2p/c/libp2p_c.h]): the C
      interface, with the objects behind its pointers, the memory of the client, the
      event loops and the coroutines that capture pointers, those of a destroyed host
      among them.  Theorems: the rules under
      which a client never meets undefined behaviour, one callback for every accepted
      call, which handler a stream reaches, the identity of a host; and where the code
      differs from its header.
    - [CEcho.v] ([example/01-echo/libp2p_echo_server_c.c]): the echo server, a program on
      that interface, with signals at every point of it.  Theorem: it respects the
      interface and echoes, unless a signal comes when its context is gone; and that such
      a signal uses it.
    - [CClient.v] ([example/01-echo/libp2p_echo_client_c.c]): the echo client, another one.
      Theorem: it respects the interface, sends its message once and prints the answer,
      under the same condition; and how it leaks its state.
    - [Identify.v] ([protocol/identify/identify.cpp]): hosts tell each other who they
      are.  Theorems: what one host says is found in the repositories of the other, and a
      message only changes what is known of its sender.

    Gossipsub ([protocol/gossip/gossip.cpp] with its headers):
    - [TimeCache.v]: the caches with time-outs; [Backoff.v]: the message history
      and the backoff wheel; [Score.v]: the peer score, in IEEE 754 doubles.
      Theorems: each refines a plain description (acceptance times, a window, a
      countdown per peer), and the score never throws.
    - [GossipState.v]: configuration, wire messages, peers and topics, the state
      of class [Gossip], and the monad of its handlers, in which [None] is a
      failed assertion, an exception or an access outside of a container; undefined
      behaviour that has no such place, in the crypto provider and in sorting, is
      recorded in the state, and runs end there.  [shared_ptr]s to peers are pointers
      into a heap.
    - [GossipOps.v], [GossipHandlers.v]: every member function of [Gossip], in
      the order of the source: batches and the writer coroutine with its
      suspension points, mesh primitives, subscription, publication, the inbound
      RPC handler with all control messages, the heartbeat, connections.  Signatures
      are made and verified by the code of [Keys.v].
    - [GossipFrame.v]: what handlers leave alone, as relations they respect.
    - [GossipInv.v], [GossipMesh.v], [GossipSafe.v], [GossipSafeRpc.v],
      [GossipSafeTick.v], [GossipRun.v]: the invariant [inv], that every handler
      keeps it and never fails, and the runs ([event], [dispatch], [reachable]):
      any interleaving of local calls, frames, timers, connection events and
      writer steps.
    - [GossipToy.v]: a concrete environment to run the model in.
    - [GossipUndefined.v]: the events that have undefined behaviour and why.
    - [GossipIds.v]: the default identifier of messages, which tells them apart when they
      are signed and does not when they are anonymous.
    - [GossipChat.v] ([example/03-gossip/]): the chat examples.  Theorems: what they
      publish and print; the anonymous one sends a single message.
    - [GossipRelay.v], [GossipProps.v], [GossipLimits.v], [GossipMeshSize.v]: what
      is sent to whom, delivery once, membership, forgetting of peers, the caps
      on IHAVE and IWANT, GRAFT during backoff, the size of the mesh, and the one
      way in which a heartbeat fails.

    ** Conventions

    Integers are [Z] (or [nat] for sizes and counts) with [u8], [u64] or [i64]
    where the source can wrap; strings and byte vectors are lists of bytes
    ([bytes]); unordered containers are stdpp's [gmap] and [gset].  Results of
    fallible code are [outcome], and [None] stands for what the source does not
    return from.

    The environment is a parameter: the clock, the random engine, the order in
    which an unordered container is traversed, protobuf's generated code, the keys of the
    node and what [Keys.v] uses of libraries (class [Env] of [GossipState.v], with the
    laws [EnvLaws]: a steady clock, shuffling and traversal permute, the node can sign, only the
    empty message has the empty encoding); readers and writers (classes of
    [Stream.v]); SHA-256 in [Multihash.v]; hexadecimal of qtils (class [Hex]);
    Boost's IP addresses and splitter and the percent escape (class [Ext]);
    protobuf's code for keys and for identify, the DER of RSA keys and the
    algorithms of OpenSSL and libsecp256k1 (classes [Protobuf], [RsaDer],
    [Providers] of [Keys.v], [IdentifyProto]); certificates (class [X509]); sockets,
    transports and the prefix tree of handlers (class [Network]); the traversal of
    connections (class [Traversal]); what the machine makes of an undefined shift
    (class [Machine] of [Keccak.v]); the functions of OpenSSL and libsecp256k1 with the
    laws their documentation states ([Hashers.v], [Providers.v], [Ecdh.v],
    [Certificate.v]); the events of lsquic ([Quic.v]) and the resolver of Boost.Asio
    ([QuicTransport.v]); the signals of Boost ([EventBus.v]); [std::hash] and what
    awaited calls of a host answer ([CApi.v]); hiredis and the Redis server, network
    interfaces and what a host answers ([Interop.v]); the constants of lsquic, what its
    calls call back and the answers of sockets ([QuicLoop.v]); the values of OpenSSL's
    macros ([Errors.v]) and what its contexts accept ([SslContext.v]).  Every theorem with such a hypothesis is
    applied to a concrete instance.

    Loops that are not structural carry fuel: ten rounds for a varint (a 64-bit
    number has ten groups of seven bits), the number of bytes for [read] and
    [write] (each round moves one at least), the number of proposals for the
    responder of [Multiselect.v], the number of bytes for a multiaddress, the output
    size for a stretched key, one iteration more than there are messages for the
    servers of [Protocols.v], ten rounds a second for the wait of [Interop.v] (which
    sleeps for a tenth of one), one read more than there are pieces of input in
    [GossipChat.v]; the lemmas [*_total] and the theorems show that this
    is enough.

    ** What is not modelled

    What lsquic, OpenSSL, Boost.Asio and the operating system do inside their calls is the
    source of the events and answers that the files above quantify over; the meaning of the
    methods and options of a TLS context is that of their documentation.  Exhaustion of
    memory (but for the objects of OpenSSL in [Certificate.v]), logging and the dependency injection carry no protocol logic; neither do
    constructors that only store their arguments and accessors that return a member.
    [EcKeyFromPrivateKeyBytes] is called by nothing.  Arguments of the chat examples and
    the C++ echo examples, which parse numbers and call one function each, are left out. *)

From Stdlib Require Export ZArith Lia ZifyBool ZifyNat.
From Stdlib Require Ascii.
From Stdlib Require Export (notations) String.
From stdpp Require Export base tactics numbers option sets gmap list.

#[export] Set Warnings "-clear-no-such-hyp".

Declare Scope p2p_scope.
Delimit Scope p2p_scope with p2p.
Global Open Scope Z_scope.

(** ** Results of fallible C++ code

    [outcome::result<T>] carries either a value or an error code. *)

Inductive outcome (E A : Type) : Type :=
| success (a : A)
| failure (e : E).
Arguments success {E A} a.
Arguments failure {E A} e.

Definition has_value {E A} (r : outcome E A) : bool :=
  match r with success _ => true | failure _ => false end.

(** [OUTCOME_TRY(x, e); k]: propagate the error of [e], else run [k]. *)
Notation "'TRY' x <- e ';;' k" :=
  (match e with success x => k | failure err => failure err end)
  (at level 10, x pattern, e at level 99, k at level 200)
  : p2p_scope.

#[export] Instance outcome_eq_dec {E A} `{EqDecision E, EqDecision A} :
  EqDecision (outcome E A).
Proof. solve_decision. Defined.

(** ** Machine integers and bytes

    A [uint8_t] or [uint64_t] is a [Z]; arithmetic that can wrap in the source
    is followed by the explicit reduction. *)

Definition u8 (z : Z) : Z := z mod 2 ^ 8.
Definition u64 (z : Z) : Z := z mod 2 ^ 64.

Definition is_byte (b : Z) : Prop := 0 <= b < 256.
Definition is_u64 (z : Z) : Prop := 0 <= z < 2 ^ 64.

#[export] Instance is_byte_dec b : Decision (is_byte b).
Proof. unfold is_byte. apply _. Defined.
#[export] Instance is_u64_dec b : Decision (is_u64 b).
Proof. unfold is_u64. apply _. Defined.

(** [Bytes], [BytesIn]: a list of bytes. *)
Abbreviation bytes := (list Z).
Abbreviation bytes_ok := (Forall is_byte).

(** A [std::string] literal as its bytes. *)
Definition str (s : String.string) : bytes :=
  map (fun c => Z.of_nat (Ascii.nat_of_ascii c)) (String.list_ascii_of_string s).
Arguments str s%_string.

(** [libp2p::saturating_sub] on [size_t]. *)
Definition saturating_sub (a b : nat) : nat :=
  if decide (b <= a)%nat then (a - b)%nat else 0%nat.

Lemma saturating_sub_spec a b : saturating_sub a b = (a - b)%nat.
Proof. unfold saturating_sub. case_decide; lia. Qed.

(** ** Tactics *)

(** [lia] with quotients and remainders replaced by their equations. *)
Ltac divlia := Z.to_euclidean_division_equations; lia.

(** Case analysis on every [if]/[match] scrutinee of the goal. *)
Ltac cases :=
  repeat (case_match; simplify_eq/=; try done).

(** Turn boolean tests in hypotheses into propositions [lia] understands. *)
Ltac reflect_bools :=
  repeat match goal with
  | H : (_ =? _)%Z = true |- _ => apply Z.eqb_eq in H
  | H : (_ =? _)%Z = false |- _ => apply Z.eqb_neq in H
  | H : (_ <? _)%Z = true |- _ => apply Z.ltb_lt in H
  | H : (_ <? _)%Z = false |- _ => apply Z.ltb_ge in H
  | H : (_ <=? _)%Z = true |- _ => apply Z.leb_le in H
  | H : (_ <=? _)%Z = false |- _ => apply Z.leb_gt in H
  | H : (_ =? _)%nat = true |- _ => apply Nat.eqb_eq in H
  | H : (_ =? _)%nat = false |- _ => apply Nat.eqb_neq in H
  | H : (_ <? _)%nat = true |- _ => apply Nat.ltb_lt in H
  | H : (_ <? _)%nat = false |- _ => apply Nat.ltb_ge in H
  | H : (_ <=? _)%nat = true |- _ => apply Nat.leb_le in H
  | H : (_ <=? _)%nat = false |- _ => apply Nat.leb_gt in H
  | H : (_ && _)%bool = true |- _ => apply andb_true_iff in H as [? ?]
  | H : (_ || _)%bool = false |- _ => apply orb_false_iff in H as [? ?]
  | H : negb _ = true |- _ => apply negb_true_iff in H
  | H : negb _ = false |- _ => apply negb_false_iff in H
  | H : bool_decide _ = true |- _ => apply bool_decide_eq_true in H
  | H : bool_decide _ = false |- _ => apply bool_decide_eq_false in H
  end.

(** ** Hints

    [p2p]: closing side conditions about bytes, machine words and lists. *)
Create HintDb p2p.
Create Rewrite HintDb p2p.

Lemma is_byte_u8 z : is_byte (u8 z).
Proof. unfold is_byte, u8. apply Z.mod_pos_bound. lia. Qed.

Lemma is_u64_u64 z : is_u64 (u64 z).
Proof. unfold is_u64, u64. apply Z.mod_pos_bound. lia. Qed.

Lemma u64_id z : is_u64 z -> u64 z = z.
Proof. unfold is_u64, u64. intros. by apply Z.mod_small. Qed.

Lemma u8_id z : is_byte z -> u8 z = z.
Proof. unfold is_byte, u8. intros. apply Z.mod_small. lia. Qed.

#[export] Hint Resolve is_byte_u8 is_u64_u64 : p2p.
#[export] Hint Rewrite u64_id u8_id using (auto with p2p) : p2p.

(** ** Bit operations as arithmetic *)

Lemma land_7f z : Z.land z 0x7f = z mod 128.
Proof. apply (Z.land_ones z 7). lia. Qed.

Lemma shiftr_7 z : Z.shiftr z 7 = z / 128.
Proof. apply (Z.shiftr_div_pow2 z 7). lia. Qed.

Lemma lor_disjoint a b n :
  0 <= n -> 0 <= a < 2 ^ n -> b mod 2 ^ n = 0 -> Z.lor a b = a + b.
Proof.
  intros Hn Ha Hb. rewrite <- Z.lxor_lor, Z.add_nocarry_lxor; [done| |];
  apply Z.bits_inj'; intros i Hi; rewrite Z.land_spec, Z.bits_0;
  destruct (decide (i < n)).
  1,3: replace (Z.testbit b i) with (Z.testbit (b mod 2 ^ n) i)
      by (rewrite Z.mod_pow2_bits_low; [done|lia]);
    by rewrite Hb, Z.bits_0, andb_false_r.
  all: rewrite <- (Z.mod_small a (2 ^ n)), Z.mod_pow2_bits_high by lia; done.
Qed.

Lemma lor_80 z : 0 <= z < 128 -> Z.lor z 0x80 = z + 128.
Proof. intros. by apply (lor_disjoint z 128 7). Qed.

(** ** Lists *)

Lemma bytes_ok_app l1 l2 : bytes_ok (l1 ++ l2) <-> bytes_ok l1 /\ bytes_ok l2.
Proof. apply Forall_app. Qed.

Lemma length_take_drop {A} (n : nat) (l : list A) :
  (n <= length l)%nat -> length (take n l) = n /\ length (drop n l) = (length l - n)%nat.
Proof. rewrite length_take, length_drop. lia. Qed.

Lemma drop_past {A} (p l : list A) x : drop (S (length p)) (p ++ x :: l) = l.
Proof. induction p; [done|]. simpl. done. Qed.

(** ** Exhaustive checks

    A boolean property of a byte (or a pair of bytes) holds once evaluation
    says so for each of the 256 values. *)

Lemma forall_below (n : Z) (P : Z -> bool) z :
  forallb P (seqZ 0 n) = true -> 0 <= z < n -> P z = true.
Proof.
  intros HP Hz. rewrite forallb_forall in HP. apply HP.
  apply list_elem_of_In, elem_of_seqZ. lia.
Qed.

Lemma forall_byte (P : Z -> bool) b :
  forallb P (seqZ 0 256) = true -> is_byte b -> P b = true.
Proof. intros HP Hb. by apply (forall_below 256). Qed.

Lemma forall_below2 (n m : Z) (P : Z -> Z -> bool) a b :
  forallb (fun a => forallb (P a) (seqZ 0 m)) (seqZ 0 n) = true ->
  0 <= a < n -> 0 <= b < m -> P a b = true.
Proof.
  intros HP Ha Hb. apply (forall_below m); [|done].
  by apply (forall_below n (fun a => forallb (P a) (seqZ 0 m))).
Qed.

Lemma high_bit b : is_byte b -> (Z.land b 0x80 =? 0) = (b <? 128).
Proof.
  intros Hb. apply eqb_prop.
  by apply (forall_byte (fun b => eqb (Z.land b 0x80 =? 0) (b <? 128))).
Qed.

Lemma low_bits b : is_byte b -> Z.land b (Z.lnot 0x80) = b mod 128.
Proof.
  intros Hb. apply Z.eqb_eq.
  by apply (forall_byte (fun b => Z.land b (Z.lnot 0x80) =? b mod 128)).
Qed.
