(* ===== verification/Errors.v ===== *)
(** * Messages of errors

    The categories of errors ([OUTCOME_CPP_DEFINE_CATEGORY] and [Q_ENUM_ERROR_CODE]) with
    the text that each function [message] returns, and [x509ErrorToStr] of
    [src/security/tls/tls_details.cpp].  The errors themselves are in the files of the
    components that return them; here a category is the table of its enumerators with
    their values and texts, in the order of the [switch]. *)

From S2P Require Import Prelude.

Record error_case := mkCaseOf { enumerator : bytes; value_of : Z; text_of_case : bytes }.
Definition mkCase (name : String.string) (v : Z) (text : String.string) : error_case := mkCaseOf (str name) v (str text).
Arguments mkCase name%_string v text%_string.
(** What is returned after the [switch], or [None] for [abort()]. *)
Record category := mkCategory { error_cases : list error_case; unknown_text : option bytes }.

(** The [switch] of a category. *)
Fixpoint switch (cases : list error_case) (otherwise : option bytes) (e : Z) : option bytes :=
  match cases with
  | [] => otherwise
  | c :: cases => if e =? value_of c then Some (text_of_case c) else switch cases otherwise e
  end.
Definition message (c : category) (e : Z) : option bytes := switch (error_cases c) (unknown_text c) e.

Definition CryptoProviderError : category := mkCategory
  [mkCase "INVALID_KEY_TYPE" 1 "failed to unmarshal key type, invalid value";
   mkCase "UNKNOWN_KEY_TYPE" 2 "failed to unmarshal key";
   mkCase "FAILED_UNMARSHAL_DATA" 3 "google protobuf error, failed to unmarshal data";
   mkCase "SIGNATURE_GENERATION_FAILED" 4 "error while signing data";
   mkCase "SIGNATURE_VERIFICATION_FAILED" 5 "error while verifying signature"]
  (Some (str "unknown CryptoProviderError code")).
Definition OpenSslError : category := mkCategory
  [mkCase "FAILED_INITIALIZE_CONTEXT" 1 "failed to initialize context";
   mkCase "FAILED_INITIALIZE_OPERATION" 2 "failed to initialize operation";
   mkCase "FAILED_ENCRYPT_UPDATE" 3 "failed to update encryption";
   mkCase "FAILED_DECRYPT_UPDATE" 4 "failed to update decryption";
   mkCase "FAILED_ENCRYPT_FINALIZE" 5 "failed to finalize encryption";
   mkCase "FAILED_DECRYPT_FINALIZE" 6 "failed to finalize decryption";
   mkCase "WRONG_IV_SIZE" 7 "wrong iv size";
   mkCase "WRONG_KEY_SIZE" 8 "wrong key size";
   mkCase "STREAM_FINALIZED" 9 "stream encryption(decryption) has been already finalized"]
  (Some (str "unknown CryptoProviderError code")).
Definition HmacProviderError : category := mkCategory
  [mkCase "UNSUPPORTED_HASH_METHOD" 1 "hash method id provided is not supported";
   mkCase "FAILED_CREATE_CONTEXT" 2 "failed to create context";
   mkCase "FAILED_INITIALIZE_CONTEXT" 3 "failed to initialize context";
   mkCase "FAILED_UPDATE_DIGEST" 4 "failed to update digest";
   mkCase "FAILED_FINALIZE_DIGEST" 5 "failed to finalize digest";
   mkCase "WRONG_DIGEST_SIZE" 6 "wrong digest size"]
  (Some (str "unknown HmacProviderError code")).
Definition RandomProviderError : category := mkCategory
  [mkCase "FAILED_OPEN_FILE" 2 "failed to open file at specified path";
   mkCase "TOKEN_NOT_EXISTS" 1 "specified random source doesn't exist in system";
   mkCase "FAILED_FETCH_BYTES" 3 "failed to fetch bytes from source";
   mkCase "INVALID_PROVIDER_TYPE" 4 "invalid or unsupported random provider type"]
  (Some (str "unknown RandomProviderError code")).
Definition KeyGeneratorError : category := mkCategory
  [mkCase "CANNOT_GENERATE_UNSPECIFIED" 1 "you need to specify valid key type";
   mkCase "UNKNOWN_KEY_TYPE" 2 "unknown key type";
   mkCase "GENERATOR_NOT_INITIALIZED" 3 "generator not initialized";
   mkCase "KEY_GENERATION_FAILED" 4 "key generation failed";
   mkCase "KEY_DERIVATION_FAILED" 5 "failed to derive key";
   mkCase "FILE_NOT_FOUND" 6 "file not found";
   mkCase "FAILED_TO_READ_FILE" 7 "failed to read file";
   mkCase "INCORRECT_BITS_COUNT" 8 "incorrect bits count";
   mkCase "WRONG_KEY_TYPE" 10 "incorrect key type";
   mkCase "UNSUPPORTED_KEY_TYPE" 9 "key type is not supported";
   mkCase "CANNOT_LOAD_UNSPECIFIED" 11 "cannot load unspecified key";
   mkCase "GET_KEY_BYTES_FAILED" 12 "failed to get key bytes from PKEY";
   mkCase "INTERNAL_ERROR" 13 "internal error happened";
   mkCase "UNSUPPORTED_CURVE_TYPE" 14 "cannot init requested curve for key generation"]
  (Some (str "unknown key generation error")).
Definition KeyValidatorError : category := mkCategory
  [mkCase "WRONG_PUBLIC_KEY_SIZE" 1 "public key has wrong size";
   mkCase "WRONG_PRIVATE_KEY_SIZE" 2 "private key has wrong size";
   mkCase "INVALID_PUBLIC_KEY" 3 "public key cannot be decoded";
   mkCase "INVALID_PRIVATE_KEY" 4 "private key cannot be decoded";
   mkCase "KEYS_DONT_MATCH" 5 "public key is not derived from private";
   mkCase "DIFFERENT_KEY_TYPES" 6 "key types in pair don't match";
   mkCase "UNSUPPORTED_CRYPTO_ALGORYTHM" 7 "crypto algorythm is not implemented";
   mkCase "UNKNOWN_CRYPTO_ALGORYTHM" 8 "unknown crypto algorythm"]
  (Some (str "unknown KeyValidator error")).
Definition CryptoProviderImpl_Error : category := mkCategory
  [mkCase "UNKNOWN_CIPHER_TYPE" 1 "Unsupported cipher algorithm type was specified";
   mkCase "UNKNOWN_HASH_TYPE" 2 "Unsupported hash algorithm type was specified"]
  (Some (str "Unknown error")).
Definition TlsError : category := mkCategory
  [mkCase "TLS_CTX_INIT_FAILED" 1 "Cannot initialize SSL context";
   mkCase "TLS_NO_CERTIFICATE" 2 "No peer certificate";
   mkCase "TLS_INCOMPATIBLE_CERTIFICATE_EXTENSION" 3 "Incompatible TLS certificate extension";
   mkCase "TLS_PEER_VERIFY_FAILED" 4 "Peer verify failed";
   mkCase "TLS_UNEXPECTED_PEER_ID" 5 "Unexpected remote peer id";
   mkCase "TLS_REMOTE_PEER_NOT_AVAILABLE" 6 "Remote peer not available";
   mkCase "TLS_REMOTE_PUBKEY_NOT_AVAILABLE" 7 "Remote public key not available"]
  (Some (str "Tls: Unknown error")).
Definition Multihash_Error : category := mkCategory
  [mkCase "ZERO_INPUT_LENGTH" 1 "The length encoded in the header is zero";
   mkCase "INCONSISTENT_LENGTH" 4 "The length encoded in the input data header doesn't match the actual length of the input data";
   mkCase "INPUT_TOO_LONG" 2 "The length of the input exceeds the maximum length of 127";
   mkCase "INPUT_TOO_SHORT" 3 "The length of the input is less than the required minimum of two bytes for the multihash header"]
  (Some (str "Unknown error")).
Definition PeerId_FactoryError : category := mkCategory
  [mkCase "SUCCESS" 0 "success";
   mkCase "SHA256_EXPECTED" 1 "expected a sha-256 multihash"]
  (Some (str "unknown error")).
Definition PeerAddress_FactoryError : category := mkCategory
  [mkCase "ID_EXPECTED" 1 "peer id not found in the address string";
   mkCase "SHA256_EXPECTED" 3 "peer id is not SHA-256 hash";
   mkCase "NO_ADDRESSES" 2 "no addresses found"]
  (Some (str "unknown error")).
Definition PeerError : category := mkCategory
  [mkCase "SUCCESS" 0 "success";
   mkCase "NOT_FOUND" 1 "not found"]
  (Some (str "unknown")).
Definition Dialer_Error : category := mkCategory
  [mkCase "ANOTHER_DIAL_IN_PROGRESS" 1 "Another dial to the peer is in progress";
   mkCase "STATE_INCONSISTENCY" 2 "State inconsistency";
   mkCase "NO_DESTINATION_ADDRESS" 3 "No destination address";
   mkCase "ADDRESS_FAMILY_NOT_SUPPORTED" 4 "Address family not supported";
   mkCase "HOST_UNREACHABLE" 5 "Host unreachable"]
  (Some (str "unknown error")).
Definition ListenerManager_Error : category := mkCategory
  [mkCase "NO_HANDLER_FOUND" 1 "no handler was found for a given protocol"]
  (Some (str "unknown error")).
Definition EncodeError : category := mkCategory
  [mkCase "INVALID_CONTENT_TYPE" 1 "Content type does not conform the version";
   mkCase "INVALID_HASH_LENGTH" 3 "Hash length is invalid; Must be 32 bytes for sha256 in version 0";
   mkCase "INVALID_HASH_TYPE" 2 "Hash type is invalid; Must be sha256 in version 0";
   mkCase "INVALID_BASE_ENCODING" 5 "Invalid base encoding";
   mkCase "VERSION_UNSUPPORTED" 4 "Content identifier version unsupported"]
  (Some (str "Unknown error")).
Definition DecodeError : category := mkCategory
  [mkCase "EMPTY_MULTICODEC" 2 "Multicodec prefix is absent";
   mkCase "EMPTY_VERSION" 1 "Version is absent";
   mkCase "MALFORMED_VERSION" 3 "Version is malformed; Must be a non-negative integer";
   mkCase "RESERVED_VERSION" 4 "Version is greater than the latest version";
   mkCase "CID_TOO_SHORT" 5 "CID too short"]
  (Some (str "Unknown error")).
Definition BaseError : category := mkCategory
  [mkCase "INVALID_BASE64_INPUT" 2 "Input is not a valid base64 string";
   mkCase "INVALID_BASE58_INPUT" 1 "Input is not a valid base58 string";
   mkCase "INVALID_BASE32_INPUT" 3 "Input is not a valid base32 string";
   mkCase "NON_UPPERCASE_INPUT" 4 "Input is not in the uppercase hex";
   mkCase "NON_LOWERCASE_INPUT" 5 "Input is not in the lowercase hex"]
  (Some (str "Unknown error")).
Definition MultibaseCodecImpl_Error : category := mkCategory
  [mkCase "INPUT_TOO_SHORT" 2 "Input must be at least two bytes long";
   mkCase "UNSUPPORTED_BASE" 1 "The base is either not supported or does not exist"]
  (Some (str "Unknown error")).
Definition Multiaddress_Error : category := mkCategory
  [mkCase "INVALID_INPUT" 1 "invalid multiaddress input";
   mkCase "INVALID_PROTOCOL_VALUE" 3 "protocol value can not be casted to T";
   mkCase "PROTOCOL_NOT_FOUND" 2 "multiaddress does not contain given protocol"]
  (Some (str "unknown")).
Definition ConversionError : category := mkCategory
  [mkCase "ADDRESS_DOES_NOT_BEGIN_WITH_SLASH" 1 "An address should begin with a slash";
   mkCase "EMPTY_PROTOCOL" 2 "Empty protocol (single slash or duplicated slashes)";
   mkCase "NO_SUCH_PROTOCOL" 3 "Protocol with given code does not exist";
   mkCase "NOT_IMPLEMENTED" 4 "Conversion for this protocol is not implemented";
   mkCase "EMPTY_ADDRESS" 5 "Empty address (missed address or duplicated slashes)";
   mkCase "INVALID_ADDRESS" 6 "Invalid address"]
  (Some (str "Unknown error (libp2p::multi::converters::ConversionError)")).
Definition ProtocolMuxer_Error : category := mkCategory
  [mkCase "NEGOTIATION_FAILED" 1 "ProtocolMuxer: protocol negotiation failed";
   mkCase "INTERNAL_ERROR" 2 "ProtocolMuxer: internal error";
   mkCase "PROTOCOL_VIOLATION" 3 "ProtocolMuxer: peer error, incompatible multiselect protocol"]
  (Some (str "ProtocolMuxer: unknown")).
Definition QuicError : category := mkCategory
  [mkCase "HANDSHAKE_FAILED" 0 "HANDSHAKE_FAILED";
   mkCase "CONN_CLOSED" 1 "CONN_CLOSED";
   mkCase "STREAM_CLOSED" 2 "STREAM_CLOSED";
   mkCase "STREAM_READ_IN_PROGRESS" 3 "STREAM_READ_IN_PROGRESS";
   mkCase "STREAM_WRITE_IN_PROGRESS" 4 "STREAM_WRITE_IN_PROGRESS";
   mkCase "TOO_MANY_STREAMS" 5 "TOO_MANY_STREAMS";
   mkCase "CANT_CREATE_CONNECTION" 6 "CANT_CREATE_CONNECTION";
   mkCase "CANT_OPEN_STREAM" 7 "CANT_OPEN_STREAM"]
  None.
Definition Ping_Error : category := mkCategory
  [mkCase "INVALID_RESPONSE" 0 "Ping received invalid response"]
  None.
Definition ProtobufError : category := mkCategory
  [mkCase "DECODE_ERROR" 0 "Error decoding protobuf"]
  None.
Definition VarintError : category := mkCategory
  [mkCase "DECODE_SIZE" 0 "Error decoding varint";
   mkCase "MESSAGE_TOO_LONG" 1 "Message too long"]
  None.
Definition Redis_Error : category := mkCategory
  [mkCase "CONNECT_ERROR" 0 "CONNECT_ERROR";
   mkCase "PARSE_PORT_ERROR" 1 "PARSE_PORT_ERROR";
   mkCase "NO_REPLY" 2 "NO_REPLY";
   mkCase "REPLY_ERROR" 3 "REPLY_ERROR";
   mkCase "PING_REPLY_ERROR" 4 "PING_REPLY_ERROR";
   mkCase "BLPOP_REPLY_ERROR" 5 "BLPOP_REPLY_ERROR"]
  None.

Definition categories : list category :=
  [CryptoProviderError; OpenSslError; HmacProviderError; RandomProviderError; KeyGeneratorError; KeyValidatorError; CryptoProviderImpl_Error; TlsError; Multihash_Error; PeerId_FactoryError; PeerAddress_FactoryError; PeerError; Dialer_Error; ListenerManager_Error; EncodeError; DecodeError; BaseError; MultibaseCodecImpl_Error; Multiaddress_Error; ConversionError; ProtocolMuxer_Error; QuicError; Ping_Error; ProtobufError; VarintError; Redis_Error].

(** ** Errors of certificates *)

Definition x509_names : list bytes := str <$>
  ["X509_V_OK"%string;
   "X509_V_ERR_UNSPECIFIED"%string;
   "X509_V_ERR_UNABLE_TO_GET_ISSUER_CERT"%string;
   "X509_V_ERR_UNABLE_TO_GET_CRL"%string;
   "X509_V_ERR_UNABLE_TO_DECRYPT_CERT_SIGNATURE"%string;
   "X509_V_ERR_UNABLE_TO_DECRYPT_CRL_SIGNATURE"%string;
   "X509_V_ERR_UNABLE_TO_DECODE_ISSUER_PUBLIC_KEY"%string;
   "X509_V_ERR_CERT_SIGNATURE_FAILURE"%string;
   "X509_V_ERR_CRL_SIGNATURE_FAILURE"%string;
   "X509_V_ERR_CERT_NOT_YET_VALID"%string;
   "X509_V_ERR_CERT_HAS_EXPIRED"%string;
   "X509_V_ERR_CRL_NOT_YET_VALID"%string;
   "X509_V_ERR_CRL_HAS_EXPIRED"%string;
   "X509_V_ERR_ERROR_IN_CERT_NOT_BEFORE_FIELD"%string;
   "X509_V_ERR_ERROR_IN_CERT_NOT_AFTER_FIELD"%string;
   "X509_V_ERR_ERROR_IN_CRL_LAST_UPDATE_FIELD"%string;
   "X509_V_ERR_ERROR_IN_CRL_NEXT_UPDATE_FIELD"%string;
   "X509_V_ERR_OUT_OF_MEM"%string;
   "X509_V_ERR_DEPTH_ZERO_SELF_SIGNED_CERT"%string;
   "X509_V_ERR_SELF_SIGNED_CERT_IN_CHAIN"%string;
   "X509_V_ERR_UNABLE_TO_GET_ISSUER_CERT_LOCALLY"%string;
   "X509_V_ERR_UNABLE_TO_VERIFY_LEAF_SIGNATURE"%string;
   "X509_V_ERR_CERT_CHAIN_TOO_LONG"%string;
   "X509_V_ERR_CERT_REVOKED"%string;
   "X509_V_ERR_INVALID_CA"%string;
   "X509_V_ERR_PATH_LENGTH_EXCEEDED"%string;
   "X509_V_ERR_INVALID_PURPOSE"%string;
   "X509_V_ERR_CERT_UNTRUSTED"%string;
   "X509_V_ERR_CERT_REJECTED"%string;
   "X509_V_ERR_SUBJECT_ISSUER_MISMATCH"%string;
   "X509_V_ERR_AKID_SKID_MISMATCH"%string;
   "X509_V_ERR_AKID_ISSUER_SERIAL_MISMATCH"%string;
   "X509_V_ERR_KEYUSAGE_NO_CERTSIGN"%string;
   "X509_V_ERR_UNABLE_TO_GET_CRL_ISSUER"%string;
   "X509_V_ERR_UNHANDLED_CRITICAL_EXTENSION"%string;
   "X509_V_ERR_KEYUSAGE_NO_CRL_SIGN"%string;
   "X509_V_ERR_UNHANDLED_CRITICAL_CRL_EXTENSION"%string;
   "X509_V_ERR_INVALID_NON_CA"%string;
   "X509_V_ERR_PROXY_PATH_LENGTH_EXCEEDED"%string;
   "X509_V_ERR_KEYUSAGE_NO_DIGITAL_SIGNATURE"%string;
   "X509_V_ERR_PROXY_CERTIFICATES_NOT_ALLOWED"%string;
   "X509_V_ERR_INVALID_EXTENSION"%string;
   "X509_V_ERR_INVALID_POLICY_EXTENSION"%string;
   "X509_V_ERR_NO_EXPLICIT_POLICY"%string;
   "X509_V_ERR_DIFFERENT_CRL_SCOPE"%string;
   "X509_V_ERR_UNSUPPORTED_EXTENSION_FEATURE"%string;
   "X509_V_ERR_UNNESTED_RESOURCE"%string;
   "X509_V_ERR_PERMITTED_VIOLATION"%string;
   "X509_V_ERR_EXCLUDED_VIOLATION"%string;
   "X509_V_ERR_SUBTREE_MINMAX"%string;
   "X509_V_ERR_APPLICATION_VERIFICATION"%string;
   "X509_V_ERR_UNSUPPORTED_CONSTRAINT_TYPE"%string;
   "X509_V_ERR_UNSUPPORTED_CONSTRAINT_SYNTAX"%string;
   "X509_V_ERR_UNSUPPORTED_NAME_SYNTAX"%string;
   "X509_V_ERR_CRL_PATH_VALIDATION_ERROR"%string;
   "X509_V_ERR_HOSTNAME_MISMATCH"%string;
   "X509_V_ERR_EMAIL_MISMATCH"%string;
   "X509_V_ERR_IP_ADDRESS_MISMATCH"%string;
   "X509_V_ERR_INVALID_CALL"%string;
   "X509_V_ERR_STORE_LOOKUP"%string;
   "X509_V_ERR_NAME_CONSTRAINTS_WITHOUT_SANS"%string].
(** The values of the macros are those of OpenSSL. *)
Class X509Errors := { x509_value : bytes -> Z }.
Section Certificates.
Context `{X509Errors}.
Fixpoint x509_switch (names : list bytes) (error : Z) : bytes :=
  match names with
  | [] => str "unknown x509 error"
  | n :: names => if error =? x509_value n then n else x509_switch names error
  end.
Definition x509ErrorToStr (error : Z) : bytes := x509_switch x509_names error.
End Certificates.

(** ** Proofs *)

(** A table whose values and texts tell the enumerators apart. *)
Definition table_ok (c : category) : bool :=
  bool_decide (NoDup (value_of <$> error_cases c)) && bool_decide (NoDup (text_of_case <$> error_cases c))
  && match unknown_text c with None => true | Some t => bool_decide (t ∉ text_of_case <$> error_cases c) end.

Lemma switch_case cases otherwise x :
  NoDup (value_of <$> cases) -> x ∈ cases -> switch cases otherwise (value_of x) = Some (text_of_case x).
Proof.
  induction cases as [|y cases IH]; [by intros _ ?%not_elem_of_nil|]. cbn. intros [Hy Hn]%NoDup_cons [->|Hx]%elem_of_cons; [by rewrite Z.eqb_refl|].
  destruct (Z.eqb_spec (value_of x) (value_of y)) as [E|_]; [|by apply IH]. destruct Hy. rewrite <- E. by apply list_elem_of_fmap_2.
Qed.
Lemma switch_other cases otherwise e : e ∉ (value_of <$> cases) -> switch cases otherwise e = otherwise.
Proof.
  induction cases as [|y cases IH]; [done|]. cbn. rewrite not_elem_of_cons. intros [Hne Hr]. rewrite IH by done. by case (Z.eqb_spec e (value_of y)).
Qed.
Lemma nodup_fmap {A B} (f : A -> B) (l : list A) x y : NoDup (f <$> l) -> x ∈ l -> y ∈ l -> f x = f y -> x = y.
Proof.
  induction l as [|z l IH]; [by intros _ ?%not_elem_of_nil|]. cbn. intros [Hz Hn]%NoDup_cons [->|Hx]%elem_of_cons [->|Hy]%elem_of_cons E; [done|..|auto].
  - destruct Hz. rewrite E. by apply list_elem_of_fmap_2.
  - destruct Hz. rewrite <- E. by apply list_elem_of_fmap_2.
Qed.

(** Every message identifies its error.  In each of the categories of the program an error
    has the text written for it, two errors of a category never have the same text, and
    none has the text of an unknown one; a number that is no error of the category gives
    that text, or ends the program. *)
Theorem messages_identify c :
  c ∈ categories ->
  (forall x, x ∈ error_cases c -> message c (value_of x) = Some (text_of_case x) /\ unknown_text c <> Some (text_of_case x))
  /\ (forall x y, x ∈ error_cases c -> y ∈ error_cases c -> message c (value_of x) = message c (value_of y) -> x = y)
  /\ (forall e, e ∉ (value_of <$> error_cases c) -> message c e = unknown_text c).
Proof.
  intros Hc. assert (table_ok c = true) as Hok.
  { assert (Forall (fun c => table_ok c = true) categories) as F
      by (unfold categories; rewrite !Forall_cons, Forall_nil; split_and!; try reflexivity; done).
    rewrite Forall_forall in F. by apply F. }
  unfold table_ok in Hok. rewrite !andb_true_iff, !bool_decide_eq_true in Hok. destruct Hok as [[Hv Ht] Hu].
  split; [|split; [|intros e; apply switch_other]].
  - intros x Hx. split; [by apply switch_case|]. intros E. rewrite E in Hu. apply bool_decide_eq_true in Hu.
    destruct Hu. by apply list_elem_of_fmap_2.
  - intros x y Hx Hy. unfold message. rewrite !switch_case by done. intros [= E]. by eapply nodup_fmap.
Qed.

(** The names of certificate errors, if the macros have different values, as the [switch]
    requires. *)
Lemma x509_names_exact `{X509Errors} n :
  NoDup (x509_value <$> x509_names) -> n ∈ x509_names -> x509ErrorToStr (x509_value n) = n.
Proof.
  unfold x509ErrorToStr. generalize x509_names. induction l as [|m l IH]; [by intros _ ?%not_elem_of_nil|]. cbn.
  intros [Hm Hn]%NoDup_cons [->|Hin]%elem_of_cons; [by rewrite Z.eqb_refl|].
  destruct (Z.eqb_spec (x509_value n) (x509_value m)) as [E|_]; [|by apply IH]. destruct Hm. rewrite <- E. by apply list_elem_of_fmap_2.
Qed.

(** An unknown code of [OpenSslError] is reported as one of [CryptoProviderError]. *)
Lemma openssl_unknown_misnamed : message OpenSslError 100 = message CryptoProviderError 100.
Proof. reflexivity. Qed.
