(* ===== verification/Varint.v ===== *)
(** * Varints: the length prefix of every leanp2p wire message

    [include/libp2p/basic/encode_varint.hpp] (EncodeVarint),
    [src/basic/varint_prefix_reader.cpp] (VarintPrefixReader) and
    [src/multi/uvarint.cpp] (UVarint).  The three classes implement unsigned
    LEB128; the specification they share is [leb_value] (the number a sequence
    of 7-bit groups denotes) and [varint_split] (where a varint ends). *)

From S2P Require Import Prelude.

(** ** Specification *)

(** The number denoted by little-endian 7-bit groups. *)
Fixpoint leb_value (bs : bytes) : Z :=
  match bs with
  | [] => 0
  | b :: bs => b mod 128 + 128 * leb_value bs
  end.

(** The bytes up to and including the first one without continuation flag. *)
Fixpoint varint_split (bs : bytes) : option (bytes * bytes) :=
  match bs with
  | [] => None
  | b :: bs =>
      if b <? 128 then Some ([b], bs)
      else match varint_split bs with
           | Some (p, rest) => Some (b :: p, rest)
           | None => None
           end
  end.

(** What it takes to be a [uint64_t] varint: at most 10 bytes, no overflow. *)
Definition varint_fits (p : bytes) : bool :=
  (length p <=? 10)%nat && (leb_value p <? 2 ^ 64).

(** Every byte carries the continuation flag. *)
Abbreviation all_cont := (Forall (fun b => 128 <= b < 256)).

(** ** EncodeVarint *)

Module EncodeVarint.

(** The [do ... while (value != 0)] loop of the constructor; [room] is the free
    part of [buffer_], [None] the failing [assert(size_ < buffer_.size())]. *)
Fixpoint encode_loop (room : nat) (value : Z) : option bytes :=
  match room with
  | O => None
  | S room =>
      let byte := Z.land value 0x7f in
      let value := Z.shiftr value 7 in
      let byte := if value =? 0 then byte else Z.lor byte 0x80 in
      if value =? 0 then Some [byte]
      else match encode_loop room value with
           | Some rest => Some (byte :: rest)
           | None => None
           end
  end.

Definition EncodeVarint (value : Z) : option bytes := encode_loop 10 value.

End EncodeVarint.

(** ** VarintPrefixReader *)

Module Reader.

Inductive State := kUnderflow | kReady | kOverflow | kError.

#[global] Instance State_eq_dec : EqDecision State.
Proof. solve_decision. Defined.

Record VarintPrefixReader := mkReader {
  value_ : Z;
  state_ : State;
  got_bytes_ : Z
}.

Definition kHighBitMask : Z := 0x80.
Definition kMaxBytes : Z := 10.

(** A default-constructed reader, and [reset]. *)
Definition fresh : VarintPrefixReader := mkReader 0 kUnderflow 0.
Definition reset (r : VarintPrefixReader) : VarintPrefixReader := fresh.

Definition consume (r : VarintPrefixReader) (byte : Z) :
    State * VarintPrefixReader :=
  match state_ r with
  | kUnderflow =>
      let next_byte_needed := negb (Z.land byte kHighBitMask =? 0) in
      let tmp := Z.land byte (Z.lnot kHighBitMask) in
      let got := u8 (got_bytes_ r + 1) in
      if (got =? kMaxBytes) && ((1 <? tmp) || next_byte_needed) then
        (kOverflow, mkReader (value_ r) kOverflow got)
      else
        let tmp := if got =? 1 then tmp
                   else u64 (Z.shiftl tmp (7 * (got - 1))) in
        let value := u64 (value_ r + tmp) in
        let st := if next_byte_needed then state_ r else kReady in
        (st, mkReader value st got)
  | kReady => (kError, r)
  | kOverflow => (kOverflow, r)
  | kError => (kError, r)
  end.

(** The [for (auto byte : buffer)] loop of [consume(BytesIn &)]. *)
Fixpoint consume_loop (r : VarintPrefixReader) (s : State) (consumed : nat)
    (buffer : bytes) : State * VarintPrefixReader * nat :=
  match buffer with
  | [] => (s, r, consumed)
  | byte :: rest =>
      let '(s', r') := consume r byte in
      match s' with
      | kUnderflow => consume_loop r' s' (S consumed) rest
      | _ => (s', r', S consumed)
      end
  end.

(** [consume(BytesIn &buffer)]: state, reader and what is left in [buffer]. *)
Definition consume_buffer (r : VarintPrefixReader) (buffer : bytes) :
    State * VarintPrefixReader * bytes :=
  let '(s, r', consumed) := consume_loop r (state_ r) 0 buffer in
  let cut := bool_decide (0 < consumed)%nat
             && (bool_decide (s = kReady) || bool_decide (s = kUnderflow)) in
  (s, r', if cut then drop consumed buffer else buffer).

End Reader.

(** ** UVarint *)

Module UVarint.

(** [bytes_], the encoded form a [UVarint] stores. *)
Abbreviation UVarint := bytes.

(** [UVarint(uint64_t)]: [push_back] into a vector, so the loop is bounded by
    the number of groups only; a 64-bit number has at most ten. *)
Fixpoint push_groups (fuel : nat) (number : Z) (bytes_ : bytes) : option bytes :=
  match fuel with
  | O => None
  | S fuel =>
      let byte := Z.land (u8 number) 0x7f in
      let number := Z.shiftr number 7 in
      let byte := if number =? 0 then byte else Z.lor byte 0x80 in
      let bytes_ := bytes_ ++ [byte] in
      if number =? 0 then Some bytes_ else push_groups fuel number bytes_
  end.

Definition of_uint64 (number : Z) : UVarint :=
  default [] (push_groups 10 number []).

(** The loop of [calculateSize]; the result is [size] after the loop together
    with [last_byte_found]. *)
Fixpoint calculateSize_loop (size : nat) (shift : Z) (bs : bytes) : nat * bool :=
  match bs with
  | [] => (size, false)
  | byte :: bs =>
      let size := S size in
      let slice := Z.land byte 0x7f in
      if (64 <=? shift)
         || negb (Z.shiftr (u64 (Z.shiftl slice shift)) shift =? slice)
      then (0%nat, false)
      else if Z.land byte 0x80 =? 0 then (size, true)
      else calculateSize_loop size (shift + 7) bs
  end.

Definition calculateSize (varint_bytes : bytes) : nat :=
  let '(size, last_byte_found) := calculateSize_loop 0 0 varint_bytes in
  if last_byte_found then size else 0%nat.

Definition create (varint_bytes : bytes) : option UVarint :=
  let size := calculateSize varint_bytes in
  if decide (0 < size)%nat then Some (take size varint_bytes) else None.

Fixpoint toUInt64_loop (res index : Z) (bs : bytes) : Z :=
  match bs with
  | [] => res
  | byte :: bs =>
      toUInt64_loop (u64 (res + u64 (Z.shiftl (Z.land byte 0x7f) index)))
                    (index + 7) bs
  end.

Definition toUInt64 (v : UVarint) : Z := toUInt64_loop 0 0 v.

(** [operator==] and [operator<]: the first compares encodings, the second
    values. *)
Definition eqb (l r : UVarint) : bool := bool_decide (l = r).
Definition ltb (l r : UVarint) : bool := toUInt64 l <? toUInt64 r.

End UVarint.

(** ** Facts about the specification *)

Lemma leb_value_nonneg bs : 0 <= leb_value bs.
Proof. induction bs; simpl; [lia|]. divlia. Qed.

Lemma leb_value_bound bs : leb_value bs < 128 ^ Z.of_nat (length bs).
Proof.
  induction bs as [|b bs IH]; simpl; [lia|].
  rewrite Nat2Z.inj_succ, Z.pow_succ_r by lia. divlia.
Qed.

Lemma leb_value_app p q :
  leb_value (p ++ q) = leb_value p + 128 ^ Z.of_nat (length p) * leb_value q.
Proof.
  induction p as [|b p IH]; cbn [app leb_value length]; [lia|].
  rewrite IH, Nat2Z.inj_succ, Z.pow_succ_r by lia. lia.
Qed.

Lemma varint_split_app bs p rest :
  varint_split bs = Some (p, rest) -> bs = p ++ rest.
Proof.
  revert p; induction bs as [|b bs IH]; intros p H; simplify_eq/=.
  repeat case_match; simplify_eq/=; f_equal; eauto.
Qed.

Lemma varint_split_nonempty bs p rest :
  varint_split bs = Some (p, rest) -> (0 < length p)%nat.
Proof. destruct bs; intros; simplify_eq/=; repeat case_match; simplify_eq/=; lia. Qed.

(** A varint followed by anything splits there. *)
Lemma varint_split_extend p rest :
  varint_split p = Some (p, []) -> varint_split (p ++ rest) = Some (p, rest).
Proof.
  induction p as [|b p IH]; simpl; [done|]. intros H.
  destruct (b <? 128); [by simplify_eq|].
  destruct (varint_split p) as [[p' r]|]; simplify_eq. by rewrite IH.
Qed.

(** ** Encoding *)

Lemma encode_loop_spec n v :
  0 <= v < 128 ^ Z.of_nat n -> (0 < n)%nat ->
  exists l, EncodeVarint.encode_loop n v = Some l /\ leb_value l = v
    /\ (length l <= n)%nat /\ bytes_ok l /\ varint_split l = Some (l, []).
Proof.
  revert v. induction n as [|n IH]; intros v Hv Hn; [lia|].
  cbn [EncodeVarint.encode_loop]. rewrite land_7f, shiftr_7.
  destruct (v / 128 =? 0) eqn:E; reflect_bools.
  - exists [v mod 128]. cbn. repeat split; [divlia|lia| |].
    + constructor; [|done]. unfold is_byte. divlia.
    + replace (v mod 128 <? 128) with true by divlia. done.
  - rewrite Nat2Z.inj_succ, Z.pow_succ_r in Hv by lia.
    destruct (IH (v / 128)) as (l & Hl & Hval & Hlen & Hok & Hsp).
    { divlia. } { destruct n; [divlia|lia]. }
    rewrite Hl, lor_80 by divlia.
    exists (v mod 128 + 128 :: l). cbn [leb_value length varint_split].
    rewrite Hval, Hsp. repeat split; [divlia|lia| |].
    + constructor; [|done]. unfold is_byte. divlia.
    + replace (_ <? 128) with false by divlia. done.
Qed.

(** The facts every client of [EncodeVarint] uses. *)
Lemma EncodeVarint_ok v :
  is_u64 v ->
  exists l, EncodeVarint.EncodeVarint v = Some l /\ leb_value l = v
    /\ (length l <= 10)%nat /\ bytes_ok l /\ varint_split l = Some (l, []).
Proof.
  intros Hv. apply encode_loop_spec; [|lia].
  unfold is_u64 in Hv. change (128 ^ Z.of_nat 10) with (2 ^ 70). lia.
Qed.

(** The encoding is canonical: a varint that denotes [v] is never shorter. *)
Lemma encode_loop_shortest n v l p :
  EncodeVarint.encode_loop n v = Some l -> leb_value p = v -> p <> [] ->
  (length l <= length p)%nat.
Proof.
  revert v l p. induction n as [|n IH]; intros v l p Hl Hp Hne; [done|].
  cbn [EncodeVarint.encode_loop] in Hl. rewrite land_7f, shiftr_7 in Hl.
  destruct p as [|b p]; [done|]. cbn [leb_value] in Hp.
  destruct (v / 128 =? 0) eqn:E; simplify_eq/=; [lia|]. reflect_bools.
  destruct (EncodeVarint.encode_loop n _) as [rest|] eqn:Hr; simplify_eq/=.
  pose proof (leb_value_nonneg p).
  assert (leb_value p = (b mod 128 + 128 * leb_value p) / 128) as Hq by divlia.
  enough (length rest <= length p)%nat by lia.
  eapply (IH _ _ p Hr Hq). intros ->. simpl in E. divlia.
Qed.

(** ** Decoding with VarintPrefixReader *)

(** The state reached after the continuation bytes [pre]. *)
Definition reader_after (pre : bytes) : Reader.VarintPrefixReader :=
  Reader.mkReader (leb_value pre) Reader.kUnderflow (Z.of_nat (length pre)).

Lemma group_shift b n :
  0 <= n -> Z.shiftl (b mod 128) (7 * n) = 128 ^ n * (b mod 128).
Proof.
  intros Hn. rewrite Z.shiftl_mul_pow2, Z.pow_mul_r by lia. change (2 ^ 7) with 128. lia.
Qed.

(** The tenth group only has room for one bit. *)
Lemma leb_value_tenth pre b :
  length pre = 9%nat ->
  (leb_value (pre ++ [b]) <? 2 ^ 64) = negb (1 <? b mod 128).
Proof.
  intros Hl. pose proof (leb_value_bound pre) as H. pose proof (leb_value_nonneg pre).
  rewrite leb_value_app. cbn [leb_value]. rewrite Hl in *.
  change (128 ^ Z.of_nat 9) with 9223372036854775808 in *. change (2 ^ 64) with 18446744073709551616.
  pose proof (Z.mod_pos_bound b 128 ltac:(lia)). lia.
Qed.

Lemma leb_value_early pre b :
  (length pre < 9)%nat -> leb_value (pre ++ [b]) < 2 ^ 63.
Proof.
  intros Hl. pose proof (leb_value_bound (pre ++ [b])) as H.
  eapply Z.lt_le_trans; [exact H|]. change (2 ^ 63) with (128 ^ 9).
  apply Z.pow_le_mono_r; rewrite ?length_app; simpl; lia.
Qed.

(** One step: the accumulator is the value of the bytes seen so far, without
    wrap-around, or the reader stops with [kOverflow]. *)
Lemma consume_spec pre b :
  all_cont pre -> (length pre <= 9)%nat -> is_byte b ->
  Reader.consume (reader_after pre) b =
    if varint_fits (pre ++ [b]) && negb ((length pre =? 9)%nat && negb (b <? 128))
    then if b <? 128
         then (Reader.kReady, Reader.mkReader (leb_value (pre ++ [b])) Reader.kReady
                                (Z.of_nat (length pre) + 1))
         else (Reader.kUnderflow, reader_after (pre ++ [b]))
    else (Reader.kOverflow,
          Reader.mkReader (leb_value pre) Reader.kOverflow (Z.of_nat (length pre) + 1)).
Proof.
  intros Hpre Hlen Hb. unfold Reader.consume, reader_after; cbn [Reader.state_ Reader.got_bytes_ Reader.value_].
  unfold Reader.kHighBitMask, Reader.kMaxBytes.
  rewrite (high_bit b Hb), (low_bits b Hb).
  rewrite u8_id by (unfold is_byte; lia).
  unfold varint_fits. rewrite length_app; cbn [length].
  replace (length pre + 1 <=? 10)%nat with true by lia. cbn [andb].
  destruct (length pre =? 9)%nat eqn:E9; reflect_bools.
  - replace (Z.of_nat (length pre) + 1 =? 10) with true by lia.
    rewrite leb_value_tenth by lia. cbn [andb].
    destruct (1 <? b mod 128) eqn:E1; cbn [negb andb orb]; [done|].
    destruct (b <? 128) eqn:Eb; cbn [negb]; [|done].
    replace (Z.of_nat (length pre) + 1 =? 1) with false by lia.
    replace (7 * (Z.of_nat (length pre) + 1 - 1)) with (7 * Z.of_nat (length pre)) by lia.
    rewrite group_shift by lia.
    pose proof (leb_value_tenth pre b ltac:(lia)) as Hv. rewrite E1 in Hv. reflect_bools.
    pose proof (leb_value_nonneg pre). rewrite leb_value_app in *. cbn [leb_value] in *.
    simpl in Hv. reflect_bools.
    assert (0 <= 128 ^ Z.of_nat (length pre) * (b mod 128)) by (apply Z.mul_nonneg_nonneg; [lia|divlia]).
    rewrite !u64_id by (unfold is_u64; rewrite ?u64_id; unfold is_u64; lia).
    do 2 f_equal. lia.
  - replace (Z.of_nat (length pre) + 1 =? 10) with false by lia. cbn [andb].
    pose proof (leb_value_early pre b ltac:(lia)) as Hv.
    replace (leb_value (pre ++ [b]) <? 2 ^ 64) with true by lia.
    pose proof (leb_value_nonneg pre). rewrite leb_value_app in *. cbn [leb_value] in *.
    assert (0 <= 128 ^ Z.of_nat (length pre) * (b mod 128)) by (apply Z.mul_nonneg_nonneg; [lia|divlia]).
    assert ((if Z.of_nat (length pre) + 1 =? 1 then b mod 128
             else u64 (Z.shiftl (b mod 128) (7 * (Z.of_nat (length pre) + 1 - 1))))
            = 128 ^ Z.of_nat (length pre) * (b mod 128)) as ->.
    { destruct (_ =? 1) eqn:E1; reflect_bools.
      - replace (Z.of_nat (length pre)) with 0 by lia. lia.
      - replace (7 * (Z.of_nat (length pre) + 1 - 1)) with (7 * Z.of_nat (length pre)) by lia.
        rewrite group_shift, u64_id by (unfold is_u64; lia). done. }
    rewrite u64_id by (unfold is_u64; lia).
    destruct (b <? 128); cbn [negb andb];
      rewrite ?length_app, ?leb_value_app; cbn [length leb_value];
      repeat f_equal; lia.
Qed.

(** What a fresh reader makes of [bs], in terms of the specification. *)
Definition reader_result (bs : bytes) : Reader.State * Reader.VarintPrefixReader * nat :=
  let overflowed :=
    (Reader.kOverflow, Reader.mkReader (leb_value (take 9 bs)) Reader.kOverflow 10, 10%nat) in
  match varint_split bs with
  | Some (p, _) =>
      if varint_fits p
      then (Reader.kReady,
            Reader.mkReader (leb_value p) Reader.kReady (Z.of_nat (length p)), length p)
      else overflowed
  | None =>
      if (length bs <? 10)%nat
      then (Reader.kUnderflow, reader_after bs, length bs)
      else overflowed
  end.

Lemma varint_split_cont pre bs :
  all_cont pre ->
  varint_split (pre ++ bs) =
    match varint_split bs with
    | Some (p, rest) => Some (pre ++ p, rest)
    | None => None
    end.
Proof.
  induction 1 as [|b pre Hb Hpre IH]; cbn [app varint_split].
  - by destruct (varint_split bs) as [[]|].
  - replace (b <? 128) with false by lia. rewrite IH.
    by destruct (varint_split bs) as [[]|].
Qed.

Lemma varint_fits_early pre b : (length pre < 9)%nat -> varint_fits (pre ++ [b]) = true.
Proof.
  intros Hl. unfold varint_fits. pose proof (leb_value_early pre b Hl).
  rewrite length_app; cbn [length]. lia.
Qed.

Lemma consume_loop_spec pre bs :
  all_cont pre -> (length pre <= 9)%nat -> bytes_ok bs ->
  Reader.consume_loop (reader_after pre) Reader.kUnderflow (length pre) bs
  = reader_result (pre ++ bs).
Proof.
  intros Hpre Hlen Hbs. revert pre Hpre Hlen.
  induction Hbs as [|b bs Hb Hbs IH]; intros pre Hpre Hlen; unfold reader_result;
    rewrite varint_split_cont by done; cbn [varint_split Reader.consume_loop].
  { rewrite app_nil_r. by replace (length pre <? 10)%nat with true by lia. }
  rewrite consume_spec by done.
  destruct (decide (length pre = 9%nat)) as [E9|N9].
  - replace (length pre =? 9)%nat with true by lia. rewrite E9.
    rewrite take_app_length' by done.
    destruct (b <? 128) eqn:Eb; cbn [negb andb].
    + rewrite andb_true_r. destruct (varint_fits (pre ++ [b])); [|done].
      rewrite length_app, E9. done.
    + rewrite andb_false_r. destruct (varint_split bs) as [[p r]|] eqn:Ep.
      * apply varint_split_nonempty in Ep. unfold varint_fits.
        replace (length (pre ++ b :: p) <=? 10)%nat with false; [done|].
        rewrite length_app; cbn [length]. lia.
      * replace (length (pre ++ b :: bs) <? 10)%nat with false; [done|].
        rewrite length_app; cbn [length]. lia.
  - replace (length pre =? 9)%nat with false by lia.
    rewrite varint_fits_early by lia. cbn [andb negb].
    destruct (b <? 128) eqn:Eb.
    + rewrite varint_fits_early, length_app, Nat.add_1_r, Nat2Z.inj_succ by lia. done.
    + replace (S (length pre)) with (length (pre ++ [b])) by (rewrite length_app; simpl; lia).
      rewrite IH.
      * unfold reader_result. rewrite varint_split_cont.
        -- rewrite <- app_assoc. cbn [app].
           destruct (varint_split bs) as [[p r]|]; [|done].
           by rewrite <- app_assoc.
        -- apply Forall_app. split; [done|]. constructor; [|done].
           unfold is_byte in Hb. reflect_bools. lia.
      * apply Forall_app. split; [done|]. constructor; [|done].
        unfold is_byte in Hb. reflect_bools. lia.
      * rewrite length_app; cbn [length]. lia.
Qed.

(** [consume(BytesIn &)] on a fresh reader is [varint_split] plus the 64-bit
    check. *)
Lemma consume_buffer_fresh bs :
  bytes_ok bs ->
  Reader.consume_buffer Reader.fresh bs =
    match varint_split bs with
    | Some (p, rest) =>
        if varint_fits p
        then (Reader.kReady,
              Reader.mkReader (leb_value p) Reader.kReady (Z.of_nat (length p)), rest)
        else ((reader_result bs).1, bs)
    | None =>
        if (length bs <? 10)%nat
        then ((reader_result bs).1, [])
        else ((reader_result bs).1, bs)
    end.
Proof.
  intros Hbs. unfold Reader.consume_buffer. cbn [Reader.state_ Reader.fresh].
  change Reader.fresh with (reader_after []). change 0%nat with (length (@nil Z)) at 1.
  rewrite consume_loop_spec by (done || simpl; lia). cbn [app]. unfold reader_result.
  destruct (varint_split bs) as [[p rest]|] eqn:Ep.
  - destruct (varint_fits p); [|by simpl].
    pose proof (varint_split_nonempty _ _ _ Ep). apply varint_split_app in Ep as ->.
    rewrite bool_decide_true, bool_decide_true by done. cbn [andb orb].
    by rewrite drop_app_length.
  - destruct (length bs <? 10)%nat; [|by simpl]. simpl.
    destruct bs as [|b bs]; [done|]. simpl. by rewrite drop_all.
Qed.

(** ** UVarint *)

Lemma push_groups_encode fuel n acc :
  UVarint.push_groups fuel n acc = (fun l => acc ++ l) <$> EncodeVarint.encode_loop fuel n.
Proof.
  revert n acc. induction fuel as [|fuel IH]; intros n acc; [done|].
  cbn [UVarint.push_groups EncodeVarint.encode_loop].
  assert (Z.land (u8 n) 0x7f = Z.land n 0x7f) as ->.
  { rewrite !land_7f. unfold u8. divlia. }
  destruct (Z.shiftr n 7 =? 0); [done|]. rewrite IH.
  destruct (EncodeVarint.encode_loop fuel _); [|done]. cbn. by rewrite <- app_assoc.
Qed.

Lemma of_uint64_encode n l :
  EncodeVarint.EncodeVarint n = Some l -> UVarint.of_uint64 n = l.
Proof.
  unfold EncodeVarint.EncodeVarint, UVarint.of_uint64. intros H.
  by rewrite push_groups_encode, H.
Qed.

Lemma slice_fits b k :
  (k < 10)%nat ->
  (Z.shiftr (u64 (Z.shiftl (b mod 128) (7 * Z.of_nat k))) (7 * Z.of_nat k) =? b mod 128)
  = (k <? 9)%nat || negb (1 <? b mod 128).
Proof.
  intros Hk. pose proof (Z.mod_pos_bound b 128 ltac:(lia)) as Hb.
  revert Hb. generalize (b mod 128) as g. intros g Hg. apply eqb_prop.
  apply (forall_below2 10 128 (fun k g => eqb
    (Z.shiftr (u64 (Z.shiftl g (7 * Z.of_nat (Z.to_nat k)))) (7 * Z.of_nat (Z.to_nat k)) =? g)
    ((Z.to_nat k <? 9)%nat || negb (1 <? g))) (Z.of_nat k) g) in Hg; [|by vm_compute|lia].
  by rewrite Nat2Z.id in Hg.
Qed.

Lemma calculateSize_loop_spec pre bs :
  all_cont pre -> (length pre <= 10)%nat -> bytes_ok bs ->
  UVarint.calculateSize_loop (length pre) (7 * Z.of_nat (length pre)) bs =
    match varint_split bs with
    | Some (p, _) =>
        if varint_fits (pre ++ p) then (length (pre ++ p), true) else (0%nat, false)
    | None => ((UVarint.calculateSize_loop (length pre) (7 * Z.of_nat (length pre)) bs).1, false)
    end.
Proof.
  intros Hpre Hlen Hbs. revert pre Hpre Hlen.
  induction Hbs as [|b bs Hb Hbs IH]; intros pre Hpre Hlen; [done|].
  assert (forall p, varint_split bs = p -> match p with Some (p, _) => (0 < length p)%nat | None => True end)
    as Hne. { intros [[p r]|]; [|done]. apply varint_split_nonempty. }
  cbn [UVarint.calculateSize_loop varint_split]. rewrite (high_bit b Hb), land_7f.
  destruct (decide (length pre = 10%nat)) as [E10|N10].
  { replace (64 <=? 7 * Z.of_nat (length pre)) with true by lia. cbn [orb].
    destruct (b <? 128); [|specialize (Hne _ eq_refl); destruct (varint_split bs) as [[p r]|]; [|done]];
      unfold varint_fits; replace (length (pre ++ _) <=? 10)%nat with false; try done;
      rewrite length_app; cbn [length]; lia. }
  replace (64 <=? 7 * Z.of_nat (length pre)) with false by lia.
  rewrite slice_fits by lia. cbn [orb].
  assert (varint_fits (pre ++ [b]) = (length pre <? 9)%nat || negb (1 <? b mod 128)) as Hfit.
  { destruct (decide (length pre = 9%nat)) as [E9|N9].
    - unfold varint_fits. rewrite leb_value_tenth by done. rewrite length_app, E9. done.
    - rewrite varint_fits_early by lia. symmetry. apply orb_true_iff. left. lia. }
  rewrite <- Hfit. destruct (b <? 128) eqn:Eb.
  { destruct (varint_fits _); [|done]. cbn [negb]. by rewrite length_app, Nat.add_1_r. }
  assert (all_cont (pre ++ [b])) as Hpre'.
  { apply Forall_app. split; [done|]. constructor; [|done]. unfold is_byte in Hb. lia. }
  replace (S (length pre)) with (length (pre ++ [b])) by (rewrite length_app; simpl; lia).
  replace (7 * Z.of_nat (length pre) + 7) with (7 * Z.of_nat (length (pre ++ [b])))
    by (rewrite length_app; simpl; lia).
  destruct (varint_fits (pre ++ [b])) eqn:Efit; cbn [negb].
  - rewrite IH by (done || rewrite length_app; simpl; lia).
    destruct (varint_split bs) as [[p r]|]; [|done]. by rewrite <- app_assoc.
  - specialize (Hne _ eq_refl). destruct (varint_split bs) as [[p r]|]; [|done].
    symmetry in Hfit. reflect_bools. unfold varint_fits.
    replace (length (pre ++ b :: p) <=? 10)%nat with false; [done|].
    rewrite length_app; cbn [length]. lia.
Qed.

Lemma calculateSize_spec bs :
  bytes_ok bs ->
  UVarint.calculateSize bs =
    match varint_split bs with
    | Some (p, _) => if varint_fits p then length p else 0%nat
    | None => 0%nat
    end.
Proof.
  intros Hbs. unfold UVarint.calculateSize.
  pose proof (calculateSize_loop_spec [] bs) as H. cbn [length app] in H.
  change (7 * Z.of_nat 0) with 0 in H. rewrite H by (done || lia).
  destruct (varint_split bs) as [[p r]|]; [|done]. by destruct (varint_fits p).
Qed.

Lemma create_spec bs :
  bytes_ok bs ->
  UVarint.create bs =
    match varint_split bs with
    | Some (p, _) => if varint_fits p then Some p else None
    | None => None
    end.
Proof.
  intros Hbs. unfold UVarint.create. rewrite calculateSize_spec by done.
  destruct (varint_split bs) as [[p r]|] eqn:E; [|done].
  pose proof (varint_split_nonempty _ _ _ E). apply varint_split_app in E as ->.
  destruct (varint_fits p); [|done].
  rewrite decide_True by done. by rewrite take_app_length.
Qed.

Lemma toUInt64_loop_spec res k bs :
  0 <= res -> 0 <= k -> res + 128 ^ k * leb_value bs < 2 ^ 64 ->
  UVarint.toUInt64_loop res (7 * k) bs = res + 128 ^ k * leb_value bs.
Proof.
  revert res k. induction bs as [|b bs IH]; intros res k Hres Hk H;
    cbn [UVarint.toUInt64_loop leb_value] in *; [lia|].
  rewrite land_7f, group_shift by done.
  pose proof (leb_value_nonneg bs). pose proof (Z.mod_pos_bound b 128 ltac:(lia)).
  assert (0 < 128 ^ k) by (apply Z.pow_pos_nonneg; lia).
  assert (0 <= 128 ^ k * (b mod 128)) by nia.
  assert (0 <= 128 ^ k * leb_value bs) by nia.
  rewrite (u64_id (128 ^ k * _)) by (unfold is_u64; nia).
  rewrite u64_id by (unfold is_u64; nia).
  replace (7 * k + 7) with (7 * (k + 1)) by lia.
  rewrite IH; rewrite ?Z.pow_add_r, ?Z.pow_1_r; nia.
Qed.

Lemma toUInt64_fits p : varint_fits p = true -> UVarint.toUInt64 p = leb_value p.
Proof.
  unfold varint_fits, UVarint.toUInt64. intros H. reflect_bools.
  pose proof (toUInt64_loop_spec 0 0 p) as Hs.
  rewrite Z.mul_0_r, Z.pow_0_r in Hs. rewrite Hs; lia.
Qed.

(** The encoder's output always fits. *)
Lemma encode_fits v l :
  is_u64 v -> EncodeVarint.EncodeVarint v = Some l -> varint_fits l = true.
Proof.
  intros Hv Hl. destruct (EncodeVarint_ok v Hv) as (l' & Hl' & Hval & Hlen & _).
  simplify_eq. unfold varint_fits, is_u64 in *. lia.
Qed.

(** Reading a varint in front of more bytes. *)
Lemma uvarint_prefix v l rest :
  is_u64 v -> EncodeVarint.EncodeVarint v = Some l -> bytes_ok rest ->
  UVarint.create (l ++ rest) = Some l /\ UVarint.calculateSize (l ++ rest) = length l
  /\ UVarint.toUInt64 l = v /\ bytes_ok (l ++ rest).
Proof.
  intros Hv Hl Hr. destruct (EncodeVarint_ok v Hv) as (l' & Hl' & Hval & _ & Hok & Hsp).
  assert (l' = l) as -> by congruence.
  pose proof (encode_fits _ l Hv Hl) as Hf.
  assert (bytes_ok (l ++ rest)) as Hb by by apply bytes_ok_app.
  rewrite create_spec, calculateSize_spec, (varint_split_extend l rest Hsp), Hf by done.
  by rewrite toUInt64_fits by done.
Qed.

(** ** Properties *)

(** Whatever 64-bit value is written with [EncodeVarint], the constructor's
    bounds assertion holds (at most 10 bytes), and a fresh [VarintPrefixReader]
    fed those bytes followed by anything else stops exactly after them, in
    state [kReady] with the same value. *)
Theorem varint_roundtrip v rest :
  is_u64 v -> bytes_ok rest ->
  exists enc, EncodeVarint.EncodeVarint v = Some enc
    /\ (length enc <= 10)%nat
    /\ Reader.consume_buffer Reader.fresh (enc ++ rest)
       = (Reader.kReady, Reader.mkReader v Reader.kReady (Z.of_nat (length enc)), rest).
Proof.
  intros Hv Hrest. destruct (EncodeVarint_ok v Hv) as (l & Hl & Hval & Hlen & Hok & Hsp).
  exists l. split_and!; [done|done|].
  rewrite consume_buffer_fresh by (by apply bytes_ok_app).
  by rewrite (varint_split_extend l rest Hsp), (encode_fits v l Hv Hl), Hval.
Qed.

Lemma varint_roundtrip_witness :
  exists enc, EncodeVarint.EncodeVarint 624485 = Some enc
    /\ (length enc <= 10)%nat
    /\ Reader.consume_buffer Reader.fresh (enc ++ [7; 200])
       = (Reader.kReady, Reader.mkReader 624485 Reader.kReady (Z.of_nat (length enc)), [7; 200]).
Proof.
  apply (varint_roundtrip 624485 [7; 200]).
  - unfold is_u64. lia.
  - repeat constructor; vm_compute; done.
Defined.

(** On any input, a fresh [VarintPrefixReader] is ready exactly when the
    input starts with a terminated varint of at most 10 bytes below [2^64]; it
    then holds that number (the accumulator never wraps) and has cut exactly
    its bytes; it asks for more exactly when fewer than 10 bytes came, all with
    the continuation flag; otherwise it reports overflow and leaves the buffer
    alone. *)
Theorem reader_classifies bs :
  bytes_ok bs ->
  let '(s, r, rest) := Reader.consume_buffer Reader.fresh bs in
  match s with
  | Reader.kReady =>
      exists p, bs = p ++ rest /\ varint_split bs = Some (p, rest)
        /\ varint_fits p = true /\ Reader.value_ r = leb_value p /\ is_u64 (Reader.value_ r)
        /\ Reader.got_bytes_ r = Z.of_nat (length p)
  | Reader.kUnderflow => varint_split bs = None /\ (length bs < 10)%nat /\ rest = []
  | Reader.kOverflow =>
      rest = bs /\
      match varint_split bs with
      | Some (p, _) => varint_fits p = false
      | None => (10 <= length bs)%nat
      end
  | Reader.kError => False
  end.
Proof.
  intros Hbs. rewrite consume_buffer_fresh by done. unfold reader_result.
  destruct (varint_split bs) as [[p rest]|] eqn:E.
  - destruct (varint_fits p) eqn:F; [|done]. exists p.
    pose proof (leb_value_nonneg p). split_and!; try done.
    + by apply varint_split_app.
    + unfold varint_fits in F. reflect_bools. unfold is_u64. cbn. lia.
  - destruct (length bs <? 10)%nat eqn:L; reflect_bools; done.
Qed.

Lemma reader_classifies_witness :
  let '(s, r, rest) := Reader.consume_buffer Reader.fresh [0xe5; 0x8e; 0x26; 9] in
  match s with
  | Reader.kReady =>
      exists p, [0xe5; 0x8e; 0x26; 9] = p ++ rest
        /\ varint_split [0xe5; 0x8e; 0x26; 9] = Some (p, rest)
        /\ varint_fits p = true /\ Reader.value_ r = leb_value p /\ is_u64 (Reader.value_ r)
        /\ Reader.got_bytes_ r = Z.of_nat (length p)
  | Reader.kUnderflow =>
      varint_split [0xe5; 0x8e; 0x26; 9] = None /\ (length [0xe5; 0x8e; 0x26; 9] < 10)%nat
      /\ rest = []
  | Reader.kOverflow =>
      rest = [0xe5; 0x8e; 0x26; 9] /\
      match varint_split [0xe5; 0x8e; 0x26; 9] with
      | Some (p, _) => varint_fits p = false
      | None => (10 <= length [0xe5; 0x8e; 0x26; 9])%nat
      end
  | Reader.kError => False
  end.
Proof.
  apply (reader_classifies [0xe5; 0x8e; 0x26; 9]). repeat constructor; vm_compute; done.
Defined.

(** The two decoders of the code base agree: [UVarint::create] accepts an
    input exactly when [VarintPrefixReader] becomes ready on it, with the same
    number of bytes and the same value. *)
Theorem uvarint_agrees_with_reader bs :
  bytes_ok bs ->
  match UVarint.create bs, Reader.consume_buffer Reader.fresh bs with
  | Some u, (s, r, rest) =>
      s = Reader.kReady /\ bs = u ++ rest /\ UVarint.toUInt64 u = Reader.value_ r
  | None, (s, _, _) => s <> Reader.kReady
  end.
Proof.
  intros Hbs. rewrite create_spec, consume_buffer_fresh by done. unfold reader_result.
  destruct (varint_split bs) as [[p rest]|] eqn:E; [|by destruct (length bs <? 10)%nat].
  destruct (varint_fits p) eqn:F; [|done]. split_and!; [done| |].
  - by apply varint_split_app.
  - by rewrite toUInt64_fits.
Qed.

Lemma uvarint_agrees_with_reader_witness :
  match UVarint.create [0xff; 0x01; 3], Reader.consume_buffer Reader.fresh [0xff; 0x01; 3] with
  | Some u, (s, r, rest) =>
      s = Reader.kReady /\ [0xff; 0x01; 3] = u ++ rest
      /\ UVarint.toUInt64 u = Reader.value_ r
  | None, (s, _, _) => s <> Reader.kReady
  end.
Proof.
  apply (uvarint_agrees_with_reader [0xff; 0x01; 3]). repeat constructor; vm_compute; done.
Defined.

(** [UVarint(n)] stores the shortest varint of [n]: it reads back as [n],
    [create] recognises it in front of any bytes, and no other byte sequence
    that denotes [n] is shorter. *)
Theorem uvarint_canonical n rest p :
  is_u64 n -> bytes_ok rest -> leb_value p = n -> p <> [] ->
  UVarint.toUInt64 (UVarint.of_uint64 n) = n
  /\ UVarint.create (UVarint.of_uint64 n ++ rest) = Some (UVarint.of_uint64 n)
  /\ (length (UVarint.of_uint64 n) <= length p)%nat.
Proof.
  intros Hn Hrest Hp Hne. destruct (EncodeVarint_ok n Hn) as (l & Hl & Hval & Hlen & Hok & Hsp).
  rewrite (of_uint64_encode n l Hl). pose proof (encode_fits n l Hn Hl) as F. split_and!.
  - by rewrite toUInt64_fits.
  - rewrite create_spec by (by apply bytes_ok_app).
    by rewrite (varint_split_extend l rest Hsp), F.
  - by eapply encode_loop_shortest.
Qed.

Lemma uvarint_canonical_witness :
  UVarint.toUInt64 (UVarint.of_uint64 300) = 300
  /\ UVarint.create (UVarint.of_uint64 300 ++ [1]) = Some (UVarint.of_uint64 300)
  /\ (length (UVarint.of_uint64 300) <= length [0xac; 0x82; 0x00])%nat.
Proof.
  apply (uvarint_canonical 300 [1] [0xac; 0x82; 0x00]).
  - unfold is_u64. lia.
  - repeat constructor; vm_compute; done.
  - reflexivity.
  - discriminate.
Defined.
