(* ===== verification/Stream.v ===== *)
(** * Byte streams and length-prefixed messages

    [include/libp2p/basic/read.hpp], [write.hpp], [read_varint.hpp] and
    [write_varint.hpp]: the coroutines that move exact numbers of bytes over a
    [Reader]/[Writer] and frame messages with a varint length.

    The abstract classes [basic::Reader] and [basic::Writer] are the type
    classes [Reader] and [Writer]; what their implementations promise is stated
    by [ReaderLaws] and [WriterLaws], against which the framing theorem is
    proved.  A coroutine is a function of the stream's state; [None] is the
    exhausted fuel of a loop, which the totality lemmas exclude. *)

From S2P Require Import Prelude Varint.

(** [std::logic_error] is thrown, the others are returned. *)
Inductive stream_error (E : Type) :=
| IoError (e : E)
| LogicError
| DECODE_SIZE
| MESSAGE_TOO_LONG.
Arguments IoError {E} e.
Arguments LogicError {E}.
Arguments DECODE_SIZE {E}.
Arguments MESSAGE_TOO_LONG {E}.

(** [readSome(out)] fills a prefix of [out] and returns its length: here, the
    bytes of that prefix, given [out.size()]. *)
Class Reader (S E : Type) := readSome : S -> nat -> S * outcome E bytes.

(** [writeSome(in)] returns how many bytes of [in] were written. *)
Class Writer (W E : Type) := writeSome : W -> bytes -> W * outcome E nat.

(** A stream with bytes pending delivers a non-empty prefix of them, no longer
    than asked. *)
Class ReaderLaws (S E : Type) `{!Reader S E} := {
  pending : S -> bytes;
  readSome_progress : forall s n, pending s <> [] -> (0 < n)%nat ->
    exists k s', (0 < k <= n)%nat /\ (k <= length (pending s))%nat
      /\ readSome s n = (s', success (take k (pending s)))
      /\ pending s' = drop k (pending s)
}.

(** A working writer accepts a non-empty prefix. *)
Class WriterLaws (W E : Type) `{!Writer W E} := {
  written : W -> bytes;
  writeSome_progress : forall w bs, bs <> [] ->
    exists k w', (0 < k <= length bs)%nat
      /\ writeSome w bs = (w', success k)
      /\ written w' = written w ++ take k bs
}.

Section Coroutines.
Context {S E : Type} `{!Reader S E}.

(** [read(reader, out)]: the loop ends when [out] has no room left; every
    iteration fills at least one byte, so [want] iterations are enough. *)
Fixpoint read_loop (fuel : nat) (s : S) (want : nat) (got : bytes) :
    option (S * outcome (stream_error E) bytes) :=
  if decide (want = 0%nat) then Some (s, success got)
  else match fuel with
  | O => None
  | Datatypes.S fuel =>
      match readSome s want with
      | (s, failure e) => Some (s, failure (IoError e))
      | (s, success chunk) =>
          let n := length chunk in
          if decide (n = 0%nat) then Some (s, failure LogicError)
          else if decide (want < n)%nat then Some (s, failure LogicError)
          else read_loop fuel s (want - n)%nat (got ++ chunk)
      end
  end.

Definition read (s : S) (n : nat) : option (S * outcome (stream_error E) bytes) :=
  read_loop n s n [].

(** [readVarint]: one byte at a time while the state machine underflows; it
    leaves [kUnderflow] with the tenth byte at the latest. *)
Fixpoint readVarint_loop (fuel : nat) (s : S) (varint : Reader.VarintPrefixReader) :
    option (S * outcome (stream_error E) Z) :=
  match Reader.state_ varint with
  | Reader.kUnderflow =>
      match fuel with
      | O => None
      | Datatypes.S fuel =>
          match read s 1 with
          | None => None
          | Some (s, failure e) => Some (s, failure e)
          | Some (s, success byte) =>
              readVarint_loop fuel s (Reader.consume varint (nth 0 byte 0)).2
          end
      end
  | Reader.kReady => Some (s, success (Reader.value_ varint))
  | _ => Some (s, failure DECODE_SIZE)
  end.

Definition readVarint (s : S) : option (S * outcome (stream_error E) Z) :=
  readVarint_loop 10 s Reader.fresh.

Definition readVarintMessage (s : S) (max_size : Z) :
    option (S * outcome (stream_error E) bytes) :=
  match readVarint s with
  | None => None
  | Some (s, failure e) => Some (s, failure e)
  | Some (s, success size) =>
      if max_size <? size then Some (s, failure MESSAGE_TOO_LONG)
      else read s (Z.to_nat size)
  end.

(** The default [max_size] of [readVarintMessage]. *)
Definition default_max_size : Z := Z.shiftl 32 20.

Context {W : Type} `{!Writer W E}.

Fixpoint write_loop (fuel : nat) (w : W) (inp : bytes) :
    option (W * outcome (stream_error E) unit) :=
  if decide (inp = []) then Some (w, success tt)
  else match fuel with
  | O => None
  | Datatypes.S fuel =>
      match writeSome w inp with
      | (w, failure e) => Some (w, failure (IoError e))
      | (w, success n) =>
          if decide (n = 0%nat) then Some (w, failure LogicError)
          else if decide (length inp < n)%nat then Some (w, failure LogicError)
          else write_loop fuel w (drop n inp)
      end
  end.

Definition write (w : W) (inp : bytes) : option (W * outcome (stream_error E) unit) :=
  write_loop (length inp) w inp.

(** [None] also stands for the failing assertion of [EncodeVarint]. *)
Definition writeVarintMessage (w : W) (message : bytes) :
    option (W * outcome (stream_error E) unit) :=
  match EncodeVarint.EncodeVarint (Z.of_nat (length message)) with
  | None => None
  | Some prefix =>
      match write w prefix with
      | None => None
      | Some (w, failure e) => Some (w, failure e)
      | Some (w, success _) => write w message
      end
  end.

End Coroutines.

(** ** Totality: the loops end for every reader and writer *)

Section Totality.
Context {S E : Type} `{!Reader S E}.

Lemma read_loop_total fuel (s : S) want got :
  (want <= fuel)%nat -> is_Some (read_loop fuel s want got).
Proof.
  revert s want got. induction fuel as [|fuel IH]; intros s want got H;
    cbn [read_loop]; case_decide; try by eexists.
  - lia.
  - destruct (readSome s want) as [s' [chunk|e]]; [|by eexists].
    repeat case_decide; try by eexists. apply IH. lia.
Qed.

Lemma read_loop_length fuel (s s' : S) want got out :
  read_loop fuel s want got = Some (s', success out) ->
  length out = (length got + want)%nat.
Proof.
  revert s want got. induction fuel as [|fuel IH]; intros s want got H;
    cbn [read_loop] in H; case_decide; simplify_eq/=; [lia|lia|].
  destruct (readSome s want) as [s1 [chunk|e]]; simplify_eq.
  repeat case_decide; simplify_eq. apply IH in H. rewrite H, length_app. lia.
Qed.

(** Ten bytes decide a varint: [got_bytes_] counts them. *)
Lemma consume_counts r b :
  Reader.state_ r = Reader.kUnderflow -> 0 <= Reader.got_bytes_ r <= 9 ->
  let r' := (Reader.consume r b).2 in
  Reader.state_ r' = Reader.kUnderflow ->
  Reader.got_bytes_ r' = Reader.got_bytes_ r + 1 /\ Reader.got_bytes_ r' <= 9.
Proof.
  intros Hst Hg. unfold Reader.consume. rewrite Hst. unfold Reader.kMaxBytes.
  rewrite (u8_id (_ + 1)) by (unfold is_byte; lia).
  destruct (_ + 1 =? 10) eqn:E10; reflect_bools; cbn [andb].
  - destruct ((1 <? _) || negb _) eqn:Eo; [done|]. reflect_bools.
    rewrite H0. cbn. done.
  - cbn. intros _. lia.
Qed.

Lemma readVarint_loop_total fuel (s : S) r :
  (Reader.state_ r = Reader.kUnderflow -> 0 <= Reader.got_bytes_ r <= 9
     /\ (10 - Z.to_nat (Reader.got_bytes_ r) <= fuel)%nat) ->
  is_Some (readVarint_loop fuel s r).
Proof.
  revert s r. induction fuel as [|fuel IH]; intros s r H; cbn [readVarint_loop];
    destruct (Reader.state_ r) eqn:Est; try by eexists.
  - destruct H; [done|]. lia.
  - destruct H as [Hg Hf]; [done|]. unfold read.
    destruct (read_loop_total 1 s 1 []) as [[s' [out|e]] ->]; [lia| |by eexists].
    apply IH. intros Hst'. destruct (consume_counts r (nth 0 out 0) Est Hg Hst'). lia.
Qed.

Lemma readVarint_total (s : S) : is_Some (readVarint s).
Proof. apply readVarint_loop_total. simpl. lia. Qed.
End Totality.

(** ** Exact transfer over lawful streams *)

Section Lawful.
Context {S E : Type} `{!Reader S E, !ReaderLaws S E}.

Lemma read_loop_lawful fuel (s : S) want got :
  (want <= fuel)%nat -> (want <= length (pending s))%nat ->
  exists s', read_loop fuel s want got = Some (s', success (got ++ take want (pending s)))
    /\ pending s' = drop want (pending s).
Proof.
  revert s want got. induction fuel as [|fuel IH]; intros s want got Hf Hw;
    cbn [read_loop]; case_decide; subst; rewrite ?take_0, ?app_nil_r; eauto; [lia|].
  destruct (readSome_progress s want) as (k & s' & Hk & Hkp & -> & Hp).
  { intros E'. rewrite E' in Hw. simpl in Hw. lia. } { lia. }
  assert (length (take k (pending s)) = k) as -> by (rewrite length_take; lia).
  rewrite !decide_False by lia.
  destruct (IH s' (want - k)%nat (got ++ take k (pending s))) as (s2 & -> & Hp2).
  { lia. } { rewrite Hp, length_drop. lia. }
  exists s2. split.
  - do 3 f_equal. rewrite <- app_assoc, Hp. f_equal.
    rewrite take_take_drop. f_equal. lia.
  - rewrite Hp2, Hp, drop_drop. f_equal. lia.
Qed.

Lemma read_lawful (s : S) n :
  (n <= length (pending s))%nat ->
  exists s', read s n = Some (s', success (take n (pending s)))
    /\ pending s' = drop n (pending s).
Proof. intros. by apply (read_loop_lawful n s n []). Qed.

(** Reading a varint off a lawful stream is what [consume_loop] does to the
    pending bytes. *)
Lemma readVarint_loop_lawful fuel (s : S) pre p rest :
  pending s = p ++ rest -> varint_split p = Some (p, []) -> bytes_ok p ->
  varint_fits (pre ++ p) = true -> all_cont pre -> (length p <= fuel)%nat ->
  exists s', readVarint_loop fuel s (reader_after pre)
      = Some (s', success (leb_value (pre ++ p)))
    /\ pending s' = rest.
Proof.
  revert s pre p. induction fuel as [|fuel IH]; intros s pre p Hp Hsp Hok Hfit Hpre Hl.
  { destruct p; [done|simpl in Hl; lia]. }
  destruct p as [|b p]; [done|]. inversion_clear Hok as [|?? Hb Hok'].
  cbn [readVarint_loop reader_after Reader.state_].
  destruct (read_lawful s 1) as (s1 & -> & Hs1). { rewrite Hp. simpl. lia. }
  rewrite Hp in *. cbn [app take drop nth] in *. rewrite drop_0 in Hs1.
  assert (length pre <= 9)%nat as H9.
  { unfold varint_fits in Hfit. rewrite length_app in Hfit. cbn [length] in Hfit. reflect_bools. lia. }
  fold (reader_after pre). rewrite consume_spec by done. cbn [varint_split] in Hsp.
  destruct (b <? 128) eqn:Eb; simplify_eq.
  - rewrite Hfit. cbn [negb andb]. rewrite andb_false_r. cbn [andb negb].
    exists s1. split; [|done]. by destruct fuel.
  - destruct (varint_split p) as [[p' r']|] eqn:Ep; simplify_eq.
    pose proof (varint_split_nonempty _ _ _ Ep) as Hne.
    assert ((length pre <? 9)%nat = true) as E9.
    { unfold varint_fits in Hfit. rewrite length_app in Hfit. cbn [length] in Hfit. reflect_bools. lia. }
    rewrite varint_fits_early by lia.
    replace (length pre =? 9)%nat with false by lia. cbn [andb negb].
    destruct (IH s1 (pre ++ [b]) p) as (s2 & H2 & Hr); try done.
    + by rewrite <- app_assoc.
    + apply Forall_app. split; [done|]. constructor; [|done]. unfold is_byte in Hb. lia.
    + cbn [length] in Hl. lia.
    + exists s2. split; [|done]. cbn [snd]. rewrite H2, <- app_assoc. done.
Qed.

Lemma readVarint_lawful (s : S) v enc rest :
  is_u64 v -> EncodeVarint.EncodeVarint v = Some enc -> pending s = enc ++ rest ->
  exists s', readVarint s = Some (s', success v) /\ pending s' = rest.
Proof.
  intros Hv He Hp. destruct (EncodeVarint_ok v Hv) as (l & Hl & Hval & Hlen & Hok & Hsp).
  simplify_eq. apply (readVarint_loop_lawful 10 s [] l rest); try done.
  by apply (encode_fits (leb_value l)).
Qed.

Lemma readVarintMessage_lawful (s : S) message enc max_size rest :
  Z.of_nat (length message) < 2 ^ 64 -> Z.of_nat (length message) <= max_size ->
  EncodeVarint.EncodeVarint (Z.of_nat (length message)) = Some enc ->
  pending s = enc ++ message ++ rest ->
  exists s', readVarintMessage s max_size = Some (s', success message) /\ pending s' = rest.
Proof.
  intros Hlen Hmax He Hp. unfold readVarintMessage.
  assert (is_u64 (Z.of_nat (length message))) as Hv by (unfold is_u64; lia).
  destruct (readVarint_lawful s _ enc (message ++ rest) Hv He Hp) as (s1 & -> & Hr).
  replace (max_size <? _) with false by lia. rewrite Nat2Z.id.
  destruct (read_lawful s1 (length message)) as (s2 & -> & Hr2).
  { rewrite Hr, length_app. lia. }
  exists s2. rewrite Hr2, Hr, take_app_length, drop_app_length. done.
Qed.

Context {W : Type} `{!Writer W E, !WriterLaws W E}.

Lemma write_loop_lawful fuel (w : W) inp :
  (length inp <= fuel)%nat ->
  exists w', write_loop fuel w inp = Some (w', success tt)
    /\ written w' = written w ++ inp.
Proof.
  revert w inp. induction fuel as [|fuel IH]; intros w inp Hf;
    cbn [write_loop]; case_decide; subst; rewrite ?app_nil_r; eauto.
  { destruct inp; simpl in *; [done|lia]. }
  destruct (writeSome_progress w inp) as (k & w' & Hk & -> & Hw); [done|].
  rewrite !decide_False by lia.
  destruct (IH w' (drop k inp)) as (w2 & -> & Hw2). { rewrite length_drop. lia. }
  exists w2. split; [done|]. by rewrite Hw2, Hw, <- app_assoc, take_drop.
Qed.
End Lawful.

(** ** A concrete stream

    Data that arrives in chunks, and a writer that takes at most [quota] bytes
    per call: any fragmentation of the traffic. *)

Module Chunked.

Inductive eof := Eof.

Fixpoint read_chunks (cs : list bytes) (n : nat) : list bytes * outcome eof bytes :=
  match cs with
  | [] => ([], failure Eof)
  | [] :: cs => read_chunks cs n
  | c :: cs => (drop n c :: cs, success (take n c))
  end.

#[export] Instance chunk_reader : Reader (list bytes) eof := read_chunks.

Record sink := mkSink { quota : nat; sent : bytes }.

#[export] Instance quota_writer : Writer sink eof := fun w bs =>
  let n := Nat.min (S (quota w)) (length bs) in
  (mkSink (quota w) (sent w ++ take n bs), success n).

#[export, refine] Instance chunk_laws : ReaderLaws (list bytes) eof :=
  { pending := @concat Z }.
Proof.
  intros cs n. induction cs as [|[|b c] cs IH]; intros Hp Hn; [done|by apply IH|].
  exists (Nat.min n (length (b :: c))), (drop n (b :: c) :: cs). split_and!; try (simpl; lia).
  - rewrite concat_cons, length_app. lia.
  - unfold readSome, chunk_reader. cbn [read_chunks]. do 2 f_equal.
    rewrite concat_cons, take_app_le by lia.
    destruct (decide (n <= length (b :: c))%nat).
    + by rewrite Nat.min_l.
    + by rewrite Nat.min_r, !take_ge by lia.
  - rewrite !concat_cons, drop_app_le by lia. f_equal.
    destruct (decide (n <= length (b :: c))%nat).
    + by rewrite Nat.min_l.
    + by rewrite Nat.min_r, !drop_ge by lia.
Defined.

#[export, refine] Instance quota_laws : WriterLaws sink eof := { written := sent }.
Proof.
  intros w bs Hbs. exists (Nat.min (S (quota w)) (length bs)). eexists.
  split_and!; [destruct bs; simpl in *; [done|lia]|lia|reflexivity|done].
Defined.

End Chunked.
Import (hints) Chunked.

(** ** Properties *)

Lemma frame_roundtrip
    {S W E : Type} `{!Reader S E, !ReaderLaws S E, !Writer W E, !WriterLaws W E}
    (s : S) (w : W) message max_size rest :
  Z.of_nat (length message) < 2 ^ 64 -> Z.of_nat (length message) <= max_size ->
  exists w' frame, writeVarintMessage w message = Some (w', success tt)
    /\ written w' = written w ++ frame
    /\ (pending s = frame ++ rest ->
        exists s', readVarintMessage s max_size = Some (s', success message)
          /\ pending s' = rest).
Proof.
  intros Hlen Hmax.
  assert (is_u64 (Z.of_nat (length message))) as Hv by (unfold is_u64; lia).
  destruct (EncodeVarint_ok _ Hv) as (enc & He & _).
  unfold writeVarintMessage. rewrite He.
  destruct (write_loop_lawful (length enc) w enc) as (w1 & Hw1 & Hs1); [lia|].
  destruct (write_loop_lawful (length message) w1 message) as (w2 & Hw2 & Hs2); [lia|].
  exists w2, (enc ++ message). unfold write. rewrite Hw1, Hw2, Hs2, Hs1, app_assoc.
  split_and!; [done|done|]. intros Hp. rewrite <- app_assoc in Hp.
  by apply (readVarintMessage_lawful s message enc).
Qed.

(** C36: framing is exact over any lawful transport.  A message written with
    [writeVarintMessage] (any partial writes) and read back with
    [readVarintMessage] (any partial reads, the message within the reader's
    limit) is delivered whole, and the reader stops at the first byte behind
    it. *)
Theorem message_roundtrip
    {S W E : Type} `{!Reader S E, !ReaderLaws S E, !Writer W E, !WriterLaws W E}
    (s : S) (w : W) message max_size rest :
  Z.of_nat (length message) < 2 ^ 64 -> Z.of_nat (length message) <= max_size ->
  exists w' frame, writeVarintMessage w message = Some (w', success tt)
    /\ written w' = written w ++ frame
    /\ (pending s = frame ++ rest ->
        exists s', readVarintMessage s max_size = Some (s', success message)
          /\ pending s' = rest).
Proof. apply frame_roundtrip. Qed.

(** A message of three bytes, written one byte at a time, read from unevenly cut chunks. *)
Lemma message_roundtrip_witness :
  exists w' frame,
    writeVarintMessage (E := Chunked.eof) (Chunked.mkSink 0 [5]) [1; 2; 3]
      = Some (w', success tt)
    /\ written w' = [5] ++ frame
    /\ (pending [[3; 1]; []; [2]; [3; 9]] = frame ++ [9] ->
        exists s', readVarintMessage (E := Chunked.eof) [[3; 1]; []; [2]; [3; 9]] default_max_size
                     = Some (s', success [1; 2; 3])
          /\ pending s' = [9]).
Proof.
  exact (message_roundtrip (S := list bytes) (W := Chunked.sink) (E := Chunked.eof)
           [[3; 1]; []; [2]; [3; 9]] (Chunked.mkSink 0 [5]) [1; 2; 3] default_max_size [9]
           ltac:(simpl; lia) ltac:(vm_compute; discriminate)).
Defined.

Lemma readVarintMessage_returns {S E : Type} `{!Reader S E} (s : S) max_size :
  match readVarintMessage s max_size with
  | None => False
  | Some (_, failure _) => True
  | Some (_, success message) => Z.of_nat (length message) <= Z.max 0 max_size
  end.
Proof.
  unfold readVarintMessage.
  destruct (readVarint_total s) as [[s1 [size|e]] ->]; [|done].
  destruct (max_size <? size) eqn:Em; [done|]. reflect_bools.
  destruct (read_loop_total (Z.to_nat size) s1 (Z.to_nat size) []) as [[s2 [m|e]] Hm]; [lia| |];
    unfold read; rewrite Hm; [|done].
  apply read_loop_length in Hm. simpl in Hm. lia.
Qed.

(** [readVarintMessage] always returns, whatever the reader does (short
    reads, errors, over-reads), and a message it delivers never exceeds
    [max_size]: an attacker cannot make it allocate more. *)
Theorem readVarintMessage_bounded {S E : Type} `{!Reader S E} (s : S) max_size :
  match readVarintMessage s max_size with
  | None => False
  | Some (_, failure _) => True
  | Some (_, success message) => Z.of_nat (length message) <= Z.max 0 max_size
  end.
Proof. apply readVarintMessage_returns. Qed.
