(* ===== verification/Multiselect.v ===== *)
(** * Protocol negotiation (multistream-select)

    [src/protocol_muxer/multiselect.cpp] with
    [include/libp2p/protocol_muxer/multiselect/common.hpp] and [serializing.hpp]:
    the messages of the protocol and the coroutine [selectOneOf], written over
    any connection that implements the [Reader] and [Writer] of [Stream].

    A coroutine maps the connection to the connection and its result; [None] is
    the exhausted fuel of the responder's loop. *)

From S2P Require Import Prelude Varint Stream.

Abbreviation ProtocolName := bytes.

(** [ProtocolMuxer::Error]. *)
Inductive muxer_error := NEGOTIATION_FAILED | INTERNAL_ERROR | PROTOCOL_VIOLATION.

(** What a negotiation fails with; [BadAccess]: [value()] of a failed outcome throws. *)
Inductive error (E : Type) := Muxer (e : muxer_error) | Io (e : stream_error E) | BadAccess.
Arguments Muxer {E} e.
Arguments Io {E} e.
Arguments BadAccess {E}.

Definition kProtocolId : ProtocolName := str "/multistream/1.0.0".
Definition kMaxMessageSize : Z := 65535.
Definition kMaxVarintSize : Z := 3.
Definition kNewLine : Z := 0x0A.
Definition kNA : ProtocolName := str "na".

(** ** [serializing.hpp] *)

Module Serializing.

(** Appending to a buffer; a [static_vector] throws over its capacity [cap]
    ([None] as a result), other buffers grow. *)
Definition put (cap : option Z) (buffer more : bytes) : option bytes :=
  let r := buffer ++ more in
  match cap with
  | Some n => if n <? Z.of_nat (length r) then None else Some r
  | None => Some r
  end.

(** [do ... while (size > 0)]; a [size_t] has at most ten groups. *)
Fixpoint appendVarint (cap : option Z) (fuel : nat) (buffer : bytes) (size : Z) : option bytes :=
  match fuel with
  | O => None
  | S fuel =>
      let byte := Z.land size 0x7F in
      let size := Z.shiftr size 7 in
      let byte := if negb (size =? 0) then Z.lor byte 0x80 else byte in
      match put cap buffer [byte] with
      | None => None
      | Some buffer => if 0 <? size then appendVarint cap fuel buffer size else Some buffer
      end
  end.

(** [None]: an exception of the buffer. *)
Definition appendProtocol (cap : option Z) (buffer : bytes) (protocol : bytes) :
    option (outcome muxer_error bytes) :=
  let msg_size := Z.of_nat (length protocol) + 1 in
  if kMaxMessageSize - kMaxVarintSize <? msg_size then Some (failure INTERNAL_ERROR)
  else
    buffer ← appendVarint cap 10 buffer msg_size;
    buffer ← put cap buffer protocol;
    buffer ← put cap buffer [kNewLine];
    Some (if Z.of_nat (length buffer) <=? kMaxMessageSize then success buffer
          else failure INTERNAL_ERROR).

(** [createMessage(protocol)]. *)
Definition createMessage (protocol : bytes) : outcome muxer_error bytes :=
  default (failure INTERNAL_ERROR) (appendProtocol None [] protocol).

Fixpoint appendProtocols (cap : option Z) (buffer : bytes) (protocols : list bytes) :
    option (outcome muxer_error bytes) :=
  match protocols with
  | [] => Some (success buffer)
  | p :: protocols =>
      r ← appendProtocol cap buffer p;
      match r with
      | success buffer => appendProtocols cap buffer protocols
      | failure e => Some (failure e)
      end
  end.

(** The [try] block and its handler. *)
Definition appendProtocolList (cap : option Z) (buffer : bytes) (protocols : list bytes)
    (append_final_new_line : bool) : outcome muxer_error bytes :=
  default (failure INTERNAL_ERROR)
    (r ← appendProtocols cap buffer protocols;
     match r with
     | success buffer =>
         if append_final_new_line then success <$> put cap buffer [kNewLine]
         else Some (success buffer)
     | failure e => Some (failure e)
     end).

Definition tmp_capacity : Z := kMaxMessageSize + kMaxVarintSize.

(** [createMessage(protocols, nested)]. *)
Definition createMessage_list (protocols : list bytes) (nested : bool) : outcome muxer_error bytes :=
  if nested then
    match appendProtocolList (Some tmp_capacity) [] protocols true with
    | failure e => failure e
    | success tmp_buf =>
        match appendVarint None 10 [] (Z.of_nat (length tmp_buf)) with
        | None => failure INTERNAL_ERROR
        | Some ret_buf => success (ret_buf ++ tmp_buf)
        end
    end
  else appendProtocolList None [] protocols false.

End Serializing.

(** ** The coroutine *)

Section Select.
Context {C E : Type} `{!Reader C E, !Writer C E}.

Definition Co (A : Type) : Type := C -> option (C * outcome (error E) A).

Definition ret {A} (a : A) : Co A := fun c => Some (c, success a).
Definition fail {A} (e : error E) : Co A := fun c => Some (c, failure e).
(** [BOOST_OUTCOME_CO_TRY]. *)
Definition co_try {A B} (m : Co A) (k : A -> Co B) : Co B := fun c =>
  match m c with
  | None => None
  | Some (c, failure e) => Some (c, failure e)
  | Some (c, success a) => k a c
  end.
Definition io {A} (m : C -> option (C * outcome (stream_error E) A)) : Co A := fun c =>
  match m c with
  | None => None
  | Some (c, failure e) => Some (c, failure (Io e))
  | Some (c, success a) => Some (c, success a)
  end.

Notation "x <-! m ; k" := (co_try m (fun x => k)) (at level 100, m at next level, right associativity).

Definition read1 : Co ProtocolName :=
  message <-! io (fun c => readVarintMessage c kMaxMessageSize);
  if bool_decide (message = []) || negb (bool_decide (last message = Some kNewLine))
  then fail (Muxer PROTOCOL_VIOLATION)
  else ret (take (length message - 1) message).

Definition write1 (protocol : ProtocolName) : Co unit :=
  match Serializing.createMessage protocol with
  | failure _ => fail BadAccess
  | success message => io (fun c => write c message)
  end.

(** The body of the initiator's [while (true)], with [i] as it is on entry.  All
    of its paths return, so the loop never takes a second turn. *)
Definition initiator (protocols : list ProtocolName) (i : nat) : Co ProtocolName :=
  protocol <-! read1;
  if bool_decide (protocol = kNA) then
    let i := S i in
    match protocols !! i with
    | None => fail (Muxer NEGOTIATION_FAILED)
    | Some proposal =>
        _ <-! write1 proposal;
        if bool_decide (protocol <> proposal) then fail (Muxer PROTOCOL_VIOLATION) else ret protocol
    end
  else
    match protocols !! i with
    | None => fail (Muxer PROTOCOL_VIOLATION)
    | Some proposal =>
        if bool_decide (protocol <> proposal) then fail (Muxer PROTOCOL_VIOLATION) else ret protocol
    end.

(** The responder's loop. *)
Fixpoint responder (fuel : nat) (protocols : list ProtocolName) : Co ProtocolName :=
  match fuel with
  | O => fun _ => None
  | S fuel =>
      protocol <-! read1;
      if bool_decide (protocol ∈ protocols)
      then _ <-! write1 protocol; ret protocol
      else _ <-! write1 kNA; responder fuel protocols
  end.

Definition selectOneOf (fuel : nat) (protocols : list ProtocolName)
    (is_initiator negotiate_multistream : bool) : Co ProtocolName :=
  match protocols with
  | [] => fail (Muxer NEGOTIATION_FAILED)
  | first :: _ =>
      _ <-! (if negotiate_multistream then write1 kProtocolId else ret tt);
      _ <-! (if is_initiator then write1 first else ret tt);
      _ <-! (if negotiate_multistream then
               protocol <-! read1;
               if bool_decide (protocol <> kProtocolId)
               then fail (Muxer PROTOCOL_VIOLATION) else ret tt
             else ret tt);
      if is_initiator then initiator protocols 0 else responder fuel protocols
  end.

(** ** Soundness, on any connection *)

Lemma co_try_success {A B} (m : Co A) (k : A -> Co B) c c' b :
  co_try m k c = Some (c', success b) ->
  exists c1 a, m c = Some (c1, success a) /\ k a c1 = Some (c', success b).
Proof.
  unfold co_try. destruct (m c) as [[c1 [a|e]]|]; intros Hk; simplify_eq. eauto.
Qed.

Lemma initiator_sound protocols i c c' p :
  initiator protocols i c = Some (c', success p) -> p ∈ protocols.
Proof.
  unfold initiator. intros (c1 & q & _ & Hq)%co_try_success. case_bool_decide.
  - destruct (protocols !! S i) as [r|] eqn:Hr; [|done].
    apply co_try_success in Hq as (c2 & [] & _ & Hq). case_bool_decide as Hne; [done|].
    injection Hq as _ <-. rewrite Hne. by eapply list_elem_of_lookup_2.
  - destruct (protocols !! i) as [r|] eqn:Hr; [|done]. case_bool_decide as Hne; [done|].
    injection Hq as _ <-. rewrite Hne. by eapply list_elem_of_lookup_2.
Qed.

Lemma responder_sound fuel protocols c c' p :
  responder fuel protocols c = Some (c', success p) -> p ∈ protocols.
Proof.
  revert c. induction fuel as [|fuel IH]; intros c; cbn [responder]; [done|].
  intros (c1 & q & _ & Hq)%co_try_success. case_bool_decide.
  - apply co_try_success in Hq as (c2 & [] & _ & Hq). by injection Hq as _ <-.
  - apply co_try_success in Hq as (c2 & [] & _ & Hq). by apply IH in Hq.
Qed.

Lemma selectOneOf_sound fuel protocols is_initiator multi c c' p :
  selectOneOf fuel protocols is_initiator multi c = Some (c', success p) -> p ∈ protocols.
Proof.
  unfold selectOneOf. destruct protocols as [|first protocols]; [done|].
  intros (c1 & [] & _ & (c2 & [] & _ & (c3 & [] & _ & Hp)%co_try_success)%co_try_success)%co_try_success.
  destruct is_initiator; [by apply initiator_sound in Hp|by apply responder_sound in Hp].
Qed.
End Select.

(** ** Messages *)

(** A message on the wire: length, text, newline. *)
Definition frame (protocol : ProtocolName) : bytes :=
  default [] (EncodeVarint.EncodeVarint (Z.of_nat (length (protocol ++ [kNewLine]))))
    ++ protocol ++ [kNewLine].

(** Names short enough to be sent. *)
Definition sendable (protocol : ProtocolName) : Prop :=
  Z.of_nat (length protocol) + 1 <= kMaxMessageSize - kMaxVarintSize.

Lemma put_grows buffer more : Serializing.put None buffer more = Some (buffer ++ more).
Proof. done. Qed.

Lemma appendVarint_grows fuel buffer size :
  0 <= size ->
  Serializing.appendVarint None fuel buffer size
  = (fun l => buffer ++ l) <$> EncodeVarint.encode_loop fuel size.
Proof.
  revert buffer size. induction fuel as [|fuel IH]; intros buffer size Hs; [done|].
  cbn [Serializing.appendVarint EncodeVarint.encode_loop]. rewrite put_grows.
  assert (0 <= Z.shiftr size 7) by (rewrite shiftr_7; divlia).
  destruct (Z.shiftr size 7 =? 0) eqn:E; reflect_bools; cbn [negb].
  - rewrite E. done.
  - replace (0 <? Z.shiftr size 7) with true by lia. rewrite IH by done.
    destruct (EncodeVarint.encode_loop fuel _); [|done]. cbn. by rewrite <- app_assoc.
Qed.

Lemma encode_loop_more n m v l :
  EncodeVarint.encode_loop n v = Some l -> (n <= m)%nat -> EncodeVarint.encode_loop m v = Some l.
Proof.
  revert m v l. induction n as [|n IH]; intros m v l Hl Hm; [done|].
  destruct m as [|m]; [lia|]. cbn [EncodeVarint.encode_loop] in *.
  destruct (Z.shiftr v 7 =? 0); [done|].
  destruct (EncodeVarint.encode_loop n _) as [r|] eqn:Hr; [|done].
  by rewrite (IH m _ r) by (done || lia).
Qed.

(** A length below [2^21] takes at most [kMaxVarintSize] bytes. *)
Lemma encode_short v :
  0 <= v < 2 ^ 21 ->
  exists l, EncodeVarint.EncodeVarint v = Some l /\ (length l <= 3)%nat.
Proof.
  intros Hv. destruct (encode_loop_spec 3 v) as (l & Hl & _ & Hlen & _); [lia|lia|].
  exists l. split; [apply (encode_loop_more 3); [done|lia]|done].
Qed.

Lemma createMessage_spec protocol :
  sendable protocol -> Serializing.createMessage protocol = success (frame protocol).
Proof.
  unfold sendable, Serializing.createMessage, Serializing.appendProtocol, frame,
    kMaxMessageSize, kMaxVarintSize.
  intros Hs. replace (65535 - 3 <? _) with false by lia. rewrite length_app. cbn [length].
  replace (Z.of_nat (length protocol + 1)) with (Z.of_nat (length protocol) + 1) by lia.
  destruct (encode_short (Z.of_nat (length protocol) + 1)) as (l & Hl & Hlen); [lia|].
  rewrite appendVarint_grows by lia. unfold EncodeVarint.EncodeVarint in Hl |- *. rewrite Hl. cbn.
  rewrite !length_app. cbn [length].
  replace (_ <=? 65535) with true by lia. cbn. by rewrite <- app_assoc.
Qed.

(** ** Lawful connections *)

(** A connection is a lawful reader and a lawful writer, and its two directions
    are independent. *)
Class Duplex (C E : Type) `{!Reader C E, !Writer C E} := {
  duplex_reader :: ReaderLaws C E;
  duplex_writer :: WriterLaws C E;
  readSome_keeps : forall c n c' r, readSome c n = (c', r) -> written c' = written c;
  writeSome_keeps : forall c bs c' r, writeSome c bs = (c', r) -> pending c' = pending c
}.

Section Lawful.
Context {C E : Type} `{!Reader C E, !Writer C E, !Duplex C E}.

Lemma read_loop_keeps fuel (c c' : C) n got r :
  read_loop fuel c n got = Some (c', r) -> written c' = written c.
Proof.
  revert c n got. induction fuel as [|fuel IH]; intros c n got; cbn [read_loop];
    (case_decide; [by intros [= <- _]|]); [done|].
  destruct (readSome c n) as [c1 [chunk|e]] eqn:Hr; apply readSome_keeps in Hr as <-;
    [|by intros [= <- _]].
  repeat case_decide; try by intros [= <- _]. apply IH.
Qed.

Lemma readVarint_loop_keeps fuel (c c' : C) v r :
  readVarint_loop fuel c v = Some (c', r) -> written c' = written c.
Proof.
  revert c v. induction fuel as [|fuel IH]; intros c v; cbn [readVarint_loop];
    destruct (Reader.state_ v); try done; try by intros [= <- _].
  unfold read. destruct (read_loop 1 c 1 []) as [[c1 [b|e]]|] eqn:Hr; [..|done];
    apply read_loop_keeps in Hr as <-; [apply IH|by intros [= <- _]].
Qed.

Lemma readVarintMessage_keeps (c c' : C) max_size r :
  readVarintMessage c max_size = Some (c', r) -> written c' = written c.
Proof.
  unfold readVarintMessage, readVarint. intros Hr.
  destruct (readVarint_loop 10 c Reader.fresh) as [[c1 [size|e]]|] eqn:Hv; [..|done];
    apply readVarint_loop_keeps in Hv as <-.
  - destruct (max_size <? size); [by injection Hr as <- _|]. by apply read_loop_keeps in Hr.
  - by injection Hr as <- _.
Qed.

Lemma write_loop_keeps fuel (c c' : C) bs r :
  write_loop fuel c bs = Some (c', r) -> pending c' = pending c.
Proof.
  revert c bs. induction fuel as [|fuel IH]; intros c bs; cbn [write_loop];
    (case_decide; [by intros [= <- _]|]); [done|].
  destruct (writeSome c bs) as [c1 [n|e]] eqn:Hw; apply writeSome_keeps in Hw as <-;
    [|by intros [= <- _]].
  repeat case_decide; try by intros [= <- _]. apply IH.
Qed.

Lemma read1_lawful (c : C) p rest :
  sendable p -> pending c = frame p ++ rest ->
  exists c', read1 c = Some (c', success p) /\ pending c' = rest /\ written c' = written c.
Proof.
  unfold sendable, frame, kMaxMessageSize, kMaxVarintSize. intros Hs Hp.
  assert (Z.of_nat (length (p ++ [kNewLine])) = Z.of_nat (length p) + 1) as Hlen
    by (rewrite length_app; cbn [length]; lia).
  destruct (encode_short (Z.of_nat (length (p ++ [kNewLine])))) as (l & Hl & _); [lia|].
  rewrite Hl in Hp. cbn [default] in Hp. rewrite <- app_assoc in Hp.
  destruct (readVarintMessage_lawful c (p ++ [kNewLine]) l kMaxMessageSize rest)
    as (c' & Hr & Hrest); [unfold kMaxMessageSize; lia|unfold kMaxMessageSize; lia|done|done|].
  exists c'. unfold read1, co_try, io. rewrite Hr. rewrite last_snoc, bool_decide_false by by destruct p.
  rewrite bool_decide_true by done. cbn [orb negb]. rewrite length_app. cbn [length].
  replace (length p + 1 - 1)%nat with (length p) by lia. rewrite take_app_length.
  split_and!; [done|done|by apply readVarintMessage_keeps in Hr].
Qed.

Lemma write1_lawful (c : C) p :
  sendable p ->
  exists c', write1 p c = Some (c', success tt) /\ pending c' = pending c
    /\ written c' = written c ++ frame p.
Proof.
  intros Hs. unfold write1. rewrite createMessage_spec by done.
  destruct (write_loop_lawful (length (frame p)) c (frame p)) as (c' & Hw & Hwr); [lia|].
  exists c'. unfold io, write. rewrite Hw. split_and!; [done| |done]. by apply write_loop_keeps in Hw.
Qed.

Lemma co_try_step {A B} (m : Co (C := C) (E := E) A) (k : A -> Co B) (c c' : C) a :
  m c = Some (c', success a) -> co_try m k c = k a c'.
Proof. unfold co_try. by intros ->. Qed.

(** The refusals of [ps], then the acceptance. *)
Lemma responder_lawful fuel protocols (c : C) ps q rest :
  Forall (fun p => sendable p /\ p ∉ protocols) ps -> q ∈ protocols -> sendable q ->
  pending c = concat (map frame ps) ++ frame q ++ rest -> (length ps < fuel)%nat ->
  exists c', responder fuel protocols c = Some (c', success q) /\ pending c' = rest
    /\ written c' = written c ++ concat (map (fun _ => frame kNA) ps) ++ frame q.
Proof.
  intros Hps Hq Hsq. revert fuel c. induction Hps as [|p ps [Hs Hn] _ IH];
    intros fuel c Hp Hf; (destruct fuel as [|fuel]; [cbn in Hf; lia|]);
    cbn [responder map concat] in *.
  - destruct (read1_lawful c q rest) as (c1 & Hr & Hrest & Hw); [done|done|].
    rewrite (co_try_step _ _ _ _ _ Hr), bool_decide_true by done.
    destruct (write1_lawful c1 q) as (c2 & Hw2 & Hp2 & Hwr); [done|].
    rewrite (co_try_step _ _ _ _ _ Hw2). exists c2. by rewrite Hp2, Hwr, Hw.
  - rewrite <- app_assoc in Hp.
    destruct (read1_lawful c p (concat (map frame ps) ++ frame q ++ rest))
      as (c1 & Hr & Hrest & Hw); [done|done|].
    rewrite (co_try_step _ _ _ _ _ Hr), bool_decide_false by done.
    destruct (write1_lawful c1 kNA) as (c2 & Hw2 & Hp2 & Hwr); [done|].
    rewrite (co_try_step _ _ _ _ _ Hw2).
    destruct (IH fuel c2) as (c3 & H3 & Hp3 & Hw3); [by rewrite Hp2|cbn in Hf; lia|].
    exists c3. rewrite Hw3, Hwr, Hw, <- !app_assoc. done.
Qed.

(** The handshake, up to the loops. *)
Lemma handshake_responder fuel protocols (c : C) rest :
  protocols <> [] -> pending c = frame kProtocolId ++ rest ->
  exists c', selectOneOf fuel protocols false true c = responder fuel protocols c'
    /\ pending c' = rest /\ written c' = written c ++ frame kProtocolId.
Proof.
  intros Hne Hp. destruct protocols as [|first protocols]; [done|]. cbn [selectOneOf].
  destruct (write1_lawful c kProtocolId) as (c1 & H1 & Hp1 & Hw1); [done|].
  rewrite (co_try_step _ _ _ _ _ H1). cbn [ret]. rewrite (co_try_step _ _ c1 c1 tt) by done.
  destruct (read1_lawful c1 kProtocolId rest) as (c2 & H2 & Hp2 & Hw2); [done|by rewrite Hp1|].
  exists c2. rewrite Hw2, Hw1. split_and!; [|done|done].
  rewrite (co_try_step _ _ c1 c2 tt); [done|].
  by rewrite (co_try_step _ _ _ _ _ H2), bool_decide_false by auto.
Qed.

Lemma handshake_initiator fuel p ps (c : C) rest :
  sendable p -> pending c = frame kProtocolId ++ rest ->
  exists c', selectOneOf fuel (p :: ps) true true c = initiator (p :: ps) 0 c'
    /\ pending c' = rest /\ written c' = written c ++ frame kProtocolId ++ frame p.
Proof.
  intros Hs Hp. cbn [selectOneOf].
  destruct (write1_lawful c kProtocolId) as (c1 & H1 & Hp1 & Hw1); [done|].
  rewrite (co_try_step _ _ _ _ _ H1).
  destruct (write1_lawful c1 p) as (c2 & H2 & Hp2 & Hw2); [done|].
  rewrite (co_try_step _ _ _ _ _ H2).
  destruct (read1_lawful c2 kProtocolId rest) as (c3 & H3 & Hp3 & Hw3); [done|by rewrite Hp2, Hp1|].
  exists c3. rewrite Hw3, Hw2, Hw1, <- app_assoc. split_and!; [|done|done].
  rewrite (co_try_step _ _ c2 c3 tt); [done|].
  by rewrite (co_try_step _ _ _ _ _ H3), bool_decide_false by auto.
Qed.
End Lawful.

(** ** Properties *)

Section Properties.
Context {C E : Type} `{!Reader C E, !Writer C E, !Duplex C E}.

(** A responder refuses every proposal it does not support and accepts the
    first one it does.  It answers each of the proposals [ps], none of them
    supported, with one "na", echoes the supported [q], and leaves what follows
    unread; the number of proposals read bounds its loop. *)
Theorem responder_accepts_first_supported fuel protocols (c : C) ps q rest :
  Forall (fun p => sendable p /\ p ∉ protocols) ps -> q ∈ protocols -> sendable q ->
  pending c = frame kProtocolId ++ concat (map frame ps) ++ frame q ++ rest ->
  (length ps < fuel)%nat ->
  exists c', selectOneOf fuel protocols false true c = Some (c', success q) /\ pending c' = rest
    /\ written c' = written c ++ frame kProtocolId ++ concat (map (fun _ => frame kNA) ps) ++ frame q.
Proof.
  intros Hps Hq Hs Hp Hf.
  destruct (handshake_responder fuel protocols c (concat (map frame ps) ++ frame q ++ rest))
    as (c1 & -> & Hp1 & Hw1); [by intros ->; set_solver|done|].
  destruct (responder_lawful fuel protocols c1 ps q rest) as (c2 & H2 & Hp2 & Hw2); try done.
  exists c2. by rewrite Hw2, Hw1, <- app_assoc.
Qed.

(** C35: when the responder supports the initiator's first protocol both ends
    agree on it.  Each end, hearing exactly what the other one writes, returns
    that protocol. *)
Theorem negotiation_agrees fuel p ps protocols (ci cr : C) :
  sendable p -> p <> kNA -> p ∈ protocols -> (0 < fuel)%nat ->
  pending ci = frame kProtocolId ++ frame p -> pending cr = frame kProtocolId ++ frame p ->
  exists ci' cr',
    selectOneOf fuel (p :: ps) true true ci = Some (ci', success p)
    /\ selectOneOf fuel protocols false true cr = Some (cr', success p)
    /\ written ci' = written ci ++ pending cr /\ written cr' = written cr ++ pending ci
    /\ pending ci' = [] /\ pending cr' = [].
Proof.
  intros Hs Hna Hp Hf Hi Hr.
  destruct (handshake_initiator fuel p ps ci (frame p)) as (c1 & -> & Hp1 & Hw1); [done|done|].
  destruct (read1_lawful c1 p []) as (c2 & H2 & Hp2 & Hw2); [done|by rewrite app_nil_r|].
  destruct (handshake_responder fuel protocols cr (frame p)) as (c3 & -> & Hp3 & Hw3);
    [by intros ->; set_solver|done|].
  destruct (responder_lawful fuel protocols c3 [] p []) as (c4 & H4 & Hp4 & Hw4);
    [by constructor|done|done|by rewrite app_nil_r|done|].
  exists c2, c4. rewrite H4, Hw2, Hw1, Hw4, Hw3, Hi, Hr. split_and!; try done.
  - unfold initiator. rewrite (co_try_step _ _ _ _ _ H2), bool_decide_false by done.
    cbn [lookup list_lookup]. by rewrite bool_decide_false by auto.
  - by rewrite <- app_assoc.
Qed.

(** C34: a refused first protocol ends the negotiation, whatever else both ends
    have in common.  After "na" the initiator proposes its second protocol and
    then compares that "na" with the new proposal: it fails with a protocol
    violation, while the responder, hearing the second proposal, accepts it.
    Only a list of one protocol ends with [NEGOTIATION_FAILED]. *)
Theorem negotiation_never_falls_back fuel p p' ps protocols (ci cr : C) rest :
  sendable p -> sendable p' -> p' <> kNA -> p ∉ protocols -> p' ∈ protocols -> (1 < fuel)%nat ->
  pending ci = frame kProtocolId ++ frame kNA ++ rest ->
  pending cr = frame kProtocolId ++ frame p ++ frame p' ->
  exists ci' cr',
    selectOneOf fuel (p :: p' :: ps) true true ci = Some (ci', failure (Muxer PROTOCOL_VIOLATION))
    /\ selectOneOf fuel protocols false true cr = Some (cr', success p')
    /\ written ci' = written ci ++ pending cr
    /\ written cr' = written cr ++ frame kProtocolId ++ frame kNA ++ frame p'.
Proof.
  intros Hs Hs' Hna Hn Hp Hf Hi Hr.
  destruct (handshake_initiator fuel p (p' :: ps) ci (frame kNA ++ rest)) as (c1 & -> & Hp1 & Hw1);
    [done|done|].
  destruct (read1_lawful c1 kNA rest) as (c2 & H2 & Hp2 & Hw2); [done|done|].
  destruct (write1_lawful c2 p') as (c3 & H3 & Hp3 & Hw3); [done|].
  destruct (handshake_responder fuel protocols cr (frame p ++ frame p')) as (c4 & -> & Hp4 & Hw4);
    [by intros ->; set_solver|done|].
  destruct (responder_lawful fuel protocols c4 [p] p' []) as (c5 & H5 & Hp5 & Hw5);
    [by repeat constructor|done|done|by cbn; rewrite !app_nil_r|cbn; lia|].
  exists c3, c5. rewrite H5, Hw3, Hw2, Hw1, Hw5, Hw4, Hr. split_and!; try done.
  - unfold initiator. rewrite (co_try_step _ _ _ _ _ H2), bool_decide_true by done.
    cbn [lookup list_lookup]. rewrite (co_try_step _ _ _ _ _ H3). by rewrite bool_decide_true by auto.
  - by rewrite <- !app_assoc.
  - cbn. by rewrite app_nil_r, <- !app_assoc.
Qed.
End Properties.

(** Negotiation is sound on every connection.  Whatever the other end and
    the transport do, a protocol that [selectOneOf] returns is one of those
    passed to it. *)
Theorem selected_was_offered {C E : Type} `{!Reader C E, !Writer C E} fuel protocols
    is_initiator multi (c c' : C) p :
  selectOneOf fuel protocols is_initiator multi c = Some (c', success p) -> p ∈ protocols.
Proof. apply selectOneOf_sound. Qed.

(** ** A concrete connection

    Bytes that arrive one chunk at a time, and a transport that takes at most
    [quota] bytes per call. *)

Module Pipe.
Import (hints) Chunked.

Record t := mkPipe { inbound : list bytes; outbound : Chunked.sink }.

#[export] Instance pipe_reader : Reader t Chunked.eof := fun c n =>
  let '(cs, r) := Chunked.read_chunks (inbound c) n in (mkPipe cs (outbound c), r).
#[export] Instance pipe_writer : Writer t Chunked.eof := fun c bs =>
  let '(w, r) := Chunked.quota_writer (outbound c) bs in (mkPipe (inbound c) w, r).

#[export, refine] Instance pipe_reader_laws : ReaderLaws t Chunked.eof :=
  { pending c := pending (ReaderLaws := Chunked.chunk_laws) (inbound c) }.
Proof.
  intros [cs w] n Hp Hn. destruct (readSome_progress cs n Hp Hn) as (k & cs' & Hk & Hl & Hr & Hd).
  exists k, (mkPipe cs' w). split_and!; try (done || lia).
  change (readSome (mkPipe cs w) n) with
    (let '(cs, r) := Chunked.read_chunks cs n in (mkPipe cs w, r)).
  change (readSome cs n) with (Chunked.read_chunks cs n) in Hr. by rewrite Hr.
Defined.

#[export, refine] Instance pipe_writer_laws : WriterLaws t Chunked.eof :=
  { written c := written (WriterLaws := Chunked.quota_laws) (outbound c) }.
Proof.
  intros [cs w] bs Hbs. destruct (writeSome_progress w bs Hbs) as (k & w' & Hk & Hr & Hd).
  exists k, (mkPipe cs w'). split_and!; try (done || lia).
  change (writeSome (mkPipe cs w) bs) with
    (let '(w, r) := Chunked.quota_writer w bs in (mkPipe cs w, r)).
  change (writeSome w bs) with (Chunked.quota_writer w bs) in Hr. by rewrite Hr.
Defined.

#[export, refine] Instance pipe_duplex : Duplex t Chunked.eof :=
  { duplex_reader := pipe_reader_laws; duplex_writer := pipe_writer_laws }.
Proof.
  - intros [cs w] n c' r. unfold readSome, pipe_reader. cbn [inbound outbound].
    destruct (Chunked.read_chunks cs n). by intros [= <- _].
  - intros [cs w] bs c' r. unfold writeSome, pipe_writer. cbn [inbound outbound].
    by intros [= <- _].
Defined.

(** A connection with [bs] on the way, one byte per chunk. *)
Definition hearing (bs : bytes) : t := mkPipe (map (fun b => [b]) bs) (Chunked.mkSink 1 []).

End Pipe.
Import (hints) Pipe.

Definition ping : ProtocolName := str "/ipfs/ping/1.0.0".
Definition echo : ProtocolName := str "/echo/1.0.0".

Lemma responder_accepts_first_supported_witness :
  exists c', selectOneOf 2 [ping] false true
      (Pipe.hearing (frame kProtocolId ++ frame echo ++ frame ping)) = Some (c', success ping)
    /\ pending c' = []
    /\ written c' = written (Pipe.hearing (frame kProtocolId ++ frame echo ++ frame ping))
         ++ frame kProtocolId ++ concat (map (fun _ => frame kNA) [echo]) ++ frame ping.
Proof.
  apply (responder_accepts_first_supported (Duplex0 := Pipe.pipe_duplex) 2 [ping]
           (Pipe.hearing (frame kProtocolId ++ frame echo ++ frame ping)) [echo] ping []).
  - constructor; [|constructor]. split; [by vm_compute|]. apply (bool_decide_unpack _). vm_compute. exact I.
  - apply (bool_decide_unpack _). vm_compute. exact I.
  - by vm_compute.
  - vm_compute. reflexivity.
  - apply Nat.ltb_lt. reflexivity.
Defined.

Lemma negotiation_agrees_witness :
  let heard := frame kProtocolId ++ frame ping in
  exists ci' cr',
    selectOneOf 1 [ping; echo] true true (Pipe.hearing heard) = Some (ci', success ping)
    /\ selectOneOf 1 [echo; ping] false true (Pipe.hearing heard) = Some (cr', success ping)
    /\ written ci' = written (Pipe.hearing heard) ++ pending (Pipe.hearing heard)
    /\ written cr' = written (Pipe.hearing heard) ++ pending (Pipe.hearing heard)
    /\ pending ci' = [] /\ pending cr' = [].
Proof.
  intros heard. apply (negotiation_agrees (Duplex0 := Pipe.pipe_duplex) 1 ping [echo] [echo; ping] (Pipe.hearing heard)
                         (Pipe.hearing heard)).
  - by vm_compute.
  - by vm_compute.
  - apply (bool_decide_unpack _). vm_compute. exact I.
  - apply Nat.ltb_lt. reflexivity.
  - vm_compute. reflexivity.
  - vm_compute. reflexivity.
Defined.

Lemma negotiation_never_falls_back_witness :
  let ci := Pipe.hearing (frame kProtocolId ++ frame kNA ++ []) in
  let cr := Pipe.hearing (frame kProtocolId ++ frame echo ++ frame ping) in
  exists ci' cr',
    selectOneOf 2 [echo; ping] true true ci = Some (ci', failure (Muxer PROTOCOL_VIOLATION))
    /\ selectOneOf 2 [ping] false true cr = Some (cr', success ping)
    /\ written ci' = written ci ++ pending cr
    /\ written cr' = written cr ++ frame kProtocolId ++ frame kNA ++ frame ping.
Proof.
  intros ci cr. apply (negotiation_never_falls_back (Duplex0 := Pipe.pipe_duplex) 2 echo ping [] [ping] ci cr []).
  - by vm_compute.
  - by vm_compute.
  - by vm_compute.
  - apply (bool_decide_unpack _). vm_compute. exact I.
  - apply (bool_decide_unpack _). vm_compute. exact I.
  - apply Nat.ltb_lt. reflexivity.
  - vm_compute. reflexivity.
  - vm_compute. reflexivity.
Defined.

Lemma selected_was_offered_witness : ping ∈ [ping; echo].
Proof.
  pose (c := Pipe.hearing (frame kProtocolId ++ frame ping)).
  eapply (selected_was_offered 1 [ping; echo] true true c). vm_compute. reflexivity.
Defined.
