(* ===== verification/ReadBuffer.v ===== *)
(** * ReadBuffer and FixedBufferCollector

    [include/libp2p/basic/read_buffer.hpp] and [src/basic/read_buffer.cpp].
    [ReadBuffer] keeps unconsumed network data in a deque of fragments, reusing
    allocated capacity; its contract is that of a byte queue, and the theorem
    [readbuffer_refines_queue] says so for every sequence of calls.

    Operations return [None] where the source would fail an assertion, write
    past the caller's buffer or touch a missing fragment; the proofs show that
    none of that happens. *)

From S2P Require Import Prelude.

(** ** std::vector with its capacity

    How far a reallocation over-allocates is the library's choice: [alloc] is
    the capacity obtained when at least [n] is needed. *)

Record vec := mkVec { vdata : bytes; vcap : nat }.

Definition vec_ok (v : vec) : Prop := (length (vdata v) <= vcap v)%nat.

Record ReadBuffer := mkRB {
  alloc_granularity_ : nat;
  total_size_ : nat;
  first_byte_offset_ : nat;
  capacity_remains_ : nat;
  fragments_ : list vec
}.

Section Model.
Context (alloc : nat -> nat -> nat).

Definition reserve (v : vec) (n : nat) : vec :=
  if decide (n <= vcap v)%nat then v else mkVec (vdata v) (alloc (vcap v) n).

Definition vec_append (v : vec) (bs : bytes) : vec :=
  let v := reserve v (length (vdata v) + length bs) in
  mkVec (vdata v ++ bs) (vcap v).

Definition vec_clear (v : vec) : vec := mkVec [] (vcap v).

(** [ReadBuffer(alloc_granularity)], with its assertion. *)
Definition ReadBuffer_new (alloc_granularity : nat) : option ReadBuffer :=
  if decide (0 < alloc_granularity)%nat
  then Some (mkRB alloc_granularity 0 0 0 []) else None.

Definition empty (b : ReadBuffer) : bool := (total_size_ b =? 0)%nat.

(** [fragments_.back() = f(fragments_.back())]. *)
Fixpoint update_back (f : vec -> vec) (l : list vec) : option (list vec) :=
  match l with
  | [] => None
  | [v] => Some [f v]
  | v :: l => match update_back f l with Some l => Some (v :: l) | None => None end
  end.

Definition add (b : ReadBuffer) (bs : bytes) : option ReadBuffer :=
  let sz := length bs in
  let grown frags cap :=
    mkRB (alloc_granularity_ b) (total_size_ b + sz) (first_byte_offset_ b) cap frags in
  if decide (sz = 0%nat) then Some b
  else if decide (sz <= capacity_remains_ b)%nat then
    frags ← update_back (fun v => vec_append v bs) (fragments_ b);
    Some (grown frags (capacity_remains_ b - sz)%nat)
  else if decide (0 < capacity_remains_ b)%nat then
    frags ← update_back (fun v =>
      vec_append (reserve v (length (vdata v) + sz + alloc_granularity_ b)) bs) (fragments_ b);
    Some (grown frags (alloc_granularity_ b))
  else
    let v := vec_append (reserve (mkVec [] 0) (sz + alloc_granularity_ b)) bs in
    Some (grown (fragments_ b ++ [v]) (alloc_granularity_ b)).

(** The loop that keeps the first fragment that is not too large. *)
Fixpoint keep_one (limit : nat) (l : list vec) : option vec :=
  match l with
  | [] => None
  | f :: l => if decide (vcap f <= limit)%nat then Some (vec_clear f) else keep_one limit l
  end.

(** [consumeAll(out)]: new state and the bytes copied to [out]; the [memcpy]s
    need room for all of them.  The value returned is [total_size_]. *)
Definition consumeAll (b : ReadBuffer) (out_size : nat) : option (ReadBuffer * bytes * nat) :=
  match fragments_ b with
  | [] => None
  | f :: rest =>
      let copied := drop (first_byte_offset_ b) (vdata f) ++ concat (vdata <$> rest) in
      if decide (out_size < length copied)%nat then None
      else
        let b' := match keep_one (alloc_granularity_ b * 2) (fragments_ b) with
                  | Some f => mkRB (alloc_granularity_ b) 0 0 (vcap f) [f]
                  | None => mkRB (alloc_granularity_ b) 0 0 0 []
                  end in
        Some (b', copied, total_size_ b)
  end.

Definition consumePart (b : ReadBuffer) (n : nat) : option (ReadBuffer * bytes) :=
  match fragments_ b with
  | [] => Some (b, [])
  | f :: rest =>
      if decide (first_byte_offset_ b < length (vdata f))%nat then
        let fragment_size := (length (vdata f) - first_byte_offset_ b)%nat in
        let n := if decide (fragment_size < n)%nat then fragment_size else n in
        let out := take n (drop (first_byte_offset_ b) (vdata f)) in
        let b' := if decide (n < fragment_size)%nat
                  then mkRB (alloc_granularity_ b) (total_size_ b)
                         (first_byte_offset_ b + n) (capacity_remains_ b) (fragments_ b)
                  else mkRB (alloc_granularity_ b) (total_size_ b) 0 (capacity_remains_ b) rest in
        Some (b', out)
      else None
  end.

(** The [while (remains > 0)] loop; each round moves at least one byte. *)
Fixpoint consume_loop (fuel : nat) (b : ReadBuffer) (remains : nat) (out : bytes) :
    option (ReadBuffer * bytes) :=
  if decide (remains = 0%nat) then Some (b, out)
  else match fuel with
  | O => None
  | S fuel =>
      match consumePart b remains with
      | None => None
      | Some (b, part) => consume_loop fuel b (remains - length part)%nat (out ++ part)
      end
  end.

(** [consume(out)]: new state, bytes copied, value returned. *)
Definition consume (b : ReadBuffer) (n_bytes : nat) : option (ReadBuffer * bytes * nat) :=
  if empty b then Some (b, [], 0%nat)
  else if decide (total_size_ b <= n_bytes)%nat then consumeAll b n_bytes
  else match consume_loop n_bytes b n_bytes [] with
  | None => None
  | Some (b, out) =>
      Some (mkRB (alloc_granularity_ b) (total_size_ b - n_bytes) (first_byte_offset_ b)
              (capacity_remains_ b) (fragments_ b), out, n_bytes)
  end.

(** [addAndConsume(in, out)]; it calls itself once, on an emptied buffer. *)
Fixpoint addAndConsume_rec (fuel : nat) (b : ReadBuffer) (inp : bytes) (out_size : nat) :
    option (ReadBuffer * bytes * nat) :=
  match fuel with
  | O => None
  | S fuel =>
      if decide (inp = []) then consume b out_size
      else if decide (out_size = 0%nat) then
        b ← add b inp; Some (b, [], 0%nat)
      else if empty b then
        if decide (length inp <= out_size)%nat then Some (b, inp, length inp)
        else b ← add b (drop out_size inp); Some (b, take out_size inp, out_size)
      else if decide (out_size <= total_size_ b)%nat then
        '(b, out, consumed) ← consume b out_size;
        b ← add b inp; Some (b, out, consumed)
      else
        '(b, out, consumed) ← consumeAll b out_size;
        '(b, out2, n) ← addAndConsume_rec fuel b inp (out_size - consumed);
        Some (b, out ++ out2, (consumed + n)%nat)
  end.

Definition addAndConsume := addAndConsume_rec 2.

Definition clear (b : ReadBuffer) : ReadBuffer := mkRB (alloc_granularity_ b) 0 0 0 [].

(** ** The abstract queue *)

Definition content (b : ReadBuffer) : bytes :=
  drop (first_byte_offset_ b) (concat (vdata <$> fragments_ b)).

(** The invariant: sizes agree with the fragments, only a kept empty buffer
    holds an empty fragment, and [capacity_remains_] is really available. *)
Record buffer_shape (b : ReadBuffer) : Prop := {
  ok_gran : (0 < alloc_granularity_ b)%nat;
  ok_vecs : Forall vec_ok (fragments_ b);
  ok_shape :
    match fragments_ b with
    | [] => first_byte_offset_ b = 0%nat
    | f :: rest =>
        Forall (fun v => vdata v <> []) rest
        /\ ((first_byte_offset_ b < length (vdata f))%nat
            \/ (first_byte_offset_ b = 0%nat /\ vdata f = [] /\ rest = []
                /\ (0 < capacity_remains_ b)%nat))
    end;
  ok_remains :
    match last (fragments_ b) with
    | None => capacity_remains_ b = 0%nat
    | Some v => (length (vdata v) + capacity_remains_ b <= vcap v)%nat
    end
}.

(** Between calls [total_size_] is the length of the queue as well. *)
Definition buffer_ok (b : ReadBuffer) : Prop :=
  buffer_shape b /\ total_size_ b = length (content b).
End Model.

(** ** The invariant is kept and the queue is respected *)

Section Proofs.
Context (alloc : nat -> nat -> nat).
Hypothesis alloc_enough : forall c n, (n <= alloc c n)%nat.

Lemma reserve_ok v n :
  vec_ok v -> vdata (reserve alloc v n) = vdata v
    /\ (n <= vcap (reserve alloc v n))%nat /\ vec_ok (reserve alloc v n).
Proof.
  unfold vec_ok, reserve. intros Hv. pose proof (alloc_enough (vcap v) n).
  case_decide; simpl; split_and!; done || lia.
Qed.

Lemma vec_append_ok v bs :
  vec_ok v -> vdata (vec_append alloc v bs) = vdata v ++ bs /\ vec_ok (vec_append alloc v bs).
Proof.
  intros Hv. destruct (reserve_ok v (length (vdata v) + length bs) Hv) as (Hd & Hc & _).
  unfold vec_append, vec_ok. simpl. rewrite length_app, Hd. split; [done|lia].
Qed.

(** Appending within the capacity does not reallocate. *)
Lemma vec_append_fits v bs :
  (length (vdata v) + length bs <= vcap v)%nat -> vcap (vec_append alloc v bs) = vcap v.
Proof. intros. unfold vec_append, reserve. by rewrite decide_True. Qed.

Lemma update_back_snoc f l v : update_back f (l ++ [v]) = Some (l ++ [f v]).
Proof.
  induction l as [|u l IH]; [done|]. cbn [app update_back]. rewrite IH.
  by destruct l.
Qed.

Lemma concat_snoc (l : list vec) v :
  concat (vdata <$> l ++ [v]) = concat (vdata <$> l) ++ vdata v.
Proof. rewrite fmap_app, concat_app. simpl. by rewrite app_nil_r. Qed.

Lemma offset_le b : buffer_shape b -> (first_byte_offset_ b <= length (concat (vdata <$> fragments_ b)))%nat.
Proof.
  intros [_ _ Hs _]. destruct (fragments_ b) as [|f rest]; simpl in *; [lia|].
  rewrite length_app. lia.
Qed.

(** Replacing the last fragment by an extension of it. *)
Lemma grow_back b l v v' bs rem :
  buffer_ok b -> fragments_ b = l ++ [v] -> bs <> [] ->
  vdata v' = vdata v ++ bs -> (length (vdata v') + rem <= vcap v')%nat ->
  let b' := mkRB (alloc_granularity_ b) (total_size_ b + length bs) (first_byte_offset_ b)
              rem (l ++ [v']) in
  buffer_ok b' /\ content b' = content b ++ bs.
Proof.
  intros Hok Hf Hbs Hd Hc b'. pose proof (offset_le b (proj1 Hok)) as Hoff.
  destruct Hok as [[Hg Hv Hs Hr] Ht]. rewrite Hf in *. rewrite concat_snoc in Hoff.
  assert (content b' = content b ++ bs) as Hcont.
  { unfold content, b'; cbn [first_byte_offset_ fragments_].
    rewrite Hf, !concat_snoc, Hd, app_assoc, drop_app_le by done. done. }
  split; [|done]. split; [|rewrite Hcont, length_app; cbn; lia].
  constructor; cbn [b' alloc_granularity_ total_size_ fragments_].
  - done.
  - apply Forall_app in Hv as [Hv _]. apply Forall_app. split; [done|].
    constructor; [|done]. unfold vec_ok. lia.
  - unfold b'. cbn [first_byte_offset_].
    assert (vdata v' <> []) as Hne by (rewrite Hd; destruct (vdata v), bs; done).
    destruct l as [|u l]; cbn [app] in *.
    + split; [done|]. rewrite Hd, length_app. destruct Hs as [_ Hs], bs; [done|]. simpl in *. lia.
    + destruct Hs as [Hn Hs]. apply Forall_app in Hn as [Hn _]. split.
      * apply Forall_app. by repeat constructor.
      * destruct Hs as [Hs|(_ & _ & Hs & _)]; [by left|]. by destruct l.
  - rewrite last_snoc. done.
Qed.

Lemma snoc_inv {A} (l : list A) : l = [] \/ exists l' x, l = l' ++ [x].
Proof. destruct l using rev_ind; eauto. Qed.

(** Pushing a new fragment, which happens only without spare capacity. *)
Lemma push_back_ok b v bs rem :
  buffer_ok b -> capacity_remains_ b = 0%nat -> bs <> [] ->
  vdata v = bs -> (length bs + rem <= vcap v)%nat ->
  let b' := mkRB (alloc_granularity_ b) (total_size_ b + length bs) (first_byte_offset_ b)
              rem (fragments_ b ++ [v]) in
  buffer_ok b' /\ content b' = content b ++ bs.
Proof.
  intros Hok Hr0 Hbs Hd Hc b'. pose proof (offset_le b (proj1 Hok)) as Hoff.
  destruct Hok as [[Hg Hvs Hs _] Ht].
  assert (content b' = content b ++ bs) as Hcont.
  { unfold content, b'; cbn [first_byte_offset_ fragments_].
    rewrite concat_snoc, Hd, drop_app_le by done. done. }
  split; [|done]. split; [|rewrite Hcont, length_app; cbn; lia].
  constructor; cbn [b' alloc_granularity_ total_size_ fragments_ first_byte_offset_ capacity_remains_].
  - done.
  - apply Forall_app. split; [done|]. constructor; [|done]. unfold vec_ok. rewrite Hd. lia.
  - destruct (fragments_ b) as [|f rest]; cbn [app].
    + split; [done|]. left. rewrite Hs, Hd. destruct bs; [done|]. simpl. lia.
    + destruct Hs as [Hn [Hs|(_ & _ & _ & Hs)]]; [|lia]. split; [|by left].
      apply Forall_app. repeat constructor; [done|]. by rewrite Hd.
  - rewrite last_snoc, Hd. done.
Qed.

Lemma add_ok b bs :
  buffer_ok b ->
  exists b', add alloc b bs = Some b' /\ buffer_ok b' /\ content b' = content b ++ bs.
Proof.
  intros Hok. unfold add. case_decide as H0.
  { destruct bs; [|done]. exists b. by rewrite app_nil_r. }
  assert (bs <> []) as Hbs by (by destruct bs).
  destruct (decide (capacity_remains_ b = 0%nat)) as [Hr0|Hr0].
  - rewrite !decide_False by lia. eexists. split; [done|].
    destruct (reserve_ok (mkVec [] 0) (length bs + alloc_granularity_ b)) as (Hd & Hc & Hv);
      [by unfold vec_ok|].
    destruct (vec_append_ok _ bs Hv) as (Hd' & _). rewrite Hd in Hd'.
    apply push_back_ok; try done. rewrite vec_append_fits by (rewrite Hd; simpl; lia). lia.
  - destruct (snoc_inv (fragments_ b)) as [Hf|(l & v & Hf)].
    { destruct Hok as [[_ _ _ Hr] _]. by rewrite Hf in Hr. }
    assert (vec_ok v) as Hv.
    { destruct Hok as [[_ Hv _ _] _]. rewrite Hf in Hv. apply Forall_app in Hv as [_ Hv].
      by inversion_clear Hv. }
    assert (length (vdata v) + capacity_remains_ b <= vcap v)%nat as Hr.
    { destruct Hok as [[_ _ _ Hr] _]. by rewrite Hf, last_snoc in Hr. }
    rewrite Hf, !update_back_snoc. destruct (vec_append_ok v bs Hv) as (Hd & _).
    case_decide; [|rewrite decide_True by lia]; (eexists; split; [done|]); apply grow_back with v; try done.
    + rewrite vec_append_fits, Hd, length_app by lia. lia.
    + destruct (reserve_ok v (length (vdata v) + length bs + alloc_granularity_ b) Hv)
        as (Hd1 & Hc1 & Hv1).
      destruct (vec_append_ok _ bs Hv1) as (Hd2 & _). by rewrite Hd1 in Hd2.
    + destruct (reserve_ok v (length (vdata v) + length bs + alloc_granularity_ b) Hv)
        as (Hd1 & Hc1 & Hv1).
      destruct (vec_append_ok _ bs Hv1) as (Hd2 & _). rewrite Hd1 in Hd2.
      rewrite vec_append_fits by (rewrite Hd1; lia). rewrite Hd2, length_app. lia.
Qed.

(** *** Taking bytes out *)

Lemma keep_one_ok limit l v :
  Forall vec_ok l -> keep_one limit l = Some v -> exists u, u ∈ l /\ v = vec_clear u.
Proof.
  intros Hl. induction Hl as [|u l Hu Hl IH]; simpl; [done|].
  case_decide; intros; simplify_eq.
  - exists u. split; [left|done].
  - destruct IH as (w & Hw & ->); [done|]. exists w. split; [by right|done].
Qed.

Lemma consumeAll_ok b n :
  buffer_ok b -> content b <> [] -> (length (content b) <= n)%nat ->
  exists b', consumeAll b n = Some (b', content b, length (content b))
    /\ buffer_ok b' /\ content b' = [].
Proof.
  intros Hok Hne Hn. pose proof Hok as [[Hg Hvs Hs Hr] Ht]. unfold consumeAll.
  destruct (fragments_ b) as [|f rest] eqn:Hf.
  { unfold content in Hne. rewrite Hf in Hne. simpl in Hne. by rewrite drop_nil in Hne. }
  assert (content b = drop (first_byte_offset_ b) (vdata f) ++ concat (vdata <$> rest)) as Hc.
  { unfold content. rewrite Hf. cbn [fmap list_fmap concat]. rewrite drop_app_le by lia. done. }
  rewrite <- Hc, decide_False by lia. rewrite Ht. eexists. split; [done|].
  assert (Forall (fun v => (0 < vcap v)%nat) (f :: rest)) as Hcap.
  { destruct Hs as [Hrest Hs]. inversion_clear Hvs as [|?? Hvf Hvr]. unfold vec_ok in *.
    constructor.
    - destruct Hs as [Hs|(_ & Hs & Hs' & _)]; [lia|].
      rewrite Hc, Hs, Hs' in Hne. simpl in Hne. by rewrite drop_nil in Hne.
    - rewrite Forall_forall in *. intros v Hv. specialize (Hrest v Hv). specialize (Hvr v Hv).
      destruct (vdata v); [done|]. simpl in Hvr. lia. }
  destruct (keep_one _ _) as [v|] eqn:Hk.
  - apply keep_one_ok in Hk as (u & Hu & ->); [|done].
    rewrite Forall_forall in Hcap. specialize (Hcap u Hu). unfold content; cbn.
    split; [|done]. split; [|done]. constructor; cbn; try done.
    + repeat constructor. unfold vec_ok. cbn. lia.
    + split; [done|]. right. done.
  - unfold content; cbn. split; [|done]. split; [|done]. by constructor.
Qed.

Lemma consumePart_ok b n :
  buffer_shape b -> (0 < n)%nat -> (n < length (content b))%nat ->
  exists b' part, consumePart b n = Some (b', part)
    /\ (0 < length part <= n)%nat /\ part = take (length part) (content b)
    /\ total_size_ b' = total_size_ b
    /\ content b' = drop (length part) (content b) /\ buffer_shape b'.
Proof.
  intros Hok Hn Hlt. pose proof Hok as [Hg Hvs Hs Hr]. unfold consumePart.
  destruct (fragments_ b) as [|f rest] eqn:Hf.
  { unfold content in Hlt. rewrite Hf in Hlt. simpl in Hlt. rewrite drop_nil in Hlt. simpl in Hlt. lia. }
  assert (content b = drop (first_byte_offset_ b) (vdata f) ++ concat (vdata <$> rest)) as Hc.
  { unfold content. rewrite Hf. cbn [fmap list_fmap concat]. rewrite drop_app_le by lia. done. }
  destruct Hs as [Hrest [Hs|(E0 & Ef & Er & _)]];
    [|rewrite Hc, E0, Ef, Er in Hlt; simpl in Hlt; lia].
  rewrite decide_True by done.
  set (d := drop (first_byte_offset_ b) (vdata f)) in *.
  assert (length d = (length (vdata f) - first_byte_offset_ b)%nat) as Hd by apply length_drop.
  rewrite <- Hd. rewrite Hc, length_app in Hlt.
  destruct (decide (n < length d)%nat) as [Hin|Hout].
  - (* inside the first fragment *)
    replace (if decide (length d < n)%nat then length d else n) with n by (case_decide; lia).
    rewrite decide_True by lia. do 2 eexists. split; [done|].
    rewrite length_take, Nat.min_l by lia.
    assert (content (mkRB (alloc_granularity_ b) (total_size_ b) (first_byte_offset_ b + n)
              (capacity_remains_ b) (f :: rest)) = drop n (content b)) as Hc'.
    { unfold content. rewrite Hf. cbn. by rewrite drop_drop. }
    split_and!; try done.
    + rewrite Hc, take_app_le by lia. done.
    + constructor; cbn; try done.
      split; [done|]. left. lia.
  - (* the whole first fragment *)
    replace (if decide (length d < n)%nat then length d else n) with (length d)
      by (case_decide; lia).
    rewrite decide_False by lia. do 2 eexists. split; [done|].
    rewrite take_ge by lia.
    assert (content (mkRB (alloc_granularity_ b) (total_size_ b) 0 (capacity_remains_ b) rest)
            = drop (length d) (content b)) as Hc'.
    { rewrite Hc, drop_app_length. unfold content. cbn. done. }
    split_and!; try done; try lia.
    + by rewrite Hc, take_app_length.
    + inversion_clear Hvs as [|?? _ Hvr]. constructor; cbn; try done.
      * destruct rest as [|g rest]; [done|]. inversion_clear Hrest as [|?? Hgne Hrest'].
        split; [done|]. left. destruct (vdata g); [done|]. simpl. lia.
      * destruct rest; [|done]. simpl in Hlt. lia.
Qed.

Lemma consume_loop_ok fuel b n out :
  buffer_shape b -> (n <= fuel)%nat -> (n < length (content b))%nat ->
  exists b', consume_loop fuel b n out = Some (b', out ++ take n (content b))
    /\ total_size_ b' = total_size_ b /\ buffer_shape b' /\ content b' = drop n (content b).
Proof.
  revert b n out. induction fuel as [|fuel IH]; intros b n out Hok Hf Hn;
    cbn [consume_loop]; case_decide; subst; try lia.
  1,2: exists b; by rewrite take_0, app_nil_r, drop_0.
  destruct (consumePart_ok b n Hok) as (b1 & part & -> & Hp & Hpt & Ht & Hc & Hok1); [lia|done|].
  destruct (IH b1 (n - length part)%nat (out ++ part)) as (b2 & -> & Ht2 & Hok2 & Hc2);
    [done|lia|rewrite Hc, length_drop; lia|].
  exists b2. rewrite Ht2, Hc2, Hc, drop_drop. split_and!; [|done|done|f_equal; lia].
  do 2 f_equal. rewrite <- app_assoc. f_equal. rewrite Hpt at 1.
  rewrite take_take_drop. f_equal. lia.
Qed.

Lemma consume_ok b n :
  buffer_ok b ->
  exists b', consume b n = Some (b', take n (content b), length (take n (content b)))
    /\ buffer_ok b' /\ content b' = drop n (content b).
Proof.
  intros Hok. pose proof Hok as [Hs Ht]. unfold consume, empty.
  destruct (total_size_ b =? 0)%nat eqn:E0; reflect_bools.
  { destruct (content b) eqn:Hc; simpl in *; [|lia].
    exists b. by rewrite Hc, take_nil, drop_nil. }
  case_decide.
  - rewrite take_ge, drop_ge by lia. apply consumeAll_ok; [done| |lia].
    intros E. rewrite E in Ht. simpl in Ht. lia.
  - destruct (consume_loop_ok n b n []) as (b1 & -> & Ht1 & Hs1 & Hc1); [done|lia|lia|].
    eexists. rewrite length_take, Nat.min_l by lia. split; [done|].
    split; [|exact Hc1]. split.
    + destruct Hs1. by constructor.
    + cbn [total_size_]. rewrite Ht1, Ht, <- length_drop. f_equal. symmetry. exact Hc1.
Qed.

Lemma empty_content b : buffer_ok b -> empty b = true <-> content b = [].
Proof.
  intros [_ Ht]. unfold empty. rewrite Ht, Nat.eqb_eq.
  split; [apply nil_length_inv|by intros ->].
Qed.

Lemma addAndConsume_empty fuel b inp n :
  buffer_ok b -> content b = [] ->
  exists b', addAndConsume_rec alloc (S fuel) b inp n
      = Some (b', take n inp, length (take n inp))
    /\ buffer_ok b' /\ content b' = drop n inp.
Proof.
  intros Hok Hc. cbn [addAndConsume_rec]. case_decide; subst.
  { destruct (consume_ok b n Hok) as (b' & H). rewrite Hc in H. eauto. }
  rewrite (proj2 (empty_content b Hok) Hc). case_decide; subst.
  { destruct (add_ok b inp Hok) as (b' & -> & Hok' & Hc'). rewrite Hc in Hc'. by exists b'. }
  case_decide.
  { exists b. by rewrite take_ge, drop_ge by lia. }
  destruct (add_ok b (drop n inp) Hok) as (b' & -> & Hok' & Hc'). rewrite Hc in Hc'.
  exists b'. rewrite length_take, Nat.min_l by lia. done.
Qed.

Lemma addAndConsume_ok b inp n :
  buffer_ok b ->
  exists b', addAndConsume alloc b inp n
      = Some (b', take n (content b ++ inp), length (take n (content b ++ inp)))
    /\ buffer_ok b' /\ content b' = drop n (content b ++ inp).
Proof.
  intros Hok. unfold addAndConsume. remember 1%nat as fuel eqn:Hfuel.
  destruct (empty b) eqn:Ee.
  { apply empty_content in Ee as Hc; [|done]. rewrite Hc. by apply addAndConsume_empty. }
  assert (content b <> []) as Hne. { intros E. apply empty_content in E; [|done]. congruence. }
  cbn [addAndConsume_rec]. rewrite Ee. pose proof Hok as [_ Ht].
  case_decide; [subst inp; rewrite app_nil_r; by apply consume_ok|].
  case_decide; [subst n|].
  { destruct (add_ok b inp Hok) as (b' & -> & Hok' & Hc'). by exists b'. }
  case_decide.
  - destruct (consume_ok b n Hok) as (b1 & -> & Hok1 & Hc1). cbn.
    destruct (add_ok b1 inp Hok1) as (b2 & -> & Hok2 & Hc2). exists b2.
    rewrite take_app_le, drop_app_le, <- Hc1 by lia. done.
  - destruct (consumeAll_ok b n Hok Hne) as (b1 & -> & Hok1 & Hc1); [lia|].
    cbn [mbind option_bind]. subst fuel.
    destruct (addAndConsume_empty 0 b1 inp (n - length (content b)) Hok1 Hc1)
      as (b2 & Hb2 & Hok2 & Hc2).
    rewrite Hb2. exists b2.
    rewrite take_app_ge, drop_app_ge, length_app by lia. done.
Qed.
End Proofs.

(** ** FixedBufferCollector *)

Record FixedBufferCollector := mkFBC {
  memory_threshold_ : nat;
  expected_size_ : nat;
  buffer_ : vec
}.

Section Collector.
Context (alloc : nat -> nat -> nat).

Definition collector_new (expected_size memory_threshold : nat) : FixedBufferCollector :=
  mkFBC memory_threshold expected_size (mkVec [] 0).

Definition expect (c : FixedBufferCollector) (size : nat) : FixedBufferCollector :=
  let buffer := vec_clear (buffer_ c) in
  let reserved := vcap buffer in
  let buffer := if decide (memory_threshold_ c < reserved /\ size < reserved * 3 / 4)%nat
                then mkVec [] 0 else buffer in
  mkFBC (memory_threshold_ c) size buffer.

(** [add(BytesIn &data)]: new state, the message if it is complete, what is left
    of [data]; [None] when the assertion fails. *)
Definition collector_add (c : FixedBufferCollector) (data : bytes) :
    option (FixedBufferCollector * option bytes * bytes) :=
  if decide (length (vdata (buffer_ c)) <= expected_size_ c)%nat then
    let appending := length data in
    let buffered := length (vdata (buffer_ c)) in
    if decide (buffered = 0%nat /\ expected_size_ c <= appending)%nat then
      Some (mkFBC (memory_threshold_ c) 0 (buffer_ c),
            Some (take (expected_size_ c) data), drop (expected_size_ c) data)
    else
      let buffer := if decide (buffered = 0%nat)
                    then reserve alloc (buffer_ c) (expected_size_ c) else buffer_ c in
      let unread := (expected_size_ c - length (vdata buffer))%nat in
      if decide (unread = 0%nat)
      then Some (mkFBC (memory_threshold_ c) (expected_size_ c) buffer, None, data)
      else
        let filled := bool_decide (unread <= appending)%nat in
        let appending := if filled then unread else appending in
        let buffer := vec_append alloc buffer (take appending data) in
        Some (mkFBC (memory_threshold_ c) (expected_size_ c) buffer,
              if filled then Some (vdata buffer) else None, drop appending data)
  else None.

Definition collector_reset (c : FixedBufferCollector) : FixedBufferCollector :=
  mkFBC (memory_threshold_ c) 0 (mkVec [] 0).

(** A caller that hands over incoming chunks until the message is complete. *)
Fixpoint collect (c : FixedBufferCollector) (chunks : list bytes) :
    option (FixedBufferCollector * option bytes * list bytes) :=
  match chunks with
  | [] => Some (c, None, [])
  | data :: chunks =>
      match collector_add c data with
      | None => None
      | Some (c, Some msg, remaining) => Some (c, Some msg, remaining :: chunks)
      | Some (c, None, _) => collect c chunks
      end
  end.

Lemma collector_add_ok c data :
  (0 < expected_size_ c)%nat -> (length (vdata (buffer_ c)) < expected_size_ c)%nat ->
  exists c', collector_add c data = Some (c',
      if decide (expected_size_ c <= length (vdata (buffer_ c) ++ data))%nat
      then Some (take (expected_size_ c) (vdata (buffer_ c) ++ data)) else None,
      drop (expected_size_ c - length (vdata (buffer_ c))) data)
    /\ ((length (vdata (buffer_ c) ++ data) < expected_size_ c)%nat ->
        vdata (buffer_ c') = vdata (buffer_ c) ++ data
        /\ expected_size_ c' = expected_size_ c).
Proof.
  intros He Hb. unfold collector_add. rewrite decide_True by lia. rewrite length_app.
  case_decide as H0.
  { destruct H0 as [H0 H1]. apply nil_length_inv in H0. rewrite H0. cbn [length app].
    rewrite decide_True, Nat.sub_0_r by lia. eexists. split; [done|]. lia. }
  set (buf := if decide (length (vdata (buffer_ c)) = 0%nat)
              then reserve alloc (buffer_ c) (expected_size_ c) else buffer_ c).
  assert (vdata buf = vdata (buffer_ c)) as Hbuf.
  { unfold buf, reserve. by repeat case_decide. }
  rewrite Hbuf, decide_False by lia. unfold vec_append. cbn [vdata buffer_ expected_size_].
  assert (forall n, vdata (reserve alloc buf n) = vdata (buffer_ c)) as Hres.
  { intros n. unfold reserve. by case_decide. }
  rewrite Hres. case_decide; eexists.
  - rewrite bool_decide_true by lia. split; [|lia]. do 3 f_equal.
    rewrite take_app_ge by lia. done.
  - rewrite bool_decide_false by lia. rewrite (take_ge data), !drop_ge by lia.
    split; [done|]. done.
Qed.
End Collector.

(** ** The queue a ReadBuffer implements *)

Inductive call :=
| CAdd (inp : bytes)
| CConsume (n : nat)
| CAddAndConsume (inp : bytes) (n : nat)
| CClear.

(** Specification: the bytes delivered by a call on the queue [q]. *)
Definition queue_call (q : bytes) (c : call) : bytes * bytes :=
  match c with
  | CAdd inp => (q ++ inp, [])
  | CConsume n => (drop n q, take n q)
  | CAddAndConsume inp n => (drop n (q ++ inp), take n (q ++ inp))
  | CClear => ([], [])
  end.

(** Implementation: also the count returned to the caller. *)
Definition buffer_call alloc (b : ReadBuffer) (c : call) :
    option (ReadBuffer * bytes * nat) :=
  match c with
  | CAdd inp => b ← add alloc b inp; Some (b, [], 0%nat)
  | CConsume n => consume b n
  | CAddAndConsume inp n => addAndConsume alloc b inp n
  | CClear => Some (clear b, [], 0%nat)
  end.

Fixpoint queue_run (q : bytes) (cs : list call) : list bytes :=
  match cs with
  | [] => []
  | c :: cs => let '(q, out) := queue_call q c in out :: queue_run q cs
  end.

Fixpoint buffer_run alloc (b : ReadBuffer) (cs : list call) : option (list (bytes * nat)) :=
  match cs with
  | [] => Some []
  | c :: cs =>
      '(b, out, n) ← buffer_call alloc b c;
      outs ← buffer_run alloc b cs; Some ((out, n) :: outs)
  end.

Lemma buffer_call_ok alloc b c :
  (forall c n, (n <= alloc c n)%nat) -> buffer_ok b ->
  exists b', buffer_call alloc b c
      = Some (b', (queue_call (content b) c).2, length (queue_call (content b) c).2)
    /\ buffer_ok b' /\ content b' = (queue_call (content b) c).1.
Proof.
  intros Ha Hok. destruct c as [inp|n|inp n|]; cbn [buffer_call queue_call fst snd].
  - destruct (add_ok alloc Ha b inp Hok) as (b' & -> & H). by exists b'.
  - by apply consume_ok.
  - by apply addAndConsume_ok.
  - exists (clear b). split_and!; [done| |done].
    destruct Hok as [[Hg _ _ _] _]. split; [|done]. by constructor.
Qed.

Lemma buffer_run_ok alloc b cs :
  (forall c n, (n <= alloc c n)%nat) -> buffer_ok b ->
  buffer_run alloc b cs
  = Some ((fun out => (out, length out)) <$> queue_run (content b) cs).
Proof.
  intros Ha. revert b. induction cs as [|c cs IH]; intros b Hok; [done|].
  cbn [buffer_run queue_run].
  destruct (buffer_call_ok alloc b c Ha Hok) as (b' & -> & Hok' & Hc).
  cbn [mbind option_bind]. rewrite (IH b' Hok'), Hc.
  by destruct (queue_call (content b) c).
Qed.

(** ** Properties *)

(** C37: a [ReadBuffer] is a byte queue.  For every allocation strategy of the
    vectors and every sequence of [add], [consume], [addAndConsume] and [clear]
    calls on a new buffer, no assertion fails, nothing is written past the
    caller's buffer, and every call delivers exactly the bytes (and returns the
    count) that the plain queue delivers. *)
Theorem readbuffer_refines_queue alloc gran cs :
  (forall c n, (n <= alloc c n)%nat) -> (0 < gran)%nat ->
  exists b, ReadBuffer_new gran = Some b
    /\ buffer_run alloc b cs = Some ((fun out => (out, length out)) <$> queue_run [] cs).
Proof.
  intros Ha Hg. exists (mkRB gran 0 0 0 []). unfold ReadBuffer_new.
  rewrite decide_True by done. split; [done|].
  apply (buffer_run_ok alloc (mkRB gran 0 0 0 [])); [done|]. split; [|done]. by constructor.
Qed.

Lemma readbuffer_refines_queue_witness :
  exists b, ReadBuffer_new 2 = Some b
    /\ buffer_run (fun _ n => n) b
         [CAdd [1; 2; 3]; CConsume 1; CAddAndConsume [4; 5; 6; 7; 8; 9] 5; CConsume 9]
       = Some ((fun out => (out, length out)) <$> queue_run []
         [CAdd [1; 2; 3]; CConsume 1; CAddAndConsume [4; 5; 6; 7; 8; 9] 5; CConsume 9]).
Proof.
  apply (readbuffer_refines_queue (fun _ n => n) 2
    [CAdd [1; 2; 3]; CConsume 1; CAddAndConsume [4; 5; 6; 7; 8; 9] 5; CConsume 9]); lia.
Defined.

Lemma collect_ok alloc c chunks :
  (0 < expected_size_ c)%nat -> (length (vdata (buffer_ c)) < expected_size_ c)%nat ->
  (expected_size_ c <= length (vdata (buffer_ c) ++ concat chunks))%nat ->
  exists c' rest, collect alloc c chunks
      = Some (c', Some (take (expected_size_ c) (vdata (buffer_ c) ++ concat chunks)), rest)
    /\ concat rest = drop (expected_size_ c) (vdata (buffer_ c) ++ concat chunks).
Proof.
  revert c. induction chunks as [|data chunks IH]; intros c He Hb Hl; cbn [collect concat] in *.
  { rewrite app_nil_r in Hl. lia. }
  destruct (collector_add_ok alloc c data He Hb) as (c1 & -> & Hc1).
  rewrite app_assoc in *. case_decide as Hd.
  - do 2 eexists. split.
    + rewrite (take_app_le (vdata (buffer_ c) ++ data)) by lia. done.
    + cbn [concat]. rewrite drop_app_le by lia. f_equal. rewrite drop_app_ge by lia. done.
  - destruct Hc1 as [Hv1 He1]; [lia|]. rewrite <- Hv1, <- He1. rewrite <- Hv1 in Hl, Hd.
    apply IH; rewrite ?He1; lia || done.
Qed.

(** After [expect(n)], a [FixedBufferCollector] fed with incoming chunks
    hands out exactly the first [n] bytes of the data, as soon as they are
    there and however they were cut, and leaves the bytes behind them to the
    caller. *)
Theorem collector_collects alloc c n chunks :
  (0 < n)%nat -> (n <= length (concat chunks))%nat ->
  exists c' rest,
    collect alloc (expect c n) chunks = Some (c', Some (take n (concat chunks)), rest)
    /\ concat rest = drop n (concat chunks).
Proof.
  intros Hn Hl.
  assert (vdata (buffer_ (expect c n)) = []) as Hv by (unfold expect; cbn; by case_decide).
  destruct (collect_ok alloc (expect c n) chunks) as (c' & rest & H); rewrite ?Hv; [done|done|done|].
  rewrite Hv in H. by exists c', rest.
Qed.

Lemma collector_collects_witness :
  exists c' rest,
    collect (fun _ n => n) (expect (collector_new 0 16) 4) [[1]; []; [2; 3]; [4; 5; 6]; [7]]
      = Some (c', Some (take 4 (concat [[1]; []; [2; 3]; [4; 5; 6]; [7]])), rest)
    /\ concat rest = drop 4 (concat [[1]; []; [2; 3]; [4; 5; 6]; [7]]).
Proof.
  apply (collector_collects (fun _ n => n) (collector_new 0 16) 4
    [[1]; []; [2; 3]; [4; 5; 6]; [7]]); simpl; lia.
Defined.
