(* ===== verification/Multihash.v ===== *)
(** * Multihash and the binary form of PeerId

    [include/libp2p/multi/multihash.hpp], [src/multi/multihash.cpp] and the part
    of [src/peer/peer_id.cpp] that does not involve base58. *)

From S2P Require Import Prelude Varint.

(** ** Multihash *)

(** [HashType], an open [uint64_t] enumeration. *)
Abbreviation HashType := Z.
Definition identity : HashType := 0x0.
Definition sha256_type : HashType := 0x12.

Definition kMaxHashLength : nat := 127.

Inductive multihash_error :=
| ZERO_INPUT_LENGTH | INPUT_TOO_LONG | INPUT_TOO_SHORT | INCONSISTENT_LENGTH.

#[export] Instance multihash_error_eq_dec : EqDecision multihash_error.
Proof. solve_decision. Defined.

(** [Multihash::Data]; [std_hash] is a cache for unordered containers. *)
Record Multihash := mkMultihash {
  mbytes : bytes;
  hash_offset : Z;
  mtype : HashType
}.

#[export] Instance Multihash_eq_dec : EqDecision Multihash.
Proof. solve_decision. Defined.

(** [appendVarint(buffer, t)]: [do ... while (t > 0)]. *)
Fixpoint appendVarint (fuel : nat) (buffer : bytes) (t : Z) : option bytes :=
  match fuel with
  | O => None
  | S fuel =>
      let byte := Z.land t 0x7f in
      let t := Z.shiftr t 7 in
      let byte := if t =? 0 then byte else Z.lor byte 0x80 in
      let buffer := buffer ++ [byte] in
      if 0 <? t then appendVarint fuel buffer t else Some buffer
  end.

(** [Multihash::Data::Data], with its assertion; ten rounds encode any
    [uint64_t]. *)
Definition Data_make (t : HashType) (h : bytes) : option Multihash :=
  match appendVarint 10 [] t with
  | None => None
  | Some prefix =>
      if decide (Z.of_nat (length h) <= 255) then
        let bytes := prefix ++ [u8 (Z.of_nat (length h))] in
        Some (mkMultihash (bytes ++ h) (u8 (Z.of_nat (length bytes))) t)
      else None
  end.

(** [Multihash::create]; [None] would be the failing assertion. *)
Definition create (type : HashType) (hash : bytes) : option (outcome multihash_error Multihash) :=
  if decide (kMaxHashLength < length hash)%nat then Some (failure INPUT_TOO_LONG)
  else success <$> Data_make type hash.

Definition createFromBytes (b : bytes) : option (outcome multihash_error Multihash) :=
  let '(s, vr, b) := Reader.consume_buffer Reader.fresh b in
  if decide (s = Reader.kReady) then
    let type := Reader.value_ vr in
    match b with
    | [] => Some (failure INPUT_TOO_SHORT)
    | len :: hash =>
        if len =? 0 then Some (failure ZERO_INPUT_LENGTH)
        else if Z.of_nat (length hash) =? len then create type hash
        else Some (failure INCONSISTENT_LENGTH)
    end
  else Some (failure INPUT_TOO_SHORT).

Definition getType (m : Multihash) : HashType := mtype m.
Definition getHash (m : Multihash) : bytes := drop (Z.to_nat (hash_offset m)) (mbytes m).
Definition toBuffer (m : Multihash) : bytes := mbytes m.

Definition multihash_eqb (a b : Multihash) : bool :=
  bool_decide (mbytes a = mbytes b) && (mtype a =? mtype b).

(** [std::vector<uint8_t>::operator<]. *)
Fixpoint bytes_ltb (a b : bytes) : bool :=
  match a, b with
  | _, [] => false
  | [], _ :: _ => true
  | x :: a, y :: b => if x <? y then true else if y <? x then false else bytes_ltb a b
  end.

Definition multihash_ltb (a b : Multihash) : bool :=
  if mtype a =? mtype b then bytes_ltb (mbytes a) (mbytes b) else mtype a <? mtype b.

(** ** PeerId

    A [PeerId] is its multihash. *)

Definition kMaxInlineKeyLength : nat := 42.

Inductive peer_id_error :=
| SHA256_EXPECTED
| FromMultihash (e : multihash_error).

Definition fromHash (hash : Multihash) : outcome peer_id_error Multihash :=
  if negb (getType hash =? sha256_type)
     && bool_decide (kMaxInlineKeyLength < length (toBuffer hash))%nat
  then failure SHA256_EXPECTED
  else success hash.

Definition fromBytes (v : bytes) : option (outcome peer_id_error Multihash) :=
  match createFromBytes v with
  | None => None
  | Some (failure e) => Some (failure (FromMultihash e))
  | Some (success mh) => Some (fromHash mh)
  end.

(** [fromPublicKey]; [sha256] is the digest of [crypto/sha], [key] the
    protobuf-encoded key. *)
Definition fromPublicKey (sha256 : bytes -> bytes) (key : bytes) :
    option (outcome peer_id_error Multihash) :=
  let '(algo, hash) :=
    if decide (length key <= kMaxInlineKeyLength)%nat then (identity, key)
    else (sha256_type, sha256 key) in
  match create algo hash with
  | None => None
  | Some (failure e) => Some (failure (FromMultihash e))
  | Some (success m) => Some (success m)
  end.

(** ** Proofs *)

Lemma bytes_ltb_trichotomy a b :
  match bytes_ltb a b, bytes_ltb b a with
  | true, false | false, true => a <> b
  | false, false => a = b
  | true, true => False
  end.
Proof.
  revert b. induction a as [|x a IH]; intros [|y b]; cbn [bytes_ltb]; try done.
  specialize (IH b). destruct (Z.ltb_spec x y), (Z.ltb_spec y x); try lia; try (injection 1; lia).
  assert (x = y) as -> by lia. destruct (bytes_ltb a b), (bytes_ltb b a); congruence.
Qed.

Lemma bytes_ltb_trans a b c : bytes_ltb a b = true -> bytes_ltb b c = true -> bytes_ltb a c = true.
Proof.
  revert b c. induction a as [|x a IH]; intros [|y b] [|z c]; cbn [bytes_ltb]; try done.
  destruct (Z.ltb_spec x y), (Z.ltb_spec y x), (Z.ltb_spec y z), (Z.ltb_spec z y),
    (Z.ltb_spec x z), (Z.ltb_spec z x); try lia; try done. apply IH.
Qed.

Lemma appendVarint_encode fuel buffer t :
  0 <= t -> appendVarint fuel buffer t = (fun l => buffer ++ l) <$> EncodeVarint.encode_loop fuel t.
Proof.
  revert buffer t. induction fuel as [|fuel IH]; intros buffer t Ht; [done|].
  cbn [appendVarint EncodeVarint.encode_loop].
  assert (0 <= Z.shiftr t 7) by (rewrite shiftr_7; divlia).
  destruct (Z.shiftr t 7 =? 0) eqn:E; reflect_bools.
  - rewrite E. done.
  - replace (0 <? Z.shiftr t 7) with true by lia. rewrite IH by done.
    destruct (EncodeVarint.encode_loop fuel _); [|done]. cbn. by rewrite <- app_assoc.
Qed.

(** The layout of a multihash: type, length, digest. *)
Lemma Data_make_spec t h :
  is_u64 t -> (length h <= 255)%nat ->
  exists prefix, EncodeVarint.EncodeVarint t = Some prefix
    /\ Data_make t h = Some (mkMultihash (prefix ++ Z.of_nat (length h) :: h)
                               (Z.of_nat (length prefix) + 1) t).
Proof.
  intros Ht Hh. destruct (EncodeVarint_ok t Ht) as (p & Hp & _ & Hl & _).
  exists p. split; [done|]. unfold Data_make.
  rewrite appendVarint_encode by (unfold is_u64 in Ht; lia).
  unfold EncodeVarint.EncodeVarint in Hp. rewrite Hp. cbn [fmap option_fmap option_map app].
  rewrite decide_True by lia. rewrite (u8_id (Z.of_nat (length h))) by (unfold is_byte; lia).
  rewrite length_app. cbn [length]. rewrite u8_id by (unfold is_byte; lia).
  rewrite <- app_assoc. do 2 f_equal. lia.
Qed.

Lemma multihash_create_spec type hash :
  is_u64 type ->
  create type hash = Some
    (if decide (kMaxHashLength < length hash)%nat then failure INPUT_TOO_LONG
     else success (default (mkMultihash [] 0 0) (Data_make type hash)))
  /\ ((length hash <= kMaxHashLength)%nat -> is_Some (Data_make type hash)).
Proof.
  intros Ht. unfold create, kMaxHashLength. case_decide.
  - split; [done|]. lia.
  - destruct (Data_make_spec type hash Ht) as (p & _ & ->); [lia|]. split; [done|]. by eexists.
Qed.

(** The reader never holds more than 64 bits, so parsing a peer id never fails
    an assertion. *)
Lemma consume_loop_u64 r st n bs :
  is_u64 (Reader.value_ r) -> is_u64 (Reader.value_ (Reader.consume_loop r st n bs).1.2).
Proof.
  revert r st n. induction bs as [|b bs IH]; intros r st n Hr; [done|]. cbn [Reader.consume_loop].
  assert (is_u64 (Reader.value_ (Reader.consume r b).2)) as Hr'.
  { unfold Reader.consume. destruct (Reader.state_ r); try done.
    case_match; [done|]. apply is_u64_u64. }
  destruct (Reader.consume r b) as [[] r']; try done. by apply IH.
Qed.

Lemma fromBytes_total v : is_Some (fromBytes v).
Proof.
  unfold fromBytes, createFromBytes, Reader.consume_buffer.
  pose proof (consume_loop_u64 Reader.fresh (Reader.state_ Reader.fresh) 0 v) as Hu.
  destruct (Reader.consume_loop _ _ _ _) as [[st r] n]. cbn in Hu.
  case_decide; [|by eexists].
  set (rest := if _ && _ then _ else _). clearbody rest.
  destruct rest as [|len hash]; [by eexists|].
  destruct (len =? 0); [by eexists|]. destruct (_ =? len); [|by eexists].
  destruct (multihash_create_spec (Reader.value_ r) hash) as [-> _]; [apply Hu; unfold is_u64; lia|].
  case_decide; by eexists.
Qed.

Lemma createFromBytes_layout type hash prefix :
  is_u64 type -> EncodeVarint.EncodeVarint type = Some prefix ->
  bytes_ok hash -> hash <> [] -> (length hash <= kMaxHashLength)%nat ->
  createFromBytes (prefix ++ Z.of_nat (length hash) :: hash) = create type hash.
Proof.
  intros Ht Hp Hok Hne Hl. unfold kMaxHashLength in Hl. unfold createFromBytes.
  destruct (EncodeVarint_ok type Ht) as (l & Hl' & Hval & _ & Hlok & Hsp). simplify_eq.
  rewrite consume_buffer_fresh.
  - rewrite (varint_split_extend l _ Hsp), (encode_fits _ l Ht Hl').
    rewrite decide_True by done. cbn [Reader.value_].
    replace (Z.of_nat (length hash) =? 0) with false by (destruct hash; simpl in *; [done|lia]).
    by rewrite Z.eqb_refl.
  - apply bytes_ok_app. split; [done|]. constructor; [unfold is_byte; lia|done].
Qed.

Lemma getHash_layout p hash t :
  getHash (mkMultihash (p ++ Z.of_nat (length hash) :: hash) (Z.of_nat (length p) + 1) t) = hash.
Proof.
  unfold getHash. cbn [hash_offset mbytes].
  replace (Z.to_nat (Z.of_nat (length p) + 1)) with (S (length p)) by lia. apply drop_past.
Qed.

(** A multihash as [Multihash::create] makes them. *)
Definition multihash_of (t : HashType) (h : bytes) (m : Multihash) : Prop :=
  is_u64 t /\ bytes_ok h /\ h <> [] /\ create t h = Some (success m).

Lemma multihash_of_spec t h m :
  multihash_of t h m ->
  exists p, EncodeVarint.EncodeVarint t = Some p
    /\ m = mkMultihash (p ++ Z.of_nat (length h) :: h) (Z.of_nat (length p) + 1) t
    /\ bytes_ok (toBuffer m) /\ (length h <= kMaxHashLength)%nat
    /\ createFromBytes (toBuffer m) = Some (success m).
Proof.
  intros (Ht & Hh & Hne & Hc). pose proof Hc as Hcr. unfold create in Hc. case_decide; [done|].
  unfold kMaxHashLength in *.
  destruct (Data_make_spec t h Ht ltac:(lia)) as (p & Hp & Hd).
  rewrite Hd in Hc. cbn in Hc. simplify_eq. exists p.
  destruct (EncodeVarint_ok t Ht) as (p' & Hp' & _ & _ & Hok & _). simplify_eq.
  split_and!; [done|done| |lia|].
  - cbn. apply bytes_ok_app. split; [done|]. constructor; [unfold is_byte; lia|done].
  - cbn [toBuffer mbytes]. by rewrite (createFromBytes_layout t) by (done || unfold kMaxHashLength; lia).
Qed.

Lemma multihash_of_fields t h m : multihash_of t h m -> getType m = t /\ getHash m = h.
Proof.
  intros Hm. destruct (multihash_of_spec t h m Hm) as (p & _ & -> & _).
  split; [done|apply getHash_layout].
Qed.

(** ** Properties *)

(** A multihash survives serialisation.  For every 64-bit hash type and
    every non-empty digest of at most 127 bytes, [create] succeeds, the object
    exposes exactly that type and digest, and [createFromBytes] of its buffer
    gives the same object back. *)
Theorem multihash_roundtrip type hash :
  is_u64 type -> bytes_ok hash -> hash <> [] -> (length hash <= kMaxHashLength)%nat ->
  exists m, create type hash = Some (success m)
    /\ getType m = type /\ getHash m = hash
    /\ createFromBytes (toBuffer m) = Some (success m).
Proof.
  intros Ht Hok Hne Hl.
  destruct (Data_make_spec type hash Ht) as (p & Hp & Hd); [unfold kMaxHashLength in Hl; lia|].
  destruct (multihash_create_spec type hash Ht) as [Hc _]. rewrite decide_False, Hd in Hc by lia.
  cbn [default] in Hc. eexists. split_and!; [exact Hc|done| |].
  - by apply getHash_layout.
  - exact (eq_trans (createFromBytes_layout type hash p Ht Hp Hok Hne Hl) Hc).
Qed.

Lemma multihash_roundtrip_witness :
  exists m, create 0xb220 [1; 2; 3] = Some (success m)
    /\ getType m = 0xb220 /\ getHash m = [1; 2; 3]
    /\ createFromBytes (toBuffer m) = Some (success m).
Proof.
  apply (multihash_roundtrip 0xb220 [1; 2; 3]).
  - unfold is_u64. lia.
  - repeat constructor; vm_compute; done.
  - discriminate.
  - unfold kMaxHashLength. simpl. lia.
Defined.

(** C40: parsing accepts nothing else.  For every input, [createFromBytes]
    returns (no assertion can fail), and when it succeeds the input is a varint
    type, a length byte equal to the number of remaining bytes, and a digest of
    1 to 127 bytes, which are the type and digest of the result; the result
    serialises to the canonical form of the input, with the shortest varint of
    the same type in front of the same length byte and digest, and that form is
    parsed into the same multihash. *)
Theorem multihash_parse_sound b :
  bytes_ok b ->
  match createFromBytes b with
  | None => False
  | Some (failure _) => True
  | Some (success m) =>
      exists p q hash, b = p ++ Z.of_nat (length hash) :: hash
        /\ varint_split b = Some (p, Z.of_nat (length hash) :: hash)
        /\ (1 <= length hash <= kMaxHashLength)%nat
        /\ getType m = leb_value p /\ getHash m = hash
        /\ EncodeVarint.EncodeVarint (leb_value p) = Some q
        /\ toBuffer m = q ++ Z.of_nat (length hash) :: hash
        /\ createFromBytes (toBuffer m) = Some (success m)
  end.
Proof.
  intros Hb. unfold createFromBytes at 1. rewrite consume_buffer_fresh by done.
  destruct (varint_split b) as [[p rest]|] eqn:Es;
    [|by destruct (length b <? 10)%nat eqn:L; unfold reader_result; rewrite Es, L].
  destruct (varint_fits p) eqn:F; [|unfold reader_result; rewrite Es, F; done].
  rewrite decide_True by done. cbn [Reader.value_]. pose proof (varint_split_app _ _ _ Es) as ->.
  destruct rest as [|len hash]; [done|].
  destruct (len =? 0) eqn:E0; [done|]. destruct (Z.of_nat (length hash) =? len) eqn:El; [|done].
  reflect_bools. subst len.
  assert (is_u64 (leb_value p)) as Hu.
  { unfold varint_fits in F. reflect_bools. pose proof (leb_value_nonneg p). unfold is_u64. lia. }
  destruct (multihash_create_spec (leb_value p) hash Hu) as [Hc _]. rewrite Hc. case_decide; [done|].
  destruct (Data_make_spec (leb_value p) hash Hu) as (q & Hq & Hd);
    [unfold kMaxHashLength in *; lia|]. rewrite Hd. cbn [default].
  exists p, q, hash. split_and!; try done; try lia; [apply getHash_layout|].
  unfold toBuffer, id. cbn [mbytes]. rewrite (createFromBytes_layout (leb_value p)); try done; try lia.
  - by rewrite Hc, Hd.
  - apply Forall_app in Hb as [_ Hb]. by apply Forall_cons in Hb as [_ Hb].
  - by intros ->.
Qed.

Lemma multihash_parse_sound_witness :
  match createFromBytes [0x92; 0; 2; 5; 6] with
  | None => False
  | Some (failure _) => True
  | Some (success m) =>
      exists p q hash, [0x92; 0; 2; 5; 6] = p ++ Z.of_nat (length hash) :: hash
        /\ varint_split [0x92; 0; 2; 5; 6] = Some (p, Z.of_nat (length hash) :: hash)
        /\ (1 <= length hash <= kMaxHashLength)%nat
        /\ getType m = leb_value p /\ getHash m = hash
        /\ EncodeVarint.EncodeVarint (leb_value p) = Some q
        /\ toBuffer m = q ++ Z.of_nat (length hash) :: hash
        /\ createFromBytes (toBuffer m) = Some (success m)
  end.
Proof. apply (multihash_parse_sound [0x92; 0; 2; 5; 6]). repeat constructor; vm_compute; done. Defined.
