(* ===== verification/ByteUtil.v ===== *)
(** * Integers as bytes and as decimal text

    [common/byteutil.cpp], and the decimal conversions of the standard library
    that the address code calls: [std::to_string], [std::stoi] and
    [std::from_chars]. *)

From S2P Require Import Prelude.

(** ** Fixed-width integers *)

Definition u16 (z : Z) : Z := z mod 2 ^ 16.
Definition u32 (z : Z) : Z := z mod 2 ^ 32.

(** [(n >> k) & 0xFF] *)
Definition byte_at (n k : Z) : Z := Z.land (Z.shiftr n k) 0xFF.

Definition putUint8 (bs : bytes) (n : Z) : bytes := bs ++ [u8 n].
Definition putUint16BE (bs : bytes) (n : Z) : bytes :=
  let bs := bs ++ [byte_at n 8] in putUint8 bs n.
Definition putUint16LE (bs : bytes) (n : Z) : bytes :=
  let bs := putUint8 bs n in bs ++ [byte_at n 8].
(** The argument of the 16-bit function is the low half. *)
Definition putUint32BE (bs : bytes) (n : Z) : bytes :=
  let bs := bs ++ [byte_at n 24] in
  let bs := bs ++ [byte_at n 16] in
  putUint16BE bs (u16 n).
Definition putUint32LE (bs : bytes) (n : Z) : bytes :=
  let bs := putUint16LE bs (u16 n) in
  let bs := bs ++ [byte_at n 16] in
  bs ++ [byte_at n 24].
Definition putUint64BE (bs : bytes) (n : Z) : bytes :=
  let bs := bs ++ [byte_at n 56] in
  let bs := bs ++ [byte_at n 48] in
  let bs := bs ++ [byte_at n 40] in
  let bs := bs ++ [byte_at n 32] in
  putUint32BE bs (u32 n).
Definition putUint64LE (bs : bytes) (n : Z) : bytes :=
  let bs := putUint32LE bs (u32 n) in
  let bs := bs ++ [byte_at n 32] in
  let bs := bs ++ [byte_at n 40] in
  let bs := bs ++ [byte_at n 48] in
  bs ++ [byte_at n 56].

(** ** Decimal text *)

Definition isdigit (c : Z) : bool := (48 <=? c) && (c <=? 57).

(** [std::to_string] of an unsigned number of at most 64 bits: twenty digits. *)
Fixpoint decimal (fuel : nat) (n : Z) : bytes :=
  match fuel with
  | O => []
  | S fuel => (if n <? 10 then [] else decimal fuel (n / 10)) ++ [48 + n mod 10]
  end.
Definition to_string (n : Z) : bytes := decimal 20 n.

Definition digits_value (s : bytes) : Z := foldl (fun v c => v * 10 + (c - 48)) 0 s.

(** [std::stoi] of a string of digits; [None] is [std::invalid_argument] or
    [std::out_of_range]. *)
Definition stoi_digits (s : bytes) : option Z :=
  if decide (s = []) then None
  else if digits_value s <=? 2 ^ 31 - 1 then Some (digits_value s) else None.

Fixpoint digit_prefix (s : bytes) : bytes :=
  match s with
  | c :: s => if isdigit c then c :: digit_prefix s else []
  | [] => []
  end.

(** [std::from_chars] into a [uint16_t]: the longest prefix of digits, the rest is
    left alone; [None] is [invalid_argument] or [result_out_of_range]. *)
Definition from_chars_u16 (s : bytes) : option Z :=
  let p := digit_prefix s in
  if decide (p = []) then None
  else if digits_value p <=? 2 ^ 16 - 1 then Some (digits_value p) else None.

(** ** Proofs *)

Lemma byte_at_div n k : 0 <= k -> byte_at n k = n / 2 ^ k mod 256.
Proof.
  intros Hk. unfold byte_at. change 0xFF with (Z.ones 8).
  rewrite Z.land_ones, Z.shiftr_div_pow2 by lia. done.
Qed.

(** The number whose bytes, least significant first, are [l]. *)
Fixpoint le_value (l : bytes) : Z := match l with [] => 0 | b :: l => b + 256 * le_value l end.

Lemma decimal_digits fuel n : 0 <= n -> Forall (fun c => isdigit c = true) (decimal fuel n).
Proof.
  revert n. induction fuel as [|fuel IH]; intros n Hn; cbn [decimal]; [constructor|].
  apply Forall_app. split.
  - destruct (n <? 10); [constructor|]. apply IH. divlia.
  - repeat constructor. unfold isdigit. pose proof (Z.mod_pos_bound n 10). lia.
Qed.

Lemma decimal_nonempty fuel n : (0 < fuel)%nat -> decimal fuel n <> [].
Proof. destruct fuel; [lia|]. intros _. cbn. by destruct (if n <? 10 then _ else _). Qed.

Lemma digits_value_app s c : digits_value (s ++ [c]) = digits_value s * 10 + (c - 48).
Proof. unfold digits_value. by rewrite foldl_app. Qed.

Lemma decimal_value fuel n : 0 <= n < 10 ^ Z.of_nat fuel -> digits_value (decimal fuel n) = n.
Proof.
  revert n. induction fuel as [|fuel IH]; intros n Hn; cbn [decimal].
  - cbn in Hn. assert (n = 0) as -> by lia. done.
  - rewrite digits_value_app. rewrite Nat2Z.inj_succ, Z.pow_succ_r in Hn by lia.
    destruct (Z.ltb_spec n 10).
    + rewrite Z.mod_small by lia. cbn. lia.
    + rewrite IH by divlia. divlia.
Qed.

Lemma to_string_spec n :
  0 <= n < 10 ^ 20 ->
  to_string n <> [] /\ Forall (fun c => isdigit c = true) (to_string n) /\ digits_value (to_string n) = n.
Proof.
  intros Hn. split_and!; [by apply decimal_nonempty; lia|apply decimal_digits; lia|by apply decimal_value].
Qed.

Lemma digit_prefix_all s : Forall (fun c => isdigit c = true) s -> digit_prefix s = s.
Proof. induction 1 as [|c s Hc _ IH]; [done|]. cbn. by rewrite Hc, IH. Qed.

Lemma port_text n :
  0 <= n < 2 ^ 16 ->
  stoi_digits (to_string n) = Some n /\ from_chars_u16 (to_string n) = Some n.
Proof.
  intros Hn. destruct (to_string_spec n ltac:(lia)) as (Hne & Hd & Hv).
  unfold stoi_digits, from_chars_u16. rewrite digit_prefix_all, Hv by done.
  rewrite !decide_False by done. split; by rewrite (proj2 (Z.leb_le _ _)) by lia.
Qed.

(** Compare a list of [byte_at]s with what a writer appends. *)
Ltac put_bytes :=
  split_and!;
  [ unfold putUint64LE, putUint32LE, putUint16LE, putUint8; cbn [rev app]; by rewrite <- ?app_assoc
  | unfold putUint64BE, putUint32BE, putUint16BE, putUint8; cbn [rev app]; by rewrite <- ?app_assoc
  | done
  | rewrite !byte_at_div by lia; unfold u8, u16, u32; repeat constructor; unfold is_byte; divlia
  | rewrite !byte_at_div by lia; unfold u8, u16, u32; cbn [le_value]; divlia ].

(** ** Properties *)

(** Integers are written in the stated byte order.  For each width the bytes
    appended by the big-endian function are those of the little-endian function
    reversed, their number is the width, and read in order they are the number. *)
Theorem put_uint_exact bs n :
  is_u64 n ->
  (exists l, putUint64LE bs n = bs ++ l /\ putUint64BE bs n = bs ++ rev l
     /\ length l = 8%nat /\ bytes_ok l /\ le_value l = n)
  /\ (n < 2 ^ 32 -> exists l, putUint32LE bs n = bs ++ l /\ putUint32BE bs n = bs ++ rev l
     /\ length l = 4%nat /\ bytes_ok l /\ le_value l = n)
  /\ (n < 2 ^ 16 -> exists l, putUint16LE bs n = bs ++ l /\ putUint16BE bs n = bs ++ rev l
     /\ length l = 2%nat /\ bytes_ok l /\ le_value l = n).
Proof.
  unfold is_u64. intros Hn. split_and!; [|intros H32|intros H16].
  - exists [u8 (u16 (u32 n)); byte_at (u16 (u32 n)) 8; byte_at (u32 n) 16; byte_at (u32 n) 24;
            byte_at n 32; byte_at n 40; byte_at n 48; byte_at n 56]. put_bytes.
  - exists [u8 (u16 n); byte_at (u16 n) 8; byte_at n 16; byte_at n 24]. put_bytes.
  - exists [u8 n; byte_at n 8]. put_bytes.
Qed.

Lemma put_uint_exact_witness :
  exists l, putUint16LE [9] 8080 = [9] ++ l /\ putUint16BE [9] 8080 = [9] ++ rev l
    /\ length l = 2%nat /\ bytes_ok l /\ le_value l = 8080.
Proof. apply (put_uint_exact [9] 8080); [unfold is_u64; lia|lia]. Defined.
