(* ===== verification/Base58.v ===== *)
(** * Base 58

    [src/multi/multibase_codec/codecs/base58.cpp].  Both directions convert
    between number bases in place: a buffer of digits, allocated from an estimate
    of the logarithm, is multiplied and added to once per input digit, with a
    counter of the digits in use.

    Buffers are lists of digits from the least significant one, as the reverse
    iterators of the source see them.  The [char *] passed to [decodeImpl] ends at
    the first NUL, which is taken to be the one behind the string. *)

From S2P Require Import Prelude.

(** [BaseError] *)
Inductive BaseError :=
| INVALID_BASE58_INPUT
| INVALID_BASE64_INPUT
| INVALID_BASE32_INPUT
| NON_UPPERCASE_INPUT
| NON_LOWERCASE_INPUT.

Definition pszBase58 : bytes := str "123456789ABCDEFGHJKLMNPQRSTUVWXYZabcdefghijkmnopqrstuvwxyz".

(** The table [mapBase58], row by row. *)
Definition mapBase58 : list Z :=
  replicate 48 (-1) ++
  [-1; 0; 1; 2; 3; 4; 5; 6;  7; 8;-1;-1;-1;-1;-1;-1;
   -1; 9;10;11;12;13;14;15; 16;-1;17;18;19;20;21;-1;
   22;23;24;25;26;27;28;29; 30;31;32;-1;-1;-1;-1;-1;
   -1;33;34;35;36;37;38;39; 40;41;42;43;-1;44;45;46;
   47;48;49;50;51;52;53;54; 55;56;57;-1;-1;-1;-1;-1] ++
  replicate 128 (-1).

Definition isSpace (c : Z) : bool :=
  (c =? 32) || (c =? 12) || (c =? 10) || (c =? 13) || (c =? 9) || (c =? 11).

(** The inner loop: [buffer = buffer * mul + carry] in base [base], over the digits
    in use and as long as there is a carry. *)
Fixpoint carry_loop (mul base : Z) (length i : nat) (carry : Z) (buffer : list Z) :
    list Z * Z * nat :=
  match buffer with
  | [] => ([], carry, i)
  | d :: buffer =>
      if negb (carry =? 0) || bool_decide (i < length)%nat then
        let carry := carry + mul * d in
        let '(rest, c, i) := carry_loop mul base length (S i) (Z.quot carry base) buffer in
        (Z.rem carry base :: rest, c, i)
      else (d :: buffer, carry, i)
  end.

Fixpoint skip_while (f : Z -> bool) (l : list Z) : list Z :=
  match l with
  | [] => []
  | x :: l => if f x then skip_while f l else x :: l
  end.
Fixpoint count_while (f : Z -> bool) (l : list Z) : nat :=
  match l with
  | [] => 0
  | x :: l => if f x then S (count_while f l) else 0
  end.

(** The last steps: the digits in use, most significant first, without zeroes. *)
Definition significant (length : nat) (buffer : list Z) : list Z :=
  skip_while (fun d => d =? 0) (rev (take length buffer)).

(** The loop over the bytes. *)
Fixpoint encode_bytes (bs : bytes) (length : nat) (b58 : list Z) : list Z * nat :=
  match bs with
  | [] => (b58, length)
  | b :: bs =>
      let '(b58, _, i) := carry_loop 256 58 length 0 b b58 in
      encode_bytes bs i b58
  end.

Definition encodeBase58 (bs : bytes) : bytes :=
  let zeroes := count_while (fun b => b =? 0) bs in
  let bs := skip_while (fun b => b =? 0) bs in
  let size := (length bs * 138 / 100 + 1)%nat in
  let '(b58, length) := encode_bytes bs 0 (replicate size 0) in
  replicate zeroes 49 ++ map (fun d => nth (Z.to_nat d) pszBase58 0) (significant length b58).

(** The loop over the characters; [None]: an invalid character or a carry left. *)
Fixpoint decode_chars (s : bytes) (length : nat) (b256 : list Z) : option (list Z * nat * bytes) :=
  match s with
  | [] => Some (b256, length, [])
  | c :: s' =>
      if isSpace c then Some (b256, length, s)
      else
        let carry := nth (Z.to_nat c) mapBase58 (-1) in
        if carry =? -1 then None
        else
          let '(b256, carry, i) := carry_loop 58 256 length 0 carry b256 in
          if negb (carry =? 0) then None else decode_chars s' i b256
  end.

(** What a [const char *] shows of a string. *)
Definition c_str (s : bytes) : bytes := take (count_while (fun c => negb (c =? 0)) s) s.

Definition decodeImpl (psz : bytes) : option bytes :=
  let psz := skip_while (fun c => negb (c =? 48) && isSpace c) psz in
  let zeroes := count_while (fun c => c =? 49) psz in
  let psz := skip_while (fun c => c =? 49) psz in
  let size := (length psz * 733 / 1000 + 1)%nat in
  '(b256, length, psz) ← decode_chars psz 0 (replicate size 0);
  let psz := skip_while isSpace psz in
  if negb (bool_decide (psz = [])) then None
  else Some (replicate zeroes 0 ++ significant length b256).

Definition decodeBase58 (string : bytes) : outcome BaseError bytes :=
  match decodeImpl (c_str string) with
  | Some decoded_bytes => success decoded_bytes
  | None => failure INVALID_BASE58_INPUT
  end.

Example encode_hello : encodeBase58 (str "Hello World!") = str "2NEpo7TZRRrLZSi2U".
Proof. reflexivity. Qed.
Example decode_hello : decodeBase58 (str " 112NEpo7TZRRrLZSi2U ") = success ([0; 0] ++ str "Hello World!").
Proof. reflexivity. Qed.

(** ** Numbers in positional notation *)

Section Positional.
Context (base : Z) (base_pos : 1 < base).

(** Digits from the least significant one. *)
Fixpoint value (l : list Z) : Z :=
  match l with [] => 0 | d :: l => d + base * value l end.
Definition digits (l : list Z) : Prop := Forall (fun d => 0 <= d < base) l.
Definition be_value (l : list Z) : Z := foldl (fun v d => v * base + d) 0 l.

Lemma value_app l1 l2 : value (l1 ++ l2) = value l1 + base ^ Z.of_nat (length l1) * value l2.
Proof.
  induction l1 as [|d l1 IH]; [cbn [app value length Z.of_nat]; rewrite Z.pow_0_r; lia|].
  cbn [app value length]. rewrite IH, Nat2Z.inj_succ, Z.pow_succ_r by lia. ring.
Qed.

Lemma be_value_rev l : be_value (rev l) = value l.
Proof.
  unfold be_value. induction l as [|d l IH]; [done|]. cbn [rev value].
  rewrite foldl_app, IH. cbn. lia.
Qed.

Lemma be_value_app l d : be_value (l ++ [d]) = be_value l * base + d.
Proof. unfold be_value. by rewrite foldl_app. Qed.

Lemma be_value_cons_acc v l :
  foldl (fun v d => v * base + d) v l = v * base ^ Z.of_nat (length l) + be_value l.
Proof.
  unfold be_value. induction l as [|d l IH] using rev_ind; [cbn; lia|].
  rewrite !foldl_app, IH, length_app. cbn [foldl length].
  rewrite Nat2Z.inj_add, Z.pow_add_r, Z.pow_1_r by lia. ring.
Qed.

Lemma value_bound l : digits l -> 0 <= value l < base ^ Z.of_nat (length l).
Proof.
  induction 1 as [|d l Hd _ IH]; [cbn; lia|]. cbn [value length].
  rewrite Nat2Z.inj_succ, Z.pow_succ_r by lia. nia.
Qed.

Lemma be_value_bound l : digits l -> 0 <= be_value l < base ^ Z.of_nat (length l).
Proof.
  intros Hl. rewrite <- (rev_involutive l), be_value_rev, length_rev.
  apply value_bound. by apply Forall_rev.
Qed.

Lemma value_zeroes n : value (replicate n 0) = 0.
Proof. induction n as [|n IH]; [done|]. cbn [replicate value]. rewrite IH. lia. Qed.

Definition zeroes (l : list Z) : Prop := Forall (fun d => d = 0) l.
Lemma zeroes_value l : zeroes l -> value l = 0.
Proof. induction 1 as [|d l -> _ IH]; [done|]. cbn. rewrite IH. lia. Qed.

(** Equal digits from equal numbers. *)
Lemma value_inj l1 l2 :
  digits l1 -> digits l2 -> length l1 = length l2 -> value l1 = value l2 -> l1 = l2.
Proof.
  intros H1. revert l2. induction H1 as [|d1 l1 Hd1 _ IH]; intros [|d2 l2] H2 Hlen Hv; try done.
  apply Forall_cons in H2 as [Hd2 H2]. cbn [value] in Hv.
  assert (d1 = d2) as -> by (apply (f_equal (fun v => v mod base)) in Hv;
    rewrite !(Z.mul_comm base), !Z_mod_plus_full, !Z.mod_small in Hv by lia; done).
  f_equal. apply IH; [done|by injection Hlen|nia].
Qed.

(** The most significant digit comes first and is not zero. *)
Definition no_leading_zero (l : list Z) : Prop := match l with [] => True | d :: _ => d <> 0 end.

Lemma be_value_head d l :
  digits (d :: l) -> d <> 0 -> base ^ Z.of_nat (length l) <= be_value (d :: l).
Proof.
  intros [Hd Hl]%Forall_cons Hne. unfold be_value. cbn [foldl].
  rewrite be_value_cons_acc. pose proof (be_value_bound l Hl).
  assert (0 < base ^ Z.of_nat (length l)) by (apply Z.pow_pos_nonneg; lia). nia.
Qed.

Lemma canonical_length l1 l2 :
  digits l1 -> digits l2 -> no_leading_zero l1 -> no_leading_zero l2 ->
  be_value l1 = be_value l2 -> (length l1 <= length l2)%nat.
Proof.
  intros H1 H2 Hn1 Hn2 Hv. destruct l1 as [|d l1]; [cbn; lia|].
  pose proof (be_value_head d l1 H1 Hn1) as Hlow. pose proof (be_value_bound l2 H2) as Hup.
  rewrite Hv in Hlow. cbn [length].
  assert (base ^ Z.of_nat (length l1) < base ^ Z.of_nat (length l2)) as Hlt by lia.
  apply Z.pow_lt_mono_r_iff in Hlt; lia.
Qed.

Lemma canonical_unique l1 l2 :
  digits l1 -> digits l2 -> no_leading_zero l1 -> no_leading_zero l2 ->
  be_value l1 = be_value l2 -> l1 = l2.
Proof.
  intros H1 H2 Hn1 Hn2 Hv.
  assert (length l1 = length l2) as Hlen by (apply Nat.le_antisymm; by apply canonical_length).
  rewrite <- (rev_involutive l1), <- (rev_involutive l2). f_equal.
  apply value_inj; [by apply Forall_rev|by apply Forall_rev|by rewrite !length_rev|].
  by rewrite <- !be_value_rev, !rev_involutive.
Qed.
End Positional.

(** An estimate of a logarithm that is good once is good always. *)
Lemma pow_estimate a b p q n k :
  1 < a -> 1 < b -> 0 < p -> 0 <= q -> 0 <= n -> 0 <= k -> a ^ p <= b ^ q -> n * q <= p * k ->
  a ^ n <= b ^ k.
Proof.
  intros Ha Hb Hp Hq Hn Hk Hest Hle.
  destruct (Z.le_gt_cases (a ^ n) (b ^ k)) as [|Hgt]; [done|exfalso].
  assert ((b ^ k) ^ p < (a ^ n) ^ p) as Hlt
    by (apply Z.pow_lt_mono_l; [done|split; [apply Z.pow_nonneg; lia|done]]).
  rewrite <- !Z.pow_mul_r in Hlt by lia.
  assert (a ^ (n * p) <= b ^ (q * n)) as H1.
  { rewrite (Z.mul_comm n p), !Z.pow_mul_r by lia. apply Z.pow_le_mono_l. split; [|done].
    apply Z.pow_nonneg. lia. }
  assert (b ^ (q * n) <= b ^ (k * p)) as H2 by (apply Z.pow_le_mono_r; lia).
  lia.
Qed.

Lemma encode_size n : 256 ^ Z.of_nat n <= 58 ^ Z.of_nat (n * 138 / 100 + 1).
Proof.
  apply (pow_estimate 256 58 100 138); [lia..| |].
  - apply Z.leb_le. vm_compute. reflexivity.
  - pose proof (Nat.div_mod_eq (n * 138) 100). pose proof (Nat.mod_upper_bound (n * 138) 100). lia.
Qed.

Lemma decode_size n : 58 ^ Z.of_nat n <= 256 ^ Z.of_nat (n * 733 / 1000 + 1).
Proof.
  apply (pow_estimate 58 256 1000 733); [lia..| |].
  - apply Z.leb_le. vm_compute. reflexivity.
  - pose proof (Nat.div_mod_eq (n * 733) 1000). pose proof (Nat.mod_upper_bound (n * 733) 1000). lia.
Qed.

(** ** The loops compute with numbers *)

Section Conversion.
Context (mul base : Z) (mul_pos : 1 < mul) (base_pos : 1 < base).

(** A buffer of digits, zero from [length] on. *)
Definition buffer_ok (length : nat) (b : list Z) : Prop :=
  digits base b /\ zeroes (drop length b).

Lemma carry_loop_spec n i carry b r c i' :
  digits base b -> zeroes (drop (n - i) b) -> 0 <= carry ->
  carry_loop mul base n i carry b = (r, c, i') ->
  value base r + c * base ^ Z.of_nat (length b) = mul * value base b + carry
  /\ digits base r /\ length r = length b /\ 0 <= c /\ (i <= i')%nat /\ zeroes (drop (i' - i) r).
Proof.
  intros Hb. revert i carry r c i'. induction Hb as [|d b Hd Hb IH]; intros i carry r c i' Hz Hc.
  - cbn. intros [= <- <- <-]. cbn. rewrite Z.pow_0_r. split_and!; try done; try lia.
    + constructor.
    + unfold zeroes. destruct (i - i)%nat; constructor.
  - cbn [carry_loop]. destruct (negb (carry =? 0) || bool_decide (i < n)%nat) eqn:Hgo.
    + destruct (carry_loop _ _ _ _ _ _) as [[r1 c1] i1] eqn:Hrec. intros [= <- <- <-].
      rewrite Z.quot_div_nonneg in Hrec by nia.
      apply IH in Hrec as (Hv & Hdig & Hlen & Hc1 & Hi & Hz1).
      * rewrite Z.rem_mod_nonneg by nia. split_and!.
        -- cbn [value length]. rewrite Nat2Z.inj_succ, Z.pow_succ_r by lia.
           pose proof (Z.div_mod (carry + mul * d) base). nia.
        -- constructor; [|done]. apply Z.mod_pos_bound. lia.
        -- cbn. by rewrite Hlen.
        -- done.
        -- lia.
        -- replace (i1 - i)%nat with (S (i1 - S i)) by lia. done.
      * destruct (decide (i < n)%nat) as [Hin|Hin].
        -- replace (n - i)%nat with (S (n - S i)) in Hz by lia. done.
        -- replace (n - i)%nat with 0%nat in Hz by lia. replace (n - S i)%nat with 0%nat by lia.
           rewrite drop_0 in *. by apply Forall_cons in Hz as [_ Hz].
      * apply Z.div_pos; nia.
    + apply orb_false_iff in Hgo as [Hc0 Hin]. reflect_bools. subst carry. intros [= <- <- <-].
      replace (n - i)%nat with 0%nat in Hz by lia. rewrite drop_0 in Hz.
      rewrite (zeroes_value base) by done. replace (i - i)%nat with 0%nat by lia. rewrite drop_0.
      split_and!; try done; try lia. by constructor.
Qed.

(** One step from a good buffer, as long as the number fits. *)
Lemma carry_step n carry b r c i :
  buffer_ok n b -> 0 <= carry -> mul * value base b + carry < base ^ Z.of_nat (length b) ->
  carry_loop mul base n 0 carry b = (r, c, i) ->
  c = 0 /\ buffer_ok i r /\ length r = length b /\ value base r = mul * value base b + carry.
Proof.
  intros [Hd Hz] Hc Hfit Heq.
  apply carry_loop_spec in Heq as (Hv & Hdig & Hlen & Hc0 & _ & Hzr);
    [|done|by rewrite Nat.sub_0_r|done].
  rewrite Nat.sub_0_r in Hzr. pose proof (value_bound base base_pos r Hdig) as Hb.
  assert (0 < base ^ Z.of_nat (length b)) by (apply Z.pow_pos_nonneg; lia).
  assert (c = 0) as -> by nia. split_and!; [done|by split|done|lia].
Qed.
End Conversion.

Lemma skip_zeroes_digits base l : digits base l -> digits base (skip_while (fun d => d =? 0) l).
Proof.
  induction 1 as [|d l Hd Hl IH]; [constructor|]. cbn. destruct (d =? 0); [done|by constructor].
Qed.

Lemma skip_zeroes_value base l : be_value base (skip_while (fun d => d =? 0) l) = be_value base l.
Proof.
  induction l as [|d l IH]; [done|]. cbn [skip_while]. destruct (Z.eqb_spec d 0) as [->|]; [|done].
  rewrite IH. unfold be_value. cbn [foldl]. by replace (0 * base + 0) with 0 by lia.
Qed.

Lemma skip_zeroes_head l : no_leading_zero (skip_while (fun d => d =? 0) l).
Proof. induction l as [|d l IH]; [done|]. cbn. by destruct (Z.eqb_spec d 0). Qed.

(** The digits taken from a good buffer are the canonical ones of its number. *)
Lemma significant_spec base n b :
  1 < base -> buffer_ok base n b ->
  digits base (significant n b) /\ no_leading_zero (significant n b)
  /\ be_value base (significant n b) = value base b.
Proof.
  intros Hbase [Hd Hz]. unfold significant. split_and!.
  - apply skip_zeroes_digits. apply Forall_rev. by apply Forall_take.
  - apply skip_zeroes_head.
  - rewrite skip_zeroes_value, be_value_rev.
    rewrite <- (take_drop n b) at 2. rewrite value_app, (zeroes_value base (drop n b)) by done. lia.
Qed.

Lemma buffer_new base size : 1 < base -> buffer_ok base 0 (replicate size 0) /\ value base (replicate size 0) = 0.
Proof.
  intros Hbase. split; [|apply value_zeroes]. rewrite <- (drop_0 (replicate size 0)).
  split; rewrite drop_0; apply Forall_replicate; [lia|done].
Qed.

Lemma encode_bytes_spec bs n b r m :
  buffer_ok 58 n b -> bytes_ok bs ->
  value 58 b * 256 ^ Z.of_nat (length bs) + be_value 256 bs < 58 ^ Z.of_nat (length b) ->
  encode_bytes bs n b = (r, m) ->
  buffer_ok 58 m r /\ value 58 r = value 58 b * 256 ^ Z.of_nat (length bs) + be_value 256 bs.
Proof.
  intros Hb Hbs. revert n b Hb. induction Hbs as [|x bs Hx Hbs IH]; intros n b Hb Hfit.
  { cbn. intros [= <- <-]. split; [done|]. cbn. lia. }
  cbn [encode_bytes]. destruct (carry_loop 256 58 n 0 x b) as [[r1 c1] i1] eqn:Hc.
  assert (be_value 256 (x :: bs) = x * 256 ^ Z.of_nat (length bs) + be_value 256 bs) as Hcons
    by apply (be_value_cons_acc 256 x bs).
  pose proof (be_value_bound 256 ltac:(lia) bs Hbs) as Hbound.
  pose proof (value_bound 58 ltac:(lia) b (proj1 Hb)) as Hvb.
  cbn [length] in *. rewrite Nat2Z.inj_succ, Z.pow_succ_r in * by lia. rewrite Hcons in *.
  assert (0 < 256 ^ Z.of_nat (length bs)) as Hp by (apply Z.pow_pos_nonneg; lia).
  unfold is_byte in Hx.
  destruct (carry_step 256 58 ltac:(lia) ltac:(lia) n x b r1 c1 i1 Hb ltac:(lia) ltac:(nia) Hc)
    as (-> & Hr1 & Hlen & Hv).
  intros Heq. apply IH in Heq as [Hok Hval]; [|done|rewrite Hv, Hlen; nia].
  split; [done|]. rewrite Hval, Hv. ring.
Qed.

Lemma skip_bytes f bs : bytes_ok bs -> bytes_ok (skip_while f bs).
Proof. induction 1; [constructor|]. cbn. destruct (f x); [done|by constructor]. Qed.

(** The encoding is one '1' per leading zero, then the number in base 58. *)
Lemma encodeBase58_spec bs :
  bytes_ok bs ->
  exists ds, encodeBase58 bs = replicate (count_while (fun b => b =? 0) bs) 49
                                 ++ map (fun d => nth (Z.to_nat d) pszBase58 0) ds
    /\ digits 58 ds /\ no_leading_zero ds
    /\ be_value 58 ds = be_value 256 (skip_while (fun b => b =? 0) bs).
Proof.
  intros Hbs. unfold encodeBase58. set (rest := skip_while _ bs).
  assert (bytes_ok rest) as Hrest by by apply skip_bytes.
  destruct (encode_bytes rest 0 _) as [b m] eqn:He.
  destruct (buffer_new 58 (length rest * 138 / 100 + 1) ltac:(lia)) as [Hnew Hzero].
  apply encode_bytes_spec in He as [Hok Hv]; [|done|done|].
  - destruct (significant_spec 58 m b ltac:(lia) Hok) as (Hd & Hn & Hval).
    eexists. split_and!; [done|done|done|]. rewrite Hval, Hv, Hzero. lia.
  - rewrite Hzero, length_replicate. pose proof (be_value_bound 256 ltac:(lia) rest Hrest).
    pose proof (encode_size (length rest)). lia.
Qed.

(** ** Characters *)

Definition char58 (d : Z) : Z := nth (Z.to_nat d) pszBase58 0.

(** The tables agree: a digit's character is not a space, not NUL, is '1' only for
    zero, and maps back. *)
Lemma char58_spec d :
  0 <= d < 58 ->
  isSpace (char58 d) = false /\ nth (Z.to_nat (char58 d)) mapBase58 (-1) = d
  /\ (char58 d =? 49) = (d =? 0) /\ (char58 d =? 0) = false.
Proof.
  intros Hd.
  pose proof (forall_below 58 (fun d => negb (isSpace (char58 d))
    && (nth (Z.to_nat (char58 d)) mapBase58 (-1) =? d)
    && eqb (char58 d =? 49) (d =? 0) && negb (char58 d =? 0)) d ltac:(reflexivity) Hd) as Hall.
  cbv beta in Hall. reflect_bools. split_and!; [done|done|by apply eqb_prop|by apply Z.eqb_neq].
Qed.

Lemma skip_app_false f l1 l2 :
  Forall (fun c => f c = true) l1 -> match l2 with [] => True | c :: _ => f c = false end ->
  skip_while f (l1 ++ l2) = l2 /\ count_while f (l1 ++ l2) = length l1.
Proof.
  induction 1 as [|c l1 Hc _ IH]; intros Hl2; cbn.
  - destruct l2 as [|c l2]; [done|]. cbn. by rewrite Hl2.
  - rewrite Hc. destruct (IH Hl2) as [-> ->]. done.
Qed.

Lemma c_str_id s : Forall (fun c => (c =? 0) = false) s -> c_str s = s.
Proof.
  unfold c_str. induction 1 as [|c s Hc _ IH]; [done|]. cbn. rewrite Hc. cbn. by rewrite IH.
Qed.

Lemma decode_chars_spec ds n b :
  buffer_ok 256 n b -> digits 58 ds ->
  value 256 b * 58 ^ Z.of_nat (length ds) + be_value 58 ds < 256 ^ Z.of_nat (length b) ->
  exists r m, decode_chars (map char58 ds) n b = Some (r, m, [])
    /\ buffer_ok 256 m r /\ value 256 r = value 256 b * 58 ^ Z.of_nat (length ds) + be_value 58 ds.
Proof.
  intros Hb Hds. revert n b Hb. induction Hds as [|d ds Hd Hds IH]; intros n b Hb Hfit.
  { cbn. eexists _, _. split; [done|]. split; [done|]. cbn. lia. }
  cbn [map decode_chars]. destruct (char58_spec d Hd) as (-> & -> & _ & _).
  destruct (Z.eqb_spec d (-1)); [lia|].
  destruct (carry_loop 58 256 n 0 d b) as [[r1 c1] i1] eqn:Hc.
  assert (be_value 58 (d :: ds) = d * 58 ^ Z.of_nat (length ds) + be_value 58 ds) as Hcons
    by apply (be_value_cons_acc 58 d ds).
  pose proof (be_value_bound 58 ltac:(lia) ds Hds) as Hbound.
  pose proof (value_bound 256 ltac:(lia) b (proj1 Hb)) as Hvb.
  cbn [length] in *. rewrite Nat2Z.inj_succ, Z.pow_succ_r in * by lia. rewrite Hcons in *.
  assert (0 < 58 ^ Z.of_nat (length ds)) as Hp by (apply Z.pow_pos_nonneg; lia).
  destruct (carry_step 58 256 ltac:(lia) ltac:(lia) n d b r1 c1 i1 Hb ltac:(lia) ltac:(nia) Hc)
    as (-> & Hr1 & Hlen & Hv).
  cbn [Z.eqb negb]. destruct (IH i1 r1 Hr1) as (r & m & Hdec & Hok & Hval); [rewrite Hv, Hlen; nia|].
  exists r, m. split_and!; [done|done|]. rewrite Hval, Hv. ring.
Qed.

(** Decoding any string over the alphabet. *)
Lemma decodeBase58_spec z ds :
  digits 58 ds -> no_leading_zero ds ->
  exists cs, decodeBase58 (replicate z 49 ++ map char58 ds) = success (replicate z 0 ++ cs)
    /\ bytes_ok cs /\ no_leading_zero cs /\ be_value 256 cs = be_value 58 ds.
Proof.
  intros Hds Hn. unfold decodeBase58.
  assert (Forall (fun c => (c =? 0) = false /\ isSpace c = false) (replicate z 49 ++ map char58 ds)) as Hall.
  { apply Forall_app. split; [by apply Forall_replicate|]. apply Forall_map.
    eapply Forall_impl; [done|]. intros d Hd. by destruct (char58_spec d Hd) as (?&_&_&?). }
  rewrite c_str_id by (eapply Forall_impl; [exact Hall|]; by intros ? []).
  unfold decodeImpl.
  assert (forall l, Forall (fun c => (c =? 0) = false /\ isSpace c = false) l ->
            skip_while (fun c => negb (c =? 48) && isSpace c) l = l) as Hskip.
  { intros [|c l] Hl; [done|]. apply Forall_cons in Hl as [[_ Hc] _]. cbn. by rewrite Hc, andb_false_r. }
  rewrite Hskip by done.
  destruct (skip_app_false (fun c => c =? 49) (replicate z 49) (map char58 ds)) as [-> ->].
  { by apply Forall_replicate. }
  { destruct ds as [|d ds]; [done|]. cbn [map]. apply Forall_cons in Hds as [Hd _].
    destruct (char58_spec d Hd) as (_ & _ & -> & _). by apply Z.eqb_neq. }
  rewrite length_map, length_replicate.
  destruct (buffer_new 256 (length ds * 733 / 1000 + 1) ltac:(lia)) as [Hnew Hzero].
  destruct (decode_chars_spec ds 0 (replicate (length ds * 733 / 1000 + 1) 0) Hnew Hds)
    as (r & m & -> & Hok & Hv).
  { rewrite Hzero, length_replicate. pose proof (be_value_bound 58 ltac:(lia) ds Hds).
    pose proof (decode_size (length ds)). lia. }
  destruct (significant_spec 256 m r ltac:(lia) Hok) as (Hd & Hn' & Hval).
  exists (significant m r). split_and!; [done|done|done|]. rewrite Hval, Hv, Hzero. lia.
Qed.

Lemma split_leading f (l : list Z) x :
  (forall c, f c = true <-> c = x) -> l = replicate (count_while f l) x ++ skip_while f l.
Proof.
  intros Hf. induction l as [|c l IH]; [done|]. cbn. destruct (f c) eqn:Hc; [|done].
  apply Hf in Hc as ->. cbn. by rewrite <- IH.
Qed.

Lemma bytes_are_digits bs : bytes_ok bs <-> digits 256 bs.
Proof. done. Qed.

Lemma base58_decode_encode bs : bytes_ok bs -> decodeBase58 (encodeBase58 bs) = success bs.
Proof.
  intros Hbs. destruct (encodeBase58_spec bs Hbs) as (ds & -> & Hd & Hn & Hv).
  destruct (decodeBase58_spec (count_while (fun b => b =? 0) bs) ds Hd Hn) as (cs & Hdec & Hcs & Hnc & Hvc).
  etrans; [exact Hdec|]. f_equal. symmetry. etrans; [apply (split_leading (fun b => b =? 0) bs 0 (fun c => Z.eqb_eq c 0))|].
  f_equal. symmetry. apply (canonical_unique 256); try done.
  - by apply skip_bytes.
  - apply skip_zeroes_head.
  - congruence.
Qed.

(** A string over the alphabet, digit by digit. *)
Definition alphabet_string (s : bytes) : Prop := Forall (fun c => c ∈ pszBase58) s.

Lemma alphabet_digits s : alphabet_string s -> exists ds, s = map char58 ds /\ digits 58 ds.
Proof.
  induction 1 as [|c s Hc _ (ds & -> & Hds)]; [exists []; by split; constructor|].
  apply list_elem_of_lookup in Hc as [i Hi]. exists (Z.of_nat i :: ds). split.
  - cbn [map]. f_equal. unfold char58. rewrite Nat2Z.id. symmetry. by apply nth_lookup_Some.
  - constructor; [|done]. apply lookup_lt_Some in Hi. change (length pszBase58) with 58%nat in Hi. lia.
Qed.

Lemma base58_encode_decode s :
  alphabet_string s -> exists bs, decodeBase58 s = success bs /\ bytes_ok bs /\ encodeBase58 bs = s.
Proof.
  intros Hs. destruct (alphabet_digits s Hs) as (ds & -> & Hds). clear Hs.
  pose proof (split_leading (fun d => d =? 0) ds 0 (fun c => Z.eqb_eq c 0)) as Hsplit.
  set (z := count_while _ ds) in *. set (ds' := skip_while _ ds) in *.
  assert (digits 58 ds') as Hds' by by apply skip_zeroes_digits.
  assert (no_leading_zero ds') as Hn by apply skip_zeroes_head.
  assert (map char58 ds = replicate z 49 ++ map char58 ds') as Hmap
    by (rewrite Hsplit, map_app; f_equal; clear; induction z as [|z IH]; [done|]; cbn [replicate map]; by rewrite IH).
  destruct (decodeBase58_spec z ds' Hds' Hn) as (cs & Hdec & Hcs & Hnc & Hvc). rewrite Hmap.
  exists (replicate z 0 ++ cs). split; [done|].
  assert (bytes_ok (replicate z 0 ++ cs)) as Hok
    by (apply Forall_app; split; [by apply Forall_replicate|done]).
  split; [done|]. destruct (encodeBase58_spec _ Hok) as (ds2 & -> & Hd2 & Hn2 & Hv2).
  destruct (skip_app_false (fun b => b =? 0) (replicate z 0) cs) as [Hsk Hct].
  { by apply Forall_replicate. }
  { destruct cs; [done|]. by apply Z.eqb_neq. }
  rewrite Hct, length_replicate. f_equal. rewrite Hsk in Hv2.
  by rewrite (canonical_unique 58 ltac:(lia) ds2 ds') by (done || congruence).
Qed.

(** Whatever is decoded is bytes. *)
Lemma carry_loop_bytes n i carry b r c i' :
  0 <= carry -> bytes_ok b -> carry_loop 58 256 n i carry b = (r, c, i') -> bytes_ok r.
Proof.
  intros Hc Hb. revert i carry Hc r c i'. induction Hb as [|d b Hd Hb IH]; intros i carry Hc r c i'; cbn [carry_loop].
  - by intros [= <- _ _].
  - case_match; [|intros [= <- _ _]; by constructor].
    destruct (carry_loop 58 256 n (S i) _ b) as [[r' c'] i''] eqn:E. intros [= <- _ _].
    unfold is_byte in Hd. constructor; [unfold is_byte; apply Z.rem_bound_pos; lia|].
    eapply IH; [|exact E]. apply Z.quot_pos; lia.
Qed.

Lemma mapBase58_low c : -1 <= nth c mapBase58 (-1).
Proof.
  destruct (nth_in_or_default c mapBase58 (-1)) as [Hin | ->]; [|lia].
  assert (forallb (fun x => -1 <=? x) mapBase58 = true) as Hall by reflexivity.
  rewrite forallb_forall in Hall. apply Hall in Hin. lia.
Qed.

Lemma decode_chars_bytes s n b r m rest :
  bytes_ok b -> decode_chars s n b = Some (r, m, rest) -> bytes_ok r.
Proof.
  revert n b. induction s as [|c s IH]; intros n b Hb; cbn [decode_chars]; [by intros [= <- _ _]|].
  case_match; [by intros [= <- _ _]|]. pose proof (mapBase58_low (Z.to_nat c)).
  destruct (Z.eqb_spec (nth (Z.to_nat c) mapBase58 (-1)) (-1)); [done|].
  destruct (carry_loop 58 256 n 0 _ b) as [[b' c'] i] eqn:E. destruct (negb (c' =? 0)); [done|].
  apply IH. eapply carry_loop_bytes; [|done|exact E]. lia.
Qed.

Lemma decodeBase58_bytes s bs : decodeBase58 s = success bs -> bytes_ok bs.
Proof.
  unfold decodeBase58, decodeImpl. destruct (decode_chars _ _ _) as [[[b m] rest]|] eqn:E; [|done].
  cbn [mbind option_bind]. case_match eqn:E2; [|done]. intros [= <-].
  destruct (negb _); [done|]. injection E2 as <-.
  apply Forall_app. split; [by apply Forall_replicate|].
  unfold significant. apply skip_bytes, Forall_rev, Forall_take.
  eapply decode_chars_bytes; [|exact E]. by apply Forall_replicate.
Qed.

(** ** Properties *)

(** Base 58 is a bijection.  Every byte string is decoded back from its
    encoding, and every string over the alphabet is the encoding of the bytes it
    decodes to; the buffer sizes estimated from the logarithms always suffice. *)
Theorem base58_bijective :
  (forall bs, bytes_ok bs -> decodeBase58 (encodeBase58 bs) = success bs)
  /\ (forall s, alphabet_string s ->
        exists bs, decodeBase58 s = success bs /\ bytes_ok bs /\ encodeBase58 bs = s).
Proof. split; [apply base58_decode_encode|apply base58_encode_decode]. Qed.
