(* ===== verification/Multibase.v ===== *)
(** * Multibase

    [src/multi/multibase_codec/]: base 16, 32 and 64 and the codec that chooses
    among them by the first character.  Characters are bytes.  Hexadecimal
    printing and parsing belong to the [qtils] library and are a parameter. *)

From S2P Require Import Prelude Base58.

(** ** Base 32 *)

Module Base32.

Definition kUpperBase32Alphabet : bytes := str "ABCDEFGHIJKLMNOPQRSTUVWXYZ234567".
Definition kLowerBase32Alphabet : bytes := str "abcdefghijklmnopqrstuvwxyz234567".

Inductive Base32Mode := LOWER | UPPER.

Definition get_byte (block : nat) : nat := (block * 5 / 8)%nat.
Definition get_bit (block : nat) : Z := 8 - 5 - Z.of_nat ((block * 5) mod 8).

Definition encode_char (c : Z) (mode : Base32Mode) : Z :=
  nth (Z.to_nat (Z.land c 0x1F))
    (match mode with UPPER => kUpperBase32Alphabet | LOWER => kLowerBase32Alphabet end) 0.

Definition shift_right (byte offset : Z) : Z :=
  if 0 <? offset then u8 (Z.shiftr byte offset) else u8 (Z.shiftl byte (- offset)).
Definition shift_left (byte offset : Z) : Z := shift_right byte (- offset).

(** The loop over the blocks; the characters written. *)
Fixpoint encode_blocks (blocks : list nat) (plain : bytes) (mode : Base32Mode) : bytes :=
  match blocks with
  | [] => []
  | block :: blocks =>
      let byte := get_byte block in
      let bit := get_bit block in
      match plain !! byte with
      | None => []
      | Some x =>
          let c := shift_right x bit in
          let c := if bit <? 0
                   then match plain !! S byte with
                        | Some y => Z.lor c (shift_right y (8 + bit))
                        | None => c
                        end
                   else c in
          encode_char c mode :: encode_blocks blocks plain mode
      end
  end.
Definition encode_sequence (plain : bytes) (mode : Base32Mode) : bytes :=
  encode_blocks (seq 0 8) plain mode.

(** Five bytes a turn; [length bs] turns are enough.  Only the last sequence can be
    short, and what it does not fill is erased. *)
Fixpoint encode_groups (fuel : nat) (bs : bytes) (mode : Base32Mode) : bytes :=
  match bs, fuel with
  | [], _ | _, O => []
  | _, S fuel => encode_sequence (take 5 bs) mode ++ encode_groups fuel (drop 5 bs) mode
  end.
Definition encodeBase32 (bs : bytes) (mode : Base32Mode) : bytes := encode_groups (length bs) bs mode.
Definition encodeBase32Upper (bs : bytes) : bytes := encodeBase32 bs UPPER.
Definition encodeBase32Lower (bs : bytes) : bytes := encodeBase32 bs LOWER.

Definition decode_char (c : Z) (mode : Base32Mode) : Z :=
  let decoded_ch :=
    match mode with
    | UPPER => if (65 <=? c) && (c <=? 90) then c - 65 else -1
    | LOWER => if (97 <=? c) && (c <=? 122) then c - 97 else -1
    end in
  if (50 <=? c) && (c <=? 55) then c - 50 + 26 else decoded_ch.

(** The loop over the blocks; [plain] and the number of bytes of it that count. *)
Fixpoint decode_blocks (blocks : list nat) (coded plain : bytes) (mode : Base32Mode) :
    outcome BaseError (bytes * nat) :=
  match blocks with
  | [] => success (plain, 5%nat)
  | block :: blocks =>
      let bit := get_bit block in
      let byte := get_byte block in
      match coded !! block with
      | None => success (plain, byte)
      | Some ch =>
          let c := decode_char ch mode in
          if c <? 0 then failure INVALID_BASE32_INPUT
          else
            let plain := <[byte := Z.lor (nth byte plain 0) (shift_left c bit)]> plain in
            let plain := if bit <? 0 then <[S byte := shift_left c (8 + bit)]> plain else plain in
            decode_blocks blocks coded plain mode
      end
  end.
Definition decode_sequence (coded : bytes) (mode : Base32Mode) : outcome BaseError (bytes * nat) :=
  decode_blocks (seq 0 8) coded (replicate 5 0) mode.

Fixpoint decode_groups (fuel : nat) (s : bytes) (mode : Base32Mode) : outcome BaseError bytes :=
  match s, fuel with
  | [], _ | _, O => success []
  | _, S fuel =>
      match decode_sequence (take 8 s) mode with
      | failure e => failure e
      | success (plain, n) =>
          match decode_groups fuel (drop 8 s) mode with
          | failure e => failure e
          | success rest => success (take n plain ++ rest)
          end
      end
  end.
Definition decodeBase32 (s : bytes) (mode : Base32Mode) : outcome BaseError bytes :=
  decode_groups (length s) s mode.
Definition decodeBase32Upper (s : bytes) : outcome BaseError bytes := decodeBase32 s UPPER.
Definition decodeBase32Lower (s : bytes) : outcome BaseError bytes := decodeBase32 s LOWER.

Example foobar : encodeBase32Upper (str "fooba") ++ encodeBase32Upper (str "foob")
  = str "MZXW6YTBMZXW6YQ".
Proof. reflexivity. Qed.
Example unfoobar : decodeBase32Upper (str "MZXW6YTBOI") = success (str "foobar").
Proof. reflexivity. Qed.

(** *** Round trip *)

Lemma decode_encode_char c mode : decode_char (encode_char c mode) mode = Z.land c 31.
Proof.
  set (x := Z.land c 31). assert (0 <= x < 32) as Hx.
  { subst x. change 31 with (Z.ones 5). rewrite Z.land_ones by lia. apply Z.mod_pos_bound. lia. }
  unfold encode_char. change (Z.land c 0x1F) with x. apply Z.eqb_eq.
  destruct mode.
  - by apply (forall_below 32 (fun x => decode_char (nth (Z.to_nat x) kLowerBase32Alphabet 0) LOWER =? x)).
  - by apply (forall_below 32 (fun x => decode_char (nth (Z.to_nat x) kUpperBase32Alphabet 0) UPPER =? x)).
Qed.

(** What the decoder does with the value of one character. *)
Definition put (block : nat) (c : Z) (plain : bytes) : bytes :=
  let bit := get_bit block in
  let byte := get_byte block in
  let plain := <[byte := Z.lor (nth byte plain 0) (shift_left c bit)]> plain in
  if bit <? 0 then <[S byte := shift_left c (8 + bit)]> plain else plain.
Fixpoint put_all (block : nat) (cs : list Z) (plain : bytes) : bytes :=
  match cs with [] => plain | c :: cs => put_all (S block) cs (put block (Z.land c 31) plain) end.

Lemma land31_nonneg c : (Z.land c 31 <? 0) = false.
Proof. apply Z.ltb_ge. apply Z.land_nonneg. lia. Qed.

Lemma decode_put block blocks coded plain mode c :
  coded !! block = Some (encode_char c mode) ->
  decode_blocks (block :: blocks) coded plain mode
  = decode_blocks blocks coded (put block (Z.land c 31) plain) mode.
Proof. intros Hc. cbn [decode_blocks]. by rewrite Hc, decode_encode_char, land31_nonneg. Qed.

Lemma decode_put_all n pre cs plain mode :
  (length pre + length cs = n)%nat -> (n <= 8)%nat ->
  decode_blocks (seq (length pre) (8 - length pre)) (map (fun c => encode_char c mode) (pre ++ cs))
    plain mode
  = success (put_all (length pre) cs plain, get_byte n).
Proof.
  revert pre plain. induction cs as [|c cs IH]; intros pre plain Hn Hle.
  - cbn in Hn. rewrite Nat.add_0_r in Hn. subst n.
    destruct (8 - length pre)%nat as [|k] eqn:Hk.
    + cbn. replace (length pre) with 8%nat by lia. done.
    + cbn [seq decode_blocks]. rewrite list_lookup_fmap, lookup_ge_None_2; [done|].
      rewrite app_nil_r. lia.
  - cbn in Hn. replace (8 - length pre)%nat with (S (8 - S (length pre))) by lia. cbn [seq].
    rewrite (decode_put _ _ _ _ _ c).
    + specialize (IH (pre ++ [c]) (put (length pre) (Z.land c 31) plain)).
      rewrite length_app in IH. cbn [length] in IH. rewrite Nat.add_1_r, <- app_assoc in IH.
      apply IH; lia.
    + change (map ?f) with (fmap (M := list) f).
      rewrite list_lookup_fmap, lookup_app_r, Nat.sub_diag by lia. done.
Qed.

(** The eight values of five bytes, and the bytes put together from eight values. *)
Definition spread (b0 b1 b2 b3 b4 : Z) : list Z :=
  [shift_right b0 3; Z.lor (shift_right b0 (-2)) (shift_right b1 6); shift_right b1 1;
   Z.lor (shift_right b1 (-4)) (shift_right b2 4); Z.lor (shift_right b2 (-1)) (shift_right b3 7);
   shift_right b3 2; Z.lor (shift_right b3 (-3)) (shift_right b4 5); shift_right b4 0].
Definition gather (c0 c1 c2 c3 c4 c5 c6 c7 : Z) : list Z :=
  [Z.lor (shift_left (Z.land c0 31) 3) (shift_left (Z.land c1 31) (-2));
   Z.lor (Z.lor (shift_left (Z.land c1 31) 6) (shift_left (Z.land c2 31) 1)) (shift_left (Z.land c3 31) (-4));
   Z.lor (shift_left (Z.land c3 31) 4) (shift_left (Z.land c4 31) (-1));
   Z.lor (Z.lor (shift_left (Z.land c4 31) 7) (shift_left (Z.land c5 31) 2)) (shift_left (Z.land c6 31) (-3));
   Z.lor (shift_left (Z.land c6 31) 5) (shift_left (Z.land c7 31) 0)].

Lemma shift_right_div b k : is_byte b -> 0 < k -> shift_right b k = b / 2 ^ k.
Proof.
  unfold is_byte. intros Hb Hk. unfold shift_right. rewrite (proj2 (Z.ltb_lt 0 k) Hk).
  rewrite Z.shiftr_div_pow2 by lia. apply Z.mod_small.
  assert (0 < 2 ^ k) by (apply Z.pow_pos_nonneg; lia).
  split; [apply Z.div_pos; lia|]. apply Z.div_lt_upper_bound; nia.
Qed.

Lemma shift_right_mul b k : 0 <= k -> shift_right b (- k) = (b * 2 ^ k) mod 256.
Proof.
  intros Hk. unfold shift_right. destruct (Z.ltb_spec 0 (- k)); [lia|].
  by rewrite Z.opp_involutive, Z.shiftl_mul_pow2.
Qed.

(** A character across two bytes keeps what each of them gave it. *)
Lemma boundary k a b :
  k ∈ [1; 2; 3; 4] -> is_byte a -> is_byte b ->
  let c := Z.land (Z.lor (shift_right a (- k)) (shift_right b (8 - k))) 31 in
  shift_left c (8 - k) = shift_left (shift_right b (8 - k)) (8 - k)
  /\ shift_left c (- k) = shift_left (Z.land (shift_right a (- k)) 31) (- k).
Proof.
  intros Hk Ha Hb c.
  assert (k = 1 \/ k = 2 \/ k = 3 \/ k = 4) as Hk' by set_solver. clear Hk.
  assert (0 <= 2 ^ k * (b / 2 ^ (8 - k)) /\ c = ((a * 2 ^ k) mod 256 + b / 2 ^ (8 - k)) mod 32) as [_ Hc].
  { subst c. change 31 with (Z.ones 5). rewrite Z.land_ones by lia.
    rewrite shift_right_mul, shift_right_div by (done || lia). unfold is_byte in *.
    destruct Hk' as [-> | [-> | [-> | ->]]]; (split; [divlia|]); rewrite Z.lor_comm;
      [rewrite (lor_disjoint _ _ 1)|rewrite (lor_disjoint _ _ 2)|rewrite (lor_disjoint _ _ 3)
      |rewrite (lor_disjoint _ _ 4)]; try (f_equal; lia); cbn; divlia. }
  assert (is_byte c) as Hbc by (unfold is_byte; rewrite Hc; divlia).
  assert (is_byte (Z.land (shift_right a (- k)) 31)) as Hba.
  { change 31 with (Z.ones 5). rewrite Z.land_ones by lia. unfold is_byte. divlia. }
  unfold shift_left. rewrite !(shift_right_mul _ (8 - k)), !Z.opp_involutive by lia.
  rewrite !(shift_right_div _ k) by (done || lia). rewrite (shift_right_div b) by (done || lia).
  rewrite shift_right_mul by lia. change 31 with (Z.ones 5). rewrite Z.land_ones by lia. rewrite Hc.
  clear c Hc Hbc Hba. unfold is_byte in *.
  destruct Hk' as [-> | [-> | [-> | ->]]]; cbn; split; divlia.
Qed.

Lemma whole b :
  is_byte b ->
  Z.lor (shift_left (Z.land (shift_right b 3) 31) 3) (shift_left (Z.land (shift_right b (-2)) 31) (-2)) = b
  /\ Z.lor (Z.lor (shift_left (shift_right b 6) 6) (shift_left (Z.land (shift_right b 1) 31) 1))
       (shift_left (Z.land (shift_right b (-4)) 31) (-4)) = b
  /\ Z.lor (shift_left (shift_right b 4) 4) (shift_left (Z.land (shift_right b (-1)) 31) (-1)) = b
  /\ Z.lor (Z.lor (shift_left (shift_right b 7) 7) (shift_left (Z.land (shift_right b 2) 31) 2))
       (shift_left (Z.land (shift_right b (-3)) 31) (-3)) = b
  /\ Z.lor (shift_left (shift_right b 5) 5) (shift_left (Z.land (shift_right b 0) 31) 0) = b.
Proof.
  intros Hb.
  pose proof (forall_byte (fun b =>
    (Z.lor (shift_left (Z.land (shift_right b 3) 31) 3) (shift_left (Z.land (shift_right b (-2)) 31) (-2)) =? b)
    && (Z.lor (Z.lor (shift_left (shift_right b 6) 6) (shift_left (Z.land (shift_right b 1) 31) 1))
       (shift_left (Z.land (shift_right b (-4)) 31) (-4)) =? b)
    && (Z.lor (shift_left (shift_right b 4) 4) (shift_left (Z.land (shift_right b (-1)) 31) (-1)) =? b)
    && (Z.lor (Z.lor (shift_left (shift_right b 7) 7) (shift_left (Z.land (shift_right b 2) 31) 2))
       (shift_left (Z.land (shift_right b (-3)) 31) (-3)) =? b)
    && (Z.lor (shift_left (shift_right b 5) 5) (shift_left (Z.land (shift_right b 0) 31) 0) =? b))
    b ltac:(vm_compute; reflexivity) Hb) as Hall.
  cbv beta in Hall. reflect_bools. done.
Qed.

Lemma gather_spread b0 b1 b2 b3 b4 :
  is_byte b0 -> is_byte b1 -> is_byte b2 -> is_byte b3 -> is_byte b4 ->
  match spread b0 b1 b2 b3 b4 with
  | [c0; c1; c2; c3; c4; c5; c6; c7] => gather c0 c1 c2 c3 c4 c5 c6 c7
  | _ => []
  end = [b0; b1; b2; b3; b4].
Proof.
  intros H0 H1 H2 H3 H4. cbn [spread gather]. unfold gather.
  destruct (boundary 2 b0 b1) as [L1 R1]; [set_solver|done|done|].
  destruct (boundary 4 b1 b2) as [L3 R3]; [set_solver|done|done|].
  destruct (boundary 1 b2 b3) as [L4 R4]; [set_solver|done|done|].
  destruct (boundary 3 b3 b4) as [L6 R6]; [set_solver|done|done|].
  change (Z.opp 2) with (-2) in *. change (Z.opp 4) with (-4) in *.
  change (Z.opp 1) with (-1) in *. change (Z.opp 3) with (-3) in *.
  change (8 - 2) with 6 in *. change (8 - 4) with 4 in *. change (8 - 1) with 7 in *. change (8 - 3) with 5 in *.
  rewrite L1, R1, L3, R3, L4, R4, L6, R6.
  destruct (whole b0 H0) as (-> & _). destruct (whole b1 H1) as (_ & -> & _).
  destruct (whole b2 H2) as (_ & _ & -> & _). destruct (whole b3 H3) as (_ & _ & _ & -> & _).
  destruct (whole b4 H4) as (_ & _ & _ & _ & ->). done.
Qed.

Lemma gather_put c0 c1 c2 c3 c4 c5 c6 c7 :
  put_all 0 [c0; c1; c2; c3; c4; c5; c6; c7] (replicate 5 0) = gather c0 c1 c2 c3 c4 c5 c6 c7.
Proof. reflexivity. Qed.

(** Missing bytes count as zero. *)
Lemma encode_sequence_spread bs mode :
  (0 < length bs <= 5)%nat ->
  encode_sequence bs mode
  = map (fun c => encode_char c mode)
      (take ((length bs * 8 + 4) / 5)
         (spread (nth 0 bs 0) (nth 1 bs 0) (nth 2 bs 0) (nth 3 bs 0) (nth 4 bs 0))).
Proof.
  intros Hlen. destruct bs as [|b0 [|b1 [|b2 [|b3 [|b4 [|]]]]]]; cbn in Hlen; try lia;
    unfold spread; cbn [nth]; change (shift_right 0 6) with 0; change (shift_right 0 4) with 0;
    change (shift_right 0 7) with 0; change (shift_right 0 5) with 0; rewrite ?Z.lor_0_r; reflexivity.
Qed.

Lemma gather_prefix n c0 c1 c2 c3 c4 c5 c6 c7 :
  (0 < n <= 5)%nat ->
  take n (put_all 0 (take ((n * 8 + 4) / 5) [c0; c1; c2; c3; c4; c5; c6; c7]) (replicate 5 0))
  = take n (gather c0 c1 c2 c3 c4 c5 c6 c7).
Proof. intros Hn. do 6 (destruct n as [|n]; [try lia; reflexivity|]). lia. Qed.

Lemma sequence_roundtrip bs mode :
  (0 < length bs <= 5)%nat -> bytes_ok bs ->
  exists plain, decode_sequence (encode_sequence bs mode) mode = success (plain, length bs)
    /\ take (length bs) plain = bs.
Proof.
  intros Hlen Hbs. rewrite encode_sequence_spread by done. unfold decode_sequence.
  assert (forall i, is_byte (nth i bs 0)) as Hb.
  { intros i. destruct (nth_in_or_default i bs 0) as [Hin| ->]; [|done].
    rewrite Forall_forall in Hbs. by apply Hbs, list_elem_of_In. }
  pose proof (gather_spread _ _ _ _ _ (Hb 0%nat) (Hb 1%nat) (Hb 2%nat) (Hb 3%nat) (Hb 4%nat)) as Hg.
  unfold spread in *.
  match goal with |- context [take ((length bs * 8 + 4) / 5) ?l] => set (cs := l) in * end.
  exists (put_all 0 (take ((length bs * 8 + 4) / 5) cs) (replicate 5 0)).
  assert (((length bs * 8 + 4) / 5 <= 8)%nat
          /\ get_byte ((length bs * 8 + 4) / 5) = length bs) as [Hm Hn].
  { destruct bs as [|b0 [|b1 [|b2 [|b3 [|b4 [|]]]]]]; cbn in Hlen; try lia; cbn; split; (lia || done). }
  split.
  - rewrite <- Hn at 3. apply (decode_put_all _ [] (take ((length bs * 8 + 4) / 5) cs)); [|done].
    rewrite length_take. subst cs. cbn [length]. lia.
  - subst cs. rewrite gather_prefix by done. rewrite Hg.
    destruct bs as [|b0 [|b1 [|b2 [|b3 [|b4 [|]]]]]]; cbn in Hlen; try lia; reflexivity.
Qed.

Lemma encode_sequence_length bs mode :
  (0 < length bs <= 5)%nat -> length (encode_sequence bs mode) = ((length bs * 8 + 4) / 5)%nat.
Proof.
  intros Hlen. rewrite encode_sequence_spread, length_map, length_take by done.
  destruct bs as [|b0 [|b1 [|b2 [|b3 [|b4 [|]]]]]]; cbn in Hlen; try lia; done.
Qed.

Lemma groups_roundtrip n bs mode m :
  (length bs <= n)%nat -> bytes_ok bs -> (length (encode_groups n bs mode) <= m)%nat ->
  decode_groups m (encode_groups n bs mode) mode = success bs.
Proof.
  revert bs m. induction n as [|n IH]; intros bs m Hn Hbs Hm.
  { destruct bs; [by destruct m|cbn in Hn; lia]. }
  destruct bs as [|b bs]; [by destruct m|]. cbn [encode_groups] in *.
  set (hd := take 5 (b :: bs)) in *. set (tl := drop 5 (b :: bs)) in *.
  assert (b :: bs = hd ++ tl) as Hsplit by (symmetry; apply take_drop).
  assert (bytes_ok hd /\ bytes_ok tl) as [Hhd Htl] by (apply Forall_app; by rewrite <- Hsplit).
  assert (length hd = Nat.min 5 (S (length bs)) /\ length tl = (S (length bs) - 5)%nat) as [Hlh Hlt]
    by (unfold hd, tl; rewrite length_take, length_drop; done).
  assert (0 < length hd <= 5)%nat as Hh by lia.
  destruct (sequence_roundtrip hd mode Hh Hhd) as (plain & Hdec & Htake).
  pose proof (encode_sequence_length hd mode Hh) as Hlen.
  set (e := encode_sequence hd mode) in *. rewrite length_app in Hm.
  assert (0 < length e <= 8)%nat as He.
  { rewrite Hlen. revert Hh. generalize (length hd). clear. intros k Hk.
    do 6 (destruct k as [|k]; [cbn; lia|]). lia. }
  destruct m as [|m]; [lia|].
  assert (take 8 (e ++ encode_groups n tl mode) = e /\ drop 8 (e ++ encode_groups n tl mode)
          = encode_groups n tl mode) as [Ht Hd].
  { destruct (decide (5 <= S (length bs))%nat) as [Hbig|Hsmall].
    - assert (length e = 8%nat) as He8 by (rewrite Hlen; replace (length hd) with 5%nat by lia; done).
      rewrite <- He8. split; [apply take_app_length|apply drop_app_length].
    - assert (tl = []) as -> by (apply nil_length_inv; lia).
      assert (encode_groups n [] mode = []) as -> by by destruct n.
      rewrite app_nil_r. split; [apply take_ge; lia|apply drop_ge; lia]. }
  destruct (e ++ encode_groups n tl mode) as [|x l] eqn:Hcat.
  { apply (f_equal length) in Hcat. rewrite length_app in Hcat. cbn in Hcat. lia. }
  cbn [decode_groups]. rewrite Ht, Hd, Hdec, IH; [|cbn in Hn; lia|done|lia].
  by rewrite Htake, Hsplit.
Qed.

Lemma base32_roundtrip bs mode : bytes_ok bs -> decodeBase32 (encodeBase32 bs mode) mode = success bs.
Proof. intros Hbs. by apply groups_roundtrip. Qed.

End Base32.

(** ** Base 64 *)

Module Base64.

Definition alphabet : bytes := str "ABCDEFGHIJKLMNOPQRSTUVWXYZabcdefghijklmnopqrstuvwxyz0123456789+/".
(** The table [inverse_table], row by row. *)
Definition inverse_table : list Z :=
  replicate 32 (-1) ++
  [-1; -1; -1; -1; -1; -1; -1; -1; -1; -1; -1; 62; -1; -1; -1; 63;
   52; 53; 54; 55; 56; 57; 58; 59; 60; 61; -1; -1; -1; -1; -1; -1;
   -1;  0;  1;  2;  3;  4;  5;  6;  7;  8;  9; 10; 11; 12; 13; 14;
   15; 16; 17; 18; 19; 20; 21; 22; 23; 24; 25; -1; -1; -1; -1; -1;
   -1; 26; 27; 28; 29; 30; 31; 32; 33; 34; 35; 36; 37; 38; 39; 40;
   41; 42; 43; 44; 45; 46; 47; 48; 49; 50; 51; -1; -1; -1; -1; -1] ++
  replicate 128 (-1).

Definition is_alphabet (c : Z) : bool :=
  ((97 <=? c) && (c <=? 122)) || ((65 <=? c) && (c <=? 90)) || ((48 <=? c) && (c <=? 57))
  || (c =? 43) || (c =? 47).
(** [^[a-zA-Z0-9\+/]*={0,2}$] *)
Definition base64_regex (s : bytes) : bool :=
  let rest := skip_while is_alphabet s in
  bool_decide (rest = []) || bool_decide (rest = [61]) || bool_decide (rest = [61; 61]).
Definition isValidBase64 (s : bytes) : bool :=
  (length s mod 4 =? 0)%nat && base64_regex (c_str s).

Definition tab (i : Z) : Z := nth (Z.to_nat i) alphabet 0.

(** The loop over whole groups and the [switch] behind it. *)
Fixpoint encodeImpl (bs : bytes) : bytes :=
  match bs with
  | b0 :: b1 :: b2 :: bs =>
      tab (Z.shiftr (Z.land b0 0xfc) 2)
      :: tab (Z.shiftl (Z.land b0 0x03) 4 + Z.shiftr (Z.land b1 0xf0) 4)
      :: tab (Z.shiftr (Z.land b2 0xc0) 6 + Z.shiftl (Z.land b1 0x0f) 2)
      :: tab (Z.land b2 0x3f) :: encodeImpl bs
  | [b0; b1] =>
      [tab (Z.shiftr (Z.land b0 0xfc) 2); tab (Z.shiftl (Z.land b0 0x03) 4 + Z.shiftr (Z.land b1 0xf0) 4);
       tab (Z.shiftl (Z.land b1 0x0f) 2); 61]
  | [b0] => [tab (Z.shiftr (Z.land b0 0xfc) 2); tab (Z.shiftl (Z.land b0 0x03) 4); 61; 61]
  | [] => []
  end.
Definition encodeBase64 (bs : bytes) : bytes := encodeImpl bs.

(** [c3], computed from [c4] as [unsigned char]s. *)
Definition c3_of (c4 : list Z) : list Z :=
  let c i := nth i c4 0 in
  [u8 (Z.shiftl (c 0%nat) 2 + Z.shiftr (Z.land (c 1%nat) 0x30) 4);
   u8 (Z.shiftl (Z.land (c 1%nat) 0xf) 4 + Z.shiftr (Z.land (c 2%nat) 0x3c) 2);
   u8 (Z.shiftl (Z.land (c 2%nat) 0x3) 6 + c 3%nat)].

(** The loop; [c4] keeps its last values between groups.  [None]: a character above
    127 is negative, and [at] throws; [Some None]: an invalid character. *)
Fixpoint decode_loop (src : bytes) (c4 : list Z) (i : nat) (out : bytes) : option (option bytes) :=
  let finish := Some (Some (out ++ take (i - 1) (c3_of c4))) in
  match src with
  | [] => finish
  | c :: src =>
      if c =? 61 then finish
      else if 128 <=? c then None
      else
        let v := nth (Z.to_nat c) inverse_table (-1) in
        if v =? -1 then Some None
        else
          let c4 := <[i := v]> c4 in
          if decide (S i = 4)%nat then decode_loop src c4 0 (out ++ c3_of c4)
          else decode_loop src c4 (S i) out
  end.
Definition decodeImpl (src : bytes) : option (option bytes) := decode_loop src (replicate 4 0) 0 [].

(** [None]: an exception. *)
Definition decodeBase64 (s : bytes) : option (outcome BaseError bytes) :=
  if negb (isValidBase64 s) then Some (failure INVALID_BASE64_INPUT)
  else
    match decodeImpl s with
    | None => None
    | Some None => Some (failure INVALID_BASE64_INPUT)
    | Some (Some decoded_bytes) => Some (success decoded_bytes)
    end.

Example hello64 : encodeBase64 (str "Hello") = str "SGVsbG8=".
Proof. reflexivity. Qed.
Example unhello64 : decodeBase64 (str "SGVsbG8=") = Some (success (str "Hello")).
Proof. reflexivity. Qed.

(** *** Round trip *)

Lemma tab_spec d :
  0 <= d < 64 ->
  is_alphabet (tab d) = true /\ nth (Z.to_nat (tab d)) inverse_table (-1) = d
  /\ (tab d =? 61) = false /\ (tab d =? 0) = false /\ (128 <=? tab d) = false.
Proof.
  intros Hd.
  pose proof (forall_below 64 (fun d => is_alphabet (tab d)
    && (nth (Z.to_nat (tab d)) inverse_table (-1) =? d)
    && negb (tab d =? 61) && negb (tab d =? 0) && negb (128 <=? tab d)) d ltac:(reflexivity) Hd) as Hall.
  cbv beta in Hall. rewrite !andb_true_iff, !negb_true_iff, Z.eqb_eq in Hall. tauto.
Qed.

(** One character of the alphabet: it is collected, or completes a group. *)
Lemma decode_collect d src c4 i out :
  0 <= d < 64 -> (i < 3)%nat ->
  decode_loop (tab d :: src) c4 i out = decode_loop src (<[i := d]> c4) (S i) out.
Proof.
  intros Hd Hi. cbn [decode_loop]. destruct (tab_spec d Hd) as (_ & -> & -> & _ & ->).
  destruct (Z.eqb_spec d (-1)); [lia|]. by rewrite decide_False by lia.
Qed.

Lemma decode_complete d src c4 out :
  0 <= d < 64 ->
  decode_loop (tab d :: src) c4 3 out
  = decode_loop src (<[3%nat := d]> c4) 0 (out ++ c3_of (<[3%nat := d]> c4)).
Proof.
  intros Hd. cbn [decode_loop]. destruct (tab_spec d Hd) as (_ & -> & -> & _ & ->).
  destruct (Z.eqb_spec d (-1)); [lia|]. by rewrite decide_True by lia.
Qed.

Lemma decode_pad src c4 i out :
  decode_loop (61 :: src) c4 i out = Some (Some (out ++ take (i - 1) (c3_of c4))).
Proof. done. Qed.

(** The six-bit values of three bytes, as quotients and remainders. *)
Lemma sextets b0 b1 b2 :
  is_byte b0 -> is_byte b1 -> is_byte b2 ->
  let d0 := Z.shiftr (Z.land b0 0xfc) 2 in
  let d1 := Z.shiftl (Z.land b0 0x03) 4 + Z.shiftr (Z.land b1 0xf0) 4 in
  let d2 := Z.shiftr (Z.land b2 0xc0) 6 + Z.shiftl (Z.land b1 0x0f) 2 in
  let d3 := Z.land b2 0x3f in
  0 <= d0 < 64 /\ 0 <= d1 < 64 /\ 0 <= d2 < 64 /\ 0 <= d3 < 64
  /\ c3_of [d0; d1; d2; d3] = [b0; b1; b2].
Proof.
  intros H0 H1 H2. unfold is_byte in *.
  assert (Z.shiftr (Z.land b0 0xfc) 2 = b0 / 4 /\ Z.shiftl (Z.land b0 0x03) 4 = b0 mod 4 * 16) as [-> ->].
  { pose proof (forall_byte (fun b => (Z.shiftr (Z.land b 0xfc) 2 =? b / 4)
      && (Z.shiftl (Z.land b 0x03) 4 =? b mod 4 * 16)) b0 ltac:(reflexivity) H0) as Hb.
    cbv beta in Hb. reflect_bools. done. }
  assert (Z.shiftr (Z.land b1 0xf0) 4 = b1 / 16 /\ Z.shiftl (Z.land b1 0x0f) 2 = b1 mod 16 * 4) as [-> ->].
  { pose proof (forall_byte (fun b => (Z.shiftr (Z.land b 0xf0) 4 =? b / 16)
      && (Z.shiftl (Z.land b 0x0f) 2 =? b mod 16 * 4)) b1 ltac:(reflexivity) H1) as Hb.
    cbv beta in Hb. reflect_bools. done. }
  assert (Z.shiftr (Z.land b2 0xc0) 6 = b2 / 64 /\ Z.land b2 0x3f = b2 mod 64) as [-> ->].
  { pose proof (forall_byte (fun b => (Z.shiftr (Z.land b 0xc0) 6 =? b / 64)
      && (Z.land b 0x3f =? b mod 64)) b2 ltac:(reflexivity) H2) as Hb.
    cbv beta in Hb. reflect_bools. done. }
  cbv zeta. set (d0 := b0 / 4). set (d1 := b0 mod 4 * 16 + b1 / 16).
  set (d2 := b2 / 64 + b1 mod 16 * 4). set (d3 := b2 mod 64).
  assert (0 <= d0 < 64 /\ 0 <= d1 < 64 /\ 0 <= d2 < 64 /\ 0 <= d3 < 64) as (B0 & B1 & B2 & B3)
    by (subst d0 d1 d2 d3; split_and!; divlia).
  split_and!; try lia. unfold c3_of. cbn [nth].
  assert (Z.shiftr (Z.land d1 0x30) 4 = d1 / 16 /\ Z.shiftl (Z.land d1 0xf) 4 = d1 mod 16 * 16) as [-> ->].
  { pose proof (forall_below 64 (fun b => (Z.shiftr (Z.land b 0x30) 4 =? b / 16)
      && (Z.shiftl (Z.land b 0xf) 4 =? b mod 16 * 16)) d1 ltac:(reflexivity) B1) as Hb.
    cbv beta in Hb. reflect_bools. done. }
  assert (Z.shiftr (Z.land d2 0x3c) 2 = d2 / 4 /\ Z.shiftl (Z.land d2 0x3) 6 = d2 mod 4 * 64) as [-> ->].
  { pose proof (forall_below 64 (fun b => (Z.shiftr (Z.land b 0x3c) 2 =? b / 4)
      && (Z.shiftl (Z.land b 0x3) 6 =? b mod 4 * 64)) d2 ltac:(reflexivity) B2) as Hb.
    cbv beta in Hb. reflect_bools. done. }
  rewrite Z.shiftl_mul_pow2 by lia. unfold u8. subst d0 d1 d2 d3.
  f_equal; [divlia|f_equal; [divlia|f_equal; divlia]].
Qed.

(** The loop over an encoding, from any state of [c4] with four entries. *)
Lemma decode_encoding n bs c4 out :
  (length bs <= n)%nat -> bytes_ok bs -> length c4 = 4%nat ->
  decode_loop (encodeImpl bs) c4 0 out = Some (Some (out ++ bs)).
Proof.
  revert bs c4 out. induction n as [|n IH]; intros bs c4 out Hn Hbs Hc4.
  { destruct bs; [done|cbn in Hn; lia]. }
  destruct c4 as [|x0 [|x1 [|x2 [|x3 [|]]]]]; try done.
  destruct bs as [|b0 [|b1 [|b2 bs]]]; [done| | |]; apply Forall_cons in Hbs as [H0 Hbs].
  - destruct (sextets b0 0 0 H0 ltac:(done) ltac:(done)) as (B0 & B1 & _ & _ & Hc3).
    change (Z.shiftr (Z.land 0 0xf0) 4) with 0 in *. rewrite Z.add_0_r in *.
    cbn [encodeImpl]. rewrite !decode_collect, decode_pad by (done || lia).
    cbn [insert list_insert Nat.sub]. pose proof (f_equal (fun l => nth 0 l 0) Hc3) as E0.
    unfold c3_of in *. cbn [nth take] in *.
    by rewrite E0.
  - apply Forall_cons in Hbs as [H1 _].
    destruct (sextets b0 b1 0 H0 H1 ltac:(done)) as (B0 & B1 & B2 & _ & Hc3).
    change (Z.shiftr (Z.land 0 0xc0) 6) with 0 in *. rewrite Z.add_0_l in *.
    cbn [encodeImpl]. rewrite !decode_collect, decode_pad by (done || lia).
    cbn [insert list_insert Nat.sub]. pose proof (f_equal (fun l => nth 0 l 0) Hc3) as E0.
    pose proof (f_equal (fun l => nth 1 l 0) Hc3) as E1. unfold c3_of in *. cbn [nth take] in *.
    by rewrite E0, E1.
  - apply Forall_cons in Hbs as [H1 Hbs]. apply Forall_cons in Hbs as [H2 Hbs].
    destruct (sextets b0 b1 b2 H0 H1 H2) as (B0 & B1 & B2 & B3 & Hc3).
    cbn [encodeImpl]. rewrite !decode_collect, decode_complete by (done || lia).
    cbn [insert list_insert]. rewrite Hc3, IH; [|cbn in Hn; lia|done|done].
    by rewrite <- app_assoc.
Qed.

(** The encoding is a multiple of four characters that matches the expression. *)
Lemma encoding_valid n bs :
  (length bs <= n)%nat -> bytes_ok bs ->
  (length (encodeImpl bs) mod 4 = 0)%nat /\ base64_regex (encodeImpl bs) = true
  /\ Forall (fun c => (c =? 0) = false) (encodeImpl bs).
Proof.
  revert bs. induction n as [|n IH]; intros bs Hn Hbs.
  { destruct bs; [done|cbn in Hn; lia]. }
  assert (forall d, 0 <= d < 64 -> is_alphabet (tab d) = true /\ (tab d =? 0) = false) as Htab
    by (intros d Hd; by destruct (tab_spec d Hd) as (?&_&_&?&_)).
  destruct bs as [|b0 [|b1 [|b2 bs]]]; [done| | |]; apply Forall_cons in Hbs as [H0 Hbs].
  - destruct (sextets b0 0 0 H0 ltac:(done) ltac:(done)) as (B0 & B1 & _ & _ & _).
    change (Z.shiftr (Z.land 0 0xf0) 4) with 0 in *. rewrite Z.add_0_r in *.
    apply Htab in B0 as [A0 N0], B1 as [A1 N1]. cbn [encodeImpl]. unfold base64_regex.
    cbn [skip_while]. rewrite A0, A1. split_and!; [done|done|]. by repeat constructor.
  - apply Forall_cons in Hbs as [H1 _].
    destruct (sextets b0 b1 0 H0 H1 ltac:(done)) as (B0 & B1 & B2 & _ & _).
    change (Z.shiftr (Z.land 0 0xc0) 6) with 0 in *. rewrite Z.add_0_l in *.
    apply Htab in B0 as [A0 N0], B1 as [A1 N1], B2 as [A2 N2]. cbn [encodeImpl]. unfold base64_regex.
    cbn [skip_while]. rewrite A0, A1, A2. split_and!; [done|done|]. by repeat constructor.
  - apply Forall_cons in Hbs as [H1 Hbs]. apply Forall_cons in Hbs as [H2 Hbs].
    destruct (sextets b0 b1 b2 H0 H1 H2) as (B0 & B1 & B2 & B3 & _).
    apply Htab in B0 as [A0 N0], B1 as [A1 N1], B2 as [A2 N2], B3 as [A3 N3].
    destruct (IH bs) as (Hm & Hr & Hf); [cbn in Hn; lia|done|].
    cbn [encodeImpl length]. split_and!.
    + pose proof (Nat.Div0.mod_add (length (encodeImpl bs)) 1 4) as Hadd. rewrite <- Hadd in Hm.
      by replace (S (S (S (S (length (encodeImpl bs)))))) with (length (encodeImpl bs) + 1 * 4)%nat by lia.
    + unfold base64_regex. cbn [skip_while]. rewrite A0, A1, A2, A3. done.
    + by repeat constructor.
Qed.

Lemma base64_roundtrip bs : bytes_ok bs -> decodeBase64 (encodeBase64 bs) = Some (success bs).
Proof.
  intros Hbs. destruct (encoding_valid (length bs) bs ltac:(lia) Hbs) as (Hm & Hr & Hf).
  unfold decodeBase64, encodeBase64, isValidBase64. rewrite c_str_id, Hm, Hr by done. cbn [Nat.eqb andb negb].
  unfold decodeImpl. by rewrite (decode_encoding (length bs)) by done.
Qed.
End Base64.

(** ** Base 16 *)

(** [qtils]: [fmt::format("{:xx}", Hex{...})], in upper case with [{:XX}], and [unhex]. *)
Class Hex := {
  hex : bool -> bytes -> bytes;
  unhex : bytes -> option bytes
}.

Module Base16.

Definition hex_digit (upper : bool) (n : Z) : Z :=
  if n <? 10 then 48 + n else (if upper then 65 else 97) + (n - 10).
Definition hex_byte (upper : bool) (b : Z) : bytes := [hex_digit upper (b / 16); hex_digit upper (b mod 16)].

(** Two digits a byte, and parsing inverts printing. *)
Class HexLaws `{Hex} := {
  hex_digits upper bs : bytes_ok bs -> hex upper bs = concat (map (hex_byte upper) bs);
  unhex_hex upper bs : bytes_ok bs -> unhex (hex upper bs) = Some bs
}.

Definition isupper (c : Z) : bool := (65 <=? c) && (c <=? 90).
Definition isalpha (c : Z) : bool := isupper c || ((97 <=? c) && (c <=? 122)).
Definition encodingCaseIsUpper (s : bytes) : bool := forallb (fun c => negb (isalpha c) || isupper c) s.

(** Errors of the codecs, of [unhex] and of [MultibaseCodecImpl]. *)
Inductive multibase_error := Base (e : BaseError) | UnhexError | UNSUPPORTED_BASE | INPUT_TOO_SHORT.

Section Base16.
Context `{Hex}.
Definition unhex_result (s : bytes) : outcome multibase_error bytes :=
  match unhex s with Some bs => success bs | None => failure UnhexError end.
Definition encodeBase16Upper (bs : bytes) : bytes := hex true bs.
Definition encodeBase16Lower (bs : bytes) : bytes := hex false bs.
Definition decodeBase16Upper (s : bytes) : outcome multibase_error bytes :=
  if negb (encodingCaseIsUpper s) then failure (Base NON_UPPERCASE_INPUT) else unhex_result s.
Definition decodeBase16Lower (s : bytes) : outcome multibase_error bytes :=
  if encodingCaseIsUpper s then failure (Base NON_LOWERCASE_INPUT) else unhex_result s.
End Base16.

(** A digit above nine. *)
Definition has_letter (bs : bytes) : bool := existsb (fun b => (10 <=? b / 16) || (10 <=? b mod 16)) bs.

Lemma hex_digit_case upper n :
  0 <= n < 16 ->
  (negb (isalpha (hex_digit upper n)) || isupper (hex_digit upper n)) = upper || (n <? 10).
Proof.
  intros Hn. apply eqb_prop.
  destruct upper; [apply (forall_below 16 (fun n => eqb (negb (isalpha (hex_digit true n)) || isupper (hex_digit true n)) (true || (n <? 10))))
                  |apply (forall_below 16 (fun n => eqb (negb (isalpha (hex_digit false n)) || isupper (hex_digit false n)) (false || (n <? 10))))];
    done.
Qed.

Lemma hex_case upper bs :
  bytes_ok bs -> encodingCaseIsUpper (concat (map (hex_byte upper) bs)) = upper || negb (has_letter bs).
Proof.
  induction 1 as [|b bs Hb _ IH]; [by destruct upper|]. cbn [map concat hex_byte app].
  unfold encodingCaseIsUpper in *. cbn [forallb has_letter existsb]. rewrite IH. fold (has_letter bs).
  unfold is_byte in Hb. rewrite !hex_digit_case by divlia.
  destruct upper; cbn [orb andb]; [done|]. rewrite !Z.leb_antisym.
  destruct (b / 16 <? 10), (b mod 16 <? 10), (has_letter bs); done.
Qed.

Section Base16Laws.
Context `{HexLaws}.

Lemma base16_upper_roundtrip bs : bytes_ok bs -> decodeBase16Upper (encodeBase16Upper bs) = success bs.
Proof.
  intros Hbs. unfold decodeBase16Upper, encodeBase16Upper, unhex_result.
  rewrite unhex_hex by done. by rewrite hex_digits, hex_case.
Qed.

(** Digits alone are not accepted as lower case. *)
Lemma base16_lower_roundtrip bs :
  bytes_ok bs ->
  decodeBase16Lower (encodeBase16Lower bs)
  = if has_letter bs then success bs else failure (Base NON_LOWERCASE_INPUT).
Proof.
  intros Hbs. unfold decodeBase16Lower, encodeBase16Lower, unhex_result.
  rewrite unhex_hex by done. rewrite hex_digits, hex_case by done. cbn. by destruct (has_letter bs).
Qed.
End Base16Laws.
End Base16.

(** ** [MultibaseCodecImpl] *)

Module Multibase.
Import Base16.

Inductive Encoding := BASE16_LOWER | BASE16_UPPER | BASE32_LOWER | BASE32_UPPER | BASE58 | BASE64.
#[export] Instance Encoding_eq_dec : EqDecision Encoding.
Proof. solve_decision. Defined.
(** The values of the enumeration: 'f', 'F', 'b', 'B', 'z', 'm'. *)
Definition encoding_char (e : Encoding) : Z :=
  match e with
  | BASE16_LOWER => 102 | BASE16_UPPER => 70 | BASE32_LOWER => 98 | BASE32_UPPER => 66
  | BASE58 => 122 | BASE64 => 109
  end.
Definition encodingByChar (ch : Z) : option Encoding :=
  if ch =? 102 then Some BASE16_LOWER else if ch =? 70 then Some BASE16_UPPER
  else if ch =? 98 then Some BASE32_LOWER else if ch =? 66 then Some BASE32_UPPER
  else if ch =? 122 then Some BASE58 else if ch =? 109 then Some BASE64 else None.

Definition base_result (r : outcome BaseError bytes) : outcome multibase_error bytes :=
  match r with success bs => success bs | failure e => failure (Base e) end.

Section Codec.
Context `{Hex}.

(** [codecs.at(encoding)] *)
Definition codec_encode (e : Encoding) (bs : bytes) : bytes :=
  match e with
  | BASE16_LOWER => encodeBase16Lower bs
  | BASE16_UPPER => encodeBase16Upper bs
  | BASE32_LOWER => Base32.encodeBase32Lower bs
  | BASE32_UPPER => Base32.encodeBase32Upper bs
  | BASE58 => encodeBase58 bs
  | BASE64 => Base64.encodeBase64 bs
  end.
Definition codec_decode (e : Encoding) (s : bytes) : option (outcome multibase_error bytes) :=
  match e with
  | BASE16_LOWER => Some (decodeBase16Lower s)
  | BASE16_UPPER => Some (decodeBase16Upper s)
  | BASE32_LOWER => Some (base_result (Base32.decodeBase32Lower s))
  | BASE32_UPPER => Some (base_result (Base32.decodeBase32Upper s))
  | BASE58 => Some (base_result (decodeBase58 s))
  | BASE64 => base_result <$> Base64.decodeBase64 s
  end.

Definition encode (bs : bytes) (encoding : Encoding) : bytes :=
  if decide (bs = []) then [] else encoding_char encoding :: codec_encode encoding bs.
(** [None]: an exception. *)
Definition decode (s : bytes) : option (outcome multibase_error bytes) :=
  if decide (length s < 2)%nat then Some (failure INPUT_TOO_SHORT)
  else
    match s with
    | [] => Some (failure INPUT_TOO_SHORT)
    | ch :: s =>
        match encodingByChar ch with
        | None => Some (failure UNSUPPORTED_BASE)
        | Some e => codec_decode e s
        end
    end.
End Codec.

Lemma encodingByChar_char e : encodingByChar (encoding_char e) = Some e.
Proof. by destruct e. Qed.

Section Laws.
Context `{HexLaws}.

Lemma codec_roundtrip e bs :
  bytes_ok bs ->
  codec_decode e (codec_encode e bs)
  = Some (match e with
          | BASE16_LOWER => if has_letter bs then success bs else failure (Base NON_LOWERCASE_INPUT)
          | _ => success bs
          end).
Proof.
  intros Hbs. destruct e; cbn [codec_decode codec_encode].
  - by rewrite base16_lower_roundtrip.
  - by rewrite base16_upper_roundtrip.
  - unfold Base32.decodeBase32Lower, Base32.encodeBase32Lower. by rewrite Base32.base32_roundtrip.
  - unfold Base32.decodeBase32Upper, Base32.encodeBase32Upper. by rewrite Base32.base32_roundtrip.
  - by rewrite base58_decode_encode.
  - by rewrite Base64.base64_roundtrip.
Qed.

Lemma codec_encode_nonempty e bs : bytes_ok bs -> bs <> [] -> codec_encode e bs <> [].
Proof.
  intros Hbs Hne Hnil.
  destruct (decide (e = BASE16_LOWER \/ e = BASE16_UPPER)) as [He|He].
  - assert (exists u, hex u bs = []) as [u Hu] by (destruct He as [-> | ->]; eauto).
    rewrite hex_digits in Hu by done. by destruct bs.
  - pose proof (codec_roundtrip e bs Hbs) as Hrt. rewrite Hnil in Hrt.
    destruct e; cbn in Hrt; try tauto; congruence.
Qed.

Lemma multibase_decode_encode bs e :
  bytes_ok bs -> bs <> [] ->
  decode (encode bs e)
  = Some (match e with
          | BASE16_LOWER => if has_letter bs then success bs else failure (Base NON_LOWERCASE_INPUT)
          | _ => success bs
          end).
Proof.
  intros Hbs Hne. unfold encode, decode. destruct (decide (bs = [])); [done|].
  pose proof (codec_encode_nonempty e bs Hbs Hne) as Hcs.
  rewrite decide_False by (destruct (codec_encode e bs); [done|cbn; lia]).
  by rewrite encodingByChar_char, codec_roundtrip.
Qed.

(** Multibase decodes what it encodes, except lower-case hexadecimal without a
    letter.  For non-empty bytes and each of the six encodings [decode] inverts
    [encode]; with [BASE16_LOWER] a string of decimal digits is refused as not
    being lower case. *)
Theorem multibase_roundtrip bs e :
  bytes_ok bs -> bs <> [] ->
  decode (encode bs e)
  = Some (match e with
          | BASE16_LOWER => if has_letter bs then success bs else failure (Base NON_LOWERCASE_INPUT)
          | _ => success bs
          end).
Proof. apply multibase_decode_encode. Qed.
End Laws.

(** ** A concrete hexadecimal codec *)

Definition unhex_digit (c : Z) : option Z :=
  if (48 <=? c) && (c <=? 57) then Some (c - 48)
  else if (65 <=? c) && (c <=? 70) then Some (c - 65 + 10)
  else if (97 <=? c) && (c <=? 102) then Some (c - 97 + 10) else None.
Fixpoint unhex_pairs (s : bytes) : option bytes :=
  match s with
  | [] => Some []
  | [_] => None
  | a :: b :: s => x ← unhex_digit a; y ← unhex_digit b; cons (16 * x + y) <$> unhex_pairs s
  end.
#[export] Instance plain_hex : Hex :=
  {| hex upper bs := concat (map (hex_byte upper) bs); unhex := unhex_pairs |}.

Lemma unhex_digit_spec upper n : 0 <= n < 16 -> unhex_digit (hex_digit upper n) = Some n.
Proof.
  intros Hn. unfold hex_digit. destruct (Z.ltb_spec n 10); unfold unhex_digit.
  - rewrite (proj2 (Z.leb_le 48 _)), (proj2 (Z.leb_le _ 57)) by lia. cbn. f_equal. lia.
  - destruct upper; repeat (rewrite ?(proj2 (Z.leb_le _ _)), ?(proj2 (Z.leb_gt _ _)) by lia; cbn);
      repeat case_match; f_equal; reflect_bools; lia.
Qed.

#[export] Instance plain_hex_laws : HexLaws.
Proof.
  split; [done|]. intros upper bs. cbn [hex unhex plain_hex].
  induction 1 as [|b bs Hb _ IH]; [done|]. cbn [map concat hex_byte app unhex_pairs].
  unfold is_byte in Hb. rewrite !unhex_digit_spec by divlia. cbn [mbind option_bind].
  rewrite IH. cbn. do 2 f_equal. divlia.
Qed.
End Multibase.
Import (hints) Multibase.

Lemma multibase_roundtrip_witness :
  Multibase.decode (Multibase.encode [1; 255; 0] Multibase.BASE16_LOWER) = Some (success [1; 255; 0])
  /\ Multibase.decode (Multibase.encode [0x12] Multibase.BASE16_LOWER)
     = Some (failure (Base16.Base NON_LOWERCASE_INPUT)).
Proof.
  split.
  - refine (eq_trans (Multibase.multibase_roundtrip [1; 255; 0] Multibase.BASE16_LOWER _ _) _).
    + by repeat constructor.
    + discriminate.
    + reflexivity.
  - refine (eq_trans (Multibase.multibase_roundtrip [0x12] Multibase.BASE16_LOWER _ _) _).
    + by repeat constructor.
    + discriminate.
    + reflexivity.
Defined.
