(* ===== verification/ContentIdentifier.v ===== *)
(** * Content identifiers

    [ContentIdentifier] ([multi/content_identifier.cpp]), [MulticodecType]
    ([include/libp2p/multi/multicodec_type.hpp]) and [ContentIdentifierCodec]
    ([multi/content_identifier_codec.cpp]): a content type and a multihash, as
    bytes and as text, over the multihashes of [Multihash.v], the varints of
    [Varint.v] and the text codecs of [Base58.v] and [Multibase.v]. *)

From S2P Require Import Prelude Varint Multihash Base58 Multibase.
Import Multibase.Multibase.

(** ** Data *)

(** [MulticodecType::Code], an enumeration over [int]. *)
Abbreviation Code := Z.
Definition i32 (z : Z) : Z := (z + 2 ^ 31) mod 2 ^ 32 - 2 ^ 31.
Definition is_i32 (z : Z) : Prop := - 2 ^ 31 <= z < 2 ^ 31.
Definition RAW : Code := 0x55.
Definition DAG_PB : Code := 0x70.
Definition DAG_CBOR : Code := 0x71.
Definition FILECOIN_COMMITMENT_UNSEALED : Code := 0xf101.
Definition FILECOIN_COMMITMENT_SEALED : Code := 0xf102.

Definition getName (code : Code) : bytes :=
  if code =? 0x00 then str "identity"
  else if code =? 0x11 then str "sha1"
  else if code =? 0x12 then str "sha2-256"
  else if code =? 0x13 then str "sha2-512"
  else if code =? 0x17 then str "sha3-224"
  else if code =? 0x16 then str "sha3-256"
  else if code =? 0x15 then str "sha3-384"
  else if code =? 0x14 then str "sha3-512"
  else if code =? RAW then str "raw"
  else if code =? DAG_PB then str "dag-pb"
  else if code =? DAG_CBOR then str "dag-cbor"
  else if code =? FILECOIN_COMMITMENT_UNSEALED then str "fil-commitment-unsealed"
  else if code =? FILECOIN_COMMITMENT_SEALED then str "fil-commitment-sealed"
  else str "unknown".

Inductive Version := V0 | V1.
#[export] Instance Version_eq_dec : EqDecision Version.
Proof. solve_decision. Defined.
Definition version_value (v : Version) : Z := match v with V0 => 0 | V1 => 1 end.

Record ContentIdentifier := mkCid {
  version : Version;
  content_type : Code;
  content_address : Multihash
}.
#[export] Instance ContentIdentifier_eq_dec : EqDecision ContentIdentifier.
Proof. solve_decision. Defined.

Definition cid_eqb (a c : ContentIdentifier) : bool :=
  bool_decide (version a = version c) && (content_type a =? content_type c)
  && multihash_eqb (content_address a) (content_address c).

Definition cid_ltb (a c : ContentIdentifier) : bool :=
  (version_value (version a) <? version_value (version c))
  || ((version_value (version a) =? version_value (version c))
      && ((content_type a <? content_type c)
          || ((content_type a =? content_type c)
              && multihash_ltb (content_address a) (content_address c)))).

Inductive EncodeError :=
| INVALID_CONTENT_TYPE | INVALID_HASH_TYPE | INVALID_HASH_LENGTH | VERSION_UNSUPPORTED | INVALID_BASE_ENCODING.
Inductive DecodeError :=
| EMPTY_VERSION | EMPTY_MULTICODEC | MALFORMED_VERSION | RESERVED_VERSION | CID_TOO_SHORT.
(** Errors of the codec, and those it passes on. *)
Inductive cid_error :=
| Encode (e : EncodeError) | Decode (e : DecodeError)
| OfMultihash (e : multihash_error) | OfMultibase (e : Base16.multibase_error).

(** ** Bytes *)

Module Codec.

(** [None] would be an unfinished varint; it does not occur. *)
Definition encode (cid : ContentIdentifier) : option (outcome cid_error bytes) :=
  match version cid with
  | V1 =>
      v ← EncodeVarint.EncodeVarint (u64 (version_value (version cid)));
      c ← EncodeVarint.EncodeVarint (u64 (content_type cid));
      Some (success (v ++ c ++ toBuffer (content_address cid)))
  | V0 =>
      Some (if negb (content_type cid =? DAG_PB) then failure (Encode INVALID_CONTENT_TYPE)
            else if negb (getType (content_address cid) =? sha256_type) then failure (Encode INVALID_HASH_TYPE)
            else if negb (length (getHash (content_address cid)) =? 32)%nat
                 then failure (Encode INVALID_HASH_LENGTH)
            else success (toBuffer (content_address cid)))
  end.

(** [sha256] is the digest of [crypto/sha]. *)
Definition encodeCIDV0 (sha256 : bytes -> bytes) (byte_buffer : bytes) : bytes :=
  let hash := sha256 byte_buffer in
  u8 sha256_type :: u8 (Z.of_nat (length hash)) :: hash.

Definition encodeCIDV1 (content_type : Code) (mhash : Multihash) : bytes :=
  1 :: u8 content_type :: toBuffer mhash.

Definition of_multihash (v : Version) (c : Code) (r : option (outcome multihash_error Multihash)) :
    option (outcome cid_error ContentIdentifier) :=
  match r with
  | None => None
  | Some (failure e) => Some (failure (OfMultihash e))
  | Some (success hash) => Some (success (mkCid v c hash))
  end.

Definition decode (bs : bytes) : option (outcome cid_error ContentIdentifier) :=
  if (length bs =? 34)%nat && (nth 0 bs 0 =? 0x12) && (nth 1 bs 0 =? 0x20) then
    of_multihash V0 DAG_PB (createFromBytes bs)
  else
    match UVarint.create bs with
    | None => Some (failure (Decode EMPTY_VERSION))
    | Some v =>
        let version := UVarint.toUInt64 v in
        if version =? 1 then
          let version_length := UVarint.calculateSize bs in
          match UVarint.create (drop version_length bs) with
          | None => Some (failure (Decode EMPTY_MULTICODEC))
          | Some multicodec =>
              let multicodec_length := UVarint.calculateSize (drop version_length bs) in
              of_multihash V1 (i32 (UVarint.toUInt64 multicodec))
                (createFromBytes (drop (version_length + multicodec_length) bs))
          end
        else if version <=? 0 then Some (failure (Decode MALFORMED_VERSION))
        else Some (failure (Decode RESERVED_VERSION))
    end.

(** ** Text *)

Section Text.
Context `{Hex}.

Definition toString (cid : ContentIdentifier) : option (outcome cid_error bytes) :=
  r ← encode cid;
  Some (TRY cid_bytes <- r ;;
        success (match version cid with
                 | V0 => encodeBase58 cid_bytes
                 | V1 => Multibase.encode cid_bytes BASE32_LOWER
                 end))%p2p.

Definition toStringOfBase (cid : ContentIdentifier) (base : Encoding) :
    option (outcome cid_error bytes) :=
  r ← encode cid;
  Some (TRY cid_bytes <- r ;;
        match version cid with
        | V0 => if bool_decide (base = BASE58) then success (encodeBase58 cid_bytes)
                else failure (Encode INVALID_BASE_ENCODING)
        | V1 => success (Multibase.encode cid_bytes base)
        end)%p2p.

Definition fromString (s : bytes) : option (outcome cid_error ContentIdentifier) :=
  if decide (length s < 2)%nat then Some (failure (Decode CID_TOO_SHORT))
  else if (length s =? 46)%nat && bool_decide (take 2 s = str "Qm") then
    match decodeBase58 s with
    | failure e => Some (failure (OfMultibase (Base16.Base e)))
    | success hash => decode hash
    end
  else
    match Multibase.decode s with
    | None => None
    | Some (failure e) => Some (failure (OfMultibase e))
    | Some (success bs) => decode bs
    end.
End Text.
End Codec.
Import Codec.

(** ** Proofs *)

Lemma is_i32_i32 z : is_i32 (i32 z).
Proof. unfold is_i32, i32. pose proof (Z.mod_pos_bound (z + 2 ^ 31) (2 ^ 32)). lia. Qed.

Lemma i32_u64 c : is_i32 c -> i32 (u64 c) = c.
Proof.
  intros Hc. unfold is_i32 in Hc. unfold i32, u64. destruct (decide (0 <= c)) as [Hp|Hn].
  - rewrite (Z.mod_small c) by lia. rewrite Z.mod_small by lia. lia.
  - replace (c mod 2 ^ 64) with (c + 2 ^ 64) by (apply Z.mod_unique with (-1); lia).
    replace (c + 2 ^ 64 + 2 ^ 31) with (c + 2 ^ 31 + 2 ^ 32 * 2 ^ 32) by lia.
    rewrite Z.mod_add, Z.mod_small by lia. lia.
Qed.

Lemma decode_v1 c t h m :
  is_i32 c -> multihash_of t h m ->
  exists bs, encode (mkCid V1 c m) = Some (success bs) /\ bytes_ok bs
    /\ decode bs = Some (success (mkCid V1 c m)) /\ bs <> [].
Proof.
  intros Hc Hm. destruct (multihash_of_spec t h m Hm) as (p & _ & _ & Hok & _ & Hparse).
  pose proof (is_u64_u64 c) as Hu. destruct (EncodeVarint_ok (u64 c) Hu) as (l & Hl & _).
  destruct (uvarint_prefix (u64 c) l (toBuffer m) Hu Hl Hok) as (Hcr & Hsz & Hval & Hok').
  exists (1 :: l ++ toBuffer m). unfold encode. cbn [version content_type content_address].
  change (EncodeVarint.EncodeVarint (u64 (version_value V1))) with (Some [1]). rewrite Hl. cbn [mbind option_bind app].
  destruct (uvarint_prefix 1 [1] (l ++ toBuffer m)) as (Hcr1 & Hsz1 & Hval1 & Hok1);
    [unfold is_u64; lia|done|done|]. cbn [app] in Hcr1, Hsz1, Hok1.
  split_and!; [done|done| |done]. unfold decode.
  replace ((_ =? 34)%nat && _ && _) with false by (cbn [nth]; by rewrite andb_false_r).
  rewrite Hcr1, Hval1, Hsz1. cbn [Z.eqb Pos.eqb length drop Nat.add].
  rewrite drop_0, Hcr, Hsz, Hval, drop_app_length, Hparse, i32_u64 by done. done.
Qed.

Lemma decode_v0 h m :
  multihash_of sha256_type h m -> length h = 32%nat ->
  toBuffer m = 0x12 :: 0x20 :: h /\ encode (mkCid V0 DAG_PB m) = Some (success (toBuffer m))
  /\ decode (toBuffer m) = Some (success (mkCid V0 DAG_PB m)).
Proof.
  intros Hm Hl. pose proof (multihash_of_fields _ _ _ Hm) as [Ht Hh].
  destruct (multihash_of_spec _ h m Hm) as (p & Hp & Heq & Hok & _ & Hparse).
  change (EncodeVarint.EncodeVarint sha256_type) with (Some [0x12]) in Hp. simplify_eq Hp. intros <-.
  assert (toBuffer m = 0x12 :: 0x20 :: h) as Hb by (rewrite Heq; cbn [toBuffer mbytes app]; by rewrite Hl).
  split_and!; [done| |].
  - unfold encode. cbn [version content_type content_address]. by rewrite Ht, Hh, Hl.
  - unfold decode. rewrite Hparse, Hb. cbn [length nth]. by rewrite Hl.
Qed.

(** The base-58 text of a version 0 identifier has 46 characters and starts with "Qm". *)
Lemma base58_of_v0 h :
  bytes_ok h -> length h = 32%nat ->
  length (encodeBase58 (0x12 :: 0x20 :: h)) = 46%nat /\ take 2 (encodeBase58 (0x12 :: 0x20 :: h)) = str "Qm".
Proof.
  intros Hh Hl. assert (bytes_ok (0x12 :: 0x20 :: h)) as Hok by by repeat constructor.
  destruct (encodeBase58_spec _ Hok) as (ds & -> & Hd & Hn & Hv).
  cbn [count_while skip_while Z.eqb replicate app] in Hv |- *.
  assert (be_value 58 ds = 0x1220 * 256 ^ 32 + be_value 256 h) as Hval.
  { rewrite Hv. change (0x12 :: 0x20 :: h) with ([0x12; 0x20] ++ h). unfold be_value at 1.
    rewrite foldl_app. change (foldl _ 0 [0x12; 0x20]) with 0x1220.
    rewrite (be_value_cons_acc 256), Hl. done. }
  clear Hv. pose proof (be_value_bound 256 ltac:(lia) h Hh) as Hb. rewrite Hl in Hb.
  pose proof (be_value_bound 58 ltac:(lia) ds Hd) as Hup.
  assert (length ds = 46)%nat as Hlen.
  { destruct ds as [|d ds]; [cbn in Hval; lia|].
    pose proof (be_value_head 58 ltac:(lia) d ds Hd Hn) as Hlow. cbn [length] in *.
    assert (58 ^ 45 < 58 ^ Z.of_nat (S (length ds))) as H1 by lia.
    assert (58 ^ Z.of_nat (length ds) < 58 ^ 46) as H2 by lia.
    apply Z.pow_lt_mono_r_iff in H1; [|lia|lia]. apply Z.pow_lt_mono_r_iff in H2; [|lia|lia]. lia. }
  rewrite length_map. split; [done|].
  destruct ds as [|a [|b ds]]; [done|done|]. cbn [length] in Hlen.
  apply Forall_cons in Hd as [Ha Hd]. apply Forall_cons in Hd as [Hb' Hd].
  assert (be_value 58 (a :: b :: ds) = (a * 58 + b) * 58 ^ 44 + be_value 58 ds) as Hab.
  { change (a :: b :: ds) with ([a; b] ++ ds). unfold be_value at 1. rewrite foldl_app.
    rewrite (be_value_cons_acc 58). replace (length ds) with 44%nat by lia. cbn [foldl]. f_equal. }
  pose proof (be_value_bound 58 ltac:(lia) ds Hd) as Hr. replace (length ds) with 44%nat in Hr by lia.
  assert (a * 58 + b = 1378) as Hhead by lia. assert (a = 23) as -> by lia. by assert (b = 44) as -> by lia.
Qed.

(** *** The ordering *)

Lemma multihash_order a b c :
  multihash_eqb a b = negb (multihash_ltb a b) && negb (multihash_ltb b a)
  /\ (multihash_ltb a b = true -> multihash_ltb b a = false)
  /\ (multihash_ltb a b = true -> multihash_ltb b c = true -> multihash_ltb a c = true).
Proof.
  unfold multihash_eqb, multihash_ltb. pose proof (bytes_ltb_trichotomy (mbytes a) (mbytes b)) as Htri.
  pose proof (bytes_ltb_trans (mbytes a) (mbytes b) (mbytes c)) as Htr.
  destruct (Z.eqb_spec (mtype a) (mtype b)), (Z.eqb_spec (mtype b) (mtype a)),
    (Z.eqb_spec (mtype b) (mtype c)), (Z.eqb_spec (mtype a) (mtype c)); try lia;
    (split_and!; [|try (intros; lia)|try done; try (intros; lia)]);
    rewrite ?andb_false_r, ?andb_true_r; try lia;
    destruct (bytes_ltb (mbytes a) (mbytes b)), (bytes_ltb (mbytes b) (mbytes a));
    (done || (case_bool_decide; done)).
Qed.

Lemma version_value_inj v w : version_value v = version_value w <-> v = w.
Proof. by destruct v, w. Qed.

(** ** Properties *)

(** A content identifier survives its binary form.  For every content type of
    32 bits and every non-empty multihash, [encode] returns; what it returns is
    decoded to the same identifier, and it refuses exactly version 0 with another
    content type than DAG-PB, another hash than SHA-256 or another length than 32,
    each with its own error. *)
Theorem cid_roundtrip v c t h m :
  is_i32 c -> multihash_of t h m ->
  exists r, encode (mkCid v c m) = Some r
    /\ match r with
       | success bs => decode bs = Some (success (mkCid v c m))
       | failure e =>
           v = V0
           /\ (e = Encode INVALID_CONTENT_TYPE /\ c <> DAG_PB
               \/ e = Encode INVALID_HASH_TYPE /\ c = DAG_PB /\ t <> sha256_type
               \/ e = Encode INVALID_HASH_LENGTH /\ c = DAG_PB /\ t = sha256_type /\ length h <> 32%nat)
       end.
Proof.
  intros Hc Hm. destruct v.
  - pose proof (multihash_of_fields _ _ _ Hm) as [Ht Hh].
    destruct (decide (c = DAG_PB)) as [->|Hne].
    2: { eexists. split; [unfold encode; cbn [version content_type]|].
         { by rewrite (proj2 (Z.eqb_neq c DAG_PB)). } naive_solver. }
    destruct (decide (t = sha256_type)) as [->|Hne].
    2: { eexists. split; [unfold encode; cbn [version content_type content_address]|].
         { by rewrite Z.eqb_refl, Ht, (proj2 (Z.eqb_neq t sha256_type)). } naive_solver. }
    destruct (decide (length h = 32%nat)) as [Hl|Hne].
    + destruct (decode_v0 h m Hm Hl) as (_ & He & Hd). by eexists.
    + eexists. split; [unfold encode; cbn [version content_type content_address]|].
      { by rewrite Ht, !Z.eqb_refl, Hh, (proj2 (Nat.eqb_neq _ 32)). } naive_solver.
  - destruct (decode_v1 c t h m Hc Hm) as (bs & He & _ & Hd & _). by eexists.
Qed.

Definition sample_hash : Multihash := mkMultihash (0x12 :: 32 :: replicate 32 7) 2 sha256_type.
Lemma sample_hash_ok : multihash_of sha256_type (replicate 32 7) sample_hash.
Proof. split_and!; [done|by apply Forall_replicate|done|done]. Qed.

Lemma cid_roundtrip_witness :
  exists r, encode (mkCid V1 FILECOIN_COMMITMENT_SEALED sample_hash) = Some r
    /\ match r with
       | success bs => decode bs = Some (success (mkCid V1 FILECOIN_COMMITMENT_SEALED sample_hash))
       | failure e => V1 = V0
           /\ (e = Encode INVALID_CONTENT_TYPE /\ FILECOIN_COMMITMENT_SEALED <> DAG_PB
               \/ e = Encode INVALID_HASH_TYPE /\ FILECOIN_COMMITMENT_SEALED = DAG_PB /\ sha256_type <> sha256_type
               \/ e = Encode INVALID_HASH_LENGTH /\ FILECOIN_COMMITMENT_SEALED = DAG_PB
                  /\ sha256_type = sha256_type /\ length (replicate 32 7) <> 32%nat)
       end.
Proof. apply (cid_roundtrip V1 _ _ _ _); [done|apply sample_hash_ok]. Defined.

Section TextLaws.
Context `{HexLaws}.

(** A content identifier survives its text form.  The text of a version 0
    identifier is 46 characters starting with "Qm", that of a version 1 identifier
    is multibase; [fromString] tells them apart and gives the identifier back, in
    every base the identifier may be written in, except lower-case hexadecimal
    without a letter. *)
Theorem cid_text_roundtrip v c t h m base :
  is_i32 c -> multihash_of t h m ->
  (v = V0 -> c = DAG_PB /\ t = sha256_type /\ length h = 32%nat) ->
  exists bs s s', encode (mkCid v c m) = Some (success bs)
    /\ toString (mkCid v c m) = Some (success s)
    /\ fromString s = Some (success (mkCid v c m))
    /\ toStringOfBase (mkCid v c m) base = Some s'
    /\ (s' = failure (Encode INVALID_BASE_ENCODING) <-> v = V0 /\ base <> BASE58)
    /\ forall s'', s' = success s'' ->
         fromString s'' = Some (if bool_decide (base = BASE16_LOWER) && negb (Base16.has_letter bs)
                                then failure (OfMultibase (Base16.Base NON_LOWERCASE_INPUT))
                                else success (mkCid v c m)).
Proof.
  intros Hc Hm Hv. destruct v.
  - destruct (Hv eq_refl) as (-> & -> & Hl). destruct (decode_v0 h m Hm Hl) as (Hb & He & Hd).
    assert (bytes_ok h) as Hh by apply Hm. destruct (base58_of_v0 h Hh Hl) as [Hlen Hqm]. rewrite <- Hb in *.
    assert (fromString (encodeBase58 (toBuffer m)) = Some (success (mkCid V0 DAG_PB m))) as Hfrom.
    { unfold fromString. rewrite decide_False by lia. rewrite Hlen, (bool_decide_true (take 2 _ = _)) by exact Hqm. cbn [Nat.eqb andb].
      rewrite base58_decode_encode; [done|]. rewrite Hb. by repeat constructor. }
    unfold toString, toStringOfBase. rewrite He. cbn [mbind option_bind version].
    do 3 eexists. split_and!; [done|done|done|done| |].
    + case_bool_decide; naive_solver.
    + case_bool_decide; [|done]. intros ? [= <-]. subst base. done.
  - destruct (decode_v1 c t h m Hc Hm) as (bs & He & Hok & Hd & Hne).
    unfold toString, toStringOfBase. rewrite He. cbn [mbind option_bind version].
    assert (forall b, fromString (Multibase.encode bs b)
              = match Multibase.decode (Multibase.encode bs b) with
                | None => None
                | Some (failure e) => Some (failure (OfMultibase e))
                | Some (success bs) => decode bs
                end) as Hfrom.
    { intros b. unfold fromString, Multibase.encode. rewrite !(decide_False (P := bs = [])) by done.
      pose proof (codec_encode_nonempty b bs Hok Hne) as Hcs.
      rewrite decide_False by (destruct (codec_encode b bs); [done|cbn; lia]).
      rewrite bool_decide_false, andb_false_r; [done|].
      destruct (codec_encode b bs); [done|]. cbn. by destruct b. }
    pose proof (fun b => multibase_decode_encode bs b Hok Hne) as Hdec.
    do 3 eexists. split_and!; [done|done| |done|naive_solver|].
    + by rewrite Hfrom, Hdec.
    + intros ? [= <-]. rewrite Hfrom, Hdec.
      destruct base; try done. rewrite bool_decide_true by done. cbn [andb]. by destruct (Base16.has_letter bs).
Qed.
End TextLaws.

Lemma cid_text_roundtrip_witness :
  exists bs s s', encode (mkCid V0 DAG_PB sample_hash) = Some (success bs)
    /\ toString (mkCid V0 DAG_PB sample_hash) = Some (success s)
    /\ fromString s = Some (success (mkCid V0 DAG_PB sample_hash))
    /\ toStringOfBase (mkCid V0 DAG_PB sample_hash) BASE64 = Some s'
    /\ (s' = failure (Encode INVALID_BASE_ENCODING) <-> V0 = V0 /\ BASE64 <> BASE58)
    /\ forall s'', s' = success s'' ->
         fromString s'' = Some (if bool_decide (BASE64 = BASE16_LOWER) && negb (Base16.has_letter bs)
                                then failure (OfMultibase (Base16.Base NON_LOWERCASE_INPUT))
                                else success (mkCid V0 DAG_PB sample_hash)).
Proof.
  apply (cid_text_roundtrip V0 DAG_PB sha256_type (replicate 32 7) sample_hash BASE64);
    [done|apply sample_hash_ok|done].
Defined.

(** The shortcuts agree with [encode] only for small content types.  The bytes
    of [encodeCIDV0] decode to the identifier of the digest; those of
    [encodeCIDV1], which writes the content type as one byte, are the encoding of
    the identifier if and only if the content type is below 128.  So the bytes for
    the Filecoin content types are not those of the identifier. *)
Theorem cid_shortcuts_exact sha256 data c t h m m0 :
  is_i32 c -> multihash_of t h m ->
  length (sha256 data) = 32%nat -> multihash_of sha256_type (sha256 data) m0 ->
  decode (encodeCIDV0 sha256 data) = Some (success (mkCid V0 DAG_PB m0))
  /\ (encode (mkCid V1 c m) = Some (success (encodeCIDV1 c m)) <-> 0 <= c < 128).
Proof.
  intros Hc Hm Hl Hm0. split.
  - destruct (decode_v0 _ m0 Hm0 Hl) as (Hb & _ & Hd). unfold encodeCIDV0. rewrite Hl.
    change (u8 sha256_type) with 0x12. change (u8 (Z.of_nat 32)) with 0x20. by rewrite <- Hb.
  - unfold encode, encodeCIDV1. cbn [version content_type content_address].
    change (EncodeVarint.EncodeVarint (u64 (version_value V1))) with (Some [1]).
    destruct (EncodeVarint_ok (u64 c) (is_u64_u64 c)) as (l & Hl' & Hval & _ & _ & Hsp).
    rewrite Hl'. cbn [mbind option_bind app]. unfold is_i32 in Hc. split.
    + intros [= Heq]. assert (l = [u8 c]) as ->.
      { destruct l as [|b [|b' l]]; [by cbn in Hsp| |].
        - cbn in Heq. by injection Heq as ->.
        - apply (f_equal length) in Heq. rewrite length_app in Heq. cbn [length] in Heq. lia. }
      cbn [varint_split] in Hsp. destruct (u8 c <? 128) eqn:E; [|done].
      cbn [leb_value] in Hval. unfold u8, u64 in *. reflect_bools. divlia.
    + intros Hs. assert (l = [c]) as ->.
      { rewrite u64_id in Hl' by (unfold is_u64; lia).
        unfold EncodeVarint.EncodeVarint in Hl'. cbn [EncodeVarint.encode_loop] in Hl'.
        rewrite shiftr_7, land_7f, Z.div_small, Z.mod_small in Hl' by lia. by simplify_eq/=. }
      unfold u8. rewrite Z.mod_small by lia. done.
Qed.

Lemma cid_shortcuts_exact_witness :
  decode (encodeCIDV0 (fun _ => replicate 32 7) [1; 2]) = Some (success (mkCid V0 DAG_PB sample_hash))
  /\ (encode (mkCid V1 FILECOIN_COMMITMENT_SEALED sample_hash)
      = Some (success (encodeCIDV1 FILECOIN_COMMITMENT_SEALED sample_hash))
      <-> 0 <= FILECOIN_COMMITMENT_SEALED < 128).
Proof.
  apply (cid_shortcuts_exact (fun _ => replicate 32 7) [1; 2] FILECOIN_COMMITMENT_SEALED
           sha256_type (replicate 32 7)); [done| |done|]; apply sample_hash_ok.
Defined.

(** Content identifiers can be keys of an ordered container.  [operator<] is
    transitive and asymmetric, and two identifiers are [operator==] exactly when
    neither is less. *)
Theorem cid_order a b c :
  cid_eqb a b = negb (cid_ltb a b) && negb (cid_ltb b a)
  /\ (cid_ltb a b = true -> cid_ltb b a = false)
  /\ (cid_ltb a b = true -> cid_ltb b c = true -> cid_ltb a c = true).
Proof.
  unfold cid_eqb, cid_ltb.
  destruct (multihash_order (content_address a) (content_address b) (content_address c)) as (Heq & Has & Htr).
  rewrite Heq. rewrite (bool_decide_ext _ (version_value (version a) = version_value (version b)))
    by (symmetry; apply version_value_inj).
  revert Has Htr. generalize (version_value (version a)) (version_value (version b)) (version_value (version c)).
  intros va vb vc Has Htr.
  destruct (multihash_ltb (content_address a) (content_address b)),
    (multihash_ltb (content_address b) (content_address a)),
    (multihash_ltb (content_address b) (content_address c)),
    (multihash_ltb (content_address a) (content_address c));
    try (specialize (Has eq_refl)); try (specialize (Htr eq_refl eq_refl)); try discriminate;
    (split_and!; [case_bool_decide; lia|lia|lia]).
Qed.
