(* ===== verification/MultiaddrCodec.v ===== *)
(** * The two forms of a multiaddress

    [include/libp2p/multi/multiaddress_protocol_list.hpp] and
    [multi/converters/*.cpp]: the table of protocols, the conversion of a textual
    address such as "/ip4/1.2.3.4/udp/9000/quic-v1" to bytes and back.  The two
    directions are related through lists of components, a protocol with its value
    in bytes. *)

From S2P Require Import Prelude Varint Base58 Multibase ByteUtil.

(** ** What is used of other libraries

    Boost.Asio's parsing and printing of IP addresses ([make_address_v4],
    [to_string], ...), Boost's [split] at '/', [load_big_u16], and {fmt}'s
    "[%{:02X}]". *)
Class Ext := {
  make_address_v4 : bytes -> option bytes;
  v4_to_string : bytes -> bytes;
  make_address_v6 : bytes -> option bytes;
  v6_to_string : bytes -> bytes;
  split_slash : bytes -> list bytes;
  load_big_u16 : bytes -> Z;
  format_02X : Z -> bytes
}.

Definition slash : Z := 47.

(** [boost::algorithm::join(tokens, "/")] *)
Fixpoint join (tokens : list bytes) : bytes :=
  match tokens with
  | [] => []
  | [t] => t
  | t :: tokens => t ++ slash :: join tokens
  end.

Definition is_hex (c : Z) : bool := isdigit c || ((65 <=? c) && (c <=? 70)) || ((97 <=? c) && (c <=? 102)).
Definition ip4_char (c : Z) : bool := isdigit c || (c =? 46).
Definition ip6_char (c : Z) : bool := is_hex c || (c =? 46) || (c =? 58).

(** The documented behaviour: parsing inverts printing; an IPv4 address is printed
    in dotted decimal, an IPv6 address with colons; splitting is the inverse of
    joining. *)
Class ExtLaws `{Ext} := {
  v4_bytes s b : make_address_v4 s = Some b -> bytes_ok b /\ length b = 4%nat;
  v4_parse_print b : bytes_ok b -> length b = 4%nat -> make_address_v4 (v4_to_string b) = Some b;
  v4_text b : bytes_ok b -> length b = 4%nat ->
    v4_to_string b <> [] /\ Forall (fun c => ip4_char c = true) (v4_to_string b);
  v6_bytes s b : make_address_v6 s = Some b -> bytes_ok b /\ length b = 16%nat;
  v6_parse_print b : bytes_ok b -> length b = 16%nat -> make_address_v6 (v6_to_string b) = Some b;
  v6_text b : bytes_ok b -> length b = 16%nat ->
    58 ∈ v6_to_string b /\ Forall (fun c => ip6_char c = true) (v6_to_string b);
  split_join s : join (split_slash s) = s;
  split_nonempty s : split_slash s <> [];
  split_tokens s : Forall (fun t => slash ∉ t) (split_slash s);
  load_big a b : load_big_u16 [a; b] = 256 * a + b;
  format_byte c : is_byte c -> format_02X c = Base16.hex_byte true c
}.

(** ** Protocols *)

Inductive Code :=
| IP4 | TCP | UDP | DCCP | IP6 | IP6_ZONE | DNS | DNS4 | DNS6 | DNS_ADDR | SCTP | UDT | UTP | UNIX | P2P
| ONION | ONION3 | GARLIC64 | QUIC | QUIC_V1 | HTTP | HTTPS | WS | WSS | P2P_WEBSOCKET_STAR | P2P_STARDUST
| P2P_WEBRTC_STAR | P2P_WEBRTC_DIRECT | P2P_CIRCUIT | X_PARITY_WS | X_PARITY_WSS
| DUMMY_PROTO_1 | DUMMY_PROTO_2 | DUMMY_PROTO_3 | DUMMY_PROTO_4.

#[export] Instance Code_eq_dec : EqDecision Code.
Proof. solve_decision. Defined.

Definition code_value (c : Code) : Z :=
  match c with
  | IP4 => 4 | TCP => 6 | UDP => 273 | DCCP => 33 | IP6 => 41 | IP6_ZONE => 42 | DNS => 53 | DNS4 => 54
  | DNS6 => 55 | DNS_ADDR => 56 | SCTP => 132 | UDT => 301 | UTP => 302 | UNIX => 400 | P2P => 421
  | ONION => 444 | ONION3 => 445 | GARLIC64 => 446 | QUIC => 460 | QUIC_V1 => 461 | HTTP => 480
  | HTTPS => 443 | WS => 477 | WSS => 478 | P2P_WEBSOCKET_STAR => 479 | P2P_STARDUST => 277
  | P2P_WEBRTC_STAR => 275 | P2P_WEBRTC_DIRECT => 276 | P2P_CIRCUIT => 290 | X_PARITY_WS => 4770
  | X_PARITY_WSS => 4780 | DUMMY_PROTO_1 => 0x3DEAD1 | DUMMY_PROTO_2 => 0x3DEAD2
  | DUMMY_PROTO_3 => 0x3DEAD3 | DUMMY_PROTO_4 => 0x3DEAD4
  end.

Record Protocol := mkProtocol { code : Code; size : Z; name : bytes }.

#[export] Instance Protocol_eq_dec : EqDecision Protocol.
Proof. solve_decision. Defined.

Definition kVarLen : Z := -1.

Definition protocols_ : list Protocol :=
  [ mkProtocol IP4 32 (str "ip4"); mkProtocol TCP 16 (str "tcp"); mkProtocol UDP 16 (str "udp");
    mkProtocol DCCP 16 (str "dccp"); mkProtocol IP6 128 (str "ip6");
    mkProtocol IP6_ZONE kVarLen (str "ip6zone"); mkProtocol DNS kVarLen (str "dns");
    mkProtocol DNS4 kVarLen (str "dns4"); mkProtocol DNS6 kVarLen (str "dns6");
    mkProtocol DNS_ADDR kVarLen (str "dnsaddr"); mkProtocol SCTP 16 (str "sctp");
    mkProtocol UDT 0 (str "udt"); mkProtocol UTP 0 (str "utp"); mkProtocol UNIX kVarLen (str "unix");
    mkProtocol P2P kVarLen (str "p2p"); mkProtocol ONION 96 (str "onion");
    mkProtocol ONION3 296 (str "onion3"); mkProtocol GARLIC64 kVarLen (str "garlic64");
    mkProtocol QUIC 0 (str "quic"); mkProtocol QUIC_V1 0 (str "quic-v1");
    mkProtocol HTTP 0 (str "http"); mkProtocol HTTPS 0 (str "https");
    mkProtocol WS 0 (str "ws"); mkProtocol WSS 0 (str "wss");
    mkProtocol P2P_WEBSOCKET_STAR 0 (str "p2p-websocket-star");
    mkProtocol P2P_STARDUST 0 (str "p2p-stardust"); mkProtocol P2P_WEBRTC_STAR 0 (str "p2p-webrtc-star");
    mkProtocol P2P_WEBRTC_DIRECT 0 (str "p2p-webrtc-direct");
    mkProtocol P2P_CIRCUIT 0 (str "p2p-circuit");
    mkProtocol X_PARITY_WS kVarLen (str "x-parity-ws"); mkProtocol X_PARITY_WSS kVarLen (str "x-parity-wss");
    mkProtocol DUMMY_PROTO_1 0 (str "_dummy_proto_1"); mkProtocol DUMMY_PROTO_2 0 (str "_dummy_proto_2");
    mkProtocol DUMMY_PROTO_3 kVarLen (str "_dummy_proto_3");
    mkProtocol DUMMY_PROTO_4 kVarLen (str "_dummy_proto_4") ].

(** [ProtocolList::get(std::string_view)] *)
Definition get_by_name (n : bytes) : option Protocol :=
  let n := if bool_decide (n = str "ipfs") then str "p2p" else n in
  List.find (fun p => bool_decide (name p = n)) protocols_.
(** [ProtocolList::get(Protocol::Code)]; the argument is any number cast to the
    enumeration. *)
Definition get_by_code (n : Z) : option Protocol :=
  List.find (fun p => code_value (code p) =? n) protocols_.

Inductive ConversionError :=
| ADDRESS_DOES_NOT_BEGIN_WITH_SLASH | EMPTY_PROTOCOL | NO_SUCH_PROTOCOL | NOT_IMPLEMENTED
| EMPTY_ADDRESS | INVALID_ADDRESS.
#[export] Instance ConversionError_eq_dec : EqDecision ConversionError.
Proof. solve_decision. Defined.

(** ** Percent-encoding *)

Definition mask : list Z := [0xffffffff; 0xd000802d; 0x00000000; 0xa8000001].

Definition must_escape (c : Z) : bool :=
  (0x7f <? c) || negb (Z.land (nth (Z.to_nat (c / 32)) mask 0) (Z.shiftl 1 (c mod 32)) =? 0).

Definition hex_value (c : Z) : option Z :=
  if isdigit c then Some (c - 48)
  else if (65 <=? c) && (c <=? 70) then Some (c - 65 + 10)
  else if (97 <=? c) && (c <=? 102) then Some (c - 97 + 10)
  else None.

Fixpoint percentDecode (s : bytes) : bytes :=
  match s with
  | [] => []
  | c :: rest =>
      match rest with
      | c1 :: c2 :: rest' =>
          if c =? 37 then
            match hex_value c1, hex_value c2 with
            | Some x1, Some x2 => u8 (Z.lor (Z.shiftl x1 4) x2) :: percentDecode rest'
            | _, _ => c :: percentDecode rest
            end
          else c :: percentDecode rest
      | _ => c :: percentDecode rest
      end
  end.

Section Codec.
Context `{Ext, Hex}.

Fixpoint percentEncode (out s : bytes) : bytes :=
  match s with
  | [] => out
  | c :: s => percentEncode (out ++ (if must_escape c then 37 :: format_02X c else [c])) s
  end.

(** ** Converters *)

Definition ip_result (r : option bytes) : outcome ConversionError bytes :=
  match r with Some b => success b | None => failure INVALID_ADDRESS end.

Definition IPv4Converter_addressToBytes (addr : bytes) : outcome ConversionError bytes :=
  ip_result (make_address_v4 addr).
Definition IPv6Converter_addressToBytes (addr : bytes) : outcome ConversionError bytes :=
  ip_result (make_address_v6 addr).

Definition TcpConverter_addressToBytes (addr : bytes) : outcome ConversionError bytes :=
  if existsb (fun c => negb (isdigit c)) addr then failure INVALID_ADDRESS
  else
    match stoi_digits addr with
    | None => failure INVALID_ADDRESS
    | Some port_int =>
        if (0 <=? port_int) && (port_int <=? 65535) then success (putUint16BE [] (u16 port_int))
        else failure INVALID_ADDRESS
    end.
Definition UdpConverter_addressToBytes (addr : bytes) : outcome ConversionError bytes :=
  if existsb (fun c => negb (isdigit c)) addr then failure INVALID_ADDRESS
  else
    match stoi_digits addr with
    | None => failure INVALID_ADDRESS
    | Some port_int =>
        if (0 <=? port_int) && (port_int <=? 65535) then success (putUint16BE [] (u16 port_int))
        else failure INVALID_ADDRESS
    end.

Definition DnsConverter_addressToBytes (addr : bytes) : outcome ConversionError bytes :=
  success (UVarint.of_uint64 (Z.of_nat (length addr)) ++ addr).

(** The codec throws for base 64 only, see [Multibase.v]. *)
Definition IpfsConverter_addressToBytes (addr : bytes) : outcome ConversionError bytes :=
  let encoded := Multibase.encoding_char Multibase.BASE58 :: addr in
  match Multibase.decode encoded with
  | Some (success decoded) => success (UVarint.of_uint64 (Z.of_nat (length decoded)) ++ decoded)
  | _ => failure INVALID_ADDRESS
  end.

Definition addressToBytes (protocol : Protocol) (addr : bytes) : outcome ConversionError bytes :=
  match code protocol with
  | IP4 => IPv4Converter_addressToBytes addr
  | IP6 => IPv6Converter_addressToBytes addr
  | TCP => TcpConverter_addressToBytes addr
  | UDP => UdpConverter_addressToBytes addr
  | P2P => IpfsConverter_addressToBytes addr
  | DNS | DNS4 | DNS6 | DNS_ADDR | UNIX => DnsConverter_addressToBytes addr
  | X_PARITY_WS | X_PARITY_WSS => DnsConverter_addressToBytes (percentDecode addr)
  | IP6_ZONE | ONION3 | GARLIC64 | QUIC | WS | WSS | P2P_WEBSOCKET_STAR | P2P_STARDUST
  | P2P_WEBRTC_DIRECT | P2P_CIRCUIT => failure NOT_IMPLEMENTED
  | _ => failure NO_SUCH_PROTOCOL
  end.

(** [WordType], with the protocol whose address is awaited. *)
Inductive WordType := PROTOCOL | ADDRESS (protx : Protocol).

Fixpoint words_loop (tokens : list bytes) (type : WordType) (processed : bytes) :
    outcome ConversionError bytes :=
  match tokens with
  | [] => match type with PROTOCOL => success processed | ADDRESS _ => failure EMPTY_ADDRESS end
  | word :: tokens =>
      match type with
      | PROTOCOL =>
          if decide (word = []) then failure EMPTY_PROTOCOL
          else
            match get_by_name word with
            | Some protx =>
                words_loop tokens (if size protx =? 0 then PROTOCOL else ADDRESS protx)
                  (processed ++ UVarint.of_uint64 (code_value (code protx)))
            | None => failure NO_SUCH_PROTOCOL
            end
      | ADDRESS protx =>
          if decide (word = []) then failure EMPTY_ADDRESS
          else TRY bs <- addressToBytes protx word ;; words_loop tokens PROTOCOL (processed ++ bs)
      end
  end%p2p.

(** [str.remove_suffix(1)] when the last character is '/'. *)
Definition drop_last_slash (s : bytes) : bytes :=
  if bool_decide (last s = Some slash) then take (length s - 1) s else s.

Definition multiaddrToBytes (s : bytes) : outcome ConversionError bytes :=
  match s with
  | [] => failure ADDRESS_DOES_NOT_BEGIN_WITH_SLASH
  | c :: s =>
      if negb (c =? slash) then failure ADDRESS_DOES_NOT_BEGIN_WITH_SLASH
      else if decide (s = []) then failure EMPTY_PROTOCOL
      else words_loop (split_slash (drop_last_slash s)) PROTOCOL []
  end.

(** ** Printing *)

(** The closures [read], [uvar] and [read_uvar]; each returns what it read and the
    bytes left. *)
Definition read (n : Z) (bs : bytes) : outcome ConversionError (bytes * bytes) :=
  if Z.of_nat (length bs) <? n then failure INVALID_ADDRESS
  else success (take (Z.to_nat n) bs, drop (Z.to_nat n) bs).
Definition uvar (bs : bytes) : outcome ConversionError (Z * bytes) :=
  match UVarint.create bs with
  | None => failure INVALID_ADDRESS
  | Some v => success (UVarint.toUInt64 v, drop (length v) bs)
  end.
Definition read_uvar (bs : bytes) : outcome ConversionError (bytes * bytes) :=
  (TRY (n, bs) <- uvar bs ;; read n bs)%p2p.

(** In the C locale.  The source passes a [char]; where it is signed, a byte from 0x80 is a
    negative argument, which is undefined. *)
Definition isalnum (c : Z) : bool := isdigit c || Base16.isalpha c.
Definition dns_char (c : Z) : bool := isalnum c || (c =? 45) || (c =? 46).

(** One case of the [switch]: the text of the value and the bytes left. *)
Definition print_value (protocol : Protocol) (bs : bytes) : outcome ConversionError (bytes * bytes) :=
  match code protocol with
  | P2P => TRY (data, bs) <- read_uvar bs ;; success (encodeBase58 data, bs)
  | DNS | DNS4 | DNS6 | DNS_ADDR =>
      TRY (data, bs) <- read_uvar bs ;;
      (if forallb dns_char data then success (data, bs) else failure INVALID_ADDRESS)
  | X_PARITY_WS | X_PARITY_WSS => TRY (data, bs) <- read_uvar bs ;; success (percentEncode [] data, bs)
  | IP4 => TRY (data, bs) <- read 4 bs ;; success (v4_to_string data, bs)
  | IP6 => TRY (data, bs) <- read 16 bs ;; success (v6_to_string data, bs)
  | TCP | UDP => TRY (data, bs) <- read 2 bs ;; success (to_string (load_big_u16 data), bs)
  | _ => failure NOT_IMPLEMENTED
  end%p2p.

(** The loop over the bytes; [None] is running out of fuel. *)
Fixpoint print_loop (fuel : nat) (bs results : bytes) : option (outcome ConversionError bytes) :=
  match bs, fuel with
  | [], _ => Some (success results)
  | _, O => None
  | _, S fuel =>
      match uvar bs with
      | failure e => Some (failure e)
      | success (protocol_num, bs) =>
          match get_by_code protocol_num with
          | None => Some (failure NO_SUCH_PROTOCOL)
          | Some protocol =>
              let results := results ++ slash :: name protocol in
              if size protocol =? 0 then print_loop fuel bs results
              else
                match print_value protocol bs with
                | failure e => Some (failure e)
                | success (text, bs) => print_loop fuel bs (results ++ slash :: text)
                end
          end
      end
  end.

(** Each round reads at least one byte. *)
Definition bytesToMultiaddrString (bs : bytes) : option (outcome ConversionError bytes) :=
  print_loop (length bs) bs [].
End Codec.

(** ** Components

    The meaning of an address: protocols with the bytes of their values. *)

Abbreviation component := (Protocol * bytes)%type.

Definition fixed_size (c : Code) : option nat :=
  match c with IP4 => Some 4%nat | IP6 => Some 16%nat | TCP | UDP => Some 2%nat | _ => None end.

(** The values the converters produce. *)
Definition value_ok (p : Protocol) (v : bytes) : Prop :=
  bytes_ok v /\ Z.of_nat (length v) < 2 ^ 64
  /\ match code p with
     | IP4 => length v = 4%nat
     | IP6 => length v = 16%nat
     | TCP | UDP => length v = 2%nat
     | P2P => True
     | DNS | DNS4 | DNS6 | DNS_ADDR | UNIX => v <> [] /\ slash ∉ v
     | X_PARITY_WS | X_PARITY_WSS => v <> []
     | _ => False
     end.

Definition component_ok (c : component) : Prop :=
  c.1 ∈ protocols_ /\ (if size c.1 =? 0 then c.2 = [] else value_ok c.1 c.2).

Definition value_bytes (p : Protocol) (v : bytes) : bytes :=
  match fixed_size (code p) with
  | Some _ => v
  | None => UVarint.of_uint64 (Z.of_nat (length v)) ++ v
  end.
Definition component_bytes (c : component) : bytes :=
  UVarint.of_uint64 (code_value (code c.1)) ++ (if size c.1 =? 0 then [] else value_bytes c.1 c.2).
Definition addr_bytes (cs : list component) : bytes := concat (map component_bytes cs).

(** The components that have a text. *)
Definition printable (c : component) : bool :=
  match code c.1 with
  | UNIX => false
  | DNS | DNS4 | DNS6 | DNS_ADDR => forallb dns_char c.2
  | _ => true
  end.

Section Text.
Context `{Ext}.
Definition value_text (p : Protocol) (v : bytes) : bytes :=
  match code p with
  | IP4 => v4_to_string v
  | IP6 => v6_to_string v
  | TCP | UDP => to_string (load_big_u16 v)
  | P2P => encodeBase58 v
  | X_PARITY_WS | X_PARITY_WSS => percentEncode [] v
  | _ => v
  end.
Definition component_words (c : component) : list bytes :=
  name c.1 :: (if size c.1 =? 0 then [] else [value_text c.1 c.2]).
Definition component_text (c : component) : bytes := concat (map (cons slash) (component_words c)).
Definition addr_text (cs : list component) : bytes := concat (map component_text cs).
End Text.

(** ** Proofs *)

(** *** The table *)

Definition row_ok (p : Protocol) : bool :=
  bool_decide (get_by_name (name p) = Some p) && bool_decide (get_by_code (code_value (code p)) = Some p)
  && (0 <=? code_value (code p)) && (code_value (code p) <? 2 ^ 64)
  && forallb (fun c => negb (c =? slash)) (name p) && negb (bool_decide (name p = []))
  && bool_decide (name p <> str "ipfs")
  && match code p with
     | IP4 | IP6 | TCP | UDP | P2P | DNS | DNS4 | DNS6 | DNS_ADDR | UNIX | X_PARITY_WS | X_PARITY_WSS => negb (size p =? 0)
     | _ => true
     end.

Lemma no_slash_forallb (s : bytes) : forallb (fun c => negb (c =? slash)) s = true -> slash ∉ s.
Proof.
  intros Hall Hin. rewrite forallb_forall in Hall. apply list_elem_of_In in Hin.
  apply Hall in Hin. by rewrite Z.eqb_refl in Hin.
Qed.

Lemma rows_ok p : p ∈ protocols_ -> row_ok p = true.
Proof. intros Hp. apply list_elem_of_In in Hp. revert p Hp. apply forallb_forall. vm_compute. reflexivity. Qed.

Lemma table_ok p :
  p ∈ protocols_ ->
  get_by_name (name p) = Some p /\ get_by_code (code_value (code p)) = Some p
  /\ is_u64 (code_value (code p)) /\ slash ∉ name p /\ name p <> [].
Proof.
  intros Hp. pose proof (rows_ok p Hp) as Hrow.
  unfold row_ok in Hrow. rewrite !andb_true_iff in Hrow.
  destruct Hrow as [[[[[[[Hn Hc] Hlo] Hhi] Hs] He] _] _].
  apply bool_decide_eq_true in Hn, Hc. apply no_slash_forallb in Hs.
  apply negb_true_iff, bool_decide_eq_false in He. split_and!; try done. unfold is_u64. lia.
Qed.

(** A protocol with a value is not one of size zero. *)
Lemma valued_size p : p ∈ protocols_ -> (size p =? 0) = true -> forall v, ~ value_ok p v.
Proof.
  intros Hp Hs v (_ & _ & Hv). pose proof (rows_ok p Hp) as Hrow. unfold row_ok in Hrow. apply andb_true_iff in Hrow as [_ Hrow]. rewrite Hs in Hrow.
  by destruct (code p).
Qed.

Lemma flag_printable p v : p ∈ protocols_ -> (size p =? 0) = true -> printable (p, v) = true.
Proof.
  intros Hp Hs. pose proof (rows_ok p Hp) as Hrow. unfold row_ok in Hrow. apply andb_true_iff in Hrow as [_ Hrow].
  rewrite Hs in Hrow. unfold printable. cbn [fst snd]. by destruct (code p).
Qed.

Lemma get_by_name_in n p : get_by_name n = Some p -> p ∈ protocols_.
Proof. intros Hf. apply List.find_some in Hf as [Hin _]. by apply list_elem_of_In. Qed.

Lemma get_by_code_in n p : get_by_code n = Some p -> p ∈ protocols_ /\ code_value (code p) = n.
Proof.
  intros Hf. apply List.find_some in Hf as [Hin Heq]. split; [by apply list_elem_of_In|by apply Z.eqb_eq].
Qed.

(** *** Splitting *)

Definition no_slash (t : bytes) : Prop := slash ∉ t.

Lemma join_cons t ts : ts <> [] -> join (t :: ts) = t ++ slash :: join ts.
Proof. by destruct ts. Qed.

Lemma first_slash_unique (a b r1 r2 : bytes) :
  no_slash a -> no_slash b -> a ++ slash :: r1 = b ++ slash :: r2 -> a = b /\ r1 = r2.
Proof.
  unfold no_slash. revert b. induction a as [|x a IH]; intros [|y b] Ha Hb [=].
  - done.
  - subst y. by destruct Hb; left.
  - subst x. by destruct Ha; left.
  - subst y. destruct (IH b) as [-> ->]; [set_solver|set_solver|done|done].
Qed.

Lemma join_inj l1 l2 :
  l1 <> [] -> l2 <> [] -> Forall no_slash l1 -> Forall no_slash l2 -> join l1 = join l2 -> l1 = l2.
Proof.
  intros Hne1 Hne2 H1. revert l2 Hne1 Hne2. induction H1 as [|a l1 Ha H1 IH]; [done|].
  intros l2 _ Hne2 H2 Hj. destruct H2 as [|b l2 Hb H2]; [done|].
  destruct l1 as [|a' l1], l2 as [|b' l2].
  - by simpl in Hj; subst.
  - rewrite (join_cons b) in Hj by done. cbn [join] in Hj. subst a. exfalso. apply Ha.
    apply elem_of_app. right. left.
  - rewrite (join_cons a) in Hj by done. cbn [join] in Hj. subst b. exfalso. apply Hb.
    apply elem_of_app. right. left.
  - rewrite !join_cons in Hj by done. apply first_slash_unique in Hj as [-> Hj]; [|done|done].
    f_equal. by apply IH.
Qed.

Lemma split_words `{ExtLaws} ts : ts <> [] -> Forall no_slash ts -> split_slash (join ts) = ts.
Proof.
  intros Hne Hts. apply join_inj; [apply split_nonempty|done|apply split_tokens|done|apply split_join].
Qed.

Lemma join_words ts : ts <> [] -> slash :: join ts = concat (map (cons slash) ts).
Proof.
  induction ts as [|t ts IH]; [done|]. intros _. destruct ts as [|t' ts].
  - cbn. by rewrite app_nil_r.
  - rewrite join_cons by done.
    change (concat (map (cons slash) (t :: t' :: ts))) with ((slash :: t) ++ concat (map (cons slash) (t' :: ts))).
    by rewrite <- IH by done.
Qed.

(** *** Percent-encoding *)

Lemma hex_value_digit n : 0 <= n < 16 -> hex_value (Base16.hex_digit true n) = Some n.
Proof.
  intros Hn.
  pose proof (forall_below 16
    (fun n => match hex_value (Base16.hex_digit true n) with Some x => x =? n | None => false end) n
    ltac:(reflexivity) Hn) as Hall. cbv beta in Hall.
  destruct (hex_value _); [|done]. by apply Z.eqb_eq in Hall as ->.
Qed.

Lemma escape_chars c : is_byte c -> must_escape c = false -> c <> 37 /\ c <> slash.
Proof.
  intros Hc He. pose proof (forall_byte (fun c => must_escape c || (negb (c =? 37) && negb (c =? slash))) c
    ltac:(reflexivity) Hc) as Hall. cbv beta in Hall. rewrite He in Hall. cbn in Hall. reflect_bools.
  unfold slash in *. lia.
Qed.

Section Percent.
Context `{ExtLaws}.

Definition escape (c : Z) : bytes := if must_escape c then 37 :: format_02X c else [c].

Lemma percentEncode_spec out s : percentEncode out s = out ++ concat (map escape s).
Proof.
  revert out. induction s as [|c s IH]; intros out; cbn [percentEncode map concat]; [by rewrite app_nil_r|].
  by rewrite IH, <- app_assoc.
Qed.

Lemma percentDecode_plain c s : c <> 37 -> percentDecode (c :: s) = c :: percentDecode s.
Proof.
  intros Hc. cbn [percentDecode]. destruct s as [|c1 [|c2 s]]; [done|done|].
  by rewrite (proj2 (Z.eqb_neq c 37)).
Qed.

Lemma percent_roundtrip s : bytes_ok s -> percentDecode (percentEncode [] s) = s.
Proof.
  intros Hs. rewrite percentEncode_spec. cbn [app]. induction Hs as [|c s Hc _ IH]; [done|].
  cbn [map concat]. unfold escape at 1. destruct (must_escape c) eqn:E.
  - rewrite format_byte by done. unfold Base16.hex_byte. cbn [app percentDecode Z.eqb Pos.eqb].
    unfold is_byte in Hc. rewrite !hex_value_digit by divlia. rewrite IH. f_equal.
    rewrite Z.lor_comm, (lor_disjoint _ _ 4), Z.shiftl_mul_pow2 by (rewrite ?Z.shiftl_mul_pow2 by lia; divlia).
    unfold u8. divlia.
  - apply escape_chars in E as [H37 _]; [|done]. cbn [app]. by rewrite percentDecode_plain, IH.
Qed.

Lemma percentEncode_text s : bytes_ok s -> s <> [] -> percentEncode [] s <> [] /\ no_slash (percentEncode [] s).
Proof.
  intros Hs Hne. rewrite percentEncode_spec. cbn [app]. split.
  - destruct s as [|c s]; [done|]. cbn. unfold escape. by destruct (must_escape c).
  - clear Hne. unfold no_slash. induction Hs as [|c s Hc _ IH]; [apply not_elem_of_nil|].
    cbn [map concat]. rewrite elem_of_app. intros [Hin|]; [|done]. revert Hin. unfold escape.
    destruct (must_escape c) eqn:E.
    + rewrite format_byte by done. unfold Base16.hex_byte, Base16.hex_digit, slash, is_byte in *.
      rewrite !elem_of_cons, elem_of_nil.
      destruct (Z.ltb_spec (c / 16) 10), (Z.ltb_spec (c mod 16) 10); divlia.
    + apply escape_chars in E as [_ Hsl]; [|done]. rewrite list_elem_of_singleton. congruence.
Qed.

Lemma percentDecode_nonempty s : s <> [] -> percentDecode s <> [].
Proof. destruct s as [|c s]; [done|]. intros _. cbn [percentDecode]. by repeat case_match. Qed.

Lemma percentDecode_escape c c1 c2 s :
  percentDecode (c :: c1 :: c2 :: s)
  = if c =? 37 then
      match hex_value c1, hex_value c2 with
      | Some x1, Some x2 => u8 (Z.lor (Z.shiftl x1 4) x2) :: percentDecode s
      | _, _ => c :: percentDecode (c1 :: c2 :: s)
      end
    else c :: percentDecode (c1 :: c2 :: s).
Proof. done. Qed.

Lemma percentDecode_bytes s : bytes_ok s -> bytes_ok (percentDecode s).
Proof.
  remember (length s) as n eqn:Hn. revert s Hn. induction (lt_wf n) as [n _ IH]. intros s -> Hs.
  destruct s as [|c s]; [done|]. apply Forall_cons in Hs as [Hc Hs].
  assert (bytes_ok (c :: percentDecode s)) as Hplain.
  { constructor; [done|]. by apply (IH (length s)); [cbn; lia| |]. }
  destruct s as [|c1 [|c2 s]]; [done|done|]. rewrite percentDecode_escape. destruct (c =? 37); [|done].
  destruct (hex_value c1), (hex_value c2); try done. constructor; [apply is_byte_u8|].
  do 2 apply Forall_cons in Hs as [_ Hs]. by apply (IH (length s)); [cbn; lia| |].
Qed.
End Percent.

(** *** Values *)

Lemma of_uint64_prefix v rest :
  is_u64 v -> bytes_ok rest ->
  uvar (UVarint.of_uint64 v ++ rest) = success (v, rest) /\ bytes_ok (UVarint.of_uint64 v)
  /\ UVarint.of_uint64 v <> [].
Proof.
  intros Hv Hr. destruct (EncodeVarint_ok v Hv) as (l & Hl & _ & _ & Hok & Hsp).
  rewrite (of_uint64_encode v l Hl). destruct (uvarint_prefix v l rest Hv Hl Hr) as (Hc & _ & Hval & _).
  split_and!; [|done|by intros ->]. unfold uvar. by rewrite Hc, Hval, drop_app_length.
Qed.

Lemma read_app data rest : read (Z.of_nat (length data)) (data ++ rest) = success (data, rest).
Proof.
  unfold read. rewrite length_app. destruct (Z.ltb_spec (Z.of_nat (length data + length rest)) (Z.of_nat (length data))); [lia|].
  by rewrite Nat2Z.id, take_app_length, drop_app_length.
Qed.

Lemma read_uvar_app data rest :
  Z.of_nat (length data) < 2 ^ 64 -> bytes_ok data -> bytes_ok rest ->
  read_uvar (UVarint.of_uint64 (Z.of_nat (length data)) ++ data ++ rest) = success (data, rest).
Proof.
  intros Hl Hd Hr. unfold read_uvar.
  destruct (of_uint64_prefix (Z.of_nat (length data)) (data ++ rest)) as (-> & _);
    [unfold is_u64; lia|by apply bytes_ok_app|]. apply read_app.
Qed.

Lemma port_bytes n : 0 <= n <= 65535 -> putUint16BE [] (u16 n) = [n / 256; n mod 256].
Proof.
  intros Hn. unfold putUint16BE, putUint8, u16. cbn [app]. rewrite byte_at_div by lia.
  rewrite (Z.mod_small n) by lia. change (2 ^ 8) with 256. rewrite (Z.mod_small (n / 256)) by divlia. done.
Qed.

Lemma value_bytes_length p v : (length v <= length (value_bytes p v))%nat.
Proof. unfold value_bytes. case_match; rewrite ?length_app; lia. Qed.

Lemma udp_is_tcp addr : UdpConverter_addressToBytes addr = TcpConverter_addressToBytes addr.
Proof. done. Qed.

Section Values.
Context `{ExtLaws, Hex}.

Lemma port_sound addr b : TcpConverter_addressToBytes addr = success b -> bytes_ok b /\ length b = 2%nat.
Proof.
  unfold TcpConverter_addressToBytes. case_match; [done|]. case_match; [|done]. case_match eqn:E; [|done].
  reflect_bools. intros [= <-]. rewrite port_bytes by lia. split; [|done].
  repeat constructor; unfold is_byte; divlia.
Qed.

Lemma addressToBytes_sound p w b :
  bytes_ok w -> w <> [] -> no_slash w -> Z.of_nat (length b) < 2 ^ 64 ->
  addressToBytes p w = success b -> exists v, value_ok p v /\ b = value_bytes p v.
Proof.
  intros Hw Hne Hs Hb Ha.
  assert (forall v, bytes_ok v ->
    match code p with
    | IP4 => length v = 4%nat | IP6 => length v = 16%nat | TCP | UDP => length v = 2%nat | P2P => True
    | DNS | DNS4 | DNS6 | DNS_ADDR | UNIX => v <> [] /\ slash ∉ v
    | X_PARITY_WS | X_PARITY_WSS => v <> [] | _ => False end ->
    b = value_bytes p v -> exists v, value_ok p v /\ b = value_bytes p v) as Hex.
  { intros v Hv Hc ->. exists v. split; [|done]. split_and!; [done| |done].
    pose proof (value_bytes_length p v). lia. }
  unfold addressToBytes in Ha. unfold value_bytes in Hex |- *.
  destruct (code p); try discriminate; cbn [fixed_size] in Hex; rewrite ?udp_is_tcp in Ha;
    try (apply port_sound in Ha as [? ?]; by apply (Hex b));
    try (unfold DnsConverter_addressToBytes in Ha; injection Ha as <-; by apply (Hex w)).
  - unfold IPv4Converter_addressToBytes, ip_result in Ha. case_match eqn:E; [|done]. simplify_eq.
    apply v4_bytes in E as [? ?]. by apply (Hex b).
  - unfold IPv6Converter_addressToBytes, ip_result in Ha. case_match eqn:E; [|done]. simplify_eq.
    apply v6_bytes in E as [? ?]. by apply (Hex b).
  - unfold IpfsConverter_addressToBytes in Ha. case_match eqn:E; [|done]. case_match; [|done]. simplify_eq.
    unfold Multibase.decode in E. case_decide; [done|]. cbn in E.
    apply (Hex a); [|done|done]. unfold Multibase.base_result in E.
    destruct (decodeBase58 w) as [d|] eqn:Ed; [|done]. simplify_eq. by eapply decodeBase58_bytes.
  - injection Ha as <-. apply (Hex (percentDecode w)); [by apply percentDecode_bytes|by apply percentDecode_nonempty|done].
  - injection Ha as <-. apply (Hex (percentDecode w)); [by apply percentDecode_bytes|by apply percentDecode_nonempty|done].
Qed.

Lemma no_slash_chars (f : Z -> bool) s : f slash = false -> Forall (fun c => f c = true) s -> no_slash s.
Proof. intros Hf Hs Hin. eapply Forall_forall in Hs; [|exact Hin]. congruence. Qed.

Lemma port_complete v :
  bytes_ok v -> length v = 2%nat ->
  TcpConverter_addressToBytes (to_string (load_big_u16 v)) = success v
  /\ to_string (load_big_u16 v) <> [] /\ Forall (fun c => isdigit c = true) (to_string (load_big_u16 v)).
Proof.
  intros Hv Hl. destruct v as [|a [|b [|]]]; try done. rewrite load_big.
  apply Forall_cons in Hv as [Ha Hv]. apply Forall_cons in Hv as [Hb _]. unfold is_byte in *.
  destruct (to_string_spec (256 * a + b) ltac:(lia)) as (Hne & Hd & _). split_and!; [|done|done].
  unfold TcpConverter_addressToBytes.
  replace (existsb _ _) with false.
  - destruct (port_text (256 * a + b) ltac:(lia)) as [-> _].
    rewrite (proj2 (Z.leb_le 0 _)), (proj2 (Z.leb_le _ 65535)), port_bytes by lia. cbn [andb].
    do 2 f_equal; [|f_equal]; divlia.
  - symmetry. apply not_true_iff_false. intros Hex. apply existsb_exists in Hex as (c & Hin & Hc).
    apply list_elem_of_In in Hin. eapply Forall_forall in Hd; [|exact Hin]. cbv beta in Hd. by rewrite Hd in Hc.
Qed.

Lemma base58_text v : bytes_ok v -> v <> [] -> encodeBase58 v <> [] /\ alphabet_string (encodeBase58 v).
Proof.
  intros Hv Hne. split.
  - intros Hn. pose proof (base58_decode_encode v Hv) as Hrt. rewrite Hn in Hrt. by injection Hrt as <-.
  - destruct (encodeBase58_spec v Hv) as (ds & -> & Hd & _). apply Forall_app. split.
    + apply Forall_replicate. vm_compute. left.
    + apply Forall_map. eapply Forall_impl; [exact Hd|]. intros d Hr. cbv beta in Hr |- *.
      apply list_elem_of_In, nth_In. change (length pszBase58) with 58%nat. lia.
Qed.

Definition dense (s : bytes) : Prop := s <> [] /\ no_slash s.

Lemma alphabet_no_slash s : alphabet_string s -> no_slash s.
Proof.
  intros Hs Hin. eapply Forall_forall in Hs; [|exact Hin]. cbv beta in Hs.
  assert (forallb (fun c => negb (c =? slash)) pszBase58 = true) as Hall by reflexivity.
  by apply no_slash_forallb in Hall.
Qed.

Lemma p2p_complete v :
  bytes_ok v -> v <> [] ->
  IpfsConverter_addressToBytes (encodeBase58 v) = success (UVarint.of_uint64 (Z.of_nat (length v)) ++ v)
  /\ dense (encodeBase58 v).
Proof.
  intros Hv Hne. destruct (base58_text v Hv Hne) as [Ht Ha]. split; [|by split; [|apply alphabet_no_slash]].
  unfold IpfsConverter_addressToBytes, Multibase.decode.
  rewrite decide_False by (destruct (encodeBase58 v); [done|cbn; lia]).
  rewrite Multibase.encodingByChar_char. cbn [Multibase.codec_decode].
  by rewrite base58_decode_encode.
Qed.

Lemma addressToBytes_complete p v :
  value_ok p v -> printable (p, v) = true -> (code p = P2P -> v <> []) ->
  addressToBytes p (value_text p v) = success (value_bytes p v) /\ dense (value_text p v).
Proof.
  intros (Hv & Hl & Hc) Hp Hpeer. unfold addressToBytes, value_text, value_bytes, printable in *. cbn [fst snd] in Hp.
  destruct (code p); try done; cbn [fixed_size].
  - destruct (v4_text v Hv Hc) as [Hne Hch]. split; [|split; [done|by apply (no_slash_chars ip4_char)]].
    unfold IPv4Converter_addressToBytes, ip_result. by rewrite v4_parse_print.
  - destruct (port_complete v Hv Hc) as (-> & Hne & Hd). by split; [|split; [|apply (no_slash_chars isdigit)]].
  - rewrite udp_is_tcp. destruct (port_complete v Hv Hc) as (-> & Hne & Hd).
    by split; [|split; [|apply (no_slash_chars isdigit)]].
  - destruct (v6_text v Hv Hc) as [Hin Hch].
    split; [|split; [by intros Hn; rewrite Hn in Hin; apply elem_of_nil in Hin|by apply (no_slash_chars ip6_char)]].
    unfold IPv6Converter_addressToBytes, ip_result. by rewrite v6_parse_print.
  - apply p2p_complete; [done|by apply Hpeer].
  - split; [by rewrite percent_roundtrip|by apply percentEncode_text].
  - split; [by rewrite percent_roundtrip|by apply percentEncode_text].
Qed.

(** What the printer makes of a value. *)
Definition print_error (c : Code) : ConversionError :=
  match c with UNIX => NOT_IMPLEMENTED | _ => INVALID_ADDRESS end.

Lemma print_value_spec p v rest :
  value_ok p v -> bytes_ok rest ->
  print_value p (value_bytes p v ++ rest)
  = if printable (p, v) then success (value_text p v, rest) else failure (print_error (code p)).
Proof.
  intros (Hv & Hl & Hc) Hr. unfold print_value, value_bytes, value_text, printable. cbn [fst snd].
  destruct (code p); try done; cbn [fixed_size print_error]; rewrite <- ?app_assoc;
    try (rewrite read_uvar_app by done; by destruct (forallb dns_char v)).
  - change 4 with (Z.of_nat 4). by rewrite <- Hc, read_app.
  - change 2 with (Z.of_nat 2). by rewrite <- Hc, read_app.
  - change 2 with (Z.of_nat 2). by rewrite <- Hc, read_app.
  - change 16 with (Z.of_nat 16). by rewrite <- Hc, read_app.
Qed.
End Values.

(** *** Whole addresses *)

Lemma join_Forall (P : Z -> Prop) ts : Forall P (join ts) -> Forall (Forall P) ts.
Proof.
  induction ts as [|t ts IH]; [constructor|]. destruct ts as [|t' ts].
  - cbn. intros Ht. by repeat constructor.
  - rewrite join_cons by done. rewrite Forall_app, Forall_cons. intros (Ht & _ & Hts). constructor; [done|by apply IH].
Qed.

Lemma addr_bytes_cons c cs : addr_bytes (c :: cs) = component_bytes c ++ addr_bytes cs.
Proof. done. Qed.

Lemma component_bytes_ok c : component_ok c -> bytes_ok (component_bytes c) /\ component_bytes c <> [].
Proof.
  intros [Hp Hv]. destruct c as [p v]. cbn [fst snd] in *. destruct (table_ok p Hp) as (_ & _ & Hu & _).
  destruct (of_uint64_prefix (code_value (code p)) [] Hu ltac:(constructor)) as (_ & Hok & Hne).
  unfold component_bytes. cbn [fst snd]. split.
  - apply bytes_ok_app. split; [done|]. destruct (size p =? 0); [constructor|].
    destruct Hv as (Hv & Hl & _). unfold value_bytes. case_match; [done|]. apply bytes_ok_app. split; [|done].
    apply (of_uint64_prefix _ []); [unfold is_u64; lia|constructor].
  - intros Hn. by apply app_nil in Hn as [? _].
Qed.

Lemma addr_bytes_ok cs : Forall component_ok cs -> bytes_ok (addr_bytes cs) /\ (length cs <= length (addr_bytes cs))%nat.
Proof.
  induction 1 as [|c cs Hc _ [IH1 IH2]]; [split; [constructor|done]|]. rewrite addr_bytes_cons.
  destruct (component_bytes_ok c Hc) as [Hok Hne]. rewrite length_app. split; [by apply bytes_ok_app|].
  cbn [length]. destruct (component_bytes c); [done|]. cbn [length]. lia.
Qed.

Section Addresses.
Context `{ExtLaws, Hex}.

Lemma words_sound tokens type acc b :
  Forall (fun t => bytes_ok t /\ no_slash t) tokens -> Z.of_nat (length b) < 2 ^ 64 ->
  words_loop tokens type acc = success b ->
  match type with
  | PROTOCOL => exists cs, Forall component_ok cs /\ b = acc ++ addr_bytes cs /\ (tokens <> [] -> cs <> [])
  | ADDRESS p => exists v cs, value_ok p v /\ Forall component_ok cs /\ b = acc ++ value_bytes p v ++ addr_bytes cs
  end.
Proof.
  intros Ht Hb. revert type acc. induction Ht as [|w tokens [Hok Hs] _ IH]; intros type acc; cbn [words_loop].
  - destruct type; [|done]. intros [= <-]. exists []. split_and!; [constructor|by rewrite app_nil_r|done].
  - destruct type as [|p].
    + destruct (decide (w = [])); [done|]. destruct (get_by_name w) as [p|] eqn:E; [|done].
      apply get_by_name_in in E. intros Hw. apply IH in Hw. destruct (size p =? 0) eqn:Hz.
      * destruct Hw as (cs & Hcs & -> & _). exists ((p, []) :: cs). split_and!; [|by rewrite addr_bytes_cons, app_assoc; unfold component_bytes; cbn [fst snd]; rewrite Hz, app_nil_r|done].
        constructor; [|done]. split; cbn [fst snd]; [done|by rewrite Hz].
      * destruct Hw as (v & cs & Hv & Hcs & ->). exists ((p, v) :: cs). split_and!; [|by rewrite addr_bytes_cons, app_assoc; unfold component_bytes; cbn [fst snd]; rewrite Hz, <- !app_assoc|done].
        constructor; [|done]. split; cbn [fst snd]; [done|by rewrite Hz].
    + destruct (decide (w = [])); [done|]. destruct (addressToBytes p w) as [vb|] eqn:E; [|done].
      intros Hw. apply IH in Hw as (cs & Hcs & -> & _).
      apply addressToBytes_sound in E as (v & Hv & ->); [|done|done|done|].
      * exists v, cs. by rewrite <- app_assoc.
      * rewrite !length_app in Hb. lia.
Qed.

Definition named (c : component) : Prop := code c.1 = P2P -> c.2 <> [].
(** A component that [create] can print so that it is read again. *)
Definition good (c : component) : Prop := component_ok c /\ printable c = true /\ named c.

Lemma words_complete cs acc :
  Forall good cs ->
  words_loop (concat (map component_words cs)) PROTOCOL acc = success (acc ++ addr_bytes cs)
  /\ Forall dense (concat (map component_words cs)).
Proof.
  intros Hcs. revert acc. induction Hcs as [|[p v] cs (Hok & Hpr & Hnm) _ IH]; intros acc.
  - cbn. rewrite app_nil_r. split; [done|constructor].
  - destruct Hok as [Hp Hv]. cbn [fst snd] in Hp, Hv.
    destruct (table_ok p Hp) as (Hget & _ & _ & Hs & Hne).
    cbn [map concat]. unfold component_words at 1 3. rewrite addr_bytes_cons. unfold component_bytes.
    cbn [fst snd]. destruct (size p =? 0) eqn:Hz.
    + cbn [app words_loop]. rewrite decide_False, Hget, Hz by done.
      destruct (IH (acc ++ UVarint.of_uint64 (code_value (code p)))) as [-> Hd].
      split; [by rewrite app_nil_r, <- app_assoc|by constructor].
    + destruct (addressToBytes_complete p v Hv Hpr Hnm) as [Ha [Hne' Hs']].
      cbn [app words_loop]. rewrite decide_False, Hget, Hz by done. rewrite decide_False, Ha by done.
      destruct (IH ((acc ++ UVarint.of_uint64 (code_value (code p))) ++ value_bytes p v)) as [-> Hd].
      split; [by rewrite <- !app_assoc|]. constructor; [done|]. by constructor.
Qed.

Lemma print_loop_spec fuel cs results :
  Forall component_ok cs -> (length cs <= fuel)%nat ->
  print_loop fuel (addr_bytes cs) results
  = Some (match List.find (fun c => negb (printable c)) cs with
          | None => success (results ++ addr_text cs)
          | Some c => failure (print_error (code c.1))
          end).
Proof.
  intros Hcs. revert fuel results. induction Hcs as [|[p v] cs Hc Hcs IH]; intros fuel results Hf.
  - cbn. rewrite app_nil_r. by destruct fuel.
  - destruct fuel as [|fuel]; [cbn in Hf; lia|]. cbn [length] in Hf.
    destruct (component_bytes_ok _ Hc) as [_ Hne]. destruct (addr_bytes_ok cs Hcs) as [Hrest _].
    destruct Hc as [Hp Hv]. cbn [fst snd] in Hp, Hv. destruct (table_ok p Hp) as (_ & Hget & Hu & _).
    assert (bytes_ok (if size p =? 0 then [] else value_bytes p v)) as Hvb.
    { destruct (size p =? 0) eqn:Hz; [constructor|].
      assert (component_ok (p, v)) as Hc by (split; cbn [fst snd]; [done|by rewrite Hz]).
      apply component_bytes_ok in Hc as [Hc _]. unfold component_bytes in Hc. cbn [fst snd] in Hc.
      rewrite Hz in Hc. by apply bytes_ok_app in Hc as [_ ?]. }
    assert (addr_bytes ((p, v) :: cs) <> []) as Hne' by (rewrite addr_bytes_cons; intros Hn; by apply app_nil in Hn as [? _]).
    destruct (addr_bytes ((p, v) :: cs)) as [|b0 bs0] eqn:Eb; [done|]. cbn [print_loop]. rewrite <- Eb.
    rewrite addr_bytes_cons. unfold component_bytes. cbn [fst snd]. rewrite <- app_assoc.
    destruct (of_uint64_prefix (code_value (code p)) ((if size p =? 0 then [] else value_bytes p v) ++ addr_bytes cs) Hu)
      as (-> & _); [by apply bytes_ok_app|].
    rewrite Hget. cbn [List.find]. unfold addr_text. cbn [map concat]. unfold component_text at 1, component_words at 1.
    cbn [fst snd]. destruct (size p =? 0) eqn:Hz.
    + cbn [app]. rewrite IH by lia.
      replace (printable (p, v)) with true.
      * cbn [negb]. destruct (List.find _ cs); [done|]. cbn [map concat app]. rewrite app_nil_r, <- app_assoc. done.
      * by rewrite flag_printable.
    + rewrite print_value_spec by done. destruct (printable (p, v)); [|done]. cbn [negb].
      rewrite IH by lia. destruct (List.find _ cs); [done|]. cbn [map concat app].
      rewrite app_nil_r, <- !app_assoc. done.
Qed.
End Addresses.

(** *** The printer returns *)

Lemma uvar_shorter bs v rest : uvar bs = success (v, rest) -> (length rest < length bs)%nat.
Proof.
  destruct bs as [|b bs]; [done|]. unfold uvar, UVarint.create. case_match eqn:E; [|done].
  case_decide as Hs; [|done]. simplify_eq. intros [= _ <-]. rewrite length_drop, length_take. cbn [length]. lia.
Qed.

Lemma read_shorter n bs data rest : read n bs = success (data, rest) -> (length rest <= length bs)%nat.
Proof. unfold read. case_match; [done|]. intros [= _ <-]. rewrite length_drop. lia. Qed.

Lemma read_uvar_shorter bs data rest : read_uvar bs = success (data, rest) -> (length rest <= length bs)%nat.
Proof.
  unfold read_uvar. destruct (uvar bs) as [[n bs']|] eqn:E; [|done]. intros Hr. apply read_shorter in Hr.
  apply uvar_shorter in E. lia.
Qed.

Section Total.
Context `{Ext}.

Lemma print_value_shorter p bs text rest :
  print_value p bs = success (text, rest) -> (length rest <= length bs)%nat.
Proof.
  unfold print_value. intros Hp.
  destruct (code p); try done;
    repeat match type of Hp with
    | context [match read_uvar bs with _ => _ end] =>
        destruct (read_uvar bs) as [[]|] eqn:E; [apply read_uvar_shorter in E|done]
    | context [match read ?n bs with _ => _ end] =>
        destruct (read n bs) as [[]|] eqn:E; [apply read_shorter in E|done]
    | context [if ?b then _ else _] => destruct b; [|done]
    end; by simplify_eq.
Qed.

Lemma print_loop_total fuel bs results : (length bs <= fuel)%nat -> is_Some (print_loop fuel bs results).
Proof.
  revert bs results. induction fuel as [|fuel IH]; intros bs results Hl; destruct bs as [|b bs]; cbn [print_loop].
  - by eexists.
  - cbn in Hl. lia.
  - by eexists.
  - destruct (uvar (b :: bs)) as [[n rest]|] eqn:E; [|by eexists]. apply uvar_shorter in E as Hr. cbn [length] in Hl, Hr.
    destruct (get_by_code n) as [p|]; [|by eexists]. destruct (size p =? 0); [apply IH; lia|].
    destruct (print_value p rest) as [[t rest']|] eqn:Ep; [|by eexists].
    apply print_value_shorter in Ep. apply IH. lia.
Qed.
End Total.

(** *** From text to components and back *)

Section Text_laws.
Context `{ExtLaws, Hex}.

Definition addr_words (cs : list component) : list bytes := concat (map component_words cs).

Lemma addr_text_words cs : addr_text cs = concat (map (cons slash) (addr_words cs)).
Proof.
  unfold addr_text, addr_words. induction cs as [|c cs IH]; [done|]. cbn [map concat].
  rewrite map_app, concat_app, <- IH. done.
Qed.

Lemma addr_words_nonempty cs : cs <> [] -> addr_words cs <> [].
Proof. by destruct cs. Qed.

Lemma dense_last ws : ws <> [] -> Forall dense ws -> exists c, last (join ws) = Some c /\ c <> slash.
Proof.
  intros Hne Hws. induction Hws as [|w ws [Hw Hs] Hws IH]; [done|]. destruct ws as [|w' ws].
  - cbn [join]. destruct (last w) as [c|] eqn:E; [|by apply last_None in E]. exists c. split; [done|].
    intros ->. apply Hs. by apply last_Some_elem_of.
  - rewrite join_cons by done. destruct IH as (c & Hc & Hcs); [done|]. exists c. split; [|done].
    by rewrite last_app_cons, last_cons, Hc.
Qed.

Lemma addr_text_parse cs : cs <> [] -> Forall good cs -> multiaddrToBytes (addr_text cs) = success (addr_bytes cs).
Proof.
  intros Hne Hcs. destruct (words_complete cs [] Hcs) as [Hw Hd]. fold (addr_words cs) in Hw, Hd.
  pose proof (addr_words_nonempty cs Hne) as Hwne. destruct (dense_last _ Hwne Hd) as (c & Hc & Hcs').
  rewrite addr_text_words, <- join_words by done. unfold multiaddrToBytes. cbn [Z.eqb Pos.eqb slash negb].
  rewrite decide_False by (intros Hn; by rewrite Hn in Hc).
  unfold drop_last_slash. rewrite bool_decide_false by congruence.
  rewrite split_words; [done|done|]. eapply Forall_impl; [exact Hd|]. by intros ? [].
Qed.

Lemma multiaddr_components s b :
  bytes_ok s -> Z.of_nat (length b) < 2 ^ 64 -> multiaddrToBytes s = success b ->
  exists cs, cs <> [] /\ Forall component_ok cs /\ b = addr_bytes cs.
Proof.
  intros Hs Hb. unfold multiaddrToBytes. destruct s as [|c s]; [done|]. case_match; [done|]. case_decide; [done|].
  intros Hw. apply words_sound in Hw as (cs & Hcs & -> & Hne).
  - exists cs. split_and!; [by apply Hne, split_nonempty|done|done].
  - apply Forall_and. split; [|apply split_tokens]. apply join_Forall. rewrite split_join.
    apply Forall_cons in Hs as [_ Hs]. unfold drop_last_slash. case_bool_decide; [by apply Forall_take|done].
  - done.
Qed.

Definition print_outcome (cs : list component) : outcome ConversionError bytes :=
  match List.find (fun c => negb (printable c)) cs with
  | None => success (addr_text cs)
  | Some c => failure (print_error (code c.1))
  end.

Lemma print_components cs :
  Forall component_ok cs -> bytesToMultiaddrString (addr_bytes cs) = Some (print_outcome cs).
Proof.
  intros Hcs. unfold bytesToMultiaddrString. rewrite print_loop_spec; [done|done|]. by apply addr_bytes_ok.
Qed.

Lemma all_printable cs : Forall good cs -> print_outcome cs = success (addr_text cs).
Proof.
  intros Hcs. unfold print_outcome. replace (List.find _ cs) with (@None component); [done|].
  induction Hcs as [|c cs (_ & Hp & _) _ IH]; [done|]. cbn. by rewrite Hp.
Qed.
End Text_laws.
