(* ===== verification/MultiaddrPlain.v ===== *)
(** * A concrete instance of the libraries used by the address code

    Dotted decimal, eight groups of four hexadecimal digits, and a splitter; the
    witnesses of [Multiaddress.v] run on it. *)

From S2P Require Import Prelude ByteUtil Multibase MultiaddrCodec.
Import (hints) Multibase.Multibase.

Module Plain.

Definition octet (s : bytes) : option Z :=
  if decide (s = []) then None else if digits_value s <=? 255 then Some (digits_value s) else None.

Definition print_v4 (b : bytes) : bytes :=
  match b with
  | [x; y; z; w] => to_string x ++ 46 :: to_string y ++ 46 :: to_string z ++ 46 :: to_string w
  | _ => []
  end.
Fixpoint parse_octets (n : nat) (s : bytes) : option bytes :=
  let p := digit_prefix s in
  x ← octet p;
  match n, drop (length p) s with
  | O, [] => Some [x]
  | S n, 46 :: s => cons x <$> parse_octets n s
  | _, _ => None
  end.

Fixpoint print_groups (b : bytes) : bytes :=
  match b with
  | x :: y :: rest =>
      Base16.hex_byte false x ++ Base16.hex_byte false y
        ++ (if decide (rest = []) then [] else 58 :: print_groups rest)
  | _ => []
  end.
Fixpoint parse_groups (n : nat) (s : bytes) : option bytes :=
  match s with
  | a :: b :: c :: d :: rest =>
      g ← Multibase.unhex_pairs [a; b; c; d];
      match n, rest with
      | O, [] => Some (map u8 g)
      | S n, 58 :: rest => app (map u8 g) <$> parse_groups n rest
      | _, _ => None
      end
  | _ => None
  end.

Fixpoint split (s : bytes) : list bytes :=
  match s with
  | [] => [[]]
  | c :: s =>
      if c =? slash then [] :: split s
      else match split s with t :: ts => (c :: t) :: ts | [] => [[c]] end
  end.

#[export] Instance plain_ext : Ext := {|
  make_address_v4 := parse_octets 3;
  v4_to_string := print_v4;
  make_address_v6 := parse_groups 7;
  v6_to_string := print_groups;
  split_slash := split;
  load_big_u16 bs := match bs with [a; b] => 256 * a + b | _ => 0 end;
  format_02X := Base16.hex_byte true
|}.

Lemma digit_prefix_app p c s :
  Forall (fun c => isdigit c = true) p -> isdigit c = false -> digit_prefix (p ++ c :: s) = p.
Proof. intros Hp Hc. induction Hp as [|d p Hd _ IH]; cbn; [by rewrite Hc|]. by rewrite Hd, IH. Qed.

Lemma octet_spec x : is_byte x -> octet (to_string x) = Some x.
Proof.
  intros Hx. unfold is_byte in Hx. destruct (to_string_spec x ltac:(lia)) as (Hne & _ & Hv). unfold octet.
  rewrite decide_False, Hv by done. by rewrite (proj2 (Z.leb_le x 255)) by lia.
Qed.

Lemma parse_octet_step n x s : is_byte x -> parse_octets (S n) (to_string x ++ 46 :: s) = cons x <$> parse_octets n s.
Proof.
  intros Hx. pose proof Hx as Hx'. unfold is_byte in Hx'. destruct (to_string_spec x ltac:(lia)) as (_ & Hd & _).
  cbn [parse_octets]. rewrite digit_prefix_app, octet_spec, drop_app_length by done. done.
Qed.

Lemma parse_octets_shape n s b : parse_octets n s = Some b -> bytes_ok b /\ length b = S n.
Proof.
  assert (forall p x, octet p = Some x -> Forall (fun c => isdigit c = true) p -> is_byte x) as Hoct.
  { unfold octet. intros p x. case_decide; [done|]. case_match; [|done]. intros [= <-] Hd. reflect_bools.
    assert (forall p v, 0 <= v -> Forall (fun c => isdigit c = true) p -> 0 <= foldl (fun v c => v * 10 + (c - 48)) v p) as Hpos.
    { clear. intros p v Hv Hp. revert v Hv. induction Hp as [|c p Hc _ IH]; intros v Hv; [done|]. cbn. apply IH.
      unfold isdigit in Hc. lia. }
    pose proof (Hpos p 0 ltac:(lia) Hd). unfold is_byte, digits_value in *. lia. }
  assert (forall s, Forall (fun c => isdigit c = true) (digit_prefix s)) as Hpre.
  { clear. induction s as [|c s IH]; cbn; [constructor|]. destruct (isdigit c) eqn:E; by constructor. }
  revert s b. induction n as [|n IH]; intros s b; cbn [parse_octets];
    destruct (octet (digit_prefix s)) as [x|] eqn:E; cbn [mbind option_bind]; try done;
    apply Hoct in E; [|apply Hpre| |apply Hpre].
  - case_match; [|done]. intros [= <-]. split; [constructor; [done|constructor]|done].
  - destruct (drop _ s) as [|c s']; [done|]. destruct (decide (c = 46)) as [->|Hc].
    + destruct (parse_octets n s') as [b'|] eqn:Eb; [|done]. intros [= <-]. apply IH in Eb as [? ?].
      split; [by constructor|cbn; lia].
    + intros Hb. exfalso. revert Hb. repeat (case_match; try done).
Qed.

Lemma print_v4_spec b :
  bytes_ok b -> length b = 4%nat ->
  parse_octets 3 (print_v4 b) = Some b
  /\ print_v4 b <> [] /\ Forall (fun c => ip4_char c = true) (print_v4 b).
Proof.
  intros Hb Hl. destruct b as [|x [|y [|z [|w [|]]]]]; try done. rewrite !Forall_cons in Hb.
  destruct Hb as (Hx & Hy & Hz & Hw & _).
  assert (forall v, is_byte v -> to_string v <> [] /\ Forall (fun c => isdigit c = true) (to_string v)) as Hts.
  { intros v Hv. unfold is_byte in Hv. by destruct (to_string_spec v ltac:(lia)) as (? & ? & _). }
  assert (forall v, is_byte v -> Forall (fun c => ip4_char c = true) (to_string v)) as Hchars.
  { intros v Hv. eapply Forall_impl; [by apply Hts|]. intros c Hc. unfold ip4_char. cbv beta in Hc. by rewrite Hc. }
  cbn [print_v4]. split_and!.
  - rewrite !parse_octet_step by done. cbn [parse_octets]. rewrite digit_prefix_all by by apply Hts.
    by rewrite octet_spec, drop_all.
  - intros Hn. apply app_nil in Hn as [Hn _]. by destruct (Hts x Hx).
  - rewrite !Forall_app, !Forall_cons, !Forall_app, !Forall_cons, !Forall_app, !Forall_cons. split_and!; auto.
Qed.

Lemma hex_pairs x y :
  is_byte x -> is_byte y ->
  Multibase.unhex_pairs (Base16.hex_byte false x ++ Base16.hex_byte false y) = Some [x; y].
Proof.
  intros Hx Hy. pose proof (Base16.unhex_hex false [x; y]) as Hh. cbn in Hh. apply Hh. repeat (constructor; [done|]); constructor.
Qed.

Lemma print_groups_spec n b :
  bytes_ok b -> length b = (2 * S n)%nat ->
  parse_groups n (print_groups b) = Some b /\ Forall (fun c => ip6_char c = true) (print_groups b)
  /\ (n <> 0%nat -> 58 ∈ print_groups b).
Proof.
  revert b. induction n as [|n IH]; intros b Hb Hl; destruct b as [|x [|y rest]]; try (cbn in Hl; lia);
    rewrite !Forall_cons in Hb; destruct Hb as (Hx & Hy & Hrest); pose proof (hex_pairs x y Hx Hy) as Hxy;
    assert (map u8 [x; y] = [x; y]) as Hu by (cbn; by rewrite !u8_id by done);
    assert (forall v, is_byte v -> Forall (fun c => ip6_char c = true) (Base16.hex_byte false v)) as Hch
      by (intros v Hv; repeat constructor; pose proof (forall_byte (fun v =>
            ip6_char (Base16.hex_digit false (v / 16)) && ip6_char (Base16.hex_digit false (v mod 16))) v
            ltac:(reflexivity) Hv) as Hall; cbv beta in Hall; by apply andb_true_iff in Hall as []).
  - destruct rest; [|cbn in Hl; lia]. cbn [print_groups]. rewrite decide_True by done. rewrite app_nil_r.
    split_and!; [|by apply Forall_app; split; apply Hch|done].
    unfold Base16.hex_byte in *. cbn [app] in *. cbn [parse_groups]. rewrite Hxy. cbn [mbind option_bind]. by rewrite Hu.
  - assert (length rest = (2 * S n)%nat) as Hlr by (cbn [length] in Hl; lia).
    destruct (IH rest Hrest Hlr) as (Hp & Hc & _). cbn [print_groups].
    rewrite decide_False by (intros ->; cbn in Hlr; lia). split_and!.
    + unfold Base16.hex_byte in *. cbn [app] in *. cbn [parse_groups]. rewrite Hxy. cbn [mbind option_bind].
      by rewrite Hp, Hu.
    + rewrite !Forall_app, Forall_cons. split_and!; [by apply Hch|by apply Hch|done|done].
    + intros _. rewrite !elem_of_app. right. right. left.
Qed.

Lemma parse_groups_shape n s b : parse_groups n s = Some b -> bytes_ok b /\ length b = (2 * S n)%nat.
Proof.
  assert (forall a b c d g, Multibase.unhex_pairs [a; b; c; d] = Some g -> length g = 2%nat) as Hg.
  { intros a b0 c d g. cbn [Multibase.unhex_pairs].
    destruct (Multibase.unhex_digit a), (Multibase.unhex_digit b0), (Multibase.unhex_digit c), (Multibase.unhex_digit d);
      intros; by simplify_eq/=. }
  assert (forall g : bytes, bytes_ok (map u8 g)) as Hu.
  { induction g; cbn; constructor; [apply is_byte_u8|done]. }
  revert s b. induction n as [|n IH]; intros s b; cbn [parse_groups];
    destruct s as [|x [|y [|z [|w s]]]]; try done;
    destruct (Multibase.unhex_pairs [x; y; z; w]) as [g|] eqn:E; cbn [mbind option_bind]; try done; apply Hg in E.
  - case_match; [|done]. intros [= <-]. by rewrite length_map.
  - destruct s as [|c s]; [done|]. destruct (decide (c = 58)) as [->|Hc].
    + destruct (parse_groups n s) as [b'|] eqn:Eb; [|done]. intros [= <-]. apply IH in Eb as [? ?].
      rewrite length_app, length_map. split; [by apply bytes_ok_app|lia].
    + intros Hb. exfalso. revert Hb. repeat (case_match; try done).
Qed.

Lemma split_spec s :
  join (split s) = s /\ split s <> [] /\ Forall (fun t => slash ∉ t) (split s).
Proof.
  induction s as [|c s (IHj & IHn & IHt)]; cbn [split].
  - split_and!; [done|done|]. repeat constructor. apply not_elem_of_nil.
  - destruct (Z.eqb_spec c slash) as [->|Hc].
    + split_and!; [|done|by constructor; [apply not_elem_of_nil|]].
      rewrite join_cons by done. by rewrite IHj.
    + destruct (split s) as [|t ts]; [done|]. apply Forall_cons in IHt as [Ht Hts]. split_and!; [|done|].
      * destruct ts as [|t' ts]; [by cbn in *; rewrite IHj|]. rewrite join_cons in IHj |- * by done. cbn [app]. by rewrite IHj.
      * constructor; [|done]. rewrite not_elem_of_cons. split; congruence.
Qed.

#[export] Instance plain_ext_laws : ExtLaws.
Proof.
  split; cbn [make_address_v4 v4_to_string make_address_v6 v6_to_string split_slash load_big_u16 format_02X plain_ext].
  - intros s b. apply parse_octets_shape.
  - intros b Hb Hl. by apply print_v4_spec.
  - intros b Hb Hl. by apply print_v4_spec.
  - intros s b. apply parse_groups_shape.
  - intros b Hb Hl. by apply (print_groups_spec 7).
  - intros b Hb Hl. destruct (print_groups_spec 7 b Hb Hl) as (_ & ? & Hc). split; [by apply Hc|done].
  - apply split_spec.
  - apply split_spec.
  - apply split_spec.
  - done.
  - done.
Qed.
End Plain.
