(* ===== verification/Multiaddress.v ===== *)
(** * Class Multiaddress

    [multi/multiaddress.cpp]: an address kept both as text and as bytes
    ([MultiaddrCodec.v]), with the queries that search the text. *)

From S2P Require Import Prelude Varint Multihash Base58 Multibase ByteUtil MultiaddrCodec MultiaddrPlain.

(** ** Searching strings

    [std::string::find], [rfind] and [std::find_end]; [None] is [npos] or the end
    iterator. *)

Fixpoint is_prefix (sub s : bytes) : bool :=
  match sub, s with
  | [], _ => true
  | c :: sub, d :: s => (c =? d) && is_prefix sub s
  | _ :: _, [] => false
  end.

(** The first occurrence in [s], whose first character has index [i]. *)
Fixpoint find_at (sub s : bytes) (i : nat) : option nat :=
  if is_prefix sub s then Some i
  else match s with [] => None | _ :: s => find_at sub s (S i) end.
Definition find (s sub : bytes) (pos : nat) : option nat :=
  if decide (pos <= length s)%nat then find_at sub (drop pos s) pos else None.

(** The last occurrence. *)
Fixpoint rfind_at (sub s : bytes) (i : nat) : option nat :=
  match (match s with [] => None | _ :: s => rfind_at sub s (S i) end) with
  | Some j => Some j
  | None => if is_prefix sub s then Some i else None
  end.
Definition rfind (s sub : bytes) : option nat := rfind_at sub s 0.
(** [std::find_end] finds nothing when asked for the empty sequence. *)
Definition find_end (s sub : bytes) : nat :=
  if decide (sub = []) then length s else default (length s) (rfind s sub).

(** The loop of [findSubstringOccurrences]; [sub] is not empty. *)
Fixpoint occurrences_loop (fuel : nat) (s sub : bytes) (occurrence : option nat) : list nat :=
  match fuel, occurrence with
  | S fuel, Some i => i :: occurrences_loop fuel s sub (find s sub (i + length sub))
  | _, _ => []
  end.
Definition findSubstringOccurrences (s sub : bytes) : list nat :=
  occurrences_loop (S (length s)) s sub (find s sub 0).

(** ** The class *)

Record Multiaddress := mkMultiaddress { stringified_address_ : bytes; bytes_ : bytes }.

#[export] Instance Multiaddress_eq_dec : EqDecision Multiaddress.
Proof. solve_decision. Defined.

Inductive Error :=
| INVALID_INPUT | PROTOCOL_NOT_FOUND | INVALID_PROTOCOL_VALUE | Conversion (e : ConversionError).

Section Class.
Context `{Ext, Hex}.

(** [None] is the failing [BOOST_ASSERT(str_res.has_value())]. *)
Definition create (address : bytes) : option (outcome Error Multiaddress) :=
  match multiaddrToBytes address with
  | failure e => Some (failure (Conversion e))
  | success bs =>
      match bytesToMultiaddrString bs with
      | Some (success s) => Some (success (mkMultiaddress s bs))
      | _ => None
      end
  end.

Definition create_bytes (bs : bytes) : option (outcome Error Multiaddress) :=
  match bytesToMultiaddrString bs with
  | None => None
  | Some (failure _) => Some (failure INVALID_INPUT)
  | Some (success s) => Some (success (mkMultiaddress s bs))
  end.

Definition encapsulate (self address : Multiaddress) : Multiaddress :=
  mkMultiaddress (stringified_address_ self ++ stringified_address_ address) (bytes_ self ++ bytes_ address).

Definition decapsulateStringFromAddress (self : Multiaddress) (proto bs : bytes) : bool * Multiaddress :=
  match rfind (stringified_address_ self) proto with
  | None => (false, self)
  | Some str_pos =>
      (true, mkMultiaddress (take str_pos (stringified_address_ self))
                            (take (find_end (bytes_ self) bs) (bytes_ self)))
  end.

Definition decapsulate (self address : Multiaddress) : bool * Multiaddress :=
  decapsulateStringFromAddress self (stringified_address_ address) (bytes_ address).

Definition decapsulate_protocol (self : Multiaddress) (proto : Z) (address : bytes) : bool * Multiaddress :=
  match get_by_code proto with
  | None => (false, self)
  | Some p =>
      let proto_str := slash :: name p ++ (if decide (address = []) then [] else slash :: address) in
      match multiaddrToBytes proto_str with
      | failure _ => (false, self)
      | success proto_bytes => decapsulateStringFromAddress self proto_str proto_bytes
      end
  end.

(** [create(s).value()]; [None] is an exception. *)
Definition create_value (s : bytes) : option Multiaddress :=
  match create s with Some (success a) => Some a | _ => None end.

Definition splitFirst (self : Multiaddress) : option (Multiaddress * option Multiaddress) :=
  let s := stringified_address_ self in
  match find s [slash] 1 with
  | None => Some (self, None)
  | Some second_slash =>
      match find s [slash] (second_slash + 1) with
      | None => Some (self, None)
      | Some third_slash =>
          a ← create_value (take third_slash s);
          b ← create_value (drop third_slash s);
          Some (a, Some b)
      end
  end.

(** [substr(value_pos, value_end - value_pos)], where [npos + 1] is 0 and [npos]
    reaches to the end. *)
Definition value_after (s : bytes) (pos : nat) : bytes :=
  let value_pos := match find s [slash] (pos + 1) with Some i => (i + 1)%nat | None => 0%nat end in
  match find s [slash] value_pos with
  | Some value_end => take (value_end - value_pos) (drop value_pos s)
  | None => drop value_pos s
  end.

Definition getValuesForProtocol (self : Multiaddress) (proto : Z) : list bytes :=
  match get_by_code proto with
  | None => []
  | Some protocol =>
      let s := stringified_address_ self in
      let positions := findSubstringOccurrences s (slash :: name protocol ++ [slash]) in
      let positions :=
        if proto =? code_value P2P then positions ++ findSubstringOccurrences s (str "/ipfs") else positions in
      map (value_after s) positions
  end.

Definition getPeerId (self : Multiaddress) : option bytes := head (getValuesForProtocol self (code_value P2P)).

Definition getFirstValueForProtocol (self : Multiaddress) (proto : Z) : outcome Error bytes :=
  match getValuesForProtocol self proto with
  | [] => failure PROTOCOL_NOT_FOUND
  | v :: _ => success v
  end.

(** The template with a [caster]; [None] from the caster is an exception. *)
Definition getFirstValueCast {T} (self : Multiaddress) (proto : Z) (caster : bytes -> option T) : outcome Error T :=
  match getFirstValueForProtocol self proto with
  | failure e => failure e
  | success val => match caster val with Some t => success t | None => failure INVALID_PROTOCOL_VALUE end
  end.

Definition getProtocols (self : Multiaddress) : list Protocol :=
  match stringified_address_ self with
  | [] => []
  | _ :: addr => omap get_by_name (split_slash addr)
  end.

(** The loop over the tokens; [None] is [pvs.back()] of an empty vector. *)
Fixpoint pvs_loop (tokens : list bytes) (pvs : list (Protocol * bytes)) : option (list (Protocol * bytes)) :=
  match tokens with
  | [] => Some pvs
  | token :: tokens =>
      match get_by_name token with
      | Some p => pvs_loop tokens (pvs ++ [(p, [])])
      | None =>
          '(p, s) ← last pvs;
          let s := if decide (s = []) then s else s ++ [slash] in
          pvs_loop tokens (take (length pvs - 1) pvs ++ [(p, s ++ token)])
      end
  end.

(** [None] is also [back()] of the empty text after "/". *)
Definition getProtocolsWithValues (self : Multiaddress) : option (list (Protocol * bytes)) :=
  match stringified_address_ self with
  | [] => Some []
  | _ :: addr => if decide (addr = []) then None else pvs_loop (split_slash (drop_last_slash addr)) []
  end.

Definition address_eqb (a b : Multiaddress) : bool :=
  bool_decide (stringified_address_ a = stringified_address_ b) && bool_decide (bytes_ a = bytes_ b).

(** [std::string::operator<] compares the characters as unsigned. *)
Definition address_ltb (a b : Multiaddress) : bool :=
  bytes_ltb (stringified_address_ a) (stringified_address_ b).

Definition ends_with (s suffix : bytes) : bool :=
  bool_decide (length suffix <= length s)%nat && bool_decide (drop (length s - length suffix) s = suffix).

Definition hasProtocol (self : Multiaddress) (proto : Z) : bool :=
  match get_by_code proto with
  | None => false
  | Some p =>
      let s := stringified_address_ self in
      let i := (length (name p) + 1)%nat in
      if (size p =? 0) && ends_with s (name p) && bool_decide (i <= length s)%nat
         && negb (nth (length s - i) s 0 =? 0)
      then true
      else bool_decide (is_Some (find s (slash :: name p ++ [slash]) 0))
  end.
End Class.

(** ** Proofs *)

(** *** Searching a path *)

(** The text of a list of words. *)
Definition path (ws : list bytes) : bytes := concat (map (cons slash) ws).

Lemma path_cons w ws : path (w :: ws) = slash :: w ++ path ws.
Proof. done. Qed.

Lemma path_app ws1 ws2 : path (ws1 ++ ws2) = path ws1 ++ path ws2.
Proof. unfold path. by rewrite map_app, concat_app. Qed.

Lemma is_prefix_app sub r : is_prefix sub (sub ++ r) = true.
Proof. induction sub; [done|]. cbn. by rewrite Z.eqb_refl. Qed.

Lemma is_prefix_true sub s : is_prefix sub s = true -> exists r, s = sub ++ r.
Proof.
  revert s. induction sub as [|c sub IH]; intros [|d s]; cbn; try done; [by eexists|by eexists|].
  intros Hp. apply andb_true_iff in Hp as [Hc Hp]. apply Z.eqb_eq in Hc as ->.
  apply IH in Hp as [r ->]. by exists r.
Qed.

(** A search for something that starts with '/' passes over a word. *)
Lemma find_at_skip sub w r i :
  no_slash w -> find_at (slash :: sub) (w ++ r) i = find_at (slash :: sub) r (i + length w).
Proof.
  unfold no_slash. revert i. induction w as [|c w IH]; intros i Hw; cbn [app length]; [by rewrite Nat.add_0_r|].
  rewrite not_elem_of_cons in Hw. destruct Hw as [Hc Hw]. cbn [find_at is_prefix].
  rewrite (proj2 (Z.eqb_neq slash c)) by done. cbn [andb]. rewrite IH by done. f_equal. lia.
Qed.

Lemma find_drop s sub pos : (pos <= length s)%nat -> find s sub pos = find_at sub (drop pos s) pos.
Proof. intros Hp. unfold find. by rewrite decide_True. Qed.

Lemma find_slash pre w ws :
  no_slash w ->
  find (pre ++ w ++ path ws) [slash] (length pre)
  = if decide (ws = []) then None else Some (length pre + length w)%nat.
Proof.
  intros Hw. rewrite find_drop, drop_app_length, find_at_skip by (done || (rewrite length_app; lia)).
  destruct ws as [|v ws]; [done|]. rewrite path_cons. done.
Qed.

Lemma word_match n w ws :
  no_slash n -> no_slash w ->
  is_prefix (n ++ [slash]) (w ++ path ws) = bool_decide (w = n) && negb (bool_decide (ws = [])).
Proof.
  unfold no_slash. revert w. induction n as [|c n IH]; intros w Hn Hw.
  - destruct w as [|d w]; cbn [app is_prefix].
    + destruct ws; [done|]. by rewrite path_cons.
    + rewrite not_elem_of_cons in Hw. rewrite (proj2 (Z.eqb_neq slash d)) by tauto. done.
  - rewrite not_elem_of_cons in Hn. destruct w as [|d w]; cbn [app is_prefix].
    + destruct ws as [|v ws]; [done|]. rewrite path_cons. cbn [is_prefix].
      rewrite (proj2 (Z.eqb_neq c slash)) by (intros ->; tauto). done.
    + rewrite not_elem_of_cons in Hw. rewrite IH by tauto.
      destruct (Z.eqb_spec c d) as [->|Hcd]; cbn [andb].
      * f_equal. apply bool_decide_ext. split; congruence.
      * rewrite bool_decide_false by congruence. done.
Qed.

Lemma prefix_match n w ws :
  no_slash n -> no_slash w -> is_prefix n (w ++ path ws) = is_prefix n w.
Proof.
  unfold no_slash. revert w. induction n as [|c n IH]; intros w Hn Hw; [done|].
  rewrite not_elem_of_cons in Hn. destruct w as [|d w]; cbn [app is_prefix].
  - destruct ws as [|v ws]; [done|]. rewrite path_cons. cbn [is_prefix].
    rewrite (proj2 (Z.eqb_neq c slash)) by (intros ->; tauto). done.
  - rewrite not_elem_of_cons in Hw. by rewrite IH by tauto.
Qed.

(** The word after the one at [pos]. *)
Lemma value_after_word pre w v ws :
  no_slash w -> no_slash v ->
  value_after (pre ++ slash :: w ++ path (v :: ws)) (length pre) = v.
Proof.
  intros Hw Hv. unfold value_after.
  replace (length pre + 1)%nat with (length (pre ++ [slash])) by (rewrite length_app; done).
  assert (pre ++ slash :: w ++ path (v :: ws) = (pre ++ [slash]) ++ w ++ path (v :: ws)) as He by by rewrite <- app_assoc.
  pose proof (find_slash (pre ++ [slash]) w (v :: ws) Hw) as Hf. rewrite <- He in Hf. rewrite Hf, decide_False by done.
  clear Hf.
  assert (pre ++ slash :: w ++ path (v :: ws) = (pre ++ slash :: w ++ [slash]) ++ v ++ path ws) as He2.
  { rewrite path_cons, <- app_assoc. cbn [app]. by rewrite <- app_assoc. }
  replace (length (pre ++ [slash]) + length w + 1)%nat with (length (pre ++ slash :: w ++ [slash]))
    by (rewrite !length_app; cbn [length]; rewrite length_app; cbn; lia).
  rewrite He2, find_slash, drop_app_length by done. destruct (decide (ws = [])) as [->|Hne].
  - apply app_nil_r.
  - rewrite Nat.add_comm, Nat.add_sub. apply take_app_length.
Qed.

(** *** The values of a protocol *)

(** The words that follow the word [n]; a value is not itself taken for the name. *)
Fixpoint scan (n : bytes) (ws : list bytes) : list bytes :=
  match ws with
  | w :: ws' => match ws' with
                | v :: ws'' => if decide (w = n) then v :: scan n ws'' else scan n ws'
                | [] => []
                end
  | [] => []
  end.
(** The words that follow a word starting with [n]; nothing follows the last. *)
Fixpoint scan_prefix (n : bytes) (ws : list bytes) : list bytes :=
  match ws with
  | w :: ws => (if is_prefix n w then [default [] (head ws)] else []) ++ scan_prefix n ws
  | [] => []
  end.

Lemma occurrences_scan n fuel pre ws :
  no_slash n -> Forall no_slash ws -> (length ws < fuel)%nat ->
  map (value_after (pre ++ path ws))
    (occurrences_loop fuel (pre ++ path ws) (slash :: n ++ [slash])
       (find_at (slash :: n ++ [slash]) (path ws) (length pre)))
  = scan n ws.
Proof.
  intros Hn Hws. remember (length ws) as k eqn:Hk. revert fuel pre ws Hk Hws.
  induction (lt_wf k) as [k _ IH]. intros fuel pre ws -> Hws Hf.
  destruct fuel as [|fuel]; [lia|]. destruct ws as [|w ws]; [done|].
  apply Forall_cons in Hws as [Hw Hws]. rewrite path_cons at 3. cbn [find_at is_prefix].
  rewrite Z.eqb_refl. cbn [andb]. rewrite word_match by done.
  destruct (decide (w = n)) as [->|Hne]; [destruct ws as [|v ws]|].
  - rewrite bool_decide_true, andb_false_r by done. cbn [path map concat]. rewrite find_at_skip by done. done.
  - rewrite bool_decide_true by done. cbn [negb andb bool_decide decide]. rewrite bool_decide_false by done.
    cbn [negb andb occurrences_loop map]. rewrite path_cons. cbn [scan]. rewrite decide_True by done.
    apply Forall_cons in Hws as [Hv Hws]. f_equal; [by apply value_after_word|].
    set (pre' := pre ++ slash :: n ++ slash :: v).
    assert (pre ++ slash :: n ++ path (v :: ws) = pre' ++ path ws) as He.
    { unfold pre'. rewrite path_cons, <- app_assoc. cbn [app]. by rewrite <- app_assoc. }
    rewrite find_drop by (rewrite He; unfold pre'; rewrite !length_app; cbn [length]; rewrite !length_app; cbn [length]; lia).
    replace (drop _ _) with (v ++ path ws).
    + rewrite find_at_skip, He by done.
      replace (length pre + length (slash :: n ++ [slash]) + length v)%nat with (length pre')
        by (unfold pre'; rewrite !length_app; cbn [length]; rewrite !length_app; cbn [length]; lia).
      apply (IH (length ws)); [cbn [length]; lia|done|done|cbn [length] in Hf; lia].
    + replace (pre ++ slash :: n ++ path (v :: ws)) with ((pre ++ slash :: n ++ [slash]) ++ v ++ path ws)
        by (rewrite path_cons, <- app_assoc; cbn [app]; by rewrite <- app_assoc).
      replace (length pre + length (slash :: n ++ [slash]))%nat with (length (pre ++ slash :: n ++ [slash]))
        by by rewrite length_app. by rewrite drop_app_length.
  - rewrite bool_decide_false by done. cbn [andb]. rewrite find_at_skip by done.
    replace (pre ++ path (w :: ws)) with ((pre ++ slash :: w) ++ path ws) by (rewrite path_cons, <- app_assoc; done).
    replace (S (length pre) + length w)%nat with (length (pre ++ slash :: w)) by (rewrite length_app; cbn [length]; lia).
    rewrite (IH (length ws)); [|cbn [length]; lia|done|done|cbn [length] in Hf; lia].
    cbn [scan]. destruct ws; [done|]. by rewrite decide_False.
Qed.

(** Nothing follows the last word: [npos + 1] is the start of the text. *)
Lemma value_after_end ws w :
  no_slash w -> value_after (path ws ++ slash :: w) (length (path ws)) = [].
Proof.
  intros Hw. unfold value_after.
  pose proof (find_slash (path ws ++ [slash]) w [] Hw) as Hf. rewrite decide_True in Hf by done.
  cbn [path map concat] in Hf. rewrite app_nil_r, <- app_assoc, length_app in Hf. cbn [app length] in Hf.
  rewrite Hf, find_drop by lia. rewrite drop_0. by destruct ws.
Qed.

Lemma occurrences_prefix n fuel ws0 ws :
  no_slash n -> Forall no_slash ws -> (length ws < fuel)%nat ->
  map (value_after (path ws0 ++ path ws))
    (occurrences_loop fuel (path ws0 ++ path ws) (slash :: n)
       (find_at (slash :: n) (path ws) (length (path ws0))))
  = scan_prefix n ws.
Proof.
  intros Hn Hws. revert fuel ws0. induction Hws as [|w ws Hw Hws IH]; intros fuel ws0 Hf.
  - by destruct fuel.
  - rewrite path_cons at 3. cbn [find_at is_prefix]. rewrite Z.eqb_refl. cbn [andb].
    rewrite prefix_match by done. cbn [scan_prefix]. cbn [length] in Hf.
    assert (path ws0 ++ path (w :: ws) = path (ws0 ++ [w]) ++ path ws) as He.
    { rewrite <- !path_app, <- app_assoc. done. }
    assert (length (path (ws0 ++ [w])) = length (path ws0) + 1 + length w)%nat as Hl.
    { rewrite path_app, length_app, path_cons. cbn. rewrite app_nil_r. lia. }
    destruct (is_prefix n w) eqn:E.
    + destruct fuel as [|fuel]; [lia|]. cbn [occurrences_loop map app]. f_equal.
      * destruct ws as [|v ws]; cbn [head default from_option].
        -- rewrite path_cons. cbn [path map concat]. rewrite app_nil_r. by apply value_after_end.
        -- apply Forall_cons in Hws as [Hv _]. rewrite path_cons. by apply value_after_word.
      * apply is_prefix_true in E as [r ->]. rewrite length_app in Hl.
        rewrite find_drop by (rewrite He, length_app, Hl; cbn [length]; lia).
        replace (drop _ _) with (r ++ path ws).
        -- rewrite find_at_skip by (intros Hin; apply Hw, elem_of_app; by right).
           rewrite He. replace (_ + length r)%nat with (length (path (ws0 ++ [n ++ r]))) by (rewrite Hl; cbn [length]; lia).
           apply IH. lia.
        -- replace (path ws0 ++ path ((n ++ r) :: ws)) with ((path ws0 ++ slash :: n) ++ r ++ path ws)
             by (rewrite path_cons, <- !app_assoc; done).
           replace (length (path ws0) + length (slash :: n))%nat with (length (path ws0 ++ slash :: n))
             by by rewrite length_app. by rewrite drop_app_length.
    + rewrite find_at_skip by done. rewrite He.
      replace (S (length (path ws0)) + length w)%nat with (length (path (ws0 ++ [w]))) by lia.
      cbn [app]. rewrite IH by lia. done.
Qed.

Lemma path_length ws : (length ws <= length (path ws))%nat.
Proof. induction ws as [|w ws IH]; [done|]. rewrite path_cons. cbn [length]. rewrite length_app. lia. Qed.

Lemma occurrences_words n ws :
  no_slash n -> Forall no_slash ws ->
  map (value_after (path ws)) (findSubstringOccurrences (path ws) (slash :: n ++ [slash])) = scan n ws
  /\ map (value_after (path ws)) (findSubstringOccurrences (path ws) (slash :: n)) = scan_prefix n ws.
Proof.
  intros Hn Hws. unfold findSubstringOccurrences. rewrite !find_drop by lia. rewrite drop_0.
  pose proof (path_length ws). split.
  - apply (occurrences_scan n (S (length (path ws))) [] ws); [done|done|lia].
  - apply (occurrences_prefix n (S (length (path ws))) [] ws); [done|done|lia].
Qed.

Section Addresses.
Context `{ExtLaws, Hex}.

(** The object for a list of components. *)
Definition address_of (cs : list component) : Multiaddress := mkMultiaddress (addr_text cs) (addr_bytes cs).

Lemma address_path cs : Forall good cs -> addr_text cs = path (addr_words cs) /\ Forall no_slash (addr_words cs).
Proof.
  intros Hcs. rewrite addr_text_words. split; [done|]. destruct (words_complete cs [] Hcs) as [_ Hd].
  eapply Forall_impl; [exact Hd|]. by intros ? [].
Qed.

(** The values listed for a protocol, word by word. *)
Lemma values_words cs p :
  Forall good cs -> p ∈ protocols_ ->
  getValuesForProtocol (address_of cs) (code_value (code p))
  = scan (name p) (addr_words cs)
    ++ (if decide (code p = P2P) then scan_prefix (str "ipfs") (addr_words cs) else []).
Proof.
  intros Hcs Hp. destruct (table_ok p Hp) as (_ & Hget & _ & Hs & _). destruct (address_path cs Hcs) as [Ht Hws].
  unfold getValuesForProtocol, address_of. cbn [stringified_address_]. rewrite Hget, Ht.
  destruct (occurrences_words (name p) (addr_words cs) Hs Hws) as [Hsc _].
  destruct (decide (code p = P2P)) as [->|Hne].
  - rewrite Z.eqb_refl, map_app, Hsc.
    assert (no_slash (str "ipfs")) as Hi by by apply no_slash_forallb.
    destruct (occurrences_words (str "ipfs") (addr_words cs) Hi Hws) as [_ Hp2].
    change (str "/ipfs") with (slash :: str "ipfs"). by rewrite Hp2.
  - rewrite (proj2 (Z.eqb_neq _ _)) by (intros Hv; apply Hne; revert Hv; by destruct (code p)).
    by rewrite Hsc, app_nil_r.
Qed.

(** *** Addresses that can be read off their text *)

(** A component whose value does not look like a protocol. *)
Definition plain (c : component) : Prop :=
  (size c.1 =? 0) = false -> get_by_name (value_text c.1 c.2) = None /\ is_prefix (str "ipfs") (value_text c.1 c.2) = false.

Definition component_pair (c : component) : Protocol * bytes :=
  (c.1, if size c.1 =? 0 then [] else value_text c.1 c.2).

Lemma name_inj p q : p ∈ protocols_ -> q ∈ protocols_ -> name p = name q -> p = q.
Proof.
  intros Hp Hq Hn. destruct (table_ok p Hp) as [Hp' _]. destruct (table_ok q Hq) as [Hq' _]. congruence.
Qed.

Lemma scan_skip n w ws : w <> n -> scan n (w :: ws) = scan n ws.
Proof. intros Hw. cbn [scan]. destruct ws; [done|]. by rewrite decide_False. Qed.

Lemma scan_components p cs :
  Forall good cs -> Forall plain cs -> p ∈ protocols_ -> (size p =? 0) = false ->
  scan (name p) (addr_words cs) = map (fun c => value_text c.1 c.2) (filter (fun c => c.1 = p) cs).
Proof.
  intros Hg Hpl Hp Hz. induction Hg as [|[q v] cs Hc Hcs IH]; [done|].
  apply Forall_cons in Hpl as [Hplain Hpl]. destruct Hc as ([Hq _] & _ & _). cbn [fst snd] in Hq.
  unfold addr_words. cbn [map concat]. fold (addr_words cs). unfold component_words at 1. unfold plain in Hplain. cbn [fst snd] in *.
  rewrite filter_cons. cbn [fst]. destruct (decide (q = p)) as [->|Hne].
  - rewrite Hz. cbn [app scan map fst snd]. rewrite decide_True by done. f_equal. by apply IH.
  - assert (name q <> name p) as Hnn by (intros Hn; by apply Hne, name_inj).
    destruct (size q =? 0) eqn:Hs; cbn [app]; rewrite scan_skip by done; [by apply IH|].
    destruct (Hplain eq_refl) as [Hval _]. rewrite scan_skip; [by apply IH|].
    intros Hv. destruct (table_ok p Hp) as [Hget _]. rewrite Hv in Hval. congruence.
Qed.

Lemma ipfs_prefix_free p : p ∈ protocols_ -> is_prefix (str "ipfs") (name p) = false.
Proof.
  intros Hp. apply negb_true_iff. apply list_elem_of_In in Hp. revert p Hp.
  apply (forallb_forall (fun p => negb (is_prefix (str "ipfs") (name p)))). reflexivity.
Qed.

Lemma scan_prefix_plain cs :
  Forall good cs -> Forall plain cs -> scan_prefix (str "ipfs") (addr_words cs) = [].
Proof.
  intros Hg Hpl. induction Hg as [|[q v] cs Hc Hcs IH]; [done|].
  apply Forall_cons in Hpl as [Hplain Hpl]. destruct Hc as ([Hq _] & _ & _). cbn [fst snd] in Hq.
  unfold addr_words. cbn [map concat]. fold (addr_words cs). unfold component_words at 1. unfold plain in Hplain. cbn [fst snd] in *.
  destruct (size q =? 0); cbn [app scan_prefix]; rewrite ipfs_prefix_free by done; [by apply IH|].
  destruct (Hplain eq_refl) as [_ ->]. by apply IH.
Qed.

Lemma values_components p cs :
  Forall good cs -> Forall plain cs -> p ∈ protocols_ -> (size p =? 0) = false ->
  getValuesForProtocol (address_of cs) (code_value (code p))
  = map (fun c => value_text c.1 c.2) (filter (fun c => c.1 = p) cs).
Proof.
  intros Hg Hpl Hp Hz. rewrite values_words, scan_components, scan_prefix_plain by done.
  by destruct (decide (code p = P2P)); rewrite app_nil_r.
Qed.

Lemma pvs_words cs acc :
  Forall good cs -> Forall plain cs ->
  pvs_loop (addr_words cs) acc = Some (acc ++ map component_pair cs).
Proof.
  intros Hg Hpl. revert acc. induction Hg as [|[q v] cs Hc Hcs IH]; intros acc; [cbn; by rewrite app_nil_r|].
  apply Forall_cons in Hpl as [Hplain Hpl]. destruct Hc as ([Hq _] & _ & _). cbn [fst snd] in Hq.
  destruct (table_ok q Hq) as [Hget _].
  unfold addr_words. cbn [map concat]. fold (addr_words cs).
  unfold component_words at 1, component_pair at 1. unfold plain in Hplain. cbn [fst snd] in *.
  destruct (size q =? 0); cbn [app pvs_loop]; rewrite Hget.
  - rewrite IH by done. by rewrite <- app_assoc.
  - destruct (Hplain eq_refl) as [-> _]. rewrite last_snoc. cbn [mbind option_bind].
    rewrite decide_True, length_app, Nat.add_sub, take_app_length by done. cbn [app].
    rewrite IH by done. by rewrite <- app_assoc.
Qed.

(** A text is read as its components. *)
Lemma create_text cs : cs <> [] -> Forall good cs -> create (addr_text cs) = Some (success (address_of cs)).
Proof.
  intros Hne Hcs. unfold create. rewrite addr_text_parse by done.
  rewrite print_components by (eapply Forall_impl; [exact Hcs|]; by intros ? []).
  by rewrite all_printable.
Qed.

Lemma text_rest cs : cs <> [] -> Forall good cs ->
  exists s, addr_text cs = slash :: s /\ s <> [] /\ split_slash (drop_last_slash s) = addr_words cs.
Proof.
  intros Hne Hcs. destruct (words_complete cs [] Hcs) as [_ Hd]. fold (addr_words cs) in Hd.
  pose proof (addr_words_nonempty cs Hne) as Hwne. destruct (dense_last _ Hwne Hd) as (c & Hc & Hcs').
  exists (join (addr_words cs)). rewrite addr_text_words, join_words by done. split_and!; [done| |].
  - intros Hn. by rewrite Hn in Hc.
  - unfold drop_last_slash. rewrite bool_decide_false by congruence. apply split_words; [done|].
    eapply Forall_impl; [exact Hd|]. by intros ? [].
Qed.

Lemma pvs_components cs :
  Forall good cs -> Forall plain cs -> getProtocolsWithValues (address_of cs) = Some (map component_pair cs).
Proof.
  intros Hg Hpl. unfold getProtocolsWithValues, address_of. cbn [stringified_address_].
  destruct (decide (cs = [])) as [->|Hne]; [done|]. destruct (text_rest cs Hne Hg) as (s & -> & Hs & Hsp).
  rewrite decide_False, Hsp by done. by rewrite pvs_words.
Qed.
End Addresses.

(** *** Removing a suffix *)

Lemma is_prefix_length sub s : is_prefix sub s = true -> (length sub <= length s)%nat.
Proof. intros Hp. apply is_prefix_true in Hp as [r ->]. rewrite length_app. lia. Qed.

Lemma rfind_at_long sub s i : (length s < length sub)%nat -> rfind_at sub s i = None.
Proof.
  revert i. induction s as [|c s IH]; intros i Hl; cbn [rfind_at].
  - destruct sub; [cbn in Hl; lia|done].
  - rewrite IH by (cbn [length] in Hl; lia). destruct (is_prefix sub (c :: s)) eqn:E; [|done].
    apply is_prefix_length in E. lia.
Qed.

Lemma rfind_suffix a sub : rfind (a ++ sub) sub = Some (length a).
Proof.
  unfold rfind. rewrite <- (Nat.add_0_l (length a)). generalize 0%nat as i.
  induction a as [|c a IH]; intros i; cbn [app length].
  - rewrite Nat.add_0_r. pose proof (is_prefix_app sub []) as Hp. rewrite app_nil_r in Hp.
    destruct sub as [|c sub]; [done|]. cbn [rfind_at]. rewrite rfind_at_long by (cbn [length]; lia). by rewrite Hp.
  - cbn [rfind_at]. rewrite IH. f_equal. lia.
Qed.

Lemma find_end_suffix a sub : find_end (a ++ sub) sub = length a.
Proof.
  unfold find_end. case_decide as Hs; [subst; by rewrite app_nil_r|]. by rewrite rfind_suffix.
Qed.

Lemma decapsulate_suffix a proto bs :
  decapsulateStringFromAddress (encapsulate a (mkMultiaddress proto bs)) proto bs = (true, a).
Proof.
  unfold decapsulateStringFromAddress, encapsulate. cbn [stringified_address_ bytes_].
  rewrite rfind_suffix, find_end_suffix, !take_app_length. by destruct a.
Qed.

Lemma encapsulate_components `{Ext} cs1 cs2 :
  encapsulate (address_of cs1) (address_of cs2) = address_of (cs1 ++ cs2).
Proof.
  unfold encapsulate, address_of. cbn [stringified_address_ bytes_]. f_equal.
  - unfold addr_text. by rewrite map_app, concat_app.
  - unfold addr_bytes. by rewrite map_app, concat_app.
Qed.

Section Properties.
Context `{ExtLaws, Hex}.

Lemma split_components c cs :
  good c -> Forall good cs -> (size c.1 =? 0) = false ->
  splitFirst (address_of (c :: cs))
  = Some (if decide (cs = []) then (address_of [c], None) else (address_of [c], Some (address_of cs))).
Proof.
  intros Hc Hcs Hz. assert (Forall good [c]) as Hc1 by (constructor; [done|constructor]).
  destruct (words_complete [c] [] Hc1) as [_ Hd]. destruct (address_path cs Hcs) as [Ht _].
  cbn [map concat] in Hd. unfold component_words in Hd. rewrite Hz in Hd. cbn [app] in Hd.
  apply Forall_cons in Hd as [[_ Hn] Hd]. apply Forall_cons in Hd as [[_ Hv] _].
  set (n := name c.1) in *. set (v := value_text c.1 c.2) in *.
  assert (addr_text [c] = slash :: n ++ slash :: v) as Ht1.
  { unfold addr_text. cbn [map concat]. unfold component_text, component_words. rewrite Hz. cbn. by rewrite !app_nil_r. }
  assert (addr_text (c :: cs) = (slash :: n ++ slash :: v) ++ path (addr_words cs)) as Hs.
  { rewrite <- Ht1, <- Ht. unfold addr_text. cbn [map concat]. by rewrite app_nil_r. }
  unfold splitFirst.
  change (stringified_address_ (address_of (c :: cs))) with (addr_text (c :: cs)). rewrite Hs.
  assert ((slash :: n ++ slash :: v) ++ path (addr_words cs) = [slash] ++ n ++ path (v :: addr_words cs)) as He1
    by (rewrite path_cons; cbn [app]; by rewrite <- app_assoc).
  pose proof (find_slash [slash] n (v :: addr_words cs) Hn) as Hf1. rewrite <- He1, decide_False in Hf1 by done.
  cbn [length] in Hf1. rewrite Hf1.
  assert ((slash :: n ++ slash :: v) ++ path (addr_words cs) = (slash :: n ++ [slash]) ++ v ++ path (addr_words cs)) as He2
    by (cbn [app]; by rewrite <- !app_assoc).
  pose proof (find_slash (slash :: n ++ [slash]) v (addr_words cs) Hv) as Hf2. rewrite <- He2 in Hf2.
  replace (1 + length n + 1)%nat with (length (slash :: n ++ [slash])) by (cbn [length]; rewrite length_app; cbn; lia).
  rewrite Hf2. destruct (decide (cs = [])) as [->|Hne].
  - done.
  - rewrite decide_False by by apply addr_words_nonempty.
    replace (length (slash :: n ++ [slash]) + length v)%nat with (length (slash :: n ++ slash :: v))
      by (cbn [length]; rewrite !length_app; cbn [length]; lia).
    rewrite take_app_length, drop_app_length, <- Ht1, <- Ht. unfold create_value.
    by rewrite !create_text by done.
Qed.

(** ** Properties *)

(** C39: what [Multiaddress::create] makes of a text.  It refuses exactly the texts
    [multiaddrToBytes] refuses.  Otherwise the text denotes a list of components;
    if all of them can be printed the result is the object with their text and
    bytes, which is created again from its bytes and, when no peer id is empty,
    from its text; if one cannot be printed (a Unix path, a DNS name with another
    character than letters, digits, '-' and '.') the assertion fails. *)
Theorem create_exact s :
  bytes_ok s ->
  match multiaddrToBytes s with
  | failure e => create s = Some (failure (Conversion e))
  | success b =>
      Z.of_nat (length b) < 2 ^ 64 ->
      exists cs, cs <> [] /\ Forall component_ok cs /\ b = addr_bytes cs
        /\ (create s = None <-> exists c, c ∈ cs /\ printable c = false)
        /\ (forallb printable cs = true ->
              create s = Some (success (address_of cs))
              /\ create_bytes b = Some (success (address_of cs))
              /\ (Forall named cs -> create (addr_text cs) = Some (success (address_of cs))))
  end.
Proof.
  intros Hs. destruct (multiaddrToBytes s) as [b|e] eqn:Hm; [|unfold create; by rewrite Hm]. intros Hb.
  destruct (multiaddr_components s b Hs Hb Hm) as (cs & Hne & Hcs & ->). exists cs.
  assert (create s = match print_outcome cs with success t => Some (success (mkMultiaddress t (addr_bytes cs))) | _ => None end)
    as -> by (unfold create; by rewrite Hm, print_components).
  unfold print_outcome. split_and!; [done|done|done| |].
  - destruct (List.find _ cs) as [c|] eqn:Ef.
    + apply List.find_some in Ef as [Hin Hp]. apply negb_true_iff in Hp. split; [|done]. intros _.
      exists c. split; [by apply list_elem_of_In|done].
    + split; [done|]. intros (c & Hin & Hp). apply list_elem_of_In in Hin.
      pose proof (List.find_none _ _ Ef c Hin) as Hn. cbv beta in Hn. by rewrite Hp in Hn.
  - intros Hall. rewrite forallb_forall in Hall.
    replace (List.find _ cs) with (@None component).
    2: { destruct (List.find _ cs) as [c|] eqn:Ef; [|done]. apply List.find_some in Ef as [Hin Hp].
         by rewrite Hall in Hp. }
    split; [done|]. split.
    + unfold create_bytes. rewrite print_components by done. unfold print_outcome.
      destruct (List.find _ cs) as [c|] eqn:Ef; [|done]. apply List.find_some in Ef as [Hin Hp].
      by rewrite Hall in Hp.
    + intros Hnm. apply create_text; [done|]. rewrite Forall_forall in Hcs, Hnm. apply Forall_forall. intros c Hc.
      split_and!; [by apply Hcs|by apply Hall, list_elem_of_In|by apply Hnm].
Qed.

(** The queries agree with the components.  For an address whose components
    are printable and none of whose values looks like a protocol, and every
    protocol that has values, [getValuesForProtocol] lists exactly the values of
    that protocol in order, the first value is the one reported, [hasProtocol]
    tells whether there is one, [getProtocolsWithValues] is the list of components,
    and [splitFirst] takes the first one off. *)
Theorem queries_exact cs p :
  Forall good cs -> Forall plain cs -> p ∈ protocols_ -> (size p =? 0) = false ->
  let values := map (fun c => value_text c.1 c.2) (filter (fun c => c.1 = p) cs) in
  getValuesForProtocol (address_of cs) (code_value (code p)) = values
  /\ getFirstValueForProtocol (address_of cs) (code_value (code p))
     = match values with [] => failure PROTOCOL_NOT_FOUND | v :: _ => success v end
  /\ hasProtocol (address_of cs) (code_value (code p)) = negb (bool_decide (values = []))
  /\ getProtocolsWithValues (address_of cs) = Some (map component_pair cs)
  /\ (forall c cs', cs = c :: cs' -> (size c.1 =? 0) = false ->
        splitFirst (address_of cs)
        = Some (address_of [c], if decide (cs' = []) then None else Some (address_of cs'))).
Proof.
  intros Hg Hpl Hp Hz values. pose proof (values_components p cs Hg Hpl Hp Hz) as Hv. fold values in Hv.
  split_and!; [done|unfold getFirstValueForProtocol; by rewrite Hv| |by apply pvs_components|].
  - destruct (table_ok p Hp) as (_ & Hget & _ & Hs & _). destruct (address_path cs Hg) as [Ht Hws].
    unfold hasProtocol. rewrite Hget, Hz. cbn [andb]. unfold address_of. cbn [stringified_address_].
    pose proof (occurrences_words (name p) (addr_words cs) Hs Hws) as [Hocc _].
    rewrite scan_components in Hocc by done. fold values in Hocc. rewrite <- Ht in Hocc.
    unfold findSubstringOccurrences in Hocc. cbn [occurrences_loop] in Hocc.
    destruct (find (addr_text cs) _ 0); cbn [map] in Hocc; rewrite <- Hocc; done.
  - intros c cs' -> Hc. apply Forall_cons in Hg as [Hgc Hg]. rewrite split_components by done. by case_decide.
Qed.

(** Encapsulation is undone by decapsulation.  Appending any address and
    removing it gives the first address back, text and bytes; appending adds the
    components. *)
Theorem encapsulate_decapsulate a b cs1 cs2 :
  decapsulate (encapsulate a b) b = (true, a)
  /\ encapsulate (address_of cs1) (address_of cs2) = address_of (cs1 ++ cs2).
Proof.
  split; [|apply encapsulate_components]. destruct b as [t bs]. apply decapsulate_suffix.
Qed.
End Properties.
Import (hints) Plain.
Import (hints) Multibase.Multibase.

Lemma create_exact_witness :
  match multiaddrToBytes (str "/ip4/127.0.0.1/udp/9000/quic-v1/") with
  | failure e => create (str "/ip4/127.0.0.1/udp/9000/quic-v1/") = Some (failure (Conversion e))
  | success b =>
      Z.of_nat (length b) < 2 ^ 64 ->
      exists cs, cs <> [] /\ Forall component_ok cs /\ b = addr_bytes cs
        /\ (create (str "/ip4/127.0.0.1/udp/9000/quic-v1/") = None <-> exists c, c ∈ cs /\ printable c = false)
        /\ (forallb printable cs = true ->
              create (str "/ip4/127.0.0.1/udp/9000/quic-v1/") = Some (success (address_of cs))
              /\ create_bytes b = Some (success (address_of cs))
              /\ (Forall named cs -> create (addr_text cs) = Some (success (address_of cs))))
  end.
Proof. apply (create_exact (str "/ip4/127.0.0.1/udp/9000/quic-v1/")). repeat constructor; vm_compute; done. Defined.

Definition sample : list component :=
  [ (mkProtocol IP4 32 (str "ip4"), [10; 0; 0; 7]); (mkProtocol UDP 16 (str "udp"), [35; 40]);
    (mkProtocol QUIC_V1 0 (str "quic-v1"), []); (mkProtocol P2P (-1) (str "p2p"), [0x12; 2; 200; 1]) ].

Lemma sample_good : Forall good sample /\ Forall plain sample.
Proof.
  split; repeat (constructor; [|]); try constructor;
    repeat split; try (by vm_compute); try (vm_compute; by auto);
    try (repeat constructor; by vm_compute); try (apply bool_decide_eq_true; by vm_compute).
Qed.

Example sample_text : addr_text sample = str "/ip4/10.0.0.7/udp/9000/quic-v1/p2p/ThiFr".
Proof. vm_compute. reflexivity. Qed.

Lemma queries_exact_witness :
  getValuesForProtocol (address_of sample) (code_value P2P) = [str "ThiFr"]
  /\ hasProtocol (address_of sample) (code_value TCP) = false.
Proof.
  split.
  - exact (proj1 (queries_exact sample (mkProtocol P2P (-1) (str "p2p"))
                    (proj1 sample_good) (proj2 sample_good) (get_by_name_in (str "p2p") _ eq_refl) eq_refl)).
  - exact (proj1 (proj2 (proj2 (queries_exact sample (mkProtocol TCP 16 (str "tcp"))
             (proj1 sample_good) (proj2 sample_good) (get_by_name_in (str "tcp") _ eq_refl) eq_refl)))).
Defined.

(** *** What the searches in the text get wrong *)

(** The peer id of "/dns4/ipfs.io/tcp/443", which has none, is "tcp": any word that
    starts with "ipfs" is taken for the legacy name of "p2p". *)
Theorem peer_id_of_ipfs_host :
  getPeerId <$> create_value (str "/dns4/ipfs.io/tcp/443") = Some (Some (str "tcp")).
Proof. vm_compute. reflexivity. Qed.

(** Removing "/tcp/80" from "/ip4/1.2.3.4/tcp/8080" reports success, cuts the text
    within a word and leaves the bytes, so the two forms no longer agree. *)
Theorem decapsulate_within_word :
  (a ← create_value (str "/ip4/1.2.3.4/tcp/8080"); b ← create_value (str "/tcp/80"); Some (decapsulate a b))
  = Some (true, mkMultiaddress (str "/ip4/1.2.3.4") [4; 1; 2; 3; 4; 6; 0x1f; 0x90]).
Proof. vm_compute. reflexivity. Qed.

(** "/dns4/aws" is said to contain the protocol "ws": the character before the name
    is compared with NUL, not with '/'. *)
Theorem has_protocol_within_word :
  (fun a => hasProtocol a (code_value WS)) <$> create_value (str "/dns4/aws") = Some true.
Proof. vm_compute. reflexivity. Qed.

(** Splitting off a protocol without a value throws. *)
Theorem split_after_flag :
  is_Some (create_value (str "/ws/tcp/80"))
  /\ (a ← create_value (str "/ws/tcp/80"); splitFirst a) = None.
Proof. split; [|vm_compute; reflexivity]. vm_compute. by eexists. Qed.
