(* ===== verification/PeerAddress.v ===== *)
(** * Peer ids and peer addresses as text

    The base-58 form of [PeerId] ([peer/peer_id.cpp]) and [PeerAddress]
    ([peer/peer_address.cpp]): an address with the id of the peer behind it. *)

From S2P Require Import Prelude Varint Multihash Base58 Multibase ByteUtil MultiaddrCodec MultiaddrPlain Multiaddress.

(** ** PeerId *)

Inductive peer_text_error := OfBase58 (e : BaseError) | OfPeerId (e : peer_id_error).

Definition toBase58 (id : Multihash) : bytes := encodeBase58 (toBuffer id).

Definition fromBase58 (id : bytes) : option (outcome peer_text_error Multihash) :=
  match decodeBase58 id with
  | failure e => Some (failure (OfBase58 e))
  | success decoded_id =>
      match createFromBytes decoded_id with
      | None => None
      | Some (failure e) => Some (failure (OfPeerId (FromMultihash e)))
      | Some (success hash) =>
          Some (if negb (getType hash =? sha256_type)
                   && bool_decide (kMaxInlineKeyLength < length (toBuffer hash))%nat
                then failure (OfPeerId SHA256_EXPECTED)
                else success hash)
      end
  end.

(** ** PeerAddress *)

Record PeerAddress := mkPeerAddress { id_ : Multihash; address_ : Multiaddress }.
Record PeerInfo := mkPeerInfo { info_id : Multihash; addresses : list Multiaddress }.

Inductive peer_address_error :=
| NO_ADDRESSES | OfAddress (e : Multiaddress.Error) | OfId (e : peer_text_error).

Section PeerAddress.
Context `{Ext, Hex}.

(** [PeerAddress::create(std::string_view)] *)
Definition create_text (address : bytes) : option (outcome peer_address_error PeerAddress) :=
  match Multiaddress.create address with
  | None => None
  | Some (failure e) => Some (failure (OfAddress e))
  | Some (success multiaddress) =>
      match getFirstValueForProtocol multiaddress (code_value P2P) with
      | failure e => Some (failure (OfAddress e))
      | success id_b58_str =>
          match fromBase58 id_b58_str with
          | None => None
          | Some (failure e) => Some (failure (OfId e))
          | Some (success id) =>
              let '(_, multiaddress) := decapsulate_protocol multiaddress (code_value P2P) id_b58_str in
              Some (success (mkPeerAddress id multiaddress))
          end
      end
  end.
End PeerAddress.

(** [PeerAddress::create(const PeerInfo &)] and [create(const PeerId &, const Multiaddress &)] *)
Definition create_info (peer_info : PeerInfo) : outcome peer_address_error PeerAddress :=
  match addresses peer_info with
  | [] => failure NO_ADDRESSES
  | a :: _ => success (mkPeerAddress (info_id peer_info) a)
  end.
Definition create_pair (peer_id : Multihash) (address : Multiaddress) : outcome peer_address_error PeerAddress :=
  success (mkPeerAddress peer_id address).

Definition kP2PSubstr : bytes := slash :: str "p2p" ++ [slash].
Definition toString (a : PeerAddress) : bytes :=
  stringified_address_ (address_ a) ++ kP2PSubstr ++ toBase58 (id_ a).

(** ** Proofs *)

Lemma base58_from_hash t h m :
  multihash_of t h m ->
  fromBase58 (toBase58 m)
  = Some (match fromHash m with success m => success m | failure e => failure (OfPeerId e) end).
Proof.
  intros Hm. destruct (multihash_of_spec t h m Hm) as (p & _ & _ & Hok & _ & Hparse).
  unfold fromBase58, toBase58. rewrite base58_decode_encode, Hparse by done. unfold fromHash.
  by destruct (negb _ && _).
Qed.

Lemma scan_last n ws v : n ∉ ws -> scan n (ws ++ [n; v]) = [v].
Proof.
  intros Hn. induction ws as [|w ws IH]; cbn [app].
  - cbn. by rewrite decide_True.
  - rewrite not_elem_of_cons in Hn. rewrite scan_skip by (intros ->; tauto). apply IH. tauto.
Qed.

Definition p2p : Protocol := mkProtocol P2P kVarLen (str "p2p").
Lemma p2p_in : p2p ∈ protocols_.
Proof. apply (get_by_name_in (str "p2p")). reflexivity. Qed.

Section Laws.
Context `{ExtLaws, Hex}.

Lemma words_not_p2p cs :
  Forall good cs -> Forall plain cs -> Forall (fun c => code c.1 <> P2P) cs -> str "p2p" ∉ addr_words cs.
Proof.
  intros Hg Hpl Hn. induction Hg as [|[q v] cs Hc Hcs IH]; [apply not_elem_of_nil|].
  apply Forall_cons in Hpl as [Hplain Hpl]. apply Forall_cons in Hn as [Hq Hn].
  destruct Hc as ([Hin _] & _ & _). unfold plain in Hplain. cbn [fst snd] in *.
  unfold addr_words. cbn [map concat]. fold (addr_words cs). unfold component_words. cbn [fst snd].
  assert (str "p2p" <> name q) as Hname.
  { intros He. apply Hq. assert (p2p = q) as <- by by apply name_inj; [apply p2p_in| |]. done. }
  destruct (size q =? 0); cbn [app]; rewrite !not_elem_of_cons; split_and!; auto.
  intros He. destruct (Hplain eq_refl) as [Hv _]. rewrite <- He in Hv. by vm_compute in Hv.
Qed.

Lemma p2p_component m t h : multihash_of t h m -> good (p2p, toBuffer m).
Proof.
  intros Hm. destruct (multihash_of_spec t h m Hm) as (pre & Hpre & Heq & Hok & Hl & _).
  assert (is_u64 t) as Ht by apply Hm. destruct (EncodeVarint_ok t Ht) as (l & Hl' & _ & Hlen & _).
  assert (l = pre) as -> by congruence. unfold kMaxHashLength in Hl.
  split_and!; [|done|]; cbn [fst snd].
  - split; [apply p2p_in|]. cbn [fst snd p2p size]. change (kVarLen =? 0) with false. split_and!; [done| |done].
    rewrite Heq. cbn [toBuffer mbytes]. rewrite length_app. cbn [length]. lia.
  - intros _. rewrite Heq. cbn. by destruct pre.
Qed.

Lemma first_peer_id cs m t h :
  Forall good cs -> Forall plain cs -> Forall (fun c => code c.1 <> P2P) cs -> multihash_of t h m ->
  getFirstValueForProtocol (address_of (cs ++ [(p2p, toBuffer m)])) (code_value P2P) = success (toBase58 m).
Proof.
  intros Hg Hpl Hn Hm. unfold getFirstValueForProtocol. change (code_value P2P) with (code_value (code p2p)).
  rewrite values_words; [|apply Forall_app; split; [done|]; constructor; [by eapply p2p_component|constructor]|apply p2p_in].
  assert (addr_words (cs ++ [(p2p, toBuffer m)]) = addr_words cs ++ [str "p2p"; toBase58 m]) as ->.
  { unfold addr_words. rewrite map_app, concat_app. done. }
  change (name p2p) with (str "p2p"). rewrite scan_last by by apply words_not_p2p. done.
Qed.

Lemma decapsulate_peer cs m t h :
  multihash_of t h m ->
  decapsulate_protocol (address_of (cs ++ [(p2p, toBuffer m)])) (code_value P2P) (toBase58 m) = (true, address_of cs).
Proof.
  intros Hm. pose proof (p2p_component m t h Hm) as Hgood.
  assert (Forall good [(p2p, toBuffer m)]) as Hg1 by (constructor; [done|constructor]).
  unfold decapsulate_protocol. change (get_by_code (code_value P2P)) with (Some p2p). cbn [name p2p].
  assert (toBase58 m <> []) as Hne.
  { destruct (words_complete _ [] Hg1) as [_ Hd]. cbn [map concat] in Hd. unfold component_words in Hd.
    change (size _ =? 0) with false in Hd. cbn [app] in Hd. apply Forall_cons in Hd as [_ Hd].
    by apply Forall_cons in Hd as [[? _] _]. }
  rewrite decide_False by done.
  assert (slash :: str "p2p" ++ slash :: toBase58 m = addr_text [(p2p, toBuffer m)]) as ->.
  { unfold addr_text, component_text. cbn [map concat]. unfold component_words.
    change (size _ =? 0) with false. cbn [map concat]. rewrite !app_nil_r. done. }
  rewrite addr_text_parse by done. rewrite <- encapsulate_components. apply decapsulate_suffix.
Qed.

Lemma peer_text_parsed cs m t h :
  Forall good cs -> Forall plain cs -> Forall (fun c => code c.1 <> P2P) cs ->
  multihash_of t h m -> fromHash m = success m ->
  create_text (addr_text (cs ++ [(p2p, toBuffer m)])) = Some (success (mkPeerAddress m (address_of cs))).
Proof.
  intros Hg Hpl Hn Hm Hh. unfold create_text. rewrite Multiaddress.create_text.
  - rewrite (first_peer_id cs m t h) by done. rewrite (base58_from_hash t h m Hm), Hh.
    by rewrite (decapsulate_peer cs m t h Hm).
  - by destruct cs.
  - apply Forall_app. split; [done|]. constructor; [by eapply p2p_component|constructor].
Qed.

(** ** Properties *)

(** A peer address survives its text form.  For an id as [Multihash::create]
    makes them that [PeerId::fromHash] accepts, and an address of printable
    components without a peer id of its own and without a value that looks like a
    protocol, [PeerAddress::create] of [toString] gives the same id and the same
    address, text and bytes. *)
Theorem peer_address_roundtrip cs m t h :
  Forall good cs -> Forall plain cs -> Forall (fun c => code c.1 <> P2P) cs ->
  multihash_of t h m -> fromHash m = success m ->
  create_text (toString (mkPeerAddress m (address_of cs))) = Some (success (mkPeerAddress m (address_of cs))).
Proof.
  intros Hg Hpl Hn Hm Hh.
  assert (toString (mkPeerAddress m (address_of cs)) = addr_text (cs ++ [(p2p, toBuffer m)])) as ->.
  { unfold toString, addr_text. rewrite map_app, concat_app. cbn [address_ id_ address_of stringified_address_]. f_equal.
    cbn [map concat]. unfold component_text, component_words. change (size _ =? 0) with false.
    cbn [map concat]. rewrite !app_nil_r. done. }
  by apply (peer_text_parsed cs m t h).
Qed.
End Laws.

(** Which ids of public keys survive their text form.  An id made from a
    protobuf-encoded key is parsed back from its base-58 text unless the key is
    empty, or is inlined and 41 or 42 bytes long: then the limit that let
    [fromPublicKey] inline the key makes [fromBase58] refuse the id, which is two
    bytes longer. *)
Theorem public_key_id_text sha256 key m :
  bytes_ok key -> (forall k, bytes_ok (sha256 k) /\ length (sha256 k) = 32%nat) ->
  fromPublicKey sha256 key = Some (success m) ->
  fromBase58 (toBase58 m)
  = Some (if decide (key = []) then failure (OfPeerId (FromMultihash ZERO_INPUT_LENGTH))
          else if decide (41 <= length key <= 42)%nat then failure (OfPeerId SHA256_EXPECTED)
          else success m).
Proof.
  intros Hk Hsha. unfold fromPublicKey. destruct (decide (key = [])) as [->|Hne].
  { cbn. intros [= <-]. vm_compute. reflexivity. }
  case_decide as Hl.
  - destruct (Multihash.create identity key) as [[m'|]|] eqn:Hc; [|done|done]. intros [= <-].
    assert (multihash_of identity key m') as Hm by (split_and!; [unfold is_u64, identity; lia|done|done|done]).
    destruct (multihash_of_spec _ _ _ Hm) as (p & Hp & Heq & _). vm_compute in Hp. injection Hp as <-.
    rewrite (base58_from_hash _ _ _ Hm). unfold fromHash, kMaxInlineKeyLength in *. rewrite Heq.
    cbn [getType mtype toBuffer mbytes app length]. change (identity =? sha256_type) with false. cbn [negb andb].
    case_bool_decide; case_decide; (done || lia).
  - destruct (Hsha key) as [Hok Hlen].
    destruct (Multihash.create sha256_type (sha256 key)) as [[m'|]|] eqn:Hc; [|done|done]. intros [= <-].
    assert (multihash_of sha256_type (sha256 key) m') as Hm.
    { split_and!; [unfold is_u64, sha256_type; lia|done| |done]. by destruct (sha256 key). }
    rewrite (base58_from_hash _ _ _ Hm). unfold fromHash. destruct (multihash_of_fields _ _ _ Hm) as [-> _].
    rewrite Z.eqb_refl. cbn [negb andb]. rewrite decide_False by (unfold kMaxInlineKeyLength in Hl; lia). done.
Qed.

Import (hints) Plain.
Import (hints) Multibase.Multibase.

Definition sample_id : Multihash := mkMultihash (0x12 :: 32 :: replicate 32 7) 2 sha256_type.
Lemma sample_id_ok : multihash_of sha256_type (replicate 32 7) sample_id.
Proof. split_and!; [done|by apply Forall_replicate|done|done]. Qed.

Lemma peer_address_roundtrip_witness :
  create_text (toString (mkPeerAddress sample_id (address_of (take 3 sample))))
  = Some (success (mkPeerAddress sample_id (address_of (take 3 sample)))).
Proof.
  apply (peer_address_roundtrip (take 3 sample) sample_id sha256_type (replicate 32 7)).
  - apply Forall_take, sample_good.
  - apply Forall_take, sample_good.
  - repeat constructor; discriminate.
  - apply sample_id_ok.
  - reflexivity.
Defined.

Lemma public_key_id_text_witness :
  exists m, fromPublicKey (fun _ => replicate 32 7) (replicate 41 9) = Some (success m)
    /\ fromBase58 (toBase58 m) = Some (failure (OfPeerId SHA256_EXPECTED)).
Proof.
  eexists. split; [reflexivity|].
  refine (eq_trans (public_key_id_text (fun _ => replicate 32 7) (replicate 41 9) _ _ _ _) _).
  - by apply Forall_replicate.
  - intros k. split; [by apply Forall_replicate|reflexivity].
  - reflexivity.
  - reflexivity.
Defined.
