(* ===== verification/Literals.v ===== *)
(** * Hexadecimal forms, comparisons of peer ids, and the literals

    The rest of [src/multi/multihash.cpp] and [src/peer/peer_id.cpp] (hexadecimal text,
    the order of ids) and [src/common/literals.cpp], the user-defined literals.  The
    hexadecimal code of qtils is the parameter of [Multibase.v]; [None] is a failed
    assertion, or the exception of [value()] on an error. *)

From S2P Require Import Prelude Varint Multihash Base58 Multibase ByteUtil MultiaddrCodec MultiaddrPlain Multiaddress PeerAddress.
Import Multibase.Base16.

(** ** Hexadecimal *)

Inductive hex_error := Unhex | OfMultihash (e : multihash_error).

Section Hexadecimal.
Context `{Hex}.

Definition createFromHex (text : bytes) : option (outcome hex_error Multihash) :=
  match unhex text with
  | None => Some (failure Unhex)
  | Some buf =>
      match createFromBytes buf with
      | None => None
      | Some (failure e) => Some (failure (OfMultihash e))
      | Some (success m) => Some (success m)
      end
  end.
(** [Multihash::toHex], and [PeerId::toHex]. *)
Definition toHex (m : Multihash) : bytes := hex true (mbytes m).
Definition peer_toHex (hash_ : Multihash) : bytes := toHex hash_.
End Hexadecimal.

(** ** [PeerId] *)

Definition peer_ltb (a b : Multihash) : bool := multihash_ltb a b.
Definition peer_eqb (a b : Multihash) : bool := multihash_eqb a b.
Definition peer_neqb (a b : Multihash) : bool := negb (peer_eqb a b).
Definition toVector (hash_ : Multihash) : bytes := toBuffer hash_.

(** ** Literals *)

(** [std::copy_n(c, n, hash.rbegin())] into an array; the [i]-th byte from the end. *)
Fixpoint copy_back (i : nat) (c : bytes) (hash : bytes) : bytes :=
  match c with
  | [] => hash
  | x :: c => copy_back (S i) c (<[(length hash - 1 - i)%nat := x]> hash)
  end.
Definition literal_hash (size : nat) (c : bytes) : bytes := copy_back 0 (take (Nat.min (length c) size) c) (replicate size 0).
Definition hash256 (c : bytes) : bytes := literal_hash 32 c.
Definition hash512 (c : bytes) : bytes := literal_hash 64 c.
Definition literal_v (c : bytes) : bytes := c.

(** [value()] of a result. *)
Definition value {E A} (r : option (outcome E A)) : option A :=
  match r with Some (success a) => Some a | _ => None end.

Section Literals.
Context `{Ext, Hex} (sha256 : bytes -> bytes).
Definition literal_unhex (c : bytes) : option bytes := unhex c.
Definition literal_multiaddr (c : bytes) : option Multiaddress := value (Multiaddress.create c).
Definition literal_multihash (c : bytes) : option Multihash := value (createFromHex c).
Definition literal_peerid (c : bytes) : option Multihash := value (fromPublicKey sha256 c).
End Literals.

(** ** Proofs *)

(** The hexadecimal text of a multihash is read back as the multihash, and by the literal. *)
Theorem hex_roundtrip `{HexLaws} t h m :
  multihash_of t h m -> createFromHex (toHex m) = Some (success m) /\ literal_multihash (toHex m) = Some m.
Proof.
  intros Hm. destruct (multihash_of_spec t h m Hm) as (p & _ & _ & Hok & _ & Hc). unfold literal_multihash.
  assert (createFromHex (toHex m) = Some (success m)) as E
    by (unfold createFromHex, toHex; rewrite unhex_hex by done; unfold toBuffer in Hc; by rewrite Hc).
  by rewrite E.
Qed.

(** Peer ids are ordered strictly and totally, and [==] is equality of what was hashed. *)
Theorem peer_order_total a b c :
  peer_ltb a a = false
  /\ (peer_ltb a b = true -> peer_ltb b c = true -> peer_ltb a c = true)
  /\ (peer_eqb a b = true \/ peer_ltb a b = true \/ peer_ltb b a = true)
  /\ (peer_eqb a b = true -> peer_ltb a b = false)
  /\ peer_neqb a b = negb (peer_eqb a b).
Proof.
  unfold peer_ltb, peer_neqb, peer_eqb, multihash_ltb, multihash_eqb.
  split; [rewrite Z.eqb_refl; pose proof (bytes_ltb_trichotomy (mbytes a) (mbytes a)); by destruct (bytes_ltb _ _)|].
  split; [|split; [|split; [|done]]].
  - destruct (Z.eqb_spec (mtype a) (mtype b)), (Z.eqb_spec (mtype b) (mtype c)), (Z.eqb_spec (mtype a) (mtype c)); try lia.
    apply bytes_ltb_trans.
  - rewrite (Z.eqb_sym (mtype b)). destruct (Z.eqb_spec (mtype a) (mtype b)); [|right; lia].
    pose proof (bytes_ltb_trichotomy (mbytes a) (mbytes b)). rewrite andb_true_r.
    destruct (bytes_ltb (mbytes a) (mbytes b)), (bytes_ltb (mbytes b) (mbytes a)); auto. left. by apply bool_decide_eq_true.
  - rewrite andb_true_iff, bool_decide_eq_true. intros [E ->%Z.eqb_eq]. rewrite Z.eqb_refl, E.
    pose proof (bytes_ltb_trichotomy (mbytes b) (mbytes b)). by destruct (bytes_ltb _ _).
Qed.

Lemma copy_back_exact c : forall i n l,
  length l = i -> (i + length c <= n)%nat ->
  copy_back i c (replicate (n - i) 0 ++ l) = replicate (n - i - length c) 0 ++ reverse c ++ l.
Proof.
  induction c as [|x c IH]; intros i n l Hi Hn; cbn [copy_back length] in *; [by rewrite Nat.sub_0_r|].
  rewrite length_app, length_replicate, Hi. replace (n - i + i - 1 - i)%nat with (n - i - 1)%nat by lia.
  rewrite insert_app_l by (rewrite length_replicate; lia).
  replace (<[(n - i - 1)%nat := x]> (replicate (n - i) 0)) with (replicate (n - S i) 0 ++ [x]).
  - rewrite <- app_assoc. cbn [app]. rewrite IH by (cbn; lia). rewrite reverse_cons, <- app_assoc. by replace (n - i - S (length c))%nat with (n - S i - length c)%nat by lia.
  - replace (n - i)%nat with (n - S i + 1)%nat at 2 by lia. rewrite replicate_add.
    rewrite insert_app_r_alt by (rewrite length_replicate; lia). rewrite length_replicate.
    by replace (n - i - 1 - (n - S i))%nat with 0%nat by lia.
Qed.

(** A literal of a hash is its characters from the last byte backwards, filled with zeros
    in front; characters that do not fit are dropped. *)
Theorem literal_hash_exact size c :
  literal_hash size c = replicate (size - length c) 0 ++ reverse (take size c) /\ length (literal_hash size c) = size.
Proof.
  assert (literal_hash size c = replicate (size - length c) 0 ++ reverse (take size c)) as E.
  { unfold literal_hash. pose proof (copy_back_exact (take (Nat.min (length c) size) c) 0 size [] eq_refl) as L.
    rewrite length_take in L. rewrite Nat.sub_0_r, !app_nil_r in L. rewrite L by lia.
    replace (size - Nat.min (Nat.min (length c) size) (length c))%nat with (size - length c)%nat by lia. f_equal. f_equal.
    destruct (Nat.le_ge_cases (length c) size); [rewrite Nat.min_l by done; by rewrite !take_ge by lia|by rewrite Nat.min_r]. }
  split; [done|]. rewrite E, length_app, length_replicate, length_reverse, length_take. lia.
Qed.

(** A literal of a peer id never throws, whatever the text. *)
Theorem literal_peerid_total sha256 c :
  (forall b, length (sha256 b) = 32%nat) -> is_Some (literal_peerid sha256 c).
Proof.
  intros Hs. unfold literal_peerid, fromPublicKey, kMaxInlineKeyLength.
  assert (forall t h, is_u64 t -> (length h <= 127)%nat -> exists m, Multihash.create t h = Some (success m)) as Hcr.
  { intros t h Ht Hl. unfold Multihash.create, kMaxHashLength. rewrite decide_False by lia. destruct (Data_make_spec t h Ht ltac:(lia)) as (p & _ & ->). by eexists. }
  case_decide.
  - destruct (Hcr identity c) as [m ->]; [unfold is_u64, identity; lia|lia|]. by eexists.
  - destruct (Hcr sha256_type (sha256 c)) as [m ->]; [unfold is_u64, sha256_type; lia|rewrite Hs; lia|]. by eexists.
Qed.

(** There are peer ids whose text is shorter than the 46 characters of a SHA-256 one. *)
Lemma short_peer_id : exists id, fromBytes [0; 1; 7] = Some (success id) /\ (length (toBase58 id) < 46)%nat.
Proof. eexists. split; [vm_compute; reflexivity|vm_compute; lia]. Qed.
