(* ===== verification/TcpUtil.v ===== *)
(** * Transport addresses

    [include/libp2p/transport/tcp/tcp_util.hpp]: reading the endpoint off a
    multiaddress and writing an endpoint as one.  An endpoint's address is its
    bytes; the scope of an IPv6 address is never part of a printed multiaddress. *)

From S2P Require Import Prelude Multihash Multibase ByteUtil MultiaddrCodec MultiaddrPlain Multiaddress.

Inductive ip_address := V4 (b : bytes) | V6 (b : bytes).
Record Dns := mkDns { dns_v4 : option bool; dns_name : bytes }.
Inductive IpOrDns := IsIp (ip : ip_address) | IsDns (dns : Dns).

#[export] Instance ip_address_eq_dec : EqDecision ip_address.
Proof. solve_decision. Defined.

(** [protocol_not_supported], the error of [make_address], that of [from_chars], an
    error or the failing assertion of [Multiaddress::create]. *)
Inductive util_error := not_supported | bad_ip | bad_port | bad_address (e : Multiaddress.Error).

Record TcpOrUdp := mkTcpOrUdp { ip : IpOrDns; port : Z; udp : bool }.
Record endpoint := mkEndpoint { ep_ip : ip_address; ep_port : Z }.

Abbreviation ProtoAddrVec := (list (Protocol * bytes)).

Section Util.
Context `{Ext, Hex}.

(** The iterator is the rest of the vector. *)
Definition readIpOrDns (it : ProtoAddrVec) : outcome util_error (IpOrDns * ProtoAddrVec) :=
  match it with
  | [] => failure not_supported
  | (p, v) :: it =>
      match code p with
      | IP4 => match make_address_v4 v with Some b => success (IsIp (V4 b), it) | None => failure bad_ip end
      | IP6 => match make_address_v6 v with Some b => success (IsIp (V6 b), it) | None => failure bad_ip end
      | DNS => success (IsDns (mkDns None v), it)
      | DNS4 => success (IsDns (mkDns (Some true) v), it)
      | DNS6 => success (IsDns (mkDns (Some false) v), it)
      | _ => failure not_supported
      end
  end.

Definition readTcpOrUdp (it : ProtoAddrVec) : outcome util_error (TcpOrUdp * ProtoAddrVec) :=
  (TRY (addr, it) <- readIpOrDns it ;;
   match it with
   | [] => failure not_supported
   | (p, v) :: it =>
       let read_port (is_udp : bool) :=
         match from_chars_u16 v with
         | None => failure bad_port
         | Some n => success (mkTcpOrUdp addr n is_udp, it)
         end in
       match code p with
       | TCP => read_port false
       | UDP => read_port true
       | _ => failure not_supported
       end
   end)%p2p.

(** [TcpOrUdp::as<T>] *)
Definition as_endpoint (a : TcpOrUdp) (want_udp : bool) : outcome util_error endpoint :=
  match ip a with
  | IsIp i => if eqb (udp a) want_udp then success (mkEndpoint i (port a)) else failure not_supported
  | IsDns _ => failure not_supported
  end.

(** The elements before the first P2P component: [std::find_if]. *)
Fixpoint layers_before_p2p (it : ProtoAddrVec) : ProtoAddrVec :=
  match it with
  | [] => []
  | pv :: it => if decide (code pv.1 = P2P) then [] else pv :: layers_before_p2p it
  end.

(** [None] is undefined behaviour in [getProtocolsWithValues]. *)
Definition asTcp (ma : Multiaddress) : option (outcome util_error (TcpOrUdp * ProtoAddrVec)) :=
  v ← getProtocolsWithValues ma;
  Some (TRY (addr, it) <- readTcpOrUdp v ;;
        (if udp addr then failure not_supported else success (addr, layers_before_p2p it)))%p2p.

Definition asQuic (ma : Multiaddress) : option (outcome util_error TcpOrUdp) :=
  v ← getProtocolsWithValues ma;
  Some (TRY (addr, it) <- readTcpOrUdp v ;;
        (if negb (udp addr) then failure not_supported
         else match it with
              | [] => failure not_supported
              | pv :: _ => if decide (code pv.1 = QUIC_V1) then success addr else failure not_supported
              end))%p2p.

Definition ip_to_string (i : ip_address) : bytes :=
  match i with V4 b => v4_to_string b | V6 b => v6_to_string b end.

Definition toMultiaddr (is_tcp : bool) (e : endpoint) : bytes :=
  slash :: (match ep_ip e with V4 _ => str "ip4" | V6 _ => str "ip6" end)
    ++ slash :: ip_to_string (ep_ip e)
    ++ slash :: (if is_tcp then str "tcp" else str "udp")
    ++ slash :: to_string (ep_port e).

Definition makeAddress (e : endpoint) (layers : ProtoAddrVec) : option (outcome Multiaddress.Error Multiaddress) :=
  let s := toMultiaddr true e in
  let s := match layers with
           | [] => s
           | (p, _) :: _ => if decide (code p = WS) then s ++ str "/ws"
                            else if decide (code p = WSS) then s ++ str "/wss" else s
           end in
  create s.

Definition makeQuicAddr (e : endpoint) : option (outcome Multiaddress.Error Multiaddress) :=
  create (toMultiaddr false e ++ str "/quic-v1").
End Util.

(** ** Proofs *)

Definition endpoint_ok (e : endpoint) : Prop :=
  0 <= ep_port e < 2 ^ 16
  /\ match ep_ip e with V4 b => bytes_ok b /\ length b = 4%nat | V6 b => bytes_ok b /\ length b = 16%nat end.

Definition ip_component (i : ip_address) : component :=
  match i with
  | V4 b => (mkProtocol IP4 32 (str "ip4"), b)
  | V6 b => (mkProtocol IP6 128 (str "ip6"), b)
  end.
Definition port_component (is_tcp : bool) (n : Z) : component :=
  (if is_tcp then mkProtocol TCP 16 (str "tcp") else mkProtocol UDP 16 (str "udp"), [n / 256; n mod 256]).
Definition flag_component (c : Code) (n : bytes) : component := (mkProtocol c 0 n, []).

(** No protocol has a name of digits and dots, or one with a colon. *)
Lemma not_a_name (f : Z -> bool) s :
  forallb (fun p => negb (forallb f (name p))) protocols_ = true -> negb (forallb f (str "ipfs")) = true ->
  Forall (fun c => f c = true) s -> get_by_name s = None.
Proof.
  intros Hall Hi Hs. destruct (get_by_name s) as [p|] eqn:E; [|done]. exfalso. unfold get_by_name in E.
  assert (forallb f s = true) as Hf by (apply forallb_forall; intros c Hc; eapply Forall_forall in Hs; [exact Hs|by apply list_elem_of_In]).
  case_bool_decide; [subst; by rewrite Hf in Hi|]. apply List.find_some in E as [Hin Hn].
  apply bool_decide_eq_true in Hn. rewrite forallb_forall in Hall. apply Hall in Hin. by rewrite Hn, Hf in Hin.
Qed.

Lemma not_ipfs (f : Z -> bool) s : f 105 = false -> Forall (fun c => f c = true) s -> is_prefix (str "ipfs") s = false.
Proof.
  intros Hf Hs. destruct (is_prefix (str "ipfs") s) eqn:E; [|done]. apply is_prefix_true in E as [r ->].
  apply Forall_cons in Hs as [Hi _]. change (f 105 = true) in Hi. congruence.
Qed.

Section Laws.
Context `{ExtLaws, Hex}.

Lemma ip_good e : endpoint_ok e -> good (ip_component (ep_ip e)) /\ plain (ip_component (ep_ip e)).
Proof.
  intros [_ Hip]. destruct (ep_ip e) as [b|b]; destruct Hip as [Hb Hl].
  - destruct (v4_text b Hb Hl) as [_ Hc]. split.
    + split_and!; [|done|done]. split; [by apply (get_by_name_in (str "ip4"))|].
      cbn [fst snd size ip_component]. split_and!; [done|lia|done].
    + intros _. cbn [fst snd ip_component value_text code]. split.
      * by apply (not_a_name ip4_char).
      * by apply (not_ipfs ip4_char).
  - destruct (v6_text b Hb Hl) as [Hcol Hc]. split.
    + split_and!; [|done|done]. split; [by apply (get_by_name_in (str "ip6"))|].
      cbn [fst snd size ip_component]. split_and!; [done|lia|done].
    + intros _. cbn [fst snd ip_component value_text code]. split.
      * by apply (not_a_name ip6_char).
      * by apply (not_ipfs ip6_char).
Qed.

Lemma port_value n : 0 <= n < 2 ^ 16 -> bytes_ok [n / 256; n mod 256] /\ load_big_u16 [n / 256; n mod 256] = n.
Proof.
  intros Hn. split; [constructor; [|constructor; [|constructor]]; unfold is_byte; divlia|]. rewrite load_big. divlia.
Qed.

Lemma port_good is_tcp n : 0 <= n < 2 ^ 16 -> good (port_component is_tcp n) /\ plain (port_component is_tcp n).
Proof.
  intros Hn. destruct (port_value n Hn) as [Hb Hv]. destruct (to_string_spec n ltac:(lia)) as (Hne & Hd & _). split.
  - split_and!; [|by destruct is_tcp|by destruct is_tcp]. split.
    + destruct is_tcp; [by apply (get_by_name_in (str "tcp"))|by apply (get_by_name_in (str "udp"))].
    + destruct is_tcp; cbn [fst snd size port_component]; (split_and!; [done|cbn [length]; lia|done]).
  - intros _. replace (value_text _ _) with (to_string n) by (destruct is_tcp; cbn; by rewrite Hv). split.
    + by apply (not_a_name isdigit).
    + by apply (not_ipfs isdigit).
Qed.

Lemma flag_good c n :
  get_by_name n = Some (mkProtocol c 0 n) -> good (flag_component c n) /\ plain (flag_component c n).
Proof.
  intros Hget. apply get_by_name_in in Hget. split; [|done]. split_and!.
  - split; done.
  - by apply flag_printable.
  - intros Hc. cbn [fst flag_component code] in Hc. subst c. pose proof (rows_ok _ Hget) as Hrow.
    unfold row_ok in Hrow. apply andb_true_iff in Hrow as [_ Hrow]. done.
Qed.

Lemma endpoint_text is_tcp e :
  endpoint_ok e -> toMultiaddr is_tcp e = addr_text [ip_component (ep_ip e); port_component is_tcp (ep_port e)].
Proof.
  intros [Hp Hip]. destruct (port_value _ Hp) as [_ Hv]. unfold addr_text. cbn [map concat].
  unfold component_text, component_words, toMultiaddr.
  destruct (ep_ip e) as [b|b], is_tcp; cbn [fst snd ip_component port_component size Z.eqb value_text code name map concat ip_to_string];
    rewrite Hv, !app_nil_r; cbn [app]; by rewrite <- ?app_assoc.
Qed.

Lemma read_endpoint is_tcp e rest :
  endpoint_ok e ->
  readTcpOrUdp (map component_pair [ip_component (ep_ip e); port_component is_tcp (ep_port e)] ++ rest)
  = success (mkTcpOrUdp (IsIp (ep_ip e)) (ep_port e) (negb is_tcp), rest).
Proof.
  intros [Hp Hip]. destruct (port_value _ Hp) as [_ Hv]. destruct (port_text _ Hp) as [_ Hfc].
  unfold readTcpOrUdp, readIpOrDns, component_pair.
  destruct (ep_ip e) as [b|b]; destruct Hip as [Hb Hl], is_tcp;
    cbn [map app fst snd ip_component port_component size Z.eqb value_text code];
    rewrite ?v4_parse_print, ?v6_parse_print, Hv, Hfc by done; done.
Qed.

Definition quic_components (e : endpoint) : list component :=
  [ip_component (ep_ip e); port_component false (ep_port e); flag_component QUIC_V1 (str "quic-v1")].

Lemma quic_good e : endpoint_ok e -> Forall good (quic_components e) /\ Forall plain (quic_components e).
Proof.
  intros He. destruct (ip_good e He), (port_good false (ep_port e) (proj1 He)),
    (flag_good QUIC_V1 (str "quic-v1") eq_refl).
  split; repeat (constructor; [done|]); constructor.
Qed.

(** ** Properties *)

(** A QUIC endpoint survives being written as a multiaddress.  The address
    made from an endpoint is read back as that endpoint, also after further
    components such as the peer id have been appended. *)
Theorem quic_address_roundtrip e cs :
  endpoint_ok e -> Forall good cs -> Forall plain cs ->
  exists ma, makeQuicAddr e = Some (success ma)
    /\ asQuic (encapsulate ma (address_of cs)) = Some (success (mkTcpOrUdp (IsIp (ep_ip e)) (ep_port e) true))
    /\ as_endpoint (mkTcpOrUdp (IsIp (ep_ip e)) (ep_port e) true) true = success e
    /\ asTcp (encapsulate ma (address_of cs)) = Some (failure not_supported).
Proof.
  intros He Hg Hpl. destruct (quic_good e He) as [Hqg Hqp]. exists (address_of (quic_components e)).
  assert (getProtocolsWithValues (encapsulate (address_of (quic_components e)) (address_of cs))
          = Some (map component_pair [ip_component (ep_ip e); port_component false (ep_port e)]
                  ++ component_pair (flag_component QUIC_V1 (str "quic-v1")) :: map component_pair cs)) as Hpv.
  { rewrite encapsulate_components, pvs_components by (apply Forall_app; done). by rewrite map_app. }
  split_and!.
  - unfold makeQuicAddr. rewrite endpoint_text by done.
    change (str "/quic-v1") with (addr_text [flag_component QUIC_V1 (str "quic-v1")]).
    replace (addr_text _ ++ addr_text _) with (addr_text (quic_components e)); [by apply create_text|].
    unfold addr_text. rewrite <- concat_app, <- map_app. done.
  - unfold asQuic. rewrite Hpv. cbn [mbind option_bind]. by rewrite read_endpoint.
  - by destruct e.
  - unfold asTcp. rewrite Hpv. cbn [mbind option_bind]. by rewrite read_endpoint.
Qed.

(** A TCP endpoint survives with its layer.  The address made from an endpoint
    and layers starting with "ws" or "wss" is read back as the endpoint and that
    layer, other layers are dropped, and [asQuic] refuses it. *)
Theorem tcp_address_roundtrip e layers :
  endpoint_ok e ->
  let kept := match layers with
              | (p, _) :: _ => if decide (code p = WS) then [(mkProtocol WS 0 (str "ws"), [])]
                               else if decide (code p = WSS) then [(mkProtocol WSS 0 (str "wss"), [])] else []
              | [] => []
              end in
  exists ma, makeAddress e layers = Some (success ma)
    /\ asTcp ma = Some (success (mkTcpOrUdp (IsIp (ep_ip e)) (ep_port e) false, kept))
    /\ asQuic ma = Some (failure not_supported).
Proof.
  intros He kept. destruct (ip_good e He) as [Hig Hip], (port_good true (ep_port e) (proj1 He)) as [Hpg Hpp].
  set (base := [ip_component (ep_ip e); port_component true (ep_port e)]).
  assert (exists fs, Forall good fs /\ Forall plain fs /\ map component_pair fs = kept
            /\ makeAddress e layers = create (addr_text (base ++ fs)) /\ layers_before_p2p kept = kept)
    as (fs & Hfg & Hfp & Hmap & Hmake & Hlay).
  { assert (forall fs s, s = addr_text fs -> toMultiaddr true e ++ s = addr_text (base ++ fs)) as Htext.
    { intros fs s ->. rewrite endpoint_text by done. unfold addr_text. by rewrite map_app, concat_app. }
    assert (toMultiaddr true e = addr_text (base ++ [])) as Hnil
      by (rewrite <- (Htext [] []) by done; by rewrite app_nil_r).
    unfold makeAddress, kept. destruct layers as [|[p v] layers]; [exists []|].
    { split_and!; [constructor|constructor|done|by rewrite <- Hnil|done]. }
    destruct (decide (code p = WS)); [|destruct (decide (code p = WSS))].
    - exists [flag_component WS (str "ws")]. destruct (flag_good WS (str "ws") eq_refl).
      split_and!; [by repeat constructor|by repeat constructor|done|by rewrite <- (Htext _ (str "/ws")) by done|done].
    - exists [flag_component WSS (str "wss")]. destruct (flag_good WSS (str "wss") eq_refl).
      split_and!; [by repeat constructor|by repeat constructor|done|by rewrite <- (Htext _ (str "/wss")) by done|done].
    - exists []. split_and!; [constructor|constructor|done|by rewrite <- Hnil|done]. }
  assert (Forall good (base ++ fs)) as Hbg by (apply Forall_app; split; [repeat (constructor; [done|]); constructor|done]).
  assert (Forall plain (base ++ fs)) as Hbp by (apply Forall_app; split; [repeat (constructor; [done|]); constructor|done]).
  assert (getProtocolsWithValues (address_of (base ++ fs)) = Some (map component_pair base ++ kept)) as Hpv
    by (rewrite pvs_components, map_app, Hmap by done; done).
  exists (address_of (base ++ fs)). split_and!.
  - rewrite Hmake. by apply create_text.
  - unfold asTcp. rewrite Hpv. cbn [mbind option_bind]. unfold base. rewrite read_endpoint by done. cbn [udp negb]. by rewrite Hlay.
  - unfold asQuic. rewrite Hpv. cbn [mbind option_bind]. unfold base. by rewrite read_endpoint.
Qed.
End Laws.
Import (hints) Plain.
Import (hints) Multibase.Multibase.

Lemma quic_address_roundtrip_witness :
  exists ma, makeQuicAddr (mkEndpoint (V4 [127; 0; 0; 1]) 9000) = Some (success ma)
    /\ asQuic (encapsulate ma (address_of [])) = Some (success (mkTcpOrUdp (IsIp (V4 [127; 0; 0; 1])) 9000 true))
    /\ as_endpoint (mkTcpOrUdp (IsIp (V4 [127; 0; 0; 1])) 9000 true) true
       = success (mkEndpoint (V4 [127; 0; 0; 1]) 9000)
    /\ asTcp (encapsulate ma (address_of [])) = Some (failure not_supported).
Proof.
  apply (quic_address_roundtrip (mkEndpoint (V4 [127; 0; 0; 1]) 9000) []).
  - split; cbn [ep_port ep_ip]; [lia|]. split; [repeat constructor; vm_compute; done|done].
  - constructor.
  - constructor.
Defined.

Lemma tcp_address_roundtrip_witness :
  exists ma, makeAddress (mkEndpoint (V6 (replicate 16 1)) 80) [(mkProtocol WSS 0 (str "wss"), [])] = Some (success ma)
    /\ asTcp ma = Some (success (mkTcpOrUdp (IsIp (V6 (replicate 16 1))) 80 false, [(mkProtocol WSS 0 (str "wss"), [])]))
    /\ asQuic ma = Some (failure not_supported).
Proof.
  apply (tcp_address_roundtrip (mkEndpoint (V6 (replicate 16 1)) 80) [(mkProtocol WSS 0 (str "wss"), [])]).
  split; cbn [ep_port ep_ip]; [lia|]. split; [by apply Forall_replicate|done].
Defined.
