(* ===== verification/Keys.v ===== *)
(** * Keys and the crypto provider

    [include/libp2p/crypto/key.hpp], [crypto/key_marshaller.cpp],
    [crypto/key_validator/key_validator_impl.cpp],
    [crypto/crypto_provider/crypto_provider_impl.cpp] without the ephemeral keys of
    OpenSSL, [peer/identity_manager.cpp] and [PeerId::publicKey]. *)

From S2P Require Import Prelude Varint Multihash Base58 Multibase ByteUtil MultiaddrCodec MultiaddrPlain Multiaddress PeerAddress.

(** ** Keys *)

Module Key.
Inductive Type_ := UNSPECIFIED | RSA | Ed25519 | Secp256k1 | ECDSA.
#[export] Instance Type_eq_dec : EqDecision Type_.
Proof. solve_decision. Defined.
(** The enumeration's values. *)
Definition value (t : Type_) : Z :=
  match t with UNSPECIFIED => 100 | RSA => 0 | Ed25519 => 1 | Secp256k1 => 2 | ECDSA => 3 end.
End Key.
Import Key.

Record Key := mkKey { type : Type_; data : bytes }.
#[export] Instance Key_eq_dec : EqDecision Key.
Proof. solve_decision. Defined.
(** Both are a [Key] with nothing added. *)
Abbreviation PublicKey := Key.
Abbreviation PrivateKey := Key.
Record KeyPair := mkKeyPair { publicKey : PublicKey; privateKey : PrivateKey }.
#[export] Instance KeyPair_eq_dec : EqDecision KeyPair.
Proof. solve_decision. Defined.

(** The values of [CryptoProviderError], and those of [KeyGeneratorError],
    [KeyValidatorError], the provider's own enumeration and [HmacProviderError] that are
    returned. *)
Inductive CryptoError :=
| INVALID_KEY_TYPE | UNKNOWN_KEY_TYPE | FAILED_UNMARSHAL_DATA | SIGNATURE_GENERATION_FAILED
| SIGNATURE_VERIFICATION_FAILED
| UNSUPPORTED_KEY_TYPE | WRONG_KEY_TYPE
| WRONG_PUBLIC_KEY_SIZE | WRONG_PRIVATE_KEY_SIZE | INVALID_PUBLIC_KEY | INVALID_PRIVATE_KEY
| KEYS_DONT_MATCH | DIFFERENT_KEY_TYPES
| UNKNOWN_CIPHER_TYPE
| KEY_GENERATION_FAILED | KEY_DERIVATION_FAILED | INTERNAL_ERROR
| FAILED_INITIALIZE_CONTEXT | FAILED_UPDATE_DIGEST | FAILED_FINALIZE_DIGEST | WRONG_DIGEST_SIZE.
#[export] Instance CryptoError_eq_dec : EqDecision CryptoError.
Proof. solve_decision. Defined.

(** ** What is used of other libraries

    protobuf's code for the messages [PublicKey] and [PrivateKey] of [keys.proto],
    which have the same fields; a type that is not of the enumeration makes the
    required field missing, so that parsing fails. *)
Class Protobuf := {
  serialize_key : Z -> bytes -> bytes;
  parse_key : bytes -> option (Z * bytes)
}.

(** OpenSSL: the bits of an RSA key in DER, if it can be decoded. *)
Class RsaDer := {
  rsa_private_bits : bytes -> option Z;
  rsa_public_bits : bytes -> option Z
}.

Inductive RSAKeyType := RSA1024 | RSA2048 | RSA4096.
#[export] Instance RSAKeyType_eq_dec : EqDecision RSAKeyType.
Proof. solve_decision. Defined.

(** The providers of each key type and the HMAC provider. *)
Class Providers := {
  rsa_generate : RSAKeyType -> outcome CryptoError (bytes * bytes);
  rsa_derive : bytes -> outcome CryptoError bytes;
  rsa_sign : bytes -> bytes -> outcome CryptoError bytes;
  rsa_verify : bytes -> bytes -> bytes -> outcome CryptoError bool;
  ed25519_generate : outcome CryptoError (bytes * bytes);
  ed25519_derive : bytes -> outcome CryptoError bytes;
  ed25519_sign : bytes -> bytes -> outcome CryptoError bytes;
  ed25519_verify : bytes -> bytes -> bytes -> outcome CryptoError bool;
  secp256k1_generate : outcome CryptoError (bytes * bytes);
  secp256k1_derive : bytes -> outcome CryptoError bytes;
  secp256k1_sign : bytes -> bytes -> outcome CryptoError bytes;
  secp256k1_verify : bytes -> bytes -> bytes -> outcome CryptoError bool;
  ecdsa_generate : outcome CryptoError (bytes * bytes);
  ecdsa_derive : bytes -> outcome CryptoError bytes;
  ecdsa_sign : bytes -> bytes -> outcome CryptoError bytes;
  ecdsa_verify : bytes -> bytes -> bytes -> outcome CryptoError bool;
  hmac_digest : Z -> bytes -> bytes -> outcome CryptoError bytes
}.

(** ** Crypto provider

    Results in [option]: [None] is an access out of bounds. *)
Module Provider.
Section Provider.
Context `{Providers}.

(** [std::copy_n(v.begin(), n, array.begin())] *)
Definition copy_n (n : nat) (v : bytes) : option bytes :=
  if decide (n <= length v)%nat then Some (take n v) else None.

Definition key_pair (t : Type_) (r : outcome CryptoError (bytes * bytes)) : outcome CryptoError KeyPair :=
  (TRY (pub, priv) <- r ;; success (mkKeyPair (mkKey t pub) (mkKey t priv)))%p2p.

Definition generateRsa (rsa_bitness : RSAKeyType) : outcome CryptoError KeyPair := key_pair RSA (rsa_generate rsa_bitness).
Definition generateEd25519 : outcome CryptoError KeyPair := key_pair Ed25519 ed25519_generate.
Definition generateSecp256k1 : outcome CryptoError KeyPair := key_pair Secp256k1 secp256k1_generate.
Definition generateEcdsa : outcome CryptoError KeyPair := key_pair ECDSA ecdsa_generate.
Definition generateKeys (key_type : Type_) (rsa_bitness : RSAKeyType) : outcome CryptoError KeyPair :=
  match key_type with
  | RSA => generateRsa rsa_bitness
  | Ed25519 => generateEd25519
  | Secp256k1 => generateSecp256k1
  | ECDSA => generateEcdsa
  | UNSPECIFIED => failure UNSUPPORTED_KEY_TYPE
  end.

Definition derived (key : PrivateKey) (r : outcome CryptoError bytes) : outcome CryptoError PublicKey :=
  (TRY pub <- r ;; success (mkKey (type key) pub))%p2p.
Definition deriveRsa (key : PrivateKey) : option (outcome CryptoError PublicKey) :=
  Some (derived key (rsa_derive (data key))).
Definition deriveEd25519 (key : PrivateKey) : option (outcome CryptoError PublicKey) :=
  private_key ← copy_n 32 (data key); Some (derived key (ed25519_derive private_key)).
Definition deriveSecp256k1 (key : PrivateKey) : option (outcome CryptoError PublicKey) :=
  private_key ← copy_n 32 (data key); Some (derived key (secp256k1_derive private_key)).
Definition deriveEcdsa (key : PrivateKey) : option (outcome CryptoError PublicKey) :=
  private_key ← copy_n 121 (data key); Some (derived key (ecdsa_derive private_key)).
Definition derivePublicKey (private_key : PrivateKey) : option (outcome CryptoError PublicKey) :=
  match type private_key with
  | RSA => deriveRsa private_key
  | Ed25519 => deriveEd25519 private_key
  | Secp256k1 => deriveSecp256k1 private_key
  | ECDSA => deriveEcdsa private_key
  | UNSPECIFIED => Some (failure WRONG_KEY_TYPE)
  end.

Definition signRsa (message : bytes) (key : PrivateKey) : option (outcome CryptoError bytes) :=
  Some (rsa_sign message (data key)).
Definition signEd25519 (message : bytes) (key : PrivateKey) : option (outcome CryptoError bytes) :=
  priv_key ← copy_n 32 (data key); Some (ed25519_sign message priv_key).
Definition signSecp256k1 (message : bytes) (key : PrivateKey) : option (outcome CryptoError bytes) :=
  priv_key ← copy_n 32 (data key); Some (secp256k1_sign message priv_key).
Definition signEcdsa (message : bytes) (key : PrivateKey) : option (outcome CryptoError bytes) :=
  priv_key ← copy_n 121 (data key); Some (ecdsa_sign message priv_key).
Definition sign (message : bytes) (private_key : PrivateKey) : option (outcome CryptoError bytes) :=
  match type private_key with
  | RSA => signRsa message private_key
  | Ed25519 => signEd25519 message private_key
  | Secp256k1 => signSecp256k1 message private_key
  | ECDSA => signEcdsa message private_key
  | UNSPECIFIED => Some (failure WRONG_KEY_TYPE)
  end.

Definition verifyRsa (message signature : bytes) (key : PublicKey) : option (outcome CryptoError bool) :=
  Some (rsa_verify message signature (data key)).
Definition verifyEd25519 (message signature : bytes) (key : PublicKey) : option (outcome CryptoError bool) :=
  ed_pub ← copy_n 32 (data key); ed_sig ← copy_n 64 signature; Some (ed25519_verify message ed_sig ed_pub).
Definition verifySecp256k1 (message signature : bytes) (key : PublicKey) : option (outcome CryptoError bool) :=
  secp_pub ← copy_n 33 (data key); Some (secp256k1_verify message signature secp_pub).
Definition verifyEcdsa (message signature : bytes) (key : PublicKey) : option (outcome CryptoError bool) :=
  ecdsa_pub ← copy_n 91 (data key); Some (ecdsa_verify message signature ecdsa_pub).
Definition verify (message signature : bytes) (public_key : PublicKey) : option (outcome CryptoError bool) :=
  match type public_key with
  | RSA => verifyRsa message signature public_key
  | Ed25519 => verifyEd25519 message signature public_key
  | Secp256k1 => verifySecp256k1 message signature public_key
  | ECDSA => verifyEcdsa message signature public_key
  | UNSPECIFIED => Some (failure WRONG_KEY_TYPE)
  end.

(** *** Stretching a secret *)

Inductive CipherType := AES128 | AES256.
Record StretchedKey := mkStretchedKey { iv : bytes; cipher_key : bytes; mac_key : bytes }.

(** The loop; [None] is running out of fuel. *)
Fixpoint stretch_loop (fuel : nat) (hash_type : Z) (secret seed : bytes) (output_size : nat) (a result : bytes) :
    option (outcome CryptoError bytes) :=
  if decide (length result < output_size)%nat then
    match fuel with
    | O => None
    | S fuel =>
        match hmac_digest hash_type secret (a ++ seed) with
        | failure e => Some (failure e)
        | success b =>
            let todo := if decide (output_size < length result + length b)%nat
                        then (output_size - length result)%nat else length b in
            let result := result ++ take todo b in
            match hmac_digest hash_type secret a with
            | failure e => Some (failure e)
            | success c => stretch_loop fuel hash_type secret seed output_size c result
            end
        end
    end
  else Some (success result).

Definition slice (from n : nat) (l : bytes) : bytes := take n (drop from l).

(** Fuel for digests of at least one byte. *)
Definition stretchKey (cipher_type : CipherType) (hash_type : Z) (secret : bytes) :
    option (outcome CryptoError (StretchedKey * StretchedKey)) :=
  let cipher_key_size := match cipher_type with AES128 => 16%nat | AES256 => 32%nat end in
  let iv_size := 16%nat in
  let hmac_key_size := 20%nat in
  let seed := str "key expansion" in
  let output_size := (2 * (iv_size + cipher_key_size + hmac_key_size))%nat in
  match hmac_digest hash_type secret seed with
  | failure e => Some (failure e)
  | success a =>
      match stretch_loop output_size hash_type secret seed output_size a [] with
      | None => None
      | Some (failure e) => Some (failure e)
      | Some (success result) =>
          let key from := mkStretchedKey (slice from iv_size result)
                            (slice (from + iv_size) cipher_key_size result)
                            (slice (from + iv_size + cipher_key_size) hmac_key_size result) in
          Some (success (key 0%nat, key (iv_size + cipher_key_size + hmac_key_size)%nat))
      end
  end.
End Provider.
End Provider.

(** ** Validator *)
Module Validator.
Import Provider.
Section Validator.
Context `{Providers, RsaDer}.

Definition kMinimumRSABitsCount : Z := 2048.
Definition ED25519_PRIVATE_KEY_SIZE : nat := 32.
Definition ED25519_PUBLIC_KEY_SIZE : nat := 32.
Definition SECP256K1_PRIVATE_KEY_SIZE : nat := 32.
Definition SECP256K1_PUBLIC_KEY_SIZE : nat := 33.
Definition SECP256K1_PUBLIC_KEY_EVEN_PREFIX : Z := 0x02.
Definition SECP256K1_PUBLIC_KEY_ODD_PREFIX : Z := 0x03.

Definition validateRsa_private (key : PrivateKey) : outcome CryptoError unit :=
  match rsa_private_bits (data key) with
  | None => failure INVALID_PRIVATE_KEY
  | Some bits => if bits <? kMinimumRSABitsCount then failure INVALID_PRIVATE_KEY else success tt
  end.
Definition validateRsa_public (key : PublicKey) : outcome CryptoError unit :=
  match rsa_public_bits (data key) with
  | None => failure INVALID_PUBLIC_KEY
  | Some bits => if bits <? kMinimumRSABitsCount then failure INVALID_PUBLIC_KEY else success tt
  end.
Definition validateEd25519_private (key : PrivateKey) : outcome CryptoError unit :=
  if decide (length (data key) = ED25519_PRIVATE_KEY_SIZE) then success tt else failure WRONG_PRIVATE_KEY_SIZE.
Definition validateEd25519_public (key : PublicKey) : outcome CryptoError unit :=
  if decide (length (data key) = ED25519_PUBLIC_KEY_SIZE) then success tt else failure WRONG_PUBLIC_KEY_SIZE.
Definition validateSecp256k1_private (key : PrivateKey) : outcome CryptoError unit :=
  if decide (length (data key) = SECP256K1_PRIVATE_KEY_SIZE) then success tt else failure WRONG_PRIVATE_KEY_SIZE.
Definition validateSecp256k1_public (key : PublicKey) : outcome CryptoError unit :=
  if decide (length (data key) = SECP256K1_PUBLIC_KEY_SIZE) then
    let prefix := nth 0 (data key) 0 in
    if negb (prefix =? SECP256K1_PUBLIC_KEY_EVEN_PREFIX) && negb (prefix =? SECP256K1_PUBLIC_KEY_ODD_PREFIX)
    then failure INVALID_PUBLIC_KEY else success tt
  else failure WRONG_PUBLIC_KEY_SIZE.
Definition validateEcdsa (key : Key) : outcome CryptoError unit := success tt.

Definition validate_private (key : PrivateKey) : outcome CryptoError unit :=
  match type key with
  | UNSPECIFIED => success tt
  | RSA => validateRsa_private key
  | Ed25519 => validateEd25519_private key
  | Secp256k1 => validateSecp256k1_private key
  | ECDSA => validateEcdsa key
  end.
Definition validate_public (key : PublicKey) : outcome CryptoError unit :=
  match type key with
  | UNSPECIFIED => success tt
  | RSA => validateRsa_public key
  | Ed25519 => validateEd25519_public key
  | Secp256k1 => validateSecp256k1_public key
  | ECDSA => validateEcdsa key
  end.

Definition validate_pair (keys : KeyPair) : option (outcome CryptoError unit) :=
  if negb (bool_decide (type (privateKey keys) = type (publicKey keys))) then Some (failure DIFFERENT_KEY_TYPES)
  else if bool_decide (type (privateKey keys) = UNSPECIFIED) then Some (success tt)
  else
    match validate_private (privateKey keys), validate_public (publicKey keys) with
    | failure e, _ => Some (failure e)
    | _, failure e => Some (failure e)
    | success _, success _ =>
        match derivePublicKey (privateKey keys) with
        | None => None
        | Some (failure e) => Some (failure e)
        | Some (success public_key) =>
            Some (if decide (public_key = publicKey keys) then success tt else failure KEYS_DONT_MATCH)
        end
    end.
End Validator.
End Validator.

(** ** Marshaller *)
Module Marshaller.
Import Validator.
Section Marshaller.
Context `{Protobuf, RsaDer}.

Definition marshalKeyType (t : Type_) : outcome CryptoError Z :=
  match t with
  | UNSPECIFIED => failure INVALID_KEY_TYPE
  | t => success (Key.value t)
  end.
Definition unmarshalKeyType (t : Z) : outcome CryptoError Type_ :=
  if t =? 0 then success RSA else if t =? 1 then success Ed25519
  else if t =? 2 then success Secp256k1 else if t =? 3 then success ECDSA
  else failure UNKNOWN_KEY_TYPE.

Definition marshal (key : Key) : outcome CryptoError bytes :=
  (TRY t <- marshalKeyType (type key) ;; success (serialize_key t (data key)))%p2p.

Definition unmarshal (validate : Key -> outcome CryptoError unit) (proto_key : bytes) : outcome CryptoError Key :=
  match parse_key proto_key with
  | None => failure FAILED_UNMARSHAL_DATA
  | Some (t, d) =>
      (TRY t <- unmarshalKeyType t ;;
       let key := mkKey t d in
       TRY _ <- validate key ;; success key)%p2p
  end.
Definition unmarshalPublicKey : bytes -> outcome CryptoError PublicKey := unmarshal validate_public.
Definition unmarshalPrivateKey : bytes -> outcome CryptoError PrivateKey := unmarshal validate_private.

(** *** PeerId::publicKey and the identity of the node *)

Definition peer_publicKey (id : Multihash) : option PublicKey :=
  match unmarshalPublicKey (getHash id) with success key => Some key | failure _ => None end.

(** [IdentityManager::IdentityManager]; [None] is a failed assertion or an
    exception of [value()]. *)
Definition identity_id (sha256 : bytes -> bytes) (keyPair : KeyPair) : option Multihash :=
  if decide (data (publicKey keyPair) = []) then None
  else
    match marshal (publicKey keyPair) with
    | failure _ => None
    | success key => match fromPublicKey sha256 key with Some (success id) => Some id | _ => None end
    end.
End Marshaller.
End Marshaller.

(** ** Laws of the libraries *)

(** The wire format of [keys.proto]. *)
Class ProtobufLaws `{Protobuf} := {
  parse_serialize t d : 0 <= t <= 3 -> bytes_ok d -> parse_key (serialize_key t d) = Some (t, d);
  serialize_layout t d : 0 <= t <= 3 -> Z.of_nat (length d) < 2 ^ 31 ->
    serialize_key t d = [0x08; t; 0x12] ++ UVarint.of_uint64 (Z.of_nat (length d)) ++ d
}.

(** The keys of one algorithm: their sizes, that the public key is derived from the
    private one, and that signatures of the one verify with the other. *)
Definition scheme (generate : outcome CryptoError (bytes * bytes)) (derive : bytes -> outcome CryptoError bytes)
    (sign : bytes -> bytes -> outcome CryptoError bytes)
    (verify : bytes -> bytes -> bytes -> outcome CryptoError bool) (sizes : bytes -> bytes -> bytes -> Prop) : Prop :=
  forall pub priv, generate = success (pub, priv) ->
    derive priv = success pub
    /\ forall m s, sign m priv = success s -> sizes pub priv s /\ verify m s pub = success true.

Definition rsa_bits (b : RSAKeyType) : Z := match b with RSA1024 => 1024 | RSA2048 => 2048 | RSA4096 => 4096 end.

Class ProviderLaws `{Providers, RsaDer} := {
  rsa_scheme b : scheme (rsa_generate b) rsa_derive rsa_sign rsa_verify (fun _ _ _ => True);
  rsa_der b pub priv : rsa_generate b = success (pub, priv) ->
    rsa_private_bits priv = Some (rsa_bits b) /\ rsa_public_bits pub = Some (rsa_bits b);
  ed25519_scheme : scheme ed25519_generate ed25519_derive ed25519_sign ed25519_verify
    (fun _ _ s => length s = 64%nat);
  ed25519_sizes pub priv : ed25519_generate = success (pub, priv) -> length pub = 32%nat /\ length priv = 32%nat;
  secp256k1_scheme : scheme secp256k1_generate secp256k1_derive secp256k1_sign secp256k1_verify
    (fun _ _ s => (length s <= 72)%nat);
  secp256k1_sizes pub priv : secp256k1_generate = success (pub, priv) ->
    length pub = 33%nat /\ (nth 0 pub 0 = 2 \/ nth 0 pub 0 = 3) /\ length priv = 32%nat;
  ecdsa_scheme : scheme ecdsa_generate ecdsa_derive ecdsa_sign ecdsa_verify (fun _ _ _ => True);
  ecdsa_sizes pub priv : ecdsa_generate = success (pub, priv) -> length pub = 91%nat /\ length priv = 121%nat
}.

(** ** Proofs *)

Import Provider Validator Marshaller.

Lemma copy_n_all n v : length v = n -> copy_n n v = Some v.
Proof. intros <-. unfold copy_n. by rewrite decide_True, firstn_all. Qed.

Lemma copy_n_None n v : copy_n n v = None <-> (length v < n)%nat.
Proof. unfold copy_n. case_decide; split; (done || lia). Qed.

Lemma unmarshalKeyType_marshal t v : marshalKeyType t = success v -> unmarshalKeyType v = success t /\ 0 <= v <= 3.
Proof. destruct t; cbn; intros [= <-]; split; (done || lia). Qed.

Section Stretch.
Context `{Providers}.

Lemma stretch_loop_spec fuel h secret seed n a result :
  (forall m, exists d, hmac_digest h secret m = success d /\ (0 < length d)%nat) ->
  (n - length result <= fuel)%nat -> (length result <= n)%nat ->
  exists r, stretch_loop fuel h secret seed n a result = Some (success r) /\ length r = n.
Proof.
  intros Hd. revert a result. induction fuel as [|fuel IH]; intros a result Hf Hl; cbn [stretch_loop].
  - rewrite decide_False by lia. eexists. split; [done|lia].
  - case_decide as Hlt; [|eexists; split; [done|lia]].
    destruct (Hd (a ++ seed)) as (b & -> & Hb). destruct (Hd a) as (c & -> & _).
    assert (length (result ++ take (if decide (n < length result + length b)%nat then (n - length result)%nat else length b) b)
            = Nat.min n (length result + length b)) as Hlen.
    { rewrite length_app, length_take. case_decide; lia. }
    apply IH; rewrite Hlen; lia.
Qed.
End Stretch.

(** ** Properties *)

Section Properties.
Context `{ProtobufLaws, ProviderLaws}.

Lemma marshal_unmarshal key :
  bytes_ok (data key) -> type key <> UNSPECIFIED ->
  exists pb, marshal key = success pb
    /\ unmarshalPublicKey pb = (match validate_public key with success _ => success key | failure e => failure e end)
    /\ unmarshalPrivateKey pb = (match validate_private key with success _ => success key | failure e => failure e end).
Proof.
  intros Hd Ht. unfold marshal.
  destruct (marshalKeyType (type key)) as [v|] eqn:E; [|by destruct (type key)].
  apply unmarshalKeyType_marshal in E as [Hu Hv]. eexists. split; [done|].
  unfold unmarshalPublicKey, unmarshalPrivateKey, unmarshal.
  rewrite parse_serialize by done. rewrite Hu. by destruct key.
Qed.

(** Keys survive marshalling, and marshalled keys are validated.  A key of a
    known type is serialised; unmarshalling gives it back if the validator accepts
    it, and the validator's error otherwise. *)
Theorem key_marshal_roundtrip key :
  bytes_ok (data key) -> type key <> UNSPECIFIED ->
  exists pb, marshal key = success pb
    /\ unmarshalPublicKey pb = (match validate_public key with success _ => success key | failure e => failure e end)
    /\ unmarshalPrivateKey pb = (match validate_private key with success _ => success key | failure e => failure e end).
Proof. apply marshal_unmarshal. Qed.

Lemma identity_of_key sha256 keys :
  bytes_ok (data (publicKey keys)) ->
  type (publicKey keys) = Ed25519 \/ type (publicKey keys) = Secp256k1 ->
  validate_public (publicKey keys) = success tt ->
  exists id, identity_id sha256 keys = Some id
    /\ fromBase58 (toBase58 id) = Some (success id)
    /\ peer_publicKey id = Some (publicKey keys)
    /\ exists pb, multihash_of identity pb id.
Proof.
  intros Hd Ht Hv. destruct (marshal_unmarshal (publicKey keys) Hd ltac:(destruct Ht as [-> | ->]; done))
    as (pb & Hm & Hu & _). rewrite Hv in Hu.
  assert (length (data (publicKey keys)) = 32 \/ length (data (publicKey keys)) = 33)%nat as Hl.
  { unfold validate_public, validateEd25519_public, validateSecp256k1_public in Hv.
    destruct Ht as [Ht|Ht]; rewrite Ht in Hv; case_decide; (done || tauto). }
  assert (exists t, pb = [0x08; t; 0x12; Z.of_nat (length (data (publicKey keys)))] ++ data (publicKey keys) /\ is_byte t)
    as (t & Hpb & Hb).
  { unfold marshal in Hm. exists (Key.value (type (publicKey keys))).
    destruct Ht as [Ht|Ht]; rewrite Ht in Hm |- *; cbn [marshalKeyType] in Hm; injection Hm as <-;
      rewrite serialize_layout by (cbn; lia); (split; [|by vm_compute]); cbn [app];
      destruct Hl as [Hl|Hl]; rewrite Hl; reflexivity. }
  assert (bytes_ok pb) as Hok.
  { rewrite Hpb. apply bytes_ok_app. split; [|done].
    repeat (constructor; [first [done | unfold is_byte; lia]|]); constructor. }
  assert (length pb = 36 \/ length pb = 37)%nat as Hlen
    by (rewrite Hpb, length_app; cbn [length]; lia).
  destruct (multihash_create_spec identity pb ltac:(unfold is_u64, identity; lia)) as [Hc Hsome].
  unfold kMaxHashLength in *. rewrite decide_False in Hc by lia.
  set (m := default (mkMultihash [] 0 0) (Data_make identity pb)) in *.
  assert (multihash_of identity pb m) as Hmh.
  { split_and!; [unfold is_u64, identity; lia|done|intros Hn; rewrite Hn in Hlen; cbn in Hlen; lia|done]. }
  exists m. split_and!.
  - unfold identity_id. rewrite decide_False by (intros Hn; rewrite Hn in Hl; cbn in Hl; lia).
    rewrite Hm. unfold fromPublicKey, kMaxInlineKeyLength. rewrite decide_True by lia. by rewrite Hc.
  - rewrite (base58_from_hash _ _ _ Hmh). unfold fromHash, kMaxInlineKeyLength.
    destruct (multihash_of_spec _ _ _ Hmh) as (p & Hp & Heq & _). vm_compute in Hp. injection Hp as <-.
    rewrite bool_decide_false; [by rewrite andb_false_r|]. rewrite Heq. cbn [toBuffer mbytes app length]. lia.
  - unfold peer_publicKey. destruct (multihash_of_fields _ _ _ Hmh) as [_ ->]. by rewrite Hu.
  - by exists pb.
Qed.

(** The id of a small key contains the key.  For a valid Ed25519 or Secp256k1
    public key the node's id is made from the marshalled key inline, it survives
    its text form, and [PeerId::publicKey] recovers the key. *)
Theorem peer_id_recovers_key sha256 keys :
  bytes_ok (data (publicKey keys)) ->
  type (publicKey keys) = Ed25519 \/ type (publicKey keys) = Secp256k1 ->
  validate_public (publicKey keys) = success tt ->
  exists id, identity_id sha256 keys = Some id
    /\ fromBase58 (toBase58 id) = Some (success id)
    /\ peer_publicKey id = Some (publicKey keys).
Proof. intros Hd Ht Hv. destruct (identity_of_key sha256 keys Hd Ht Hv) as (id & ? & ? & ? & _). by exists id. Qed.

(** Evaluate the decided tests of the validator. *)
Ltac tests := repeat first [ rewrite bool_decide_true by done | rewrite bool_decide_false by done
  | rewrite decide_True by done | rewrite decide_False by done ]; cbn [negb andb]; try done.

Lemma generated_keys t b kp :
  generateKeys t b = success kp ->
  type (publicKey kp) = t /\ type (privateKey kp) = t
  /\ (forall m, exists r, sign m (privateKey kp) = Some r
     /\ match r with
        | success s => verify m s (publicKey kp) = Some (success true)
                       /\ (t = Ed25519 \/ t = Secp256k1 -> (length s <= 72)%nat)
        | failure _ => True
        end)
  /\ (t = Ed25519 \/ t = Secp256k1 -> validate_public (publicKey kp) = success tt)
  /\ validate_pair kp = Some (if bool_decide (t = RSA) && bool_decide (b = RSA1024)
                              then failure INVALID_PRIVATE_KEY else success tt).
Proof.
  intros Hg. unfold generateKeys, generateRsa, generateEd25519, generateSecp256k1, generateEcdsa, key_pair in Hg.
  unfold sign, verify, signRsa, signEd25519, signSecp256k1, signEcdsa, verifyRsa, verifyEd25519, verifySecp256k1, verifyEcdsa,
    validate_pair, validate_private, validate_public, derivePublicKey, deriveRsa, deriveEd25519, deriveSecp256k1, deriveEcdsa,
    validateRsa_private, validateRsa_public, validateEd25519_private, validateEd25519_public, validateSecp256k1_private,
    validateSecp256k1_public, validateEcdsa, derived.
  destruct t; [done|..].
  - destruct (rsa_generate b) as [[pub priv]|] eqn:E; [|done]. injection Hg as <-.
    destruct (rsa_scheme b pub priv E) as [Hder Hsv]. destruct (rsa_der b pub priv E) as [H1' H2'].
    cbn [type data publicKey privateKey]. rewrite Hder, H1', H2'. split_and!; [done|done| |naive_solver|].
    + intros m. eexists. split; [done|]. destruct (rsa_sign m priv) eqn:Es; [|done]. destruct (Hsv m a Es) as [_ ->]. naive_solver.
    + destruct b; tests; cbn; tests.
  - destruct ed25519_generate as [[pub priv]|] eqn:E; [|done]. injection Hg as <-.
    destruct (ed25519_scheme pub priv E) as [Hder Hsv]. destruct (ed25519_sizes pub priv E) as [H1' H2'].
    cbn [type data publicKey privateKey]. rewrite !(copy_n_all 32) by done. cbn [mbind option_bind]. rewrite Hder.
    rewrite H1', H2'. split_and!; [done|done| |intros _; tests|tests].
    intros m. eexists. split; [done|]. destruct (ed25519_sign m priv) as [s|] eqn:Es; [|done].
    destruct (Hsv m s Es) as [Hs Hver]. rewrite (copy_n_all 64) by done. cbn [mbind option_bind]. rewrite Hver. split; [done|lia].
  - destruct secp256k1_generate as [[pub priv]|] eqn:E; [|done]. injection Hg as <-.
    destruct (secp256k1_scheme pub priv E) as [Hder Hsv]. destruct (secp256k1_sizes pub priv E) as (H1' & Hpre & H2').
    cbn [type data publicKey privateKey]. rewrite (copy_n_all 32), (copy_n_all 33) by done. cbn [mbind option_bind].
    rewrite Hder, H1', H2'. split_and!; [done|done| |intros _; destruct Hpre as [-> | ->]; tests|destruct Hpre as [-> | ->]; tests].
    intros m. eexists. split; [done|]. destruct (secp256k1_sign m priv) as [s|] eqn:Es; [|done].
    by destruct (Hsv m s Es) as [? ->].
  - destruct ecdsa_generate as [[pub priv]|] eqn:E; [|done]. injection Hg as <-.
    destruct (ecdsa_scheme pub priv E) as [Hder Hsv]. destruct (ecdsa_sizes pub priv E) as [H1' H2'].
    cbn [type data publicKey privateKey]. rewrite (copy_n_all 121), (copy_n_all 91) by done. cbn [mbind option_bind].
    rewrite Hder. split_and!; [done|done| |naive_solver|tests].
    intros m. eexists. split; [done|]. destruct (ecdsa_sign m priv) as [s|] eqn:Es; [|done].
    destruct (Hsv m s Es) as [_ ->]. naive_solver.
Qed.

(** What a generated key pair is good for.  Signing with the private key never
    reads out of bounds, the signature verifies with the public key, and the
    validator accepts the pair, except that a 1024-bit RSA pair is refused. *)
Theorem generated_keys_work t b kp :
  generateKeys t b = success kp ->
  (forall m, exists r, sign m (privateKey kp) = Some r
     /\ match r with success s => verify m s (publicKey kp) = Some (success true) | failure _ => True end)
  /\ validate_pair kp = Some (if bool_decide (t = RSA) && bool_decide (b = RSA1024)
                              then failure INVALID_PRIVATE_KEY else success tt).
Proof.
  intros Hg. destruct (generated_keys t b kp Hg) as (_ & _ & Hsv & _ & Hval). split; [|done].
  intros m. destruct (Hsv m) as (r & Hr & Hs). exists r. split; [done|]. by destruct r; [destruct Hs|].
Qed.

Lemma verify_bounds pb key m s :
  unmarshalPublicKey pb = success key ->
  (verify m s key = None
   <-> type key = Ed25519 /\ (length s < 64)%nat \/ type key = ECDSA /\ (length (data key) < 91)%nat).
Proof.
  unfold unmarshalPublicKey, unmarshal. destruct (parse_key pb) as [[v d]|]; [|done].
  destruct (unmarshalKeyType v) as [t|]; [|done]. destruct (validate_public (mkKey t d)) eqn:Hv; [|done].
  intros [= <-]. unfold verify, verifyRsa, verifyEd25519, verifySecp256k1, verifyEcdsa. cbn [type data].
  unfold validate_public, validateEd25519_public, validateSecp256k1_public in Hv. cbn [type data] in Hv.
  destruct t.
  - naive_solver.
  - naive_solver.
  - case_decide as Hl; [|done]. rewrite (copy_n_all 32) by done. cbn [mbind option_bind].
    destruct (copy_n 64 s) eqn:E; cbn.
    + split; [done|]. intros [[_ Hs]|[? _]]; [|done]. apply copy_n_None in Hs. congruence.
    + apply copy_n_None in E. naive_solver.
  - case_decide as Hl; [|done]. rewrite (copy_n_all 33) by done. cbn. naive_solver.
  - destruct (copy_n 91 d) eqn:E; cbn.
    + split; [done|]. intros [[? _]|[_ Hs]]; [done|]. apply copy_n_None in Hs. congruence.
    + apply copy_n_None in E. naive_solver.
Qed.

(** Verification reads out of bounds for short inputs.  With a public key that
    [unmarshalPublicKey] accepted, [verify] reads past the end exactly when an
    Ed25519 signature has fewer than 64 bytes or an ECDSA key, whose size is not
    validated, fewer than 91; a peer chooses both. *)
Theorem verify_out_of_bounds pb key m s :
  unmarshalPublicKey pb = success key ->
  (verify m s key = None
   <-> type key = Ed25519 /\ (length s < 64)%nat \/ type key = ECDSA /\ (length (data key) < 91)%nat).
Proof. apply verify_bounds. Qed.

(** C30: stretching a secret ends and fills both keys.  When the HMAC provider
    answers with non-empty digests the loop of [stretchKey] ends, and both keys
    have an initialisation vector, a cipher key and a MAC key of the full sizes. *)
Theorem stretch_key_total c h secret :
  (forall m, exists d, hmac_digest h secret m = success d /\ (0 < length d)%nat) ->
  exists k1 k2, stretchKey c h secret = Some (success (k1, k2))
    /\ forall k, k = k1 \/ k = k2 ->
         length (iv k) = 16%nat /\ length (mac_key k) = 20%nat
         /\ length (cipher_key k) = match c with AES128 => 16%nat | AES256 => 32%nat end.
Proof.
  intros Hd. unfold stretchKey. destruct (Hd (str "key expansion")) as (a & -> & _).
  set (n := (2 * _)%nat).
  destruct (stretch_loop_spec n h secret (str "key expansion") n a [] Hd) as (r & -> & Hr);
    [cbn [length]; lia|cbn [length]; lia|].
  do 2 eexists. split; [done|]. intros k Hk. unfold n in Hr.
  destruct Hk as [-> | ->]; cbn [iv mac_key cipher_key]; unfold slice; rewrite !length_take, !length_drop, Hr;
    destruct c; lia.
Qed.
End Properties.

(** ** A concrete instance *)
Module Toy.

Definition toy_protobuf : Protobuf := {|
  serialize_key t d := [0x08; t; 0x12] ++ UVarint.of_uint64 (Z.of_nat (length d)) ++ d;
  parse_key bs :=
    match bs with
    | 8 :: t :: 18 :: rest =>
        match read_uvar rest with
        | success (d, []) => if (0 <=? t) && (t <=? 3) then Some (t, d) else None
        | _ => None
        end
    | _ => None
    end
|}.

(** Only keys that fit in memory. *)
#[export] Instance toy_protobuf_small : Protobuf := {|
  serialize_key t d := if decide (Z.of_nat (length d) < 2 ^ 31) then serialize_key (Protobuf := toy_protobuf) t d
                       else 0 :: t :: d;
  parse_key bs := match bs with
                  | 0 :: t :: d => Some (t, d)
                  | _ => parse_key (Protobuf := toy_protobuf) bs
                  end
|}.

#[export] Instance toy_laws : ProtobufLaws (H := toy_protobuf_small).
Proof.
  split; intros t d Ht Hd; cbn [serialize_key parse_key toy_protobuf_small].
  - case_decide as Hl; [|done]. cbn [serialize_key parse_key toy_protobuf app].
    pose proof (read_uvar_app d [] ltac:(lia) Hd ltac:(constructor)) as Hr. rewrite app_nil_r in Hr. rewrite Hr.
    by rewrite (proj2 (Z.leb_le 0 t)), (proj2 (Z.leb_le t 3)) by lia.
  - by rewrite decide_True.
Qed.

Definition code (b : RSAKeyType) : Z := match b with RSA1024 => 0 | RSA2048 => 1 | RSA4096 => 2 end.
Definition bits (d : bytes) : option Z :=
  match d with [0] => Some 1024 | [1] => Some 2048 | [2] => Some 4096 | _ => None end.
#[export] Instance toy_der : RsaDer := {| rsa_private_bits := bits; rsa_public_bits := bits |}.
#[export] Instance toy_providers : Providers := {|
  rsa_generate b := success ([code b], [code b]);
  rsa_derive priv := success priv;
  rsa_sign m priv := success (m ++ priv);
  rsa_verify m s pub := success (bool_decide (s = m ++ pub));
  ed25519_generate := success (replicate 32 1, replicate 32 2);
  ed25519_derive _ := success (replicate 32 1);
  ed25519_sign m _ := success (replicate 64 (u8 (Z.of_nat (length m))));
  ed25519_verify m s _ := success (bool_decide (s = replicate 64 (u8 (Z.of_nat (length m)))));
  secp256k1_generate := success (replicate 33 2, replicate 32 2);
  secp256k1_derive _ := success (replicate 33 2);
  secp256k1_sign m _ := success (take 72 m);
  secp256k1_verify m s _ := success (bool_decide (s = take 72 m));
  ecdsa_generate := success (replicate 91 3, replicate 121 4);
  ecdsa_derive _ := success (replicate 91 3);
  ecdsa_sign m _ := success m;
  ecdsa_verify m s _ := success (bool_decide (s = m));
  hmac_digest _ key m := success (replicate 20 (u8 (Z.of_nat (length m))))
|}.
#[export] Instance toy_provider_laws : ProviderLaws.
Proof.
  split; unfold scheme; cbn;
    try (intros; simplify_eq; split; [done|]; intros m s [= <-]; rewrite bool_decide_true by done;
         split; [try done; rewrite ?length_take; lia|done]);
    try (intros b ? ? [= <- <-]; by destruct b);
    try (intros ? ? [= <- <-]; split_and!; auto).
Qed.
End Toy.
Import Toy.

Lemma key_marshal_roundtrip_witness :
  exists pb, marshal (mkKey Ed25519 [1; 2]) = success pb
    /\ unmarshalPublicKey pb = failure WRONG_PUBLIC_KEY_SIZE
    /\ unmarshalPrivateKey pb = failure WRONG_PRIVATE_KEY_SIZE.
Proof.
  apply (key_marshal_roundtrip (mkKey Ed25519 [1; 2])); [by repeat constructor|discriminate].
Defined.

Definition toy_keys : KeyPair := mkKeyPair (mkKey Ed25519 (replicate 32 1)) (mkKey Ed25519 (replicate 32 2)).

Lemma peer_id_recovers_key_witness :
  exists id, identity_id (fun _ => replicate 32 7) toy_keys = Some id
    /\ fromBase58 (toBase58 id) = Some (success id)
    /\ peer_publicKey id = Some (publicKey toy_keys).
Proof.
  apply (peer_id_recovers_key (fun _ => replicate 32 7) toy_keys);
    [by apply Forall_replicate|by left|reflexivity].
Defined.

Lemma generated_keys_work_witness :
  (forall m, exists r, sign m (mkKey Ed25519 (replicate 32 2)) = Some r
     /\ match r with
        | success s => verify m s (mkKey Ed25519 (replicate 32 1)) = Some (success true)
        | failure _ => True
        end)
  /\ validate_pair toy_keys = Some (success tt).
Proof. apply (generated_keys_work Ed25519 RSA2048 toy_keys). reflexivity. Defined.

Lemma verify_out_of_bounds_witness :
  verify [1] (replicate 63 0) (mkKey Ed25519 (replicate 32 1)) = None.
Proof.
  refine (proj2 (verify_out_of_bounds ([8; 1; 18; 32] ++ replicate 32 1) (mkKey Ed25519 (replicate 32 1)) [1]
                   (replicate 63 0) _) _).
  - vm_compute. reflexivity.
  - left. split; [reflexivity|]. rewrite length_replicate. lia.
Defined.

Lemma stretch_key_total_witness :
  exists k1 k2, stretchKey AES256 0 [1] = Some (success (k1, k2))
    /\ forall k, k = k1 \/ k = k2 ->
         length (iv k) = 16%nat /\ length (mac_key k) = 20%nat
         /\ length (cipher_key k) = match AES256 with AES128 => 16%nat | AES256 => 32%nat end.
Proof.
  apply (stretch_key_total AES256 0 [1]). intros m. eexists. split; [reflexivity|]. rewrite length_replicate. lia.
Defined.
