(* ===== verification/Hashers.v ===== *)
(** * Hashers

    [crypto/sha/sha1.cpp], [sha256.cpp], [sha512.cpp] and
    [crypto/hmac_provider/hmac_provider_ctr_impl.cpp]: the classes that implement the
    interface [Hasher] of [crypto/hasher.hpp] with OpenSSL.  The contexts of OpenSSL
    and the functions on them are parameters; those of HMAC live on the heap, which is
    part of the state, so that what is never freed shows. *)

From S2P Require Import Prelude Keys.

(** [HashType]; other values of the enumeration's type are possible in C++. *)
Definition SHA1 : Z := 0.
Definition SHA256 : Z := 1.
Definition SHA512 : Z := 2.

(** ** The interface [Hasher]

    [digestOut] is given the size of the buffer it fills; [None] is the use of a
    context that does not exist. *)
Record Hasher (St : Type) := mkHasher {
  write : St -> bytes -> option (St * outcome CryptoError unit);
  digestOut : St -> nat -> option (St * outcome CryptoError bytes);
  reset : St -> option (St * outcome CryptoError unit);
  digestSize : St -> nat
}.
Arguments write {St}. Arguments digestOut {St}. Arguments reset {St}. Arguments digestSize {St}.

(** [Hasher::digest] *)
Definition digest {St} (h : Hasher St) (s : St) : option (St * outcome CryptoError bytes) := digestOut h s (digestSize h s).
Arguments digest {St} h s : simpl never.

(** What the interface promises: after construction or [reset] and writes of [m] the
    digest is [hash m], and reading it changes nothing. *)
Class HasherLaws {St} (h : Hasher St) (hash : bytes -> bytes) (size : nat) (written : St -> bytes -> Prop) : Prop := {
  law_write s m d : written s m -> exists s', write h s d = Some (s', success tt) /\ written s' (m ++ d);
  law_digest s m n : written s m -> exists s', written s' m /\
    digestOut h s n = Some (s', if decide (n = size) then success (hash m) else failure WRONG_DIGEST_SIZE);
  law_reset s m : written s m -> exists s', reset h s = Some (s', success tt) /\ written s' [];
  law_size s m : written s m -> digestSize h s = size
}.

(** Calls on a hasher, and a reference that keeps what was written. *)
Inductive hasher_call := Write (d : bytes) | DigestOut (n : nat) | Digest | Reset.
Inductive hasher_answer := Done (r : outcome CryptoError unit) | Got (r : outcome CryptoError bytes).

Section Calls.
Context {St : Type} (h : Hasher St).
Definition hasher_step (s : St) (k : hasher_call) : option (St * hasher_answer) :=
  match k with
  | Write d => '(s, r) ← write h s d; Some (s, Done r)
  | DigestOut n => '(s, r) ← digestOut h s n; Some (s, Got r)
  | Digest => '(s, r) ← digest h s; Some (s, Got r)
  | Reset => '(s, r) ← reset h s; Some (s, Done r)
  end.
Fixpoint hasher_run (ks : list hasher_call) (s : St) : option (St * list hasher_answer) :=
  match ks with
  | [] => Some (s, [])
  | k :: ks => '(s, a) ← hasher_step s k; '(s, l) ← hasher_run ks s; Some (s, a :: l)
  end.
End Calls.

Section Reference.
Context (hash : bytes -> bytes) (size : nat).
Definition reference_step (m : bytes) (k : hasher_call) : bytes * hasher_answer :=
  match k with
  | Write d => (m ++ d, Done (success tt))
  | DigestOut n => (m, Got (if decide (n = size) then success (hash m) else failure WRONG_DIGEST_SIZE))
  | Digest => (m, Got (success (hash m)))
  | Reset => ([], Done (success tt))
  end.
Fixpoint reference_run (ks : list hasher_call) (m : bytes) : list hasher_answer :=
  match ks with
  | [] => []
  | k :: ks => (reference_step m k).2 :: reference_run ks (reference_step m k).1
  end.
End Reference.

Section Refinement.
Context {St} (h : Hasher St) hash size written `{!HasherLaws h hash size written}.

Lemma hasher_step_refines s m k : written s m ->
  exists s', hasher_step h s k = Some (s', (reference_step hash size m k).2) /\ written s' (reference_step hash size m k).1.
Proof.
  intros Hw. destruct k as [d|n| |]; simpl.
  - destruct (law_write s m d Hw) as (s' & -> & Hw'). by exists s'.
  - destruct (law_digest s m n Hw) as (s' & Hw' & ->). by exists s'.
  - unfold digest. rewrite (law_size s m Hw). destruct (law_digest s m size Hw) as (s' & Hw' & ->).
    rewrite decide_True by done. by exists s'.
  - destruct (law_reset s m Hw) as (s' & -> & Hw'). by exists s'.
Qed.
Lemma hasher_run_refines ks : forall s m, written s m ->
  exists s', hasher_run h ks s = Some (s', reference_run hash size ks m) /\ exists m', written s' m'.
Proof.
  induction ks as [|k ks IH]; intros s m Hw; simpl; [eauto|].
  destruct (hasher_step_refines s m k Hw) as (s1 & -> & Hw1). simpl.
  destruct (IH s1 _ Hw1) as (s2 & -> & Hw2). simpl. by exists s2.
Qed.
End Refinement.

(** ** SHA

    OpenSSL: the three functions of an algorithm, with their return value as a
    Boolean; a context that failed to be initialised or updated is still a context. *)
Class DigestLib (Ctx : Type) := {
  md_init : Z -> Ctx * bool;
  md_update : Ctx -> bytes -> Ctx * bool;
  md_final : Ctx -> bytes * bool
}.
(** The algorithms of OpenSSL work: they hash what was given to the context. *)
Class DigestLibLaws (Ctx : Type) `{DigestLib Ctx} (hash : Z -> bytes -> bytes) := {
  md_holds : Z -> Ctx -> bytes -> Prop;
  md_init_ok t : 0 <= t <= 2 -> exists c, md_init t = (c, true) /\ md_holds t c [];
  md_update_ok t c m d : md_holds t c m -> exists c', md_update c d = (c', true) /\ md_holds t c' (m ++ d);
  md_final_ok t c m : md_holds t c m -> md_final c = (hash t m, true)
}.

(** [SHA_DIGEST_LENGTH] and the like, [EVP_MD_size]; [SHA_CBLOCK] and the like,
    [EVP_MD_block_size]. *)
Definition md_size (t : Z) : nat := if t =? SHA1 then 20 else if t =? SHA256 then 32 else 64.
Definition md_block_size (t : Z) : nat := if t =? SHA1 then 64 else if t =? SHA256 then 64 else 128.

Section Sha.
Context {Ctx : Type} `{!DigestLib Ctx}.

(** [Sha1], [Sha256] or [Sha512], according to the type [t]. *)
Record Sha := mkSha { ctx_ : Ctx; initialized_ : bool }.

Definition Sha_new (t : Z) : Sha := let '(c, ok) := md_init t in mkSha c ok.
Definition Sha_write (s : Sha) (d : bytes) : option (Sha * outcome CryptoError unit) :=
  Some (if negb (initialized_ s) then (s, failure FAILED_INITIALIZE_CONTEXT)
        else let '(c, ok) := md_update (ctx_ s) d in
             (mkSha c (initialized_ s), if ok then success tt else failure FAILED_UPDATE_DIGEST)).
(** The context is copied, so the object does not change. *)
Definition Sha_digestOut (t : Z) (s : Sha) (n : nat) : option (Sha * outcome CryptoError bytes) :=
  Some (s, if negb (initialized_ s) then failure FAILED_INITIALIZE_CONTEXT
      else if decide (n = md_size t) then
        let '(d, ok) := md_final (ctx_ s) in if ok then success d else failure FAILED_FINALIZE_DIGEST
      else failure WRONG_DIGEST_SIZE).
Definition Sha_sinkCtx (s : Sha) : Sha := if initialized_ s then mkSha (ctx_ s) false else s.
Definition Sha_reset (t : Z) (s : Sha) : option (Sha * outcome CryptoError unit) :=
  let s := Sha_sinkCtx s in
  let '(c, ok) := md_init t in
  Some (if ok then (mkSha c true, success tt) else (mkSha c (initialized_ s), failure FAILED_INITIALIZE_CONTEXT)).

Definition Sha_hasher (t : Z) : Hasher Sha := mkHasher Sha Sha_write (Sha_digestOut t) (Sha_reset t) (fun _ => md_size t).

(** [sha1], [sha256] and [sha512] *)
Definition sha (t : Z) (input : bytes) : option (outcome CryptoError bytes) :=
  '(s, r) ← Sha_write (Sha_new t) input;
  match r with
  | failure e => Some (failure e)
  | success _ => snd <$> Sha_digestOut t s (md_size t)
  end.

Context {hash : Z -> bytes -> bytes} `{!DigestLibLaws Ctx hash}.
Definition Sha_written (t : Z) (s : Sha) (m : bytes) : Prop :=
  initialized_ s = true /\ md_holds t (ctx_ s) m.
#[export] Instance Sha_laws (t : Z) (Ht : 0 <= t <= 2) :
  HasherLaws (Sha_hasher t) (hash t) (md_size t) (Sha_written t).
Proof.
  split; simpl.
  - intros [c i] m d [Ei Hc]. simpl in *. subst i. unfold Sha_write. simpl.
    destruct (md_update_ok t c m d Hc) as (c' & -> & Hc'). by eexists.
  - intros [c i] m n [Ei Hc]. simpl in *. subst i. unfold Sha_digestOut. simpl. exists (mkSha c true). split; [by split|].
    by rewrite (md_final_ok t c m Hc).
  - intros [c i] m [Ei Hc]. simpl in *. subst i. unfold Sha_reset. simpl.
    destruct (md_init_ok t Ht) as (c' & -> & Hc'). by eexists.
  - done.
Qed.
Lemma Sha_new_written (t : Z) : 0 <= t <= 2 -> Sha_written t (Sha_new t) [].
Proof. intros Ht. unfold Sha_new. destruct (md_init_ok t Ht) as (c & -> & Hc). done. Qed.
End Sha.

(** ** HMAC

    OpenSSL: [HMAC_CTX_new] gives a context at a new address, or a null pointer. *)
Class HmacLib (Ctx : Type) := {
  HMAC_CTX_new : nat -> option Ctx;
  HMAC_Init_ex : Z -> bytes -> Ctx -> Ctx * bool;
  HMAC_Update : Ctx -> bytes -> Ctx * bool;
  HMAC_CTX_copy : Ctx -> Ctx -> Ctx * bool;
  HMAC_Final : Ctx -> bytes * bool
}.
Class HmacLibLaws (Ctx : Type) `{HmacLib Ctx} (hmac : Z -> bytes -> bytes -> bytes) := {
  hmac_holds : Z -> bytes -> Ctx -> bytes -> Prop;
  ctx_new_ok p : exists c, HMAC_CTX_new p = Some c;
  init_ex_ok t k c : exists c', HMAC_Init_ex t k c = (c', true) /\ hmac_holds t k c' [];
  update_ok t k c m d : hmac_holds t k c m -> exists c', HMAC_Update c d = (c', true) /\ hmac_holds t k c' (m ++ d);
  ctx_copy_ok t k c m c0 : hmac_holds t k c m -> exists c', HMAC_CTX_copy c0 c = (c', true) /\ hmac_holds t k c' m;
  final_ok t k c m : hmac_holds t k c m -> HMAC_Final c = (hmac t k m, true) /\ length (hmac t k m) = md_size t
}.

Section Hmac.
Context {Ctx : Type} `{!HmacLib Ctx}.

(** The object, and the contexts on the heap. *)
Record HmacProviderCtrImpl := mkHmac {
  hash_type_ : Z;
  key_ : bytes;
  hmac_ctx_ : option nat;
  hmac_initialized_ : bool;
  heap : gmap nat Ctx;
  next_ctx : nat
}.
Definition set_ctx (p : option nat) (i : bool) (s : HmacProviderCtrImpl) : HmacProviderCtrImpl :=
  mkHmac (hash_type_ s) (key_ s) p i (heap s) (next_ctx s).
Definition set_heap (h : gmap nat Ctx) (s : HmacProviderCtrImpl) : HmacProviderCtrImpl :=
  mkHmac (hash_type_ s) (key_ s) (hmac_ctx_ s) (hmac_initialized_ s) h (next_ctx s).

(** A call of [HMAC_CTX_new] *)
Definition alloc (s : HmacProviderCtrImpl) : HmacProviderCtrImpl * option nat :=
  let p := next_ctx s in
  match HMAC_CTX_new p with
  | None => (mkHmac (hash_type_ s) (key_ s) (hmac_ctx_ s) (hmac_initialized_ s) (heap s) (S p), None)
  | Some c => (mkHmac (hash_type_ s) (key_ s) (hmac_ctx_ s) (hmac_initialized_ s) (<[p := c]> (heap s)) (S p), Some p)
  end.
(** [HMAC_Init_ex] on the context at [p]; the algorithm is SHA-512 unless the type is
    one of the other two. *)
Definition init_at (p : nat) (s : HmacProviderCtrImpl) : option (HmacProviderCtrImpl * bool) :=
  c ← heap s !! p;
  let t := if hash_type_ s =? SHA1 then SHA1 else if hash_type_ s =? SHA256 then SHA256 else SHA512 in
  let '(c, ok) := HMAC_Init_ex t (key_ s) c in
  Some (set_heap (<[p := c]> (heap s)) s, ok).

Definition Hmac_digestSize (s : HmacProviderCtrImpl) : nat := if hmac_initialized_ s then md_size (hash_type_ s) else 0.
Definition Hmac_blockSize (s : HmacProviderCtrImpl) : nat := if hmac_initialized_ s then md_block_size (hash_type_ s) else 0.

(** The constructor, on a heap without contexts. *)
Definition Hmac_new (hash_type : Z) (key : bytes) : option HmacProviderCtrImpl :=
  let s := mkHmac hash_type key None false ∅ 0 in
  if negb ((0 <=? hash_type) && (hash_type <=? 2)) then Some s
  else
    let '(s, p) := alloc s in
    match p with
    | None => Some s
    | Some p => '(s, ok) ← init_at p s; Some (set_ctx (Some p) ok s)
    end.

Definition Hmac_write (s : HmacProviderCtrImpl) (d : bytes) : option (HmacProviderCtrImpl * outcome CryptoError unit) :=
  if negb (hmac_initialized_ s) then Some (s, failure FAILED_INITIALIZE_CONTEXT)
  else
    p ← hmac_ctx_ s; c ← heap s !! p;
    let '(c, ok) := HMAC_Update c d in
    Some (set_heap (<[p := c]> (heap s)) s, if ok then success tt else failure FAILED_UPDATE_DIGEST).

Definition Hmac_digestOut (s : HmacProviderCtrImpl) (n : nat) : option (HmacProviderCtrImpl * outcome CryptoError bytes) :=
  if negb (hmac_initialized_ s) then Some (s, failure FAILED_INITIALIZE_CONTEXT)
  else if negb (n =? Hmac_digestSize s)%nat then Some (s, failure WRONG_DIGEST_SIZE)
  else
    let '(s, ctx_copy) := alloc s in
    match ctx_copy with
    | None => Some (s, failure FAILED_INITIALIZE_CONTEXT)
    | Some q =>
        c0 ← heap s !! q; p ← hmac_ctx_ s; c ← heap s !! p;
        let '(c, ok) := HMAC_CTX_copy c0 c in
        let s := set_heap (<[q := c]> (heap s)) s in
        if negb ok then Some (s, failure FAILED_INITIALIZE_CONTEXT)
        else
          let '(d, ok) := HMAC_Final c in
          Some (set_heap (delete q (heap s)) s,
                if negb ok then failure FAILED_FINALIZE_DIGEST
                else if negb (length d =? Hmac_digestSize s)%nat then failure WRONG_DIGEST_SIZE
                else success d)
    end.

Definition Hmac_sinkCtx (s : HmacProviderCtrImpl) : option HmacProviderCtrImpl :=
  if hmac_initialized_ s
  then p ← hmac_ctx_ s; _ ← heap s !! p; Some (set_ctx None false (set_heap (delete p (heap s)) s))
  else Some s.
Definition Hmac_reset (s : HmacProviderCtrImpl) : option (HmacProviderCtrImpl * outcome CryptoError unit) :=
  s ← Hmac_sinkCtx s;
  let '(s, p) := alloc s in
  match p with
  | None => Some (set_ctx None (hmac_initialized_ s) s, failure FAILED_INITIALIZE_CONTEXT)
  | Some p =>
      '(s, ok) ← init_at p s;
      Some (if (ok : bool) then (set_ctx (Some p) true s, success tt)
            else (set_ctx (Some p) (hmac_initialized_ s) s, failure FAILED_INITIALIZE_CONTEXT))
  end.
(** The destructor *)
Definition Hmac_destroy : HmacProviderCtrImpl -> option HmacProviderCtrImpl := Hmac_sinkCtx.

Definition Hmac_hasher : Hasher HmacProviderCtrImpl := mkHasher _ Hmac_write Hmac_digestOut Hmac_reset Hmac_digestSize.

(** [HmacProviderImpl::calculateDigest] *)
Definition calculateDigest (hash_type : Z) (key message : bytes) : option (outcome CryptoError bytes) :=
  s ← Hmac_new hash_type key;
  '(s, r) ← Hmac_write s message;
  match r with
  | failure e => _ ← Hmac_destroy s; Some (failure e)
  | success _ => '(s, d) ← digest Hmac_hasher s; _ ← Hmac_destroy s; Some d
  end.
End Hmac.

(** *** Proofs *)
Section HmacProofs.
Context {Ctx : Type} `{!HmacLib Ctx}.

(** With any library, working or not: an initialised object has its context. *)
Definition hmac_ok (s : HmacProviderCtrImpl (Ctx := Ctx)) : Prop :=
  (forall p c, heap s !! p = Some c -> (p < next_ctx s)%nat) /\
  (hmac_initialized_ s = true -> exists p c, hmac_ctx_ s = Some p /\ heap s !! p = Some c).

Lemma alloc_ok s : hmac_ok s ->
  hmac_ok (alloc s).1 /\ hmac_initialized_ (alloc s).1 = hmac_initialized_ s /\ hmac_ctx_ (alloc s).1 = hmac_ctx_ s /\
  match (alloc s).2 with
  | Some q => exists c, heap (alloc s).1 !! q = Some c /\ q = next_ctx s /\ heap (alloc s).1 = <[q := c]> (heap s)
  | None => heap (alloc s).1 = heap s
  end.
Proof.
  intros [Hn Hi]. unfold alloc. destruct (HMAC_CTX_new (next_ctx s)) as [c|]; simpl.
  - split; [split; simpl|].
    + intros p c' [[<- _]|[_ Hp]]%lookup_insert_Some; [lia|]. apply Hn in Hp. lia.
    + intros E. destruct (Hi E) as (p & c' & Ep & Hp). exists p, c'. split; [done|]. rewrite lookup_insert_ne; [done|]. apply Hn in Hp. lia.
    + split; [done|]. split; [done|]. exists c. by rewrite lookup_insert_eq.
  - split; [split; simpl|done]; [|done]. intros p c Hp. apply Hn in Hp. lia.
Qed.
Lemma put_ok s p c : hmac_ok s -> is_Some (heap s !! p) -> hmac_ok (set_heap (<[p := c]> (heap s)) s).
Proof.
  intros [Hn Hi] [c0 Hp]. split; simpl.
  - intros q c' [[<- _]|[_ Hq]]%lookup_insert_Some; [by apply (Hn p c0)|by apply (Hn q c')].
  - intros E. destruct (Hi E) as (q & c' & Eq & Hq). exists q. destruct (decide (q = p)) as [->|n].
    + exists c. by rewrite lookup_insert_eq.
    + exists c'. by rewrite lookup_insert_ne.
Qed.
Lemma init_at_ok s p : hmac_ok s -> is_Some (heap s !! p) ->
  exists s' ok, init_at p s = Some (s', ok) /\ hmac_ok s' /\ is_Some (heap s' !! p) /\
    hmac_initialized_ s' = hmac_initialized_ s.
Proof.
  intros H Hp. pose proof Hp as [c Hc]. unfold init_at. rewrite Hc. simpl.
  destruct (HMAC_Init_ex _ _ c) as [c' ok]. eexists _, _. split; [done|]. split; [by apply put_ok|].
  simpl. rewrite lookup_insert_eq. eauto.
Qed.
Lemma set_ctx_ok s p i : hmac_ok s -> is_Some (heap s !! p) -> hmac_ok (set_ctx (Some p) i s).
Proof. intros [Hn Hi] [c Hp]. split; simpl; [done|]. intros _. eauto. Qed.

Lemma sinkCtx_ok s : hmac_ok s -> exists s', Hmac_sinkCtx s = Some s' /\ hmac_ok s' /\ hmac_initialized_ s' = false.
Proof.
  intros H. pose proof H as [Hn Hi]. unfold Hmac_sinkCtx. destruct (hmac_initialized_ s) eqn:E; [|eauto].
  destruct (Hi eq_refl) as (p & c & -> & Hp). simpl. rewrite Hp. simpl. eexists. split; [done|]. split; [|done].
  split; simpl; [|done]. intros q c' [_ Hq]%lookup_delete_Some. eauto.
Qed.

Lemma Hmac_step_ok s k : hmac_ok s -> exists s' a, hasher_step Hmac_hasher s k = Some (s', a) /\ hmac_ok s'.
Proof.
  intros H. assert (D : forall n, exists s' r, Hmac_digestOut s n = Some (s', r) /\ hmac_ok s').
  { intros n. unfold Hmac_digestOut. destruct (hmac_initialized_ s) eqn:E; simpl; [|eauto]. destruct (negb _); [eauto|].
    destruct (alloc_ok s H) as (Ha & Ei & Ec & Hq). destruct (alloc s) as [s1 [q|]]; simpl in *; [|eauto].
    destruct Hq as (c0 & Hq & -> & Eh). destruct (proj2 H E) as (p & c & Ep & Hp). rewrite Hq, Ec, Ep. simpl.
    assert (n0 : p <> next_ctx s) by (apply (proj1 H) in Hp; lia).
    assert (Hp1 : heap s1 !! p = Some c) by (rewrite Eh; by rewrite lookup_insert_ne by done).
    rewrite Hp1. simpl. destruct (HMAC_CTX_copy c0 c) as [c1 ok].
    assert (Hput : hmac_ok (set_heap (<[next_ctx s := c1]> (heap s1)) s1)) by (apply put_ok; eauto).
    destruct ok; simpl; [|eauto]. destruct (HMAC_Final c1) as [d ok]. eexists _, _. split; [done|]. split; simpl.
    - intros r c' [_ Hr]%lookup_delete_Some. by apply (proj1 Hput r c').
    - intros _. exists p, c. split; [congruence|]. by rewrite lookup_delete_ne, lookup_insert_ne by done. }
  destruct k as [d|n| |]; simpl.
  - unfold Hmac_write. destruct (hmac_initialized_ s) eqn:E; simpl; [|eauto]. destruct (proj2 H E) as (p & c & -> & Hp). simpl.
    rewrite Hp. simpl. destruct (HMAC_Update c d) as [c' ok]. simpl. eexists _, _. split; [done|]. apply put_ok; eauto.
  - destruct (D n) as (s' & r & -> & ?). simpl. eauto.
  - unfold digest. simpl. destruct (D (Hmac_digestSize s)) as (s' & r & -> & ?). simpl. eauto.
  - unfold Hmac_reset. destruct (sinkCtx_ok s H) as (s1 & -> & H1 & E1). simpl.
    destruct (alloc_ok s1 H1) as (Ha & Ei & Ec & Hq). destruct (alloc s1) as [s2 [q|]]; simpl in *.
    + destruct Hq as (c0 & Hq & _). destruct (init_at_ok s2 q Ha) as (s3 & ok & -> & H3 & Hp3 & E3); [eauto|]. simpl.
      destruct ok; simpl; eexists _, _; (split; [done|]); by apply set_ctx_ok.
    + eexists _, _. split; [done|]. split; simpl; [apply Ha|]. rewrite Ei, E1. done.
Qed.
Lemma Hmac_run_ok ks : forall s, hmac_ok s -> exists s' l, hasher_run Hmac_hasher ks s = Some (s', l) /\ hmac_ok s'.
Proof.
  induction ks as [|k ks IH]; intros s H; simpl; [eauto|]. destruct (Hmac_step_ok s k H) as (s1 & a & -> & H1). simpl.
  destruct (IH s1 H1) as (s2 & l & -> & H2). simpl. eauto.
Qed.
Lemma Hmac_new_ok t key : exists s, Hmac_new t key = Some s /\ hmac_ok s.
Proof.
  unfold Hmac_new. set (s := mkHmac t key None false ∅ 0). assert (H : hmac_ok s) by (split; [intros p c; simpl; by rewrite lookup_empty|done]).
  destruct (negb _); [eauto|]. destruct (alloc_ok s H) as (Ha & Ei & Ec & Hq). destruct (alloc s) as [s2 [q|]]; simpl in *; [|eauto].
  destruct Hq as (c0 & Hq & _). destruct (init_at_ok s2 q Ha) as (s3 & ok & -> & H3 & Hp3 & E3); [eauto|]. simpl.
  eexists. split; [done|]. by apply set_ctx_ok.
Qed.

(** A library that works: the object owns the only context, which holds what was
    written. *)
Context {hmac : Z -> bytes -> bytes -> bytes} `{!HmacLibLaws Ctx hmac}.
Definition Hmac_written (t : Z) (k : bytes) (s : HmacProviderCtrImpl (Ctx := Ctx)) (m : bytes) : Prop :=
  hash_type_ s = t /\ key_ s = k /\ hmac_initialized_ s = true /\
  exists p c, hmac_ctx_ s = Some p /\ heap s = {[p := c]} /\ (p < next_ctx s)%nat /\ hmac_holds t k c m.

Lemma init_type t : 0 <= t <= 2 -> (if t =? SHA1 then SHA1 else if t =? SHA256 then SHA256 else SHA512) = t.
Proof. unfold SHA1, SHA256, SHA512. intros. repeat case_match; lia. Qed.

Lemma alloc_works s : exists c, alloc s = (mkHmac (hash_type_ s) (key_ s) (hmac_ctx_ s) (hmac_initialized_ s)
                                             (<[next_ctx s := c]> (heap s)) (S (next_ctx s)), Some (next_ctx s)).
Proof. unfold alloc. destruct (ctx_new_ok (next_ctx s)) as [c ->]. by exists c. Qed.

(** A new context on an empty heap, as in the constructor and in [reset]. *)
Lemma fresh_written t k i n : 0 <= t <= 2 ->
  exists s s', alloc (mkHmac t k None i ∅ n) = (s, Some n) /\ init_at n s = Some (s', true) /\
    hmac_initialized_ s' = i /\ Hmac_written t k (set_ctx (Some n) true s') [].
Proof.
  intros Ht. destruct (alloc_works (mkHmac t k None i ∅ n)) as [c ->]. simpl. destruct (init_ex_ok t k c) as (c' & Ei & Hc).
  eexists _, _. split; [done|]. unfold init_at. simpl. rewrite lookup_insert_eq. simpl. rewrite (init_type t Ht), Ei.
  split; [done|]. split; [done|]. split_and!; try done.
  exists n, c'. simpl. split_and!; try done; [|lia]. by rewrite insert_insert_eq, insert_empty.
Qed.

#[export] Instance Hmac_laws (t : Z) (k : bytes) (Ht : 0 <= t <= 2) :
  HasherLaws Hmac_hasher (hmac t k) (md_size t) (Hmac_written t k).
Proof.
  split; simpl.
  - intros s m d (Et & Ek & Ei & p & c & Ep & Eh & Hn & Hc). unfold Hmac_write. rewrite Ei, Ep. simpl. rewrite Eh, lookup_singleton_eq. simpl.
    destruct (update_ok t k c m d Hc) as (c' & -> & Hc'). eexists. split; [done|]. split_and!; try done.
    exists p, c'. simpl. split_and!; try done. by rewrite insert_singleton_eq.
  - intros s m n (Et & Ek & Ei & p & c & Ep & Eh & Hn & Hc). unfold Hmac_digestOut, Hmac_digestSize. rewrite Ei, Et. simpl.
    destruct (Nat.eqb_spec n (md_size t)) as [->|Hs]; simpl.
    + rewrite decide_True by done. destruct (alloc_works s) as [c0 ->]. simpl.
      rewrite lookup_insert_eq, Ep. simpl. rewrite lookup_insert_ne, Eh, lookup_singleton_eq by lia. simpl.
      destruct (ctx_copy_ok t k c m c0 Hc) as (c1 & -> & Hc1). simpl. destruct (final_ok t k c1 m Hc1) as [-> Hl]. simpl.
      rewrite Ei, Et, Hl, Nat.eqb_refl. simpl. eexists. split; [|done]. split_and!; try done. exists p, c. simpl.
      split_and!; [done| |lia|done]. rewrite insert_insert_eq, delete_insert_id; [done|]. rewrite lookup_singleton_ne; [done|lia].
    + rewrite decide_False by done. exists s. split; [|done]. split_and!; try done. by exists p, c.
  - intros s m (Et & Ek & Ei & p & c & Ep & Eh & Hn & Hc). unfold Hmac_reset, Hmac_sinkCtx. rewrite Ei, Ep. simpl.
    rewrite Eh, lookup_singleton_eq. simpl. unfold set_ctx, set_heap. simpl. rewrite Et, Ek, delete_singleton_eq.
    destruct (fresh_written t k false (next_ctx s) Ht) as (s1 & s2 & -> & -> & _ & Hw). simpl. by eexists.
  - intros s m (Et & Ek & Ei & _). unfold Hmac_digestSize. by rewrite Ei, Et.
Qed.
Lemma Hmac_new_written t k : 0 <= t <= 2 -> exists s, Hmac_new t k = Some s /\ Hmac_written t k s [].
Proof.
  intros Ht. unfold Hmac_new. replace (negb _) with false by (symmetry; apply negb_false_iff, andb_true_intro; split; apply Z.leb_le; lia).
  destruct (fresh_written t k false 0 Ht) as (s1 & s2 & -> & -> & _ & Hw). simpl. by eexists.
Qed.
Lemma Hmac_destroy_written t k s m : Hmac_written t k s m -> exists s', Hmac_destroy s = Some s' /\ heap s' = ∅.
Proof.
  intros (Et & Ek & Ei & p & c & Ep & Eh & Hn & Hc). unfold Hmac_destroy, Hmac_sinkCtx. rewrite Ei, Ep. simpl.
  rewrite Eh, lookup_singleton_eq. simpl. eexists. split; [done|]. simpl. apply delete_singleton_eq.
Qed.
End HmacProofs.

(** ** Claims *)
Section Claims.
Context {Ctx HCtx : Type} `{!DigestLib Ctx, !HmacLib HCtx}.

(** An HMAC object from its construction to its destruction. *)
Definition hmac_life (t : Z) (key : bytes) (ks : list hasher_call) : option (HmacProviderCtrImpl (Ctx := HCtx) * list hasher_answer) :=
  s ← Hmac_new t key; '(s, l) ← hasher_run Hmac_hasher ks s; s ← Hmac_destroy s; Some (s, l).

(** The library may fail at any call: no context is used before it exists or after
    it was freed. *)
Theorem hmac_contexts_safe t key ks : exists s l, hmac_life t key ks = Some (s, l) /\ hmac_initialized_ s = false.
Proof.
  unfold hmac_life. destruct (Hmac_new_ok t key) as (s & -> & H). simpl. destruct (Hmac_run_ok ks s H) as (s1 & l & -> & H1). simpl.
  destruct (sinkCtx_ok s1 H1) as (s2 & E2 & _ & E). unfold Hmac_destroy. rewrite E2. simpl. eauto.
Qed.

(** But what [HMAC_Init_ex] fails on in the constructor is never freed, nor is the
    copy that [HMAC_CTX_copy] fails on. *)
Theorem failed_init_leaks t key c c' :
  0 <= t <= 2 -> HMAC_CTX_new 0 = Some c -> HMAC_Init_ex t key c = (c', false) ->
  exists s, hmac_life t key [] = Some (s, []) /\ heap s = {[0%nat := c']}.
Proof.
  intros Ht En Ei. unfold hmac_life, Hmac_new.
  replace (negb _) with false by (symmetry; apply negb_false_iff, andb_true_intro; split; apply Z.leb_le; lia).
  unfold alloc. simpl. rewrite En. unfold init_at. simpl. rewrite lookup_insert_eq. simpl. rewrite (init_type t Ht), Ei. simpl.
  eexists. split; [done|]. simpl. by rewrite insert_insert_eq, insert_empty.
Qed.
Theorem failed_copy_leaks s p q c c0 c' :
  hmac_initialized_ s = true -> hmac_ctx_ s = Some p -> heap s !! p = Some c -> q = next_ctx s -> p <> q ->
  HMAC_CTX_new q = Some c0 -> HMAC_CTX_copy c0 c = (c', false) ->
  exists s', Hmac_digestOut s (md_size (hash_type_ s)) = Some (s', failure FAILED_INITIALIZE_CONTEXT) /\ heap s' = <[q := c']> (heap s).
Proof.
  intros Ei Ep Hp -> Hne En Ec. unfold Hmac_digestOut, Hmac_digestSize. rewrite Ei. simpl. rewrite Nat.eqb_refl. simpl.
  unfold alloc. rewrite En. simpl. rewrite lookup_insert_eq, Ep. simpl. rewrite lookup_insert_ne, Hp by done. simpl. rewrite Ec. simpl.
  eexists. split; [done|]. simpl. by rewrite insert_insert_eq.
Qed.

Context {hash : Z -> bytes -> bytes} {hmac : Z -> bytes -> bytes -> bytes}.
Context `{!DigestLibLaws Ctx hash, !HmacLibLaws HCtx hmac}.

(** C33: the hashers, when no call of OpenSSL fails.  Under the laws above, by which
    every context can be made, initialised, updated, copied and finalised, any calls of
    write, digestOut, digest and reset on an object of [Sha1], [Sha256] or [Sha512] are
    answered as by an object that keeps what was written since its construction or the
    last reset and hashes it anew; so are those on an HMAC object, with the keyed hash,
    and its destruction leaves no context behind.  Without that condition it is not so:
    [failed_init_leaks] and [failed_copy_leaks]. *)
Theorem hashers_refine_buffer t key ks : 0 <= t <= 2 ->
  (exists s, hasher_run (Sha_hasher t) ks (Sha_new t) = Some (s, reference_run (hash t) (md_size t) ks [])) /\
  (exists s, hmac_life t key ks = Some (s, reference_run (hmac t key) (md_size t) ks []) /\ heap s = ∅).
Proof.
  intros Ht. pose proof (Sha_laws t Ht). pose proof (Hmac_laws t key Ht). split.
  - destruct (hasher_run_refines (Sha_hasher t) (hash t) (md_size t) (Sha_written t) ks (Sha_new t) [] (Sha_new_written t Ht)) as (s & E & _).
    by exists s.
  - unfold hmac_life. destruct (Hmac_new_written t key Ht) as (s & -> & Hw). simpl.
    destruct (hasher_run_refines Hmac_hasher (hmac t key) (md_size t) (Hmac_written t key) ks s [] Hw) as (s1 & -> & m' & Hw'). simpl.
    destruct (Hmac_destroy_written t key s1 m' Hw') as (s2 & -> & Eh). simpl. eauto.
Qed.

(** The one-shot functions. *)
Lemma sha_exact t input : 0 <= t <= 2 -> sha t input = Some (success (hash t input)).
Proof.
  intros Ht. pose proof (Sha_laws t Ht). unfold sha. destruct (law_write (h := Sha_hasher t) _ _ input (Sha_new_written t Ht)) as (s & E & Hw).
  simpl in E. rewrite E. simpl. destruct (law_digest (h := Sha_hasher t) s input (md_size t) Hw) as (s' & _ & E'). simpl in E'.
  injection E' as _ E'. unfold Sha_digestOut. simpl. rewrite E', decide_True by done. done.
Qed.
Lemma calculateDigest_exact t key message : 0 <= t <= 2 -> calculateDigest t key message = Some (success (hmac t key message)).
Proof.
  intros Ht. pose proof (Hmac_laws t key Ht) as L. unfold calculateDigest. destruct (Hmac_new_written t key Ht) as (s & -> & Hw). simpl.
  destruct (law_write (h := Hmac_hasher) s [] message Hw) as (s1 & E1 & Hw1). simpl in E1. rewrite E1. simpl.
  destruct (law_digest (h := Hmac_hasher) s1 message (md_size t) Hw1) as (s2 & Hw2 & E2). rewrite decide_True in E2 by done.
  rewrite <- (law_size (h := Hmac_hasher) s1 message Hw1) in E2. change (digest Hmac_hasher s1 = Some (s2, success (hmac t key message))) in E2.
  rewrite E2. simpl. destruct (Hmac_destroy_written t key s2 message Hw2) as (s3 & -> & _). done.
Qed.
End Claims.

(** ** A concrete library *)
Module ToyHash.
(** A "hash" that repeats the sum of the bytes; contexts keep what was written. *)
Definition sum (m : bytes) : Z := foldr Z.add 0 m.
Definition toy_hash (t : Z) (m : bytes) : bytes := replicate (md_size t) (sum m mod 256).
Definition toy_hmac (t : Z) (key m : bytes) : bytes := toy_hash t (key ++ m).

#[export] Instance toy_digest : DigestLib (Z * bytes) := {|
  md_init t := ((t, []), true);
  md_update c d := ((c.1, c.2 ++ d), true);
  md_final c := (toy_hash c.1 c.2, true)
|}.
#[export] Instance toy_digest_laws : DigestLibLaws (Z * bytes) toy_hash.
Proof.
  refine {| md_holds t c m := c = (t, m) |}.
  - intros t _. by eexists.
  - intros t c m d ->. by eexists.
  - by intros t c m ->.
Defined.
#[export] Instance toy_hmaclib : HmacLib (Z * bytes * bytes) := {|
  HMAC_CTX_new _ := Some (0, [], []);
  HMAC_Init_ex t k _ := ((t, k, []), true);
  HMAC_Update c d := ((c.1, c.2 ++ d), true);
  HMAC_CTX_copy _ c := (c, true);
  HMAC_Final c := (toy_hmac c.1.1 c.1.2 c.2, true)
|}.
#[export] Instance toy_hmac_laws : HmacLibLaws (Z * bytes * bytes) toy_hmac.
Proof.
  refine {| hmac_holds t k c m := c = (t, k, m) |}.
  - by eexists.
  - by eexists.
  - intros t k c m d ->. by eexists.
  - intros t k c m c0 ->. by eexists.
  - intros t k c m ->. split; [done|]. apply length_replicate.
Defined.

Lemma hashers_refine_buffer_witness :
  (exists s, hasher_run (Sha_hasher SHA256) [Write [1; 2]; Digest; Write [3]; DigestOut 32; Reset; DigestOut 5] (Sha_new SHA256)
     = Some (s, [Done (success tt); Got (success (replicate 32 3)); Done (success tt); Got (success (replicate 32 6));
                 Done (success tt); Got (failure WRONG_DIGEST_SIZE)])) /\
  (exists s, hmac_life SHA256 [9] [Write [1; 2]; Digest; Write [3]; DigestOut 32; Reset; DigestOut 5]
     = Some (s, [Done (success tt); Got (success (replicate 32 12)); Done (success tt); Got (success (replicate 32 15));
                 Done (success tt); Got (failure WRONG_DIGEST_SIZE)]) /\ heap s = ∅).
Proof.
  exact (hashers_refine_buffer SHA256 [9] [Write [1; 2]; Digest; Write [3]; DigestOut 32; Reset; DigestOut 5]
           (conj (Z.le_0_1) (Z.le_succ_diag_r 1))).
Defined.
End ToyHash.
