(* ===== verification/Providers.v ===== *)
(** * Algorithm providers

    [crypto/ed25519_provider], [secp256k1_provider], [ecdsa_provider],
    [rsa_provider], [common_functions.cpp], [aes_provider] and
    [random_generator]: the classes between the crypto provider and OpenSSL or
    libsecp256k1.  The functions of the libraries are parameters, as are random
    bytes.  The last part makes them the [Providers] of Keys.v. *)

From S2P Require Import Prelude Keys Hashers.
Import Key.

(** ** What is used of the libraries

    A null pointer is [None], a return value other than 1 is [false] or [None].
    Where the return value is used as a number it is one. *)

Class Evp := {
  EVP_PKEY : Type;
  EVP_PKEY_CTX_new_id : bool;
  EVP_PKEY_keygen_init : bool;
  EVP_PKEY_keygen : option EVP_PKEY;
  EVP_PKEY_get_raw_private_key : EVP_PKEY -> option bytes;
  EVP_PKEY_get_raw_public_key : EVP_PKEY -> option bytes;
  EVP_PKEY_new_raw_private_key : bytes -> option EVP_PKEY;
  EVP_PKEY_new_raw_public_key : bytes -> option EVP_PKEY;
  EVP_MD_CTX_new : bool;
  EVP_DigestSignInit : EVP_PKEY -> bool;
  EVP_DigestSign : EVP_PKEY -> bytes -> option bytes;
  EVP_DigestVerifyInit : EVP_PKEY -> bool;
  EVP_DigestVerify : EVP_PKEY -> bytes -> bytes -> Z
}.

Class Secp256k1Lib := {
  secp256k1_pubkey : Type;
  secp256k1_ecdsa_signature : Type;
  secp256k1_ec_seckey_verify : bytes -> bool;
  secp256k1_ec_pubkey_create : bytes -> option secp256k1_pubkey;
  secp256k1_ec_pubkey_serialize : secp256k1_pubkey -> option bytes;
  secp256k1_ec_pubkey_parse : bytes -> option secp256k1_pubkey;
  secp256k1_ecdsa_sign : bytes -> bytes -> option secp256k1_ecdsa_signature;
  secp256k1_ecdsa_verify : secp256k1_ecdsa_signature -> bytes -> secp256k1_pubkey -> bool;
  (** the size the encoding needs, and the encoding in a buffer of a size *)
  serialize_der_size : secp256k1_ecdsa_signature -> nat;
  serialize_der : secp256k1_ecdsa_signature -> nat -> option bytes;
  secp256k1_ecdsa_signature_parse_der : bytes -> option secp256k1_ecdsa_signature;
  serialize_compact : secp256k1_ecdsa_signature -> bytes;
  parse_compact : bytes -> option secp256k1_ecdsa_signature
}.

Class Ec := {
  EC_KEY : Type;
  EC_POINT : Type;
  EC_KEY_new_by_curve_name : option EC_KEY;
  EC_KEY_generate_key : EC_KEY -> option EC_KEY;
  EC_POINT_mul : EC_KEY -> option EC_POINT;
  EC_KEY_set_public_key : EC_KEY -> EC_POINT -> option EC_KEY;
  EC_KEY_check_key : EC_KEY -> bool;
  i2d_ECPrivateKey : EC_KEY -> bytes;
  i2d_EC_PUBKEY : EC_KEY -> bytes;
  d2i_ECPrivateKey : bytes -> option EC_KEY;
  d2i_EC_PUBKEY : bytes -> option EC_KEY;
  ECDSA_do_sign : bytes -> EC_KEY -> option bytes;
  ECDSA_verify : bytes -> bytes -> EC_KEY -> Z
}.

Class RsaLib := {
  RSA_t : Type;
  BN_set_word : bool;
  RSA_generate_key_ex : Z -> option RSA_t;
  i2d_RSAPrivateKey : RSA_t -> option bytes;
  i2d_RSA_PUBKEY : RSA_t -> option bytes;
  d2i_RSAPrivateKey : bytes -> option RSA_t;
  RSA_size : RSA_t -> nat;
  RSA_sign : bytes -> RSA_t -> option bytes;
  X509_PUBKEY : Type;
  d2i_X509_PUBKEY : bytes -> option X509_PUBKEY;
  X509_PUBKEY_get_RSA : X509_PUBKEY -> option (option RSA_t);
  RSA_verify : bytes -> bytes -> RSA_t -> Z
}.

(** ** Ed25519 *)
Module Ed25519Provider.
Section Ed25519.
Context `{Evp}.

(** [NewEvpPkeyFromBytes] *)
Definition NewEvpPkeyFromBytes (reader : bytes -> option EVP_PKEY) (key : bytes) : outcome CryptoError EVP_PKEY :=
  match reader key with None => failure INTERNAL_ERROR | Some k => success k end.

(** Public and private key. *)
Definition generate : outcome CryptoError (bytes * bytes) :=
  if negb EVP_PKEY_CTX_new_id then failure KEY_GENERATION_FAILED
  else if negb EVP_PKEY_keygen_init then failure KEY_GENERATION_FAILED
  else match EVP_PKEY_keygen with
       | None => failure KEY_GENERATION_FAILED
       | Some pkey =>
           match EVP_PKEY_get_raw_private_key pkey, EVP_PKEY_get_raw_public_key pkey with
           | Some private_key, Some public_key => success (public_key, private_key)
           | _, _ => failure KEY_GENERATION_FAILED
           end
       end.
Definition derive (private_key : bytes) : outcome CryptoError bytes :=
  (TRY pkey <- NewEvpPkeyFromBytes EVP_PKEY_new_raw_private_key private_key ;;
   match EVP_PKEY_get_raw_public_key pkey with None => failure KEY_DERIVATION_FAILED | Some p => success p end)%p2p.
Definition sign (message private_key : bytes) : outcome CryptoError bytes :=
  (TRY pkey <- NewEvpPkeyFromBytes EVP_PKEY_new_raw_private_key private_key ;;
   if negb EVP_MD_CTX_new then failure SIGNATURE_GENERATION_FAILED
   else if negb (EVP_DigestSignInit pkey) then failure SIGNATURE_GENERATION_FAILED
   else match EVP_DigestSign pkey message with
        | None => failure SIGNATURE_GENERATION_FAILED
        | Some s => success s
        end)%p2p.
Definition verify (message signature public_key : bytes) : outcome CryptoError bool :=
  (TRY pkey <- NewEvpPkeyFromBytes EVP_PKEY_new_raw_public_key public_key ;;
   if negb EVP_MD_CTX_new then failure SIGNATURE_VERIFICATION_FAILED
   else if negb (EVP_DigestVerifyInit pkey) then failure SIGNATURE_VERIFICATION_FAILED
   else let valid := EVP_DigestVerify pkey signature message in
        if (1 =? valid) || (0 =? valid) then success (negb (valid =? 0)) else failure SIGNATURE_VERIFICATION_FAILED)%p2p.
End Ed25519.
End Ed25519Provider.

(** ** Secp256k1

    [sha256(message).value()] throws where hashing fails: [None]. *)
Module Secp256k1Provider.
Section Secp256k1.
Context `{Secp256k1Lib} (sha256 : bytes -> outcome CryptoError bytes).

Definition derive (key : bytes) : outcome CryptoError bytes :=
  match secp256k1_ec_pubkey_create key with
  | None => failure KEY_DERIVATION_FAILED
  | Some ffi_pub =>
      match secp256k1_ec_pubkey_serialize ffi_pub with
      | None => failure KEY_DERIVATION_FAILED
      | Some public_key => success public_key
      end
  end.

(** The loop of [generate] over the keys drawn; [None] when none of them is valid. *)
Fixpoint draw (drawn : list bytes) : option bytes :=
  match drawn with
  | [] => None
  | k :: drawn => if secp256k1_ec_seckey_verify k then Some k else draw drawn
  end.
Definition generate (drawn : list bytes) : option (outcome CryptoError (bytes * bytes)) :=
  private_key ← draw drawn;
  Some (TRY public_key <- derive private_key ;; success (public_key, private_key))%p2p.

Definition signRaw (prehashed key : bytes) : outcome CryptoError secp256k1_ecdsa_signature :=
  match secp256k1_ecdsa_sign prehashed key with None => failure SIGNATURE_GENERATION_FAILED | Some s => success s end.
Definition sign (message key : bytes) : option (outcome CryptoError bytes) :=
  match sha256 message with
  | failure _ => None
  | success prehashed => Some (TRY ffi_sig <- signRaw prehashed key ;;
        let size := serialize_der_size ffi_sig in
        match serialize_der ffi_sig size with
        | None => failure SIGNATURE_GENERATION_FAILED
        | Some signature => success signature
        end)%p2p
  end.
Definition signCompact (prehashed key : bytes) : outcome CryptoError bytes :=
  (TRY ffi_sig <- signRaw prehashed key ;; success (serialize_compact ffi_sig))%p2p.

Definition verifyRaw (prehashed : bytes) (ffi_sig : secp256k1_ecdsa_signature) (key : bytes) : outcome CryptoError bool :=
  match secp256k1_ec_pubkey_parse key with
  | None => failure SIGNATURE_VERIFICATION_FAILED
  | Some ffi_pub => success (secp256k1_ecdsa_verify ffi_sig prehashed ffi_pub)
  end.
Definition verify (message signature key : bytes) : option (outcome CryptoError bool) :=
  match secp256k1_ecdsa_signature_parse_der signature with
  | None => Some (failure SIGNATURE_VERIFICATION_FAILED)
  | Some ffi_sig =>
      match sha256 message with
      | failure _ => None
      | success prehashed => Some (verifyRaw prehashed ffi_sig key)
      end
  end.
Definition verifyCompact (prehashed signature key : bytes) : outcome CryptoError bool :=
  match parse_compact signature with
  | None => failure SIGNATURE_VERIFICATION_FAILED
  | Some ffi_sig => verifyRaw prehashed ffi_sig key
  end.
End Secp256k1.
End Secp256k1Provider.

(** ** ECDSA

    Keys are arrays: 121 bytes of private, 91 bytes of public key. *)
Module EcdsaProvider.
Section Ecdsa.
Context `{Ec} (sha256 : bytes -> outcome CryptoError bytes).

Definition convertEcKeyToBytes (size : nat) (converter : EC_KEY -> bytes) (k : EC_KEY) : outcome CryptoError bytes :=
  if negb (length (converter k) =? size)%nat then failure DIFFERENT_KEY_TYPES else success (converter k).
Definition convertBytesToEcKey (converter : bytes -> option EC_KEY) (key : bytes) : outcome CryptoError EC_KEY :=
  match converter key with
  | None => failure DIFFERENT_KEY_TYPES
  | Some k => if negb (EC_KEY_check_key k) then failure INTERNAL_ERROR else success k
  end.

(** A null key is used before it is checked: [None]. *)
Definition generate : option (outcome CryptoError (bytes * bytes)) :=
  ec_key ← EC_KEY_new_by_curve_name;
  Some match EC_KEY_generate_key ec_key with
       | None => failure KEY_GENERATION_FAILED
       | Some ec_key =>
           (TRY private_key <- convertEcKeyToBytes 121 i2d_ECPrivateKey ec_key ;;
            TRY public_key <- convertEcKeyToBytes 91 i2d_EC_PUBKEY ec_key ;;
            success (public_key, private_key))%p2p
       end.
Definition derive (key : bytes) : outcome CryptoError bytes :=
  (TRY ec_key <- convertBytesToEcKey d2i_ECPrivateKey key ;;
   match EC_POINT_mul ec_key with
   | None => failure KEY_GENERATION_FAILED
   | Some ec_point =>
       match EC_KEY_set_public_key ec_key ec_point with
       | None => failure KEY_GENERATION_FAILED
       | Some ec_key => convertEcKeyToBytes 91 i2d_EC_PUBKEY ec_key
       end
   end)%p2p.

(** [GenerateEcSignature] and [VerifyEcSignature] of [common_functions.cpp] *)
Definition GenerateEcSignature (digest : bytes) (key : EC_KEY) : outcome CryptoError bytes :=
  match ECDSA_do_sign digest key with None => failure SIGNATURE_GENERATION_FAILED | Some s => success s end.
Definition VerifyEcSignature (digest signature : bytes) (key : EC_KEY) : outcome CryptoError bool :=
  let result := ECDSA_verify digest signature key in
  if result <? 0 then failure SIGNATURE_VERIFICATION_FAILED else success (result =? 1).

Definition signPrehashed (message key : bytes) : outcome CryptoError bytes :=
  (TRY ec_key <- convertBytesToEcKey d2i_ECPrivateKey key ;; GenerateEcSignature message ec_key)%p2p.
Definition sign (message key : bytes) : outcome CryptoError bytes :=
  (TRY digest <- sha256 message ;; signPrehashed digest key)%p2p.
Definition verifyPrehashed (message signature public_key : bytes) : outcome CryptoError bool :=
  (TRY ec_key <- convertBytesToEcKey d2i_EC_PUBKEY public_key ;; VerifyEcSignature message signature ec_key)%p2p.
Definition verify (message signature key : bytes) : outcome CryptoError bool :=
  (TRY digest <- sha256 message ;; verifyPrehashed digest signature key)%p2p.
End Ecdsa.
End EcdsaProvider.

(** ** RSA *)
Module RsaProvider.
Section Rsa.
Context `{RsaLib} (sha256 : bytes -> outcome CryptoError bytes).

Definition encodeKeyDer (function : RSA_t -> option bytes) (ks : RSA_t) : outcome CryptoError bytes :=
  match function ks with None => failure KEY_GENERATION_FAILED | Some b => success b end.

Definition bits (rsa_bitness : RSAKeyType) : Z :=
  match rsa_bitness with RSA1024 => 1024 | RSA4096 => 4096 | RSA2048 => 2048 end.
Definition generate (rsa_bitness : RSAKeyType) : outcome CryptoError (bytes * bytes) :=
  if negb BN_set_word then failure KEY_GENERATION_FAILED
  else match RSA_generate_key_ex (bits rsa_bitness) with
       | None => failure KEY_GENERATION_FAILED
       | Some rsa =>
           (TRY private_bytes <- encodeKeyDer i2d_RSAPrivateKey rsa ;;
            TRY public_bytes <- encodeKeyDer i2d_RSA_PUBKEY rsa ;;
            success (public_bytes, private_bytes))%p2p
       end.
Definition derive (private_key : bytes) : outcome CryptoError bytes :=
  match d2i_RSAPrivateKey private_key with
  | None => failure KEY_DERIVATION_FAILED
  | Some rsa => encodeKeyDer i2d_RSA_PUBKEY rsa
  end.
Definition rsaFromPrivateKey (private_key : bytes) : outcome CryptoError RSA_t :=
  match d2i_RSAPrivateKey private_key with None => failure INVALID_PRIVATE_KEY | Some rsa => success rsa end.

(** The buffer has the size of the modulus; what is not written stays zero. *)
Definition sign (message private_key : bytes) : outcome CryptoError bytes :=
  (TRY rsa <- rsaFromPrivateKey private_key ;;
   TRY digest <- sha256 message ;;
   match RSA_sign digest rsa with
   | None => failure SIGNATURE_GENERATION_FAILED
   | Some s => success (s ++ replicate (RSA_size rsa - length s) 0)
   end)%p2p.
Definition getPublicKeyFromBytes (input_key : bytes) : outcome CryptoError X509_PUBKEY :=
  match d2i_X509_PUBKEY input_key with None => failure INVALID_PUBLIC_KEY | Some k => success k end.
Definition verify (message signature public_key : bytes) : outcome CryptoError bool :=
  (TRY x509_key <- getPublicKeyFromBytes public_key ;;
   match X509_PUBKEY_get_RSA x509_key with
   | None => failure SIGNATURE_VERIFICATION_FAILED
   | Some None => failure SIGNATURE_VERIFICATION_FAILED
   | Some (Some rsa) =>
       TRY digest <- sha256 message ;;
       success (1 =? RSA_verify digest signature rsa)
   end)%p2p.
End Rsa.
End RsaProvider.

(** ** AES in counter mode

    OpenSSL's cipher context; the direction of the stream is part of it. *)
Class Cipher (Ctx : Type) := {
  EVP_CIPHER_CTX_new : option Ctx;
  EVP_CipherInit_ex : Ctx -> nat -> bytes -> bytes -> bool -> option Ctx;
  EVP_CipherUpdate : Ctx -> bytes -> Ctx * option bytes;
  EVP_CipherFinal_ex : Ctx -> Ctx * option bytes
}.
Module AesCtr.
Inductive Mode := ENCRYPT | DECRYPT.
Inductive OpenSslError :=
| OPENSSL_FAILED_INITIALIZE_CONTEXT | FAILED_INITIALIZE_OPERATION | FAILED_ENCRYPT_UPDATE | FAILED_DECRYPT_UPDATE
| FAILED_ENCRYPT_FINALIZE | FAILED_DECRYPT_FINALIZE | STREAM_FINALIZED.

Section Aes.
Context {Ctx : Type} `{!Cipher Ctx}.
Record AesCtrImpl := mkAes { mode_ : Mode; cipher_ctx : option Ctx; initialization_error_ : outcome OpenSslError unit }.

(** The constructors: keys of 16 or 32 bytes and an initialisation vector of 16. *)
Definition AesCtrImpl_new (mode : Mode) (key iv : bytes) : AesCtrImpl :=
  match EVP_CIPHER_CTX_new with
  | None => mkAes mode None (failure OPENSSL_FAILED_INITIALIZE_CONTEXT)
  | Some c =>
      match EVP_CipherInit_ex c (length key) key iv (match mode with ENCRYPT => true | DECRYPT => false end) with
      | None => mkAes mode (Some c) (failure FAILED_INITIALIZE_OPERATION)
      | Some c => mkAes mode (Some c) (success tt)
      end
  end.
(** [None] is the use of a context that was not made. *)
Definition crypt (data : bytes) (s : AesCtrImpl) : option (AesCtrImpl * outcome OpenSslError bytes) :=
  match initialization_error_ s with
  | failure e => Some (s, failure e)
  | success _ =>
      c ← cipher_ctx s;
      let '(c, r) := EVP_CipherUpdate c data in
      Some (mkAes (mode_ s) (Some c) (initialization_error_ s),
            match r with
            | None => failure (match mode_ s with ENCRYPT => FAILED_ENCRYPT_UPDATE | DECRYPT => FAILED_DECRYPT_UPDATE end)
            | Some out => success out
            end)
  end.
Definition finalize (s : AesCtrImpl) : option (AesCtrImpl * outcome OpenSslError bytes) :=
  match initialization_error_ s with
  | failure e => Some (s, failure e)
  | success _ =>
      c ← cipher_ctx s;
      let '(c, r) := EVP_CipherFinal_ex c in
      Some (mkAes (mode_ s) (Some c) (failure STREAM_FINALIZED),
            match r with
            | None => failure (match mode_ s with ENCRYPT => FAILED_ENCRYPT_FINALIZE | DECRYPT => FAILED_DECRYPT_FINALIZE end)
            | Some out => success out
            end)
  end.
Fixpoint crypt_all (chunks : list bytes) (s : AesCtrImpl) : option (AesCtrImpl * outcome OpenSslError bytes) :=
  match chunks with
  | [] => Some (s, success [])
  | d :: chunks =>
      '(s, r) ← crypt d s;
      match r with
      | failure e => Some (s, failure e)
      | success out => '(s, r) ← crypt_all chunks s; Some (s, (TRY rest <- r ;; success (out ++ rest))%p2p)
      end
  end.
End Aes.
End AesCtr.

(** ** What the libraries promise *)

Class EvpLaws `{Evp} := {
  public_part : EVP_PKEY -> EVP_PKEY;
  raw_private k b : EVP_PKEY_get_raw_private_key k = Some b -> length b = 32%nat /\ EVP_PKEY_new_raw_private_key b = Some k;
  raw_public k b : EVP_PKEY_get_raw_public_key k = Some b ->
    length b = 32%nat /\ EVP_PKEY_new_raw_public_key b = Some (public_part k);
  digest_sign k m s : EVP_DigestSign k m = Some s ->
    length s = 64%nat /\ EVP_DigestVerifyInit (public_part k) = true /\ EVP_DigestVerify (public_part k) s m = 1
}.
Class Secp256k1Laws `{Secp256k1Lib} := {
  pubkey_bytes p b : secp256k1_ec_pubkey_serialize p = Some b ->
    length b = 33%nat /\ (nth 0 b 0 = 2 \/ nth 0 b 0 = 3) /\ secp256k1_ec_pubkey_parse b = Some p;
  ecdsa_sign_verify h k s p : secp256k1_ecdsa_sign h k = Some s -> secp256k1_ec_pubkey_create k = Some p ->
    secp256k1_ecdsa_verify s h p = true;
  der_bytes s b : serialize_der s (serialize_der_size s) = Some b ->
    (length b <= 72)%nat /\ secp256k1_ecdsa_signature_parse_der b = Some s;
  compact_bytes s : parse_compact (serialize_compact s) = Some s
}.
Class EcLaws `{Ec} := {
  ec_public : EC_KEY -> EC_KEY;
  ec_generated k0 k : EC_KEY_generate_key k0 = Some k ->
    EC_KEY_check_key k = true /\ EC_KEY_check_key (ec_public k) = true /\
    exists p, EC_POINT_mul k = Some p /\ EC_KEY_set_public_key k p = Some k;
  ec_private_der k : d2i_ECPrivateKey (i2d_ECPrivateKey k) = Some k;
  ec_public_der k : d2i_EC_PUBKEY (i2d_EC_PUBKEY k) = Some (ec_public k);
  ec_sign d k s : ECDSA_do_sign d k = Some s -> ECDSA_verify d s (ec_public k) = 1
}.
Class RsaLibLaws `{RsaLib, RsaDer} := {
  rsa_public : RSA_t -> RSA_t;
  rsa_private_der r b : i2d_RSAPrivateKey r = Some b -> d2i_RSAPrivateKey b = Some r;
  rsa_public_der r b : i2d_RSA_PUBKEY r = Some b ->
    exists x, d2i_X509_PUBKEY b = Some x /\ X509_PUBKEY_get_RSA x = Some (Some (rsa_public r));
  rsa_sign_size d r s : RSA_sign d r = Some s -> length s = RSA_size r /\ RSA_verify d s (rsa_public r) = 1;
  rsa_key_bits n r priv pub : RSA_generate_key_ex n = Some r -> i2d_RSAPrivateKey r = Some priv -> i2d_RSA_PUBKEY r = Some pub ->
    rsa_private_bits priv = Some n /\ rsa_public_bits pub = Some n
}.

(** ** The providers of Keys.v

    [hash] is what [sha256] computes and [drawn] the random keys, one of which is
    valid, so that [generate] of Secp256k1 returns [gen]. *)
Section Instance_.
Context `{Evp, Secp256k1Lib, Ec, RsaLib} {HCtx : Type} `{!HmacLib HCtx} (hash : bytes -> bytes) (drawn : list bytes).
Let sha256 (m : bytes) : outcome CryptoError bytes := success (hash m).

(** Where the model of a provider has no result, neither does the program; with a hash
    that works this is only [generate] of ECDSA out of memory, and a hash type of HMAC
    that is none. *)
Definition or_fail {A} (r : option (outcome CryptoError A)) : outcome CryptoError A :=
  match r with Some r => r | None => failure INTERNAL_ERROR end.
Definition library_providers : Providers := {|
  rsa_generate := RsaProvider.generate;
  rsa_derive := RsaProvider.derive;
  rsa_sign := RsaProvider.sign sha256;
  rsa_verify := RsaProvider.verify sha256;
  ed25519_generate := Ed25519Provider.generate;
  ed25519_derive := Ed25519Provider.derive;
  ed25519_sign := Ed25519Provider.sign;
  ed25519_verify := Ed25519Provider.verify;
  secp256k1_generate := or_fail (Secp256k1Provider.generate drawn);
  secp256k1_derive := Secp256k1Provider.derive;
  secp256k1_sign m k := or_fail (Secp256k1Provider.sign sha256 m k);
  secp256k1_verify m s k := or_fail (Secp256k1Provider.verify sha256 m s k);
  ecdsa_generate := or_fail EcdsaProvider.generate;
  ecdsa_derive := EcdsaProvider.derive;
  ecdsa_sign := EcdsaProvider.sign sha256;
  ecdsa_verify := EcdsaProvider.verify sha256;
  hmac_digest t k m := or_fail (calculateDigest (Ctx := HCtx) t k m)
|}.

(** *** Proofs *)

Lemma ed25519_lawful `{!EvpLaws} pub priv : Ed25519Provider.generate = success (pub, priv) ->
  (Ed25519Provider.derive priv = success pub /\
   forall m s, Ed25519Provider.sign m priv = success s -> length s = 64%nat /\ Ed25519Provider.verify m s pub = success true) /\
  length pub = 32%nat /\ length priv = 32%nat.
Proof.
  unfold Ed25519Provider.generate. intros E. destruct EVP_PKEY_CTX_new_id; [|done]. destruct EVP_PKEY_keygen_init; [|done].
  destruct EVP_PKEY_keygen as [k|]; [|done]. cbn [negb] in E. destruct (EVP_PKEY_get_raw_private_key k) as [sk|] eqn:Es; [|done].
  destruct (EVP_PKEY_get_raw_public_key k) as [pk|] eqn:Ep; [|done]. injection E as -> ->.
  destruct (raw_private k priv Es) as [Hs Ns]. destruct (raw_public k pub Ep) as [Hp Np]. split; [|done]. split.
  - unfold Ed25519Provider.derive, Ed25519Provider.NewEvpPkeyFromBytes. rewrite Ns. cbn. by rewrite Ep.
  - intros m s. unfold Ed25519Provider.sign, Ed25519Provider.verify, Ed25519Provider.NewEvpPkeyFromBytes. rewrite Ns, Np. cbn.
    destruct EVP_MD_CTX_new; [|done]. cbn. destruct (EVP_DigestSignInit k); [|done]. cbn. destruct (EVP_DigestSign k m) as [s'|] eqn:Ed; [|done].
    intros [= ->]. destruct (digest_sign k m s Ed) as (Hl & -> & ->). done.
Qed.

Lemma draw_spec l k : Secp256k1Provider.draw l = Some k -> k ∈ l /\ secp256k1_ec_seckey_verify k = true.
Proof.
  induction l as [|x l IH]; cbn; [done|]. destruct (secp256k1_ec_seckey_verify x) eqn:E.
  - intros [= ->]. split; [apply list_elem_of_here|done].
  - intros Hd. destruct (IH Hd). split; [by apply list_elem_of_further|done].
Qed.
Lemma secp256k1_derive_inv k b : Secp256k1Provider.derive k = success b ->
  exists p, secp256k1_ec_pubkey_create k = Some p /\ secp256k1_ec_pubkey_serialize p = Some b.
Proof.
  unfold Secp256k1Provider.derive. destruct (secp256k1_ec_pubkey_create k) as [p|]; [|done].
  destruct (secp256k1_ec_pubkey_serialize p) as [b'|] eqn:E; [|done]. intros [= ->]. by exists p.
Qed.
Lemma secp256k1_lawful `{!Secp256k1Laws} pub priv : Forall (fun k => length k = 32%nat) drawn ->
  or_fail (Secp256k1Provider.generate drawn) = success (pub, priv) ->
  (Secp256k1Provider.derive priv = success pub /\
   forall m s, or_fail (Secp256k1Provider.sign sha256 m priv) = success s ->
     (length s <= 72)%nat /\ or_fail (Secp256k1Provider.verify sha256 m s pub) = success true) /\
  length pub = 33%nat /\ (nth 0 pub 0 = 2 \/ nth 0 pub 0 = 3) /\ length priv = 32%nat.
Proof.
  intros Hd. unfold Secp256k1Provider.generate. destruct (Secp256k1Provider.draw drawn) as [k|] eqn:Ek; [|done]. cbn.
  destruct (Secp256k1Provider.derive k) as [b|] eqn:Eb; [|done]. cbn. intros [= -> ->].
  destruct (secp256k1_derive_inv priv pub Eb) as (p & Ec & Es). destruct (pubkey_bytes p pub Es) as (H1' & H2' & H3').
  split; [split; [done|]|split; [done|split; [done|]]].
  - intros m s. unfold Secp256k1Provider.sign, Secp256k1Provider.verify, Secp256k1Provider.signRaw, Secp256k1Provider.verifyRaw. cbn.
    destruct (secp256k1_ecdsa_sign (hash m) priv) as [sg|] eqn:Eg; [|done]. cbn.
    destruct (serialize_der sg (serialize_der_size sg)) as [d|] eqn:Ed; [|done]. intros [= ->].
    destruct (der_bytes sg s Ed) as [Hl ->]. split; [done|]. rewrite H3'. cbn. by rewrite (ecdsa_sign_verify _ _ _ _ Eg Ec).
  - apply draw_spec in Ek as [Hin _]. by apply (Forall_forall (fun k => length k = 32%nat) drawn).
Qed.

Lemma convert_inv n f k b : EcdsaProvider.convertEcKeyToBytes n f k = success b -> b = f k /\ length b = n.
Proof.
  unfold EcdsaProvider.convertEcKeyToBytes. destruct (Nat.eqb_spec (length (f k)) n) as [E|]; cbn; [|done]. by intros [= <-].
Qed.
Lemma ecdsa_lawful `{!EcLaws} pub priv : or_fail EcdsaProvider.generate = success (pub, priv) ->
  (EcdsaProvider.derive priv = success pub /\
   forall m s, EcdsaProvider.sign sha256 m priv = success s -> EcdsaProvider.verify sha256 m s pub = success true) /\
  length pub = 91%nat /\ length priv = 121%nat.
Proof.
  unfold EcdsaProvider.generate. destruct EC_KEY_new_by_curve_name as [k0|]; [|done]. cbn.
  destruct (EC_KEY_generate_key k0) as [k|] eqn:Eg; [|done]. destruct (ec_generated k0 k Eg) as (C1 & C2 & p & Em & Esp).
  destruct (EcdsaProvider.convertEcKeyToBytes 121 i2d_ECPrivateKey k) as [sk|] eqn:Es; [|done]. cbn.
  destruct (EcdsaProvider.convertEcKeyToBytes 91 i2d_EC_PUBKEY k) as [pk|] eqn:Ep; [|done]. cbn. intros [= -> ->].
  pose proof (convert_inv _ _ _ _ Es) as [-> Hs]. pose proof (convert_inv _ _ _ _ Ep) as [-> Hp]. split; [|done]. split.
  - unfold EcdsaProvider.derive, EcdsaProvider.convertBytesToEcKey. rewrite ec_private_der, C1. cbn. by rewrite Em, Esp, Ep.
  - intros m s. unfold EcdsaProvider.sign, EcdsaProvider.signPrehashed, EcdsaProvider.verify, EcdsaProvider.verifyPrehashed,
      EcdsaProvider.convertBytesToEcKey, EcdsaProvider.GenerateEcSignature, EcdsaProvider.VerifyEcSignature, sha256. cbn.
    rewrite ec_private_der, C1, ec_public_der, C2. cbn. destruct (ECDSA_do_sign (hash m) k) as [s'|] eqn:Ed; [|done].
    intros [= ->]. by rewrite (ec_sign _ _ _ Ed).
Qed.

Lemma rsa_lawful `{RD : RsaDer, !RsaLibLaws} b pub priv : RsaProvider.generate b = success (pub, priv) ->
  (RsaProvider.derive priv = success pub /\
   forall m s, RsaProvider.sign sha256 m priv = success s -> True /\ RsaProvider.verify sha256 m s pub = success true) /\
  rsa_private_bits priv = Some (rsa_bits b) /\ rsa_public_bits pub = Some (rsa_bits b).
Proof.
  unfold RsaProvider.generate. destruct BN_set_word; [|done]. cbn. destruct (RSA_generate_key_ex (RsaProvider.bits b)) as [r|] eqn:Er; [|done].
  unfold RsaProvider.encodeKeyDer. destruct (i2d_RSAPrivateKey r) as [sk|] eqn:Es; [|done]. cbn.
  destruct (i2d_RSA_PUBKEY r) as [pk|] eqn:Ep; [|done]. cbn. intros [= -> ->].
  pose proof (rsa_private_der r priv Es) as Ds. destruct (rsa_public_der r pub Ep) as (x & Dx & Dp). split; [split|].
  - unfold RsaProvider.derive, RsaProvider.encodeKeyDer. by rewrite Ds, Ep.
  - intros m s. unfold RsaProvider.sign, RsaProvider.rsaFromPrivateKey, RsaProvider.verify, RsaProvider.getPublicKeyFromBytes, sha256.
    rewrite Ds, Dx. cbn. destruct (RSA_sign (hash m) r) as [s'|] eqn:Eg; [|done]. intros [= <-]. split; [done|]. rewrite Dp.
    destruct (rsa_sign_size _ _ _ Eg) as [Hl Hv]. rewrite Hl, Nat.sub_diag. cbn. by rewrite app_nil_r, Hv.
  - destruct (rsa_key_bits _ _ _ _ Er Es Ep) as [H1' H2']. by destruct b.
Qed.
End Instance_.

(** C32: the algorithm providers keep the promises that the crypto provider, the key
    validator and the TLS code rely on.  With libraries whose encodings can be read
    back and whose signatures verify, every generated key pair has the sizes of its
    algorithm, its public key is the one derived from the private key, and what is
    signed with the one verifies with the other; HMAC answers with a digest for each
    supported hash, so that stretching a secret ends. *)
Theorem library_providers_lawful `{Evp, Secp256k1Lib, Ec, RsaLib, RsaDer} {HCtx : Type} `{!HmacLib HCtx}
    `{!EvpLaws, !Secp256k1Laws, !EcLaws, !RsaLibLaws} {hmac} `{!HmacLibLaws HCtx hmac} hash drawn :
  Forall (fun k => length k = 32%nat) drawn ->
  let P := library_providers (HCtx := HCtx) hash drawn in
  @ProviderLaws P _ /\
  forall t key m, 0 <= t <= 2 -> exists d, @hmac_digest P t key m = success d /\ (0 < length d)%nat.
Proof.
  intros Hd P. split.
  - split; cbn.
    + intros b pub priv E. by apply (rsa_lawful hash) in E as [? _].
    + intros b pub priv E. by apply (rsa_lawful hash) in E as [_ ?].
    + intros pub priv E. by apply ed25519_lawful in E as [? _].
    + intros pub priv E. by apply ed25519_lawful in E as [_ ?].
    + intros pub priv E. by apply (secp256k1_lawful hash) in E as [? _].
    + intros pub priv E. by apply (secp256k1_lawful hash) in E as [_ ?].
    + intros pub priv E. apply (ecdsa_lawful hash) in E as [[? Hs] _]. split; [done|]. intros m s E. split; [done|]. by apply Hs.
    + intros pub priv E. by apply (ecdsa_lawful hash) in E as [_ ?].
  - intros t key m Ht. cbn. rewrite (calculateDigest_exact t key m Ht). cbn. eexists. split; [done|].
    destruct (ctx_new_ok 0) as [c0 _]. destruct (init_ex_ok t key c0) as (c1 & _ & H1'). destruct (update_ok t key c1 [] m H1') as (c2 & _ & H2').
    destruct (final_ok t key c2 m H2') as [_ ->]. unfold md_size. repeat case_match; lia.
Qed.

(** ** Counter mode *)
Section Aes.
Import AesCtr.

(** OpenSSL's counter mode: the bytes of a stream that depends on key and vector are
    added to those of the data, from the position reached. *)
Class CipherLaws (Ctx : Type) `{Cipher Ctx} (keystream : bytes -> bytes -> nat -> Z) := {
  cipher_holds : Ctx -> bytes -> bytes -> nat -> Prop;
  cipher_new_ok : exists c, EVP_CIPHER_CTX_new = Some c;
  cipher_init_ok c key iv dir : length key = 16%nat \/ length key = 32%nat -> length iv = 16%nat ->
    exists c', EVP_CipherInit_ex c (length key) key iv dir = Some c' /\ cipher_holds c' key iv 0;
  cipher_update_ok c key iv n d : cipher_holds c key iv n ->
    exists c', EVP_CipherUpdate c d = (c', Some (imap (fun i b => Z.lxor b (keystream key iv (n + i)%nat)) d)) /\
               cipher_holds c' key iv (n + length d)
}.
Context {Ctx : Type} `{!Cipher Ctx} {keystream : bytes -> bytes -> nat -> Z} `{!CipherLaws Ctx keystream}.

Definition masked (key iv : bytes) (n : nat) (d : bytes) : bytes := imap (fun i b => Z.lxor b (keystream key iv (n + i)%nat)) d.
Lemma masked_app key iv n d1 d2 : masked key iv n (d1 ++ d2) = masked key iv n d1 ++ masked key iv (n + length d1) d2.
Proof. unfold masked. rewrite imap_app. f_equal. apply imap_ext. intros i b _. simpl. do 2 f_equal. lia. Qed.
Lemma masked_twice key iv n d : masked key iv n (masked key iv n d) = d.
Proof.
  unfold masked. apply list_eq. intros i. rewrite !list_lookup_imap.
  destruct (d !! i); [|done]. simpl. f_equal. rewrite Z.lxor_assoc, Z.lxor_nilpotent. apply Z.lxor_0_r.
Qed.

Definition aes_at (key iv : bytes) (n : nat) (s : AesCtrImpl (Ctx := Ctx)) : Prop :=
  initialization_error_ s = success tt /\ exists c, cipher_ctx s = Some c /\ cipher_holds c key iv n.
Lemma aes_new_at mode key iv : length key = 16%nat \/ length key = 32%nat -> length iv = 16%nat -> aes_at key iv 0 (AesCtrImpl_new mode key iv).
Proof.
  intros Hk Hi. unfold AesCtrImpl_new. destruct cipher_new_ok as [c ->].
  destruct (cipher_init_ok c key iv (match mode with ENCRYPT => true | DECRYPT => false end) Hk Hi) as (c' & -> & Hc). split; [done|]. by exists c'.
Qed.
Lemma crypt_all_at key iv chunks : forall n s, aes_at key iv n s ->
  exists s', crypt_all chunks s = Some (s', success (masked key iv n (concat chunks))) /\ aes_at key iv (n + length (concat chunks)) s'.
Proof.
  induction chunks as [|d chunks IH]; intros n s Hs; simpl.
  - exists s. split; [done|]. by rewrite Nat.add_0_r.
  - destruct Hs as (Ei & c & Ec & Hc). unfold crypt. rewrite Ei, Ec. simpl.
    destruct (cipher_update_ok c key iv n d Hc) as (c' & -> & Hc'). simpl.
    destruct (IH (n + length d)%nat (mkAes (mode_ s) (Some c') (success tt))) as (s' & -> & Hs').
    { split; [done|]. by exists c'. }
    simpl. exists s'. rewrite masked_app, length_app, Nat.add_assoc. done.
Qed.

(** What is encrypted in chunks is what is decrypted, whatever the chunks.  The
    outputs of an encrypting object, cut anew and given to a decrypting object with the
    same key and vector, are the data; a finalised object refuses both operations. *)
Theorem aes_ctr_roundtrip key iv chunks chunks' : 
  length key = 16%nat \/ length key = 32%nat -> length iv = 16%nat ->
  exists e out, crypt_all chunks (AesCtrImpl_new ENCRYPT key iv) = Some (e, success out) /\ length out = length (concat chunks) /\
    (concat chunks' = out -> exists d, crypt_all chunks' (AesCtrImpl_new DECRYPT key iv) = Some (d, success (concat chunks))) /\
    exists f r, finalize e = Some (f, r) /\ forall data, crypt data f = Some (f, failure STREAM_FINALIZED) /\ finalize f = Some (f, failure STREAM_FINALIZED).
Proof.
  intros Hk Hi. destruct (crypt_all_at key iv chunks 0 _ (aes_new_at ENCRYPT key iv Hk Hi)) as (e & E1 & He).
  exists e, (masked key iv 0 (concat chunks)). split; [done|]. split; [apply length_imap|]. split.
  - intros Ec. destruct (crypt_all_at key iv chunks' 0 _ (aes_new_at DECRYPT key iv Hk Hi)) as (d & E2 & _). exists d.
    by rewrite E2, Ec, masked_twice.
  - destruct He as (Ei & c & Ec & _). unfold finalize at 1. rewrite Ei, Ec. simpl. destruct (EVP_CipherFinal_ex c) as [c' r]. by eexists _, _.
Qed.
End Aes.

(** ** Concrete libraries *)
Module ToyLibraries.
Import ToyHash AesCtr.

(** Keys that are their own public part, and signatures that are sums. *)
Definition all32 (b : bytes) : option bytes := if (length b =? 32)%nat then Some b else None.
#[export] Instance toy_evp : Evp := {|
  EVP_PKEY := bool * bytes;
  EVP_PKEY_CTX_new_id := true;
  EVP_PKEY_keygen_init := true;
  EVP_PKEY_keygen := Some (true, replicate 32 1);
  EVP_PKEY_get_raw_private_key k := if k.1 then all32 k.2 else None;
  EVP_PKEY_get_raw_public_key k := all32 k.2;
  EVP_PKEY_new_raw_private_key b := Some (true, b);
  EVP_PKEY_new_raw_public_key b := Some (false, b);
  EVP_MD_CTX_new := true;
  EVP_DigestSignInit _ := true;
  EVP_DigestSign k m := Some (replicate 64 (sum m + sum k.2));
  EVP_DigestVerifyInit _ := true;
  EVP_DigestVerify k s m := if bool_decide (s = replicate 64 (sum m + sum k.2)) then 1 else 0
|}.
#[export] Instance toy_evp_laws : EvpLaws.
Proof.
  refine {| public_part k := (false, k.2) |}; cbn; unfold all32.
  - intros [[] b] c; cbn; [|done]. destruct (Nat.eqb_spec (length b) 32); [|done]. by intros [= <-].
  - intros [x b] c; cbn. destruct (Nat.eqb_spec (length b) 32); [|done]. by intros [= <-].
  - intros k m s [= <-]. split; [reflexivity|]. split; [done|]. by rewrite bool_decide_true.
Defined.

#[export] Instance toy_secp : Secp256k1Lib := {|
  secp256k1_pubkey := bytes;
  secp256k1_ecdsa_signature := Z;
  secp256k1_ec_seckey_verify k := negb (sum k =? 0);
  secp256k1_ec_pubkey_create k := all32 k;
  secp256k1_ec_pubkey_serialize p := option_map (cons 2) (all32 p);
  secp256k1_ec_pubkey_parse b := Some (tl b);
  secp256k1_ecdsa_sign h k := Some (sum h + sum k);
  secp256k1_ecdsa_verify s h p := s =? sum h + sum p;
  serialize_der_size _ := 1%nat;
  serialize_der s _ := Some [s];
  secp256k1_ecdsa_signature_parse_der b := head b;
  serialize_compact s := [s];
  parse_compact b := head b
|}.
#[export] Instance toy_secp_laws : Secp256k1Laws.
Proof.
  split; cbn; unfold all32.
  - intros p b. destruct (Nat.eqb_spec (length p) 32) as [E|]; [|done]. intros [= <-]. cbn. rewrite E. auto.
  - intros h k s p [= <-]. destruct (Nat.eqb_spec (length k) 32); [|done]. intros [= <-]. apply Z.eqb_refl.
  - intros s b [= <-]. cbn. split; [lia|done].
  - done.
Qed.

#[export] Instance toy_ec : Ec := {|
  EC_KEY := Z;
  EC_POINT := unit;
  EC_KEY_new_by_curve_name := Some 0;
  EC_KEY_generate_key _ := Some 7;
  EC_POINT_mul _ := Some tt;
  EC_KEY_set_public_key k _ := Some k;
  EC_KEY_check_key _ := true;
  i2d_ECPrivateKey k := k :: replicate 120 0;
  i2d_EC_PUBKEY k := k :: replicate 90 0;
  d2i_ECPrivateKey := head;
  d2i_EC_PUBKEY := head;
  ECDSA_do_sign d k := Some [sum d + k];
  ECDSA_verify d s k := if bool_decide (s = [sum d + k]) then 1 else 0
|}.
#[export] Instance toy_ec_laws : EcLaws.
Proof.
  refine {| ec_public k := k |}; cbn; try done.
  - intros k0 k _. split; [done|]. split; [done|]. by exists tt.
  - intros d k s [= <-]. by rewrite bool_decide_true.
Defined.

#[export] Instance toy_rsa : RsaLib := {|
  RSA_t := Z;
  BN_set_word := true;
  RSA_generate_key_ex n := Some n;
  i2d_RSAPrivateKey r := Some [r];
  i2d_RSA_PUBKEY r := Some [r];
  d2i_RSAPrivateKey := head;
  RSA_size _ := 1%nat;
  RSA_sign d r := Some [sum d + r];
  X509_PUBKEY := Z;
  d2i_X509_PUBKEY := head;
  X509_PUBKEY_get_RSA x := Some (Some x);
  RSA_verify d s r := if bool_decide (s = [sum d + r]) then 1 else 0
|}.
#[export] Instance toy_rsa_der : RsaDer := {| rsa_private_bits := head; rsa_public_bits := head |}.
#[export] Instance toy_rsa_laws : RsaLibLaws.
Proof.
  refine {| rsa_public r := r |}; cbn.
  - by intros r b [= <-].
  - intros r b [= <-]. by exists r.
  - intros d r s [= <-]. split; [done|]. by rewrite bool_decide_true.
  - by intros n r priv pub [= <-] [= <-] [= <-].
Defined.

Lemma library_providers_lawful_witness :
  let P := library_providers (HCtx := Z * bytes * bytes) (fun _ => replicate 32 5) [replicate 32 0; replicate 32 3] in
  @ProviderLaws P toy_rsa_der /\
  forall t key m, 0 <= t <= 2 -> exists d, @hmac_digest P t key m = success d /\ (0 < length d)%nat.
Proof.
  apply (library_providers_lawful (fun _ => replicate 32 5) [replicate 32 0; replicate 32 3]). by repeat constructor.
Defined.

(** The first key drawn is not valid and is drawn again. *)
Example secp256k1_draws_again :
  Secp256k1Provider.generate [replicate 32 0; replicate 32 3] = Some (success (2 :: replicate 32 3, replicate 32 3)).
Proof. reflexivity. Qed.

(** A keystream that counts. *)
#[export] Instance toy_cipher : Cipher (bytes * bytes * nat) := {|
  EVP_CIPHER_CTX_new := Some ([], [], 0%nat);
  EVP_CipherInit_ex _ _ key iv _ := Some (key, iv, 0%nat);
  EVP_CipherUpdate c d := ((c.1, (c.2 + length d)%nat), Some (imap (fun i b => Z.lxor b (Z.of_nat (c.2 + i))) d));
  EVP_CipherFinal_ex c := (c, Some [])
|}.
#[export] Instance toy_cipher_laws : CipherLaws (bytes * bytes * nat) (fun _ _ n => Z.of_nat n).
Proof.
  refine {| cipher_holds c key iv n := c = (key, iv, n) |}; cbn.
  - by eexists.
  - intros. by eexists.
  - intros c key iv n d ->. by eexists.
Defined.

Lemma aes_ctr_roundtrip_witness :
  exists e out, crypt_all [[1; 2]; [3]] (AesCtrImpl_new (Ctx := bytes * bytes * nat) ENCRYPT (replicate 16 1) (replicate 16 2)) = Some (e, success out) /\
    length out = 3%nat /\
    (concat [[1]; [3; 1]] = out -> exists d, crypt_all [[1]; [3; 1]] (AesCtrImpl_new (Ctx := bytes * bytes * nat) DECRYPT (replicate 16 1) (replicate 16 2)) = Some (d, success [1; 2; 3])) /\
    exists f r, finalize e = Some (f, r) /\ forall data, crypt data f = Some (f, failure STREAM_FINALIZED) /\ finalize f = Some (f, failure STREAM_FINALIZED).
Proof.
  apply (aes_ctr_roundtrip (replicate 16 1) (replicate 16 2) [[1; 2]; [3]] [[1]; [3; 1]]); [by left|done].
Defined.
End ToyLibraries.
