(* ===== verification/Ecdh.v ===== *)
(** * Ephemeral keys and shared secrets

    [generateEphemeralKeyPair] and [prepareSharedSecretGenerator] of
    [crypto/crypto_provider/crypto_provider_impl.cpp]: the exchange of public points
    and what both ends derive.  OpenSSL's curves and numbers are parameters. *)

From S2P Require Import Prelude Keys.
Import Provider.

Inductive CurveType := P256 | P384 | P521.
Inductive KeyGeneratorError := UNSUPPORTED_CURVE_TYPE | GENERATION_FAILED | DERIVATION_FAILED.

(** The curves of OpenSSL, by their numbers; a key that is generated depends on the
    random bytes [seed].  A null pointer is [None], a return value other than that of
    success [false] or [None]. *)
Class EcdhLib := {
  Point : Type;
  NID : CurveType -> Z;
  KEY_new : bool;
  GROUP_new : Z -> bool;
  KEY_set_group : Z -> bool;
  KEY_generate : Z -> bytes -> option (option Z * option Point);
  BN_bn2binpad : Z -> nat -> option bytes;
  BN_new : bool;
  BN_bin2bn : bytes -> option Z;
  POINT_point2buf : Z -> Point -> option bytes;
  o2i_ECPublicKey : Z -> bytes -> option Point;
  POINT_is_on_curve : Z -> Point -> bool;
  KEY_new_by_curve_name : Z -> bool;
  KEY_set_private_key : Z -> Z -> bool;
  GROUP_get_degree : Z -> Z;
  OPENSSL_malloc : Z -> bool;
  ECDH_compute_key : Z -> Z -> Point -> Z -> option bytes
}.

(** The encodings can be read back, points of generated keys are points of their
    curve, and the product of two keys does not depend on their order. *)
Class EcdhLaws `{EcdhLib} := {
  binpad_read n len b : BN_bn2binpad n len = Some b -> BN_bin2bn b = Some n;
  point_read nid p b : POINT_point2buf nid p = Some b -> o2i_ECPublicKey nid b = Some p;
  generated_on_curve nid seed k p : KEY_generate nid seed = Some (Some k, Some p) ->
    POINT_is_on_curve nid p = true /\ KEY_set_private_key nid k = true;
  dh_commutes nid s1 k1 p1 s2 k2 p2 n : KEY_generate nid s1 = Some (Some k1, Some p1) -> KEY_generate nid s2 = Some (Some k2, Some p2) ->
    ECDH_compute_key nid n p2 k1 = ECDH_compute_key nid n p1 k2
}.

Section Ecdh.
Context `{EcdhLib}.

(** The function that a key pair holds. *)
Definition shared_secret_generator (nid : Z) (private_bytes their_epubkey : bytes) : outcome KeyGeneratorError bytes :=
  if negb (GROUP_new nid) then failure DERIVATION_FAILED
  else if negb KEY_new then failure DERIVATION_FAILED
  else if negb (KEY_set_group nid) then failure DERIVATION_FAILED
  else match o2i_ECPublicKey nid their_epubkey with
  | None => failure DERIVATION_FAILED
  | Some their_pubkey_point =>
      if negb (POINT_is_on_curve nid their_pubkey_point) then failure DERIVATION_FAILED
      else if negb BN_new then failure DERIVATION_FAILED
      else match BN_bin2bn private_bytes with
      | None => failure DERIVATION_FAILED
      | Some private_bignum =>
          if negb (KEY_new_by_curve_name nid) then failure DERIVATION_FAILED
          else if negb (KEY_set_private_key nid private_bignum) then failure DERIVATION_FAILED
          else
            let secret_len := (GROUP_get_degree nid + 7) / 8 in
            if negb (OPENSSL_malloc secret_len) then failure DERIVATION_FAILED
            else match ECDH_compute_key nid secret_len their_pubkey_point private_bignum with
                 | None => failure DERIVATION_FAILED
                 | Some secret => success secret
                 end
      end
  end.

Definition private_key_length (curve : CurveType) : nat := match curve with P256 => 32 | P384 => 48 | P521 => 66 end.

(** The public key and the generator; where the generated key has no public point the
    code multiplies into a null point: [None]. *)
Definition generateEphemeralKeyPair (curve : CurveType) (seed : bytes) :
    option (outcome KeyGeneratorError (bytes * (bytes -> outcome KeyGeneratorError bytes))) :=
  let nid := NID curve in
  if negb KEY_new then Some (failure GENERATION_FAILED)
  else if negb (GROUP_new nid) then Some (failure GENERATION_FAILED)
  else if negb (KEY_set_group nid) then Some (failure GENERATION_FAILED)
  else match KEY_generate nid seed with
  | None => Some (failure GENERATION_FAILED)
  | Some (None, _) => Some (failure GENERATION_FAILED)
  | Some (Some private_key_bignum, public_key_point) =>
      match BN_bn2binpad private_key_bignum (private_key_length curve) with
      | None => Some (failure GENERATION_FAILED)
      | Some private_bytes =>
          public_key ← public_key_point;
          Some match POINT_point2buf nid public_key with
               | None => failure GENERATION_FAILED
               | Some pubkey_buffer => success (pubkey_buffer, shared_secret_generator nid private_bytes)
               end
      end
  end.

(** ** Proofs *)
Context `{!EcdhLaws}.

Lemma generate_inv curve seed pub gen : generateEphemeralKeyPair curve seed = Some (success (pub, gen)) ->
  exists k p b, KEY_generate (NID curve) seed = Some (Some k, Some p) /\ BN_bn2binpad k (private_key_length curve) = Some b /\
    POINT_point2buf (NID curve) p = Some pub /\ gen = shared_secret_generator (NID curve) b /\
    KEY_new = true /\ GROUP_new (NID curve) = true /\ KEY_set_group (NID curve) = true.
Proof.
  unfold generateEphemeralKeyPair. destruct KEY_new; [|done]. cbn. destruct (GROUP_new (NID curve)); [|done]. cbn.
  destruct (KEY_set_group (NID curve)); [|done]. cbn. destruct (KEY_generate (NID curve) seed) as [[[k|] p]|]; [|done..].
  destruct (BN_bn2binpad k (private_key_length curve)) as [b|] eqn:Eb; [|done]. destruct p as [p|]; [|done]. cbn.
  destruct (POINT_point2buf (NID curve) p) as [pub'|] eqn:Ep; [|done]. intros [= -> <-]. by exists k, p, b.
Qed.

(** Both ends agree.  When two hosts have generated ephemeral keys on a curve and
    exchange the public parts, the secret each of them computes from its own key and
    the other's public part is the same, or neither computes one; so are the keys
    stretched from it. *)
Theorem ephemeral_keys_agree `{Providers} curve s1 pub1 gen1 s2 pub2 gen2 :
  generateEphemeralKeyPair curve s1 = Some (success (pub1, gen1)) ->
  generateEphemeralKeyPair curve s2 = Some (success (pub2, gen2)) ->
  gen1 pub2 = gen2 pub1 /\
  forall secret1 secret2 cipher hash, gen1 pub2 = success secret1 -> gen2 pub1 = success secret2 ->
    stretchKey cipher hash secret1 = stretchKey cipher hash secret2.
Proof.
  intros E1 E2. assert (E : gen1 pub2 = gen2 pub1); [|split; [done|]; intros * G1 G2; by replace secret2 with secret1 by congruence].
  destruct (generate_inv _ _ _ _ E1) as (k1 & p1 & b1 & K1 & B1 & O1 & -> & F1 & F2 & F3).
  destruct (generate_inv _ _ _ _ E2) as (k2 & p2 & b2 & K2 & B2 & O2 & -> & _).
  destruct (generated_on_curve _ _ _ _ K1) as [C1 S1]. destruct (generated_on_curve _ _ _ _ K2) as [C2 S2].
  unfold shared_secret_generator. rewrite F1, F2, F3. cbn.
  rewrite (point_read _ _ _ O1), (point_read _ _ _ O2), C1, C2, (binpad_read _ _ _ B1), (binpad_read _ _ _ B2), S1, S2. cbn.
  by rewrite (dh_commutes _ _ _ _ _ _ _ _ K1 K2).
Qed.
End Ecdh.

(** ** A concrete group: numbers, with multiplication as the product of keys *)
Module ToyEcdh.
#[export] Instance toy_ecdh : EcdhLib := {|
  Point := Z;
  NID c := match c with P256 => 415 | P384 => 715 | P521 => 716 end;
  KEY_new := true;
  GROUP_new _ := true;
  KEY_set_group _ := true;
  KEY_generate _ seed := Some (Some (Z.of_nat (length seed)), Some (5 * Z.of_nat (length seed)));
  BN_bn2binpad n len := Some (replicate (len - 1) 0 ++ [n]);
  BN_new := true;
  BN_bin2bn b := last b;
  POINT_point2buf _ p := Some [4; p];
  o2i_ECPublicKey _ b := last b;
  POINT_is_on_curve _ _ := true;
  KEY_new_by_curve_name _ := true;
  KEY_set_private_key _ _ := true;
  GROUP_get_degree nid := if nid =? 415 then 256 else if nid =? 715 then 384 else 521;
  OPENSSL_malloc _ := true;
  ECDH_compute_key _ n p k := Some (replicate (Z.to_nat n) (p * k))
|}.
#[export] Instance toy_ecdh_laws : EcdhLaws.
Proof.
  split; cbn.
  - intros n len b [= <-]. by rewrite last_snoc.
  - by intros nid p b [= <-].
  - done.
  - intros nid s1 k1 p1 s2 k2 p2 n [= <- <-] [= <- <-]. do 2 f_equal. lia.
Qed.

Lemma ephemeral_keys_agree_witness :
  exists pub1 gen1 pub2 gen2,
    generateEphemeralKeyPair P256 [1] = Some (success (pub1, gen1)) /\ generateEphemeralKeyPair P256 [1; 1] = Some (success (pub2, gen2)) /\
    (gen1 pub2 = gen2 pub1 /\
     forall secret1 secret2 cipher hash, gen1 pub2 = success secret1 -> gen2 pub1 = success secret2 ->
       @stretchKey Toy.toy_providers cipher hash secret1 = @stretchKey Toy.toy_providers cipher hash secret2).
Proof.
  eexists _, _, _, _. split; [reflexivity|]. split; [reflexivity|].
  eapply (@ephemeral_keys_agree _ _ Toy.toy_providers P256 [1] _ _ [1; 1]); reflexivity.
Defined.
End ToyEcdh.
