(* ===== verification/SamplePeer.v ===== *)
(** * Sample peers

    [common/sample_peer.hpp]: a peer made from a number, with a key pair, an id, a
    port and the addresses to listen on and to connect to.  The C interface makes
    its hosts from sample peers. *)

From S2P Require Import Prelude Varint Multihash Base58 Multibase ByteUtil MultiaddrCodec MultiaddrPlain Multiaddress.
From S2P Require Import PeerAddress TcpUtil Keys.
Import Key Validator Marshaller.

(** The bytes of a [uint64_t] in memory, on a little endian machine. *)
Fixpoint le_bytes (n : nat) (x : Z) : bytes :=
  match n with O => [] | S n => x mod 256 :: le_bytes n (x / 256) end.

(** [seed64], copied into the private key: 32 bytes are four numbers. *)
Definition sample_seed (index : Z) : bytes :=
  concat (map (fun i => le_bytes 8 (u64 (Z.of_nat i + index))) (seq 0 4)).

(** The result is narrowed to [uint16_t]. *)
Definition samplePort (index : Z) : Z := (10000 + index) mod 2 ^ 16.

Record SamplePeer := mkSamplePeer {
  sample_index : Z;
  sample_port : Z;
  keypair : KeyPair;
  peer_id : Multihash;
  listen_at : Multiaddress;
  connect_at : Multiaddress;
  connect_info : PeerInfo
}.

Section Sample.
Context `{Ext, Hex, Providers, Protobuf} (sha256 : bytes -> bytes).

(** [None] is the exception of [value()] on an error, or [abort]. *)
Definition value_of {E A} (r : outcome E A) : option A := match r with success a => Some a | failure _ => None end.

Definition sampleKeypair (index : Z) (key_type : Type_) : option KeyPair :=
  let private_key := sample_seed index in
  public_key ← match key_type with
               | Ed25519 => value_of (ed25519_derive private_key)
               | Secp256k1 => value_of (secp256k1_derive private_key)
               | _ => None
               end;
  Some (mkKeyPair (mkKey key_type public_key) (mkKey key_type private_key)).

(** [std::format("/ip4/{}/udp/{}/quic-v1", ip, port)] *)
Definition quic_text (ip : bytes) (port : Z) : bytes :=
  str "/ip4/" ++ ip ++ str "/udp/" ++ to_string port ++ str "/quic-v1".

(** The constructor from a key pair. *)
Definition SamplePeer_of (index : Z) (ip : bytes) (port : Z) (keypair : KeyPair) : option SamplePeer :=
  peer_id ← identity_id sha256 keypair;
  listen ← create_value (quic_text (str "0.0.0.0") port);
  connect ← create_value (quic_text ip port ++ str "/p2p/" ++ toBase58 peer_id);
  Some (mkSamplePeer index port keypair peer_id listen connect (mkPeerInfo peer_id [connect])).
Definition SamplePeer_at (index : Z) (ip : bytes) (port : Z) (key_type : Type_) : option SamplePeer :=
  keypair ← sampleKeypair index key_type; SamplePeer_of index ip port keypair.
Definition SamplePeer_new (index : Z) (key_type : Type_) : option SamplePeer :=
  SamplePeer_at index (str "127.0.0.1") (samplePort index) key_type.

Definition makeEd25519 (index : Z) : option SamplePeer := SamplePeer_new index Ed25519.
Definition makeSecp256k1 (index : Z) : option SamplePeer := SamplePeer_new index Secp256k1.
End Sample.

(** ** What the libraries promise *)

(** Every 32 bytes are the seed of an Ed25519 key. *)
Class Ed25519Total `{Providers} :=
  ed25519_total k : length k = 32%nat -> exists p, ed25519_derive k = success p /\ bytes_ok p /\ length p = 32%nat.

(** Dotted decimals are printed as they are written. *)
Class Dotted `{Ext} := {
  any_dotted : v4_to_string [0; 0; 0; 0] = str "0.0.0.0";
  loopback_dotted : v4_to_string [127; 0; 0; 1] = str "127.0.0.1"
}.

(** ** Proofs *)

Lemma length_le_bytes n x : length (le_bytes n x) = n.
Proof. revert x. induction n as [|n IH]; intros x; cbn; [done|by rewrite IH]. Qed.

Lemma length_sample_seed index : length (sample_seed index) = 32%nat.
Proof. reflexivity. Qed.

Lemma le_bytes_inj n x y : x mod 256 ^ Z.of_nat n <> y mod 256 ^ Z.of_nat n -> le_bytes n x <> le_bytes n y.
Proof.
  revert x y. induction n as [|n IH]; intros x y Hne Heq; [apply Hne; by rewrite !Z.mod_1_r|].
  cbn [le_bytes] in Heq. injection Heq as Hm Hd. apply (IH (x / 256) (y / 256)); [|done]. intros Hd'. apply Hne.
  rewrite Nat2Z.inj_succ, Z.pow_succ_r by lia. rewrite !Z.rem_mul_r by lia. congruence.
Qed.

(** Different numbers have different private keys. *)
Lemma sample_seed_inj i j : is_u64 i -> is_u64 j -> sample_seed i = sample_seed j -> i = j.
Proof.
  intros Hi Hj Heq. destruct (decide (i = j)) as [|Hne]; [done|]. exfalso.
  assert (le_bytes 8 (u64 (0 + i)) = le_bytes 8 (u64 (0 + j))) as H8 by exact (f_equal (take 8) Heq).
  apply le_bytes_inj in H8; [done|]. rewrite !Z.add_0_l, !u64_id by done. change (256 ^ Z.of_nat 8) with (2 ^ 64).
  by rewrite !Z.mod_small.
Qed.

Section Laws.
Context `{ExtLaws, Hex, !Dotted, ProtobufLaws, Providers, !Ed25519Total, !RsaDer} (sha256 : bytes -> bytes).

(** No protocol has a name that starts with a digit. *)
Lemma one_plain s : get_by_name (49 :: s) = None /\ is_prefix (str "ipfs") (49 :: s) = false.
Proof.
  split; [|done]. destruct (get_by_name (49 :: s)) as [p|] eqn:Eg; [|done]. exfalso. unfold get_by_name in Eg.
  rewrite bool_decide_false in Eg by done. apply List.find_some in Eg as [Hin Hn]. apply bool_decide_eq_true in Hn.
  assert (forallb (fun p => negb (bool_decide (head (name p) = Some 49))) protocols_ = true) as Hall by done.
  rewrite forallb_forall in Hall. apply Hall in Hin. by rewrite Hn in Hin.
Qed.

(** The text of an id that contains its key starts with "1". *)
Lemma identity_plain pb id : multihash_of identity pb id -> plain (p2p, toBuffer id).
Proof.
  intros Hm. destruct (multihash_of_spec _ _ _ Hm) as (p & Hp & -> & _). vm_compute in Hp. injection Hp as <-.
  intros _. cbn [fst snd value_text code p2p toBuffer mbytes app]. unfold encodeBase58. cbn [count_while Z.eqb].
  destruct (encode_bytes _ _ _). apply one_plain.
Qed.

Lemma quic_text_components b text port :
  bytes_ok b -> length b = 4%nat -> v4_to_string b = text -> 0 <= port < 2 ^ 16 ->
  quic_text text port = addr_text (quic_components (mkEndpoint (V4 b) port)).
Proof.
  intros Hb Hl <- Hp. pose proof (endpoint_text false (mkEndpoint (V4 b) port) (conj Hp (conj Hb Hl))) as Ht.
  unfold quic_components. change [?a; ?b; ?c] with ([a; b] ++ [c]). unfold addr_text in *.
  rewrite map_app, concat_app, <- Ht. unfold toMultiaddr, quic_text. cbn [ep_ip ep_port ip_to_string].
  change (str "/ip4/") with (slash :: str "ip4" ++ [slash]). change (str "/udp/") with (slash :: str "udp" ++ [slash]).
  change (concat (map component_text _)) with (str "/quic-v1"). cbn [app]. rewrite <- !app_assoc. cbn [app].
  by rewrite <- !app_assoc.
Qed.

Lemma quic_made e : endpoint_ok e -> Some (success (address_of (quic_components e))) = makeQuicAddr e.
Proof.
  intros He. unfold makeQuicAddr. rewrite endpoint_text by done. symmetry.
  replace (addr_text _ ++ str "/quic-v1") with (addr_text (quic_components e)); [apply Multiaddress.create_text; [done|by apply quic_good]|].
  unfold addr_text. change (str "/quic-v1") with (concat (map component_text [flag_component QUIC_V1 (str "quic-v1")])).
  by rewrite <- concat_app, <- map_app.
Qed.

Lemma create_quic e b text cs :
  ep_ip e = V4 b -> endpoint_ok e -> v4_to_string b = text -> Forall good cs ->
  create_value (quic_text text (ep_port e) ++ addr_text cs) = Some (address_of (quic_components e ++ cs)).
Proof.
  intros Hip He Ht Hcs. destruct e as [i port]. cbn [ep_ip ep_port] in *. subst i. destruct He as [Hp [Hb Hl]].
  rewrite (quic_text_components b) by done. unfold create_value, addr_text. rewrite <- concat_app, <- map_app.
  change (concat (map component_text ?l)) with (addr_text l).
  rewrite Multiaddress.create_text; [done|done|apply Forall_app; split; [by apply quic_good|done]].
Qed.

Lemma samplePort_ok index : 0 <= samplePort index < 2 ^ 16.
Proof. apply Z.mod_pos_bound. lia. Qed.

Definition at_any (index : Z) : endpoint := mkEndpoint (V4 [0; 0; 0; 0]) (samplePort index).
Definition at_loopback (index : Z) : endpoint := mkEndpoint (V4 [127; 0; 0; 1]) (samplePort index).
Lemma sample_endpoints index : endpoint_ok (at_any index) /\ endpoint_ok (at_loopback index).
Proof.
  pose proof (samplePort_ok index).
  split; (split; [done|split; [repeat (constructor; [vm_compute; done|]); constructor|done]]).
Qed.

Lemma quic_read e cs : endpoint_ok e -> Forall good cs -> Forall plain cs ->
  asQuic (address_of (quic_components e ++ cs)) = Some (success (mkTcpOrUdp (IsIp (ep_ip e)) (ep_port e) true)).
Proof.
  intros He Hg Hp. destruct (quic_address_roundtrip e cs He Hg Hp) as (ma & Hma & Hq & _).
  rewrite <- (quic_made e He) in Hma. simplify_eq. by rewrite encapsulate_components in Hq.
Qed.

(** The peer that is made for the endpoint [e], with an id [id] of the key [pub]. *)
Definition sample_at (index : Z) (e : endpoint) (pub : bytes) (id : Multihash) : SamplePeer :=
  let connect := address_of (quic_components e ++ [(p2p, toBuffer id)]) in
  mkSamplePeer index (ep_port e) (mkKeyPair (mkKey Ed25519 pub) (mkKey Ed25519 (sample_seed index)))
    id (address_of (quic_components (mkEndpoint (V4 [0; 0; 0; 0]) (ep_port e)) ++ [])) connect (mkPeerInfo id [connect]).

Lemma sample_made_at index e b :
  ep_ip e = V4 b -> endpoint_ok e ->
  exists pub id pb, SamplePeer_at sha256 index (v4_to_string b) (ep_port e) Ed25519 = Some (sample_at index e pub id)
    /\ multihash_of identity pb id /\ fromHash id = success id
    /\ peer_publicKey id = Some (mkKey Ed25519 pub).
Proof.
  intros Hip He. destruct (ed25519_total (sample_seed index) (length_sample_seed index)) as (pub & Hpub & Hok & Hlen).
  set (kp := mkKeyPair (mkKey Ed25519 pub) (mkKey Ed25519 (sample_seed index))).
  destruct (identity_of_key sha256 kp) as (id & Hid & Htext & Hkey & pb & Hm);
    [done|by left|cbn; unfold validateEd25519_public; by rewrite decide_True|].
  pose proof (base58_from_hash _ _ _ Hm) as Hfh. rewrite Htext in Hfh.
  assert (endpoint_ok (mkEndpoint (V4 [0; 0; 0; 0]) (ep_port e))) as Hany
    by (split; [apply He|split; [repeat (constructor; [vm_compute; done|]); constructor|done]]).
  assert (Forall good [(p2p, toBuffer id)]) as Hpg by (constructor; [by eapply p2p_component|constructor]).
  exists pub, id, pb. split_and!; [|done|destruct (fromHash id); congruence|done].
  unfold SamplePeer_at, sampleKeypair. rewrite Hpub. cbn [value_of mbind option_bind].
  fold kp. unfold SamplePeer_of. rewrite Hid. cbn [mbind option_bind].
  rewrite <- (app_nil_r (quic_text (str "0.0.0.0") _)). change (@nil Z) with (addr_text []) at 1.
  rewrite (create_quic (mkEndpoint (V4 [0; 0; 0; 0]) (ep_port e)) [0; 0; 0; 0]) by (done || apply any_dotted || constructor). cbn [mbind option_bind].
  replace (str "/p2p/" ++ toBase58 id) with (addr_text [(p2p, toBuffer id)]);
    [|cbn [addr_text map concat]; unfold component_text, component_words; cbn; by rewrite !app_nil_r].
  by rewrite (create_quic e b).
Qed.

(** The one of the constructors without an address. *)
Definition sample_of (index : Z) : bytes -> Multihash -> SamplePeer := sample_at index (at_loopback index).
Lemma sample_made index :
  exists pub id pb, makeEd25519 sha256 index = Some (sample_of index pub id)
    /\ multihash_of identity pb id /\ fromHash id = success id
    /\ peer_publicKey id = Some (mkKey Ed25519 pub).
Proof.
  unfold makeEd25519, SamplePeer_new. rewrite <- loopback_dotted.
  apply (sample_made_at index (at_loopback index)); [done|apply sample_endpoints].
Qed.

(** A sample peer can be reached where it says.  Every number gives an Ed25519 peer,
    whose id contains its public key; the address it listens on is the QUIC address of
    any interface at its port, the address to connect to is that of the loopback
    interface at the same port with the id, and that text is read back as the id and
    the QUIC address without it. *)
Theorem sample_peer_exact index :
  exists p base, makeEd25519 sha256 index = Some p
    /\ privateKey (keypair p) = mkKey Ed25519 (sample_seed index)
    /\ peer_publicKey (peer_id p) = Some (publicKey (keypair p))
    /\ sample_port p = samplePort index
    /\ asQuic (listen_at p) = Some (success (mkTcpOrUdp (IsIp (V4 [0; 0; 0; 0])) (samplePort index) true))
    /\ asQuic (connect_at p) = Some (success (mkTcpOrUdp (IsIp (V4 [127; 0; 0; 1])) (samplePort index) true))
    /\ makeQuicAddr (mkEndpoint (V4 [127; 0; 0; 1]) (samplePort index)) = Some (success base)
    /\ create_text (stringified_address_ (connect_at p)) = Some (success (mkPeerAddress (peer_id p) base)).
Proof.
  destruct (sample_made index) as (pub & id & pb & Hmake & Hm & Hfrom & Hkey).
  destruct (sample_endpoints index) as [Hany Hhere], (quic_good _ (proj2 (sample_endpoints index))) as [Hg Hp].
  exists (sample_of index pub id), (address_of (quic_components (at_loopback index))). split_and!; try done.
  - by apply quic_read.
  - apply quic_read; [done|by constructor; [eapply p2p_component|]|by constructor; [eapply identity_plain|]].
  - symmetry. by apply quic_made.
  - apply (peer_text_parsed _ _ identity pb); try done. repeat constructor; discriminate.
Qed.
End Laws.

(** ** A concrete peer *)
Module ToySample.
Import (hints) Plain Multibase.Multibase.
Import (hints) Keys.Toy.

#[export] Instance toy_total : Ed25519Total.
Proof. intros k _. exists (replicate 32 1). split; [done|]. split; [by apply Forall_replicate|done]. Qed.
#[export] Instance plain_dotted : Dotted.
Proof. split; reflexivity. Qed.

Lemma sample_peer_exact_witness :
  exists p base, makeEd25519 (fun _ => replicate 32 7) 60000 = Some p
    /\ privateKey (keypair p) = mkKey Ed25519 (sample_seed 60000)
    /\ peer_publicKey (peer_id p) = Some (publicKey (keypair p))
    /\ sample_port p = 4464
    /\ asQuic (listen_at p) = Some (success (mkTcpOrUdp (IsIp (V4 [0; 0; 0; 0])) 4464 true))
    /\ asQuic (connect_at p) = Some (success (mkTcpOrUdp (IsIp (V4 [127; 0; 0; 1])) 4464 true))
    /\ makeQuicAddr (mkEndpoint (V4 [127; 0; 0; 1]) 4464) = Some (success base)
    /\ create_text (stringified_address_ (connect_at p)) = Some (success (mkPeerAddress (peer_id p) base)).
Proof. apply (sample_peer_exact (fun _ => replicate 32 7) 60000). Defined.
End ToySample.
