(* ===== verification/Interop.v ===== *)
(** * The interoperability test

    [test-plans/common.cpp], [test-plans/common.hpp] and
    [test-plans/transport_interop/test_plans_ping.cpp]: the program that is run twice, as
    a listener, which publishes its address in a Redis server, and as a dialer, which
    takes the address from there, connects and pings.

    The Redis server, the client library hiredis and the network interfaces are
    parameters.  [Fatal] is [SL_FATAL], which the code relies on not to return;
    [Undefined] is the use of an empty [std::optional]; [Throws] is an exception that
    leaves [main]. *)

From S2P Require Import Prelude Varint Multihash Base58 Multibase ByteUtil MultiaddrCodec MultiaddrPlain Multiaddress.
From S2P Require Import PeerAddress TcpUtil Keys SamplePeer.
Import Key Validator Marshaller.

(** ** Helpers *)

Inductive int_error := invalid_argument | result_out_of_range.
(** [parseInt<uint16_t>]: the whole text has to be the number. *)
Definition parseInt_u16 (s : bytes) : outcome int_error Z :=
  let p := digit_prefix s in
  if decide (p = []) then failure invalid_argument
  else if digits_value p <=? 2 ^ 16 - 1 then
    if decide (length p <> length s) then failure invalid_argument else success (digits_value p)
  else failure result_out_of_range.

Definition parseBool (s : bytes) : option bool :=
  if decide (s = str "true") then Some true
  else if decide (s = str "false") then Some false
  else None.

(** Seconds and microseconds. *)
Definition asTimeval (us : Z) : Z * Z := let s := Z.quot us 1000000 in (s, us - s * 1000000).

(** Times are in nanoseconds, the timeout in seconds. *)
Record TestTimeout := mkTestTimeout { start_ : Z; timeout_ : Z }.
Definition remaining (now : Z) (t : TestTimeout) : Z :=
  let deadline := start_ t + timeout_ t * 1000000000 in
  if deadline <? now then 0 else deadline - now.
Definition remainingUs (now : Z) (t : TestTimeout) : Z := Z.quot (remaining now t) 1000.
Definition remainingMs (now : Z) (t : TestTimeout) : Z := Z.quot (remaining now t) 1000000.

(** The list of [getifaddrs]: flags, and an address if there is one. *)
Inductive ifa_address := Inet (b : bytes) | OtherFamily.
Record ifaddrs := mkIfaddrs { ifa_loopback : bool; ifa_up : bool; ifa_addr : option ifa_address }.
Section Interfaces.
Context `{Ext}.
Fixpoint first_ip (l : list ifaddrs) : option bytes :=
  match l with
  | [] => None
  | i :: l =>
      match ifa_addr i with
      | None => first_ip l
      | Some a =>
          if ifa_loopback i || negb (ifa_up i) then first_ip l
          else match a with Inet b => Some (v4_to_string b) | OtherFamily => first_ip l end
      end
  end.
(** [None] when [getifaddrs] fails. *)
Definition get_first_network_ip (l : option (list ifaddrs)) : option bytes := l ≫= first_ip.
End Interfaces.

(** ** Redis *)

Inductive redisReply := Reply (is_error : bool) (reply_str : bytes) (elements : list redisReply).
Inductive Redis_Error :=
| CONNECT_ERROR | PARSE_PORT_ERROR | NO_REPLY | REPLY_ERROR | PING_REPLY_ERROR | BLPOP_REPLY_ERROR | PortError (e : int_error).

(** Connecting by host, port and time limit: a null context, one with an error, or a
    connection.  A command is sent to the server [S]; [None] is no reply. *)
Class Hiredis (S : Type) := {
  redisConnectWithTimeout : bytes -> Z -> Z * Z -> option (option unit);
  redisCommand : list bytes -> S -> S * option redisReply
}.

Definition replyStr (r : redisReply) : bytes := let '(Reply _ s _) := r in s.
Definition replyArray (r : redisReply) (index : nat) : option redisReply := let '(Reply _ _ l) := r in l !! index.
Definition tryReply (reply : option redisReply) : outcome Redis_Error redisReply :=
  match reply with
  | None => failure NO_REPLY
  | Some (Reply true _ _) => failure REPLY_ERROR
  | Some r => success r
  end.

(** The text before the first colon and the port after it, or the default port. *)
Definition colon : Z := 58.
Definition parseAddress (s : bytes) : outcome Redis_Error (bytes * Z) :=
  match find s [colon] 0 with
  | None => success (s, 6379)
  | Some colon_pos =>
      match parseInt_u16 (drop (colon_pos + 1) s) with
      | failure e => failure (PortError e)
      | success port => success (take colon_pos s, port)
      end
  end.

Section Redis.
Context {S : Type} `{!Hiredis S}.

Definition redis_connect (address : bytes) (timeout_us : Z) : outcome Redis_Error unit :=
  match parseAddress address with
  | failure e => failure e
  | success (host, port) =>
      match redisConnectWithTimeout host port (asTimeval timeout_us) with
      | None | Some None => failure CONNECT_ERROR
      | Some (Some _) => success tt
      end
  end.

Definition redis_ping (s : S) : S * outcome Redis_Error unit :=
  let '(s, reply) := redisCommand [str "PING"] s in
  (s, match tryReply reply with
      | failure e => failure e
      | success r => if decide (replyStr r = str "PONG") then success tt else failure PING_REPLY_ERROR
      end).

(** The time limit is given in whole seconds, as a positive number or zero. *)
Definition blpop_seconds (timeout_ns : Z) : Z := Z.quot timeout_ns 1000000000.
Definition blpop (key : bytes) (timeout_ns : Z) (s : S) : S * outcome Redis_Error bytes :=
  let '(s, reply) := redisCommand [str "BLPOP"; key; to_string (blpop_seconds timeout_ns)] s in
  (s, match tryReply reply with
      | failure e => failure e
      | success r =>
          match replyArray r 1 with
          | None => failure BLPOP_REPLY_ERROR
          | Some v => success (replyStr v)
          end
      end).

Definition rpush (key value : bytes) (s : S) : S * outcome Redis_Error unit :=
  let '(s, reply) := redisCommand [str "RPUSH"; key; value] s in
  (s, match tryReply reply with failure e => failure e | success _ => success tt end).

(** *** Waiting for the server *)

Inductive exec (A : Type) := Done (a : A) | Fatal | Undefined | Throws.
Arguments Done {A}. Arguments Fatal {A}. Arguments Undefined {A}. Arguments Throws {A}.

(** The loop of [testRedisConnect]; [clock i] is the time after the [i]-th failure, and
    the loop sleeps for 100 ms between two of them.  [None] is running out of fuel. *)
Fixpoint ping_loop (fuel : nat) (clock : nat -> Z) (t : TestTimeout) (i : nat) (s : S) : option (S * exec unit) :=
  match fuel with
  | O => None
  | Datatypes.S fuel =>
      let '(s, r) := redis_ping s in
      match r with
      | success _ => Some (s, Done tt)
      | failure _ =>
          if remaining (clock i) t =? 0 then Some (s, Fatal) else ping_loop fuel clock t (Datatypes.S i) s
      end
  end.
(** As many rounds as there are tenths of a second. *)
Definition rounds (t : TestTimeout) : nat := Datatypes.S (Z.to_nat (timeout_ t * 10)).
Definition testRedisConnect (address : bytes) (now : Z) (clock : nat -> Z) (t : TestTimeout) (s : S) : option (S * exec unit) :=
  match redis_connect address (remainingUs now t) with
  | failure _ => Some (s, Fatal)
  | success _ => ping_loop (rounds t) clock t 0 s
  end.
End Redis.
Arguments Done {A}. Arguments Fatal {A}. Arguments Undefined {A}. Arguments Throws {A}.

(** ** [main] *)

(** The environment variables. *)
Record environ := mkEnviron {
  TRANSPORT : option bytes;
  IS_DIALER : option bytes;
  LISTENER_IP : option bytes;
  REDIS_ADDR : option bytes;
  TEST_KEY : option bytes
}.

Section Main.
Context {S : Type} `{!Hiredis S} `{Ext, Hex, Providers, Protobuf} (sha256 : bytes -> bytes).

Definition isDialer (env : environ) : bool := default false (IS_DIALER env ≫= parseBool).
Definition listener_ip (env : environ) : bytes := default (str "0.0.0.0") (LISTENER_IP env).
(** The address of the listener, found by hand when none was given. *)
Definition chosen_ip (env : environ) (l : option (list ifaddrs)) : bytes :=
  if negb (isDialer env) && bool_decide (listener_ip env = str "0.0.0.0")
  then default (listener_ip env) (get_first_network_ip l)
  else listener_ip env.
Definition redisKey (testKey : bytes) : bytes := testKey ++ str "_listener_multiaddr".

(** Up to the choice between the two roles: the key and the own peer.  [now] and [clock]
    are the readings of the clock, [random_seed] that of the random device. *)
Definition prepare (env : environ) (l : option (list ifaddrs)) (now : Z) (clock : nat -> Z) (random_seed : Z) (t : TestTimeout)
    (s : S) : option (S * exec (bytes * SamplePeer)) :=
  let ip := chosen_ip env l in
  match TEST_KEY env with
  | None => Some (s, Undefined)
  | Some testKey =>
      '(s, r) ← testRedisConnect (default (str "redis") (REDIS_ADDR env)) now clock t s;
      Some (s, match r with
               | Fatal => Fatal | Undefined => Undefined | Throws => Throws
               | Done _ =>
                   match SamplePeer_at sha256 random_seed ip (samplePort random_seed) Ed25519 with
                   | None => Throws
                   | Some sample_peer =>
                       match TRANSPORT env with
                       | None => Undefined
                       | Some transport =>
                           if decide (transport = str "quic-v1") then Done (redisKey testKey, sample_peer) else Fatal
                       end
                   end
               end)
  end.

(** The listener: [listens] is the result of [host->listen]. *)
Definition listener (key : bytes) (sample_peer : SamplePeer) (listens : bool) (s : S) : S * exec unit :=
  if negb listens then (s, Fatal)
  else
    let '(s, r) := rpush key (stringified_address_ (connect_at sample_peer)) s in
    (s, match r with failure _ => Fatal | success _ => Done tt end).

(** The dialer, up to the peer it connects to.  [create] of a text may fail an
    assertion. *)
Definition dialer (key : bytes) (remaining_ns : Z) (s : S) : S * exec PeerInfo :=
  let '(s, r) := blpop key remaining_ns s in
  (s, match r with
      | failure _ => Fatal
      | success address_str =>
          match create address_str with
          | None => Throws
          | Some (failure _) => Fatal
          | Some (success address) =>
              match getPeerId address with
              | None => Fatal
              | Some peer_id_str =>
                  match fromBase58 peer_id_str with
                  | None => Throws
                  | Some (failure _) => Fatal
                  | Some (success peer_id) => Done (mkPeerInfo peer_id [address])
                  end
              end
          end
      end).

(** The coroutine of the dialer, with what [connect] and [ping] give, if they end before
    the loop does, and the readings of the clock: the two durations that are printed. *)
Definition dialer_coroutine {E A} (connected : option (outcome E A)) (pinged : option (outcome E Z)) (handShakeStart handShakeEnd : Z) :
    exec (option (Z * Z)) :=
  match connected with
  | None => Done None
  | Some (failure _) => Fatal
  | Some (success _) =>
      match pinged with
      | None => Done None
      | Some (failure _) => Fatal
      | Some (success ping_rtt) => Done (Some (handShakeEnd - handShakeStart, ping_rtt))
      end
  end.

(** [main]: what the network gives are [listens], the result of [host->listen], [connects],
    that of [host->connect] for a peer, and [pinged]. *)
Definition interop_main {E A} (env : environ) (l : option (list ifaddrs)) (now : Z) (clock : nat -> Z) (random_seed : Z)
    (t : TestTimeout) (remaining_ns : Z) (listens : bool) (connects : PeerInfo -> option (outcome E A))
    (pinged : option (outcome E Z)) (handShakeStart handShakeEnd : Z) (s : S) : option (S * exec (option (Z * Z))) :=
  '(s, r) ← prepare env l now clock random_seed t s;
  match r with
  | Fatal => Some (s, Fatal) | Undefined => Some (s, Undefined) | Throws => Some (s, Throws)
  | Done (key, sample_peer) =>
      if isDialer env then
        let '(s, r) := dialer key remaining_ns s in
        Some (s, match r with
                 | Fatal => Fatal | Undefined => Undefined | Throws => Throws
                 | Done connect_info => dialer_coroutine (connects connect_info) pinged handShakeStart handShakeEnd
                 end)
      else
        let '(s, r) := listener key sample_peer listens s in
        Some (s, match r with
                 | Fatal => Fatal | Undefined => Undefined | Throws => Throws
                 | Done _ => Done None
                 end)
  end.
End Main.

(** ** Proofs *)

(** What the documentation of Redis promises of its lists, as the server has them: the list of
    a key, empty for a key without a value; [None] is a key with a value of another type, of
    which nothing is promised but an error. *)
Class RedisLaws (S : Type) `{Hiredis S} := {
  queue : S -> bytes -> option (list bytes);
  rpush_appends k v l s : queue s k = Some l ->
    exists s' r, redisCommand [str "RPUSH"; k; v] s = (s', Some (Reply false [] r)) /\ queue s' k = Some (l ++ [v]);
  blpop_takes k v l t s : queue s k = Some (v :: l) ->
    exists s', redisCommand [str "BLPOP"; k; t] s = (s', Some (Reply false [] [Reply false k []; Reply false v []])) /\ queue s' k = Some l;
  ping_answers s : exists s' r, redisCommand [str "PING"] s = (s', Some (Reply false (str "PONG") r)) /\ forall k, queue s' k = queue s k
}.

Lemma timeval_exact us : 0 <= us -> (asTimeval us).1 * 1000000 + (asTimeval us).2 = us /\ 0 <= (asTimeval us).2 < 1000000.
Proof.
  intros Hus. unfold asTimeval. cbn [fst snd]. rewrite Z.quot_div_nonneg by lia.
  pose proof (Z.div_mod us 1000000). pose proof (Z.mod_pos_bound us 1000000). lia.
Qed.

Lemma remaining_bounds now t : start_ t <= now -> 0 <= timeout_ t ->
  0 <= remaining now t <= timeout_ t * 1000000000 /\ (remaining now t = 0 <-> start_ t + timeout_ t * 1000000000 <= now).
Proof. intros Hn Ht. unfold remaining. destruct (Z.ltb_spec (start_ t + timeout_ t * 1000000000) now); lia. Qed.

(** In the last second the time limit of BLPOP is zero, which for Redis is no limit. *)
Lemma blpop_without_limit key ns {S} `{!Hiredis S} (s : S) :
  0 <= ns < 1000000000 -> fst (blpop key ns s) = fst (redisCommand [str "BLPOP"; key; str "0"] s).
Proof.
  intros Hns. unfold blpop, blpop_seconds. rewrite Z.quot_small by done. change (to_string 0) with (str "0"). by destruct (redisCommand _ s).
Qed.

Lemma digit_prefix_length s : (length (digit_prefix s) <= length s)%nat.
Proof. induction s as [|c s IH]; cbn; [lia|]. destruct (isdigit c); cbn; lia. Qed.

Lemma parseInt_to_string n : 0 <= n < 2 ^ 16 -> parseInt_u16 (to_string n) = success n.
Proof.
  intros Hn. destruct (to_string_spec n ltac:(lia)) as (Hne & Hd & Hv). unfold parseInt_u16. rewrite digit_prefix_all by done.
  rewrite decide_False by done. rewrite Hv. destruct (Z.leb_spec n (2 ^ 16 - 1)); [|lia]. by rewrite decide_False by lia.
Qed.

Lemma find_at_absent c s : forall i, c ∉ s -> find_at [c] s i = None.
Proof.
  induction s as [|x s IH]; intros i Hn; [done|]. apply not_elem_of_cons in Hn as [Hx Hs]. cbn [find_at is_prefix].
  destruct (Z.eqb_spec c x); [done|]. by apply IH.
Qed.
Lemma find_at_first c a b : forall i, c ∉ a -> find_at [c] (a ++ c :: b) i = Some (i + length a)%nat.
Proof.
  induction a as [|x a IH]; intros i Hn; cbn [app find_at is_prefix].
  - rewrite Z.eqb_refl. cbn. by rewrite Nat.add_0_r.
  - apply not_elem_of_cons in Hn as [Hx Ha]. destruct (Z.eqb_spec c x); [done|]. cbn [andb]. rewrite IH by done. cbn. f_equal. lia.
Qed.

(** The address of a server, with and without a port. *)
Lemma parseAddress_exact host port :
  colon ∉ host -> 0 <= port < 2 ^ 16 ->
  parseAddress host = success (host, 6379) /\ parseAddress (host ++ colon :: to_string port) = success (host, port).
Proof.
  intros Hh Hp. unfold parseAddress, find. rewrite !decide_True by lia. rewrite !drop_0, find_at_absent, find_at_first by done. cbn [Nat.add].
  split; [done|]. replace (host ++ colon :: to_string port) with ((host ++ [colon]) ++ to_string port) by by rewrite <- app_assoc.
  replace (length host + 1)%nat with (length (host ++ [colon])) by (rewrite length_app; done). rewrite drop_app_length, parseInt_to_string by done.
  rewrite <- app_assoc, take_app_length. done.
Qed.

(** Waiting for the server ends: with a reply, or when the time is up. *)
Lemma ping_loop_ends {S} `{!Hiredis S} clock t fuel : forall i s,
  (forall n, start_ t + Z.of_nat n * 100000000 <= clock n) -> 0 <= timeout_ t -> timeout_ t * 10 < Z.of_nat (i + fuel) -> (0 < fuel)%nat ->
  exists s' r, ping_loop fuel clock t i s = Some (s', r) /\ (r = Done tt \/ r = Fatal).
Proof.
  intros i s Hc Ht. revert i s. induction fuel as [|fuel IH]; intros i s Hf Hpos; [lia|].
  cbn [ping_loop]. destruct (redis_ping s) as [s1 [u|e]]; [eauto|]. destruct (Z.eqb_spec (remaining (clock i) t) 0) as [Hz|Hz]; [eauto|].
  specialize (Hc i). rewrite (proj2 (remaining_bounds (clock i) t ltac:(lia) Ht)) in Hz. apply IH; lia.
Qed.

(** The detected address is an IPv4 address of an interface that is up and not the loopback. *)
Lemma first_ip_sound `{Ext} l t : first_ip l = Some t ->
  exists i b, i ∈ l /\ ifa_up i = true /\ ifa_loopback i = false /\ ifa_addr i = Some (Inet b) /\ t = v4_to_string b.
Proof.
  induction l as [|i l IH]; cbn; [done|].
  assert (first_ip l = Some t -> exists i' b, i' ∈ i :: l /\ ifa_up i' = true /\ ifa_loopback i' = false /\ ifa_addr i' = Some (Inet b) /\ t = v4_to_string b) as Hl.
  { intros (i' & b & ? & ?)%IH. exists i', b. split; [by right|done]. }
  destruct (ifa_addr i) as [a|] eqn:Ha; [|done]. destruct (ifa_loopback i) eqn:El; cbn; [done|]. destruct (ifa_up i) eqn:Eu; cbn; [|done].
  destruct a as [b|]; [|done]. intros [= <-]. exists i, b. split; [by left|done].
Qed.

Section Laws.
Context {S : Type} `{!Hiredis S}.

(** The wait for Redis ends.  If the clock advances by the 100 ms that the loop sleeps, the
    loop of [testRedisConnect] ends after at most ten rounds per second of its timeout: with
    a server that answers PING, or with the fatal error. *)
Theorem redis_wait_ends address now clock t (s : S) :
  (forall n, start_ t + Z.of_nat n * 100000000 <= clock n) -> 0 <= timeout_ t ->
  exists s' r, testRedisConnect address now clock t s = Some (s', r) /\ (r = Done tt \/ r = Fatal).
Proof.
  intros Hc Ht. unfold testRedisConnect. destruct (redis_connect _ _); [|eauto]. apply ping_loop_ends; unfold rounds; try done; lia.
Qed.

Context `{!RedisLaws S} `{ExtLaws, Hex, !Dotted, ProtobufLaws, Providers, !Ed25519Total, !RsaDer} (sha256 : bytes -> bytes).

Lemma listener_pushes key p l (s : S) :
  queue s key = Some l -> exists s', listener key p true s = (s', Done tt) /\ queue s' key = Some (l ++ [stringified_address_ (connect_at p)]).
Proof.
  intros Hk. unfold listener, rpush. cbn [negb]. destruct (rpush_appends key (stringified_address_ (connect_at p)) l s Hk) as (s' & r & -> & Hq). by exists s'.
Qed.

Lemma dialer_takes key v l ns (s : S) :
  queue s key = Some (v :: l) -> exists s', queue s' key = Some l /\ dialer key ns s =
    (s', match create v with
         | None => Throws
         | Some (failure _) => Fatal
         | Some (success address) =>
             match getPeerId address with
             | None => Fatal
             | Some t => match fromBase58 t with None => Throws | Some (failure _) => Fatal | Some (success i) => Done (mkPeerInfo i [address]) end
             end
         end).
Proof.
  intros Hq. unfold dialer, blpop. destruct (blpop_takes key v l (to_string (blpop_seconds ns)) s Hq) as (s' & -> & Hl). by exists s'.
Qed.

(** The dialer takes from the queue exactly the peer that was published. *)
Lemma dialer_finds key b random_seed p ns (s : S) :
  bytes_ok b -> length b = 4%nat ->
  SamplePeer_at sha256 random_seed (v4_to_string b) (samplePort random_seed) Ed25519 = Some p ->
  queue s key = Some [stringified_address_ (connect_at p)] ->
  (exists s', dialer key ns s = (s', Done (connect_info p)))
    /\ info_id (connect_info p) = peer_id p /\ peer_publicKey (peer_id p) = Some (publicKey (keypair p))
    /\ asQuic (listen_at p) = Some (success (mkTcpOrUdp (IsIp (V4 [0; 0; 0; 0])) (samplePort random_seed) true))
    /\ map asQuic (addresses (connect_info p)) = [Some (success (mkTcpOrUdp (IsIp (V4 b)) (samplePort random_seed) true))].
Proof.
  intros Hb Hl Hsame Hq. set (e := mkEndpoint (V4 b) (samplePort random_seed)).
  assert (endpoint_ok e) as He by (split; [apply samplePort_ok|by split]).
  destruct (sample_made_at sha256 random_seed e b eq_refl He) as (pub & id & pb & Hmake & Hm & Hfrom & Hkey).
  destruct (sample_endpoints random_seed) as [Hany _]. destruct (quic_good e He) as [Hg Hp].
  change (ep_port e) with (samplePort random_seed) in Hmake. rewrite Hmake in Hsame. injection Hsame as <-.
  set (p := sample_at random_seed e pub id) in *.
  destruct (dialer_takes _ _ _ ns s Hq) as (s2 & _ & Hd).
  assert (Forall good (quic_components e ++ [(p2p, toBuffer id)])) as Hgood
    by (apply Forall_app; split; [done|constructor; [by eapply p2p_component|constructor]]).
  split; [|split; [done|split; [done|split]]].
  - exists s2. rewrite Hd. cbn [connect_at p sample_at stringified_address_ address_of]. rewrite Multiaddress.create_text by done.
    pose proof (first_peer_id (quic_components e) id identity pb Hg Hp ltac:(repeat constructor; discriminate) Hm) as Hfirst.
    unfold getPeerId, getFirstValueForProtocol in *. destruct (getValuesForProtocol _ _) as [|v vs]; [done|]. injection Hfirst as ->. cbn [head].
    rewrite (base58_from_hash _ _ _ Hm), Hfrom. done.
  - by apply quic_read.
  - cbn [map connect_info p sample_at addresses]. f_equal. apply quic_read; [done|by constructor; [eapply p2p_component|]|by constructor; [eapply identity_plain|]].
Qed.

(** The environment of a process of the test: the key, the transport, the role, the
    address it uses and a Redis server that it can connect to. *)
Record deployed (env : environ) (l : option (list ifaddrs)) (dials : bool) (testKey b : bytes) (now : Z) (t : TestTimeout) : Prop := {
  dep_key : TEST_KEY env = Some testKey;
  dep_transport : TRANSPORT env = Some (str "quic-v1");
  dep_role : isDialer env = dials;
  dep_ip : chosen_ip env l = v4_to_string b;
  dep_bytes : bytes_ok b /\ length b = 4%nat;
  dep_redis : redis_connect (S := S) (default (str "redis") (REDIS_ADDR env)) (remainingUs now t) = success tt
}.

Lemma prepare_deployed env l dials testKey b now clock random_seed t (s : S) :
  deployed env l dials testKey b now t ->
  exists p s', SamplePeer_at sha256 random_seed (v4_to_string b) (samplePort random_seed) Ed25519 = Some p
    /\ prepare sha256 env l now clock random_seed t s = Some (s', Done (redisKey testKey, p))
    /\ forall k, queue s' k = queue s k.
Proof.
  intros [D1 D2 D3 D4 [Hb Hl] D6]. set (e := mkEndpoint (V4 b) (samplePort random_seed)).
  assert (endpoint_ok e) as He by (split; [apply samplePort_ok|by split]).
  destruct (sample_made_at sha256 random_seed e b eq_refl He) as (pub & id & pb & Hmake & _).
  change (ep_port e) with (samplePort random_seed) in Hmake. destruct (ping_answers s) as (s' & r & Hp & Hq).
  exists (sample_at random_seed e pub id), s'. split; [done|]. split; [|done].
  unfold prepare, testRedisConnect. rewrite D1, D6. unfold rounds. cbn [ping_loop]. unfold redis_ping. rewrite Hp.
  cbn [tryReply replyStr]. rewrite decide_True by done. cbn [mbind option_bind]. by rewrite D4, Hmake, D2, decide_True.
Qed.

(** C22: the two processes of the interoperability test meet.  When [main] runs as a listener
    that can listen, under a key that is empty, and then as a dialer with the same key, both
    run to their end, and the dialer connects to exactly the peer the listener is, at the
    address of the listener and the port it listens on, whichever random seeds they drew;
    what it prints are the times of that connection. *)
Theorem dialer_meets_listener {E A} env1 env2 l1 l2 testKey b1 b2 now1 now2 clock1 clock2 seed1 seed2 t1 t2 ns1 ns2 listens2
    (connects : PeerInfo -> option (outcome E A)) pinged t0 t9 (s : S) :
  deployed env1 l1 false testKey b1 now1 t1 -> deployed env2 l2 true testKey b2 now2 t2 -> queue s (redisKey testKey) = Some [] ->
  exists p s1 s2,
    SamplePeer_at sha256 seed1 (v4_to_string b1) (samplePort seed1) Ed25519 = Some p
    /\ interop_main sha256 env1 l1 now1 clock1 seed1 t1 ns1 true connects pinged t0 t9 s = Some (s1, Done None)
    /\ interop_main sha256 env2 l2 now2 clock2 seed2 t2 ns2 listens2 connects pinged t0 t9 s1
         = Some (s2, dialer_coroutine (connects (connect_info p)) pinged t0 t9)
    /\ info_id (connect_info p) = peer_id p /\ peer_publicKey (peer_id p) = Some (publicKey (keypair p))
    /\ asQuic (listen_at p) = Some (success (mkTcpOrUdp (IsIp (V4 [0; 0; 0; 0])) (samplePort seed1) true))
    /\ map asQuic (addresses (connect_info p)) = [Some (success (mkTcpOrUdp (IsIp (V4 b1)) (samplePort seed1) true))].
Proof.
  intros D1 D2 Hq.
  destruct (prepare_deployed _ _ _ _ _ _ clock1 seed1 _ s D1) as (p & s0 & Hp & Hmain1 & Hq0).
  destruct (listener_pushes (redisKey testKey) p [] s0) as (s1 & Hlisten & Hq1); [by rewrite Hq0|].
  destruct (prepare_deployed _ _ _ _ _ _ clock2 seed2 _ s1 D2) as (p2 & s2 & _ & Hmain2 & Hq2).
  destruct (dep_bytes _ _ _ _ _ _ _ D1) as [Hb Hl].
  destruct (dialer_finds (redisKey testKey) b1 seed1 p ns2 s2 Hb Hl Hp) as ((s3 & Hdial) & Hfacts); [by rewrite Hq2, Hq1|].
  exists p, s1, s3. split; [done|]. unfold interop_main. rewrite Hmain1, Hmain2. cbn [mbind option_bind].
  by rewrite (dep_role _ _ _ _ _ _ _ D1), (dep_role _ _ _ _ _ _ _ D2), Hlisten, Hdial.
Qed.
End Laws.

(** ** A concrete server *)
Module ToyRedis.
Import (hints) Plain Multibase.Multibase.
Import (hints) Keys.Toy ToySample.

(** A server that knows the three commands. *)
#[export] Instance hiredis : Hiredis (bytes -> list bytes) := {
  redisConnectWithTimeout _ _ _ := Some (Some tt);
  redisCommand cmd s :=
    match cmd with
    | [c] => (s, Some (Reply false (str "PONG") []))
    | [c; k; v] =>
        if decide (c = str "RPUSH") then (fun k' => if decide (k' = k) then s k ++ [v] else s k', Some (Reply false [] []))
        else match s k with
             | [] => (s, Some (Reply false [] []))
             | x :: l => (fun k' => if decide (k' = k) then l else s k', Some (Reply false [] [Reply false k []; Reply false x []]))
             end
    | _ => (s, None)
    end
}.
#[export] Instance redis_laws : RedisLaws (bytes -> list bytes).
Proof.
  exists (fun s k => Some (s k)).
  - intros k v l s [= <-]. eexists _, _. cbn [redisCommand hiredis]. rewrite decide_True by done. split; [reflexivity|]. cbv beta. by rewrite decide_True.
  - intros k v l t s [= Hq]. eexists. cbn [redisCommand hiredis]. rewrite decide_False by done. rewrite Hq. split; [reflexivity|]. cbv beta. by rewrite decide_True.
  - intros s. by eexists _, _.
Defined.

(** A listener on a machine with one interface besides the loopback, and a dialer. *)
Definition env_listener : environ := mkEnviron (Some (str "quic-v1")) None None None (Some (str "k")).
Definition env_dialer : environ := mkEnviron (Some (str "quic-v1")) (Some (str "true")) None (Some (str "redis:6380")) (Some (str "k")).
Definition interfaces : list ifaddrs :=
  [mkIfaddrs true true (Some (Inet [127; 0; 0; 1])); mkIfaddrs false true None; mkIfaddrs false true (Some (Inet [10; 0; 0; 2]))].
(** A network where somebody answers at that interface and the port of the listener. *)
Definition answers_there (i : PeerInfo) : option (outcome unit unit) :=
  match map asQuic (addresses i) with
  | [Some (success (mkTcpOrUdp (IsIp (V4 [10; 0; 0; 2])) port true))] => if port =? samplePort 60000 then Some (success tt) else None
  | _ => None
  end.
Definition toy_main (env : environ) (seed : Z) (s : bytes -> list bytes) :=
  interop_main (fun _ => replicate 32 7) env (Some interfaces) 0 (fun _ => 0) seed (mkTestTimeout 0 300) 5 true answers_there
    (Some (success 30)) 7 90 s.

Lemma dialer_meets_listener_witness : exists p s1 s2,
    SamplePeer_at (fun _ => replicate 32 7) 60000 (v4_to_string [10; 0; 0; 2]) (samplePort 60000) Ed25519 = Some p
    /\ toy_main env_listener 60000 (fun _ => []) = Some (s1, Done None)
    /\ toy_main env_dialer 1 s1 = Some (s2, Done (Some (83, 30))).
Proof.
  assert (deployed (S := bytes -> list bytes) env_listener (Some interfaces) false (str "k") [10; 0; 0; 2] 0 (mkTestTimeout 0 300)) as D1
    by (split; [reflexivity..|split; [repeat (constructor; [by vm_compute|]); constructor|reflexivity]|reflexivity]).
  assert (deployed (S := bytes -> list bytes) env_dialer (Some interfaces) true (str "k") [0; 0; 0; 0] 0 (mkTestTimeout 0 300)) as D2
    by (split; [reflexivity..|split; [repeat (constructor; [by vm_compute|]); constructor|reflexivity]|reflexivity]).
  destruct (dialer_meets_listener (S := bytes -> list bytes) (fun _ => replicate 32 7) env_listener env_dialer
    (Some interfaces) (Some interfaces) (str "k") [10; 0; 0; 2] [0; 0; 0; 0] 0 0 (fun _ => 0) (fun _ => 0) 60000 1
    (mkTestTimeout 0 300) (mkTestTimeout 0 300) 5 5 true answers_there (Some (success 30)) 7 90 (fun _ => []) D1 D2)
    as (p & s1 & s2 & Hp & H1 & H2 & _ & _ & _ & Hat); [reflexivity|].
  exists p, s1, s2. split; [exact Hp|]. split; [exact H1|].
  unfold toy_main. rewrite H2. unfold answers_there. rewrite Hat. reflexivity.
Defined.

(** Without [TEST_KEY] the program uses an empty optional. *)
Lemma missing_key_is_undefined :
  prepare (S := bytes -> list bytes) (fun _ => replicate 32 7) (mkEnviron (Some (str "quic-v1")) None None None None) None 0 (fun _ => 0) 1
    (mkTestTimeout 0 300) (fun _ => []) = Some (fun _ => [], Undefined).
Proof. reflexivity. Qed.
End ToyRedis.
