(* ===== verification/Tls.v ===== *)
(** * The TLS certificate that carries the identity of a peer

    [security/tls/tls_details.cpp]: a self-signed certificate with an extension
    that holds the host's public key and its signature of the certificate's key;
    and what is checked of the certificate of a remote peer. *)

From S2P Require Import Prelude Varint Multihash Base58 ByteUtil PeerAddress Keys.
Import Key Provider Validator Marshaller.

Inductive TlsError := TLS_INCOMPATIBLE_CERTIFICATE_EXTENSION | TLS_PEER_VERIFY_FAILED.
#[export] Instance TlsError_eq_dec : EqDecision TlsError.
Proof. solve_decision. Defined.

(** ** OpenSSL's certificates

    The data of the first extension with libp2p's OID, the DER of the public key,
    and the certificate built and signed from a public key, the extension's data
    and a private key, or an exception or undefined behaviour ([Certificate.v] has the
    calls). *)
Class X509 (Cert : Type) := {
  libp2p_extension : Cert -> option bytes;
  pubkey_der : Cert -> bytes;
  build_certificate : bytes -> bytes -> bytes -> option Cert
}.

(** What was put into a certificate is found in it, but for an extension that could not be
    written and is empty or missing. *)
Class X509Laws (Cert : Type) `{!X509 Cert} := {
  built_extension pub ext priv c : build_certificate pub ext priv = Some c ->
    libp2p_extension c = Some ext \/ libp2p_extension c = Some [] \/ libp2p_extension c = None;
  built_pubkey pub ext priv c : build_certificate pub ext priv = Some c -> pubkey_der c = pub
}.

(** ** Verification of the chain *)

(** An extension: critical, known to OpenSSL, with libp2p's OID. *)
Record extension := mkExtension { critical : bool; supported : bool; libp2p_oid : bool }.

Fixpoint check_extensions (exts : list extension) (seen : bool) : bool :=
  match exts with
  | [] => true
  | ext :: exts =>
      if negb (critical ext) then check_extensions exts seen
      else if supported ext then check_extensions exts seen
      else if seen then false
      else if libp2p_oid ext then check_extensions exts true
      else false
  end.
Definition checkCriticalExtensions (cert : list extension) : bool := check_extensions cert false.

Inductive verify_error := SELF_SIGNED_CERT_IN_CHAIN | DEPTH_ZERO_SELF_SIGNED_CERT | UNHANDLED_CRITICAL_EXTENSION | OTHER.

(** [cert] is [None] when there is no current certificate. *)
Definition verifyCallback (status : bool) (error : verify_error) (cert : option (list extension)) : bool :=
  match cert with
  | None => false
  | Some cert =>
      match error with
      | SELF_SIGNED_CERT_IN_CHAIN | DEPTH_ZERO_SELF_SIGNED_CERT => true
      | UNHANDLED_CRITICAL_EXTENSION => if checkCriticalExtensions cert then true else status
      | OTHER => status
      end
  end.

(** ** The extension *)

Definition sign_prefix : bytes := str "libp2p-tls-handshake:".
Definition kSequenceTag : Z := 0x30.
Definition kOctetStringTag : Z := 0x04.
Definition kAsnHeaderSize : nat := 2.

Definition marshalExtensionData (pub_key_bytes signature : bytes) : bytes :=
  [kSequenceTag; u8 (Z.of_nat (kAsnHeaderSize + length pub_key_bytes + kAsnHeaderSize + length signature));
   kOctetStringTag; u8 (Z.of_nat (length pub_key_bytes))] ++ pub_key_bytes
  ++ [kOctetStringTag; u8 (Z.of_nat (length signature))] ++ signature.

Definition read_asn (input : bytes) (tag : Z) : option (bytes * bytes) :=
  match input with
  | t :: n :: rest =>
      if negb (t =? tag) || bool_decide (Z.of_nat (length rest) < n) then None
      else Some (take (Z.to_nat n) rest, drop (Z.to_nat n) rest)
  | _ => None
  end.

Definition unmarshalExtensionData (data : bytes) : option (bytes * bytes) :=
  '(data, _) ← read_asn data kSequenceTag;
  '(public_key, data) ← read_asn data kOctetStringTag;
  '(signature, data) ← read_asn data kOctetStringTag;
  if decide (data = []) then Some (public_key, signature) else None.

(** ** Making and checking certificates *)

Section Certificates.
Context `{Providers, RsaDer, Protobuf} {Cert : Type} `{!X509 Cert}.

(** [cryptoProvider()] has no RSA and no ECDSA provider; [None] is a call through
    the null pointer or an access out of bounds. *)
Definition tls_sign (message : bytes) (key : PrivateKey) : option (outcome CryptoError bytes) :=
  match type key with
  | RSA | ECDSA => None
  | _ => Provider.sign message key
  end.
Definition tls_verify (message signature : bytes) (key : PublicKey) : option (outcome CryptoError bool) :=
  match type key with
  | RSA | ECDSA => None
  | _ => Provider.verify message signature key
  end.

(** [makeExtensionSignature]; [None] is also the exception of [value()]. *)
Definition makeExtensionSignature (cert_pub_key : bytes) (host_private_key : PrivateKey) : option bytes :=
  match tls_sign (sign_prefix ++ cert_pub_key) host_private_key with
  | Some (success signature) => Some signature
  | _ => None
  end.

(** [makeCertificate], with the ECDSA key pair of step 1 as argument; [None] is an
    exception.  The result is the certificate and its private key. *)
Definition makeCertificate (cert_keys : bytes * bytes) (host_key_pair : KeyPair) : option (Cert * bytes) :=
  match marshal (publicKey host_key_pair) with
  | failure _ => None
  | success pub_key_bytes =>
      signature ← makeExtensionSignature cert_keys.1 (privateKey host_key_pair);
      let extension_data := marshalExtensionData pub_key_bytes signature in
      cert ← build_certificate cert_keys.1 extension_data cert_keys.2;
      Some (cert, cert_keys.2)
  end.

Definition extractExtensionFields (cert : Cert) : outcome TlsError (bytes * bytes) :=
  match libp2p_extension cert with
  | None => failure TLS_INCOMPATIBLE_CERTIFICATE_EXTENSION
  | Some data =>
      match unmarshalExtensionData data with
      | None => failure TLS_INCOMPATIBLE_CERTIFICATE_EXTENSION
      | Some ks => success ks
      end
  end.

Definition verifyExtensionSignature (cert : Cert) (peer_pubkey : PublicKey) (signature : bytes) :
    option (outcome TlsError unit) :=
  match tls_verify (sign_prefix ++ pubkey_der cert) signature peer_pubkey with
  | None => None
  | Some (success true) => Some (success tt)
  | Some _ => Some (failure TLS_PEER_VERIFY_FAILED)
  end.

Definition verifyPeerAndExtractIdentity (sha256 : bytes -> bytes) (cert : Cert) :
    option (outcome TlsError (PublicKey * Multihash)) :=
  match extractExtensionFields cert with
  | failure e => Some (failure e)
  | success (pkey, signature) =>
      match fromPublicKey sha256 pkey with
      | None => None
      | Some (failure _) => Some (failure TLS_INCOMPATIBLE_CERTIFICATE_EXTENSION)
      | Some (success peer_id) =>
          match unmarshalPublicKey pkey with
          | failure _ => Some (failure TLS_INCOMPATIBLE_CERTIFICATE_EXTENSION)
          | success peer_pubkey =>
              if negb (bool_decide (type peer_pubkey = Ed25519)) && negb (bool_decide (type peer_pubkey = Secp256k1))
              then Some (failure TLS_INCOMPATIBLE_CERTIFICATE_EXTENSION)
              else
                match verifyExtensionSignature cert peer_pubkey signature with
                | None => None
                | Some (failure e) => Some (failure e)
                | Some (success _) => Some (success (peer_pubkey, peer_id))
                end
          end
      end
  end.
End Certificates.

(** ** Proofs *)

Lemma read_asn_app tag body rest :
  (length body < 256)%nat -> read_asn ([tag; u8 (Z.of_nat (length body))] ++ body ++ rest) tag = Some (body, rest).
Proof.
  intros Hl. cbn [app read_asn]. rewrite Z.eqb_refl, u8_id by (unfold is_byte; lia).
  rewrite bool_decide_false by (rewrite length_app; lia). cbn [negb orb].
  by rewrite Nat2Z.id, take_app_length, drop_app_length.
Qed.

Lemma extension_roundtrip pk s :
  (length pk + length s <= 251)%nat -> unmarshalExtensionData (marshalExtensionData pk s) = Some (pk, s).
Proof.
  intros Hl. unfold unmarshalExtensionData, marshalExtensionData, kAsnHeaderSize.
  set (body := [kOctetStringTag; u8 (Z.of_nat (length pk))] ++ pk
                 ++ [kOctetStringTag; u8 (Z.of_nat (length s))] ++ s ++ []).
  assert (length body = (2 + length pk + 2 + length s)%nat) as Hb
    by (unfold body; rewrite !length_app; cbn [length]; lia).
  pose proof (read_asn_app kSequenceTag body [] ltac:(lia)) as H1. rewrite app_nil_r, Hb in H1.
  unfold body in H1 at 1. rewrite app_nil_r in H1. cbn [app] in H1 |- *.
  rewrite H1. cbn [mbind option_bind]. unfold body.
  rewrite read_asn_app by lia. cbn [mbind option_bind]. rewrite read_asn_app by lia. done.
Qed.

Definition unknown_critical (e : extension) : bool := critical e && negb (supported e).

Lemma check_extensions_spec exts seen :
  check_extensions exts seen = true
  <-> match List.filter unknown_critical exts with
      | [] => True
      | [e] => seen = false /\ libp2p_oid e = true
      | _ => False
      end.
Proof.
  revert seen. induction exts as [|[c s l] exts IH]; intros seen; [done|].
  cbn [check_extensions List.filter]. unfold unknown_critical at 1. cbn [critical supported libp2p_oid].
  destruct c; cbn [negb andb]; [|by rewrite IH]. destruct s; cbn [negb]; [by rewrite IH|].
  destruct seen; [by destruct (List.filter _ exts); naive_solver|].
  destruct l; [|by destruct (List.filter _ exts); naive_solver].
  rewrite IH. destruct (List.filter unknown_critical exts) as [|e [|]]; naive_solver.
Qed.

(** ** Properties *)

Section Properties.
Context `{ProtobufLaws, ProviderLaws} {Cert : Type} `{!X509 Cert} `{!X509Laws Cert}.

Lemma marshalled_size key pb :
  validate_public key = success tt -> type key = Ed25519 \/ type key = Secp256k1 -> marshal key = success pb ->
  (length pb <= 37)%nat /\ pb <> [].
Proof.
  intros Hv Ht Hm.
  assert (length (data key) = 32 \/ length (data key) = 33)%nat as Hl.
  { unfold validate_public, validateEd25519_public, validateSecp256k1_public in Hv.
    destruct Ht as [Ht|Ht]; rewrite Ht in Hv; case_decide; (done || tauto). }
  unfold marshal in Hm. destruct Ht as [Ht|Ht]; rewrite Ht in Hm; cbn [marshalKeyType] in Hm; injection Hm as <-;
    rewrite serialize_layout by (cbn; lia); (split; [|done]);
    rewrite !length_app; destruct Hl as [Hl|Hl]; rewrite Hl; vm_compute; lia.
Qed.

(** The certificate has a libp2p extension with content. *)
Definition extension_written (cert : Cert) : bool := match libp2p_extension cert with Some (_ :: _) => true | _ => false end.

(** A certificate convinces the other side of the host's identity.  For host
    keys generated for Ed25519 or Secp256k1, the certificate made from them and any
    certificate key is accepted by the peer, which learns exactly the host's public
    key and the id the host gives itself; but a certificate into which the extension could
    not be written is refused. *)
Theorem certificate_proves_identity sha256 t b kp cert_keys cert sk :
  t = Ed25519 \/ t = Secp256k1 -> generateKeys t b = success kp -> bytes_ok (data (publicKey kp)) ->
  makeCertificate cert_keys kp = Some (cert, sk) ->
  exists id, verifyPeerAndExtractIdentity sha256 cert
      = Some (if extension_written cert then success (publicKey kp, id) else failure TLS_INCOMPATIBLE_CERTIFICATE_EXTENSION)
    /\ identity_id sha256 kp = Some id.
Proof.
  intros Ht Hg Hok Hc. destruct (generated_keys t b kp Hg) as (Htp & Htq & Hsv & Hvp & _). specialize (Hvp Ht).
  unfold makeCertificate in Hc. destruct (marshal_unmarshal (publicKey kp) Hok) as (pb & Hm & Hu & _);
    [rewrite Htp; by destruct Ht as [-> | ->]|]. rewrite Hm in Hc. rewrite Hvp in Hu.
  destruct (makeExtensionSignature cert_keys.1 (privateKey kp)) as [s|] eqn:Es; [|done].
  cbn [mbind option_bind] in Hc. destruct (build_certificate _ _ _) as [c|] eqn:Hbuild; [|done]. injection Hc as <- <-.
  destruct (marshalled_size _ _ Hvp ltac:(by rewrite Htp) Hm) as [Hsz Hne].
  destruct (identity_of_key sha256 kp Hok ltac:(by rewrite Htp) Hvp) as (id & Hid & _ & _). exists id. split; [|done].
  unfold makeExtensionSignature, tls_sign in Es. rewrite Htq in Es.
  assert (Provider.sign (sign_prefix ++ cert_keys.1) (privateKey kp) = Some (success s)) as Hsign
    by (destruct Ht as [-> | ->]; repeat case_match; by simplify_eq).
  destruct (Hsv (sign_prefix ++ cert_keys.1)) as (r & Hr & Hver). rewrite Hsign in Hr. injection Hr as <-.
  destruct Hver as [Hver Hlen]. specialize (Hlen Ht).
  unfold verifyPeerAndExtractIdentity, extractExtensionFields, extension_written.
  destruct (built_extension _ _ _ c Hbuild) as [-> |[-> | ->]]; [|done..]. rewrite extension_roundtrip by lia. cbn [marshalExtensionData app].
  unfold identity_id in Hid. case_decide; [done|]. rewrite Hm in Hid.
  destruct (fromPublicKey sha256 pb) as [[id'|]|]; [|done|done]. injection Hid as ->. rewrite Hu, Htp.
  unfold verifyExtensionSignature, tls_verify. rewrite (built_pubkey _ _ _ c Hbuild), Htp, Hver.
  by destruct Ht as [-> | ->].
Qed.

(** C2: an accepted identity was proved by its owner, and what crashes the check.
    When [verifyPeerAndExtractIdentity] returns a key and an id, the certificate's
    extension holds a marshalled key and a signature such that the id is made from
    that marshalled key, the returned key is its content and of type Ed25519 or
    Secp256k1, the signature of the prefix and the certificate's own key verifies
    with it, and an id that inlines its key yields the same key.  It reads out of
    bounds exactly for an Ed25519 key with a signature of fewer than 64 bytes. *)
Theorem identity_is_proved sha256 (cert : Cert) :
  (forall k, bytes_ok (sha256 k) /\ length (sha256 k) = 32%nat) ->
  (forall key id, verifyPeerAndExtractIdentity sha256 cert = Some (success (key, id)) ->
     exists ext pb s, libp2p_extension cert = Some ext /\ unmarshalExtensionData ext = Some (pb, s)
       /\ fromPublicKey sha256 pb = Some (success id) /\ unmarshalPublicKey pb = success key
       /\ (type key = Ed25519 \/ type key = Secp256k1)
       /\ verify (sign_prefix ++ pubkey_der cert) s key = Some (success true)
       /\ (bytes_ok pb -> pb <> [] -> (length pb <= kMaxInlineKeyLength)%nat -> peer_publicKey id = Some key))
  /\ (verifyPeerAndExtractIdentity sha256 cert = None
      <-> exists ext pb s key, libp2p_extension cert = Some ext /\ unmarshalExtensionData ext = Some (pb, s)
            /\ unmarshalPublicKey pb = success key /\ type key = Ed25519 /\ (length s < 64)%nat).
Proof.
  intros Hsha. unfold verifyPeerAndExtractIdentity, extractExtensionFields, verifyExtensionSignature, tls_verify.
  destruct (libp2p_extension cert) as [ext|]; [|split; [done|split; [done|]]; intros (ext' & pb' & s' & key' & He & Hx' & Hu' & _); exfalso; congruence].
  destruct (unmarshalExtensionData ext) as [[pb s]|] eqn:Hx; [|split; [done|split; [done|]]; intros (ext' & pb' & s' & key' & He & Hx' & Hu' & _); exfalso; congruence].
  assert (exists id, fromPublicKey sha256 pb = Some (success id)
            /\ ((length pb <= kMaxInlineKeyLength)%nat -> Multihash.create identity pb = Some (success id)))
    as (id & Hid & Hinl).
  { unfold fromPublicKey, kMaxInlineKeyLength. case_decide as Hl.
    - destruct (multihash_create_spec identity pb) as [Hc _]; [unfold is_u64, identity; lia|].
      unfold kMaxHashLength in Hc. rewrite decide_False in Hc by lia. rewrite Hc. by eexists.
    - destruct (Hsha pb) as [Hok Hlen].
      destruct (multihash_create_spec sha256_type (sha256 pb)) as [Hc _]; [unfold is_u64, sha256_type; lia|].
      unfold kMaxHashLength in Hc. rewrite decide_False in Hc by lia. rewrite Hc. eexists. split; [done|lia]. }
  rewrite Hid. destruct (unmarshalPublicKey pb) as [key|e] eqn:Hu; [|split; [done|split; [done|]]; intros (ext' & pb' & s' & key' & He & Hx' & Hu' & _); exfalso; congruence].
  pose proof (verify_bounds pb key (sign_prefix ++ pubkey_der cert) s Hu) as Hoob.
  destruct (decide (type key = Ed25519 \/ type key = Secp256k1)) as [Ht|Ht].
  - replace (negb _ && negb _) with false by (destruct Ht as [-> | ->]; done).
    replace (match type key with RSA | ECDSA => None | _ => verify (sign_prefix ++ pubkey_der cert) s key end)
      with (verify (sign_prefix ++ pubkey_der cert) s key) by (destruct Ht as [-> | ->]; done).
    split.
    + intros key' id' Hr. destruct (verify _ s key) as [[[]|]|] eqn:Hv; simplify_eq.
      exists ext, pb, s. split_and!; try done. intros Hok Hne Hl. unfold peer_publicKey.
      assert (multihash_of identity pb id') as Hm by (split_and!; [unfold is_u64, identity; lia|done|done|by apply Hinl]).
      destruct (multihash_of_fields _ _ _ Hm) as [_ ->]. by rewrite Hu.
    + split.
      * intros Hn. exists ext, pb, s, key.
        destruct (proj1 Hoob) as [[Hte Hs]|[Hte _]];
          [by destruct (verify _ s key) as [[[]|]|]|by split_and!|destruct Ht; congruence].
      * intros (ext' & pb' & s' & key' & He & Hx' & Hu' & Hte & Hs). simplify_eq.
        assert (key' = key) as -> by congruence. destruct (verify _ _ _) as [[[]|]|]; try done; discriminate (proj2 Hoob (or_introl (conj Hte Hs))).
  - replace (negb _ && negb _) with true by (rewrite !bool_decide_false by tauto; done).
    split; [done|]. split; [done|]. intros (ext' & pb' & s' & key' & He & Hx' & Hu' & Hte & _). simplify_eq.
    assert (key' = key) as -> by congruence. tauto.
Qed.

(** Which unknown critical extensions are let through.  A certificate that
    OpenSSL rejects for an unhandled critical extension passes exactly when the
    critical extensions it does not know are none, or one with libp2p's OID. *)
Theorem critical_extensions_exact exts :
  verifyCallback false UNHANDLED_CRITICAL_EXTENSION (Some exts) = true
  <-> match List.filter unknown_critical exts with
      | [] => True
      | [e] => libp2p_oid e = true
      | _ => False
      end.
Proof.
  unfold verifyCallback, checkCriticalExtensions.
  destruct (check_extensions exts false) eqn:E.
  - pose proof (proj1 (check_extensions_spec exts false) E) as Hf. split; [|done]. intros _.
    by destruct (List.filter _ exts) as [|e [|]]; [|destruct Hf|].
  - split; [done|]. intros Hf. rewrite (proj2 (check_extensions_spec exts false)) in E; [done|].
    by destruct (List.filter _ exts) as [|e [|]].
Qed.
End Properties.


(** ** A concrete instance *)
Module ToyX509.
#[export] Instance toy_x509 : X509 (bytes * bytes) := {|
  libp2p_extension c := Some c.2;
  pubkey_der := fst;
  build_certificate pub ext _ := Some (pub, ext)
|}.
#[export] Instance toy_x509_laws : X509Laws (bytes * bytes).
Proof. split; intros pub ext priv c [= <-]; [by left|done]. Qed.
End ToyX509.
Import Toy ToyX509.

Lemma certificate_proves_identity_witness :
  exists id, verifyPeerAndExtractIdentity (fun _ => replicate 32 7)
               ([5; 6], marshalExtensionData ([8; 1; 18; 32] ++ replicate 32 1) (replicate 64 23))
             = Some (success (publicKey toy_keys, id))
    /\ identity_id (fun _ => replicate 32 7) toy_keys = Some id.
Proof.
  refine (certificate_proves_identity (fun _ => replicate 32 7) Ed25519 RSA2048 toy_keys ([5; 6], [7]) _ [7] _ _ _ _).
  - by left.
  - reflexivity.
  - by apply Forall_replicate.
  - vm_compute. reflexivity.
Defined.

Lemma identity_is_proved_witness :
  verifyPeerAndExtractIdentity (fun _ => replicate 32 7)
    ([5; 6], marshalExtensionData ([8; 1; 18; 32] ++ replicate 32 1) [1; 2; 3]) = None.
Proof.
  refine (proj2 (proj2 (identity_is_proved (fun _ => replicate 32 7) _ _)) _).
  - intros k. split; [by apply Forall_replicate|by rewrite length_replicate].
  - eexists _, ([8; 1; 18; 32] ++ replicate 32 1), [1; 2; 3], (mkKey Ed25519 (replicate 32 1)).
    split_and!; [reflexivity|vm_compute; reflexivity|vm_compute; reflexivity|reflexivity|cbn; lia].
Defined.
