(* ===== verification/Certificate.v ===== *)
(** * The assembly of certificates

    The rest of [security/tls/tls_details.cpp]: how [makeCertificate] builds the
    self-signed certificate out of OpenSSL objects, each of which is freed at the end
    of its scope, also when an exception leaves it; and the choice of the application
    protocol in [security/tls/ssl_context.cpp].

    This implements the interface [X509] that [Tls.v] is proved against. *)

From S2P Require Import Prelude Varint Multihash Base58 ByteUtil PeerAddress Keys Tls.

(** ** OpenSSL

    [None] and [false] are a return value of 0 or a null pointer, the size -1 of
    [i2d_X509] too. *)
Class X509Lib := {
  x509_st : Type;
  PKEY : Type;
  ECKEY : Type;
  EXTENSION : Type;
  X509_new : option x509_st;
  X509_set_version : Z -> x509_st -> x509_st;
  d2i_PUBKEY : bytes -> option PKEY;
  i2d_PUBKEY : PKEY -> bytes;
  X509_set_pubkey : PKEY -> x509_st -> option x509_st;
  X509_get_pubkey : x509_st -> option PKEY;
  (** the other objects that are allocated: numbers, strings and keys *)
  BN_new : bool;
  ASN1_INTEGER_new : bool;
  ASN1_OCTET_STRING_new : bool;
  EVP_PKEY_new : bool;
  BN_pseudo_rand : option Z;
  (** the number is written into the integer *)
  BN_to_ASN1_INTEGER : Z -> bool;
  X509_set_serialNumber : Z -> x509_st -> option x509_st;
  (** [X509_gmtime_adj] of the two ends of the validity *)
  adjust_notBefore : Z -> x509_st -> x509_st;
  adjust_notAfter : Z -> x509_st -> x509_st;
  has_subject_name : x509_st -> bool;
  add_subject_entry : bytes -> bytes -> x509_st -> x509_st;
  (** [X509_set_issuer_name] with the subject name *)
  set_issuer_to_subject : x509_st -> option x509_st;
  (** the bytes are written into the string *)
  ASN1_OCTET_STRING_set : bytes -> bool;
  (** [X509_EXTENSION_create_by_OBJ] with libp2p's OID *)
  EXTENSION_create : bytes -> option EXTENSION;
  X509_add_ext : EXTENSION -> x509_st -> option x509_st;
  (** the data of the first extension with libp2p's OID *)
  get_libp2p_ext : x509_st -> option bytes;
  d2i_ECPrivateKey : bytes -> option ECKEY;
  EVP_PKEY_assign_EC_KEY : ECKEY -> option PKEY;
  X509_sign : PKEY -> x509_st -> option x509_st;
  i2d_X509 : x509_st -> option bytes;
  d2i_X509 : bytes -> option x509_st;
  (** the first protocol of one list that is in the other *)
  SSL_select_next_proto : bytes -> bytes -> option bytes
}.

(** ** Objects and exceptions

    A computation counts the OpenSSL objects that are alive.  It ends with an exception, a
    failed assertion, or undefined behaviour, the use of a null pointer as an object. *)
Inductive fault := throws | asserts | undefined.
Definition M (A : Type) : Type := nat -> nat * outcome fault A.
Definition ret {A} (a : A) : M A := fun n => (n, success a).
Definition fails {A} (f : fault) : M A := fun n => (n, failure f).
Definition bind {A B} (m : M A) (k : A -> M B) : M B :=
  fun n => let '(n, r) := m n in match r with success a => k a n | failure f => (n, failure f) end.
(** A new object with [CLEANUP_PTR]: it lives until the rest of its scope has ended. *)
Definition scoped {A} (m : M A) : M A := fun n => let '(n, r) := m (S n) in (pred n, r).
(** An object that is allocated with [CLEANUP_PTR]; the pointer is not checked. *)
Definition allocated {A} (made : bool) (m : M A) : M A := if made then scoped m else fails undefined.
(** [if (x == 0) throw] *)
Definition or_throw {A} (x : option A) : M A := match x with Some a => ret a | None => fails throws end.
Local Notation "x <~ m ;; k" := (bind m (fun x => k)) (at level 60, m at level 59, right associativity).

Section Assembly.
Context `{X509Lib}.

Definition assignPubkey (cert_pub_key : bytes) (cert : x509_st) : M x509_st :=
  match d2i_PUBKEY cert_pub_key with
  | None => fails throws
  | Some pub => scoped (or_throw (X509_set_pubkey pub cert))
  end.

(** The result of [BN_to_ASN1_INTEGER] is ignored: the new integer stays 0. *)
Definition assignSerial (cert : x509_st) : M x509_st :=
  allocated BN_new
    (bn <~ or_throw BN_pseudo_rand ;;
     allocated ASN1_INTEGER_new
       (let rand_int := if BN_to_ASN1_INTEGER bn then bn else 0 in
        or_throw (X509_set_serialNumber rand_int cert))).

(** Ten years. *)
Definition validity : Z := 10 * 60 * 60 * 24 * 365.
Definition assignIssuer (cert : x509_st) : M x509_st :=
  let cert := adjust_notAfter validity (adjust_notBefore 0 cert) in
  if negb (has_subject_name cert) then fails throws
  else
    let cert := add_subject_entry (str "C") (str "PY") cert in
    let cert := add_subject_entry (str "O") (str "libp2p") cert in
    let cert := add_subject_entry (str "CN") (str "libp2p") cert in
    or_throw (set_issuer_to_subject cert).

(** The new string, whose setter is not checked: it stays empty. *)
Definition octet_string (ext_data : bytes) : bytes := if ASN1_OCTET_STRING_set ext_data then ext_data else [].
(** The extension object is freed by a call; the result of [X509_add_ext] is ignored. *)
Definition insertExtension (ext_data : bytes) (cert : x509_st) : M x509_st :=
  allocated ASN1_OCTET_STRING_new
    (ex <~ or_throw (EXTENSION_create (octet_string ext_data)) ;;
     fun n => (pred (S n), success (default cert (X509_add_ext ex cert)))).

(** The key is freed with the [EVP_PKEY] it is assigned to. *)
Definition signCertificate (priv_key : bytes) (cert : x509_st) : M x509_st :=
  match d2i_ECPrivateKey priv_key with
  | None => fails throws
  | Some ec_key =>
      fun n =>
        allocated EVP_PKEY_new (fun n =>
          match EVP_PKEY_assign_EC_KEY ec_key with
          | None => (n, failure throws)
          | Some evp_key => let '(n, r) := or_throw (X509_sign evp_key cert) n in (pred n, r)
          end) (S n)
  end.

(** Steps 3 and 4 of [makeCertificate]; a vector is not resized to the size -1. *)
Definition assemble (cert_pub ext_data cert_priv : bytes) : M bytes :=
  match X509_new with
  | None => fails undefined
  | Some cert =>
      scoped (let cert := X509_set_version 2 cert in
              cert <~ assignPubkey cert_pub cert ;;
              cert <~ assignSerial cert ;;
              cert <~ assignIssuer cert ;;
              cert <~ insertExtension ext_data cert ;;
              cert <~ signCertificate cert_priv cert ;;
              or_throw (i2d_X509 cert))
  end.

(** [verifyExtensionSignature] up to the verification: the certificate's key is a new
    object, which is not freed. *)
Definition signed_bytes (cert : x509_st) : M bytes :=
  match X509_get_pubkey cert with
  | None => fails asserts
  | Some cert_pubkey => fun n => (S n, success (sign_prefix ++ i2d_PUBKEY cert_pubkey))
  end.

(** Certificates in DER, as they are sent. *)
#[export] Instance assembled : X509 bytes := {|
  libp2p_extension der := x ← d2i_X509 der; get_libp2p_ext x;
  pubkey_der der := match d2i_X509 der ≫= X509_get_pubkey with Some k => i2d_PUBKEY k | None => [] end;
  build_certificate pub ext priv := match (assemble pub ext priv 0%nat).2 with success der => Some der | failure _ => None end
|}.

Definition kAlpn : bytes := 6 :: str "libp2p".
(** [None] is [SSL_TLSEXT_ERR_ALERT_FATAL]. *)
Definition alpnSelect (offered : bytes) : option bytes := SSL_select_next_proto offered kAlpn.
End Assembly.

(** The protocols of a list in the format of ALPN. *)
Fixpoint alpn_names (fuel : nat) (l : bytes) : list bytes :=
  match fuel, l with
  | S fuel, n :: l => take (Z.to_nat n) l :: alpn_names fuel (drop (Z.to_nat n) l)
  | _, _ => []
  end.
Definition names (l : bytes) : list bytes := alpn_names (length l) l.

(** ** What OpenSSL promises

    A setter that succeeds sets what it names and leaves the rest; a certificate is read as
    it was written; keys in DER have one encoding.  No call is assumed to succeed. *)
Definition keeps `{X509Lib} (c c' : x509_st) : Prop :=
  get_libp2p_ext c' = get_libp2p_ext c /\ X509_get_pubkey c' = X509_get_pubkey c.
Class X509LibLaws `{X509Lib} := {
  new_empty v c : X509_new = Some c -> get_libp2p_ext (X509_set_version v c) = None;
  pubkey_encoding b k : d2i_PUBKEY b = Some k -> i2d_PUBKEY k = b;
  set_pubkey k c c' : X509_set_pubkey k c = Some c' -> get_libp2p_ext c' = get_libp2p_ext c /\ X509_get_pubkey c' = Some k;
  set_serial_keeps z c c' : X509_set_serialNumber z c = Some c' -> keeps c c';
  notBefore_keeps z c : keeps c (adjust_notBefore z c);
  notAfter_keeps z c : keeps c (adjust_notAfter z c);
  entry_keeps a b c : keeps c (add_subject_entry a b c);
  issuer_keeps c c' : set_issuer_to_subject c = Some c' -> keeps c c';
  add_ext d ex c c' : EXTENSION_create d = Some ex -> get_libp2p_ext c = None -> X509_add_ext ex c = Some c' ->
    get_libp2p_ext c' = Some d /\ X509_get_pubkey c' = X509_get_pubkey c;
  sign_keeps k c c' : X509_sign k c = Some c' -> keeps c c';
  der_read c der : i2d_X509 c = Some der -> d2i_X509 der = Some c;
  select_first s c p : SSL_select_next_proto s c = Some p <-> exists l1 l2, names s = l1 ++ p :: l2 /\ p ∈ names c /\ Forall (fun q => q ∉ names c) l1
}.

(** ** Proofs *)
Section Proofs.
Context `{X509LibLaws}.

#[local] Instance keeps_preorder : PreOrder keeps.
Proof. split; [by intros c|]. intros a b c [? ?] [? ?]. split; congruence. Qed.

(** A pointer that is not checked is null. *)
Definition null_object : Prop :=
  X509_new = None \/ BN_new = false \/ ASN1_INTEGER_new = false \/ ASN1_OCTET_STRING_new = false \/ EVP_PKEY_new = false.
(** The private key is read and cannot be assigned. *)
Definition key_unassigned (priv : bytes) : Prop :=
  exists k, d2i_ECPrivateKey priv = Some k /\ EVP_PKEY_assign_EC_KEY k = None.

(** A computation that leaves no object when it ends with a value that satisfies [P] or with
    an exception, up to the objects of [L], and that is otherwise undefined for a null
    pointer. *)
Definition ends {A} (L : nat -> Prop) (P : A -> Prop) (m : M A) : Prop := forall n,
  match m n with
  | (n', success a) => n' = n /\ P a
  | (n', failure throws) => n' = n \/ exists l, n' = (l + n)%nat /\ L l
  | (_, failure asserts) => False
  | (_, failure undefined) => null_object
  end.

Lemma ends_or_throw {A} L (x : option A) : ends L (fun a => x = Some a) (or_throw x).
Proof. intros n. destruct x; cbn; [done|by left]. Qed.
Lemma ends_impl {A} L (P Q : A -> Prop) m : ends L P m -> (forall a, P a -> Q a) -> ends L Q m.
Proof. intros Hm HP n. specialize (Hm n). destruct (m n) as [n' [a|[]]]; naive_solver. Qed.
Lemma ends_throws {A} L (P : A -> Prop) : ends L P (fails throws).
Proof. intros n. by left. Qed.
Lemma ends_bind {A B} L (P : A -> Prop) (Q : B -> Prop) m k :
  ends L P m -> (forall a, P a -> ends L Q (k a)) -> ends L Q (bind m k).
Proof.
  intros Hm Hk n. unfold bind. specialize (Hm n). destruct (m n) as [n' [a|f]]; [|done].
  destruct Hm as [-> Ha]. exact (Hk a Ha n).
Qed.
Lemma ends_scoped {A} L (P : A -> Prop) m : ends L P m -> ends L P (scoped m).
Proof.
  intros Hm n. unfold scoped. specialize (Hm (S n)). destruct (m (S n)) as [n' [a|[]]]; [| |done..].
  - destruct Hm as [-> Ha]. done.
  - destruct Hm as [-> |(l & -> & Hl)]; [by left|]. right. exists l. split; [lia|done].
Qed.
Lemma ends_allocated {A} L (P : A -> Prop) made m :
  (made = false -> null_object) -> ends L P m -> ends L P (allocated made m).
Proof. intros Hn Hm. destruct made; [by apply ends_scoped|]. intros n. by apply Hn. Qed.
Ltac null := let H := fresh in intros H; unfold null_object; tauto.

Lemma assignPubkey_spec L pub c :
  ends L (fun c' => get_libp2p_ext c' = get_libp2p_ext c /\ exists k, X509_get_pubkey c' = Some k /\ i2d_PUBKEY k = pub) (assignPubkey pub c).
Proof.
  unfold assignPubkey. destruct (d2i_PUBKEY pub) as [k|] eqn:Ek; [|apply ends_throws].
  apply ends_scoped. eapply ends_impl; [apply ends_or_throw|]. intros c' Hc. destruct (set_pubkey k c c' Hc) as [? Hk].
  split; [done|]. exists k. split; [done|by apply pubkey_encoding].
Qed.

Lemma assignSerial_spec L c : ends L (keeps c) (assignSerial c).
Proof.
  unfold assignSerial. apply ends_allocated; [null|]. eapply ends_bind; [apply ends_or_throw|]. intros z _.
  apply ends_allocated; [null|]. eapply ends_impl; [apply ends_or_throw|]. intros c'. apply set_serial_keeps.
Qed.

Lemma assignIssuer_spec L c : ends L (keeps c) (assignIssuer c).
Proof.
  unfold assignIssuer. destruct (negb _); [apply ends_throws|]. eapply ends_impl; [apply ends_or_throw|].
  intros c' Hc%issuer_keeps. rewrite <- Hc, <- !entry_keeps, <- notAfter_keeps. apply notBefore_keeps.
Qed.

(** The extension of a certificate to which it was added, or was not. *)
Definition extended (d : bytes) (c : x509_st) (o : option bytes) : Prop :=
  exists ex, EXTENSION_create (octet_string d) = Some ex
    /\ o = match X509_add_ext ex c with Some _ => Some (octet_string d) | None => None end.

Lemma insertExtension_spec L d c : get_libp2p_ext c = None ->
  ends L (fun c' => extended d c (get_libp2p_ext c') /\ X509_get_pubkey c' = X509_get_pubkey c) (insertExtension d c).
Proof.
  intros Hc. unfold insertExtension. apply ends_allocated; [null|]. eapply ends_bind; [apply ends_or_throw|]. intros ex Hex n. cbn. split; [done|].
  unfold extended. destruct (X509_add_ext ex c) as [c1|] eqn:Ea; cbn.
  - destruct (add_ext _ _ _ _ Hex Hc Ea) as [-> Hk]. split; [|done]. exists ex. by rewrite Ea.
  - split; [|done]. exists ex. by rewrite Ea.
Qed.

Lemma signCertificate_spec priv c : ends (fun l => l = 1%nat /\ key_unassigned priv) (keeps c) (signCertificate priv c).
Proof.
  unfold signCertificate. destruct (d2i_ECPrivateKey priv) as [k|] eqn:Ek; [|apply ends_throws]. intros n.
  destruct EVP_PKEY_new eqn:En; cbn; [|by do 4 right]. unfold scoped.
  destruct (EVP_PKEY_assign_EC_KEY k) as [e|] eqn:Ea; cbn; [|right; exists 1%nat; split_and!; [done..|by exists k]].
  destruct (X509_sign e c) as [c'|] eqn:Es; cbn; [|by left]. split; [done|]. by eapply sign_keeps.
Qed.

(** What the DER holds of a certificate before the extension was added to it. *)
Definition holds (pub ext der : bytes) : Prop :=
  pubkey_der der = pub /\ exists c, extended ext c (libp2p_extension der).

Lemma assemble_spec pub ext priv :
  ends (fun l => l = 1%nat /\ key_unassigned priv) (holds pub ext) (assemble pub ext priv).
Proof.
  unfold assemble. destruct X509_new as [c0|] eqn:En; [|intros n; by left]. apply ends_scoped.
  eapply ends_bind; [apply assignPubkey_spec|]. intros c1 [He1 (k & Hk & Hpub)].
  eapply ends_bind; [apply assignSerial_spec|]. intros c2 [He2 Hk2].
  eapply ends_bind; [apply assignIssuer_spec|]. intros c3 [He3 Hk3].
  eapply ends_bind; [apply insertExtension_spec; rewrite He3, He2, He1; by apply new_empty|]. intros c4 [He4 Hk4].
  eapply ends_bind; [apply signCertificate_spec|]. intros c5 [He5 Hk5].
  eapply ends_impl; [apply ends_or_throw|]. intros der Hd. unfold holds. cbn. rewrite (der_read _ _ Hd). cbn.
  rewrite Hk5, Hk4, Hk3, Hk2, Hk, He5. split; [done|]. by exists c3.
Qed.

Lemma built_holds pub ext priv der : build_certificate pub ext priv = Some der -> holds pub ext der.
Proof.
  cbn. intros Hb. pose proof (assemble_spec pub ext priv 0%nat) as Hs. destruct (assemble pub ext priv 0%nat) as [n' [d|f]]; [|done].
  cbn in Hb. injection Hb as <-. apply Hs.
Qed.

#[export] Instance assembled_laws : X509Laws bytes.
Proof.
  split; intros pub ext priv der Hb%built_holds; destruct Hb as [Hp (c & ex & _ & He)]; [|done].
  rewrite He. unfold octet_string. destruct (X509_add_ext ex c), (ASN1_OCTET_STRING_set ext); tauto.
Qed.

(** When no call whose result is ignored fails, the extension is in the certificate. *)
Definition ignored_calls_succeed : Prop :=
  (forall d, ASN1_OCTET_STRING_set d = true) /\ forall ex c, X509_add_ext ex c <> None.
Lemma built_with_extension pub ext priv der :
  ignored_calls_succeed -> build_certificate pub ext priv = Some der -> libp2p_extension der = Some ext.
Proof.
  intros [Hs Ha] Hb%built_holds. destruct Hb as [_ (c & ex & _ & ->)]. unfold octet_string. rewrite Hs.
  by destruct (X509_add_ext ex c) eqn:E; [|destruct (Ha ex c)].
Qed.

(** C31: the assembled certificate is what the TLS code relies on, and the objects it is
    made of are freed, whatever calls of OpenSSL fail.  When [makeCertificate] returns, the
    DER holds the key it was given and the extension made from the data it was given, unless
    one of the two calls failed whose results are ignored: then the certificate has an empty
    extension ([ASN1_OCTET_STRING_set]) or none ([X509_add_ext]); no object is left.  When it
    throws, no object is left either, except the private key that cannot be assigned.  It
    does nothing else unless a new object is null, which is used unchecked.  So the interface
    of [Tls.v] is implemented. *)
Theorem certificate_assembled :
  X509Laws bytes
  /\ (ignored_calls_succeed -> forall pub ext priv der, build_certificate pub ext priv = Some der -> libp2p_extension der = Some ext)
  /\ forall pub ext priv n,
       match assemble pub ext priv n with
       | (n', success der) => n' = n /\ pubkey_der der = pub
           /\ exists c ex, EXTENSION_create (octet_string ext) = Some ex
                /\ libp2p_extension der = match X509_add_ext ex c with Some _ => Some (octet_string ext) | None => None end
       | (n', failure throws) => n' = n \/ n' = S n /\ key_unassigned priv
       | (_, failure asserts) => False
       | (_, failure undefined) => null_object
       end.
Proof.
  split; [exact assembled_laws|]. split; [intros Hi pub ext priv der; by apply built_with_extension|].
  intros pub ext priv n. pose proof (assemble_spec pub ext priv n) as Hs. destruct (assemble pub ext priv n) as [n' [der|[]]]; [| |done..].
  - destruct Hs as (-> & Hp & c & ex & He). split_and!; [done..|]. by exists c, ex.
  - destruct Hs as [?|(l & -> & -> & Hk)]; [by left|by right].
Qed.

(** Every verification of a peer's certificate leaves a key object behind. *)
Theorem verification_leaks cert k n : X509_get_pubkey cert = Some k -> (signed_bytes cert n).1 = S n.
Proof. intros Hk. unfold signed_bytes. by rewrite Hk. Qed.

(** The application protocol is accepted exactly when the other side offers "libp2p". *)
Theorem alpn_exact offered p :
  alpnSelect offered = Some p <-> p = str "libp2p" /\ str "libp2p" ∈ names offered.
Proof.
  unfold alpnSelect. rewrite select_first. change (names kAlpn) with [str "libp2p"]. split.
  - intros (l1 & l2 & -> & Hp%list_elem_of_singleton & _). subst. split; [done|]. apply elem_of_app. right. left.
  - intros [-> Hin]. assert (exists l1 l2, names offered = l1 ++ str "libp2p" :: l2 /\ str "libp2p" ∉ l1) as (l1 & l2 & Hn & Hl).
    { induction (names offered) as [|q l IH]; [by apply not_elem_of_nil in Hin|].
      destruct (decide (q = str "libp2p")) as [->|Hq]; [exists [], l; split; [done|apply not_elem_of_nil]|].
      apply elem_of_cons in Hin as [?|Hin]; [done|]. destruct (IH Hin) as (l1 & l2 & -> & Hl). exists (q :: l1), l2.
      split; [done|]. apply not_elem_of_cons. by split. }
    exists l1, l2. split; [done|]. split; [by apply list_elem_of_singleton|]. apply Forall_forall. intros q Hq ->%list_elem_of_singleton. done.
Qed.
End Proofs.

(** ** A concrete library *)
Module ToyX509Lib.

(** A certificate is its extension and its key; options are written with a flag and a
    length. *)
Definition enc (o : option bytes) : bytes := match o with None => [0] | Some e => 1 :: Z.of_nat (length e) :: e end.
Definition dec (l : bytes) : option (option bytes * bytes) :=
  match l with
  | 0 :: l => Some (None, l)
  | 1 :: n :: l => Some (Some (take (Z.to_nat n) l), drop (Z.to_nat n) l)
  | _ => None
  end.
Lemma dec_enc o l : dec (enc o ++ l) = Some (o, l).
Proof. destruct o as [e|]; [|done]. cbn. by rewrite Nat2Z.id, take_app_length, drop_app_length. Qed.

(** An extension of three bytes cannot be added. *)
#[export] Instance toy_lib : X509Lib := {|
  x509_st := option bytes * option bytes;
  PKEY := bytes;
  ECKEY := bytes;
  EXTENSION := bytes;
  X509_new := Some (None, None);
  BN_new := true;
  ASN1_INTEGER_new := true;
  ASN1_OCTET_STRING_new := true;
  EVP_PKEY_new := true;
  BN_to_ASN1_INTEGER _ := true;
  ASN1_OCTET_STRING_set _ := true;
  X509_set_version _ c := c;
  d2i_PUBKEY b := if decide (b = []) then None else Some b;
  i2d_PUBKEY k := k;
  X509_set_pubkey k c := Some (c.1, Some k);
  X509_get_pubkey c := c.2;
  BN_pseudo_rand := Some 7;
  X509_set_serialNumber _ c := Some c;
  adjust_notBefore _ c := c;
  adjust_notAfter _ c := c;
  has_subject_name _ := true;
  add_subject_entry _ _ c := c;
  set_issuer_to_subject c := Some c;
  EXTENSION_create d := Some d;
  X509_add_ext ex c := if decide (length ex = 3%nat) then None else Some (match c.1 with Some e => Some e | None => Some ex end, c.2);
  get_libp2p_ext := fst;
  d2i_ECPrivateKey b := Some b;
  EVP_PKEY_assign_EC_KEY k := if decide (k = []) then None else Some k;
  X509_sign _ c := Some c;
  i2d_X509 c := Some (enc c.1 ++ enc c.2);
  d2i_X509 b := '(e, b) ← dec b; '(k, _) ← dec b; Some (e, k);
  SSL_select_next_proto s c := List.find (fun p => bool_decide (p ∈ names c)) (names s)
|}.
#[export] Instance toy_lib_laws : X509LibLaws.
Proof.
  split; cbn; unfold keeps; try done.
  - by intros _ c [= <-].
  - intros b k. case_decide; [done|]. by intros [= <-].
  - by intros k c c' [= <-].
  - by intros z c c' [= <-].
  - by intros c c' [= <-].
  - intros d ex c c' [= <-] Hc. case_decide; [done|]. intros [= <-]. by rewrite Hc.
  - by intros k c c' [= <-].
  - intros [e k] der [= <-]. cbn. rewrite dec_enc. cbn. rewrite <- (app_nil_r (enc k)), dec_enc. done.
  - intros s c p. induction (names s) as [|q l IH]; cbn; [split; [done|]; by intros ([|] & ? & ? & _)|].
    case_bool_decide as Hq.
    + split; [intros [= <-]; by exists [], l|]. intros ([|x l1] & l2 & Hl & Hp & Hf); simplify_eq/=; [done|].
      apply Forall_cons in Hf as [Hx _]. done.
    + rewrite IH. split.
      * intros (l1 & l2 & -> & Hp & Hf). exists (q :: l1), l2. split_and!; [done|done|by constructor].
      * intros ([|x l1] & l2 & Hl & Hp & Hf); simplify_eq/=; [done|]. apply Forall_cons in Hf as [_ Hf]. by exists l1, l2.
Qed.

Lemma certificate_assembled_witness :
  X509Laws bytes /\ libp2p_extension [1; 2; 2; 3; 1; 1; 1] = Some [2; 3] /\ libp2p_extension [0; 1; 1; 1] = None.
Proof.
  destruct certificate_assembled as (Hl & _ & Hm). split; [exact Hl|]. split.
  - pose proof (Hm [1] [2; 3] [4] 0%nat) as H. change (assemble [1] [2; 3] [4] 0%nat) with (0%nat, @success fault _ [1; 2; 2; 3; 1; 1; 1]) in H.
    destruct H as (_ & _ & c & ex & [= <-] & ->). reflexivity.
  - pose proof (Hm [1] [2; 3; 4] [4] 0%nat) as H. change (assemble [1] [2; 3; 4] [4] 0%nat) with (0%nat, @success fault _ [0; 1; 1; 1]) in H.
    destruct H as (_ & _ & c & ex & [= <-] & ->). reflexivity.
Defined.

(** [makeCertificate] returns a certificate without its extension, for which no id can be
    extracted. *)
Lemma extension_lost :
  exists der, build_certificate [1] [2; 3; 4] [4] = Some der /\ extractExtensionFields der = failure TLS_INCOMPATIBLE_CERTIFICATE_EXTENSION.
Proof. exists [0; 1; 1; 1]. split; reflexivity. Qed.

(** A certificate that is made, one to which the extension is not added, and a private key
    that cannot be assigned. *)
Lemma assembled_examples :
  assemble [1] [2; 3] [4] 0%nat = (0%nat, success [1; 2; 2; 3; 1; 1; 1])
  /\ assemble [1] [2; 3; 4] [4] 0%nat = (0%nat, success [0; 1; 1; 1])
  /\ assemble [1] [2; 3] [] 0%nat = (1%nat, failure throws).
Proof. split_and!; reflexivity. Qed.
End ToyX509Lib.
