(* ===== verification/SslContext.v ===== *)
(** * The contexts of TLS

    [security/tls/ssl_context.cpp]: the two contexts of OpenSSL, for TLS and for QUIC, that
    a host makes once from its key pair.  What the calls of Boost.Asio and OpenSSL set is
    recorded in the context; which certificates and keys OpenSSL takes, and the opening of
    files, are parameters.  [None] is an exception or undefined behaviour. *)

From S2P Require Import Prelude Varint Multihash Base58 ByteUtil PeerAddress Keys Tls Certificate.
Import Key Provider Validator Marshaller.

(** The methods of [boost::asio::ssl::context]: a version or a range of them, and the sides
    that the context can take; [tls_any] is [tls]. *)
Inductive ssl_method :=
| sslv2 | sslv2_client | sslv2_server
| sslv3 | sslv3_client | sslv3_server
| tlsv1 | tlsv1_client | tlsv1_server
| tlsv11 | tlsv11_client | tlsv11_server
| tlsv12 | tlsv12_client | tlsv12_server
| tlsv13 | tlsv13_client | tlsv13_server
| sslv23 | sslv23_client | sslv23_server
| tls_any | tls_client | tls_server.
Inductive ssl_option :=
| default_workarounds | single_dh_use | no_compression
| no_sslv2 | no_sslv3 | no_tlsv1 | no_tlsv1_1 | no_tlsv1_2 | no_tlsv1_3.
#[export] Instance ssl_option_eq_dec : EqDecision ssl_option.
Proof. solve_decision. Defined.

Inductive version := SSL2 | SSL3 | TLS1_0 | TLS1_1 | TLS1_2 | TLS1_3.
Definition method_versions (m : ssl_method) : list version :=
  match m with
  | sslv2 | sslv2_client | sslv2_server => [SSL2]
  | sslv3 | sslv3_client | sslv3_server => [SSL3]
  | tlsv1 | tlsv1_client | tlsv1_server => [TLS1_0]
  | tlsv11 | tlsv11_client | tlsv11_server => [TLS1_1]
  | tlsv12 | tlsv12_client | tlsv12_server => [TLS1_2]
  | tlsv13 | tlsv13_client | tlsv13_server => [TLS1_3]
  | sslv23 | sslv23_client | sslv23_server => [SSL2; SSL3; TLS1_0; TLS1_1; TLS1_2; TLS1_3]
  | tls_any | tls_client | tls_server => [TLS1_0; TLS1_1; TLS1_2; TLS1_3]
  end.
Definition disables (v : version) : ssl_option :=
  match v with
  | SSL2 => no_sslv2 | SSL3 => no_sslv3 | TLS1_0 => no_tlsv1
  | TLS1_1 => no_tlsv1_1 | TLS1_2 => no_tlsv1_2 | TLS1_3 => no_tlsv1_3
  end.
Inductive side := client_side | server_side.
Definition method_sides (m : ssl_method) : list side :=
  match m with
  | sslv2_client | sslv3_client | tlsv1_client | tlsv11_client | tlsv12_client | tlsv13_client | sslv23_client | tls_client => [client_side]
  | sslv2_server | sslv3_server | tlsv1_server | tlsv11_server | tlsv12_server | tlsv13_server | sslv23_server | tls_server => [server_side]
  | _ => [client_side; server_side]
  end.
Inductive verify_flag := verify_peer | verify_fail_if_no_peer_cert | verify_client_once.

Record ssl_ctx := mkSslCtx {
  method : ssl_method;
  options : list ssl_option;
  verify_mode : list verify_flag;
  (** [verifyCallback] is set *)
  verifies : bool;
  certificate_der : bytes;
  private_key_der : bytes;
  (** the keys of sessions are written to a file *)
  logs_keys : bool;
  alpn_protos : bytes;
  (** [alpnSelect] is set *)
  selects_alpn : bool
}.
(** The versions that a context speaks. *)
Definition speaks (ctx : ssl_ctx) : list version :=
  List.filter (fun v => negb (bool_decide (disables v ∈ options ctx))) (method_versions (method ctx)).
Definition set_alpn (ctx : ssl_ctx) : ssl_ctx :=
  mkSslCtx (method ctx) (options ctx) (verify_mode ctx) (verifies ctx) (certificate_der ctx) (private_key_der ctx) (logs_keys ctx) kAlpn true.

(** What OpenSSL takes as a certificate, and as the private key of a context with that
    certificate; whether a file can be opened for appending. *)
Class SslLib := {
  context_made : bool;
  takes_certificate : bytes -> bool;
  takes_private_key : bytes -> bytes -> bool;
  fopen : bytes -> bool
}.

Section Contexts.
Context `{SslLib, X509Lib, Providers, RsaDer, Protobuf}.

(** The variable [keylog]: not yet initialised, null, or a file.  [setvbuf] of a file that
    was not opened is undefined. *)
Definition keylog_init (SSLKEYLOGFILE : option bytes) : option bool :=
  match SSLKEYLOGFILE with
  | None => Some false
  | Some path => if fopen path then Some true else None
  end.

(** The lambda [make]; [keylog] is initialised by the first call. *)
Definition make (env : option bytes) (r : bytes * bytes) (keylog : option bool) : option (option bool * ssl_ctx) :=
  if negb context_made then None
  else if negb (takes_certificate r.1) then None
  else if negb (takes_private_key r.1 r.2) then None
  else
    log ← match keylog with Some f => Some f | None => keylog_init env end;
    Some (Some log, mkSslCtx tlsv13 [no_compression; no_sslv2; no_sslv3; no_tlsv1_1; no_tlsv1_2]
                      [verify_peer; verify_fail_if_no_peer_cert; verify_client_once] true r.1 r.2 log [] false).

Record SslContext := mkSslContext { tls : ssl_ctx; quic : ssl_ctx }.
(** The constructor, with the key pair of the certificate. *)
Definition SslContext_new (env : option bytes) (cert_keys : bytes * bytes) (host : KeyPair) (keylog : option bool) :
    option (option bool * SslContext) :=
  r ← makeCertificate cert_keys host;
  '(keylog, tls) ← make env r keylog;
  '(keylog, quic) ← make env r keylog;
  Some (keylog, mkSslContext tls (set_alpn quic)).

(** What a server with a context answers to the protocols that a client offers. *)
Definition alpn_answer (ctx : ssl_ctx) (offered : bytes) : option bytes := if selects_alpn ctx then alpnSelect offered else None.

(** ** Proofs *)

(** A context that speaks TLS 1.3 only, on both sides, presents the certificate, and asks the
    other side for one, which [verifyCallback] checks. *)
Definition strict (r : bytes * bytes) (ctx : ssl_ctx) : Prop :=
  (speaks ctx = [TLS1_3] /\ method_sides (method ctx) = [client_side; server_side]) /\ verify_peer ∈ verify_mode ctx /\ verify_fail_if_no_peer_cert ∈ verify_mode ctx /\ verifies ctx = true
  /\ (certificate_der ctx, private_key_der ctx) = r.

Lemma make_spec env r k k' ctx : make env r k = Some (k', ctx) ->
  strict r ctx /\ k' = Some (logs_keys ctx) /\ match k with Some f => logs_keys ctx = f | None => keylog_init env = Some (logs_keys ctx) end.
Proof.
  unfold make. destruct context_made, (takes_certificate r.1), (takes_private_key r.1 r.2); cbn [negb]; try done.
  intros Hm. assert (exists f, match k with Some f => Some f | None => keylog_init env end = Some f
    /\ k' = Some f /\ ctx = mkSslCtx tlsv13 [no_compression; no_sslv2; no_sslv3; no_tlsv1_1; no_tlsv1_2]
         [verify_peer; verify_fail_if_no_peer_cert; verify_client_once] true r.1 r.2 f [] false) as (f & Hf & -> & ->)
    by (destruct (match k with Some _ => _ | None => _ end) as [f|]; [|done]; injection Hm as <- <-; by exists f).
  split; [|split; [done|by destruct k; [injection Hf as ->|]]].
  unfold strict. cbn. split_and!; [done|set_solver..|done|by destruct r].
Qed.

Lemma SslContext_new_spec env ck host k k' c : SslContext_new env ck host k = Some (k', c) ->
  exists r, makeCertificate ck host = Some r /\ strict r (tls c) /\ strict r (quic c)
    /\ alpn_protos (quic c) = kAlpn /\ selects_alpn (quic c) = true /\ selects_alpn (tls c) = false
    /\ k' = Some (logs_keys (tls c)) /\ logs_keys (quic c) = logs_keys (tls c).
Proof.
  unfold SslContext_new. destruct (makeCertificate ck host) as [r|] eqn:Er; [|done]. cbn [mbind option_bind].
  destruct (make env r k) as [[k1 c1]|] eqn:E1; [|done]. cbn [mbind option_bind]. destruct (make env r k1) as [[k2 c2]|] eqn:E2; [|done].
  intros [= <- <-]. exists r. destruct (make_spec _ _ _ _ _ E1) as (S1 & -> & _). destruct (make_spec _ _ _ _ _ E2) as (S2 & -> & L2).
  cbn [tls quic]. split_and!; try done; cbn; [|by rewrite L2].
  unfold make in E1. destruct context_made, (takes_certificate r.1), (takes_private_key r.1 r.2); try done. cbn [negb] in E1.
  destruct (match k with Some _ => _ | None => _ end); [|done]. by injection E1 as _ <-.
Qed.
End Contexts.

Section Claims.
Context `{SslLib, X509LibLaws, ProtobufLaws, ProviderLaws}.
Context (sha256 : bytes -> bytes).

(** What a peer makes of the certificate of a host with a key pair and an id. *)
Definition seen_as (kp : KeyPair) (id : Multihash) (der : bytes) : Prop :=
  verifyPeerAndExtractIdentity sha256 der
    = Some (if extension_written der then success (publicKey kp, id) else failure TLS_INCOMPATIBLE_CERTIFICATE_EXTENSION)
  /\ (ignored_calls_succeed -> extension_written der = true).

Lemma made_seen t b kp cert_keys der sk :
  t = Ed25519 \/ t = Secp256k1 -> generateKeys t b = success kp -> bytes_ok (data (publicKey kp)) ->
  makeCertificate cert_keys kp = Some (der, sk) ->
  exists id, seen_as kp id der /\ identity_id sha256 kp = Some id.
Proof.
  intros Ht Hg Ho Hc. destruct (certificate_proves_identity sha256 t b kp cert_keys der sk Ht Hg Ho Hc) as (id & Hv & Hid).
  exists id. split; [|done]. split; [exact Hv|]. intros Hi. unfold makeCertificate in Hc.
  destruct (marshal (publicKey kp)) as [pb|]; [|done]. destruct (makeExtensionSignature _ _) as [sg|]; [|done]. cbn [mbind option_bind] in Hc.
  destruct (build_certificate _ _ _) as [d|] eqn:Hb; [|done]. injection Hc as <- _.
  unfold extension_written. by rewrite (built_with_extension _ _ _ _ Hi Hb).
Qed.

(** C10: two hosts that know nothing of each other can prove who they are.  For hosts with
    generated Ed25519 or Secp256k1 keys and any certificate keys, the contexts that they make
    speak TLS 1.3 and no other version, as client and as server, and ask the other side for a
    certificate.  The certificate that each of them presents, in TLS and in QUIC, is accepted
    by the other, which learns the host key and the id the host gives itself, when the
    extension is in it; it is, unless a call of OpenSSL failed whose result the code ignores,
    and then every peer refuses the host with TLS_INCOMPATIBLE_CERTIFICATE_EXTENSION.  In QUIC
    each side selects the protocol that the other offers, "libp2p". *)
Theorem hosts_prove_identity env t1 t2 b1 b2 kp1 kp2 ck1 ck2 k k1 k2 c1 c2 :
  (t1 = Ed25519 \/ t1 = Secp256k1) -> (t2 = Ed25519 \/ t2 = Secp256k1) ->
  generateKeys t1 b1 = success kp1 -> generateKeys t2 b2 = success kp2 ->
  bytes_ok (data (publicKey kp1)) -> bytes_ok (data (publicKey kp2)) ->
  SslContext_new env ck1 kp1 k = Some (k1, c1) -> SslContext_new env ck2 kp2 k1 = Some (k2, c2) ->
  exists id1 id2, identity_id sha256 kp1 = Some id1 /\ identity_id sha256 kp2 = Some id2
    /\ Forall (fun ctx => seen_as kp1 id1 (certificate_der ctx)) [tls c1; quic c1]
    /\ Forall (fun ctx => seen_as kp2 id2 (certificate_der ctx)) [tls c2; quic c2]
    /\ Forall (fun ctx => (speaks ctx = [TLS1_3] /\ method_sides (method ctx) = [client_side; server_side])
                         /\ verify_peer ∈ verify_mode ctx /\ verify_fail_if_no_peer_cert ∈ verify_mode ctx
                         /\ verifies ctx = true) [tls c1; quic c1; tls c2; quic c2]
    /\ alpn_answer (quic c2) (alpn_protos (quic c1)) = Some (str "libp2p")
    /\ alpn_answer (quic c1) (alpn_protos (quic c2)) = Some (str "libp2p").
Proof.
  intros Ht1 Ht2 Hg1 Hg2 Ho1 Ho2 Hn1 Hn2.
  destruct (SslContext_new_spec _ _ _ _ _ _ Hn1) as ([d1 s1] & R1 & (A1 & A2 & A3 & A4 & A5) & (B1 & B2 & B3 & B4 & B5) & P1 & S1 & _).
  destruct (SslContext_new_spec _ _ _ _ _ _ Hn2) as ([d2 s2] & R2 & (C1 & C2 & C3 & C4 & C5) & (D1 & D2 & D3 & D4 & D5) & P2 & S2 & _).
  destruct (made_seen t1 b1 kp1 ck1 d1 s1 Ht1 Hg1 Ho1 R1) as (id1 & V1 & I1).
  destruct (made_seen t2 b2 kp2 ck2 d2 s2 Ht2 Hg2 Ho2 R2) as (id2 & V2 & I2).
  injection A5 as A5 _. injection B5 as B5 _. injection C5 as C5 _. injection D5 as D5 _.
  exists id1, id2. split; [done|]. split; [done|]. rewrite !Forall_cons, !Forall_nil, A5, B5, C5, D5.
  split; [done|]. split; [done|]. split; [done|]. unfold alpn_answer. rewrite S1, S2, P1, P2.
  split; apply alpn_exact; (split; [done|by left]).
Qed.
End Claims.

(** The variable SSLKEYLOGFILE with a file that cannot be opened. *)
Lemma keylog_undefined `{SslLib, X509Lib, Providers, RsaDer, Protobuf} path ck host :
  fopen path = false -> SslContext_new (Some path) ck host None = None.
Proof.
  intros Hf. unfold SslContext_new. destruct (makeCertificate ck host) as [r|]; [|done]. cbn [mbind option_bind]. unfold make, keylog_init.
  rewrite Hf. by destruct context_made, (takes_certificate r.1), (takes_private_key r.1 r.2).
Qed.

(** ** A concrete instance *)
Module ToySsl.
Import (hints) Keys.Toy ToyX509Lib.
Import Keys.Toy.

#[export] Instance ssl_lib : SslLib := {
  context_made := true;
  takes_certificate _ := true;
  takes_private_key _ _ := true;
  fopen _ := true
}.
Definition toy_context : option (option bool * SslContext) := SslContext_new None ([5; 6], [7]) toy_keys None.

Lemma hosts_prove_identity_witness :
  exists c id, toy_context = Some (Some false, c)
    /\ identity_id (fun _ => replicate 32 7) toy_keys = Some id
    /\ verifyPeerAndExtractIdentity (fun _ => replicate 32 7) (certificate_der (quic c)) = Some (success (publicKey toy_keys, id))
    /\ speaks (quic c) = [TLS1_3].
Proof.
  destruct toy_context as [[k c]|] eqn:E; [|vm_compute in E; discriminate].
  assert (SslContext_new None ([5; 6], [7]) toy_keys k = Some (k, c)) as E2 by (vm_compute in E; injection E as <- <-; vm_compute; reflexivity).
  destruct (hosts_prove_identity (fun _ => replicate 32 7) None Ed25519 Ed25519 RSA2048 RSA2048 toy_keys toy_keys ([5; 6], [7]) ([5; 6], [7])
    None k k c c (or_introl eq_refl) (or_introl eq_refl)) as (id1 & id2 & Hid & _ & Hc & _ & Hs & _).
  - reflexivity.
  - reflexivity.
  - by apply Forall_replicate.
  - by apply Forall_replicate.
  - exact E.
  - exact E2.
  - exists c, id1. split; [|split; [exact Hid|]].
    + vm_compute in E. by injection E as <- <-.
    + rewrite !Forall_cons in Hc, Hs. destruct Hc as (_ & [Hv _] & _). destruct Hs as (_ & [[Hs _] _] & _).
      split; [|exact Hs]. vm_compute in E. injection E as <- <-. exact Hv.
Defined.
End ToySsl.
