(* ===== verification/Keccak.v ===== *)
(** * Keccak-256

    [crypto/sha/keccak.cpp], the one hash function of the program that is its own
    code: a byte-wise sponge over lanes of 64 bits.  Module [Fips] is the reference,
    the step mappings and the sponge construction of FIPS 202 on bits; the theorem
    is that the code computes it. *)

From S2P Require Import Prelude.

(** [x >> n] with an operand of 64 bits is undefined for [n >= 64]; the code does it
    for the lane that is not rotated.  What the machine yields is a parameter. *)
Class Machine := shift_out : Z -> Z.

(** A constant-folded shift gives zero, a masked one the operand. *)
Class MachineLaws `{Machine} := shift_out_spec x : shift_out x = 0 \/ shift_out x = x.

Definition lanes := list (list Z).
Definition get (a : lanes) (x y : nat) : Z := nth y (nth x a []) 0.
Definition put (a : lanes) (x y : nat) (v : Z) : lanes := alter (fun row => <[y := v]> row) x a.

Definition HASH_LEN : nat := 32.
Definition BLOCK_SIZE : nat := 200 - HASH_LEN * 2.
Definition NUM_ROUNDS : nat := 24.

Definition ROTATION : list (list nat) :=
  [[0; 36; 3; 41; 18];
   [1; 44; 10; 45; 2];
   [62; 6; 43; 15; 61];
   [28; 55; 25; 21; 56];
   [27; 20; 39; 8; 14]]%nat.
Definition rotation (x y : nat) : nat := nth y (nth x ROTATION []) 0%nat.

(** [for (x) for (y) body] *)
Definition for5 {S} (body : nat -> S -> S) (s : S) : S := fold_left (fun s x => body x s) (seq 0 5) s.

Section Permutation.
Context `{Machine}.

Definition shr64 (x : Z) (n : nat) : Z := if (n <? 64)%nat then Z.shiftr x (Z.of_nat n) else shift_out x.
Definition shl64 (x : Z) (n : nat) : Z := u64 (Z.shiftl x (Z.of_nat n)).
Definition rotl64 (x : Z) (i : nat) : Z := Z.lor (shl64 x i) (shr64 x (64 - i)).
Definition not64 (x : Z) : Z := Z.lxor x (2 ^ 64 - 1).

Definition theta (a : lanes) : lanes :=
  let c := for5 (fun x => for5 (fun y (c : list Z) => <[x := Z.lxor (nth x c 0) (get a x y)]> c)) (replicate 5 0) in
  for5 (fun x a =>
    let d := Z.lxor (nth ((x + 4) mod 5) c 0) (rotl64 (nth ((x + 1) mod 5) c 0) 1) in
    for5 (fun y a => put a x y (Z.lxor (get a x y) d)) a) a.

(** The array [b], whose cells are all assigned. *)
Definition rho_pi (a : lanes) : lanes :=
  for5 (fun x => for5 (fun y b => put b y ((x * 2 + y * 3) mod 5) (rotl64 (get a x y) (rotation x y))))
    (replicate 5 (replicate 5 0)).

Definition chi (b a : lanes) : lanes :=
  for5 (fun x => for5 (fun y a =>
    put a x y (Z.lxor (get b x y) (Z.land (not64 (get b ((x + 1) mod 5) y)) (get b ((x + 2) mod 5) y))))) a.

Definition lfsr (r : Z) : Z := u8 (Z.lxor (Z.shiftl r 1) (Z.shiftr r 7 * 0x171)).
Definition iota (s : lanes * Z) : lanes * Z :=
  fold_left (fun '(a, r) j =>
      (put a 0 0 (Z.lxor (get a 0 0) (shl64 (Z.land r 1) (2 ^ j - 1))), lfsr r))
    (seq 0 7) s.

Definition round (s : lanes * Z) : lanes * Z :=
  let '(a, r) := s in
  let a := theta a in
  let b := rho_pi a in
  let a := chi b a in
  iota (a, r).
Definition absorb (a : lanes) : lanes := (Nat.iter NUM_ROUNDS round (a, 1)).1.

(** ** The class *)

Record Keccak := mkKeccak { state : lanes; blockOff : nat }.
Definition init : Keccak := mkKeccak (replicate 5 (replicate 5 0)) 0.

(** [state[j % 5][j / 5] ^= v << ((off & 7) << 3)] with [j = off >> 3] *)
Definition xor_at (a : lanes) (off : nat) (v : Z) : lanes :=
  let j := Nat.shiftr off 3 in
  put a (j mod 5) (j / 5) (Z.lxor (get a (j mod 5) (j / 5)) (shl64 v (Nat.shiftl (Nat.land off 7) 3))).

Definition update_byte (k : Keccak) (byte : Z) : Keccak :=
  let a := xor_at (state k) (blockOff k) byte in
  let off := S (blockOff k) in
  if (off =? BLOCK_SIZE)%nat then mkKeccak (absorb a) 0 else mkKeccak a off.
Definition update (k : Keccak) (input : bytes) : Keccak := fold_left update_byte input k.

Definition finalize (k : Keccak) : bytes * Keccak :=
  let a := xor_at (state k) (blockOff k) 0x01 in
  let off := (BLOCK_SIZE - 1)%nat in
  let a := absorb (xor_at a off 0x80) in
  (map (fun i => let j := Nat.shiftr i 3 in
          u8 (shr64 (get a (j mod 5) (j / 5)) (Nat.shiftl (Nat.land i 7) 3))) (seq 0 HASH_LEN),
   mkKeccak a off).

(** [hash() const] works on a copy. *)
Definition hash_now (k : Keccak) : bytes := (finalize k).1.
Definition hash (input : bytes) : bytes := hash_now (update init input).
End Permutation.

(** ** FIPS 202 *)

Module Fips.
(** [A[x, y, z]] *)
Definition array := nat -> nat -> nat -> bool.

(** Section 3.2: the step mappings, with [w = 64]. *)
Definition C (A : array) (x z : nat) : bool :=
  xorb (xorb (xorb (xorb (A x 0%nat z) (A x 1%nat z)) (A x 2%nat z)) (A x 3%nat z)) (A x 4%nat z).
Definition D (A : array) (x z : nat) : bool := xorb (C A ((x + 4) mod 5) z) (C A ((x + 1) mod 5) ((z + 63) mod 64)).
Definition theta (A : array) : array := fun x y z => xorb (A x y z) (D A x z).

(** The walk of Algorithm 2 and the offset it assigns to each lane. *)
Fixpoint walk (t : nat) : nat * nat :=
  match t with
  | 0%nat => (1, 0)%nat
  | S t => let '(x, y) := walk t in (y, (2 * x + 3 * y) mod 5)%nat
  end.
Definition offset (x y : nat) : nat :=
  match List.find (fun t => bool_decide (walk t = (x, y))) (seq 0 24) with
  | Some t => ((t + 1) * (t + 2) / 2)%nat
  | None => 0%nat
  end.
Definition rho (A : array) : array := fun x y z => A x y ((z + 64 * 6 - offset x y) mod 64)%nat.
Definition pi (A : array) : array := fun x y z => A ((x + 3 * y) mod 5)%nat x z.
Definition chi (A : array) : array :=
  fun x y z => xorb (A x y z) (xorb (A ((x + 1) mod 5)%nat y z) true && A ((x + 2) mod 5)%nat y z).

(** Algorithm 5: the bit [rc(t)]. *)
Definition rc_step (R : list bool) : list bool :=
  let R := false :: R in
  let r8 := nth 8 R false in
  let flip i R := <[i := xorb (nth i R false) r8]> R in
  take 8 (flip 6%nat (flip 5%nat (flip 4%nat (flip 0%nat R)))).
Definition rc (t : nat) : bool :=
  nth 0 (Nat.iter (t mod 255) rc_step (true :: replicate 7 false)) false.
(** Algorithm 6: bit [z] of the round constant. *)
Definition RC (ir z : nat) : bool :=
  existsb (fun j => (z =? 2 ^ j - 1)%nat && rc (j + 7 * ir)) (seq 0 7).
Definition iota (ir : nat) (A : array) : array :=
  fun x y z => if ((x =? 0) && (y =? 0))%nat then xorb (A x y z) (RC ir z) else A x y z.

Definition Rnd (A : array) (ir : nat) : array := iota ir (chi (pi (rho (theta A)))).
(** Keccak-f[1600] *)
Definition keccak_f (A : array) : array := fold_left Rnd (seq 0 24) A.

(** Section 4 and 5.1: the sponge with rate [r = 1088] and the padding [pad10*1]. *)
Definition rate : nat := 1088.
Definition pad (m : nat) : list bool := true :: replicate ((2 * rate - 2 - m mod rate) mod rate) false ++ [true].
Definition index (x y z : nat) : nat := (64 * (5 * y + x) + z)%nat.
Definition block (P : list bool) (i : nat) : array :=
  fun x y z => if (index x y z <? rate)%nat then nth (rate * i + index x y z) P false else false.
Definition add (A B : array) : array := fun x y z => xorb (A x y z) (B x y z).
Fixpoint absorbed (P : list bool) (n : nat) : array :=
  match n with
  | 0%nat => fun _ _ _ => false
  | S n => keccak_f (add (absorbed P n) (block P n))
  end.
Definition trunc (d : nat) (A : array) : list bool :=
  map (fun k => A ((k / 64) mod 5) (k / 320) (k mod 64))%nat (seq 0 d).
(** KECCAK[512] with 256 bits of output *)
Definition keccak256 (M : list bool) : list bool :=
  let P := M ++ pad (length M) in
  trunc 256 (absorbed P (length P / rate)).
End Fips.

(** Bytes as bit strings, the least significant bit first (FIPS 202, B.1). *)
Definition bits_of_byte (b : Z) : list bool := map (fun i => Z.testbit b (Z.of_nat i)) (seq 0 8).
Definition bits_of_bytes (m : bytes) : list bool := concat (map bits_of_byte m).

(** The array a matrix of lanes stands for. *)
Definition bits (a : lanes) : Fips.array := fun x y z => Z.testbit (get a x y) (Z.of_nat z).

(** ** Lanes of 64 bits *)

(** Arithmetic with division and remainder on [nat]. *)
Ltac natdiv := zify; Z.to_euclidean_division_equations; lia.

Lemma is_u64_bits x : 0 <= x -> (forall k, 64 <= k -> Z.testbit x k = false) -> is_u64 x.
Proof.
  intros Hx Hk. replace x with (u64 x); [auto with p2p|]. unfold u64. apply Z.bits_inj'. intros k Hk0.
  destruct (decide (k < 64)); [by apply Z.mod_pow2_bits_low|].
  rewrite Z.mod_pow2_bits_high by lia. by rewrite Hk by lia.
Qed.

Lemma u64_high x k : is_u64 x -> 64 <= k -> Z.testbit x k = false.
Proof. intros Hx Hk. rewrite <- (u64_id x Hx). unfold u64. apply Z.mod_pow2_bits_high. lia. Qed.

Lemma u64_op (op : Z -> Z -> Z) (f : bool -> bool -> bool) x y :
  (forall a b k, Z.testbit (op a b) k = f (Z.testbit a k) (Z.testbit b k)) -> f false false = false ->
  (0 <= x -> 0 <= y -> 0 <= op x y) -> is_u64 x -> is_u64 y -> is_u64 (op x y).
Proof.
  intros Hop Hf Hp Hx Hy. apply is_u64_bits; [apply Hp; unfold is_u64 in *; lia|].
  intros k Hk. by rewrite Hop, !u64_high.
Qed.

Lemma u64_lxor x y : is_u64 x -> is_u64 y -> is_u64 (Z.lxor x y).
Proof. apply (u64_op Z.lxor xorb); [apply Z.lxor_spec|done|]. intros. by apply Z.lxor_nonneg. Qed.
Lemma u64_lor x y : is_u64 x -> is_u64 y -> is_u64 (Z.lor x y).
Proof. apply (u64_op Z.lor orb); [apply Z.lor_spec|done|]. intros. by apply Z.lor_nonneg. Qed.
Lemma u64_land x y : is_u64 x -> is_u64 y -> is_u64 (Z.land x y).
Proof. apply (u64_op Z.land andb); [apply Z.land_spec|done|]. intros. apply Z.land_nonneg. tauto. Qed.
Lemma u64_ones : is_u64 (2 ^ 64 - 1).
Proof. by unfold is_u64. Qed.
Lemma u64_shl x n : is_u64 (shl64 x n).
Proof. unfold shl64. auto with p2p. Qed.
Lemma u64_zero : is_u64 0.
Proof. by unfold is_u64. Qed.
#[local] Hint Resolve u64_lxor u64_lor u64_land u64_ones u64_shl u64_zero : p2p.

Lemma not64_bit x z : (z < 64)%nat -> Z.testbit (not64 x) (Z.of_nat z) = negb (Z.testbit x (Z.of_nat z)).
Proof.
  intros Hz. unfold not64. replace (2 ^ 64 - 1) with (Z.ones 64) by done.
  rewrite Z.lxor_spec, Z.ones_spec_low by lia. by destruct (Z.testbit _ _).
Qed.

Lemma shl64_bit x n z :
  (z < 64)%nat -> Z.testbit (shl64 x n) (Z.of_nat z) = ((n <=? z)%nat && Z.testbit x (Z.of_nat (z - n))).
Proof.
  intros Hz. unfold shl64, u64. rewrite Z.mod_pow2_bits_low by lia. destruct (Nat.leb_spec n z).
  - rewrite Z.shiftl_spec by lia. cbn [andb]. f_equal. lia.
  - apply Z.shiftl_spec_low. lia.
Qed.

Section Bits.
Context `{MachineLaws}.

Lemma shr64_bit x n z :
  (n < 64)%nat -> Z.testbit (shr64 x n) (Z.of_nat z) = Z.testbit x (Z.of_nat (z + n)).
Proof.
  intros Hn. unfold shr64. rewrite (proj2 (Nat.ltb_lt n 64)) by lia. rewrite Z.shiftr_spec by lia. f_equal. lia.
Qed.

Lemma rotl64_zero x : is_u64 x -> rotl64 x 0 = x.
Proof.
  intros Hx. unfold rotl64, shl64, shr64. cbn [Nat.sub Nat.ltb Nat.leb]. rewrite Z.shiftl_0_r, u64_id by done.
  destruct (shift_out_spec x) as [-> | ->]; [apply Z.lor_0_r|apply Z.lor_diag].
Qed.

Lemma u64_rotl x i : is_u64 x -> is_u64 (rotl64 x i).
Proof.
  intros Hx. unfold rotl64. apply u64_lor; [auto with p2p|]. unfold shr64.
  destruct (Nat.ltb_spec (64 - i) 64); [|by destruct (shift_out_spec x) as [-> | ->]; auto with p2p].
  apply is_u64_bits; [apply Z.shiftr_nonneg; unfold is_u64 in *; lia|].
  intros k Hk. rewrite Z.shiftr_spec by lia. apply u64_high; [done|lia].
Qed.

Lemma rotl64_bit x i z :
  is_u64 x -> (i < 64)%nat -> (z < 64)%nat ->
  Z.testbit (rotl64 x i) (Z.of_nat z) = Z.testbit x (Z.of_nat ((z + (64 - i)) mod 64)).
Proof.
  intros Hx Hi Hz. destruct (decide (i = 0%nat)) as [->|Hi0].
  - rewrite rotl64_zero by done. do 2 f_equal. natdiv.
  - unfold rotl64. rewrite Z.lor_spec, shl64_bit, shr64_bit by (done || lia). destruct (Nat.leb_spec i z).
    + rewrite (u64_high x (Z.of_nat (z + (64 - i)))) by (done || lia). rewrite orb_false_r. cbn [andb]. do 2 f_equal. natdiv.
    + cbn [andb orb]. do 2 f_equal. natdiv.
Qed.
End Bits.
#[local] Hint Resolve u64_rotl : p2p.

(** ** The step mappings *)

Definition mat (f : nat -> nat -> Z) : lanes := map (fun x => map (f x) (seq 0 5)) (seq 0 5).
Definition ok (f : nat -> nat -> Z) : Prop := forall x y, is_u64 (f x y).

(** Two arrays with the same bits. *)
Definition same (A B : Fips.array) : Prop :=
  forall x y z, (x < 5)%nat -> (y < 5)%nat -> (z < 64)%nat -> A x y z = B x y z.
Definition bitsf (f : nat -> nat -> Z) : Fips.array := fun x y z => Z.testbit (f x y) (Z.of_nat z).

#[local] Instance same_equiv : Equivalence same.
Proof.
  split; [done|intros A B HA x y z Hx Hy Hz; by rewrite HA|].
  intros A B D HA HB x y z Hx Hy Hz. by rewrite HA, HB.
Qed.

Lemma get_mat f x y : (x < 5)%nat -> (y < 5)%nat -> get (mat f) x y = f x y.
Proof. intros Hx Hy. by do 5 (destruct x as [|x]; [do 5 (destruct y as [|y]; [done|]); lia|]); lia. Qed.

Lemma mat_get a : length a = 5%nat -> Forall (fun row => length row = 5%nat) a -> a = mat (get a).
Proof.
  intros Ha Hr. do 5 (destruct a as [|? a]; [done|]). destruct a; [|done].
  rewrite !Forall_cons in Hr. destruct Hr as (H0 & H1 & H2 & H3 & H4 & _).
  do 5 (destruct l as [|? l]; [done|]). do 5 (destruct l0 as [|? l0]; [done|]). do 5 (destruct l1 as [|? l1]; [done|]).
  do 5 (destruct l2 as [|? l2]; [done|]). do 5 (destruct l3 as [|? l3]; [done|]).
  by destruct l, l0, l1, l2, l3.
Qed.

(** Every step of the reference respects [same]. *)
#[local] Instance C_proper : Proper (same ==> fun f g => forall x z, (x < 5)%nat -> (z < 64)%nat -> f x z = g x z) Fips.C.
Proof. intros A B HA x z Hx Hz. unfold Fips.C. by rewrite !HA by natdiv. Qed.
#[local] Instance theta_proper : Proper (same ==> same) Fips.theta.
Proof. intros A B HA x y z Hx Hy Hz. unfold Fips.theta, Fips.D. by rewrite HA, !(C_proper A B HA) by natdiv. Qed.
#[local] Instance rho_proper : Proper (same ==> same) Fips.rho.
Proof. intros A B HA x y z Hx Hy Hz. unfold Fips.rho. apply HA; natdiv. Qed.
#[local] Instance pi_proper : Proper (same ==> same) Fips.pi.
Proof. intros A B HA x y z Hx Hy Hz. unfold Fips.pi. apply HA; natdiv. Qed.
#[local] Instance chi_proper : Proper (same ==> same) Fips.chi.
Proof. intros A B HA x y z Hx Hy Hz. unfold Fips.chi. by rewrite !HA by natdiv. Qed.
#[local] Instance iota_proper ir : Proper (same ==> same) (Fips.iota ir).
Proof. intros A B HA x y z Hx Hy Hz. unfold Fips.iota. by rewrite !HA by natdiv. Qed.
#[local] Instance round_proper : Proper (same ==> eq ==> same) Fips.Rnd.
Proof. intros A B HA i ? <-. unfold Fips.Rnd. by rewrite HA. Qed.
#[local] Instance keccak_f_proper : Proper (same ==> same) Fips.keccak_f.
Proof.
  unfold Fips.keccak_f. intros A B. generalize (seq 0 24). intros l. revert A B.
  induction l as [|i l IH]; intros A B HA; [done|]. cbn [fold_left]. apply IH. by rewrite HA.
Qed.
#[local] Instance add_proper : Proper (same ==> same ==> same) Fips.add.
Proof. intros A B HA A' B' HA' x y z Hx Hy Hz. unfold Fips.add. by rewrite HA, HA'. Qed.

(** The lanes after each step. *)
Section Steps.
Context `{MachineLaws}.

Definition parity (f : nat -> nat -> Z) (x : nat) : Z :=
  Z.lxor (Z.lxor (Z.lxor (Z.lxor (f x 0%nat) (f x 1%nat)) (f x 2%nat)) (f x 3%nat)) (f x 4%nat).
Definition theta_lane (f : nat -> nat -> Z) (x y : nat) : Z :=
  Z.lxor (f x y) (Z.lxor (parity f ((x + 4) mod 5)) (rotl64 (parity f ((x + 1) mod 5)) 1)).
Definition rho_pi_lane (f : nat -> nat -> Z) (x y : nat) : Z :=
  let x' := ((x + 3 * y) mod 5)%nat in rotl64 (f x' x) (rotation x' x).
Definition chi_lane (f : nat -> nat -> Z) (x y : nat) : Z :=
  Z.lxor (f x y) (Z.land (not64 (f ((x + 1) mod 5)%nat y)) (f ((x + 2) mod 5)%nat y)).
Definition iota_lane (r : Z) (f : nat -> nat -> Z) (x y : nat) : Z :=
  if ((x =? 0) && (y =? 0))%nat
  then fold_left (fun v j => Z.lxor v (shl64 (Z.land (Nat.iter j lfsr r) 1) (2 ^ j - 1))) (seq 0 7) (f x y)
  else f x y.

Lemma theta_mat f : theta (mat f) = mat (theta_lane f).
Proof. cbv -[Z.lxor rotl64]. rewrite !Z.lxor_0_l. reflexivity. Qed.
Lemma rho_pi_mat f : rho_pi (mat f) = mat (rho_pi_lane f).
Proof. cbv -[rotl64]. reflexivity. Qed.
Lemma chi_mat f g : chi (mat f) (mat g) = mat (chi_lane f).
Proof. cbv -[Z.lxor Z.land not64]. reflexivity. Qed.
Lemma iota_mat f r : iota (mat f, r) = (mat (iota_lane r f), Nat.iter 7 lfsr r).
Proof. cbv -[Z.lxor Z.land shl64 lfsr]. reflexivity. Qed.

Lemma parity_bit f x z : Z.testbit (parity f x) (Z.of_nat z) = Fips.C (bitsf f) x z.
Proof. unfold parity, Fips.C, bitsf. by rewrite !Z.lxor_spec. Qed.
Lemma ok_parity f x : ok f -> is_u64 (parity f x).
Proof. intros Hf. unfold parity. auto 10 with p2p. Qed.

Lemma theta_bits f : ok f -> ok (theta_lane f) /\ same (bitsf (theta_lane f)) (Fips.theta (bitsf f)).
Proof.
  intros Hf. pose proof (ok_parity f) as Hp. split; [intros x y; unfold theta_lane; auto 10 with p2p|].
  intros x y z Hx Hy Hz. unfold bitsf at 1, theta_lane, Fips.theta, Fips.D.
  rewrite !Z.lxor_spec, rotl64_bit, !parity_bit by (auto || lia). done.
Qed.

Lemma offset_rotation x y : (x < 5)%nat -> (y < 5)%nat -> (Fips.offset x y mod 64 = rotation x y /\ Fips.offset x y <= 300)%nat.
Proof.
  intros Hx Hy.
  assert (forallb (fun x => forallb (fun y => (Fips.offset x y mod 64 =? rotation x y)%nat && (Fips.offset x y <=? 300)%nat)
            (seq 0 5)) (seq 0 5) = true) as Hc by (vm_compute; reflexivity).
  rewrite forallb_forall in Hc. specialize (Hc x ltac:(apply in_seq; lia)).
  rewrite forallb_forall in Hc. specialize (Hc y ltac:(apply in_seq; lia)).
  apply andb_prop in Hc as [Hm Hl]. by apply Nat.eqb_eq in Hm; apply Nat.leb_le in Hl.
Qed.

Lemma rho_pi_bits f : ok f -> ok (rho_pi_lane f) /\ same (bitsf (rho_pi_lane f)) (Fips.pi (Fips.rho (bitsf f))).
Proof.
  intros Hf. split; [intros x y; unfold rho_pi_lane; auto with p2p|].
  intros x y z Hx Hy Hz. unfold bitsf at 1, rho_pi_lane, Fips.pi, Fips.rho.
  set (x' := ((x + 3 * y) mod 5)%nat). assert (x' < 5)%nat as Hx' by (unfold x'; natdiv).
  destruct (offset_rotation x' x Hx' Hx) as [Hr Ho]. rewrite rotl64_bit by (auto || natdiv).
  unfold bitsf. do 2 f_equal. rewrite <- Hr. natdiv.
Qed.

Lemma chi_bits f : ok f -> ok (chi_lane f) /\ same (bitsf (chi_lane f)) (Fips.chi (bitsf f)).
Proof.
  intros Hf. split; [intros x y; unfold chi_lane, not64; auto 10 with p2p|].
  intros x y z Hx Hy Hz. unfold bitsf at 1, chi_lane, Fips.chi. rewrite Z.lxor_spec, Z.land_spec, not64_bit by done.
  unfold bitsf. by rewrite xorb_true_r.
Qed.

(** The register of the code holds the string [R] of Algorithm 5. *)
Lemma lfsr_step r : is_byte r -> bits_of_byte (lfsr r) = Fips.rc_step (bits_of_byte r).
Proof.
  intros Hr. apply (bool_decide_eq_true_1 (bits_of_byte (lfsr r) = Fips.rc_step (bits_of_byte r))).
  refine (forall_byte (fun r => bool_decide (bits_of_byte (lfsr r) = Fips.rc_step (bits_of_byte r))) r _ Hr).
  vm_compute. reflexivity.
Qed.

Lemma lfsr_iter t :
  is_byte (Nat.iter t lfsr 1)
  /\ bits_of_byte (Nat.iter t lfsr 1) = Nat.iter t Fips.rc_step (true :: replicate 7 false).
Proof.
  induction t as [|t [Hb IH]]; [done|]. cbn [Nat.iter nat_rect]. split; [unfold lfsr; auto with p2p|].
  rewrite lfsr_step by done. f_equal. exact IH.
Qed.

Lemma rc_bit t : (t < 255)%nat -> Fips.rc t = Z.testbit (Nat.iter t lfsr 1) 0.
Proof.
  intros Ht. unfold Fips.rc. rewrite Nat.mod_small by done. rewrite <- (proj2 (lfsr_iter t)). done.
Qed.

Lemma rc_lane_bit r n z : (z < 64)%nat -> (n < 64)%nat ->
  Z.testbit (shl64 (Z.land r 1) n) (Z.of_nat z) = ((z =? n)%nat && Z.testbit r 0).
Proof.
  intros Hz Hn. rewrite shl64_bit, Z.land_spec by done. destruct (Nat.eqb_spec z n) as [->|Hne].
  - rewrite Nat.leb_refl, Nat.sub_diag. cbn [andb]. apply andb_true_r.
  - destruct (Nat.leb_spec n z); [|done]. replace (Z.testbit 1 (Z.of_nat (z - n))) with false; [by rewrite andb_false_r|].
    symmetry. apply (Z.testbit_false 1); [lia|]. rewrite Z.div_small; [done|]. split; [lia|]. apply Z.pow_gt_1; lia.
Qed.

Lemma iota_bits f ir :
  ok f -> (ir < 24)%nat ->
  let r := Nat.iter (7 * ir) lfsr 1 in
  ok (iota_lane r f) /\ same (bitsf (iota_lane r f)) (Fips.iota ir (bitsf f)).
Proof.
  intros Hf Hi r. split.
  { intros x y. unfold iota_lane. destruct (_ && _)%bool; [cbn [seq fold_left]; auto 20 with p2p|auto]. }
  intros x y z Hx Hy Hz. unfold bitsf at 1, iota_lane, Fips.iota. destruct (_ && _)%bool; [|done].
  unfold Fips.RC. cbn [seq fold_left existsb]. rewrite !Z.lxor_spec, !rc_lane_bit by (done || cbn; lia).
  unfold r. rewrite <- !Nat.iter_add, !rc_bit by lia. unfold bitsf.
  generalize (Z.testbit (f x y) (Z.of_nat z)). intros b.
  do 7 (match goal with |- context [Z.testbit (Nat.iter ?n lfsr 1) 0] => generalize (Z.testbit (Nat.iter n lfsr 1) 0); intros ? end).
  clear - Hz. cbn [Nat.pow Nat.mul Nat.add Nat.sub].
  repeat match goal with
  | |- context [(?z =? ?n)%nat] =>
      destruct (Nat.eqb_spec z n) as [->|?]; [cbn [Nat.eqb andb]; rewrite ?xorb_false_r, ?orb_false_r; reflexivity|]
  end.
  cbn [andb orb]. by rewrite !xorb_false_r.
Qed.

Lemma rounds_bits f n :
  ok f -> (n <= 24)%nat ->
  exists g, Nat.iter n round (mat f, 1) = (mat g, Nat.iter (7 * n) lfsr 1) /\ ok g
    /\ same (bitsf g) (fold_left Fips.Rnd (seq 0 n) (bitsf f)).
Proof.
  intros Hf. induction n as [|n IH]; intros Hn; [by exists f|].
  destruct IH as (g & Hg & Hok & Hs); [lia|]. rewrite Nat.iter_succ, Hg.
  unfold round. rewrite theta_mat, rho_pi_mat, chi_mat, iota_mat.
  destruct (theta_bits g Hok) as [Hok1 Hs1]. destruct (rho_pi_bits _ Hok1) as [Hok2 Hs2].
  destruct (chi_bits _ Hok2) as [Hok3 Hs3]. destruct (iota_bits _ n Hok3 ltac:(lia)) as [Hok4 Hs4].
  eexists. split; [|split; [exact Hok4|]].
  - f_equal. rewrite <- Nat.iter_add. f_equal. lia.
  - rewrite seq_S, fold_left_app. cbn [fold_left Nat.add]. unfold Fips.Rnd. by rewrite Hs4, Hs3, Hs2, Hs1, Hs.
Qed.

Lemma absorb_bits f :
  ok f -> exists g, absorb (mat f) = mat g /\ ok g /\ same (bitsf g) (Fips.keccak_f (bitsf f)).
Proof.
  intros Hf. destruct (rounds_bits f 24 Hf ltac:(lia)) as (g & Hg & Hok & Hs). exists g.
  split; [exact (f_equal fst Hg)|]. split; [exact Hok|exact Hs].
Qed.

Lemma put_mat f x y v :
  (x < 5)%nat -> (y < 5)%nat ->
  put (mat f) x y v = mat (fun x' y' => if (x' =? x)%nat && (y' =? y)%nat then v else f x' y').
Proof. intros Hx Hy. by do 5 (destruct x as [|x]; [do 5 (destruct y as [|y]; [reflexivity|]); lia|]); lia. Qed.

(** Byte [off] of the state, as an array of its own. *)
Definition byte_array (off : nat) (v : Z) : Fips.array :=
  fun x y z => (Fips.index x y z / 8 =? off)%nat && Z.testbit v (Z.of_nat (Fips.index x y z mod 8)).

Lemma shiftr3 n : Nat.shiftr n 3 = (n / 8)%nat.
Proof. by rewrite Nat.shiftr_div_pow2. Qed.
Lemma land7 n : Nat.shiftl (Nat.land n 7) 3 = (8 * (n mod 8))%nat.
Proof. rewrite Nat.shiftl_mul_pow2. change 7%nat with (Nat.ones 3). rewrite Nat.land_ones. change (2 ^ 3)%nat with 8%nat. apply Nat.mul_comm. Qed.

Lemma byte_high v k : is_byte v -> 8 <= k -> Z.testbit v k = false.
Proof. intros Hv Hk. rewrite <- (u8_id v Hv). apply Z.mod_pow2_bits_high. lia. Qed.

Lemma xor_at_bits f off v :
  ok f -> (off < 136)%nat -> is_byte v ->
  exists g, xor_at (mat f) off v = mat g /\ ok g /\ same (bitsf g) (Fips.add (bitsf f) (byte_array off v)).
Proof.
  intros Hf Ho Hv. unfold xor_at. rewrite shiftr3, land7. set (j := (off / 8)%nat).
  assert (j mod 5 < 5 /\ j / 5 < 5)%nat as [Hjx Hjy] by (unfold j; natdiv).
  rewrite put_mat, get_mat by done. eexists. split; [reflexivity|]. split.
  - intros x y. destruct (_ && _)%bool; auto with p2p.
  - intros x y z Hx Hy Hz. unfold bitsf, Fips.add, byte_array, Fips.index.
    set (k := (64 * (5 * y + x) + z)%nat).
    destruct (Nat.eqb_spec x (j mod 5)) as [->|Hne]; [destruct (Nat.eqb_spec y (j / 5)) as [->|Hne]|].
    + cbn [andb]. rewrite Z.lxor_spec, shl64_bit by done. f_equal.
      assert (k = 64 * j + z)%nat as -> by (unfold k; natdiv). unfold j.
      destruct (Nat.leb_spec (8 * (off mod 8)) z) as [Hle|Hlt].
      * destruct (Nat.eqb_spec ((64 * (off / 8) + z) / 8) off) as [He|He]; cbn [andb].
        -- do 2 f_equal. natdiv.
        -- apply byte_high; [done|]. natdiv.
      * cbn [andb]. replace ((64 * (off / 8) + z) / 8 =? off)%nat with false; [done|].
        symmetry. apply Nat.eqb_neq. natdiv.
    + rewrite andb_false_r. replace (k / 8 =? off)%nat with false; [by rewrite xorb_false_r|].
      symmetry. apply Nat.eqb_neq. unfold k, j in *. natdiv.
    + cbn [andb]. replace (k / 8 =? off)%nat with false; [by rewrite xorb_false_r|].
      symmetry. apply Nat.eqb_neq. unfold k, j in *. natdiv.
Qed.
End Steps.

(** ** Bit strings *)

Lemma length_bits m : length (bits_of_bytes m) = (8 * length m)%nat.
Proof. induction m as [|b m IH]; [done|]. unfold bits_of_bytes in *. cbn [map concat]. rewrite length_app, IH. cbn. lia. Qed.

Lemma nth_bits m i :
  nth i (bits_of_bytes m) false = Z.testbit (nth (i / 8) m 0) (Z.of_nat (i mod 8)).
Proof.
  revert i. induction m as [|b m IH]; intros i.
  - by destruct i, (_ / 8)%nat; rewrite Z.testbit_0_l.
  - unfold bits_of_bytes. cbn [map concat]. destruct (decide (i < 8)%nat) as [Hi|Hi].
    + rewrite app_nth1, Nat.div_small, Nat.mod_small by (done || cbn; lia). cbn [nth].
      by do 8 (destruct i as [|i]; [done|]); lia.
    + rewrite app_nth2 by (cbn; lia). change (length (bits_of_byte b)) with 8%nat.
      change (concat _) with (bits_of_bytes m). rewrite IH.
      replace (i / 8)%nat with (S ((i - 8) / 8)) by natdiv. cbn [nth]. do 2 f_equal. natdiv.
Qed.

Lemma bits_app m m' : bits_of_bytes (m ++ m') = bits_of_bytes m ++ bits_of_bytes m'.
Proof. unfold bits_of_bytes. by rewrite map_app, concat_app. Qed.

Lemma absorbed_ext P P' n :
  (forall i, (i < 1088 * n)%nat -> nth i P false = nth i P' false) -> same (Fips.absorbed P n) (Fips.absorbed P' n).
Proof.
  induction n as [|n IH]; intros HP; [done|]. cbn [Fips.absorbed]. apply keccak_f_proper, add_proper.
  - apply IH. intros i Hi. apply HP. lia.
  - intros x y z Hx Hy Hz. unfold Fips.block, Fips.rate. destruct (Nat.ltb_spec (Fips.index x y z) 1088); [|done].
    apply HP. lia.
Qed.

(** ** The sponge *)

Section Sponge.
Context `{MachineLaws}.

(** What an object holds after the bytes [M]: the full blocks went through the
    permutation, the rest is added to the state. *)
Definition holds (M : bytes) (k : Keccak) : Prop :=
  let q := (length M / 136)%nat in
  exists f, state k = mat f /\ ok f /\ blockOff k = (length M mod 136)%nat
    /\ same (bitsf f) (Fips.add (Fips.absorbed (bits_of_bytes M) q) (Fips.block (bits_of_bytes M) q)).

Lemma block_byte M q b :
  (length M / 136 = q)%nat ->
  same (Fips.add (Fips.add (Fips.absorbed (bits_of_bytes M) q) (Fips.block (bits_of_bytes M) q))
          (byte_array (length M mod 136) b))
    (Fips.add (Fips.absorbed (bits_of_bytes (M ++ [b])) q) (Fips.block (bits_of_bytes (M ++ [b])) q)).
Proof.
  intros Hq x y z Hx Hy Hz. unfold Fips.add. rewrite (absorbed_ext (bits_of_bytes M) (bits_of_bytes (M ++ [b])) q); try done.
  - rewrite xorb_assoc. f_equal. unfold Fips.block, byte_array, Fips.rate. set (k := Fips.index x y z).
    destruct (Nat.ltb_spec k 1088) as [Hk|Hk].
    + rewrite !nth_bits. replace ((1088 * q + k) / 8)%nat with (136 * q + k / 8)%nat by natdiv.
      replace ((1088 * q + k) mod 8)%nat with (k mod 8)%nat by natdiv.
      destruct (Nat.eqb_spec (k / 8) (length M mod 136)) as [He|He]; cbn [andb].
      * replace (136 * q + k / 8)%nat with (length M) by natdiv.
        rewrite (nth_overflow M), nth_middle, Z.testbit_0_l by lia. apply xorb_false_l.
      * rewrite xorb_false_r. f_equal. destruct (decide (136 * q + k / 8 < length M)%nat).
        -- by rewrite app_nth1.
        -- rewrite !nth_overflow; [done|rewrite length_app; cbn [length]; natdiv|lia].
    + replace (k / 8 =? length M mod 136)%nat with false; [done|]. symmetry. apply Nat.eqb_neq. natdiv.
  - intros i Hi. rewrite bits_app, app_nth1; [done|]. rewrite length_bits. natdiv.
Qed.

Lemma block_end M n : (length M <= 136 * n)%nat -> same (Fips.block (bits_of_bytes M) n) (fun _ _ _ => false).
Proof.
  intros Hn x y z Hx Hy Hz. unfold Fips.block, Fips.rate. destruct (Nat.ltb _ _); [|done].
  apply nth_overflow. rewrite length_bits. lia.
Qed.

Lemma holds_init : holds [] init.
Proof.
  exists (fun _ _ => 0). split_and!; [done|intros x y; apply u64_zero|done|].
  intros x y z Hx Hy Hz. unfold bitsf, Fips.add, Fips.block. rewrite Z.testbit_0_l. cbn [Fips.absorbed bits_of_bytes map concat].
  destruct (Nat.ltb _ _); [|done]. by rewrite nth_overflow by (cbn; lia).
Qed.

Lemma holds_byte M k b : holds M k -> is_byte b -> holds (M ++ [b]) (update_byte k b).
Proof.
  intros (f & Hf & Hok & Ho & Hs) Hb. unfold update_byte, holds. rewrite Hf, Ho, length_app. cbn [length].
  destruct (xor_at_bits f (length M mod 136) b Hok ltac:(natdiv) Hb) as (g & -> & Hg & Hgs).
  rewrite Hs, block_byte in Hgs by done. change BLOCK_SIZE with 136%nat.
  destruct (Nat.eqb_spec (S (length M mod 136)) 136) as [He|He].
  - destruct (absorb_bits g Hg) as (h & -> & Hh & Hhs). exists h. split_and!; [done|done|cbn [blockOff]; natdiv|].
    replace ((length M + 1) / 136)%nat with (S (length M / 136)) by natdiv.
    assert (length (M ++ [b]) <= 136 * S (length M / 136))%nat as Hl by (rewrite length_app; cbn [length]; natdiv).
    pose proof (block_end (M ++ [b]) _ Hl) as Hend. rewrite Hhs, Hgs, Hend. cbn [Fips.absorbed].
    intros x y z Hx Hy Hz. unfold Fips.add at 2. by rewrite xorb_false_r.
  - exists g. split_and!; [done|done|cbn [blockOff]; natdiv|].
    by replace ((length M + 1) / 136)%nat with (length M / 136)%nat by natdiv.
Qed.

Lemma holds_update M k m : holds M k -> bytes_ok m -> holds (M ++ m) (update k m).
Proof.
  revert M k. induction m as [|b m IH]; intros M k Hk Hm; [by rewrite app_nil_r|].
  apply Forall_cons in Hm as [Hb Hm]. cbn [update fold_left].
  specialize (IH (M ++ [b]) (update_byte k b) (holds_byte M k b Hk Hb) Hm). by rewrite <- app_assoc in IH.
Qed.

Lemma holds_chunks chunks M k :
  holds M k -> Forall bytes_ok chunks -> holds (M ++ concat chunks) (fold_left update chunks k).
Proof.
  revert M k. induction chunks as [|m chunks IH]; intros M k Hk Hm; [by rewrite app_nil_r|].
  apply Forall_cons in Hm as [Hb Hm]. cbn [concat fold_left]. rewrite app_assoc. apply IH; [|done]. by apply holds_update.
Qed.

Lemma nth_falses e j : nth e (replicate j false) false = false.
Proof. revert e. by induction j as [|j IH]; intros [|e]; cbn. Qed.

Lemma nth_pad e j : nth e (true :: replicate j false ++ [true]) false = xorb (e =? 0)%nat (e =? S j)%nat.
Proof.
  destruct e as [|e]; [done|]. cbn [nth Nat.eqb xorb]. change (nth e (replicate j false ++ [true]) false = (e =? j)%nat). destruct (decide (e < j)%nat) as [Hl|Hl].
  - rewrite app_nth1, nth_falses by (rewrite length_replicate; lia). symmetry. apply Nat.eqb_neq. lia.
  - rewrite app_nth2, length_replicate by (rewrite length_replicate; lia).
    destruct (decide (e = j)) as [->|Hne].
    + by rewrite Nat.sub_diag, Nat.eqb_refl.
    + rewrite nth_overflow by (cbn; lia). symmetry. apply Nat.eqb_neq. lia.
Qed.

Lemma pad_bits m : (m < 8)%nat -> Z.testbit 0x01 (Z.of_nat m) = (m =? 0)%nat /\ Z.testbit 0x80 (Z.of_nat m) = (m =? 7)%nat.
Proof. intros Hm. by do 8 (destruct m as [|m]; [done|]); lia. Qed.

Lemma byte_position k off m : (m < 8)%nat -> ((k / 8 =? off) && (k mod 8 =? m))%nat = (k =? 8 * off + m)%nat.
Proof.
  intros Hm. destruct (Nat.eqb_spec k (8 * off + m)) as [->|Hne].
  - by rewrite (proj2 (Nat.eqb_eq _ off)), (proj2 (Nat.eqb_eq _ m)) by natdiv.
  - apply andb_false_iff. rewrite !Nat.eqb_neq. natdiv.
Qed.

(** The padded message: whole blocks, the last of them the rest of the message with
    a one after it and a one at its end. *)
Lemma length_padded M :
  let P := bits_of_bytes M ++ Fips.pad (length (bits_of_bytes M)) in
  length P = (1088 * S (length M / 136))%nat.
Proof.
  cbv zeta. unfold Fips.pad, Fips.rate. rewrite length_app, length_bits. cbn [length].
  rewrite length_app, length_replicate. cbn [length]. natdiv.
Qed.

Lemma pad_block M :
  let B := bits_of_bytes M in let P := B ++ Fips.pad (length B) in let q := (length M / 136)%nat in
  same (Fips.add (Fips.absorbed P q) (Fips.block P q))
    (Fips.add (Fips.add (Fips.add (Fips.absorbed B q) (Fips.block B q)) (byte_array (length M mod 136) 0x01))
       (byte_array 135 0x80)).
Proof.
  cbv zeta. set (B := bits_of_bytes M). set (P := B ++ Fips.pad (length B)). set (q := (length M / 136)%nat).
  assert (length B = 1088 * q + 8 * (length M mod 136))%nat as HB by (unfold B, q; rewrite length_bits; natdiv).
  intros x y z Hx Hy Hz. unfold Fips.add. rewrite (absorbed_ext P B q); try done;
    [|intros i Hi; apply app_nth1; lia].
  rewrite !xorb_assoc. f_equal. unfold Fips.block, byte_array, Fips.rate. set (k := Fips.index x y z).
  destruct (Nat.ltb_spec k 1088) as [Hk|Hk].
  - destruct (pad_bits (k mod 8)) as [-> ->]; [natdiv|]. rewrite !byte_position by lia.
    destruct (decide (1088 * q + k < length B)%nat) as [Hl|Hl].
    + unfold P. rewrite app_nth1 by done.
      rewrite (proj2 (Nat.eqb_neq k (8 * _ + 0))), (proj2 (Nat.eqb_neq k (8 * 135 + 7))) by lia. by rewrite xorb_false_r.
    + unfold P. rewrite app_nth2, (nth_overflow B), xorb_false_l by lia. unfold Fips.pad. rewrite nth_pad. unfold Fips.rate.
      rewrite HB. f_equal; apply eq_true_iff_eq; rewrite !Nat.eqb_eq; natdiv.
  - replace (k / 8 =? length M mod 136)%nat with false by (symmetry; apply Nat.eqb_neq; natdiv).
    replace (k / 8 =? 135)%nat with false by (symmetry; apply Nat.eqb_neq; natdiv). done.
Qed.

Lemma length_keccak256 M : length (Fips.keccak256 M) = 256%nat.
Proof. unfold Fips.keccak256, Fips.trunc. by rewrite length_map, length_seq. Qed.

Lemma nth_map_seq {A} (f : nat -> A) n k d : (k < n)%nat -> nth k (map f (seq 0 n)) d = f k.
Proof.
  intros Hk. rewrite (nth_indep _ d (f 0%nat)) by (by rewrite length_map, length_seq).
  by rewrite map_nth, seq_nth.
Qed.

Lemma squeeze_bits g A :
  same (bitsf g) A ->
  bits_of_bytes (map (fun i => let j := Nat.shiftr i 3 in
      u8 (shr64 (get (mat g) (j mod 5) (j / 5)) (Nat.shiftl (Nat.land i 7) 3))) (seq 0 HASH_LEN)) = Fips.trunc 256 A.
Proof.
  intros HA. apply (nth_ext _ _ false false).
  - rewrite length_bits. unfold Fips.trunc. by rewrite !length_map, !length_seq.
  - intros n Hn. rewrite length_bits, length_map, length_seq in Hn. unfold HASH_LEN in Hn.
    rewrite nth_bits. unfold Fips.trunc.
    rewrite !nth_map_seq by (unfold HASH_LEN; natdiv). cbv zeta.
    rewrite shiftr3, land7, <- HA, get_mat by natdiv. unfold bitsf, u8.
    rewrite Z.mod_pow2_bits_low by natdiv. rewrite shr64_bit by natdiv.
    replace (n / 8 / 8)%nat with (n / 64)%nat by natdiv. replace (n / 64 / 5)%nat with (n / 320)%nat by natdiv.
    do 2 f_equal. natdiv.
Qed.

Lemma hash_of_holds M k : holds M k -> bits_of_bytes (hash_now k) = Fips.keccak256 (bits_of_bytes M).
Proof.
  intros (f & Hf & Hok & Ho & Hs). unfold hash_now, finalize. rewrite Hf, Ho. change (BLOCK_SIZE - 1)%nat with 135%nat.
  destruct (xor_at_bits f (length M mod 136) 0x01 Hok ltac:(natdiv) ltac:(done)) as (g & -> & Hg & Hgs).
  destruct (xor_at_bits g 135 0x80 Hg ltac:(lia) ltac:(done)) as (h & -> & Hh & Hhs).
  destruct (absorb_bits h Hh) as (o & -> & _ & Hos). cbn [fst].
  rewrite Hgs, Hs in Hhs. rewrite Hhs in Hos. pose proof (pad_block M) as Hp. cbv zeta in Hp. rewrite <- Hp in Hos.
  unfold Fips.keccak256. cbv zeta. rewrite (length_padded M : length _ = _). change Fips.rate with 1088%nat.
  rewrite (Nat.mul_comm 1088), Nat.div_mul by lia. by apply squeeze_bits.
Qed.

(** C23: the hash is Keccak-256.  However a message is cut into calls of [update],
    the 32 bytes of [hash] are, bit for bit, the output of the sponge of FIPS 202
    with Keccak-f[1600], capacity 512 and the padding [pad10*1] on the message;
    also when the machine's undefined shift by 64 gives zero or the operand. *)
Theorem keccak256_exact chunks :
  Forall bytes_ok chunks ->
  bits_of_bytes (hash_now (fold_left update chunks init)) = Fips.keccak256 (bits_of_bytes (concat chunks))
  /\ hash (concat chunks) = hash_now (fold_left update chunks init).
Proof.
  intros Hc. split; [apply hash_of_holds, (holds_chunks chunks [] init holds_init Hc)|].
  unfold hash. f_equal. clear Hc. generalize init. induction chunks as [|m chunks IH]; intros k; [done|].
  cbn [concat fold_left]. rewrite <- IH. unfold update. apply fold_left_app.
Qed.
End Sponge.

#[local] Instance masked_shift : Machine := fun x => x.
#[local] Instance masked_shift_laws : MachineLaws.
Proof. by right. Qed.

Lemma keccak256_exact_witness :
  bits_of_bytes (hash_now (fold_left update [[97; 98]; []; [99]] init)) = Fips.keccak256 (bits_of_bytes [97; 98; 99])
  /\ hash [97; 98; 99] = hash_now (fold_left update [[97; 98]; []; [99]] init).
Proof. apply (keccak256_exact [[97; 98]; []; [99]]). repeat constructor; done. Defined.

(** The published hash of the empty message. *)
Example keccak256_empty :
  hash [] = [0xc5; 0xd2; 0x46; 0x01; 0x86; 0xf7; 0x23; 0x3c; 0x92; 0x7e; 0x7d; 0xb2; 0xdc; 0xc7; 0x03; 0xc0;
             0xe5; 0x00; 0xb6; 0x53; 0xca; 0x82; 0x27; 0x3b; 0x7b; 0xfa; 0xd8; 0x04; 0x5d; 0x85; 0xa4; 0x70].
Proof. vm_compute. reflexivity. Qed.
