(* ===== verification/Quic.v ===== *)
(** * QUIC connections and streams

    [transport/quic/engine.cpp], [connection.cpp] and [stream.cpp]: the objects of the
    program above the lsquic library.  lsquic owns connections and streams and calls
    back; the program keeps a context per connection and per stream, to which its
    [QuicConnection] and [QuicStream] objects hold raw pointers.

    A callback that completes an operation resumes the waiting coroutine before it
    goes on itself, so that the application runs in the middle of it: such a callback
    takes the calls made there as an argument.  [None] is the use of a null or
    dangling pointer, or an exception that leaves the engine. *)

From S2P Require Import Prelude Varint Multihash Base58 ByteUtil PeerAddress TcpUtil Keys Tls.
Import Key Provider Validator Marshaller.

Abbreviation LsConn := nat.
Abbreviation LsStream := nat.
Abbreviation ConnPtr := nat.
Abbreviation StreamPtr := nat.

Inductive QuicError :=
| HANDSHAKE_FAILED | CONN_CLOSED | STREAM_CLOSED | STREAM_READ_IN_PROGRESS | STREAM_WRITE_IN_PROGRESS
| TOO_MANY_STREAMS | CANT_CREATE_CONNECTION | CANT_OPEN_STREAM.
Inductive conn_error := OfQuic (e : QuicError) | OfTls (e : TlsError) | TLS_UNEXPECTED_PEER_ID.

(** ** The objects *)

(** A [connect] operation; [cb] names its coroutine. *)
Record Connecting := mkConnecting { connect_to : endpoint; expected_peer : Multihash; cb : nat }.

(** [conn] and [stream] are weak pointers. *)
Record ConnCtx := mkConnCtx {
  connecting : option Connecting;
  new_stream : option (option StreamPtr);
  conn : option ConnPtr
}.
Record StreamCtx := mkStreamCtx {
  stream : option StreamPtr;
  reading : bool;
  writing : bool;
  want_flush : bool
}.
Record QuicConnection := mkQuicConnection {
  conn_ctx_ : option LsConn;
  conn_initiator : bool;
  remote_peer : Multihash;
  remote_key : PublicKey;
  stream_signal_ : list (outcome QuicError StreamPtr)
}.
Record QuicStream := mkQuicStream {
  conn_ : ConnPtr;
  stream_ctx_ : option LsStream;
  stream_initiator : bool
}.

(** The calls into lsquic. *)
Inductive ls_call :=
| lsquic_conn_close (c : LsConn)
| lsquic_stream_close (s : LsStream)
| lsquic_stream_shutdown (s : LsStream)
| lsquic_stream_wantread (s : LsStream) (b : bool)
| lsquic_stream_wantwrite (s : LsStream) (b : bool)
| lsquic_stream_flush (s : LsStream).

(** The objects that exist are the keys of the last two maps; [answers] are the
    results handed to [connect], [results] those of [readSome] and [writeSome], and
    [requests] the operations for which [connect] was called. *)
Record Engine := mkEngine {
  started_ : bool;
  want_process_ : bool;
  want_flush_ : list StreamPtr;
  connecting_ : option Connecting;
  conn_signal_ : list (outcome conn_error ConnPtr);
  conn_ctxs : gmap LsConn ConnCtx;
  stream_ctxs : gmap LsStream StreamCtx;
  connections : gmap ConnPtr QuicConnection;
  streams : gmap StreamPtr QuicStream;
  next_ptr : nat;
  answers : list (Connecting * outcome conn_error ConnPtr);
  results : list (StreamPtr * outcome QuicError nat);
  calls : list ls_call;
  requests : list Connecting
}.
Definition Engine_new : Engine := mkEngine false false [] None [] ∅ ∅ ∅ ∅ 0 [] [] [] [].

Definition set_started (e : Engine) : Engine :=
  mkEngine true (want_process_ e) (want_flush_ e) (connecting_ e) (conn_signal_ e) (conn_ctxs e) (stream_ctxs e)
    (connections e) (streams e) (next_ptr e) (answers e) (results e) (calls e) (requests e).
Definition set_want_process (b : bool) (e : Engine) : Engine :=
  mkEngine (started_ e) b (want_flush_ e) (connecting_ e) (conn_signal_ e) (conn_ctxs e) (stream_ctxs e)
    (connections e) (streams e) (next_ptr e) (answers e) (results e) (calls e) (requests e).
Definition set_want_flush (l : list StreamPtr) (e : Engine) : Engine :=
  mkEngine (started_ e) (want_process_ e) l (connecting_ e) (conn_signal_ e) (conn_ctxs e) (stream_ctxs e)
    (connections e) (streams e) (next_ptr e) (answers e) (results e) (calls e) (requests e).
Definition set_connecting (c : option Connecting) (e : Engine) : Engine :=
  mkEngine (started_ e) (want_process_ e) (want_flush_ e) c (conn_signal_ e) (conn_ctxs e) (stream_ctxs e)
    (connections e) (streams e) (next_ptr e) (answers e) (results e) (calls e) (requests e).
(** [Engine::onConnection] *)
Definition onConnection (r : outcome conn_error ConnPtr) (e : Engine) : Engine :=
  mkEngine (started_ e) (want_process_ e) (want_flush_ e) (connecting_ e) (conn_signal_ e ++ [r]) (conn_ctxs e)
    (stream_ctxs e) (connections e) (streams e) (next_ptr e) (answers e) (results e) (calls e) (requests e).
(** [Engine::asyncAccept] takes the first connection, or waits while there is none. *)
Definition asyncAccept (e : Engine) : Engine * option (outcome conn_error ConnPtr) :=
  match conn_signal_ e with
  | [] => (e, None)
  | r :: rest =>
      (mkEngine (started_ e) (want_process_ e) (want_flush_ e) (connecting_ e) rest (conn_ctxs e) (stream_ctxs e)
         (connections e) (streams e) (next_ptr e) (answers e) (results e) (calls e) (requests e), Some r)
  end.
Definition set_conn_ctxs (m : gmap LsConn ConnCtx) (e : Engine) : Engine :=
  mkEngine (started_ e) (want_process_ e) (want_flush_ e) (connecting_ e) (conn_signal_ e) m (stream_ctxs e)
    (connections e) (streams e) (next_ptr e) (answers e) (results e) (calls e) (requests e).
Definition set_stream_ctxs (m : gmap LsStream StreamCtx) (e : Engine) : Engine :=
  mkEngine (started_ e) (want_process_ e) (want_flush_ e) (connecting_ e) (conn_signal_ e) (conn_ctxs e) m
    (connections e) (streams e) (next_ptr e) (answers e) (results e) (calls e) (requests e).
Definition set_connections (m : gmap ConnPtr QuicConnection) (e : Engine) : Engine :=
  mkEngine (started_ e) (want_process_ e) (want_flush_ e) (connecting_ e) (conn_signal_ e) (conn_ctxs e) (stream_ctxs e)
    m (streams e) (next_ptr e) (answers e) (results e) (calls e) (requests e).
Definition set_streams (m : gmap StreamPtr QuicStream) (e : Engine) : Engine :=
  mkEngine (started_ e) (want_process_ e) (want_flush_ e) (connecting_ e) (conn_signal_ e) (conn_ctxs e) (stream_ctxs e)
    (connections e) m (next_ptr e) (answers e) (results e) (calls e) (requests e).
(** [make_shared]: the next object. *)
Definition allocated (e : Engine) : Engine :=
  mkEngine (started_ e) (want_process_ e) (want_flush_ e) (connecting_ e) (conn_signal_ e) (conn_ctxs e) (stream_ctxs e)
    (connections e) (streams e) (S (next_ptr e)) (answers e) (results e) (calls e) (requests e).
Definition answer (op : Connecting) (r : outcome conn_error ConnPtr) (e : Engine) : Engine :=
  mkEngine (started_ e) (want_process_ e) (want_flush_ e) (connecting_ e) (conn_signal_ e) (conn_ctxs e) (stream_ctxs e)
    (connections e) (streams e) (next_ptr e) (answers e ++ [(op, r)]) (results e) (calls e) (requests e).
Definition returns (s : StreamPtr) (r : outcome QuicError nat) (e : Engine) : Engine :=
  mkEngine (started_ e) (want_process_ e) (want_flush_ e) (connecting_ e) (conn_signal_ e) (conn_ctxs e) (stream_ctxs e)
    (connections e) (streams e) (next_ptr e) (answers e) (results e ++ [(s, r)]) (calls e) (requests e).
Definition call (k : ls_call) (e : Engine) : Engine :=
  mkEngine (started_ e) (want_process_ e) (want_flush_ e) (connecting_ e) (conn_signal_ e) (conn_ctxs e) (stream_ctxs e)
    (connections e) (streams e) (next_ptr e) (answers e) (results e) (calls e ++ [k]) (requests e).

Definition requested (op : Connecting) (e : Engine) : Engine :=
  mkEngine (started_ e) (want_process_ e) (want_flush_ e) (connecting_ e) (conn_signal_ e) (conn_ctxs e) (stream_ctxs e)
    (connections e) (streams e) (next_ptr e) (answers e) (results e) (calls e) (requests e ++ [op]).

Definition update_stream_ctx (ls : LsStream) (f : StreamCtx -> StreamCtx) (e : Engine) : Engine :=
  set_stream_ctxs (alter f ls (stream_ctxs e)) e.
Definition set_reading (b : bool) (x : StreamCtx) : StreamCtx := mkStreamCtx (stream x) b (writing x) (want_flush x).
Definition set_writing (b : bool) (x : StreamCtx) : StreamCtx := mkStreamCtx (stream x) (reading x) b (want_flush x).
Definition set_flush (b : bool) (x : StreamCtx) : StreamCtx := mkStreamCtx (stream x) (reading x) (writing x) b.

(** [weak_ptr::lock] *)
Definition lock_conn (x : ConnCtx) (e : Engine) : option (ConnPtr * QuicConnection) :=
  c ← conn x; q ← connections e !! c; Some (c, q).
Definition lock_stream (x : StreamCtx) (e : Engine) : option (StreamPtr * QuicStream) :=
  s ← stream x; q ← streams e !! s; Some (s, q).

(** ** Flushing *)

Definition wantProcess (e : Engine) : Engine := if want_process_ e then e else set_want_process true e.

Definition wantFlush (ls : LsStream) (e : Engine) : option Engine :=
  x ← stream_ctxs e !! ls;
  if want_flush x then Some e
  else
    let e := update_stream_ctx ls (set_flush true) e in
    match lock_stream x e with
    | None => Some e
    | Some (s, _) => Some (wantProcess (set_want_flush (want_flush_ e ++ [s]) e))
    end.

(** The loop of [process]; a stream whose context is gone has a null [stream_ctx_]. *)
Fixpoint flush_each (l : list StreamPtr) (e : Engine) : option Engine :=
  match l with
  | [] => Some e
  | s :: l =>
      match streams e !! s with
      | None => flush_each l e
      | Some q =>
          ls ← stream_ctx_ q;
          _ ← stream_ctxs e !! ls;
          flush_each l (call (lsquic_stream_flush ls) (update_stream_ctx ls (set_flush false) e))
      end
  end.

(** [process] up to [lsquic_engine_process_conns], whose callbacks follow. *)
Definition process (e : Engine) : option Engine :=
  let e := set_want_process false e in
  let l := want_flush_ e in
  flush_each l (set_want_flush [] e).

(** [start]; the packets read by [readLoop] cause callbacks of their own. *)
Definition start (e : Engine) : option Engine := if started_ e then Some e else process (set_started e).

(** ** Streams *)

Inductive read_answer := ReadBytes (n : nat) | ReadEnd | WouldBlock | ReadError.
Inductive write_answer := Written (n : nat) | Full | WriteError.

(** The loop of [readSome]: one call of [lsquic_stream_read], and waiting if it would
    block. *)
Definition read_attempt (s : StreamPtr) (a : read_answer) (e : Engine) : option Engine :=
  q ← streams e !! s;
  ls ← stream_ctx_ q;
  _ ← stream_ctxs e !! ls;
  Some match a with
       | ReadBytes n => returns s (success n) e
       | ReadEnd | ReadError => returns s (failure STREAM_CLOSED) e
       | WouldBlock => call (lsquic_stream_wantread ls true) (update_stream_ctx ls (set_reading true) e)
       end.

Definition readSome (s : StreamPtr) (a : read_answer) (e : Engine) : option Engine :=
  match streams e !! s with
  | None => Some e
  | Some q =>
      match stream_ctx_ q with
      | None => Some (returns s (failure STREAM_CLOSED) e)
      | Some ls =>
          x ← stream_ctxs e !! ls;
          if reading x then Some (returns s (failure STREAM_READ_IN_PROGRESS) e) else read_attempt s a e
      end
  end.

Definition write_attempt (s : StreamPtr) (a : write_answer) (e : Engine) : option Engine :=
  q ← streams e !! s;
  ls ← stream_ctx_ q;
  e ← wantFlush ls e;
  Some match a with
       | Written n => returns s (success n) e
       | WriteError => returns s (failure STREAM_CLOSED) e
       | Full => call (lsquic_stream_wantwrite ls true) (update_stream_ctx ls (set_writing true) e)
       end.

Definition writeSome (s : StreamPtr) (a : write_answer) (e : Engine) : option Engine :=
  match streams e !! s with
  | None => Some e
  | Some q =>
      match stream_ctx_ q with
      | None => Some (returns s (failure STREAM_CLOSED) e)
      | Some ls =>
          x ← stream_ctxs e !! ls;
          if writing x then Some (returns s (failure STREAM_WRITE_IN_PROGRESS) e) else write_attempt s a e
      end
  end.

(** [close], [reset] and the destructor use the context only to reach lsquic. *)
Definition stream_call (k : LsStream -> ls_call) (s : StreamPtr) (e : Engine) : option Engine :=
  match streams e !! s with
  | None => Some e
  | Some q =>
      match stream_ctx_ q with
      | None => Some e
      | Some ls => _ ← stream_ctxs e !! ls; Some (call (k ls) e)
      end
  end.
Definition close_stream : StreamPtr -> Engine -> option Engine := stream_call lsquic_stream_shutdown.
Definition reset : StreamPtr -> Engine -> option Engine := stream_call lsquic_stream_close.

(** The last [shared_ptr] goes; a coroutine that waits on the stream holds one. *)
Definition waits (s : StreamPtr) (e : Engine) : bool :=
  match (q ← streams e !! s; ls ← stream_ctx_ q; stream_ctxs e !! ls) with
  | Some x => reading x || writing x
  | None => false
  end.
Definition drop_stream (s : StreamPtr) (e : Engine) : option Engine :=
  if waits s e then Some e
  else e ← reset s e; Some (set_streams (delete s (streams e)) e).

(** [QuicStream::onClose] *)
Definition stream_onClose (s : StreamPtr) (e : Engine) : Engine :=
  set_streams (alter (fun q => mkQuicStream (conn_ q) None (stream_initiator q)) s (streams e)) e.

(** [on_close] clears the pointer to the context it deletes. *)
Definition stream_detached (x : StreamCtx) (e : Engine) : Engine :=
  match lock_stream x e with Some (s, _) => stream_onClose s e | None => e end.

(** ** Connections *)

Definition isClosed (q : QuicConnection) : bool := match conn_ctx_ q with None => true | Some _ => false end.

Definition close_conn (c : ConnPtr) (e : Engine) : option Engine :=
  match connections e !! c with
  | None => Some e
  | Some q =>
      match conn_ctx_ q with
      | None => Some e
      | Some lc => _ ← conn_ctxs e !! lc; Some (call (lsquic_conn_close lc) e)
      end
  end.
(** Every stream holds its connection. *)
Definition drop_conn (c : ConnPtr) (e : Engine) : option Engine :=
  if existsb (fun q => (conn_ q =? c)%nat) (map snd (map_to_list (streams e))) then Some e
  else e ← close_conn c e; Some (set_connections (delete c (connections e)) e).

(** [acceptStream] takes the first stream, or waits while there is none. *)
Definition acceptStream (c : ConnPtr) (e : Engine) : option (Engine * option (outcome QuicError StreamPtr)) :=
  match connections e !! c with
  | None => Some (e, None)
  | Some q =>
      match stream_signal_ q with
      | [] => Some (e, None)
      | r :: rest =>
          let q := mkQuicConnection (conn_ctx_ q) (conn_initiator q) (remote_peer q) (remote_key q) rest in
          Some (set_connections (<[c := q]> (connections e)) e, Some r)
      end
  end.

Definition signal (r : outcome QuicError StreamPtr) (q : QuicConnection) : QuicConnection :=
  mkQuicConnection (conn_ctx_ q) (conn_initiator q) (remote_peer q) (remote_key q) (stream_signal_ q ++ [r]).
Definition onStream (c : ConnPtr) (s : StreamPtr) (e : Engine) : Engine :=
  set_connections (alter (signal (success s)) c (connections e)) e.
Definition conn_onClose (c : ConnPtr) (e : Engine) : Engine :=
  set_connections
    (alter (fun q => signal (failure CONN_CLOSED)
                       (mkQuicConnection None (conn_initiator q) (remote_peer q) (remote_key q) (stream_signal_ q)))
       c (connections e)) e.

(** [on_conn_closed] clears the pointer to the context it deletes. *)
Definition conn_detached (x : ConnCtx) (e : Engine) : Engine :=
  match lock_conn x e with Some (c, _) => conn_onClose c e | None => e end.

(** ** New streams *)

(** The callback [on_new_stream]. *)
Definition on_new_stream (lc : LsConn) (ls : LsStream) (e : Engine) : option Engine :=
  x ← conn_ctxs e !! lc;
  match lock_conn x e with
  | Some (c, _) =>
      let s := next_ptr e in
      let initiator := match new_stream x with Some _ => true | None => false end in
      let e := allocated e in
      let e := set_streams (<[s := mkQuicStream c (Some ls) initiator]> (streams e)) e in
      let e := set_stream_ctxs (<[ls := mkStreamCtx (Some s) false false false]> (stream_ctxs e)) e in
      Some (if initiator then set_conn_ctxs (<[lc := mkConnCtx (connecting x) (Some (Some s)) (conn x)]> (conn_ctxs e)) e
            else onStream c s e)
  | None =>
      let e := set_stream_ctxs (<[ls := mkStreamCtx None false false false]> (stream_ctxs e)) e in
      Some (call (lsquic_stream_close ls) e)
  end.

(** [Engine::newStream]: [n_pending] is [lsquic_conn_n_pending_streams], [made] the
    stream for which [lsquic_conn_make_stream] calls back before it returns. *)
Definition engine_newStream (lc : LsConn) (n_pending : nat) (made : option LsStream) (e : Engine) :
    option (Engine * outcome QuicError StreamPtr) :=
  x ← conn_ctxs e !! lc;
  match new_stream x with
  | Some _ => None
  | None =>
      if negb (n_pending =? 0)%nat then Some (e, failure TOO_MANY_STREAMS)
      else
        let e := set_conn_ctxs (<[lc := mkConnCtx (connecting x) (Some None) (conn x)]> (conn_ctxs e)) e in
        e ← match made with Some ls => on_new_stream lc ls e | None => Some e end;
        x ← conn_ctxs e !! lc;
        taken ← new_stream x;
        let e := set_conn_ctxs (<[lc := mkConnCtx (connecting x) None (conn x)]> (conn_ctxs e)) e in
        Some (e, match taken with Some s => success s | None => failure CANT_OPEN_STREAM end)
  end.

(** [QuicConnection::newStream] *)
Definition newStream (c : ConnPtr) (n_pending : nat) (made : option LsStream) (e : Engine) :
    option (Engine * outcome QuicError StreamPtr) :=
  match connections e !! c with
  | None => Some (e, failure CONN_CLOSED)
  | Some q =>
      match conn_ctx_ q with
      | None => Some (e, failure CONN_CLOSED)
      | Some lc => engine_newStream lc n_pending made e
      end
  end.

(** ** Callbacks *)

(** What the application does when it is resumed, or at any other time. *)
Inductive app_call :=
| Connect (remote : endpoint) (peer : Multihash) (cb : nat) (created : option LsConn)
| AsyncAccept
| AcceptStream (c : ConnPtr)
| NewStream (c : ConnPtr) (n_pending : nat) (made : option LsStream)
| ReadSome (s : StreamPtr) (a : read_answer)
| WriteSome (s : StreamPtr) (a : write_answer)
| CloseStream (s : StreamPtr)
| Reset (s : StreamPtr)
| DropStream (s : StreamPtr)
| CloseConn (c : ConnPtr)
| DropConn (c : ConnPtr).

Section Callbacks.
Context `{Providers, RsaDer, Protobuf} {Cert : Type} `{!X509 Cert} (sha256 : bytes -> bytes).

(** The result of a handshake: the certificate, and whether the address of the peer
    can be written as a multiaddress. *)
Record handshake := mkHandshake { hsk_ok : bool; certificate : Cert; address_ok : bool }.

(** [on_hsk_done] up to the completion of the operation: its result. *)
Definition on_hsk_done (lc : LsConn) (h : handshake) (e : Engine) :
    option (Engine * option Connecting * outcome conn_error ConnPtr) :=
  x ← conn_ctxs e !! lc;
  let op := connecting x in
  let x := mkConnCtx None (new_stream x) (conn x) in
  let e := set_conn_ctxs (<[lc := x]> (conn_ctxs e)) e in
  let fail err := Some (call (lsquic_conn_close lc) e, op, failure err) in
  if negb (hsk_ok h) then fail (OfQuic HANDSHAKE_FAILED)
  else
    match verifyPeerAndExtractIdentity sha256 (certificate h) with
    | None => None
    | Some (failure err) => fail (OfTls err)
    | Some (success (key, id)) =>
        if match op with Some op => negb (bool_decide (id = expected_peer op)) | None => false end
        then fail TLS_UNEXPECTED_PEER_ID
        else if negb (address_ok h) then None
        else
          let c := next_ptr e in
          let e := allocated e in
          let e := set_connections
                     (<[c := mkQuicConnection (Some lc) (match op with Some _ => true | None => false end) id key []]>
                        (connections e)) e in
          Some (set_conn_ctxs (<[lc := mkConnCtx None (new_stream x) (Some c)]> (conn_ctxs e)) e, op, success c)
    end.

(** [on_new_conn] for a connection of another peer, after its handshake. *)
Definition accept_conn (lc : LsConn) (h : handshake) (e : Engine) : option Engine :=
  let e := set_conn_ctxs (<[lc := mkConnCtx None None None]> (conn_ctxs e)) e in
  '(e, _, r) ← on_hsk_done lc h e;
  Some (onConnection r e).

(** [Engine::connect]; [created] is the connection for which [lsquic_engine_connect]
    calls [on_new_conn] before it returns.  A pointer lsquic hands out is new. *)
Definition connect (remote : endpoint) (peer : Multihash) (cb : nat) (created : option LsConn) (e : Engine) : option Engine :=
  e ← start e;
  match connecting_ e with
  | Some _ => None
  | None =>
      let e := requested (mkConnecting remote peer cb) e in
      let e := set_connecting (Some (mkConnecting remote peer cb)) e in
      let e := match created with
               | Some lc => set_conn_ctxs (<[lc := mkConnCtx (connecting_ e) None None]> (conn_ctxs e)) (set_connecting None e)
               | None => e
               end in
      let e := match connecting_ e with
               | Some op => answer op (failure (OfQuic CANT_CREATE_CONNECTION)) (set_connecting None e)
               | None => e
               end in
      Some (wantProcess e)
  end.

Definition app_step (e : Engine) (k : app_call) : option Engine :=
  match k with
  | Connect remote peer cb created =>
      if decide (created ≫= (fun lc => conn_ctxs e !! lc) = None) then connect remote peer cb created e else Some e
  | AsyncAccept => Some (fst (asyncAccept e))
  | AcceptStream c => fst <$> acceptStream c e
  | NewStream c n_pending made =>
      if decide (made ≫= (fun ls => stream_ctxs e !! ls) = None) then fst <$> newStream c n_pending made e else Some e
  | ReadSome s a => readSome s a e
  | WriteSome s a => writeSome s a e
  | CloseStream s => close_stream s e
  | Reset s => reset s e
  | DropStream s => drop_stream s e
  | CloseConn c => close_conn c e
  | DropConn c => drop_conn c e
  end.
Fixpoint app_run (ks : list app_call) (e : Engine) : option Engine :=
  match ks with
  | [] => Some e
  | k :: ks => e ← app_step e k; app_run ks e
  end.

(** [on_hsk_done] of a connection this engine opened. *)
Definition handshake_done (lc : LsConn) (h : handshake) (apps : list app_call) (e : Engine) : option Engine :=
  '(e, op, r) ← on_hsk_done lc h e;
  match op with
  | Some op => app_run apps (answer op r e)
  | None => Some (onConnection r e)
  end.

Definition on_conn_closed (lc : LsConn) (apps : list app_call) (e : Engine) : option Engine :=
  x ← conn_ctxs e !! lc;
  let e' := set_conn_ctxs (<[lc := mkConnCtx None (new_stream x) (conn x)]> (conn_ctxs e)) e in
  e ← match connecting x with
      | Some op => app_run apps (answer op (failure (OfQuic CONN_CLOSED)) e')
      | None => Some e
      end;
  x ← conn_ctxs e !! lc;
  let e := conn_detached x e in
  Some (set_conn_ctxs (delete lc (conn_ctxs e)) e).

(** The coroutine that waits for reading goes on, and returns to the application
    unless it has to wait again. *)
Definition resume_reading (ls : LsStream) (a : read_answer) (apps : list app_call) (e : Engine) : option Engine :=
  x ← stream_ctxs e !! ls;
  if reading x then
    s ← stream x;
    e ← read_attempt s a (update_stream_ctx ls (set_reading false) e);
    match a with WouldBlock => Some e | _ => app_run apps e end
  else Some e.
Definition resume_writing (ls : LsStream) (a : write_answer) (apps : list app_call) (e : Engine) : option Engine :=
  x ← stream_ctxs e !! ls;
  if writing x then
    s ← stream x;
    e ← write_attempt s a (update_stream_ctx ls (set_writing false) e);
    match a with Full => Some e | _ => app_run apps e end
  else Some e.

Definition on_read (ls : LsStream) (a : read_answer) (apps : list app_call) (e : Engine) : option Engine :=
  resume_reading ls a apps (call (lsquic_stream_wantread ls false) e).
Definition on_write (ls : LsStream) (a : write_answer) (apps : list app_call) (e : Engine) : option Engine :=
  resume_writing ls a apps (call (lsquic_stream_wantwrite ls false) e).
Definition on_close (ls : LsStream) (r : read_answer) (apps1 : list app_call) (w : write_answer) (apps2 : list app_call)
    (e : Engine) : option Engine :=
  e ← resume_reading ls r apps1 e;
  e ← resume_writing ls w apps2 e;
  x ← stream_ctxs e !! ls;
  let e := stream_detached x e in
  Some (set_stream_ctxs (delete ls (stream_ctxs e)) e).

(** *** Runs

    lsquic calls back for connections and streams it has, announces new ones under
    new pointers, and reports the end of a handshake once. *)
Inductive event :=
| App (k : app_call)
| AcceptConn (lc : LsConn) (h : handshake)
| HandshakeDone (lc : LsConn) (h : handshake) (apps : list app_call)
| ConnClosed (lc : LsConn) (apps : list app_call)
| NewInbound (lc : LsConn) (ls : LsStream)
| OnRead (ls : LsStream) (a : read_answer) (apps : list app_call)
| OnWrite (ls : LsStream) (a : write_answer) (apps : list app_call)
| OnClose (ls : LsStream) (r : read_answer) (apps1 : list app_call) (w : write_answer) (apps2 : list app_call)
| Start
| Process.

Definition known {A} (o : option A) : bool := match o with Some _ => true | None => false end.

Definition possible (e : Engine) (ev : event) : bool :=
  match ev with
  | AcceptConn lc _ => started_ e && negb (known (conn_ctxs e !! lc))
  | HandshakeDone lc _ _ => known (x ← conn_ctxs e !! lc; connecting x)
  | ConnClosed lc _ => known (conn_ctxs e !! lc)
  | NewInbound lc ls => known (conn_ctxs e !! lc) && negb (known (stream_ctxs e !! ls))
  | OnRead ls _ _ | OnWrite ls _ _ | OnClose ls _ _ _ _ => known (stream_ctxs e !! ls)
  | App _ | Start | Process => true
  end.

Definition step (e : Engine) (ev : event) : option Engine :=
  if negb (possible e ev) then Some e
  else match ev with
  | App k => app_step e k
  | AcceptConn lc h => accept_conn lc h e
  | HandshakeDone lc h apps => handshake_done lc h apps e
  | ConnClosed lc apps => on_conn_closed lc apps e
  | NewInbound lc ls => on_new_stream lc ls e
  | OnRead ls a apps => on_read ls a apps e
  | OnWrite ls a apps => on_write ls a apps e
  | OnClose ls r apps1 w apps2 => on_close ls r apps1 w apps2 e
  | Start => start e
  | Process => process e
  end.
Fixpoint run (evs : list event) (e : Engine) : option Engine :=
  match evs with
  | [] => Some e
  | ev :: evs => e ← step e ev; run evs e
  end.
End Callbacks.
