(* ===== verification/QuicSafe.v ===== *)
(** * QUIC: pointers

    The invariant of the objects of Quic.v: raw pointers from connections and streams
    to contexts, and the weak pointers back, agree.  Every operation and callback
    keeps it and succeeds, with one exception, which [run_spec] names. *)

From S2P Require Import Prelude Varint Multihash Base58 ByteUtil PeerAddress TcpUtil Keys Tls Quic.
Import Key Provider Validator Marshaller.

(** ** The invariant *)

(** Pointers to contexts and the weak pointers back agree, so that no object that
    exists points to a context that is gone; a coroutine waits only on an object
    that exists. *)
Record quic_core (e : Engine) : Prop := {
  core_streams s q : streams e !! s = Some q -> (s < next_ptr e)%nat /\
    forall ls, stream_ctx_ q = Some ls -> exists x, stream_ctxs e !! ls = Some x /\ stream x = Some s;
  core_stream_ctxs ls x s : stream_ctxs e !! ls = Some x -> stream x = Some s -> (s < next_ptr e)%nat /\
    forall q, streams e !! s = Some q -> stream_ctx_ q = Some ls;
  core_conns c q : connections e !! c = Some q -> (c < next_ptr e)%nat /\
    forall lc, conn_ctx_ q = Some lc -> exists x, conn_ctxs e !! lc = Some x /\ conn x = Some c;
  core_conn_ctxs lc x c : conn_ctxs e !! lc = Some x -> conn x = Some c -> (c < next_ptr e)%nat /\ connecting x = None /\
    forall q, connections e !! c = Some q -> conn_ctx_ q = Some lc;
  core_waiting ls x : stream_ctxs e !! ls = Some x -> reading x || writing x = true ->
    exists s q, stream x = Some s /\ streams e !! s = Some q;
  core_stopped : started_ e = false -> conn_ctxs e = ∅ /\ stream_ctxs e = ∅ /\ want_flush_ e = []
}.

(** Between events no operation of the engine is under way. *)
Record quic_ok (e : Engine) : Prop := {
  ok_core :> quic_core e;
  ok_connecting : connecting_ e = None;
  ok_new_stream lc x : conn_ctxs e !! lc = Some x -> new_stream x = None
}.

(** ** Operations keep the invariant *)

(** The contexts that exist go on to exist. *)
Record extends (e e' : Engine) : Prop := {
  ext_conn lc : is_Some (conn_ctxs e !! lc) -> is_Some (conn_ctxs e' !! lc);
  ext_stream ls : is_Some (stream_ctxs e !! ls) -> is_Some (stream_ctxs e' !! ls)
}.
#[global] Instance extends_preorder : PreOrder extends.
Proof. split; [intros e; split; auto|]. intros e1 e2 e3 [] []. split; auto. Qed.

(** An operation succeeds and keeps the invariant. *)
Definition fine (e : Engine) (o : option Engine) : Prop := exists e', o = Some e' /\ quic_ok e' /\ extends e e'.

Lemma fine_some (e e' : Engine) : quic_ok e' -> extends e e' -> fine e (Some e').
Proof. intros. exists e'. auto. Qed.
Lemma fine_bind (e : Engine) (o : option Engine) (f : Engine -> option Engine) :
  fine e o -> (forall e', o = Some e' -> quic_ok e' -> extends e e' -> fine e' (f e')) -> fine e (o ≫= f).
Proof.
  intros (e1 & -> & Hok & He) Hf. destruct (Hf e1 eq_refl Hok He) as (e2 & E2 & Hok2 & He2).
  exists e2. simpl. split; [done|]. split; [done|]. by etransitivity.
Qed.

Lemma ok_frame (e e' : Engine) :
  quic_ok e -> streams e' = streams e -> stream_ctxs e' = stream_ctxs e -> connections e' = connections e ->
  conn_ctxs e' = conn_ctxs e -> next_ptr e' = next_ptr e -> started_ e' = started_ e -> want_flush_ e' = want_flush_ e ->
  connecting_ e' = connecting_ e -> quic_ok e'.
Proof.
  intros [[H1 H2 H3 H4 H5 H6] H7 H8] E1 E2 E3 E4 E5 E6 E7 E8. split; [split|congruence|]; intros *;
    rewrite ?E1, ?E2, ?E3, ?E4, ?E5, ?E6, ?E7; eauto.
Qed.

Lemma ok_alter (ls : LsStream) (f : StreamCtx -> StreamCtx) (e : Engine) :
  quic_ok e -> (forall x, stream (f x) = stream x) ->
  (forall x, stream_ctxs e !! ls = Some x -> reading (f x) || writing (f x) = true ->
             reading x || writing x = true \/ exists s q, stream x = Some s /\ streams e !! s = Some q) ->
  quic_ok (update_stream_ctx ls f e) /\ extends e (update_stream_ctx ls f e).
Proof.
  intros [[H1 H2 H3 H4 H5 H6] H7 H8] Hs Hw. split; [split; [split|done|done]; simpl|].
  - intros s q Hq. destruct (H1 s q Hq) as [L H]. split; [done|]. intros ls' E. destruct (H ls' E) as (x & Hx & Es).
    destruct (decide (ls' = ls)) as [->|n].
    + exists (f x). rewrite lookup_alter_eq, Hx. split; [done|]. by rewrite Hs.
    + exists x. by rewrite lookup_alter_ne.
  - intros ls' x s Hx Es. destruct (decide (ls' = ls)) as [->|n]; [|rewrite lookup_alter_ne in Hx by done; eauto].
    rewrite lookup_alter_eq in Hx. destruct (stream_ctxs e !! ls) as [y|] eqn:Ey; [|done]. simplify_eq/=. rewrite Hs in Es. eauto.
  - exact H3.
  - exact H4.
  - intros ls' x Hx Ew. destruct (decide (ls' = ls)) as [->|n]; [|rewrite lookup_alter_ne in Hx by done; eauto].
    rewrite lookup_alter_eq in Hx. destruct (stream_ctxs e !! ls) as [y|] eqn:Ey; [|done]. simplify_eq/=. rewrite Hs.
    destruct (Hw y eq_refl Ew) as [Eo|?]; [by apply (H5 ls y)|done].
  - intros E. destruct (H6 E) as (-> & E2 & ->). rewrite E2. split; [done|]. split; [|done]. by apply map_eq; intros i; rewrite lookup_alter, lookup_empty; destruct (decide _).
  - split; simpl; [done|]. intros i [y Hy]. destruct (decide (i = ls)) as [->|n]; [rewrite lookup_alter_eq, Hy; by eexists|rewrite lookup_alter_ne by done; by eexists].
Qed.

Ltac framed := eapply ok_frame; [eassumption|reflexivity..].
Ltac unchanged e := exists e; split; [done|]; split; [done|]; split; [reflexivity|done].
Ltac kept := solve [split; intros; simpl in *; assumption].

(** A context exists only in an engine that was started. *)
Lemma ok_started (ls : LsStream) (x : StreamCtx) (e : Engine) : quic_ok e -> stream_ctxs e !! ls = Some x -> started_ e = true.
Proof.
  intros H Hx. destruct (started_ e) eqn:E; [done|]. destruct (core_stopped _ H E) as (_ & E2 & _).
  by rewrite E2, lookup_empty in Hx.
Qed.

Lemma ok_want_flush (l : list StreamPtr) (e : Engine) :
  quic_ok e -> started_ e = true -> quic_ok (set_want_flush l e).
Proof.
  intros [[H1 H2 H3 H4 H5 H6] H7 H8] E. split; [split|done|done]; simpl; try assumption. intros E'. congruence.
Qed.

Lemma wantFlush_fine (ls : LsStream) (x : StreamCtx) (e : Engine) :
  quic_ok e -> stream_ctxs e !! ls = Some x ->
  exists e', wantFlush ls e = Some e' /\ quic_ok e' /\ extends e e' /\ streams e' = streams e /\
             stream_ctxs e' !! ls = Some (set_flush true x) /\ (forall i, i <> ls -> stream_ctxs e' !! i = stream_ctxs e !! i).
Proof.
  intros H Hx. pose proof (ok_started ls x e H Hx) as Est. unfold wantFlush. rewrite Hx. simpl. destruct (want_flush x) eqn:Ef.
  { exists e. split; [done|]. split; [done|]. split; [reflexivity|]. split; [done|]. split; [|done].
    rewrite Hx. f_equal. destruct x. simpl in *. by subst. }
  destruct (ok_alter ls (set_flush true) e H) as [Hok He]; [done|intros; by left|].
  assert (Hl : stream_ctxs (update_stream_ctx ls (set_flush true) e) !! ls = Some (set_flush true x))
    by (simpl; by rewrite lookup_alter_eq, Hx).
  assert (Ho : forall i, i <> ls -> stream_ctxs (update_stream_ctx ls (set_flush true) e) !! i = stream_ctxs e !! i)
    by (intros i ?; simpl; by rewrite lookup_alter_ne).
  destruct (lock_stream x _) as [[s q]|]; [|by eexists].
  set (e1 := update_stream_ctx ls (set_flush true) e) in *.
  exists (wantProcess (set_want_flush (want_flush_ e1 ++ [s]) e1)). split; [done|].
  assert (Hw : quic_ok (set_want_flush (want_flush_ e1 ++ [s]) e1)) by (by apply ok_want_flush).
  unfold wantProcess. destruct (want_process_ _); (split; [first [exact Hw|framed]|]);
    (split; [etransitivity; [exact He|kept]|done]).
Qed.

Lemma flush_each_fine (l : list StreamPtr) : forall e, quic_ok e ->
  match flush_each l e with
  | Some e' => quic_ok e' /\ extends e e'
  | None => exists s q, s ∈ l /\ streams e !! s = Some q /\ stream_ctx_ q = None
  end.
Proof.
  induction l as [|s l IH]; intros e H; simpl; [split; [done|reflexivity]|].
  destruct (streams e !! s) as [q|] eqn:Es.
  2: { specialize (IH e H). destruct (flush_each l e); [done|]. destruct IH as (s' & q & Hin & ?).
       exists s', q. split; [by right|done]. }
  destruct (stream_ctx_ q) as [ls|] eqn:Eq; simpl; [|exists s, q; split; [left|done]].
  destruct (proj2 (core_streams _ H s q Es) ls Eq) as (x & Hx & _). rewrite Hx. simpl.
  destruct (ok_alter ls (set_flush false) e H) as [Hok He]; [done|intros; by left|].
  set (e1 := call _ _). assert (H1 : quic_ok e1) by framed. assert (E1 : extends e e1) by (etransitivity; [exact He|kept]).
  specialize (IH e1 H1). destruct (flush_each l e1) as [e2|].
  - destruct IH as [? ?]. split; [done|]. by etransitivity.
  - destruct IH as (s' & q' & Hin & Hq & ?). exists s', q'. split; [by right|]. split; [exact Hq|done].
Qed.
Lemma flush_each_none (l : list StreamPtr) : forall e s q,
  s ∈ l -> streams e !! s = Some q -> stream_ctx_ q = None -> flush_each l e = None.
Proof.
  induction l as [|s l IH]; intros e s' q Hin Hq En; simpl; [by apply not_elem_of_nil in Hin|].
  apply elem_of_cons in Hin. destruct (decide (s' = s)) as [->|n]; [by rewrite Hq, En|].
  destruct Hin as [->|Hin]; [done|]. destruct (streams e !! s) as [q'|] eqn:Es; [|by apply (IH e s' q)].
  destruct (stream_ctx_ q') as [ls|]; [|done]. simpl. destruct (stream_ctxs e !! ls); [|done]. simpl. by eapply IH.
Qed.

Lemma ok_stop_flush (e : Engine) : quic_ok e -> quic_ok (set_want_flush [] (set_want_process false e)).
Proof.
  intros [[H1 H2 H3 H4 H5 H6] H7 H8]. split; [split|done|done]; simpl; try assumption. intros E. by destruct (H6 E) as (? & ? & ?).
Qed.

(** [process] fails exactly when a stream that waits to be flushed was closed. *)
Lemma process_spec (e : Engine) : quic_ok e ->
  (process e = None <-> exists s q, s ∈ want_flush_ e /\ streams e !! s = Some q /\ stream_ctx_ q = None) /\
  (process e <> None -> fine e (process e)).
Proof.
  intros H. unfold process. simpl. pose proof (flush_each_fine (want_flush_ e) _ (ok_stop_flush e H)) as F. split; [split|].
  - intros E. rewrite E in F. exact F.
  - intros (s & q & Hin & Hq & En). by eapply flush_each_none.
  - intros E. destruct (flush_each _ _) as [e'|] eqn:Ef; [|done]. destruct F as [? F]. apply fine_some; [done|].
    etransitivity; [|exact F]. kept.
Qed.

Lemma start_fine (e : Engine) : quic_ok e -> fine e (start e).
Proof.
  intros H. unfold start. destruct (started_ e) eqn:E; [apply fine_some; [done|reflexivity]|].
  destruct (core_stopped _ H E) as (E1 & E2 & E3). unfold process. simpl. rewrite E3. simpl. apply fine_some; [|kept].
  destruct H as [[H1 H2 H3 H4 H5 H6] H7 H8]. split; [split|done|done]; simpl; try assumption. done.
Qed.

(** *** Streams *)

Lemma read_attempt_fine (s : StreamPtr) (a : read_answer) (q : QuicStream) (ls : LsStream) (e : Engine) :
  quic_ok e -> streams e !! s = Some q -> stream_ctx_ q = Some ls -> fine e (read_attempt s a e).
Proof.
  intros H Hq Eq. unfold read_attempt. rewrite Hq. simpl. rewrite Eq. simpl.
  destruct (proj2 (core_streams _ H s q Hq) ls Eq) as (x & Hx & Es). rewrite Hx. simpl.
  destruct a; apply fine_some; first [framed|kept|idtac]; (destruct (ok_alter ls (set_reading true) e H) as [Hok He];
    [done|intros y Hy _; right; exists s, q; split; [congruence|done]|]); [framed|etransitivity; [exact He|kept]].
Qed.
Lemma write_attempt_fine (s : StreamPtr) (a : write_answer) (q : QuicStream) (ls : LsStream) (e : Engine) :
  quic_ok e -> streams e !! s = Some q -> stream_ctx_ q = Some ls -> fine e (write_attempt s a e).
Proof.
  intros H Hq Eq. unfold write_attempt. rewrite Hq. simpl. rewrite Eq. simpl.
  destruct (proj2 (core_streams _ H s q Hq) ls Eq) as (x & Hx & Es).
  destruct (wantFlush_fine ls x e H Hx) as (e1 & E1 & H1 & He1 & Est & Hx1 & _). rewrite E1. simpl.
  assert (forall e2, quic_ok e2 -> extends e1 e2 -> fine e (Some e2)) as K by (intros; apply fine_some; [done|by etransitivity]).
  destruct a; apply K; first [framed|kept|idtac]; (destruct (ok_alter ls (set_writing true) e1 H1) as [Hok He];
    [done|intros y Hy _; right; exists s, q; rewrite Est; simplify_eq/=; auto|]); [framed|etransitivity; [exact He|kept]].
Qed.

Lemma readSome_fine (s : StreamPtr) (a : read_answer) (e : Engine) : quic_ok e -> fine e (readSome s a e).
Proof.
  intros H. unfold readSome. destruct (streams e !! s) as [q|] eqn:Hq; [|apply fine_some; [done|reflexivity]].
  destruct (stream_ctx_ q) as [ls|] eqn:Eq; [|apply fine_some; [framed|kept]].
  destruct (proj2 (core_streams _ H s q Hq) ls Eq) as (x & Hx & Es). rewrite Hx. simpl.
  destruct (reading x); [apply fine_some; [framed|kept]|]. by eapply read_attempt_fine.
Qed.
Lemma writeSome_fine (s : StreamPtr) (a : write_answer) (e : Engine) : quic_ok e -> fine e (writeSome s a e).
Proof.
  intros H. unfold writeSome. destruct (streams e !! s) as [q|] eqn:Hq; [|apply fine_some; [done|reflexivity]].
  destruct (stream_ctx_ q) as [ls|] eqn:Eq; [|apply fine_some; [framed|kept]].
  destruct (proj2 (core_streams _ H s q Hq) ls Eq) as (x & Hx & Es). rewrite Hx. simpl.
  destruct (writing x); [apply fine_some; [framed|kept]|]. by eapply write_attempt_fine.
Qed.

Lemma stream_call_fine (k : LsStream -> ls_call) (s : StreamPtr) (e : Engine) : quic_ok e ->
  exists e', stream_call k s e = Some e' /\ quic_ok e' /\ extends e e' /\ streams e' = streams e /\ stream_ctxs e' = stream_ctxs e.
Proof.
  intros H. unfold stream_call. destruct (streams e !! s) as [q|] eqn:Hq; [|unchanged e].
  destruct (stream_ctx_ q) as [ls|] eqn:Eq; [|unchanged e].
  destruct (proj2 (core_streams _ H s q Hq) ls Eq) as (x & Hx & Es). rewrite Hx. simpl.
  eexists. split; [done|]. split; [framed|]. split; [kept|done].
Qed.

Lemma ok_delete_stream (s : StreamPtr) (e : Engine) :
  quic_ok e -> waits s e = false -> quic_ok (set_streams (delete s (streams e)) e).
Proof.
  intros H Hw. pose proof H as [[H1 H2 H3 H4 H5 H6] H7 H8]. split; [split|done|done]; simpl; try assumption.
  - intros s' q Hq. apply lookup_delete_Some in Hq as [_ Hq]. eauto.
  - intros ls x s' Hx Es. destruct (H2 ls x s' Hx Es) as [L Hs]. split; [done|]. intros q Hq.
    apply lookup_delete_Some in Hq as [_ Hq]. eauto.
  - intros ls x Hx E. destruct (H5 ls x Hx E) as (s' & q & Es & Hq). exists s', q. split; [done|].
    apply lookup_delete_Some. split; [|done]. intros ->. unfold waits in Hw. rewrite Hq in Hw. simpl in Hw.
    rewrite (proj2 (H2 ls x s' Hx Es) q Hq) in Hw. simpl in Hw. rewrite Hx in Hw. congruence.
Qed.
Lemma drop_stream_fine (s : StreamPtr) (e : Engine) : quic_ok e -> fine e (drop_stream s e).
Proof.
  intros H. unfold drop_stream. destruct (waits s e) eqn:Hw; [apply fine_some; [done|reflexivity]|].
  destruct (stream_call_fine lsquic_stream_close s e H) as (e1 & E1 & H1 & He & Es & Ec). unfold reset. rewrite E1. simpl.
  apply fine_some; [|etransitivity; [exact He|kept]]. apply ok_delete_stream; [done|]. unfold waits in *. by rewrite Es, Ec.
Qed.

(** *** Connections *)

Lemma close_conn_fine (c : ConnPtr) (e : Engine) : quic_ok e ->
  exists e', close_conn c e = Some e' /\ quic_ok e' /\ extends e e' /\ streams e' = streams e.
Proof.
  intros H. unfold close_conn. destruct (connections e !! c) as [q|] eqn:Hq; [|unchanged e].
  destruct (conn_ctx_ q) as [lc|] eqn:Eq; [|unchanged e].
  destruct (proj2 (core_conns _ H c q Hq) lc Eq) as (x & Hx & Es). rewrite Hx. simpl.
  eexists. split; [done|]. split; [framed|]. split; [kept|done].
Qed.

(** Connections may go, and may be changed as long as their context is not. *)
Lemma ok_connections (m : gmap ConnPtr QuicConnection) (e : Engine) :
  quic_ok e ->
  (forall c q, m !! c = Some q -> exists q', connections e !! c = Some q' /\ conn_ctx_ q = conn_ctx_ q') ->
  quic_ok (set_connections m e).
Proof.
  intros [[H1 H2 H3 H4 H5 H6] H7 H8] Hm. split; [split|done|done]; simpl; try assumption.
  - intros c q Hq. destruct (Hm c q Hq) as (q' & Hq' & ->). eauto.
  - intros lc x c Hx Ec. destruct (H4 lc x c Hx Ec) as (L & Eo & Hc). split; [done|]. split; [done|]. intros q Hq.
    destruct (Hm c q Hq) as (q' & Hq' & ->). eauto.
Qed.
Lemma drop_conn_fine (c : ConnPtr) (e : Engine) : quic_ok e -> fine e (drop_conn c e).
Proof.
  intros H. unfold drop_conn. destruct (existsb _ _); [apply fine_some; [done|reflexivity]|].
  destruct (close_conn_fine c e H) as (e1 & E1 & H1 & He & Es). rewrite E1. simpl.
  apply fine_some; [|etransitivity; [exact He|kept]]. apply ok_connections; [done|]. intros c' q Hq.
  apply lookup_delete_Some in Hq as [_ Hq]. by exists q.
Qed.
Lemma onStream_ok (c : ConnPtr) (s : StreamPtr) (e : Engine) : quic_ok e -> quic_ok (onStream c s e).
Proof.
  intros H. apply ok_connections; [done|]. intros c' q Hq. apply lookup_alter_Some in Hq as [(-> & q' & Hq & ->)|[n Hq]]; by eexists.
Qed.
Lemma acceptStream_fine (c : ConnPtr) (e : Engine) : quic_ok e -> fine e (fst <$> acceptStream c e).
Proof.
  intros H. unfold acceptStream. destruct (connections e !! c) as [q|] eqn:Hq; [|apply fine_some; [done|reflexivity]].
  destruct (stream_signal_ q); [apply fine_some; [done|reflexivity]|]. simpl. apply fine_some; [|kept].
  apply ok_connections; [done|]. intros c' q' Hq'. apply lookup_insert_Some in Hq' as [[<- <-]|[n Hq']]; by eexists.
Qed.
Lemma asyncAccept_fine (e : Engine) : quic_ok e -> fine e (Some (fst (asyncAccept e))).
Proof.
  intros H. unfold asyncAccept. destruct (conn_signal_ e); simpl; [apply fine_some; [done|reflexivity]|]. apply fine_some; [framed|kept].
Qed.

(** *** New streams *)

(** The stream [next_ptr] and its context. *)
Definition with_stream (c : ConnPtr) (ls : LsStream) (initiator : bool) (e : Engine) : Engine :=
  let s := next_ptr e in
  set_stream_ctxs (<[ls := mkStreamCtx (Some s) false false false]> (stream_ctxs e))
    (set_streams (<[s := mkQuicStream c (Some ls) initiator]> (streams e)) (allocated e)).
Definition with_refused (ls : LsStream) (e : Engine) : Engine :=
  call (lsquic_stream_close ls) (set_stream_ctxs (<[ls := mkStreamCtx None false false false]> (stream_ctxs e)) e).

Lemma engine_newStream_spec (lc : LsConn) (x : ConnCtx) (n_pending : nat) (made : option LsStream) (e : Engine) :
  conn_ctxs e !! lc = Some x -> new_stream x = None ->
  engine_newStream lc n_pending made e
  = Some (if (n_pending =? 0)%nat
          then match made with
               | None => (e, failure CANT_OPEN_STREAM)
               | Some ls => match lock_conn x e with
                            | Some (c, _) => (with_stream c ls true e, success (next_ptr e))
                            | None => (with_refused ls e, failure CANT_OPEN_STREAM)
                            end
               end
          else (e, failure TOO_MANY_STREAMS)).
Proof.
  intros Hx En. unfold engine_newStream. rewrite Hx. simpl. rewrite En. destruct (n_pending =? 0)%nat; [|done]. simpl.
  assert (Hid : forall m : gmap LsConn ConnCtx, m = conn_ctxs e -> <[lc := mkConnCtx (connecting x) None (conn x)]> m = m).
  { intros m ->. apply insert_id. rewrite Hx. f_equal. destruct x; simpl in *; by subst. }
  destruct made as [ls|]; simpl.
  - unfold on_new_stream. simpl. rewrite lookup_insert_eq. simpl.
    change (lock_conn (mkConnCtx (connecting x) (Some None) (conn x)) _) with (lock_conn x e).
    destruct (lock_conn x e) as [[c q]|]; simpl; rewrite lookup_insert_eq; simpl; do 2 f_equal.
    + unfold with_stream, set_conn_ctxs. simpl. by rewrite !insert_insert_eq, Hid.
    + unfold with_refused, call, set_conn_ctxs. simpl. by rewrite insert_insert_eq, Hid.
  - rewrite lookup_insert_eq. simpl. do 2 f_equal. unfold set_conn_ctxs. simpl. rewrite insert_insert_eq, Hid by done. by destruct e.
Qed.
Lemma on_new_stream_spec (lc : LsConn) (x : ConnCtx) (ls : LsStream) (e : Engine) :
  conn_ctxs e !! lc = Some x -> new_stream x = None ->
  on_new_stream lc ls e
  = Some match lock_conn x e with
         | Some (c, _) => onStream c (next_ptr e) (with_stream c ls false e)
         | None => with_refused ls e
         end.
Proof. intros Hx En. unfold on_new_stream. rewrite Hx. simpl. rewrite En. destruct (lock_conn x e) as [[c q]|]; reflexivity. Qed.

Lemma fresh_ctx (ls : LsStream) (y : StreamCtx) (e : Engine) :
  stream_ctxs e !! ls = None -> extends e (set_stream_ctxs (<[ls := y]> (stream_ctxs e)) e).
Proof. intros Hn. split; simpl; [done|]. intros i [z Hz]. exists z. rewrite lookup_insert_ne; [done|congruence]. Qed.

Lemma with_stream_fine (c : ConnPtr) (ls : LsStream) (b : bool) (e : Engine) :
  quic_ok e -> stream_ctxs e !! ls = None -> started_ e = true -> fine e (Some (with_stream c ls b e)).
Proof.
  intros H Hn Est. pose proof H as [[H1 H2 H3 H4 H5 H6] H7 H8].
  apply fine_some; [|destruct (fresh_ctx ls (mkStreamCtx (Some (next_ptr e)) false false false) e Hn); by split].
  split; [split|done|done]; simpl.
  - intros s q Hq. apply lookup_insert_Some in Hq as [[<- <-]|[n Hq]].
    + split; [lia|]. intros ls' [= <-]. rewrite lookup_insert_eq. by eexists.
    + destruct (H1 s q Hq) as [L Hc]. split; [lia|]. intros ls' E. destruct (Hc ls' E) as (x & Hx & Es).
      exists x. rewrite lookup_insert_ne; [done|congruence].
  - intros ls' x s Hx Es. apply lookup_insert_Some in Hx as [[<- <-]|[n Hx]].
    + simplify_eq/=. split; [lia|]. intros q Hq. rewrite lookup_insert_eq in Hq. by simplify_eq/=.
    + destruct (H2 ls' x s Hx Es) as [L Hs]. split; [lia|]. intros q Hq. rewrite lookup_insert_ne in Hq by lia. eauto.
  - intros c' q Hq. destruct (H3 c' q Hq). split; [lia|done].
  - intros lc x c' Hx Ec. destruct (H4 lc x c' Hx Ec) as (? & ? & ?). split; [lia|done].
  - intros ls' x Hx Ew. apply lookup_insert_Some in Hx as [[<- <-]|[n Hx]]; [done|].
    destruct (H5 ls' x Hx Ew) as (s & q & Es & Hq). exists s, q. split; [done|]. rewrite lookup_insert_ne; [done|].
    pose proof (proj1 (H1 s q Hq)). lia.
  - congruence.
Qed.
Lemma with_refused_fine (ls : LsStream) (e : Engine) :
  quic_ok e -> stream_ctxs e !! ls = None -> started_ e = true -> fine e (Some (with_refused ls e)).
Proof.
  intros H Hn Est. pose proof H as [[H1 H2 H3 H4 H5 H6] H7 H8].
  apply fine_some; [|destruct (fresh_ctx ls (mkStreamCtx None false false false) e Hn); by split].
  split; [split|done|done]; simpl; try assumption.
  - intros s q Hq. destruct (H1 s q Hq) as [L Hc]. split; [done|]. intros ls' E. destruct (Hc ls' E) as (x & Hx & Es).
    exists x. rewrite lookup_insert_ne; [done|congruence].
  - intros ls' x s Hx Es. apply lookup_insert_Some in Hx as [[<- <-]|[n Hx]]; [done|eauto].
  - intros ls' x Hx Ew. apply lookup_insert_Some in Hx as [[<- <-]|[n Hx]]; [done|eauto].
  - congruence.
Qed.

Lemma ok_started_conn (lc : LsConn) (x : ConnCtx) (e : Engine) : quic_ok e -> conn_ctxs e !! lc = Some x -> started_ e = true.
Proof.
  intros H Hx. destruct (started_ e) eqn:E; [done|]. destruct (core_stopped _ H E) as (E2 & _). by rewrite E2, lookup_empty in Hx.
Qed.

Lemma newStream_fine (c : ConnPtr) (n_pending : nat) (made : option LsStream) (e : Engine) :
  quic_ok e -> made ≫= (fun ls => stream_ctxs e !! ls) = None -> fine e (fst <$> newStream c n_pending made e).
Proof.
  intros H Hm. unfold newStream. destruct (connections e !! c) as [q|] eqn:Hq; [|apply fine_some; [done|reflexivity]].
  destruct (conn_ctx_ q) as [lc|] eqn:Eq; [|apply fine_some; [done|reflexivity]].
  destruct (proj2 (core_conns _ H c q Hq) lc Eq) as (x & Hx & Ec). pose proof (ok_started_conn lc x e H Hx) as Est.
  rewrite (engine_newStream_spec lc x n_pending made e Hx (ok_new_stream _ H lc x Hx)). simpl.
  destruct (n_pending =? 0)%nat; [|apply fine_some; [done|reflexivity]].
  destruct made as [ls|]; [|apply fine_some; [done|reflexivity]].
  destruct (lock_conn x e) as [[c' q']|]; [by apply with_stream_fine|by apply with_refused_fine].
Qed.
Lemma on_new_stream_fine (lc : LsConn) (x : ConnCtx) (ls : LsStream) (e : Engine) :
  quic_ok e -> conn_ctxs e !! lc = Some x -> stream_ctxs e !! ls = None -> fine e (on_new_stream lc ls e).
Proof.
  intros H Hx Hn. rewrite (on_new_stream_spec lc x ls e Hx (ok_new_stream _ H lc x Hx)).
  pose proof (ok_started_conn lc x e H Hx) as Est. destruct (lock_conn x e) as [[c q]|]; [|by apply with_refused_fine].
  destruct (with_stream_fine c ls false e H Hn Est) as (e1 & [= <-] & H1 & He).
  apply fine_some; [by apply onStream_ok|]. etransitivity; [exact He|kept].
Qed.

(** *** Contexts of connections *)

Lemma ok_put_ctx (lc : LsConn) (y : ConnCtx) (e : Engine) :
  quic_ok e -> started_ e = true -> new_stream y = None -> conn y = conn_ctxs e !! lc ≫= conn ->
  conn y = None \/ connecting y = None ->
  quic_ok (set_conn_ctxs (<[lc := y]> (conn_ctxs e)) e) /\ extends e (set_conn_ctxs (<[lc := y]> (conn_ctxs e)) e).
Proof.
  intros [[H1 H2 H3 H4 H5 H6] H7 H8] Est En Ec Hor. split; [split; [split|done|]; simpl; try assumption|].
  - intros c q Hq. destruct (H3 c q Hq) as [L Hc]. split; [done|]. intros lc' E. destruct (Hc lc' E) as (x & Hx & Es).
    destruct (decide (lc' = lc)) as [->|n].
    + exists y. rewrite lookup_insert_eq. split; [done|]. by rewrite Ec, Hx.
    + exists x. by rewrite lookup_insert_ne.
  - intros lc' x c Hx Es. apply lookup_insert_Some in Hx as [[<- <-]|[n Hx]]; [|eauto].
    destruct Hor as [En'|Eo]; [congruence|]. destruct (conn_ctxs e !! lc) as [x|] eqn:Hx; simpl in Ec; [|congruence].
    rewrite Ec in Es. destruct (H4 lc x c Hx Es) as (? & ? & ?). auto.
  - congruence.
  - intros lc' x Hx. apply lookup_insert_Some in Hx as [[<- <-]|[n Hx]]; eauto.
  - split; simpl; [|done]. intros i [z Hz]. destruct (decide (i = lc)) as [->|n];
      [rewrite lookup_insert_eq|rewrite lookup_insert_ne, Hz by done]; by eexists.
Qed.

Lemma ok_add_conn (lc : LsConn) (x : ConnCtx) (q : QuicConnection) (e : Engine) :
  quic_ok e -> conn_ctxs e !! lc = Some x -> conn x = None -> conn_ctx_ q = Some lc ->
  fine e (Some (set_conn_ctxs (<[lc := mkConnCtx None None (Some (next_ptr e))]> (conn_ctxs e))
                  (set_connections (<[next_ptr e := q]> (connections e)) (allocated e)))).
Proof.
  intros H Hx Hc Eq. pose proof (ok_started_conn lc x e H Hx) as Est. pose proof H as [[H1 H2 H3 H4 H5 H6] H7 H8].
  apply fine_some. { split; [split|done|]; simpl.
  - intros s r Hr. destruct (H1 s r Hr). split; [lia|done].
  - intros ls y s Hy Es. destruct (H2 ls y s Hy Es). split; [lia|done].
  - intros c r Hr. apply lookup_insert_Some in Hr as [[<- <-]|[n Hr]].
    + split; [lia|]. intros lc' E. assert (lc' = lc) as -> by congruence. rewrite lookup_insert_eq. by eexists.
    + destruct (H3 c r Hr) as [L Hl]. split; [lia|]. intros lc' E. destruct (Hl lc' E) as (y & Hy & Ey).
      exists y. rewrite lookup_insert_ne; [done|congruence].
  - intros lc' y c Hy Es. apply lookup_insert_Some in Hy as [[<- <-]|[n Hy]].
    + simplify_eq/=. split; [lia|]. split; [done|]. intros r Hr. rewrite lookup_insert_eq in Hr. congruence.
    + destruct (H4 lc' y c Hy Es) as (L & Eo & Hl). split; [lia|]. split; [done|]. intros r Hr.
      rewrite lookup_insert_ne in Hr by lia. eauto.
  - exact H5.
  - congruence.
  - intros lc' y Hy. apply lookup_insert_Some in Hy as [[<- <-]|[n Hy]]; eauto. }
  split; simpl; [|done]. intros i [z Hz]. destruct (decide (i = lc)) as [->|n];
    [rewrite lookup_insert_eq|rewrite lookup_insert_ne, Hz by done]; by eexists.
Qed.

Lemma conn_detached_spec (lc : LsConn) (x : ConnCtx) (e : Engine) (c : ConnPtr) (q : QuicConnection) :
  quic_ok e -> conn_ctxs e !! lc = Some x -> connections (conn_detached x e) !! c = Some q ->
  exists q', connections e !! c = Some q' /\ conn_ctx_ q = (if decide (conn_ctx_ q' = Some lc) then None else conn_ctx_ q').
Proof.
  intros H Hx Hq. assert (conn x = Some c /\ is_Some (connections e !! c) \/ connections e !! c = Some q /\ conn x <> Some c)
    as [[Ec [q' Hq']]|[Hq' n]].
  { unfold conn_detached, lock_conn in Hq. destruct (conn x) as [cx|]; simpl in Hq; [|by right].
    destruct (decide (cx = c)) as [->|n]; destruct (connections e !! _) as [qx|] eqn:Eq; simpl in Hq; try (by left); try congruence.
    - rewrite lookup_alter_ne in Hq by done. right. split; congruence.
    - right. split; congruence. }
  - exists q'. split; [done|]. unfold conn_detached, lock_conn in Hq. rewrite Ec in Hq. simpl in Hq. rewrite Hq' in Hq. simpl in Hq.
    rewrite lookup_alter_eq, Hq' in Hq. simplify_eq/=.
    rewrite decide_True; [done|]. by apply (core_conn_ctxs _ H lc x c Hx Ec).
  - exists q. split; [done|]. rewrite decide_False; [done|]. intros El.
    destruct (proj2 (core_conns _ H c q Hq') lc El) as (y & Hy & Ey). congruence.
Qed.

Lemma ok_forget_conn (lc : LsConn) (x : ConnCtx) (e : Engine) :
  quic_ok e -> conn_ctxs e !! lc = Some x ->
  quic_ok (set_conn_ctxs (delete lc (conn_ctxs (conn_detached x e))) (conn_detached x e)).
Proof.
  intros H Hx. pose proof (ok_started_conn lc x e H Hx) as Est. pose proof (fun c q => conn_detached_spec lc x e c q H Hx) as K.
  destruct H as [[H1 H2 H3 H4 H5 H6] H7 H8].
  assert (E : streams (conn_detached x e) = streams e /\ stream_ctxs (conn_detached x e) = stream_ctxs e /\
              conn_ctxs (conn_detached x e) = conn_ctxs e /\ next_ptr (conn_detached x e) = next_ptr e /\
              started_ (conn_detached x e) = started_ e /\ connecting_ (conn_detached x e) = connecting_ e)
    by (unfold conn_detached; by destruct (lock_conn x e) as [[??]|]).
  destruct E as (E1 & E2 & E3 & E4 & E5 & E6). split; [split|simpl; congruence|]; simpl; rewrite ?E1, ?E2, ?E3, ?E4, ?E5.
  - exact H1.
  - exact H2.
  - intros c q Hq. destruct (K c q Hq) as (q' & Hq' & El). destruct (H3 c q' Hq') as [L Hc]. split; [done|]. intros l Eq.
    rewrite El in Eq. destruct (decide _) as [|n]; [done|]. destruct (Hc l Eq) as (y & Hy & Ey). exists y.
    rewrite lookup_delete_ne; [done|congruence].
  - intros l y c Hy Ey. apply lookup_delete_Some in Hy as [n Hy]. destruct (H4 l y c Hy Ey) as (L & Eo & Hc). split; [done|].
    split; [done|]. intros q Hq. destruct (K c q Hq) as (q' & Hq' & El). specialize (Hc q' Hq').
    rewrite El, Hc, decide_False by congruence. done.
  - exact H5.
  - congruence.
  - intros l y Hy. apply lookup_delete_Some in Hy as [n Hy]. eauto.
Qed.

Lemma stream_detached_spec (ls : LsStream) (x : StreamCtx) (e : Engine) (s : StreamPtr) (q : QuicStream) :
  quic_ok e -> stream_ctxs e !! ls = Some x -> streams (stream_detached x e) !! s = Some q ->
  exists q', streams e !! s = Some q' /\ stream_ctx_ q = (if decide (stream_ctx_ q' = Some ls) then None else stream_ctx_ q').
Proof.
  intros H Hx Hq. assert (stream x = Some s /\ is_Some (streams e !! s) \/ streams e !! s = Some q /\ stream x <> Some s)
    as [[Ec [q' Hq']]|[Hq' n]].
  { unfold stream_detached, lock_stream in Hq. destruct (stream x) as [cx|]; simpl in Hq; [|by right].
    destruct (decide (cx = s)) as [->|n]; destruct (streams e !! _) as [qx|] eqn:Eq; simpl in Hq; try (by left); try congruence.
    - rewrite lookup_alter_ne in Hq by done. right. split; congruence.
    - right. split; congruence. }
  - exists q'. split; [done|]. unfold stream_detached, lock_stream in Hq. rewrite Ec in Hq. simpl in Hq. rewrite Hq' in Hq. simpl in Hq.
    rewrite lookup_alter_eq, Hq' in Hq. simplify_eq/=.
    rewrite decide_True; [done|]. by apply (core_stream_ctxs _ H ls x s Hx Ec).
  - exists q. split; [done|]. rewrite decide_False; [done|]. intros El.
    destruct (proj2 (core_streams _ H s q Hq') ls El) as (y & Hy & Ey). congruence.
Qed.
Lemma stream_detached_live (x : StreamCtx) (e : Engine) (s : StreamPtr) :
  is_Some (streams e !! s) -> is_Some (streams (stream_detached x e) !! s).
Proof.
  intros [q Hq]. unfold stream_detached. destruct (lock_stream x e) as [[s' q']|]; [|by eexists]. simpl.
  destruct (decide (s = s')) as [->|n]; [rewrite lookup_alter_eq|rewrite lookup_alter_ne by done]; rewrite Hq; by eexists.
Qed.

Lemma ok_forget_stream (ls : LsStream) (x : StreamCtx) (e : Engine) :
  quic_ok e -> stream_ctxs e !! ls = Some x ->
  quic_ok (set_stream_ctxs (delete ls (stream_ctxs (stream_detached x e))) (stream_detached x e)).
Proof.
  intros H Hx. pose proof (ok_started ls x e H Hx) as Est. pose proof (fun s q => stream_detached_spec ls x e s q H Hx) as K.
  destruct H as [[H1 H2 H3 H4 H5 H6] H7 H8].
  assert (E : connections (stream_detached x e) = connections e /\ stream_ctxs (stream_detached x e) = stream_ctxs e /\
              conn_ctxs (stream_detached x e) = conn_ctxs e /\ next_ptr (stream_detached x e) = next_ptr e /\
              started_ (stream_detached x e) = started_ e /\ connecting_ (stream_detached x e) = connecting_ e)
    by (unfold stream_detached; by destruct (lock_stream x e) as [[??]|]).
  destruct E as (E1 & E2 & E3 & E4 & E5 & E6). split; [split|simpl; congruence|]; simpl; rewrite ?E1, ?E2, ?E3, ?E4, ?E5.
  - intros s q Hq. destruct (K s q Hq) as (q' & Hq' & El). destruct (H1 s q' Hq') as [L Hc]. split; [done|]. intros l Eq.
    rewrite El in Eq. destruct (decide _) as [|n]; [done|]. destruct (Hc l Eq) as (y & Hy & Ey). exists y.
    rewrite lookup_delete_ne; [done|congruence].
  - intros l y s Hy Ey. apply lookup_delete_Some in Hy as [n Hy]. destruct (H2 l y s Hy Ey) as (L & Hc). split; [done|].
    intros q Hq. destruct (K s q Hq) as (q' & Hq' & El). specialize (Hc q' Hq'). by rewrite El, Hc, decide_False by congruence.
  - exact H3.
  - exact H4.
  - intros l y Hy Ew. apply lookup_delete_Some in Hy as [n Hy]. destruct (H5 l y Hy Ew) as (s & q & Es & Hq).
    destruct (stream_detached_live x e s) as [q' Hq']; [by eexists|]. by exists s, q'.
  - congruence.
  - exact H8.
Qed.

(** *** The application *)

Lemma connect_fine (remote : endpoint) (peer : Multihash) (cb : nat) (created : option LsConn) (e : Engine) :
  quic_ok e -> created ≫= (fun lc => conn_ctxs e !! lc) = None -> fine e (connect remote peer cb created e).
Proof.
  intros H Hn. unfold connect. apply fine_bind; [by apply start_fine|]. intros e1 E1 H1 He1. rewrite (ok_connecting _ H1).
  assert (Es : started_ e1 = true /\ conn_ctxs e1 = conn_ctxs e).
  { unfold start in E1. destruct (started_ e) eqn:Est; [by simplify_eq|]. unfold process in E1. simpl in E1.
    rewrite (proj2 (proj2 (core_stopped _ H Est))) in E1. simpl in E1. by simplify_eq/=. }
  destruct Es as [Est Ec]. destruct created as [lc|]; simpl in *; unfold wantProcess; simpl.
  - rewrite <- Ec in Hn.
    destruct (ok_put_ctx lc (mkConnCtx (Some (mkConnecting remote peer cb)) None None) e1 H1 Est) as [Hok He]; [done|by rewrite Hn|by left|].
    destruct (want_process_ e1); (apply fine_some; [|etransitivity; [exact He|kept]]);
      (eapply ok_frame; [exact Hok|reflexivity..|simpl; by rewrite (ok_connecting _ H1)]).
  - destruct (want_process_ e1); (apply fine_some; [|kept]); (eapply ok_frame; [exact H1|reflexivity..|simpl; by rewrite (ok_connecting _ H1)]).
Qed.

Lemma app_step_fine (e : Engine) (k : app_call) : quic_ok e -> fine e (app_step e k).
Proof.
  intros H. destruct k; simpl.
  - destruct (decide _); [by apply connect_fine|apply fine_some; [done|reflexivity]].
  - by apply asyncAccept_fine.
  - by apply acceptStream_fine.
  - destruct (decide _); [by apply newStream_fine|apply fine_some; [done|reflexivity]].
  - by apply readSome_fine.
  - by apply writeSome_fine.
  - destruct (stream_call_fine lsquic_stream_shutdown s e H) as (e1 & E1 & ? & ? & _). by exists e1.
  - destruct (stream_call_fine lsquic_stream_close s e H) as (e1 & E1 & ? & ? & _). by exists e1.
  - by apply drop_stream_fine.
  - destruct (close_conn_fine c e H) as (e1 & E1 & ? & ? & _). by exists e1.
  - by apply drop_conn_fine.
Qed.
Lemma app_run_fine (ks : list app_call) : forall e, quic_ok e -> fine e (app_run ks e).
Proof.
  induction ks as [|k ks IH]; intros e H; simpl; [apply fine_some; [done|reflexivity]|].
  apply fine_bind; [by apply app_step_fine|]. intros e' _ H' _. by apply IH.
Qed.

(** *** Callbacks *)

Lemma resume_reading_fine (ls : LsStream) (a : read_answer) (apps : list app_call) (e : Engine) :
  quic_ok e -> is_Some (stream_ctxs e !! ls) -> fine e (resume_reading ls a apps e).
Proof.
  intros H [x Hx]. unfold resume_reading. rewrite Hx. simpl. destruct (reading x) eqn:Er; [|apply fine_some; [done|reflexivity]].
  destruct (core_waiting _ H ls x Hx) as (s & q & Es & Hq); [by rewrite Er|]. rewrite Es. simpl.
  destruct (ok_alter ls (set_reading false) e H) as [H1 He1]; [done|intros y Hy Ew; left; simpl in Ew; by rewrite Ew, orb_true_r|].
  destruct (read_attempt_fine s a q ls _ H1 Hq) as (e2 & -> & H2 & He2); [by apply (core_stream_ctxs _ H ls x s)|]. simpl.
  destruct a; (destruct (app_run_fine apps e2 H2) as (e3 & E3 & H3 & He3)); rewrite ?E3;
    (apply fine_some; [done|etransitivity; [exact He1|]; first [exact He2|by etransitivity]]).
Qed.
Lemma resume_writing_fine (ls : LsStream) (a : write_answer) (apps : list app_call) (e : Engine) :
  quic_ok e -> is_Some (stream_ctxs e !! ls) -> fine e (resume_writing ls a apps e).
Proof.
  intros H [x Hx]. unfold resume_writing. rewrite Hx. simpl. destruct (writing x) eqn:Er; [|apply fine_some; [done|reflexivity]].
  destruct (core_waiting _ H ls x Hx) as (s & q & Es & Hq); [by rewrite Er, orb_true_r|]. rewrite Es. simpl.
  destruct (ok_alter ls (set_writing false) e H) as [H1 He1]; [done|intros y Hy Ew; left; simpl in Ew; rewrite orb_false_r in Ew; by rewrite Ew|].
  destruct (write_attempt_fine s a q ls _ H1 Hq) as (e2 & -> & H2 & He2); [by apply (core_stream_ctxs _ H ls x s)|]. simpl.
  destruct a; (destruct (app_run_fine apps e2 H2) as (e3 & E3 & H3 & He3)); rewrite ?E3;
    (apply fine_some; [done|etransitivity; [exact He1|]; first [exact He2|by etransitivity]]).
Qed.

Definition safe (o : option Engine) : Prop := exists e', o = Some e' /\ quic_ok e'.
Lemma fine_safe (e : Engine) (o : option Engine) : fine e o -> safe o.
Proof. intros (e' & -> & ? & _). by exists e'. Qed.

Lemma on_close_safe (ls : LsStream) (r : read_answer) (apps1 : list app_call) (w : write_answer) (apps2 : list app_call) (e : Engine) :
  quic_ok e -> is_Some (stream_ctxs e !! ls) -> safe (on_close ls r apps1 w apps2 e).
Proof.
  intros H Hx. unfold on_close. destruct (resume_reading_fine ls r apps1 e H Hx) as (e1 & -> & H1 & He1). simpl.
  destruct (resume_writing_fine ls w apps2 e1 H1) as (e2 & -> & H2 & He2); [by apply (ext_stream _ _ He1)|]. simpl.
  destruct (ext_stream _ _ He2 ls) as [x2 Hx2]; [by apply (ext_stream _ _ He1)|]. rewrite Hx2. simpl.
  eexists. split; [done|]. by apply ok_forget_stream.
Qed.

Lemma on_conn_closed_safe (lc : LsConn) (apps : list app_call) (e : Engine) :
  quic_ok e -> is_Some (conn_ctxs e !! lc) -> safe (on_conn_closed lc apps e).
Proof.
  intros H [x Hx]. unfold on_conn_closed. rewrite Hx. simpl. pose proof (ok_started_conn lc x e H Hx) as Est.
  assert (K : fine e match connecting x with
              | Some op => app_run apps (answer op (failure (OfQuic CONN_CLOSED))
                             (set_conn_ctxs (<[lc := mkConnCtx None (new_stream x) (conn x)]> (conn_ctxs e)) e))
              | None => Some e end).
  { destruct (connecting x) as [op|]; [|apply fine_some; [done|reflexivity]].
    destruct (ok_put_ctx lc (mkConnCtx None (new_stream x) (conn x)) e H Est) as [H1 He1];
      [exact (ok_new_stream _ H lc x Hx)|by rewrite Hx|by right|].
    match goal with |- fine _ (app_run _ ?e1) => assert (H2 : quic_ok e1) by framed; destruct (app_run_fine apps e1 H2) as (e3 & -> & H3 & He3) end.
    apply fine_some; [done|]. etransitivity; [exact He1|]. etransitivity; [|exact He3]. kept. }
  destruct K as (e1 & -> & H1 & He1). simpl. destruct (ext_conn _ _ He1 lc) as [x1 Hx1]; [by eexists|]. rewrite Hx1. simpl.
  eexists. split; [done|]. by apply ok_forget_conn.
Qed.

Section Safety.
Context `{Providers, RsaDer, Protobuf} {Cert : Type} `{!X509 Cert} (sha256 : bytes -> bytes).

(** [on_hsk_done]: the operation, the result, and the connection it makes. *)
Definition handshake_result (op : option Connecting) (h : handshake (Cert := Cert)) :
    option (outcome conn_error (PublicKey * Multihash)) :=
  if negb (hsk_ok h) then Some (failure (OfQuic HANDSHAKE_FAILED))
  else match verifyPeerAndExtractIdentity sha256 (certificate h) with
       | None => None
       | Some (failure err) => Some (failure (OfTls err))
       | Some (success (key, id)) =>
           if match op with Some op => negb (bool_decide (id = expected_peer op)) | None => false end
           then Some (failure TLS_UNEXPECTED_PEER_ID)
           else if address_ok h then Some (success (key, id)) else None
       end.
Lemma on_hsk_done_spec (lc : LsConn) (x : ConnCtx) (h : handshake) (e : Engine) :
  conn_ctxs e !! lc = Some x -> new_stream x = None ->
  on_hsk_done sha256 lc h e
  = match handshake_result (connecting x) h with
    | None => None
    | Some (failure err) =>
        Some (call (lsquic_conn_close lc) (set_conn_ctxs (<[lc := mkConnCtx None None (conn x)]> (conn_ctxs e)) e),
              connecting x, failure err)
    | Some (success (key, id)) =>
        let q := mkQuicConnection (Some lc) (match connecting x with Some _ => true | None => false end) id key [] in
        Some (set_conn_ctxs (<[lc := mkConnCtx None None (Some (next_ptr e))]> (conn_ctxs e))
                (set_connections (<[next_ptr e := q]> (connections e)) (allocated e)),
              connecting x, success (next_ptr e))
    end.
Proof.
  intros Hx En. unfold on_hsk_done, handshake_result. rewrite Hx. simpl. rewrite En. destruct (hsk_ok h); simpl; [|done].
  destruct (verifyPeerAndExtractIdentity sha256 (certificate h)) as [[[key id]|err]|]; [|done..].
  destruct (match connecting x with Some _ => _ | None => _ end); [done|]. destruct (address_ok h); simpl; [|done].
  unfold set_conn_ctxs. simpl. by rewrite insert_insert_eq.
Qed.

Lemma on_hsk_done_fine (lc : LsConn) (x : ConnCtx) (h : handshake) (e : Engine) :
  quic_ok e -> conn_ctxs e !! lc = Some x -> conn x = None ->
  match on_hsk_done sha256 lc h e with
  | Some (e', _, _) => quic_ok e' /\ extends e e'
  | None => handshake_result (connecting x) h = None
  end.
Proof.
  intros Hok Hx Ec. rewrite (on_hsk_done_spec lc x h e Hx (ok_new_stream _ Hok lc x Hx)).
  destruct (handshake_result _ h) as [[[key id]|err]|]; [| |done].
  - cbv zeta. match goal with |- context [<[next_ptr e := ?q]>] => destruct (ok_add_conn lc x q e Hok Hx Ec eq_refl) as (e' & [= <-] & ? & ?) end.
    done.
  - destruct (ok_put_ctx lc (mkConnCtx None None (conn x)) e Hok (ok_started_conn lc x e Hok Hx)) as [Hk He1];
      [done|by rewrite Hx|by right|]. split; [framed|]. etransitivity; [exact He1|kept].
Qed.

(** A certificate whose check does not return, or a peer without a QUIC address. *)
Definition tls_fails (ev : event (Cert := Cert)) : Prop :=
  match ev with
  | AcceptConn _ h | HandshakeDone _ h _ =>
      hsk_ok h = true /\ (verifyPeerAndExtractIdentity sha256 (certificate h) = None \/ address_ok h = false)
  | _ => False
  end.
(** A stream that was written to and closed before it could be flushed. *)
Definition flush_closed (e : Engine) : Prop :=
  exists s q, s ∈ want_flush_ e /\ streams e !! s = Some q /\ stream_ctx_ q = None.

Lemma handshake_result_none (op : option Connecting) (h : handshake) :
  handshake_result op h = None ->
  hsk_ok h = true /\ (verifyPeerAndExtractIdentity sha256 (certificate h) = None \/ address_ok h = false).
Proof.
  unfold handshake_result. destruct (hsk_ok h); simpl; [|done]. intros E. split; [done|].
  destruct (verifyPeerAndExtractIdentity sha256 (certificate h)) as [[[key id]|err]|]; [|done|by left].
  destruct (match op with Some _ => _ | None => _ end); [done|]. destruct (address_ok h); [done|by right].
Qed.

Lemma known_some {A} (o : option A) : known o = true -> is_Some o.
Proof. destruct o; [by eexists|done]. Qed.

Lemma step_spec (e : Engine) (ev : event) : quic_ok e ->
  match step sha256 e ev with
  | Some e' => quic_ok e'
  | None => tls_fails ev \/ ev = Process /\ flush_closed e
  end.
Proof.
  intros Hok. assert (K : forall o, safe o -> match o with Some e' => quic_ok e' | None => tls_fails ev \/ ev = Process /\ flush_closed e end)
    by (intros ? (e' & -> & ?); done).
  unfold step. destruct (negb (possible e ev)) eqn:Ep; [done|]. apply negb_false_iff in Ep. destruct ev; simpl in Ep.
  - apply K. eapply fine_safe. by apply app_step_fine.
  - apply andb_prop in Ep as [Est En]. destruct (conn_ctxs e !! lc) eqn:Hl; [done|]. unfold accept_conn.
    destruct (ok_put_ctx lc (mkConnCtx None None None) e Hok Est) as [Hk He1]; [done|by rewrite Hl|by left|].
    pose proof (on_hsk_done_fine lc (mkConnCtx None None None) h _ Hk (lookup_insert_eq _ _ _) eq_refl) as F.
    destruct (on_hsk_done _ _ _ _) as [[[e2 op] r]|]; simpl; [|left; by apply handshake_result_none with None].
    destruct F. framed.
  - apply known_some in Ep as [op Eo]. destruct (conn_ctxs e !! lc) as [x|] eqn:Hx; [simpl in Eo|done]. unfold handshake_done.
    assert (Ec : conn x = None) by (destruct (conn x) eqn:Ec; [|done]; destruct (core_conn_ctxs _ Hok lc x _ Hx Ec) as (_ & ? & _); congruence).
    pose proof (on_hsk_done_fine lc x h e Hok Hx Ec) as F.
    destruct (on_hsk_done _ _ _ _) as [[[e2 op'] r]|]; simpl; [|left; by apply handshake_result_none with (connecting x)].
    destruct F as [Hk2 _]. apply K. destruct op' as [op'|]; [|eexists; split; [done|framed]].
    eapply fine_safe, app_run_fine. framed.
  - apply K, on_conn_closed_safe; [done|by apply known_some].
  - apply andb_prop in Ep as [E1 E2]. apply known_some in E1 as [x Hx]. apply K. eapply fine_safe, on_new_stream_fine; [done|exact Hx|].
    by destruct (stream_ctxs e !! ls).
  - apply K. eapply fine_safe, resume_reading_fine; [framed|by apply known_some].
  - apply K. eapply fine_safe, resume_writing_fine; [framed|by apply known_some].
  - apply K, on_close_safe; [done|by apply known_some].
  - apply K. by eapply fine_safe, start_fine.
  - destruct (process_spec e Hok) as [Hn Hf]. destruct (process e) as [e'|] eqn:E.
    + destruct Hf as (e2 & [= <-] & ? & _); done.
    + right. split; [done|]. by apply Hn.
Qed.

Lemma Engine_new_ok : quic_ok Engine_new.
Proof. split; [split|done|]; simpl; intros *; try by rewrite lookup_empty. done. Qed.

Lemma run_spec (evs : list event) : forall e, quic_ok e ->
  match run sha256 evs e with
  | Some e' => quic_ok e'
  | None => exists before ev after e', evs = before ++ ev :: after /\ run sha256 before e = Some e' /\ quic_ok e' /\
                                       (tls_fails ev \/ ev = Process /\ flush_closed e')
  end.
Proof.
  induction evs as [|ev evs IH]; intros e Hok; simpl; [done|].
  pose proof (step_spec e ev Hok) as S. destruct (step sha256 e ev) as [e1|] eqn:Es; simpl.
  - specialize (IH e1 S). destruct (run sha256 evs e1); [done|]. destruct IH as (b & ev' & a & e' & -> & Er & ? & ?).
    exists (ev :: b), ev', a, e'. simpl. by rewrite Es.
  - exists [], ev, evs, e. done.
Qed.
End Safety.

(** ** Claims *)
Section Claims.
Context `{Providers, RsaDer, Protobuf} {Cert : Type} `{!X509 Cert} (sha256 : bytes -> bytes).

(** C14: no dangling pointer.  However lsquic's callbacks, the application's calls
    (those made inside callbacks included) and the flushes are ordered, the pointers
    of the program stay consistent, and an event fails only in one of three ways: a
    handshake ends with a certificate whose check does not return, or with a peer whose
    remote address cannot be written as a QUIC address, so that [value()] throws in
    [on_hsk_done]; or [Engine::process] runs when a stream that was written to has been closed and is still
    held by the application, in which case it always fails. *)
Theorem quic_runs_safe (evs : list (event (Cert := Cert))) :
  match run sha256 evs Engine_new with
  | Some e => quic_ok e /\ (process e = None <-> flush_closed e)
  | None => exists before ev after e, evs = before ++ ev :: after /\ run sha256 before Engine_new = Some e /\ quic_ok e /\
                                      (tls_fails sha256 ev \/ ev = Process /\ flush_closed e)
  end.
Proof.
  pose proof (run_spec sha256 evs Engine_new Engine_new_ok) as R. destruct (run sha256 evs Engine_new) as [e|]; [|done].
  split; [done|]. by apply process_spec.
Qed.
End Claims.
