(* ===== verification/QuicAuth.v ===== *)
(** * QUIC: operations and identities

    Every [connect] is answered once, and connections belong to peers whose
    certificates were checked.  The last section runs the model on concrete events. *)

From S2P Require Import Prelude Varint Multihash Base58 ByteUtil PeerAddress TcpUtil Keys Tls Quic QuicSafe.
Import Key Provider Validator Marshaller.

(** ** Operations answered once, peers authenticated *)

(** The operations that wait for a handshake. *)
Definition pending_of (m : gmap LsConn ConnCtx) : list Connecting := snd <$> map_to_list (omap connecting m).
Definition pending (e : Engine) : list Connecting := pending_of (conn_ctxs e).

(** What an operation other than [connect] leaves alone. *)
Record neutral (e e' : Engine) : Prop := {
  nt_requests : requests e' = requests e;
  nt_answers : answers e' = answers e;
  nt_ctxs lc : conn_ctxs e' !! lc ≫= connecting = conn_ctxs e !! lc ≫= connecting;
  nt_conns c q : connections e' !! c = Some q -> exists q', connections e !! c = Some q' /\
    remote_peer q = remote_peer q' /\ remote_key q = remote_key q' /\ conn_initiator q = conn_initiator q';
  nt_next : (next_ptr e <= next_ptr e')%nat
}.
#[global] Instance neutral_preorder : PreOrder neutral.
Proof.
  split.
  - intros e. split; eauto 10.
  - intros e1 e2 e3 [A1 A2 A3 A4 A5] [B1 B2 B3 B4 B5]. split; try congruence; [|lia]. intros c q Hq.
    destruct (B4 c q Hq) as (q2 & Hq2 & ? & ? & ?). destruct (A4 c q2 Hq2) as (q3 & Hq3 & ? & ? & ?). exists q3. repeat split; congruence.
Qed.
Lemma neutral_pending (e e' : Engine) : neutral e e' -> pending e' = pending e.
Proof. intros N. unfold pending, pending_of. do 2 f_equal. apply map_eq. intros lc. rewrite !lookup_omap. apply (nt_ctxs _ _ N). Qed.

Lemma neutral_frame (e e' : Engine) :
  requests e' = requests e -> answers e' = answers e -> conn_ctxs e' = conn_ctxs e -> connections e' = connections e ->
  next_ptr e' = next_ptr e -> neutral e e'.
Proof. intros E1 E2 E3 E4 E5. split; rewrite ?E1, ?E2, ?E3, ?E4, ?E5; eauto 10. Qed.
Ltac neutral := apply neutral_frame; reflexivity.

Lemma wantFlush_neutral (ls : LsStream) (e e' : Engine) : wantFlush ls e = Some e' -> neutral e e'.
Proof.
  unfold wantFlush. destruct (stream_ctxs e !! ls) as [x|]; simpl; [|done]. destruct (want_flush x); [intros [= <-]; reflexivity|].
  destruct (lock_stream _ _) as [[s q]|]; intros [= <-]; [|neutral]. unfold wantProcess. destruct (want_process_ _); neutral.
Qed.
Lemma flush_each_neutral (l : list StreamPtr) : forall e e', flush_each l e = Some e' -> neutral e e'.
Proof.
  induction l as [|s l IH]; intros e e'; simpl; [intros [= <-]; reflexivity|].
  destruct (streams e !! s) as [q|]; [|by apply IH]. destruct (stream_ctx_ q) as [ls|]; simpl; [|done].
  destruct (stream_ctxs e !! ls); simpl; [|done]. intros E. apply IH in E. etransitivity; [|exact E]. neutral.
Qed.
Lemma process_neutral (e e' : Engine) : process e = Some e' -> neutral e e'.
Proof. unfold process. intros E. apply flush_each_neutral in E. etransitivity; [|exact E]. neutral. Qed.
Lemma start_neutral (e e' : Engine) : start e = Some e' -> neutral e e'.
Proof.
  unfold start. destruct (started_ e); [intros [= <-]; reflexivity|]. intros E. apply process_neutral in E. etransitivity; [|exact E]. neutral.
Qed.
Lemma read_attempt_neutral (s : StreamPtr) (a : read_answer) (e e' : Engine) : read_attempt s a e = Some e' -> neutral e e'.
Proof.
  unfold read_attempt. destruct (streams e !! s) as [q|]; simpl; [|done]. destruct (stream_ctx_ q); simpl; [|done].
  destruct (stream_ctxs e !! _); simpl; [|done]. destruct a; intros [= <-]; neutral.
Qed.
Lemma write_attempt_neutral (s : StreamPtr) (a : write_answer) (e e' : Engine) : write_attempt s a e = Some e' -> neutral e e'.
Proof.
  unfold write_attempt. destruct (streams e !! s) as [q|]; simpl; [|done]. destruct (stream_ctx_ q) as [ls|]; simpl; [|done].
  destruct (wantFlush ls e) as [e1|] eqn:E; simpl; [|done]. apply wantFlush_neutral in E.
  destruct a; intros [= <-]; (etransitivity; [exact E|neutral]).
Qed.
Lemma stream_call_neutral (k : LsStream -> ls_call) (s : StreamPtr) (e e' : Engine) : stream_call k s e = Some e' -> neutral e e'.
Proof.
  unfold stream_call. destruct (streams e !! s) as [q|]; [|intros [= <-]; reflexivity].
  destruct (stream_ctx_ q); [|intros [= <-]; reflexivity]. destruct (stream_ctxs e !! _); simpl; [|done]. intros [= <-]. neutral.
Qed.
Lemma close_conn_neutral (c : ConnPtr) (e e' : Engine) : close_conn c e = Some e' -> neutral e e'.
Proof.
  unfold close_conn. destruct (connections e !! c) as [q|]; [|intros [= <-]; reflexivity].
  destruct (conn_ctx_ q); [|intros [= <-]; reflexivity]. destruct (conn_ctxs e !! _); simpl; [|done]. intros [= <-]. neutral.
Qed.
(** Connections may go, and what was received for them may change. *)
Lemma neutral_connections (m : gmap ConnPtr QuicConnection) (e : Engine) :
  (forall c q, m !! c = Some q -> exists q', connections e !! c = Some q' /\
     remote_peer q = remote_peer q' /\ remote_key q = remote_key q' /\ conn_initiator q = conn_initiator q') ->
  neutral e (set_connections m e).
Proof. intros Hm. split; simpl; auto. Qed.
Lemma with_stream_neutral (c : ConnPtr) (ls : LsStream) (b : bool) (e : Engine) : neutral e (with_stream c ls b e).
Proof. split; simpl; eauto 10. Qed.

Lemma newStream_neutral (c : ConnPtr) (n_pending : nat) (made : option LsStream) (e e' : Engine) :
  quic_ok e -> fst <$> newStream c n_pending made e = Some e' -> neutral e e'.
Proof.
  intros H. unfold newStream. destruct (connections e !! c) as [q|] eqn:Hq; [|intros [= <-]; reflexivity].
  destruct (conn_ctx_ q) as [lc|] eqn:Eq; [|intros [= <-]; reflexivity].
  destruct (proj2 (core_conns _ H c q Hq) lc Eq) as (x & Hx & Ec).
  rewrite (engine_newStream_spec lc x n_pending made e Hx (ok_new_stream _ H lc x Hx)). simpl. intros [= <-].
  destruct (n_pending =? 0)%nat; [|reflexivity]. destruct made as [ls|]; [|reflexivity].
  destruct (lock_conn x e) as [[c' q']|]; [apply with_stream_neutral|neutral].
Qed.
Lemma on_new_stream_neutral (lc : LsConn) (ls : LsStream) (e e' : Engine) :
  quic_ok e -> on_new_stream lc ls e = Some e' -> neutral e e'.
Proof.
  intros H E. destruct (conn_ctxs e !! lc) as [x|] eqn:Hx; [|by unfold on_new_stream in E; rewrite Hx in E].
  rewrite (on_new_stream_spec lc x ls e Hx (ok_new_stream _ H lc x Hx)) in E. injection E as <-.
  destruct (lock_conn x e) as [[c q]|]; [|neutral]. etransitivity; [apply (with_stream_neutral c ls false)|].
  apply neutral_connections. intros c' q' Hq. apply lookup_alter_Some in Hq as [(-> & q2 & Hq2 & ->)|[n Hq]]; by eexists.
Qed.
Lemma app_step_neutral (e e' : Engine) (k : app_call) :
  quic_ok e -> (forall remote peer cb created, k <> Connect remote peer cb created) -> app_step e k = Some e' -> neutral e e'.
Proof.
  intros H Hk. destruct k as [remote peer cb created| |c|c|s|s|s|s|s|c|c]; simpl; [by destruct (Hk remote peer cb created)|..].
  - intros [= <-]. unfold asyncAccept. destruct (conn_signal_ e); neutral.
  - unfold acceptStream. destruct (connections e !! c) as [q|] eqn:Hq; [|intros [= <-]; reflexivity].
    destruct (stream_signal_ q); intros [= <-]; [reflexivity|]. apply neutral_connections.
    intros c' q' Hq'. apply lookup_insert_Some in Hq' as [[<- <-]|[n Hq']]; by eexists.
  - destruct (decide _); [by apply newStream_neutral|intros [= <-]; reflexivity].
  - unfold readSome. destruct (streams e !! s) as [q|]; [|intros [= <-]; reflexivity]. destruct (stream_ctx_ q); [|intros [= <-]; neutral].
    destruct (stream_ctxs e !! _) as [x|]; simpl; [|done]. destruct (reading x); [intros [= <-]; neutral|apply read_attempt_neutral].
  - unfold writeSome. destruct (streams e !! s) as [q|]; [|intros [= <-]; reflexivity]. destruct (stream_ctx_ q); [|intros [= <-]; neutral].
    destruct (stream_ctxs e !! _) as [x|]; simpl; [|done]. destruct (writing x); [intros [= <-]; neutral|apply write_attempt_neutral].
  - apply stream_call_neutral.
  - apply stream_call_neutral.
  - unfold drop_stream. destruct (waits s e); [intros [= <-]; reflexivity|]. destruct (reset s e) as [e1|] eqn:E; simpl; [|done].
    intros [= <-]. etransitivity; [by eapply stream_call_neutral|neutral].
  - apply close_conn_neutral.
  - unfold drop_conn. destruct (existsb _ _); [intros [= <-]; reflexivity|]. destruct (close_conn c e) as [e1|] eqn:E; simpl; [|done].
    intros [= <-]. etransitivity; [by eapply close_conn_neutral|]. apply neutral_connections. intros c' q Hq.
    apply lookup_delete_Some in Hq as [_ Hq]. by exists q.
Qed.

Lemma pending_split (lc : LsConn) (m : gmap LsConn ConnCtx) :
  pending_of m ≡ₚ option_list (m !! lc ≫= connecting) ++ pending_of (delete lc m).
Proof.
  unfold pending_of. rewrite omap_delete, <- lookup_omap. destruct (omap connecting m !! lc) as [op|] eqn:E; simpl.
  - by rewrite <- (map_to_list_delete _ lc op E).
  - by rewrite delete_id.
Qed.
Lemma pending_insert (lc : LsConn) (y : ConnCtx) (m : gmap LsConn ConnCtx) :
  pending_of (<[lc := y]> m) ≡ₚ option_list (connecting y) ++ pending_of (delete lc m).
Proof. by rewrite (pending_split lc), lookup_insert_eq, delete_insert_eq. Qed.

Section Authentication.
Context `{Providers, RsaDer, Protobuf} {Cert : Type} `{!X509 Cert} (sha256 : bytes -> bytes).

(** Every operation is answered once or still waits; a connection belongs to a peer
    whose certificate was checked, and an operation that succeeded to the peer it
    asked for. *)
Record quic_auth (e : Engine) : Prop := {
  auth_once : requests e ≡ₚ (fst <$> answers e) ++ pending e;
  auth_conn c q : connections e !! c = Some q -> (c < next_ptr e)%nat /\
    exists cert : Cert, verifyPeerAndExtractIdentity sha256 cert = Some (success (remote_key q, remote_peer q));
  auth_answer op c : (op, success c) ∈ answers e -> (c < next_ptr e)%nat /\
    forall q, connections e !! c = Some q -> remote_peer q = expected_peer op /\ conn_initiator q = true
}.

Lemma neutral_auth (e e' : Engine) : quic_auth e -> neutral e e' -> quic_auth e'.
Proof.
  intros [A1 A2 A3] N. split.
  - rewrite (nt_requests _ _ N), (nt_answers _ _ N), (neutral_pending _ _ N). exact A1.
  - intros c q Hq. destruct (nt_conns _ _ N c q Hq) as (q' & Hq' & -> & -> & _). destruct (A2 c q' Hq') as [L ?].
    pose proof (nt_next _ _ N). split; [lia|done].
  - intros op c Hin. rewrite (nt_answers _ _ N) in Hin. destruct (A3 op c Hin) as [L Hc]. pose proof (nt_next _ _ N). split; [lia|].
    intros q Hq. destruct (nt_conns _ _ N c q Hq) as (q' & Hq' & -> & _ & ->). by apply Hc.
Qed.

(** The states of the engine that matter here. *)
Lemma auth_frame (e e' : Engine) :
  quic_auth e -> connections e' = connections e -> (next_ptr e <= next_ptr e')%nat ->
  requests e' ≡ₚ (fst <$> answers e') ++ pending e' ->
  (forall op c, (op, success c) ∈ answers e' -> (op, success c) ∈ answers e) -> quic_auth e'.
Proof.
  intros [A1 A2 A3] E1 L E2 E3. split; [done|..]; rewrite ?E1.
  - intros c q Hq. destruct (A2 c q Hq). split; [lia|done].
  - intros op c Hin. destruct (A3 op c (E3 _ _ Hin)). split; [lia|done].
Qed.

Lemma connect_auth (remote : endpoint) (peer : Multihash) (cb : nat) (created : option LsConn) (e e' : Engine) :
  quic_ok e -> quic_auth e -> created ≫= (fun lc => conn_ctxs e !! lc) = None -> connect remote peer cb created e = Some e' -> quic_auth e'.
Proof.
  intros Hok A Hn. unfold connect. destruct (start e) as [e1|] eqn:Es; simpl; [|done]. apply start_neutral in Es.
  pose proof (neutral_auth e e1 A Es) as A1. destruct (connecting_ e1) as [|]; [done|]. intros [= <-].
  match goal with |- quic_auth (wantProcess ?e2) => apply (neutral_auth e2) end;
    [|unfold wantProcess; destruct (want_process_ _); [reflexivity|neutral]].
  destruct created as [lc|]; simpl in *; eapply (auth_frame e1 _ A1); try reflexivity.
  - unfold pending. simpl. rewrite pending_insert. simpl.
    pose proof (pending_split lc (conn_ctxs e1)) as Hp. rewrite (nt_ctxs _ _ Es), Hn in Hp. simpl in Hp. rewrite <- Hp.
    rewrite (auth_once _ A1). unfold pending. solve_Permutation.
  - done.
  - unfold pending. simpl. rewrite (auth_once _ A1), fmap_app. unfold pending. simpl. solve_Permutation.
  - simpl. intros op c Hin. apply elem_of_app in Hin as [Hin|Hin]; [done|]. apply list_elem_of_singleton in Hin. congruence.
Qed.

Lemma app_step_auth (e e' : Engine) (k : app_call) : quic_ok e -> quic_auth e -> app_step e k = Some e' -> quic_auth e'.
Proof.
  intros Hok A E. destruct k as [remote peer cb created| | | | | | | | | |]; [|by eapply neutral_auth; [exact A|eapply app_step_neutral; [exact Hok| |exact E]]..].
  simpl in E. destruct (decide _); [by eapply connect_auth|congruence].
Qed.
Lemma app_run_auth (ks : list app_call) : forall e e', quic_ok e -> quic_auth e -> app_run ks e = Some e' -> quic_auth e'.
Proof.
  induction ks as [|k ks IH]; intros e e' Hok A E; simpl in E; [congruence|].
  destruct (app_step_fine e k Hok) as (e1 & E1 & Hok1 & _). rewrite E1 in E. simpl in E.
  apply (IH e1); [done|by apply (app_step_auth e e1 k)|done].
Qed.

(** An operation taken out of its context is answered. *)
Lemma answer_auth (lc : LsConn) (x y : ConnCtx) (op : Connecting) (r : outcome conn_error ConnPtr) (e e' : Engine) :
  quic_auth e -> conn_ctxs e !! lc = Some x -> connecting x = Some op -> connecting y = None ->
  conn_ctxs e' = <[lc := y]> (conn_ctxs e) -> answers e' = answers e ++ [(op, r)] -> requests e' = requests e ->
  requests e' ≡ₚ (fst <$> answers e') ++ pending e'.
Proof.
  intros A Hx Eo Ey E1 E2 E3. unfold pending. rewrite E1, E2, E3, pending_insert, Ey, (auth_once _ A). unfold pending.
  rewrite (pending_split lc (conn_ctxs e)), Hx, fmap_app. simpl. rewrite Eo. simpl. by rewrite <- app_assoc.
Qed.

Lemma failure_auth (lc : LsConn) (x y : ConnCtx) (op : Connecting) (err : conn_error) (e e' : Engine) :
  quic_auth e -> conn_ctxs e !! lc = Some x -> connecting x = Some op -> connecting y = None ->
  conn_ctxs e' = <[lc := y]> (conn_ctxs e) -> answers e' = answers e ++ [(op, failure err)] -> requests e' = requests e ->
  connections e' = connections e -> next_ptr e' = next_ptr e -> quic_auth e'.
Proof.
  intros A Hx Eo Ey E1 E2 E3 E4 E5. apply (auth_frame e); [done|done|by rewrite E5|by eapply answer_auth|].
  intros op' c. rewrite E2. intros Hin. apply elem_of_app in Hin as [Hin|Hin]; [done|]. apply list_elem_of_singleton in Hin. congruence.
Qed.

(** A new connection, of a peer whose certificate was checked. *)
Lemma add_conn_auth (q : QuicConnection) (cert : Cert) (e e' : Engine) :
  quic_auth e -> verifyPeerAndExtractIdentity sha256 cert = Some (success (remote_key q, remote_peer q)) ->
  connections e' = <[next_ptr e := q]> (connections e) -> next_ptr e' = S (next_ptr e) ->
  requests e' ≡ₚ (fst <$> answers e') ++ pending e' ->
  (forall op c, (op, success c) ∈ answers e' -> (op, success c) ∈ answers e \/
     c = next_ptr e /\ remote_peer q = expected_peer op /\ conn_initiator q = true) -> quic_auth e'.
Proof.
  intros [A1 A2 A3] Hv E1 E2 E3 E4. split; [done|..]; rewrite E1, E2.
  - intros c r Hr. apply lookup_insert_Some in Hr as [[<- <-]|[n Hr]]; [split; [lia|by exists cert]|].
    destruct (A2 c r Hr). split; [lia|done].
  - intros op c Hin. destruct (E4 op c Hin) as [Hin'|[-> Hq]].
    + destruct (A3 op c Hin') as [L Hc]. split; [lia|]. intros r Hr. rewrite lookup_insert_ne in Hr by lia. by apply Hc.
    + split; [lia|]. intros r Hr. rewrite lookup_insert_eq in Hr. by simplify_eq.
Qed.

Lemma handshake_result_success (op : option Connecting) (h : handshake) (key : PublicKey) (id : Multihash) :
  handshake_result sha256 op h = Some (success (key, id)) ->
  verifyPeerAndExtractIdentity sha256 (certificate h) = Some (success (key, id)) /\
  (forall o, op = Some o -> id = expected_peer o).
Proof.
  unfold handshake_result. destruct (negb (hsk_ok h)); [done|].
  destruct (verifyPeerAndExtractIdentity sha256 (certificate h)) as [[[key' id']|err]|]; [|done..].
  destruct op as [o|].
  - destruct (bool_decide (id' = expected_peer o)) eqn:E; simpl; [|done]. apply bool_decide_eq_true in E.
    destruct (address_ok h); [|done]. intros [= <- <-]. split; [done|]. by intros ? [= <-].
  - destruct (address_ok h); [|done]. intros [= <- <-]. done.
Qed.

Lemma accept_auth (lc : LsConn) (h : handshake) (e e' : Engine) :
  quic_auth e -> conn_ctxs e !! lc = None -> accept_conn sha256 lc h e = Some e' -> quic_auth e'.
Proof.
  intros A Hn. unfold accept_conn. set (e1 := set_conn_ctxs _ e).
  assert (Hp : pending_of (delete lc (conn_ctxs e)) = pending e) by (unfold pending; by rewrite delete_id).
  rewrite (on_hsk_done_spec sha256 lc (mkConnCtx None None None) h e1 (lookup_insert_eq _ _ _) eq_refl). simpl.
  destruct (handshake_result sha256 None h) as [[[key id]|err]|] eqn:Er; simpl; [intros [= <-]..|done].
  - apply handshake_result_success in Er as [Hv _]. eapply (add_conn_auth (mkQuicConnection (Some lc) false id key []) _ e);
      [done|exact Hv|reflexivity..| |by left].
    unfold pending. simpl. rewrite insert_insert_eq, pending_insert, Hp. apply (auth_once _ A).
  - apply (auth_frame e); [done..| |done]. unfold pending. simpl. rewrite insert_insert_eq, pending_insert, Hp. apply (auth_once _ A).
Qed.

Lemma handshake_auth (lc : LsConn) (h : handshake) (apps : list app_call) (e e' : Engine) :
  quic_ok e -> quic_auth e -> is_Some (conn_ctxs e !! lc ≫= connecting) -> handshake_done sha256 lc h apps e = Some e' -> quic_auth e'.
Proof.
  intros Hok A [op Eo]. destruct (conn_ctxs e !! lc) as [x|] eqn:Hx; simpl in Eo; [|done].
  assert (Ec : conn x = None) by (destruct (conn x) eqn:Ec; [|done]; destruct (core_conn_ctxs _ Hok lc x _ Hx Ec) as (_ & ? & _); congruence).
  pose proof (on_hsk_done_fine sha256 lc x h e Hok Hx Ec) as F.
  unfold handshake_done. rewrite (on_hsk_done_spec sha256 lc x h e Hx (ok_new_stream _ Hok lc x Hx)) in *. rewrite Eo in *.
  destruct (handshake_result sha256 (Some op) h) as [[[key id]|err]|] eqn:Er; simpl; [destruct F as [F _]..|done]; apply app_run_auth;
    try framed.
  - apply handshake_result_success in Er as [Hv Hid]. eapply (add_conn_auth (mkQuicConnection (Some lc) true id key []) _ e);
      [done|exact Hv|reflexivity..| |].
    + by eapply (answer_auth lc x (mkConnCtx None None (Some (next_ptr e))) op _ e).
    + simpl. intros o c Hin. apply elem_of_app in Hin as [Hin|Hin]; [by left|]. apply list_elem_of_singleton in Hin. simplify_eq.
      right. split; [done|]. split; [by apply Hid|done].
  - by eapply (failure_auth lc x (mkConnCtx None None (conn x)) op err e).
Qed.

Lemma connect_ctxs (remote : endpoint) (peer : Multihash) (cb : nat) (created : option LsConn) (lc : LsConn) (e e' : Engine) :
  created ≫= (fun lc => conn_ctxs e !! lc) = None -> connect remote peer cb created e = Some e' -> is_Some (conn_ctxs e !! lc) ->
  conn_ctxs e' !! lc ≫= connecting = conn_ctxs e !! lc ≫= connecting.
Proof.
  intros Hn. unfold connect. destruct (start e) as [e1|] eqn:Es; simpl; [|done]. apply start_neutral in Es.
  destruct (connecting_ e1); [done|]. intros [= <-] [x Hx]. rewrite <- (nt_ctxs _ _ Es lc). unfold wantProcess.
  destruct created as [lc'|]; simpl in *; destruct (want_process_ e1); simpl; try done;
    rewrite lookup_insert_ne by congruence; done.
Qed.
Lemma app_run_ctxs (ks : list app_call) (lc : LsConn) : forall e e', quic_ok e -> is_Some (conn_ctxs e !! lc) ->
  app_run ks e = Some e' -> conn_ctxs e' !! lc ≫= connecting = conn_ctxs e !! lc ≫= connecting.
Proof.
  induction ks as [|k ks IH]; intros e e' Hok Hx E; simpl in E; [congruence|].
  destruct (app_step_fine e k Hok) as (e1 & E1 & Hok1 & He1). rewrite E1 in E. simpl in E.
  rewrite (IH e1 e' Hok1 (ext_conn _ _ He1 lc Hx) E).
  destruct k as [remote peer cb created| | | | | | | | | |]; [|by eapply nt_ctxs, app_step_neutral; [exact Hok| |exact E1]..].
  simpl in E1. destruct (decide _); [by eapply connect_ctxs|congruence].
Qed.

Lemma conn_detached_neutral (x : ConnCtx) (e : Engine) : neutral e (conn_detached x e).
Proof.
  unfold conn_detached. destruct (lock_conn x e) as [[c q]|]; [|reflexivity]. apply neutral_connections. intros c' q' Hq.
  apply lookup_alter_Some in Hq as [(-> & q2 & Hq2 & ->)|[n Hq]]; by eexists.
Qed.

Lemma forget_auth (lc : LsConn) (e : Engine) :
  quic_auth e -> conn_ctxs e !! lc ≫= connecting = None -> quic_auth (set_conn_ctxs (delete lc (conn_ctxs e)) e).
Proof.
  intros A E. apply (neutral_auth e); [done|]. split; simpl; eauto 10. intros lc'. destruct (decide (lc' = lc)) as [->|n];
    [by rewrite lookup_delete_eq, E|by rewrite lookup_delete_ne].
Qed.

Lemma conn_closed_auth (lc : LsConn) (apps : list app_call) (e e' : Engine) :
  quic_ok e -> quic_auth e -> on_conn_closed lc apps e = Some e' -> quic_auth e'.
Proof.
  intros Hok A. unfold on_conn_closed. destruct (conn_ctxs e !! lc) as [x|] eqn:Hx; simpl; [|done].
  assert (K : forall o e2, o = Some e2 -> quic_auth e2 -> conn_ctxs e2 !! lc ≫= connecting = None ->
    (o ≫= (fun e => conn_ctxs e !! lc ≫= fun x => Some (set_conn_ctxs (delete lc (conn_ctxs (conn_detached x e))) (conn_detached x e)))) = Some e' ->
    quic_auth e').
  { intros o e2 -> A2 En. simpl. destruct (conn_ctxs e2 !! lc) as [x2|] eqn:Hx2; simpl; [|done]. intros [= <-]. apply forget_auth.
    - apply (neutral_auth e2); [done|apply conn_detached_neutral].
    - rewrite (nt_ctxs _ _ (conn_detached_neutral x2 e2) lc), Hx2. exact En. }
  destruct (connecting x) as [op|] eqn:Eo; [|apply (K _ e); [done|done|by rewrite Hx]].
  set (e1 := answer op _ _).
  assert (A1 : quic_auth e1) by (by eapply (failure_auth lc x (mkConnCtx None (new_stream x) (conn x)) op _ e)).
  destruct (ok_put_ctx lc (mkConnCtx None (new_stream x) (conn x)) e Hok (ok_started_conn lc x e Hok Hx)) as [Hk He1];
    [exact (ok_new_stream _ Hok lc x Hx)|by rewrite Hx|by right|]. assert (Hok1 : quic_ok e1) by framed.
  destruct (app_run_fine apps e1 Hok1) as (e2 & E2 & _). apply (K _ e2); [done|by eapply app_run_auth|].
  rewrite (app_run_ctxs apps lc e1 e2 Hok1); [|simpl; rewrite lookup_insert_eq; by eexists|done]. simpl. by rewrite lookup_insert_eq.
Qed.

Lemma resume_reading_auth (ls : LsStream) (a : read_answer) (apps : list app_call) (e e' : Engine) :
  quic_ok e -> quic_auth e -> resume_reading ls a apps e = Some e' -> quic_auth e'.
Proof.
  intros Hok A. unfold resume_reading. destruct (stream_ctxs e !! ls) as [x|] eqn:Hx; simpl; [|done].
  destruct (reading x) eqn:Er; [|intros [= <-]; done].
  destruct (core_waiting _ Hok ls x Hx) as (s & q & Es & Hq); [by rewrite Er|]. rewrite Es. simpl.
  destruct (ok_alter ls (set_reading false) e Hok) as [Hk He1]; [done|intros y Hy Ew; left; simpl in Ew; by rewrite Ew, orb_true_r|].
  destruct (read_attempt_fine s a q ls _ Hk Hq) as (e2 & E2 & Hk2 & _); [by apply (core_stream_ctxs _ Hok ls x s)|]. rewrite E2. simpl.
  assert (A2 : quic_auth e2) by (eapply neutral_auth; [exact A|]; etransitivity; [|by eapply read_attempt_neutral]; neutral).
  destruct a; first [by apply app_run_auth|by intros [= <-]].
Qed.
Lemma resume_writing_auth (ls : LsStream) (a : write_answer) (apps : list app_call) (e e' : Engine) :
  quic_ok e -> quic_auth e -> resume_writing ls a apps e = Some e' -> quic_auth e'.
Proof.
  intros Hok A. unfold resume_writing. destruct (stream_ctxs e !! ls) as [x|] eqn:Hx; simpl; [|done].
  destruct (writing x) eqn:Er; [|intros [= <-]; done].
  destruct (core_waiting _ Hok ls x Hx) as (s & q & Es & Hq); [by rewrite Er, orb_true_r|]. rewrite Es. simpl.
  destruct (ok_alter ls (set_writing false) e Hok) as [Hk He1]; [done|intros y Hy Ew; left; simpl in Ew; rewrite orb_false_r in Ew; by rewrite Ew|].
  destruct (write_attempt_fine s a q ls _ Hk Hq) as (e2 & E2 & Hk2 & _); [by apply (core_stream_ctxs _ Hok ls x s)|]. rewrite E2. simpl.
  assert (A2 : quic_auth e2) by (eapply neutral_auth; [exact A|]; etransitivity; [|by eapply write_attempt_neutral]; neutral).
  destruct a; first [by apply app_run_auth|by intros [= <-]].
Qed.
Lemma on_close_auth (ls : LsStream) (r : read_answer) (apps1 : list app_call) (w : write_answer) (apps2 : list app_call) (e e' : Engine) :
  quic_ok e -> quic_auth e -> is_Some (stream_ctxs e !! ls) -> on_close ls r apps1 w apps2 e = Some e' -> quic_auth e'.
Proof.
  intros Hok A Hx. unfold on_close. destruct (resume_reading_fine ls r apps1 e Hok Hx) as (e1 & E1 & Hok1 & He1). rewrite E1. simpl.
  pose proof (resume_reading_auth ls r apps1 e e1 Hok A E1) as A1.
  destruct (resume_writing_fine ls w apps2 e1 Hok1) as (e2 & E2 & Hok2 & He2); [by apply (ext_stream _ _ He1)|]. rewrite E2. simpl.
  pose proof (resume_writing_auth ls w apps2 e1 e2 Hok1 A1 E2) as A2.
  destruct (stream_ctxs e2 !! ls) as [x2|]; simpl; [|done]. intros [= <-]. apply (neutral_auth e2); [done|].
  unfold stream_detached. destruct (lock_stream x2 e2) as [[s q]|]; neutral.
Qed.

Lemma step_auth (e e' : Engine) (ev : event) : quic_ok e -> quic_auth e -> step sha256 e ev = Some e' -> quic_auth e'.
Proof.
  intros Hok A. unfold step. destruct (negb (possible e ev)) eqn:Ep; [by intros [= <-]|]. apply negb_false_iff in Ep.
  destruct ev; simpl in Ep.
  - by apply app_step_auth.
  - apply andb_prop in Ep as [Est En]. apply accept_auth; [done|]. by destruct (conn_ctxs e !! lc).
  - apply handshake_auth; [done|done|]. by apply known_some.
  - by apply conn_closed_auth.
  - intros E. apply (neutral_auth e); [done|]. by eapply on_new_stream_neutral.
  - apply resume_reading_auth; [framed|]. apply (neutral_auth e); [done|neutral].
  - apply resume_writing_auth; [framed|]. apply (neutral_auth e); [done|neutral].
  - apply on_close_auth; [done|done|]. by apply known_some.
  - intros E. apply (neutral_auth e); [done|]. by apply start_neutral.
  - intros E. apply (neutral_auth e); [done|]. by apply process_neutral.
Qed.
Lemma run_auth (evs : list event) : forall e e', quic_ok e -> quic_auth e -> run sha256 evs e = Some e' -> quic_auth e'.
Proof.
  induction evs as [|ev evs IH]; intros e e' Hok A E; simpl in E; [congruence|].
  pose proof (step_spec sha256 e ev Hok) as S. destruct (step sha256 e ev) as [e1|] eqn:Es; simpl in E; [|done].
  apply (IH e1); [done|by apply (step_auth e e1 ev)|done].
Qed.
Lemma Engine_new_auth : quic_auth Engine_new.
Proof. split; simpl; [done|intros *; by rewrite lookup_empty|]. intros op c Hin. by apply not_elem_of_nil in Hin. Qed.
End Authentication.

(** ** Claims *)
Section Claims.
Context `{Providers, RsaDer, Protobuf} {Cert : Type} `{!X509 Cert} (sha256 : bytes -> bytes).

(** C15: dialling over QUIC.  In every run, each [connect] was answered exactly once
    or still waits for its handshake; a connection that exists belongs to a peer whose
    certificate passed [verifyPeerAndExtractIdentity] with the key and the id the
    connection reports; and a [connect] that succeeded got a connection to the peer it
    asked for. *)
Theorem quic_runs_authentic (evs : list (event (Cert := Cert))) (e : Engine) :
  run sha256 evs Engine_new = Some e ->
  requests e ≡ₚ (fst <$> answers e) ++ pending e
  /\ (forall c q, connections e !! c = Some q -> exists cert : Cert,
        verifyPeerAndExtractIdentity sha256 cert = Some (success (remote_key q, remote_peer q)))
  /\ (forall op c q, (op, success c) ∈ answers e -> connections e !! c = Some q ->
        remote_peer q = expected_peer op /\ conn_initiator q = true).
Proof.
  intros E. destruct (run_auth sha256 evs _ _ Engine_new_ok (Engine_new_auth sha256) E) as [A1 A2 A3]. split; [done|]. split.
  - intros c q Hq. by apply A2 in Hq as [_ ?].
  - intros op c q Hin Hq. by apply (A3 op c Hin).
Qed.
End Claims.

(** ** Concrete runs *)
Import Keys.Toy Tls.ToyX509.

Definition toy_certificate : bytes * bytes :=
  ([5; 6], marshalExtensionData ([8; 1; 18; 32] ++ replicate 32 1) (replicate 64 23)).
Definition toy_hash : bytes -> bytes := fun _ => replicate 32 7.
Definition toy_handshake : handshake (Cert := bytes * bytes) := mkHandshake true toy_certificate true.
Definition toy_peer : option Multihash :=
  match verifyPeerAndExtractIdentity toy_hash toy_certificate with Some (success (_, id)) => Some id | _ => None end.

Definition toy_remote : endpoint := mkEndpoint (V4 [127; 0; 0; 1]) 9000.
(** A dialled connection, on which the application opens a stream and writes; the
    stream is closed by the peer before the next flush. *)
Definition toy_events (id : Multihash) : list (event (Cert := bytes * bytes)) :=
  [App (Connect toy_remote id 1 (Some 5)); HandshakeDone 5 toy_handshake [NewStream 0 0 (Some 9); WriteSome 1 (Written 3)];
   OnClose 9 ReadEnd [] WriteError []]%nat.
Definition toy_final (id : Multihash) : Engine := default Engine_new (run toy_hash (toy_events id) Engine_new).

Lemma quic_runs_authentic_witness :
  exists id, toy_peer = Some id /\
    requests (toy_final id) = [mkConnecting toy_remote id 1] /\ answers (toy_final id) = [(mkConnecting toy_remote id 1, success 0%nat)] /\
    forall q, connections (toy_final id) !! 0%nat = Some q -> remote_peer q = id /\ conn_initiator q = true.
Proof.
  destruct toy_peer as [id|] eqn:E; [|vm_compute in E; discriminate]. exists id. split; [done|].
  assert (Er : run toy_hash (toy_events id) Engine_new = Some (toy_final id)).
  { vm_compute in E. injection E as <-. vm_compute. reflexivity. }
  assert (Ea : answers (toy_final id) = [(mkConnecting toy_remote id 1, success 0%nat)]).
  { vm_compute in E. injection E as <-. vm_compute. reflexivity. }
  split; [vm_compute in E; injection E as <-; vm_compute; reflexivity|]. split; [exact Ea|]. intros q Hq.
  apply (proj2 (proj2 (quic_runs_authentic toy_hash (toy_events id) (toy_final id) Er)) (mkConnecting toy_remote id 1) 0%nat q); [|exact Hq].
  rewrite Ea. apply list_elem_of_here.
Defined.

(** The state a peer reaches by closing a stream that waits to be flushed: the next
    [Engine::process] uses a null pointer. *)
Lemma flush_of_closed_stream_fails :
  exists id e, toy_peer = Some id /\ run toy_hash (toy_events id) Engine_new = Some e /\ flush_closed e /\
    run toy_hash (toy_events id ++ [Process]) Engine_new = None.
Proof.
  destruct toy_peer as [id|] eqn:E; [|vm_compute in E; discriminate]. exists id, (toy_final id). split; [done|].
  vm_compute in E. injection E as <-. split; [vm_compute; reflexivity|]. split; [|vm_compute; reflexivity].
  exists 1%nat, (mkQuicStream 0 None true). split; [|split; vm_compute; reflexivity]. 
  replace (want_flush_ _) with [1%nat] by (vm_compute; reflexivity). apply list_elem_of_here.
Qed.

(** A stream that lsquic could not open at once is reported as [CANT_OPEN_STREAM];
    when lsquic opens it later, it is announced as a stream of the other side. *)
Lemma late_stream_is_inbound (lc : LsConn) (x : ConnCtx) (c : ConnPtr) (q : QuicConnection) (ls : LsStream) (e : Engine) :
  conn_ctxs e !! lc = Some x -> new_stream x = None -> lock_conn x e = Some (c, q) ->
  engine_newStream lc 0 None e = Some (e, failure CANT_OPEN_STREAM) /\
  exists e' q', on_new_stream lc ls e = Some e' /\ streams e' !! next_ptr e = Some (mkQuicStream c (Some ls) false) /\
    connections e' !! c = Some q' /\ stream_signal_ q' = stream_signal_ q ++ [success (next_ptr e)].
Proof.
  intros Hx En El. rewrite (engine_newStream_spec lc x 0 None e Hx En). split; [done|].
  rewrite (on_new_stream_spec lc x ls e Hx En), El. eexists _, (signal (success (next_ptr e)) q). split; [done|]. simpl.
  rewrite lookup_insert_eq. split; [done|]. split; [|done].
  unfold lock_conn in El. destruct (conn x) as [c'|]; [|done]. simpl in El. destruct (connections e !! c') as [q'|] eqn:Hc; [|done].
  simpl in El. injection El as -> ->. by rewrite lookup_alter_eq, Hc.
Qed.
