(* ===== verification/QuicLoop.v ===== *)
(** * QUIC: packets and timers

    The rest of [transport/quic/engine.cpp]: the settings of an engine, the loop that
    reads UDP packets, the callback that sends them, and the timer.  [Quic.v] models
    what lsquic's callbacks do to connections and streams; here these callbacks happen
    inside the calls that the engine makes into lsquic, and the handlers that the engine
    leaves with the event loop (posted work, waits on the socket, waits on the timer)
    are counted.

    A call into lsquic calls back in any way: which callbacks happen is an argument. *)

From S2P Require Import Prelude Varint Multihash Base58 ByteUtil PeerAddress TcpUtil Keys Tls.
From S2P Require Import Quic QuicSafe QuicAuth.

(** ** Settings *)

(** [MuxedConnectionConfig]: sizes, and times in milliseconds. *)
Record MuxedConnectionConfig := mkMuxConfig {
  maximum_window_size : Z;
  maximum_streams : Z;
  ping_interval : Z;
  no_streams_interval : Z;
  dial_timeout : Z
}.
Definition default_mux_config : MuxedConnectionConfig := mkMuxConfig (64 * 1024 * 1024) 1000 5000 120000 (10 * 1000).

(** The fields of [lsquic_engine_settings] that the constructor sets. *)
Record engine_settings := mkSettings {
  es_versions : Z;
  es_init_max_stream_data_bidi_remote : Z;
  es_init_max_stream_data_bidi_local : Z;
  es_init_max_streams_bidi : Z;
  (** microseconds *)
  es_handshake_to : Z;
  (** seconds *)
  es_idle_timeout : Z
}.
(** Conversion to [unsigned]. *)
Definition u32 (z : Z) : Z := z mod 2 ^ 32.

(** Enumerators of lsquic. *)
Class LsquicConstants := { LSQVER_I001 : Z; LSENG_SERVER : Z }.
Section Settings.
Context `{LsquicConstants}.
Definition engine_flags (client : bool) : Z := if client then 0 else Z.lor 0 LSENG_SERVER.
Definition settings_of (mux_config : MuxedConnectionConfig) : engine_settings :=
  mkSettings
    (Z.shiftl 1 LSQVER_I001)
    (u32 (maximum_window_size mux_config))
    (u32 (maximum_window_size mux_config))
    (u32 (maximum_streams mux_config))
    (u64 (dial_timeout mux_config * 1000))
    (u32 (Z.quot (no_streams_interval mux_config) 1000)).
End Settings.

(** ** Addresses of the operating system *)

(** By address family: [AF_INET], [AF_INET6], and others. *)
Inductive sockaddr := sockaddr_in (b : bytes) (port : Z) | sockaddr_in6 (b : bytes) (port : Z) | sockaddr_other (family : Z).

(** [None] is the exception. *)
Definition endpointFrom (raw : sockaddr) : option endpoint :=
  match raw with
  | sockaddr_in b p => Some (mkEndpoint (V4 b) p)
  | sockaddr_in6 b p => Some (mkEndpoint (V6 b) p)
  | sockaddr_other _ => None
  end.
(** [endpoint::data] *)
Definition sockaddr_of (e : endpoint) : sockaddr :=
  match ep_ip e with V4 b => sockaddr_in b (ep_port e) | V6 b => sockaddr_in6 b (ep_port e) end.

(** ** State *)

Record datagram := mkDatagram { payload : bytes; remote : endpoint }.
(** What [recvfrom] gives next: a datagram, or an error other than [EAGAIN]. *)
Inductive arrival := Datagram (d : datagram) | SocketFault.
(** What [sendmsg] answers. *)
Inductive send_answer := Sent | SendAgain | SendFault.

Inductive io_call := PacketIn (d : datagram) | ProcessConns | SendUnsent | EngineDestroy.

(** [Reading::kMaxUdpPacketSize] *)
Definition kMaxUdpPacketSize : Z := Z.shiftl 64 10.
(** [recvfrom] cuts a datagram to the size of the buffer. *)
Definition received (d : datagram) : datagram := mkDatagram (take (Z.to_nat kMaxUdpPacketSize) (payload d)) (remote d).

(** The engine, the queue of its socket, and the handlers that wait: posted calls of
    [process], waits for reading and for writing, the wait on the timer with its
    expiry, and waits whose time has come.  As history, what has arrived, the calls
    into lsquic and what was sent. *)
Record Io := mkIo {
  engine : Engine;
  alive : bool;
  inbox : list arrival;
  posted : nat;
  read_waits : nat;
  write_waits : nat;
  timer : option Z;
  expired : nat;
  clock : Z;
  arrived : list arrival;
  io_calls : list io_call;
  sent : list datagram
}.
Definition Io_new : Io := mkIo Engine_new true [] 0 0 0 None 0 0 [] [] [].

Definition set_inbox (q : list arrival) (w : Io) : Io :=
  mkIo (engine w) (alive w) q (posted w) (read_waits w) (write_waits w) (timer w) (expired w) (clock w) (arrived w)
    (io_calls w) (sent w).
Definition set_posted (n : nat) (w : Io) : Io :=
  mkIo (engine w) (alive w) (inbox w) n (read_waits w) (write_waits w) (timer w) (expired w) (clock w) (arrived w)
    (io_calls w) (sent w).
Definition set_read_waits (n : nat) (w : Io) : Io :=
  mkIo (engine w) (alive w) (inbox w) (posted w) n (write_waits w) (timer w) (expired w) (clock w) (arrived w)
    (io_calls w) (sent w).
Definition set_write_waits (n : nat) (w : Io) : Io :=
  mkIo (engine w) (alive w) (inbox w) (posted w) (read_waits w) n (timer w) (expired w) (clock w) (arrived w)
    (io_calls w) (sent w).
Definition set_timer (t : option Z) (n : nat) (w : Io) : Io :=
  mkIo (engine w) (alive w) (inbox w) (posted w) (read_waits w) (write_waits w) t n (clock w) (arrived w)
    (io_calls w) (sent w).
Definition set_clock (t : Z) (w : Io) : Io :=
  mkIo (engine w) (alive w) (inbox w) (posted w) (read_waits w) (write_waits w) (timer w) (expired w) t (arrived w)
    (io_calls w) (sent w).
Definition arrives (a : arrival) (w : Io) : Io :=
  mkIo (engine w) (alive w) (inbox w ++ [a]) (posted w) (read_waits w) (write_waits w) (timer w) (expired w) (clock w)
    (arrived w ++ [a]) (io_calls w) (sent w).
Definition log_call (k : io_call) (w : Io) : Io :=
  mkIo (engine w) (alive w) (inbox w) (posted w) (read_waits w) (write_waits w) (timer w) (expired w) (clock w) (arrived w)
    (io_calls w ++ [k]) (sent w).
Definition log_sent (d : datagram) (w : Io) : Io :=
  mkIo (engine w) (alive w) (inbox w) (posted w) (read_waits w) (write_waits w) (timer w) (expired w) (clock w) (arrived w)
    (io_calls w) (sent w ++ [d]).
Definition dies (w : Io) : Io :=
  mkIo (engine w) false (inbox w) (posted w) (read_waits w) (write_waits w) (timer w) (expired w) (clock w) (arrived w)
    (io_calls w) (sent w).
(** The engine after a piece of code that does not run [process]: [wantProcess] has
    posted if the flag went up. *)
Definition with_engine (e : Engine) (w : Io) : Io :=
  mkIo e (alive w) (inbox w)
    (if negb (want_process_ (engine w)) && want_process_ e then S (posted w) else posted w)
    (read_waits w) (write_waits w) (timer w) (expired w) (clock w) (arrived w) (io_calls w) (sent w).

Section Loop.
Context `{Providers, RsaDer, Protobuf} {Cert : Type} `{!X509 Cert} (sha256 : bytes -> bytes).

(** The callbacks of lsquic, and which of them a call makes. *)
Definition is_callback (ev : event (Cert := Cert)) : bool :=
  match ev with App _ | Start | Process => false | _ => true end.
Abbreviation reaction := (io_call -> Engine -> list (event (Cert := Cert))).

Definition lsquic (react : reaction) (k : io_call) (w : Io) : option Io :=
  e ← run sha256 (List.filter is_callback (react k (engine w))) (engine w);
  Some (with_engine e (log_call k w)).

(** ** [process] and [readLoop] *)

(** [timer_.expires_after] ends the wait that has not expired; its handler returns. *)
Definition arm (us : Z) (w : Io) : Io := set_timer (Some (clock w + us)) (expired w) w.

(** [tick] is the answer of [lsquic_engine_earliest_adv_tick]. *)
Definition io_process (react : reaction) (tick : option Z) (w : Io) : option Io :=
  e ← process (engine w);
  w ← lsquic react ProcessConns (with_engine e w);
  Some match tick with None => w | Some us => arm us w end.

(** The loop of [readLoop]: the queue is empty when [recvfrom] says [EAGAIN]. *)
Fixpoint read_packets (react : reaction) (q : list arrival) (w : Io) : option Io :=
  match q with
  | [] => Some (set_read_waits (S (read_waits w)) (set_inbox [] w))
  | SocketFault :: q => Some (set_inbox q w)
  | Datagram d :: q => w ← lsquic react (PacketIn (received d)) w; read_packets react q w
  end.
Definition readLoop (react : reaction) (tick : option Z) (w : Io) : option Io :=
  w ← read_packets react (inbox w) w;
  io_process react tick w.

Definition io_start (react : reaction) (tick : option Z) (w : Io) : option Io :=
  if started_ (engine w) then Some w
  else readLoop react tick (with_engine (set_started (engine w)) w).

(** [Engine::connect] *)
Definition io_connect (react : reaction) (tick : option Z) (at_ : endpoint) (peer : Multihash) (cb : nat) (created : option LsConn) (w : Io) :
    option Io :=
  w ← io_start react tick w;
  e ← app_step (engine w) (Connect at_ peer cb created);
  Some (with_engine e w).

(** ** [ea_packets_out] *)

(** A packet of the batch with the answer of [sendmsg] to it; the number sent. *)
Fixpoint packets_out (specs : list (datagram * send_answer)) (r : nat) (w : Io) : Io * nat :=
  match specs with
  | [] => (w, r)
  | (d, Sent) :: specs => packets_out specs (S r) (log_sent d w)
  | (_, SendAgain) :: _ => (set_write_waits (S (write_waits w)) w, r)
  | (_, SendFault) :: _ => (w, r)
  end.

(** ** Runs

    What the operating system, the event loop, lsquic and the application do.  A handler
    locks the weak pointer to the engine; a wait that ends with an error code does
    nothing more. *)
Inductive io_event :=
| Arrives (a : arrival)
| Reads (react : reaction) (tick : option Z)
| ReadFails
| Writes (react : reaction)
| WriteFails
| Posted (react : reaction) (tick : option Z)
| Passes (us : Z)
| Expires
| Ticks (react : reaction) (tick : option Z)
| SendBatch (specs : list (datagram * send_answer))
| IoStart (react : reaction) (tick : option Z)
| IoConnect (react : reaction) (tick : option Z) (at_ : endpoint) (peer : Multihash) (cb : nat) (created : option LsConn)
| IoApp (k : app_call)
| Destroy (react : reaction).

Definition is_connect (k : app_call) : bool := match k with Connect _ _ _ _ => true | _ => false end.

(** [lsquic_engine_destroy] closes the connections and streams that are left, with
    callbacks for each, before it returns. *)
Definition all_closed (e : Engine) : bool := bool_decide (conn_ctxs e = ∅) && bool_decide (stream_ctxs e = ∅).

(** A handler that waits runs when its time has come, and is gone then; lsquic does not
    return from [lsquic_engine_destroy] before all is closed. *)
Definition io_step (w : Io) (ev : io_event) : option Io :=
  match ev with
  | Arrives a => Some (arrives a w)
  | Reads react tick =>
      match read_waits w, inbox w with
      | S n, _ :: _ =>
          let w := set_read_waits n w in
          if alive w then readLoop react tick w else Some w
      | _, _ => Some w
      end
  | ReadFails => Some (set_read_waits (pred (read_waits w)) w)
  | Writes react =>
      match write_waits w with
      | S n => let w := set_write_waits n w in if alive w then lsquic react SendUnsent w else Some w
      | O => Some w
      end
  | WriteFails => Some (set_write_waits (pred (write_waits w)) w)
  | Posted react tick =>
      match posted w with
      | S n => let w := set_posted n w in if alive w then io_process react tick w else Some w
      | O => Some w
      end
  | Passes us => Some (set_clock (clock w + Z.max 0 us) w)
  | Expires =>
      match timer w with
      | Some t => if t <=? clock w then Some (set_timer None (S (expired w)) w) else Some w
      | None => Some w
      end
  | Ticks react tick =>
      match expired w with
      | S n => let w := set_timer (timer w) n w in if alive w then io_process react tick w else Some w
      | O => Some w
      end
  | SendBatch specs => Some (if alive w then (packets_out specs 0 w).1 else w)
  | IoStart react tick => if alive w then io_start react tick w else Some w
  | IoConnect react tick at_ peer cb created => if alive w then io_connect react tick at_ peer cb created w else Some w
  | IoApp k => if is_connect k then Some w else e ← app_step (engine w) k; Some (with_engine e w)
  | Destroy react =>
      if alive w then
        w' ← lsquic react EngineDestroy w;
        Some (if all_closed (engine w') then dies w' else w)
      else Some w
  end.
Fixpoint io_run (evs : list io_event) (w : Io) : option Io :=
  match evs with
  | [] => Some w
  | ev :: evs => w ← io_step w ev; io_run evs w
  end.
End Loop.

(** ** The flag [started_] *)

Ltac step_through :=
  repeat match goal with
  | H : mbind _ ?o = Some _ |- _ => destruct o eqn:?; cbn [mbind option_bind] in H; [|done]
  | H : fst <$> ?o = Some _ |- _ => destruct o as [[]|] eqn:?; cbn in H; [|done]
  | H : Some _ = Some _ |- _ => injection H as H; subst
  | H : context [match ?x with _ => _ end] |- _ => lazymatch type of H with _ = Some _ => destruct x eqn:?; try discriminate H end
  | |- context [match ?x with _ => _ end] => destruct x eqn:?
  end.

Lemma wantProcess_started (e : Engine) : started_ (wantProcess e) = started_ e.
Proof. unfold wantProcess. by destruct (want_process_ e). Qed.
Lemma wantFlush_started ls (e e' : Engine) : wantFlush ls e = Some e' -> started_ e' = started_ e.
Proof. unfold wantFlush. intros E. step_through; try done. by rewrite wantProcess_started. Qed.
Lemma flush_each_started l : forall e e' : Engine, flush_each l e = Some e' -> started_ e' = started_ e.
Proof. induction l as [|s l IH]; intros e e' E; cbn in E; step_through; try done; by apply IH in E. Qed.
Lemma process_started (e e' : Engine) : process e = Some e' -> started_ e' = started_ e.
Proof. intros E. by apply flush_each_started in E. Qed.
Lemma flush_each_wants l : forall e e' : Engine, flush_each l e = Some e' -> want_process_ e' = want_process_ e.
Proof. induction l as [|s l IH]; intros e e' E; cbn in E; step_through; try done; by apply IH in E. Qed.
Lemma process_wants (e e' : Engine) : process e = Some e' -> want_process_ e' = false.
Proof. intros E. by apply flush_each_wants in E. Qed.
Lemma read_attempt_started s a (e e' : Engine) : read_attempt s a e = Some e' -> started_ e' = started_ e.
Proof. unfold read_attempt. intros E. by step_through. Qed.
Lemma write_attempt_started s a (e e' : Engine) : write_attempt s a e = Some e' -> started_ e' = started_ e.
Proof. unfold write_attempt. intros E. step_through; cbn; eauto using wantFlush_started. Qed.
Lemma stream_call_started k s (e e' : Engine) : stream_call k s e = Some e' -> started_ e' = started_ e.
Proof. unfold stream_call. intros E. by step_through. Qed.
Lemma close_conn_started c (e e' : Engine) : close_conn c e = Some e' -> started_ e' = started_ e.
Proof. unfold close_conn. intros E. by step_through. Qed.
Lemma on_new_stream_started lc ls (e e' : Engine) : on_new_stream lc ls e = Some e' -> started_ e' = started_ e.
Proof. unfold on_new_stream. intros E. by step_through. Qed.
Lemma engine_newStream_started lc n made r (e e' : Engine) : engine_newStream lc n made e = Some (e', r) -> started_ e' = started_ e.
Proof. unfold engine_newStream. intros E. step_through; simplify_eq/=; try done; by erewrite on_new_stream_started by eassumption. Qed.
#[local] Hint Resolve read_attempt_started write_attempt_started stream_call_started close_conn_started on_new_stream_started
  engine_newStream_started process_started : started.

(** Every call of the application but [connect] leaves the flag alone. *)
Lemma app_step_started k (e e' : Engine) : is_connect k = false -> app_step e k = Some e' -> started_ e' = started_ e.
Proof.
  intros Hk E. destruct k; try done; cbn in E; unfold asyncAccept, acceptStream, newStream, readSome, writeSome, drop_stream, drop_conn in E;
    step_through; simplify_eq/=; eauto with started.
Qed.

Section Safety.
Context `{Providers, RsaDer, Protobuf} {Cert : Type} `{!X509 Cert} (sha256 : bytes -> bytes).
Abbreviation reaction := (io_call -> Engine -> list (event (Cert := Cert))).

Lemma start_started (e e' : Engine) : start e = Some e' -> started_ e' = true.
Proof. unfold start. destruct (started_ e) eqn:Es; [by intros [= <-]|]. by intros ->%process_started. Qed.
Lemma connect_started remote peer cb created (e e' : Engine) : connect remote peer cb created e = Some e' -> started_ e' = true.
Proof.
  unfold connect. intros E. destruct (start e) as [e1|] eqn:Es; cbn in E; [|done]. apply start_started in Es.
  step_through; rewrite wantProcess_started; by cbn in *.
Qed.
Lemma app_step_keeps k (e e' : Engine) : started_ e = true -> app_step e k = Some e' -> started_ e' = true.
Proof.
  intros Hs E. destruct (is_connect k) eqn:Hk; [|by erewrite app_step_started by eassumption].
  destruct k; try done. cbn in E. step_through; eauto using connect_started.
Qed.
Lemma app_run_keeps ks : forall e e' : Engine, started_ e = true -> app_run ks e = Some e' -> started_ e' = true.
Proof. induction ks as [|k ks IH]; intros e e' Hs E; cbn in E; [by simplify_eq|]. step_through. eauto using app_step_keeps. Qed.
Lemma resume_reading_keeps ls a apps (e e' : Engine) : started_ e = true -> resume_reading ls a apps e = Some e' -> started_ e' = true.
Proof.
  unfold resume_reading. intros Hs E. step_through; try done;
    match goal with E : read_attempt _ _ _ = _ |- _ => apply read_attempt_started in E end; cbn in *; try congruence;
    (eapply app_run_keeps; [|eassumption]; cbn in *; congruence).
Qed.
Lemma resume_writing_keeps ls a apps (e e' : Engine) : started_ e = true -> resume_writing ls a apps e = Some e' -> started_ e' = true.
Proof.
  unfold resume_writing. intros Hs E. step_through; try done;
    match goal with E : write_attempt _ _ _ = _ |- _ => apply write_attempt_started in E end; cbn in *; try congruence;
    (eapply app_run_keeps; [|eassumption]; cbn in *; congruence).
Qed.
Lemma on_hsk_done_started lc h op r (e e' : Engine) : on_hsk_done (Cert := Cert) sha256 lc h e = Some (e', op, r) -> started_ e' = started_ e.
Proof. unfold on_hsk_done. intros E. step_through; by simplify_eq/=. Qed.

Lemma step_keeps (ev : event (Cert := Cert)) (e e' : Engine) : started_ e = true -> step sha256 e ev = Some e' -> started_ e' = true.
Proof.
  intros Hs. unfold step. destruct (negb _); [by intros [= <-]|]. destruct ev; cbn.
  - by apply app_step_keeps.
  - unfold accept_conn. intros E. step_through; simplify_eq/=;
      match goal with E : on_hsk_done _ _ _ _ = _ |- _ => apply on_hsk_done_started in E end; cbn in *; congruence.
  - unfold handshake_done. intros E. step_through; simplify_eq/=;
      match goal with E : on_hsk_done _ _ _ _ = _ |- _ => apply on_hsk_done_started in E end; cbn in *; try congruence;
      (eapply app_run_keeps; [|eassumption]; cbn; congruence).
  - unfold on_conn_closed, conn_detached. intros E. step_through; simplify_eq/=; try done; (eapply app_run_keeps; [|eassumption]; done).
  - intros ->%on_new_stream_started. done.
  - by apply resume_reading_keeps.
  - by apply resume_writing_keeps.
  - unfold on_close, stream_detached. intros E. step_through; cbn; eauto using resume_reading_keeps, resume_writing_keeps.
  - by apply start_started.
  - by intros ->%process_started.
Qed.
Lemma run_keeps evs : forall e e' : Engine, started_ e = true -> run (Cert := Cert) sha256 evs e = Some e' -> started_ e' = true.
Proof. induction evs as [|ev evs IH]; intros e e' Hs E; cbn in E; [by simplify_eq|]. step_through. eauto using step_keeps. Qed.

(** ** The invariant *)

Definition packets (l : list arrival) : list datagram := omap (fun a => match a with Datagram d => Some d | SocketFault => None end) l.
Definition delivered (l : list io_call) : list datagram := omap (fun k => match k with PacketIn d => Some d | _ => None end) l.

Record io_ok (w : Io) : Prop := {
  io_engine : quic_ok (engine w);
  (** every datagram is handed over once, in order *)
  io_delivered : delivered (io_calls w) ++ (received <$> packets (inbox w)) = received <$> packets (arrived w);
  (** what was asked for is going to happen *)
  io_posted : alive w = true -> want_process_ (engine w) = true -> (1 <= posted w)%nat;
  (** one wait for reading at most, and none before the start *)
  io_waits : (read_waits w <= 1)%nat;
  io_idle : started_ (engine w) = false -> read_waits w = 0%nat;
  (** [lsquic_engine_destroy] is the last call *)
  io_last : if alive w then EngineDestroy ∉ io_calls w
            else exists l, io_calls w = l ++ [EngineDestroy] /\ EngineDestroy ∉ l
}.
(** The socket has not failed, and it is being read. *)
Record reading_on (w : Io) : Prop := {
  ro_faults : SocketFault ∉ inbox w;
  ro_waits : alive w = true -> started_ (engine w) = true -> read_waits w = 1%nat
}.

Lemma callbacks_ok (evs : list (event (Cert := Cert))) (e e' : Engine) : quic_ok e -> run sha256 evs e = Some e' -> quic_ok e'.
Proof. intros Hok E. pose proof (run_spec sha256 evs e Hok) as R. by rewrite E in R. Qed.

(** lsquic calls back about its connections only, and has none before the start. *)
Lemma idle_callbacks (evs : list (event (Cert := Cert))) (e : Engine) :
  quic_ok e -> started_ e = false -> run sha256 (List.filter is_callback evs) e = Some e.
Proof.
  intros Hok Hs. destruct (core_stopped _ Hok Hs) as (Hc & Hst & _). induction evs as [|ev evs IH]; [done|]. cbn.
  destruct (is_callback ev) eqn:Ec; [|done]. cbn.
  assert (step sha256 e ev = Some e) as -> by (unfold step; destruct ev; try done; cbn; by rewrite ?Hs, ?Hc, ?Hst, ?lookup_empty).
  done.
Qed.

(** What a call into lsquic leaves alone. *)
Record same_io (w w' : Io) : Prop := {
  si_started : started_ (engine w') = started_ (engine w);
  si_alive : alive w' = alive w;
  si_inbox : inbox w' = inbox w;
  si_arrived : arrived w' = arrived w;
  si_waits : read_waits w' = read_waits w
}.
Definition posted_ok (w : Io) : Prop := want_process_ (engine w) = true -> (1 <= posted w)%nat.

Lemma with_engine_posted (e : Engine) w : posted_ok w -> posted_ok (with_engine e w).
Proof. intros Hp. unfold posted_ok. cbn. intros ->. rewrite andb_true_r. destruct (want_process_ (engine w)) eqn:Ew; cbn; [by apply Hp|lia]. Qed.

Lemma lsquic_spec react k w w' :
  quic_ok (engine w) -> lsquic sha256 react k w = Some w' ->
  quic_ok (engine w') /\ same_io w w' /\ io_calls w' = io_calls w ++ [k] /\ (posted_ok w -> posted_ok w').
Proof.
  unfold lsquic. intros Hok E. destruct (run sha256 _ _) as [e|] eqn:Er; cbn in E; [|done]. injection E as <-.
  split; [by eapply callbacks_ok|]. split; [|split; [done|by intros; apply (with_engine_posted e (log_call k w))]].
  split; try done. cbn. destruct (started_ (engine w)) eqn:Es; [by eapply run_keeps|].
  rewrite idle_callbacks in Er by done. congruence.
Qed.

Lemma io_process_spec react tick w w' :
  quic_ok (engine w) -> io_process sha256 react tick w = Some w' ->
  quic_ok (engine w') /\ same_io w w' /\ io_calls w' = io_calls w ++ [ProcessConns] /\ posted_ok w'.
Proof.
  unfold io_process. intros Hok E. destruct (process (engine w)) as [e|] eqn:Ep; cbn in E; [|done].
  assert (quic_ok e) as Hoe.
  { destruct (process_spec (engine w) Hok) as [_ Hf]. rewrite Ep in Hf. destruct (Hf ltac:(done)) as (? & [= <-] & ? & _). done. }
  assert (want_process_ e = false) as Hw by (by eapply process_wants).
  destruct (lsquic _ _ _ _) as [w1|] eqn:El; cbn in E; [|done]. injection E as <-.
  destruct (lsquic_spec _ _ (with_engine e w) w1 Hoe El) as (R1 & [S1 S2 S3 S4 S5] & R2 & R3).
  assert (posted_ok w1) as Hp by (apply R3; unfold posted_ok; cbn; by rewrite Hw).
  destruct tick; (split; [done|]; split; [split|done]; cbn in *; try done; rewrite S1; by eapply process_started).
Qed.

Lemma read_packets_spec react q : forall w w',
  quic_ok (engine w) -> read_packets sha256 react q w = Some w' ->
  quic_ok (engine w') /\ started_ (engine w') = started_ (engine w) /\ alive w' = alive w /\ arrived w' = arrived w
  /\ delivered (io_calls w') ++ (received <$> packets (inbox w')) = delivered (io_calls w) ++ (received <$> packets q)
  /\ (read_waits w' <= S (read_waits w))%nat
  /\ (SocketFault ∉ q -> read_waits w' = S (read_waits w) /\ inbox w' = [])
  /\ (EngineDestroy ∉ io_calls w -> EngineDestroy ∉ io_calls w').
Proof.
  induction q as [|[d|] q IH]; intros w w' Hok E; cbn in E.
  - injection E as <-. done.
  - destruct (lsquic _ _ _ _) as [w1|] eqn:El; cbn in E; [|done].
    destruct (lsquic_spec _ _ _ _ Hok El) as (R1 & [S1 S2 S3 S4 S5] & R2 & R3).
    destruct (IH w1 w' R1 E) as (T1 & T2 & T3 & T4 & T5 & T6 & T7 & T8).
    split; [done|]. split; [congruence|]. split; [congruence|]. split; [congruence|]. split; [|split; [lia|split]].
    + rewrite T5, R2. unfold delivered. rewrite omap_app. cbn. by rewrite <- app_assoc.
    + intros Hf. destruct T7 as [-> ->]; [by intros ?; apply Hf; right|]. by rewrite S5.
    + intros Hn. apply T8. rewrite R2. intros [?|?%list_elem_of_singleton]%elem_of_app; congruence.
  - injection E as <-. do 5 (split; [done|]). split; [cbn; lia|]. split; [intros Hf; destruct Hf; by left|done].
Qed.

Lemma readLoop_spec react tick w w' :
  quic_ok (engine w) -> readLoop sha256 react tick w = Some w' ->
  quic_ok (engine w') /\ started_ (engine w') = started_ (engine w) /\ alive w' = alive w /\ arrived w' = arrived w
  /\ delivered (io_calls w') ++ (received <$> packets (inbox w')) = delivered (io_calls w) ++ (received <$> packets (inbox w))
  /\ (read_waits w' <= S (read_waits w))%nat
  /\ (SocketFault ∉ inbox w -> read_waits w' = S (read_waits w) /\ inbox w' = [])
  /\ (EngineDestroy ∉ io_calls w -> EngineDestroy ∉ io_calls w') /\ posted_ok w'.
Proof.
  unfold readLoop. intros Hok E. destruct (read_packets _ _ _ _) as [w1|] eqn:Er; cbn in E; [|done].
  destruct (read_packets_spec _ _ _ _ Hok Er) as (T1 & T2 & T3 & T4 & T5 & T6 & T7 & T8).
  destruct (io_process_spec _ _ _ _ T1 E) as (R1 & [S1 S2 S3 S4 S5] & R2 & R3).
  split; [done|]. split; [congruence|]. split; [congruence|]. split; [congruence|]. split; [|split; [lia|]].
  { rewrite R2, S3, <- T5. unfold delivered. rewrite omap_app. cbn. by rewrite app_nil_r. }
  split; [intros Hf; rewrite S5, S3; by apply T7|]. split; [|done].
  intros Hn. rewrite R2. intros [?|?%list_elem_of_singleton]%elem_of_app; [by apply T8|done].
Qed.

(** The calls into lsquic return when the certificates its callbacks bring can be checked. *)
Definition checkable (react : io_call -> Engine -> list (event (Cert := Cert))) : Prop :=
  forall k e cb, cb ∈ react k e -> ~ tls_fails sha256 cb.
Lemma lsquic_returns react k w : checkable react -> quic_ok (engine w) -> is_Some (lsquic sha256 react k w).
Proof.
  intros Hr Hok. unfold lsquic. pose proof (run_spec sha256 (List.filter is_callback (react k (engine w))) (engine w) Hok) as R.
  destruct (run sha256 _ _) as [e|]; [by eexists|]. destruct R as (before & ev & after & e & Hl & _ & _ & R).
  assert (In ev (List.filter is_callback (react k (engine w)))) as [Hin Hc]%filter_In by (rewrite Hl; apply in_elt).
  destruct R as [Ht|[-> _]]; [|done]. apply list_elem_of_In in Hin. by destruct (Hr _ _ _ Hin).
Qed.
Lemma read_packets_returns react q : forall w, checkable react -> quic_ok (engine w) -> is_Some (read_packets sha256 react q w).
Proof.
  induction q as [|[d|] q IH]; intros w Hr Hok; cbn; [by eexists| |by eexists].
  destruct (lsquic_returns react (PacketIn (received d)) w Hr Hok) as [w1 E]. rewrite E. cbn. apply IH; [done|].
  by destruct (lsquic_spec _ _ _ _ Hok E).
Qed.
Lemma io_process_returns react tick w :
  checkable react -> quic_ok (engine w) -> flush_closed (engine w) \/ is_Some (io_process sha256 react tick w).
Proof.
  intros Hr Hok. unfold io_process. destruct (process_spec (engine w) Hok) as [Hn Hs].
  destruct (process (engine w)) as [e|] eqn:Ep; [right|left; by apply Hn]. cbn.
  assert (quic_ok e) as Hoe by (destruct (Hs ltac:(done)) as (? & [= <-] & ? & _); done).
  destruct (lsquic_returns react ProcessConns (with_engine e w) Hr Hoe) as [w1 ->]. cbn. by destruct tick; eexists.
Qed.

Lemma packets_out_frame specs : forall r w, let w' := (packets_out specs r w).1 in
  engine w' = engine w /\ posted w' = posted w /\ same_io w w' /\ io_calls w' = io_calls w.
Proof.
  induction specs as [|[d []] specs IH]; intros r w; cbn; try done.
  destruct (IH (S r) (log_sent d w)) as (-> & -> & [? ? ? ? ?] & ->). repeat split; done.
Qed.

Lemma with_engine_ok (e : Engine) w :
  io_ok w -> quic_ok e -> started_ e = started_ (engine w) -> io_ok (with_engine e w).
Proof.
  intros [I1 I2 I3 I4 I5 I6] He Hs. split; try done; [|by cbn; rewrite Hs].
  cbn. intros Ha. apply with_engine_posted. exact (I3 Ha).
Qed.

Lemma processed_ok react tick w w' :
  io_ok w -> alive w = true ->
  forall w0, engine w0 = engine w -> same_io w w0 -> io_calls w0 = io_calls w ->
  io_process sha256 react tick w0 = Some w' -> io_ok w'.
Proof.
  intros [I1 I2 I3 I4 I5 I6] Ha w0 He [S1 S2 S3 S4 S5] Hc E. rewrite <- He in I1.
  destruct (io_process_spec _ _ _ _ I1 E) as (R1 & [T1 T2 T3 T4 T5] & R2 & R3). split; try done.
  - rewrite R2, T3, S3, T4, S4, Hc, <- I2. unfold delivered. rewrite omap_app. cbn. by rewrite app_nil_r.
  - by rewrite T5, S5.
  - rewrite T1, T5, S1, S5. done.
  - rewrite T2, S2, Ha, R2, Hc. rewrite Ha in I6. intros [?|?%list_elem_of_singleton]%elem_of_app; done.
Qed.

(** A handler of [readLoop], with [n] waits left. *)
Lemma readLoop_ok react tick w w' :
  quic_ok (engine w) -> delivered (io_calls w) ++ (received <$> packets (inbox w)) = received <$> packets (arrived w) ->
  alive w = true -> started_ (engine w) = true -> read_waits w = 0%nat -> EngineDestroy ∉ io_calls w ->
  readLoop sha256 react tick w = Some w' -> io_ok w' /\ (SocketFault ∉ inbox w -> reading_on w').
Proof.
  intros Hok Hd Ha Hs Hw Hl E. destruct (readLoop_spec _ _ _ _ Hok E) as (T1 & T2 & T3 & T4 & T5 & T6 & T7 & T8 & T9). split.
  - split; try done; [by rewrite T5, Hd, T4|by rewrite Hw in T6|by rewrite T2, Hs|rewrite T3, Ha; by apply T8].
  - intros Hf. destruct (T7 Hf) as [T7a T7b]. split; [rewrite T7b; set_solver|]. by rewrite T7a, Hw.
Qed.

(** Neither the socket nor a wait on it fails. *)
Definition healthy (ev : io_event (Cert := Cert)) : bool :=
  match ev with Arrives SocketFault | ReadFails => false | _ => true end.

Lemma io_start_ok react tick w w' :
  io_ok w -> alive w = true -> io_start sha256 react tick w = Some w' ->
  io_ok w' /\ alive w' = true /\ started_ (engine w') = true /\ (reading_on w -> reading_on w').
Proof.
  intros Hi Ha. unfold io_start. destruct (started_ (engine w)) eqn:Es; [by intros [= <-]|]. intros E.
  destruct Hi as [I1 I2 I3 I4 I5 I6]. rewrite Ha in I6. set (w0 := with_engine _ w) in E.
  assert (quic_ok (engine w0)) as Hok.
  { destruct I1 as [[C1 C2 C3 C4 C5 C6] C7 C8]. split; [split|done|done]; cbn; done. }
  destruct (readLoop_ok react tick w0 w' Hok I2 Ha eq_refl (I5 Es) I6 E) as [Ho Hr].
  destruct (readLoop_spec _ _ _ _ Hok E) as (_ & T2 & T3 & _). split; [done|]. split; [by rewrite T3|]. split; [by rewrite T2|].
  intros [F _]. by apply Hr.
Qed.

Lemma reading_same w w' : same_io w w' -> reading_on w -> reading_on w'.
Proof. intros [S1 S2 S3 S4 S5] [F R]. split; [by rewrite S3|]. rewrite S2, S1, S5. exact R. Qed.
#[global] Instance same_io_preorder : PreOrder same_io.
Proof. split; [done|]. intros w1 w2 w3 [] []. split; congruence. Qed.

Lemma frame_ok w w' :
  io_ok w -> engine w' = engine w -> same_io w w' -> io_calls w' = io_calls w -> posted w' = posted w \/ alive w = false ->
  io_ok w' /\ (reading_on w -> reading_on w').
Proof.
  intros [I1 I2 I3 I4 I5 I6] He HS Hc Hp. split; [|by apply reading_same]. destruct HS as [S1 S2 S3 S4 S5].
  split; rewrite ?He, ?S2, ?S3, ?S4, ?S5, ?Hc; try done. intros Ha. destruct Hp as [->|?]; [by apply I3|congruence].
Qed.

(** A handler that only runs [process]: posted, or of the timer. *)
Lemma process_step react tick w w0 w' :
  io_ok w -> engine w0 = engine w -> same_io w w0 -> io_calls w0 = io_calls w ->
  (if alive w0 then io_process sha256 react tick w0 else Some w0) = Some w' ->
  io_ok w' /\ (reading_on w -> reading_on w').
Proof.
  intros Hi He Hs Hc E. rewrite (si_alive _ _ Hs) in E. destruct (alive w) eqn:Ha.
  - split; [by eapply processed_ok|]. apply reading_same. etransitivity; [exact Hs|].
    pose proof (io_engine w Hi) as Hok. rewrite <- He in Hok. by destruct (io_process_spec _ _ _ _ Hok E) as (_ & ? & _).
  - injection E as <-. apply frame_ok; auto.
Qed.

(** A call into lsquic outside [process] and [readLoop]. *)
Lemma lsquic_step react k w0 w w' :
  io_ok w0 -> alive w0 = true -> engine w = engine w0 -> same_io w0 w -> io_calls w = io_calls w0 -> posted w = posted w0 ->
  delivered [k] = [] -> lsquic sha256 react k w = Some w' ->
  same_io w0 w' /\ io_ok (match k with EngineDestroy => dies w' | _ => w' end).
Proof.
  intros [I1 I2 I3 I4 I5 I6] Ha He Hs Hc Hp Hd E. rewrite <- He in I1. destruct (lsquic_spec _ _ w w' I1 E) as (R1 & S & R2 & R3).
  assert (same_io w0 w') as HS by (by etransitivity). split; [done|]. destruct HS as [S1 S2 S3 S4 S5]. rewrite Ha in I6.
  assert (delivered (io_calls w') = delivered (io_calls w0)) as Hdel
    by (rewrite R2, Hc; unfold delivered in *; by rewrite omap_app, Hd, app_nil_r).
  assert (alive w' = true -> posted_ok w') as Hpo.
  { intros _. apply R3. unfold posted_ok. rewrite He, Hp. exact (I3 Ha). }
  destruct k; try done; split; cbn -[delivered packets]; rewrite ?S1, ?S3, ?S4, ?S5, ?Hdel; try done.
  1-2: rewrite S2, Ha, R2, Hc; intros [?|?%list_elem_of_singleton]%elem_of_app; congruence.
  exists (io_calls w0). by rewrite R2, Hc.
Qed.

Lemma reads_ok react tick w w' : io_ok w -> io_step sha256 w (Reads react tick) = Some w' -> io_ok w' /\ (reading_on w -> reading_on w').
Proof.
  intros Hi E. unfold io_step in E. destruct (read_waits w) as [|n] eqn:Hw; [by simplify_eq|].
  destruct (inbox w) as [|x q] eqn:Hq; [by simplify_eq|]. destruct Hi as [I1 I2 I3 I4 I5 I6]. rewrite Hw in I4. assert (n = 0)%nat as -> by lia.
  assert (started_ (engine w) = true) as Hs by (destruct (started_ (engine w)); [done|]; specialize (I5 eq_refl); congruence).
  cbv zeta in E. change (alive (set_read_waits 0 w)) with (alive w) in E. destruct (alive w) eqn:Ha.
  - destruct (readLoop_ok react tick (set_read_waits 0 w) w' I1 I2 Ha Hs eq_refl I6 E) as [Ho Hr]. split; [done|]. intros [F _]. by apply Hr.
  - injection E as <-. split; [split; cbn; rewrite ?Ha; try done; lia|]. intros [F R]. split; [done|]. cbn. by rewrite Ha.
Qed.

Lemma io_app_ok k w w' e :
  io_ok w -> (is_connect k = true -> started_ (engine w) = true) -> app_step (engine w) k = Some e -> w' = with_engine e w ->
  io_ok w' /\ (reading_on w -> reading_on w').
Proof.
  intros Hi Hk Ep ->. destruct (app_step_fine (engine w) k (io_engine w Hi)) as (e' & E' & Hoe & _). rewrite Ep in E'. injection E' as <-.
  assert (started_ e = started_ (engine w)) as Hse.
  { destruct (is_connect k) eqn:Hc; [rewrite (Hk eq_refl); eapply app_step_keeps; [by apply Hk|exact Ep]|by eapply app_step_started]. }
  split; [by apply with_engine_ok|]. apply reading_same. by split.
Qed.

Lemma io_connect_ok react tick at_ peer cb created w w' :
  io_ok w -> alive w = true -> io_connect sha256 react tick at_ peer cb created w = Some w' -> io_ok w' /\ (reading_on w -> reading_on w').
Proof.
  intros Hi Ha E. unfold io_connect in E. destruct (io_start _ _ _ _) as [w1|] eqn:Es; cbn [mbind option_bind] in E; [|done].
  destruct (io_start_ok _ _ _ _ Hi Ha Es) as (G1 & G2 & G3 & G4).
  destruct (app_step _ _) as [e|] eqn:Ep; cbn [mbind option_bind] in E; [|done]. injection E as <-.
  destruct (io_app_ok _ w1 _ e G1 (fun _ => G3) Ep eq_refl) as [? ?]. auto.
Qed.

Lemma arrives_ok a w : io_ok w -> io_ok (arrives a w).
Proof.
  intros [I1 I2 I3 I4 I5 I6]. split; try done. cbn. unfold packets. rewrite !omap_app, !fmap_app, app_assoc. f_equal. exact I2.
Qed.

Lemma io_step_ok ev w w' :
  io_ok w -> io_step sha256 w ev = Some w' ->
  io_ok w' /\ (healthy ev = true -> reading_on w -> reading_on w').
Proof.
  intros Hi E. destruct ev; try (destruct (reads_ok _ _ _ _ Hi E); by split); cbn [io_step] in E.
  - injection E as <-. split; [by apply arrives_ok|]. intros Hh [F R]. split; [|done]. cbn.
    intros [?|Hin%list_elem_of_singleton]%elem_of_app; [done|]. by subst a.
  - injection E as <-. destruct Hi as [I1 I2 I3 I4 I5 I6]. split; [|done]. split; try done; cbn; [lia|]. intros Hs. by rewrite I5.
  - destruct (write_waits w) as [|n]; [by simplify_eq|]. cbv zeta in E. cbn [alive set_write_waits] in E. destruct (alive w) eqn:Ha.
    + destruct (lsquic_step react SendUnsent w (set_write_waits n w) w' Hi Ha) as [HS Ho]; [by try split..|].
      split; [exact Ho|]. intros _. by apply reading_same.
    + injection E as <-. destruct (frame_ok w (set_write_waits n w) Hi); [by try split; auto..|]. by split.
  - injection E as <-. destruct (frame_ok w (set_write_waits (pred (write_waits w)) w) Hi); [by try split; auto..|]. by split.
  - destruct (posted w) as [|n]; [by simplify_eq|].
    destruct (process_step react tick w (set_posted n w) w' Hi) as [? ?]; [by try split..|]. by split.
  - injection E as <-. destruct (frame_ok w (set_clock (clock w + Z.max 0 us) w) Hi); [by try split; auto..|]. by split.
  - destruct (timer w) as [t|]; [|by simplify_eq]. destruct (t <=? clock w); simplify_eq/=; [|done].
    destruct (frame_ok w (set_timer None (S (expired w)) w) Hi); [by try split; auto..|]. by split.
  - destruct (expired w) as [|n]; [by simplify_eq|].
    destruct (process_step react tick w (set_timer (timer w) n w) w' Hi) as [? ?]; [by try split..|]. by split.
  - injection E as <-. destruct (alive w) eqn:Ha; [|done]. destruct (packets_out_frame specs 0 w) as (F1 & F2 & S & F3).
    destruct (frame_ok w _ Hi F1 S F3 (or_introl F2)). by split.
  - destruct (alive w) eqn:Ha; [|by simplify_eq]. destruct (io_start_ok _ _ _ _ Hi Ha E) as (? & _ & _ & ?). done.
  - destruct (alive w) eqn:Ha; [|by simplify_eq]. destruct (io_connect_ok _ _ _ _ _ _ _ _ Hi Ha E). by split.
  - destruct (is_connect k) eqn:Hk; [by simplify_eq|]. destruct (app_step _ _) as [e|] eqn:Ep; cbn [mbind option_bind] in E; [|done].
    injection E as <-. destruct (io_app_ok k w _ e Hi ltac:(congruence) Ep eq_refl). by split.
  - destruct (alive w) eqn:Ha; [|by simplify_eq]. destruct (lsquic _ _ _ _) as [w1|] eqn:El; cbn in E; [|done]. injection E as <-.
    destruct (all_closed (engine w1)); [|done].
    destruct (lsquic_step react EngineDestroy w w w1 Hi Ha) as [[S1 S2 S3 S4 S5] Ho]; [by try split..|].
    split; [exact Ho|]. intros _ [F R]. split; cbn; [by rewrite S3|done].
Qed.

Lemma Io_new_ok : io_ok Io_new /\ reading_on Io_new.
Proof. split; split; cbn; try done; first [apply Engine_new_ok|lia|set_solver]. Qed.

Lemma io_run_ok evs : forall w w', io_ok w -> io_run sha256 evs w = Some w' ->
  io_ok w' /\ (Forall (fun ev => healthy ev = true) evs -> reading_on w -> reading_on w').
Proof.
  induction evs as [|ev evs IH]; intros w w' Hi E; cbn [io_run] in E; [by simplify_eq|].
  destruct (io_step sha256 w ev) as [w1|] eqn:Es; cbn [mbind option_bind] in E; [|done].
  destruct (io_step_ok ev w w1 Hi Es) as [Ho Hr]. destruct (IH w1 w' Ho E) as [Ho' Hr']. split; [done|].
  intros [Hh Hhs]%Forall_cons Hw. auto.
Qed.

(** Without a wait, no handler reads again. *)
Definition unread (w w' : Io) : Prop :=
  started_ (engine w') = true /\ read_waits w' = 0%nat /\ delivered (io_calls w') = delivered (io_calls w).
Lemma unread_same w w0 w' k :
  engine w0 = engine w -> read_waits w0 = 0%nat -> io_calls w0 = io_calls w -> started_ (engine w) = true -> delivered [k] = [] ->
  same_io w0 w' -> io_calls w' = io_calls w0 ++ [k] -> unread w w'.
Proof.
  intros He Hr Hc Hs Hd [S1 _ _ _ S5] R. unfold unread. rewrite S1, S5, R, He, Hc. split; [done|]. split; [done|].
  unfold delivered in *. by rewrite omap_app, Hd, app_nil_r.
Qed.

Lemma unread_step ev w w' :
  io_ok w -> started_ (engine w) = true -> read_waits w = 0%nat -> io_step sha256 w ev = Some w' -> unread w w'.
Proof.
  intros Hi Hs Hw E. pose proof (io_engine w Hi) as Hok.
  assert (forall react k w0 w1, lsquic sha256 react k w0 = Some w1 ->
    engine w0 = engine w -> read_waits w0 = 0%nat -> io_calls w0 = io_calls w -> delivered [k] = [] -> unread w w1) as HL.
  { intros react k w0 w1 El He ? ? ?. rewrite <- He in Hok. destruct (lsquic_spec _ _ _ _ Hok El) as (_ & ? & ? & _). by eapply unread_same. }
  assert (forall react tick w0 w1, io_process sha256 react tick w0 = Some w1 ->
    engine w0 = engine w -> read_waits w0 = 0%nat -> io_calls w0 = io_calls w -> unread w w1) as HP.
  { intros react tick w0 w1 El He ? ?. rewrite <- He in Hok. destruct (io_process_spec _ _ _ _ Hok El) as (_ & ? & ? & _).
    by apply (unread_same w w0 w1 ProcessConns). }
  assert (forall e, started_ e = true -> unread w (with_engine e w)) as HE by done.
  destruct ev; cbn [io_step] in E; rewrite ?Hw in E; unfold io_connect, io_start in E; rewrite ?Hs in E; cbn [mbind option_bind] in E.
  all: try (injection E as <-; unfold unread; cbn; rewrite ?Hw; done).
  - destruct (write_waits w); [by simplify_eq|]. cbv zeta in E. destruct (alive _); [exact (HL _ _ _ _ E eq_refl Hw eq_refl eq_refl)|by simplify_eq].
  - destruct (posted w); [by simplify_eq|]. cbv zeta in E. destruct (alive _); [exact (HP _ _ _ _ E eq_refl Hw eq_refl)|by simplify_eq].
  - destruct (timer w); [destruct (_ <=? _)|]; by simplify_eq.
  - destruct (expired w); [by simplify_eq|]. cbv zeta in E. destruct (alive _); [exact (HP _ _ _ _ E eq_refl Hw eq_refl)|by simplify_eq].
  - injection E as <-. destruct (alive w); [|done]. destruct (packets_out_frame specs 0 w) as (F1 & F2 & [? ? ? ? S5] & F3). unfold unread. by rewrite F1, F3, S5.
  - destruct (alive w); by simplify_eq.
  - destruct (alive w); [|by simplify_eq]. destruct (app_step _ _) as [e|] eqn:Ep; cbn in E; [|done]. injection E as <-.
    apply HE. by eapply app_step_keeps.
  - destruct (is_connect k); [by simplify_eq|]. destruct (app_step _ _) as [e|] eqn:Ep; cbn in E; [|done]. injection E as <-.
    apply HE. by eapply app_step_keeps.
  - destruct (alive w); [|by simplify_eq]. destruct (lsquic _ _ _ _) as [w1|] eqn:El; cbn in E; [|done]. injection E as <-.
    destruct (all_closed (engine w1)); [|done]. exact (HL _ _ _ _ El eq_refl Hw eq_refl eq_refl).
Qed.

(** A socket whose reading failed once: nothing that arrives later reaches lsquic. *)
Lemma read_fault_is_final evs : forall w w',
  io_ok w -> started_ (engine w) = true -> read_waits w = 0%nat -> io_run sha256 evs w = Some w' ->
  delivered (io_calls w') = delivered (io_calls w).
Proof.
  induction evs as [|ev evs IH]; intros w w' Hi Hs Hw E; cbn [io_run] in E; [by simplify_eq|].
  destruct (io_step sha256 w ev) as [w1|] eqn:Es; cbn [mbind option_bind] in E; [|done].
  destruct (unread_step ev w w1 Hi Hs Hw Es) as (Hs1 & Hw1 & <-). destruct (io_step_ok ev w w1 Hi Es) as [Hi1 _]. by eapply IH.
Qed.

(** *** After the end *)

Definition closed_engine (e : Engine) : Prop := conn_ctxs e = ∅ /\ stream_ctxs e = ∅.
Lemma all_closed_spec e : all_closed e = true -> closed_engine e.
Proof. unfold all_closed. intros [?%bool_decide_eq_true ?%bool_decide_eq_true]%andb_prop. done. Qed.

(** The objects the application still holds have null pointers, so no call goes on to
    lsquic. *)
Lemma closed_app_step k (e e' : Engine) :
  quic_ok e -> closed_engine e -> is_connect k = false -> app_step e k = Some e' ->
  closed_engine e' /\ calls e' = calls e.
Proof.
  intros Hok [Hc Hs] Hk E.
  assert (forall s q, streams e !! s = Some q -> stream_ctx_ q = None) as HS.
  { intros s q Hq. destruct (stream_ctx_ q) as [ls|] eqn:El; [|done]. destruct (core_streams _ Hok s q Hq) as [_ Hx].
    destruct (Hx ls El) as (x & Hl & _). by rewrite Hs, lookup_empty in Hl. }
  assert (forall c q, connections e !! c = Some q -> conn_ctx_ q = None) as HC.
  { intros c q Hq. destruct (conn_ctx_ q) as [lc|] eqn:El; [|done]. destruct (core_conns _ Hok c q Hq) as [_ Hx].
    destruct (Hx lc El) as (x & Hl & _). by rewrite Hc, lookup_empty in Hl. }
  unfold closed_engine.
  destruct k; cbn in Hk, E; try done;
    unfold asyncAccept, acceptStream, newStream, readSome, writeSome, close_stream, reset, drop_stream, reset, stream_call, close_conn,
      drop_conn, close_conn, waits in E;
    repeat match type of E with
    | context [streams e !! ?s] => let q := fresh "q" in let Hq := fresh in destruct (streams e !! s) as [q|] eqn:Hq; [pose proof (HS s q Hq)|]
    | context [connections e !! ?c] => let q := fresh "q" in let Hq := fresh in destruct (connections e !! c) as [q|] eqn:Hq; [pose proof (HC c q Hq)|]
    end; cbn [mbind option_bind] in E;
    repeat match goal with H : stream_ctx_ _ = None |- _ => rewrite H in E; clear H | H : conn_ctx_ _ = None |- _ => rewrite H in E; clear H end;
    cbn in E; step_through; by cbn.
Qed.

Lemma lsquic_alive react k w w' : lsquic sha256 react k w = Some w' -> alive w' = alive w.
Proof. unfold lsquic. destruct (run _ _ _); [by intros [= <-]|done]. Qed.
Lemma io_process_alive react tick w w' : io_process sha256 react tick w = Some w' -> alive w' = alive w.
Proof.
  unfold io_process. destruct (process _); cbn; [|done]. destruct (lsquic _ _ _ _) as [w1|] eqn:El; cbn; [|done].
  apply lsquic_alive in El. destruct tick; intros [= <-]; exact El.
Qed.
Lemma readLoop_alive react tick w w' : readLoop sha256 react tick w = Some w' -> alive w' = alive w.
Proof.
  unfold readLoop. assert (forall q w w1, read_packets sha256 react q w = Some w1 -> alive w1 = alive w) as HR.
  { induction q as [|[d|] q IH]; cbn; intros w0 w1 E; [by simplify_eq/=| |by simplify_eq/=].
    destruct (lsquic _ _ _ _) as [w2|] eqn:El; cbn in E; [|done]. apply lsquic_alive in El. by rewrite (IH _ _ E). }
  destruct (read_packets _ _ _ _) as [w1|] eqn:Er; cbn; [|done]. intros ->%io_process_alive. by eapply HR.
Qed.
Lemma io_start_alive react tick w w' : io_start sha256 react tick w = Some w' -> alive w' = alive w.
Proof. unfold io_start. destruct (started_ _); [by intros [= <-]|]. by intros ->%readLoop_alive. Qed.

(** An engine goes only by its destructor, when all is closed; then nothing reaches
    lsquic any more. *)
Lemma io_step_ends ev w w' :
  io_ok w -> (alive w = false -> closed_engine (engine w)) -> io_step sha256 w ev = Some w' ->
  (alive w' = false -> closed_engine (engine w'))
  /\ (alive w = false -> alive w' = false /\ io_calls w' = io_calls w /\ calls (engine w') = calls (engine w)).
Proof.
  intros Hi Hg E. destruct (alive w) eqn:Ha.
  - split; [|done]. destruct ev; cbn [io_step] in E.
    all: try (injection E as <-; cbn; congruence).
    all: cbv zeta in E; cbn [alive set_read_waits set_write_waits set_posted set_timer] in E; rewrite ?Ha in E.
    + destruct (read_waits w); [|destruct (inbox w)]; [by simplify_eq; congruence..|]. apply readLoop_alive in E. cbn in E. congruence.
    + destruct (write_waits w); [by simplify_eq; congruence|]. apply lsquic_alive in E. cbn in E. congruence.
    + destruct (posted w); [by simplify_eq; congruence|]. apply io_process_alive in E. cbn in E. congruence.
    + destruct (timer w); [destruct (_ <=? _)|]; simplify_eq/=; congruence.
    + destruct (expired w); [by simplify_eq; congruence|]. apply io_process_alive in E. cbn in E. congruence.
    + injection E as <-. destruct (packets_out_frame specs 0 w) as (_ & _ & [_ S _ _ _] & _). congruence.
    + apply io_start_alive in E. congruence.
    + unfold io_connect in E. destruct (io_start _ _ _ _) as [w1|] eqn:Es; cbn in E; [|done]. apply io_start_alive in Es.
      destruct (decide _); cbn in E; [destruct (connect _ _ _ _ _); cbn in E; [|done]|]; injection E as <-; cbn; congruence.
    + destruct (is_connect k); [by simplify_eq; congruence|]. destruct (app_step _ _); cbn in E; [|done]. injection E as <-. cbn. congruence.
    + destruct (lsquic _ _ _ _) as [w1|] eqn:El; cbn in E; [|done]. injection E as <-. destruct (all_closed (engine w1)) eqn:Ec; [|congruence].
      intros _. by apply all_closed_spec.
  - specialize (Hg eq_refl). destruct ev; cbn [io_step] in E.
    13: { destruct (is_connect k) eqn:Hk; [by simplify_eq|]. destruct (app_step _ _) as [e|] eqn:Ep; cbn in E; [|done]. injection E as <-.
          destruct (closed_app_step k (engine w) e (io_engine w Hi) Hg Hk Ep) as [? ?]. by cbn. }
    all: cbv zeta in E; cbn in E; rewrite ?Ha in E; step_through; by cbn.
Qed.

Lemma io_run_ends evs : forall w w',
  io_ok w -> (alive w = false -> closed_engine (engine w)) -> io_run sha256 evs w = Some w' ->
  (alive w' = false -> closed_engine (engine w'))
  /\ (alive w = false -> alive w' = false /\ io_calls w' = io_calls w /\ calls (engine w') = calls (engine w)).
Proof.
  induction evs as [|ev evs IH]; intros w w' Hi Hg E; cbn [io_run] in E; [by simplify_eq|].
  destruct (io_step sha256 w ev) as [w1|] eqn:Es; cbn [mbind option_bind] in E; [|done].
  destruct (io_step_ends ev w w1 Hi Hg Es) as [Hg1 Hd1]. destruct (io_step_ok ev w w1 Hi Es) as [Hi1 _].
  destruct (IH w1 w' Hi1 Hg1 E) as [Hg2 Hd2]. split; [done|]. intros Ha.
  destruct (Hd1 Ha) as (Ha1 & <- & <-). by apply Hd2.
Qed.
End Safety.

(** A datagram that fits is not cut. *)
Lemma received_whole d : Z.of_nat (length (payload d)) <= kMaxUdpPacketSize -> received d = d.
Proof. intros Hl. destruct d as [p r]. unfold received. cbn in *. by rewrite take_ge by lia. Qed.

(** ** Claims *)
Section Claims.
Context `{Providers, RsaDer, Protobuf} {Cert : Type} `{!X509 Cert} (sha256 : bytes -> bytes).

(** C16: the event loop of a QUIC engine.  Whatever arrives, whatever lsquic calls back and
    whatever the application does, in any order: the objects stay consistent; lsquic gets
    every datagram once and in the order of arrival (cut at 64 KiB, which no UDP datagram
    exceeds), and what it has not got yet is in the queue of the socket; work that was
    asked for is posted.  The engine is destroyed once; when that has returned no
    context is left, and whatever happens afterwards, calls of the application on the
    objects it still holds included, makes no call into lsquic.  Unless the socket or a
    wait on it fails, an engine that was started has exactly one wait for reading; when
    something has arrived and every certificate that comes during the reading can be
    checked, its handler gives lsquic all that has arrived, and then either a stream that
    was written to has been closed before it was flushed, and [process] uses a null
    pointer, or the handler ends and waits anew. *)
Theorem engine_loop_correct (evs : list (io_event (Cert := Cert))) (w : Io) :
  io_run sha256 evs Io_new = Some w ->
  quic_ok (engine w)
  /\ delivered (io_calls w) ++ (received <$> packets (inbox w)) = received <$> packets (arrived w)
  /\ (alive w = true -> want_process_ (engine w) = true -> (1 <= posted w)%nat)
  /\ (if alive w then EngineDestroy ∉ io_calls w else exists l, io_calls w = l ++ [EngineDestroy] /\ EngineDestroy ∉ l)
  /\ (alive w = false -> forall evs' w', io_run sha256 evs' w = Some w' ->
        io_calls w' = io_calls w /\ calls (engine w') = calls (engine w)
        /\ conn_ctxs (engine w') = ∅ /\ stream_ctxs (engine w') = ∅)
  /\ (Forall (fun ev => healthy ev = true) evs -> alive w = true -> started_ (engine w) = true ->
        read_waits w = 1%nat
        /\ forall react tick, inbox w <> [] -> checkable sha256 react ->
              exists w1, read_packets sha256 react (inbox w) (set_read_waits 0 w) = Some w1
                /\ delivered (io_calls w1) = received <$> packets (arrived w)
                /\ (flush_closed (engine w1)
                    \/ exists w', io_step sha256 w (Reads react tick) = Some w' /\ inbox w' = [] /\ read_waits w' = 1%nat
                          /\ delivered (io_calls w') = received <$> packets (arrived w))).
Proof.
  intros E. destruct (io_run_ok sha256 evs Io_new w (proj1 Io_new_ok) E) as [Hi Hr].
  pose proof Hi as [I1 I2 I3 I4 I5 I6]. do 4 (split; [done|]). split.
  { destruct (io_run_ends sha256 evs Io_new w (proj1 Io_new_ok) ltac:(done) E) as [Hg _]. intros Ha evs' w' E'.
    destruct (io_run_ends sha256 evs' w w' Hi Hg E') as [Hg' Hd]. destruct (Hd Ha) as (Ha' & ? & ?). by destruct (Hg' Ha'). }
  intros Hh Ha Hs. destruct (Hr Hh (proj2 Io_new_ok)) as [F R]. split; [by apply R|]. intros react tick Hne Hc.
  destruct (read_packets_returns sha256 react (inbox w) (set_read_waits 0 w) Hc I1) as [w1 Er]. exists w1. split; [done|].
  destruct (read_packets_spec sha256 react (inbox w) (set_read_waits 0 w) w1 I1 Er) as (T1 & T2 & T3 & T4 & T5 & T6 & T7 & T8).
  destruct (T7 F) as [W1 N1]. rewrite N1 in T5. change (received <$> packets []) with (@nil datagram) in T5. rewrite app_nil_r in T5.
  assert (delivered (io_calls w1) = received <$> packets (arrived w)) as Hd by (rewrite T5; exact I2). split; [done|].
  destruct (io_process_returns sha256 react tick w1 Hc T1) as [Hf|[w' Ep]]; [by left|right]. exists w'.
  destruct (io_process_spec sha256 _ _ _ _ T1 Ep) as (_ & [S1 S2 S3 S4 S5] & R2 & _).
  split; [|split; [by rewrite S3|split; [by rewrite S5|]]].
  - unfold io_step. rewrite (R Ha Hs). destruct (inbox w) as [|x q] eqn:Hq; [done|]. cbv zeta.
    change (alive (set_read_waits 0 w)) with (alive w). rewrite Ha. unfold readLoop. cbn [inbox set_read_waits]. rewrite Hq, Er. done.
  - rewrite R2. unfold delivered. rewrite omap_app. cbn. by rewrite app_nil_r.
Qed.
End Claims.

(** The packets before the first one that could not be sent are sent, in order; their
    number is the answer to lsquic, and a wait for the socket follows exactly when it
    was full. *)
Lemma packets_out_exact specs : forall r w, exists pre rest,
  specs = ((., Sent) <$> pre) ++ rest /\ (packets_out specs r w).2 = (r + length pre)%nat
  /\ sent (packets_out specs r w).1 = sent w ++ pre
  /\ match rest with
     | [] | (_, SendFault) :: _ => write_waits (packets_out specs r w).1 = write_waits w
     | (_, SendAgain) :: _ => write_waits (packets_out specs r w).1 = S (write_waits w)
     | (_, Sent) :: _ => False
     end.
Proof.
  induction specs as [|[d []] specs IH]; intros r w; cbn.
  - exists [], []. repeat split; [cbn; lia|by rewrite app_nil_r].
  - destruct (IH (S r) (log_sent d w)) as (pre & rest & -> & -> & -> & Hw). exists (d :: pre), rest. cbn.
    split; [done|]. split; [lia|]. split; [by rewrite <- app_assoc|done].
  - exists [], ((d, SendAgain) :: specs). repeat split; [cbn; lia|by rewrite app_nil_r].
  - exists [], ((d, SendFault) :: specs). repeat split; [cbn; lia|by rewrite app_nil_r].
Qed.

(** The settings of lsquic are those of the configuration, at lsquic's widths and units:
    the dialling time-out in microseconds and the idle time-out in whole seconds, rounded
    down. *)
Lemma settings_exact `{LsquicConstants} (c : MuxedConnectionConfig) :
  0 <= maximum_window_size c < 2 ^ 32 -> 0 <= maximum_streams c < 2 ^ 32 ->
  0 <= dial_timeout c < 2 ^ 64 / 1000 -> 0 <= no_streams_interval c < 2 ^ 32 * 1000 ->
  let s := settings_of c in
  es_init_max_stream_data_bidi_remote s = maximum_window_size c /\ es_init_max_stream_data_bidi_local s = maximum_window_size c
  /\ es_init_max_streams_bidi s = maximum_streams c /\ es_handshake_to s = dial_timeout c * 1000
  /\ es_idle_timeout s * 1000 <= no_streams_interval c < es_idle_timeout s * 1000 + 1000.
Proof.
  intros Hw Hs Hd Hi. cbn. unfold u32, u64. rewrite Z.quot_div_nonneg by lia.
  assert (0 <= no_streams_interval c / 1000 < 2 ^ 32) by (split; [apply Z.div_pos|apply Z.div_lt_upper_bound]; lia).
  assert (dial_timeout c * 1000 < 2 ^ 64) by (change (2 ^ 64 / 1000) with 18446744073709551 in Hd; lia).
  rewrite !Z.mod_small by lia. pose proof (Z.div_mod (no_streams_interval c) 1000). pose proof (Z.mod_pos_bound (no_streams_interval c) 1000). lia.
Qed.

(** An endpoint survives the conversions that [on_hsk_done] makes of it. *)
Lemma endpointFrom_data e : endpointFrom (sockaddr_of e) = Some e.
Proof. by destruct e as [[] p]. Qed.

(** ** Concrete runs *)
Module ToyLoop.
Import Keys.Toy Tls.ToyX509.

Definition ep : endpoint := mkEndpoint (V4 [127; 0; 0; 1]) 9000.
Definition quiet : io_call -> Engine -> list (event (Cert := bytes * bytes)) := fun _ _ => [].
(** The handshake of the connection that the engine opened ends with a packet. *)
Definition answers_first : io_call -> Engine -> list (event (Cert := bytes * bytes)) :=
  fun k _ => match k with PacketIn _ => [HandshakeDone 5 toy_handshake []] | _ => [] end.

(** The connection that is open is closed with the engine. *)
Definition closes_five : io_call -> Engine -> list (event (Cert := bytes * bytes)) :=
  fun k _ => match k with EngineDestroy => [ConnClosed 5 []] | _ => [] end.

(** A dial, whose timer is set; two packets; the timer; the end, after which the
    application closes its connection. *)
Definition session (id : Multihash) : list (io_event (Cert := bytes * bytes)) :=
  [IoConnect quiet None ep id 1 (Some 5%nat); Posted quiet (Some 250); SendBatch [(mkDatagram [1] ep, Sent); (mkDatagram [2] ep, SendAgain)];
   Arrives (Datagram (mkDatagram [3] ep)); Arrives (Datagram (mkDatagram [4] ep)); Reads answers_first (Some 1000);
   Writes quiet; Passes 1000; Expires; Ticks quiet None; Destroy closes_five; IoApp (CloseConn 0)].
Definition toy_io (id : Multihash) : Io := default Io_new (io_run toy_hash (session id) Io_new).

Lemma engine_loop_correct_witness :
  exists id, toy_peer = Some id /\ quic_ok (engine (toy_io id))
    /\ delivered (io_calls (toy_io id)) = [mkDatagram [3] ep; mkDatagram [4] ep]
    /\ io_calls (toy_io id) = [ProcessConns; ProcessConns; PacketIn (mkDatagram [3] ep); PacketIn (mkDatagram [4] ep); ProcessConns;
                               SendUnsent; ProcessConns; EngineDestroy]
    /\ answers (engine (toy_io id)) = [(mkConnecting ep id 1, success 0%nat)]
    /\ conn_ctxs (engine (toy_io id)) = ∅.
Proof.
  destruct toy_peer as [id|] eqn:E; [|vm_compute in E; discriminate]. exists id. split; [done|].
  assert (Er : io_run toy_hash (session id) Io_new = Some (toy_io id)) by (vm_compute in E; injection E as <-; vm_compute; reflexivity).
  destruct (engine_loop_correct toy_hash (session id) (toy_io id) Er) as (Hok & _ & _ & _ & Hend & _).
  split; [exact Hok|]. do 3 (split; [vm_compute in E; injection E as <-; vm_compute; reflexivity|]).
  refine (proj1 (proj2 (proj2 (Hend _ [] (toy_io id) eq_refl)))). vm_compute in E. injection E as <-. vm_compute. reflexivity.
Defined.

(** One failing [recvfrom]: the packet that comes after it is never read. *)
Lemma reading_stops :
  exists w, io_run (Cert := bytes * bytes) toy_hash [IoStart quiet None; Arrives SocketFault; Reads quiet None;
              Arrives (Datagram (mkDatagram [3] ep))] Io_new = Some w /\ read_waits w = 0%nat
    /\ forall evs w', io_run toy_hash evs w = Some w' -> delivered (io_calls w') = [].
Proof.
  eexists. split; [vm_compute; reflexivity|]. split; [done|]. intros evs w' E.
  lazymatch type of E with io_run _ _ ?w = _ => assert (io_ok w) as Hi; [|by rewrite (read_fault_is_final toy_hash evs w w' Hi eq_refl eq_refl E)] end.
  eapply (io_run_ok toy_hash [IoStart quiet None; Arrives SocketFault; Reads quiet None; Arrives (Datagram (mkDatagram [3] ep))] Io_new);
    [apply Io_new_ok|vm_compute; reflexivity].
Qed.
End ToyLoop.
