(* ===== verification/QuicTransport.v ===== *)
(** * The QUIC transport

    [transport/quic/transport.cpp] and [resolve] of [transport/tcp/tcp_util.hpp]:
    dialling a multiaddress with one client engine per IP version.  The resolver of
    Boost.Asio and the opening of sockets are parameters. *)

From S2P Require Import Prelude Multihash Multibase ByteUtil MultiaddrCodec MultiaddrPlain Multiaddress.
From S2P Require Import Base58 PeerAddress TcpUtil Keys Tls Quic QuicSafe QuicAuth.

(** [async_resolve]: the IP version asked for, if any, the host and the service. *)
Class Resolver (E : Type) := async_resolve : option bool -> bytes -> bytes -> outcome E (list endpoint).

(** A numeric host and service resolve to themselves. *)
Class ResolverLaws (E : Type) `{Ext, Resolver E} :=
  resolve_numeric e : endpoint_ok e ->
    async_resolve None (ip_to_string (ep_ip e)) (to_string (ep_port e)) = success [e].

Inductive dial_error (E : Type) :=
| BadAddress (e : util_error)
| ResolveError (e : E)
| host_unreachable
| SocketError (e : E).
Arguments BadAddress {E}. Arguments ResolveError {E}. Arguments host_unreachable {E}. Arguments SocketError {E}.

Definition is_v4 (e : endpoint) : bool := match ep_ip e with V4 _ => true | V6 _ => false end.

Record QuicTransport := mkQuicTransport { client4_ : option Engine; client6_ : option Engine }.
Definition client (v4 : bool) (t : QuicTransport) : option Engine := if v4 then client4_ t else client6_ t.
Definition set_client (v4 : bool) (c : Engine) (t : QuicTransport) : QuicTransport :=
  if v4 then mkQuicTransport (Some c) (client6_ t) else mkQuicTransport (client4_ t) (Some c).

Section Transport.
Context `{Ext, Hex} {E : Type} `{!Resolver E}.

(** [detail::resolve] *)
Definition resolve (addr : TcpOrUdp) : outcome E (list endpoint) :=
  match ip addr with
  | IsIp i => success [mkEndpoint i (port addr)]
  | IsDns d => async_resolve (dns_v4 d) (dns_name d) (to_string (port addr))
  end.

(** [QuicTransport::dial] up to the choice of the remote endpoint. *)
Definition dial_host (info : TcpOrUdp) : bytes :=
  match ip info with IsIp i => ip_to_string i | IsDns d => dns_name d end.
Definition dial_remote (address : Multiaddress) : option (outcome (dial_error E) endpoint) :=
  info ← asQuic address;
  Some match info with
       | failure e => failure (BadAddress e)
       | success info =>
           match async_resolve None (dial_host info) (to_string (port info)) with
           | failure e => failure (ResolveError e)
           | success [] => failure host_unreachable
           | success (remote :: _) => success remote
           end
       end.

(** [makeClient]: a new engine on a socket, unless the socket cannot be opened. *)
Definition makeClient (opened : outcome E unit) : outcome (dial_error E) Engine :=
  match opened with failure e => failure (SocketError e) | success _ => success Engine_new end.

(** The rest of [dial]: the engine of the IP version of the remote endpoint, made on
    first use, and [Engine::connect] on it. *)
Definition dial_connect (peer : Multihash) (remote : endpoint) (opened : outcome E unit) (cb : nat) (created : option LsConn)
    (t : QuicTransport) : option (QuicTransport * outcome (dial_error E) unit) :=
  let v4 := is_v4 remote in
  match match client v4 t with Some c => success c | None => makeClient opened end with
  | failure e => Some (t, failure e)
  | success c => c ← connect remote peer cb created c; Some (set_client v4 c t, success tt)
  end.
Definition dial (peer : Multihash) (address : Multiaddress) (opened : outcome E unit) (cb : nat) (created : option LsConn)
    (t : QuicTransport) : option (QuicTransport * outcome (dial_error E) unit) :=
  remote ← dial_remote address;
  match remote with
  | failure e => Some (t, failure e)
  | success remote => dial_connect peer remote opened cb created t
  end.

Definition canDial (ma : Multiaddress) : option bool :=
  r ← asQuic ma; Some match r with success _ => true | failure _ => false end.
End Transport.

(** ** Proofs *)

Definition transport_ok (t : QuicTransport) : Prop := forall v4 c, client v4 t = Some c -> quic_ok c.

Section Laws.
Context `{ExtLaws, Hex} {E : Type} `{!Resolver E}.

Lemma connect_requests remote peer cb created c0 :
  quic_ok c0 -> created ≫= (fun lc => conn_ctxs c0 !! lc) = None ->
  exists c, connect remote peer cb created c0 = Some c /\ quic_ok c /\ requests c = requests c0 ++ [mkConnecting remote peer cb].
Proof.
  intros Hc0 Hn. destruct (connect_fine remote peer cb created c0 Hc0 Hn) as (c & Ec & Hc & _). exists c. split; [done|]. split; [done|].
  unfold connect in Ec. destruct (start c0) as [c1|] eqn:Es; [|done]. simpl in Ec. apply start_neutral in Es.
  rewrite <- (nt_requests _ _ Es). destruct (connecting_ c1); [done|]. injection Ec as <-. unfold wantProcess.
  destruct created; simpl; by destruct (want_process_ c1).
Qed.

(** What a dial does to the engines, for the IP version [v4]. *)
Definition dialled (v4 : bool) (op : Connecting) (opened : outcome E unit) (t t' : QuicTransport)
    (r : outcome (dial_error E) unit) : Prop :=
  match r with
  | success _ => exists c, client v4 t' = Some c /\
      requests c = (match client v4 t with Some c => requests c | None => [] end) ++ [op]
  | failure err => t' = t /\ client v4 t = None /\ exists x, opened = failure x /\ err = SocketError x
  end.

Lemma dial_connect_spec peer remote opened cb created t :
  transport_ok t -> (forall c, client (is_v4 remote) t = Some c -> created ≫= (fun lc => conn_ctxs c !! lc) = None) ->
  exists t' r, dial_connect peer remote opened cb created t = Some (t', r) /\ transport_ok t' /\
    client (negb (is_v4 remote)) t' = client (negb (is_v4 remote)) t /\
    dialled (is_v4 remote) (mkConnecting remote peer cb) opened t t' r.
Proof.
  intros Ht Hf. unfold dial_connect, dialled. set (v4 := is_v4 remote) in *.
  assert (D : forall c0, quic_ok c0 -> created ≫= (fun lc => conn_ctxs c0 !! lc) = None ->
    exists t', (c ← connect remote peer cb created c0; Some (set_client v4 c t, success (E := dial_error E) tt)) = Some (t', success tt) /\
      transport_ok t' /\ client (negb v4) t' = client (negb v4) t /\
      exists c, client v4 t' = Some c /\ requests c = requests c0 ++ [mkConnecting remote peer cb]).
  { intros c0 Hc0 Hn. destruct (connect_requests remote peer cb created c0 Hc0 Hn) as (c & -> & Hc & Er). simpl. eexists. split; [done|]. split.
    - intros v c' Hv. destruct (decide (v = v4)) as [->|n]; [by destruct v4; simplify_eq/=|]. apply (Ht v c'). by destruct v4, v.
    - split; [by unfold set_client; destruct v4|]. exists c. split; [by unfold set_client; destruct v4|done]. }
  destruct (client v4 t) as [c0|] eqn:Ec.
  - destruct (D c0) as (t' & E1 & E2 & E3 & E4); [by apply (Ht v4)|by apply Hf|]. by exists t', (success tt).
  - destruct opened as [[]|x]; simpl.
    + destruct (D Engine_new) as (t' & E1 & E2 & E3 & E4); [apply Engine_new_ok|by destruct created|]. by exists t', (success tt).
    + exists t, (failure (SocketError x)). split; [done|]. split; [done|]. split; [done|]. by repeat split; exists x.
Qed.

(** C17: dialling an address of a listener.  The address written for an endpoint, with
    any further components such as the peer id, can be dialled; [dial] resolves it to
    that endpoint and asks the engine of the endpoint's IP version, made on first use,
    to connect to that endpoint and peer, once, unless the socket of a new engine cannot be opened;
    the other engine is not touched and the pointers of both stay consistent. *)
Theorem quic_dial_exact `{!ResolverLaws E} e cs peer opened cb created t :
  endpoint_ok e -> Forall good cs -> Forall plain cs -> transport_ok t ->
  (forall c, client (is_v4 e) t = Some c -> created ≫= (fun lc => conn_ctxs c !! lc) = None) ->
  exists ma t' r, makeQuicAddr e = Some (success ma) /\
    canDial (encapsulate ma (address_of cs)) = Some true /\
    dial peer (encapsulate ma (address_of cs)) opened cb created t = Some (t', r) /\
    transport_ok t' /\ client (negb (is_v4 e)) t' = client (negb (is_v4 e)) t /\
    dialled (is_v4 e) (mkConnecting e peer cb) opened t t' r.
Proof.
  intros He Hg Hp Ht Hf. destruct (quic_address_roundtrip e cs He Hg Hp) as (ma & Em & Eq & _ & _).
  destruct (dial_connect_spec peer e opened cb created t Ht Hf) as (t' & r & Ed & Hrest). exists ma, t', r.
  split; [done|]. unfold canDial, dial, dial_remote. rewrite Eq. simpl. split; [done|].
  unfold dial_host. simpl. rewrite resolve_numeric by done. simpl. by rewrite Ed.
Qed.

(** The IP version that "/dns4" and "/dns6" ask for is lost: [dial] asks for any. *)
Lemma dial_ignores_ip_version address d n :
  asQuic address = Some (success (mkTcpOrUdp (IsDns d) n true)) ->
  dial_remote address = Some match async_resolve None (dns_name d) (to_string n) with
                             | failure x => failure (ResolveError x)
                             | success [] => failure host_unreachable
                             | success (remote :: _) => success remote
                             end
  /\ resolve (mkTcpOrUdp (IsDns d) n true) = async_resolve (dns_v4 d) (dns_name d) (to_string n).
Proof. intros Eq. split; [|done]. unfold dial_remote. rewrite Eq. reflexivity. Qed.
End Laws.

(** ** A concrete resolver *)
Module ToyResolver.
Import (hints) Plain.
Import (hints) Multibase.Multibase.

(** Numeric hosts, and names that have one address of each IP version. *)
#[export] Instance toy_resolver : Resolver unit := fun v4 host service =>
  match from_chars_u16 service with
  | None => failure tt
  | Some n =>
      if bool_decide (58 ∈ host)
      then match make_address_v6 host with Some b => success [mkEndpoint (V6 b) n] | None => failure tt end
      else match make_address_v4 host with
           | Some b => success [mkEndpoint (V4 b) n]
           | None => success (match v4 with
                              | None => [mkEndpoint (V6 (replicate 16 1)) n; mkEndpoint (V4 [10; 0; 0; 1]) n]
                              | Some true => [mkEndpoint (V4 [10; 0; 0; 1]) n]
                              | Some false => [mkEndpoint (V6 (replicate 16 1)) n]
                              end)
           end
  end.
#[export] Instance toy_resolver_laws : ResolverLaws unit.
Proof.
  intros [i n] [Hn Hi]. cbn [ep_ip ep_port] in *. unfold async_resolve, toy_resolver. destruct (port_text n Hn) as [_ ->].
  destruct i as [b|b]; destruct Hi as [Hb Hl]; cbn [ip_to_string].
  - rewrite bool_decide_false; [cbn iota; by rewrite v4_parse_print|]. intros Hin. destruct (v4_text b Hb Hl) as [_ Hf].
    rewrite Forall_forall in Hf. apply Hf in Hin. vm_compute in Hin. discriminate.
  - rewrite bool_decide_true by apply (v6_text b Hb Hl). cbn iota. by rewrite v6_parse_print.
Qed.

Definition toy_endpoint : endpoint := mkEndpoint (V4 [127; 0; 0; 1]) 9000.

Lemma quic_dial_exact_witness :
  exists ma t' r, makeQuicAddr toy_endpoint = Some (success ma) /\
    canDial (encapsulate ma (address_of [])) = Some true /\
    dial (mkMultihash [0; 1; 5] 2 0) (encapsulate ma (address_of [])) (success tt) 1 (Some 5%nat) (mkQuicTransport None None) = Some (t', r) /\
    transport_ok t' /\ client false t' = None /\
    dialled true (mkConnecting toy_endpoint (mkMultihash [0; 1; 5] 2 0) 1) (success tt) (mkQuicTransport None None) t' r.
Proof.
  apply (quic_dial_exact toy_endpoint [] (mkMultihash [0; 1; 5] 2 0) (success tt) 1 (Some 5%nat) (mkQuicTransport None None)).
  - split; cbn [ep_port ep_ip toy_endpoint]; [lia|]. split; [repeat constructor; vm_compute; done|done].
  - constructor.
  - constructor.
  - by intros [] c.
  - by intros c.
Defined.

(** A "/dns4" address dialled over IPv6. *)
Lemma dns4_dialled_over_ipv6 :
  match create (str "/dns4/example/udp/4001/quic-v1") with
  | Some (success address) => dial_remote address = Some (success (mkEndpoint (V6 (replicate 16 1)) 4001))
  | _ => False
  end.
Proof. vm_compute. reflexivity. Qed.
End ToyResolver.
