(* ===== verification/AddressRepository.v ===== *)
(** * The address book

    [src/peer/address_repository/inmem_address_repository.cpp]: for every peer
    the known addresses with their expiration times and the order in which the
    dialer tries them.

    The type of addresses is a parameter of the section; what the code needs of
    [Multiaddress] is equality and a hash.  The clock reading is an argument of
    the operations that take one, and the [signals2] slots are the trace of
    emitted signals. *)

From S2P Require Import Prelude.

(** A peer id, as its bytes. *)
Abbreviation PeerId := bytes.

(** Signed 64-bit arithmetic, as compiled: it wraps around. *)
Definition i64 (z : Z) : Z := (z + 2 ^ 63) mod 2 ^ 64 - 2 ^ 63.
(** [Clock::time_point::max()], in nanoseconds. *)
Definition max_time : Z := 2 ^ 63 - 1.
(** [ttl::kPermanent], in milliseconds. *)
Definition kPermanent : Z := 2 ^ 63 - 1.

(** [PeerError] *)
Inductive PeerError := SUCCESS | NOT_FOUND.

(** [ttl] in milliseconds. *)
Definition calculateExpirationTime (now ttl : Z) : Z :=
  let ttl := i64 (ttl * 1000000) in
  if i64 (max_time - ttl) <=? now then max_time else i64 (now + ttl).

Section AddressRepository.
Context {Multiaddress : Type} `{Countable Multiaddress}.

Record AddrPeer := mkAddrPeer {
  expires : gmap Multiaddress Z;
  order : list Multiaddress
}.
Definition no_addresses : AddrPeer := mkAddrPeer ∅ [].

Inductive signal :=
| signal_added_ (p : PeerId) (m : Multiaddress)
| signal_removed_ (p : PeerId) (m : Multiaddress).

Record AddressRepo := mkAddressRepo {
  db_ : gmap PeerId AddrPeer;
  resolved_dns_addrs_ : gset Multiaddress;
  signals : list signal
}.
Definition AddressRepo_new : AddressRepo := mkAddressRepo ∅ ∅ [].

Definition set_db (p : PeerId) (a : AddrPeer) (s : AddressRepo) : AddressRepo :=
  mkAddressRepo (<[p := a]> (db_ s)) (resolved_dns_addrs_ s) (signals s).
Definition emit (g : list signal) (s : AddressRepo) : AddressRepo :=
  mkAddressRepo (db_ s) (resolved_dns_addrs_ s) (signals s ++ g).

Definition isNewDnsAddr (ma : Multiaddress) (s : AddressRepo) : AddressRepo * bool :=
  if decide (ma ∈ resolved_dns_addrs_ s) then (s, false)
  else (mkAddressRepo (db_ s) ({[ma]} ∪ resolved_dns_addrs_ s) (signals s), true).

(** One address of [addAddresses] or, with [refresh], of [upsertAddresses]. *)
Definition add_one (refresh : bool) (p : PeerId) (expires_at : Z)
    (acc : AddrPeer * list signal * bool) (m : Multiaddress) : AddrPeer * list signal * bool :=
  let '(a, g, added) := acc in
  match expires a !! m with
  | None => (mkAddrPeer (<[m := expires_at]> (expires a)) (order a ++ [m]),
             g ++ [signal_added_ p m], true)
  | Some _ => if refresh then (mkAddrPeer (<[m := expires_at]> (expires a)) (order a), g, added)
              else (a, g, added)
  end.

Definition add_all (refresh : bool) (p : PeerId) (ma : list Multiaddress) (ttl now : Z)
    (s : AddressRepo) : AddressRepo * bool :=
  let addresses := default no_addresses (db_ s !! p) in
  let expires_at := calculateExpirationTime now ttl in
  let '(a, g, added) := foldl (add_one refresh p expires_at) (addresses, [], false) ma in
  (emit g (set_db p a s), added).

Definition addAddresses := add_all false.
Definition upsertAddresses := add_all true.

Definition updateAddresses (p : PeerId) (ttl now : Z) (s : AddressRepo) :
    AddressRepo * outcome PeerError unit :=
  match db_ s !! p with
  | None => (s, failure NOT_FOUND)
  | Some a =>
      let expires_at := calculateExpirationTime now ttl in
      (set_db p (mkAddrPeer ((fun _ => expires_at) <$> expires a) (order a)) s, success tt)
  end.

(** [Peer::eraseOrder]: the first occurrence goes. *)
Fixpoint erase_first (addr : Multiaddress) (l : list Multiaddress) : option (list Multiaddress) :=
  match l with
  | [] => None
  | m :: l => if decide (m = addr) then Some l else cons m <$> erase_first addr l
  end.
Definition eraseOrder (addr : Multiaddress) (a : AddrPeer) : AddrPeer * bool :=
  match erase_first addr (order a) with
  | None => (a, false)
  | Some l => (mkAddrPeer (expires a) l, true)
  end.

Definition dialFailed (peer_id : PeerId) (addr : Multiaddress) (s : AddressRepo) : AddressRepo :=
  match db_ s !! peer_id with
  | None => s
  | Some peer =>
      match expires peer !! addr with
      | None => s
      | Some _ =>
          let '(peer, erased) := eraseOrder addr peer in
          if erased then set_db peer_id (mkAddrPeer (expires peer) (order peer ++ [addr])) s else s
      end
  end.

Definition getAddresses (p : PeerId) (s : AddressRepo) : outcome PeerError (list Multiaddress) :=
  match db_ s !! p with
  | None => failure NOT_FOUND
  | Some a => success (order a)
  end.

Definition clear (p : PeerId) (s : AddressRepo) : AddressRepo :=
  match db_ s !! p with
  | None => s
  | Some a => emit (map (fun m => signal_removed_ p m.1) (map_to_list (expires a)))
                (set_db p no_addresses s)
  end.

(** The inner loop of [collectGarbage], over the entries of [expires]. *)
Fixpoint sweep_peer (now : Z) (p : PeerId) (l : list (Multiaddress * Z)) (a : AddrPeer)
    (g : list signal) : AddrPeer * list signal :=
  match l with
  | [] => (a, g)
  | (m, t) :: l =>
      if t <=? now then
        let a := (eraseOrder m a).1 in
        sweep_peer now p l (mkAddrPeer (delete m (expires a)) (order a)) (g ++ [signal_removed_ p m])
      else sweep_peer now p l a g
  end.

(** The outer loop, over the peers. *)
Fixpoint sweep (now : Z) (l : list (PeerId * AddrPeer)) (s : AddressRepo) : AddressRepo :=
  match l with
  | [] => s
  | (p, a) :: l =>
      let '(a, g) := sweep_peer now p (map_to_list (expires a)) a [] in
      let s := emit g s in
      sweep now l
        (if decide (expires a = ∅)
         then mkAddressRepo (delete p (db_ s)) (resolved_dns_addrs_ s) (signals s)
         else set_db p a s)
  end.

Definition collectGarbage (now : Z) (s : AddressRepo) : AddressRepo :=
  sweep now (map_to_list (db_ s)) s.

Definition getPeers (s : AddressRepo) : gset PeerId := dom (db_ s).

(** ** Invariant *)

(** The order lists exactly the known addresses, each once. *)
Definition peer_ok (a : AddrPeer) : Prop :=
  NoDup (order a) /\ forall m, m ∈ order a <-> is_Some (expires a !! m).
Definition repo_ok (s : AddressRepo) : Prop := map_Forall (fun _ => peer_ok) (db_ s).

Lemma no_addresses_ok : peer_ok no_addresses.
Proof. split; [constructor|]. intros m. cbn. rewrite lookup_empty, elem_of_nil, is_Some_alt. done. Qed.

Lemma repo_set_ok p a s : repo_ok s -> peer_ok a -> repo_ok (set_db p a s).
Proof. intros Hs Ha. by apply map_Forall_insert_2. Qed.

Lemma repo_emit_ok g s : repo_ok s -> repo_ok (emit g s).
Proof. done. Qed.

Lemma filter_absent addr (l : list Multiaddress) : addr ∉ l -> filter (fun m => m <> addr) l = l.
Proof.
  induction l as [|m l IH]; intros Hl; [done|]. rewrite filter_cons_True by set_solver.
  f_equal. apply IH. set_solver.
Qed.

Lemma erase_first_filter addr l :
  NoDup l ->
  erase_first addr l = if decide (addr ∈ l) then Some (filter (fun m => m <> addr) l) else None.
Proof.
  induction 1 as [|m l Hm _ IH]; [done|]. cbn [erase_first].
  destruct (decide (m = addr)) as [->|Hne].
  - rewrite decide_True by set_solver. rewrite filter_cons_False by auto. by rewrite filter_absent.
  - rewrite IH. rewrite filter_cons_True by done.
    destruct (decide (addr ∈ l)); [rewrite decide_True by set_solver|rewrite decide_False by set_solver];
      done.
Qed.

Lemma eraseOrder_ok addr a :
  NoDup (order a) ->
  eraseOrder addr a = (mkAddrPeer (expires a) (filter (fun m => m <> addr) (order a)),
                       bool_decide (addr ∈ order a)).
Proof.
  intros Hnd. unfold eraseOrder. rewrite erase_first_filter by done.
  destruct (decide (addr ∈ order a)); [by rewrite bool_decide_true|].
  rewrite bool_decide_false by done. f_equal. destruct a as [e o]. cbn in *. f_equal.
  by rewrite filter_absent.
Qed.

Lemma add_one_ok refresh p e a g b m :
  peer_ok a -> peer_ok (add_one refresh p e (a, g, b) m).1.1.
Proof.
  intros [Hnd Ho]. cbn. destruct (expires a !! m) as [t|] eqn:Hm.
  - destruct refresh; cbn; [|by split]. split; [done|]. intros x. cbn. rewrite Ho, lookup_insert.
    case_decide as Hx; [|done]. subst x. by rewrite Hm.
  - cbn. split; cbn.
    + apply NoDup_app. split_and!; [done| |apply NoDup_singleton].
      intros x Hx ->%list_elem_of_singleton. apply Ho in Hx as [? Hx]. by rewrite Hm in Hx.
    + intros x. rewrite elem_of_app, list_elem_of_singleton, Ho, lookup_insert.
      case_decide as Hx; [subst; split; [by eexists|by right]|].
      split; [intros [?| ->]; [done|done]|by left].
Qed.

Lemma add_loop_ok refresh p e ma acc :
  peer_ok acc.1.1 -> peer_ok (foldl (add_one refresh p e) acc ma).1.1.
Proof.
  revert acc. induction ma as [|m ma IH]; intros [[a g] b] Ha; [done|]. apply IH, add_one_ok, Ha.
Qed.

Lemma stored_ok p s : repo_ok s -> peer_ok (default no_addresses (db_ s !! p)).
Proof.
  intros Hs. destruct (db_ s !! p) as [a|] eqn:Ha; [by apply (Hs p)|apply no_addresses_ok].
Qed.

Lemma add_all_ok refresh p ma ttl now s : repo_ok s -> repo_ok (add_all refresh p ma ttl now s).1.
Proof.
  intros Hs. unfold add_all.
  pose proof (add_loop_ok refresh p (calculateExpirationTime now ttl) ma
    (default no_addresses (db_ s !! p), [], false) (stored_ok p s Hs)) as Ha.
  destruct (foldl _ _ ma) as [[a g] added]. by apply repo_emit_ok, repo_set_ok.
Qed.

Lemma updateAddresses_ok p ttl now s : repo_ok s -> repo_ok (updateAddresses p ttl now s).1.
Proof.
  intros Hs. unfold updateAddresses. destruct (db_ s !! p) as [a|] eqn:Ha; [|done].
  destruct (Hs p a Ha) as [Hnd Ho]. apply repo_set_ok; [done|]. split; [done|]. intros m. cbn.
  rewrite Ho, lookup_fmap. by rewrite fmap_is_Some.
Qed.

Lemma dialFailed_spec peer_id addr s :
  repo_ok s ->
  dialFailed peer_id addr s = match db_ s !! peer_id with
    | Some a => if decide (addr ∈ order a)
                then set_db peer_id (mkAddrPeer (expires a)
                       (filter (fun m => m <> addr) (order a) ++ [addr])) s
                else s
    | None => s
    end.
Proof.
  intros Hs. unfold dialFailed. destruct (db_ s !! peer_id) as [a|] eqn:Ha; [|done].
  destruct (Hs _ _ Ha) as [Hnd Ho]. specialize (Ho addr). rewrite eraseOrder_ok by done.
  destruct (expires a !! addr) as [t|].
  - rewrite decide_True by by apply Ho. rewrite bool_decide_true by by apply Ho. done.
  - rewrite decide_False; [done|]. intros Hin. apply Ho in Hin as [? ?]. done.
Qed.

Lemma dialFailed_ok peer_id addr s : repo_ok s -> repo_ok (dialFailed peer_id addr s).
Proof.
  intros Hs. rewrite dialFailed_spec by done. destruct (db_ s !! peer_id) as [a|] eqn:Ha; [|done].
  case_decide as Hin; [|done]. destruct (Hs _ _ Ha) as [Hnd Ho]. apply repo_set_ok; [done|]. split; cbn.
  - apply NoDup_app. split_and!; [by apply NoDup_filter| |apply NoDup_singleton].
    intros x [Hx _]%list_elem_of_filter ->%list_elem_of_singleton. done.
  - intros m. rewrite elem_of_app, list_elem_of_filter, list_elem_of_singleton, <- Ho.
    destruct (decide (m = addr)) as [->|]; naive_solver.
Qed.

Lemma clear_ok p s : repo_ok s -> repo_ok (clear p s).
Proof.
  intros Hs. unfold clear. destruct (db_ s !! p); [|done]. apply repo_emit_ok, repo_set_ok; [done|].
  apply no_addresses_ok.
Qed.

(** ** Garbage collection *)

(** The addresses among the entries [l] that have expired. *)
Definition expired (now : Z) (l : list (Multiaddress * Z)) : list Multiaddress :=
  (filter (fun mt => mt.2 <= now) l).*1.

(** What is left of a peer when the addresses [gone] go. *)
Definition without (gone : list Multiaddress) (a : AddrPeer) : AddrPeer :=
  mkAddrPeer (filter (fun mt => mt.1 ∉ gone) (expires a)) (filter (fun m => m ∉ gone) (order a)).

Lemma sweep_peer_spec now p l a g :
  NoDup (order a) ->
  sweep_peer now p l a g = (without (expired now l) a, g ++ map (signal_removed_ p) (expired now l)).
Proof.
  revert a g. induction l as [|[m t] l IH]; intros a g Hnd; cbn [sweep_peer expired].
  - unfold without, expired. cbn. rewrite app_nil_r. destruct a as [e o]. cbn. do 2 f_equal.
    + symmetry. apply map_filter_id. intros i x _. cbn. set_solver.
    + symmetry. clear. induction o as [|x o IH]; [done|]. rewrite filter_cons_True by set_solver.
      by rewrite IH.
  - unfold expired. rewrite filter_cons. cbn [snd fst].
    destruct (t <=? now) eqn:Et; reflect_bools.
    + rewrite decide_True by done. rewrite eraseOrder_ok by done. rewrite IH by by apply NoDup_filter.
      cbn. fold (expired now l). f_equal; [|by rewrite <- app_assoc].
      unfold without. cbn. f_equal.
      * apply map_eq. intros x. rewrite !map_lookup_filter, lookup_delete. cbn.
        destruct (decide (m = x)) as [->|Hne]; cbn.
        -- destruct (expires a !! x); cbn; [|done]. by rewrite option_guard_False by set_solver.
        -- destruct (expires a !! x); cbn; [|done]. case_guard as H1; case_guard as H2; set_solver.
      * rewrite list_filter_filter. apply list_filter_iff. intros x. set_solver.
    + rewrite decide_False by lia. by apply IH.
Qed.

Lemma elem_of_expired now (e : gmap Multiaddress Z) m :
  m ∈ expired now (map_to_list e) <-> exists t, e !! m = Some t /\ t <= now.
Proof.
  unfold expired. rewrite list_elem_of_fmap. split.
  - intros ([m' t] & -> & [Ht Hm]%list_elem_of_filter). apply elem_of_map_to_list in Hm. eauto.
  - intros (t & Hm & Ht). exists (m, t). split; [done|]. apply list_elem_of_filter.
    split; [done|]. by apply elem_of_map_to_list.
Qed.

(** A peer after the collection. *)
Definition survivors (now : Z) (a : AddrPeer) : AddrPeer :=
  without (expired now (map_to_list (expires a))) a.
(** The signals of a collection of the peers [l]. *)
Definition removals (now : Z) (l : list (PeerId * AddrPeer)) : list signal :=
  l ≫= fun pa => signal_removed_ pa.1 <$> expired now (map_to_list (expires pa.2)).

Lemma survivors_lookup now a m :
  expires (survivors now a) !! m = (t ← expires a !! m; guard (now < t);; Some t).
Proof.
  unfold survivors, without. cbn. rewrite map_lookup_filter.
  destruct (expires a !! m) as [t|] eqn:Hm; cbn; [|done].
  case_guard as H1; case_guard as H2; try done; exfalso.
  - cbn in H1. rewrite elem_of_expired in H1. apply H1. exists t. split; [done|]. cbn in H2. lia.
  - apply elem_of_expired in H1 as (t' & Ht' & Hle). simplify_eq. lia.
Qed.

Lemma survivors_ok now a : peer_ok a -> peer_ok (survivors now a).
Proof.
  intros [Hnd Ho]. split; [by apply NoDup_filter|]. intros m. cbn. rewrite list_elem_of_filter, Ho.
  rewrite elem_of_expired. fold (survivors now a).
  change (filter _ (expires a)) with (expires (survivors now a)). rewrite survivors_lookup.
  destruct (expires a !! m) as [t|]; cbn.
  - case_guard as Hg; cbn in *; split.
    + by eexists.
    + intros _. split; [|by eexists]. intros (t' & [= <-] & Hle). lia.
    + intros [Hn _]. exfalso. apply Hn. exists t. split; [done|lia].
    + by intros [? ?].
  - split; [by intros [_ [? ?]]|by intros [? ?]].
Qed.

Lemma sweep_spec now l s :
  NoDup l.*1 -> (forall p a, (p, a) ∈ l -> db_ s !! p = Some a /\ NoDup (order a)) ->
  let s' := sweep now l s in
  (forall q, db_ s' !! q = if decide (q ∈ l.*1)
     then (a ← db_ s !! q; guard (expires (survivors now a) <> ∅);; Some (survivors now a))
     else db_ s !! q)
  /\ signals s' = signals s ++ removals now l
  /\ resolved_dns_addrs_ s' = resolved_dns_addrs_ s.
Proof.
  revert s. induction l as [|[p a] l IH]; intros s Hnd Hl; cbn [sweep].
  { cbn. split_and!; [done| |done]. by rewrite app_nil_r. }
  apply NoDup_cons in Hnd as [Hp Hnd]. cbn [fst] in Hp.
  destruct (Hl p a) as [Ha Ho]; [set_solver|]. rewrite sweep_peer_spec by done.
  fold (survivors now a). cbn [app]. set (s1 := emit _ s).
  set (s2 := if decide _ then _ else _).
  assert (forall q, db_ s2 !! q = if decide (q = p)
    then (guard (expires (survivors now a) <> ∅);; Some (survivors now a)) else db_ s !! q) as Hs2.
  { intros q. unfold s2. destruct (decide (expires (survivors now a) = ∅)) as [He|He]; cbn.
    - rewrite lookup_delete. repeat case_decide; subst; try done.
    - rewrite lookup_insert. repeat case_decide; subst; try done. }
  assert (signals s2 = signals s ++ (signal_removed_ p <$> expired now (map_to_list (expires a)))
    /\ resolved_dns_addrs_ s2 = resolved_dns_addrs_ s) as [Hg2 Hd2]
    by (unfold s2; by case_decide).
  destruct (IH s2) as (IH1 & IH2 & IH3); [done| |].
  { intros q b Hq. destruct (Hl q b) as [Hb Hbo]; [set_solver|]. split; [|done].
    rewrite Hs2, decide_False; [done|]. intros ->. apply Hp, list_elem_of_fmap. by exists (p, b). }
  cbv zeta. split_and!.
  - intros q. rewrite IH1, Hs2. cbn [fmap list_fmap fst]. destruct (decide (q = p)) as [->|Hne].
    + rewrite decide_False by done. rewrite decide_True by set_solver. by rewrite Ha.
    + destruct (decide (q ∈ l.*1)); [rewrite decide_True by set_solver|rewrite decide_False by set_solver];
        done.
  - rewrite IH2, Hg2, <- app_assoc. done.
  - by rewrite IH3.
Qed.

Lemma collectGarbage_spec now s :
  repo_ok s ->
  (forall q, db_ (collectGarbage now s) !! q
     = (a ← db_ s !! q; guard (expires (survivors now a) <> ∅);; Some (survivors now a)))
  /\ signals (collectGarbage now s) = signals s ++ removals now (map_to_list (db_ s)).
Proof.
  intros Hs. destruct (sweep_spec now (map_to_list (db_ s)) s) as (H1 & H2 & _).
  - apply NoDup_fst_map_to_list.
  - intros p a Ha%elem_of_map_to_list. split; [done|by apply (Hs p)].
  - split; [|done]. intros q. unfold collectGarbage. rewrite H1. case_decide as Hq; [done|].
    destruct (db_ s !! q) as [a|] eqn:Ha; [|done]. exfalso. apply Hq, list_elem_of_fmap.
    exists (q, a). split; [done|]. by apply elem_of_map_to_list.
Qed.

Lemma collectGarbage_ok now s : repo_ok s -> repo_ok (collectGarbage now s).
Proof.
  intros Hs q b. destruct (collectGarbage_spec now s Hs) as [-> _].
  destruct (db_ s !! q) as [a|] eqn:Ha; cbn; [|done]. case_guard; [|done]. intros [= <-].
  by apply survivors_ok, (Hs q).
Qed.

Lemma removals_NoDup now s : NoDup (removals now (map_to_list (db_ s))).
Proof.
  apply NoDup_bind.
  - intros [p a] [q b] y Hp%elem_of_map_to_list Hq%elem_of_map_to_list.
    rewrite !list_elem_of_fmap. intros (m & -> & _) (m' & [= -> ->] & _). cbn in *. by simplify_eq.
  - intros [p a] _. cbn. apply NoDup_fmap_2_strong; [by intros x y _ _ [= ->]|]. unfold expired.
    eapply sublist_NoDup; [apply (NoDup_fst_map_to_list (expires a))|].
    apply fmap_sublist, sublist_filter.
  - apply NoDup_map_to_list.
Qed.

(** ** What adding does *)

Lemma add_loop_expires refresh p e ma acc m :
  expires (foldl (add_one refresh p e) acc ma).1.1 !! m = match expires acc.1.1 !! m with
    | Some t => Some (if refresh && bool_decide (m ∈ ma) then e else t)
    | None => if decide (m ∈ ma) then Some e else None
    end.
Proof.
  revert acc. induction ma as [|x ma IH]; intros [[a g] b]; cbn [foldl fst].
  { rewrite decide_False, bool_decide_false, andb_false_r by set_solver. by destruct (expires a !! m). }
  rewrite IH. cbn [add_one]. destruct (expires a !! x) as [tx|] eqn:Hx.
  - destruct refresh; cbn [fst expires andb].
    + rewrite lookup_insert. destruct (decide (x = m)) as [->|Hne].
      * rewrite Hx, (bool_decide_true (m ∈ m :: ma)) by set_solver. by destruct (bool_decide _).
      * assert (m ∈ x :: ma <-> m ∈ ma) as Hiff by set_solver.
        by rewrite (decide_ext _ _ _ _ Hiff), (bool_decide_ext _ _ Hiff).
    + destruct (decide (x = m)) as [->|Hne]; [by rewrite Hx|].
      assert (m ∈ x :: ma <-> m ∈ ma) as Hiff by set_solver. by rewrite (decide_ext _ _ _ _ Hiff).
  - cbn [fst expires]. rewrite lookup_insert. destruct (decide (x = m)) as [->|Hne].
    + rewrite Hx, (decide_True (P := m ∈ m :: ma)) by set_solver. by destruct (refresh && _).
    + assert (m ∈ x :: ma <-> m ∈ ma) as Hiff by set_solver.
      by rewrite (decide_ext _ _ _ _ Hiff), (bool_decide_ext _ _ Hiff).
Qed.

(** The expiration time of an address of a peer. *)
Definition expiry (s : AddressRepo) (p : PeerId) (m : Multiaddress) : option Z :=
  a ← db_ s !! p; expires a !! m.

(** ** Runs *)

Inductive addr_call :=
| AddAddresses (p : PeerId) (ma : list Multiaddress) (ttl now : Z)
| UpsertAddresses (p : PeerId) (ma : list Multiaddress) (ttl now : Z)
| UpdateAddresses (p : PeerId) (ttl now : Z)
| DialFailed (p : PeerId) (m : Multiaddress)
| Clear (p : PeerId)
| CollectGarbage (now : Z)
| IsNewDnsAddr (m : Multiaddress).

Definition addr_apply (s : AddressRepo) (c : addr_call) : AddressRepo :=
  match c with
  | AddAddresses p ma ttl now => (addAddresses p ma ttl now s).1
  | UpsertAddresses p ma ttl now => (upsertAddresses p ma ttl now s).1
  | UpdateAddresses p ttl now => (updateAddresses p ttl now s).1
  | DialFailed p m => dialFailed p m s
  | Clear p => clear p s
  | CollectGarbage now => collectGarbage now s
  | IsNewDnsAddr m => (isNewDnsAddr m s).1
  end.

Definition addr_run (calls : list addr_call) : AddressRepo := foldl addr_apply AddressRepo_new calls.

Lemma addr_run_ok calls : repo_ok (addr_run calls).
Proof.
  unfold addr_run. assert (repo_ok AddressRepo_new) as H0 by (intros p a; cbn; by rewrite lookup_empty).
  revert H0. generalize AddressRepo_new as s. induction calls as [|c calls IH]; intros s Hs; [done|].
  apply IH. destruct c; cbn [addr_apply].
  - by apply add_all_ok.
  - by apply add_all_ok.
  - by apply updateAddresses_ok.
  - by apply dialFailed_ok.
  - by apply clear_ok.
  - by apply collectGarbage_ok.
  - unfold isNewDnsAddr. by case_decide.
Qed.

(** ** Properties *)

(** The dialer is offered every known address of a peer exactly once,
    whatever calls have been made. *)
Theorem addresses_listed_once calls p l :
  getAddresses p (addr_run calls) = success l ->
  NoDup l /\ forall m, m ∈ l <-> is_Some (expiry (addr_run calls) p m).
Proof.
  unfold getAddresses, expiry. intros Hl. destruct (db_ (addr_run calls) !! p) as [a|] eqn:Ha; [|done].
  simplify_eq. destruct (addr_run_ok calls p a Ha) as [Hnd Ho]. by split.
Qed.

(** Garbage collection removes exactly what has expired.  Addresses whose
    time has come disappear, all others keep their times; the peers left are
    those with an address left; and the removal of every expired address is
    signalled exactly once. *)
Theorem collect_garbage_exact calls now :
  let s := addr_run calls in let s' := collectGarbage now s in
  (forall p m t, expiry s' p m = Some t <-> expiry s p m = Some t /\ now < t)
  /\ (forall p, p ∈ getPeers s' <-> exists m t, expiry s p m = Some t /\ now < t)
  /\ exists g, signals s' = signals s ++ g /\ NoDup g
     /\ forall p m, signal_removed_ p m ∈ g <-> exists t, expiry s p m = Some t /\ t <= now.
Proof.
  intros s s'. destruct (collectGarbage_spec now s (addr_run_ok calls)) as [Hdb Hsig].
  assert (forall p m t, expiry s' p m = Some t <-> expiry s p m = Some t /\ now < t) as Hexp.
  { intros p m t. unfold expiry, s'. rewrite Hdb. destruct (db_ s !! p) as [a|]; cbn [mbind option_bind]; [|naive_solver].
    pose proof (survivors_lookup now a m) as Hm.
    case_guard as Hne; cbn [mbind option_bind mret option_ret].
    - rewrite Hm. destruct (expires a !! m) as [t'|]; cbn; [|naive_solver].
      case_guard; naive_solver.
    - rewrite Hne, lookup_empty in Hm. split; [done|]. intros [Ht Hlt].
      rewrite Ht in Hm. cbn in Hm. by rewrite option_guard_True in Hm. }
  split_and!; [done| |].
  - intros p. unfold getPeers. rewrite elem_of_dom. split.
    + intros [b Hb]. pose proof Hb as Hb'. unfold s' in Hb'. rewrite Hdb in Hb'.
      destruct (db_ s !! p) as [a|] eqn:Ha; cbn in Hb'; [|done]. case_guard as Hne; [|done].
      cbn in Hb'. injection Hb' as <-. destruct (map_choose _ Hne) as (m & t & Hm).
      exists m, t. apply Hexp. unfold expiry. by rewrite Hb.
    + intros (m & t & Ht). apply Hexp in Ht. unfold expiry in Ht.
      destruct (db_ s' !! p) as [b|]; [by eexists|done].
  - exists (removals now (map_to_list (db_ s))). split_and!; [done| |].
    + apply removals_NoDup.
    + intros p m. unfold removals. rewrite list_elem_of_bind. split.
      * intros ([q a] & Hin & Ha%elem_of_map_to_list). apply list_elem_of_fmap in Hin as (m' & [= -> ->] & Hm).
        apply elem_of_expired in Hm as (t & Ht & Hle). exists t. unfold expiry. cbn in Ha. by rewrite Ha.
      * intros (t & Ht & Hle). unfold expiry in Ht. destruct (db_ s !! p) as [a|] eqn:Ha; [|done].
        exists (p, a). split; [|by apply elem_of_map_to_list]. apply list_elem_of_fmap. exists m.
        split; [done|]. apply elem_of_expired. by exists t.
Qed.

(** A failed address goes to the end of the queue, and the order of the
    others stays. *)
Theorem dial_failed_moves_to_back calls p m l :
  getAddresses p (addr_run calls) = success l -> m ∈ l ->
  getAddresses p (dialFailed p m (addr_run calls)) = success (filter (fun x => x <> m) l ++ [m]).
Proof.
  unfold getAddresses. intros Hl Hm. rewrite dialFailed_spec by apply addr_run_ok.
  destruct (db_ (addr_run calls) !! p) as [a|] eqn:Ha; [|done]. simplify_eq.
  rewrite decide_True by done. cbn. by rewrite lookup_insert_eq.
Qed.

(** Adding addresses.  New ones get the expiration time computed from the
    [ttl], known ones keep theirs or, with [upsertAddresses], get the new one;
    nothing else changes. *)
Theorem add_addresses_exact refresh calls p ma ttl now q m :
  let s := addr_run calls in
  expiry (add_all refresh p ma ttl now s).1 q m =
  if decide (q = p /\ m ∈ ma) then
    match expiry s p m with
    | Some t => Some (if refresh : bool then calculateExpirationTime now ttl else t)
    | None => Some (calculateExpirationTime now ttl)
    end
  else expiry s q m.
Proof.
  intros s. unfold expiry, add_all. set (a := default no_addresses (db_ s !! p)).
  pose proof (add_loop_expires refresh p (calculateExpirationTime now ttl) ma (a, [], false) m) as Hm.
  destruct (foldl _ _ ma) as [[a' g] added]. cbn [fst expires] in *.
  cbn [db_ emit set_db fst]. rewrite lookup_insert. destruct (decide (p = q)) as [<-|Hne]; cbn.
  - assert (expires a !! m = (a ← db_ s !! p; expires a !! m)) as Ha
      by (unfold a; by destruct (db_ s !! p); cbn; rewrite ?lookup_empty).
    rewrite Hm, Ha. destruct (decide (m ∈ ma)) as [Hin|Hout].
    + rewrite decide_True, bool_decide_true, andb_true_r by done. by case_match.
    + rewrite decide_False, bool_decide_false, andb_false_r by naive_solver. by destruct (db_ s !! p) as [b|]; cbn; [destruct (expires b !! m)|].
  - rewrite decide_False by naive_solver. done.
Qed.
End AddressRepository.

(** Expiration times saturate.  For a clock reading and a [ttl] whose
    nanoseconds fit, the result is their sum, cut at the largest time point; and
    [kPermanent], whose nanoseconds do not fit, gives the largest time point on a
    machine where signed arithmetic wraps. *)
Theorem expiration_time_saturates now ttl :
  0 <= now <= max_time -> 0 <= ttl -> ttl * 1000000 < 2 ^ 63 ->
  calculateExpirationTime now ttl = Z.min max_time (now + ttl * 1000000)
  /\ calculateExpirationTime now kPermanent = max_time.
Proof.
  intros Hnow Ht Hfit.
  assert (forall z, - 2 ^ 63 <= z < 2 ^ 63 -> i64 z = z) as Hid.
  { intros z Hz. unfold i64. rewrite Z.mod_small by lia. lia. }
  split.
  - unfold calculateExpirationTime. rewrite (Hid (ttl * 1000000)) by lia. cbv zeta.
    unfold max_time in *. rewrite Hid by lia.
    destruct (_ <=? now) eqn:Ele; reflect_bools; [lia|]. rewrite Hid by lia. lia.
  - unfold calculateExpirationTime.
    change (i64 (max_time - i64 (kPermanent * 1000000))) with (- 2 ^ 63 + 999999).
    replace (_ <=? now) with true by lia. done.
Qed.

(** Three addresses of one peer, one of them failed. *)
Definition some_calls : list (addr_call (Multiaddress := bytes)) :=
  [AddAddresses [9] [[1]; [2]; [1]; [3]] 1000 0; DialFailed [9] [2]; CollectGarbage 5].

Lemma addresses_listed_once_witness :
  NoDup [[1]; [3]; [2]]
  /\ forall m, m ∈ [[1]; [3]; [2]] <-> is_Some (expiry (addr_run some_calls) [9] m).
Proof. apply addresses_listed_once. vm_compute. reflexivity. Defined.

Lemma dial_failed_moves_to_back_witness :
  getAddresses [9] (dialFailed [9] [1] (addr_run some_calls)) = success [[3]; [2]; [1]].
Proof.
  refine (eq_trans (dial_failed_moves_to_back some_calls [9] [1] [[1]; [3]; [2]] _ _) _).
  - vm_compute. reflexivity.
  - apply (bool_decide_unpack _). vm_compute. exact I.
  - vm_compute. reflexivity.
Defined.

Lemma expiration_time_saturates_witness :
  calculateExpirationTime 7 1000 = 1000000007 /\ calculateExpirationTime 7 kPermanent = max_time.
Proof.
  apply (expiration_time_saturates 7 1000); [split; vm_compute; discriminate|vm_compute; discriminate|].
  vm_compute. reflexivity.
Defined.
