(* ===== verification/PeerRepository.v ===== *)
(** * Keys, protocols and user agents of peers

    [src/peer/key_repository], [src/peer/protocol_repository],
    [src/peer/user_agent_repository] and [src/peer/peer_repository.cpp].

    The key and protocol repositories hold [shared_ptr]s to sets and hand them
    out, so the sets live in a heap: what a caller got from [getPublicKeys]
    changes with the repository.  [std::set] is a strictly increasing list. *)

From Stdlib Require Import Sorted.
From S2P Require Import Prelude AddressRepository.

(** ** Keys *)

Module Keys.
Section Keys.
Context {PublicKey KeyPair : Type} `{Countable PublicKey, Countable KeyPair}.

Abbreviation ptr := nat.

Record KeyRepo := mkKeyRepo {
  pub_ : gmap PeerId ptr;
  pub_sets : gmap ptr (gset PublicKey);
  next_ptr : ptr;
  kp_ : gset KeyPair
}.
Definition KeyRepo_new : KeyRepo := mkKeyRepo ∅ ∅ 0 ∅.

Definition clear (p : PeerId) (s : KeyRepo) : KeyRepo :=
  let sets := match pub_ s !! p with
    | Some r => <[r := ∅]> (pub_sets s)
    | None => pub_sets s
    end in
  mkKeyRepo (pub_ s) sets (next_ptr s) ∅.

Definition getPublicKeys (p : PeerId) (s : KeyRepo) : outcome PeerError ptr :=
  match pub_ s !! p with None => failure NOT_FOUND | Some r => success r end.

Definition addPublicKey (p : PeerId) (pub : PublicKey) (s : KeyRepo) : KeyRepo :=
  match pub_ s !! p with
  | Some r => mkKeyRepo (pub_ s) (alter (fun keys => {[pub]} ∪ keys) r (pub_sets s)) (next_ptr s) (kp_ s)
  | None => mkKeyRepo (<[p := next_ptr s]> (pub_ s)) (<[next_ptr s := {[pub]}]> (pub_sets s))
              (S (next_ptr s)) (kp_ s)
  end.

Definition getKeyPairs (s : KeyRepo) : gset KeyPair := kp_ s.
Definition addKeyPair (kp : KeyPair) (s : KeyRepo) : KeyRepo :=
  mkKeyRepo (pub_ s) (pub_sets s) (next_ptr s) ({[kp]} ∪ kp_ s).
Definition getPeers (s : KeyRepo) : gset PeerId := dom (pub_ s).

(** Each peer has its own set. *)
Record keys_ok (s : KeyRepo) : Prop := {
  k_live : forall p r, pub_ s !! p = Some r -> is_Some (pub_sets s !! r) /\ (r < next_ptr s)%nat;
  k_own : forall p q r, pub_ s !! p = Some r -> pub_ s !! q = Some r -> p = q
}.

(** The keys of a peer, as a caller sees them through its pointer. *)
Definition keys_of (p : PeerId) (s : KeyRepo) : option (gset PublicKey) :=
  r ← pub_ s !! p; pub_sets s !! r.

Inductive key_call := Add (p : PeerId) (pub : PublicKey) | AddPair (kp : KeyPair) | Clear (p : PeerId).
Definition key_apply (s : KeyRepo) (c : key_call) : KeyRepo :=
  match c with
  | Add p pub => addPublicKey p pub s
  | AddPair kp => addKeyPair kp s
  | Clear p => clear p s
  end.
Definition key_run (cs : list key_call) : KeyRepo := foldl key_apply KeyRepo_new cs.

Lemma key_apply_ok s c : keys_ok s -> keys_ok (key_apply s c).
Proof.
  intros [Hl Ho]. destruct c as [p pub|kp|p]; cbn [key_apply]; [|by split|].
  - unfold addPublicKey. destruct (pub_ s !! p) as [r|] eqn:Hr; split; cbn; try done.
    + intros q r' Hq. destruct (Hl q r' Hq). rewrite lookup_alter. case_decide; subst; [|done].
      by rewrite fmap_is_Some.
    + intros q r'. rewrite lookup_insert. case_decide; subst.
      * intros [= <-]. rewrite lookup_insert_eq. split; [by eexists|lia].
      * intros Hq. destruct (Hl q r' Hq). rewrite lookup_insert. case_decide; [lia|]. split; [done|lia].
    + intros q q' r'. rewrite !lookup_insert. repeat case_decide; subst; try done.
      * intros [= <-] Hq. destruct (Hl q' _ Hq). lia.
      * intros Hq [= <-]. destruct (Hl q _ Hq). lia.
      * apply Ho.
  - unfold clear. split; cbn; [|done]. intros q r Hq. destruct (Hl q r Hq).
    destruct (pub_ s !! p) as [r'|]; [|done]. rewrite lookup_insert. case_decide; [|done]. by split; [eexists|].
Qed.

Lemma key_run_ok cs : keys_ok (key_run cs).
Proof.
  unfold key_run. assert (keys_ok KeyRepo_new) as H1 by (split; cbn; intros *; by rewrite lookup_empty).
  revert H1. generalize KeyRepo_new as s. induction cs as [|c cs IH]; intros s Hs; [done|].
  by apply IH, key_apply_ok.
Qed.

Lemma keys_of_add s p pub q :
  keys_ok s ->
  keys_of q (addPublicKey p pub s) =
    if decide (q = p) then Some ({[pub]} ∪ default ∅ (keys_of p s)) else keys_of q s.
Proof.
  intros [Hl Ho]. unfold keys_of, addPublicKey. destruct (pub_ s !! p) as [r|] eqn:Hr; cbn.
  - destruct (decide (q = p)) as [->|Hne].
    + rewrite Hr. cbn. rewrite lookup_alter_eq. destruct (Hl p r Hr) as [[k ->] _]. done.
    + destruct (pub_ s !! q) as [r'|] eqn:Hq; [|done]. cbn. rewrite lookup_alter_ne; [done|].
      intros ->. by apply Hne, (Ho q p r').
  - rewrite lookup_insert. destruct (decide (p = q)) as [->|Hne].
    + rewrite decide_True by done. cbn. rewrite lookup_insert_eq. f_equal. set_solver.
    + rewrite decide_False by auto. destruct (pub_ s !! q) as [r'|] eqn:Hq; [|done]. cbn.
      rewrite lookup_insert_ne; [done|]. destruct (Hl q r' Hq). lia.
Qed.

(** Keys belong to their peer.  Adding a key to a peer adds it to the keys
    of that peer and of no other, also for the callers that hold the set. *)
Theorem public_keys_do_not_mix cs p pub q :
  keys_of q (addPublicKey p pub (key_run cs)) =
    if decide (q = p) then Some ({[pub]} ∪ default ∅ (keys_of p (key_run cs)))
    else keys_of q (key_run cs).
Proof. apply keys_of_add, key_run_ok. Qed.

(** Clearing the keys of one peer drops this node's own key pairs.  The
    public keys of [p] are emptied and those of other peers stay, but the key
    pairs go whatever [p] is. *)
Theorem clearing_a_peer_drops_key_pairs cs p q :
  getKeyPairs (clear p (key_run cs)) = ∅
  /\ keys_of q (clear p (key_run cs)) = if decide (q = p) then (fun _ => ∅) <$> keys_of p (key_run cs)
                                       else keys_of q (key_run cs).
Proof.
  split; [done|]. destruct (key_run_ok cs) as [Hl Ho]. unfold keys_of, clear. cbn.
  destruct (decide (q = p)) as [->|Hne].
  - destruct (pub_ (key_run cs) !! p) as [r|] eqn:Hr; cbn; [|done].
    rewrite lookup_insert_eq. destruct (Hl p r Hr) as [[k ->] _]. done.
  - destruct (pub_ (key_run cs) !! q) as [r|] eqn:Hq; [|done]. cbn.
    destruct (pub_ (key_run cs) !! p) as [r'|] eqn:Hp; [|done].
    rewrite lookup_insert_ne; [done|]. intros ->. by apply Hne, (Ho q p r).
Qed.
End Keys.
End Keys.

(** ** [std::set<std::string>] *)

Module StdSet.

(** [operator<] of strings: lexicographic on bytes. *)
Fixpoint ltb (a b : bytes) : bool :=
  match a, b with
  | _, [] => false
  | [], _ :: _ => true
  | x :: a, y :: b => (x <? y) || ((x =? y) && ltb a b)
  end.
Abbreviation lt a b := (ltb a b = true).
Abbreviation sorted := (StronglySorted (fun a b => ltb a b = true)).

Fixpoint insert (x : bytes) (l : list bytes) : list bytes :=
  match l with
  | [] => [x]
  | y :: l => if ltb x y then x :: y :: l else if ltb y x then y :: insert x l else y :: l
  end.
Definition erase (x : bytes) (l : list bytes) : list bytes := filter (fun y => y <> x) l.
Definition of_list (l : list bytes) : list bytes := foldl (fun s x => insert x s) [] l.

(** [std::set_intersection]. *)
Fixpoint set_intersection (l1 : list bytes) : list bytes -> list bytes :=
  match l1 with
  | [] => fun _ => []
  | x :: l1' =>
      fix go (l2 : list bytes) : list bytes :=
        match l2 with
        | [] => []
        | y :: l2' =>
            if ltb x y then set_intersection l1' l2
            else if ltb y x then go l2'
            else x :: set_intersection l1' l2'
        end
  end.

Lemma lt_irrefl a : ltb a a = false.
Proof. induction a as [|x a IH]; [done|]. cbn. rewrite IH, Z.ltb_irrefl, andb_false_r. done. Qed.

Lemma lt_trans a b c : lt a b -> lt b c -> lt a c.
Proof.
  revert b c. induction a as [|x a IH]; intros [|y b] [|z c]; cbn; try done.
  rewrite !orb_true_iff, !andb_true_iff, !Z.ltb_lt, !Z.eqb_eq.
  intros [H1|[-> H1]] [H2|[<- H2]]; [left; lia|by left|by left|]. right. split; [done|]. by apply (IH b).
Qed.

Lemma lt_total a b : ltb a b = false -> ltb b a = false -> a = b.
Proof.
  revert b. induction a as [|x a IH]; intros [|y b]; cbn; try done.
  rewrite !orb_false_iff, !andb_false_iff, !Z.ltb_ge, !Z.eqb_neq.
  intros [H1 H2] [H3 H4]. assert (x = y) as -> by lia. f_equal. apply IH; naive_solver.
Qed.

Lemma elem_of_insert x y l : y ∈ insert x l <-> y = x \/ y ∈ l.
Proof.
  induction l as [|z l IH]; cbn [insert]; [set_solver|].
  destruct (ltb x z) eqn:E1; [set_solver|]. destruct (ltb z x) eqn:E2; [set_solver|].
  pose proof (lt_total x z E1 E2). set_solver.
Qed.

Lemma insert_sorted x l : sorted l -> sorted (insert x l).
Proof.
  induction 1 as [|y l Hl IH Hy]; cbn [insert]; [by repeat constructor|].
  destruct (ltb x y) eqn:E1.
  - constructor; [by constructor|]. constructor; [done|]. eapply Forall_impl; [exact Hy|].
    intros z. by apply lt_trans.
  - destruct (ltb y x) eqn:E2; [|by constructor]. constructor; [done|].
    apply Forall_forall. intros z [->|Hz]%elem_of_insert; [done|]. by eapply Forall_forall in Hy.
Qed.

Lemma filter_sorted (P : bytes -> Prop) `{forall x, Decision (P x)} l : sorted l -> sorted (filter P l).
Proof.
  induction 1 as [|y l Hl IH Hy]; [constructor|]. rewrite filter_cons. case_decide; [|done].
  constructor; [done|]. apply Forall_forall. intros z [_ Hz]%list_elem_of_filter.
  by eapply Forall_forall in Hy.
Qed.

Lemma of_list_spec l : sorted (of_list l) /\ forall x, x ∈ of_list l <-> x ∈ l.
Proof.
  unfold of_list. assert (forall s, sorted s -> sorted (foldl (fun s x => insert x s) s l)
    /\ forall x, x ∈ foldl (fun s x => insert x s) s l <-> x ∈ s \/ x ∈ l) as Hgen.
  { induction l as [|y l IH]; intros s Hs; cbn [foldl]; [set_solver|].
    destruct (IH (insert y s)) as [H1 H2]; [by apply insert_sorted|]. split; [done|].
    intros x. rewrite H2, elem_of_insert. set_solver. }
  destruct (Hgen []) as [H1 H2]; [constructor|]. split; [done|]. intros x. rewrite H2. set_solver.
Qed.

Lemma filter_ext_in {A} (P Q : A -> Prop) `{forall x, Decision (P x), forall x, Decision (Q x)} (l : list A) :
  (forall x, x ∈ l -> P x <-> Q x) -> filter P l = filter Q l.
Proof.
  induction l as [|x l IH]; intros Hl; [done|]. rewrite !filter_cons, IH by set_solver.
  destruct (Hl x ltac:(set_solver)). repeat case_decide; tauto || done.
Qed.

(** On sorted ranges the algorithm keeps exactly the common elements. *)
Lemma set_intersection_filter l1 l2 :
  sorted l1 -> sorted l2 -> set_intersection l1 l2 = filter (fun x => x ∈ l2) l1.
Proof.
  intros H1. revert l2. induction H1 as [|x l1 H1 IH1 Hx]; intros l2 H2; [by destruct l2|].
  induction H2 as [|y l2 H2 IH2 Hy].
  - rewrite filter_cons_False by set_solver. rewrite <- (IH1 [] ltac:(constructor)). by destruct l1.
  - cbn [set_intersection].
    destruct (ltb x y) eqn:E1.
    + rewrite IH1 by by constructor. rewrite filter_cons_False; [done|].
      intros [->|Hin]%elem_of_cons; [by rewrite lt_irrefl in E1|].
      eapply Forall_forall in Hy; [|exact Hin]. pose proof (lt_trans _ _ _ E1 Hy) as Hc.
      by rewrite lt_irrefl in Hc.
    + destruct (ltb y x) eqn:E2.
      * etrans; [exact IH2|].
        apply filter_ext_in. intros z Hz. split; [set_solver|]. intros [->|]%elem_of_cons; [|done].
        apply elem_of_cons in Hz as [->|Hz]; [by rewrite lt_irrefl in E2|].
        eapply Forall_forall in Hx; [|exact Hz]. pose proof (lt_trans _ _ _ E2 Hx) as Hc.
        by rewrite lt_irrefl in Hc.
      * rewrite IH1 by done. rewrite (lt_total x y E1 E2) in *. rewrite filter_cons_True by set_solver.
        f_equal. apply filter_ext_in. intros z Hz. split; [set_solver|].
        intros [->|]%elem_of_cons; [|done]. eapply Forall_forall in Hx; [|exact Hz].
        by rewrite lt_irrefl in Hx.
Qed.
End StdSet.

(** ** Protocols *)

Module Protocols.

Abbreviation ProtocolName := bytes.

(** The sets never leave the repository: one per peer. *)
Abbreviation ProtocolRepo := (gmap PeerId (list ProtocolName)).

Definition getProtocolSet (p : PeerId) (db_ : ProtocolRepo) : outcome PeerError (list ProtocolName) :=
  match db_ !! p with None => failure NOT_FOUND | Some s => success s end.
Definition getOrAllocateProtocolSet (p : PeerId) (db_ : ProtocolRepo) : list ProtocolName :=
  default [] (db_ !! p).

Definition addProtocols (p : PeerId) (ms : list ProtocolName) (db_ : ProtocolRepo) : ProtocolRepo :=
  let s := getOrAllocateProtocolSet p db_ in
  <[p := foldl (fun s m => StdSet.insert m s) s ms]> db_.

Definition removeProtocols (p : PeerId) (ms : list ProtocolName) (db_ : ProtocolRepo) :
    ProtocolRepo * outcome PeerError unit :=
  match getProtocolSet p db_ with
  | failure e => (db_, failure e)
  | success s => (<[p := foldl (fun s m => StdSet.erase m s) s ms]> db_, success tt)
  end.

Definition getProtocols (p : PeerId) (db_ : ProtocolRepo) : outcome PeerError (list ProtocolName) :=
  getProtocolSet p db_.

Definition supportsProtocols (p : PeerId) (protocols : list ProtocolName) (db_ : ProtocolRepo) :
    outcome PeerError (list ProtocolName) :=
  match getProtocolSet p db_ with
  | failure e => failure e
  | success s => success (StdSet.set_intersection protocols s)
  end.

Definition clear (p : PeerId) (db_ : ProtocolRepo) : ProtocolRepo :=
  match getProtocolSet p db_ with failure _ => db_ | success _ => <[p := []]> db_ end.

(** Peers without protocols go. *)
Definition collectGarbage (db_ : ProtocolRepo) : ProtocolRepo := filter (fun ps => ps.2 <> []) db_.

Definition getPeers (db_ : ProtocolRepo) : gset PeerId := dom db_.

Inductive proto_call :=
| AddProtocols (p : PeerId) (ms : list ProtocolName)
| RemoveProtocols (p : PeerId) (ms : list ProtocolName)
| ClearProtocols (p : PeerId)
| CollectProtocols.
Definition proto_apply (db_ : ProtocolRepo) (c : proto_call) : ProtocolRepo :=
  match c with
  | AddProtocols p ms => addProtocols p ms db_
  | RemoveProtocols p ms => (removeProtocols p ms db_).1
  | ClearProtocols p => clear p db_
  | CollectProtocols => collectGarbage db_
  end.
Definition proto_run (cs : list proto_call) : ProtocolRepo := foldl proto_apply ∅ cs.

(** The abstract repository: a set of protocols per known peer. *)
Abbreviation abstract := (gmap PeerId (gset ProtocolName)).
Definition abstract_apply (a : abstract) (c : proto_call) : abstract :=
  match c with
  | AddProtocols p ms => <[p := default ∅ (a !! p) ∪ list_to_set ms]> a
  | RemoveProtocols p ms => alter (fun s => s ∖ list_to_set ms) p a
  | ClearProtocols p => alter (fun _ => ∅) p a
  | CollectProtocols => filter (fun ps => ps.2 <> ∅) a
  end.
Definition abstract_run (cs : list proto_call) : abstract := foldl abstract_apply ∅ cs.

(** Sorted sets that hold what the abstract ones hold. *)
Definition refines (db_ : ProtocolRepo) (a : abstract) : Prop :=
  map_Forall (fun _ s => StdSet.sorted s) db_ /\ a = (list_to_set <$> db_).

Lemma insert_all_sorted ms s :
  StdSet.sorted s ->
  StdSet.sorted (foldl (fun s m => StdSet.insert m s) s ms)
  /\ (list_to_set (foldl (fun s m => StdSet.insert m s) s ms) : gset ProtocolName)
     = list_to_set s ∪ list_to_set ms.
Proof.
  revert s. induction ms as [|m ms IH]; intros s Hs; cbn [foldl]; [split; [done|set_solver]|].
  destruct (IH (StdSet.insert m s)) as [H1 H2]; [by apply StdSet.insert_sorted|]. split; [done|].
  rewrite H2. apply set_eq. intros x. rewrite !elem_of_union, !elem_of_list_to_set, StdSet.elem_of_insert.
  set_solver.
Qed.

Lemma erase_all_sorted ms s :
  StdSet.sorted s ->
  StdSet.sorted (foldl (fun s m => StdSet.erase m s) s ms)
  /\ (list_to_set (foldl (fun s m => StdSet.erase m s) s ms) : gset ProtocolName)
     = list_to_set s ∖ list_to_set ms.
Proof.
  revert s. induction ms as [|m ms IH]; intros s Hs; cbn [foldl]; [split; [done|set_solver]|].
  destruct (IH (StdSet.erase m s)) as [H1 H2]; [by apply StdSet.filter_sorted|]. split; [done|].
  rewrite H2. apply set_eq. intros x. unfold StdSet.erase.
  rewrite !elem_of_difference, !elem_of_list_to_set, list_elem_of_filter. set_solver.
Qed.

Lemma proto_apply_refines db_ a c :
  refines db_ a -> refines (proto_apply db_ c) (abstract_apply a c).
Proof.
  intros [Hs ->]. destruct c as [p ms|p ms|p|]; cbn [proto_apply abstract_apply].
  - assert (StdSet.sorted (getOrAllocateProtocolSet p db_)) as Hp.
    { unfold getOrAllocateProtocolSet. destruct (db_ !! p) eqn:Hp; [by apply (Hs p)|constructor]. }
    destruct (insert_all_sorted ms _ Hp) as [H1 H2]. split; [by apply map_Forall_insert_2|].
    unfold addProtocols. cbv zeta. rewrite fmap_insert, H2, lookup_fmap. f_equal. unfold getOrAllocateProtocolSet.
    by destruct (db_ !! p).
  - unfold removeProtocols, getProtocolSet. destruct (db_ !! p) as [s|] eqn:Hp; cbn [fst].
    + destruct (erase_all_sorted ms s (Hs p s Hp)) as [H1 H2]. split; [by apply map_Forall_insert_2|].
      rewrite fmap_insert, H2. apply map_eq. intros q. rewrite lookup_alter, lookup_insert, !lookup_fmap.
      case_decide; subst; [by rewrite Hp|done].
    + split; [done|]. apply map_eq. intros q. rewrite lookup_alter, !lookup_fmap.
      case_decide; subst; [by rewrite Hp|done].
  - unfold clear, getProtocolSet. destruct (db_ !! p) as [s|] eqn:Hp.
    + split; [apply map_Forall_insert_2; [constructor|done]|]. rewrite fmap_insert. apply map_eq.
      intros q. rewrite lookup_alter, lookup_insert, !lookup_fmap. case_decide; subst; [by rewrite Hp|done].
    + split; [done|]. apply map_eq. intros q. rewrite lookup_alter, !lookup_fmap.
      case_decide; subst; [by rewrite Hp|done].
  - split.
    + intros p s [Hp _]%map_lookup_filter_Some. by apply (Hs p).
    + unfold collectGarbage. apply map_eq. intros q. rewrite lookup_fmap, !map_lookup_filter, lookup_fmap.
      destruct (db_ !! q) as [s|]; cbn; [|done].
      case_guard as H1; case_guard as H2; cbn in *; try done.
      * exfalso. apply H1. rewrite H2. done.
      * exfalso. destruct s; [done|]. set_solver.
Qed.

Lemma proto_run_refines cs : refines (proto_run cs) (abstract_run cs).
Proof.
  unfold proto_run, abstract_run.
  assert (refines ∅ ∅) as H0 by (split; [apply map_Forall_empty|by rewrite fmap_empty]).
  revert H0. generalize (∅ : ProtocolRepo) as db_, (∅ : abstract) as a.
  induction cs as [|c cs IH]; intros db_ a Hr; [done|]. by apply IH, proto_apply_refines.
Qed.

(** The protocol repository is a set of protocols per peer, and
    [supportsProtocols] intersects exactly.  After any calls a peer is unknown
    exactly when it is in the abstract repository, and else the answer to a set
    of protocols is those of them the peer has, in increasing order and each
    once. *)
Theorem supports_protocols_exact cs p wanted :
  match supportsProtocols p (StdSet.of_list wanted) (proto_run cs), abstract_run cs !! p with
  | failure e, None => e = NOT_FOUND
  | success ret, Some protocols =>
      StdSet.sorted ret /\ forall m, m ∈ ret <-> m ∈ wanted /\ m ∈ protocols
  | _, _ => False
  end.
Proof.
  destruct (proto_run_refines cs) as [Hs ->]. unfold supportsProtocols, getProtocolSet.
  rewrite lookup_fmap. destruct (proto_run cs !! p) as [s|] eqn:Hp; cbn; [|done].
  destruct (StdSet.of_list_spec wanted) as [Hw1 Hw2].
  rewrite StdSet.set_intersection_filter by (done || by apply (Hs p)).
  split; [by apply StdSet.filter_sorted|]. intros m.
  rewrite list_elem_of_filter, Hw2, elem_of_list_to_set. tauto.
Qed.
End Protocols.

(** ** User agents *)

Module UserAgents.

Abbreviation UserAgentRepo := (gmap PeerId (bytes * Z)).

Definition updateUserAgent (p : PeerId) (ua : bytes) (ttl now : Z) (db_ : UserAgentRepo) :
    UserAgentRepo := <[p := (ua, calculateExpirationTime now ttl)]> db_.

Definition updateTtl (p : PeerId) (ttl now : Z) (db_ : UserAgentRepo) : UserAgentRepo :=
  if 0 <? ttl then alter (fun e => (e.1, calculateExpirationTime now ttl)) p db_
  else delete p db_.

Definition getUserAgent (p : PeerId) (db_ : UserAgentRepo) : option bytes := fst <$> db_ !! p.

(** Entries whose time has come go. *)
Definition collectGarbage (now : Z) (db_ : UserAgentRepo) : UserAgentRepo :=
  filter (fun pe => now < pe.2.2) db_.

End UserAgents.

(** ** All of it *)

Section PeerRepository.
Context {Multiaddress PublicKey KeyPair : Type}
  `{Countable Multiaddress, Countable PublicKey, Countable KeyPair}.

Record PeerRepository := mkPeerRepository {
  addr_ : AddressRepo (Multiaddress := Multiaddress);
  key_ : Keys.KeyRepo (PublicKey := PublicKey) (KeyPair := KeyPair);
  proto_ : Protocols.ProtocolRepo;
  uagent_ : UserAgents.UserAgentRepo
}.

Record PeerInfo := mkPeerInfo { info_id : PeerId; info_addresses : list Multiaddress }.

Definition getPeers (r : PeerRepository) : gset PeerId :=
  AddressRepository.getPeers (addr_ r) ∪ Keys.getPeers (key_ r) ∪ Protocols.getPeers (proto_ r).

Definition getPeerInfo (peer_id : PeerId) (r : PeerRepository) : PeerInfo :=
  match getAddresses peer_id (addr_ r) with
  | failure _ => mkPeerInfo peer_id []
  | success addresses => mkPeerInfo peer_id addresses
  end.
End PeerRepository.
