(* ===== verification/ConnectionManager.v ===== *)
(** * The connection manager

    [src/network/connection_manager.cpp]: the connections known per peer, and the
    events published on the bus ([include/libp2p/event/bus.hpp]) when they come
    and go.

    A connection is a pointer.  Whether it is closed is state of the connection,
    kept beside the manager's own members.  The order in which an unordered
    container is traversed is a parameter.  [close()] is a virtual function of the
    connection: the calls it makes back into the manager before it returns, to any
    depth, are a parameter of [closeConnectionsToPeer].  Publishing on a channel appends to the
    trace of events; the subscribers in the repository only start coroutines. *)

From S2P Require Import Prelude AddressRepository.

(** How the unordered containers of the manager are traversed. *)
Class Traversal (Conn : Type) `{Countable Conn} := {
  order_connections : gset Conn -> list Conn;
  order_peers : gmap PeerId (gset Conn) -> list (PeerId * gset Conn)
}.
Class TraversalLaws (Conn : Type) `{Traversal Conn} := {
  order_connections_perm cs : order_connections cs ≡ₚ elements cs;
  order_peers_perm m : order_peers m ≡ₚ map_to_list m
}.

Section ConnectionManager.
Context {Conn : Type} `{Traversal Conn}.

(** The three channels of [connection_manager.hpp]. *)
Inductive bus_event :=
| OnNewConnection (c : Conn)
| OnConnectionClosed (c : Conn)
| OnPeerDisconnected (p : PeerId).

Record ConnectionManager := mkManager {
  connections_ : gmap PeerId (gset Conn);
  closing_connections_to_peer_ : option PeerId;
  closed : gset Conn;
  published : list bus_event
}.
Definition ConnectionManager_new : ConnectionManager := mkManager ∅ None ∅ [].

Definition isClosed (m : ConnectionManager) (c : Conn) : bool := bool_decide (c ∈ closed m).
Definition publish (e : bus_event) (m : ConnectionManager) : ConnectionManager :=
  mkManager (connections_ m) (closing_connections_to_peer_ m) (closed m) (published m ++ [e]).
Definition set_connections (cs : gmap PeerId (gset Conn)) (m : ConnectionManager) : ConnectionManager :=
  mkManager cs (closing_connections_to_peer_ m) (closed m) (published m).
Definition set_closing (p : option PeerId) (m : ConnectionManager) : ConnectionManager :=
  mkManager (connections_ m) p (closed m) (published m).
(** The connection [c] becomes closed. *)
Definition mark_closed (c : Conn) (m : ConnectionManager) : ConnectionManager :=
  mkManager (connections_ m) (closing_connections_to_peer_ m) ({[c]} ∪ closed m) (published m).

Definition getConnectionsToPeer (p : PeerId) (m : ConnectionManager) : list Conn :=
  match connections_ m !! p with
  | None => []
  | Some cs => filter (fun c => isClosed m c = false) (order_connections cs)
  end.

(** [nullptr] is [None]. *)
Definition getBestConnectionForPeer (p : PeerId) (m : ConnectionManager) : option Conn :=
  match connections_ m !! p with
  | None => None
  | Some cs => snd <$> list_find (fun c => isClosed m c = false) (order_connections cs)
  end.

Definition addConnectionToPeer (p : PeerId) (c : option Conn) (m : ConnectionManager) :
    ConnectionManager :=
  match c with
  | None => m
  | Some c =>
      publish (OnNewConnection c)
        (set_connections
           (match connections_ m !! p with
            | None => <[p := {[c]}]> (connections_ m)
            | Some cs => <[p := {[c]} ∪ cs]> (connections_ m)
            end) m)
  end.

Definition getConnections (m : ConnectionManager) : list Conn :=
  concat (map (fun e => filter (fun c => isClosed m c = false) (order_connections e.2))
            (order_peers (connections_ m))).

(** The inner loop of [collectGarbage]. *)
Fixpoint erase_closed (m : ConnectionManager) (l : list Conn) (cs : gset Conn) : gset Conn :=
  match l with
  | [] => cs
  | c :: l => erase_closed m l (if isClosed m c then cs ∖ {[c]} else cs)
  end.
Fixpoint collect (l : list (PeerId * gset Conn)) (m : ConnectionManager) : ConnectionManager :=
  match l with
  | [] => m
  | (p, cs) :: l =>
      let cs := erase_closed m (order_connections cs) cs in
      collect l
        (set_connections (if decide (cs = ∅) then delete p (connections_ m)
                          else <[p := cs]> (connections_ m)) m)
  end.
Definition collectGarbage (m : ConnectionManager) : ConnectionManager :=
  collect (order_peers (connections_ m)) m.

Definition onConnectionClosed (peer_id : PeerId) (conn : Conn) (m : ConnectionManager) :
    ConnectionManager :=
  if decide (closing_connections_to_peer_ m = Some peer_id) then m
  else
    match connections_ m !! peer_id with
    | None => m
    | Some cs =>
        let rest := cs ∖ {[conn]} in
        let m := set_connections (<[peer_id := rest]> (connections_ m)) m in
        let m := if decide (conn ∈ cs) then publish (OnConnectionClosed conn) m else m in
        if decide (rest = ∅)
        then publish (OnPeerDisconnected peer_id) (set_connections (delete peer_id (connections_ m)) m)
        else m
    end.

(** [closeConnectionsToPeer] and its loop; [closing] is what [close()] of a connection
    does before it returns. *)
Fixpoint close_loop (closing : ConnectionManager -> Conn -> ConnectionManager) (l : list Conn)
    (m : ConnectionManager) : ConnectionManager :=
  match l with
  | [] => m
  | c :: l =>
      let m := if isClosed m c then m else closing m c in
      close_loop closing l (publish (OnConnectionClosed c) m)
  end.
Definition close_connections (closing : ConnectionManager -> Conn -> ConnectionManager) (p : PeerId)
    (m : ConnectionManager) : ConnectionManager :=
  match connections_ m !! p with
  | None => m
  | Some connections =>
      let m := set_connections (delete p (connections_ m)) m in
      if decide (connections = ∅) then m
      else
        let m := set_closing (Some p) m in
        let m := close_loop closing (order_connections connections) m in
        let m := set_closing None m in
        match connections_ m !! p with
        | None => publish (OnPeerDisconnected p) m
        | Some _ => m
        end
  end.

(** What [close()] of a connection may do before it returns: become closed, and call any
    of the manager's functions, [closeConnectionsToPeer] among them, which closes
    connections in turn. *)
Inductive reentry :=
| Closes (c : Conn)
| CallsClosed (p : PeerId) (c : Conn)
| CallsAdd (p : PeerId) (c : Conn)
| CallsCollect
| CallsClose (p : PeerId) (close : Conn -> list reentry).
Fixpoint reenter (m : ConnectionManager) (r : reentry) {struct r} : ConnectionManager :=
  match r with
  | Closes c => mark_closed c m
  | CallsClosed p c => onConnectionClosed p c m
  | CallsAdd p c => addConnectionToPeer p (Some c) m
  | CallsCollect => collectGarbage m
  | CallsClose p close => close_connections (fun m c => foldl (fun m r => reenter m r) m (close c)) p m
  end.
Definition close_each (close : Conn -> list reentry) : list Conn -> ConnectionManager -> ConnectionManager :=
  close_loop (fun m c => foldl reenter m (close c)).
Definition closeConnectionsToPeer (close : Conn -> list reentry) : PeerId -> ConnectionManager -> ConnectionManager :=
  close_connections (fun m c => foldl reenter m (close c)).

Definition getConnectedPeers (m : ConnectionManager) : list PeerId :=
  map fst (order_peers (connections_ m)).
Definition getConnectedPeerCount (m : ConnectionManager) : nat := size (connections_ m).

(** ** Runs *)

Inductive manager_call :=
| Add (p : PeerId) (c : option Conn)
| Close (p : PeerId)
| Lost (p : PeerId) (c : Conn)
| Dies (c : Conn)
| Collect.
Definition manager_apply (close : Conn -> list reentry) (m : ConnectionManager) (k : manager_call) :
    ConnectionManager :=
  match k with
  | Add p c => addConnectionToPeer p c m
  | Close p => closeConnectionsToPeer close p m
  | Lost p c => onConnectionClosed p c m
  | Dies c => mark_closed c m
  | Collect => collectGarbage m
  end.
Definition manager_run (close : Conn -> list reentry) (ks : list manager_call) : ConnectionManager :=
  foldl (manager_apply close) ConnectionManager_new ks.

(** What a subscriber that hears every event believes: the connected peers. *)
Definition hear (remotePeer : Conn -> PeerId) (s : gset PeerId) (e : bus_event) : gset PeerId :=
  match e with
  | OnNewConnection c => {[remotePeer c]} ∪ s
  | OnConnectionClosed _ => s
  | OnPeerDisconnected p => s ∖ {[p]}
  end.
Definition believed (remotePeer : Conn -> PeerId) (es : list bus_event) : gset PeerId :=
  foldl (hear remotePeer) ∅ es.
#[local] Arguments believed : simpl never.

(** ** Invariant *)

Section Invariant.
Context (remotePeer : Conn -> PeerId).

(** A property of every call back, also of those made while one is being answered. *)
Fixpoint reentry_all (P : reentry -> Prop) (r : reentry) {struct r} : Prop :=
  P r /\ match r with
         | CallsClose _ close => forall c, foldr (fun r Q => reentry_all P r /\ Q) True (close c)
         | _ => True
         end.
(** Connections are stored under the peer they lead to. *)
Definition reentry_addressed : reentry -> Prop :=
  reentry_all (fun r => match r with CallsAdd p c => remotePeer c = p | _ => True end).
Definition call_addressed (k : manager_call) : Prop :=
  match k with Add p (Some c) => remotePeer c = p | _ => True end.
(** [collectGarbage] is not called. *)
Definition reentry_no_collection : reentry -> Prop :=
  reentry_all (fun r => match r with CallsCollect => False | _ => True end).
Definition no_collection (k : manager_call) : Prop :=
  match k with Collect => False | _ => True end.

(** Subscribers believe in every listed peer; the others they believe in are in [told],
    the peers whose disconnection is still to be published. *)
Record manager_ok (told : PeerId -> Prop) (m : ConnectionManager) : Prop := {
  no_empty_entry : map_Forall (fun _ cs => cs <> ∅) (connections_ m);
  listed_believed : dom (connections_ m) ⊆ believed remotePeer (published m);
  believed_listed p : p ∈ believed remotePeer (published m) -> p ∈ dom (connections_ m) \/ told p
}.

Lemma believed_snoc es e : believed remotePeer (es ++ [e]) = hear remotePeer (believed remotePeer es) e.
Proof. unfold believed. by rewrite foldl_app. Qed.

Lemma new_ok told : manager_ok told ConnectionManager_new.
Proof. split; [apply map_Forall_empty|..]; cbn; set_solver. Qed.

Lemma publish_closed_ok told c m : manager_ok told m -> manager_ok told (publish (OnConnectionClosed c) m).
Proof. intros [Hne Hl Hb]. split; [done|..]; cbn; by rewrite believed_snoc. Qed.

Lemma mark_closed_ok told c m : manager_ok told m -> manager_ok told (mark_closed c m).
Proof. by intros [Hne Hl Hb]. Qed.

Lemma added_ok told c m : manager_ok told m -> manager_ok told (addConnectionToPeer (remotePeer c) (Some c) m).
Proof.
  intros [Hne Hl Hb]. assert (dom (connections_ (addConnectionToPeer (remotePeer c) (Some c) m))
    = {[remotePeer c]} ∪ dom (connections_ m)) as Hd
    by (cbn; destruct (connections_ m !! remotePeer c); by rewrite dom_insert_L).
  split; [|rewrite Hd; cbn [addConnectionToPeer publish published set_connections]; rewrite believed_snoc; cbn [hear]; set_solver..].
  cbn. destruct (connections_ m !! remotePeer c); apply map_Forall_insert_2; try done; set_solver.
Qed.

Lemma lost_ok told p c m : manager_ok told m -> manager_ok told (onConnectionClosed p c m).
Proof.
  intros Hm. unfold onConnectionClosed. case_decide; [done|].
  destruct (connections_ m !! p) as [cs|] eqn:Hp; [|done]. cbv zeta.
  set (m1 := if decide (c ∈ cs) then publish (OnConnectionClosed c) m else m).
  assert (manager_ok told m1 /\ connections_ m1 = connections_ m) as [[Hne Hl Hb] Hc]
    by (unfold m1; case_decide; [split; [by apply publish_closed_ok|done]|done]).
  replace (if decide (c ∈ cs) then _ else _) with (set_connections (<[p := cs ∖ {[c]}]> (connections_ m)) m1)
    by (unfold m1; by case_decide).
  case_decide as Hr.
  - cbn [connections_ set_connections]. rewrite delete_insert_eq.
    assert (p ∈ dom (connections_ m)) by by apply elem_of_dom_2 in Hp.
    split; cbn [publish published set_connections connections_]; rewrite ?believed_snoc; cbn [hear]; rewrite Hc in *.
    + by apply map_Forall_delete.
    + rewrite dom_delete_L. set_solver.
    + intros q. rewrite dom_delete_L. set_solver.
  - assert (dom (<[p := cs ∖ {[c]}]> (connections_ m)) = dom (connections_ m)) as Hdom
      by (rewrite dom_insert_L; apply elem_of_dom_2 in Hp; set_solver).
    split; cbn [published set_connections connections_]; rewrite ?Hdom; rewrite Hc in *; [by apply map_Forall_insert_2|done..].
Qed.

(** A nested call of [closeConnectionsToPeer] resets [closing_connections_to_peer_] of the
    outer one; that is why nothing here is said about it. *)
Lemma close_loop_ok told closing l :
  (forall m c, manager_ok told m -> manager_ok told (closing m c)) ->
  forall m, manager_ok told m -> manager_ok told (close_loop closing l m).
Proof.
  intros Hc. induction l as [|c l IH]; intros m Hm; [done|]. cbn [close_loop].
  apply IH, publish_closed_ok. destruct (isClosed m c); [done|]. by apply Hc.
Qed.

Lemma close_connections_ok told closing p :
  (forall told' m c, (forall q, told q -> told' q) -> manager_ok told' m -> manager_ok told' (closing m c)) ->
  forall m, manager_ok told m -> manager_ok told (close_connections closing p m).
Proof.
  intros Hc m [Hne Hl Hb]. unfold close_connections.
  destruct (connections_ m !! p) as [cs|] eqn:Hp; [|done].
  rewrite decide_False by by eapply (map_Forall_lookup_1 _ _ _ _ Hne).
  set (m0 := set_closing (Some p) (set_connections (delete p (connections_ m)) m)).
  set (told' q := told q \/ q = p).
  assert (manager_ok told' m0) as Hm0.
  { split; cbn; [by apply map_Forall_delete|rewrite dom_delete_L; set_solver|].
    intros q [?|?]%Hb; [|by right; left]. rewrite dom_delete_L. destruct (decide (q = p)); [by right; right|set_solver]. }
  apply (close_loop_ok told' closing (order_connections cs)) in Hm0;
    [|intros m1 c Hm1; apply Hc; [by left|done]].
  set (m1 := close_loop closing (order_connections cs) m0) in *. destruct Hm0 as [Hne1 Hl1 Hb1].
  cbv zeta. cbn [set_closing connections_]. destruct (connections_ m1 !! p) eqn:Hp1.
  - split; [done|done|]. intros q [?|[?| ->]]%Hb1; [by left|by right|]. left. by apply elem_of_dom_2 in Hp1.
  - apply not_elem_of_dom in Hp1. split; [done|..]; cbn; rewrite believed_snoc; cbn [hear]; [set_solver|].
    intros q [Hq Hne']%elem_of_difference. apply Hb1 in Hq as [?|[?| ->]]; set_solver.
Qed.
End Invariant.

(** ** Garbage collection and lookups *)

Context `{!TraversalLaws Conn}.

(** The open connections of a peer; the entry goes with the last one. *)
Definition still_open (m : ConnectionManager) (cs : gset Conn) : option (gset Conn) :=
  let cs := filter (fun c => c ∉ closed m) cs in
  if decide (cs = ∅) then None else Some cs.

Lemma erase_closed_spec m l cs :
  erase_closed m l cs = filter (fun c => c ∉ l \/ c ∉ closed m) cs.
Proof.
  revert cs. induction l as [|c l IH]; intros cs; cbn [erase_closed].
  - apply set_eq. intros x. rewrite elem_of_filter. set_solver.
  - rewrite IH. unfold isClosed. apply set_eq. intros x. rewrite !elem_of_filter.
    case_bool_decide; destruct (decide (x = c)); set_solver.
Qed.

Lemma erase_all_closed m cs :
  erase_closed m (order_connections cs) cs = filter (fun c => c ∉ closed m) cs.
Proof.
  rewrite erase_closed_spec. apply set_eq. intros x. rewrite !elem_of_filter.
  rewrite order_connections_perm, elem_of_elements. destruct (decide (x ∈ cs)); naive_solver.
Qed.

Lemma collect_frame l m :
  exists cs, collect l m = set_connections cs m.
Proof.
  revert m. induction l as [|[p cs] l IH]; intros m; cbn [collect].
  - exists (connections_ m). by destruct m.
  - edestruct IH as [cs' ->]. eexists. reflexivity.
Qed.

Lemma collect_lookup l m q :
  NoDup l.*1 ->
  connections_ (collect l m) !! q =
    match (list_to_map l : gmap PeerId (gset Conn)) !! q with
    | Some cs => still_open m cs
    | None => connections_ m !! q
    end.
Proof.
  revert m. induction l as [|[p cs] l IH]; intros m Hnd; [done|].
  cbn in Hnd. apply NoDup_cons in Hnd as [Hp Hnd]. cbn [collect list_to_map foldr fst snd].
  rewrite IH by done. rewrite erase_all_closed. cbn [connections_ set_connections].
  destruct (decide (p = q)) as [->|Hq]; [rewrite lookup_insert_eq|rewrite lookup_insert_ne by done].
  - rewrite not_elem_of_list_to_map_1 by done. unfold still_open.
    case_decide; [apply lookup_delete_eq|apply lookup_insert_eq].
  - unfold still_open. cbn. destruct (list_to_map l !! q); [done|].
    case_decide; [by apply lookup_delete_ne|by apply lookup_insert_ne].
Qed.

Lemma collectGarbage_lookup m q :
  connections_ (collectGarbage m) !! q = connections_ m !! q ≫= still_open m.
Proof.
  unfold collectGarbage. rewrite collect_lookup.
  - rewrite (list_to_map_proper _ (map_to_list (connections_ m))).
    + rewrite list_to_map_to_list. by destruct (connections_ m !! q).
    + rewrite order_peers_perm. apply NoDup_fst_map_to_list.
    + apply order_peers_perm.
  - rewrite order_peers_perm. apply NoDup_fst_map_to_list.
Qed.

Lemma best_connection_spec p m :
  match getBestConnectionForPeer p m with
  | Some c => exists cs, connections_ m !! p = Some cs /\ c ∈ cs /\ c ∉ closed m
  | None => forall cs, connections_ m !! p = Some cs -> cs ⊆ closed m
  end.
Proof.
  unfold getBestConnectionForPeer. destruct (connections_ m !! p) as [cs|]; [|done].
  destruct (list_find _ _) as [[i c]|] eqn:Hf; cbn.
  - apply list_find_Some in Hf as (Hi & Hc & _). apply list_elem_of_lookup_2 in Hi.
    rewrite order_connections_perm, elem_of_elements in Hi. unfold isClosed in Hc.
    apply bool_decide_eq_false in Hc. eauto.
  - apply list_find_None in Hf. intros _ [= <-] c Hc. rewrite Forall_forall in Hf.
    destruct (decide (c ∈ closed m)) as [|Hn]; [done|]. destruct (Hf c).
    + by rewrite order_connections_perm, elem_of_elements.
    + by apply bool_decide_eq_false.
Qed.

(** ** Every call keeps the invariant *)

Section Calls.
Context (remotePeer : Conn -> PeerId).
Abbreviation manager_ok := (manager_ok remotePeer).

(** Collected peers are not announced, so that subscribers may believe in any peer. *)
Lemma collected_ok told m : (forall p, told p) -> manager_ok told m -> manager_ok told (collectGarbage m).
Proof.
  intros Ht [Hne Hl Hb]. assert (published (collectGarbage m) = published m) as Hp
    by (unfold collectGarbage; by destruct (collect_frame (order_peers (connections_ m)) m) as [cs ->]).
  split; rewrite ?Hp; [|intros p|auto].
  - intros p cs. rewrite collectGarbage_lookup. destruct (connections_ m !! p); cbn; [|done].
    unfold still_open. case_decide; by intros [= <-].
  - rewrite elem_of_dom, collectGarbage_lookup. destruct (connections_ m !! p) eqn:Hq; cbn; [|by intros [? ?]].
    intros _. apply Hl. by apply elem_of_dom_2 in Hq.
Qed.

Definition reentry_rect_nested (P : reentry -> Prop)
    (Hcloses : forall c, P (Closes c)) (Hclosed : forall p c, P (CallsClosed p c)) (Hadd : forall p c, P (CallsAdd p c))
    (Hcollect : P CallsCollect) (Hclose : forall p close, (forall c, Forall P (close c)) -> P (CallsClose p close)) :
    forall r, P r :=
  fix go r := match r with
  | Closes c => Hcloses c
  | CallsClosed p c => Hclosed p c
  | CallsAdd p c => Hadd p c
  | CallsCollect => Hcollect
  | CallsClose p close =>
      Hclose p close (fun c => (fix all l : Forall P l :=
        match l with [] => Forall_nil_2 P | r :: l => Forall_cons_2 P r l (go r) (all l) end) (close c))
  end.

Definition may_call (told : PeerId -> Prop) (r : reentry) : Prop :=
  reentry_addressed remotePeer r /\ (reentry_no_collection r \/ forall p, told p).

Lemma foldr_and_Forall {A} (P : A -> Prop) l : foldr (fun r Q => P r /\ Q) True l <-> Forall P l.
Proof. induction l as [|x l IH]; cbn; [by split; [constructor|]|]. by rewrite Forall_cons, IH. Qed.

Lemma may_call_nested told p close c : may_call told (CallsClose p close) -> Forall (may_call told) (close c).
Proof.
  intros [[_ Ha] Hn]. specialize (Ha c). rewrite (foldr_and_Forall (reentry_all _)) in Ha.
  apply Forall_forall. intros r Hr. rewrite Forall_forall in Ha. split; [by apply Ha|].
  destruct Hn as [[_ Hn]|]; [left|by right]. specialize (Hn c).
  rewrite (foldr_and_Forall (reentry_all _)), Forall_forall in Hn. by apply Hn.
Qed.

Lemma may_call_weaken (told told' : PeerId -> Prop) r : (forall q, told q -> told' q) -> may_call told r -> may_call told' r.
Proof. intros Ht [Ha [Hn|Hn]]; (split; [done|]); [by left|right; auto]. Qed.

Lemma reenter_ok r : forall told m, may_call told r -> manager_ok told m -> manager_ok told (reenter m r).
Proof.
  induction r as [c|p c|p c| |p close IH] using reentry_rect_nested; intros told m Hr Hm; cbn [reenter].
  - by apply mark_closed_ok.
  - by apply lost_ok.
  - destruct Hr as [[<- _] _]. by apply added_ok.
  - destruct Hr as [_ [[[] _]|Ht]]. by apply collected_ok.
  - apply (close_connections_ok remotePeer told); [|done]. intros told' m' c Ht Hm'.
    apply (may_call_nested told p close c) in Hr. revert m' Hm'. specialize (IH c).
    induction IH as [|r l Hr0 _ IHl]; intros m' Hm'; [done|]. apply Forall_cons in Hr as [Hr1 Hr2].
    cbn. apply IHl; [done|]. apply Hr0; [by eapply may_call_weaken|done].
Qed.

Lemma reentries_ok told rs : Forall (may_call told) rs -> forall m, manager_ok told m -> manager_ok told (foldl reenter m rs).
Proof. induction 1 as [|r rs Hr _ IH]; intros m Hm; [done|]. cbn. by apply IH, reenter_ok. Qed.

Lemma close_ok told close p m :
  (forall c, Forall (may_call told) (close c)) -> manager_ok told m -> manager_ok told (closeConnectionsToPeer close p m).
Proof.
  intros Hclose Hm. apply (close_connections_ok remotePeer told); [|done]. intros told' m' c Ht Hm'.
  apply reentries_ok; [|done]. eapply Forall_impl; [apply Hclose|]. intros r. by apply may_call_weaken.
Qed.

Lemma run_ok told close ks :
  (forall c, Forall (may_call told) (close c)) -> Forall (call_addressed remotePeer) ks ->
  (Forall no_collection ks \/ forall p, told p) -> manager_ok told (manager_run close ks).
Proof.
  intros Hclose Ha Hg. unfold manager_run.
  induction ks as [|k ks IH] using rev_ind; [apply new_ok|].
  apply Forall_app in Ha as [Ha [Hk _]%Forall_cons]. rewrite Forall_app, Forall_singleton in Hg.
  rewrite foldl_app. cbn. assert (manager_ok told (foldl (manager_apply close) ConnectionManager_new ks)) as Hok
    by (apply IH; [done|tauto]).
  set (m := foldl _ _ _) in *.
  destruct k as [p [c|]|p|p c|c|]; cbn [manager_apply] in *; try done.
  - cbn in Hk. subst p. by apply added_ok.
  - by apply close_ok.
  - by apply lost_ok.
  - by apply mark_closed_ok.
  - apply collected_ok; [by destruct Hg as [[_ []]|]|done].
Qed.
End Calls.

(** ** Properties *)

Lemma connected_peers_perm m : getConnectedPeers m ≡ₚ elements (dom (connections_ m)).
Proof.
  unfold getConnectedPeers. change (map fst) with (fmap (M := list) (@fst PeerId (gset Conn))).
  rewrite order_peers_perm. apply NoDup_Permutation; [apply NoDup_fst_map_to_list|apply NoDup_elements|].
  intros p. rewrite elem_of_elements, elem_of_dom, list_elem_of_fmap. split.
  - intros ([q cs] & -> & Hq%elem_of_map_to_list). by exists cs.
  - intros [cs Hp%elem_of_map_to_list]. by exists (p, cs).
Qed.

(** Replaying the published events gives the connected peers. *)
Lemma published_events_exact (remotePeer : Conn -> PeerId) close ks :
  (forall c, Forall (reentry_addressed remotePeer) (close c)) -> (forall c, Forall reentry_no_collection (close c)) ->
  Forall (call_addressed remotePeer) ks -> Forall no_collection ks ->
  dom (connections_ (manager_run close ks)) = believed remotePeer (published (manager_run close ks)).
Proof.
  intros Hclose Hno Ha Hg. destruct (run_ok remotePeer (fun _ => False) close ks) as [_ Hl Hb]; [|done|by left|].
  - intros c. apply Forall_forall. intros r Hr. specialize (Hclose c). specialize (Hno c).
    rewrite Forall_forall in Hclose, Hno. split; [by apply Hclose|left; by apply Hno].
  - apply set_eq. intros p. split; [apply Hl|]. by intros [?|[]]%Hb.
Qed.

(** C26: whoever hears the events knows the connected peers.  After any calls of the
    manager's functions, where [close()] of a connection may call any of them again before
    it returns, [closeConnectionsToPeer] included, to any depth: every peer that
    [getConnectedPeers] lists is listed once, has a connection on record, and is connected
    for whoever replays the published events.  If [collectGarbage] is called neither from
    outside nor from [close()], these are all the peers the events leave connected, and
    [getConnectedPeerCount] is their number; [collectGarbage] drops peers without an event
    ([manager_collect_exact]).  Connections are added under the peer they lead to. *)
Theorem subscribers_know_connected_peers (remotePeer : Conn -> PeerId) close ks :
  (forall c, Forall (reentry_addressed remotePeer) (close c)) -> Forall (call_addressed remotePeer) ks ->
  let m := manager_run close ks in
  NoDup (getConnectedPeers m)
  /\ (forall p, p ∈ getConnectedPeers m ->
       p ∈ believed remotePeer (published m) /\ exists c cs, connections_ m !! p = Some cs /\ c ∈ cs)
  /\ ((forall c, Forall reentry_no_collection (close c)) -> Forall no_collection ks ->
      getConnectedPeers m ≡ₚ elements (believed remotePeer (published m))
      /\ getConnectedPeerCount m = size (believed remotePeer (published m))).
Proof.
  intros Hclose Ha m. destruct (run_ok remotePeer (fun _ => True) close ks) as [Hne Hl _]; [|done|by right|].
  { intros c. eapply Forall_impl; [apply Hclose|]. intros r Hr. split; [done|by right]. }
  fold m in Hne, Hl. rewrite connected_peers_perm. split_and!; [apply NoDup_elements| |].
  - intros p. rewrite connected_peers_perm, elem_of_elements. intros Hp. split; [by apply Hl|].
    apply elem_of_dom in Hp as [cs Hp]. pose proof (map_Forall_lookup_1 _ _ _ _ Hne Hp) as Hcs.
    apply set_choose_L in Hcs as [c Hc]. eauto.
  - intros Hno Hg. unfold m. rewrite <- (published_events_exact remotePeer close ks Hclose Hno Ha Hg).
    split; [done|]. unfold getConnectedPeerCount. by rewrite size_dom.
Qed.

(** While [close()] only closes, the loop leaves the map alone. *)
Lemma close_each_plain close l m :
  (forall c, close c ⊆ [Closes c]) ->
  connections_ (close_each close l m) = connections_ m
  /\ published (close_each close l m) = published m ++ map OnConnectionClosed l.
Proof.
  unfold close_each. intros Hclose. revert m. induction l as [|c l IH]; intros m; cbn [close_loop map].
  { by rewrite app_nil_r. }
  assert (forall rs, rs ⊆ [Closes c] -> forall m, connections_ (foldl reenter m rs) = connections_ m
            /\ published (foldl reenter m rs) = published m) as Hrs.
  { clear. induction rs as [|r rs IH]; intros Hr m; [done|]. cbn.
    destruct (IH ltac:(set_solver) (reenter m r)) as [-> ->].
    assert (r = Closes c) as -> by set_solver. done. }
  specialize (Hrs (close c) (Hclose c) m). destruct Hrs as [Hc Hp].
  destruct (IH (publish (OnConnectionClosed c) (if isClosed m c then m else foldl reenter m (close c))))
    as [-> ->].
  cbn. destruct (isClosed m c); rewrite ?Hc, ?Hp, <- app_assoc; done.
Qed.

Lemma disconnect_spec close p m :
  (forall c, close c ⊆ [Closes c]) -> map_Forall (fun _ cs => cs <> ∅) (connections_ m) ->
  let m' := closeConnectionsToPeer close p m in
  connections_ m' = delete p (connections_ m)
  /\ published m' = published m ++
       match connections_ m !! p with
       | None => []
       | Some cs => map OnConnectionClosed (order_connections cs) ++ [OnPeerDisconnected p]
       end.
Proof.
  intros Hclose Hne m'. unfold m', closeConnectionsToPeer, close_connections.
  destruct (connections_ m !! p) as [cs|] eqn:Hp.
  - rewrite decide_False by by eapply (map_Forall_lookup_1 _ _ _ _ Hne).
    fold (close_each close). set (m0 := set_closing (Some p) _).
    destruct (close_each_plain close (order_connections cs) m0 Hclose) as [Hc Hpub].
    remember (close_each close (order_connections cs) m0) as mc eqn:Hmc.
    cbn [set_closing connections_]. cbn in Hc, Hpub. rewrite Hc, lookup_delete_eq. cbn.
    rewrite Hc, Hpub, <- app_assoc. done.
  - by rewrite delete_id, app_nil_r.
Qed.

(** Disconnecting from a peer forgets exactly its connections and announces
    it.  The other peers keep theirs; one closing event per connection of the peer
    is published, in the order of the container, then the peer's disconnection,
    once; a peer without connections changes nothing. *)
Theorem disconnect_exact close p m :
  (forall c, close c ⊆ [Closes c]) -> map_Forall (fun _ cs => cs <> ∅) (connections_ m) ->
  let m' := closeConnectionsToPeer close p m in
  connections_ m' = delete p (connections_ m)
  /\ published m' = published m ++
       match connections_ m !! p with
       | None => []
       | Some cs => map OnConnectionClosed (order_connections cs) ++ [OnPeerDisconnected p]
       end.
Proof. apply disconnect_spec. Qed.

(** Garbage collection keeps exactly the open connections, drops peers left
    without any, and publishes nothing. *)
Theorem manager_collect_exact m :
  (forall q, connections_ (collectGarbage m) !! q = connections_ m !! q ≫= still_open m)
  /\ published (collectGarbage m) = published m /\ closed (collectGarbage m) = closed m.
Proof.
  split; [apply collectGarbage_lookup|]. unfold collectGarbage.
  destruct (collect_frame (order_peers (connections_ m)) m) as [cs ->]. done.
Qed.

End ConnectionManager.

(** ** A concrete instance *)

Module Plain.
#[export] Instance nat_traversal : Traversal nat :=
  {| order_connections := elements; order_peers := map_to_list |}.
#[export] Instance nat_traversal_laws : TraversalLaws nat.
Proof. by constructor. Qed.

Definition peer_of (c : nat) : PeerId := [Z.of_nat (c mod 2)].
Definition calls : list (manager_call (Conn := nat)) :=
  [Add [0] (Some 2%nat); Add [0] (Some 4%nat); Add [1] (Some 3%nat); Lost [0] 2%nat; Close [0]].
End Plain.
Import (hints) Plain.

(** While connection 4 to peer 0 closes, the connections to peer 1 are closed, and while
    connection 3 to it closes, a new one to peer 0 appears. *)
Definition nested (c : nat) : list (reentry (Conn := nat)) :=
  if decide (c = 4%nat) then [Closes 4%nat; CallsClose [1] (fun c => [Closes c; CallsAdd [0] 6%nat])] else [Closes c].

Lemma subscribers_know_connected_peers_witness :
  let m := manager_run nested Plain.calls in
  getConnectedPeers m = [[0]] /\ [0] ∈ believed Plain.peer_of (published m)
  /\ getConnectedPeers m ≡ₚ elements (believed Plain.peer_of (published m)).
Proof.
  destruct (subscribers_know_connected_peers Plain.peer_of nested Plain.calls) as (_ & Hl & He).
  - intros c. unfold nested. case_decide; repeat constructor.
  - by repeat constructor.
  - assert (getConnectedPeers (manager_run nested Plain.calls) = [[0]]) as E by (vm_compute; reflexivity).
    split; [exact E|]. split; [apply Hl; rewrite E; apply list_elem_of_here|].
    apply He; [|by repeat constructor]. intros c. unfold nested. case_decide; repeat constructor.
Defined.

Lemma disconnect_exact_witness :
  published (closeConnectionsToPeer (fun c => [Closes c]) [1]
               (manager_run (fun c => [Closes c]) Plain.calls))
  = [OnNewConnection 2%nat; OnNewConnection 4%nat; OnNewConnection 3%nat; OnConnectionClosed 2%nat;
     OnConnectionClosed 4%nat; OnPeerDisconnected [0]; OnConnectionClosed 3%nat;
     OnPeerDisconnected [1]].
Proof.
  refine (eq_trans (proj2 (disconnect_exact (fun c => [Closes c]) [1]
            (manager_run (fun c => [Closes c]) Plain.calls) (fun c => reflexivity _) _)) _).
  - apply (bool_decide_unpack _). vm_compute. exact I.
  - vm_compute. reflexivity.
Defined.
