(* ===== verification/EventBus.v ===== *)
(** * The event bus

    [include/libp2p/event/bus.hpp]: channels found by the type of their declaration,
    subscriptions owned by handles, and the dispatch of an event to the subscribers
    of its channel.  The signals of Boost.Signals2 are a parameter; the dispatch
    policy is the program's. *)

From S2P Require Import Prelude ConnectionManager.

(** ** Signals

    A slot is a number that is never used again.  [signal_slots] are the connected
    slots in the order in which an emission visits them, [signal_used] those that
    were ever connected. *)
Class Signal (Sig : Type) := {
  signal_new : Sig;
  signal_connect : Sig -> Sig * nat;
  signal_disconnect : nat -> Sig -> Sig;
  signal_slots : Sig -> list nat;
  signal_used : Sig -> gset nat
}.
Class SignalLaws (Sig : Type) `{Signal Sig} := {
  new_slots : signal_slots signal_new = [] /\ signal_used signal_new = ∅;
  connect_slots s : signal_slots (signal_connect s).1 = signal_slots s ++ [(signal_connect s).2];
  connect_used s : signal_used (signal_connect s).1 = {[ (signal_connect s).2 ]} ∪ signal_used s;
  connect_new s : (signal_connect s).2 ∉ signal_used s;
  disconnect_slots i s : signal_slots (signal_disconnect i s) = filter (fun j => j <> i) (signal_slots s);
  disconnect_used i s : signal_used (signal_disconnect i s) = signal_used s
}.

Lemma filter_all {A} (P : A -> Prop) `{!forall x, Decision (P x)} (l : list A) :
  (forall x, x ∈ l -> P x) -> filter P l = l.
Proof.
  induction l as [|x l IH]; intros Hp; [done|]. rewrite filter_cons_True by (apply Hp, list_elem_of_here).
  f_equal. apply IH. intros y Hy. by apply Hp, list_elem_of_further.
Qed.

(** ** Channels, handles and the bus *)

Section Bus.
Context {Key Sig : Type} `{Countable Key, Signal Sig}.

(** [channels_]; a channel is its signal. *)
Abbreviation Bus := (gmap Key Sig).

(** [Bus::getChannel] makes the channel on first access. *)
Definition getChannel (k : Key) (b : Bus) : Bus * Sig :=
  match b !! k with
  | Some s => (b, s)
  | None => (<[k := signal_new]> b, signal_new)
  end.

(** [scoped_connection]: of no slot, or of one slot of a channel. *)
Definition Handle : Type := option (Key * nat).

(** The world a callback acts on: the bus and whatever else the program has. *)
Context {W : Type}.
Record world := mkWorld { bus : Bus; rest : W }.
Definition set_bus (b : Bus) (w : world) : world := mkWorld b (rest w).

Definition slots (k : Key) (w : world) : list nat :=
  match bus w !! k with Some s => signal_slots s | None => [] end.

(** [Channel::subscribe] *)
Definition subscribe (k : Key) (w : world) : world * Handle :=
  let '(b, s) := getChannel k (bus w) in
  let '(s, i) := signal_connect s in
  (set_bus (<[k := s]> b) w, Some (k, i)).

(** [connection::connected] and [disconnect] *)
Definition connected (h : Handle) (w : world) : bool :=
  match h with
  | None => false
  | Some (k, i) => bool_decide (i ∈ slots k w)
  end.
Definition disconnect (h : Handle) (w : world) : world :=
  match h with
  | None => w
  | Some (k, i) =>
      match bus w !! k with
      | None => w
      | Some s => set_bus (<[k := signal_disconnect i s]> (bus w)) w
      end
  end.

(** [Handle::unsubscribe]; the destructor calls it. *)
Definition unsubscribe (h : Handle) (w : world) : world := if connected h w then disconnect h w else w.

(** [Handle::operator=(Handle &&)]: the new values of both handles. *)
Definition assign (lhs rhs : Handle) (w : world) : world * Handle * Handle := (unsubscribe lhs w, rhs, None).

(** [Channel::hasSubscribers] *)
Definition hasSubscribers (k : Key) (w : world) : bool := (0 <? length (slots k w))%nat.

End Bus.

(** ** Dispatch *)

Section Dispatch.
Context {Key Data Sig W : Type} `{Countable Key, Signal Sig}.
Abbreviation world := (world (Key := Key) (Sig := Sig) (W := W)).

(** What the callback of a slot does; it may use the bus, and may throw. *)
Context (callback : Key -> nat -> Data -> world -> world * bool).

(** [drop_exceptions::operator()]: dereferencing an iterator of the emission calls
    the slot; the iterator passes over slots disconnected meanwhile.  The slots
    called are returned along with whether an exception leaves. *)
Fixpoint dispatch (k : Key) (d : Data) (visit : list nat) (w : world) : world * list nat * bool :=
  match visit with
  | [] => (w, [], false)
  | i :: visit =>
      if bool_decide (i ∈ slots k w) then
        let '(w, threw) := callback k i d w in
        if threw then (w, [i], true)
        else let '(w, called, threw) := dispatch k d visit w in (w, i :: called, threw)
      else dispatch k d visit w
  end.

(** [Channel::publish], of the channel [getChannel] returned. *)
Definition publish (k : Key) (d : Data) (w : world) : world * list nat * bool :=
  let w := set_bus (getChannel k (bus w)).1 w in
  if hasSubscribers k w then dispatch k d (slots k w) w else (w, [], false).

(** Events published one after the other, with the slots called for each. *)
Fixpoint publish_all (ds : list (Key * Data)) (w : world) : world * list (Key * Data * list nat) :=
  match ds with
  | [] => (w, [])
  | (k, d) :: ds =>
      let '(w, called, _) := publish k d w in
      let '(w, log) := publish_all ds w in
      (w, (k, d, called) :: log)
  end.
(** What a program that owns the handles [hs] heard. *)
Definition heard (hs : list (Key * nat)) (log : list (Key * Data * list nat)) : list Data :=
  flat_map (fun '(k, d, called) => if existsb (fun '(k', i) => bool_decide (k' = k /\ i ∈ called)) hs then [d] else []) log.

End Dispatch.

(** ** Proofs *)

Section Subscriptions.
Context {Key Sig W : Type} `{Countable Key, Signal Sig}.
Abbreviation world := (world (Key := Key) (Sig := Sig) (W := W)).

Definition used (k : Key) (w : world) : gset nat :=
  match bus w !! k with Some s => signal_used s | None => ∅ end.

(** Slots are connected once. *)
Definition bus_ok (w : world) : Prop := forall k, NoDup (slots k w) /\ forall i, i ∈ slots k w -> i ∈ used k w.

(** What a program can do with the bus: subscribe, unsubscribe, and change anything
    else; a nested [publish] is made of callbacks that do no more. *)
Inductive evolves : world -> world -> Prop :=
| evolves_refl w : evolves w w
| evolves_subscribe k w1 w2 : evolves (subscribe k w1).1 w2 -> evolves w1 w2
| evolves_unsubscribe h w1 w2 : evolves (unsubscribe h w1) w2 -> evolves w1 w2
| evolves_channel k w1 w2 : evolves (set_bus (getChannel k (bus w1)).1 w1) w2 -> evolves w1 w2
| evolves_rest x w1 w2 : evolves (mkWorld (bus w1) x) w2 -> evolves w1 w2.

Lemma evolves_trans w1 w2 w3 : evolves w1 w2 -> evolves w2 w3 -> evolves w1 w3.
Proof.
  induction 1 as [|k w1 w2 _ IH|h w1 w2 _ IH|k w1 w2 _ IH|x w1 w2 _ IH]; intros E; [done|..].
  - by apply (evolves_subscribe k), IH.
  - by apply (evolves_unsubscribe h), IH.
  - by apply (evolves_channel k), IH.
  - by apply (evolves_rest x), IH.
Qed.

Lemma slots_bus k (w1 w2 : world) : bus w1 = bus w2 -> slots k w1 = slots k w2.
Proof. unfold slots. by intros ->. Qed.

Section Laws.
Context `{!SignalLaws Sig}.

Lemma channel_slots k k' w :
  slots k' (set_bus (getChannel k (bus w)).1 w) = slots k' w /\ used k' (set_bus (getChannel k (bus w)).1 w) = used k' w.
Proof.
  unfold slots, used, getChannel, set_bus. destruct (bus w !! k) as [s|] eqn:E; simpl; [done|].
  destruct (decide (k = k')) as [->|n]; [rewrite lookup_insert_eq, E|by rewrite lookup_insert_ne]. apply new_slots.
Qed.
Lemma getChannel_lookup k (b : gmap Key Sig) : (getChannel k b).1 !! k = Some (getChannel k b).2.
Proof. unfold getChannel. destruct (b !! k) eqn:E; simpl; [done|apply lookup_insert_eq]. Qed.

(** A subscription adds one slot, new to its channel, after the others. *)
Lemma subscribe_spec k w :
  exists i, (subscribe k w).2 = Some (k, i) /\ i ∉ used k w /\
    slots k (subscribe k w).1 = slots k w ++ [i] /\ used k (subscribe k w).1 = {[i]} ∪ used k w /\
    forall k', k' <> k -> slots k' (subscribe k w).1 = slots k' w /\ used k' (subscribe k w).1 = used k' w.
Proof.
  unfold subscribe. pose proof (channel_slots k k w) as [Es Eu]. pose proof (getChannel_lookup k (bus w)) as El.
  pose proof (fun k' => channel_slots k k' w) as Eo. unfold slots, used in *.
  destruct (getChannel k (bus w)) as [b s]. simpl in *. rewrite El in Es, Eu.
  pose proof (connect_slots s) as C1. pose proof (connect_used s) as C2. pose proof (connect_new s) as C3.
  destruct (signal_connect s) as [s' i]. simpl in *. exists i. rewrite lookup_insert_eq, <- Es, <- Eu. split_and!; try done.
  intros k' n. rewrite lookup_insert_ne by done. apply Eo.
Qed.
Lemma signal_disconnect_spec k i w : 
  slots k (disconnect (Some (k, i)) w) = filter (fun j => j <> i) (slots k w) /\
  used k (disconnect (Some (k, i)) w) = used k w /\
  forall k', k' <> k -> slots k' (disconnect (Some (k, i)) w) = slots k' w /\ used k' (disconnect (Some (k, i)) w) = used k' w.
Proof.
  unfold disconnect, slots, used. destruct (bus w !! k) as [s|] eqn:E; simpl.
  - rewrite lookup_insert_eq, disconnect_slots, disconnect_used. split_and!; [done|done|]. intros k' n. by rewrite lookup_insert_ne.
  - by rewrite E.
Qed.
Lemma unsubscribe_spec h w k : 
  slots k (unsubscribe h w) = filter (fun j => h <> Some (k, j)) (slots k w) /\ used k (unsubscribe h w) = used k w.
Proof.
  assert (Hid : forall k, connected h w = false -> filter (fun j => h <> Some (k, j)) (slots k w) = slots k w).
  { intros k' Hc. apply filter_all. intros j Hj ->. simpl in Hc. by apply bool_decide_eq_false in Hc. }
  unfold unsubscribe. destruct (connected h w) eqn:Hc; [|by rewrite Hid]. destruct h as [[k' i]|]; [|done].
  destruct (signal_disconnect_spec k' i w) as (E1 & E2 & E3). destruct (decide (k = k')) as [->|n].
  - rewrite E1, E2. split; [|done]. apply list_filter_iff. intros j. split; congruence.
  - destruct (E3 k n) as [-> ->]. split; [|done]. symmetry. apply filter_all. congruence.
Qed.

Lemma evolves_ok w w' : evolves w w' -> bus_ok w -> bus_ok w'.
Proof.
  induction 1 as [|k w1 w2 _ IH|h w1 w2 _ IH|k w1 w2 _ IH|x w1 w2 _ IH]; intros Hok; [done|..]; apply IH; intros k0.
  - destruct (subscribe_spec k w1) as (i & _ & Hn & Es & Eu & Eo). destruct (Hok k0) as [Hd Hu]. destruct (decide (k0 = k)) as [->|n].
    + rewrite Es, Eu. split; [|set_solver]. apply NoDup_app. split; [done|]. split; [set_solver|apply NoDup_singleton].
    + destruct (Eo k0 n) as [-> ->]. done.
  - destruct (unsubscribe_spec h w1 k0) as [-> ->]. destruct (Hok k0) as [Hd Hu]. split; [by apply NoDup_filter|].
    intros i Hi. apply list_elem_of_filter in Hi as [_ Hi]. auto.
  - destruct (channel_slots k k0 w1) as [-> ->]. apply Hok.
  - apply Hok.
Qed.

Lemma evolves_used k w w' : evolves w w' -> forall i, i ∈ used k w -> i ∈ used k w'.
Proof.
  induction 1 as [|k0 w1 w2 _ IH|h w1 w2 _ IH|k0 w1 w2 _ IH|x w1 w2 _ IH]; intros i Hi; [done|..]; apply IH.
  - destruct (subscribe_spec k0 w1) as (j & _ & _ & _ & Eu & Eo). destruct (decide (k = k0)) as [->|n]; [rewrite Eu; set_solver|].
    by destruct (Eo k n) as [_ ->].
  - by destruct (unsubscribe_spec h w1 k) as [_ ->].
  - by destruct (channel_slots k0 k w1) as [_ ->].
  - done.
Qed.

(** A slot once disconnected is never connected again. *)
Definition retired (k : Key) (i : nat) (w : world) : Prop := i ∈ used k w /\ i ∉ slots k w.
Lemma evolves_retired k i w w' : evolves w w' -> retired k i w -> retired k i w'.
Proof.
  induction 1 as [|k0 w1 w2 _ IH|h w1 w2 _ IH|k0 w1 w2 _ IH|x w1 w2 _ IH]; intros [Hu Hs]; [done|..]; apply IH.
  - destruct (subscribe_spec k0 w1) as (j & _ & Hn & Es & Eu & Eo). destruct (decide (k = k0)) as [->|n].
    + split; [rewrite Eu; set_solver|]. rewrite Es. intros Hi. apply elem_of_app in Hi as [Hi|Hi]; [done|].
      apply list_elem_of_singleton in Hi. congruence.
    + destruct (Eo k n) as [E1 E2]. split; [by rewrite E2|by rewrite E1].
  - destruct (unsubscribe_spec h w1 k) as [E1 E2]. split; [by rewrite E2|]. rewrite E1. intros Hi.
    by apply list_elem_of_filter in Hi as [_ Hi].
  - destruct (channel_slots k0 k w1) as [E1 E2]. split; [by rewrite E2|by rewrite E1].
  - done.
Qed.

End Laws.
End Subscriptions.

Section Callbacks.
Context {Key Data Sig W : Type} `{Countable Key, SignalLaws Sig}.
Abbreviation world := (world (Key := Key) (Sig := Sig) (W := W)).
Context (callback : Key -> nat -> Data -> world -> world * bool).
Context (callbacks_evolve : forall k i d w, evolves w (callback k i d w).1).

Lemma dispatch_evolves k d visit : forall w, evolves w (dispatch callback k d visit w).1.1.
Proof.
  induction visit as [|i visit IH]; intros w; simpl; [apply evolves_refl|]. case_bool_decide; [|apply IH].
  pose proof (callbacks_evolve k i d w) as Hc. destruct (callback k i d w) as [w1 []]; simpl in *; [done|].
  specialize (IH w1). destruct (dispatch callback k d visit w1) as [[w2 called] threw]. simpl in *. by apply (evolves_trans w w1).
Qed.
Lemma publish_evolves k d w : evolves w (publish callback k d w).1.1.
Proof.
  unfold publish. apply (evolves_channel k). destruct (hasSubscribers k _); [apply dispatch_evolves|apply evolves_refl].
Qed.
Lemma publish_all_evolves ds : forall w, evolves w (publish_all callback ds w).1.
Proof.
  induction ds as [|[k d] ds IH]; intros w; simpl; [apply evolves_refl|]. pose proof (publish_evolves k d w) as Hp.
  destruct (publish callback k d w) as [[w1 called] threw]. simpl in Hp. specialize (IH w1).
  destruct (publish_all callback ds w1) as [w2 log]. simpl in *. by apply (evolves_trans w w1).
Qed.

Lemma dispatch_spec k d visit : forall w,
  let '(w', called, threw) := dispatch callback k d visit w in
  called `sublist_of` visit /\
  (forall i, i ∈ called -> ~ retired k i w) /\
  (threw = false -> forall i, i ∈ visit -> i ∈ used k w -> i ∈ called \/ i ∉ slots k w') /\
  (threw = true -> exists i w1, last called = Some i /\ callback k i d w1 = (w', true)).
Proof.
  induction visit as [|i visit IH]; intros w; simpl.
  { split_and!; [done|set_solver|set_solver|done]. }
  case_bool_decide as Hi.
  - pose proof (callbacks_evolve k i d w) as Hc. destruct (callback k i d w) as [w1 []] eqn:Ec; simpl in Hc.
    { split_and!; [apply sublist_skip, sublist_nil_l| |done|]; [|intros _; by exists i, w].
      intros j ->%list_elem_of_singleton [_ Hn]. done. }
    specialize (IH w1). pose proof (dispatch_evolves k d visit w1) as He.
    destruct (dispatch callback k d visit w1) as [[w2 called] threw]. simpl in He. destruct IH as (IH1 & IH2 & IH3 & IH4).
    split_and!; [by apply sublist_skip| | |].
    + intros j [->|Hj]%elem_of_cons [Hu Hn]; [done|]. apply (IH2 j Hj). by apply (evolves_retired k j w w1).
    + intros Ht j [->|Hj]%elem_of_cons Hu; [left; apply list_elem_of_here|].
      destruct (IH3 Ht j Hj (evolves_used k w w1 Hc j Hu)) as [?|?]; [left; by apply list_elem_of_further|by right].
    + intros Ht. destruct (IH4 Ht) as (j & w3 & Hl & Hcb). exists j, w3. split; [|done]. by destruct called.
  - specialize (IH w). pose proof (dispatch_evolves k d visit w) as He.
    destruct (dispatch callback k d visit w) as [[w2 called] threw]. simpl in He. destruct IH as (IH1 & IH2 & IH3 & IH4).
    split_and!; [by apply sublist_cons|done| |done].
    intros Ht j [->|Hj]%elem_of_cons Hu; [|by apply IH3]. right. by apply (evolves_retired k i w w2).
Qed.

(** Events that no callback interferes with reach every subscriber. *)
Section Quiet.
Context (quiet : forall k i d w, bus (callback k i d w).1 = bus w /\ (callback k i d w).2 = false).

Lemma dispatch_quiet k d visit : forall w, (forall i, i ∈ visit -> i ∈ slots k w) ->
  bus (dispatch callback k d visit w).1.1 = bus w /\ (dispatch callback k d visit w).1.2 = visit.
Proof.
  induction visit as [|i visit IH]; intros w Hv; simpl; [done|]. rewrite bool_decide_true by apply Hv, list_elem_of_here.
  destruct (quiet k i d w) as [Eb Et]. destruct (callback k i d w) as [w1 threw]. simpl in *. subst threw.
  destruct (IH w1) as [E1 E2]. { intros j Hj. unfold slots. rewrite Eb. by apply Hv, list_elem_of_further. }
  destruct (dispatch callback k d visit w1) as [[w2 called] threw]. simpl in *. split; [congruence|by f_equal].
Qed.
Lemma publish_quiet k d w :
  (forall k', slots k' (publish callback k d w).1.1 = slots k' w) /\ (publish callback k d w).1.2 = slots k w.
Proof.
  unfold publish. set (w0 := set_bus _ w). assert (E : forall k', slots k' w0 = slots k' w) by (intros; apply channel_slots).
  destruct (hasSubscribers k w0) eqn:Es; simpl.
  - destruct (dispatch_quiet k d (slots k w0) w0) as [E1 E2]; [done|]. split; [|by rewrite E2].
    intros k'. rewrite <- (E k'). by apply slots_bus.
  - split; [done|]. unfold hasSubscribers in Es. rewrite E in Es. by destruct (slots k w).
Qed.
Lemma publish_all_quiet hs ds : forall w, (forall k i, (k, i) ∈ hs -> i ∈ slots k w) ->
  heard hs (publish_all callback ds w).2 = map snd (List.filter (fun '(k, _) => existsb (fun h => bool_decide (h.1 = k)) hs) ds).
Proof.
  induction ds as [|[k d] ds IH]; intros w Hs; simpl; [done|]. destruct (publish_quiet k d w) as [E1 E2].
  destruct (publish callback k d w) as [[w1 called] threw]. simpl in *. subst called.
  specialize (IH w1). destruct (publish_all callback ds w1) as [w2 log]. simpl in *.
  replace (existsb (fun '(k', i) => bool_decide (k' = k /\ i ∈ slots k w)) hs) with (existsb (fun h => bool_decide (h.1 = k)) hs).
  { destruct (existsb (fun h => bool_decide (h.1 = k)) hs); simpl; rewrite IH; [done| |done|]; intros; rewrite E1; by apply Hs. }
  apply eq_true_iff_eq. rewrite !existsb_exists. split.
  - intros ([k' i] & Hin & E%bool_decide_eq_true). simpl in E. subst k'. exists (k, i). split; [done|]. apply bool_decide_eq_true.
    split; [done|]. apply Hs. by apply list_elem_of_In.
  - intros ([k' i] & Hin & [-> _]%bool_decide_eq_true). exists (k, i). split; [done|]. by apply bool_decide_eq_true.
Qed.
End Quiet.
End Callbacks.

(** ** Claims *)
Section Claims.
Context {Key Data Sig W : Type} `{Countable Key, SignalLaws Sig}.
Abbreviation world := (world (Key := Key) (Sig := Sig) (W := W)).
Context (callback : Key -> nat -> Data -> world -> world * bool).

(** Who is called for an event.  Callbacks may subscribe, unsubscribe, publish and
    throw.  An event is handed to subscribers of its channel in the order in which they
    subscribed, at most once each, and to none that subscribed meanwhile; unless an
    exception leaves [publish], to every one that is still subscribed at the end; if
    one does, the callback called last threw it. *)
Theorem publish_exact k d w :
  (forall k i d w, evolves w (callback k i d w).1) -> bus_ok w ->
  let '(w', called, threw) := publish callback k d w in
  called `sublist_of` slots k w /\ NoDup called /\ bus_ok w'
  /\ (threw = false -> forall i, i ∈ slots k w -> i ∈ called \/ i ∉ slots k w')
  /\ (threw = true -> exists i w1, last called = Some i /\ callback k i d w1 = (w', true)).
Proof.
  intros Hev Hok. pose proof (publish_evolves callback Hev k d w) as He. unfold publish in *.
  set (w0 := set_bus _ w) in *. destruct (channel_slots k k w) as [Es Eu]. fold w0 in Es, Eu.
  destruct (Hok k) as [Hd Hu]. destruct (hasSubscribers k w0) eqn:Eh.
  - pose proof (dispatch_spec callback Hev k d (slots k w0) w0) as D.
    destruct (dispatch callback k d (slots k w0) w0) as [[w' called] threw]. simpl in He. destruct D as (D1 & _ & D3 & D4).
    rewrite Es, Eu in *. split_and!; [done|by eapply sublist_NoDup|by apply (evolves_ok w)| |done].
    intros Ht i Hi. apply D3; auto.
  - split_and!; [apply sublist_nil_l|constructor|by apply (evolves_ok w)| |done]. intros _ i Hi. exfalso.
    unfold hasSubscribers in Eh. rewrite Es in Eh. destruct (slots k w); [by apply not_elem_of_nil in Hi|done].
Qed.

(** A handle that was unsubscribed, destroyed or assigned to is never called
    again, whatever is subscribed, unsubscribed and published afterwards. *)
Theorem unsubscribed_never_called k w0 w1 w2 ds :
  (forall k i d w, evolves w (callback k i d w).1) ->
  evolves (subscribe k w0).1 w1 -> evolves (unsubscribe (subscribe k w0).2 w1) w2 ->
  exists i, (subscribe k w0).2 = Some (k, i) /\ heard [(k, i)] (publish_all callback ds w2).2 = [].
Proof.
  intros Hev E1 E2. destruct (subscribe_spec k w0) as (i & Eh & Hn & Es & Eu & _). exists i. split; [done|]. rewrite Eh in E2.
  assert (R : retired k i w2).
  { apply (evolves_retired k i _ _ E2). destruct (unsubscribe_spec (Some (k, i)) w1 k) as [Us Uu]. split.
    - rewrite Uu. apply (evolves_used k _ _ E1). rewrite Eu. set_solver.
    - rewrite Us. intros [Hx _]%list_elem_of_filter. done. }
  clear E2. revert w2 R. induction ds as [|[k' d] ds IH]; intros w2 R; simpl; [done|].
  pose proof (publish_evolves callback Hev k' d w2) as Hp.
  assert (Hc : k' = k -> i ∉ (publish callback k' d w2).1.2).
  { intros ->. unfold publish. set (w3 := set_bus _ w2). assert (R3 : retired k i w3).
    { destruct (channel_slots k k w2) as [C1 C2]. split; [unfold w3; by rewrite C2; apply R|unfold w3; by rewrite C1; apply R]. }
    destruct (hasSubscribers k w3); [|apply not_elem_of_nil].
    pose proof (dispatch_spec callback Hev k d (slots k w3) w3) as D. destruct (dispatch callback k d _ w3) as [[w4 called] threw].
    destruct D as (_ & D2 & _). simpl. intros Hin. by apply (D2 i Hin). }
  destruct (publish callback k' d w2) as [[w3 called] threw]. simpl in *.
  specialize (IH w3 (evolves_retired k i _ _ Hp R)). destruct (publish_all callback ds w3) as [w4 log]. simpl in *.
  rewrite bool_decide_false; [done|]. intros [-> Hi]. by apply Hc.
Qed.
End Claims.

(** ** The events of the connection manager *)

Inductive channel := NewConnectionChannel | ConnectionClosedChannel | PeerDisconnectedChannel.
#[export] Instance channel_eq_dec : EqDecision channel.
Proof. solve_decision. Defined.
#[export] Instance channel_countable : Countable channel.
Proof.
  apply (inj_countable' (fun c => match c with NewConnectionChannel => 0 | ConnectionClosedChannel => 1 | PeerDisconnectedChannel => 2 end)%nat
           (fun n => match n with O => NewConnectionChannel | S O => ConnectionClosedChannel | _ => PeerDisconnectedChannel end)).
  by intros [].
Defined.

Section Peers.
Context {Conn Sig W : Type} `{Countable Conn, !Traversal Conn, !TraversalLaws Conn, SignalLaws Sig}.

Definition channel_of (e : bus_event (Conn := Conn)) : channel :=
  match e with
  | OnNewConnection _ => NewConnectionChannel
  | OnConnectionClosed _ => ConnectionClosedChannel
  | OnPeerDisconnected _ => PeerDisconnectedChannel
  end.
Definition on_channels (es : list (bus_event (Conn := Conn))) : list (channel * bus_event) := map (fun e => (channel_of e, e)) es.

Abbreviation world := (world (Key := channel) (Sig := Sig) (W := W)).
Context (callback : channel -> nat -> bus_event (Conn := Conn) -> world -> world * bool).

(** C27: the bus carries the connected peers.  While callbacks neither throw nor change
    subscriptions, a program that is subscribed to new connections and to disconnected
    peers, and replays what the bus brings it, knows exactly the peers that
    [getConnectedPeers] lists.  The events are those of a run without [collectGarbage],
    which drops peers without an event, and they are delivered in the order in which the
    manager published them; the callbacks do not act on the manager, so the order in which
    delivery and the manager's calls interleave does not matter. *)
Theorem connected_peers_over_bus remotePeer close ks hs i j w :
  (forall k i d w, bus (callback k i d w).1 = bus w /\ (callback k i d w).2 = false) ->
  (NewConnectionChannel, i) ∈ hs -> (PeerDisconnectedChannel, j) ∈ hs ->
  (forall k i, (k, i) ∈ hs -> i ∈ slots k w) ->
  (forall c, Forall (reentry_addressed remotePeer) (close c)) -> (forall c, Forall reentry_no_collection (close c)) ->
  Forall (call_addressed remotePeer) ks -> Forall no_collection ks ->
  let m := manager_run close ks in
  getConnectedPeers m ≡ₚ elements (believed remotePeer (heard hs (publish_all callback (on_channels (published m)) w).2)).
Proof.
  intros Hq Hi Hj Hs Ha Hn Hb Hc m. subst m. rewrite (publish_all_quiet callback Hq hs _ w Hs).
  rewrite connected_peers_perm, (published_events_exact remotePeer close ks Ha Hn Hb Hc).
  assert (E : forall es s, foldl (hear remotePeer) s (map snd (List.filter (fun '(k, _) => existsb (fun h => bool_decide (h.1 = k)) hs) (on_channels es)))
                           = foldl (hear remotePeer) s es); [|unfold believed; by rewrite E].
  assert (Hin : forall k l, (k, l) ∈ hs -> existsb (fun h => bool_decide (h.1 = k)) hs = true).
  { intros k l Hl. apply existsb_exists. exists (k, l). split; [by apply list_elem_of_In|by apply bool_decide_eq_true]. }
  induction es as [|e es IH]; intros s; [done|]. destruct e; cbn [on_channels map List.filter channel_of].
  - rewrite (Hin _ i Hi). apply IH.
  - destruct (existsb _ hs); apply IH.
  - rewrite (Hin _ j Hj). apply IH.
Qed.
End Peers.

(** ** A concrete signal *)
Module ToySignal.
Import (hints) ConnectionManager.Plain.
(** The slots, and the next number. *)
#[export] Instance toy_signal : Signal (list nat * nat) := {|
  signal_new := ([], 0%nat);
  signal_connect s := ((s.1 ++ [s.2], S s.2), s.2);
  signal_disconnect i s := (filter (fun j => j <> i) s.1, s.2);
  signal_slots := fst;
  signal_used s := list_to_set (seq 0 s.2)
|}.
#[export] Instance toy_signal_laws : SignalLaws (list nat * nat).
Proof.
  split; try done.
  - intros [l n]. apply set_eq. intros x. cbn [signal_used signal_connect toy_signal fst snd]. rewrite elem_of_union, !elem_of_list_to_set, !elem_of_seq, elem_of_singleton. lia.
  - intros [l n]. cbn [signal_used signal_connect toy_signal fst snd]. rewrite elem_of_list_to_set, elem_of_seq. lia.
Qed.

Abbreviation toy_world := (world (Key := channel) (Sig := list nat * nat) (W := unit)).
Definition empty : toy_world := mkWorld ∅ tt.

(** The first subscriber to new connections unsubscribes itself, the second one
    throws when it sees connection 9. *)
Definition unruly (k : channel) (i : nat) (e : bus_event (Conn := nat)) (w : toy_world) : toy_world * bool :=
  match i, e with
  | 0%nat, _ => (unsubscribe (Some (k, 0%nat)) w, false)
  | 1%nat, OnNewConnection 9%nat => (w, true)
  | _, _ => (w, false)
  end.
Lemma unruly_evolves k i d w : evolves w (unruly k i d w).1.
Proof.
  destruct i as [|[|i]]; simpl; [by apply (evolves_unsubscribe (Some (k, 0%nat))), evolves_refl|..];
    destruct d as [[|[|[|[|[|[|[|[|[|[]]]]]]]]]]| |]; apply evolves_refl.
Qed.
Definition three : toy_world :=
  (subscribe NewConnectionChannel (subscribe NewConnectionChannel (subscribe NewConnectionChannel empty).1).1).1.
Lemma three_ok : bus_ok three.
Proof.
  apply (evolves_ok empty); [do 3 apply (evolves_subscribe NewConnectionChannel); apply evolves_refl|].
  intros k. unfold slots, used. simpl. rewrite lookup_empty. split; [constructor|set_solver].
Qed.

Lemma publish_exact_witness :
  let '(w', called, threw) := publish unruly NewConnectionChannel (OnNewConnection 4%nat) three in
  called `sublist_of` [0; 1; 2]%nat /\ NoDup called /\ bus_ok w'
  /\ (threw = false -> forall i, i ∈ [0; 1; 2]%nat -> i ∈ called \/ i ∉ slots NewConnectionChannel w')
  /\ (threw = true -> exists i w1, last called = Some i /\ unruly NewConnectionChannel i (OnNewConnection 4%nat) w1 = (w', true)).
Proof. exact (publish_exact unruly NewConnectionChannel (OnNewConnection 4%nat) three unruly_evolves three_ok). Defined.

(** An exception of one subscriber leaves [publish], and the next one is not called. *)
Lemma exception_hides_event :
  (publish unruly NewConnectionChannel (OnNewConnection 9%nat) three).1.2 = [0; 1]%nat
  /\ (publish unruly NewConnectionChannel (OnNewConnection 9%nat) three).2 = true.
Proof. split; vm_compute; reflexivity. Qed.

Lemma unsubscribed_never_called_witness :
  exists i, (subscribe NewConnectionChannel three).2 = Some (NewConnectionChannel, i)
    /\ heard [(NewConnectionChannel, i)]
         (publish_all unruly [(NewConnectionChannel, OnNewConnection 4%nat)]
            (unsubscribe (subscribe NewConnectionChannel three).2 (subscribe NewConnectionChannel three).1)).2 = [].
Proof.
  exact (unsubscribed_never_called unruly NewConnectionChannel three (subscribe NewConnectionChannel three).1
           (unsubscribe (subscribe NewConnectionChannel three).2 (subscribe NewConnectionChannel three).1)
           [(NewConnectionChannel, OnNewConnection 4%nat)] unruly_evolves (evolves_refl _) (evolves_refl _)).
Defined.

Definition quiet (k : channel) (i : nat) (e : bus_event (Conn := nat)) (w : toy_world) : toy_world * bool := (w, false).
Definition listener : toy_world := (subscribe PeerDisconnectedChannel (subscribe NewConnectionChannel empty).1).1.

Lemma connected_peers_over_bus_witness :
  getConnectedPeers (manager_run (fun c => [Closes c]) Plain.calls)
  ≡ₚ elements (believed Plain.peer_of
       (heard [(NewConnectionChannel, 0); (PeerDisconnectedChannel, 0)]%nat
          (publish_all quiet (on_channels (published (manager_run (fun c => [Closes c]) Plain.calls))) listener).2)).
Proof.
  apply (connected_peers_over_bus quiet Plain.peer_of (fun c => [Closes c]) Plain.calls
           [(NewConnectionChannel, 0); (PeerDisconnectedChannel, 0)]%nat 0 0 listener).
  - done.
  - apply list_elem_of_here.
  - apply list_elem_of_further, list_elem_of_here.
  - intros k i Hin. apply elem_of_cons in Hin as [E|Hin]; [|apply list_elem_of_singleton in Hin as E]; injection E as -> ->;
      apply (bool_decide_unpack _); vm_compute; exact I.
  - intros c. by repeat constructor.
  - intros c. by repeat constructor.
  - by repeat constructor.
  - by repeat constructor.
Defined.
End ToySignal.
