(* ===== verification/ListenerManager.v ===== *)
(** * Transports, listeners and inbound streams

    [src/network/transport_manager.cpp], [src/network/listener_manager.cpp] and
    the listener of the QUIC transport ([src/transport/quic/listener.cpp]).

    Listeners are pointers; [servers] tells which of them own a server, and its
    local address.  The coroutines that [ListenerManager] starts are part of its
    state: one per listener that accepts connections ([acceptors]) and one per
    connection that accepts streams ([serving]).  [coroSpawn] runs a coroutine up
    to its first suspension when it is called on the executor's own thread and
    later otherwise: the argument [immediately] of the operations that spawn.

    Addresses, the transports, binding of sockets and the trie of the [tsl]
    library are parameters; streams are the [Reader]/[Writer]s of [Stream], and
    negotiation is that of [Multiselect]. *)

From S2P Require Import Prelude Varint Stream Multiselect AddressRepository ConnectionManager.

(** [shared_ptr<BaseProtocol>]; [nullptr] is [None]. *)
Abbreviation Handler := (option nat).
Abbreviation ListenerPtr := nat.
Abbreviation Protocols := (gmap ProtocolName Handler).

(** The parts of the program's environment these components use. *)
Class Network (Addr Conn Transport E : Type) `{Countable Addr, Countable Conn} := {
  canDial : Transport -> Addr -> bool;
  asQuic : Addr -> outcome E unit;
  remotePeer : Conn -> PeerId;
  (** [unordered_map] of listeners *)
  order_listeners : gmap Addr ListenerPtr -> list (Addr * ListenerPtr);
  (** [tsl::htrie_map]: iteration, [longest_prefix] and [equal_prefix_range]. *)
  order_protocols : Protocols -> list (ProtocolName * Handler);
  longest_prefix : Protocols -> ProtocolName -> option (ProtocolName * Handler);
  equal_prefix_range : Protocols -> bytes -> list (ProtocolName * Handler)
}.
Class NetworkLaws (Addr Conn Transport E : Type) `{Network Addr Conn Transport E} := {
  order_listeners_perm m : order_listeners m ≡ₚ map_to_list m;
  order_protocols_perm m : order_protocols m ≡ₚ map_to_list m;
  (** The entry with the longest key that is a prefix of the argument. *)
  longest_prefix_some m p k h :
    longest_prefix m p = Some (k, h) ->
    m !! k = Some h /\ k `prefix_of` p /\
    forall k' h', m !! k' = Some h' -> k' `prefix_of` p -> (length k' <= length k)%nat;
  longest_prefix_none m p : longest_prefix m p = None -> forall k h, m !! k = Some h -> ~ k `prefix_of` p
}.

(** ** [TransportManager] *)

Section TransportManager.
Context {Addr Conn Transport E : Type} `{Network Addr Conn Transport E}.

Definition getAll (transports_ : list Transport) : list Transport := transports_.
Definition clear (transports_ : list Transport) : list Transport := [].
(** [nullptr] is [None]. *)
Definition findBest (transports_ : list Transport) (ma : Addr) : option Transport :=
  snd <$> list_find (fun t => canDial t ma = true) transports_.
End TransportManager.

(** ** [ListenerManager] *)

Section ListenerManager.
Context {Addr Conn Transport E : Type} `{Network Addr Conn Transport E} `{!Traversal Conn}.

(** [std::errc] and errors of the network. *)
Inductive listen_error :=
| address_family_not_supported
| address_in_use
| invalid_argument
| already_connected
| not_connected
| CANT_CREATE_CONNECTION
| NetError (e : E).

(** [Error::NO_HANDLER_FOUND] *)
Inductive protocol_error := NO_HANDLER_FOUND.

(** A coroutine of [listen]: not yet run, or waiting in [asyncAccept]. *)
Inductive acceptor := Spawned | Accepting.
#[export] Instance acceptor_eq_dec : EqDecision acceptor.
Proof. solve_decision. Defined.

Record ListenerManager := mkListenerManager {
  started : bool;
  listeners_ : gmap Addr ListenerPtr;
  protocols_ : Protocols;
  tmgr_ : list Transport;
  cmgr_ : ConnectionManager (Conn := Conn);
  servers : gmap ListenerPtr Addr;
  next_listener : ListenerPtr;
  acceptors : gmap ListenerPtr acceptor;
  serving : list (PeerId * Conn)
}.

Definition set_started (b : bool) (s : ListenerManager) : ListenerManager :=
  mkListenerManager b (listeners_ s) (protocols_ s) (tmgr_ s) (cmgr_ s) (servers s) (next_listener s)
    (acceptors s) (serving s).
Definition set_listeners (ls : gmap Addr ListenerPtr) (s : ListenerManager) : ListenerManager :=
  mkListenerManager (started s) ls (protocols_ s) (tmgr_ s) (cmgr_ s) (servers s) (next_listener s)
    (acceptors s) (serving s).
Definition set_protocols (ps : Protocols) (s : ListenerManager) : ListenerManager :=
  mkListenerManager (started s) (listeners_ s) ps (tmgr_ s) (cmgr_ s) (servers s) (next_listener s)
    (acceptors s) (serving s).
Definition set_cmgr (m : ConnectionManager (Conn := Conn)) (s : ListenerManager) : ListenerManager :=
  mkListenerManager (started s) (listeners_ s) (protocols_ s) (tmgr_ s) m (servers s) (next_listener s)
    (acceptors s) (serving s).
Definition set_servers (sv : gmap ListenerPtr Addr) (s : ListenerManager) : ListenerManager :=
  mkListenerManager (started s) (listeners_ s) (protocols_ s) (tmgr_ s) (cmgr_ s) sv (next_listener s)
    (acceptors s) (serving s).
Definition set_acceptors (a : gmap ListenerPtr acceptor) (s : ListenerManager) : ListenerManager :=
  mkListenerManager (started s) (listeners_ s) (protocols_ s) (tmgr_ s) (cmgr_ s) (servers s)
    (next_listener s) a (serving s).
Definition set_serving (l : list (PeerId * Conn)) (s : ListenerManager) : ListenerManager :=
  mkListenerManager (started s) (listeners_ s) (protocols_ s) (tmgr_ s) (cmgr_ s) (servers s)
    (next_listener s) (acceptors s) l.

Definition isStarted (s : ListenerManager) : bool := started s.

(** *** [QuicListener] *)

(** [listen]; [bind]: open the socket and start the engine, with its local address. *)
Definition quic_listen (bind : Addr -> outcome E Addr) (l : ListenerPtr) (address : Addr)
    (s : ListenerManager) : ListenerManager * outcome listen_error unit :=
  match asQuic address with
  | failure e => (s, failure (NetError e))
  | success _ =>
      match servers s !! l with
      | Some _ => (s, failure already_connected)
      | None =>
          match bind address with
          | failure e => (s, failure (NetError e))
          | success local => (set_servers (<[l := local]> (servers s)) s, success tt)
          end
      end
  end.
Definition quic_isClosed (l : ListenerPtr) (s : ListenerManager) : bool :=
  bool_decide (servers s !! l = None).
Definition quic_close (l : ListenerPtr) (s : ListenerManager) :
    ListenerManager * outcome listen_error unit :=
  (set_servers (delete l (servers s)) s, success tt).
Definition getListenMultiaddr (l : ListenerPtr) (s : ListenerManager) : outcome listen_error Addr :=
  match servers s !! l with Some a => success a | None => failure not_connected end.
(** [asyncAccept] up to its suspension: it waits for the server, if there is one. *)
Definition quic_canAccept (l : ListenerPtr) (s : ListenerManager) : bool :=
  negb (bool_decide (servers s !! l = None)).

(** *** Listening *)

(** [listener->close()] unless it is closed. *)
Definition close_open (l : ListenerPtr) (s : ListenerManager) :
    ListenerManager * outcome listen_error unit :=
  if negb (quic_isClosed l s) then quic_close l s else (s, success tt).

(** The search across interface addresses; erasing [end()] is undefined, [None]. *)
Fixpoint close_by_interface (ma : Addr) (l : list (Addr * ListenerPtr)) (s : ListenerManager) :
    option (ListenerManager * outcome listen_error unit) :=
  match l with
  | [] => Some (s, failure invalid_argument)
  | (_, listener) :: l =>
      match getListenMultiaddr listener s with
      | failure _ => close_by_interface ma l s
      | success addr => if decide (addr = ma) then None else close_by_interface ma l s
      end
  end.
Definition closeListener (ma : Addr) (s : ListenerManager) :
    option (ListenerManager * outcome listen_error unit) :=
  match listeners_ s !! ma with
  | Some listener => Some (close_open listener (set_listeners (delete ma (listeners_ s)) s))
  | None => close_by_interface ma (order_listeners (listeners_ s)) s
  end.

Definition removeListener (ma : Addr) (s : ListenerManager) :
    ListenerManager * outcome listen_error unit :=
  match listeners_ s !! ma with
  | Some _ => (set_listeners (delete ma (listeners_ s)) s, success tt)
  | None => (s, failure invalid_argument)
  end.

(** The loop of [start]: an address that can not be listened on is removed. *)
Fixpoint start_each (bind : Addr -> outcome E Addr) (l : list (Addr * ListenerPtr))
    (s : ListenerManager) : ListenerManager :=
  match l with
  | [] => s
  | (ma, listener) :: l =>
      match quic_listen bind listener ma s with
      | (s, failure _) => start_each bind l (set_listeners (delete ma (listeners_ s)) s)
      | (s, success _) => start_each bind l s
      end
  end.
Definition start (bind : Addr -> outcome E Addr) (s : ListenerManager) : ListenerManager :=
  if started s then s
  else set_started true (start_each bind (order_listeners (listeners_ s)) s).

Fixpoint stop_each (l : list (Addr * ListenerPtr)) (s : ListenerManager) : ListenerManager :=
  match l with
  | [] => s
  | (ma, listener) :: l =>
      match quic_close listener s with
      | (s, failure _) => stop_each l (set_listeners (delete ma (listeners_ s)) s)
      | (s, success _) => stop_each l s
      end
  end.
Definition stop (s : ListenerManager) : ListenerManager :=
  if negb (started s) then s
  else set_started false (stop_each (order_listeners (listeners_ s)) s).

(** The head of the accepting loop: [co_await listener->asyncAccept()]. *)
Definition acceptor_waits (l : ListenerPtr) (s : ListenerManager) : ListenerManager :=
  if quic_canAccept l s then set_acceptors (<[l := Accepting]> (acceptors s)) s
  else set_acceptors (delete l (acceptors s)) s.

(** [tr->createListener()] and the coroutine around it. *)
Definition create_listener (immediately : bool) (s : ListenerManager) : ListenerManager * ListenerPtr :=
  let l := next_listener s in
  let s := mkListenerManager (started s) (listeners_ s) (protocols_ s) (tmgr_ s) (cmgr_ s) (servers s)
             (S l) (<[l := Spawned]> (acceptors s)) (serving s) in
  (if immediately then acceptor_waits l s else s, l).

Definition listen (bind : Addr -> outcome E Addr) (immediately : bool) (ma : Addr)
    (s : ListenerManager) : ListenerManager * outcome listen_error unit :=
  match findBest (tmgr_ s) ma with
  | None => (s, failure address_family_not_supported)
  | Some tr =>
      match listeners_ s !! ma with
      | Some _ => (s, failure address_in_use)
      | None =>
          let '(s, listener) := create_listener immediately s in
          let '(s, r) := if started s then quic_listen bind listener ma s else (s, success tt) in
          match r with
          | failure e => (s, failure e)
          | success _ => (set_listeners (<[ma := listener]> (listeners_ s)) s, success tt)
          end
      end
  end.

Definition getListenAddresses (s : ListenerManager) : list Addr :=
  map fst (order_listeners (listeners_ s)).
Definition getListenAddressesInterfaces (s : ListenerManager) : list Addr :=
  omap (fun e => match getListenMultiaddr e.2 s with success a => Some a | failure _ => None end)
    (order_listeners (listeners_ s)).

(** *** Protocols *)

Definition listenProtocol (protocol : Handler) (ids : list ProtocolName) (s : ListenerManager) :
    ListenerManager :=
  set_protocols
    (foldl (fun m id => match m !! id with Some _ => m | None => <[id := protocol]> m end)
       (protocols_ s) ids) s.

Definition getSupportedProtocols (s : ListenerManager) : list ProtocolName :=
  map fst (order_protocols (protocols_ s)).

(** The entry with the longest key, the first of those. *)
Fixpoint longest_match (best : option (ProtocolName * Handler)) (l : list (ProtocolName * Handler)) :
    option (ProtocolName * Handler) :=
  match l with
  | [] => best
  | m :: l =>
      longest_match
        (match best with
         | None => Some m
         | Some b => if decide (length b.1 < length m.1)%nat then Some m else best
         end) l
  end.
Definition getProtocol (p : ProtocolName) (s : ListenerManager) : outcome protocol_error Handler :=
  match longest_prefix (protocols_ s) p with
  | None => failure NO_HANDLER_FOUND
  | Some (key, protocol) =>
      if decide (key = p) then success protocol
      else
        (** two characters from [p.data()], which ends in a NUL *)
        match longest_match None (equal_prefix_range (protocols_ s) (take 2 (p ++ [0]))) with
        | None => failure NO_HANDLER_FOUND
        | Some (_, protocol) => success protocol
        end
  end.

(** *** Connections *)

(** The head of the loop that accepts streams: a closed connection is reported
    and its coroutine ends. *)
Definition serve_head (id : PeerId) (conn : Conn) (s : ListenerManager) : ListenerManager :=
  if isClosed (cmgr_ s) conn then
    set_serving (filter (fun e => e <> (id, conn)) (serving s))
      (set_cmgr (onConnectionClosed id conn (cmgr_ s)) s)
  else s.

Definition onConnection (immediately : bool) (rconn : outcome listen_error Conn)
    (s : ListenerManager) : ListenerManager :=
  match rconn with
  | failure _ => s
  | success conn =>
      let id := remotePeer conn in
      let s := set_serving ((id, conn) :: serving s) s in
      let s := if immediately then serve_head id conn s else s in
      set_cmgr (addConnectionToPeer id (Some conn) (cmgr_ s)) s
  end.

(** A coroutine of [listen] that has been given an item: [while (auto item = ...)]. *)
Definition acceptor_receives (l : ListenerPtr) (item : outcome listen_error Conn)
    (s : ListenerManager) : ListenerManager :=
  match item with
  | failure _ => set_acceptors (delete l (acceptors s)) s
  | success _ => acceptor_waits l (onConnection true item s)
  end.

(** *** Streams *)

Context {C : Type} `{!Reader C E, !Writer C E}.

(** What becomes of an inbound stream. *)
Inductive served :=
| Handled (h : nat) (protocol_ : ProtocolName)
| WasReset
| Threw.

Definition serve_stream (fuel : nat) (stream : C) (s : ListenerManager) : option (C * served) :=
  let protocols := getSupportedProtocols s in
  if decide (protocols = []) then Some (stream, WasReset)
  else
    match selectOneOf fuel protocols false true stream with
    | None => None
    | Some (stream, failure BadAccess) | Some (stream, failure (Io LogicError)) => Some (stream, Threw)
    | Some (stream, failure _) => Some (stream, WasReset)
    | Some (stream, success proto_name) =>
        match getProtocol proto_name s with
        | success (Some h) => Some (stream, Handled h proto_name)
        | success None => Some (stream, WasReset)
        | failure _ => Some (stream, WasReset)
        end
    end.

(** ** Listening *)

(** What happens to a manager. *)
Inductive listener_call :=
| Listen (bind : Addr -> outcome E Addr) (immediately : bool) (ma : Addr)
| CloseListener (ma : Addr)
| RemoveListener (ma : Addr)
| Start (bind : Addr -> outcome E Addr)
| Stop
| ListenProtocol (h : Handler) (ids : list ProtocolName)
| AcceptorRuns (l : ListenerPtr)
| AcceptorReceives (l : ListenerPtr) (item : outcome listen_error Conn)
| ServeHead (id : PeerId) (conn : Conn)
| ManagerChanges (m : ConnectionManager (Conn := Conn)).

(** [None]: undefined behaviour. *)
Definition listener_apply (s : ListenerManager) (k : listener_call) : option ListenerManager :=
  match k with
  | Listen bind immediately ma => Some (listen bind immediately ma s).1
  | CloseListener ma => fst <$> closeListener ma s
  | RemoveListener ma => Some (removeListener ma s).1
  | Start bind => Some (start bind s)
  | Stop => Some (stop s)
  | ListenProtocol h ids => Some (listenProtocol h ids s)
  | AcceptorRuns l => Some (if decide (acceptors s !! l = Some Spawned) then acceptor_waits l s else s)
  | AcceptorReceives l item =>
      Some (if decide (acceptors s !! l = Some Accepting) then acceptor_receives l item s else s)
  | ServeHead id conn => Some (serve_head id conn s)
  | ManagerChanges m => Some (set_cmgr m s)
  end.
Fixpoint listener_run (ks : list listener_call) (s : ListenerManager) : option ListenerManager :=
  match ks with
  | [] => Some s
  | k :: ks => s ← listener_apply s k; listener_run ks s
  end.
Definition ListenerManager_new (tmgr_ : list Transport) (m : ConnectionManager (Conn := Conn)) :
    ListenerManager := mkListenerManager false ∅ ∅ tmgr_ m ∅ 0 ∅ [].

(** Distinct addresses have distinct listeners, older than the next one, and a
    registered listener owns a server exactly when the manager is started. *)
Record listeners_ok (s : ListenerManager) : Prop := {
  listeners_inj a b l : listeners_ s !! a = Some l -> listeners_ s !! b = Some l -> a = b;
  listeners_old a l : listeners_ s !! a = Some l -> (l < next_listener s)%nat;
  servers_old l a : servers s !! l = Some a -> (l < next_listener s)%nat;
  listeners_bound a l : listeners_ s !! a = Some l -> (is_Some (servers s !! l) <-> started s = true)
}.

(** The parts of the state [listeners_ok] speaks of. *)
Definition same_listeners (s s' : ListenerManager) : Prop :=
  started s' = started s /\ listeners_ s' = listeners_ s /\ servers s' = servers s
  /\ next_listener s' = next_listener s.

Lemma same_listeners_ok s s' : same_listeners s s' -> listeners_ok s -> listeners_ok s'.
Proof.
  intros (Hst & Hl & Hs & Hn) [Hi Ho Hso Hb].
  split; intros *; rewrite ?Hst, ?Hl, ?Hs, ?Hn; eauto.
Qed.

Lemma serve_head_same id conn s : same_listeners s (serve_head id conn s).
Proof. unfold serve_head. by destruct (isClosed _ _). Qed.

Lemma acceptor_waits_same l s : same_listeners s (acceptor_waits l s).
Proof. unfold acceptor_waits. by destruct (quic_canAccept l s). Qed.

Lemma same_listeners_trans s s' s'' :
  same_listeners s s' -> same_listeners s' s'' -> same_listeners s s''.
Proof. unfold same_listeners. intuition congruence. Qed.

Lemma onConnection_same b r s : same_listeners s (onConnection b r s).
Proof.
  destruct r as [conn|]; [|done]. unfold onConnection.
  destruct b; [|done]. eapply same_listeners_trans; [|by split].
  exact (serve_head_same (remotePeer conn) conn (set_serving ((remotePeer conn, conn) :: serving s) s)).
Qed.

Lemma acceptor_receives_same l item s : same_listeners s (acceptor_receives l item s).
Proof.
  destruct item as [conn|]; [|done]. cbn [acceptor_receives].
  eapply same_listeners_trans; [apply onConnection_same|apply acceptor_waits_same].
Qed.

(** The loops of [start] and [stop], with the entries [l] still to visit. *)
Definition visiting (Q : option Addr -> Prop) (l : list (Addr * ListenerPtr)) (s : ListenerManager) :
    Prop :=
  (forall a b x, listeners_ s !! a = Some x -> listeners_ s !! b = Some x -> a = b)
  /\ (forall a x, (a, x) ∈ l -> listeners_ s !! a = Some x)
  /\ (forall a x, listeners_ s !! a = Some x -> (x < next_listener s)%nat)
  /\ (forall x a, servers s !! x = Some a -> (x < next_listener s)%nat)
  /\ (forall a x, listeners_ s !! a = Some x -> (a, x) ∉ l -> Q (servers s !! x)).

Lemma start_each_visits bind l s :
  NoDup l.*1 -> visiting is_Some l s -> (forall a x, (a, x) ∈ l -> servers s !! x = None) ->
  visiting is_Some [] (start_each bind l s).
Proof.
  revert s. induction l as [|[ma x] l IH]; intros s Hnd Hv Hnone; [done|].
  rewrite fmap_cons in Hnd. apply NoDup_cons in Hnd as [Hma Hnd]. destruct Hv as (Hi & Hin & Ho & Hso & Hq).
  assert (forall y, (ma, y) ∉ l) as Hma'
    by (intros y Hy; apply Hma, list_elem_of_fmap; by exists (ma, y)).
  assert (listeners_ s !! ma = Some x) as Hx by (apply Hin; set_solver).
  cbn [start_each]. destruct (quic_listen bind x ma s) as [s' [[]|e]] eqn:Hql; unfold quic_listen in Hql.
  - destruct (asQuic ma) as [[]|]; [|done]. rewrite (Hnone ma x) in Hql by set_solver.
    destruct (bind ma) as [local|]; [|done]. injection Hql as <-.
    assert (forall a y, (a, y) ∈ l -> y <> x) as Hne.
    { intros a y Hay ->. apply (Hma' x). rewrite (Hi ma a x); [done|done|apply Hin; set_solver]. }
    apply IH; [done| |].
    + split_and!; cbn; try done.
      * intros a y Hay. apply Hin. set_solver.
      * intros y a [[<- _]|[_ Hy]]%lookup_insert_Some; [eauto|eauto].
      * intros a y Hay Hnin. destruct (decide (y = x)) as [->|Hyx].
        { rewrite lookup_insert_eq. by eexists. }
        rewrite lookup_insert_ne by done. apply (Hq a y); [done|].
        rewrite elem_of_cons. naive_solver.
    + intros a y Hay. cbn. rewrite lookup_insert_ne by (intros ->; by eapply Hne).
      apply (Hnone a). set_solver.
  - assert (s' = s) as -> by (repeat case_match; congruence).
    apply IH; [done| |].
    + split_and!; cbn.
      * intros a b y [_ Ha]%lookup_delete_Some [_ Hb]%lookup_delete_Some. eauto.
      * intros a y Hay. apply lookup_delete_Some. split; [intros <-; by eapply Hma'|].
        apply Hin. set_solver.
      * intros a y [_ Ha]%lookup_delete_Some. eauto.
      * eauto.
      * intros a y [Hne Ha]%lookup_delete_Some Hnin. apply (Hq a y); [done|].
        rewrite elem_of_cons. naive_solver.
    + intros a y Hay. cbn. apply (Hnone a). set_solver.
Qed.

Lemma stop_each_visits l s :
  visiting (fun o => o = None) l s -> visiting (fun o => o = None) [] (stop_each l s).
Proof.
  revert s. induction l as [|[ma x] l IH]; intros s (Hi & Hin & Ho & Hso & Hq); [done|].
  cbn [stop_each quic_close]. apply IH. split_and!; cbn; try done.
  - intros a y Hay. apply Hin. set_solver.
  - intros y a [_ Hy]%lookup_delete_Some. eauto.
  - intros a y Hay Hnin. destruct (decide (y = x)) as [->|Hyx]; [apply lookup_delete_eq|].
    rewrite lookup_delete_ne by done. apply (Hq a y); [done|]. rewrite elem_of_cons. naive_solver.
Qed.

Section ListenerLaws.
Context `{!NetworkLaws Addr Conn Transport E}.

Lemma ordered_listeners_spec (m : gmap Addr ListenerPtr) :
  NoDup (order_listeners m).*1 /\ forall a x, (a, x) ∈ order_listeners m <-> m !! a = Some x.
Proof.
  split; [rewrite order_listeners_perm; apply NoDup_fst_map_to_list|].
  intros a x. rewrite order_listeners_perm. apply elem_of_map_to_list.
Qed.

Lemma start_each_frame bind l s :
  next_listener (start_each bind l s) = next_listener s /\ started (start_each bind l s) = started s.
Proof.
  revert s. induction l as [|[ma x] l IH]; intros s; [done|]. cbn [start_each].
  unfold quic_listen. repeat case_match; simplify_eq; rewrite ?(proj1 (IH _)), ?(proj2 (IH _)); done.
Qed.

Lemma stop_each_frame l s : next_listener (stop_each l s) = next_listener s.
Proof. revert s. induction l as [|[ma x] l IH]; intros s; [done|]. cbn. by rewrite IH. Qed.

Lemma visited_ok (Q : option Addr -> Prop) b s :
  visiting Q [] s -> (forall o, Q o -> is_Some o <-> b = true) -> listeners_ok (set_started b s).
Proof.
  intros (Hi & _ & Ho & Hso & Hq) HQ. split; cbn; eauto.
  intros a l Ha. apply HQ, (Hq a l Ha). set_solver.
Qed.

Lemma start_ok bind s : listeners_ok s -> listeners_ok (start bind s).
Proof.
  intros Hok. unfold start. destruct (started s) eqn:Hst; [done|]. destruct Hok as [Hi Ho Hso Hb].
  destruct (ordered_listeners_spec (listeners_ s)) as [Hnd Hel].
  apply (visited_ok is_Some); [|naive_solver].
  apply start_each_visits; [done| |].
  - split_and!; eauto; [naive_solver|]. intros a x Ha Hn. by destruct Hn; apply Hel.
  - intros a x Hax%Hel. apply Hb in Hax. rewrite Hst in Hax.
    destruct (servers s !! x); [|done]. naive_solver.
Qed.

Lemma stop_ok s : listeners_ok s -> listeners_ok (stop s).
Proof.
  intros Hok. unfold stop. destruct (started s) eqn:Hst; [|done]. destruct Hok as [Hi Ho Hso Hb].
  destruct (ordered_listeners_spec (listeners_ s)) as [Hnd Hel]. cbn [negb].
  apply (visited_ok (fun o => o = None)); [|intros o ->; split; [by intros []|done]].
  apply stop_each_visits. split_and!; eauto; [naive_solver|].
  intros a x Ha Hn. by destruct Hn; apply Hel.
Qed.

Lemma delete_listener_ok ma s :
  listeners_ok s -> listeners_ok (set_listeners (delete ma (listeners_ s)) s).
Proof.
  intros [Hi Ho Hso Hb]. split; cbn; try setoid_rewrite lookup_delete_Some; naive_solver.
Qed.

Lemma closeListener_ok ma s s' r :
  listeners_ok s -> closeListener ma s = Some (s', r) -> listeners_ok s'.
Proof.
  intros Hok. unfold closeListener. destruct (listeners_ s !! ma) as [l|] eqn:Hl.
  - intros Heq.
    assert (forall a, delete ma (listeners_ s) !! a <> Some l) as Hgone.
    { intros a [Hne Ha]%lookup_delete_Some. apply Hne. by apply (listeners_inj s Hok _ _ l). }
    pose proof (delete_listener_ok ma s Hok) as [Hi Ho Hso Hb]. unfold close_open in Heq.
    destruct (quic_isClosed _ _); cbn in Heq; injection Heq as <- <-; [by split|].
    split; cbn in *; eauto.
    + intros x a [_ Hx]%lookup_delete_Some. eauto.
    + intros a x Ha. rewrite lookup_delete_ne by (intros ->; by eapply Hgone). eauto.
  - generalize (order_listeners (listeners_ s)). induction l as [|[a x] l IH]; cbn.
    + by intros [= <- _].
    + destruct (getListenMultiaddr x s); [by case_decide|done].
Qed.

Lemma listen_ok bind immediately ma s : listeners_ok s -> listeners_ok (listen bind immediately ma s).1.
Proof.
  intros Hok. unfold listen. destruct (findBest _ ma); [|done].
  destruct (listeners_ s !! ma) as [?|] eqn:Hma; [done|].
  destruct (create_listener immediately s) as [s1 l] eqn:Hc.
  assert (l = next_listener s /\ started s1 = started s /\ listeners_ s1 = listeners_ s
          /\ servers s1 = servers s /\ next_listener s1 = S l) as (-> & Hst & Hl & Hsv & Hn).
  { unfold create_listener in Hc. injection Hc as <- <-. destruct immediately; [|done].
    match goal with |- context [acceptor_waits ?l ?s] => destruct (acceptor_waits_same l s) as (?&?&?&?) end.
    done. }
  destruct Hok as [Hi Ho Hso Hb].
  assert (servers s !! next_listener s = None) as Hfresh.
  { apply eq_None_not_Some. intros [a Ha]. apply Hso in Ha. lia. }
  assert (forall a, listeners_ s !! a <> Some (next_listener s)) as Hnew
    by (intros a Ha%Ho; lia).
  assert (listeners_ok s1) as Hok1.
  { split; intros *; rewrite ?Hst, ?Hl, ?Hsv, ?Hn; [apply Hi| | |apply Hb].
    - intros Ha%Ho. lia.
    - intros Ha%Hso. lia. }
  destruct (if started s1 then _ else _) as [s2 [[]|e]] eqn:Hq; cbn.
  2: { destruct (started s1); [|done]. unfold quic_listen in Hq. repeat case_match; simplify_eq; done. }
  assert (listeners_ s2 = listeners_ s /\ next_listener s2 = S (next_listener s)
          /\ started s2 = started s
          /\ (forall x, x <> next_listener s -> servers s2 !! x = servers s !! x)
          /\ (is_Some (servers s2 !! next_listener s) <-> started s = true)) as (Hl2 & Hn2 & Hst2 & Hs2 & Hb2).
  { rewrite Hst in Hq. destruct (started s) eqn:Hs.
    - unfold quic_listen in Hq. repeat case_match; simplify_eq. cbn.
      rewrite lookup_insert_eq, Hl, Hn, Hst. split_and!; try done.
      intros x Hx. rewrite lookup_insert_ne by done. by rewrite Hsv.
    - simplify_eq. rewrite Hl, Hn, Hst, Hsv. split_and!; try done. rewrite Hfresh.
      split; [by intros []|done]. }
  split; cbn; rewrite ?Hl2, ?Hn2, ?Hst2.
  - intros a b x. rewrite !lookup_insert_Some. naive_solver.
  - intros a x [[_ <-]|[_ Ha%Ho]]%lookup_insert_Some; lia.
  - intros x a Hx. destruct (decide (x = next_listener s)); [lia|]. rewrite Hs2 in Hx by done.
    apply Hso in Hx. lia.
  - intros a x [[_ <-]|[_ Ha]]%lookup_insert_Some; [done|].
    rewrite Hs2 by (intros ->; by eapply Hnew). by eapply Hb.
Qed.

Lemma listener_apply_ok s k s' : listeners_ok s -> listener_apply s k = Some s' -> listeners_ok s'.
Proof.
  intros Hok. destruct k; cbn [listener_apply].
  2: { intros Heq. destruct (closeListener ma s) as [[s1 r]|] eqn:Hc; [|done]. injection Heq as <-.
       by eapply closeListener_ok. }
  all: intros [= <-].
  - by apply listen_ok.
  - unfold removeListener. destruct (listeners_ s !! ma); [by apply delete_listener_ok|done].
  - by apply start_ok.
  - by apply stop_ok.
  - by eapply same_listeners_ok; [|exact Hok].
  - case_decide; [|done]. eapply same_listeners_ok; [apply acceptor_waits_same|done].
  - case_decide; [|done]. eapply same_listeners_ok; [apply acceptor_receives_same|done].
  - eapply same_listeners_ok; [apply serve_head_same|done].
  - by eapply same_listeners_ok; [|exact Hok].
Qed.

Lemma listener_run_ok ks s s' : listeners_ok s -> listener_run ks s = Some s' -> listeners_ok s'.
Proof.
  revert s. induction ks as [|k ks IH]; intros s Hok; cbn; [by intros [= <-]|].
  intros (s1 & Hk & Hr)%bind_Some. eapply IH; [|done]. by eapply listener_apply_ok.
Qed.

Lemma listeners_new_ok tmgr_ m : listeners_ok (ListenerManager_new tmgr_ m).
Proof. split; cbn; intros *; rewrite ?lookup_empty; done. Qed.

(** An address is listened on exactly while it is registered and the manager
    is started.  After any calls, successful or not, in any order, a registered
    listener owns a server if and only if the manager is started, and the
    interface addresses reported are one per registered address, or none. *)
Theorem registered_iff_listening tmgr_ m ks s :
  listener_run ks (ListenerManager_new tmgr_ m) = Some s ->
  (forall ma l, listeners_ s !! ma = Some l -> (is_Some (servers s !! l) <-> started s = true))
  /\ length (getListenAddressesInterfaces s)
     = if started s then length (getListenAddresses s) else 0%nat.
Proof.
  intros Hrun. apply listener_run_ok in Hrun as [Hi Ho Hso Hb]; [|apply listeners_new_ok].
  split; [done|]. unfold getListenAddressesInterfaces, getListenAddresses. rewrite length_map.
  assert (Forall (fun e => is_Some (servers s !! e.2) <-> started s = true)
            (order_listeners (listeners_ s))) as Hall.
  { apply Forall_forall. intros [ma l] Hin. apply (Hb ma), ordered_listeners_spec, Hin. }
  induction Hall as [|[ma l] es He _ IH]; [by destruct (started s)|]. cbn in *.
  unfold getListenMultiaddr. destruct (servers s !! l).
  - rewrite (proj1 He) in * by done. cbn. f_equal. exact IH.
  - destruct (started s); [|done]. destruct (proj2 He eq_refl). done.
Qed.

(** ** Accepting connections *)

(** The items the server of [l] produces, handed to the coroutine while it waits. *)
Definition deliver (l : ListenerPtr) (items : list (outcome listen_error Conn)) (s : ListenerManager) :
    ListenerManager :=
  foldl (fun s item => if decide (acceptors s !! l = Some Accepting) then acceptor_receives l item s
                       else s) s items.

Lemma deliver_ended l items s : acceptors s !! l = None -> deliver l items s = s.
Proof.
  intros Hl. unfold deliver. induction items as [|i items IH]; [done|]. cbn.
  by rewrite decide_False by congruence.
Qed.

(** An open connection: it is served and stored, and the loop waits again. *)
Lemma receive_open l c s local :
  servers s !! l = Some local -> c ∉ closed (cmgr_ s) ->
  let s' := acceptor_receives l (success c) s in
  acceptors s' !! l = Some Accepting /\ same_listeners s s'
  /\ serving s' = (remotePeer c, c) :: serving s
  /\ cmgr_ s' = addConnectionToPeer (remotePeer c) (Some c) (cmgr_ s).
Proof.
  intros Hsv Hc. cbn [acceptor_receives]. cbv zeta.
  split_and!; [|apply (acceptor_receives_same l (success c))| |]; unfold onConnection, serve_head;
    cbn [cmgr_ set_serving]; unfold isClosed; rewrite bool_decide_false by done;
    unfold acceptor_waits, quic_canAccept; cbn; rewrite Hsv; cbn; [|done|done].
  apply lookup_insert_eq.
Qed.

Lemma deliver_open l conns items s local :
  acceptors s !! l = Some Accepting -> servers s !! l = Some local ->
  Forall (fun c => c ∉ closed (cmgr_ s)) conns ->
  exists s', deliver l (map success conns ++ items) s = deliver l items s'
    /\ acceptors s' !! l = Some Accepting /\ same_listeners s s'
    /\ published (cmgr_ s') = published (cmgr_ s) ++ map OnNewConnection conns.
Proof.
  revert s. induction conns as [|c conns IH]; intros s Ha Hsv Hc.
  { exists s. by rewrite app_nil_r. }
  apply Forall_cons in Hc as [Hc Hcs].
  destruct (receive_open l c s local Hsv Hc) as (Ha' & Hsame & _ & Hm).
  set (s1 := acceptor_receives l (success c) s) in *.
  destruct (IH s1) as (s2 & Hd & Ha2 & Hsame2 & Hp).
  - done.
  - destruct Hsame as (_ & _ & -> & _). done.
  - by rewrite Hm.
  - exists s2. split_and!; [|done|by eapply same_listeners_trans|].
    + rewrite <- Hd. unfold deliver. cbn [map app foldl]. by rewrite decide_True.
    + rewrite Hp, Hm. cbn. by rewrite <- app_assoc.
Qed.

(** One failed handshake ends accepting on a listener for good.  Connections
    delivered before it are announced; the failure ends the coroutine although the
    listener stays registered and its server open, and whatever follows, also
    good connections, is not taken. *)
Theorem failed_handshake_stops_accepting l conns e rest s local :
  acceptors s !! l = Some Accepting -> servers s !! l = Some local ->
  Forall (fun c => c ∉ closed (cmgr_ s)) conns ->
  let s' := deliver l (map success conns ++ failure e :: rest) s in
  acceptors s' !! l = None /\ servers s' !! l = Some local /\ listeners_ s' = listeners_ s
  /\ published (cmgr_ s') = published (cmgr_ s) ++ map OnNewConnection conns.
Proof.
  intros Ha Hsv Hc. destruct (deliver_open l conns (failure e :: rest) s local Ha Hsv Hc)
    as (s1 & Hd & Ha1 & (Hst & Hl & Hs & Hn) & Hp).
  rewrite Hd. cbv zeta. unfold deliver at 1 2 3 4. cbn [foldl]. rewrite decide_True by done.
  cbn [acceptor_receives]. fold (deliver l rest (set_acceptors (delete l (acceptors s1)) s1)).
  rewrite deliver_ended by apply lookup_delete_eq. cbn.
  rewrite lookup_delete_eq, Hs, Hl, Hp. done.
Qed.

(** A started manager accepts on a new address only if [listen] was not called
    on the executor's thread.  In both cases [listen] succeeds, the address is
    registered and the server runs; but on that thread the coroutine runs before
    the server exists, fails and ends, so that nothing accepts. *)
Theorem listen_accepts_only_off_thread bind ma s tr local :
  listeners_ok s -> started s = true -> findBest (tmgr_ s) ma = Some tr -> listeners_ s !! ma = None ->
  asQuic ma = success tt -> bind ma = success local ->
  let l := next_listener s in
  (exists s', listen bind true ma s = (s', success tt) /\ listeners_ s' !! ma = Some l
     /\ servers s' !! l = Some local /\ acceptors s' !! l = None)
  /\ (exists s', listen bind false ma s = (s', success tt) /\ listeners_ s' !! ma = Some l
     /\ servers s' !! l = Some local /\ acceptors (acceptor_waits l s') !! l = Some Accepting).
Proof.
  intros Hok Hst Htr Hma Hq Hbind l.
  assert (servers s !! l = None) as Hfresh.
  { apply eq_None_not_Some. intros [a Ha]. apply (servers_old s Hok) in Ha. unfold l in Ha. lia. }
  split; unfold listen, create_listener; rewrite Htr, Hma; cbn [fst snd]; fold l;
    unfold acceptor_waits, quic_canAccept; cbn; rewrite ?Hfresh; cbn; rewrite Hst;
    unfold quic_listen; rewrite Hq; cbn; rewrite Hfresh, Hbind; eexists; split_and!; try done; cbn;
    rewrite ?lookup_insert_eq; cbn; rewrite ?lookup_insert_eq, ?lookup_delete_eq; done.
Qed.

(** Closing a listener by its interface address has undefined behaviour: the code
    erases the end iterator of the lookup that failed. *)
Theorem close_by_interface_undefined key l ma s :
  listeners_ s !! key = Some l -> servers s !! l = Some ma -> listeners_ s !! ma = None ->
  closeListener ma s = None.
Proof.
  intros Hk Hs Hma. unfold closeListener. rewrite Hma.
  apply (ordered_listeners_spec (listeners_ s)) in Hk.
  induction (order_listeners (listeners_ s)) as [|[a x] es IH]; [set_solver|]. cbn.
  unfold getListenMultiaddr. apply elem_of_cons in Hk as [Heq|Hk].
  - injection Heq as <- <-. rewrite Hs. by rewrite decide_True.
  - destruct (servers s !! x); [case_decide; [done|]|]; by apply IH.
Qed.

(** A connection that is closed when it is handed over is stored after its
    closure has been reported, and no coroutine is left to report it again. *)
Theorem closed_connection_is_kept c s :
  c ∈ closed (cmgr_ s) -> (remotePeer c, c) ∉ serving s ->
  connections_ (cmgr_ s) !! remotePeer c = None ->
  let s' := onConnection true (success c) s in
  connections_ (cmgr_ s') !! remotePeer c = Some {[c]} /\ (remotePeer c, c) ∉ serving s'
  /\ published (cmgr_ s') = published (cmgr_ s) ++ [OnNewConnection c].
Proof.
  intros Hc Hserv Hp. unfold onConnection, serve_head. cbn [cmgr_ set_serving].
  unfold isClosed. rewrite bool_decide_true by done.
  assert (onConnectionClosed (remotePeer c) c (cmgr_ s) = cmgr_ s) as Hsame
    by (unfold onConnectionClosed; rewrite Hp; by case_decide).
  cbn [cmgr_ set_serving set_cmgr serving]. rewrite Hsame.
  cbn [addConnectionToPeer publish set_connections connections_ published cmgr_ set_cmgr set_serving
       serving]. rewrite Hp. split_and!.
  - apply lookup_insert_eq.
  - rewrite list_elem_of_filter. naive_solver.
  - done.
Qed.
End ListenerLaws.

(** ** Protocols and streams *)

Section Protocols.
Context `{!NetworkLaws Addr Conn Transport E}.

Lemma getProtocol_registered p h s : protocols_ s !! p = Some h -> getProtocol p s = success h.
Proof.
  intros Hp. unfold getProtocol. destruct (longest_prefix (protocols_ s) p) as [[k h']|] eqn:Hl.
  - apply longest_prefix_some in Hl as (Hk & Hpre & Hmax).
    pose proof (Hmax p h Hp ltac:(reflexivity)) as Hlen.
    assert (k = p) as ->.
    { destruct Hpre as [r ->]. rewrite length_app in Hlen.
      destruct r; [by rewrite app_nil_r|cbn in Hlen; lia]. }
    rewrite decide_True by done. congruence.
  - by eapply longest_prefix_none in Hl.
Qed.

Lemma supported_registered p s :
  p ∈ getSupportedProtocols s <-> is_Some (protocols_ s !! p).
Proof.
  unfold getSupportedProtocols. change (map fst) with (fmap (M := list) (@fst ProtocolName Handler)).
  rewrite order_protocols_perm, list_elem_of_fmap. split.
  - intros ([q h] & -> & Hq%elem_of_map_to_list). by exists h.
  - intros [h Hp%elem_of_map_to_list]. by exists (p, h).
Qed.

(** The branch taken after the negotiation. *)
Lemma serve_negotiated fuel (stream stream' : C) s p h :
  selectOneOf fuel (getSupportedProtocols s) false true stream = Some (stream', success p) ->
  protocols_ s !! p = Some (Some h) -> serve_stream fuel stream s = Some (stream', Handled h p).
Proof.
  intros Hsel Hp. unfold serve_stream. rewrite decide_False.
  - by rewrite Hsel, (getProtocol_registered p (Some h)).
  - intros Hnil. pose proof (proj2 (supported_registered p s) ltac:(by eexists)) as Hin.
    rewrite Hnil in Hin. set_solver.
Qed.

(** C28: an inbound stream only ever reaches the handler of the protocol that was
    negotiated.  Whatever the remote end sends, the handler called is the one
    registered under the agreed name, exactly: the prefix matching of
    [getProtocol] never picks another one. *)
Theorem stream_reaches_registered_handler fuel (stream stream' : C) s h p :
  serve_stream fuel stream s = Some (stream', Handled h p) ->
  protocols_ s !! p = Some (Some h)
  /\ selectOneOf fuel (getSupportedProtocols s) false true stream = Some (stream', success p).
Proof.
  unfold serve_stream. case_decide; [done|].
  destruct (selectOneOf _ _ _ _ _) as [[st [q|e]]|] eqn:Hsel; [| |done].
  - pose proof (selectOneOf_sound _ _ _ _ _ _ _ Hsel) as Hq.
    apply supported_registered in Hq as [hq Hq]. rewrite (getProtocol_registered _ _ _ Hq).
    destruct hq; [|done]. by intros [= -> -> ->].
  - destruct e as [e|[]|]; done.
Qed.

Context `{!Duplex C E}.

(** A remote end that follows the protocol gets the handler it asked for.
    After proposals the node does not support, each refused, the first supported
    one is acknowledged and its handler gets the stream, with everything behind
    the negotiation still unread. *)
Theorem proposals_reach_handler fuel (stream : C) s ps q h rest :
  Forall (fun p => sendable p /\ protocols_ s !! p = None) ps ->
  sendable q -> protocols_ s !! q = Some (Some h) ->
  pending stream = frame kProtocolId ++ concat (map frame ps) ++ frame q ++ rest ->
  (length ps < fuel)%nat ->
  exists stream', serve_stream fuel stream s = Some (stream', Handled h q) /\ pending stream' = rest
    /\ written stream' = written stream ++ frame kProtocolId
         ++ concat (map (fun _ => frame kNA) ps) ++ frame q.
Proof.
  intros Hps Hs Hq Hp Hf.
  assert (q ∈ getSupportedProtocols s) as Hin by (apply supported_registered; by eexists).
  destruct (handshake_responder fuel (getSupportedProtocols s) stream
              (concat (map frame ps) ++ frame q ++ rest)) as (c1 & Hsel & Hp1 & Hw1);
    [by intros Hnil; rewrite Hnil in Hin; set_solver|done|].
  destruct (responder_lawful fuel (getSupportedProtocols s) c1 ps q rest) as (c2 & Hr & Hp2 & Hw2);
    try done.
  { eapply Forall_impl; [done|]. intros p [Hsp Hnp]. split; [done|]. intros Hpin.
    apply supported_registered in Hpin as [? Hpin]. by rewrite Hnp in Hpin. }
  exists c2. split_and!; [|done|by rewrite Hw2, Hw1, <- app_assoc].
  eapply serve_negotiated; [by rewrite Hsel, Hr|done].
Qed.
End Protocols.

End ListenerManager.

(** ** A concrete network

    Addresses are byte strings; those that begin with [1] can be listened on and
    dialled, and connections lead to one of two peers. *)

Module Toy.
Import (hints) Plain.

Fixpoint longest (m : Protocols) (p : ProtocolName) (n : nat) : option (ProtocolName * Handler) :=
  match m !! take n p with
  | Some h => Some (take n p, h)
  | None => match n with O => None | S n => longest m p n end
  end.

Lemma longest_some m p n k h :
  longest m p n = Some (k, h) ->
  m !! k = Some h /\ k `prefix_of` p /\
  forall k' h', m !! k' = Some h' -> k' `prefix_of` p -> (length k' <= n)%nat -> (length k' <= length k)%nat.
Proof.
  assert (forall i, take i p `prefix_of` p) as Hpre
    by (intros i; exists (drop i p); by rewrite take_drop).
  induction n as [|n IH]; cbn [longest]; destruct (m !! take _ p) as [h0|] eqn:Hm; try done.
  - intros [= <- <-]. split_and!; [done|done|]. intros. lia.
  - intros [= <- <-]. split_and!; [done|done|]. intros k' h' _ [r ->] Hlen.
    rewrite take_app, length_app, length_take. lia.
  - intros Hl. destruct (IH Hl) as (Hk & Hp & Hmax). split_and!; [done|done|].
    intros k' h' Hk' [r Hr] Hlen. destruct (decide (length k' = S n)) as [He|]; [|apply (Hmax k' h'); try done; [by exists r|lia]].
    rewrite Hr, <- He, take_app_length in Hm. congruence.
Qed.

Lemma longest_none m p n :
  longest m p n = None -> forall k h, m !! k = Some h -> k `prefix_of` p -> (n < length k)%nat.
Proof.
  induction n as [|n IH]; cbn [longest]; destruct (m !! take _ p) eqn:Hm; try done.
  - intros _ k h Hk _. destruct k; [|cbn; lia]. change (take 0 p) with (@nil Z) in Hm. congruence.
  - intros Hl k h Hk [r ->]. specialize (IH Hl k h Hk ltac:(by exists r)).
    destruct (decide (length k = S n)) as [He|]; [|lia].
    rewrite <- He, take_app_length in Hm. congruence.
Qed.

#[export] Instance toy_network : Network bytes nat unit Chunked.eof := {|
  canDial _ a := bool_decide (head a = Some 1);
  asQuic a := if bool_decide (head a = Some 1) then success tt else failure Chunked.Eof;
  remotePeer := Plain.peer_of;
  order_listeners := map_to_list;
  order_protocols := map_to_list;
  longest_prefix m p := longest m p (length p);
  equal_prefix_range m pre := filter (fun e => take (length pre) e.1 = pre) (map_to_list m)
|}.
#[export] Instance toy_network_laws : NetworkLaws bytes nat unit Chunked.eof.
Proof.
  split; cbn; try done.
  - intros m p k h Hl. apply longest_some in Hl as (? & ? & Hmax). split_and!; [done|done|].
    intros k' h' Hk' Hp. apply (Hmax k' h'); [done|done|by apply prefix_length].
  - intros m p Hl k h Hk Hp. pose proof (longest_none _ _ _ Hl k h Hk Hp) as Hlen.
    apply prefix_length in Hp. lia.
Qed.

Abbreviation manager := (ListenerManager (Addr := bytes) (Conn := nat) (Transport := unit)).
Definition bind (a : bytes) : outcome Chunked.eof bytes :=
  if bool_decide (a = [1; 7]) then failure Chunked.Eof else success (a ++ [9]).
Definition fresh : manager := ListenerManager_new [tt] ConnectionManager_new.
Definition node : manager := listenProtocol (Some 5%nat) [ping] fresh.
Definition life : list (listener_call (Addr := bytes) (Conn := nat) (E := Chunked.eof)) :=
  [Listen bind false [1; 2]; Listen bind false [1; 7]; Start bind; Listen bind false [1; 3];
   RemoveListener [1; 2]].
End Toy.
Import (hints) Toy Plain Pipe.

Lemma registered_iff_listening_witness :
  exists s, listener_run Toy.life Toy.fresh = Some s
    /\ (forall ma l, listeners_ s !! ma = Some l -> (is_Some (servers s !! l) <-> started s = true))
    /\ length (getListenAddressesInterfaces s)
       = if started s then length (getListenAddresses s) else 0%nat.
Proof.
  eexists. split; [reflexivity|].
  eapply (registered_iff_listening [tt] ConnectionManager_new Toy.life). reflexivity.
Defined.

Lemma failed_handshake_stops_accepting_witness :
  let s := default Toy.fresh
             (listener_run [Start Toy.bind; Listen Toy.bind false [1; 2]; AcceptorRuns 0%nat] Toy.fresh) in
  let s' := deliver 0 (map success [2%nat; 3%nat] ++ failure CANT_CREATE_CONNECTION :: [success 5%nat]) s in
  acceptors s' !! 0%nat = None /\ servers s' !! 0%nat = Some [1; 2; 9] /\ listeners_ s' = listeners_ s
  /\ published (cmgr_ s') = published (cmgr_ s) ++ map OnNewConnection [2%nat; 3%nat].
Proof.
  intros s. apply (failed_handshake_stops_accepting 0 [2%nat; 3%nat] CANT_CREATE_CONNECTION [success 5%nat] s).
  - vm_compute. reflexivity.
  - vm_compute. reflexivity.
  - apply (bool_decide_unpack _). vm_compute. exact I.
Defined.

Lemma listen_accepts_only_off_thread_witness :
  let s := start Toy.bind Toy.fresh in
  (exists s', listen Toy.bind true [1; 2] s = (s', success tt) /\ listeners_ s' !! [1; 2] = Some 0%nat
     /\ servers s' !! 0%nat = Some [1; 2; 9] /\ acceptors s' !! 0%nat = None)
  /\ (exists s', listen Toy.bind false [1; 2] s = (s', success tt) /\ listeners_ s' !! [1; 2] = Some 0%nat
     /\ servers s' !! 0%nat = Some [1; 2; 9] /\ acceptors (acceptor_waits 0%nat s') !! 0%nat = Some Accepting).
Proof.
  intros s. apply (listen_accepts_only_off_thread Toy.bind [1; 2] s tt [1; 2; 9]).
  - apply start_ok, listeners_new_ok.
  - reflexivity.
  - reflexivity.
  - reflexivity.
  - reflexivity.
  - reflexivity.
Defined.

Lemma stream_reaches_registered_handler_witness :
  exists c, serve_stream 2 (Pipe.hearing (frame kProtocolId ++ frame ping)) Toy.node = Some (c, Handled 5 ping)
  /\ protocols_ Toy.node !! ping = Some (Some 5%nat)
  /\ selectOneOf 2 (getSupportedProtocols Toy.node) false true
       (Pipe.hearing (frame kProtocolId ++ frame ping)) = Some (c, success ping).
Proof.
  eexists. split; [vm_compute; reflexivity|].
  apply (stream_reaches_registered_handler 2 (Pipe.hearing (frame kProtocolId ++ frame ping))).
  vm_compute. reflexivity.
Defined.

Lemma proposals_reach_handler_witness :
  let stream := Pipe.hearing (frame kProtocolId ++ concat (map frame [echo]) ++ frame ping ++ [1; 2; 3]) in
  exists stream', serve_stream 2 stream Toy.node = Some (stream', Handled 5 ping)
    /\ pending stream' = [1; 2; 3]
    /\ written stream' = written stream ++ frame kProtocolId
         ++ concat (map (fun _ => frame kNA) [echo]) ++ frame ping.
Proof.
  intros stream. apply (proposals_reach_handler (Duplex0 := Pipe.pipe_duplex) 2 stream Toy.node [echo] ping 5 [1; 2; 3]).
  - constructor; [|constructor]. split; [by vm_compute|]. vm_compute. reflexivity.
  - by vm_compute.
  - vm_compute. reflexivity.
  - vm_compute. reflexivity.
  - apply Nat.ltb_lt. reflexivity.
Defined.
