(* ===== verification/Dialer.v ===== *)
(** * The dialer

    [src/network/dialer.cpp]: connections to a peer are attempted one address at a
    time, by one coroutine per peer.

    [dial] and what follows an answer of the transport run without suspension up
    to the next [co_await tr->dial(...)]: a piece of a coroutine maps the state to
    the state and either the value returned or the attempt waited for.  A [World]
    has the dialer and the coroutines that wait; its steps are requests, answers of
    the transports in any order, and changes of the connection manager by others. *)

From S2P Require Import Prelude Varint Stream Multiselect AddressRepository PeerRepository.
From S2P Require Import ConnectionManager ListenerManager.

Section Dialer.
Context {Addr Conn Transport E : Type} `{Network Addr Conn Transport E} `{!Traversal Conn}.

(** [Dialer::Error], and what transports fail with. *)
Inductive dial_error :=
| ANOTHER_DIAL_IN_PROGRESS
| STATE_INCONSISTENCY
| NO_DESTINATION_ADDRESS
| ADDRESS_FAMILY_NOT_SUPPORTED
| HOST_UNREACHABLE
| TransportError (e : E).
Abbreviation DialResult := (outcome dial_error Conn).

Record DialCtx := mkDialCtx {
  addr_queue : list Addr;
  addr_seen : gset Addr;
  result : option DialResult;
  dialled : bool
}.

Record Dialer := mkDialer {
  dialing_peers_ : gmap PeerId DialCtx;
  listener_ : ListenerManager (Addr := Addr) (Conn := Conn) (Transport := Transport);
  addr_repo_ : AddressRepo (Multiaddress := Addr)
}.

(** The members [cmgr_] and [tmgr_] are the objects the listener manager shares. *)
Definition dialer_cmgr (d : Dialer) : ConnectionManager (Conn := Conn) := cmgr_ (listener_ d).
Definition dialer_tmgr (d : Dialer) : list Transport := tmgr_ (listener_ d).

Definition set_dialing (m : gmap PeerId DialCtx) (d : Dialer) : Dialer :=
  mkDialer m (listener_ d) (addr_repo_ d).
Definition set_listener (l : ListenerManager) (d : Dialer) : Dialer :=
  mkDialer (dialing_peers_ d) l (addr_repo_ d).
Definition set_addr_repo (r : AddressRepo) (d : Dialer) : Dialer :=
  mkDialer (dialing_peers_ d) (listener_ d) r.

(** How a piece of the coroutine ends. *)
Inductive progress :=
| Returns (r : DialResult)
| Awaits (tr : Transport) (addr : Addr).

Definition completeDial (peer_id : PeerId) (d : Dialer) : Dialer :=
  set_dialing (delete peer_id (dialing_peers_ d)) d.

(** [rotate], with the queue of the context as the first argument: an address
    without a transport is dropped and [rotate] calls itself. *)
Fixpoint rotate_queue (queue : list Addr) (peer_id : PeerId) (ctx : DialCtx) (d : Dialer) :
    Dialer * progress :=
  match queue with
  | [] =>
      (completeDial peer_id d,
       Returns (if negb (dialled ctx) then failure ADDRESS_FAMILY_NOT_SUPPORTED
                else match result ctx with
                     | Some r => r
                     | None => failure HOST_UNREACHABLE
                     end))
  | addr :: queue =>
      match findBest (dialer_tmgr d) addr with
      | Some tr =>
          (set_dialing (<[peer_id := mkDialCtx queue (addr_seen ctx) (result ctx) true]>
                          (dialing_peers_ d)) d,
           Awaits tr addr)
      | None => rotate_queue queue peer_id ctx d
      end
  end.
Definition rotate (peer_id : PeerId) (d : Dialer) : Dialer * progress :=
  match dialing_peers_ d !! peer_id with
  | None => (d, Returns (failure STATE_INCONSISTENCY))
  | Some ctx => rotate_queue (addr_queue ctx) peer_id ctx d
  end.

(** The rest of [rotate] after [co_await tr->dial(peer_id, addr)]. *)
Definition answered (peer_id : PeerId) (addr : Addr) (r : outcome E Conn) (d : Dialer) :
    Dialer * progress :=
  match dialing_peers_ d !! peer_id with
  | None =>
      (match r with
       | success c =>
           if isClosed (dialer_cmgr d) c then d
           else set_listener (set_cmgr (mark_closed c (dialer_cmgr d)) (listener_ d)) d
       | failure _ => d
       end, Returns (failure STATE_INCONSISTENCY))
  | Some ctx =>
      match r with
      | success c =>
          let d := set_listener (onConnection true (success c) (listener_ d)) d in
          (completeDial peer_id d, Returns (success c))
      | failure e =>
          let d := set_addr_repo (dialFailed peer_id addr (addr_repo_ d)) d in
          let ctx := mkDialCtx (addr_queue ctx) (addr_seen ctx) (Some (failure (TransportError e)))
                       (dialled ctx) in
          rotate peer_id (set_dialing (<[peer_id := ctx]> (dialing_peers_ d)) d)
      end
  end.

(** Addresses an ongoing dial did not know yet join its queue. *)
Fixpoint add_known (addresses : list Addr) (ctx : DialCtx) : DialCtx :=
  match addresses with
  | [] => ctx
  | addr :: addresses =>
      add_known addresses
        (if decide (addr ∈ addr_seen ctx) then ctx
         else mkDialCtx (addr_queue ctx ++ [addr]) ({[addr]} ∪ addr_seen ctx) (result ctx) (dialled ctx))
  end.

Definition dial (p : PeerInfo (Multiaddress := Addr)) (d : Dialer) : Dialer * progress :=
  match getBestConnectionForPeer (info_id p) (dialer_cmgr d) with
  | Some c => (d, Returns (success c))
  | None =>
      match dialing_peers_ d !! info_id p with
      | Some ctx =>
          (set_dialing (<[info_id p := add_known (info_addresses p) ctx]> (dialing_peers_ d)) d,
           Returns (failure ANOTHER_DIAL_IN_PROGRESS))
      | None =>
          if decide (info_addresses p = []) then (d, Returns (failure NO_DESTINATION_ADDRESS))
          else
            let new_ctx := mkDialCtx (info_addresses p) (list_to_set (info_addresses p)) None false in
            rotate (info_id p) (set_dialing (<[info_id p := new_ctx]> (dialing_peers_ d)) d)
      end
  end.

(** ** Streams to a peer *)

Section NewStream.
Context {C : Type} `{!Reader C E, !Writer C E}.

(** [newStream(conn, protocols)]; [opened] is the result of [conn->newStream()].
    The stream comes with its [protocol_]. *)
Definition newStream (fuel : nat) (opened : outcome E C) (protocols : list ProtocolName) :
    option (outcome (error E) (C * ProtocolName)) :=
  match opened with
  | failure e => Some (failure (Io (IoError e)))
  | success stream =>
      match selectOneOf fuel protocols true true stream with
      | None => None
      | Some (_, failure e) => Some (failure e)
      | Some (stream, success protocol) => Some (success (stream, protocol))
      end
  end.
End NewStream.

(** ** Worlds *)

Record task := mkTask { task_peer : PeerId; task_addr : Addr; task_transport : Transport }.
Record World := mkWorld {
  dialer : Dialer;
  tasks : list task;
  (** what finished calls of [dial] have returned, and for which peer *)
  returned : list (PeerId * DialResult);
  (** the calls of [tr->dial] so far *)
  attempts : list (PeerId * Addr)
}.

(** A piece of a coroutine for [p] has run. *)
Definition ran (p : PeerId) (w : World) (ts : list task) (r : Dialer * progress) : World :=
  match r with
  | (d, Returns v) => mkWorld d ts (returned w ++ [(p, v)]) (attempts w)
  | (d, Awaits tr a) => mkWorld d (mkTask p a tr :: ts) (returned w) (attempts w ++ [(p, a)])
  end.

Inductive world_event :=
| Requests (p : PeerInfo (Multiaddress := Addr))
| Answers (i : nat) (r : outcome E Conn)
| Others (m : ConnectionManager (Conn := Conn)).
Definition world_step (w : World) (e : world_event) : World :=
  match e with
  | Requests p => ran (info_id p) w (tasks w) (dial p (dialer w))
  | Answers i r =>
      match tasks w !! i with
      | None => w
      | Some t =>
          ran (task_peer t) w (take i (tasks w) ++ drop (S i) (tasks w))
            (answered (task_peer t) (task_addr t) r (dialer w))
      end
  | Others m =>
      mkWorld (set_listener (set_cmgr m (listener_ (dialer w))) (dialer w)) (tasks w) (returned w)
        (attempts w)
  end.
Definition world_run (es : list world_event) (w : World) : World := foldl world_step w es.
Definition idle (l : ListenerManager) (r : AddressRepo) : World := mkWorld (mkDialer ∅ l r) [] [] [].

(** ** Invariant *)

(** A context in the map belongs to a coroutine that has made an attempt; what it
    remembers is a failure of a transport. *)
Definition ctx_ok (ctx : DialCtx) : Prop :=
  dialled ctx = true /\ forall r, result ctx = Some r -> exists e, r = failure (TransportError e).
(** Once an attempt was made, a piece of [rotate] starts with its failure. *)
Definition ctx_ready (ctx : DialCtx) : Prop :=
  (dialled ctx = true -> is_Some (result ctx))
  /\ forall r, result ctx = Some r -> exists e, r = failure (TransportError e).

(** What [dial] can return. *)
Definition expected (r : DialResult) : Prop :=
  r <> failure STATE_INCONSISTENCY /\ r <> failure HOST_UNREACHABLE.

(** The addresses waiting in queues. *)
Definition queued (m : gmap PeerId DialCtx) : nat :=
  map_fold (fun _ ctx n => length (addr_queue ctx) + n)%nat 0%nat m.

Lemma queued_insert p ctx m :
  queued (<[p := ctx]> m) = (length (addr_queue ctx) + queued (delete p m))%nat.
Proof.
  unfold queued. rewrite <- insert_delete_eq. rewrite map_fold_insert_L; [done| |apply lookup_delete_eq].
  intros. lia.
Qed.

Lemma queued_delete p ctx m :
  m !! p = Some ctx -> queued m = (length (addr_queue ctx) + queued (delete p m))%nat.
Proof. intros Hp. rewrite <- (queued_insert p ctx m), insert_id; done. Qed.

Lemma queued_delete_le p m : (queued (delete p m) <= queued m)%nat.
Proof.
  destruct (m !! p) as [ctx|] eqn:Hp; [rewrite (queued_delete p ctx m Hp); lia|by rewrite delete_id].
Qed.

(** A run of [rotate] from a context of the map: either the context is gone and an
    expected value is returned, or an address has left the queue for an attempt. *)
Lemma rotate_queue_spec queue p ctx d :
  ctx_ready ctx ->
  match rotate_queue queue p ctx d with
  | (d', Returns v) => dialing_peers_ d' = delete p (dialing_peers_ d) /\ expected v
  | (d', Awaits tr a) =>
      exists ctx', dialing_peers_ d' = <[p := ctx']> (dialing_peers_ d) /\ ctx_ok ctx'
        /\ (length (addr_queue ctx') < length queue)%nat
  end.
Proof.
  intros [Hd Hr]. induction queue as [|a queue IH]; cbn [rotate_queue].
  - split; [done|]. destruct (dialled ctx); cbn; [|by split].
    destruct (Hd eq_refl) as [v Hv]. rewrite Hv. destruct (Hr v Hv) as [e ->]. by split.
  - destruct (findBest _ a).
    + eexists. split; [done|]. split; [by split|]. cbn. lia.
    + destruct (rotate_queue _ _ _ _) as [d' []]; [done|].
      destruct IH as (ctx' & ? & ? & ?). exists ctx'. cbn. eauto with lia.
Qed.

Record world_ok (n : nat) (w : World) : Prop := {
  tasks_nodup : NoDup (map task_peer (tasks w));
  tasks_dialing p : p ∈ map task_peer (tasks w) <-> is_Some (dialing_peers_ (dialer w) !! p);
  contexts_ok p ctx : dialing_peers_ (dialer w) !! p = Some ctx -> ctx_ok ctx;
  returned_expected : Forall (fun r => expected r.2) (returned w);
  attempts_bounded : (length (attempts w) + queued (dialing_peers_ (dialer w)) <= n)%nat
}.

(** A piece of the coroutine of [p], which no other coroutine works for. *)
Lemma ran_ok n p w ts m r :
  p ∉ map task_peer ts -> NoDup (map task_peer ts) ->
  (forall q, q <> p -> (q ∈ map task_peer ts <-> is_Some (m !! q))) ->
  (forall q ctx, q <> p -> m !! q = Some ctx -> ctx_ok ctx) ->
  Forall (fun r => expected r.2) (returned w) ->
  match r with
  | (d', Returns v) => dialing_peers_ d' = delete p m /\ expected v
      /\ (length (attempts w) + queued (delete p m) <= n)%nat
  | (d', Awaits tr a) => exists ctx', dialing_peers_ d' = <[p := ctx']> m /\ ctx_ok ctx'
      /\ (length (attempts w) + 1 + length (addr_queue ctx') + queued (delete p m) <= n)%nat
  end ->
  world_ok n (ran p w ts r).
Proof.
  intros Hp Hnd Hts Hctx Hret. destruct r as [d' [v|tr a]]; cbn [ran].
  - intros (Hd & Hv & Hn). split; cbn; rewrite ?Hd; try done.
    + intros q. destruct (decide (q = p)) as [->|Hq].
      * rewrite lookup_delete_eq. split; [done|by intros []].
      * rewrite lookup_delete_ne by done. by apply Hts.
    + intros q ctx [Hq Hm]%lookup_delete_Some. apply (Hctx q); [congruence|done].
    + apply Forall_app. split; [done|]. by apply Forall_singleton.
  - intros (ctx & Hd & Hok & Hn). split; cbn; rewrite ?Hd; try done.
    + by constructor.
    + intros q. rewrite elem_of_cons. destruct (decide (q = p)) as [->|Hq].
      * rewrite lookup_insert_eq. split; [by eexists|by left].
      * rewrite lookup_insert_ne, <- Hts by done. naive_solver.
    + intros q ctx' [[<- <-]|[Hq Hm]]%lookup_insert_Some; [done|]. apply (Hctx q); [congruence|done].
    + rewrite length_app, queued_insert. cbn. lia.
Qed.

(** A call that returns at once leaves the coroutines alone. *)
Lemma returns_ok n n' p v m w d :
  world_ok n w -> expected v -> dialing_peers_ d = m ->
  dom m = dom (dialing_peers_ (dialer w)) -> (forall q ctx, m !! q = Some ctx -> ctx_ok ctx) ->
  (length (attempts w) + queued m <= n')%nat ->
  world_ok n' (ran p w (tasks w) (d, Returns v)).
Proof.
  intros [Hnd Ht Hc Hr Hn] Hv Hm Hdom Hctx Hn'. split; cbn; rewrite ?Hm; try done.
  - intros q. by rewrite Ht, <- !elem_of_dom, Hdom.
  - apply Forall_app. split; [done|]. by apply Forall_singleton.
Qed.

Lemma add_known_spec addresses ctx :
  dialled (add_known addresses ctx) = dialled ctx /\ result (add_known addresses ctx) = result ctx
  /\ (length (addr_queue (add_known addresses ctx)) <= length (addr_queue ctx) + length addresses)%nat.
Proof.
  revert ctx. induction addresses as [|a addresses IH]; intros ctx; cbn [add_known length]; [split_and!; try done; lia|].
  case_decide; [destruct (IH ctx) as (?&?&?); split_and!; [done|done|lia]|].
  match goal with |- context [add_known _ ?c] => destruct (IH c) as (?&?&Hl) end.
  split_and!; [done|done|]. cbn in Hl. rewrite length_app in Hl. cbn in Hl. lia.
Qed.

Lemma world_request_ok n w p :
  world_ok n w -> world_ok (n + length (info_addresses p)) (world_step w (Requests p)).
Proof.
  intros Hok. pose proof Hok as [Hnd Ht Hc Hr Hn]. cbn [world_step]. unfold dial.
  destruct (getBestConnectionForPeer _ _) as [c|]; [by eapply returns_ok; eauto with lia|].
  destruct (dialing_peers_ (dialer w) !! info_id p) as [ctx|] eqn:Hp.
  - destruct (add_known_spec (info_addresses p) ctx) as (Hd & Hres & Hlen).
    eapply returns_ok; [done|done|reflexivity| | |]; cbn [dialing_peers_ set_dialing].
    + rewrite dom_insert_L. apply elem_of_dom_2 in Hp. set_solver.
    + intros q c [[<- <-]|[Hq Hm]]%lookup_insert_Some; [|by eapply Hc].
      unfold ctx_ok. rewrite Hd, Hres. by eapply Hc.
    + rewrite queued_insert. rewrite (queued_delete _ _ _ Hp) in Hn. lia.
  - case_decide as Ha; [by eapply returns_ok; eauto with lia|].
    set (ctx := mkDialCtx (info_addresses p) (list_to_set (info_addresses p)) None false).
    unfold rotate. cbn [dialing_peers_ set_dialing]. rewrite lookup_insert_eq.
    set (d := set_dialing _ _).
    assert (info_id p ∉ map task_peer (tasks w)) as Hnot by (rewrite Ht, Hp; by intros []).
    pose proof (rotate_queue_spec (addr_queue ctx) (info_id p) ctx d) as Hrot.
    assert (delete (info_id p) (dialing_peers_ d) = dialing_peers_ (dialer w)) as Hdel
      by (cbn; rewrite delete_insert_eq; by apply delete_id).
    eapply (ran_ok _ _ _ _ (dialing_peers_ d)); [done|done| | |done|].
    + intros q Hq. cbn. rewrite lookup_insert_ne by done. apply Ht.
    + intros q c Hq. cbn. rewrite lookup_insert_ne by done. apply Hc.
    + destruct (rotate_queue _ _ _ _) as [d' [v|tr a]]; rewrite ?Hdel in *.
      * destruct Hrot as [Hd Hv]; [by split|]. rewrite <- Hd. split_and!; [done|done|].
        rewrite Hd. cbn. lia.
      * destruct Hrot as (ctx' & Hd & Hok' & Hlen); [by split|]. exists ctx'. split_and!; [done|done|].
        cbn in Hlen. lia.
Qed.

Lemma world_answer_ok n w i r : world_ok n w -> world_ok n (world_step w (Answers i r)).
Proof.
  intros Hok. pose proof Hok as [Hnd Ht Hc Hr Hn]. cbn [world_step].
  destruct (tasks w !! i) as [t|] eqn:Hi; [|done].
  assert (tasks w ≡ₚ t :: (take i (tasks w) ++ drop (S i) (tasks w))) as Hperm
    by (rewrite <- (take_drop_middle _ _ _ Hi) at 1; by rewrite <- Permutation_middle).
  set (ts := take i (tasks w) ++ drop (S i) (tasks w)) in *.
  assert (map task_peer (tasks w) ≡ₚ task_peer t :: map task_peer ts) as Hpm
    by (by rewrite Hperm).
  rewrite Hpm in Hnd. apply NoDup_cons in Hnd as [Hnot Hnd].
  assert (forall q, q <> task_peer t -> (q ∈ map task_peer ts <-> is_Some (dialing_peers_ (dialer w) !! q)))
    as Hts by (intros q Hq; rewrite <- Ht, Hpm, elem_of_cons; naive_solver).
  destruct (proj1 (Ht (task_peer t))) as [ctx Hctx]; [rewrite Hpm; set_solver|].
  rewrite (queued_delete _ _ _ Hctx) in Hn. unfold answered. rewrite Hctx.
  eapply (ran_ok _ _ _ _ (dialing_peers_ (dialer w))); try done; [by eauto|].
  destruct r as [c|e].
  - cbn. split_and!; [done|done|]. lia.
  - unfold rotate. cbn [dialing_peers_ set_dialing set_addr_repo]. rewrite lookup_insert_eq.
    set (ctx' := mkDialCtx _ _ _ _). set (d := set_dialing _ _).
    pose proof (rotate_queue_spec (addr_queue ctx') (task_peer t) ctx' d) as Hrot.
    assert (ctx_ready ctx') as Hready.
    { split; [by eexists|]. intros r [= <-]. by eexists. }
    specialize (Hrot Hready). destruct (rotate_queue _ _ _ _) as [d' [v|tr a]].
    + destruct Hrot as [Hd Hv]. cbn in Hd. rewrite delete_insert_eq in Hd. split_and!; [done|done|lia].
    + destruct Hrot as (c & Hd & Hok' & Hlen). cbn in Hd, Hlen. rewrite insert_insert_eq in Hd.
      exists c. split_and!; [done|done|lia].
Qed.

Definition requested (e : world_event) : nat :=
  match e with Requests p => length (info_addresses p) | _ => 0%nat end.
Definition is_request (e : world_event) : nat := match e with Requests _ => 1%nat | _ => 0%nat end.

Lemma world_run_ok es n w :
  world_ok n w -> world_ok (n + sum_list_with requested es) (world_run es w).
Proof.
  revert n w. induction es as [|e es IH]; intros n w Hok; cbn; [by rewrite Nat.add_0_r|].
  rewrite Nat.add_assoc. apply IH. destruct e as [p|i r|m]; cbn [requested].
  - by apply world_request_ok.
  - rewrite Nat.add_0_r. by apply world_answer_ok.
  - rewrite Nat.add_0_r. destruct Hok. by split.
Qed.

Lemma idle_ok l r : world_ok 0 (idle l r).
Proof.
  split; cbn; [constructor| |done|done|done].
  intros p. rewrite lookup_empty. split; [set_solver|by intros []].
Qed.

(** ** Termination *)

(** The transports answer pending attempts in some order: the [i]-th one, counted
    round, whenever there is one. *)
Definition answer_some (w : World) (ir : nat * outcome E Conn) : World :=
  world_step w (Answers (ir.1 mod (length (tasks w) `max` 1)) ir.2).

Lemma answer_counts w i r t :
  tasks w !! i = Some t ->
  let w' := world_step w (Answers i r) in
  (length (attempts w') + length (tasks w) = length (attempts w) + length (tasks w') + 1)%nat
  /\ (length (returned w') + length (tasks w') = length (returned w) + length (tasks w))%nat.
Proof.
  intros Hi. cbn [world_step]. rewrite Hi. pose proof (lookup_lt_Some _ _ _ Hi) as Hlt.
  assert (length (take i (tasks w) ++ drop (S i) (tasks w)) + 1 = length (tasks w))%nat as Hlen
    by (rewrite length_app, length_take, length_drop; lia).
  destruct (answered _ _ _ _) as [d [v|tr a]]; cbn [ran tasks attempts returned length];
    rewrite ?length_app; cbn [length]; rewrite length_app in Hlen; lia.
Qed.

Lemma answers_idle sched w : tasks w = [] -> foldl answer_some w sched = w.
Proof.
  intros Hnil. induction sched as [|ir sched IH]; [done|]. cbn [foldl].
  assert (answer_some w ir = w) as -> by (unfold answer_some; cbn; by rewrite Hnil). done.
Qed.

Lemma answers_finish n sched w :
  world_ok n w -> (n + length (tasks w) <= length (attempts w) + length sched)%nat ->
  let w' := foldl answer_some w sched in
  tasks w' = [] /\ world_ok n w'
  /\ length (returned w') = (length (returned w) + length (tasks w))%nat.
Proof.
  revert w. induction sched as [|[i r] sched IH]; intros w Hok Hle.
  - pose proof (attempts_bounded _ _ Hok). cbn in *.
    assert (length (tasks w) = 0%nat) as Hnil by lia.
    rewrite Hnil, Nat.add_0_r. by apply nil_length_inv in Hnil.
  - destruct (decide (tasks w = [])) as [Hnil|Hne].
    + rewrite answers_idle, Hnil, Nat.add_0_r by done. done.
    + assert (0 < length (tasks w))%nat as Hpos by (destruct (tasks w); [done|cbn; lia]).
      pose proof (Nat.mod_upper_bound i (length (tasks w) `max` 1) ltac:(lia)) as Hi.
      destruct (lookup_lt_is_Some_2 (tasks w) (i mod (length (tasks w) `max` 1))) as [t Ht]; [lia|].
      destruct (answer_counts w _ r t Ht) as [Hatt Hret].
      destruct (IH (answer_some w (i, r))) as (Hnil & Hok' & Hr).
      * by apply world_answer_ok.
      * unfold answer_some. cbn [fst snd]. cbn [length] in Hle. lia.
      * cbn [foldl]. split_and!; [done|done|]. rewrite Hr. exact Hret.
Qed.

Lemma run_attempts es w :
  (length (tasks (world_run es w)) + length (attempts w)
   <= length (attempts (world_run es w)) + length (tasks w))%nat.
Proof.
  revert w. induction es as [|e es IH]; intros w; [cbn; lia|]. cbn [world_run foldl].
  fold (world_run es (world_step w e)). specialize (IH (world_step w e)).
  enough (length (tasks (world_step w e)) + length (attempts w)
          <= length (attempts (world_step w e)) + length (tasks w))%nat by lia.
  destruct e as [p|i r|m]; [| |cbn; lia].
  - cbn [world_step]. destruct (dial p (dialer w)) as [d [v|tr a]];
      cbn [ran tasks attempts length]; rewrite ?length_app; cbn; lia.
  - destruct (tasks w !! i) as [t|] eqn:Hi.
    + destruct (answer_counts w i r t Hi) as [Hatt _]. lia.
    + cbn [world_step]. rewrite Hi. lia.
Qed.

Lemma run_returned es w :
  (length (returned (world_run es w)) + length (tasks (world_run es w))
   = sum_list_with is_request es + length (returned w) + length (tasks w))%nat.
Proof.
  revert w. induction es as [|e es IH]; intros w; [done|]. cbn [world_run foldl sum_list_with] in *.
  fold (world_run es (world_step w e)). rewrite IH. destruct e as [p|i r|m]; cbn [is_request].
  - cbn [world_step]. destruct (dial p (dialer w)) as [d [v|tr a]]; cbn [ran tasks returned length];
      rewrite ?length_app; cbn; lia.
  - destruct (tasks w !! i) as [t|] eqn:Hi.
    + destruct (answer_counts w i r t Hi) as [_ Hret]. cbn [world_step] in *. lia.
    + cbn [world_step]. by rewrite Hi.
  - done.
Qed.

(** ** Properties *)

(** C25: dialling never finds its state inconsistent.  In any interleaving of
    requests, answers and changes of the connection manager at most one attempt
    per peer is under way, no call of [dial] returns [STATE_INCONSISTENCY] or
    [HOST_UNREACHABLE], and no more attempts are made than addresses were given. *)
Theorem dialing_is_consistent l repo es :
  let w := world_run es (idle l repo) in
  NoDup (map task_peer (tasks w))
  /\ (forall p r, (p, r) ∈ returned w ->
        r <> failure STATE_INCONSISTENCY /\ r <> failure HOST_UNREACHABLE)
  /\ (length (attempts w) <= sum_list_with requested es)%nat.
Proof.
  destruct (world_run_ok es 0 (idle l repo) (idle_ok l repo)) as [Hnd _ _ Hr Hn].
  split_and!; [done| |lia]. intros p r Hin. rewrite Forall_forall in Hr. exact (Hr (p, r) Hin).
Qed.

(** C24: every call of [dial] returns.  From any point of any run, once the
    transports have answered as many attempts as addresses were ever given, in
    whatever order and whatever they answer, no coroutine waits, no peer is being
    dialled, and each request has got its result. *)
Theorem every_dial_returns l repo es sched :
  (sum_list_with requested es <= length sched)%nat ->
  let w := foldl answer_some (world_run es (idle l repo)) sched in
  tasks w = [] /\ dialing_peers_ (dialer w) = ∅
  /\ length (returned w) = sum_list_with is_request es.
Proof.
  intros Hsched. pose proof (world_run_ok es 0 (idle l repo) (idle_ok l repo)) as Hok.
  pose proof (run_returned es (idle l repo)) as Hret. cbn [idle tasks returned length] in Hret.
  set (w0 := world_run es (idle l repo)) in *.
  pose proof (run_attempts es (idle l repo)) as Hta. cbn [idle tasks attempts length] in Hta.
  fold (idle l repo) w0 in Hta.
  destruct (answers_finish _ sched w0 Hok) as (Hnil & [_ Ht _ _ _] & Hr); [lia|].
  cbv zeta. split_and!; [done| |lia].
  apply map_empty. intros p. apply eq_None_not_Some. rewrite <- Ht, Hnil. set_solver.
Qed.

(** ** A dial that nothing interferes with *)

(** The coroutine run to its end, the transports answering by [net]. *)
Fixpoint drive (fuel : nat) (net : Transport -> PeerId -> Addr -> outcome E Conn) (p : PeerId)
    (r : Dialer * progress) : option (Dialer * DialResult) :=
  match r with
  | (d, Returns v) => Some (d, v)
  | (d, Awaits tr a) =>
      match fuel with
      | O => None
      | S fuel => drive fuel net p (answered p a (net tr p a) d)
      end
  end.

(** What a dial is for: the first address, in order, that a transport connects to;
    otherwise the last failure.  Also the addresses that failed on the way. *)
Fixpoint first_reachable (net : Transport -> PeerId -> Addr -> outcome E Conn) (trs : list Transport)
    (p : PeerId) (addresses : list Addr) (last : DialResult) : DialResult * list Addr :=
  match addresses with
  | [] => (last, [])
  | a :: addresses =>
      match findBest trs a with
      | None => first_reachable net trs p addresses last
      | Some tr =>
          match net tr p a with
          | success c => (success c, [])
          | failure e =>
              let '(r, failed) := first_reachable net trs p addresses (failure (TransportError e)) in
              (r, a :: failed)
          end
      end
  end.

(** The state after a dial that ended with [r] and failed at [failed]. *)
Definition after_dial (p : PeerId) (d : Dialer) (rf : DialResult * list Addr) : Dialer :=
  mkDialer (delete p (dialing_peers_ d))
    (match rf.1 with success c => onConnection true (success c) (listener_ d) | failure _ => listener_ d end)
    (foldl (fun repo a => dialFailed p a repo) (addr_repo_ d) rf.2).

Lemma drive_rotate fuel net p queue ctx d :
  (length queue <= fuel)%nat ->
  (dialled ctx = true -> exists e, result ctx = Some (failure (TransportError e))) ->
  let last := if dialled ctx then default (failure HOST_UNREACHABLE) (result ctx)
              else failure ADDRESS_FAMILY_NOT_SUPPORTED in
  let rf := first_reachable net (dialer_tmgr d) p queue last in
  drive fuel net p (rotate_queue queue p ctx d) = Some (after_dial p d rf, rf.1).
Proof.
  revert fuel ctx d. induction queue as [|a queue IH]; intros fuel ctx d Hf Hres; cbv zeta.
  - cbn. unfold after_dial, completeDial, set_dialing. cbn.
    destruct (dialled ctx); cbn; [|by destruct fuel]. destruct (Hres eq_refl) as [e ->].
    by destruct fuel.
  - cbn [rotate_queue first_reachable]. destruct (findBest (dialer_tmgr d) a) as [tr|] eqn:Htr.
    2: { apply IH; [cbn in Hf; lia|done]. }
    destruct fuel as [|fuel]; [cbn in Hf; lia|]. cbn [drive]. unfold answered.
    cbn [dialing_peers_ set_dialing]. rewrite lookup_insert_eq.
    destruct (net tr p a) as [c|e].
    + unfold after_dial, completeDial, set_listener, set_dialing. cbn. rewrite delete_insert_eq.
      by destruct fuel.
    + unfold rotate. cbn [dialing_peers_ set_dialing set_addr_repo addr_queue addr_seen dialled].
      rewrite lookup_insert_eq. rewrite IH; [|cbn in Hf; lia|by eexists]. cbn [dialled result default from_option id].
      change (dialer_tmgr (set_dialing _ _)) with (dialer_tmgr d).
      destruct (first_reachable net (dialer_tmgr d) p queue (failure (TransportError e))) as [r failed].
      unfold after_dial. cbn. by rewrite insert_insert_eq, delete_insert_eq.
Qed.

(** A dial tries the addresses in order and stops at the first that answers.
    For a peer without an open connection or dial in progress, the result is that
    of the first address some transport reaches, else the last failure, else that
    no address is supported; as many attempts as addresses are enough.  Failed
    addresses are reported to the address book, in order, and a success is handed
    to the listener manager. *)
Theorem dial_tries_in_order net p d :
  getBestConnectionForPeer (info_id p) (dialer_cmgr d) = None ->
  dialing_peers_ d !! info_id p = None -> info_addresses p <> [] ->
  let rf := first_reachable net (dialer_tmgr d) (info_id p) (info_addresses p)
              (failure ADDRESS_FAMILY_NOT_SUPPORTED) in
  drive (length (info_addresses p)) net (info_id p) (dial p d)
  = Some (after_dial (info_id p) d rf, rf.1).
Proof.
  intros Hbest Hnone Hne. unfold dial. rewrite Hbest, Hnone, decide_False by done. unfold rotate.
  cbn [dialing_peers_ set_dialing]. rewrite lookup_insert_eq. cbn [addr_queue].
  rewrite drive_rotate by done. cbn [dialled]. change (dialer_tmgr (set_dialing _ _)) with (dialer_tmgr d).
  cbv zeta. unfold after_dial. cbn. by rewrite delete_insert_eq.
Qed.

(** After a successful dial the connection is reused.  As long as it is open
    another [dial] of the peer returns an open connection to it at once. *)
Theorem dialled_peer_is_reused `{!TraversalLaws Conn} p c d addresses :
  remotePeer c = p -> c ∉ closed (dialer_cmgr d) ->
  let d' := after_dial p d (success c, []) in
  exists c' cs, dial (mkPeerInfo p addresses) d' = (d', Returns (success c'))
    /\ connections_ (dialer_cmgr d') !! p = Some cs /\ c' ∈ cs /\ c' ∉ closed (dialer_cmgr d').
Proof.
  intros Hp Hc d'.
  assert (closed (dialer_cmgr d') = closed (dialer_cmgr d)
          /\ exists cs, connections_ (dialer_cmgr d') !! p = Some cs /\ c ∈ cs) as [Hcl (cs & Hcs & Hin)].
  { unfold d', dialer_cmgr, after_dial. cbn [fst snd listener_ onConnection]. unfold serve_head.
    cbn [cmgr_ set_serving]. unfold isClosed. rewrite bool_decide_false by done. rewrite Hp. split; [done|].
    cbn. destruct (connections_ (cmgr_ (listener_ d)) !! p); rewrite lookup_insert_eq;
      eexists; (split; [reflexivity|set_solver]). }
  unfold dial. cbn [info_id]. pose proof (best_connection_spec p (dialer_cmgr d')) as Hbest.
  destruct (getBestConnectionForPeer p (dialer_cmgr d')) as [c'|].
  - destruct Hbest as (cs' & ? & ? & ?). eauto 10.
  - exfalso. specialize (Hbest cs Hcs c Hin). by rewrite Hcl in Hbest.
Qed.

(** The protocol of a new stream is one of those asked for. *)
Lemma newStream_offered {C : Type} `{!Reader C E, !Writer C E} fuel opened protocols (stream : C) p :
  newStream fuel opened protocols = Some (success (stream, p)) -> p ∈ protocols.
Proof.
  unfold newStream. destruct opened as [s|]; [|done].
  destruct (selectOneOf _ _ _ _ _) as [[s' [q|]]|] eqn:Hsel; try done.
  intros [= <- <-]. by eapply selectOneOf_sound.
Qed.

End Dialer.

(** ** Witnesses *)

Module ToyDial.
Import (hints) Toy Plain.
(** The address [1; 7] is unreachable, the others lead to connection 3. *)
Definition net (_ : unit) (_ : PeerId) (a : bytes) : outcome Chunked.eof nat :=
  if bool_decide (a = [1; 7]) then failure Chunked.Eof else success 3%nat.
Definition info : PeerInfo (Multiaddress := bytes) := mkPeerInfo [1] [[2]; [1; 7]; [1; 4]; [1; 5]].
Definition events : list (world_event (Addr := bytes) (Conn := nat) (E := Chunked.eof)) :=
  [Requests info; Requests (mkPeerInfo [1] [[1; 6]]); Answers 0 (failure Chunked.Eof)].
Abbreviation dialer0 := (mkDialer ∅ Toy.node AddressRepo_new).
End ToyDial.
Import (hints) Toy Plain.

Lemma every_dial_returns_witness :
  let w := foldl answer_some (world_run ToyDial.events (idle Toy.node AddressRepo_new))
             (replicate 5 (7%nat, failure Chunked.Eof)) in
  tasks w = [] /\ dialing_peers_ (dialer w) = ∅ /\ length (returned w) = 2%nat.
Proof.
  apply (every_dial_returns Toy.node AddressRepo_new ToyDial.events (replicate 5 (7%nat, failure Chunked.Eof))).
  apply Nat.leb_le. reflexivity.
Defined.

Lemma dial_tries_in_order_witness :
  exists d, drive 4 ToyDial.net [1] (dial ToyDial.info ToyDial.dialer0) = Some (d, success 3%nat).
Proof.
  eexists. refine (eq_trans (dial_tries_in_order ToyDial.net ToyDial.info ToyDial.dialer0 _ _ _) _).
  - reflexivity.
  - reflexivity.
  - discriminate.
  - reflexivity.
Defined.

Lemma dialled_peer_is_reused_witness :
  let d' := after_dial [1] ToyDial.dialer0 (success 3%nat, []) in
  exists c' cs, dial (mkPeerInfo [1] []) d' = (d', Returns (success c'))
    /\ connections_ (dialer_cmgr d') !! [1] = Some cs /\ c' ∈ cs /\ c' ∉ closed (dialer_cmgr d').
Proof.
  apply (dialled_peer_is_reused [1] 3%nat ToyDial.dialer0 []).
  - reflexivity.
  - apply (bool_decide_unpack _). vm_compute. exact I.
Defined.
