(* ===== verification/Host.v ===== *)
(** * The host

    [host/basic_host.cpp]: the object an application holds.  Most of its functions
    hand over to the listener manager, the dialer, the connection manager and the
    repositories; it computes itself which addresses it announces
    ([getPeerInfo]) and how a peer can be reached ([connectedness]). *)

From Stdlib Require Import Sorted.
From S2P Require Import Prelude Varint Stream Multiselect Multihash Base58 Multibase ByteUtil.
From S2P Require Import MultiaddrCodec MultiaddrPlain Multiaddress.
From S2P Require Import AddressRepository PeerRepository ConnectionManager ListenerManager Dialer.

#[export] Instance Multiaddress_countable : Countable Multiaddress.
Proof.
  refine (inj_countable' (fun a => (stringified_address_ a, bytes_ a)) (fun p => mkMultiaddress p.1 p.2) _).
  by intros [].
Defined.

Inductive Connectedness := NOT_CONNECTED | CONNECTED | CAN_CONNECT | CAN_NOT_CONNECT.

(** ** [std::set<Multiaddress>] *)

(** An address with the text of one that is there is not inserted. *)
Fixpoint set_insert (l : list Multiaddress) (x : Multiaddress) : list Multiaddress :=
  match l with
  | [] => [x]
  | y :: l' => if address_ltb x y then x :: l else if address_ltb y x then y :: set_insert l' x else l
  end.

(** The inner loop of [getPeerInfo] over the components of an address. *)
Fixpoint is_good_addr (pvs : list (Protocol * bytes)) : bool :=
  match pvs with
  | [] => true
  | (p, v) :: pvs =>
      match code p with
      | IP4 => if bool_decide (v = str "0.0.0.0") then false else is_good_addr pvs
      | IP6 => if bool_decide (v = str "::") then false else is_good_addr pvs
      | _ => is_good_addr pvs
      end
  end.

Section Host.
Context {Conn Transport E : Type} `{EqDecision Conn, !Countable Conn} `{!Traversal Conn}.
Context `{!Network Multiaddress Conn Transport E} `{Ext}.

(** The dialer holds the listener manager, which holds the connection manager and
    the transports, and the address repository. *)
Record BasicHost := mkHost {
  own_id : PeerId;
  dialer_ : Dialer (Addr := Multiaddress) (Conn := Conn) (Transport := Transport) (E := E);
  proto_repo : PeerRepository.Protocols.ProtocolRepo;
  uagent_repo : UserAgents.UserAgentRepo;
  client_version : bytes
}.
Definition host_listener (h : BasicHost) : ListenerManager := listener_ (dialer_ h).
Definition host_cmgr (h : BasicHost) : ConnectionManager := dialer_cmgr (dialer_ h).
Definition host_addr_repo (h : BasicHost) : AddressRepo := addr_repo_ (dialer_ h).
Definition with_dialer (d : Dialer) (h : BasicHost) : BasicHost :=
  mkHost (own_id h) d (proto_repo h) (uagent_repo h) (client_version h).
Definition with_listener (l : ListenerManager) (h : BasicHost) : BasicHost :=
  with_dialer (set_listener l (dialer_ h)) h.

Definition getLibp2pVersion : bytes := str "0.0.0".
Definition getLibp2pClientVersion (h : BasicHost) : bytes := client_version h.
Definition getId (h : BasicHost) : PeerId := own_id h.

Definition host_getAddresses (h : BasicHost) : list Multiaddress := getListenAddresses (host_listener h).
Definition getAddressesInterfaces (h : BasicHost) : list Multiaddress := getListenAddressesInterfaces (host_listener h).
Definition getObservedAddresses (h : BasicHost) : list Multiaddress :=
  match getAddresses (getId h) (host_addr_repo h) with
  | success l => l
  | failure _ => []
  end.

(** The loop that erases; [None] is undefined behaviour in [getProtocolsWithValues]. *)
Fixpoint erase_unspecified (l : list Multiaddress) : option (list Multiaddress) :=
  match l with
  | [] => Some []
  | a :: l =>
      pvs ← getProtocolsWithValues a;
      rest ← erase_unspecified l;
      Some (if is_good_addr pvs then a :: rest else rest)
  end.

Definition host_getPeerInfo (h : BasicHost) : option (PeerInfo (Multiaddress := Multiaddress)) :=
  let unique_addresses := foldl set_insert [] (host_getAddresses h) in
  let unique_addresses := foldl set_insert unique_addresses (getAddressesInterfaces h) in
  let unique_addresses := foldl set_insert unique_addresses (getObservedAddresses h) in
  unique_addr_list ← erase_unspecified unique_addresses;
  Some (mkPeerInfo (getId h) unique_addr_list).

Definition can_dial (h : BasicHost) (ma : Multiaddress) : bool :=
  match findBest (dialer_tmgr (dialer_ h)) ma with Some _ => true | None => false end.

Definition connectedness (p : PeerInfo (Multiaddress := Multiaddress)) (h : BasicHost) : Connectedness :=
  match getBestConnectionForPeer (info_id p) (host_cmgr h) with
  | Some _ => CONNECTED
  | None =>
      if existsb (can_dial h) (info_addresses p) then CAN_CONNECT
      else
        match getAddresses (info_id p) (host_addr_repo h) with
        | success known => if existsb (can_dial h) known then CAN_CONNECT else CAN_NOT_CONNECT
        | failure _ => CAN_NOT_CONNECT
        end
  end.

(** ** Delegations *)

Definition host_listenProtocol (protocol : Handler) (ids : list ProtocolName) (h : BasicHost) : BasicHost :=
  with_listener (listenProtocol protocol ids (host_listener h)) h.
Definition host_listen (bind : Multiaddress -> outcome E Multiaddress) (immediately : bool) (ma : Multiaddress)
    (h : BasicHost) : BasicHost * outcome (listen_error (E := E)) unit :=
  let '(l, r) := listen bind immediately ma (host_listener h) in (with_listener l h, r).
Definition host_closeListener (ma : Multiaddress) (h : BasicHost) :
    option (BasicHost * outcome (listen_error (E := E)) unit) :=
  '(l, r) ← closeListener ma (host_listener h); Some (with_listener l h, r).
Definition host_removeListener (ma : Multiaddress) (h : BasicHost) : BasicHost * outcome (listen_error (E := E)) unit :=
  let '(l, r) := removeListener ma (host_listener h) in (with_listener l h, r).
Definition host_start (bind : Multiaddress -> outcome E Multiaddress) (h : BasicHost) : BasicHost :=
  with_listener (start bind (host_listener h)) h.
Definition host_stop (h : BasicHost) : BasicHost := with_listener (stop (host_listener h)) h.
Definition connect (p : PeerInfo (Multiaddress := Multiaddress)) (h : BasicHost) : BasicHost * progress :=
  let '(d, r) := dial p (dialer_ h) in (with_dialer d h, r).
(** [close c]: what closing the connection [c] calls back. *)
Definition disconnect (close : Conn -> list reentry) (p : PeerId) (h : BasicHost) : BasicHost :=
  with_listener (set_cmgr (closeConnectionsToPeer close p (host_cmgr h)) (host_listener h)) h.
(** [newStream] on a connection is the dialer's. *)
Definition host_newStream {C : Type} `{!Reader C E, !Writer C E} (fuel : nat) (opened : outcome E C)
    (protocols : list ProtocolName) : option (outcome (error E) (C * ProtocolName)) :=
  newStream fuel opened protocols.
Definition host_getSupportedProtocols (h : BasicHost) : list ProtocolName := getSupportedProtocols (host_listener h).
Definition host_getConnectedPeers (h : BasicHost) : list PeerId := getConnectedPeers (host_cmgr h).
Definition host_getConnectedPeerCount (h : BasicHost) : nat := getConnectedPeerCount (host_cmgr h).

(** The subscriber of [setOnNewConnectionHandler]: [alive] is the result of [lock],
    [remote] that of [remoteMultiaddr]; the result is the argument of the handler. *)
Definition on_new_connection (conn : Conn) (alive : bool) (remote : outcome E Multiaddress) :
    option (PeerInfo (Multiaddress := Multiaddress)) :=
  if alive then
    match remote with
    | failure _ => None
    | success a => Some (mkPeerInfo (remotePeer conn) [a])
    end
  else None.
End Host.

(** ** The set of addresses *)

Abbreviation text := stringified_address_.
Definition text_lt (a b : Multiaddress) : Prop := bytes_ltb (text a) (text b) = true.

Lemma elem_of_set_insert l x b : b ∈ set_insert l x -> b = x \/ b ∈ l.
Proof.
  induction l as [|y l IH]; cbn [set_insert]; [set_solver|].
  destruct (address_ltb x y); [set_solver|]. destruct (address_ltb y x); [|set_solver].
  rewrite !elem_of_cons. tauto.
Qed.

Lemma set_insert_keeps l x b : b ∈ l -> b ∈ set_insert l x.
Proof.
  induction l as [|y l IH]; cbn [set_insert]; [set_solver|].
  destruct (address_ltb x y); [set_solver|]. destruct (address_ltb y x); [|done]. set_solver.
Qed.

Lemma set_insert_has l x : exists b, b ∈ set_insert l x /\ text b = text x.
Proof.
  induction l as [|y l IH]; cbn [set_insert]; [exists x; set_solver|].
  unfold address_ltb. pose proof (bytes_ltb_trichotomy (text x) (text y)) as Ht.
  destruct (bytes_ltb (text x) (text y)); [exists x; set_solver|].
  destruct (bytes_ltb (text y) (text x)); [|exists y; set_solver].
  destruct IH as (b & Hb & Hx). exists b. set_solver.
Qed.

Lemma set_insert_sorted l x : StronglySorted text_lt l -> StronglySorted text_lt (set_insert l x).
Proof.
  induction 1 as [|y l Hs IH Hy]; cbn [set_insert]; [by repeat constructor|]. unfold address_ltb.
  destruct (bytes_ltb (text x) (text y)) eqn:Hxy; [|destruct (bytes_ltb (text y) (text x)) eqn:Hyx].
  - constructor; [by constructor|]. constructor; [done|]. eapply Forall_impl; [exact Hy|].
    intros z Hz. unfold text_lt in *. by eapply bytes_ltb_trans.
  - constructor; [done|]. rewrite Forall_forall in Hy |- *. intros b Hb.
    apply elem_of_set_insert in Hb as [->|Hb]; [done|by apply Hy].
  - by constructor.
Qed.

Lemma set_of_list ms l :
  StronglySorted text_lt l ->
  StronglySorted text_lt (foldl set_insert l ms)
  /\ (forall b, b ∈ foldl set_insert l ms -> b ∈ l \/ b ∈ ms)
  /\ (forall b, b ∈ l \/ b ∈ ms -> exists b', b' ∈ foldl set_insert l ms /\ text b' = text b).
Proof.
  revert l. induction ms as [|x ms IH]; intros l Hl; cbn [foldl].
  { split_and!; [done|tauto|]. intros b [Hb|Hb]; [by exists b|set_solver]. }
  destruct (IH (set_insert l x) (set_insert_sorted l x Hl)) as (Hs & He & Hk). split_and!; [done| |].
  - intros b Hb. destruct (He b Hb) as [Hin|Hin]; [|set_solver]. apply elem_of_set_insert in Hin. set_solver.
  - intros b [Hb|Hb]; [apply Hk; left; by apply set_insert_keeps|]. apply elem_of_cons in Hb as [->|Hb]; [|by apply Hk; right].
    destruct (set_insert_has l x) as (b & Hb & Hx). destruct (Hk b (or_introl Hb)) as (b' & Hb' & Hx'). exists b'. by rewrite Hx'.
Qed.

(** An address that names a host: no component is the IPv4 address 0.0.0.0 or the
    IPv6 address ::. *)
Definition specified (pvs : list (Protocol * bytes)) : Prop :=
  forall p v, (p, v) ∈ pvs -> ~ (code p = IP4 /\ v = str "0.0.0.0") /\ ~ (code p = IP6 /\ v = str "::").

Lemma is_good_addr_cons p v pvs :
  is_good_addr ((p, v) :: pvs)
  = negb (bool_decide (code p = IP4 /\ v = str "0.0.0.0")) && negb (bool_decide (code p = IP6 /\ v = str "::"))
    && is_good_addr pvs.
Proof.
  cbn [is_good_addr]. destruct (code p) eqn:Hc;
    try (rewrite !bool_decide_false by (intros [? _]; congruence); done).
  - rewrite (bool_decide_false (IP4 = IP6 /\ _)) by (intros [? _]; congruence).
    case_bool_decide as Hv; [by rewrite bool_decide_true|]. by rewrite bool_decide_false by tauto.
  - rewrite (bool_decide_false (IP6 = IP4 /\ _)) by (intros [? _]; congruence).
    case_bool_decide as Hv; [by rewrite bool_decide_true|]. by rewrite bool_decide_false by tauto.
Qed.

Lemma is_good_addr_spec pvs : is_good_addr pvs = true <-> specified pvs.
Proof.
  unfold specified. induction pvs as [|[p v] pvs IH]; [cbn; set_solver|].
  rewrite is_good_addr_cons, !andb_true_iff, IH, !negb_true_iff, !bool_decide_eq_false. split.
  - intros [Hp Hall] q w [[= -> ->]|Hin]%elem_of_cons; [done|by apply Hall].
  - intros Hall. split; [apply Hall; set_solver|]. intros q w Hin. apply Hall. set_solver.
Qed.

Section Properties.
Context {Conn Transport E : Type} `{EqDecision Conn, !Countable Conn} `{!Traversal Conn}.
Context `{!Network Multiaddress Conn Transport E} `{Ext}.
Abbreviation host := (BasicHost (Conn := Conn) (Transport := Transport) (E := E)).

(** What an address says, if its text can be read. *)
Definition announces (a : Multiaddress) : Prop := exists pvs, getProtocolsWithValues a = Some pvs /\ specified pvs.

Lemma announces_text a b : text a = text b -> announces a -> announces b.
Proof. unfold announces, getProtocolsWithValues. by intros ->. Qed.

Lemma all_readable l :
  forallb (fun a => match getProtocolsWithValues a with Some _ => true | None => false end) l = true ->
  forall a, a ∈ l -> is_Some (getProtocolsWithValues a).
Proof.
  intros Hl a Ha. rewrite forallb_forall in Hl. specialize (Hl a ltac:(by apply list_elem_of_In)).
  destruct (getProtocolsWithValues a); [by eexists|done].
Qed.

Lemma erase_unspecified_spec l :
  (forall a, a ∈ l -> is_Some (getProtocolsWithValues a)) ->
  exists r, erase_unspecified l = Some r /\ (StronglySorted text_lt l -> StronglySorted text_lt r)
    /\ forall a, a ∈ r <-> a ∈ l /\ announces a.
Proof.
  induction l as [|a l IH]; intros Hr; cbn [erase_unspecified].
  { exists []. split_and!; [done|done|set_solver]. }
  destruct (Hr a ltac:(set_solver)) as [pvs Hp]. rewrite Hp.
  destruct IH as (r & -> & Hs & He); [set_solver|]. cbn [mbind option_bind].
  assert (announces a <-> is_good_addr pvs = true) as Ha.
  { rewrite is_good_addr_spec. unfold announces. rewrite Hp. split; [by intros (? & [= ->] & ?)|eauto]. }
  eexists. split; [reflexivity|]. split.
  - intros Hsl. apply StronglySorted_inv in Hsl as [Hsl Hal]. specialize (Hs Hsl). destruct (is_good_addr pvs); [|done].
    constructor; [done|]. rewrite Forall_forall in Hal |- *. intros b Hb. apply Hal. by apply He.
  - intros b. destruct (is_good_addr pvs) eqn:Hg.
    + rewrite !elem_of_cons, He. naive_solver.
    + rewrite elem_of_cons, He. split; [tauto|]. intros [[->|Hb] Han]; [by apply Ha in Han|done].
Qed.

(** The addresses a host announces.  If the text of every address can be read,
    [getPeerInfo] returns the host's id and a strictly increasing list, by text,
    without duplicates: every address in it is one the host listens on, one of an
    interface or an observed one, and names a host; and every such address that
    names a host (no component 0.0.0.0 or ::) is in it, by its text. *)
Theorem peer_info_exact (h : host) :
  let all := host_getAddresses h ++ getAddressesInterfaces h ++ getObservedAddresses h in
  (forall a, a ∈ all -> is_Some (getProtocolsWithValues a)) ->
  exists l, host_getPeerInfo h = Some (mkPeerInfo (getId h) l)
    /\ StronglySorted text_lt l
    /\ (forall a, a ∈ l -> a ∈ all /\ announces a)
    /\ (forall a, a ∈ all -> announces a -> exists b, b ∈ l /\ text b = text a).
Proof.
  intros all Hread. unfold host_getPeerInfo. rewrite <- !foldl_app, <- ?app_assoc. fold all.
  destruct (set_of_list all [] ltac:(constructor)) as (Hs & He & Hk).
  destruct (erase_unspecified_spec (foldl set_insert [] all)) as (r & -> & Hrs & Hre).
  { intros a Ha. destruct (He a Ha); [set_solver|by apply Hread]. }
  exists r. cbn [mbind option_bind]. split_and!; [done|by apply Hrs| |].
  - intros a Ha. apply Hre in Ha as [Ha Han]. destruct (He a Ha); [set_solver|done].
  - intros a Ha Han. destruct (Hk a (or_intror Ha)) as (b & Hb & Hx). exists b. split; [|done].
    apply Hre. split; [done|]. by apply (announces_text a).
Qed.

Lemma can_dial_spec (h : host) ma :
  can_dial h ma = true <-> exists t, t ∈ dialer_tmgr (dialer_ h) /\ canDial t ma = true.
Proof.
  unfold can_dial, findBest. destruct (list_find _ _) as [[i t]|] eqn:Hf; cbn.
  - apply list_find_Some in Hf as (Hi & Hc & _). apply list_elem_of_lookup_2 in Hi. split; [eauto|done].
  - apply list_find_None in Hf. rewrite Forall_forall in Hf. split; [done|]. intros (t & Ht & Hc). by destruct (Hf t Ht).
Qed.

(** The addresses of a peer: those given and those known. *)
Definition addresses_of (p : PeerInfo (Multiaddress := Multiaddress)) (h : host) : list Multiaddress :=
  info_addresses p ++ match getAddresses (info_id p) (host_addr_repo h) with success l => l | failure _ => [] end.

Context `{!TraversalLaws Conn}.

Lemma connected_spec (h : host) p :
  is_Some (getBestConnectionForPeer p (host_cmgr h))
  <-> exists cs c, connections_ (host_cmgr h) !! p = Some cs /\ c ∈ cs /\ c ∉ closed (host_cmgr h).
Proof.
  pose proof (best_connection_spec p (host_cmgr h)) as Hb. destruct (getBestConnectionForPeer p (host_cmgr h)) as [c|].
  - destruct Hb as (cs & Hcs & Hc & Ho). split; [by exists cs, c|done].
  - split; [by intros []|]. intros (cs & c & Hcs & Hc & Ho). by apply Hb in Hcs; set_solver.
Qed.

(** [NOT_CONNECTED] is never the answer. *)
Lemma connectedness_cases (h : host) p :
  let dialable := exists ma t, ma ∈ addresses_of p h /\ t ∈ dialer_tmgr (dialer_ h) /\ canDial t ma = true in
  (is_Some (getBestConnectionForPeer (info_id p) (host_cmgr h)) /\ connectedness p h = CONNECTED)
  \/ (getBestConnectionForPeer (info_id p) (host_cmgr h) = None
      /\ (dialable /\ connectedness p h = CAN_CONNECT \/ ~ dialable /\ connectedness p h = CAN_NOT_CONNECT)).
Proof.
  intros dialable. unfold connectedness. destruct (getBestConnectionForPeer _ _) as [c|]; [left; eauto|right].
  split; [done|].
  assert (dialable <-> existsb (can_dial h) (addresses_of p h) = true) as Hd.
  { unfold dialable. rewrite existsb_exists. setoid_rewrite <- list_elem_of_In. setoid_rewrite can_dial_spec. naive_solver. }
  rewrite Hd. unfold addresses_of. rewrite existsb_app.
  destruct (existsb (can_dial h) (info_addresses p)); cbn [orb]; [by left|].
  destruct (getAddresses _ _) as [l|e]; [destruct (existsb (can_dial h) l)|cbn]; auto.
Qed.

(** What [connectedness] says of a peer.  [CONNECTED] exactly when a connection to
    it is stored and open; otherwise [CAN_CONNECT] exactly when some transport can
    dial some address, given or known; otherwise [CAN_NOT_CONNECT], also for a peer
    without any address: [NOT_CONNECTED] is never the answer.  After [disconnect] the
    peer is no longer [CONNECTED] and the answer depends on its addresses alone. *)
Theorem connectedness_exact (h : host) p close :
  (forall c, close c ⊆ [Closes c]) -> map_Forall (fun _ cs => cs <> ∅) (connections_ (host_cmgr h)) ->
  let connected := exists cs c, connections_ (host_cmgr h) !! info_id p = Some cs /\ c ∈ cs /\ c ∉ closed (host_cmgr h) in
  let dialable := exists ma t, ma ∈ addresses_of p h /\ t ∈ dialer_tmgr (dialer_ h) /\ canDial t ma = true in
  (connectedness p h = CONNECTED <-> connected)
  /\ (connectedness p h = CAN_CONNECT <-> ~ connected /\ dialable)
  /\ (connectedness p h = CAN_NOT_CONNECT <-> ~ connected /\ ~ dialable)
  /\ (connectedness p (disconnect close (info_id p) h) = CAN_CONNECT <-> dialable)
  /\ (connectedness p (disconnect close (info_id p) h) = CAN_NOT_CONNECT <-> ~ dialable).
Proof.
  intros Hclose Hne connected dialable. pose proof (connected_spec h (info_id p)) as Hc. fold connected in Hc.
  pose proof (connectedness_cases h p) as Hcase. fold dialable in Hcase.
  destruct (disconnect_spec close (info_id p) (host_cmgr h) Hclose Hne) as [Hdel _].
  pose proof (connectedness_cases (disconnect close (info_id p) h) p) as Hcase'.
  assert (getBestConnectionForPeer (info_id p) (host_cmgr (disconnect close (info_id p) h)) = None) as Hnone.
  { change (host_cmgr (disconnect close (info_id p) h)) with (closeConnectionsToPeer close (info_id p) (host_cmgr h)).
    unfold getBestConnectionForPeer. by rewrite Hdel, lookup_delete_eq. }
  rewrite Hnone in Hcase'. destruct Hcase' as [[[? [=]] _]|[_ Hcase']].
  change (addresses_of p (disconnect close (info_id p) h)) with (addresses_of p h) in Hcase'.
  change (dialer_tmgr (dialer_ (disconnect close (info_id p) h))) with (dialer_tmgr (dialer_ h)) in Hcase'.
  fold dialable in Hcase'.
  assert (getBestConnectionForPeer (info_id p) (host_cmgr h) = None -> ~ connected) as Hn
    by (intros Hb Hcn; apply Hc in Hcn; rewrite Hb in Hcn; by destruct Hcn).
  destruct Hcase as [[Hs ->]|[Hb [[Hd ->]|[Hd ->]]]]; destruct Hcase' as [[Hd' ->]|[Hd' ->]];
    (split_and!; split; try done; try tauto).
Qed.
End Properties.

(** ** A concrete host *)
Module ToyHost.
Import (hints) ConnectionManager.Plain ListenerManager.Toy MultiaddrPlain.Plain.

#[export] Instance toy_host_network : Network Multiaddress nat unit Chunked.eof := {|
  canDial _ a := bool_decide (is_prefix (str "/ip4/") (stringified_address_ a));
  asQuic _ := success tt;
  remotePeer := ConnectionManager.Plain.peer_of;
  order_listeners := map_to_list;
  order_protocols := map_to_list;
  longest_prefix m p := ListenerManager.Toy.longest m p (length p);
  equal_prefix_range m pre := filter (fun e => take (length pre) e.1 = pre) (map_to_list m)
|}.

Definition any : Multiaddress := mkMultiaddress (str "/ip4/0.0.0.0/udp/9000") [].
Definition lan : Multiaddress := mkMultiaddress (str "/ip4/10.0.0.7/udp/9000") [].
Definition wan : Multiaddress := mkMultiaddress (str "/ip4/1.2.3.4/udp/9000") [].
Definition peer : PeerId := [5].

Definition toy_host : BasicHost (Conn := nat) (Transport := unit) (E := Chunked.eof) :=
  let l := mkListenerManager true {[any := 0%nat]} ∅ [tt]
             (addConnectionToPeer peer (Some 2%nat) ConnectionManager_new) {[0%nat := lan]} 1%nat ∅ [] in
  let repo := (addAddresses [9] [wan; lan] 1000 0 AddressRepo_new).1 in
  mkHost [9] (mkDialer ∅ l repo) ∅ ∅ (str "x").
End ToyHost.
Import (hints) ConnectionManager.Plain MultiaddrPlain.Plain ToyHost.

Lemma peer_info_exact_witness :
  exists l, host_getPeerInfo ToyHost.toy_host = Some (mkPeerInfo [9] l)
    /\ StronglySorted text_lt l
    /\ exists b, b ∈ l /\ text b = text ToyHost.wan.
Proof.
  destruct (peer_info_exact ToyHost.toy_host) as (l & Hl & Hs & _ & Hk).
  - apply all_readable. vm_compute. reflexivity.
  - exists l. split; [exact Hl|]. split; [exact Hs|]. apply Hk.
    + apply elem_of_app; right. apply elem_of_app; right. apply list_elem_of_here.
    + eexists. split; [vm_compute; reflexivity|]. apply is_good_addr_spec. vm_compute. reflexivity.
Defined.

Lemma connectedness_exact_witness :
  connectedness (mkPeerInfo ToyHost.peer [ToyHost.wan]) ToyHost.toy_host = CONNECTED
  /\ connectedness (mkPeerInfo ToyHost.peer [ToyHost.wan])
       (disconnect (fun c => [Closes c]) ToyHost.peer ToyHost.toy_host) = CAN_CONNECT.
Proof.
  destruct (connectedness_exact ToyHost.toy_host (mkPeerInfo ToyHost.peer [ToyHost.wan]) (fun c => [Closes c]))
    as (Hc & _ & _ & Hd & _).
  - intros c. set_solver.
  - intros p cs Hcs. assert (cs = {[2%nat]}) as ->; [|set_solver].
    change (connections_ (host_cmgr ToyHost.toy_host)) with
      ({[ToyHost.peer := {[2%nat]}]} : gmap PeerId (gset nat)) in Hcs.
    by apply lookup_singleton_Some in Hcs as [_ <-].
  - split; [apply Hc|apply Hd].
    + exists {[2%nat]}, 2%nat. split_and!; [vm_compute; reflexivity|set_solver|vm_compute; set_solver].
    + exists ToyHost.wan, tt. split_and!; [apply list_elem_of_here|apply list_elem_of_here|vm_compute; reflexivity].
Defined.
