(* ===== verification/CApi.v ===== *)
(** * The C interface

    [c/libp2p_c.cpp] with the types of [libp2p/c/libp2p_c.h]: contexts (an event loop
    each), hosts, streams, multiaddresses and peer ids behind raw pointers that the
    client owns, and asynchronous calls whose coroutines capture those pointers.

    A pointer is the address of an object in the table of its type, [NULL] is
    [None]; using an address that is not in its table is undefined behaviour, and
    then the result of an operation is [None].  The client's own memory, its strings
    and buffers, is a table as well.  A coroutine that [coroSpawn] starts is
    recorded; it runs, up to the call it awaits and then to its end, when the
    environment says so and its loop runs.  A callback is recorded as a call with
    its arguments; what the client does in it are further calls of the interface. *)

From S2P Require Import Prelude Varint Stream Multiselect Multihash Base58 Multibase ByteUtil.
From S2P Require Import MultiaddrCodec MultiaddrPlain Multiaddress PeerAddress Keys SamplePeer.
From S2P Require Import AddressRepository PeerRepository ConnectionManager ListenerManager Dialer Host.

(** ** Data *)

Inductive libp2p_error_t :=
| LIBP2P_SUCCESS
| LIBP2P_ERROR_INVALID_ARGUMENT
| LIBP2P_ERROR_OUT_OF_MEMORY
| LIBP2P_ERROR_CONNECTION_FAILED
| LIBP2P_ERROR_PROTOCOL_ERROR
| LIBP2P_ERROR_IO_ERROR
| LIBP2P_ERROR_TIMEOUT
| LIBP2P_ERROR_NOT_FOUND
| LIBP2P_ERROR_ALREADY_EXISTS
| LIBP2P_ERROR_UNKNOWN.
#[export] Instance libp2p_error_eq_dec : EqDecision libp2p_error_t.
Proof. solve_decision. Defined.

(** The values of the enumerators. *)
Definition error_code (e : libp2p_error_t) : Z :=
  match e with
  | LIBP2P_SUCCESS => 0
  | LIBP2P_ERROR_INVALID_ARGUMENT => -1
  | LIBP2P_ERROR_OUT_OF_MEMORY => -2
  | LIBP2P_ERROR_CONNECTION_FAILED => -3
  | LIBP2P_ERROR_PROTOCOL_ERROR => -4
  | LIBP2P_ERROR_IO_ERROR => -5
  | LIBP2P_ERROR_TIMEOUT => -6
  | LIBP2P_ERROR_NOT_FOUND => -7
  | LIBP2P_ERROR_ALREADY_EXISTS => -8
  | LIBP2P_ERROR_UNKNOWN => -999
  end.

Inductive libp2p_log_level_t :=
| LIBP2P_LOG_TRACE | LIBP2P_LOG_DEBUG | LIBP2P_LOG_INFO | LIBP2P_LOG_WARN | LIBP2P_LOG_ERROR | LIBP2P_LOG_CRITICAL.

Abbreviation ptr := nat.
(** A function pointer and the [void *] that is passed to it. *)
Record closure := mkClosure { fn : nat; user_data : option ptr }.

Record libp2p_context := mkContext { work_guard : bool; running : bool }.
(** [boost::asio::io_context], which a context creates and hosts share: whether it has
    been stopped and how many calls of [run] are in progress.  It has the address of
    its context. *)
Record io_context := mkLoop { io_stopped : bool; io_runs : nat }.

(** [shared_ptr<Stream>] *)
Abbreviation StreamPtr := (option nat).
Record libp2p_stream := mkStream { stream : StreamPtr; stream_host : ptr }.
Record libp2p_multiaddr := mkMultiaddr { addr : Multiaddress; addr_str : bytes }.
Record libp2p_peer_id := mkPeerId { id : Multihash; id_str : bytes }.
Record GenericProtocolHandler := mkHandler { protocol_id_ : ProtocolName; handler_ : closure; host_wrapper_ : ptr }.

(** What a returned [const char *] points to. *)
Inductive c_string :=
| InMultiaddr (p : ptr)
| InPeerId (p : ptr)
| ThreadLocal
| Static (s : bytes).

(** A call of one of the client's functions. *)
Inductive call :=
| OnStream (f : closure) (stream : option ptr)
| OnConnection (f : closure) (host : ptr) (peer_id : option bytes)
| OnRead (f : closure) (stream : ptr) (data : option ptr) (size : nat) (error : libp2p_error_t)
| OnWrite (f : closure) (stream : ptr) (bytes_written : nat) (error : libp2p_error_t).

(** The coroutines, with what their lambdas capture. *)
Inductive job :=
| ReadJob (stream buffer : ptr) (buffer_size : nat)
| WriteJob (stream data : ptr) (size : nat)
| DialJob (host : ptr) (peer : Multihash) (address : Multiaddress)
| NewStreamJob (host : ptr) (peer : Multihash) (protocol_id : ptr).
Record coroutine := mkCoroutine { co_job : job; co_callback : closure; co_loop : ptr; co_started : bool }.

(** [libp2p_error_string], of any [int] *)
Definition libp2p_error_string (error : Z) : bytes :=
  if error =? 0 then str "Success"
  else if error =? -1 then str "Invalid argument"
  else if error =? -2 then str "Out of memory"
  else if error =? -3 then str "Connection failed"
  else if error =? -4 then str "Protocol error"
  else if error =? -5 then str "I/O error"
  else if error =? -6 then str "Timeout"
  else if error =? -7 then str "Not found"
  else if error =? -8 then str "Already exists"
  else if error =? -999 then str "Unknown error"
  else str "Invalid error code".

(** The seed as a number: 32 bits of the hash of the string. *)
Definition seed_index (hash_string : bytes -> Z) (keypair_seed : option bytes) : Z :=
  match keypair_seed with
  | None => 0
  | Some seed => hash_string seed mod 2 ^ 32
  end mod 1000.

Section CApi.
Context {Conn Transport E : Type} `{EqDecision Conn, !Countable Conn} `{!Traversal Conn}.
Context `{!Network Multiaddress Conn Transport E} `{Ext, Hex, Providers, Protobuf}.
(** The digest of peer ids, [std::hash<std::string>], and the transport of the hosts. *)
Context (sha256 : bytes -> bytes) (hash_string : bytes -> Z) (quic : Transport).

Record libp2p_host := mkCHost {
  host : option (BasicHost (Conn := Conn) (Transport := Transport) (E := E));
  host_context : ptr;
  protocol_handlers : gmap ProtocolName closure;
  host_id : option Multihash
}.

(** The objects, the memory of the client, the coroutines that have not ended, and as
    history the accepted calls and the callbacks made, with the coroutine that made
    each.  The orphans are hosts that are gone while coroutines of their listener
    manager are left, each with the loop on which these are. *)
Record capi := mkCapi {
  contexts : gmap ptr libp2p_context;
  loops : gmap ptr io_context;
  hosts : gmap ptr libp2p_host;
  streams : gmap ptr libp2p_stream;
  multiaddrs : gmap ptr libp2p_multiaddr;
  peer_ids : gmap ptr libp2p_peer_id;
  handlers : gmap nat GenericProtocolHandler;
  listen_addr : bytes;
  memory : gmap ptr bytes;
  next : ptr;
  coroutines : gmap nat coroutine;
  accepted : list coroutine;
  calls : list (option nat * call);
  orphans : gmap ptr ptr
}.
Definition capi_new : capi := mkCapi ∅ ∅ ∅ ∅ ∅ ∅ ∅ [] ∅ 0 ∅ [] [] ∅.

Definition set_contexts (m : gmap ptr libp2p_context) (s : capi) : capi :=
  mkCapi m (loops s) (hosts s) (streams s) (multiaddrs s) (peer_ids s) (handlers s) (listen_addr s) (memory s) (next s)
    (coroutines s) (accepted s) (calls s) (orphans s).
Definition set_loops (m : gmap ptr io_context) (s : capi) : capi :=
  mkCapi (contexts s) m (hosts s) (streams s) (multiaddrs s) (peer_ids s) (handlers s) (listen_addr s) (memory s) (next s)
    (coroutines s) (accepted s) (calls s) (orphans s).
Definition set_hosts (m : gmap ptr libp2p_host) (s : capi) : capi :=
  mkCapi (contexts s) (loops s) m (streams s) (multiaddrs s) (peer_ids s) (handlers s) (listen_addr s) (memory s) (next s)
    (coroutines s) (accepted s) (calls s) (orphans s).
Definition set_streams (m : gmap ptr libp2p_stream) (s : capi) : capi :=
  mkCapi (contexts s) (loops s) (hosts s) m (multiaddrs s) (peer_ids s) (handlers s) (listen_addr s) (memory s) (next s)
    (coroutines s) (accepted s) (calls s) (orphans s).
Definition set_multiaddrs (m : gmap ptr libp2p_multiaddr) (s : capi) : capi :=
  mkCapi (contexts s) (loops s) (hosts s) (streams s) m (peer_ids s) (handlers s) (listen_addr s) (memory s) (next s)
    (coroutines s) (accepted s) (calls s) (orphans s).
Definition set_peer_ids (m : gmap ptr libp2p_peer_id) (s : capi) : capi :=
  mkCapi (contexts s) (loops s) (hosts s) (streams s) (multiaddrs s) m (handlers s) (listen_addr s) (memory s) (next s)
    (coroutines s) (accepted s) (calls s) (orphans s).
Definition set_handlers (m : gmap nat GenericProtocolHandler) (s : capi) : capi :=
  mkCapi (contexts s) (loops s) (hosts s) (streams s) (multiaddrs s) (peer_ids s) m (listen_addr s) (memory s) (next s)
    (coroutines s) (accepted s) (calls s) (orphans s).
Definition set_listen_addr (a : bytes) (s : capi) : capi :=
  mkCapi (contexts s) (loops s) (hosts s) (streams s) (multiaddrs s) (peer_ids s) (handlers s) a (memory s) (next s)
    (coroutines s) (accepted s) (calls s) (orphans s).
Definition set_memory (m : gmap ptr bytes) (s : capi) : capi :=
  mkCapi (contexts s) (loops s) (hosts s) (streams s) (multiaddrs s) (peer_ids s) (handlers s) (listen_addr s) m (next s)
    (coroutines s) (accepted s) (calls s) (orphans s).
Definition set_coroutines (m : gmap nat coroutine) (s : capi) : capi :=
  mkCapi (contexts s) (loops s) (hosts s) (streams s) (multiaddrs s) (peer_ids s) (handlers s) (listen_addr s) (memory s)
    (next s) m (accepted s) (calls s) (orphans s).
Definition set_orphans (m : gmap ptr ptr) (s : capi) : capi :=
  mkCapi (contexts s) (loops s) (hosts s) (streams s) (multiaddrs s) (peer_ids s) (handlers s) (listen_addr s) (memory s)
    (next s) (coroutines s) (accepted s) (calls s) m.
(** An address that no object has had. *)
Definition bump (s : capi) : capi :=
  mkCapi (contexts s) (loops s) (hosts s) (streams s) (multiaddrs s) (peer_ids s) (handlers s) (listen_addr s) (memory s)
    (S (next s)) (coroutines s) (accepted s) (calls s) (orphans s).
Definition calls_back (who : option nat) (k : call) (s : capi) : capi :=
  mkCapi (contexts s) (loops s) (hosts s) (streams s) (multiaddrs s) (peer_ids s) (handlers s) (listen_addr s) (memory s)
    (next s) (coroutines s) (accepted s) (calls s ++ [(who, k)]) (orphans s).
(** [coroSpawn] *)
Definition spawn (c : coroutine) (s : capi) : capi :=
  mkCapi (contexts s) (loops s) (hosts s) (streams s) (multiaddrs s) (peer_ids s) (handlers s) (listen_addr s) (memory s)
    (next s) (<[length (accepted s) := c]> (coroutines s)) (accepted s ++ [c]) (calls s) (orphans s).
Definition end_coroutine (i : nat) (k : call) (s : capi) : capi :=
  calls_back (Some i) k (set_coroutines (delete i (coroutines s)) s).

(** [None] for undefined behaviour, then [None] for [NULL]. *)
Definition deref {A} (m : gmap ptr A) (p : option ptr) : option (option A) :=
  match p with
  | None => Some None
  | Some p => a ← m !! p; Some (Some a)
  end.
(** [!host || !host->host] *)
Definition get_host (p : option ptr) (s : capi) :
    option (option (ptr * libp2p_host * BasicHost (Conn := Conn) (Transport := Transport) (E := E))) :=
  w ← deref (hosts s) p;
  Some (p ← p; w ← w; h ← host w; Some (p, w, h)).
(** [!stream || !stream->stream] *)
Definition get_stream (p : option ptr) (s : capi) : option (option (ptr * libp2p_stream)) :=
  w ← deref (streams s) p;
  Some (p ← p; w ← w; _ ← stream w; Some (p, w)).
Definition put_host (p : ptr) (w : libp2p_host) (h : BasicHost) (s : capi) : capi :=
  set_hosts (<[p := mkCHost (Some h) (host_context w) (protocol_handlers w) (host_id w)]> (hosts s)) s.

(** An error code is mapped to one value. *)
Definition convert_error (ec : option E) : libp2p_error_t :=
  match ec with None => LIBP2P_SUCCESS | Some _ => LIBP2P_ERROR_UNKNOWN end.

(** ** Contexts *)

Definition libp2p_context_create (s : capi) : capi * option ptr :=
  let p := next s in
  (bump (set_contexts (<[p := mkContext true false]> (contexts s)) (set_loops (<[p := mkLoop false 0]> (loops s)) s)), Some p).

(** [io_context::stop] *)
Definition io_stop (l : ptr) (s : capi) : capi :=
  set_loops (alter (fun io => mkLoop true (io_runs io)) l (loops s)) s.

Definition libp2p_context_destroy (ctx : option ptr) (s : capi) : option capi :=
  c ← deref (contexts s) ctx;
  Some match ctx, c with
       | Some p, Some c =>
           let s := if running c then io_stop p s else s in
           set_contexts (delete p (contexts s)) s
       | _, _ => s
       end.

(** [libp2p_context_run] up to the blocking call, if it gets there. *)
Definition libp2p_context_run (ctx : option ptr) (s : capi) : option (capi * option libp2p_error_t) :=
  c ← deref (contexts s) ctx;
  Some match ctx, c with
       | Some p, Some c =>
           (set_loops (alter (fun io => mkLoop (io_stopped io) (S (io_runs io))) p (loops s))
              (set_contexts (<[p := mkContext (work_guard c) true]> (contexts s)) s), None)
       | _, _ => (s, Some LIBP2P_ERROR_INVALID_ARGUMENT)
       end.

Definition libp2p_context_stop (ctx : option ptr) (s : capi) : option capi :=
  c ← deref (contexts s) ctx;
  Some match ctx, c with
       | Some p, Some c =>
           let s := set_contexts (<[p := mkContext false (running c)]> (contexts s)) s in
           if running c then io_stop p s else s
       | _, _ => s
       end.

(** A loop has work while its guard or one of the coroutines is there. *)
Definition has_work (l : ptr) (s : capi) : bool :=
  match contexts s !! l with Some c => work_guard c | None => false end
  || existsb (fun e => bool_decide (co_loop e.2 = l)) (map_to_list (coroutines s)).
Definition loop_runs (l : ptr) (s : capi) : bool :=
  match loops s !! l with Some io => negb (io_stopped io) && (0 <? io_runs io)%nat | None => false end.

(** The rest of [libp2p_context_run].  [run] returns once the loop is stopped or has no
    work, which stops it; it throws what a coroutine throws. *)
Definition run_ends (thrown : bool) (l : ptr) (s : capi) : option (capi * option libp2p_error_t) :=
  match loops s !! l with
  | None => Some (s, None)
  | Some io =>
      if (0 <? io_runs io)%nat && (thrown || io_stopped io || negb (has_work l s)) then
        let s := set_loops (<[l := mkLoop (io_stopped io || negb thrown) (pred (io_runs io))]> (loops s)) s in
        c ← contexts s !! l;
        Some (set_contexts (<[l := mkContext (work_guard c) false]> (contexts s)) s,
              Some (if thrown then LIBP2P_ERROR_UNKNOWN else LIBP2P_SUCCESS))
      else Some (s, None)
  end.

(** ** Hosts *)

(** [injector.create<shared_ptr<BasicHost>>()]: the components, with their empty tables. *)
Definition injected_host (peer : Multihash) : BasicHost (Conn := Conn) (Transport := Transport) (E := E) :=
  mkHost (toBuffer peer) (mkDialer ∅ (ListenerManager_new [quic] ConnectionManager_new) AddressRepo_new) ∅ ∅
    (str "cpp-libp2p-mini").

Definition libp2p_host_create (ctx keypair_seed : option ptr) (s : capi) : option (capi * option ptr) :=
  match ctx with
  | None => Some (s, None)
  | Some c =>
      seed ← deref (memory s) keypair_seed;
      (** an exception leaves this function *)
      sample_peer ← makeEd25519 sha256 (seed_index hash_string seed);
      _ ← contexts s !! c;
      let p := next s in
      Some (bump (set_hosts (<[p := mkCHost (Some (injected_host (peer_id sample_peer))) c ∅ (Some (peer_id sample_peer))]>
                               (hosts s)) s), Some p)
  end.

(** The coroutines of [ListenerManager::listen] and [ListenerManager::onConnection]
    capture [this], which does not keep the manager alive: they are left on the loop
    when the host goes, and their frames with the loop. *)
Definition has_coroutines (b : BasicHost (Conn := Conn) (Transport := Transport) (E := E)) : bool :=
  negb (bool_decide (acceptors (host_listener b) = ∅)) || negb (bool_decide (serving (host_listener b) = [])).
Definition libp2p_host_destroy (h : option ptr) (s : capi) : option capi :=
  w ← deref (hosts s) h;
  Some match h, w with
       | Some p, Some w =>
           let s := match host w with
                    | Some b => if has_coroutines b then set_orphans (<[p := host_context w]> (orphans s)) s else s
                    | None => s
                    end in
           set_hosts (delete p (hosts s)) s
       | _, _ => s
       end.
(** One of them goes on: it uses the listener manager that is gone. *)
Definition orphan_runs (h : ptr) (s : capi) : bool :=
  match orphans s !! h with Some l => loop_runs l s | None => false end.

Definition libp2p_host_start (bind : Multiaddress -> outcome E Multiaddress) (h : option ptr) (s : capi) :
    option (capi * libp2p_error_t) :=
  r ← get_host h s;
  Some match r with
       | None => (s, LIBP2P_ERROR_INVALID_ARGUMENT)
       | Some (p, w, h) => (put_host p w (host_start bind h) s, LIBP2P_SUCCESS)
       end.

Definition libp2p_host_listen (bind : Multiaddress -> outcome E Multiaddress) (immediately : bool)
    (h multiaddr_str : option ptr) (s : capi) : option (capi * libp2p_error_t) :=
  r ← get_host h s;
  match r, multiaddr_str with
  | Some (p, w, h), Some a =>
      text ← memory s !! a;
      addr_result ← create text;
      Some match addr_result with
           | failure _ => (s, LIBP2P_ERROR_INVALID_ARGUMENT)
           | success ma =>
               let '(h, r) := host_listen bind immediately ma h in
               (put_host p w h s, match r with success _ => LIBP2P_SUCCESS | failure _ => LIBP2P_ERROR_CONNECTION_FAILED end)
           end
  | _, _ => Some (s, LIBP2P_ERROR_INVALID_ARGUMENT)
  end.

(** The handler object is kept by the host. *)
Definition libp2p_host_register_protocol (h protocol_id : option ptr) (handler : option closure) (s : capi) :
    option (capi * libp2p_error_t) :=
  r ← get_host h s;
  match r, protocol_id, handler with
  | Some (p, w, h), Some a, Some f =>
      name ← memory s !! a;
      let n := next s in
      let w := mkCHost (host w) (host_context w) (<[name := f]> (protocol_handlers w)) (host_id w) in
      Some (put_host p w (host_listenProtocol (Some n) [name] h)
              (bump (set_handlers (<[n := mkHandler name f p]> (handlers s)) s)), LIBP2P_SUCCESS)
  | _, _, _ => Some (s, LIBP2P_ERROR_INVALID_ARGUMENT)
  end.

(** [new libp2p_stream_t] *)
Definition new_stream_wrapper (st : StreamPtr) (h : ptr) (s : capi) : capi * ptr :=
  (bump (set_streams (<[next s := mkStream st h]> (streams s)) s), next s).
(** [GenericProtocolHandler::handle] *)
Definition handle (g : GenericProtocolHandler) (st : StreamPtr) (s : capi) : capi :=
  let '(s, w) := new_stream_wrapper st (host_wrapper_ g) s in
  calls_back None (OnStream (handler_ g) (Some w)) s.
(** A stream of a peer whose protocol has been negotiated: the listener manager looks
    for its handler. *)
Definition dispatch_stream (h : ptr) (name : ProtocolName) (st : StreamPtr) (s : capi) : capi :=
  match w ← hosts s !! h; b ← host w; Some (w, b) with
  | None => s
  | Some (w, b) =>
      if negb (loop_runs (host_context w) s) then s
      else
        match getProtocol name (host_listener b) with
        | success (Some n) => match handlers s !! n with Some g => handle g st s | None => s end
        | _ => s
        end
  end.

Definition incoming (h : ptr) (name : ProtocolName) (st : StreamPtr) (s : capi) : option capi :=
  if orphan_runs h s then None else Some (dispatch_stream h name st s).
(** The host's own coroutines accept connections, dial and close: any other state [b] of
    the host. *)
Definition host_works (h : ptr) (b : BasicHost (Conn := Conn) (Transport := Transport) (E := E)) (s : capi) : option capi :=
  if orphan_runs h s then None
  else Some match hosts s !! h with
            | Some w => if loop_runs (host_context w) s then put_host h w b s else s
            | None => s
            end.

Definition libp2p_host_peer_id (h : option ptr) (s : capi) : option (capi * option ptr) :=
  r ← get_host h s;
  Some match r with
       | Some (_, w, _) =>
           match host_id w with
           | Some i =>
               (bump (set_peer_ids (<[next s := mkPeerId i (toBase58 i)]> (peer_ids s)) s), Some (next s))
           | None => (s, None)
           end
       | None => (s, None)
       end.

Definition libp2p_host_default_listen (h : option ptr) (s : capi) : option (capi * option c_string) :=
  r ← get_host h s;
  Some match r with
       | None => (s, None)
       | Some (_, _, h) =>
           let addrs := getAddressesInterfaces h in
           let addrs := if decide (addrs = []) then host_getAddresses h else addrs in
           match addrs with
           | [] => (s, None)
           | a :: _ => (set_listen_addr (stringified_address_ a) s, Some ThreadLocal)
           end
       end.

(** ** Streams *)

(** [*stream->host->context->io_context] *)
Definition loop_of_host (h : ptr) (s : capi) : option ptr :=
  w ← hosts s !! h;
  _ ← contexts s !! host_context w;
  Some (host_context w).

Definition libp2p_stream_read (st buffer : option ptr) (buffer_size : nat) (callback : option closure) (s : capi) :
    option (capi * libp2p_error_t) :=
  r ← get_stream st s;
  match r, buffer, callback with
  | Some (p, w), Some buffer, Some f =>
      l ← loop_of_host (stream_host w) s;
      Some (spawn (mkCoroutine (ReadJob p buffer buffer_size) f l false) s, LIBP2P_SUCCESS)
  | _, _, _ => Some (s, LIBP2P_ERROR_INVALID_ARGUMENT)
  end.

Definition libp2p_stream_write (st data : option ptr) (size : nat) (callback : option closure) (s : capi) :
    option (capi * libp2p_error_t) :=
  r ← get_stream st s;
  match r, data, callback with
  | Some (p, w), Some data, Some f =>
      l ← loop_of_host (stream_host w) s;
      Some (spawn (mkCoroutine (WriteJob p data size) f l false) s, LIBP2P_SUCCESS)
  | _, _, _ => Some (s, LIBP2P_ERROR_INVALID_ARGUMENT)
  end.

(** [closed] is the result of [close] on the stream. *)
Definition libp2p_stream_close (closed : outcome E unit) (st : option ptr) (s : capi) : option (capi * libp2p_error_t) :=
  r ← get_stream st s;
  Some (s, match r with
           | None => LIBP2P_ERROR_INVALID_ARGUMENT
           | Some _ => match closed with success _ => LIBP2P_SUCCESS | failure e => convert_error (Some e) end
           end).

Definition libp2p_stream_is_closed (st : option ptr) (s : capi) : option bool :=
  r ← get_stream st s;
  Some match r with None => true | Some _ => false end.

(** ** Connections *)

(** [peer_id_str] that is empty is refused before it is parsed. *)
Definition libp2p_host_dial (h multiaddr_str peer_id_str : option ptr) (callback : option closure) (s : capi) :
    option (capi * libp2p_error_t) :=
  r ← get_host h s;
  match r, multiaddr_str, callback, peer_id_str with
  | Some (p, w, _), Some a, Some f, Some i =>
      id_text ← memory s !! i;
      if decide (id_text = []) then Some (s, LIBP2P_ERROR_INVALID_ARGUMENT)
      else
        text ← memory s !! a;
        addr_result ← create text;
        match addr_result with
        | failure _ => Some (s, LIBP2P_ERROR_INVALID_ARGUMENT)
        | success ma =>
            pid_res ← fromBase58 id_text;
            match pid_res with
            | failure _ => Some (s, LIBP2P_ERROR_INVALID_ARGUMENT)
            | success pid =>
                _ ← contexts s !! host_context w;
                Some (spawn (mkCoroutine (DialJob p pid ma) f (host_context w) false) s, LIBP2P_SUCCESS)
            end
        end
  | _, _, _, _ => Some (s, LIBP2P_ERROR_INVALID_ARGUMENT)
  end.

Definition libp2p_host_new_stream (h peer_id_str protocol_id : option ptr) (callback : option closure) (s : capi) :
    option (capi * libp2p_error_t) :=
  r ← get_host h s;
  match r, peer_id_str, protocol_id, callback with
  | Some (p, w, _), Some i, Some n, Some f =>
      id_text ← memory s !! i;
      peer_id_result ← fromBase58 id_text;
      match peer_id_result with
      | failure _ => Some (s, LIBP2P_ERROR_INVALID_ARGUMENT)
      | success pid =>
          _ ← contexts s !! host_context w;
          Some (spawn (mkCoroutine (NewStreamJob p pid n) f (host_context w) false) s, LIBP2P_SUCCESS)
      end
  | _, _, _, _ => Some (s, LIBP2P_ERROR_INVALID_ARGUMENT)
  end.

(** ** Addresses and ids *)

Definition libp2p_multiaddr_create (addr_str : option ptr) (s : capi) : option (capi * option ptr) :=
  match addr_str with
  | None => Some (s, None)
  | Some a =>
      text ← memory s !! a;
      addr_result ← create text;
      Some match addr_result with
           | failure _ => (s, None)
           | success ma => (bump (set_multiaddrs (<[next s := mkMultiaddr ma text]> (multiaddrs s)) s), Some (next s))
           end
  end.
Definition libp2p_multiaddr_destroy (a : option ptr) (s : capi) : option capi :=
  w ← deref (multiaddrs s) a;
  Some match a, w with Some p, Some _ => set_multiaddrs (delete p (multiaddrs s)) s | _, _ => s end.
Definition libp2p_multiaddr_to_string (a : option ptr) (s : capi) : option (option c_string) :=
  w ← deref (multiaddrs s) a;
  Some (p ← a; _ ← w; Some (InMultiaddr p)).

Definition libp2p_peer_id_create (base58_str : option ptr) (s : capi) : option (capi * option ptr) :=
  match base58_str with
  | None => Some (s, None)
  | Some a =>
      text ← memory s !! a;
      peer_id_result ← fromBase58 text;
      Some match peer_id_result with
           | failure _ => (s, None)
           | success i => (bump (set_peer_ids (<[next s := mkPeerId i text]> (peer_ids s)) s), Some (next s))
           end
  end.
Definition libp2p_peer_id_destroy (i : option ptr) (s : capi) : option capi :=
  w ← deref (peer_ids s) i;
  Some match i, w with Some p, Some _ => set_peer_ids (delete p (peer_ids s)) s | _, _ => s end.
Definition libp2p_peer_id_to_string (i : option ptr) (s : capi) : option (option c_string) :=
  w ← deref (peer_ids s) i;
  Some (p ← i; _ ← w; Some (InPeerId p)).

Definition libp2p_set_log_level (level : libp2p_log_level_t) (s : capi) : capi := s.

(** The client reads a returned string. *)
Definition read_string (c : c_string) (s : capi) : option bytes :=
  match c with
  | InMultiaddr p => addr_str <$> multiaddrs s !! p
  | InPeerId p => id_str <$> peer_ids s !! p
  | ThreadLocal => Some (listen_addr s)
  | Static t => Some t
  end.

(** ** The coroutines *)

Definition mark_started (i : nat) (c : coroutine) (s : capi) : capi :=
  set_coroutines (<[i := mkCoroutine (co_job c) (co_callback c) (co_loop c) true]> (coroutines s)) s.

(** The end of the coroutine of [libp2p_host_dial]: the result is ignored. *)
Definition dial_ends (i : nat) (f : closure) (h : ptr) (peer : Multihash) (s : capi) : capi :=
  end_coroutine i (OnConnection f h (Some (toBase58 peer))) s.

(** A coroutine runs up to its first suspension. *)
Definition starts (i : nat) (s : capi) : option capi :=
  match coroutines s !! i with
  | None => Some s
  | Some c =>
      if co_started c || negb (loop_runs (co_loop c) s) then Some s
      else
        match co_job c with
        | ReadJob st _ _ | WriteJob st _ _ => _ ← streams s !! st; Some (mark_started i c s)
        | DialJob h peer ma =>
            w ← hosts s !! h;
            b ← host w;
            let '(b, r) := connect (mkPeerInfo (toBuffer peer) [ma]) b in
            let s := put_host h w b s in
            Some match r with
                 | Returns _ => dial_ends i (co_callback c) h peer s
                 | Awaits _ _ => mark_started i c s
                 end
        | NewStreamJob h _ p =>
            _ ← memory s !! p;
            w ← hosts s !! h;
            _ ← host w;
            Some (mark_started i c s)
        end
  end.

(** What the awaited call gives. *)
Inductive answer :=
| ReadDone (r : outcome E bytes)
| WriteDone (r : outcome E unit)
| DialDone (r : outcome E Conn)
| StreamDone (r : outcome E StreamPtr).

(** The coroutine is resumed with the result of the call it awaits. *)
Definition completes (i : nat) (a : answer) (s : capi) : option capi :=
  match coroutines s !! i with
  | None => Some s
  | Some c =>
      if negb (co_started c) || negb (loop_runs (co_loop c) s) then Some s
      else
        let f := co_callback c in
        match co_job c, a with
        | ReadJob st buffer n, ReadDone (success data) =>
            (** [readSome] writes at most the size of the buffer it was given *)
            if decide (n < length data)%nat then Some s
            else
              b ← memory s !! buffer;
              if decide (length b < length data)%nat then None
              else Some (end_coroutine i (OnRead f st (Some buffer) (length data) LIBP2P_SUCCESS)
                           (set_memory (<[buffer := data ++ drop (length data) b]> (memory s)) s))
        | ReadJob st _ _, ReadDone (failure e) =>
            Some (end_coroutine i (OnRead f st None 0 (convert_error (Some e))) s)
        | WriteJob st data n, WriteDone r =>
            b ← memory s !! data;
            if decide (length b < n)%nat then None
            else Some match r with
                      | success _ => end_coroutine i (OnWrite f st n LIBP2P_SUCCESS) s
                      | failure e => end_coroutine i (OnWrite f st 0 (convert_error (Some e))) s
                      end
        | DialJob h peer _, DialDone _ => Some (dial_ends i f h peer s)
        | NewStreamJob h _ _, StreamDone (success st) =>
            let '(s, w) := new_stream_wrapper st h s in Some (end_coroutine i (OnStream f (Some w)) s)
        | NewStreamJob _ _ _, StreamDone (failure _) => Some (end_coroutine i (OnStream f None) s)
        | _, _ => Some s
        end
  end.

(** ** The whole interface *)

Inductive event :=
(** calls of the client *)
| ContextCreate
| ContextDestroy (c : option ptr)
| ContextRun (c : option ptr)
| ContextStop (c : option ptr)
| HostCreate (c seed : option ptr)
| HostDestroy (h : option ptr)
| HostStart (bind : Multiaddress -> outcome E Multiaddress) (h : option ptr)
| HostListen (bind : Multiaddress -> outcome E Multiaddress) (immediately : bool) (h a : option ptr)
| RegisterProtocol (h name : option ptr) (f : option closure)
| HostPeerId (h : option ptr)
| DefaultListen (h : option ptr)
| Dial (h a i : option ptr) (f : option closure)
| NewStream (h i name : option ptr) (f : option closure)
| StreamRead (st buffer : option ptr) (n : nat) (f : option closure)
| StreamWrite (st data : option ptr) (n : nat) (f : option closure)
| StreamClose (closed : outcome E unit) (st : option ptr)
| MultiaddrCreate (a : option ptr)
| MultiaddrDestroy (a : option ptr)
| PeerIdCreate (a : option ptr)
| PeerIdDestroy (i : option ptr)
(** its own memory *)
| ClientStores (p : ptr) (b : bytes)
| ClientFrees (p : ptr)
(** the event loops *)
| Starts (i : nat)
| Completes (i : nat) (a : answer)
| Incoming (h : ptr) (name : ProtocolName) (st : StreamPtr)
| HostWorks (h : ptr) (b : BasicHost (Conn := Conn) (Transport := Transport) (E := E))
| RunEnds (thrown : bool) (l : ptr).

Definition capi_step (e : event) (s : capi) : option capi :=
  match e with
  | ContextCreate => Some (libp2p_context_create s).1
  | ContextDestroy c => libp2p_context_destroy c s
  | ContextRun c => fst <$> libp2p_context_run c s
  | ContextStop c => libp2p_context_stop c s
  | HostCreate c seed => fst <$> libp2p_host_create c seed s
  | HostDestroy h => libp2p_host_destroy h s
  | HostStart bind h => fst <$> libp2p_host_start bind h s
  | HostListen bind immediately h a => fst <$> libp2p_host_listen bind immediately h a s
  | RegisterProtocol h name f => fst <$> libp2p_host_register_protocol h name f s
  | HostPeerId h => fst <$> libp2p_host_peer_id h s
  | DefaultListen h => fst <$> libp2p_host_default_listen h s
  | Dial h a i f => fst <$> libp2p_host_dial h a i f s
  | NewStream h i name f => fst <$> libp2p_host_new_stream h i name f s
  | StreamRead st buffer n f => fst <$> libp2p_stream_read st buffer n f s
  | StreamWrite st data n f => fst <$> libp2p_stream_write st data n f s
  | StreamClose closed st => fst <$> libp2p_stream_close closed st s
  | MultiaddrCreate a => fst <$> libp2p_multiaddr_create a s
  | MultiaddrDestroy a => libp2p_multiaddr_destroy a s
  | PeerIdCreate a => fst <$> libp2p_peer_id_create a s
  | PeerIdDestroy i => libp2p_peer_id_destroy i s
  | ClientStores p b => Some (set_memory (<[p := b]> (memory s)) s)
  | ClientFrees p => Some (set_memory (delete p (memory s)) s)
  | Starts i => starts i s
  | Completes i a => completes i a s
  | Incoming h name st => incoming h name st s
  | HostWorks h b => host_works h b s
  | RunEnds thrown l => fst <$> run_ends thrown l s
  end.
Fixpoint capi_run (es : list event) (s : capi) : option capi :=
  match es with
  | [] => Some s
  | e :: es => s ← capi_step e s; capi_run es s
  end.
End CApi.
