(* ===== verification/CApiSafe.v ===== *)
(** * The C interface: memory safety and callbacks

    What a client of [c/libp2p_c.cpp] has to respect so that no call and no coroutine
    uses a pointer to something that is gone, and that every accepted asynchronous
    call is answered by one call of its callback. *)

From S2P Require Import Prelude Varint Stream Multiselect Multihash Base58 Multibase ByteUtil.
From S2P Require Import MultiaddrCodec MultiaddrPlain Multiaddress TcpUtil QuicTransport PeerAddress Keys SamplePeer.
From S2P Require Import AddressRepository PeerRepository ConnectionManager ListenerManager Dialer Host CApi.

(** What the coroutines use while they run. *)
Definition job_stream (j : job) : option ptr :=
  match j with ReadJob st _ _ | WriteJob st _ _ => Some st | _ => None end.
Definition job_host (j : job) : option ptr :=
  match j with DialJob h _ _ | NewStreamJob h _ _ => Some h | _ => None end.
(** Memory of the client, and how much of it. *)
Definition job_memory (j : job) : option (ptr * nat) :=
  match j with
  | ReadJob _ p n | WriteJob _ p n => Some (p, n)
  | NewStreamJob _ _ p => Some (p, 0%nat)
  | DialJob _ _ _ => None
  end.

Section Safe.
Context {Conn Transport E : Type} `{EqDecision Conn, !Countable Conn} `{!Traversal Conn}.
Context `{!Network Multiaddress Conn Transport E} `{Ext, Hex, Providers, Protobuf}.
Context (sha256 : bytes -> bytes) (hash_string : bytes -> Z) (quic : Transport).

Local Abbreviation capi := (capi (Conn := Conn) (Transport := Transport) (E := E)).
Local Abbreviation c_host := (libp2p_host (Conn := Conn) (Transport := Transport) (E := E)).
Local Abbreviation basic := (BasicHost (Conn := Conn) (Transport := Transport) (E := E)).
Local Abbreviation event := (event (Conn := Conn) (Transport := Transport) (E := E)).
Local Abbreviation step := (capi_step sha256 hash_string quic).
Local Abbreviation run := (capi_run sha256 hash_string quic).

Implicit Type s : capi.

(** ** The obligations of the client *)

Definition live {A} (m : gmap ptr A) (p : option ptr) : Prop :=
  match p with None => True | Some p => is_Some (m !! p) end.
Definition readable (p : option ptr) (n : nat) s : Prop :=
  match p with
  | None => True
  | Some p => match memory s !! p with Some b => (n <= length b)%nat | None => False end
  end.
(** The text is not one whose bytes cannot be printed, which fails an assertion. *)
Definition parses (p : option ptr) s : Prop :=
  match p with
  | None => True
  | Some p => match memory s !! p with Some text => is_Some (create text) | None => False end
  end.
(** A stream whose host is there. *)
Definition usable (p : option ptr) s : Prop :=
  match p with
  | None => True
  | Some p => match streams s !! p with Some w => is_Some (hosts s !! stream_host w) | None => False end
  end.
Definition holds {A} (p : option ptr) (P : ptr -> A -> Prop) (m : gmap ptr A) : Prop :=
  match p with None => True | Some p => map_Forall (fun _ x => P p x) m end.

(** A host that has listened or been connected leaves coroutines behind. *)
Definition leaves_coroutines (p : option ptr) s : bool :=
  match p ≫= (hosts s !!.) with Some w => match host w with Some b => has_coroutines b | None => false end | None => false end.
Definition idle_loop (l : ptr) s : Prop := loop_runs l s = false.
(** Running the context would not make its loop run coroutines of hosts that are gone. *)
Definition stays_idle (c : option ptr) s : Prop :=
  map_Forall (fun _ l => c = Some l -> (io_stopped <$> loops s !! l) = Some true) (orphans s).

(** Pointers are [NULL] or to something that is there; texts of addresses do not fail an
    assertion; a context is destroyed after its hosts and not while its loop runs; a host
    is destroyed when the callbacks of its dials and its new streams have been made, and,
    if it has listened or been connected, when its loop does not run, and this loop is not
    run again unless it has been stopped; streams are not used after their host; strings
    and buffers stay until the callback. *)
Definition permitted (e : event) s : Prop :=
  match e with
  | ContextCreate | Starts _ | Completes _ _ | Incoming _ _ _ | HostWorks _ _ | RunEnds _ _ => True
  | ContextRun c => live (contexts s) c /\ stays_idle c s
  | ContextStop c => live (contexts s) c
  | ContextDestroy c =>
      live (contexts s) c /\ holds c (fun p w => host_context w <> p) (hosts s)
      /\ match c ≫= (loops s !!.) with Some io => io_runs io = 0%nat | None => True end
  | HostCreate c seed => live (contexts s) c /\ live (memory s) seed
  | HostDestroy h =>
      live (hosts s) h /\ holds h (fun p c => job_host (co_job c) <> Some p) (coroutines s)
      /\ match h ≫= (hosts s !!.) with
         | Some w => leaves_coroutines h s = true -> idle_loop (host_context w) s
         | None => True
         end
  | HostStart _ h | HostPeerId h | DefaultListen h => live (hosts s) h
  | HostListen _ _ h a => live (hosts s) h /\ parses a s
  | RegisterProtocol h name _ => live (hosts s) h /\ live (memory s) name
  | Dial h a i _ => live (hosts s) h /\ parses a s /\ live (memory s) i
  | NewStream h i name _ => live (hosts s) h /\ live (memory s) i /\ live (memory s) name
  | StreamRead st b n _ | StreamWrite st b n _ => usable st s /\ readable b n s
  | StreamClose _ st => live (streams s) st
  | MultiaddrCreate a => parses a s
  | MultiaddrDestroy a => live (multiaddrs s) a
  | PeerIdCreate a => live (memory s) a
  | PeerIdDestroy i => live (peer_ids s) i
  | ClientStores p b =>
      holds (Some p) (fun p c => match job_memory (co_job c) with
                                 | Some (q, n) => p = q -> (n <= length b)%nat
                                 | None => True
                                 end) (coroutines s)
  | ClientFrees p =>
      holds (Some p) (fun p c => match job_memory (co_job c) with Some (q, _) => p <> q | None => True end) (coroutines s)
  end.
#[export] Instance permitted_dec e s : Decision (permitted e s).
Proof.
  destruct e; cbn; unfold live, readable, parses, usable, holds, stays_idle, idle_loop; repeat (apply and_dec || case_match); try apply _;
    apply map_Forall_dec; intros ? x; destruct (job_memory (co_job x)) as [[]|]; apply _.
Defined.

Fixpoint lawful (es : list event) s : bool :=
  match es with
  | [] => true
  | e :: es => bool_decide (permitted e s) && match step e s with Some s => lawful es s | None => true end
  end.

(** ** The invariant *)

Definition job_ok (j : job) (s : capi) : Prop :=
  live (streams s) (job_stream j) /\ live (hosts s) (job_host j)
  /\ forall p n, job_memory j = Some (p, n) -> exists b, memory s !! p = Some b /\ (n <= length b)%nat.

Record capi_ok (s : capi) : Prop := {
  ok_host h w : hosts s !! h = Some w -> is_Some (contexts s !! host_context w) /\ is_Some (host w);
  ok_loop l io : loops s !! l = Some io -> (0 < io_runs io)%nat -> is_Some (contexts s !! l);
  ok_job i c : coroutines s !! i = Some c -> job_ok (co_job c) s
}.

(** Everything that is there stays there. *)
Definition grows {A} (m m' : gmap ptr A) : Prop := forall p, is_Some (m !! p) -> is_Some (m' !! p).
Lemma grows_insert {A} (m : gmap ptr A) p a : grows m (<[p := a]> m).
Proof. intros q Hq. destruct (decide (q = p)) as [->|]; simplify_map_eq; eauto. Qed.
Lemma grows_refl {A} (m : gmap ptr A) : grows m m.
Proof. by intros p. Qed.
Lemma live_grows {A} (m m' : gmap ptr A) p : grows m m' -> live m p -> live m' p.
Proof. intros Hg. destruct p as [p|]; [apply Hg|done]. Qed.

Lemma job_ok_grows j s s' :
  grows (streams s) (streams s') -> grows (hosts s) (hosts s') -> memory s' = memory s -> job_ok j s -> job_ok j s'.
Proof.
  intros Hs Hh Hm (A1 & A2 & A3). split; [by eapply live_grows|]. split; [by eapply live_grows|]. by rewrite Hm.
Qed.

Lemma ok_bump s : capi_ok s -> capi_ok (bump s).
Proof. intros [A1 A2 A3]. by split. Qed.
Lemma ok_new : capi_ok capi_new.
Proof. split; intros *; cbn; rewrite lookup_empty; discriminate. Qed.

Lemma ok_put_host p w b s : hosts s !! p = Some w -> capi_ok s -> capi_ok (put_host p w b s).
Proof.
  intros Hw [A1 A2 A3]. split; cbn [put_host set_hosts hosts contexts loops coroutines]; [|done|].
  - intros h w'. destruct (decide (h = p)) as [->|]; rewrite ?lookup_insert_eq, ?lookup_insert_ne by done; [|apply A1].
    intros [= <-]. cbn. split; [by apply (A1 p)|done].
  - intros i c Hc. apply (job_ok_grows _ s); [apply grows_refl|apply grows_insert|done|by eapply A3].
Qed.

Lemma ok_wrapper st h s : capi_ok s -> capi_ok (new_stream_wrapper st h s).1.
Proof.
  intros [A1 A2 A3]. split; [done|done|]. intros i c Hc. apply (job_ok_grows _ s); [apply grows_insert|apply grows_refl|done|by eapply A3].
Qed.

Lemma ok_calls_back who k s : capi_ok s -> capi_ok (calls_back who k s).
Proof. intros [A1 A2 A3]. by split. Qed.

Lemma ok_end i k s : capi_ok s -> capi_ok (end_coroutine i k s).
Proof.
  intros [A1 A2 A3]. apply ok_calls_back. split; [done|done|]. cbn [set_coroutines coroutines].
  intros j c Hc. apply lookup_delete_Some in Hc as [_ Hc]. by eapply A3.
Qed.

Lemma ok_mark_started i c s : coroutines s !! i = Some c -> capi_ok s -> capi_ok (mark_started i c s).
Proof.
  intros Hi [A1 A2 A3]. split; [done|done|]. cbn [mark_started set_coroutines coroutines]. intros j c'.
  destruct (decide (j = i)) as [->|]; rewrite ?lookup_insert_eq, ?lookup_insert_ne by done; [|apply A3].
  intros [= <-]. by apply (A3 i c).
Qed.

Lemma ok_spawn c s : job_ok (co_job c) s -> capi_ok s -> capi_ok (spawn c s).
Proof.
  intros Hc [A1 A2 A3]. split; [done|done|]. cbn [spawn coroutines]. intros j c'.
  destruct (decide (j = length (accepted s))) as [->|]; rewrite ?lookup_insert_eq, ?lookup_insert_ne by done; [|apply A3].
  by intros [= <-].
Qed.

Lemma ok_contexts p x s : capi_ok s -> capi_ok (set_contexts (<[p := x]> (contexts s)) s).
Proof.
  intros [A1 A2 A3]. split; [| |done]; cbn [set_contexts contexts hosts loops].
  - intros h w Hw. destruct (A1 h w Hw). split; [by apply grows_insert|done].
  - intros l io Hl Hr. apply grows_insert. by eapply A2.
Qed.

Lemma ok_loops m s : (forall l io, m !! l = Some io -> (0 < io_runs io)%nat -> is_Some (contexts s !! l)) ->
  capi_ok s -> capi_ok (set_loops m s).
Proof. intros Hm [A1 A2 A3]. by split. Qed.

Lemma ok_io_stop l s : capi_ok s -> capi_ok (io_stop l s).
Proof.
  intros Hs. apply ok_loops; [|done]. intros l' io. destruct (decide (l' = l)) as [->|].
  - rewrite lookup_alter_eq. intros (io' & Hio & ->)%fmap_Some. exact (ok_loop s Hs l io' Hio).
  - rewrite lookup_alter_ne by done. apply (ok_loop s Hs).
Qed.

Lemma ok_memory p b s :
  (forall i c n, coroutines s !! i = Some c -> job_memory (co_job c) = Some (p, n) -> (n <= length b)%nat) ->
  capi_ok s -> capi_ok (set_memory (<[p := b]> (memory s)) s).
Proof.
  intros Hp [A1 A2 A3]. split; [done|done|]. intros i c Hc. destruct (A3 i c Hc) as (J1 & J2 & J3).
  split; [done|]. split; [done|]. intros q n Hq. cbn [set_memory memory].
  destruct (decide (q = p)) as [->|].
  - exists b. rewrite lookup_insert_eq. eauto.
  - rewrite lookup_insert_ne by done. by apply J3.
Qed.

(** ** Each operation *)

Definition fine (r : option capi) : Prop := exists s, r = Some s /\ capi_ok s.
Lemma fine_Some s : capi_ok s -> fine (Some s).
Proof. by exists s. Qed.

Lemma get_host_live h s : live (hosts s) h ->
  exists r : option (ptr * c_host * basic), get_host h s = Some r /\
    match r with None => True | Some (p, w, b) => h = Some p /\ hosts s !! p = Some w /\ host w = Some b end.
Proof.
  intros Hl. unfold get_host, deref. destruct h as [p|]; [|by exists None]. destruct Hl as [w Hw]. rewrite Hw. cbn.
  destruct (host w) as [b|] eqn:Hb; [by exists (Some (p, w, b))|by exists None].
Qed.
Lemma get_stream_live st s : live (streams s) st ->
  exists r, get_stream st s = Some r /\
    match r with None => True | Some (p, w) => st = Some p /\ streams s !! p = Some w end.
Proof.
  intros Hl. unfold get_stream, deref. destruct st as [p|]; [|by exists None]. destruct Hl as [w Hw]. rewrite Hw. cbn.
  destruct (stream w) as [b|] eqn:Hb; [by exists (Some (p, w))|by exists None].
Qed.
Lemma fromBase58_total t : is_Some (fromBase58 t).
Proof.
  unfold fromBase58. destruct (decodeBase58 t) as [v|]; [|done]. destruct (fromBytes_total v) as [r Hr]. unfold fromBytes in Hr.
  by destruct (createFromBytes v) as [[]|].
Qed.

(** The host of a permitted call, and its context. *)
Ltac the_host Hs Hl p w b Hw Hb Hctx :=
  destruct (get_host_live _ _ Hl) as ([[[p w] b]|] & -> & Hb); cbn;
  [destruct Hb as (-> & Hw & Hb); destruct (ok_host _ Hs _ _ Hw) as [Hctx _]|].

Lemma context_destroy_fine c s : capi_ok s -> permitted (ContextDestroy c) s -> fine (libp2p_context_destroy c s).
Proof.
  intros Hs (Hl & Hh & Hio). unfold libp2p_context_destroy, deref. destruct c as [p|]; [|by eexists]. destruct Hl as [c Hc].
  cbn in Hio. rewrite Hc. cbn. apply fine_Some.
  set (s1 := if running c then io_stop p s else s).
  assert (capi_ok s1 /\ contexts s1 = contexts s /\ hosts s1 = hosts s /\ (forall io, loops s1 !! p = Some io -> io_runs io = 0%nat))
    as (Ho1 & Ec & Eh & El).
  { unfold s1. destruct (running c); [|split_and!; try done; intros io Hl; by rewrite Hl in Hio]. split; [by apply ok_io_stop|]. split; [done|]. split; [done|].
    intros io. cbn. rewrite lookup_alter_eq. intros (io' & Hio' & ->)%fmap_Some. by rewrite Hio' in Hio. }
  destruct Ho1 as [A1 A2 A3]. split; [| |done]; cbn [set_contexts contexts hosts loops].
  - intros h w Hw. rewrite lookup_delete_ne by (rewrite Eh in Hw; specialize (Hh h w Hw); congruence). by apply (A1 h).
  - intros l io Hl Hr. rewrite lookup_delete_ne by (intros <-; apply El in Hl; lia). by eapply A2.
Qed.

Lemma context_run_fine c s : capi_ok s -> live (contexts s) c -> fine (fst <$> libp2p_context_run c s).
Proof.
  intros Hs Hl. unfold libp2p_context_run, deref. destruct c as [p|]; [|by eexists]. destruct Hl as [c Hc]. rewrite Hc. cbn.
  apply fine_Some. apply ok_loops; [|by apply ok_contexts]. cbn [set_contexts contexts]. intros l io.
  destruct (decide (l = p)) as [->|]; [by rewrite lookup_insert_eq|].
  rewrite lookup_alter_ne, lookup_insert_ne by done. apply (ok_loop s Hs).
Qed.

Lemma context_stop_fine c s : capi_ok s -> live (contexts s) c -> fine (libp2p_context_stop c s).
Proof.
  intros Hs Hl. unfold libp2p_context_stop, deref. destruct c as [p|]; [|by eexists]. destruct Hl as [c Hc]. rewrite Hc. cbn.
  apply fine_Some. destruct (running c); [apply ok_io_stop|]; by apply ok_contexts.
Qed.

Lemma run_ends_fine thrown l s : capi_ok s -> fine (fst <$> run_ends thrown l s).
Proof.
  intros Hs. unfold run_ends. destruct (loops s !! l) as [io|] eqn:Hl; [|by eexists].
  destruct (Nat.ltb_spec 0 (io_runs io)) as [Hr|]; [|by eexists]. cbn [andb].
  destruct (_ || _) eqn:Hd; [|by eexists].
  destruct (ok_loop s Hs l io Hl Hr) as [c Hc]. cbn [set_loops contexts]. rewrite Hc. cbn. apply fine_Some.
  apply (ok_contexts l _ (set_loops _ s)). apply ok_loops; [|done]. intros l' io'. destruct (decide (l' = l)) as [->|]; [by rewrite Hc|].
  rewrite lookup_insert_ne by done. apply (ok_loop s Hs).
Qed.

Lemma ok_hosts_insert p w s :
  is_Some (contexts s !! host_context w) -> is_Some (host w) -> capi_ok s -> capi_ok (set_hosts (<[p := w]> (hosts s)) s).
Proof.
  intros Hc Hb [A1 A2 A3]. split; [|done|]; cbn [set_hosts hosts contexts coroutines].
  - intros h w'. destruct (decide (h = p)) as [->|]; rewrite ?lookup_insert_eq, ?lookup_insert_ne by done; [|apply A1].
    by intros [= <-].
  - intros i c Hc'. apply (job_ok_grows _ s); [apply grows_refl|apply grows_insert|done|by eapply A3].
Qed.

Lemma host_create_fine c seed s :
  (forall i, is_Some (makeEd25519 sha256 i)) -> capi_ok s -> live (contexts s) c -> live (memory s) seed ->
  fine (fst <$> libp2p_host_create sha256 hash_string quic c seed s).
Proof.
  intros Hmake Hs Hc Hseed. unfold libp2p_host_create, deref. destruct c as [c|]; [|by eexists]. destruct Hc as [x Hx].
  assert (exists r, match seed with Some p => a ← memory s !! p; Some (Some a) | None => Some None end = Some r) as [r ->].
  { destruct seed as [p|]; [|by eexists]. destruct Hseed as [b Hb]. rewrite Hb. by eexists. }
  cbn [mbind option_bind]. destruct (Hmake (seed_index hash_string r)) as [sp ->]. cbn [mbind option_bind]. rewrite Hx.
  apply fine_Some, ok_bump.
  apply ok_hosts_insert; [by exists x|done|done].
Qed.

Lemma host_destroy_fine h s : capi_ok s -> permitted (HostDestroy h) s -> fine (libp2p_host_destroy h s).
Proof.
  intros Hs (Hl & Hp & _). unfold libp2p_host_destroy, deref. destruct h as [p|]; [|by eexists]. destruct Hl as [w Hw]. rewrite Hw. cbn.
  apply fine_Some. set (s1 := match host w with Some b => _ | None => _ end).
  assert (capi_ok s1 /\ hosts s1 = hosts s /\ coroutines s1 = coroutines s) as (Hs1 & Ehs & Ec)
    by (unfold s1; destruct (host w) as [b|]; [destruct (has_coroutines b)|]; by destruct Hs).
  destruct Hs1 as [A1 A2 A3]. split; [|done|]; cbn [set_hosts hosts contexts coroutines].
  - intros h w' Hw'. apply lookup_delete_Some in Hw' as [_ Hw']. by eapply A1.
  - intros i c Hc. destruct (A3 i c Hc) as (J1 & J2 & J3). split; [done|]. split; [|done]. unfold live in *. cbn [set_hosts hosts].
    destruct (job_host (co_job c)) as [h|] eqn:Eh; [|done]. rewrite lookup_delete_ne; [done|]. intros ->. rewrite Ec in Hc. by apply (Hp i c Hc).
Qed.

Lemma host_start_fine bind h s : capi_ok s -> live (hosts s) h -> fine (fst <$> libp2p_host_start bind h s).
Proof.
  intros Hs Hl. unfold libp2p_host_start. the_host Hs Hl p w b Hw Hb Hctx; [|by eexists]. apply fine_Some. by apply ok_put_host.
Qed.

Lemma parses_text p s : parses (Some p) s -> exists text r, memory s !! p = Some text /\ create text = Some r.
Proof.
  unfold parses. destruct (memory s !! p) as [text|]; [|done]. intros [r Hr]. eauto.
Qed.

Lemma host_listen_fine bind immediately h a s :
  capi_ok s -> live (hosts s) h -> parses a s -> fine (fst <$> libp2p_host_listen bind immediately h a s).
Proof.
  intros Hs Hl Ha. unfold libp2p_host_listen. the_host Hs Hl p w b Hw Hb Hctx; [|by eexists].
  destruct a as [a|]; [|by eexists]. destruct (parses_text a s Ha) as (text & r & -> & Hr). cbn. rewrite Hr. cbn.
  destruct r as [ma|]; cbn; [|by eexists]. destruct (host_listen bind immediately ma b). apply fine_Some. by apply ok_put_host.
Qed.

Lemma register_fine h name f s :
  capi_ok s -> live (hosts s) h -> live (memory s) name -> fine (fst <$> libp2p_host_register_protocol h name f s).
Proof.
  intros Hs Hl Hn. unfold libp2p_host_register_protocol. the_host Hs Hl p w b Hw Hb Hctx; [|by eexists].
  destruct name as [a|]; [|by eexists]. destruct f as [f|]; [|by eexists]. destruct Hn as [n ->]. cbn. apply fine_Some.
  apply (ok_hosts_insert p _ (bump _)); [done|done|]. apply ok_bump. destruct Hs as [A1 A2 A3]. by split.
Qed.

Lemma host_info_fine h s : capi_ok s -> live (hosts s) h ->
  fine (fst <$> libp2p_host_peer_id h s) /\ fine (fst <$> libp2p_host_default_listen h s).
Proof.
  intros Hs Hl. unfold libp2p_host_peer_id, libp2p_host_default_listen. the_host Hs Hl p w b Hw Hb Hctx; [|split; by eexists].
  destruct Hs as [A1 A2 A3]. split; [destruct (host_id w)|destruct (if decide _ then _ else _)]; apply fine_Some; by split.
Qed.

Lemma dial_fine h a i f s :
  capi_ok s -> live (hosts s) h -> parses a s -> live (memory s) i -> fine (fst <$> libp2p_host_dial h a i f s).
Proof.
  intros Hs Hl Ha Hi. unfold libp2p_host_dial. the_host Hs Hl p w b Hw Hb Hctx; [|by eexists].
  destruct a as [a|]; [|by eexists]. destruct f as [f|]; [|by eexists]. destruct i as [i|]; [|by eexists].
  destruct Hi as [t ->]. cbn. case_decide; [by eexists|]. destruct (parses_text a s Ha) as (text & r & -> & Hr). cbn. rewrite Hr. cbn.
  destruct r as [ma|]; [|by eexists]. destruct (fromBase58_total t) as [r Ht]. rewrite Ht. cbn.
  destruct r as [pid|]; [|by eexists]. destruct Hctx as [x ->]. cbn. apply fine_Some, ok_spawn; [|done].
  split; [done|]. split; [by exists w|done].
Qed.

Lemma new_stream_fine h i name f s :
  capi_ok s -> live (hosts s) h -> live (memory s) i -> live (memory s) name -> fine (fst <$> libp2p_host_new_stream h i name f s).
Proof.
  intros Hs Hl Hi Hn. unfold libp2p_host_new_stream. the_host Hs Hl p w b Hw Hb Hctx; [|by eexists].
  destruct i as [i|]; [|by eexists]. destruct name as [n|]; [|by eexists]. destruct f as [f|]; [|by eexists].
  destruct Hi as [t ->]. cbn. destruct (fromBase58_total t) as [r Ht]. rewrite Ht. cbn.
  destruct r as [pid|]; [|by eexists]. destruct Hctx as [x ->]. cbn. apply fine_Some, ok_spawn; [|done].
  split; [done|]. split; [by exists w|]. intros q m [= <- <-]. destruct Hn as [text Ht']. exists text. split; [done|lia].
Qed.

(** Reading and writing differ in the job. *)
Lemma stream_io_fine (mk : ptr -> ptr -> job) n st b f s :
  (forall st b, job_stream (mk st b) = Some st /\ job_host (mk st b) = None /\ job_memory (mk st b) = Some (b, n)) ->
  capi_ok s -> usable st s -> readable b n s ->
  fine (fst <$> (r ← get_stream st s;
    match r, b, f with
    | Some (p, w), Some b, Some f => l ← loop_of_host (stream_host w) s; Some (spawn (mkCoroutine (mk p b) f l false) s, LIBP2P_SUCCESS)
    | _, _, _ => Some (s, LIBP2P_ERROR_INVALID_ARGUMENT)
    end)).
Proof.
  intros Hmk Hs Hu Hb.
  assert (live (streams s) st) as Hl by (destruct st as [p|]; [|done]; cbn in *; by destruct (streams s !! p)).
  destruct (get_stream_live st s Hl) as ([[p w]|] & -> & Hr); cbn; [|by eexists]. destruct Hr as [-> Hw].
  destruct b as [b|]; [|by eexists]. destruct f as [f|]; [|by eexists].
  cbn in Hu, Hb. rewrite Hw in Hu. destruct Hu as [wh Hh]. destruct (memory s !! b) as [d|] eqn:Hd; [|done].
  destruct (ok_host s Hs _ _ Hh) as [[x Hx] _]. unfold loop_of_host. rewrite Hh. cbn. rewrite Hx. cbn.
  apply fine_Some, ok_spawn; [|done]. destruct (Hmk p b) as (Hj1 & Hj2 & Hj3). unfold job_ok. cbn [co_job].
  rewrite Hj1, Hj2, Hj3. split; [by exists w|]. split; [done|]. intros q m [= <- <-]. by exists d.
Qed.

Lemma starts_fine i s : capi_ok s -> fine (starts i s).
Proof.
  intros Hs. unfold starts. destruct (coroutines s !! i) as [c|] eqn:Hc; [|by eexists]. destruct (_ || _); [by eexists|].
  destruct (ok_job s Hs i c Hc) as (J1 & J2 & J3).
  destruct (co_job c) as [st q n|st q n|h peer ma|h peer q] eqn:Ej; cbn in *.
  - destruct J1 as [w ->]. cbn. apply fine_Some. by apply ok_mark_started.
  - destruct J1 as [w ->]. cbn. apply fine_Some. by apply ok_mark_started.
  - destruct J2 as [w Hw]. rewrite Hw. cbn. destruct (ok_host s Hs _ _ Hw) as [_ [b Hb]]. rewrite Hb. cbn.
    destruct (connect _ b) as [b' [r|tr ad]]; apply fine_Some; [apply ok_end|apply ok_mark_started; [done|]]; by apply ok_put_host.
  - destruct (J3 q 0%nat eq_refl) as (text & -> & _). cbn. destruct J2 as [w Hw]. rewrite Hw. cbn.
    destruct (ok_host s Hs _ _ Hw) as [_ [b ->]]. cbn. apply fine_Some. by apply ok_mark_started.
Qed.

Lemma completes_fine i a s : capi_ok s -> fine (completes i a s).
Proof.
  intros Hs. unfold completes. destruct (coroutines s !! i) as [c|] eqn:Hc; [|by eexists]. destruct (_ || _); [by eexists|].
  destruct (ok_job s Hs i c Hc) as (_ & _ & J3).
  destruct (co_job c) as [st q n|st q n|h peer ma|h peer q] eqn:Ej, a as [r|r|r|r]; try (by eexists); cbn in J3.
  - destruct r as [d|e]; [|by apply fine_Some, ok_end]. case_decide; [by eexists|].
    destruct (J3 q n eq_refl) as (b & Hb & Hn). rewrite Hb. cbn. rewrite decide_False by lia. apply fine_Some, ok_end, ok_memory; [|done].
    intros j c' m Hj Hm. rewrite length_app, length_drop. destruct (ok_job s Hs j c' Hj) as (_ & _ & J). destruct (J q m Hm) as (b' & Hb' & ?).
    assert (b' = b) as -> by congruence. lia.
  - destruct (J3 q n eq_refl) as (b & -> & Hn). cbn. rewrite decide_False by lia. destruct r; by apply fine_Some, ok_end.
  - by apply fine_Some, ok_end.
  - destruct r as [st|e]; [|by apply fine_Some, ok_end]. apply fine_Some, ok_end. by apply (ok_wrapper st h).
Qed.

Lemma dispatch_ok h name st s : capi_ok s -> capi_ok (dispatch_stream h name st s).
Proof.
  intros Hs. unfold dispatch_stream. destruct (_ ≫= _) as [[w b]|]; [|done]. destruct (negb _); [done|].
  destruct (getProtocol _ _) as [[n|]|]; [|done|done]. destruct (handlers s !! n) as [g|]; [|done].
  apply ok_calls_back. by apply (ok_wrapper st (host_wrapper_ g)).
Qed.

(** ** Coroutines of hosts that are gone *)

(** They do not run. *)
Definition orphans_idle s : Prop := map_Forall (fun _ l => idle_loop l s) (orphans s).
Lemma orphan_idle h s : orphans_idle s -> orphan_runs h s = false.
Proof. intros Ho. unfold orphan_runs. destruct (orphans s !! h) as [l|] eqn:Hl; [|done]. by apply (Ho h). Qed.

(** The loops that run in [s'] run in [s]. *)
Definition no_more_runs s s' : Prop := forall l, loop_runs l s' = true -> loop_runs l s = true.
Lemma idle_frame s s' : orphans s' = orphans s -> no_more_runs s s' -> orphans_idle s -> orphans_idle s'.
Proof.
  intros Eo Hr Ho. unfold orphans_idle, idle_loop. rewrite Eo. eapply map_Forall_impl; [exact Ho|]. unfold idle_loop. intros h l Hl.
  destruct (loop_runs l s') eqn:E1; [|done]. apply Hr in E1. congruence.
Qed.
Lemma runs_same s s' : loops s' = loops s -> no_more_runs s s'.
Proof. intros El l. unfold loop_runs. by rewrite El. Qed.
Lemma runs_insert p io s s' :
  loops s' = <[p := io]> (loops s) -> (negb (io_stopped io) && (0 <? io_runs io)%nat = true -> loop_runs p s = true) -> no_more_runs s s'.
Proof.
  intros El Hp l. unfold loop_runs. rewrite El. destruct (decide (l = p)) as [->|]; [rewrite lookup_insert_eq; exact Hp|].
  by rewrite lookup_insert_ne.
Qed.
Lemma runs_stop p s s' : loops s' = loops (io_stop p s) -> no_more_runs s s'.
Proof.
  intros El l. unfold loop_runs. rewrite El. cbn. destruct (decide (l = p)) as [->|]; [rewrite lookup_alter_eq|by rewrite lookup_alter_ne].
  by destruct (loops s !! p).
Qed.

Lemma host_destroy_idle h s s' :
  permitted (HostDestroy h) s -> orphans_idle s -> libp2p_host_destroy h s = Some s' -> orphans_idle s'.
Proof.
  intros (_ & _ & Hp) Ho Est. unfold libp2p_host_destroy, deref in Est. destruct h as [p|]; cbn in Est, Hp; [|by simplify_eq].
  unfold leaves_coroutines in Hp. cbn in Hp. destruct (hosts s !! p) as [w|]; cbn in Est; [|done]. injection Est as <-.
  destruct (host w) as [b|]; [|done]. destruct (has_coroutines b); [|done].
  unfold orphans_idle. cbn. apply map_Forall_insert_2; [by apply Hp|exact Ho].
Qed.

Lemma context_run_idle c s s' r :
  stays_idle c s -> orphans_idle s -> libp2p_context_run c s = Some (s', r) -> orphans_idle s'.
Proof.
  intros Hp Ho Est. unfold libp2p_context_run, deref in Est. destruct c as [p|]; cbn in Est; [|by simplify_eq].
  destruct (contexts s !! p) as [x|]; cbn in Est; [|done]. injection Est as <- _. intros h l Hl. cbn in Hl.
  pose proof (Ho h l Hl) as Hi. specialize (Hp h l Hl). unfold idle_loop, loop_runs in *. cbn.
  destruct (decide (l = p)) as [->|]; [rewrite lookup_alter_eq|by rewrite lookup_alter_ne].
  specialize (Hp eq_refl). destruct (loops s !! p) as [io|]; [|done]. cbn in *. by simplify_eq/=; rewrite Hp.
Qed.

Lemma step_fine e s :
  (forall i, is_Some (makeEd25519 sha256 i)) -> capi_ok s -> orphans_idle s -> permitted e s -> fine (step e s).
Proof.
  intros Hmake Hs Ho Hp. destruct e; cbn [capi_step]; cbn [permitted] in Hp.
  - apply fine_Some, ok_bump, (ok_contexts _ _ (set_loops _ s)), ok_loops; [|done]. intros l io.
    destruct (decide (l = next s)) as [->|]; [rewrite lookup_insert_eq; intros [= <-]; cbn; lia|].
    rewrite lookup_insert_ne by done. apply (ok_loop s Hs).
  - by apply context_destroy_fine.
  - destruct Hp. by apply context_run_fine.
  - by apply context_stop_fine.
  - destruct Hp. by apply host_create_fine.
  - by apply host_destroy_fine.
  - by apply host_start_fine.
  - destruct Hp. by apply host_listen_fine.
  - destruct Hp. by apply register_fine.
  - by apply host_info_fine.
  - by apply host_info_fine.
  - destruct Hp as (? & ? & ?). by apply dial_fine.
  - destruct Hp as (? & ? & ?). by apply new_stream_fine.
  - destruct Hp. by apply (stream_io_fine (fun p b => ReadJob p b n) n).
  - destruct Hp. by apply (stream_io_fine (fun p b => WriteJob p b n) n).
  - unfold libp2p_stream_close. destruct (get_stream_live st s Hp) as (r & -> & _). by eexists.
  - unfold libp2p_multiaddr_create. destruct a as [a|]; [|by eexists]. destruct (parses_text a s Hp) as (text & r & -> & Hr).
    cbn [mbind option_bind fmap option_fmap option_map]. rewrite Hr. destruct r; apply fine_Some; [|done]. destruct Hs. by split.
  - unfold libp2p_multiaddr_destroy, deref. destruct a as [a|]; [|by eexists]. destruct Hp as [w ->]. apply fine_Some. destruct Hs. by split.
  - unfold libp2p_peer_id_create. destruct a as [a|]; [|by eexists]. destruct Hp as [text ->]. cbn [mbind option_bind].
    destruct (fromBase58_total text) as [[i|] ->]; apply fine_Some; [|done]. destruct Hs. by split.
  - unfold libp2p_peer_id_destroy, deref. destruct i as [i|]; [|by eexists]. destruct Hp as [w ->]. apply fine_Some. destruct Hs. by split.
  - apply fine_Some, ok_memory; [|done]. intros i c n Hc Hm. specialize (Hp i c Hc). cbn in Hp. rewrite Hm in Hp. by apply Hp.
  - apply fine_Some. destruct Hs as [A1 A2 A3]. split; [done|done|]. intros i c Hc. destruct (A3 i c Hc) as (J1 & J2 & J3).
    split; [done|]. split; [done|]. intros q n Hq. cbn [set_memory memory]. specialize (Hp i c Hc). cbn in Hp. rewrite Hq in Hp.
    rewrite lookup_delete_ne by done. by apply J3.
  - by apply starts_fine.
  - by apply completes_fine.
  - unfold incoming. rewrite orphan_idle by done. by apply fine_Some, dispatch_ok.
  - unfold host_works. rewrite orphan_idle by done. apply fine_Some.
    destruct (hosts s !! h) as [w|] eqn:Hw; [|done]. destruct (loop_runs _ _); [by apply ok_put_host|done].
  - by apply run_ends_fine.
Qed.

(** ** The history *)

Definition calls_of (i : nat) (l : list (option nat * call)) : list call :=
  omap (fun e => if decide (e.1 = Some i) then Some e.2 else None) l.
Definition same (c c' : coroutine) : Prop :=
  co_job c = co_job c' /\ co_callback c = co_callback c' /\ co_loop c = co_loop c'.

(** The callback that answers a call: the function, its data and the objects given
    with it, and either the success or the failure that the operation reports. *)
Definition answers (c : coroutine) (k : call) s : Prop :=
  match co_job c, k with
  | ReadJob st b n, OnRead f st' d m e =>
      f = co_callback c /\ st' = st
      /\ (d = Some b /\ (m <= n)%nat /\ e = LIBP2P_SUCCESS \/ d = None /\ m = 0%nat /\ e = LIBP2P_ERROR_UNKNOWN)
  | WriteJob st b n, OnWrite f st' m e =>
      f = co_callback c /\ st' = st
      /\ (m = n /\ e = LIBP2P_SUCCESS \/ m = 0%nat /\ e = LIBP2P_ERROR_UNKNOWN)
  | DialJob h peer _, OnConnection f h' p => f = co_callback c /\ h' = h /\ p = Some (toBase58 peer)
  | NewStreamJob h _ _, OnStream f w =>
      f = co_callback c /\ match w with Some w => exists st, streams s !! w = Some (mkStream st h) | None => True end
  | _, _ => False
  end.

Record history s : Prop := {
  h_dom i c : coroutines s !! i = Some c -> (i < length (accepted s))%nat;
  h_calls i : (length (accepted s) <= i)%nat -> calls_of i (calls s) = [];
  h_each i c : accepted s !! i = Some c ->
    match coroutines s !! i with
    | Some c' => same c' c /\ calls_of i (calls s) = []
    | None => exists k, calls_of i (calls s) = [k] /\ answers c k s
    end;
  h_fresh p w : streams s !! p = Some w -> (p < next s)%nat
}.
Lemma history_new : history capi_new.
Proof. split; intros *; cbn; rewrite ?lookup_empty, ?lookup_nil; done. Qed.

(** What leaves the coroutines alone, and only adds streams. *)
Record quiet s s' : Prop := {
  q_coroutines : coroutines s' = coroutines s;
  q_accepted : accepted s' = accepted s;
  q_calls i : calls_of i (calls s') = calls_of i (calls s);
  q_streams : streams s ⊆ streams s';
  q_fresh : (forall p w, streams s !! p = Some w -> (p < next s)%nat) -> forall p w, streams s' !! p = Some w -> (p < next s')%nat
}.
Lemma quiet_refl s : quiet s s.
Proof. by split. Qed.
Lemma quiet_same s s' :
  coroutines s' = coroutines s -> accepted s' = accepted s -> calls s' = calls s -> streams s' = streams s ->
  (next s <= next s')%nat -> quiet s s'.
Proof.
  intros Hc Ha Hk Hs Hn. split; [done|done|by rewrite Hk|by rewrite Hs|]. intros Hf p w. rewrite Hs. intros Hp%Hf. lia.
Qed.

Lemma answers_mono c k s s' : streams s ⊆ streams s' -> answers c k s -> answers c k s'.
Proof.
  intros Hs. unfold answers. destruct (co_job c), k; try done. intros [Hf Hw]. split; [done|]. destruct stream as [w|]; [|done].
  destruct Hw as [st Hw]. exists st. by eapply lookup_weaken.
Qed.

Lemma history_quiet s s' : quiet s s' -> history s -> history s'.
Proof.
  intros [Qc Qa Qk Qs Qf] [A1 A2 A3 A4]. split; rewrite ?Qc, ?Qa; [done|intros i; rewrite Qk; apply A2| |by apply Qf].
  intros i c Hi. specialize (A3 i c Hi). rewrite Qk. destruct (coroutines s !! i); [done|].
  destruct A3 as (k & Hk & Ha). exists k. split; [done|by eapply answers_mono].
Qed.

Lemma wrapper_history st h s : history s ->
  history (new_stream_wrapper st h s).1 /\ streams (new_stream_wrapper st h s).1 !! next s = Some (mkStream st h).
Proof.
  intros Hs. split; [|apply lookup_insert_eq]. apply (history_quiet s); [|done].
  assert (streams s !! next s = None) as Hn by (destruct (streams s !! next s) eqn:E1; [apply (h_fresh s Hs) in E1; lia|done]).
  split; [done|done|done|by apply insert_subseteq|]. cbn. intros Hf p w. destruct (decide (p = next s)) as [->|]; [lia|].
  rewrite lookup_insert_ne by done. intros Hp%Hf. lia.
Qed.

Lemma calls_of_app i l k : calls_of i (l ++ [k]) = calls_of i l ++ calls_of i [k].
Proof. apply omap_app. Qed.

Lemma history_spawn c s : history s -> history (spawn c s).
Proof.
  intros [A1 A2 A3 A4]. split; cbn [spawn coroutines accepted calls streams next]; rewrite ?length_app; cbn [length].
  - intros i c'. destruct (decide (i = length (accepted s))) as [->|]; [lia|]. rewrite lookup_insert_ne by done. intros Hi%A1. lia.
  - intros i Hi. apply A2. lia.
  - intros i c' Hi. apply lookup_app_Some in Hi as [Hi|[Hl Hi]].
    + pose proof (lookup_lt_Some _ _ _ Hi). rewrite lookup_insert_ne by lia. by apply A3.
    + destruct (i - length (accepted s))%nat as [|m] eqn:Em; [|done]. injection Hi as <-. assert (i = length (accepted s)) as -> by lia.
      rewrite lookup_insert_eq. split; [done|]. by apply A2.
  - exact A4.
Qed.

Lemma history_started i c s : coroutines s !! i = Some c -> history s -> history (mark_started i c s).
Proof.
  intros Hi [A1 A2 A3 A4]. split; cbn [mark_started set_coroutines coroutines accepted calls streams next]; [|done| |done].
  - intros j c'. destruct (decide (j = i)) as [->|]; [intros _; by eapply A1|]. rewrite lookup_insert_ne by done. apply A1.
  - intros j c' Hj. specialize (A3 j c' Hj). destruct (decide (j = i)) as [->|]; [|by rewrite lookup_insert_ne].
    rewrite Hi in A3. by rewrite lookup_insert_eq.
Qed.

Lemma history_end i c k s : coroutines s !! i = Some c -> answers c k s -> history s -> history (end_coroutine i k s).
Proof.
  intros Hi Hk [A1 A2 A3 A4]. pose proof (A1 i c Hi) as Hlt.
  split; cbn [end_coroutine calls_back set_coroutines coroutines accepted calls streams next]; [| | |done].
  - intros j c' Hj. apply lookup_delete_Some in Hj as [_ Hj]. by eapply A1.
  - intros j Hj. rewrite calls_of_app, A2 by done. unfold calls_of. cbn. rewrite decide_False; [done|]. intros [= ->]. lia.
  - intros j c' Hj. specialize (A3 j c' Hj). rewrite calls_of_app. unfold calls_of at 2 4. cbn [omap list_omap fst snd].
    destruct (decide (j = i)) as [->|Hne].
    + rewrite Hi in A3. rewrite lookup_delete_eq, decide_True by done. destruct A3 as [(Hj1 & Hj2 & _) ->]. exists k. split; [done|].
      unfold answers in *. by rewrite <- Hj1, <- Hj2.
    + rewrite lookup_delete_ne, decide_False by congruence. by rewrite !app_nil_r.
Qed.

Lemma put_host_quiet p w b s : quiet s (put_host p w b s).
Proof. by apply quiet_same. Qed.

Lemma starts_history i s s' : starts i s = Some s' -> history s -> history s'.
Proof.
  intros Hst Hs. unfold starts in Hst. destruct (coroutines s !! i) as [c|] eqn:Hc; [|by injection Hst as <-].
  destruct (_ || _); [by injection Hst as <-|]. destruct (co_job c) as [st q n|st q n|h peer ma|h peer q] eqn:Ej.
  - destruct (streams s !! st); [|done]. injection Hst as <-. by apply history_started.
  - destruct (streams s !! st); [|done]. injection Hst as <-. by apply history_started.
  - destruct (hosts s !! h) as [w|]; [|done]. cbn in Hst. destruct (host w) as [b|]; [|done]. cbn in Hst.
    destruct (connect _ b) as [b' r]. injection Hst as <-. pose proof (history_quiet _ _ (put_host_quiet h w b' s) Hs) as Hq.
    destruct r; [|by apply history_started]. apply (history_end i c); [done| |done]. unfold answers. by rewrite Ej.
  - destruct (memory s !! q); [|done]. cbn in Hst. destruct (hosts s !! h) as [w|]; [|done]. cbn in Hst.
    destruct (host w); [|done]. injection Hst as <-. by apply history_started.
Qed.

Lemma completes_history i a s s' : completes i a s = Some s' -> history s -> history s'.
Proof.
  intros Hst Hs. unfold completes in Hst. destruct (coroutines s !! i) as [c|] eqn:Hc; [|by injection Hst as <-].
  destruct (_ || _); [by injection Hst as <-|].
  assert (forall k s1, quiet s s1 -> answers c k s1 -> history (end_coroutine i k s1)) as Hend.
  { intros k s1 Hq Ha. apply (history_end i c); [by rewrite (q_coroutines _ _ Hq)|done|by eapply history_quiet]. }
  pose proof (quiet_refl s) as Hr.
  destruct (co_job c) as [st q n|st q n|h peer ma|h peer q] eqn:Ej, a as [r|r|r|r]; try (by injection Hst as <-).
  - destruct r as [d|e]; [|injection Hst as <-; apply Hend; [done|]; unfold answers; rewrite Ej; split_and!; auto].
    case_decide; [by injection Hst as <-|]. destruct (memory s !! q) as [b|]; [|done]. cbn in Hst. case_decide; [done|]. injection Hst as <-.
    apply Hend; [by apply quiet_same|]. unfold answers. rewrite Ej. split_and!; [done|done|left; split_and!; [done|lia|done]].
  - destruct (memory s !! q) as [b|]; [|done]. cbn in Hst. case_decide; [done|].
    destruct r; injection Hst as <-; (apply Hend; [done|]); unfold answers; rewrite Ej; split_and!; auto.
  - injection Hst as <-. apply Hend; [done|]. unfold answers. by rewrite Ej.
  - destruct r as [st|e]; injection Hst as <-; [|apply Hend; [done|]; unfold answers; by rewrite Ej].
    destruct (wrapper_history st h s Hs) as [Hw Hl]. apply (history_end i c); [done| |done].
    unfold answers. rewrite Ej. split; [done|by exists st].
Qed.

Lemma dispatch_history h name st s : history s -> history (dispatch_stream h name st s).
Proof.
  intros Hs. unfold dispatch_stream. destruct (_ ≫= _) as [[w b]|]; [|done]. destruct (negb _); [done|].
  destruct (getProtocol _ _) as [[n|]|]; [|done|done]. destruct (handlers s !! n) as [g|]; [|done].
  destruct (wrapper_history st (host_wrapper_ g) s Hs) as [Hw _]. eapply history_quiet; [|exact Hw].
  split; [done|done| |done|done]. intros i.
  cbn [handle new_stream_wrapper calls_back calls fst]. by rewrite calls_of_app, app_nil_r.
Qed.

(** The branches of an operation. *)
Ltac branches Hst :=
  unfold libp2p_context_destroy, libp2p_context_run, libp2p_context_stop, libp2p_host_create, libp2p_host_destroy,
    libp2p_host_start, libp2p_host_listen, libp2p_host_register_protocol, libp2p_host_peer_id, libp2p_host_default_listen,
    libp2p_host_dial, libp2p_host_new_stream, libp2p_stream_read, libp2p_stream_write, libp2p_stream_close,
    libp2p_multiaddr_create, libp2p_multiaddr_destroy, libp2p_peer_id_create, libp2p_peer_id_destroy, run_ends,
    starts, completes, dial_ends, incoming, host_works, dispatch_stream, handle, new_stream_wrapper in Hst;
  repeat (case_match || simplify_option_eq).

(** Calls that start a coroutine. *)
Lemma spawns_history e s s' :
  match e with Dial _ _ _ _ | NewStream _ _ _ _ | StreamRead _ _ _ _ | StreamWrite _ _ _ _ => True | _ => False end ->
  step e s = Some s' -> history s -> history s'.
Proof.
  intros He Hst Hs. destruct e; try done; cbn [capi_step] in Hst; branches Hst;
    first [done | by apply history_spawn].
Qed.

Lemma step_history e s s' : step e s = Some s' -> history s -> history s'.
Proof.
  intros Hst Hs. destruct e; try (by eapply spawns_history; [|exact Hst|exact Hs]); cbn [capi_step] in Hst;
    try (apply (history_quiet s); [|done]; branches Hst; apply quiet_same; cbn; (done || lia)).
  - by eapply starts_history.
  - by eapply completes_history.
  - unfold incoming in Hst. destruct (orphan_runs h s); [done|]. injection Hst as <-. by apply dispatch_history.
Qed.

Lemma run_ends_idle thrown l s s' r : run_ends thrown l s = Some (s', r) -> orphans_idle s -> orphans_idle s'.
Proof.
  unfold run_ends. intros Est. destruct (loops s !! l) as [io|] eqn:Hl; [|by simplify_eq]. destruct (_ && _) eqn:Hc; [|by simplify_eq].
  cbn in Est. destruct (contexts s !! l); cbn in Est; [|done]. injection Est as <- _. apply idle_frame; [done|].
  eapply runs_insert; [reflexivity|]. cbn. unfold loop_runs. rewrite Hl.
  intros [Hs Hr]%andb_prop. apply andb_prop in Hc as [-> _]. by destruct (io_stopped io).
Qed.

Lemma step_idle e s s' : permitted e s -> orphans_idle s -> step e s = Some s' -> orphans_idle s'.
Proof.
  intros Hp Ho Hst. destruct e; cbn [capi_step] in Hst; cbn [permitted] in Hp.
  3: { destruct Hp as [_ Hp]. destruct (libp2p_context_run c s) as [[s1 r]|] eqn:Est; [|done]. injection Hst as <-.
       by eapply context_run_idle. }
  5: by eapply host_destroy_idle.
  25: { destruct (run_ends thrown l s) as [[s1 r]|] eqn:Est; [|done]. injection Hst as <-. by eapply run_ends_idle. }
  1: { injection Hst as <-. apply (idle_frame s); [done| |done]. eapply runs_insert; [reflexivity|done]. }
  all: apply (idle_frame s); [| |done]; branches Hst; try done; solve [by apply runs_same | by eapply runs_stop].
Qed.

(** ** Properties *)

Lemma run_safe es s :
  (forall i, is_Some (makeEd25519 sha256 i)) -> capi_ok s -> orphans_idle s -> lawful es s = true ->
  exists s', run es s = Some s' /\ capi_ok s' /\ orphans_idle s'.
Proof.
  intros Hmake. revert s. induction es as [|e es IH]; intros s Hs Ho Hl; [by exists s|].
  cbn [lawful] in Hl. apply andb_true_iff in Hl as [Hp Hl]. apply bool_decide_eq_true in Hp.
  destruct (step_fine e s Hmake Hs Ho Hp) as (s1 & Hs1 & Hok1). cbn [capi_run]. pose proof (step_idle e s s1 Hp Ho Hs1).
  rewrite Hs1 in Hl |- *. by apply IH.
Qed.

Lemma run_history es s s' : run es s = Some s' -> history s -> history s'.
Proof.
  revert s. induction es as [|e es IH]; intros s Hr Hs; [by injection Hr as <-|]. cbn [capi_run] in Hr.
  destruct (step e s) as [s1|] eqn:Hs1; [|done]. apply (IH s1 Hr). by eapply step_history.
Qed.

(** C19: every accepted call is answered once.  In whatever order the client calls, its
    loops run and peers answer, an asynchronous call that was accepted is either still
    in progress, with what it captured and without a callback so far, or has made
    exactly one: its own function with its own data, for the stream or host it was
    given, that reports the bytes, all written, or the error code; the stream of a
    successful [libp2p_host_new_stream] is a new object of that host. *)
Theorem c_callbacks_once es s i c :
  run es capi_new = Some s -> accepted s !! i = Some c ->
  match coroutines s !! i with
  | Some c' => same c' c /\ calls_of i (calls s) = []
  | None => exists k, calls_of i (calls s) = [k] /\ answers c k s
  end.
Proof. intros Hr. exact (h_each s (run_history es _ _ Hr history_new) i c). Qed.

(** The wrapper of a stream is never released: no function of the interface deletes
    it, [libp2p_stream_close] does not either. *)
Theorem streams_never_freed e s s' : history s -> step e s = Some s' -> streams s ⊆ streams s'.
Proof.
  intros Hs Hst.
  assert (forall st h, streams s ⊆ <[next s := mkStream st h]> (streams s)) as Hnew.
  { intros st h. apply insert_subseteq. destruct (streams s !! next s) eqn:E1; [apply (h_fresh s Hs) in E1; lia|done]. }
  destruct e; cbn [capi_step] in Hst; branches Hst; cbn; (done || apply Hnew).
Qed.

(** The callback of [libp2p_host_dial] gets the peer id whether or not the peer has been
    reached. *)
Theorem dial_callback_hides_failure i s r r' : completes i (DialDone r) s = completes i (DialDone r') s.
Proof. unfold completes. by destruct (coroutines s !! i) as [[[] ? ? []]|]. Qed.

(** Without a seed the identity is that of sample peer 0, always. *)
Theorem null_seed_is_fixed c s s' p :
  libp2p_host_create sha256 hash_string quic (Some c) None s = Some (s', Some p) ->
  exists sp w, makeEd25519 sha256 0 = Some sp /\ hosts s' !! p = Some w /\ host_id w = Some (peer_id sp).
Proof.
  unfold libp2p_host_create, deref. cbn [mbind option_bind]. change (seed_index hash_string None) with 0.
  destruct (makeEd25519 sha256 0) as [sp|]; [|done]. cbn [mbind option_bind]. destruct (contexts s !! c); [|done].
  intros [= <- <-]. eexists sp, _. split; [done|]. split; [apply lookup_insert_eq|done].
Qed.

(** [libp2p_context_stop] before [libp2p_context_run]: the loop is not stopped, and
    [run] does not return while there is work. *)
Theorem stop_before_run_is_lost c g s :
  contexts s !! c = Some (mkContext g false) -> loops s !! c = Some (mkLoop false 0) -> coroutines s <> ∅ ->
  map_Forall (fun _ x => co_loop x = c) (coroutines s) ->
  exists s1 s2, libp2p_context_stop (Some c) s = Some s1 /\ libp2p_context_run (Some c) s1 = Some (s2, None)
    /\ loop_runs c s2 = true /\ run_ends false c s2 = Some (s2, None).
Proof.
  intros Hc Hl Hne Hall. unfold libp2p_context_stop, libp2p_context_run, deref. rewrite Hc. cbn.
  eexists _, _. split; [reflexivity|]. split; [cbn; rewrite lookup_insert_eq; reflexivity|].
  assert (existsb (fun e => bool_decide (co_loop e.2 = c)) (map_to_list (coroutines s)) = true) as Hw.
  { destruct (map_choose _ Hne) as (i & x & Hi). apply existsb_exists. exists (i, x).
    split; [by apply list_elem_of_In, elem_of_map_to_list|]. apply bool_decide_eq_true. exact (Hall i x Hi). }
  unfold loop_runs, run_ends, has_work. cbn. rewrite lookup_alter_eq, Hl. cbn. split; [done|].
  rewrite !lookup_insert_eq. cbn. by rewrite Hw.
Qed.

(** ** Dispatch of protocols *)

Lemma dispatched `{!NetworkLaws Multiaddress Conn Transport E} h w b n g name st s :
  hosts s !! h = Some w -> host w = Some b -> loop_runs (host_context w) s = true ->
  protocols_ (host_listener b) !! name = Some (Some n) -> handlers s !! n = Some g ->
  dispatch_stream h name st s = calls_back None (OnStream (handler_ g) (Some (next s))) (new_stream_wrapper st (host_wrapper_ g) s).1.
Proof.
  intros Hw Hb Hl Hp Hn. unfold dispatch_stream. rewrite Hw. cbn. rewrite Hb. cbn. rewrite Hl. cbn.
  rewrite (getProtocol_registered name (Some n)) by done. by rewrite Hn.
Qed.

(** Who serves a protocol.  [libp2p_host_register_protocol] succeeds; when the
    protocol was new to the host, a peer's stream of that protocol from then on is
    passed to the function with its data, as a new stream of this host; when it was
    registered before, the first function goes on being called although the second
    registration has succeeded. *)
Theorem c_protocol_dispatch `{!NetworkLaws Multiaddress Conn Transport E} h w b a name f st s :
  hosts s !! h = Some w -> host w = Some b -> memory s !! a = Some name -> loop_runs (host_context w) s = true ->
  exists s1, libp2p_host_register_protocol (Some h) (Some a) (Some f) s = Some (s1, LIBP2P_SUCCESS)
    /\ (protocols_ (host_listener b) !! name = None ->
        streams (dispatch_stream h name st s1) !! next s1 = Some (mkStream st h)
        /\ calls (dispatch_stream h name st s1) = calls s ++ [(None, OnStream f (Some (next s1)))])
    /\ (forall n g, protocols_ (host_listener b) !! name = Some (Some n) -> handlers s !! n = Some g -> (n < next s)%nat ->
        calls (dispatch_stream h name st s1) = calls s ++ [(None, OnStream (handler_ g) (Some (next s1)))]).
Proof.
  intros Hw Hb Ha Hl. unfold libp2p_host_register_protocol, get_host, deref. rewrite Hw. cbn. rewrite Hb. cbn. rewrite Ha. cbn.
  eexists. split; [reflexivity|]. split.
  - intros Hp. erewrite (dispatched h _ _ (next s) (mkHandler name f h));
      [|apply lookup_insert_eq|reflexivity|done|cbn; by rewrite Hp, lookup_insert_eq|apply lookup_insert_eq].
    split; [apply lookup_insert_eq|done].
  - intros n g Hp Hg Hn. erewrite (dispatched h _ _ n g); [done|apply lookup_insert_eq|reflexivity|done|cbn; by rewrite Hp|].
    cbn. by rewrite lookup_insert_ne by (clear - Hn; lia).
Qed.

Section Laws.
Context `{!ExtLaws, !Dotted, !ProtobufLaws, !Ed25519Total, !RsaDer}.

Lemma samples_made i : is_Some (makeEd25519 sha256 i).
Proof. destruct (sample_made sha256 i) as (pub & id & pb & -> & _). by eexists. Qed.


(** The identity of a host survives its text.  A host is made for every seed, on a
    context; the text of [libp2p_host_peer_id] is read back, by whoever has it, as an
    object with the same peer id and text.  The seed chooses one of a thousand sample
    peers. *)
Theorem c_host_identity c x (seed : option bytes) a s :
  contexts s !! c = Some x -> deref (memory s) a = Some seed ->
  exists sp s1 h s2 p text, makeEd25519 sha256 (seed_index hash_string seed) = Some sp
    /\ 0 <= seed_index hash_string seed < 1000
    /\ libp2p_host_create sha256 hash_string quic (Some c) a s = Some (s1, Some h)
    /\ libp2p_host_peer_id (Some h) s1 = Some (s2, Some p)
    /\ libp2p_peer_id_to_string (Some p) s2 = Some (Some (InPeerId p)) /\ read_string (InPeerId p) s2 = Some text
    /\ forall q s3, memory s3 !! q = Some text ->
        exists s4 p', libp2p_peer_id_create (Some q) s3 = Some (s4, Some p')
          /\ peer_ids s4 !! p' = Some (mkPeerId (peer_id sp) text).
Proof.
  intros Hc Ha. destruct (sample_made sha256 (seed_index hash_string seed)) as (pub & id & pb & Hmake & Hm & Hfrom & _).
  set (sp := sample_of (seed_index hash_string seed) pub id) in *.
  unfold libp2p_host_create. rewrite Ha. cbn [mbind option_bind]. rewrite Hmake. cbn [mbind option_bind]. rewrite Hc.
  eexists sp, _, (next s), _, _, (toBase58 id). split; [done|]. split; [apply Z.mod_pos_bound; lia|]. split; [reflexivity|].
  split; [unfold libp2p_host_peer_id, get_host, deref; cbn; rewrite lookup_insert_eq; reflexivity|].
  split; [unfold libp2p_peer_id_to_string, deref; cbn; by rewrite lookup_insert_eq|].
  split; [cbn; by rewrite lookup_insert_eq|]. intros q s3 Hq. unfold libp2p_peer_id_create. rewrite Hq. cbn [mbind option_bind].
  rewrite (base58_from_hash _ _ _ Hm), Hfrom. cbn. eexists _, _. split; [reflexivity|]. apply lookup_insert_eq.
Qed.
End Laws.
End Safe.

(** ** A concrete client *)
Module ToyClient.
Import (hints) ConnectionManager.Plain MultiaddrPlain.Plain Multibase.Multibase.
Import (hints) Keys.Toy ToySample.

(** The transports take the addresses that the QUIC transport takes. *)
#[export] Instance toy_client_network : Network Multiaddress nat unit Chunked.eof := {|
  canDial _ a := match QuicTransport.canDial a with Some b => b | None => false end;
  asQuic a := match TcpUtil.asQuic a with Some (success _) => success tt | _ => failure Chunked.Eof end;
  remotePeer := ConnectionManager.Plain.peer_of;
  order_listeners := map_to_list;
  order_protocols := map_to_list;
  longest_prefix m p := ListenerManager.Toy.longest m p (length p);
  equal_prefix_range m pre := filter (fun e => take (length pre) e.1 = pre) (map_to_list m)
|}.
#[export] Instance toy_client_network_laws : NetworkLaws Multiaddress nat unit Chunked.eof.
Proof.
  split; cbn; try done.
  - intros m p k h Hl. apply ListenerManager.Toy.longest_some in Hl as (? & ? & Hmax). split_and!; [done|done|].
    intros k' h' Hk' Hp. apply (Hmax k' h'); [done|done|by apply prefix_length].
  - intros m p Hl k h Hk Hp. pose proof (ListenerManager.Toy.longest_none _ _ _ Hl k h Hk Hp) as Hlen.
    apply prefix_length in Hp. lia.
Qed.

Definition sha (_ : bytes) : bytes := replicate 32 7.
Definition hash (s : bytes) : Z := Z.of_nat (length s).
Definition peer_text : bytes := match makeEd25519 sha 0 with Some sp => toBase58 (peer_id sp) | None => [] end.
Definition f : closure := mkClosure 5 (Some 50%nat).
Definition quic_address : bytes := str "/ip4/1.2.3.4/udp/9000/quic-v1".
Abbreviation event := (event (Conn := nat) (Transport := unit) (E := Chunked.eof)).
Abbreviation capi := (capi (Conn := nat) (Transport := unit) (E := Chunked.eof)).
Abbreviation run := (capi_run sha hash tt).

(** The strings and the buffer, a context and a host on it. *)
Definition opening : list event :=
  [ClientStores 1 quic_address; ClientStores 2 peer_text; ClientStores 3 (str "/echo"); ClientStores 4 (replicate 8 0);
   ContextCreate; HostCreate (Some 0%nat) None; RegisterProtocol (Some 1%nat) (Some 3%nat) (Some f)].
(** A dial that fails, a stream, a read, and an orderly end. *)
Definition session : list event :=
  opening ++
  [Dial (Some 1%nat) (Some 1%nat) (Some 2%nat) (Some f); ContextRun (Some 0%nat); Starts 0; Completes 0 (DialDone (failure Chunked.Eof));
   NewStream (Some 1%nat) (Some 2%nat) (Some 3%nat) (Some f); Starts 1; Completes 1 (StreamDone (success (Some 7%nat)));
   StreamRead (Some 3%nat) (Some 4%nat) 8 (Some f); Starts 2; Completes 2 (ReadDone (success [1; 2; 3]));
   HostListen success false (Some 1%nat) (Some 1%nat); Incoming 1 (str "/echo") (Some 8%nat); StreamClose (success tt) (Some 3%nat); ClientFrees 4;
   ContextStop (Some 0%nat); RunEnds false 0; HostDestroy (Some 1%nat); ContextDestroy (Some 0%nat)].
Definition after (es : list event) : capi := match run es capi_new with Some s => s | None => capi_new end.


(** The callbacks of the session. *)
Lemma session_calls :
  map snd (calls (after session))
  = [OnConnection f 1 (Some peer_text); OnStream f (Some 3%nat); OnRead f 3 (Some 4%nat) 3 LIBP2P_SUCCESS; OnStream f (Some 4%nat)].
Proof. vm_compute. reflexivity. Qed.

Definition dialled : coroutine :=
  mkCoroutine (DialJob 1 (default (mkMultihash [] 0 0) (peer_id <$> makeEd25519 sha 0))
    (default (mkMultiaddress [] []) (create_value quic_address))) f 0 false.
Lemma c_callbacks_once_witness :
  exists k, calls_of 0 (calls (after session)) = [k] /\ answers dialled k (after session).
Proof.
  assert (run session capi_new = Some (after session)) as Hr by (vm_compute; reflexivity).
  assert (accepted (after session) !! 0%nat = Some dialled) as Ha by (vm_compute; reflexivity).
  assert (coroutines (after session) !! 0%nat = None) as Hc by (vm_compute; reflexivity).
  pose proof (c_callbacks_once sha hash tt session (after session) 0 dialled Hr Ha) as Hk. rewrite Hc in Hk. exact Hk.
Defined.

Lemma c_protocol_dispatch_witness :
  exists s1, libp2p_host_register_protocol (Some 1%nat) (Some 2%nat) (Some f) (after (opening ++ [ContextRun (Some 0%nat)])) = Some (s1, LIBP2P_SUCCESS)
    /\ calls (dispatch_stream 1 peer_text (Some 9%nat) s1) = [(None, OnStream f (Some (next s1)))].
Proof.
  destruct (c_protocol_dispatch 1 (default (mkCHost None 0 ∅ None) (hosts (after (opening ++ [ContextRun (Some 0%nat)])) !! 1%nat))
    (host_listenProtocol (Some 2%nat) [str "/echo"] (injected_host tt (default (mkMultihash [] 0 0) (peer_id <$> makeEd25519 sha 0))))
    2 peer_text f (Some 9%nat) (after (opening ++ [ContextRun (Some 0%nat)]))) as (s1 & Hr & Hnew & _);
    [vm_compute; reflexivity..|].
  exists s1. split; [exact Hr|]. apply Hnew. vm_compute. reflexivity.
Defined.

Lemma c_host_identity_witness :
  exists sp, makeEd25519 sha 5 = Some sp
    /\ exists s1 h, libp2p_host_create sha hash tt (Some 0%nat) (Some 3%nat) (after opening) = Some (s1, Some h).
Proof.
  destruct (c_host_identity sha hash tt 0 (mkContext true false) (Some (str "/echo")) (Some 3%nat) (after opening))
    as (sp & s1 & h & _ & _ & _ & Hsp & _ & Hh & _); [vm_compute; reflexivity..|].
  exists sp. split; [exact Hsp|]. by exists s1, h.
Defined.

(** ** What the header of the interface does not say *)

(** A protocol id that is released after [libp2p_host_new_stream] has returned is read
    when the coroutine starts. *)
Theorem new_stream_keeps_protocol_pointer :
  run (opening ++ [NewStream (Some 1%nat) (Some 2%nat) (Some 3%nat) (Some f); ClientFrees 3; ContextRun (Some 0%nat); Starts 0]) capi_new = None.
Proof. vm_compute. reflexivity. Qed.

(** A host that is destroyed before its dial has started is used by the coroutine. *)
Theorem destroyed_host_is_dialled :
  run (opening ++ [Dial (Some 1%nat) (Some 1%nat) (Some 2%nat) (Some f); HostDestroy (Some 1%nat); ContextRun (Some 0%nat); Starts 0]) capi_new = None.
Proof. vm_compute. reflexivity. Qed.

(** A host that listens is destroyed while its loop runs: the next stream of a peer, or a
    new connection, is handed to a listener manager that is gone. *)
Theorem destroyed_host_accepts :
  run (opening ++ [HostListen success false (Some 1%nat) (Some 1%nat); ContextRun (Some 0%nat); HostDestroy (Some 1%nat);
                   Incoming 1 (str "/echo") (Some 8%nat)]) capi_new = None.
Proof. vm_compute. reflexivity. Qed.

(** A multiaddress of a protocol that has no text fails an assertion instead of giving
    [NULL]. *)
Theorem unix_address_asserts :
  run [ClientStores 1 (str "/unix/tmp"); MultiaddrCreate (Some 1%nat)] capi_new = None.
Proof. vm_compute. reflexivity. Qed.

(** The address of the examples cannot be listened on: QUIC is not over TCP. *)
Theorem header_address_is_refused :
  exists s, libp2p_host_listen success false (Some 1%nat) (Some 5%nat)
      (after (opening ++ [ClientStores 5 (str "/ip4/0.0.0.0/tcp/0/quic-v1")])) = Some (s, LIBP2P_ERROR_CONNECTION_FAILED).
Proof. eexists. vm_compute. reflexivity. Qed.

(** The text of [libp2p_host_default_listen] changes with the next call, for another
    host. *)
Definition two_hosts : capi :=
  after (opening ++ [ClientStores 5 (str "/ip4/1.2.3.4/udp/1/quic-v1"); ClientStores 6 (str "/ip4/1.2.3.4/udp/2/quic-v1");
    HostListen success false (Some 1%nat) (Some 5%nat); HostCreate (Some 0%nat) None; HostListen success false (Some 3%nat) (Some 6%nat)]).
Theorem default_listen_is_overwritten :
  ('(s1, c) ← libp2p_host_default_listen (Some 1%nat) two_hosts;
   '(s2, _) ← libp2p_host_default_listen (Some 3%nat) s1;
   Some (c ≫= (fun c => read_string c s1), c ≫= (fun c => read_string c s2), bool_decide (is_Some (hosts s2 !! 1%nat))))
  = Some (Some (str "/ip4/1.2.3.4/udp/1/quic-v1"), Some (str "/ip4/1.2.3.4/udp/2/quic-v1"), true).
Proof. vm_compute. reflexivity. Qed.
End ToyClient.
