(* ===== verification/CEcho.v ===== *)
(** * The echo server in C

    [example/01-echo/libp2p_echo_server_c.c], a client of the C interface: [main] and the
    three callbacks, which hand the state of a stream from one call to the next and
    free it when an operation fails.

    A callback runs inside the coroutine that makes it, so the server reacts to a
    callback before anything else happens.  The state of a stream, [echo_state_t], is a
    block of the client's memory at whose beginning the buffer is; what streams have
    given and taken is recorded.

    The thread that waits for a signal stops the context of the global [g_context], which
    is never reset.  A signal may come between any two calls of [main] and between any
    two events of the loop; what happens when it comes inside a call is not modelled. *)

From S2P Require Import Prelude Varint Stream Multiselect Multihash Base58 Multibase ByteUtil.
From S2P Require Import MultiaddrCodec MultiaddrPlain Multiaddress PeerAddress Keys SamplePeer.
From S2P Require Import AddressRepository PeerRepository ConnectionManager ListenerManager Dialer Host CApi CApiSafe.

(** The callbacks as function pointers. *)
Definition fn_echo_protocol_handler : nat := 1.
Definition fn_on_read_complete : nat := 2.
Definition fn_on_write_complete : nat := 3.
(** [sizeof(state->read_buffer)] *)
Definition buffer_size : nat := 1024.

(** The string literals, and the address to listen on. *)
Definition keypair_seed : ptr := 1.
Definition protocol_name : ptr := 2.
Definition listen_addr_arg : ptr := 3.

(** What passes over a stream. *)
Inductive io := Got (st : ptr) (data : bytes) | Sent (st : ptr) (data : bytes).
Definition got (st : ptr) (t : list io) : list bytes :=
  omap (fun x => match x with Got q d => if decide (q = st) then Some d else None | _ => None end) t.
Definition sent (st : ptr) (t : list io) : list bytes :=
  omap (fun x => match x with Sent q d => if decide (q = st) then Some d else None | _ => None end) t.

(** Where a signal may come: at the start, and after each of the calls. *)
Inductive point :=
| AtStart | ContextMade | HostMade | Registered | Listening | HostStarted | IdMade | Dialled | BeforeRun
| LoopReturned | IdGone | HostGone | ContextGone | AtEnd.
Definition signal_points : Type := point -> bool.

Section Echo.
Context {Conn Transport E : Type} `{EqDecision Conn, !Countable Conn} `{!Traversal Conn}.
Context `{!Network Multiaddress Conn Transport E} `{Ext, Hex, Providers, Protobuf}.
Context (sha256 : bytes -> bytes) (hash_string : bytes -> Z) (quic : Transport).

Local Abbreviation capi := (capi (Conn := Conn) (Transport := Transport) (E := E)).
Local Abbreviation event := (event (Conn := Conn) (Transport := Transport) (E := E)).
Local Abbreviation step := (capi_step sha256 hash_string quic).
Implicit Type s : capi.

(** [bytes_to_echo] of the states, and the record. *)
Record server := mkServer { api : capi; bytes_to_echo : gmap ptr nat; trace : list io }.

(** What the machine answers: whether [malloc] finds memory, and what closing a stream
    gives. *)
Record machine := mkMachine { has_memory : bool; closes : outcome E unit }.

(** [free]; [None] is freeing what is not allocated. *)
Definition c_free (p : ptr) (w : server) : option server :=
  _ ← memory (api w) !! p;
  Some (mkServer (set_memory (delete p (memory (api w))) (api w)) (delete p (bytes_to_echo w)) (trace w)).
Definition with_api (a : capi) (w : server) : server := mkServer a (bytes_to_echo w) (trace w).
Definition close (m : machine) (st : option ptr) (w : server) : option server :=
  '(a, _) ← libp2p_stream_close (closes m) st (api w); Some (with_api a w).

(** [libp2p_stream_read(stream, state->read_buffer, sizeof(state->read_buffer),
    on_read_complete, state)] *)
Definition read_into (st : option ptr) (state : ptr) (w : server) : option (server * libp2p_error_t) :=
  '(a, r) ← libp2p_stream_read st (Some state) buffer_size (Some (mkClosure fn_on_read_complete (Some state))) (api w);
  Some (with_api a w, r).

Definition echo_protocol_handler (m : machine) (st : option ptr) (w : server) : option server :=
  if negb (has_memory m) then close m st w
  else
    let state := fresh (dom (memory (api w))) in
    let w := mkServer (set_memory (<[state := replicate buffer_size 0]> (memory (api w))) (api w))
               (<[state := 0%nat]> (bytes_to_echo w)) (trace w) in
    '(w, result) ← read_into st state w;
    if decide (result = LIBP2P_SUCCESS) then Some w
    else w ← c_free state w; close m st w.

Definition on_read_complete (st : ptr) (data : option ptr) (size : nat) (error : libp2p_error_t) (user_data : option ptr)
    (w : server) : option server :=
  state ← user_data;
  if negb (bool_decide (error = LIBP2P_SUCCESS)) then c_free state w
  else if (size =? 0)%nat then c_free state w
  else
    _ ← memory (api w) !! state;
    let w := mkServer (api w) (<[state := size]> (bytes_to_echo w)) (trace w) in
    '(a, write_result) ← libp2p_stream_write (Some st) data size (Some (mkClosure fn_on_write_complete (Some state))) (api w);
    let w := with_api a w in
    if decide (write_result = LIBP2P_SUCCESS) then Some w else c_free state w.

Definition on_write_complete (st : ptr) (error : libp2p_error_t) (user_data : option ptr) (w : server) : option server :=
  state ← user_data;
  if negb (bool_decide (error = LIBP2P_SUCCESS)) then c_free state w
  else
    '(w, read_result) ← read_into (Some st) state w;
    if decide (read_result = LIBP2P_SUCCESS) then Some w else c_free state w.

(** The function of a callback is called; [None] is a call with the wrong arguments. *)
Definition reacts (m : machine) (k : call) (w : server) : option server :=
  match k with
  | OnStream f st => if decide (fn f = fn_echo_protocol_handler) then echo_protocol_handler m st w else None
  | OnRead f st data size error =>
      if decide (fn f = fn_on_read_complete) then on_read_complete st data size error (user_data f) w else None
  | OnWrite f st n error =>
      if decide (fn f = fn_on_write_complete) then on_write_complete st error (user_data f) w else None
  | OnConnection _ _ _ => None
  end.

(** What a completed operation has moved, in the state before it. *)
Definition moved (e : event) s : list io :=
  match e with
  | Completes i (ReadDone (success d)) =>
      match co_job <$> coroutines s !! i with Some (ReadJob st _ _) => [Got st d] | _ => [] end
  | Completes i (WriteDone (success _)) =>
      match co_job <$> coroutines s !! i with
      | Some (WriteJob st p n) => [Sent st (take n (default [] (memory s !! p)))]
      | _ => []
      end
  | _ => []
  end.

(** An event, and the reaction to the callback it makes, if it makes one. *)
Definition server_step (m : machine) (e : event) (w : server) : option server :=
  a ← step e (api w);
  match drop (length (calls (api w))) (calls a) with
  | [] => Some (with_api a w)
  | (_, k) :: _ => reacts m k (mkServer a (bytes_to_echo w) (trace w ++ moved e (api w)))
  end.
Fixpoint server_events (es : list (machine * event)) (w : server) : option server :=
  match es with
  | [] => Some w
  | (m, e) :: es => w ← server_step m e w; server_events es w
  end.

(** ** [main] *)

(** [if (g_context) libp2p_context_stop(g_context)], if a signal comes. *)
Definition signalled (b : bool) (g_context : option ptr) (s : capi) : option capi :=
  if b then libp2p_context_stop g_context s else Some s.

(** The early returns of [main] with a host, and with a context only. *)
Definition give_up_context (sig : signal_points) (g : option ptr) (s : capi) : option (capi * option (ptr * ptr * option ptr)) :=
  s ← libp2p_context_destroy g s;
  s ← signalled (sig ContextGone) g s;
  Some (s, None).
Definition give_up_host (sig : signal_points) (g h : option ptr) (s : capi) : option (capi * option (ptr * ptr * option ptr)) :=
  s ← libp2p_host_destroy h s;
  s ← signalled (sig HostGone) g s;
  give_up_context sig g s.

(** Up to the call of [libp2p_context_run]; [None] in the result when [main] has
    returned, else the context, the host and the peer id. *)
Definition setup (sig : signal_points) (bind : Multiaddress -> outcome E Multiaddress) (s : capi) :
    option (capi * option (ptr * ptr * option ptr)) :=
  s ← signalled (sig AtStart) None (libp2p_set_log_level LIBP2P_LOG_INFO s);
  let '(s, g_context) := libp2p_context_create s in
  match g_context with
  | None => Some (s, None)
  | Some c =>
      s ← signalled (sig ContextMade) g_context s;
      '(s, host) ← libp2p_host_create sha256 hash_string quic g_context (Some keypair_seed) s;
      s ← signalled (sig HostMade) g_context s;
      match host with
      | None => give_up_context sig g_context s
      | Some h =>
          '(s, result) ← libp2p_host_register_protocol host (Some protocol_name)
                           (Some (mkClosure fn_echo_protocol_handler None)) s;
          s ← signalled (sig Registered) g_context s;
          if negb (bool_decide (result = LIBP2P_SUCCESS)) then give_up_host sig g_context host s
          else
            '(s, result) ← libp2p_host_listen bind false host (Some listen_addr_arg) s;
            s ← signalled (sig Listening) g_context s;
            if negb (bool_decide (result = LIBP2P_SUCCESS)) then give_up_host sig g_context host s
            else
              '(s, result) ← libp2p_host_start bind host s;
              s ← signalled (sig HostStarted) g_context s;
              if negb (bool_decide (result = LIBP2P_SUCCESS)) then give_up_host sig g_context host s
              else
                '(s, peer_id_obj) ← libp2p_host_peer_id host s;
                s ← signalled (sig IdMade) g_context s;
                '(s, _) ← libp2p_host_default_listen host s;
                s ← signalled (sig BeforeRun) g_context s;
                '(s, _) ← libp2p_context_run g_context s;
                Some (s, Some (c, h, peer_id_obj))
      end
  end.

(** The rest of [main], once [libp2p_context_run] has returned; [main] then waits for the
    signal thread. *)
Definition cleanup (sig : signal_points) (c h : ptr) (peer_id_obj : option ptr) (a : capi) : option capi :=
  a ← signalled (sig LoopReturned) (Some c) a;
  a ← (match peer_id_obj with Some _ => libp2p_peer_id_destroy peer_id_obj a | None => Some a end);
  a ← signalled (sig IdGone) (Some c) a;
  a ← libp2p_host_destroy (Some h) a;
  a ← signalled (sig HostGone) (Some c) a;
  a ← libp2p_context_destroy (Some c) a;
  signalled (sig ContextGone) (Some c) a.
Definition finish (sig : signal_points) (thrown : bool) (c h : ptr) (peer_id_obj : option ptr) (w : server) : option server :=
  '(a, result) ← run_ends thrown c (api w);
  match result with
  | None => Some (with_api a w)
  | Some _ => a ← cleanup sig c h peer_id_obj a; Some (with_api a w)
  end.

(** The whole program, with the events of its loop. *)
Definition static_memory (listen_addr : bytes) : capi :=
  set_memory (<[keypair_seed := str "echo_server_seed_0"]> (<[protocol_name := str "/echo/1.0.0"]>
    {[listen_addr_arg := listen_addr]})) capi_new.
Definition echo_main (sig : signal_points) (listen_addr : bytes) (bind : Multiaddress -> outcome E Multiaddress)
    (es : list (machine * event)) (thrown : bool) : option server :=
  '(s, r) ← setup sig bind (static_memory listen_addr);
  match r with
  | None => Some (mkServer s ∅ [])
  | Some (c, h, p) => w ← server_events es (mkServer s ∅ []); finish sig thrown c h p w
  end.

(** What happens while the loop runs; a signal that comes then stops the context. *)
Definition environment (c : ptr) (e : event) : Prop :=
  match e with
  | Starts _ | Completes _ _ | Incoming _ _ _ | HostWorks _ _ => True
  | ContextStop c' => c' = Some c
  | _ => False
  end.

(** ** The invariant *)

Definition job_buffer (j : job) : option ptr := fst <$> job_memory j.
(** No operation uses the stream [st], none the block [p]. *)
Definition idle (st : ptr) s : Prop := forall i c, coroutines s !! i = Some c -> job_stream (co_job c) <> Some st.
Definition unused (p : ptr) s : Prop := forall i c, coroutines s !! i = Some c -> job_buffer (co_job c) <> Some p.

(** An operation of a stream: its state, and what has passed over the stream. *)
Definition op_ok (c : coroutine) s (t : list io) : Prop :=
  match co_job c with
  | ReadJob st p n =>
      n = buffer_size /\ co_callback c = mkClosure fn_on_read_complete (Some p) /\ got st t = sent st t
      /\ exists b, memory s !! p = Some b /\ length b = buffer_size
  | WriteJob st p n =>
      co_callback c = mkClosure fn_on_write_complete (Some p)
      /\ exists b, memory s !! p = Some b /\ length b = buffer_size /\ (n <= buffer_size)%nat /\ got st t = sent st t ++ [take n b]
  | _ => False
  end.
(** Everything that was received has been sent back in order, but the last maybe. *)
Definition echoed (st : ptr) (t : list io) : Prop := got st t = sent st t \/ exists d, got st t = sent st t ++ [d].

(** The server with its context [c], its host [h] and the object of its peer id [pid]. *)
Record serving (c h : ptr) (pid : option ptr) s (t : list io) : Prop := {
  v_ok : capi_ok s;
  v_history : history s;
  v_host : exists w, hosts s = {[h := w]} /\ host_context w = c;
  v_loop : exists stopped, loops s = {[c := mkLoop stopped 1]};
  v_orphans : orphans s = ∅;
  v_pid : live (peer_ids s) pid;
  v_streams st w : streams s !! st = Some w -> stream_host w = h;
  v_handlers n g : handlers s !! n = Some g -> handler_ g = mkClosure fn_echo_protocol_handler None /\ host_wrapper_ g = h;
  v_ops i x : coroutines s !! i = Some x -> op_ok x s t;
  v_own i j x y p : coroutines s !! i = Some x -> coroutines s !! j = Some y ->
    job_buffer (co_job x) = Some p -> job_buffer (co_job y) = Some p -> i = j;
  v_one i j x y st : coroutines s !! i = Some x -> coroutines s !! j = Some y ->
    job_stream (co_job x) = Some st -> job_stream (co_job y) = Some st -> i = j;
  v_echoed st : echoed st t;
  v_fresh st : (next s <= st)%nat -> got st t = [] /\ sent st t = []
}.

(** Changes that the invariant does not see. *)
Lemma serving_frame c h pid s s' t :
  capi_ok s' -> history s' ->
  (exists w, hosts s' = {[h := w]} /\ host_context w = c) -> (exists stopped, loops s' = {[c := mkLoop stopped 1]}) ->
  orphans s' = orphans s -> peer_ids s' = peer_ids s -> (forall st w, streams s' !! st = Some w -> stream_host w = h) -> handlers s' = handlers s ->
  memory s' = memory s -> coroutines s' = coroutines s -> (next s <= next s')%nat ->
  serving c h pid s t -> serving c h pid s' t.
Proof.
  intros Ho Hh Hw Hl Hor Hp Hs Hg Hm Hc Hn [A1 A2 A3 A4 Ao A5 A6 A7 A8 A9 A10 A11 A12].
  split; rewrite ?Hp, ?Hg, ?Hc, ?Hor; try done.
  - intros i x Hx. specialize (A8 i x Hx). unfold op_ok in *. by rewrite Hm.
  - intros st Hst. apply A12. lia.
Qed.

(** A block that nobody uses is freed or made. *)
Lemma serving_memory c h pid s t p f :
  unused p s -> serving c h pid s t -> serving c h pid (set_memory (partial_alter f p (memory s)) s) t.
Proof.
  intros Hu [A1 A2 A3 A4 Ao A5 A6 A7 A8 A9 A10 A11 A12].
  assert (forall i x q, coroutines s !! i = Some x -> job_buffer (co_job x) = Some q -> p <> q) as Hne
    by (intros i x q Hx Hq ->; by apply (Hu i x Hx)).
  split; try done.
  - destruct A1 as [B1 B2 B3]. split; [done|done|]. intros i x Hx. destruct (B3 i x Hx) as (J1 & J2 & J3).
    split; [done|]. split; [done|]. intros q n Hq. cbn [set_memory memory].
    rewrite lookup_partial_alter_ne; [by apply J3|]. apply (Hne i x q Hx). unfold job_buffer. by rewrite Hq.
  - by apply (history_quiet s); [apply quiet_same|].
  - intros i x Hx. specialize (A8 i x Hx). unfold op_ok in *. pose proof (Hne i x) as Hx'. unfold job_buffer in Hx'.
    cbn [set_memory memory]. destruct (co_job x) as [st q n|st q n| |]; try done; by rewrite lookup_partial_alter_ne by by apply Hx'.
Qed.

(** An operation on an idle stream begins. *)
Lemma serving_spawn c h pid s t x st p :
  co_loop x = c -> job_stream (co_job x) = Some st -> job_buffer (co_job x) = Some p ->
  is_Some (streams s !! st) -> idle st s -> unused p s -> op_ok x s t ->
  serving c h pid s t -> serving c h pid (spawn x s) t.
Proof.
  intros Hl Hst Hp Hlive Hi Hu Hop [A1 A2 A3 A4 Ao A5 A6 A7 A8 A9 A10 A11 A12].
  assert (forall i y, coroutines (spawn x s) !! i = Some y -> i = length (accepted s) /\ y = x \/ coroutines s !! i = Some y) as Hcases.
  { intros i y. cbn [spawn coroutines]. destruct (decide (i = length (accepted s))) as [->|];
      rewrite ?lookup_insert_eq, ?lookup_insert_ne by done; [intros [= <-]; by left|by right]. }
  split; try done.
  - apply ok_spawn; [|done]. unfold op_ok in Hop. unfold job_ok. rewrite Hst. split; [done|].
    destruct (co_job x) as [st' q n|st' q n| |]; try done; cbn; (split; [done|]); intros q' n' [= <- <-].
    + destruct Hop as (-> & _ & _ & b & Hb & Hlb). exists b. split; [done|lia].
    + destruct Hop as (_ & b & Hb & Hlb & Hn & _). exists b. split; [done|lia].
  - by apply history_spawn.
  - intros i y [[-> ->]|Hy]%Hcases; [done|]. exact (A8 i y Hy).
  - intros i j y z q [[-> ->]|Hy]%Hcases [[-> ->]|Hz]%Hcases Hq Hq'; [done| | |by eapply A9].
    + exfalso. assert (q = p) as -> by congruence. by apply (Hu j z Hz).
    + exfalso. assert (q = p) as -> by congruence. by apply (Hu i y Hy).
  - intros i j y z q [[-> ->]|Hy]%Hcases [[-> ->]|Hz]%Hcases Hq Hq'; [done| | |by eapply A10].
    + exfalso. assert (q = st) as -> by congruence. by apply (Hi j z Hz).
    + exfalso. assert (q = st) as -> by congruence. by apply (Hi i y Hy).
Qed.

(** An operation ends. *)
Lemma serving_ends c h pid s t t' i x k st p :
  coroutines s !! i = Some x -> job_stream (co_job x) = Some st -> job_buffer (co_job x) = Some p -> answers x k s ->
  (forall st', st' <> st -> got st' t' = got st' t /\ sent st' t' = sent st' t) -> echoed st t' ->
  serving c h pid s t ->
  serving c h pid (end_coroutine i k s) t' /\ idle st (end_coroutine i k s) /\ unused p (end_coroutine i k s).
Proof.
  intros Hx Hst Hp Hk Hother Hecho [A1 A2 A3 A4 Ao A5 A6 A7 A8 A9 A10 A11 A12].
  assert (forall j y, coroutines (end_coroutine i k s) !! j = Some y -> j <> i /\ coroutines s !! j = Some y) as Hcases
    by (intros j y Hy; cbn in Hy; apply lookup_delete_Some in Hy as [? ?]; by split).
  assert (forall j y st', j <> i -> coroutines s !! j = Some y -> job_stream (co_job y) = Some st' -> st' <> st) as Hne
    by (intros j y st' Hj Hy Hs ->; by apply Hj, (A10 j i y x st)).
  split; [split; try done|split].
  - by apply ok_end.
  - by apply (history_end i x).
  - intros j y [Hj Hy]%Hcases. specialize (A8 j y Hy). specialize (Hne j y). unfold op_ok in *.
    destruct (co_job y) as [st' q n|st' q n| |]; try done; destruct (Hother st') as [-> ->]; [by apply Hne|done|by apply Hne|done].
  - intros j j' y z q [_ Hy]%Hcases [_ Hz]%Hcases. by apply A9.
  - intros j j' y z q [_ Hy]%Hcases [_ Hz]%Hcases. by apply A10.
  - intros st'. destruct (decide (st' = st)) as [->|Hs]; [done|]. unfold echoed. destruct (Hother st' Hs) as [-> ->]. apply A11.
  - intros st' Hs. destruct (ok_job s A1 i x Hx) as [Hl _]. rewrite Hst in Hl. destruct Hl as [w Hw].
    apply (h_fresh s A2) in Hw. destruct (Hother st') as [-> ->]; [cbn in Hs; lia|]. by apply A12.
  - intros j y [Hj Hy]%Hcases Hs. by apply (Hne j y st Hj Hy Hs).
  - intros j y [Hj Hy]%Hcases Hq. by apply Hj, (A9 j i y x p).
Qed.

(** ** The callbacks *)

Definition served (c h : ptr) (pid : option ptr) (r : option server) : Prop :=
  exists w, r = Some w /\ serving c h pid (api w) (trace w).

Lemma free_fine c h pid p w :
  is_Some (memory (api w) !! p) -> unused p (api w) -> serving c h pid (api w) (trace w) -> served c h pid (c_free p w).
Proof.
  intros [b Hb] Hu Hs. unfold c_free. rewrite Hb. cbn. eexists. split; [reflexivity|]. cbn. by apply serving_memory.
Qed.

Lemma close_fine c h pid m st w :
  is_Some (streams (api w) !! st) -> serving c h pid (api w) (trace w) -> served c h pid (close m (Some st) w).
Proof.
  intros Hl Hs. unfold close, libp2p_stream_close. destruct (get_stream_live (Some st) (api w) Hl) as (r & -> & _).
  cbn. by eexists.
Qed.

(** A read or a write of a stream of the server. *)
Lemma io_call c h pid (mk : ptr -> ptr -> job) st p f s t :
  is_Some (streams s !! st) -> serving c h pid s t ->
  exists r, (r ← get_stream (Some st) s;
    match r, Some p, Some f with
    | Some (q, w), Some b, Some f => l ← loop_of_host (stream_host w) s; Some (spawn (mkCoroutine (mk q b) f l false) s, LIBP2P_SUCCESS)
    | _, _, _ => Some (s, LIBP2P_ERROR_INVALID_ARGUMENT)
    end) = Some r
    /\ (r = (spawn (mkCoroutine (mk st p) f c false) s, LIBP2P_SUCCESS) \/ r = (s, LIBP2P_ERROR_INVALID_ARGUMENT)).
Proof.
  intros Hl Hs. destruct (get_stream_live (Some st) s Hl) as ([[q x]|] & -> & Hr); cbn; [|eexists; by auto].
  destruct Hr as [[= <-] Hx]. rewrite (v_streams c h pid s t Hs st x Hx). destruct (v_host c h pid s t Hs) as (wh & Hh & <-).
  unfold loop_of_host. rewrite Hh, lookup_singleton_eq. cbn.
  destruct (ok_host s (v_ok _ _ _ _ _ Hs) h wh) as [[y ->] _]; [by rewrite Hh, lookup_singleton_eq|]. eexists. by auto.
Qed.

Lemma read_fine c h pid st p b w :
  is_Some (streams (api w) !! st) -> idle st (api w) -> unused p (api w) ->
  memory (api w) !! p = Some b -> length b = buffer_size -> got st (trace w) = sent st (trace w) ->
  serving c h pid (api w) (trace w) ->
  exists w' r, read_into (Some st) p w = Some (w', r) /\
    (r = LIBP2P_SUCCESS /\ serving c h pid (api w') (trace w') \/ r <> LIBP2P_SUCCESS /\ w' = w).
Proof.
  intros Hl Hi Hu Hb Hlb Hg Hs. unfold read_into, libp2p_stream_read.
  destruct (io_call c h pid (fun q b => ReadJob q b buffer_size) st p (mkClosure fn_on_read_complete (Some p)) _ _ Hl Hs) as (r & -> & [-> | ->]); cbn.
  - eexists _, _. split; [reflexivity|]. left. split; [done|]. eapply (serving_spawn c h pid _ _ _ st p); try done.
    cbn. split_and!; [done|done|done|by exists b].
  - eexists _, _. split; [reflexivity|]. right. split; [done|by destruct w].
Qed.

Lemma write_fine c h pid st p b n w :
  is_Some (streams (api w) !! st) -> idle st (api w) -> unused p (api w) ->
  memory (api w) !! p = Some b -> length b = buffer_size -> (n <= buffer_size)%nat ->
  got st (trace w) = sent st (trace w) ++ [take n b] -> serving c h pid (api w) (trace w) ->
  exists a r, libp2p_stream_write (Some st) (Some p) n (Some (mkClosure fn_on_write_complete (Some p))) (api w) = Some (a, r) /\
    (r = LIBP2P_SUCCESS /\ serving c h pid a (trace w) \/ r <> LIBP2P_SUCCESS /\ a = api w).
Proof.
  intros Hl Hi Hu Hb Hlb Hn Hg Hs. unfold libp2p_stream_write.
  destruct (io_call c h pid (fun q b => WriteJob q b n) st p (mkClosure fn_on_write_complete (Some p)) _ _ Hl Hs) as (r & -> & [-> | ->]); cbn.
  - eexists _, _. split; [reflexivity|]. left. split; [done|]. eapply (serving_spawn c h pid _ _ _ st p); try done.
    cbn. split_and!; [done|]. by exists b.
  - eexists _, _. split; [reflexivity|]. by right.
Qed.

Lemma handler_fine c h pid m st w :
  is_Some (streams (api w) !! st) -> idle st (api w) -> got st (trace w) = sent st (trace w) ->
  serving c h pid (api w) (trace w) -> served c h pid (echo_protocol_handler m (Some st) w).
Proof.
  intros Hl Hi Hg Hs. unfold echo_protocol_handler. destruct (has_memory m); cbn [negb]; [|by apply close_fine].
  set (p := fresh (dom (memory (api w)))).
  assert (memory (api w) !! p = None) as Hp by (apply not_elem_of_dom; apply is_fresh).
  assert (unused p (api w)) as Hu.
  { intros i x Hx Hq. pose proof (v_ops c h pid _ _ Hs i x Hx) as Ho. unfold op_ok in Ho. unfold job_buffer in Hq.
    destruct (co_job x); try done; cbn in Hq; injection Hq as ->; [destruct Ho as (_ & _ & _ & b & Hb & _)|destruct Ho as (_ & b & Hb & _)];
      congruence. }
  set (w1 := mkServer _ _ _). assert (serving c h pid (api w1) (trace w1)) as Hs1 by by apply serving_memory.
  destruct (read_fine c h pid st p (replicate buffer_size 0) w1) as (w2 & r & -> & Hr); try done.
  { apply lookup_insert_eq. }
  cbn [mbind option_bind]. destruct Hr as [[-> Hs2]|[Hne ->]]; [by exists w2|]. rewrite decide_False by done.
  destruct (free_fine c h pid p w1) as (w3 & Hw3 & Hs3); [exists (replicate buffer_size 0); apply lookup_insert_eq|done|done|].
  rewrite Hw3. cbn [mbind option_bind]. apply close_fine; [|done]. unfold c_free in Hw3.
  destruct (memory (api w1) !! p); [|done]. by injection Hw3 as <-.
Qed.

(** After a read: [p] holds the data. *)
Lemma on_read_fine c h pid st p d size error data b w :
  is_Some (streams (api w) !! st) -> idle st (api w) -> unused p (api w) ->
  memory (api w) !! p = Some b -> length b = buffer_size ->
  (error = LIBP2P_SUCCESS -> data = Some p /\ size = length d /\ (length d <= buffer_size)%nat /\ take size b = d
     /\ got st (trace w) = sent st (trace w) ++ [d]) ->
  serving c h pid (api w) (trace w) -> served c h pid (on_read_complete st data size error (Some p) w).
Proof.
  intros Hl Hi Hu Hb Hlb He Hs. unfold on_read_complete. cbn [mbind option_bind].
  case_bool_decide as Herr; cbn [negb]; [|by apply free_fine]. destruct (He Herr) as (-> & -> & Hld & Htake & Hg).
  destruct (Nat.eqb_spec (length d) 0); [by apply free_fine|]. rewrite Hb. cbn [mbind option_bind api].
  destruct (write_fine c h pid st p b (length d) w) as (a & r & -> & Hr); try done; [by rewrite Htake|].
  cbn [mbind option_bind]. destruct Hr as [[-> Hs2]|[Hne ->]]; [by eexists|]. rewrite decide_False by done.
  by apply free_fine.
Qed.

Lemma on_write_fine c h pid st p error b w :
  is_Some (streams (api w) !! st) -> idle st (api w) -> unused p (api w) ->
  memory (api w) !! p = Some b -> length b = buffer_size ->
  (error = LIBP2P_SUCCESS -> got st (trace w) = sent st (trace w)) ->
  serving c h pid (api w) (trace w) -> served c h pid (on_write_complete st error (Some p) w).
Proof.
  intros Hl Hi Hu Hb Hlb He Hs. unfold on_write_complete. cbn [mbind option_bind].
  case_bool_decide as Herr; cbn [negb]; [|by apply free_fine].
  destruct (read_fine c h pid st p b w) as (w2 & r & -> & Hr); try done; [by apply He|].
  cbn [mbind option_bind]. destruct Hr as [[-> Hs2]|[Hne ->]]; [by exists w2|]. rewrite decide_False by done. by apply free_fine.
Qed.

(** ** The events *)

Lemma step_silent c h pid m e w a :
  step e (api w) = Some a -> calls a = calls (api w) -> serving c h pid a (trace w) -> served c h pid (server_step m e w).
Proof. intros Ha Hc Hs. unfold server_step. rewrite Ha. cbn. rewrite Hc, drop_all. by eexists. Qed.
Lemma step_calls c h pid m e w a x k :
  step e (api w) = Some a -> calls a = calls (api w) ++ [(x, k)] ->
  served c h pid (reacts m k (mkServer a (bytes_to_echo w) (trace w ++ moved e (api w)))) -> served c h pid (server_step m e w).
Proof. intros Ha Hc Hs. unfold server_step. rewrite Ha. cbn. by rewrite Hc, drop_app_length. Qed.

Lemma got_app st t x : got st (t ++ [x]) = got st t ++ got st [x].
Proof. apply omap_app. Qed.
Lemma sent_app st t x : sent st (t ++ [x]) = sent st t ++ sent st [x].
Proof. apply omap_app. Qed.
Lemma trace_other st st' t x : match x with Got q _ | Sent q _ => q = st end -> st' <> st ->
  got st' (t ++ [x]) = got st' t /\ sent st' (t ++ [x]) = sent st' t.
Proof.
  intros Hx Hne. rewrite got_app, sent_app. unfold got at 2, sent at 2. destruct x; cbn; subst;
    rewrite ?decide_False by done; by rewrite !app_nil_r.
Qed.
Lemma got_got st t d : got st (t ++ [Got st d]) = got st t ++ [d] /\ sent st (t ++ [Got st d]) = sent st t.
Proof. rewrite got_app, sent_app. unfold got at 2, sent at 2. cbn. by rewrite decide_True, app_nil_r by done. Qed.
Lemma sent_sent st t d : got st (t ++ [Sent st d]) = got st t /\ sent st (t ++ [Sent st d]) = sent st t ++ [d].
Proof. rewrite got_app, sent_app. unfold got at 2, sent at 2. cbn. by rewrite decide_True, app_nil_r by done. Qed.

Lemma read_fails c h pid m i e w x st p n :
  coroutines (api w) !! i = Some x -> co_job x = ReadJob st p n -> co_started x = true -> loop_runs (co_loop x) (api w) = true ->
  serving c h pid (api w) (trace w) -> served c h pid (server_step m (Completes i (ReadDone (failure e))) w).
Proof.
  intros Hx Hj Hst Hl Hs. pose proof (v_ops c h pid _ _ Hs i x Hx) as Ho. unfold op_ok in Ho. rewrite Hj in Ho.
  destruct Ho as (-> & Hcb & Hg & b & Hb & Hlb).
  destruct (ok_job _ (v_ok _ _ _ _ _ Hs) i x Hx) as [Hlive _]. rewrite Hj in Hlive. cbn in Hlive.
  set (k := OnRead (co_callback x) st None 0 LIBP2P_ERROR_UNKNOWN).
  destruct (serving_ends c h pid (api w) (trace w) (trace w) i x k st p) as (Hs1 & Hi1 & Hu1); try done.
  { by rewrite Hj. } { by rewrite Hj. }
  { unfold answers. rewrite Hj. split; [done|]. split; [done|]. by right. }
  { by left. }
  apply (step_calls c h pid m _ w (end_coroutine i k (api w)) (Some i) k).
  { cbn. unfold completes. rewrite Hx, Hst, Hl. cbn [negb orb]. by rewrite Hj. }
  { done. }
  cbn [moved]. rewrite app_nil_r. set (w1 := mkServer _ _ _).
  assert (reacts m k w1 = on_read_complete st None 0 LIBP2P_ERROR_UNKNOWN (Some p) w1) as ->
    by (unfold k, reacts; rewrite Hcb; cbn [fn user_data]; by rewrite decide_True).
  by apply (on_read_fine c h pid st p [] _ _ _ b).
Qed.

Lemma read_completes c h pid m i r w x st p n :
  coroutines (api w) !! i = Some x -> co_job x = ReadJob st p n -> co_started x = true -> loop_runs (co_loop x) (api w) = true ->
  serving c h pid (api w) (trace w) -> served c h pid (server_step m (Completes i (ReadDone r)) w).
Proof.
  intros Hx Hj Hst Hl Hs. pose proof (v_ops c h pid _ _ Hs i x Hx) as Ho. unfold op_ok in Ho. rewrite Hj in Ho.
  destruct Ho as (-> & Hcb & Hg & b & Hb & Hlb).
  destruct (ok_job _ (v_ok _ _ _ _ _ Hs) i x Hx) as [Hlive _]. rewrite Hj in Hlive. cbn in Hlive.
  destruct r as [d|e].
  - destruct (decide (buffer_size < length d)%nat) as [Hd|Hd].
    { apply (step_silent c h pid m _ w (api w)); [|done|done]. cbn. unfold completes. rewrite Hx, Hst, Hl. cbn [negb orb].
      by rewrite Hj, decide_True by done. }
    set (k := OnRead (co_callback x) st (Some p) (length d) LIBP2P_SUCCESS).
    destruct (serving_ends c h pid (api w) (trace w) (trace w ++ [Got st d]) i x k st p) as (Hs1 & Hi1 & Hu1); try done.
    { by rewrite Hj. } { by rewrite Hj. }
    { unfold answers. rewrite Hj. split; [done|]. split; [done|]. left. split; [done|]. split; [lia|done]. }
    { intros st' Hne. by apply (trace_other st). }
    { right. exists d. destruct (got_got st (trace w) d) as [-> ->]. by rewrite Hg. }
    apply (step_calls c h pid m _ w (set_memory (<[p := d ++ drop (length d) b]> (memory (api w))) (end_coroutine i k (api w))) (Some i) k).
    { cbn. unfold completes. rewrite Hx, Hst, Hl. cbn [negb orb]. rewrite Hj, decide_False by done. rewrite Hb. cbn.
      by rewrite decide_False by lia. }
    { done. }
    cbn [moved]. rewrite Hx. cbn [fmap option_fmap option_map]. rewrite Hj. set (w1 := mkServer _ _ _).
    assert (reacts m k w1 = on_read_complete st (Some p) (length d) LIBP2P_SUCCESS (Some p) w1) as ->
      by (unfold k, reacts; rewrite Hcb; cbn [fn user_data]; by rewrite decide_True).
    apply (on_read_fine c h pid st p d _ _ _ (d ++ drop (length d) b)); try done.
    + apply lookup_insert_eq.
    + rewrite length_app, length_drop. lia.
    + intros _. change (trace w1) with (trace w ++ [Got st d]). destruct (got_got st (trace w) d) as [-> ->]. rewrite take_app_length. split_and!; [done|done|lia|done|by rewrite Hg].
    + by apply (serving_memory c h pid (end_coroutine i k (api w))).
  - by eapply read_fails.
Qed.

Lemma write_completes c h pid m i r w x st p n :
  coroutines (api w) !! i = Some x -> co_job x = WriteJob st p n -> co_started x = true -> loop_runs (co_loop x) (api w) = true ->
  serving c h pid (api w) (trace w) -> served c h pid (server_step m (Completes i (WriteDone r)) w).
Proof.
  intros Hx Hj Hst Hl Hs. pose proof (v_ops c h pid _ _ Hs i x Hx) as Ho. unfold op_ok in Ho. rewrite Hj in Ho.
  destruct Ho as (Hcb & b & Hb & Hlb & Hn & Hg).
  destruct (ok_job _ (v_ok _ _ _ _ _ Hs) i x Hx) as [Hlive _]. rewrite Hj in Hlive. cbn in Hlive.
  set (k := match r with success _ => OnWrite (co_callback x) st n LIBP2P_SUCCESS | failure _ => OnWrite (co_callback x) st 0 LIBP2P_ERROR_UNKNOWN end).
  set (t' := trace w ++ moved (Completes i (WriteDone r)) (api w)).
  assert (t' = match r with success _ => trace w ++ [Sent st (take n b)] | failure _ => trace w end) as Ht'.
  { unfold t'. cbn [moved]. destruct r; [|by rewrite app_nil_r]. rewrite Hx. cbn. by rewrite Hj, Hb. }
  destruct (serving_ends c h pid (api w) (trace w) t' i x k st p) as (Hs1 & Hi1 & Hu1); try done.
  { by rewrite Hj. } { by rewrite Hj. }
  { unfold answers, k. rewrite Hj. destruct r; split_and!; auto. }
  { intros st' Hne. rewrite Ht'. destruct r; [by apply (trace_other st)|done]. }
  { rewrite Ht'. destruct r; [left; destruct (sent_sent st (trace w) (take n b)) as [-> ->]; by rewrite Hg|right; eauto]. }
  apply (step_calls c h pid m _ w (end_coroutine i k (api w)) (Some i) k); [|done|].
  { cbn. unfold completes. rewrite Hx, Hst, Hl. cbn [negb orb]. rewrite Hj, Hb. cbn. rewrite decide_False by lia. by destruct r. }
  fold t'. assert (reacts m k (mkServer (end_coroutine i k (api w)) (bytes_to_echo w) t')
    = on_write_complete st (match r with success _ => LIBP2P_SUCCESS | failure _ => LIBP2P_ERROR_UNKNOWN end) (Some p)
        (mkServer (end_coroutine i k (api w)) (bytes_to_echo w) t')) as ->.
  { unfold k. destruct r; unfold reacts; rewrite Hcb; cbn [fn user_data]; by rewrite decide_True. }
  apply (on_write_fine c h pid st p _ b); try done.
  intros He. cbn [trace]. rewrite Ht'. destruct r; [|done]. destruct (sent_sent st (trace w) (take n b)) as [-> ->]. by rewrite Hg.
Qed.

Lemma completes_served c h pid m i a w :
  serving c h pid (api w) (trace w) -> served c h pid (server_step m (Completes i a) w).
Proof.
  intros Hs.
  assert (step (Completes i a) (api w) = Some (api w) -> served c h pid (server_step m (Completes i a) w)) as Hsame
    by (intros He; by apply (step_silent c h pid m _ w (api w))).
  destruct (coroutines (api w) !! i) as [x|] eqn:Hx; [|apply Hsame; cbn; unfold completes; by rewrite Hx].
  destruct (co_started x) eqn:Hst; [|apply Hsame; cbn; unfold completes; by rewrite Hx, Hst].
  destruct (loop_runs (co_loop x) (api w)) eqn:Hl; [|apply Hsame; cbn; unfold completes; by rewrite Hx, Hst, Hl].
  pose proof (v_ops c h pid _ _ Hs i x Hx) as Ho. unfold op_ok in Ho.
  destruct (co_job x) as [st p n|st p n| |] eqn:Hj; [| |done|done].
  - destruct a; [by eapply read_completes| | |]; apply Hsame; cbn; unfold completes; by rewrite Hx, Hst, Hl, Hj.
  - destruct a; [|by eapply write_completes| |]; apply Hsame; cbn; unfold completes; by rewrite Hx, Hst, Hl, Hj.
Qed.

Lemma starts_served c h pid m i w :
  serving c h pid (api w) (trace w) -> served c h pid (server_step m (Starts i) w).
Proof.
  intros Hs.
  assert (step (Starts i) (api w) = Some (api w) -> served c h pid (server_step m (Starts i) w)) as Hsame
    by (intros He; by apply (step_silent c h pid m _ w (api w))).
  destruct (coroutines (api w) !! i) as [x|] eqn:Hx; [|apply Hsame; cbn; unfold starts; by rewrite Hx].
  destruct (co_started x || negb (loop_runs (co_loop x) (api w))) eqn:Hst; [apply Hsame; cbn; unfold starts; by rewrite Hx, Hst|].
  pose proof (v_ops c h pid _ _ Hs i x Hx) as Ho. pose proof (ok_job _ (v_ok _ _ _ _ _ Hs) i x Hx) as [Hlive _].
  apply (step_silent c h pid m _ w (mark_started i x (api w))); [|done|].
  { cbn. unfold starts. rewrite Hx, Hst. unfold op_ok in Ho.
    destruct (co_job x); try done; destruct Hlive as [y Hy]; by rewrite Hy. }
  destruct Hs as [A1 A2 A3 A4 Ao A5 A6 A7 A8 A9 A10 A11 A12].
  assert (forall j y, coroutines (mark_started i x (api w)) !! j = Some y ->
    exists z, coroutines (api w) !! j = Some z /\ co_job y = co_job z /\ co_callback y = co_callback z) as Hcases.
  { intros j y. cbn. destruct (decide (j = i)) as [->|]; rewrite ?lookup_insert_eq, ?lookup_insert_ne by done; [intros [= <-]|]; eauto. }
  split; try done; [by apply ok_mark_started|by apply history_started| | |].
  - intros j y (z & Hz & E1 & E2)%Hcases. specialize (A8 j z Hz). unfold op_ok in *. by rewrite E1, E2.
  - intros j j' y y' q (z & Hz & E1 & _)%Hcases (z' & Hz' & E2 & _)%Hcases. rewrite E1, E2. by apply A9.
  - intros j j' y y' q (z & Hz & E1 & _)%Hcases (z' & Hz' & E2 & _)%Hcases. rewrite E1, E2. by apply A10.
Qed.

Lemma incoming_served c h pid m h' name st w :
  serving c h pid (api w) (trace w) -> served c h pid (server_step m (Incoming h' name st) w).
Proof.
  intros Hs. set (s := api w) in *.
  assert (incoming h' name st s = Some s
    \/ exists g, incoming h' name st s = Some (handle g st s) /\ handler_ g = mkClosure fn_echo_protocol_handler None /\ host_wrapper_ g = h)
    as [He|(g & He & Hf & Hh)].
  { unfold incoming, orphan_runs, dispatch_stream. rewrite (v_orphans _ _ _ _ _ Hs), lookup_empty. destruct (_ ≫= _) as [[wh b]|]; [|by left]. destruct (negb _); [by left|].
    destruct (getProtocol _ _) as [[n|]|]; [|by left|by left]. destruct (handlers s !! n) as [g|] eqn:Hg; [|by left].
    right. exists g. destruct (v_handlers c h pid _ _ Hs n g Hg). by split_and!. }
  { apply (step_silent c h pid m _ w s); [cbn [capi_step]; fold s; by rewrite He|done|done]. }
  set (s1 := handle g st s) in *. set (p := next s).
  destruct (wrapper_history st h s (v_history _ _ _ _ _ Hs)) as [Hh1 Hl1].
  assert (forall p' x, streams s1 !! p' = Some x -> p' = p /\ stream_host x = h \/ streams s !! p' = Some x) as Hstr.
  { intros p' x. cbn. rewrite Hh. destruct (decide (p' = p)) as [->|]; rewrite ?lookup_insert_eq, ?lookup_insert_ne by done;
      [intros [= <-]; by left|by right]. }
  assert (serving c h pid s1 (trace w)) as Hs1.
  { apply (serving_frame c h pid s); try done; [| |apply (v_host _ _ _ _ _ Hs)|apply (v_loop _ _ _ _ _ Hs)| |cbn; lia].
    - apply ok_calls_back. by apply (ok_wrapper st (host_wrapper_ g)), (v_ok _ _ _ _ _ Hs).
    - unfold s1, handle. rewrite Hh. cbn [new_stream_wrapper]. apply (history_quiet (new_stream_wrapper st h s).1); [|done].
      split; [done|done| |done|done]. intros i. cbn [calls_back calls new_stream_wrapper fst]. by rewrite calls_of_app, app_nil_r.
    - intros p' x [[_ ?]|Hx]%Hstr; [done|]. by eapply (v_streams _ _ _ _ _ Hs). }
  apply (step_calls c h pid m _ w s1 None (OnStream (handler_ g) (Some p))); [cbn [capi_step]; fold s; by rewrite He|done|].
  cbn [moved]. rewrite app_nil_r, Hf. unfold reacts. cbn [fn]. rewrite decide_True by done.
  apply handler_fine; cbn [api trace]; [|intros i x Hx Hj|by destruct (v_fresh _ _ _ _ _ Hs p) as [-> ->]|done].
  - exists (mkStream st h). unfold s1, handle. rewrite Hh. exact Hl1.
  - destruct (ok_job s (v_ok _ _ _ _ _ Hs) i x Hx) as [Hl _]. rewrite Hj in Hl. destruct Hl as [y Hy].
    apply (h_fresh s (v_history _ _ _ _ _ Hs)) in Hy. unfold p in Hy. lia.
Qed.

Lemma event_served c h pid m e w :
  environment c e -> serving c h pid (api w) (trace w) -> served c h pid (server_step m e w).
Proof.
  intros He Hs. destruct e; try done.
  - cbn in He. subst. destruct (v_host _ _ _ _ _ Hs) as (wh & Hh & Hc). destruct (v_loop _ _ _ _ _ Hs) as [stopped Hl].
    destruct (ok_host _ (v_ok _ _ _ _ _ Hs) h wh) as [[x Hx] _]; [by rewrite Hh, lookup_singleton_eq|]. rewrite Hc in Hx.
    destruct (context_stop_fine (Some c) (api w) (v_ok _ _ _ _ _ Hs) ltac:(by exists x)) as (s' & Hst & Ho).
    assert (history s') as Hh' by (eapply (step_history sha256 hash_string quic (ContextStop (Some c))); [exact Hst|apply (v_history _ _ _ _ _ Hs)]).
    unfold libp2p_context_stop, deref in Hst. rewrite Hx in Hst. cbn in Hst.
    assert (calls s' = calls (api w)) as Hcalls by (destruct (running x); by simplify_eq/=).
    apply (step_silent c h pid m _ w s').
    + cbn. unfold libp2p_context_stop, deref. rewrite Hx. exact Hst.
    + exact Hcalls.
    + apply (serving_frame c h pid (api w)); try done; destruct (running x); simplify_eq/=; try done; eauto;
        [rewrite Hl, alter_singleton_eq; by eexists|apply (v_streams _ _ _ _ _ Hs)..].
  - by apply starts_served.
  - by apply completes_served.
  - by apply incoming_served.
  - cbn in He. destruct (v_host _ _ _ _ _ Hs) as (wh & Hh & Hc).
    destruct (decide (h0 = h)) as [->|Hne].
    + destruct (loop_runs (host_context wh) (api w)) eqn:Hruns;
        [|apply (step_silent c h pid m _ w (api w)); [cbn; unfold host_works, orphan_runs;
            by rewrite (v_orphans _ _ _ _ _ Hs), lookup_empty, Hh, lookup_singleton_eq, Hruns|done|done]].
      apply (step_silent c h pid m _ w (put_host h wh b (api w))); [cbn; unfold host_works, orphan_runs;
        by rewrite (v_orphans _ _ _ _ _ Hs), lookup_empty, Hh, lookup_singleton_eq, Hruns|done|].
      apply (serving_frame c h pid (api w)); try done.
      * apply ok_put_host; [by rewrite Hh, lookup_singleton_eq|apply (v_ok _ _ _ _ _ Hs)].
      * eapply history_quiet; [apply put_host_quiet|apply (v_history _ _ _ _ _ Hs)].
      * cbn. rewrite Hh, insert_singleton_eq. by eexists.
      * apply (v_loop _ _ _ _ _ Hs).
      * apply (v_streams _ _ _ _ _ Hs).
    + apply (step_silent c h pid m _ w (api w)); [|done|done]. cbn. unfold host_works, orphan_runs.
      by rewrite (v_orphans _ _ _ _ _ Hs), lookup_empty, Hh, lookup_singleton_ne by done.
Qed.

Lemma events_served c h pid es w :
  Forall (fun x => environment c x.2) es -> serving c h pid (api w) (trace w) -> served c h pid (server_events es w).
Proof.
  intros He. revert w. induction He as [|[m e] es He Hes IH]; intros w Hs; [by exists w|]. cbn [server_events].
  destruct (event_served c h pid m e w He Hs) as (w1 & -> & Hs1). by apply IH.
Qed.

(** ** The program *)

(** A signal while the loop does not run takes the guard away, and no more. *)
Lemma signalled_idle b c g s :
  contexts s !! c = Some (mkContext g false) ->
  exists g', signalled b (Some c) s = Some (set_contexts (<[c := mkContext g' false]> (contexts s)) s).
Proof.
  intros Hc. unfold signalled, libp2p_context_stop, deref. rewrite Hc. destruct b; cbn; [by exists false|].
  exists g. rewrite insert_id by done. by destruct s.
Qed.

(** The context is not used after it is destroyed, if no signal comes then. *)
Lemma cleanup_fine (sig : signal_points) c h pid g wh (a : capi) :
  hosts a !! h = Some wh -> contexts a !! c = Some (mkContext g false) -> live (peer_ids a) pid ->
  if sig ContextGone then cleanup sig c h pid a = None else is_Some (cleanup sig c h pid a).
Proof.
  intros Hh Hc Hp. unfold cleanup. destruct (signalled_idle (sig LoopReturned) c g a Hc) as [g1 ->]. cbn [mbind option_bind].
  set (a1 := set_contexts _ a).
  assert (exists a2, match pid with Some _ => libp2p_peer_id_destroy pid a1 | None => Some a1 end = Some a2 /\ hosts a2 = hosts a
    /\ contexts a2 = contexts a1) as (a2 & -> & Eh2 & Ec2).
  { destruct pid as [q|]; [|by exists a1]. destruct Hp as [y Hy]. unfold libp2p_peer_id_destroy, deref. cbn [peer_ids a1 set_contexts].
    rewrite Hy. cbn. by eexists. }
  cbn [mbind option_bind]. destruct (signalled_idle (sig IdGone) c g1 a2) as [g2 ->]; [rewrite Ec2; apply lookup_insert_eq|].
  cbn [mbind option_bind]. unfold libp2p_host_destroy, deref. cbn [hosts set_contexts]. rewrite Eh2, Hh. cbn [mbind option_bind].
  set (a3 := set_hosts _ _). assert (contexts a3 !! c = Some (mkContext g2 false)) as Hc3.
  { unfold a3. destruct (host wh) as [b|]; [destruct (has_coroutines b)|]; apply lookup_insert_eq. }
  destruct (signalled_idle (sig HostGone) c g2 a3 Hc3) as [g3 ->]. cbn [mbind option_bind].
  unfold libp2p_context_destroy, deref. cbn [contexts set_contexts]. rewrite lookup_insert_eq. cbn.
  unfold signalled. destruct (sig ContextGone); [|by eapply mk_is_Some]. unfold libp2p_context_stop, deref. cbn. by rewrite lookup_delete_eq.
Qed.

Lemma finish_fine (sig : signal_points) c h pid thrown w :
  serving c h pid (api w) (trace w) -> sig ContextGone = false -> exists w', finish sig thrown c h pid w = Some w' /\ trace w' = trace w.
Proof.
  intros Hs Hsig. destruct (v_host _ _ _ _ _ Hs) as (wh & Hh & Hc). pose proof (v_pid _ _ _ _ _ Hs) as Hp.
  destruct (ok_host _ (v_ok _ _ _ _ _ Hs) h wh) as [[x Hx] _]; [by rewrite Hh, lookup_singleton_eq|]. rewrite Hc in Hx.
  destruct (v_loop _ _ _ _ _ Hs) as [stopped Hl].
  unfold finish, run_ends. rewrite Hl, lookup_singleton_eq. cbn [io_runs].
  destruct (_ && _); cbn [mbind option_bind]; [|by eexists]. cbn [contexts set_loops]. rewrite Hx. cbn [mbind option_bind].
  set (a := set_contexts _ _).
  pose proof (cleanup_fine sig c h pid (work_guard x) wh a) as Hcl. rewrite Hsig in Hcl.
  destruct Hcl as [a' Ha']; [by cbn; rewrite Hh, lookup_singleton_eq|apply lookup_insert_eq|exact Hp|]. rewrite Ha'. by eexists.
Qed.

Section Laws.
Context `{!ExtLaws, !Dotted, !ProtobufLaws, !Ed25519Total, !RsaDer}.

(** Between the calls of [main]: the context is the first object, the host the second. *)
Record ready (listen_addr : bytes) s : Prop := {
  r_ok : capi_ok s;
  r_history : history s;
  r_host : exists w b i, hosts s = {[1%nat := w]} /\ host w = Some b /\ host_context w = 0%nat /\ host_id w = Some i;
  r_context : exists g, contexts s !! 0%nat = Some (mkContext g false);
  r_orphans : orphans s = ∅;
  r_loops : loops s = {[0%nat := mkLoop false 0]};
  r_streams : streams s = ∅;
  r_coroutines : coroutines s = ∅;
  r_handlers n g : handlers s !! n = Some g -> handler_ g = mkClosure fn_echo_protocol_handler None /\ host_wrapper_ g = 1%nat;
  r_memory : memory s = memory (static_memory listen_addr)
}.

Lemma ready_host a s w b : ready a s -> hosts s = {[1%nat := w]} -> get_host (Some 1%nat) s = Some (Some (1%nat, w, b)) ->
  forall b', ready a (put_host 1 w b' s).
Proof.
  intros [A1 A2 A3 A4 Ao A5 A6 A7 A8 A9] Hh _ b'. split; try done.
  - apply ok_put_host; [by rewrite Hh, lookup_singleton_eq|done].
  - eapply history_quiet; [apply put_host_quiet|done].
  - destruct A3 as (w' & b0 & i & Hw' & _ & Hc & Hi). rewrite Hh in Hw'. apply (inj (fun x => {[1%nat := x]})) in Hw' as <-.
    cbn. rewrite Hh, insert_singleton_eq. by eexists _, _, i.
Qed.

Lemma get_ready a s : ready a s -> exists w b i, hosts s = {[1%nat := w]} /\ get_host (Some 1%nat) s = Some (Some (1%nat, w, b))
  /\ host_id w = Some i.
Proof.
  intros Hs. destruct (r_host a s Hs) as (w & b & i & Hh & Hb & _ & Hi). exists w, b, i. split; [done|].
  unfold get_host, deref. rewrite Hh, lookup_singleton_eq. cbn. by rewrite Hb.
Qed.

Lemma ready_signalled a b s : ready a s -> exists s', signalled b (Some 0%nat) s = Some s' /\ ready a s' /\ peer_ids s' = peer_ids s.
Proof.
  intros [A1 A2 A3 [g A4] Ao A5 A6 A7 A8 A9]. destruct (signalled_idle b 0 g s A4) as [g' ->]. eexists. split; [done|]. split; [|done].
  split; try done; [by apply ok_contexts|by apply (history_quiet s); [apply quiet_same|]|].
  exists g'. apply lookup_insert_eq.
Qed.

Lemma give_up_fine (sig : signal_points) a s :
  ready a s -> sig ContextGone = false -> exists s', give_up_host sig (Some 0%nat) (Some 1%nat) s = Some (s', None).
Proof.
  intros Hs Hsig. destruct (r_host a s Hs) as (w & b & i & Hh & _). destruct (r_context a s Hs) as [g Hc].
  unfold give_up_host, give_up_context, libp2p_host_destroy at 1, deref. rewrite Hh, lookup_singleton_eq. cbn [mbind option_bind].
  set (s1 := set_hosts _ _). assert (contexts s1 !! 0%nat = Some (mkContext g false)) as Hc1
    by (unfold s1; destruct (host w) as [b'|]; [destruct (has_coroutines b')|]; done).
  destruct (signalled_idle (sig HostGone) 0 g s1 Hc1) as [g1 ->]. cbn [mbind option_bind].
  unfold libp2p_context_destroy, deref. cbn [contexts set_contexts]. rewrite lookup_insert_eq. cbn. rewrite Hsig. by eexists.
Qed.

Lemma static_ok a : capi_ok (static_memory a) /\ history (static_memory a).
Proof. split; split; intros *; cbn; rewrite ?lookup_empty, ?lookup_nil; done. Qed.

(** The calls up to the registration of the protocol. *)
Lemma opened sig bind listen_addr :
  exists s, ready listen_addr s /\ setup sig bind (static_memory listen_addr) =
    ('(s, result) ← libp2p_host_listen bind false (Some 1%nat) (Some listen_addr_arg) s;
     s ← signalled (sig Listening) (Some 0%nat) s;
     if negb (bool_decide (result = LIBP2P_SUCCESS)) then give_up_host sig (Some 0%nat) (Some 1%nat) s
     else
       '(s, result) ← libp2p_host_start bind (Some 1%nat) s;
       s ← signalled (sig HostStarted) (Some 0%nat) s;
       if negb (bool_decide (result = LIBP2P_SUCCESS)) then give_up_host sig (Some 0%nat) (Some 1%nat) s
       else
         '(s, peer_id_obj) ← libp2p_host_peer_id (Some 1%nat) s;
         s ← signalled (sig IdMade) (Some 0%nat) s;
         '(s, _) ← libp2p_host_default_listen (Some 1%nat) s;
         s ← signalled (sig BeforeRun) (Some 0%nat) s;
         '(s, _) ← libp2p_context_run (Some 0%nat) s;
         Some (s, Some (0%nat, 1%nat, peer_id_obj))).
Proof.
  destruct (samples_made sha256 (seed_index hash_string (Some (str "echo_server_seed_0")))) as [sp Hsp].
  set (s0 := static_memory listen_addr). unfold setup. unfold libp2p_set_log_level.
  replace (signalled (sig AtStart) None s0) with (Some s0) by (unfold signalled; by destruct (sig AtStart)).
  cbn [mbind option_bind]. unfold libp2p_context_create. change (next s0) with 0%nat. set (s1 := bump _).
  destruct (signalled_idle (sig ContextMade) 0 true s1 eq_refl) as [g1 ->]. cbn [mbind option_bind]. set (s1' := set_contexts _ s1).
  unfold libp2p_host_create at 1, deref.
  change (memory s1' !! keypair_seed) with (Some (str "echo_server_seed_0")). cbn [mbind option_bind].
  rewrite Hsp. cbn [mbind option_bind].
  assert (contexts s1' !! 0%nat = Some (mkContext g1 false)) as Hc1 by apply lookup_insert_eq. rewrite Hc1. cbn [mbind option_bind].
  change (next s1') with 1%nat. set (w := mkCHost _ _ _ _). set (s2 := bump _).
  destruct (signalled_idle (sig HostMade) 0 g1 s2 Hc1) as [g2 ->]. cbn [mbind option_bind]. set (s2' := set_contexts _ s2).
  assert (get_host (Some 1%nat) s2' = Some (Some (1%nat, w, injected_host quic (peer_id sp)))) as Hg2.
  { unfold get_host, deref. cbn [s2' s2 bump set_hosts set_contexts hosts]. by rewrite lookup_insert_eq. }
  unfold libp2p_host_register_protocol at 1. rewrite Hg2. cbn [mbind option_bind].
  change (memory s2' !! protocol_name) with (Some (str "/echo/1.0.0")). cbn [mbind option_bind].
  assert (capi_ok s2') as Ho2.
  { apply ok_contexts, ok_bump, (ok_hosts_insert _ _ s1'); [by eexists|done|]. apply ok_contexts, ok_bump.
    apply (ok_contexts 0 (mkContext true false) (set_loops (<[0%nat := mkLoop false 0]> (loops s0)) s0)), ok_loops.
    - intros l io. destruct (decide (l = 0%nat)) as [->|]; rewrite ?lookup_insert_eq, ?lookup_insert_ne by done; [intros [= <-]; cbn; lia|done].
    - apply static_ok. }
  assert (history s2') as Hh2 by (apply (history_quiet s0); [apply quiet_same; cbn; (done || lia)|apply static_ok]).
  set (s3 := put_host _ _ _ _). assert (ready listen_addr s3) as Hs3.
  { split; try done.
    - apply (ok_hosts_insert 1 _ (bump _)); [exists (mkContext g2 false); apply lookup_insert_eq|done|].
      apply ok_bump. destruct Ho2 as [B1 B2 B3]. by split.
    - eexists _, _, _. split; [cbn; rewrite insert_insert_eq; done|]. done.
    - exists g2. apply lookup_insert_eq.
    - intros n g. cbn. destruct (decide (n = 2%nat)) as [->|]; rewrite ?lookup_insert_eq, ?lookup_insert_ne by done; [by intros [= <-]|done]. }
  destruct (ready_signalled _ (sig Registered) s3 Hs3) as (s4 & -> & Hs4 & _). cbn [mbind option_bind].
  rewrite bool_decide_true by done. by exists s4.
Qed.

Lemma run_serving a s pid : ready a s -> live (peer_ids s) pid ->
  exists s', libp2p_context_run (Some 0%nat) s = Some (s', None) /\ serving 0 1 pid s' [].
Proof.
  intros Hs Hp. destruct (r_context a s Hs) as [g Hc].
  destruct (context_run_fine (Some 0%nat) s (r_ok a s Hs) ltac:(by eexists)) as (s' & Hr & Ho).
  assert (history s') as Hh by (eapply (step_history sha256 hash_string quic (ContextRun (Some 0%nat))); [exact Hr|apply (r_history a s Hs)]).
  unfold libp2p_context_run, deref in *. rewrite Hc in *. cbn in Hr |- *. injection Hr as <-. eexists. split; [reflexivity|].
  destruct Hs as [B1 B2 B3 B4 Bo B5 B6 B7 B8 B9]. split; [exact Ho|exact Hh|..]; cbn; rewrite ?B5, ?B6, ?B7; try done.
  - destruct B3 as (w & b & i & ? & _ & ? & _). by exists w.
  - rewrite alter_singleton_eq. by eexists.
  - by left.
Qed.

(** The calls from [libp2p_host_peer_id] on. *)
Lemma announced sig a s : ready a s ->
  exists s' pid, ('(s, peer_id_obj) ← libp2p_host_peer_id (Some 1%nat) s;
     s ← signalled (sig IdMade) (Some 0%nat) s;
     '(s, _) ← libp2p_host_default_listen (Some 1%nat) s;
     s ← signalled (sig BeforeRun) (Some 0%nat) s;
     '(s, _) ← libp2p_context_run (Some 0%nat) s;
     Some (s, Some (0%nat, 1%nat, peer_id_obj))) = Some (s', Some (0%nat, 1%nat, pid)) /\ serving 0 1 pid s' [].
Proof.
  intros Hs. destruct (get_ready _ s Hs) as (w & b & i & Hh & Hg & Hi). unfold libp2p_host_peer_id. rewrite Hg. cbn [mbind option_bind].
  rewrite Hi. cbn [mbind option_bind]. set (s1 := bump _).
  assert (ready a s1) as Hs1.
  { destruct Hs as [B1 B2 B3 B4 Bo B5 B6 B7 B8 B9]. split; try done; [by apply ok_bump; destruct B1; split|].
    apply (history_quiet s); [|done]. apply quiet_same; try done. cbn. lia. }
  assert (is_Some (peer_ids s1 !! next s)) as Hp by (exists (mkPeerId i (toBase58 i)); apply lookup_insert_eq).
  destruct (ready_signalled a (sig IdMade) s1 Hs1) as (s2 & -> & Hs2 & Ep2). cbn [mbind option_bind]. rewrite <- Ep2 in Hp.
  destruct (get_ready _ s2 Hs2) as (w2 & b2 & i2 & Hh2 & Hg2 & Hi2).
  assert (exists s3 t, libp2p_host_default_listen (Some 1%nat) s2 = Some (s3, t) /\ ready a s3 /\ peer_ids s3 = peer_ids s2) as (s3 & t & -> & Hs3 & Ep3).
  { unfold libp2p_host_default_listen. rewrite Hg2. cbn [mbind option_bind].
    destruct (if decide (getAddressesInterfaces b2 = []) then _ else _) as [|x l]; [by eexists _, _|]. eexists _, _. split; [reflexivity|]. split; [|done].
    destruct Hs2 as [B1 B2 B3 B4 Bo B5 B6 B7 B8 B9]. split; try done; [by destruct B1; split|by apply (history_quiet s2); [apply quiet_same|]]. }
  cbn [mbind option_bind]. rewrite <- Ep3 in Hp.
  destruct (ready_signalled a (sig BeforeRun) s3 Hs3) as (s4 & -> & Hs4 & Ep4). cbn [mbind option_bind]. rewrite <- Ep4 in Hp.
  destruct (run_serving a s4 (Some (next s)) Hs4 Hp) as (s5 & -> & Hs5). by eexists _, _.
Qed.

Lemma setup_fine (sig : signal_points) bind listen_addr :
  is_Some (create listen_addr) -> sig ContextGone = false ->
  exists s r, setup sig bind (static_memory listen_addr) = Some (s, r)
    /\ match r with None => True | Some (c, h, pid) => c = 0%nat /\ serving c h pid s [] end.
Proof.
  intros [r Hr] Hsig. destruct (opened sig bind listen_addr) as (s & Hs & ->).
  assert (forall s, ready listen_addr s -> exists s' r, give_up_host sig (Some 0%nat) (Some 1%nat) s = Some (s', r)
    /\ match r with None => True | Some (c, h, pid) => c = 0%nat /\ serving c h pid s' [] end) as Hgive.
  { intros s1 Hs1. destruct (give_up_fine sig _ s1 Hs1 Hsig) as [s' Hs']. by exists s', None. }
  destruct (get_ready _ s Hs) as (w & b & i & Hh & Hg & Hi). unfold libp2p_host_listen. rewrite Hg. cbn [mbind option_bind].
  rewrite (r_memory _ s Hs). change (memory (static_memory listen_addr) !! listen_addr_arg) with (Some listen_addr). cbn [mbind option_bind].
  rewrite Hr. cbn [mbind option_bind].
  destruct r as [ma|]; [|destruct (ready_signalled _ (sig Listening) s Hs) as (s1 & -> & Hs1 & _); by apply Hgive].
  destruct (host_listen bind false ma b) as [b1 rl]. pose proof (ready_host _ s w b Hs Hh Hg b1) as Hs1.
  cbn [mbind option_bind]. destruct (ready_signalled _ (sig Listening) _ Hs1) as (s2 & -> & Hs2 & _). cbn [mbind option_bind].
  destruct rl; [|by apply Hgive]. rewrite bool_decide_true by done. cbn [negb].
  destruct (get_ready _ s2 Hs2) as (w2 & b2 & i2 & Hh2 & Hg2 & Hi2). unfold libp2p_host_start. rewrite Hg2. cbn [mbind option_bind].
  pose proof (ready_host _ s2 w2 b2 Hs2 Hh2 Hg2 (host_start bind b2)) as Hs3.
  destruct (ready_signalled _ (sig HostStarted) _ Hs3) as (s4 & -> & Hs4 & _). cbn [mbind option_bind].
  rewrite bool_decide_true by done. cbn [negb]. destruct (announced sig _ s4 Hs4) as (s5 & pid & -> & Hs5). by eexists _, _.
Qed.

(** C20: the echo server.  For every address that [create] does not fail an assertion on,
    whatever its peers, its transport and the memory allocator do, in whatever order, and
    whether and whenever a signal comes before the context is destroyed, between two calls
    of [main] or two events of the loop: it never meets undefined behaviour and frees no
    block twice, from [main] to the end of its cleaning up; and what it has sent on a
    stream is what it has received on it, in order, up to the last piece received.  A
    signal that comes after that is the subject of [late_signal_uses_context]. *)
Theorem echo_server_correct (sig : signal_points) listen_addr bind es thrown :
  is_Some (create listen_addr) -> sig ContextGone = false -> Forall (fun x => environment 0 x.2) es ->
  exists w, echo_main sig listen_addr bind es thrown = Some w /\ forall st, echoed st (trace w).
Proof.
  intros Hl Hsig He. unfold echo_main. destruct (setup_fine sig bind listen_addr Hl Hsig) as (s & r & -> & Hr). cbn [mbind option_bind].
  destruct r as [[[c h] pid]|]; [|eexists; split; [reflexivity|]; by left]. destruct Hr as [-> Hs].
  destruct (events_served 0 h pid es (mkServer s ∅ []) He Hs) as (w & -> & Hw). cbn [mbind option_bind].
  destruct (finish_fine sig 0 h pid thrown w Hw Hsig) as (w' & -> & Ht). exists w'. split; [done|]. rewrite Ht. apply (v_echoed _ _ _ _ _ Hw).
Qed.

(** A signal after [libp2p_context_destroy], while [main] waits for the signal thread: the
    thread stops the context that is gone, whatever happened before. *)
Theorem late_signal_uses_context (sig : signal_points) c h pid thrown w a e :
  serving c h pid (api w) (trace w) -> run_ends thrown c (api w) = Some (a, Some e) -> sig ContextGone = true ->
  finish sig thrown c h pid w = None.
Proof.
  intros Hs Hr Hsig. destruct (v_host _ _ _ _ _ Hs) as (wh & Hh & Hc). pose proof (v_pid _ _ _ _ _ Hs) as Hp.
  unfold finish. rewrite Hr. cbn [mbind option_bind]. unfold run_ends in Hr. destruct (v_loop _ _ _ _ _ Hs) as [stopped Hl].
  rewrite Hl, lookup_singleton_eq in Hr. destruct (_ && _); cbn in Hr; [|done].
  destruct (contexts (api w) !! c) as [x|]; cbn in Hr; [|done]. injection Hr as <- _.
  match goal with |- context [cleanup sig c h pid ?a] => pose proof (cleanup_fine sig c h pid (work_guard x) wh a) as Hcl end.
  rewrite Hsig in Hcl. rewrite Hcl; [done|by cbn; rewrite Hh, lookup_singleton_eq|apply lookup_insert_eq|exact Hp].
Qed.
End Laws.
End Echo.

(** ** A run of the server *)
Module ToyServer.
Import (hints) ConnectionManager.Plain MultiaddrPlain.Plain Multibase.Multibase.
Import (hints) Keys.Toy ToySample ToyClient.

Definition fine_machine : machine (E := Chunked.eof) := mkMachine true (success tt).
Abbreviation toy_event := (event (Conn := nat) (Transport := unit) (E := Chunked.eof)).
Definition default_address : bytes := str "/ip4/127.0.0.1/udp/0/quic-v1".
(** A peer opens a stream, says two things, and goes; then a signal. *)
Definition visit : list toy_event :=
  [Incoming 1 (str "/echo/1.0.0") (Some 7%nat); Starts 0; Completes 0 (ReadDone (success [1; 2; 3]));
   Starts 1; Completes 1 (WriteDone (success tt)); Starts 2; Completes 2 (ReadDone (success [4]));
   Starts 3; Completes 3 (WriteDone (success tt)); Starts 4; Completes 4 (ReadDone (failure Chunked.Eof)); ContextStop (Some 0%nat)].
Definition toy_main (sig : signal_points) : option server :=
  echo_main ToyClient.sha ToyClient.hash tt sig default_address success (map (pair fine_machine) visit) false.
Definition in_time (p : point) : bool := match p with Listening | LoopReturned => true | _ => false end.
Definition too_late (p : point) : bool := match p with ContextGone => true | _ => false end.

Lemma echo_server_correct_witness : exists w, toy_main in_time = Some w /\ forall st, echoed st (trace w).
Proof.
  apply (echo_server_correct ToyClient.sha ToyClient.hash tt in_time default_address success (map (pair fine_machine) visit) false).
  - vm_compute. by eexists.
  - reflexivity.
  - repeat (constructor; [done|]). constructor.
Defined.

(** Both pieces come back, nothing of the stream's memory is left, and the objects of
    [main] are gone. *)
Lemma toy_main_echoes :
  (w ← toy_main in_time; Some (trace w, elements (dom (memory (api w))), elements (dom (contexts (api w))), elements (dom (hosts (api w))),
     elements (dom (peer_ids (api w)))))
  = Some ([Got 4 [1; 2; 3]; Sent 4 [1; 2; 3]; Got 4 [4]; Sent 4 [4]], [2; 3; 1]%nat, [], [], []).
Proof. vm_compute. reflexivity. Qed.

(** The same run, with one more signal at its end. *)
Lemma toy_late_signal : toy_main too_late = None.
Proof. vm_compute. reflexivity. Qed.
End ToyServer.
