(* ===== verification/CClient.v ===== *)
(** * The echo client in C

    [example/01-echo/libp2p_echo_client_c.c], a client of the C interface: [main], which
    dials the peer of an address, and the callbacks, which open a stream, send a message,
    wait for the answer, print it and stop the event loop.

    The state of the request, [client_state_t], is made by [main] and handed from callback
    to callback; the last one frees it.  Its two arrays are two blocks of memory that live
    and die together.  What streams have given and taken is recorded as in [CEcho.v]. *)

From S2P Require Import Prelude Varint Stream Multiselect Multihash Base58 Multibase ByteUtil.
From S2P Require Import MultiaddrCodec MultiaddrPlain Multiaddress PeerAddress Keys SamplePeer.
From S2P Require Import AddressRepository PeerRepository ConnectionManager ListenerManager Dialer Host CApi CApiSafe CEcho.

(** The callbacks as function pointers. *)
Definition fn_on_connected : nat := 11.
Definition fn_on_stream_open : nat := 12.
Definition fn_write_done : nat := 13.
Definition fn_read_done : nat := 14.

(** String literals, the arrays of [main], and the two arrays of [client_state_t]. *)
Definition client_seed : ptr := 1.
Definition echo_protocol : ptr := 2.
Definition base_addr : ptr := 3.
Definition peer_id_arg : ptr := 4.
Definition state_message : ptr := 5.
Definition state_read_buffer : ptr := 6.
(** The peer id that [on_connected] gets, during the call. *)
Definition callback_text : ptr := 7.

Definition message_size : nat := 1024.
Definition base_addr_size : nat := 512.
Definition peer_id_size : nat := 256.

(** The strings before and after the first "/p2p/", if they fit. *)
Definition p2p_tag : bytes := str "/p2p/".
Definition split_multiaddr_peer (full : bytes) (addr_out_sz peer_out_sz : nat) : option (bytes * bytes) :=
  addr_len ← find full p2p_tag 0;
  let peer := drop (addr_len + length p2p_tag) full in
  if (addr_out_sz <? addr_len + 1)%nat then None
  else if (peer_out_sz <? length peer + 1)%nat then None
  else Some (take addr_len full, peer).

(** [snprintf(message, sizeof(message), "%s", text)] over what the memory held. *)
Definition stored_message (text junk : bytes) : bytes :=
  let t := take (message_size - 1) text in t ++ 0 :: drop (length t + 1) junk.
(** [strlen]; [None] is reading on after the end. *)
Fixpoint strlen (b : bytes) : option nat :=
  match b with
  | [] => None
  | x :: b => if x =? 0 then Some 0%nat else n ← strlen b; Some (S n)
  end.

Section Client.
Context {Conn Transport E : Type} `{EqDecision Conn, !Countable Conn} `{!Traversal Conn}.
Context `{!Network Multiaddress Conn Transport E} `{Ext, Hex, Providers, Protobuf}.
Context (sha256 : bytes -> bytes) (hash_string : bytes -> Z) (quic : Transport).

Local Abbreviation capi := (capi (Conn := Conn) (Transport := Transport) (E := E)).
Local Abbreviation event := (event (Conn := Conn) (Transport := Transport) (E := E)).
Local Abbreviation step := (capi_step sha256 hash_string quic).
Implicit Type s : capi.

(** The context of the global variable [g_context], what passed over streams, and what was
    printed as received. *)
Record client := mkClient { c_api : capi; g_context : option ptr; c_trace : list io; printed : list bytes }.
Definition with_capi (a : capi) (w : client) : client := mkClient a (g_context w) (c_trace w) (printed w).

(** ** The callbacks *)

(** [free(state)]; [None] is freeing what is not allocated. *)
Definition free_state (user_data : option ptr) s : option capi :=
  if decide (user_data = Some state_message) then
    _ ← memory s !! state_message; _ ← memory s !! state_read_buffer;
    Some (set_memory (delete state_message (delete state_read_buffer (memory s))) s)
  else None.

Definition stop_and_free (user_data : option ptr) (w : client) : option client :=
  a ← libp2p_context_stop (g_context w) (c_api w);
  a ← free_state user_data a;
  Some (with_capi a w).
Definition close_stop_free (closed : outcome E unit) (st : option ptr) (user_data : option ptr) (w : client) : option client :=
  '(a, _) ← libp2p_stream_close closed st (c_api w);
  stop_and_free user_data (with_capi a w).

Definition read_done (closed : outcome E unit) (st : ptr) (data : option ptr) (size : nat) (error : libp2p_error_t)
    (user_data : option ptr) (w : client) : option client :=
  if negb (bool_decide (error = LIBP2P_SUCCESS)) then close_stop_free closed (Some st) user_data w
  else
    text ← (if (0 <? size)%nat then
              p ← data; b ← memory (c_api w) !! p;
              if decide (length b < Nat.min size message_size)%nat then None else Some (take (Nat.min size message_size) b)
            else Some []);
    close_stop_free closed (Some st) user_data (mkClient (c_api w) (g_context w) (c_trace w) (printed w ++ [text])).

Definition write_done (closed : outcome E unit) (st : ptr) (error : libp2p_error_t) (user_data : option ptr) (w : client) :
    option client :=
  if negb (bool_decide (error = LIBP2P_SUCCESS)) then close_stop_free closed (Some st) user_data w
  else
    '(a, r) ← libp2p_stream_read (Some st) (Some state_read_buffer) message_size
                (Some (mkClosure fn_read_done user_data)) (c_api w);
    let w := with_capi a w in
    if negb (bool_decide (r = LIBP2P_SUCCESS)) then close_stop_free closed (Some st) user_data w else Some w.

Definition on_stream_open (closed : outcome E unit) (st : option ptr) (user_data : option ptr) (w : client) : option client :=
  match st with
  | None => stop_and_free user_data w
  | Some st =>
      b ← memory (c_api w) !! state_message;
      len ← strlen b;
      '(a, r) ← libp2p_stream_write (Some st) (Some state_message) len (Some (mkClosure fn_write_done user_data)) (c_api w);
      let w := with_capi a w in
      if negb (bool_decide (r = LIBP2P_SUCCESS)) then close_stop_free closed (Some st) user_data w else Some w
  end.

(** The text of the peer id lives as long as the call. *)
Definition on_connected (host : ptr) (peer_id : option bytes) (user_data : option ptr) (w : client) : option client :=
  let s := match peer_id with
           | Some t => set_memory (<[callback_text := t]> (memory (c_api w))) (c_api w)
           | None => c_api w
           end in
  '(a, r) ← libp2p_host_new_stream (Some host) (match peer_id with Some _ => Some callback_text | None => None end)
              (Some echo_protocol) (Some (mkClosure fn_on_stream_open user_data)) s;
  let a := match peer_id with Some _ => set_memory (delete callback_text (memory a)) a | None => a end in
  let w := with_capi a w in
  if negb (bool_decide (r = LIBP2P_SUCCESS)) then stop_and_free user_data w else Some w.

(** The function of a callback is called; [None] is a call with the wrong arguments. *)
Definition client_reacts (closed : outcome E unit) (k : call) (w : client) : option client :=
  match k with
  | OnConnection f h peer => if decide (fn f = fn_on_connected) then on_connected h peer (user_data f) w else None
  | OnStream f st => if decide (fn f = fn_on_stream_open) then on_stream_open closed st (user_data f) w else None
  | OnWrite f st n error => if decide (fn f = fn_write_done) then write_done closed st error (user_data f) w else None
  | OnRead f st data size error =>
      if decide (fn f = fn_read_done) then read_done closed st data size error (user_data f) w else None
  end.

(** An event, and the reaction to the callback it makes, if it makes one. *)
Definition client_step (closed : outcome E unit) (e : event) (w : client) : option client :=
  a ← step e (c_api w);
  match drop (length (calls (c_api w))) (calls a) with
  | [] => Some (with_capi a w)
  | (_, k) :: _ => client_reacts closed k (mkClient a (g_context w) (c_trace w ++ moved e (c_api w)) (printed w))
  end.
Fixpoint client_events (es : list (outcome E unit * event)) (w : client) : option client :=
  match es with
  | [] => Some w
  | (m, e) :: es => w ← client_step m e w; client_events es w
  end.

(** ** [main] *)

(** Where [main] gets: it has returned a code, or runs the event loop. *)
Inductive reached := Exits (code : Z) | Runs (host : ptr).

Definition exit_context (sig : signal_points) (code : Z) (w : client) : option (client * reached) :=
  s ← libp2p_context_destroy (g_context w) (c_api w);
  s ← signalled (sig ContextGone) (g_context w) s;
  s ← free_state (Some state_message) s;
  Some (with_capi s w, Exits code).
Definition exit_host (sig : signal_points) (code : Z) (host : option ptr) (w : client) : option (client * reached) :=
  s ← libp2p_host_destroy host (c_api w);
  s ← signalled (sig HostGone) (g_context w) s;
  exit_context sig code (with_capi s w).

(** [argv] without the name of the program; [junk] is what [malloc] finds, if anything. *)
Definition client_setup (sig : signal_points) (argv : list bytes) (junk : option bytes)
    (bind : Multiaddress -> outcome E Multiaddress) s : option (client * reached) :=
  s ← signalled (sig AtStart) None (libp2p_set_log_level LIBP2P_LOG_INFO s);
  let w := mkClient s None [] [] in
  match argv, junk with
  | [], _ => Some (w, Exits 2)
  | _, None => Some (w, Exits 1)
  | connect_full :: rest, Some junk =>
      let message_arg := default (str "Hello from C") (head rest) in
      let s := set_memory (<[state_message := stored_message message_arg junk]>
                            (<[state_read_buffer := replicate message_size 0]> (memory (c_api w)))) (c_api w) in
      let '(s, c) := libp2p_context_create s in
      let w := mkClient s c [] [] in
      match c with
      | None => s ← free_state (Some state_message) s; Some (with_capi s w, Exits 1)
      | Some _ =>
          s ← signalled (sig ContextMade) c s;
          '(s, host) ← libp2p_host_create sha256 hash_string quic c (Some client_seed) s;
          s ← signalled (sig HostMade) c s;
          let w := with_capi s w in
          match host with
          | None => exit_context sig 1 w
          | Some h =>
              '(s, r) ← libp2p_host_start bind host s;
              s ← signalled (sig HostStarted) c s;
              let w := with_capi s w in
              if negb (bool_decide (r = LIBP2P_SUCCESS)) then exit_host sig 1 host w
              else
                match split_multiaddr_peer connect_full base_addr_size peer_id_size with
                | None => exit_host sig 2 host w
                | Some (addr, peer) =>
                    let s := set_memory (<[base_addr := addr]> (<[peer_id_arg := peer]> (memory s))) s in
                    '(s, d) ← libp2p_host_dial host (Some base_addr) (Some peer_id_arg)
                                (Some (mkClosure fn_on_connected (Some state_message))) s;
                    s ← signalled (sig Dialled) c s;
                    let w := with_capi s w in
                    if negb (bool_decide (d = LIBP2P_SUCCESS)) then exit_host sig 1 host w
                    else
                      '(s, _) ← libp2p_context_run c s;
                      Some (with_capi s w, Runs h)
                end
          end
      end
  end.

(** The rest of [main], once [libp2p_context_run] returns. *)
Definition client_cleanup (sig : signal_points) (g h : option ptr) (a : capi) : option capi :=
  a ← signalled (sig LoopReturned) g a;
  a ← libp2p_host_destroy h a;
  a ← signalled (sig HostGone) g a;
  a ← libp2p_context_destroy g a;
  a ← signalled (sig ContextGone) g a;
  (** [g_context = NULL] *)
  signalled (sig AtEnd) None a.
Definition client_finish (sig : signal_points) (thrown : bool) (h : ptr) (w : client) : option client :=
  c ← g_context w;
  '(a, result) ← run_ends thrown c (c_api w);
  match result with
  | None => Some (with_capi a w)
  | Some _ => a ← client_cleanup sig (g_context w) (Some h) a; Some (mkClient a None (c_trace w) (printed w))
  end.

Definition client_memory : capi :=
  set_memory (<[client_seed := str "echo_client_seed_0"]> {[echo_protocol := str "/echo/1.0.0"]}) capi_new.
Definition client_main (sig : signal_points) (argv : list bytes) (junk : option bytes)
    (bind : Multiaddress -> outcome E Multiaddress) (es : list (outcome E unit * event)) (thrown : bool) : option client :=
  '(w, r) ← client_setup sig argv junk bind client_memory;
  match r with
  | Exits _ => Some w
  | Runs h => w ← client_events es w; client_finish sig thrown h w
  end.

(** ** The invariant *)

Definition cp : ptr := 0.
Definition hp : ptr := 1.

(** What [main] has made and nobody takes away while the loop runs. *)
Record base s : Prop := {
  b_host : exists w b, hosts s = {[hp := w]} /\ host w = Some b /\ host_context w = cp;
  b_context : is_Some (contexts s !! cp);
  b_loop : exists stopped, loops s = {[cp := mkLoop stopped 1]};
  b_handlers : handlers s = ∅;
  b_protocol : memory s !! echo_protocol = Some (str "/echo/1.0.0");
  b_orphans : orphans s = ∅
}.

(** What has been said: nothing, the message, or the message and one answer, which was
    printed. *)
Definition heard (text : bytes) (t : list io) (p : list bytes) : Prop :=
  t = [] /\ p = []
  \/ (exists st, t = [Sent st text] /\ p = [])
  \/ exists st d, t = [Sent st text; Got st d] /\ p = [d].

Definition our_stream st s : Prop := exists y, streams s !! st = Some y /\ stream_host y = hp.
(** The operation under way. *)
Definition busy (text : bytes) (x : coroutine) s (t : list io) : Prop :=
  match co_job x with
  | DialJob h _ _ => h = hp /\ co_callback x = mkClosure fn_on_connected (Some state_message) /\ t = []
  | NewStreamJob h _ p => h = hp /\ p = echo_protocol /\ co_callback x = mkClosure fn_on_stream_open (Some state_message) /\ t = []
  | WriteJob st p n =>
      our_stream st s /\ p = state_message /\ n = length text /\ co_callback x = mkClosure fn_write_done (Some state_message) /\ t = []
  | ReadJob st p n =>
      our_stream st s /\ p = state_read_buffer /\ n = message_size /\ co_callback x = mkClosure fn_read_done (Some state_message)
      /\ t = [Sent st text]
  end.
(** The state holds the message. *)
Record state_live (text : bytes) s : Prop := {
  sl_message : exists rest, memory s !! state_message = Some (text ++ 0 :: rest);
  sl_buffer : exists b, memory s !! state_read_buffer = Some b /\ length b = message_size
}.
(** The state is freed exactly when no operation is under way. *)
Definition stage (text : bytes) s (t : list io) (p : list bytes) : Prop :=
  coroutines s = ∅ /\ memory s !! state_message = None /\ memory s !! state_read_buffer = None /\ heard text t p
  \/ exists i x, coroutines s = {[i := x]} /\ co_loop x = cp /\ state_live text s /\ busy text x s t /\ p = [].
Record conversing (text : bytes) (w : client) : Prop := {
  cv_base : base (c_api w);
  cv_context : g_context w = Some cp;
  cv_stage : stage text (c_api w) (c_trace w) (printed w)
}.
Definition goes_on (text : bytes) (r : option client) : Prop := exists w, r = Some w /\ conversing text w.

(** Inside a callback: its coroutine has ended and the state is there. *)
Record between (text : bytes) (w : client) : Prop := {
  bt_base : base (c_api w);
  bt_context : g_context w = Some cp;
  bt_idle : coroutines (c_api w) = ∅;
  bt_state : state_live text (c_api w)
}.

Lemma text_strlen text rest : Forall (fun x => x <> 0) text -> strlen (text ++ 0 :: rest) = Some (length text).
Proof.
  induction 1 as [|x text Hx _ IH]; [done|]. cbn. destruct (Z.eqb_spec x 0); [done|]. by rewrite IH.
Qed.

Lemma stop_and_free_fine text w :
  between text w -> heard text (c_trace w) (printed w) -> goes_on text (stop_and_free (Some state_message) w).
Proof.
  intros [[(wh & b & Hh & Hb & Hc) [x Hx] [st Hl] Hg Hp Ho] B2 B3 [[r Hm] (rb & Hrb & _)]] Hheard.
  unfold stop_and_free, libp2p_context_stop, deref. rewrite B2, Hx. cbn [mbind option_bind].
  unfold free_state. rewrite decide_True by done.
  set (a := if running x then _ else _).
  assert (memory a = memory (c_api w) /\ coroutines a = coroutines (c_api w) /\ hosts a = hosts (c_api w) /\ handlers a = handlers (c_api w)
    /\ orphans a = orphans (c_api w) /\ is_Some (contexts a !! cp) /\ exists stopped, loops a = {[cp := mkLoop stopped 1]})
    as (Ma & Ca & Ha & Hga & Oa & Xa & La).
  { unfold a. destruct (running x); cbn; repeat split; try done; rewrite ?lookup_insert_eq; eauto.
    rewrite Hl, alter_singleton_eq. by eexists. }
  rewrite Ma, Hm. cbn [mbind option_bind]. rewrite Hrb. cbn [mbind option_bind]. eexists. split; [reflexivity|].
  split; [|done|left; cbn; rewrite ?Ca; split_and!; try done; by rewrite ?lookup_delete_eq, ?lookup_delete_ne, ?lookup_delete_eq by done].
  split; cbn; rewrite ?Ha, ?Hga, ?Oa; try done; [by exists wh, b|by rewrite !lookup_delete_ne by done].
Qed.

Lemma close_stop_free_fine text closed st w :
  is_Some (streams (c_api w) !! st) -> between text w -> heard text (c_trace w) (printed w) ->
  goes_on text (close_stop_free closed (Some st) (Some state_message) w).
Proof.
  intros Hst Hb Hh. unfold close_stop_free, libp2p_stream_close. destruct (get_stream_live (Some st) (c_api w) Hst) as (r & -> & _).
  cbn [mbind option_bind]. destruct w. by apply stop_and_free_fine.
Qed.

(** The only operation after [spawn]. *)
Lemma spawned text f w x :
  between text w -> co_loop x = cp -> busy text x (c_api w) (c_trace w) -> printed w = [] ->
  f = spawn x (c_api w) -> conversing text (with_capi f w).
Proof.
  intros [B1 B2 B3 [B4 B5]] Hl Hbusy Hp ->. split; [by destruct B1; split|done|]. right. exists (length (accepted (c_api w))), x.
  cbn. rewrite B3, insert_empty. done.
Qed.

(** A read or a write on our stream is accepted, unless the stream object is empty. *)
Lemma stream_op (mk : ptr -> ptr -> job) st q f s :
  our_stream st s -> base s ->
  exists r, (r ← get_stream (Some st) s;
    match r, Some q, Some f with
    | Some (p, w), Some b, Some f => l ← loop_of_host (stream_host w) s; Some (spawn (mkCoroutine (mk p b) f l false) s, LIBP2P_SUCCESS)
    | _, _, _ => Some (s, LIBP2P_ERROR_INVALID_ARGUMENT)
    end) = Some r
    /\ (r = (spawn (mkCoroutine (mk st q) f cp false) s, LIBP2P_SUCCESS) \/ r = (s, LIBP2P_ERROR_INVALID_ARGUMENT)).
Proof.
  intros (y & Hy & Hyh) [(wh & b & Hh & Hb & Hc) [x Hx] _ _ _ _].
  destruct (get_stream_live (Some st) s ltac:(by eexists)) as ([[p z]|] & -> & Hr); cbn [mbind option_bind]; [|eexists; by auto].
  destruct Hr as [[= <-] Hz]. rewrite Hy in Hz. injection Hz as <-. rewrite Hyh. unfold loop_of_host. rewrite Hh, lookup_singleton_eq.
  cbn [mbind option_bind]. rewrite Hc, Hx. cbn. eexists. by auto.
Qed.

Lemma read_done_fine text closed st data size error d w :
  our_stream st (c_api w) -> between text w -> printed w = [] ->
  (error = LIBP2P_SUCCESS -> c_trace w = [Sent st text; Got st d] /\ data = Some state_read_buffer /\ size = length d /\ (size <= message_size)%nat
     /\ exists rest, memory (c_api w) !! state_read_buffer = Some (d ++ rest)) ->
  (error <> LIBP2P_SUCCESS -> c_trace w = [Sent st text]) ->
  goes_on text (read_done closed st data size error (Some state_message) w).
Proof.
  intros (y & Hy & _) Hb Hp Hok Herr. unfold read_done. case_bool_decide as He; cbn [negb].
  - destruct (Hok He) as (Ht & -> & -> & Hsz & rest & Hm).
    assert ((if (0 <? length d)%nat then
               p ← Some state_read_buffer; b ← memory (c_api w) !! p;
               if decide (length b < Nat.min (length d) message_size)%nat then None else Some (take (Nat.min (length d) message_size) b)
             else Some []) = Some d) as ->.
    { destruct (Nat.ltb_spec 0 (length d)); [|by destruct d; cbn in *; [|lia]]. cbn [mbind option_bind]. rewrite Hm. cbn [mbind option_bind].
      rewrite Nat.min_l by done. rewrite decide_False by (rewrite length_app; lia). by rewrite take_app_length. }
    cbn [mbind option_bind]. apply close_stop_free_fine; cbn; [by eexists|by destruct Hb; split|]. right; right. exists st, d. by rewrite Hp.
  - apply close_stop_free_fine; [by eexists|done|]. right; left. exists st. by rewrite (Herr He).
Qed.

Lemma write_done_fine text closed st error w :
  our_stream st (c_api w) -> between text w -> printed w = [] ->
  (error = LIBP2P_SUCCESS -> c_trace w = [Sent st text]) -> (error <> LIBP2P_SUCCESS -> c_trace w = []) ->
  goes_on text (write_done closed st error (Some state_message) w).
Proof.
  intros Hst Hb Hp Hok Herr. pose proof Hst as (y & Hy & _). unfold write_done. case_bool_decide as He; cbn [negb].
  - unfold libp2p_stream_read.
    destruct (stream_op (fun p b => ReadJob p b message_size) st state_read_buffer (mkClosure fn_read_done (Some state_message))
      (c_api w) Hst (bt_base _ _ Hb)) as (r & -> & [-> | ->]); cbn [mbind option_bind].
    + rewrite bool_decide_true by done. cbn [negb]. eexists. split; [reflexivity|]. eapply spawned; [done| | |done|reflexivity]; [done|]. cbn. split_and!; auto.
    + rewrite bool_decide_false by done. cbn [negb]. apply close_stop_free_fine; [by eexists|by destruct Hb; split|].
      right; left. exists st. cbn. by rewrite (Hok He).
  - apply close_stop_free_fine; [by eexists|done|]. left. by rewrite (Herr He).
Qed.

Lemma on_stream_open_fine text closed st w :
  Forall (fun x => x <> 0) text -> match st with Some st => our_stream st (c_api w) | None => True end ->
  between text w -> c_trace w = [] -> printed w = [] -> goes_on text (on_stream_open closed st (Some state_message) w).
Proof.
  intros Htx Hst Hb Ht Hp. unfold on_stream_open. destruct st as [st|]; [|apply stop_and_free_fine; [done|by left]].
  pose proof Hst as (y & Hy & _). destruct (sl_message _ _ (bt_state _ _ Hb)) as [rest Hm]. rewrite Hm. cbn [mbind option_bind].
  rewrite (text_strlen text rest Htx). cbn [mbind option_bind]. unfold libp2p_stream_write.
  destruct (stream_op (fun p b => WriteJob p b (length text)) st state_message (mkClosure fn_write_done (Some state_message))
    (c_api w) Hst (bt_base _ _ Hb)) as (r & -> & [-> | ->]); cbn [mbind option_bind].
  - rewrite bool_decide_true by done. cbn [negb]. eexists. split; [reflexivity|]. eapply spawned; [done| | |done|reflexivity]; [done|]. cbn. by split_and!.
  - rewrite bool_decide_false by done. cbn [negb]. apply close_stop_free_fine; [by eexists|by destruct Hb; split|by left].
Qed.

(** Memory that the client's invariant does not look at. *)
Definition apart (p : ptr) : Prop := p <> state_message /\ p <> state_read_buffer /\ p <> echo_protocol.
Lemma state_live_memory text p f s :
  apart p -> state_live text s -> state_live text (set_memory (partial_alter f p (memory s)) s).
Proof. intros (H1' & H2' & H3') [A B]. split; cbn; by rewrite lookup_partial_alter_ne. Qed.
Lemma base_memory p f s : apart p -> base s -> base (set_memory (partial_alter f p (memory s)) s).
Proof. intros (H1' & H2' & H3') [A B C D F Fo]. split; try done. cbn. by rewrite lookup_partial_alter_ne. Qed.

Lemma on_connected_fine text peer w :
  between text w -> c_trace w = [] -> printed w = [] -> goes_on text (on_connected hp (Some peer) (Some state_message) w).
Proof.
  intros Hb Ht Hp. unfold on_connected. assert (apart callback_text) as Hap by by repeat split.
  set (s1 := set_memory _ _).
  assert (base s1) as Hb1 by (apply (base_memory callback_text (fun _ => Some peer)); [done|apply (bt_base _ _ Hb)]).
  assert (state_live text s1) as Hl1 by (apply (state_live_memory text callback_text (fun _ => Some peer)); [done|apply (bt_state _ _ Hb)]).
  destruct (b_host _ Hb1) as (wh & b & Hh & Hhb & Hc). destruct (b_context _ Hb1) as [x Hx].
  unfold libp2p_host_new_stream, get_host, deref. rewrite Hh, lookup_singleton_eq. cbn [mbind option_bind]. rewrite Hhb. cbn [mbind option_bind].
  replace (memory s1 !! callback_text) with (Some peer) by (symmetry; apply lookup_insert_eq). cbn [mbind option_bind].
  destruct (fromBase58_total peer) as [[pid|e] ->]; cbn [mbind option_bind].
  - rewrite Hc, Hx. cbn [mbind option_bind]. rewrite bool_decide_true by done. cbn [negb]. eexists. split; [reflexivity|].
    set (y := mkCoroutine _ _ _ _). set (s2 := set_memory (delete callback_text (memory s1)) s1).
    assert (base s2) as Hb2 by by apply (base_memory callback_text (fun _ => None)).
    assert (state_live text s2) as Hl2 by by apply (state_live_memory text callback_text (fun _ => None)).
    eapply (spawned text _ (with_capi s2 w) y); [split; [done|apply (bt_context _ _ Hb)|apply (bt_idle _ _ Hb)|done]|done| |done|reflexivity].
    cbn. by rewrite Ht.
  - rewrite bool_decide_false by done. cbn [negb]. apply stop_and_free_fine; [|by left].
    split; [|apply (bt_context _ _ Hb)|apply (bt_idle _ _ Hb)|]; cbn;
      [by apply (base_memory callback_text (fun _ => None))|by apply (state_live_memory text callback_text (fun _ => None))].
Qed.

(** ** The events *)

Lemma client_silent text closed e w a :
  step e (c_api w) = Some a -> calls a = calls (c_api w) -> conversing text (with_capi a w) -> goes_on text (client_step closed e w).
Proof. intros Ha Hc Hs. unfold client_step. rewrite Ha. cbn. rewrite Hc, drop_all. by eexists. Qed.
Lemma client_calls text closed e w a x k :
  step e (c_api w) = Some a -> calls a = calls (c_api w) ++ [(x, k)] ->
  goes_on text (client_reacts closed k (mkClient a (g_context w) (c_trace w ++ moved e (c_api w)) (printed w))) ->
  goes_on text (client_step closed e w).
Proof. intros Ha Hc Hs. unfold client_step. rewrite Ha. cbn. by rewrite Hc, drop_app_length. Qed.
Lemma client_same text closed e w : step e (c_api w) = Some (c_api w) -> conversing text w -> goes_on text (client_step closed e w).
Proof. intros Ha Hs. eapply client_silent; [exact Ha|done|]. by destruct w. Qed.

(** Changes of hosts, contexts and loops that keep the rest. *)
Lemma conversing_frame text a w :
  base a -> coroutines a = coroutines (c_api w) -> memory a = memory (c_api w) -> streams a = streams (c_api w) ->
  conversing text w -> conversing text (with_capi a w).
Proof.
  intros Hb Hc Hm Hs [C1 C2 C3]. split; [done|done|]. destruct C3 as [C3|(i & x & Hi & Hl & [L1 L2] & Hbusy & Hp)]; cbn.
  - left. by rewrite Hc, Hm.
  - right. exists i, x. rewrite Hc. split_and!; try done; [by split; rewrite Hm|]. unfold busy, our_stream in *. by rewrite Hs.
Qed.

Lemma base_put_host w b s : hosts s = {[hp := w]} -> host_context w = cp -> base s -> base (put_host hp w b s).
Proof.
  intros Hh Hc [A B C D F Fo]. split; try done. cbn. rewrite Hh, insert_singleton_eq. by eexists _, _.
Qed.

(** A coroutine ends with a callback: the state it used is still there. *)
Lemma ended_between text i x k s t p :
  base s -> coroutines s = {[i := x]} -> state_live text s ->
  between text (mkClient (end_coroutine i k s) (Some cp) t p).
Proof.
  intros [A B C D F Fo] Hc [L1 L2]. split; [by split|done| |by split]. cbn. by rewrite Hc, delete_singleton_eq.
Qed.

Lemma client_starts text closed i w : conversing text w -> goes_on text (client_step closed (Starts i) w).
Proof.
  intros Hs. destruct (coroutines (c_api w) !! i) as [x|] eqn:Hx; [|apply client_same; [cbn; unfold starts; by rewrite Hx|done]].
  destruct (co_started x || negb (loop_runs (co_loop x) (c_api w))) eqn:Hst; [apply client_same; [cbn; unfold starts; by rewrite Hx, Hst|done]|].
  pose proof Hs as [C1 C2 [(C3 & _)|(j & y & Hj & Hl & Hlive & Hbusy & Hp)]]; [by rewrite C3, lookup_empty in Hx|].
  rewrite Hj in Hx. apply lookup_singleton_Some in Hx as [<- <-].
  assert (forall a, base a -> coroutines a = {[j := mkCoroutine (co_job y) (co_callback y) (co_loop y) true]} -> memory a = memory (c_api w) ->
    streams a = streams (c_api w) -> conversing text (with_capi a w)) as Hmark.
  { intros a Ha Hca Hma Hsa. split; [done|done|]. right. exists j, (mkCoroutine (co_job y) (co_callback y) (co_loop y) true).
    destruct Hlive as [L1 L2]. split_and!; try done; [by split; cbn; rewrite Hma|]. unfold busy, our_stream in *. cbn. by rewrite Hsa. }
  assert (base (mark_started j y (c_api w))) as Hbm by by destruct C1; split.
  assert (coroutines (mark_started j y (c_api w)) = {[j := mkCoroutine (co_job y) (co_callback y) (co_loop y) true]}) as Hcm
    by (cbn; by rewrite Hj, insert_singleton_eq).
  destruct (b_host _ C1) as (wh & b & Hh & Hhb & Hhc). unfold busy in Hbusy.
  destruct (co_job y) as [st q n|st q n|h peer ma|h peer q] eqn:Hjob.
  1-2: destruct Hbusy as ((z & Hz & _) & _); apply (client_silent text closed _ w (mark_started j y (c_api w))); [|done|by apply Hmark];
    cbn; unfold starts; rewrite Hj, lookup_singleton_eq, Hst, Hjob, Hz; done.
  - destruct Hbusy as (-> & Hcb & Ht). destruct (connect (mkPeerInfo (toBuffer peer) [ma]) b) as [b' r] eqn:Hcon.
    pose proof (base_put_host wh b' _ Hh Hhc C1) as Hbp. destruct r as [res|q1 q2].
    + set (k := OnConnection (co_callback y) hp (Some (toBase58 peer))).
      apply (client_calls text closed _ w (dial_ends j (co_callback y) hp peer (put_host hp wh b' (c_api w))) (Some j) k); [|done|].
      { cbn. unfold starts. rewrite Hj, lookup_singleton_eq, Hst, Hjob, Hh, lookup_singleton_eq. cbn [mbind option_bind]. rewrite Hhb.
        cbn [mbind option_bind]. by rewrite Hcon. }
      cbn [moved]. rewrite app_nil_r. unfold client_reacts, k. rewrite Hcb. cbn [fn user_data]. rewrite decide_True by done. rewrite C2.
      apply on_connected_fine; [|done|done]. eapply ended_between; [done|exact Hj|by destruct Hlive; split].
    + apply (client_silent text closed _ w (mark_started j y (put_host hp wh b' (c_api w)))).
      * cbn. unfold starts. rewrite Hj, lookup_singleton_eq, Hst, Hjob, Hh, lookup_singleton_eq. cbn [mbind option_bind]. rewrite Hhb.
        cbn [mbind option_bind]. by rewrite Hcon.
      * done.
      * apply Hmark; [by destruct Hbp; split|cbn; by rewrite Hj, insert_singleton_eq, Hjob|done|done].
  - destruct Hbusy as (-> & -> & Hcb & Ht). apply (client_silent text closed _ w (mark_started j y (c_api w))); [|done|by apply Hmark].
    cbn. unfold starts. rewrite Hj, lookup_singleton_eq, Hst, Hjob, (b_protocol _ C1). cbn [mbind option_bind].
    rewrite Hh, lookup_singleton_eq. cbn [mbind option_bind]. rewrite Hhb. done.
Qed.

(** The write has ended. *)
Lemma write_ends text closed i x st q n r w :
  conversing text w -> coroutines (c_api w) = {[i := x]} -> state_live text (c_api w) -> busy text x (c_api w) (c_trace w) -> printed w = [] ->
  co_started x = true -> loop_runs (co_loop x) (c_api w) = true -> co_job x = WriteJob st q n ->
  goes_on text (client_step closed (Completes i (WriteDone r)) w).
Proof.
  intros [C1 C2 _] Hj [[rest Hm] L2] Hbusy Hp Hst Hl Hjob. unfold busy in Hbusy. rewrite Hjob in Hbusy.
  destruct Hbusy as (Hos & -> & -> & Hcb & Ht).
  set (k := match r with success _ => OnWrite (co_callback x) st (length text) LIBP2P_SUCCESS
                       | failure _ => OnWrite (co_callback x) st 0 LIBP2P_ERROR_UNKNOWN end).
  apply (client_calls text closed _ w (end_coroutine i k (c_api w)) (Some i) k); [|done|].
  { cbn. unfold completes. rewrite Hj, lookup_singleton_eq, Hst, Hl. cbn [negb orb]. rewrite Hjob, Hm. cbn [mbind option_bind].
    rewrite decide_False by (rewrite length_app; lia). by destruct r. }
  rewrite C2. set (t := c_trace w ++ _).
  assert (t = match r with success _ => [Sent st text] | failure _ => [] end) as Ht2.
  { unfold t. rewrite Ht. cbn [moved]. destruct r; [|done]. rewrite Hj, lookup_singleton_eq. cbn. rewrite Hjob, Hm. do 2 f_equal. exact (take_app_length text (0 :: rest)). }
  assert (forall k', between text (mkClient (end_coroutine i k' (c_api w)) (Some cp) t (printed w))) as Hbt
    by (intros k'; eapply ended_between; [done|exact Hj|split; eauto]).
  unfold client_reacts, k. destruct r; rewrite Hcb; cbn [fn user_data]; rewrite decide_True by done;
    (apply write_done_fine; first [exact Hos|apply Hbt|done|by intros _; exact Ht2]).
Qed.

(** The read has ended. *)
Lemma read_ends text closed i x st q n r w :
  conversing text w -> coroutines (c_api w) = {[i := x]} -> state_live text (c_api w) -> busy text x (c_api w) (c_trace w) -> printed w = [] ->
  co_started x = true -> loop_runs (co_loop x) (c_api w) = true -> co_job x = ReadJob st q n ->
  goes_on text (client_step closed (Completes i (ReadDone r)) w).
Proof.
  intros Hs Hj [[rest Hm] (b & Hb & Hlb)] Hbusy Hp Hst Hl Hjob. pose proof Hs as [C1 C2 _]. unfold busy in Hbusy. rewrite Hjob in Hbusy.
  destruct Hbusy as (Hos & -> & -> & Hcb & Ht). destruct r as [d|e].
  - destruct (decide (message_size < length d)%nat) as [Hd|Hd].
    { apply client_same; [|done]. cbn. unfold completes. rewrite Hj, lookup_singleton_eq, Hst, Hl. cbn [negb orb].
      by rewrite Hjob, decide_True by done. }
    set (k := OnRead (co_callback x) st (Some state_read_buffer) (length d) LIBP2P_SUCCESS).
    set (s1 := set_memory (<[state_read_buffer := d ++ drop (length d) b]> (memory (c_api w))) (c_api w)).
    apply (client_calls text closed _ w (end_coroutine i k s1) (Some i) k); [|done|].
    { cbn. unfold completes. rewrite Hj, lookup_singleton_eq, Hst, Hl. cbn [negb orb]. rewrite Hjob, decide_False by done. rewrite Hb.
      cbn [mbind option_bind]. by rewrite decide_False by lia. }
    rewrite C2, Ht. cbn [moved]. rewrite Hj, lookup_singleton_eq. cbn [fmap option_fmap option_map]. rewrite Hjob. cbn [app].
    assert (forall k', between text (mkClient (end_coroutine i k' s1) (Some cp) [Sent st text; Got st d] (printed w))) as Hbt.
    { intros k'. eapply ended_between; [|exact Hj|].
      - destruct C1 as [A B C D F Fo]. split; try done. cbn. by rewrite lookup_insert_ne.
      - split; cbn; [rewrite lookup_insert_ne by done; eauto|]. exists (d ++ drop (length d) b). rewrite lookup_insert_eq, length_app, length_drop.
        split; [done|lia]. }
    unfold client_reacts, k. rewrite Hcb. cbn [fn user_data]. rewrite decide_True by done.
    apply (read_done_fine text closed st _ _ _ d); [exact Hos|apply Hbt|done| |done]. intros _. split_and!; try done; [lia|]. eexists. apply lookup_insert_eq.
  - set (k := OnRead (co_callback x) st None 0 LIBP2P_ERROR_UNKNOWN).
    apply (client_calls text closed _ w (end_coroutine i k (c_api w)) (Some i) k); [|done|].
    { cbn. unfold completes. rewrite Hj, lookup_singleton_eq, Hst, Hl. cbn [negb orb]. by rewrite Hjob. }
    rewrite C2. cbn [moved]. rewrite app_nil_r.
    assert (forall k', between text (mkClient (end_coroutine i k' (c_api w)) (Some cp) (c_trace w) (printed w))) as Hbt
      by (intros k'; eapply ended_between; [done|exact Hj|split; eauto]).
    unfold client_reacts, k. rewrite Hcb. cbn [fn user_data]. rewrite decide_True by done.
    by apply (read_done_fine text closed st _ _ _ []); [exact Hos|apply Hbt|..].
Qed.

(** The stream has been opened, or not. *)
Lemma open_ends text closed i x h peer q r w :
  Forall (fun x => x <> 0) text ->
  conversing text w -> coroutines (c_api w) = {[i := x]} -> state_live text (c_api w) -> busy text x (c_api w) (c_trace w) -> printed w = [] ->
  co_started x = true -> loop_runs (co_loop x) (c_api w) = true -> co_job x = NewStreamJob h peer q ->
  goes_on text (client_step closed (Completes i (StreamDone r)) w).
Proof.
  intros Htx [C1 C2 _] Hj Hlive Hbusy Hp Hst Hl Hjob. unfold busy in Hbusy. rewrite Hjob in Hbusy. destruct Hbusy as (-> & -> & Hcb & Ht).
  set (s1 := match r with success st => (new_stream_wrapper st hp (c_api w)).1 | failure _ => c_api w end).
  set (k := OnStream (co_callback x) (match r with success _ => Some (next (c_api w)) | failure _ => None end)).
  apply (client_calls text closed _ w (end_coroutine i k s1) (Some i) k).
  { cbn. unfold completes. rewrite Hj, lookup_singleton_eq, Hst, Hl. cbn [negb orb]. rewrite Hjob. by destruct r. }
  { by destruct r. }
  rewrite C2. cbn [moved]. rewrite app_nil_r.
  assert (forall k', between text (mkClient (end_coroutine i k' s1) (Some cp) (c_trace w) (printed w))) as Hbt.
  { intros k'. eapply ended_between; [|by destruct r|]; unfold s1; destruct r; try done; [by destruct C1; split|by destruct Hlive; split]. }
  unfold client_reacts, k. rewrite Hcb. cbn [fn user_data]. rewrite decide_True by done.
  apply on_stream_open_fine; [done| |apply Hbt|done|done]. destruct r; [|done]. eexists. split; [apply lookup_insert_eq|done].
Qed.

Lemma dial_done text closed i x h peer ma r w :
  conversing text w -> coroutines (c_api w) = {[i := x]} -> state_live text (c_api w) -> busy text x (c_api w) (c_trace w) -> printed w = [] ->
  co_started x = true -> loop_runs (co_loop x) (c_api w) = true -> co_job x = DialJob h peer ma ->
  goes_on text (client_step closed (Completes i (DialDone r)) w).
Proof.
  intros [C1 C2 _] Hj Hlive Hbusy Hp Hst Hl Hjob. unfold busy in Hbusy. rewrite Hjob in Hbusy. destruct Hbusy as (-> & Hcb & Ht).
  set (k := OnConnection (co_callback x) hp (Some (toBase58 peer))).
  apply (client_calls text closed _ w (end_coroutine i k (c_api w)) (Some i) k); [|done|].
  { cbn. unfold completes. rewrite Hj, lookup_singleton_eq, Hst, Hl. cbn [negb orb]. by rewrite Hjob. }
  rewrite C2. cbn [moved]. rewrite app_nil_r. unfold client_reacts, k. rewrite Hcb. cbn [fn user_data]. rewrite decide_True by done.
  apply on_connected_fine; [by eapply ended_between|done|done].
Qed.

Lemma client_completes text closed i a w :
  Forall (fun x => x <> 0) text -> conversing text w -> goes_on text (client_step closed (Completes i a) w).
Proof.
  intros Htx Hs.
  destruct (coroutines (c_api w) !! i) as [x|] eqn:Hx; [|apply client_same; [cbn; unfold completes; by rewrite Hx|done]].
  destruct (co_started x) eqn:Hst; [|apply client_same; [cbn; unfold completes; by rewrite Hx, Hst|done]].
  destruct (loop_runs (co_loop x) (c_api w)) eqn:Hl; [|apply client_same; [cbn; unfold completes; by rewrite Hx, Hst, Hl|done]].
  pose proof Hs as [_ _ [(C3 & _)|(j & y & Hj & _ & Hlive & Hbusy & Hp)]]; [by rewrite C3, lookup_empty in Hx|].
  pose proof Hx as Hx'. rewrite Hj in Hx'. apply lookup_singleton_Some in Hx' as [-> ->].
  destruct (co_job x) eqn:Hjob, a;
    try (apply client_same; [cbn; unfold completes; by rewrite Hx, Hst, Hl, Hjob|done]).
  - by eapply read_ends.
  - by eapply write_ends.
  - by eapply dial_done.
  - by eapply open_ends.
Qed.

Lemma client_event text closed e w :
  Forall (fun x => x <> 0) text -> environment cp e -> conversing text w -> goes_on text (client_step closed e w).
Proof.
  intros Htx He Hs. destruct e; try done; pose proof Hs as [C1 C2 _]; pose proof C1 as [(wh & b' & Hh & Hhb & Hhc) [x Hx] [stopped Hl] Hg Hp Ho].
  - cbn in He. subst. set (a := let s := set_contexts (<[cp := mkContext false (running x)]> (contexts (c_api w))) (c_api w) in
      if running x then io_stop cp s else s).
    apply (client_silent text closed _ w a).
    + cbn. unfold libp2p_context_stop, deref. by rewrite Hx.
    + unfold a. by destruct (running x).
    + apply conversing_frame; try done; unfold a; destruct (running x); try done; split; cbn; try done; rewrite ?lookup_insert_eq; eauto.
      rewrite Hl, alter_singleton_eq. by eexists.
  - by apply client_starts.
  - by apply client_completes.
  - apply client_same; [|done]. cbn. unfold incoming, orphan_runs. rewrite Ho, lookup_empty. f_equal. unfold dispatch_stream. destruct (w0 ← hosts (c_api w) !! h; _) as [[w0 b0]|]; [|done].
    destruct (negb _); [done|]. destruct (getProtocol name (host_listener b0)) as [[n|]|]; [|done..]. by rewrite Hg, lookup_empty.
  - destruct (decide (h = hp)) as [->|Hne].
    + destruct (loop_runs (host_context wh) (c_api w)) eqn:Hruns;
        [|apply client_same; [cbn; unfold host_works, orphan_runs; by rewrite Ho, lookup_empty, Hh, lookup_singleton_eq, Hruns|done]].
      apply (client_silent text closed _ w (put_host hp wh b (c_api w)));
        [cbn; unfold host_works, orphan_runs; by rewrite Ho, lookup_empty, Hh, lookup_singleton_eq, Hruns|done|].
      apply conversing_frame; try done. by apply base_put_host.
    + apply client_same; [|done]. cbn. unfold host_works, orphan_runs. by rewrite Ho, lookup_empty, Hh, lookup_singleton_ne by done.
Qed.

Lemma client_events_fine text es w :
  Forall (fun x => x <> 0) text -> Forall (fun x => environment cp x.2) es -> conversing text w -> goes_on text (client_events es w).
Proof.
  intros Htx He. revert w. induction He as [|[m e] es He Hes IH]; intros w Hs; [by exists w|]. cbn [client_events].
  destruct (client_event text m e w Htx He Hs) as (w1 & -> & Hs1). by apply IH.
Qed.

(** ** The program *)

Lemma client_cleanup_fine (sig : signal_points) g wh (a : capi) :
  hosts a !! hp = Some wh -> contexts a !! cp = Some (mkContext g false) ->
  if sig ContextGone then client_cleanup sig (Some cp) (Some hp) a = None
  else exists a', client_cleanup sig (Some cp) (Some hp) a = Some a' /\ coroutines a' = coroutines a /\ memory a' = memory a.
Proof.
  intros Hh Hc. unfold client_cleanup. destruct (signalled_idle (sig LoopReturned) cp g a Hc) as [g1 ->]. cbn [mbind option_bind].
  unfold libp2p_host_destroy, deref. cbn [hosts set_contexts]. rewrite Hh. cbn [mbind option_bind].
  set (a3 := set_hosts _ _).
  assert (contexts a3 !! cp = Some (mkContext g1 false) /\ coroutines a3 = coroutines a /\ memory a3 = memory a) as (Hc3 & Ec3 & Em3).
  { unfold a3. destruct (host wh) as [b|]; [destruct (has_coroutines b)|]; (split; [apply lookup_insert_eq|done]). }
  destruct (signalled_idle (sig HostGone) cp g1 a3 Hc3) as [g3 ->]. cbn [mbind option_bind].
  unfold libp2p_context_destroy, deref. cbn [contexts set_contexts]. rewrite lookup_insert_eq.
  cbn [mbind option_bind running]. cbv zeta. cbn iota. unfold signalled. destruct (sig ContextGone).
  - unfold libp2p_context_stop at 1, deref. cbn. by rewrite lookup_delete_eq.
  - cbn [mbind option_bind]. eexists. split; [by destruct (sig AtEnd)|]. done.
Qed.

Lemma client_finish_fine text (sig : signal_points) thrown w :
  conversing text w -> sig ContextGone = false ->
  exists w', client_finish sig thrown hp w = Some w' /\ c_trace w' = c_trace w /\ printed w' = printed w
    /\ coroutines (c_api w') = coroutines (c_api w) /\ memory (c_api w') = memory (c_api w).
Proof.
  intros [C1 C2 _] Hsig. destruct C1 as [(wh & b & Hh & Hhb & Hhc) [x Hx] [stopped Hl] Hg Hp Ho].
  unfold client_finish, run_ends. rewrite C2. cbn [mbind option_bind]. rewrite Hl, lookup_singleton_eq. cbn [io_runs].
  destruct (_ && _); cbn [mbind option_bind]; [|by eexists]. cbn [contexts set_loops]. rewrite Hx. cbn [mbind option_bind].
  set (a := set_contexts _ _). pose proof (client_cleanup_fine sig (work_guard x) wh a) as Hcl. rewrite Hsig in Hcl.
  destruct Hcl as (a' & -> & Ec & Em); [by cbn; rewrite Hh, lookup_singleton_eq|apply lookup_insert_eq|].
  cbn [mbind option_bind]. by eexists.
Qed.

Section Laws.
Context `{!ExtLaws, !Dotted, !ProtobufLaws, !Ed25519Total, !RsaDer}.

(** Between the calls of [main]. *)
Record prepared (text : bytes) s : Prop := {
  pr_host : exists w b, hosts s = {[hp := w]} /\ host w = Some b /\ host_context w = cp;
  pr_context : exists g, contexts s !! cp = Some (mkContext g false);
  pr_loops : loops s = {[cp := mkLoop false 0]};
  pr_handlers : handlers s = ∅;
  pr_coroutines : coroutines s = ∅;
  pr_protocol : memory s !! echo_protocol = Some (str "/echo/1.0.0");
  pr_state : state_live text s;
  pr_orphans : orphans s = ∅
}.
(** [main] has returned and the state is freed. *)
Definition left_clean (w : client) : Prop :=
  coroutines (c_api w) = ∅ /\ memory (c_api w) !! state_message = None /\ c_trace w = [] /\ printed w = [].

Lemma prepared_signalled text b s : prepared text s -> exists s', signalled b (Some cp) s = Some s' /\ prepared text s' /\ memory s' = memory s.
Proof.
  intros [P1 [g P2] P3 P4 P5 P6 [P7 P8] P9]. destruct (signalled_idle b cp g s P2) as [g' ->]. eexists. split; [done|]. split; [|done].
  split; try done. exists g'. apply lookup_insert_eq.
Qed.

Lemma exit_host_fine text (sig : signal_points) code s :
  prepared text s -> sig ContextGone = false ->
  exists w, exit_host sig code (Some hp) (mkClient s (Some cp) [] []) = Some (w, Exits code) /\ left_clean w.
Proof.
  intros [(wh & b & Hh & Hhb & Hhc) [g P2] P3 P4 P5 P6 [[rest Hm] (rb & Hrb & _)] P9] Hsig.
  unfold exit_host, exit_context, libp2p_host_destroy at 1, deref. cbn [c_api g_context]. rewrite Hh, lookup_singleton_eq. cbn [mbind option_bind].
  set (s1 := set_hosts _ _).
  assert (contexts s1 !! cp = Some (mkContext g false) /\ memory s1 = memory s /\ coroutines s1 = coroutines s) as (Hc1 & Em1 & Ec1)
    by (unfold s1; destruct (host wh) as [b'|]; [destruct (has_coroutines b')|]; done).
  destruct (signalled_idle (sig HostGone) cp g s1 Hc1) as [g1 ->]. cbn [mbind option_bind c_api with_capi g_context].
  unfold libp2p_context_destroy, deref. cbn [contexts set_contexts]. rewrite lookup_insert_eq. cbn [mbind option_bind running]. rewrite Hsig.
  cbn [signalled mbind option_bind]. unfold free_state. rewrite decide_True by done. cbn [memory set_contexts]. rewrite Em1, Hm. cbn [mbind option_bind].
  rewrite Hrb. cbn [mbind option_bind]. eexists. split; [reflexivity|]. split; [exact (eq_trans Ec1 P5)|]. cbn. by rewrite lookup_delete_eq.
Qed.

Definition message_of (argv : list bytes) : bytes := default (str "Hello from C") (argv !! 1%nat).
Definition text_of (argv : list bytes) : bytes := take (message_size - 1) (message_of argv).

(** The calls up to [libp2p_host_start]. *)
Lemma client_opened sig full rest junk bind :
  exists s, prepared (text_of (full :: rest)) s /\ client_setup sig (full :: rest) (Some junk) bind client_memory =
    match split_multiaddr_peer full base_addr_size peer_id_size with
    | None => exit_host sig 2 (Some hp) (mkClient s (Some cp) [] [])
    | Some (addr, peer) =>
        let s := set_memory (<[base_addr := addr]> (<[peer_id_arg := peer]> (memory s))) s in
        '(s, d) ← libp2p_host_dial (Some hp) (Some base_addr) (Some peer_id_arg)
                    (Some (mkClosure fn_on_connected (Some state_message))) s;
        s ← signalled (sig Dialled) (Some cp) s;
        let w := mkClient s (Some cp) [] [] in
        if negb (bool_decide (d = LIBP2P_SUCCESS)) then exit_host sig 1 (Some hp) w
        else '(s, _) ← libp2p_context_run (Some cp) s; Some (with_capi s w, Runs hp)
    end.
Proof.
  destruct (samples_made sha256 (seed_index hash_string (Some (str "echo_client_seed_0")))) as [sp Hsp].
  unfold client_setup. unfold libp2p_set_log_level.
  replace (signalled (sig AtStart) None client_memory) with (Some client_memory) by (unfold signalled; by destruct (sig AtStart)).
  cbn [mbind option_bind c_api]. set (s0 := set_memory _ client_memory).
  unfold libp2p_context_create. change (next s0) with cp. set (s1 := bump _).
  destruct (signalled_idle (sig ContextMade) cp true s1 eq_refl) as [g1 ->]. cbn [mbind option_bind]. set (s1' := set_contexts _ s1).
  unfold libp2p_host_create at 1, deref. change (memory s1' !! client_seed) with (Some (str "echo_client_seed_0")). cbn [mbind option_bind].
  rewrite Hsp. cbn [mbind option_bind].
  assert (contexts s1' !! cp = Some (mkContext g1 false)) as Hc1 by apply lookup_insert_eq. rewrite Hc1. cbn [mbind option_bind].
  change (next s1') with hp. set (wh := mkCHost _ _ _ _). set (s2 := bump _).
  destruct (signalled_idle (sig HostMade) cp g1 s2 Hc1) as [g2 ->]. cbn [mbind option_bind]. set (s2' := set_contexts _ s2).
  unfold libp2p_host_start at 1, get_host, deref.
  assert (hosts s2' !! hp = Some wh) as -> by apply lookup_insert_eq. cbn [mbind option_bind host wh].
  set (s3 := put_host hp _ _ s2'). assert (prepared (text_of (full :: rest)) s3) as Hs3.
  { split; try done.
    - eexists _, _. cbn. rewrite insert_insert_eq. by split_and!.
    - exists g2. apply lookup_insert_eq.
    - split.
      + eexists. cbn. unfold stored_message. rewrite lookup_insert_eq. unfold text_of, message_of. by destruct rest.
      + exists (replicate message_size 0). split; [|apply length_replicate]. cbn -[replicate]. by rewrite lookup_insert_ne, lookup_insert_eq by done. }
  destruct (prepared_signalled _ (sig HostStarted) s3 Hs3) as (s4 & -> & Hs4 & _). cbn [mbind option_bind].
  rewrite bool_decide_true by done. by exists s4.
Qed.

(** A dial that was accepted, a signal perhaps, and the loop. *)
Lemma client_runs text sig x s :
  prepared text s -> co_loop x = cp -> busy text x s [] ->
  exists w, (s ← signalled (sig Dialled) (Some cp) (spawn x s);
     '(s', _) ← libp2p_context_run (Some cp) s; Some (with_capi s' (mkClient s (Some cp) [] []), Runs hp)) = Some (w, Runs hp)
    /\ conversing text w.
Proof.
  intros [P1 [g P2] P3 P4 P5 P6 [P7 P8] P9] Hx Hb. destruct (signalled_idle (sig Dialled) cp g (spawn x s) P2) as [g' ->]. cbn [mbind option_bind].
  unfold libp2p_context_run, deref. cbn [contexts set_contexts]. rewrite lookup_insert_eq. cbn [mbind option_bind].
  eexists. split; [reflexivity|]. split; [|done|].
  - split; cbn; try done; [by rewrite lookup_insert_eq|]. rewrite P3. unfold cp. rewrite alter_singleton_eq. by eexists.
  - right. eexists _, x. cbn [c_api with_capi set_loops set_contexts coroutines spawn]. rewrite P5, insert_empty.
    split_and!; [reflexivity|done|by split|done|done].
Qed.

Lemma client_setup_fine (sig : signal_points) argv junk bind :
  (forall full rest addr peer, argv = full :: rest -> split_multiaddr_peer full base_addr_size peer_id_size = Some (addr, peer) ->
     is_Some (create addr)) -> sig ContextGone = false ->
  exists w r, client_setup sig argv junk bind client_memory = Some (w, r)
    /\ match r with Exits _ => left_clean w | Runs h => h = hp /\ conversing (text_of argv) w end.
Proof.
  intros Hcreate Hsig. destruct argv as [|full rest]; [|destruct junk as [junk|]];
    try (unfold client_setup, signalled; destruct (sig AtStart); by eexists _, _).
  destruct (client_opened sig full rest junk bind) as (s & Hs & ->). set (text := text_of _) in *.
  destruct (split_multiaddr_peer full base_addr_size peer_id_size) as [[addr peer]|] eqn:Hsplit;
    [|destruct (exit_host_fine text sig 2 s Hs Hsig) as (w & -> & Hw); by eexists _, _].
  destruct (Hcreate full rest addr peer eq_refl Hsplit) as [ma Hma].
  set (s1 := set_memory _ s).
  assert (prepared text s1) as Hs1.
  { destruct Hs as [P1 P2 P3 P4 P5 P6 P7 P8]. split; try done; [by cbn; rewrite !lookup_insert_ne|].
    destruct P7 as [L1 L2]. split; cbn; by rewrite !lookup_insert_ne. }
  cbv zeta. destruct (pr_host _ _ Hs1) as (wh & b & Hh & Hhb & Hhc). unfold libp2p_host_dial, get_host, deref.
  rewrite Hh, lookup_singleton_eq. cbn [mbind option_bind]. rewrite Hhb. cbn [mbind option_bind].
  replace (memory s1 !! peer_id_arg) with (Some peer) by (cbn; by rewrite lookup_insert_ne, lookup_insert_eq). cbn [mbind option_bind].
  assert (exists w r, (s ← signalled (sig Dialled) (Some cp) s1; exit_host sig 1 (Some hp) (mkClient s (Some cp) [] [])) = Some (w, r)
    /\ match r with Exits _ => left_clean w | Runs h => h = hp /\ conversing text w end) as Hexit.
  { destruct (prepared_signalled text (sig Dialled) s1 Hs1) as (s2 & -> & Hs2 & _). cbn [mbind option_bind].
    destruct (exit_host_fine text sig 1 s2 Hs2 Hsig) as (w & -> & Hw); by eexists _, _. }
  destruct (decide (peer = [])); [exact Hexit|].
  replace (memory s1 !! base_addr) with (Some addr) by (cbn; by rewrite lookup_insert_eq). cbn [mbind option_bind].
  rewrite Hma. cbn [mbind option_bind]. destruct ma as [ma|]; [|exact Hexit].
  destruct (fromBase58_total peer) as [[pid|e] ->]; cbn [mbind option_bind]; [|exact Hexit].
  destruct (pr_context _ _ Hs1) as [g Hc1]. rewrite Hhc, Hc1. cbn [mbind option_bind]. rewrite bool_decide_true by done. cbn [negb].
  destruct (client_runs text sig (mkCoroutine (DialJob hp pid ma) (mkClosure fn_on_connected (Some state_message)) cp false) s1 Hs1)
    as (w & -> & Hw); [done|done|]. by eexists _, _.
Qed.

(** C21: the echo client.  For every command line of which [create] does not fail an
    assertion on the address, whatever the network and the memory allocator do, in whatever
    order, and whether and whenever a signal comes while [g_context] is [NULL] or points to
    the context, between two calls of [main] or two events of the loop: it never meets
    undefined behaviour and frees nothing twice, from [main] to the end of its cleaning up.
    On the one stream it opens it sends the message of the command line, cut to 1023 bytes,
    at most once, and what it prints as received is the one answer that came after it.  The
    state of the request is freed unless the loop ended while an operation was under way.
    Between [libp2p_context_destroy] and the end of [main], or the reset of [g_context], a
    signal uses a context that is gone: [signal_uses_destroyed_context]. *)
Theorem echo_client_correct (sig : signal_points) argv junk bind es thrown :
  Forall (Forall (fun x => x <> 0)) argv ->
  (forall full rest addr peer, argv = full :: rest -> split_multiaddr_peer full base_addr_size peer_id_size = Some (addr, peer) ->
     is_Some (create addr)) ->
  sig ContextGone = false -> Forall (fun x => environment cp x.2) es ->
  exists w, client_main sig argv junk bind es thrown = Some w
    /\ heard (text_of argv) (c_trace w) (printed w)
    /\ (coroutines (c_api w) = ∅ -> memory (c_api w) !! state_message = None).
Proof.
  intros Hnul Hcreate Hsig He. unfold client_main. destruct (client_setup_fine sig argv junk bind Hcreate Hsig) as (w & r & -> & Hr).
  cbn [mbind option_bind]. destruct r as [code|h].
  - destruct Hr as (Hc & Hm & Ht & Hp). exists w. split; [done|]. split; [left; by split|done].
  - destruct Hr as [-> Hw].
    assert (Forall (fun x => x <> 0) (text_of argv)) as Htx.
    { apply Forall_take. unfold message_of. destruct (argv !! 1%nat) as [m|] eqn:Em; [by eapply Forall_lookup_1 in Hnul|].
      vm_compute. repeat (constructor; [discriminate|]). constructor. }
    destruct (client_events_fine (text_of argv) es w Htx He Hw) as (w1 & -> & Hw1). cbn [mbind option_bind].
    destruct (client_finish_fine _ sig thrown w1 Hw1 Hsig) as (w2 & -> & Et & Ep & Ec & Em). exists w2. rewrite Et, Ep, Ec, Em. split; [done|].
    destruct (cv_stage _ _ Hw1) as [(Hc & Hm & _ & Hh)|(i & x & Hc & _ & _ & Hb & Hp)]; [done|]. split.
    + unfold busy in Hb. rewrite Hp. destruct (co_job x) as [st q n|st q n| |]; destruct Hb as (_ & Hb); [right; left|left..].
      * destruct Hb as (_ & _ & _ & ->). by exists st.
      * by destruct Hb as (_ & _ & _ & ->).
      * by destruct Hb as (_ & ->).
      * by destruct Hb as (_ & _ & ->).
    + intros Hc'. rewrite Hc' in Hc. by apply symmetry, map_non_empty_singleton in Hc.
Qed.

(** A signal after [libp2p_context_destroy] and before [g_context] is reset. *)
Theorem signal_uses_destroyed_context text (sig : signal_points) thrown w a e :
  conversing text w -> run_ends thrown cp (c_api w) = Some (a, Some e) -> sig ContextGone = true ->
  client_finish sig thrown hp w = None.
Proof.
  intros [C1 C2 _] Hr Hsig. destruct C1 as [(wh & b & Hh & Hhb & Hhc) [x Hx] [stopped Hl] Hg Hp Ho].
  unfold client_finish. rewrite C2. cbn [mbind option_bind]. rewrite Hr. cbn [mbind option_bind]. unfold run_ends in Hr.
  rewrite Hl, lookup_singleton_eq in Hr. destruct (_ && _); cbn [mbind option_bind] in Hr; [|done].
  cbn [contexts set_loops] in Hr. rewrite Hx in Hr. cbn [mbind option_bind] in Hr. injection Hr as <- _.
  match goal with |- context [client_cleanup sig _ _ ?a] => pose proof (client_cleanup_fine sig (work_guard x) wh a) as Hcl end.
  rewrite Hsig in Hcl. rewrite Hcl; [done|by cbn; rewrite Hh, lookup_singleton_eq|apply lookup_insert_eq].
Qed.
End Laws.
End Client.

(** The two strings are the parts of the argument around the tag, and fit with their
    terminators. *)
Lemma find_at_split sub s : forall i n, find_at sub s i = Some n ->
  exists a b, s = a ++ sub ++ b /\ n = (i + length a)%nat.
Proof.
  induction s as [|x s IH]; intros i n; cbn [find_at]; (destruct (is_prefix sub _) eqn:Hp;
    [intros [= <-]; apply is_prefix_true in Hp as [b ->]; exists [], b; cbn; by rewrite Nat.add_0_r|]); [done|].
  intros (a & b & -> & ->)%IH. exists (x :: a), b. cbn. split; [done|lia].
Qed.
Lemma split_exact full addr peer a b :
  split_multiaddr_peer full a b = Some (addr, peer) ->
  full = addr ++ p2p_tag ++ peer /\ (length addr < a)%nat /\ (length peer < b)%nat.
Proof.
  unfold split_multiaddr_peer. destruct (find full p2p_tag 0) as [n|] eqn:Hf; cbn [mbind option_bind]; [|done].
  destruct (Nat.ltb_spec a (n + 1)); [done|]. destruct (Nat.ltb_spec b (length (drop (n + length p2p_tag) full) + 1)); [done|].
  unfold find in Hf. rewrite decide_True in Hf by lia. apply find_at_split in Hf as (x & y & Hxy & ->). rewrite drop_0 in Hxy. rewrite Nat.add_0_l in *.
  assert (drop (length x + length p2p_tag) full = y) as Hd by (rewrite Hxy, app_assoc, <- length_app; apply drop_app_length).
  assert (take (length x) full = x) as Ht by (rewrite Hxy; apply take_app_length). rewrite Hd, Ht in *. intros [= <- <-]. split; [done|lia].
Qed.

(** ** A run of the client *)
Module ToyEchoClient.
Import (hints) ConnectionManager.Plain MultiaddrPlain.Plain Multibase.Multibase.
Import (hints) Keys.Toy ToySample ToyClient.

Definition argv : list bytes := [ToyServer.default_address ++ p2p_tag ++ ToyClient.peer_text; str "ping"].
(** The dial fails, which the callback does not show; the stream is opened all the same. *)
Definition answers_ping : list ToyServer.toy_event :=
  [Starts 0; Completes 0 (DialDone (failure Chunked.Eof)); Starts 1; Completes 1 (StreamDone (success (Some 7%nat)));
   Starts 2; Completes 2 (WriteDone (success tt)); Starts 3; Completes 3 (ReadDone (success (str "ping")))].
Definition toy_client (sig : signal_points) (es : list ToyServer.toy_event) : option client :=
  client_main ToyClient.sha ToyClient.hash tt sig argv (Some []) success (map (pair (success tt)) es) false.

Lemma echo_client_correct_witness :
  exists w, toy_client ToyServer.in_time answers_ping = Some w /\ heard (str "ping") (c_trace w) (printed w)
    /\ (coroutines (c_api w) = ∅ -> memory (c_api w) !! state_message = None).
Proof.
  apply (echo_client_correct ToyClient.sha ToyClient.hash tt ToyServer.in_time argv (Some []) success (map (pair (success tt)) answers_ping) false).
  - apply (bool_decide_eq_true_1 (Forall (Forall (fun x => x <> 0)) argv)). vm_compute. reflexivity.
  - intros full rest addr peer [= <- <-] Hs. vm_compute in Hs. injection Hs as <- <-. vm_compute. by eexists.
  - reflexivity.
  - repeat (constructor; [done|]). constructor.
Defined.

Lemma toy_client_prints :
  (w ← toy_client ToyServer.in_time answers_ping; Some (printed w, elements (dom (memory (c_api w))), elements (dom (contexts (c_api w))), elements (dom (hosts (c_api w)))))
  = Some ([str "ping"], [4; 2; 3; 1]%nat, [], []).
Proof. vm_compute. reflexivity. Qed.

(** A signal during the dial: the program ends with the state of the request still
    allocated. *)
Lemma interrupted_client_leaks :
  (w ← toy_client (fun _ => false) [Starts 0; ContextStop (Some 0%nat)]; Some (bool_decide (is_Some (memory (c_api w) !! state_message)), elements (dom (contexts (c_api w)))))
  = Some (true, []).
Proof. vm_compute. reflexivity. Qed.

(** After an early return [g_context] points to a context that was destroyed, and the
    signal handler still uses it; so it does before [g_context] is reset. *)
Lemma early_return_dangles :
  client_main (E := Chunked.eof) ToyClient.sha ToyClient.hash tt ToyServer.too_late [str "/ip4/127.0.0.1"] (Some []) success [] false = None
  /\ toy_client ToyServer.too_late answers_ping = None.
Proof. split; vm_compute; reflexivity. Qed.
End ToyEchoClient.
