(* ===== verification/Protocols.v ===== *)
(** * The echo and ping protocols

    [protocol/echo/echo.cpp] and [protocol/ping.cpp], over the streams of
    Stream.v.  A coroutine that runs until its stream fails takes the number of
    iterations as fuel; the theorems give how many are enough. *)

From S2P Require Import Prelude Varint Stream Multiselect.

(** How a coroutine ends: it returns, or an exception leaves it. *)
Inductive ended (C : Type) := Done (c : C) | Threw (c : C).
Arguments Done {C} c.
Arguments Threw {C} c.

(** ** Echo *)

Module Echo.
Record EchoConfig := mkEchoConfig { max_server_repeats : nat; max_recv_size : nat }.
Definition kInfiniteNumberOfRepeats : nat := 0.
Definition default_config : EchoConfig := mkEchoConfig kInfiniteNumberOfRepeats 4096.
Definition getProtocolIds : list ProtocolName := [str "/echo/1.0.0"].

Section Echo.
Context {C E : Type} `{!Reader C E, !Writer C E} (close : C -> C).

(** [doRead]; [stop] closes the stream, a failure of which is only logged. *)
Fixpoint doRead_loop (fuel : nat) (config_ : EchoConfig) (repeat_infinitely_ : bool) (max_repeat : nat) (c : C) :
    option (ended C) :=
  if negb (repeat_infinitely_ || negb (max_repeat =? 0)%nat) then Some (Done (close c))
  else match fuel with
  | O => None
  | S fuel =>
      match readSome c (max_recv_size config_) with
      | (c, failure _) => Some (Done (close c))
      | (c, success buf) =>
          match write c buf with
          | None => None
          | Some (c, failure LogicError) => Some (Threw c)
          | Some (c, failure _) => Some (Done (close c))
          | Some (c, success _) =>
              doRead_loop fuel config_ repeat_infinitely_
                (if repeat_infinitely_ then max_repeat else max_repeat - 1)%nat c
          end
      end
  end.
Definition doRead (fuel : nat) (config_ : EchoConfig) (c : C) : option (ended C) :=
  doRead_loop fuel config_ (max_server_repeats config_ =? 0)%nat (max_server_repeats config_) c.
End Echo.
End Echo.

(** ** Ping *)

Module Ping.
Definition kPingSize : nat := 32.
Record PingConfig := mkPingConfig { timeout : Z; interval : Z }.
Definition default_config : PingConfig := mkPingConfig 20 15.
Definition getProtocolIds : list ProtocolName := [str "/ipfs/ping/1.0.0"].

Inductive ping_error (E : Type) := INVALID_RESPONSE | PingIo (e : stream_error E).
Arguments INVALID_RESPONSE {E}.
Arguments PingIo {E} e.

Section Coroutines.
Context {C E : Type} `{!Reader C E, !Writer C E}.

(** [handle]: the coroutine of the server. *)
Fixpoint handle (fuel : nat) (c : C) : option (ended C) :=
  match fuel with
  | O => None
  | S fuel =>
      match read c kPingSize with
      | None => None
      | Some (c, failure LogicError) => Some (Threw c)
      | Some (c, failure _) => Some (Done c)
      | Some (c, success message) =>
          match write c message with
          | None => None
          | Some (c, failure LogicError) => Some (Threw c)
          | Some (c, failure _) => Some (Done c)
          | Some (c, success _) => handle fuel c
          end
      end
  end.

(** [ping(stream, timeout)] with the random [message] and the two clock readings in
    nanoseconds.  The timer resets the stream when it fires, which shows as an
    error of the stream. *)
Definition ping (message : bytes) (start end_ : Z) (c : C) : option (C * outcome (ping_error E) Z) :=
  match write c message with
  | None => None
  | Some (c, failure e) => Some (c, failure (PingIo e))
  | Some (c, success _) =>
      match read c kPingSize with
      | None => None
      | Some (c, failure e) => Some (c, failure (PingIo e))
      | Some (c, success reply) =>
          if bool_decide (reply <> message) then Some (c, failure INVALID_RESPONSE)
          else Some (c, success (Z.quot (end_ - start) 1000))
      end
  end.

(** [ping(conn, timeout)]; [opened] is the stream of [newStream]. *)
Definition ping_connection (close : C -> C) (message : bytes) (start end_ : Z) (opened : outcome (stream_error E) C) :
    option (option C * outcome (ping_error E) Z) :=
  match opened with
  | failure e => Some (None, failure (PingIo e))
  | success c =>
      '(c, r) ← ping message start end_ c;
      Some (Some (close c), r)
  end.
End Coroutines.

(** *** The client's loop

    What happens in [pingLoop] on one connection: the answers of [newStream] and of
    [ping] in each round, and the calls the loop makes. *)
Record round := mkRound { opened : option nat; answered : bool }.
Inductive action := NewStream | Pings (s : nat) | Resets (s : nat) | Waits.

Fixpoint pingLoop (rounds : list round) (stream : option nat) : list action * option nat * bool :=
  match rounds with
  | [] => ([], stream, false)
  | r :: rounds =>
      let go pre s :=
        let '(tail, next) := if answered r then ([], Some s) else ([Resets s], None) in
        let '(acts, last, over) := pingLoop rounds next in
        (pre ++ [Pings s] ++ tail ++ [Waits] ++ acts, last, over) in
      match stream with
      | Some s => go [] s
      | None =>
          match opened r with
          | None => ([NewStream], None, true)
          | Some s => go [NewStream] s
          end
      end
  end.
End Ping.

(** ** Proofs *)

(** A stream whose other end has closed: once what was sent is read, reading fails. *)
Class Ends (C E : Type) `{Duplex C E} :=
  readSome_end c n : pending c = [] -> exists c' e, readSome c n = (c', failure e) /\ pending c' = [].

Section Laws.
Context {C E : Type} `{!Reader C E, !Writer C E, !Duplex C E}.

Lemma write_lawful (c : C) bs :
  exists c', write c bs = Some (c', success tt) /\ written c' = written c ++ bs /\ pending c' = pending c.
Proof.
  destruct (write_loop_lawful (length bs) c bs ltac:(lia)) as (c' & Hw & Hw'). exists c'.
  split_and!; [done|done|]. by apply write_loop_keeps in Hw.
Qed.

Lemma read_keeps (c : C) n :
  (n <= length (pending c))%nat ->
  exists c', read c n = Some (c', success (take n (pending c))) /\ pending c' = drop n (pending c)
    /\ written c' = written c.
Proof.
  intros Hn. destruct (read_lawful c n Hn) as (c' & Hr & Hp). exists c'. split_and!; [done|done|].
  by apply read_loop_keeps in Hr.
Qed.

Lemma read_short `{!Ends C E} fuel (c : C) n got :
  (length (pending c) < n)%nat -> (n <= fuel)%nat ->
  exists c' e, read_loop fuel c n got = Some (c', failure (IoError e)) /\ pending c' = [] /\ written c' = written c.
Proof.
  revert c n got. induction fuel as [|fuel IH]; intros c n got Hn Hf; [lia|].
  cbn [read_loop]. rewrite decide_False by lia. destruct (decide (pending c = [])) as [Hp|Hp].
  - destruct (readSome_end c n Hp) as (c' & e & Hr & Hp'). rewrite Hr. exists c', e. split_and!; [done|done|].
    by apply readSome_keeps in Hr.
  - destruct (readSome_progress c n Hp ltac:(lia)) as (k & c' & Hk & Hkl & Hr & Hp'). rewrite Hr.
    pose proof (readSome_keeps _ _ _ _ Hr) as Hw. rewrite length_take_le by done.
    rewrite !decide_False by lia.
    destruct (IH c' (n - k)%nat (got ++ take k (pending c))) as (c2 & e & Hl & Hp2 & Hw2);
      [rewrite Hp', length_drop; lia|lia|]. exists c2, e. rewrite Hw2. by split_and!.
Qed.

(** *** Echo *)

Lemma echo_loop_ends `{!Ends C E} close config inf fuel n (c : C) :
  (0 < Echo.max_recv_size config)%nat -> (length (pending c) < fuel)%nat ->
  exists c' k, Echo.doRead_loop close fuel config inf n c = Some (Done (close c'))
    /\ (k <= length (pending c))%nat /\ written c' = written c ++ take k (pending c) /\ pending c' = drop k (pending c)
    /\ (if inf then k = length (pending c) else (Nat.min n (length (pending c)) <= k <= n * Echo.max_recv_size config)%nat).
Proof.
  intros Hm Hf. revert n c Hf. induction fuel as [|fuel IH]; intros n c Hf; [lia|]. cbn [Echo.doRead_loop].
  destruct (negb _) eqn:Hgo.
  - destruct inf; [done|]. cbn [orb] in Hgo. rewrite negb_involutive in Hgo. apply Nat.eqb_eq in Hgo as ->.
    exists c, 0%nat. rewrite app_nil_r. split_and!; try done; cbn; lia.
  - destruct (decide (pending c = [])) as [Hp|Hp].
    + destruct (readSome_end c (Echo.max_recv_size config) Hp) as (c' & e & Hr & Hp'). rewrite Hr.
      exists c', 0%nat. rewrite Hp, (readSome_keeps _ _ _ _ Hr), app_nil_r. cbn [length drop].
      split_and!; (done || lia || (destruct inf; done || lia)).
    + destruct (readSome_progress c _ Hp Hm) as (k & c' & Hk & Hkl & Hr & Hp'). rewrite Hr.
      pose proof (readSome_keeps _ _ _ _ Hr) as Hw.
      destruct (write_lawful c' (take k (pending c))) as (c2 & -> & Hw2 & Hp2).
      destruct (IH (if inf then n else n - 1)%nat c2) as (c3 & j & -> & Hj & Hw3 & Hp3 & Hbound);
        [rewrite Hp2, Hp', length_drop; lia|].
      rewrite Hp2, Hp', length_drop in Hj. exists c3, (k + j)%nat. split_and!; [done|lia| | |].
      * rewrite Hw3, Hw2, Hw, Hp2, Hp', <- app_assoc. f_equal. apply take_take_drop.
      * rewrite Hp3, Hp2, Hp', drop_drop. done.
      * rewrite Hp2, Hp', length_drop in Hbound. destruct inf; [lia|].
        cbn [orb] in Hgo. rewrite negb_involutive in Hgo. apply Nat.eqb_neq in Hgo.
        destruct n as [|n]; [done|]. replace (S n - 1)%nat with n in Hbound by lia. lia.
Qed.

(** The echo server returns what it receives.  On a stream whose other end
    closes, [doRead] ends within one iteration more than there are bytes, closes
    the stream and throws nothing; what it wrote is exactly what it read, in order.
    Without a limit of repeats it echoes everything; with [n] repeats it echoes at
    least [n] bytes, if so many come, and at most [n] full buffers. *)
Theorem echo_exact `{!Ends C E} close config fuel (c : C) :
  (0 < Echo.max_recv_size config)%nat -> (length (pending c) < fuel)%nat ->
  let n := Echo.max_server_repeats config in
  exists c' k, Echo.doRead close fuel config c = Some (Done (close c'))
    /\ (k <= length (pending c))%nat /\ written c' = written c ++ take k (pending c) /\ pending c' = drop k (pending c)
    /\ (n = Echo.kInfiniteNumberOfRepeats -> k = length (pending c))
    /\ (n <> Echo.kInfiniteNumberOfRepeats ->
          Nat.min n (length (pending c)) <= k <= n * Echo.max_recv_size config)%nat.
Proof.
  intros Hm Hf n. unfold Echo.doRead. fold n.
  destruct (echo_loop_ends close config (n =? 0)%nat fuel n c Hm Hf) as (c' & k & Hr & Hk & Hw & Hp & Hb).
  exists c', k. split_and!; try done; unfold Echo.kInfiniteNumberOfRepeats; destruct (Nat.eqb_spec n 0); (done || lia).
Qed.

(** *** Ping *)

Lemma ping_handler_ends `{!Ends C E} fuel (c : C) :
  (length (pending c) / 32 < fuel)%nat ->
  exists c', Ping.handle fuel c = Some (Done c') /\ pending c' = []
    /\ written c' = written c ++ take (32 * (length (pending c) / 32)) (pending c).
Proof.
  revert c. induction fuel as [|fuel IH]; intros c Hf; [lia|]. cbn [Ping.handle]. unfold Ping.kPingSize.
  destruct (decide (length (pending c) < 32)%nat) as [Hl|Hl].
  - destruct (read_short 32 c 32 [] Hl ltac:(lia)) as (c' & e & Hr & Hp & Hw). unfold read. rewrite Hr.
    exists c'. split_and!; [done|done|]. rewrite Nat.div_small, app_nil_r by done. done.
  - destruct (read_keeps c 32 ltac:(lia)) as (c' & -> & Hp & Hw).
    destruct (write_lawful c' (take 32 (pending c))) as (c2 & -> & Hw2 & Hp2).
    assert (length (pending c) / 32 = S (length (pending c2) / 32))%nat as Hd.
    { rewrite Hp2, Hp, length_drop. zify. Z.to_euclidean_division_equations. lia. }
    destruct (IH c2 ltac:(lia)) as (c3 & -> & Hp3 & Hw3). exists c3. split_and!; [done|done|].
    rewrite Hw3, Hw2, Hw, <- app_assoc. f_equal. rewrite Hd, Hp2, Hp, take_take_drop. f_equal. lia.
Qed.

(** A ping is answered, and only its own answer counts.  The server's coroutine
    ends when the stream does and has then sent back every whole message of 32
    bytes, nothing else.  The client sends its message and returns the time between
    the readings, in microseconds, when the 32 bytes that come back are those it
    sent, [INVALID_RESPONSE] when they are others; so a ping against the server
    succeeds. *)
Theorem ping_exact `{!Ends C E} (message : bytes) start end_ (c server : C) fuel :
  length message = Ping.kPingSize -> (length (pending server) / 32 < fuel)%nat ->
  (exists s', Ping.handle fuel server = Some (Done s')
     /\ written s' = written server ++ take (32 * (length (pending server) / 32)) (pending server))
  /\ (forall reply rest, length reply = Ping.kPingSize -> pending c = reply ++ rest ->
      exists c', Ping.ping message start end_ c
                 = Some (c', if decide (reply = message) then success (Z.quot (end_ - start) 1000)
                             else failure Ping.INVALID_RESPONSE)
        /\ written c' = written c ++ message /\ pending c' = rest)
  /\ (forall s', pending server = message -> Ping.handle fuel server = Some (Done s') ->
      pending c = drop (length (written server)) (written s') ->
      exists c', Ping.ping message start end_ c = Some (c', success (Z.quot (end_ - start) 1000))).
Proof.
  intros Hm Hf. destruct (ping_handler_ends fuel server Hf) as (s1 & Hs & _ & Hsw).
  assert (forall reply rest, length reply = Ping.kPingSize -> pending c = reply ++ rest ->
      exists c', Ping.ping message start end_ c
                 = Some (c', if decide (reply = message) then success (Z.quot (end_ - start) 1000)
                             else failure Ping.INVALID_RESPONSE)
        /\ written c' = written c ++ message /\ pending c' = rest) as Hping.
  { intros reply rest Hl Hp. unfold Ping.ping. destruct (write_lawful c message) as (c1 & -> & Hw1 & Hp1).
    rewrite Hp in Hp1. destruct (read_keeps c1 Ping.kPingSize) as (c2 & -> & Hp2 & Hw2);
      [rewrite Hp1, length_app; lia|]. rewrite Hp1, <- Hl, take_app_length. rewrite Hp1, <- Hl, drop_app_length in Hp2.
    exists c2. rewrite Hw2, Hw1. split_and!; [|done|done].
    destruct (decide (reply = message)) as [->|Hne]; [by rewrite bool_decide_false by tauto|by rewrite bool_decide_true]. }
  split; [by exists s1|]. split; [exact Hping|].
  intros s' Hps Hs' Hpc. rewrite Hs in Hs'. injection Hs' as <-.
  rewrite Hsw, drop_app_length, Hps, Hm in Hpc. change (32 * (Ping.kPingSize / 32))%nat with 32%nat in Hpc.
  rewrite take_ge in Hpc by (rewrite Hm; done).
  destruct (Hping message [] Hm ltac:(by rewrite app_nil_r)) as (c' & Hc & _). exists c'. by rewrite decide_True in Hc.
Qed.
End Laws.

(** *** The client's loop *)

Definition count (P : Ping.action -> bool) (l : list Ping.action) : nat := length (List.filter P l).
Definition is_new (a : Ping.action) : bool := match a with Ping.NewStream => true | _ => false end.
Definition is_reset (a : Ping.action) : bool := match a with Ping.Resets _ => true | _ => false end.
Definition one (b : bool) : nat := if b then 1 else 0.
Definition has {A} (o : option A) : bool := match o with Some _ => true | None => false end.

Lemma ping_loop_balance rounds stream acts last over :
  Ping.pingLoop rounds stream = (acts, last, over) ->
  (count is_new acts + one (has stream) = count is_reset acts + one (has last) + one over)%nat
  /\ (over = true -> last = None).
Proof.
  revert stream acts last over. induction rounds as [|[o a] rounds IH]; intros stream acts last over Hr; cbn [Ping.pingLoop] in Hr.
  - injection Hr as <- <- <-. cbn. split; [lia|done].
  - cbn [Ping.opened Ping.answered] in Hr. destruct stream as [s|]; [|destruct o as [s|]].
    all: try (injection Hr as <- <- <-; cbn; split; [lia|done]).
    all: destruct a; match type of Hr with context [Ping.pingLoop ?rs ?x] =>
        destruct (Ping.pingLoop rs x) as [[acts' last'] over'] eqn:Hl end;
      injection Hr as <- <- <-; destruct (IH _ _ _ _ Hl) as [Hc Ho]; (split; [|done]);
      unfold count in *; cbn in *; lia.
Qed.

(** The loop of the client holds at most one stream: it opens the next one only after
    it has reset the one that did not answer, and it stops exactly when a stream
    cannot be opened, holding none. *)
Theorem ping_loop_one_stream rounds :
  let '(acts, last, over) := Ping.pingLoop rounds None in
  count is_new acts = (count is_reset acts + one (has last) + one over)%nat /\ (over = true -> last = None).
Proof.
  destruct (Ping.pingLoop rounds None) as [[acts last] over] eqn:Hr.
  destruct (ping_loop_balance _ _ _ _ _ Hr) as [Hc Ho]. cbn in Hc. split; [lia|done].
Qed.

(** ** A concrete stream *)

Import (hints) Pipe.

#[export] Instance pipe_ends : Ends Pipe.t Chunked.eof.
Proof.
  intros [cs w] n Hp. exists (Pipe.mkPipe [] w), Chunked.Eof. split; [|done].
  unfold readSome, Pipe.pipe_reader. cbn [Pipe.inbound Pipe.outbound]. cbn in Hp.
  assert (Chunked.read_chunks cs n = ([], failure Chunked.Eof)) as ->; [|done].
  induction cs as [|[|b c] cs IH]; [done|by apply IH|done].
Qed.

Lemma echo_exact_witness :
  let c := Pipe.mkPipe [[1; 2; 3]; [4]; [5; 6]] (Chunked.mkSink 0 []) in
  exists c' k, Echo.doRead (fun c => c) 7 (Echo.mkEchoConfig 2 2) c = Some (Done c')
    /\ (k <= 6)%nat /\ written c' = take k [1; 2; 3; 4; 5; 6] /\ pending c' = drop k [1; 2; 3; 4; 5; 6]
    /\ (2%nat = Echo.kInfiniteNumberOfRepeats -> k = 6%nat)
    /\ (2%nat <> Echo.kInfiniteNumberOfRepeats -> Nat.min 2 6 <= k <= 2 * 2)%nat.
Proof.
  intros c. refine (echo_exact (fun c => c) (Echo.mkEchoConfig 2 2) 7 c _ _); [cbn; lia|]. apply Nat.ltb_lt. reflexivity.
Defined.

Lemma ping_exact_witness :
  let message := replicate 32 7 in
  let server := Pipe.hearing message in let c := Pipe.hearing message in
  exists c', Ping.ping message 5000 12000 c = Some (c', success 7).
Proof.
  intros message server c.
  destruct (ping_exact message 5000 12000 c server 2) as (Hs & _ & Hp); [reflexivity|apply Nat.ltb_lt; reflexivity|].
  destruct Hs as (s' & Hs' & Hw). refine (Hp s' _ Hs' _); [reflexivity|]. rewrite Hw. reflexivity.
Defined.
