(* ===== verification/Identify.v ===== *)
(** * The identify protocol

    [protocol/identify/identify.cpp]: a host tells the peers that ask who it is, and
    asks every peer it gets connected to; what a peer answers goes into the
    repositories of Host.v. *)

From S2P Require Import Prelude Varint Stream Multiselect Multihash Base58 Multibase ByteUtil.
From S2P Require Import MultiaddrCodec MultiaddrPlain Multiaddress PeerAddress Keys.
From S2P Require Import AddressRepository PeerRepository ConnectionManager ListenerManager Dialer Host Protocols.
Import Key Marshaller.

(** ** The message *)

(** The fields of [libp2p_identify_pb::Identify] that are used; an absent one reads
    as empty. *)
Record pb_Identify := mkPbIdentify {
  pb_protocolversion : bytes;
  pb_agentversion : bytes;
  pb_publickey : bytes;
  pb_listenaddrs : list bytes;
  pb_observedaddr : bytes;
  pb_protocols : list ProtocolName
}.

(** [protobufEncode], where [None] is the exception of a message over 2 GB, and
    [ParseFromArray]. *)
Class IdentifyProto := {
  serialize_identify : pb_Identify -> option bytes;
  parse_identify : bytes -> option pb_Identify
}.
Class IdentifyProtoLaws `{IdentifyProto} :=
  parse_serialize m b : serialize_identify m = Some b -> parse_identify b = Some m.

Record IdentifyInfo := mkIdentifyInfo {
  peer_id : PeerId;
  protocol_version : bytes;
  agent_version : bytes;
  listen_addresses : list Multiaddress;
  observed_address : Multiaddress;
  protocols : list ProtocolName
}.
Record IdentifyConfig := mkIdentifyConfig {
  config_protocol_version : bytes;
  config_agent_version : bytes;
  config_listen_addresses : list Multiaddress
}.
Definition identify_ids : list ProtocolName := [str "/ipfs/id/1.0.0"].
(** [ttl::kRecentlyConnected], in milliseconds. *)
Definition kRecentlyConnected : Z := 10 * 60 * 1000.

Section Identify.
Context {Conn Transport E : Type} `{EqDecision Conn, !Countable Conn} `{!Traversal Conn}.
Context `{!Network Multiaddress Conn Transport E} `{Ext} `{Protobuf} `{IdentifyProto}.
Context {C : Type} `{!Reader C E, !Writer C E}.
Abbreviation host := (BasicHost (Conn := Conn) (Transport := Transport) (E := E)).

(** ** Answering *)

(** [None] is an exception of [value()]: the key cannot be marshalled, or the
    stream's remote address is unknown. *)
Definition identify_message (config_ : IdentifyConfig) (key : PublicKey) (remote : outcome E Multiaddress)
    (supported : list ProtocolName) : option pb_Identify :=
  match marshal key, remote with
  | success k, success a =>
      Some (mkPbIdentify (config_protocol_version config_) (config_agent_version config_) k
              (map bytes_ (config_listen_addresses config_)) (bytes_ a) supported)
  | _, _ => None
  end.

(** The stream is reset whatever became of the writing. *)
Definition identify_handle (config_ : IdentifyConfig) (key : PublicKey) (remote : outcome E Multiaddress)
    (h : host) (stream : C) : option (ended C) :=
  pb_message ← identify_message config_ key remote (host_getSupportedProtocols h);
  encoded ← serialize_identify pb_message;
  match writeVarintMessage (E := E) stream encoded with
  | None => None
  | Some (stream, failure LogicError) => Some (Threw stream)
  | Some (stream, _) => Some (Done stream)
  end.

(** ** Asking *)

Fixpoint create_all (l : list bytes) : option (outcome Error (list Multiaddress)) :=
  match l with
  | [] => Some (success [])
  | b :: l =>
      match create_bytes b with
      | None => None
      | Some (failure e) => Some (failure e)
      | Some (success a) =>
          match create_all l with
          | Some (success as_) => Some (success (a :: as_))
          | r => r
          end
      end
  end.

(** The message made of what was read, or nothing. *)
Definition read_info (p : PeerId) (encoded : bytes) : option (option IdentifyInfo) :=
  match parse_identify encoded with
  | None => Some None
  | Some pb_message =>
      match create_bytes (pb_observedaddr pb_message) with
      | None => None
      | Some (failure _) => Some None
      | Some (success observed) =>
          match create_all (pb_listenaddrs pb_message) with
          | None => None
          | Some (failure _) => Some None
          | Some (success addresses) =>
              Some (Some (mkIdentifyInfo p (pb_protocolversion pb_message) (pb_agentversion pb_message)
                            addresses observed (pb_protocols pb_message)))
          end
      end
  end.

(** What the repositories are told; the clock is read twice. *)
Definition store_info (message : IdentifyInfo) (now1 now2 : Z) (h : host) : host :=
  let p := peer_id message in
  let d := dialer_ h in
  mkHost (own_id h)
    (set_addr_repo (upsertAddresses p (listen_addresses message) kRecentlyConnected now1 (addr_repo_ d)).1 d)
    (PeerRepository.Protocols.addProtocols p (protocols message) (proto_repo h))
    (UserAgents.updateUserAgent p (agent_version message) kRecentlyConnected now2 (uagent_repo h))
    (client_version h).

(** The coroutine from the stream on: how it ended, the host, and the event it
    published. *)
Definition recv_from (p : PeerId) (now1 now2 : Z) (stream : C) (h : host) :
    option (ended C * host * option IdentifyInfo) :=
  match readVarintMessage stream default_max_size with
  | None => None
  | Some (stream, failure LogicError) => Some (Threw stream, h, None)
  | Some (stream, failure _) => Some (Done stream, h, None)
  | Some (stream, success encoded) =>
      match read_info p encoded with
      | None => None
      | Some None => Some (Done stream, h, None)
      | Some (Some message) => Some (Done stream, store_info message now1 now2 h, Some message)
      end
  end.

(** [recv_identify]; [opened] is what [newStream()] of the connection returns. *)
Definition recv_identify (fuel : nat) (connection : Conn) (opened : outcome E C) (now1 now2 : Z) (h : host) :
    option (option (ended C) * host * option IdentifyInfo) :=
  match newStream fuel opened identify_ids with
  | None => None
  | Some (failure _) => Some (None, h, None)
  | Some (success (stream, _)) =>
      '(e, h, i) ← recv_from (remotePeer connection) now1 now2 stream h;
      Some (Some e, h, i)
  end.
End Identify.

(** ** Proofs *)

Section Laws.
Context {Conn Transport E : Type} `{EqDecision Conn, !Countable Conn} `{!Traversal Conn}.
Context `{!Network Multiaddress Conn Transport E} `{ExtLaws} `{Protobuf} `{IdentifyProto}.
Context {C : Type} `{!Reader C E, !Writer C E}.
Abbreviation host := (BasicHost (Conn := Conn) (Transport := Transport) (E := E)).

Lemma create_bytes_total b : is_Some (create_bytes b).
Proof.
  unfold create_bytes, bytesToMultiaddrString. destruct (print_loop_total (length b) b [] ltac:(lia)) as [[s|e] ->]; by eexists.
Qed.

Lemma create_all_total l : is_Some (create_all l).
Proof.
  induction l as [|b l [[as_|e] IH]]; cbn [create_all]; [by eexists|..];
    destruct (create_bytes_total b) as [[a|e'] ->]; rewrite ?IH; by eexists.
Qed.

Lemma read_info_total p encoded :
  exists r, read_info p encoded = Some r /\ match r with Some message => peer_id message = p | None => True end.
Proof.
  unfold read_info. destruct (parse_identify encoded) as [m|]; [|by exists None].
  destruct (create_bytes_total (pb_observedaddr m)) as [[a|e] ->]; [|by exists None].
  destruct (create_all_total (pb_listenaddrs m)) as [[l|e] ->]; [|by exists None].
  eexists. split; [reflexivity|done].
Qed.

Lemma create_bytes_of cs : Forall good cs -> create_bytes (addr_bytes cs) = Some (success (address_of cs)).
Proof.
  intros Hcs. unfold create_bytes, address_of.
  rewrite print_components by (eapply Forall_impl; [exact Hcs|]; by intros ? []). by rewrite all_printable.
Qed.

Lemma create_all_of css :
  Forall (Forall good) css -> create_all (map bytes_ (map address_of css)) = Some (success (map address_of css)).
Proof.
  induction 1 as [|cs css Hcs _ IH]; [done|]. cbn [map create_all address_of bytes_]. by rewrite create_bytes_of, IH.
Qed.

(** The entry of another peer in the address repository is not touched. *)
Lemma upsert_other p q ma ttl now (r : AddressRepo (Multiaddress := Multiaddress)) :
  q <> p -> db_ (upsertAddresses p ma ttl now r).1 !! q = db_ r !! q.
Proof.
  intros Hq. unfold upsertAddresses, add_all. destruct (foldl _ _ ma) as [[a g] b]. cbn. by rewrite lookup_insert_ne.
Qed.

(** What a peer says of itself only concerns itself.  Whatever the stream does
    and whatever bytes it delivers, the coroutine ends; unless it publishes an
    identification the host is unchanged, in particular when the message does not
    parse or one of its addresses is not valid; and if it does, the identification
    and all changes are of the connection's authenticated peer: the entries of every
    other peer, the connections, listeners and dials stay as they are. *)
Theorem identify_only_concerns_sender (p : PeerId) now1 now2 (stream : C) (h : host) :
  exists e h' i, recv_from p now1 now2 stream h = Some (e, h', i)
    /\ (i = None -> h' = h)
    /\ (forall message, i = Some message -> peer_id message = p /\ h' = store_info message now1 now2 h)
    /\ listener_ (dialer_ h') = listener_ (dialer_ h)
    /\ dialing_peers_ (dialer_ h') = dialing_peers_ (dialer_ h)
    /\ forall q, q <> p -> db_ (host_addr_repo h') !! q = db_ (host_addr_repo h) !! q
         /\ proto_repo h' !! q = proto_repo h !! q /\ uagent_repo h' !! q = uagent_repo h !! q.
Proof.
  unfold recv_from. pose proof (readVarintMessage_returns stream default_max_size) as Hr.
  destruct (readVarintMessage stream default_max_size) as [[s [encoded|e]]|]; [|clear Hr|done].
  - destruct (read_info_total p encoded) as ([message|] & -> & Hp); [|by eexists _, h, None; split_and!].
    eexists _, (store_info message now1 now2 h), (Some message). rewrite <- Hp.
    split; [reflexivity|]. split_and!; try done; [by intros ? [= <-]|].
    intros q Hq. unfold store_info, host_addr_repo. cbn. split_and!; [by apply upsert_other| |].
    + unfold PeerRepository.Protocols.addProtocols. cbv zeta. by rewrite lookup_insert_ne.
    + unfold UserAgents.updateUserAgent. by rewrite lookup_insert_ne.
  - destruct e; eexists _, h, None; by split_and!.
Qed.

(** What an identification leaves in the repositories: the peer's entries hold what
    they held and what the message says, and nothing else changes.  Every address of
    the message is known, for ten minutes from the first reading of the clock, and new
    ones are tried after the old ones; the protocols are added to the known ones; the
    agent replaces the old one, for ten minutes from the second reading. *)
Record recorded (message : IdentifyInfo) (now1 now2 : Z) (h h' : host) : Prop := {
  recorded_addresses :
    exists a, db_ (host_addr_repo h') !! peer_id message = Some a
      /\ (forall m, expires a !! m
           = if decide (m ∈ listen_addresses message) then Some (calculateExpirationTime now1 kRecentlyConnected)
             else expires (default no_addresses (db_ (host_addr_repo h) !! peer_id message)) !! m)
      /\ exists fresh,
           getAddresses (peer_id message) (host_addr_repo h')
           = success (order (default no_addresses (db_ (host_addr_repo h) !! peer_id message)) ++ fresh)
           /\ NoDup fresh
           /\ forall m, m ∈ fresh <-> m ∈ listen_addresses message
                /\ expires (default no_addresses (db_ (host_addr_repo h) !! peer_id message)) !! m = None;
  recorded_protocols :
    exists ps, PeerRepository.Protocols.getProtocols (peer_id message) (proto_repo h') = success ps
      /\ forall m, m ∈ ps <-> m ∈ protocols message
           \/ m ∈ PeerRepository.Protocols.getOrAllocateProtocolSet (peer_id message) (proto_repo h);
  recorded_agent :
    uagent_repo h' !! peer_id message
    = Some (agent_version message, calculateExpirationTime now2 kRecentlyConnected);
  recorded_others : forall q, q <> peer_id message ->
    db_ (host_addr_repo h') !! q = db_ (host_addr_repo h) !! q
    /\ proto_repo h' !! q = proto_repo h !! q /\ uagent_repo h' !! q = uagent_repo h !! q;
  recorded_rest :
    own_id h' = own_id h /\ client_version h' = client_version h
    /\ host_listener h' = host_listener h /\ dialing_peers_ (dialer_ h') = dialing_peers_ (dialer_ h)
}.

Lemma upsert_loop p e ma a g b :
  let r := (foldl (add_one (Multiaddress := Multiaddress) true p e) (a, g, b) ma).1.1 in
  (forall m, expires r !! m = if decide (m ∈ ma) then Some e else expires a !! m)
  /\ exists fresh, order r = order a ++ fresh /\ NoDup fresh
       /\ forall m, m ∈ fresh <-> m ∈ ma /\ expires a !! m = None.
Proof.
  revert a g b. induction ma as [|x ma IH]; intros a g b; cbn [foldl].
  - split; [done|]. exists []. rewrite app_nil_r. split_and!; [done|constructor|]. set_solver.
  - unfold add_one at 2 4. destruct (expires a !! x) as [t|] eqn:Hx.
    + destruct (IH (mkAddrPeer (<[x := e]> (expires a)) (order a)) g b) as (He & fresh & Ho & Hnd & Hf).
      cbn [expires order] in *. split.
      * intros m. rewrite He, lookup_insert. repeat case_decide; subst; set_solver.
      * exists fresh. split_and!; [done..|]. intros m. rewrite Hf, lookup_insert.
        case_decide; subst; [rewrite Hx|]; set_solver.
    + destruct (IH (mkAddrPeer (<[x := e]> (expires a)) (order a ++ [x])) (g ++ [signal_added_ p x]) true)
        as (He & fresh & Ho & Hnd & Hf). cbn [expires order] in *. split.
      * intros m. rewrite He, lookup_insert. repeat case_decide; subst; set_solver.
      * exists (x :: fresh). split_and!; [by rewrite Ho, <- app_assoc| |].
        -- constructor; [|done]. rewrite Hf, lookup_insert_eq. naive_solver.
        -- intros m. rewrite !elem_of_cons, Hf, lookup_insert. case_decide; subst; naive_solver.
Qed.

Lemma insert_all_elem (ms s : list ProtocolName) m :
  m ∈ foldl (fun s m => StdSet.insert m s) s ms <-> m ∈ ms \/ m ∈ s.
Proof.
  revert s. induction ms as [|x ms IH]; intros s; cbn [foldl]; [set_solver|].
  rewrite IH, StdSet.elem_of_insert. set_solver.
Qed.

Lemma store_info_recorded message now1 now2 (h : host) :
  recorded message now1 now2 h (store_info message now1 now2 h).
Proof.
  split.
  - pose proof (upsert_loop (peer_id message) (calculateExpirationTime now1 kRecentlyConnected)
      (listen_addresses message) (default no_addresses (db_ (host_addr_repo h) !! peer_id message)) [] false)
      as (He & fresh & Ho & Hnd & Hf).
    unfold store_info, host_addr_repo, upsertAddresses, add_all, getAddresses in *. cbn.
    destruct (foldl _ _ (listen_addresses message)) as [[a g] b]. cbn in *. rewrite lookup_insert_eq.
    exists a. split_and!; [done|exact He|]. exists fresh. split_and!; [by f_equal|done..].
  - unfold store_info, PeerRepository.Protocols.getProtocols, PeerRepository.Protocols.getProtocolSet. cbn.
    unfold PeerRepository.Protocols.addProtocols. cbv zeta. rewrite lookup_insert_eq.
    eexists. split; [reflexivity|]. intros m. apply insert_all_elem.
  - unfold store_info, UserAgents.updateUserAgent. cbn. by rewrite lookup_insert_eq.
  - intros q Hq. unfold store_info, host_addr_repo. cbn. split_and!; [by apply upsert_other| |].
    + unfold PeerRepository.Protocols.addProtocols. cbv zeta. by rewrite lookup_insert_ne.
    + unfold UserAgents.updateUserAgent. by rewrite lookup_insert_ne.
  - done.
Qed.

(** C29: a host is known as it presents itself.  When a host answers on a stream and
    the bytes it wrote are what the asking host reads, the latter publishes exactly
    the configured versions, the listen addresses, the address the host observed and
    its supported protocols, under the peer's id, and the repositories hold them:
    every listen address until its time, the new ones after those already known, the
    protocols besides the known ones, and the agent; no entry of another peer, no
    connection, listener or dial changes, and the answer is read to its last byte. *)
Theorem identify_roundtrip `{!IdentifyProtoLaws, !WriterLaws C E, !ReaderLaws C E}
    (version agent : bytes) (css : list (list component)) (observed : list component) (key : PublicKey) (server client : host)
    (p : PeerId) now1 now2 (w c : C) pb encoded rest :
  let config := mkIdentifyConfig version agent (map address_of css) in
  Forall (Forall good) css -> Forall good observed ->
  identify_message config key (success (address_of observed) : outcome E _) (host_getSupportedProtocols server) = Some pb ->
  serialize_identify pb = Some encoded -> Z.of_nat (length encoded) <= default_max_size ->
  exists w' frame, identify_handle config key (success (address_of observed)) server w = Some (Done w')
    /\ written w' = written w ++ frame
    /\ (pending c = frame ++ rest ->
        let message := mkIdentifyInfo p version agent (map address_of css) (address_of observed)
                         (host_getSupportedProtocols server) in
        exists c' client', recv_from p now1 now2 c client = Some (Done c', client', Some message)
          /\ recorded message now1 now2 client client' /\ pending c' = rest).
Proof.
  intros config Hcss Hobs Hm He Hlen.
  destruct (frame_roundtrip c w encoded default_max_size rest) as (w' & frame & Hw & Hwr & Hread);
    [change default_max_size with 33554432 in Hlen; lia|done|].
  exists w', frame. split_and!; [|done|].
  - unfold identify_handle. rewrite Hm. cbn [mbind option_bind]. rewrite He. cbn [mbind option_bind]. by rewrite Hw.
  - intros Hp message. destruct (Hread Hp) as (c' & Hc & Hp'). exists c', (store_info message now1 now2 client).
    split_and!; [|apply store_info_recorded|done].
    unfold recv_from. rewrite Hc. unfold read_info. rewrite (parse_serialize pb encoded He).
    unfold identify_message in Hm. destruct (marshal key) as [k|]; [|done]. injection Hm as <-.
    cbn [pb_observedaddr pb_listenaddrs config_listen_addresses config].
    unfold config. cbn [config_listen_addresses]. by rewrite (create_bytes_of observed Hobs), (create_all_of css Hcss).
Qed.
End Laws.

(** ** Concrete instances *)
Module ToyIdentify.
Definition put_all (l : list bytes) : bytes := concat (map (fun b => Z.of_nat (length b) :: b) l).
Fixpoint get_all (fuel : nat) (b : bytes) : list bytes :=
  match fuel, b with
  | S fuel, n :: b => take (Z.to_nat n) b :: get_all fuel (drop (Z.to_nat n) b)
  | _, _ => []
  end.

Lemma get_put l fuel : (length l <= fuel)%nat -> get_all fuel (put_all l) = l.
Proof.
  revert fuel. induction l as [|b l IH]; intros fuel Hf; [by destruct fuel|].
  destruct fuel as [|fuel]; [cbn in Hf; lia|]. unfold put_all. cbn [map concat app get_all].
  rewrite Nat2Z.id, take_app_length, drop_app_length. f_equal. apply IH. cbn in Hf. lia.
Qed.

(** A list of strings: the four fields, the number of addresses, the rest. *)
Definition to_list (m : pb_Identify) : list bytes :=
  [pb_protocolversion m; pb_agentversion m; pb_publickey m; pb_observedaddr m; [Z.of_nat (length (pb_listenaddrs m))]]
  ++ pb_listenaddrs m ++ pb_protocols m.
Definition of_list (l : list bytes) : option pb_Identify :=
  match l with
  | v :: a :: k :: o :: [n] :: l =>
      Some (mkPbIdentify v a k (take (Z.to_nat n) l) o (drop (Z.to_nat n) l))
  | _ => None
  end.
#[export] Instance toy_identify_proto : IdentifyProto := {|
  serialize_identify m := Some (put_all (to_list m));
  parse_identify b := of_list (get_all (length b) b)
|}.

Lemma put_all_length l : (length l <= length (put_all l))%nat.
Proof. induction l as [|b l IH]; [done|]. unfold put_all in *. cbn. rewrite length_app. lia. Qed.

#[export] Instance toy_identify_laws : IdentifyProtoLaws.
Proof.
  intros m b [= <-]. cbn [parse_identify toy_identify_proto]. rewrite get_put by apply put_all_length.
  unfold to_list. cbn [app of_list]. rewrite Nat2Z.id, take_app_length, drop_app_length. by destruct m.
Qed.
End ToyIdentify.
Import (hints) ConnectionManager.Plain MultiaddrPlain.Plain ToyHost ToyIdentify Keys.Toy Pipe.

Definition toy_config : IdentifyConfig := mkIdentifyConfig (str "v") (str "a") [address_of sample].
Definition toy_stream : Pipe.t := Pipe.mkPipe [] (Chunked.mkSink 3 []).
Definition toy_pb : pb_Identify :=
  mkPbIdentify (str "v") (str "a") (serialize_key 1 [1; 2]) [bytes_ (address_of sample)] (bytes_ (address_of sample))
    (host_getSupportedProtocols ToyHost.toy_host).
(** What the host writes in answer. *)
Definition toy_frame : bytes :=
  match identify_handle toy_config (mkKey Ed25519 [1; 2]) (success (address_of sample)) ToyHost.toy_host toy_stream with
  | Some (Done w) => written w
  | _ => []
  end.

Lemma hearing_pending bs : pending (Pipe.hearing bs) = bs.
Proof. induction bs as [|b bs IH]; [done|]. cbn in *. by rewrite IH. Qed.

Lemma identify_roundtrip_witness :
  let message := mkIdentifyInfo [1] (str "v") (str "a") [address_of sample] (address_of sample)
                   (host_getSupportedProtocols ToyHost.toy_host) in
  exists c' h', recv_from [1] 0 0 (Pipe.hearing toy_frame) ToyHost.toy_host = Some (Done c', h', Some message)
    /\ recorded message 0 0 ToyHost.toy_host h' /\ pending c' = [].
Proof.
  intros message.
  destruct (identify_roundtrip (str "v") (str "a") [sample] sample (mkKey Ed25519 [1; 2]) ToyHost.toy_host ToyHost.toy_host
            [1] 0 0 toy_stream (Pipe.hearing toy_frame) toy_pb (ToyIdentify.put_all (ToyIdentify.to_list toy_pb)) []
            (proj2 (Forall_singleton _ _) (proj1 sample_good)) (proj1 sample_good))
    as (w' & frame & Hh & Hw & Hr); [reflexivity|reflexivity|apply Z.leb_le; vm_compute; reflexivity|].
  apply Hr. rewrite hearing_pending, app_nil_r. unfold toy_frame.
  rewrite (Hh : identify_handle toy_config _ _ _ _ = _). exact Hw.
Defined.

Lemma identify_only_concerns_sender_witness :
  exists e h' i, recv_from [1] 0 0 (Pipe.hearing [1; 7]) ToyHost.toy_host = Some (e, h', i)
    /\ (i = None -> h' = ToyHost.toy_host).
Proof.
  destruct (identify_only_concerns_sender [1] 0 0 (Pipe.hearing [1; 7]) ToyHost.toy_host) as (e & h' & i & Hr & Hn & _).
  exists e, h', i. split; [exact Hr|exact Hn].
Defined.
