(* ===== verification/TimeCache.v ===== *)
(** * Time-bounded caches of the gossip protocol

    [include/libp2p/protocol/gossip/time_cache.hpp]: [TimeCache] (a map whose
    entries expire a fixed time after insertion), [DuplicateCache] (duplicate
    suppression), [IDontWantCache] (bounded set) and [GossipPromises].

    Time points and durations are integers of the clock's resolution.  A
    default argument [Clock::now()] is an explicit argument; an iterator into
    the [unordered_map] kept in [expirations_] is the key it points to. *)

From Stdlib Require Import Sorted.
From S2P Require Import Prelude.

(** ** TimeCache *)

Module TimeCache.
Section Model.
Context {K : Type} `{Countable K} {V : Type}.

Record t := mk {
  ttl_ : Z;
  map_ : gmap K V;
  expirations_ : list (Z * K)
}.

Definition make (ttl : Z) : t := mk ttl ∅ [].

Definition size (c : t) : nat := base.size (map_ c).

Definition contains (c : t) (key : K) : bool := bool_decide (is_Some (map_ c !! key)).

Fixpoint clear_loop (now : Z) (m : gmap K V) (exps : list (Z * K)) :
    gmap K V * list (Z * K) :=
  match exps with
  | (time, key) :: rest =>
      if time <=? now then clear_loop now (delete key m) rest else (m, exps)
  | [] => (m, [])
  end.

Definition clearExpired (now : Z) (c : t) : t :=
  let '(m, exps) := clear_loop now (map_ c) (expirations_ c) in
  mk (ttl_ c) m exps.

(** [getOrDefault(key, now)]: the reference it returns is the entry of [key] in
    the new map; [dflt] is [V()]. *)
Definition getOrDefault (dflt : V) (key : K) (now : Z) (c : t) : t * V :=
  let c := clearExpired now c in
  match map_ c !! key with
  | Some v => (c, v)
  | None => (mk (ttl_ c) (<[key := dflt]> (map_ c))
                (expirations_ c ++ [(now + ttl_ c, key)]), dflt)
  end.

(** Assignment through the returned reference. *)
Definition assign (key : K) (v : V) (c : t) : t :=
  mk (ttl_ c) (<[key := v]> (map_ c)) (expirations_ c).

(** [popFront] throws [std::logic_error] on an empty cache. *)
Definition popFront (c : t) : option t :=
  match expirations_ c with
  | [] => None
  | (_, key) :: rest => Some (mk (ttl_ c) (delete key (map_ c)) rest)
  end.

(** Every entry has exactly one expiration: the stored iterators are valid. *)
Record ok (c : t) : Prop := {
  ok_nodup : NoDup (expirations_ c).*2;
  ok_dom : forall k, is_Some (map_ c !! k) <-> k ∈ (expirations_ c).*2
}.

(** Expirations are queued in order, none later than [last + ttl_], where [last]
    is the latest time the cache was used at. *)
Record timed (last : Z) (c : t) : Prop := {
  timed_sorted : StronglySorted (fun a b => a.1 <= b.1) (expirations_ c);
  timed_bound : Forall (fun a => a.1 <= last + ttl_ c) (expirations_ c)
}.

Lemma make_ok ttl : ok (make ttl).
Proof. split; simpl; [constructor|]. intros k. rewrite lookup_empty, elem_of_nil. split; by intros []. Qed.

Lemma make_timed ttl last : timed last (make ttl).
Proof. split; constructor. Qed.

Lemma timed_mono a b c : a <= b -> timed a c -> timed b c.
Proof.
  intros Hab [Hs Hb]. split; [done|]. eapply Forall_impl; [done|]. simpl. lia.
Qed.

Lemma ok_cons time k rest ttl (m : gmap K V) :
  ok (mk ttl m ((time, k) :: rest)) -> ok (mk ttl (delete k m) rest).
Proof.
  intros [Hnd Hd]. simpl in *. apply NoDup_cons in Hnd as [Hk Hnd]. split; simpl; [done|].
  intros k'. rewrite lookup_delete. case_decide; subst.
  - split; [by intros []|done].
  - rewrite Hd, elem_of_cons. naive_solver.
Qed.

(** What [clearExpired] does: on an ordered queue it removes exactly the
    entries whose time has come, and keeps the rest with their values. *)
Lemma clear_loop_spec now ttl m exps m' exps' :
  ok (mk ttl m exps) -> StronglySorted (fun a b => a.1 <= b.1) exps ->
  clear_loop now m exps = (m', exps') ->
  ok (mk ttl m' exps') /\ (exists dead, exps = dead ++ exps' /\ Forall (fun a => a.1 <= now) dead)
  /\ Forall (fun a => now < a.1) exps'
  /\ (forall k, k ∈ exps'.*2 -> m' !! k = m !! k).
Proof.
  revert m. induction exps as [|[time k] rest IH]; intros m Hok Hs Hc; simplify_eq/=.
  { split_and!; [done| |constructor|done]. by exists []. }
  inversion_clear Hs as [|?? Hrest Hall].
  destruct (time <=? now) eqn:E; reflect_bools; simplify_eq.
  - destruct (IH (delete k m)) as (Hok' & (dead & -> & Hdead) & Hlive & Hkeep); [|done|done|].
    { by eapply ok_cons. }
    split_and!; [done| |done|].
    + exists ((time, k) :: dead). split; [done|]. by constructor.
    + intros k' Hk'. rewrite Hkeep by done. apply lookup_delete_ne. intros <-.
      destruct Hok as [Hnd _]. simpl in Hnd. apply NoDup_cons in Hnd as [Hk _].
      apply Hk. rewrite fmap_app. set_solver.
  - split_and!; [done| | |done].
    + by exists [].
    + constructor; [simpl; lia|]. eapply Forall_impl; [done|]. simpl. lia.
Qed.

Lemma clearExpired_ok now c :
  ok c -> timed now c ->
  let c' := clearExpired now c in
  ok c' /\ timed now c' /\ ttl_ c' = ttl_ c
  /\ (exists dead, expirations_ c = dead ++ expirations_ c'
        /\ Forall (fun a => a.1 <= now) dead)
  /\ Forall (fun a => now < a.1) (expirations_ c')
  /\ (forall k, k ∈ (expirations_ c').*2 -> map_ c' !! k = map_ c !! k).
Proof.
  intros Hok [Hs Hb]. unfold clearExpired.
  destruct (clear_loop now (map_ c) (expirations_ c)) as [m' exps'] eqn:E.
  destruct c as [ttl m exps]; cbn [ttl_ map_ expirations_] in *.
  destruct (clear_loop_spec now ttl m exps m' exps' Hok Hs E) as (Hok' & (dead & -> & Hd) & Hl & Hk).
  split_and!; [done| |done|by exists dead|done|done].
  apply Forall_app in Hb as [_ Hb]. split; [|done]. simpl. clear -Hs.
  induction dead as [|a dead IH]; [done|]. inversion_clear Hs. by apply IH.
Qed.

Lemma StronglySorted_snoc {A} (R : A -> A -> Prop) l x :
  StronglySorted R l -> Forall (fun a => R a x) l -> StronglySorted R (l ++ [x]).
Proof.
  induction 1 as [|a l Hl IH Ha]; intros Hx; simpl; [by repeat constructor|].
  inversion_clear Hx. constructor; [by apply IH|]. apply Forall_app. by repeat constructor.
Qed.

Lemma getOrDefault_ok dflt key now c c' v :
  ok c -> timed now c -> getOrDefault dflt key now c = (c', v) ->
  ok c' /\ timed now c' /\ map_ c' !! key = Some v /\ ttl_ c' = ttl_ c
  /\ (if decide (key ∈ (expirations_ (clearExpired now c)).*2)
      then expirations_ c' = expirations_ (clearExpired now c)
      else v = dflt /\
           expirations_ c' = expirations_ (clearExpired now c) ++ [(now + ttl_ c, key)]).
Proof.
  intros Hok Ht Hg. destruct (clearExpired_ok now c Hok Ht) as (Hok1 & Ht1 & Httl & _).
  unfold getOrDefault in Hg. set (c1 := clearExpired now c) in *.
  destruct (map_ c1 !! key) as [v'|] eqn:E; injection Hg as <- <-; cbn [map_ ttl_ expirations_].
  - assert (key ∈ (expirations_ c1).*2) as Hin by (apply ok_dom; eauto).
    rewrite decide_True by done. done.
  - assert (key ∉ (expirations_ c1).*2) as Hin.
    { rewrite <- (ok_dom c1 Hok1). rewrite E. by intros []. }
    rewrite decide_False by done. rewrite Httl. split_and!; try done.
    + destruct Hok1 as [Hnd Hd]. split; simpl; rewrite fmap_app; simpl.
      * apply NoDup_app. split_and!; [done| |apply NoDup_singleton]. set_solver.
      * intros k. rewrite lookup_insert, elem_of_app, list_elem_of_singleton, <- Hd.
        case_decide; subst; [|naive_solver]. split; [by right|by eexists].
    + destruct Ht1 as [Hs Hb]. rewrite Httl in Hb. split; simpl.
      * apply StronglySorted_snoc; [done|]. eapply Forall_impl; [done|]. simpl. lia.
      * apply Forall_app. split; [done|]. constructor; [simpl; lia|done].
    + by rewrite lookup_insert_eq.
Qed.

Lemma size_expirations c : ok c -> size c = length (expirations_ c).
Proof.
  intros [Hnd Hd]. unfold size. rewrite <- (length_fmap snd).
  rewrite <- (size_list_to_set (C := gset K) _ Hnd), <- (size_dom (D := gset K)).
  f_equal. apply set_eq. intros k.
  rewrite elem_of_dom, elem_of_list_to_set. apply Hd.
Qed.

Lemma popFront_ok c :
  ok c -> (0 < size c)%nat ->
  exists c', popFront c = Some c' /\ ok c' /\ size c = S (size c').
Proof.
  intros Hok Hs. pose proof (size_expirations c Hok) as Hsz. unfold popFront.
  destruct c as [ttl m [|[time k] rest]]; simpl in *; [lia|].
  eexists. split; [done|]. pose proof (ok_cons _ _ _ _ _ Hok) as Hok'.
  split; [done|]. rewrite (size_expirations _ Hok'). done.
Qed.
End Model.
Arguments t : clear implicits.
Arguments t _ {_ _} _.
End TimeCache.

(** ** DuplicateCache *)

Module DuplicateCache.
Section Model.
Context {K : Type} `{Countable K}.

Abbreviation t := (TimeCache.t K unit).

Definition contains (c : t) (key : K) : bool := TimeCache.contains c key.

(** [insert(key, now)]; the clock is read a second time ([now']) by the
    defaulted argument of [getOrDefault]. *)
Definition insert (key : K) (now now' : Z) (c : t) : t * bool :=
  let c := TimeCache.clearExpired now c in
  if TimeCache.contains c key then (c, false)
  else ((TimeCache.getOrDefault tt key now' c).1, true).

(** Specification: [acc] remembers until when the last accepted occurrence of a
    key suppresses others. *)
Definition spec_insert (ttl : Z) (key : K) (now now' : Z) (acc : gmap K Z) :
    gmap K Z * bool :=
  match acc !! key with
  | Some e => if now <? e then (acc, false) else (<[key := now' + ttl]> acc, true)
  | None => (<[key := now' + ttl]> acc, true)
  end.

Record related (last : Z) (c : t) (acc : gmap K Z) : Prop := {
  rel_ok : TimeCache.ok c;
  rel_timed : TimeCache.timed last c;
  rel_acc : forall e k, (e, k) ∈ TimeCache.expirations_ c -> acc !! k = Some e;
  rel_live : forall k e, acc !! k = Some e -> last < e -> (e, k) ∈ TimeCache.expirations_ c
}.

Lemma related_clear last now c acc :
  last <= now -> related last c acc -> related now (TimeCache.clearExpired now c) acc
    /\ TimeCache.ttl_ (TimeCache.clearExpired now c) = TimeCache.ttl_ c
    /\ Forall (fun a => now < a.1) (TimeCache.expirations_ (TimeCache.clearExpired now c)).
Proof.
  intros Hn [Hok Ht Ha Hl].
  destruct (TimeCache.clearExpired_ok now c Hok (TimeCache.timed_mono _ _ _ Hn Ht))
    as (Hok1 & Ht1 & Httl & (dead & Hd & Hdead) & Hlive & _).
  rewrite Hd in Ha, Hl. split_and!; [|done|done]. split; [done|done| |].
  - intros e k Hek. apply Ha. set_solver.
  - intros k e Hk He. specialize (Hl k e Hk ltac:(lia)).
    apply elem_of_app in Hl as [Hin|]; [|done].
    rewrite Forall_forall in Hdead. apply Hdead in Hin. simpl in Hin. lia.
Qed.

Lemma contains_related last c acc key :
  related last c acc -> Forall (fun a => last < a.1) (TimeCache.expirations_ c) ->
  TimeCache.contains c key = true <-> exists e, acc !! key = Some e /\ last < e.
Proof.
  intros [Hok Ht Ha Hl] Hlive. unfold TimeCache.contains.
  rewrite bool_decide_eq_true, (TimeCache.ok_dom c Hok), list_elem_of_fmap. split.
  - intros ([e k] & -> & Hin). exists e. split; [by apply Ha|].
    rewrite Forall_forall in Hlive. apply (Hlive _ Hin).
  - intros (e & Hk & He). exists (e, key). split; [done|]. by apply Hl.
Qed.

Lemma insert_refines last key now now' c acc :
  last <= now <= now' -> related last c acc ->
  let '(c', b) := insert key now now' c in
  let '(acc', b') := spec_insert (TimeCache.ttl_ c) key now now' acc in
  b = b' /\ related now' c' acc' /\ TimeCache.ttl_ c' = TimeCache.ttl_ c.
Proof.
  intros [Hn Hn'] Hrel. unfold insert, spec_insert.
  destruct (related_clear last now c acc Hn Hrel) as (Hrel1 & Httl & Hlive).
  pose proof (contains_related now _ acc key Hrel1 Hlive) as Hcon.
  set (c1 := TimeCache.clearExpired now c) in *.
  destruct (TimeCache.contains c1 key) eqn:E.
  - destruct (proj1 Hcon eq_refl) as (e & -> & He).
    replace (now <? e) with true by lia. split_and!; [done| |done].
    destruct Hrel1 as [H1 H2 H3 H4]. split; [done|by eapply TimeCache.timed_mono|done|].
    intros k e' Hk He'. apply H4; [done|lia].
  - assert (match acc !! key with
            | Some e => if now <? e then (acc, false)
                        else (<[key := now' + TimeCache.ttl_ c]> acc, true)
            | None => (<[key := now' + TimeCache.ttl_ c]> acc, true) end
            = (<[key := now' + TimeCache.ttl_ c]> acc, true)) as ->.
    { destruct (acc !! key) as [e|] eqn:Ek; [|done].
      destruct (now <? e) eqn:El; [|done]. reflect_bools.
      discriminate (proj2 Hcon (ex_intro _ e (conj eq_refl El))). }
    assert (key ∉ (TimeCache.expirations_ c1).*2) as Hnot.
    { unfold TimeCache.contains in E. apply bool_decide_eq_false in E.
      by rewrite (TimeCache.ok_dom c1 (rel_ok _ _ _ Hrel1)) in E. }
    destruct (related_clear now now' c1 acc Hn' Hrel1) as ([Hok2 Ht2 Ha2 Hl2] & Httl2 & _).
    destruct (TimeCache.clearExpired_ok now' c1 (rel_ok _ _ _ Hrel1)
      (TimeCache.timed_mono _ _ _ Hn' (rel_timed _ _ _ Hrel1))) as (_ & _ & _ & (dead & Hd & _) & _).
    destruct (TimeCache.getOrDefault tt key now' c1) as [c2 v] eqn:Eg.
    destruct (TimeCache.getOrDefault_ok tt key now' c1 c2 v (rel_ok _ _ _ Hrel1)
      (TimeCache.timed_mono _ _ _ Hn' (rel_timed _ _ _ Hrel1)) Eg) as (Hok3 & Ht3 & _ & Httl3 & Hexp).
    rewrite Hd, fmap_app in Hnot. rewrite decide_False in Hexp by set_solver.
    destruct Hexp as [_ Hexp]. cbn [fst]. split_and!; [done| |by rewrite Httl3].
    split; [done|done| |]; rewrite Hexp, Httl.
    + intros e k. rewrite elem_of_app, list_elem_of_singleton. intros [Hin|]; simplify_eq.
      * rewrite lookup_insert_ne; [by apply Ha2|]. intros <-. apply Hnot.
        apply elem_of_app. right. apply list_elem_of_fmap. by exists (e, key).
      * by rewrite lookup_insert_eq.
    + intros k e. rewrite lookup_insert. case_decide; intros; simplify_eq; [set_solver|].
      apply elem_of_app. left. by apply Hl2.
Qed.

(** A run of calls, each with the times the clock was read at. *)
Fixpoint run (calls : list (K * Z * Z)) (c : t) : list bool :=
  match calls with
  | [] => []
  | (key, now, now') :: calls =>
      let '(c, b) := insert key now now' c in b :: run calls c
  end.

Fixpoint spec_run (ttl : Z) (calls : list (K * Z * Z)) (acc : gmap K Z) : list bool :=
  match calls with
  | [] => []
  | (key, now, now') :: calls =>
      let '(acc, b) := spec_insert ttl key now now' acc in b :: spec_run ttl calls acc
  end.

(** [std::chrono::steady_clock] never goes back. *)
Fixpoint steady (last : Z) (calls : list (K * Z * Z)) : Prop :=
  match calls with
  | [] => True
  | (_, now, now') :: calls => last <= now <= now' /\ steady now' calls
  end.

Lemma run_refines last calls c acc :
  steady last calls -> related last c acc ->
  run calls c = spec_run (TimeCache.ttl_ c) calls acc.
Proof.
  revert last c acc. induction calls as [|[[key now] now'] calls IH]; intros last c acc Hs Hrel;
    [done|]. destruct Hs as [Hn Hs]. cbn [run spec_run].
  pose proof (insert_refines last key now now' c acc Hn Hrel) as Hstep.
  destruct (insert key now now' c) as [c' b].
  destruct (spec_insert _ key now now' acc) as [acc' b'].
  destruct Hstep as (-> & Hrel' & <-). f_equal. by eapply IH.
Qed.
End Model.
End DuplicateCache.

(** ** IDontWantCache *)

Module IDontWantCache.
Section Model.
Context {K : Type} `{Countable K}.

Definition kCapacity : Z := 10000.
(** [std::chrono::seconds{3}] in nanoseconds. *)
Definition kTtl : Z := 3 * 10 ^ 9.

Abbreviation t := (TimeCache.t K unit).

Definition make : t := TimeCache.make kTtl.

Definition clearExpired (now : Z) (c : t) : t := TimeCache.clearExpired now c.
Definition contains (c : t) (key : K) : bool := TimeCache.contains c key.

(** [None]: [popFront] threw. *)
Definition insert (key : K) (now : Z) (c : t) : option t :=
  if TimeCache.contains c key then Some c
  else
    let evicted := if kCapacity <=? Z.of_nat (TimeCache.size c)
                   then TimeCache.popFront c else Some c in
    match evicted with
    | None => None
    | Some c => Some (TimeCache.getOrDefault tt key now c).1
    end.

(** The states a peer's [dont_send_] can be in, with the time of the last call. *)
Inductive reachable : Z -> t -> Prop :=
| reach_new now : reachable now make
| reach_insert last now key c c' :
    reachable last c -> last <= now -> insert key now c = Some c' -> reachable now c'
| reach_clear last now c :
    reachable last c -> last <= now -> reachable now (clearExpired now c).

Record inv (last : Z) (c : t) : Prop := {
  inv_ok : TimeCache.ok c;
  inv_timed : TimeCache.timed last c;
  inv_size : Z.of_nat (TimeCache.size c) <= kCapacity
}.

Lemma clear_inv last now c : last <= now -> inv last c -> inv now (clearExpired now c)
  /\ (TimeCache.size (clearExpired now c) <= TimeCache.size c)%nat.
Proof.
  intros Hn [Hok Ht Hs].
  destruct (TimeCache.clearExpired_ok now c Hok (TimeCache.timed_mono _ _ _ Hn Ht))
    as (Hok1 & Ht1 & _ & (dead & Hd & _) & _).
  assert (TimeCache.size (clearExpired now c) <= TimeCache.size c)%nat as Hsz.
  { unfold clearExpired. rewrite !TimeCache.size_expirations by done. rewrite Hd, length_app. lia. }
  split; [split; [done|done|lia]|done].
Qed.

Lemma getOrDefault_inv last now key c :
  last <= now -> TimeCache.ok c -> TimeCache.timed last c ->
  Z.of_nat (TimeCache.size c) < kCapacity ->
  inv now (TimeCache.getOrDefault tt key now c).1.
Proof.
  intros Hn Hok Ht Hs. pose proof (TimeCache.timed_mono _ _ _ Hn Ht) as Ht'.
  destruct (TimeCache.getOrDefault tt key now c) as [c' v] eqn:E.
  destruct (TimeCache.getOrDefault_ok _ _ _ _ _ _ Hok Ht' E) as (Hok1 & Ht1 & _ & _ & Hexp).
  destruct (clear_inv last now c Hn) as [_ Hsz]; [by split; [..|lia]|].
  destruct (TimeCache.clearExpired_ok now c Hok Ht') as (Hok2 & _).
  split; [done|done|]. cbn [fst].
  rewrite TimeCache.size_expirations in Hsz by done.
  rewrite TimeCache.size_expirations by done. unfold clearExpired in Hsz.
  case_decide; [rewrite Hexp|destruct Hexp as [_ ->]; rewrite length_app]; simpl; lia.
Qed.

Lemma insert_inv last now key c :
  last <= now -> inv last c -> exists c', insert key now c = Some c' /\ inv now c'.
Proof.
  intros Hn [Hok Ht Hs]. unfold insert. case_match.
  { exists c. split; [done|]. split; [done|by eapply TimeCache.timed_mono|done]. }
  destruct (kCapacity <=? _) eqn:E; reflect_bools.
  - destruct (TimeCache.popFront_ok c Hok) as (c1 & Hp & Hok1 & Hs1); [unfold kCapacity in *; lia|].
    rewrite Hp. eexists. split; [done|]. apply getOrDefault_inv with last; [done|done| |lia].
    unfold TimeCache.popFront in Hp.
    destruct (TimeCache.expirations_ c) as [|[time k] rest] eqn:Ee; simplify_eq.
    destruct Ht as [Hso Hb]. rewrite Ee in Hso, Hb. inversion_clear Hso. inversion_clear Hb.
    by split.
  - eexists. split; [done|]. by apply getOrDefault_inv with last.
Qed.

Lemma reachable_inv last c : reachable last c -> inv last c.
Proof.
  induction 1 as [now|last now key c c' _ IH Hn Hi|last now c _ IH Hn].
  - split; [apply TimeCache.make_ok|apply TimeCache.make_timed|]. unfold TimeCache.size. cbn.
    rewrite map_size_empty. unfold kCapacity. lia.
  - destruct (insert_inv last now key c Hn IH) as (c2 & Hi2 & Hinv). by simplify_eq.
  - by apply (clear_inv last).
Qed.
End Model.
End IDontWantCache.

(** ** GossipPromises *)

Module GossipPromises.
Section Model.
Context {I P : Type} `{Countable I} `{Countable P}.

Record t := mk { ttl_ : Z; map_ : gmap I (gmap P Z) }.

Definition make (ttl : Z) : t := mk ttl ∅.

Definition contains (g : t) (message_id : I) : bool :=
  bool_decide (is_Some (map_ g !! message_id)).

(** [map_[message_id].emplace(peer, now + ttl_)]: an earlier promise stays. *)
Definition add (message_id : I) (peer : P) (now : Z) (g : t) : t :=
  let m2 := default ∅ (map_ g !! message_id) in
  let m2 := match m2 !! peer with
            | Some _ => m2
            | None => <[peer := now + ttl_ g]> m2
            end in
  mk (ttl_ g) (<[message_id := m2]> (map_ g)).

Definition remove (message_id : I) (g : t) : t :=
  mk (ttl_ g) (delete message_id (map_ g)).

(** The peers [peers(message_id, f)] visits. *)
Definition peers (message_id : I) (g : t) : list P :=
  match map_ g !! message_id with
  | Some m2 => (map_to_list m2).*1
  | None => []
  end.

(** The inner loop of [clearExpired]: [++result[peer]] for what has expired. *)
Definition count_expired (now : Z) (result : gmap P nat) (m2 : gmap P Z) : gmap P nat :=
  map_fold (fun p time result =>
    if time <? now then <[p := S (default 0%nat (result !! p))]> result else result) result m2.

Definition keep_unexpired (now : Z) (m2 : gmap P Z) : gmap P Z :=
  filter (fun kv => ~ kv.2 < now) m2.

Definition clearExpired (now : Z) (g : t) : t * gmap P nat :=
  let result := map_fold (fun _ m2 result => count_expired now result m2) ∅ (map_ g) in
  let m := filter (fun kv => kv.2 <> ∅) (keep_unexpired now <$> map_ g) in
  (mk (ttl_ g) m, result).

(** [peer] owes [message_id] and is late. *)
Definition is_late (now : Z) (peer : P) (m2 : gmap P Z) : bool :=
  match m2 !! peer with Some time => time <? now | None => false end.

Lemma count_expired_spec now result m2 peer :
  count_expired now result m2 !! peer =
    if is_late now peer m2 then Some (S (default 0%nat (result !! peer))) else result !! peer.
Proof.
  unfold count_expired, is_late.
  apply (map_fold_weak_ind (fun r m2 => r !! peer =
    if match m2 !! peer with Some time => time <? now | None => false end
    then Some (S (default 0%nat (result !! peer))) else result !! peer)).
  - by rewrite lookup_empty.
  - intros p time m r Hm IH. rewrite lookup_insert. destruct (decide (p = peer)) as [->|Hne].
    + rewrite Hm in IH. destruct (time <? now); [|done]. by rewrite lookup_insert_eq, IH.
    + destruct (time <? now); [|done]. by rewrite lookup_insert_ne.
Qed.

Lemma clearExpired_counts now g peer :
  default 0%nat ((clearExpired now g).2 !! peer)
  = size (filter (fun kv => is_late now peer kv.2 = true) (map_ g)).
Proof.
  cbn [clearExpired snd].
  apply (map_fold_weak_ind (fun (r : gmap P nat) m => default 0%nat (r !! peer)
    = size (filter (fun kv : I * gmap P Z => is_late now peer kv.2 = true) m))).
  - rewrite map_filter_empty, map_size_empty. done.
  - intros i m2 m r Hm IH. rewrite count_expired_spec.
    destruct (is_late now peer m2) eqn:E.
    + rewrite map_filter_insert_True by done. rewrite map_size_insert_None; [by rewrite <- IH|].
      apply map_lookup_filter_None. by left.
    + rewrite map_filter_insert_not'; [done|cbn; by rewrite E|]. by rewrite Hm.
Qed.

(** Only peers that owe a message are counted. *)
Lemma clearExpired_owed now g peer :
  is_Some ((clearExpired now g).2 !! peer) ->
  exists id m2, map_ g !! id = Some m2 /\ is_Some (m2 !! peer).
Proof.
  cbn [clearExpired snd].
  apply (map_fold_weak_ind (fun (r : gmap P nat) m => is_Some (r !! peer) ->
    exists id m2, m !! id = Some m2 /\ is_Some (m2 !! peer))).
  - rewrite lookup_empty. by intros [].
  - intros i m2 m r Hm IH. rewrite count_expired_spec. unfold is_late.
    destruct (m2 !! peer) as [time|] eqn:Ep.
    + intros _. exists i, m2. rewrite lookup_insert_eq, Ep. split; [done|by eexists].
    + intros (id & m' & Hid & Hp)%IH. exists id, m'. split; [|done].
      rewrite lookup_insert_ne by congruence. done.
Qed.

Lemma clearExpired_keeps now g message_id peer :
  (map_ (clearExpired now g).1 !! message_id ≫= fun m2 => m2 !! peer)
  = (map_ g !! message_id ≫= fun m2 => m2 !! peer) ≫= fun time =>
      if time <? now then None else Some time.
Proof.
  cbn [clearExpired fst map_]. rewrite map_lookup_filter, lookup_fmap.
  destruct (map_ g !! message_id) as [m2|]; cbn; [|done].
  assert (keep_unexpired now m2 !! peer = m2 !! peer ≫= fun time =>
    if time <? now then None else Some time) as Hk.
  { unfold keep_unexpired. rewrite map_lookup_filter.
    destruct (m2 !! peer) as [time|]; cbn; [|done].
    destruct (time <? now) eqn:E; reflect_bools.
    - by rewrite option_guard_False by (simpl; lia).
    - by rewrite option_guard_True by (simpl; lia). }
  destruct (decide (keep_unexpired now m2 = ∅)) as [E|E].
  - rewrite option_guard_False by naive_solver. rewrite <- Hk, E, lookup_empty. done.
  - rewrite option_guard_True by done. done.
Qed.
End Model.
Arguments t : clear implicits.
Arguments t _ _ {_ _ _ _}.
End GossipPromises.

(** ** Properties *)

(** C38: duplicate suppression is exact.  On a steady clock, for every sequence
    of [DuplicateCache::insert] calls on a new cache, a call is accepted exactly
    when no accepted call for the same key is still within its [ttl]. *)
Theorem duplicate_cache_exact {K : Type} `{Countable K} ttl start (calls : list (K * Z * Z)) :
  DuplicateCache.steady start calls ->
  DuplicateCache.run calls (TimeCache.make ttl) = DuplicateCache.spec_run ttl calls ∅.
Proof.
  intros Hs. apply (DuplicateCache.run_refines start calls (TimeCache.make ttl) ∅ Hs).
  split; [apply TimeCache.make_ok|apply TimeCache.make_timed|by intros ?? ?%elem_of_nil|done].
Qed.

Lemma duplicate_cache_exact_witness :
  DuplicateCache.run [(7, 0, 1); (7, 5, 5); (8, 6, 6); (7, 12, 13)] (TimeCache.make 10)
  = DuplicateCache.spec_run 10 [(7, 0, 1); (7, 5, 5); (8, 6, 6); (7, 12, 13)] ∅.
Proof.
  apply (duplicate_cache_exact 10 0 [(7, 0, 1); (7, 5, 5); (8, 6, 6); (7, 12, 13)]).
  simpl. lia.
Defined.

(** An [IDontWantCache] never holds more than [kCapacity] ids and its
    [insert] never throws, whatever a peer sends: from every reachable state an
    insertion succeeds and leaves the id (fresh or already known) recorded. *)
Theorem idontwant_bounded {K : Type} `{Countable K} last now (key : K) c :
  IDontWantCache.reachable last c -> last <= now ->
  exists c', IDontWantCache.insert key now c = Some c'
    /\ IDontWantCache.contains c' key = true
    /\ Z.of_nat (TimeCache.size c') <= IDontWantCache.kCapacity.
Proof.
  intros Hr Hn. pose proof (IDontWantCache.reachable_inv last c Hr) as Hinv.
  destruct (IDontWantCache.insert_inv last now key c Hn Hinv) as (c' & Hi & [_ _ Hs]).
  exists c'. split_and!; [done| |done]. unfold IDontWantCache.insert in Hi.
  destruct (TimeCache.contains c key) eqn:E; [by simplify_eq|].
  destruct (if IDontWantCache.kCapacity <=? Z.of_nat (TimeCache.size c)
            then TimeCache.popFront c else Some c) as [c1|]; simplify_eq.
  unfold IDontWantCache.contains, TimeCache.contains, TimeCache.getOrDefault.
  apply bool_decide_eq_true. 
  destruct (TimeCache.map_ (TimeCache.clearExpired now c1) !! key) as [v|] eqn:Ek; cbn;
    [rewrite Ek; by eexists|].
  rewrite lookup_insert_eq. by eexists.
Qed.

Lemma idontwant_bounded_witness :
  exists c', IDontWantCache.insert 5 20 (IDontWantCache.clearExpired 10 IDontWantCache.make) = Some c'
    /\ IDontWantCache.contains c' 5 = true
    /\ Z.of_nat (TimeCache.size c') <= IDontWantCache.kCapacity.
Proof.
  apply (idontwant_bounded 10 20 5); [|lia].
  apply (IDontWantCache.reach_clear 0); [apply IDontWantCache.reach_new|lia].
Defined.

(** Broken promises are counted exactly.  [GossipPromises::clearExpired]
    charges every peer with the number of messages it promised and did not
    deliver in time, drops exactly those promises and keeps all others. *)
Theorem promises_expire_exactly {I P : Type} `{Countable I} `{Countable P}
    now (g : GossipPromises.t I P) peer :
  default 0%nat ((GossipPromises.clearExpired now g).2 !! peer)
    = size (filter (fun kv => GossipPromises.is_late now peer kv.2 = true)
              (GossipPromises.map_ g))
  /\ forall message_id,
       (GossipPromises.map_ (GossipPromises.clearExpired now g).1 !! message_id
          ≫= fun m2 => m2 !! peer)
       = (GossipPromises.map_ g !! message_id ≫= fun m2 => m2 !! peer) ≫= fun time =>
           if time <? now then None else Some time.
Proof.
  split; [apply GossipPromises.clearExpired_counts|].
  intros message_id. apply GossipPromises.clearExpired_keeps.
Qed.
