(* ===== verification/Backoff.v ===== *)
(** * Per-topic windows of the gossip protocol

    [History] (sliding window of message ids) and [TopicBackoff] (who must not
    be grafted, and for how long), [include/libp2p/protocol/gossip/gossip.hpp]
    and [src/protocol/gossip/gossip.cpp].

    [TopicBackoff] is a timing wheel: a circular buffer of slots, each listing
    the peers whose backoff ends there.  Its specification is a countdown per
    peer; [backoff_countdown] is the refinement theorem. *)

From S2P Require Import Prelude.

(** ** History *)

Module History.
Section Model.
Context {I : Type}.

(** [slots_]: newest bucket first. *)
Abbreviation t := (list (list I)).

(** [History(slots)], with its assertion. *)
Definition make (slots : nat) : option t :=
  if decide (0 < slots)%nat then Some (replicate slots []) else None.

(** [slots_.front().emplace_back(message_id)]. *)
Definition add (message_id : I) (h : t) : t :=
  match h with
  | [] => []
  | front :: rest => (front ++ [message_id]) :: rest
  end.

(** Advance the window; the ids of the oldest bucket are returned. *)
Definition shift (h : t) : t * list I :=
  ([] :: removelast h, default [] (last h)).

Fixpoint get_loop (i slots : nat) (h : t) (result : list I) : list I :=
  match h with
  | [] => result
  | slot :: h =>
      if decide (slots <= i)%nat then result
      else get_loop (S i) slots h (result ++ slot)
  end.

Definition get (slots : nat) (h : t) : list I := get_loop 0 slots h [].

Fixpoint shift_n (n : nat) (h : t) : t :=
  match n with O => h | S n => shift_n n (shift h).1 end.

Lemma get_loop_spec i slots h result :
  get_loop i slots h result = result ++ concat (take (slots - i) h).
Proof.
  revert i result. induction h as [|slot h IH]; intros i result; simpl.
  { by rewrite take_nil, app_nil_r. }
  case_decide.
  - replace (slots - i)%nat with 0%nat by lia. by rewrite take_0, app_nil_r.
  - rewrite IH. replace (slots - i)%nat with (S (slots - S i)) by lia.
    simpl. by rewrite <- app_assoc.
Qed.

Lemma get_spec slots h : get slots h = concat (take slots h).
Proof. unfold get. by rewrite get_loop_spec, Nat.sub_0_r. Qed.

Lemma removelast_take (h : t) : removelast h = take (length h - 1) h.
Proof. rewrite removelast_firstn_len. f_equal. lia. Qed.

Lemma length_shift h : h <> [] -> length (shift h).1 = length h.
Proof.
  intros Hh. simpl. rewrite removelast_take, length_take. destruct h; [done|]. simpl. lia.
Qed.

Lemma shift_n_spec n h :
  h <> [] -> (n <= length h)%nat ->
  shift_n n h = replicate n [] ++ take (length h - n) h.
Proof.
  revert h. induction n as [|n IH]; intros h Hh Hn; cbn [shift_n].
  { rewrite Nat.sub_0_r, take_ge by lia. done. }
  rewrite IH; [|done|rewrite length_shift by done; lia].
  rewrite length_shift by done. cbn [shift fst].
  rewrite removelast_take. replace (length h - n)%nat with (S (length h - S n)) by lia.
  cbn [take]. rewrite take_take, Nat.min_l by lia.
  rewrite replicate_S_end, <- app_assoc. done.
Qed.

Lemma length_add id h : length (add id h) = length h.
Proof. by destruct h. Qed.

(** After [k] ticks a bucket has moved [k] places. *)
Lemma lookup_shift_n k h i :
  h <> [] -> (k <= length h)%nat -> (i < length h)%nat ->
  shift_n k h !! i = if decide (i < k)%nat then Some [] else h !! (i - k)%nat.
Proof.
  intros Hh Hk Hi. rewrite shift_n_spec by done. case_decide.
  - rewrite lookup_app_l by (rewrite length_replicate; lia). by apply lookup_replicate_2.
  - rewrite lookup_app_r by (rewrite length_replicate; lia).
    rewrite length_replicate, lookup_take_lt by lia. done.
Qed.

Lemma length_shift_n k h : h <> [] -> (k <= length h)%nat -> length (shift_n k h) = length h.
Proof.
  intros. rewrite shift_n_spec by done.
  rewrite length_app, length_replicate, length_take. lia.
Qed.

Lemma elem_of_concat (x : I) (h : t) :
  x ∈ concat h <-> exists i y, h !! i = Some y /\ x ∈ y.
Proof.
  rewrite list_elem_of_In, in_concat. setoid_rewrite <- list_elem_of_In. split.
  - intros (y & Hy & Hx). apply list_elem_of_lookup in Hy as [i Hi]. eauto.
  - intros (i & y & Hi & Hx). exists y. split; [|done]. by eapply list_elem_of_lookup_2.
Qed.

(** A fresh id is in the newest bucket only. *)
Lemma elem_of_add id h j y :
  id ∉ concat h -> add id h !! j = Some y -> id ∈ y <-> j = 0%nat.
Proof.
  intros Hid Hj. destruct h as [|front rest]; [done|].
  destruct j as [|j]; simplify_eq/=; [set_solver|].
  split; [|done]. intros Hy. exfalso. apply Hid. apply elem_of_app. right.
  apply elem_of_concat. by exists j, y.
Qed.
End Model.
End History.

(** ** TopicBackoff *)

Module TopicBackoff.
Section Model.
Context {P : Type} `{Countable P}.

(** An entry of [peers_] is the slot number with an iterator to the peer's node
    in that slot's list: the peer itself, since no list holds a peer twice
    (see [ok]). *)
Record t := mk {
  slots_ : list (list P);
  slot_ : nat;
  peers_ : gmap P nat
}.

(** [slots_.resize(prune_backoff / heartbeat_interval + backoff_slack + 1)]. *)
Definition make (prune_backoff heartbeat_interval backoff_slack : nat) : t :=
  mk (replicate (prune_backoff / heartbeat_interval + backoff_slack + 1) []) 0 ∅.

Definition get (peer : P) (b : t) : nat :=
  match peers_ b !! peer with
  | None => 0
  | Some s => saturating_sub s (slot_ b)
  end.

Definition slot_erase (peer : P) (i : nat) (slots : list (list P)) : list (list P) :=
  alter (filter (fun q => q <> peer)) i slots.

Definition slot_push (peer : P) (i : nat) (slots : list (list P)) : list (list P) :=
  alter (fun l => l ++ [peer]) i slots.

(** [slots] is a [size_t] that may come from a remote peer. *)
Definition update (peer : P) (slots : Z) (b : t) : t :=
  if decide (slots = 0) then b
  else
    let n := length (slots_ b) in
    let slots := Z.to_nat (Z.min slots (Z.of_nat n - 1)) in
    let slot := (slot_ b + slots)%nat in
    match peers_ b !! peer with
    | Some s =>
        if decide (slot <= s)%nat then b
        else mk (slot_push peer (slot mod n) (slot_erase peer (s mod n) (slots_ b)))
                (slot_ b) (<[peer := slot]> (peers_ b))
    | None => mk (slot_push peer (slot mod n) (slots_ b)) (slot_ b)
                 (<[peer := slot]> (peers_ b))
    end.

Definition shift (b : t) : t :=
  let i := (slot_ b mod length (slots_ b))%nat in
  let gone := default [] (slots_ b !! i) in
  mk (<[i := []]> (slots_ b)) (S (slot_ b))
     (foldl (fun m p => delete p m) (peers_ b) gone).

(** The wheel is consistent: a peer is filed in exactly the slot its number
    says, and numbers lie within one turn of the wheel. *)
Record ok (b : t) : Prop := {
  ok_size : (0 < length (slots_ b))%nat;
  ok_filed : forall p s, peers_ b !! p = Some s ->
    (slot_ b <= s < slot_ b + length (slots_ b))%nat
    /\ exists l, slots_ b !! (s mod length (slots_ b))%nat = Some l /\ p ∈ l;
  ok_listed : forall i l p, slots_ b !! i = Some l -> p ∈ l ->
    exists s, peers_ b !! p = Some s /\ i = (s mod length (slots_ b))%nat
}.

Lemma wheel_make_ok prune hb slack : ok (make prune hb slack).
Proof.
  split; cbn [make slots_ slot_ peers_].
  - rewrite length_replicate. lia.
  - intros p s. by rewrite lookup_empty.
  - intros i l p Hl Hp. apply lookup_replicate in Hl as [-> _]. by apply elem_of_nil in Hp.
Qed.

Lemma mod_window a s t n :
  (a <= s < a + n)%nat -> (a <= t < a + n)%nat -> (s mod n = t mod n)%nat -> s = t.
Proof.
  intros Hs Ht E.
  assert (Z.of_nat s mod Z.of_nat n = Z.of_nat t mod Z.of_nat n) as E'
    by (rewrite <- !Nat2Z.inj_mod; congruence).
  assert (0 < Z.of_nat n) by lia. pose proof (Z.div_mod (Z.of_nat s) (Z.of_nat n)).
  pose proof (Z.div_mod (Z.of_nat t) (Z.of_nat n)).
  assert (Z.of_nat s / Z.of_nat n = Z.of_nat t / Z.of_nat n \/
          Z.of_nat s / Z.of_nat n <= Z.of_nat t / Z.of_nat n - 1 \/
          Z.of_nat t / Z.of_nat n <= Z.of_nat s / Z.of_nat n - 1) as [?|[?|?]] by lia; nia.
Qed.

Lemma length_erase peer i l : length (slot_erase peer i l) = length l.
Proof. apply length_alter. Qed.
Lemma length_push peer i l : length (slot_push peer i l) = length l.
Proof. apply length_alter. Qed.

Lemma elem_push peer i (l : list (list P)) j x :
  (i < length l)%nat ->
  (exists k, slot_push peer i l !! j = Some k /\ x ∈ k)
  <-> (exists k, l !! j = Some k /\ x ∈ k) \/ (j = i /\ x = peer).
Proof.
  intros Hi. unfold slot_push. destruct (decide (i = j)) as [->|Hne].
  - rewrite list_lookup_alter_eq. destruct (lookup_lt_is_Some_2 l j Hi) as [k ->]. simpl.
    split.
    + intros (k' & Hk & Hx). simplify_eq. apply elem_of_app in Hx as [Hx|Hx]; [left; eauto|].
      apply list_elem_of_singleton in Hx. by right.
    + intros [(k' & Hk & Hx)|[_ ->]]; simplify_eq; eexists; (split; [done|]); set_solver.
  - rewrite list_lookup_alter_ne by done. naive_solver.
Qed.

Lemma elem_erase peer i (l : list (list P)) j x :
  (exists k, slot_erase peer i l !! j = Some k /\ x ∈ k)
  <-> (exists k, l !! j = Some k /\ x ∈ k) /\ ~ (j = i /\ x = peer).
Proof.
  unfold slot_erase. destruct (decide (i = j)) as [->|Hne].
  - rewrite list_lookup_alter_eq. destruct (l !! j) as [k|]; simpl; [|naive_solver].
    split.
    + intros (k' & Hk & Hx). simplify_eq. apply list_elem_of_filter in Hx as [Hx Hk].
      split; [eauto|naive_solver].
    + intros [(k' & Hk & Hx) Hn]; simplify_eq. eexists. split; [done|].
      apply list_elem_of_filter. naive_solver.
  - rewrite list_lookup_alter_ne by done. naive_solver.
Qed.

(** The invariant in the form the updates use. *)
Definition filed (b : t) (i : nat) (x : P) : Prop :=
  exists l, slots_ b !! i = Some l /\ x ∈ l.

Lemma ok_filed_iff b :
  ok b -> forall p i, filed b i p <-> exists s, peers_ b !! p = Some s
    /\ i = (s mod length (slots_ b))%nat.
Proof.
  intros [_ Hf Hl] p i. split.
  - intros (l & Hi & Hp). by eapply Hl.
  - intros (s & Hs & ->). by apply Hf in Hs as [_ ?].
Qed.

Lemma ok_intro b :
  (0 < length (slots_ b))%nat ->
  (forall p s, peers_ b !! p = Some s -> (slot_ b <= s < slot_ b + length (slots_ b))%nat) ->
  (forall p i, filed b i p <-> exists s, peers_ b !! p = Some s
     /\ i = (s mod length (slots_ b))%nat) -> ok b.
Proof.
  intros Hn Hr Hf. split; [done| |].
  - intros p s Hs. split; [by eapply Hr|]. apply Hf. eauto.
  - intros i l p Hl Hp. apply Hf. by exists l.
Qed.

Lemma update_ok peer n b : ok b -> ok (update peer n b).
Proof.
  intros Hok. pose proof (ok_filed_iff b Hok) as Hf. pose proof Hok as [Hn Hr _].
  unfold update. case_decide; [done|].
  set (len := length (slots_ b)) in *. set (slot := (slot_ b + Z.to_nat (Z.min n (Z.of_nat len - 1)))%nat).
  assert (slot mod len < len)%nat as Hmod by (apply Nat.mod_upper_bound; lia).
  destruct (peers_ b !! peer) as [s|] eqn:Es; [case_decide; [done|]|].
  - apply ok_intro; cbn [slots_ slot_ peers_]; rewrite ?length_push, ?length_erase; fold len.
    + done.
    + intros p s'. rewrite lookup_insert. case_decide; [intros [= <-]; unfold slot; lia|by apply Hr].
    + intros p i. unfold filed. cbn [slots_].
      rewrite elem_push by (by rewrite length_erase). rewrite elem_erase.
      fold (filed b i p). rewrite Hf, lookup_insert. case_decide; subst.
      * split; [|naive_solver]. intros [[(s' & Hs' & ->) Hx]|[-> _]]; [|eauto]. naive_solver.
      * naive_solver.
  - apply ok_intro; cbn [slots_ slot_ peers_]; rewrite ?length_push; fold len.
    + done.
    + intros p s'. rewrite lookup_insert. case_decide; [intros [= <-]; unfold slot; lia|by apply Hr].
    + intros p i. unfold filed. cbn [slots_]. rewrite elem_push by done.
      fold (filed b i p). rewrite Hf, lookup_insert. case_decide; subst; naive_solver.
Qed.

Lemma foldl_delete (l : list P) (m : gmap P nat) p :
  foldl (fun m p => delete p m) m l !! p = if decide (p ∈ l) then None else m !! p.
Proof.
  revert m. induction l as [|q l IH]; intros m; cbn [foldl].
  { by rewrite decide_False by set_solver. }
  rewrite IH, lookup_delete. repeat case_decide; set_solver.
Qed.

(** A shift releases exactly the peers whose slot number is the current one. *)
Lemma shift_peers b p :
  ok b -> peers_ (shift b) !! p =
    match peers_ b !! p with
    | Some s => if decide (s = slot_ b) then None else Some s
    | None => None
    end.
Proof.
  intros Hok. pose proof (ok_filed_iff b Hok) as Hf. pose proof Hok as [Hn Hr _].
  cbn [shift peers_]. rewrite foldl_delete.
  assert (slot_ b mod length (slots_ b) < length (slots_ b))%nat as Hm
    by (apply Nat.mod_upper_bound; lia).
  destruct (lookup_lt_is_Some_2 (slots_ b) _ Hm) as [l Hl]. rewrite Hl. cbn [default].
  assert (p ∈ l <-> exists s, peers_ b !! p = Some s
    /\ (slot_ b mod length (slots_ b))%nat = (s mod length (slots_ b))%nat) as Hpl.
  { rewrite <- Hf. unfold filed. rewrite Hl. naive_solver. }
  destruct (peers_ b !! p) as [s|] eqn:Es; [|by case_decide].
  destruct (Hr p s Es) as [Hs _].
  destruct (decide (s = slot_ b)) as [->|Hne]; case_decide as Hd; rewrite Hpl in Hd; try done.
  - exfalso. apply Hd. eauto.
  - exfalso. destruct Hd as (s' & ? & Hmod). simplify_eq. apply Hne.
    symmetry. eapply mod_window; [|exact Hs|exact Hmod]. lia.
Qed.

Lemma shift_ok b : ok b -> ok (shift b).
Proof.
  intros Hok. pose proof (ok_filed_iff b Hok) as Hf. pose proof Hok as [Hn Hr _].
  apply ok_intro.
  - cbn. by rewrite length_insert.
  - intros p s. rewrite shift_peers by done.
    destruct (peers_ b !! p) as [s'|] eqn:Es; [|done]. case_decide; intros; simplify_eq.
    destruct (Hr p s Es) as [Hs _]. cbn. rewrite length_insert. lia.
  - intros p i. rewrite shift_peers by done.
    assert (filed (shift b) i p <-> filed b i p /\ i <> (slot_ b mod length (slots_ b))%nat) as ->.
    { unfold filed. cbn [shift slots_].
      destruct (decide (slot_ b mod length (slots_ b) = i)%nat) as [<-|Hne].
      - rewrite list_lookup_insert_eq by (apply Nat.mod_upper_bound; lia).
        split; [|naive_solver]. intros (l & ? & Hp). simplify_eq. by apply elem_of_nil in Hp.
      - rewrite list_lookup_insert_ne by done. naive_solver. }
    rewrite Hf. cbn [shift slots_]. rewrite length_insert.
    destruct (peers_ b !! p) as [s|] eqn:Es; [|naive_solver].
    destruct (Hr p s Es) as [Hs _].
    destruct (decide (s = slot_ b)) as [->|Hne]; [naive_solver|].
    split; [naive_solver|]. intros (s' & ? & ->); simplify_eq. split; [eauto|].
    intros Hmod. apply Hne. eapply mod_window; [exact Hs| |exact Hmod]. lia.
Qed.

Lemma get_update peer n b q :
  ok b ->
  get q (update peer n b) =
    if decide (q = peer) then Nat.max (get q b) (Z.to_nat (Z.min n (Z.of_nat (length (slots_ b)) - 1)))
    else get q b.
Proof.
  intros [Hn Hr _]. unfold update, get. case_decide; subst; cbn [peers_ slot_].
  { case_decide; subst; [|done]. lia. }
  destruct (peers_ b !! peer) as [s|] eqn:Es; [case_decide|]; cbn [peers_ slot_];
    rewrite ?lookup_insert; repeat (case_decide; subst; try done);
    rewrite ?Es, ?saturating_sub_spec; try (by destruct (Hr _ _ Es) as [? _]; lia); lia.
Qed.

Lemma get_shift b q : ok b -> get q (shift b) = (get q b - 1)%nat.
Proof.
  intros Hok. unfold get. rewrite shift_peers by done.
  destruct (peers_ b !! q) as [s|] eqn:Es; [|done].
  rewrite !saturating_sub_spec. cbn [shift slot_].
  case_decide; [lia|]. rewrite saturating_sub_spec. lia.
Qed.

Lemma length_update peer n b : length (slots_ (update peer n b)) = length (slots_ b).
Proof.
  unfold update. repeat (case_decide || case_match); cbn; rewrite ?length_push, ?length_erase; done.
Qed.

Lemma length_slots_shift b : length (slots_ (shift b)) = length (slots_ b).
Proof. cbn. apply length_insert. Qed.
End Model.
Arguments t : clear implicits.
Arguments t _ {_ _}.
End TopicBackoff.

(** ** The countdown a TopicBackoff implements *)

Module Countdown.
Section Spec.
Context {P : Type} `{Countable P}.

Inductive call := Update (peer : P) (slots : Z) | Shift.

(** Remaining slots of one peer; [limit] is the length of the wheel minus one. *)
Definition spec_call (limit : nat) (q : P) (remaining : nat) (c : call) : nat :=
  match c with
  | Update peer slots =>
      if decide (q = peer)
      then Nat.max remaining (Z.to_nat (Z.min slots (Z.of_nat limit))) else remaining
  | Shift => (remaining - 1)%nat
  end.

Definition apply_call (b : TopicBackoff.t P) (c : call) : TopicBackoff.t P :=
  match c with
  | Update peer slots => TopicBackoff.update peer slots b
  | Shift => TopicBackoff.shift b
  end.

Lemma countdown_refines calls b q :
  TopicBackoff.ok b ->
  TopicBackoff.get q (foldl apply_call b calls)
  = foldl (spec_call (length (TopicBackoff.slots_ b) - 1) q) (TopicBackoff.get q b) calls.
Proof.
  revert b. induction calls as [|c calls IH]; intros b Hok; [done|]. cbn [foldl].
  rewrite IH.
  - destruct c as [peer n|]; cbn [apply_call spec_call].
    + rewrite TopicBackoff.length_update, TopicBackoff.get_update by done.
      destruct Hok. by rewrite Nat2Z.inj_sub by lia.
    + by rewrite TopicBackoff.length_slots_shift, TopicBackoff.get_shift.
  - destruct c; [by apply TopicBackoff.update_ok|by apply TopicBackoff.shift_ok].
Qed.
End Spec.
End Countdown.

(** ** Properties *)

(** A [TopicBackoff] is a countdown per peer.  After any sequence of
    [update] and [shift] calls on a new one, [get] is the value of a counter
    that [update] raises to the requested slots (never lowering it, and capped
    by the configured prune backoff plus slack) and [shift] decrements: no
    update of one peer disturbs another, and nobody is released early or kept
    late. *)
Theorem backoff_countdown {P : Type} `{Countable P}
    prune_backoff heartbeat_interval backoff_slack (calls : list Countdown.call) (q : P) :
  TopicBackoff.get q
    (foldl Countdown.apply_call
       (TopicBackoff.make prune_backoff heartbeat_interval backoff_slack) calls)
  = foldl (Countdown.spec_call (prune_backoff / heartbeat_interval + backoff_slack) q) 0%nat calls.
Proof.
  rewrite Countdown.countdown_refines by apply TopicBackoff.wheel_make_ok.
  cbn [TopicBackoff.make TopicBackoff.slots_]. rewrite length_replicate, Nat.add_sub.
  done.
Qed.

(** The history window is exact.  An id added now is among the ids
    [get(n)] gossips during the following [n] heartbeats and no longer, is
    handed back by [shift] for removal from the message cache exactly at the
    heartbeat that makes it [length] ticks old, and not before. *)
Theorem history_window {I : Type} (h : list (list I)) (id : I) k n :
  (k < length h)%nat -> id ∉ concat h -> (n <= length h)%nat ->
  let h' := History.shift_n k (History.add id h) in
  (id ∈ History.get n h' <-> (k < n)%nat)
  /\ (id ∈ (History.shift h').2 <-> S k = length h).
Proof.
  intros Hk Hid Hn h'.
  assert (History.add id h <> []) as Hne by (destruct h; simpl in *; [lia|done]).
  pose proof (History.length_add id h) as Hlen.
  assert (forall i y, (i < length h)%nat -> h' !! i = Some y -> id ∈ y <-> i = k) as Hslot.
  { intros i y Hi. unfold h'. rewrite History.lookup_shift_n by (done || lia). case_decide.
    - intros; simplify_eq. split; [by intros ?%elem_of_nil|lia].
    - intros Hy. rewrite (History.elem_of_add id h _ y Hid Hy). lia. }
  assert (length h' = length h) as Hlen'
    by (unfold h'; rewrite History.length_shift_n by (done || lia); done).
  assert (exists y, h' !! k = Some y /\ id ∈ y) as (yk & Hyk & Hidk).
  { destruct (lookup_lt_is_Some_2 h' k) as [y Hy]; [lia|]. exists y. split; [done|].
    by apply (Hslot k). }
  split.
  - rewrite History.get_spec, History.elem_of_concat. split.
    + intros (i & y & Hi & Hy). apply lookup_take_Some in Hi as [Hi Hin].
      apply (Hslot i) in Hy; [lia|lia|done].
    + intros Hkn. exists k, yk. by rewrite lookup_take_lt.
  - cbn [History.shift snd]. rewrite last_lookup, Hlen'.
    destruct (lookup_lt_is_Some_2 h' (pred (length h))) as [y Hy]; [lia|].
    rewrite Hy. cbn [default]. rewrite (Hslot (pred (length h)) y) by (done || lia). lia.
Qed.

Lemma history_window_witness :
  let h' := History.shift_n 2 (History.add 9 [[1]; [2]; []; [4]; [5]]) in
  (9 ∈ History.get 3 h' <-> (2 < 3)%nat)
  /\ (9 ∈ (History.shift h').2 <-> 3%nat = length [[1]; [2]; []; [4]; [5]]).
Proof.
  apply (history_window [[1]; [2]; []; [4]; [5]] 9 2 3); [simpl; lia| |simpl; lia].
  apply (bool_decide_unpack _). vm_compute. exact I.
Defined.
