(* ===== verification/Score.v ===== *)
(** * Peer scoring

    [include/libp2p/protocol/gossip/score.hpp] (class [Score]) with the
    parameters of [config.hpp].  A C++ [double] is a binary64 number of the
    standard library's [SpecFloat], so that rounding, infinities and NaN behave
    as in the program and every definition computes.

    Where the order in which an [unordered_map] is traversed matters (the sum
    of the topic scores is rounded after each term) the traversal is the
    argument [iter].  [std::out_of_range] of [params_.topics.at] is [None]. *)

From Stdlib Require Import SpecFloat.
From S2P Require Import Prelude TimeCache.

(** ** Doubles *)

Abbreviation double := spec_float.
Definition dadd : double -> double -> double := SFadd 53 1024.
Definition dsub : double -> double -> double := SFsub 53 1024.
Definition dmul : double -> double -> double := SFmul 53 1024.
Definition ddiv : double -> double -> double := SFdiv 53 1024.
Definition dltb : double -> double -> bool := SFltb.
(** [static_cast<double>(z)]. *)
Definition dz (z : Z) : double := binary_normalize 53 1024 z 0 false.
(** The double nearest to the decimal fraction [a / b]. *)
Definition dfrac (a b : Z) : double := ddiv (dz a) (dz b).
(** [std::min(a, b)]. *)
Definition dmin (a b : double) : double := if dltb b a then b else a.
Definition dzero : double := S754_zero false.

(** ** Keys, times *)

Abbreviation TopicHash := bytes.
Abbreviation MessageId := bytes.
Abbreviation PeerId := bytes.

(** Clock ticks (nanoseconds) in a millisecond and in a second. *)
Definition ms : Z := 10 ^ 6.
Definition sec : Z := 10 ^ 9.

(** ** Parameters *)

Record TopicScoreParams := {
  topic_weight : double;
  time_in_mesh_weight : double;
  time_in_mesh_quantum : Z;  (* milliseconds *)
  time_in_mesh_cap : double;
  first_message_deliveries_weight : double;
  first_message_deliveries_decay : double;
  first_message_deliveries_cap : double;
  mesh_message_deliveries_weight : double;
  mesh_message_deliveries_decay : double;
  mesh_message_deliveries_cap : double;
  mesh_message_deliveries_threshold : double;
  mesh_message_deliveries_window : Z;  (* milliseconds *)
  mesh_message_deliveries_activation : Z;  (* seconds *)
  mesh_failure_penalty_weight : double;
  mesh_failure_penalty_decay : double;
  invalid_message_deliveries_weight : double;
  invalid_message_deliveries_decay : double
}.

(** The initialisers of the struct. *)
Definition default_topic_params : TopicScoreParams := {|
  topic_weight := dfrac 1 2;
  time_in_mesh_weight := dz 1;
  time_in_mesh_quantum := 1;
  time_in_mesh_cap := dz 3600;
  first_message_deliveries_weight := dz 1;
  first_message_deliveries_decay := dfrac 1 2;
  first_message_deliveries_cap := dz 2000;
  mesh_message_deliveries_weight := dz (-1);
  mesh_message_deliveries_decay := dfrac 1 2;
  mesh_message_deliveries_cap := dz 100;
  mesh_message_deliveries_threshold := dz 20;
  mesh_message_deliveries_window := 10;
  mesh_message_deliveries_activation := 5;
  mesh_failure_penalty_weight := dz (-1);
  mesh_failure_penalty_decay := dfrac 1 2;
  invalid_message_deliveries_weight := dz (-1);
  invalid_message_deliveries_decay := dfrac 3 10
|}.

Record ScoreConfig := {
  zero : double;
  gossip_threshold : double;
  publish_threshold : double;
  graylist_threshold : double;
  opportunistic_graft_threshold : double;
  topics : gmap TopicHash TopicScoreParams;
  topic_score_cap : double;
  app_specific_weight : double;
  behaviour_penalty_weight : double;
  behaviour_penalty_threshold : double;
  behaviour_penalty_decay : double;
  decay_interval : Z;  (* milliseconds *)
  decay_to_zero : double;
  retain_score : Z;  (* seconds *)
  slow_peer_weight : double;
  slow_peer_threshold : double;
  slow_peer_decay : double
}.

Definition default_score_config : ScoreConfig := {|
  zero := dzero;
  gossip_threshold := dz (-10);
  publish_threshold := dz (-50);
  graylist_threshold := dz (-80);
  opportunistic_graft_threshold := dz 20;
  topics := ∅;
  topic_score_cap := dz 3600;
  app_specific_weight := dz 10;
  behaviour_penalty_weight := dz (-10);
  behaviour_penalty_threshold := dzero;
  behaviour_penalty_decay := dfrac 2 10;
  decay_interval := 1000;
  decay_to_zero := dfrac 1 10;
  retain_score := 3600;
  slow_peer_weight := dfrac (-2) 10;
  slow_peer_threshold := dzero;
  slow_peer_decay := dfrac 2 10
|}.

(** [ScoreConfig::valid]. *)
Definition valid (c : ScoreConfig) : bool :=
  negb (dltb dzero (gossip_threshold c))
  && negb (dltb dzero (publish_threshold c)
           || dltb (gossip_threshold c) (publish_threshold c))
  && negb (dltb dzero (graylist_threshold c)
           || dltb (publish_threshold c) (graylist_threshold c))
  && negb (dltb (opportunistic_graft_threshold c) dzero).

(** ** State *)

Inductive DeliveryStatus :=
| DeliveryStatusUnknown
| DeliveryStatusValid (time : Z)
| DeliveryStatusInvalid
| DeliveryStatusIgnored.

Record DeliveryRecord := mkRecord {
  status : DeliveryStatus;
  first_seen : Z;
  rpeers : gset PeerId
}.
Definition default_record : DeliveryRecord := mkRecord DeliveryStatusUnknown 0 ∅.

Record MeshActive := mkMeshActive { graft_time : Z; mesh_time : Z }.

Record TopicStats := mkTopicStats {
  mesh_active : option MeshActive;
  first_message_deliveries : double;
  mesh_message_deliveries_active : bool;
  mesh_message_deliveries : double;
  mesh_failure_penalty : double;
  invalid_message_deliveries : double
}.
Definition default_topic_stats : TopicStats := mkTopicStats None dzero false dzero dzero dzero.

Record PeerStats := mkPeerStats {
  expires_at : option Z;
  ptopics : gmap TopicHash TopicStats;
  behaviour_penalty : double;
  application_score : double;
  slow_peer_penalty : double
}.
Definition default_peer_stats : PeerStats := mkPeerStats None ∅ dzero dzero dzero.

Record Score := mkScore {
  params_ : ScoreConfig;
  peer_stats_ : gmap PeerId PeerStats;
  deliveries_ : TimeCache.t MessageId DeliveryRecord
}.

Definition kTimeCacheDuration : Z := 120 * sec.

Definition Score_new (params : ScoreConfig) : Score :=
  mkScore params ∅ (TimeCache.make kTimeCacheDuration).

(** ** Field updates *)

Definition set_peer_stats (m : gmap PeerId PeerStats) (s : Score) : Score :=
  mkScore (params_ s) m (deliveries_ s).
Definition set_deliveries (d : TimeCache.t MessageId DeliveryRecord) (s : Score) : Score :=
  mkScore (params_ s) (peer_stats_ s) d.
Definition set_topics (m : gmap TopicHash TopicStats) (p : PeerStats) : PeerStats :=
  mkPeerStats (expires_at p) m (behaviour_penalty p) (application_score p) (slow_peer_penalty p).
Definition set_expires (e : option Z) (p : PeerStats) : PeerStats :=
  mkPeerStats e (ptopics p) (behaviour_penalty p) (application_score p) (slow_peer_penalty p).
Definition set_behaviour (d : double) (p : PeerStats) : PeerStats :=
  mkPeerStats (expires_at p) (ptopics p) d (application_score p) (slow_peer_penalty p).
Definition set_slow (d : double) (p : PeerStats) : PeerStats :=
  mkPeerStats (expires_at p) (ptopics p) (behaviour_penalty p) (application_score p) d.

(** ** Operations *)

(** [as_secs_f64]: whole seconds of a duration in milliseconds. *)
Definition as_secs_f64 (t : Z) : double := dz (Z.quot t 1000).

(** The terms P1 to P4 of one topic. *)
Definition topic_score (p : TopicScoreParams) (t : TopicStats) : double :=
  let score := dzero in
  let score := match mesh_active t with
    | Some a =>
        let p1 := dmin (ddiv (as_secs_f64 (mesh_time a)) (as_secs_f64 (time_in_mesh_quantum p)))
                       (time_in_mesh_cap p) in
        dadd score (dmul p1 (time_in_mesh_weight p))
    | None => score
    end in
  let p2 := dmin (first_message_deliveries t) (first_message_deliveries_cap p) in
  let score := dadd score (dmul p2 (first_message_deliveries_weight p)) in
  let score :=
    if mesh_message_deliveries_active t
       && dltb (mesh_message_deliveries t) (mesh_message_deliveries_threshold p)
    then let deficit := dsub (mesh_message_deliveries_threshold p) (mesh_message_deliveries t) in
         let p3 := dmul deficit deficit in
         dadd score (dmul p3 (mesh_message_deliveries_weight p))
    else score in
  let p3b := mesh_failure_penalty t in
  let score := dadd score (dmul p3b (mesh_failure_penalty_weight p)) in
  let p4 := dmul (invalid_message_deliveries t) (invalid_message_deliveries t) in
  dadd score (dmul p4 (invalid_message_deliveries_weight p)).

Section Ops.
Context (iter : gmap TopicHash TopicStats -> list (TopicHash * TopicStats)).

(** The sum over the peer's topics that have parameters. *)
Definition topics_score (c : ScoreConfig) (l : list (TopicHash * TopicStats)) : double :=
  foldl (fun score '(topic, t) =>
    match topics c !! topic with
    | None => score
    | Some p => dadd score (dmul (topic_score p t) (topic_weight p))
    end) dzero l.

Definition peer_score (c : ScoreConfig) (p : PeerStats) : double :=
  let score := topics_score c (iter (ptopics p)) in
  let score := if dltb dzero (topic_score_cap c) && dltb (topic_score_cap c) score
               then topic_score_cap c else score in
  let score := dadd score (dmul (application_score p) (app_specific_weight c)) in
  let score :=
    if dltb (behaviour_penalty_threshold c) (behaviour_penalty p)
    then let excess := dsub (behaviour_penalty p) (behaviour_penalty_threshold c) in
         dadd score (dmul (dmul excess excess) (behaviour_penalty_weight c))
    else score in
  if dltb (slow_peer_threshold c) (slow_peer_penalty p)
  then let excess := dsub (slow_peer_penalty p) (slow_peer_threshold c) in
       dadd score (dmul excess (slow_peer_weight c))
  else score.

Definition score (s : Score) (peer_id : PeerId) : double :=
  match peer_stats_ s !! peer_id with
  | None => dzero
  | Some p => peer_score (params_ s) p
  end.

Definition below (s : Score) (peer_id : PeerId) (threshold : double) : bool :=
  dltb (score s peer_id) threshold.

Definition addPenalty (peer_id : PeerId) (count : nat) (s : Score) : Score :=
  match peer_stats_ s !! peer_id with
  | None => s
  | Some p =>
      let p := set_behaviour (dadd (behaviour_penalty p) (dz (Z.of_nat count))) p in
      set_peer_stats (<[peer_id := p]> (peer_stats_ s)) s
  end.

(** [statsOrDefault]: the peer with the entry created if the topic has
    parameters, and the entry ([None] for [nullptr]). *)
Definition statsOrDefault (c : ScoreConfig) (p : PeerStats) (topic : TopicHash) :
    PeerStats * option TopicStats :=
  match ptopics p !! topic with
  | Some t => (p, Some t)
  | None =>
      if decide (is_Some (topics c !! topic))
      then (set_topics (<[topic := default_topic_stats]> (ptopics p)) p, Some default_topic_stats)
      else (p, None)
  end.

(** The pattern of every update: find the peer, find or create the topic's
    statistics, change them by [f] ([None]: the lookup in [params_] throws). *)
Definition with_stats (peer_id : PeerId) (topic : TopicHash)
    (f : TopicStats -> option TopicStats) (s : Score) : option Score :=
  match peer_stats_ s !! peer_id with
  | None => Some s
  | Some p =>
      match statsOrDefault (params_ s) p topic with
      | (p, None) => Some s
      | (p, Some t) =>
          match f t with
          | None => None
          | Some t =>
              let p := set_topics (<[topic := t]> (ptopics p)) p in
              Some (set_peer_stats (<[peer_id := p]> (peer_stats_ s)) s)
          end
      end
  end.

Definition graft (now : Z) (peer_id : PeerId) (topic : TopicHash) (s : Score) : option Score :=
  with_stats peer_id topic (fun t =>
    Some (mkTopicStats (Some (mkMeshActive now 0)) (first_message_deliveries t) false
            (mesh_message_deliveries t) (mesh_failure_penalty t) (invalid_message_deliveries t))) s.

(** The penalty for leaving the mesh with a delivery deficit. *)
Definition deficit_penalty (threshold : double) (t : TopicStats) : double :=
  let deficit := dsub threshold (mesh_message_deliveries t) in
  dadd (mesh_failure_penalty t) (dmul deficit deficit).

Definition prune (peer_id : PeerId) (topic : TopicHash) (s : Score) : option Score :=
  with_stats peer_id topic (fun t =>
    match topics (params_ s) !! topic with
    | None => None
    | Some p =>
        let threshold := mesh_message_deliveries_threshold p in
        let penalty :=
          if mesh_message_deliveries_active t && dltb (mesh_message_deliveries t) threshold
          then deficit_penalty threshold t else mesh_failure_penalty t in
        Some (mkTopicStats None (first_message_deliveries t) false
                (mesh_message_deliveries t) penalty (invalid_message_deliveries t))
    end) s.

Definition mark_first_message_delivery (peer_id : PeerId) (topic_hash : TopicHash)
    (s : Score) : option Score :=
  with_stats peer_id topic_hash (fun t =>
    match topics (params_ s) !! topic_hash with
    | None => None
    | Some p =>
        let first := dmin (dadd (first_message_deliveries t) (dz 1))
                          (first_message_deliveries_cap p) in
        let mesh := match mesh_active t with
          | Some _ => dmin (dadd (mesh_message_deliveries t) (dz 1))
                           (mesh_message_deliveries_cap p)
          | None => mesh_message_deliveries t
          end in
        Some (mkTopicStats (mesh_active t) first (mesh_message_deliveries_active t)
                mesh (mesh_failure_penalty t) (invalid_message_deliveries t))
    end) s.

Definition mark_duplicate_message_delivery (now : Z) (peer_id : PeerId) (topic : TopicHash)
    (validated_time : option Z) (s : Score) : option Score :=
  with_stats peer_id topic (fun t =>
    match mesh_active t with
    | None => Some t
    | Some _ =>
        match topics (params_ s) !! topic with
        | None => None
        | Some p =>
            match validated_time with
            | None => Some t
            | Some v =>
                let window_time := v + mesh_message_deliveries_window p * ms in
                if window_time <? now then Some t
                else Some (mkTopicStats (mesh_active t) (first_message_deliveries t)
                             (mesh_message_deliveries_active t)
                             (dmin (dadd (mesh_message_deliveries t) (dz 1))
                                   (mesh_message_deliveries_cap p))
                             (mesh_failure_penalty t) (invalid_message_deliveries t))
            end
        end
    end) s.

Definition markInvalidMessageDelivery (peer_id : PeerId) (topic : TopicHash)
    (s : Score) : option Score :=
  with_stats peer_id topic (fun t =>
    Some (mkTopicStats (mesh_active t) (first_message_deliveries t)
            (mesh_message_deliveries_active t) (mesh_message_deliveries t)
            (mesh_failure_penalty t) (dadd (invalid_message_deliveries t) (dz 1)))) s.

(** [now], [now']: the two readings of the clock during the call. *)
Definition duplicateMessage (now now' : Z) (peer_id : PeerId) (msg_id : MessageId)
    (topic : TopicHash) (s : Score) : option Score :=
  let '(d, record) := TimeCache.getOrDefault default_record msg_id now (deliveries_ s) in
  let s := set_deliveries d s in
  if decide (peer_id ∈ rpeers record) then Some s
  else
    let remembered := set_deliveries (TimeCache.assign msg_id
      (mkRecord (status record) (first_seen record) ({[peer_id]} ∪ rpeers record)) d) s in
    match status record with
    | DeliveryStatusUnknown => Some remembered
    | DeliveryStatusValid time =>
        mark_duplicate_message_delivery now' peer_id topic (Some time) remembered
    | DeliveryStatusInvalid => markInvalidMessageDelivery peer_id topic s
    | DeliveryStatusIgnored => Some s
    end.

Definition validateMessage (now : Z) (peer_id : PeerId) (msg_id : MessageId)
    (topic : TopicHash) (s : Score) : Score :=
  set_deliveries (TimeCache.getOrDefault default_record msg_id now (deliveries_ s)).1 s.

(** [now'] is the reading stored as the validation time. *)
Definition deliver_message (now now' : Z) (from : PeerId) (msg_id : MessageId)
    (topic_hash : TopicHash) (s : Score) : option Score :=
  match mark_first_message_delivery from topic_hash s with
  | None => None
  | Some s =>
      let '(d, record) := TimeCache.getOrDefault default_record msg_id now (deliveries_ s) in
      let s := set_deliveries d s in
      match status record with
      | DeliveryStatusUnknown =>
          let s := set_deliveries (TimeCache.assign msg_id
            (mkRecord (DeliveryStatusValid now') (first_seen record) (rpeers record)) d) s in
          foldl (fun s peer =>
            match s with
            | None => None
            | Some s =>
                if decide (peer = from) then Some s
                else mark_duplicate_message_delivery now' peer topic_hash None s
            end) (Some s) (elements (rpeers record))
      | _ => Some s
      end
  end.

(** [peer_stats_[peer_id].expires_at.reset()]. *)
Definition connect (peer_id : PeerId) (s : Score) : Score :=
  let p := default default_peer_stats (peer_stats_ s !! peer_id) in
  set_peer_stats (<[peer_id := set_expires None p]> (peer_stats_ s)) s.

Definition disconnect_topic (c : ScoreConfig) (topic : TopicHash) (t : TopicStats) : TopicStats :=
  let penalty := match topics c !! topic with
    | None => mesh_failure_penalty t
    | Some p =>
        let threshold := mesh_message_deliveries_threshold p in
        if bool_decide (is_Some (mesh_active t)) && mesh_message_deliveries_active t
           && dltb (mesh_message_deliveries t) threshold
        then deficit_penalty threshold t else mesh_failure_penalty t
    end in
  mkTopicStats None dzero false (mesh_message_deliveries t) penalty (invalid_message_deliveries t).

Definition disconnect (now : Z) (peer_id : PeerId) (s : Score) : Score :=
  match peer_stats_ s !! peer_id with
  | None => s
  | Some p =>
      if dltb dzero (score s peer_id)
      then set_peer_stats (delete peer_id (peer_stats_ s)) s
      else
        let p := set_topics (map_imap (fun topic t => Some (disconnect_topic (params_ s) topic t))
                               (ptopics p)) p in
        let p := set_expires (Some (now + retain_score (params_ s) * sec)) p in
        set_peer_stats (<[peer_id := p]> (peer_stats_ s)) s
  end.

(** [x *= decay; if (x < decay_to_zero) x = 0]. *)
Definition decayed (c : ScoreConfig) (x decay : double) : double :=
  let x := dmul x decay in if dltb x (decay_to_zero c) then dzero else x.

Definition decay_topic (c : ScoreConfig) (now : Z) (topic : TopicHash) (t : TopicStats) :
    TopicStats :=
  match topics c !! topic with
  | None => t
  | Some p =>
      let active := match mesh_active t with
        | Some a => Some (mkMeshActive (graft_time a) (Z.quot (now - graft_time a) ms))
        | None => None
        end in
      let deliveries_active := match active with
        | Some a => if mesh_message_deliveries_activation p * 1000 <? mesh_time a
                    then true else mesh_message_deliveries_active t
        | None => mesh_message_deliveries_active t
        end in
      mkTopicStats active
        (decayed c (first_message_deliveries t) (first_message_deliveries_decay p))
        deliveries_active
        (decayed c (mesh_message_deliveries t) (mesh_message_deliveries_decay p))
        (decayed c (mesh_failure_penalty t) (mesh_failure_penalty_decay p))
        (decayed c (invalid_message_deliveries t) (invalid_message_deliveries_decay p))
  end.

(** One peer in [onDecay]; [None] erases it. *)
Definition decay_peer (c : ScoreConfig) (now : Z) (p : PeerStats) : option PeerStats :=
  match expires_at p with
  | Some e => if e <? now then None else Some p
  | None =>
      let p := set_topics (map_imap (fun topic t => Some (decay_topic c now topic t))
                             (ptopics p)) p in
      let p := set_behaviour (decayed c (behaviour_penalty p) (behaviour_penalty_decay c)) p in
      Some (set_slow (decayed c (slow_peer_penalty p) (slow_peer_decay c)) p)
  end.

Definition onDecay (now : Z) (s : Score) : Score :=
  set_peer_stats (map_imap (fun _ p => decay_peer (params_ s) now p) (peer_stats_ s)) s.

End Ops.

(** ** No exception

    Statistics exist only for topics with parameters, hence [at] never throws. *)

Definition known (s : Score) : Prop :=
  forall peer_id p topic, peer_stats_ s !! peer_id = Some p ->
    is_Some (ptopics p !! topic) -> is_Some (topics (params_ s) !! topic).

Definition known_peer (c : ScoreConfig) (p : PeerStats) : Prop :=
  forall topic, is_Some (ptopics p !! topic) -> is_Some (topics c !! topic).

Lemma known_lookup s peer_id p :
  known s -> peer_stats_ s !! peer_id = Some p -> known_peer (params_ s) p.
Proof. intros Hk Hp topic. by apply (Hk peer_id). Qed.

Lemma known_insert s peer_id p :
  known s -> known_peer (params_ s) p ->
  known (set_peer_stats (<[peer_id := p]> (peer_stats_ s)) s).
Proof.
  intros Hk Hp q p' topic. cbn. rewrite lookup_insert.
  case_decide; intros; simplify_eq; [by apply Hp|by eapply Hk].
Qed.

Lemma with_stats_ok peer_id topic f s :
  known s -> (forall t, is_Some (topics (params_ s) !! topic) -> is_Some (f t)) ->
  exists s', with_stats peer_id topic f s = Some s' /\ known s' /\ params_ s' = params_ s
    /\ deliveries_ s' = deliveries_ s.
Proof.
  intros Hk Hf. unfold with_stats.
  destruct (peer_stats_ s !! peer_id) as [p|] eqn:Ep; [|by exists s].
  pose proof (known_lookup s peer_id p Hk Ep) as Hp. unfold statsOrDefault.
  destruct (ptopics p !! topic) as [t|] eqn:Et.
  - assert (is_Some (topics (params_ s) !! topic)) as Ht by (apply Hp; by rewrite Et).
    destruct (Hf t Ht) as [t' ->]. eexists. split_and!; [done| |done|done].
    apply known_insert; [done|]. intros topic'. cbn. rewrite lookup_insert.
    case_decide; subst; [done|apply Hp].
  - case_decide as Ht; [|by exists s].
    destruct (Hf default_topic_stats Ht) as [t' ->]. eexists. split_and!; [done| |done|done].
    apply known_insert; [done|]. intros topic'. cbn. rewrite !lookup_insert.
    repeat case_decide; subst; try done. apply Hp.
Qed.

Lemma known_deliveries s d : known s -> known (set_deliveries d s).
Proof. done. Qed.

Ltac score_step :=
  intros Hk; apply with_stats_ok; [done|]; intros t [p Hp]; rewrite ?Hp;
  repeat (case_match; cbv zeta); by eexists.

Lemma graft_ok now peer_id topic s :
  known s -> exists s', graft now peer_id topic s = Some s' /\ known s'
    /\ params_ s' = params_ s /\ deliveries_ s' = deliveries_ s.
Proof. score_step. Qed.

Lemma prune_ok peer_id topic s :
  known s -> exists s', prune peer_id topic s = Some s' /\ known s'
    /\ params_ s' = params_ s /\ deliveries_ s' = deliveries_ s.
Proof. score_step. Qed.

Lemma mark_first_ok peer_id topic s :
  known s -> exists s', mark_first_message_delivery peer_id topic s = Some s' /\ known s'
    /\ params_ s' = params_ s /\ deliveries_ s' = deliveries_ s.
Proof. score_step. Qed.

Lemma mark_duplicate_ok now peer_id topic v s :
  known s -> exists s', mark_duplicate_message_delivery now peer_id topic v s = Some s'
    /\ known s' /\ params_ s' = params_ s /\ deliveries_ s' = deliveries_ s.
Proof. score_step. Qed.

Lemma mark_invalid_ok peer_id topic s :
  known s -> exists s', markInvalidMessageDelivery peer_id topic s = Some s' /\ known s'
    /\ params_ s' = params_ s /\ deliveries_ s' = deliveries_ s.
Proof. score_step. Qed.

Lemma duplicateMessage_ok now now' peer_id msg_id topic s :
  known s -> exists s', duplicateMessage now now' peer_id msg_id topic s = Some s' /\ known s'
    /\ params_ s' = params_ s.
Proof.
  intros Hk. unfold duplicateMessage.
  destruct (TimeCache.getOrDefault _ _ _ _) as [d record].
  case_decide; [by eexists|]. destruct (status record) as [|time| |]; try by eexists.
  - edestruct (mark_duplicate_ok now' peer_id topic (Some time)) as (s' & Hs' & H1 & H2 & _);
      [|exists s'; rewrite Hs'; done]. done.
  - edestruct (mark_invalid_ok peer_id topic) as (s' & Hs' & H1 & H2 & _);
      [|exists s'; rewrite Hs'; done]. done.
Qed.

Lemma deliver_message_ok now now' from msg_id topic s :
  known s -> exists s', deliver_message now now' from msg_id topic s = Some s' /\ known s'
    /\ params_ s' = params_ s.
Proof.
  intros Hk. unfold deliver_message.
  destruct (mark_first_ok from topic s Hk) as (s1 & -> & Hk1 & Hp1 & _).
  destruct (TimeCache.getOrDefault _ _ _ _) as [d record].
  destruct (status record); try (eexists; split; [done|]; by rewrite <- Hp1).
  set (s2 := set_deliveries (TimeCache.assign _ _ d) _).
  assert (known s2 /\ params_ s2 = params_ s) as [Hk2 Hp2] by done.
  clearbody s2. revert s2 Hk2 Hp2. induction (elements (rpeers record)) as [|q l IH]; intros s2 Hk2 Hp2.
  - by exists s2.
  - cbn [foldl]. case_decide; [by apply IH|].
    destruct (mark_duplicate_ok now' q topic None s2 Hk2) as (s3 & -> & Hk3 & Hp3 & _).
    apply IH; [done|]. by rewrite Hp3.
Qed.

Lemma validateMessage_ok now peer_id msg_id topic s :
  known s -> known (validateMessage now peer_id msg_id topic s).
Proof. done. Qed.

Lemma connect_ok peer_id s : known s -> known (connect peer_id s).
Proof.
  intros Hk. unfold connect. apply known_insert; [done|].
  destruct (peer_stats_ s !! peer_id) as [p|] eqn:Ep; cbn.
  - apply (known_lookup s peer_id p Hk Ep).
  - intros topic. cbn. rewrite lookup_empty. by intros [].
Qed.

Lemma addPenalty_ok peer_id n s : known s -> known (addPenalty peer_id n s).
Proof.
  intros Hk. unfold addPenalty. destruct (peer_stats_ s !! peer_id) as [p|] eqn:Ep; [|done].
  apply known_insert; [done|]. apply (known_lookup s peer_id p Hk Ep).
Qed.

Lemma known_imap c (f : TopicHash -> TopicStats -> TopicStats) p :
  known_peer c p ->
  known_peer c (set_topics (map_imap (fun topic t => Some (f topic t)) (ptopics p)) p).
Proof.
  intros Hp topic. cbn. rewrite map_lookup_imap. intros [t Ht]. apply Hp.
  destruct (ptopics p !! topic); [by eexists|done].
Qed.

Lemma disconnect_ok iter now peer_id s : known s -> known (disconnect iter now peer_id s).
Proof.
  intros Hk. unfold disconnect. destruct (peer_stats_ s !! peer_id) as [p|] eqn:Ep; [|done].
  case_match.
  - intros q p' topic. cbn. rewrite lookup_delete. case_decide; [done|]. by apply Hk.
  - apply known_insert; [done|].
    pose proof (known_imap (params_ s) (disconnect_topic (params_ s)) p
      (known_lookup s peer_id p Hk Ep)) as H'. exact H'.
Qed.

Lemma onDecay_ok now s : known s -> known (onDecay now s).
Proof.
  intros Hk q p topic. cbn. rewrite map_lookup_imap.
  destruct (peer_stats_ s !! q) as [p0|] eqn:Ep; cbn; [|done].
  pose proof (known_lookup s q p0 Hk Ep) as Hp. unfold decay_peer.
  destruct (expires_at p0) as [e|].
  - destruct (e <? now); intros; simplify_eq. by apply Hp.
  - intros ?; simplify_eq.
    pose proof (known_imap (params_ s) (decay_topic (params_ s) now) p0 Hp topic) as H'.
    exact H'.
Qed.

Lemma Score_new_known params : known (Score_new params).
Proof. intros q p topic. cbn. by rewrite lookup_empty. Qed.

(** ** Scores that are not numbers *)

Lemma dadd_nan_l x : dadd S754_nan x = S754_nan.
Proof. by destruct x. Qed.
Lemma dmul_nan_l x : dmul S754_nan x = S754_nan.
Proof. by destruct x. Qed.
Lemma dmul_nan_r x : dmul x S754_nan = S754_nan.
Proof. by destruct x. Qed.
Lemma dadd_nan_r x : dadd x S754_nan = S754_nan.
Proof. by destruct x. Qed.
Lemma dltb_nan_l x : dltb S754_nan x = false.
Proof. by destruct x. Qed.
Lemma dltb_nan_r x : dltb x S754_nan = false.
Proof. by destruct x. Qed.

Create Rewrite HintDb nan.
#[export] Hint Rewrite dadd_nan_l dadd_nan_r dmul_nan_l dmul_nan_r dltb_nan_l dltb_nan_r
  andb_false_r : nan.

(** Zero whole seconds divided by a quantum below one second. *)
Lemma topic_score_nan p t a :
  mesh_active t = Some a -> 0 <= mesh_time a < 1000 -> 0 <= time_in_mesh_quantum p < 1000 ->
  topic_score p t = S754_nan.
Proof.
  intros Ha Hm Hq. unfold topic_score, as_secs_f64, dmin. rewrite Ha.
  rewrite !Z.quot_small by lia. change (ddiv (dz 0) (dz 0)) with S754_nan.
  autorewrite with nan. destruct (_ && _); by autorewrite with nan.
Qed.

Lemma topics_score_nan c l topic p t :
  (topic, t) ∈ l -> topics c !! topic = Some p -> topic_score p t = S754_nan ->
  topics_score c l = S754_nan.
Proof.
  intros Hin Hp Ht. unfold topics_score.
  assert (forall l, foldl (fun score '(topic, t) =>
    match topics c !! topic with
    | None => score
    | Some p => dadd score (dmul (topic_score p t) (topic_weight p))
    end) S754_nan l = S754_nan) as Hnan.
  { clear. induction l as [|[topic t] l IH]; cbn [foldl]; [done|].
    destruct (topics c !! topic); by rewrite ?dadd_nan_l. }
  apply list_elem_of_split in Hin as (l1 & l2 & ->). rewrite foldl_app. cbn [foldl].
  rewrite Hp, Ht, dmul_nan_l, dadd_nan_r. apply Hnan.
Qed.

(** ** Sequences of calls *)

Inductive score_call :=
| CPenalty (peer_id : PeerId) (count : nat)
| CGraft (now : Z) (peer_id : PeerId) (topic : TopicHash)
| CPrune (peer_id : PeerId) (topic : TopicHash)
| CDuplicate (now now' : Z) (peer_id : PeerId) (msg_id : MessageId) (topic : TopicHash)
| CValidate (now : Z) (peer_id : PeerId) (msg_id : MessageId) (topic : TopicHash)
| CDeliver (now now' : Z) (peer_id : PeerId) (msg_id : MessageId) (topic : TopicHash)
| CConnect (peer_id : PeerId)
| CDisconnect (now : Z) (peer_id : PeerId)
| CDecay (now : Z).

Definition score_apply iter (c : score_call) (s : Score) : option Score :=
  match c with
  | CPenalty p n => Some (addPenalty p n s)
  | CGraft now p t => graft now p t s
  | CPrune p t => prune p t s
  | CDuplicate now now' p m t => duplicateMessage now now' p m t s
  | CValidate now p m t => Some (validateMessage now p m t s)
  | CDeliver now now' p m t => deliver_message now now' p m t s
  | CConnect p => Some (connect p s)
  | CDisconnect now p => Some (disconnect iter now p s)
  | CDecay now => Some (onDecay now s)
  end.

Fixpoint score_run iter (calls : list score_call) (s : Score) : option Score :=
  match calls with
  | [] => Some s
  | c :: calls => s ← score_apply iter c s; score_run iter calls s
  end.

Lemma score_apply_ok iter c s :
  known s -> exists s', score_apply iter c s = Some s' /\ known s'.
Proof.
  intros Hk. destruct c; cbn [score_apply];
    eauto using addPenalty_ok, validateMessage_ok, connect_ok, disconnect_ok, onDecay_ok.
  - destruct (graft_ok now peer_id topic s Hk) as (s' & ? & ? & _); eauto.
  - destruct (prune_ok peer_id topic s Hk) as (s' & ? & ? & _); eauto.
  - destruct (duplicateMessage_ok now now' peer_id msg_id topic s Hk) as (s' & ? & ? & _); eauto.
  - destruct (deliver_message_ok now now' peer_id msg_id topic s Hk) as (s' & ? & ? & _); eauto.
Qed.

Lemma score_run_ok iter calls s : known s -> is_Some (score_run iter calls s).
Proof.
  revert s. induction calls as [|c calls IH]; intros s Hk; cbn [score_run]; [by eexists|].
  destruct (score_apply_ok iter c s Hk) as (s' & -> & Hk'). by apply IH.
Qed.

Lemma onDecay_frozen now p st e s :
  peer_stats_ s !! p = Some st -> expires_at st = Some e -> now <= e ->
  peer_stats_ (onDecay now s) !! p = Some st.
Proof.
  intros Hp He Hn. cbn. rewrite map_lookup_imap, Hp. cbn. unfold decay_peer. rewrite He.
  by replace (e <? now) with false by lia.
Qed.

Lemma decays_frozen decays p st e s :
  peer_stats_ s !! p = Some st -> expires_at st = Some e -> Forall (fun t => t <= e) decays ->
  peer_stats_ (foldl (fun s t => onDecay t s) s decays) !! p = Some st.
Proof.
  intros Hp He Hd. revert s Hp. induction Hd as [|t decays Ht Hd IH]; intros s Hp; cbn [foldl].
  - done.
  - apply IH. by eapply onDecay_frozen.
Qed.

(** ** Properties *)

(** The scoring component never throws.  For every configuration and every
    sequence of calls on a new [Score], each [params_.topics.at(topic)] finds its
    topic. *)
Theorem score_never_throws iter params calls :
  is_Some (score_run iter calls (Score_new params)).
Proof. apply score_run_ok, Score_new_known. Qed.

(** Reconnecting does not wash a bad score away.  A peer whose score is
    not positive keeps its behaviour, slow-peer and application terms and every
    topic's invalid-delivery counter over a disconnection, for as long as the
    configured retention, whatever decay ticks happen meanwhile. *)
Theorem penalties_survive_reconnect iter now p st decays s :
  peer_stats_ s !! p = Some st -> dltb dzero (score iter s p) = false ->
  Forall (fun t => t <= now + retain_score (params_ s) * sec) decays ->
  exists st', peer_stats_ (connect p (foldl (fun s t => onDecay t s)
                (disconnect iter now p s) decays)) !! p = Some st'
    /\ expires_at st' = None
    /\ behaviour_penalty st' = behaviour_penalty st
    /\ slow_peer_penalty st' = slow_peer_penalty st
    /\ application_score st' = application_score st
    /\ forall topic, invalid_message_deliveries <$> (ptopics st' !! topic)
                   = invalid_message_deliveries <$> (ptopics st !! topic).
Proof.
  intros Hp Hs Hd. unfold disconnect. rewrite Hp, Hs.
  set (st1 := set_expires _ _). set (s1 := set_peer_stats _ s).
  assert (peer_stats_ (foldl (fun s t => onDecay t s) s1 decays) !! p = Some st1) as H1.
  { eapply decays_frozen; [by apply lookup_insert_eq|done|done]. }
  unfold connect. rewrite H1. cbn [default set_peer_stats peer_stats_].
  exists (set_expires None st1). rewrite lookup_insert_eq. split_and!; try done.
  intros topic. cbn. rewrite map_lookup_imap. by destruct (ptopics st !! topic).
Qed.

Lemma penalties_survive_reconnect_witness :
  let st := mkPeerStats None ∅ (dz 3) dzero dzero in
  let s := mkScore default_score_config {[ [1] := st ]} (TimeCache.make kTimeCacheDuration) in
  exists st', peer_stats_ (connect [1] (foldl (fun s t => onDecay t s)
                (disconnect map_to_list 5 [1] s) [10; 20])) !! [1] = Some st'
    /\ expires_at st' = None
    /\ behaviour_penalty st' = behaviour_penalty st
    /\ slow_peer_penalty st' = slow_peer_penalty st
    /\ application_score st' = application_score st
    /\ forall topic, invalid_message_deliveries <$> (ptopics st' !! topic)
                   = invalid_message_deliveries <$> (ptopics st !! topic).
Proof.
  intros st s. apply (penalties_survive_reconnect map_to_list 5 [1] st [10; 20] s).
  - reflexivity.
  - vm_compute. reflexivity.
  - repeat constructor; vm_compute; discriminate.
Defined.

(** With a [time_in_mesh_quantum] below one second (the default is one
    millisecond), [as_secs_f64] rounds it to zero, and a peer that has been in
    the mesh of a scored topic for less than a second has the score
    [0.0 / 0.0], not a number.  Every threshold test then fails: the peer is
    neither graylisted nor pruned nor refused, however large its penalties. *)
Theorem subsecond_quantum_disarms_thresholds iter s p st topic params t a threshold :
  peer_stats_ s !! p = Some st -> (topic, t) ∈ iter (ptopics st) ->
  topics (params_ s) !! topic = Some params -> mesh_active t = Some a ->
  0 <= mesh_time a < 1000 -> 0 <= time_in_mesh_quantum params < 1000 ->
  score iter s p = S754_nan /\ below iter s p threshold = false.
Proof.
  intros Hp Hin Hpar Ha Hm Hq.
  assert (score iter s p = S754_nan) as Hnan; [|split; [done|]; unfold below; by rewrite Hnan, dltb_nan_l].
  unfold score. rewrite Hp. unfold peer_score.
  rewrite (topics_score_nan _ _ _ _ _ Hin Hpar (topic_score_nan params t a Ha Hm Hq)).
  autorewrite with nan. repeat case_match; by autorewrite with nan.
Qed.

(** The default parameters, a penalty of a million. *)
Lemma subsecond_quantum_disarms_thresholds_witness :
  let t := mkTopicStats (Some (mkMeshActive 0 999)) dzero false dzero dzero dzero in
  let st := mkPeerStats None {[ [7] := t ]} (dz 1000000) dzero dzero in
  let cfg := {| zero := dzero; gossip_threshold := dz (-10); publish_threshold := dz (-50);
    graylist_threshold := dz (-80); opportunistic_graft_threshold := dz 20;
    topics := {[ [7] := default_topic_params ]}; topic_score_cap := dz 3600;
    app_specific_weight := dz 10; behaviour_penalty_weight := dz (-10);
    behaviour_penalty_threshold := dzero; behaviour_penalty_decay := dfrac 2 10;
    decay_interval := 1000; decay_to_zero := dfrac 1 10; retain_score := 3600;
    slow_peer_weight := dfrac (-2) 10; slow_peer_threshold := dzero;
    slow_peer_decay := dfrac 2 10 |} in
  let s := mkScore cfg {[ [1] := st ]} (TimeCache.make kTimeCacheDuration) in
  score map_to_list s [1] = S754_nan /\ below map_to_list s [1] (dz (-80)) = false.
Proof.
  intros t st cfg s.
  apply (subsecond_quantum_disarms_thresholds map_to_list s [1] st [7] default_topic_params t
    (mkMeshActive 0 999)); try reflexivity; try (cbn; lia).
  apply elem_of_map_to_list. reflexivity.
Defined.
