(* ===== verification/GossipState.v ===== *)
(** * Gossipsub: data and the execution monad

    Types of [include/libp2p/protocol/gossip/config.hpp], [gossip.hpp] and
    [gossip.proto], the state of class [Gossip], and the monad in which its
    handlers ([GossipOps], [GossipHandlers]) are written.

    - A [std::shared_ptr<Peer>] is a pointer into the [heap] field: a [Peer] is
      shared by [peers_], by the sets of every topic and by the running
      coroutines, and outlives its removal from [peers_].
    - [std::shared_ptr<Topic>] is owned by [topics_] under its hash.  Only
      publish-only topics are ever dropped from [topics_] and no caller holds
      one of those, so the hash identifies the object.
    - Messages are immutable once built: values.
    - Reading the clock, shuffling and traversing an unordered container are
      resolved by the environment ([Env]), a new answer at each use. *)

From S2P Require Import Prelude Keys TimeCache Backoff Score.

(** ** Configuration *)

Abbreviation ProtocolName := bytes.
Abbreviation Seqno := Z.

Definition kProtocolFloodsub : ProtocolName := str "/floodsub/1.0.0".
Definition kProtocolGossipsub : ProtocolName := str "/meshsub/1.0.0".
Definition kProtocolGossipsubv1_1 : ProtocolName := str "/meshsub/1.1.0".
Definition kProtocolGossipsubv1_2 : ProtocolName := str "/meshsub/1.2.0".

Inductive PeerKind := NotSupported | Floodsub | Gossipsub | Gossipsubv1_1 | Gossipsubv1_2.

#[global] Instance PeerKind_eq_dec : EqDecision PeerKind.
Proof. solve_decision. Defined.

(** The underlying value of the enumeration, which [>=] compares. *)
Definition kind_value (k : PeerKind) : Z :=
  match k with
  | NotSupported => 0 | Floodsub => 1 | Gossipsub => 2
  | Gossipsubv1_1 => 3 | Gossipsubv1_2 => 4
  end.

Inductive ValidationMode := ValidationStrict | ValidationAnonymous.
Inductive MessageAuthenticity := AuthSigned | AuthAnonymous.

Record Message := mkMessage {
  from : option PeerId;
  data : bytes;
  seqno : option Seqno;
  topic : TopicHash;
  signature : option bytes;
  received_from : option PeerId
}.

#[global] Instance Message_eq_dec : EqDecision Message.
Proof. solve_decision. Defined.

Record TopicMeshConfig := {
  mesh_n : nat;
  mesh_n_low : nat;
  mesh_n_high : nat;
  mesh_outbound_min : nat
}.

(** Durations are in the units of the source (seconds here). *)
Record Config := {
  message_id_fn : Message -> MessageId;
  validation_mode : ValidationMode;
  message_authenticity : MessageAuthenticity;
  protocol_versions : gmap ProtocolName PeerKind;
  duplicate_cache_time : Z;
  default_mesh_params : TopicMeshConfig;
  prune_backoff : nat;
  unsubscribe_backoff : nat;
  backoff_slack : nat;
  graft_flood_threshold : nat;
  heartbeat_interval : nat;
  fanout_ttl : Z;
  retain_scores : nat;
  history_length : nat;
  history_gossip : nat;
  gossip_retransimission : nat;
  gossip_lazy : nat;
  gossip_factor : double;
  max_ihave_length : nat;
  max_ihave_messages : nat;
  flood_publish : bool;
  idontwant_message_size_threshold : nat;
  idontwant_on_publish : bool;
  iwant_followup_time : Z;
  opportunistic_graft_ticks : nat;
  opportunistic_graft_peers : nat;
  score_config : ScoreConfig
}.

Definition mesh_n_for_topic (c : Config) (topic_hash : TopicHash) : nat :=
  mesh_n (default_mesh_params c).
Definition mesh_n_low_for_topic (c : Config) (topic_hash : TopicHash) : nat :=
  mesh_n_low (default_mesh_params c).
Definition mesh_n_high_for_topic (c : Config) (topic_hash : TopicHash) : nat :=
  mesh_n_high (default_mesh_params c).
Definition mesh_outbound_min_for_topic (c : Config) (topic_hash : TopicHash) : nat :=
  mesh_outbound_min (default_mesh_params c).

(** The initialisers of the struct; the message id function is the argument. *)
Definition default_mesh_config : TopicMeshConfig :=
  {| mesh_n := 6; mesh_n_low := 5; mesh_n_high := 12; mesh_outbound_min := 2 |}.

Definition default_config (f : Message -> MessageId) : Config := {|
  message_id_fn := f;
  validation_mode := ValidationStrict;
  message_authenticity := AuthSigned;
  protocol_versions := {[ kProtocolFloodsub := Floodsub;
                          kProtocolGossipsub := Gossipsub;
                          kProtocolGossipsubv1_1 := Gossipsubv1_1;
                          kProtocolGossipsubv1_2 := Gossipsubv1_2 ]};
  duplicate_cache_time := 60;
  default_mesh_params := default_mesh_config;
  prune_backoff := 60;
  unsubscribe_backoff := 10;
  backoff_slack := 1;
  graft_flood_threshold := 10;
  heartbeat_interval := 1;
  fanout_ttl := 60;
  retain_scores := 4;
  history_length := 5;
  history_gossip := 3;
  gossip_retransimission := 3;
  gossip_lazy := 6;
  gossip_factor := dfrac 1 4;
  max_ihave_length := 5000;
  max_ihave_messages := 10;
  flood_publish := true;
  idontwant_message_size_threshold := 1000;
  idontwant_on_publish := false;
  iwant_followup_time := 3;
  opportunistic_graft_ticks := 60;
  opportunistic_graft_peers := 2;
  score_config := default_score_config
|}.

(** ** Wire messages ([gossip.proto])

    Accessors of absent optional fields return the default value. *)

Record pb_Message := mkPbMessage {
  pb_from : option bytes;
  pb_data : option bytes;
  pb_seqno : option bytes;
  pb_topic : bytes;
  pb_signature : option bytes;
  pb_key : option bytes
}.

Record pb_SubOpts := mkSubOpts { so_subscribe : option bool; so_topic_id : option bytes }.
Record pb_IHave := mkIHave { ihave_topic_id : option bytes; ihave_message_ids : list bytes }.
Record pb_Prune := mkPrune { prune_topic_id : option bytes; prune_backoff_ : option Z }.

Record pb_Control := mkControl {
  c_ihave : list pb_IHave;
  c_iwant : list (list bytes);
  c_graft : list (option bytes);
  c_prune : list pb_Prune;
  c_idontwant : list (list bytes)
}.

Record pb_RPC := mkRPC {
  r_subscriptions : list pb_SubOpts;
  r_publish : list pb_Message;
  r_control : option pb_Control
}.

Definition pb_str (o : option bytes) : bytes := default [] o.
Definition empty_control : pb_Control := mkControl [] [] [] [] [].
Definition control (r : pb_RPC) : pb_Control := default empty_control (r_control r).

(** ** Outgoing batches *)

Record Rpc := mkRpc {
  subscriptions : gmap TopicHash bool;
  publish_ : list Message;
  graft_ : gset TopicHash;
  prune_ : gmap TopicHash (option nat);
  ihave_ : gmap TopicHash (list MessageId);
  iwant_ : gset MessageId;
  idontwant_ : gset MessageId
}.

Definition Rpc_new : Rpc := mkRpc ∅ [] ∅ ∅ ∅ ∅ ∅.

(** [Rpc::subscribe]: a toggle that cancels a pending opposite one. *)
Definition rpc_subscribe (topic_hash : TopicHash) (subscribe : bool) (r : Rpc) : Rpc :=
  let subs := match subscriptions r !! topic_hash with
    | Some b => if eqb b subscribe then subscriptions r else delete topic_hash (subscriptions r)
    | None => <[topic_hash := subscribe]> (subscriptions r)
    end in
  mkRpc subs (publish_ r) (graft_ r) (prune_ r) (ihave_ r) (iwant_ r) (idontwant_ r).

Definition rpc_publish (m : Message) (r : Rpc) : Rpc :=
  mkRpc (subscriptions r) (publish_ r ++ [m]) (graft_ r) (prune_ r) (ihave_ r) (iwant_ r) (idontwant_ r).
Definition rpc_graft (t : TopicHash) (r : Rpc) : Rpc :=
  mkRpc (subscriptions r) (publish_ r) ({[t]} ∪ graft_ r) (prune_ r) (ihave_ r) (iwant_ r) (idontwant_ r).
(** [prune.emplace]: an entry already there stays. *)
Definition rpc_prune (t : TopicHash) (b : option nat) (r : Rpc) : Rpc :=
  mkRpc (subscriptions r) (publish_ r) (graft_ r)
    (match prune_ r !! t with Some _ => prune_ r | None => <[t := b]> (prune_ r) end)
    (ihave_ r) (iwant_ r) (idontwant_ r).
Definition rpc_ihave (t : TopicHash) (ids : list MessageId) (r : Rpc) : Rpc :=
  mkRpc (subscriptions r) (publish_ r) (graft_ r) (prune_ r) (<[t := ids]> (ihave_ r)) (iwant_ r)
    (idontwant_ r).
Definition rpc_iwant (id : MessageId) (r : Rpc) : Rpc :=
  mkRpc (subscriptions r) (publish_ r) (graft_ r) (prune_ r) (ihave_ r) ({[id]} ∪ iwant_ r) (idontwant_ r).
Definition rpc_idontwant (id : MessageId) (r : Rpc) : Rpc :=
  mkRpc (subscriptions r) (publish_ r) (graft_ r) (prune_ r) (ihave_ r) (iwant_ r) ({[id]} ∪ idontwant_ r).

(** ** Peers and topics *)

Abbreviation PeerPtr := nat.
Abbreviation StreamPtr := nat.

Record Peer := mkPeer {
  peer_id_ : PeerId;
  out_ : bool;
  peer_kind_ : option PeerKind;
  peer_topics_ : gset TopicHash;
  stream_out_ : option StreamPtr;
  streams_in_ : gset StreamPtr;
  batch_ : option Rpc;
  writing_ : bool;
  is_connecting_ : bool;
  dont_send_ : TimeCache.t MessageId unit
}.

Definition Peer_new (peer_id : PeerId) (out : bool) : Peer :=
  mkPeer peer_id out None ∅ None ∅ None false false IDontWantCache.make.

Definition isFloodsub (p : Peer) : bool :=
  match peer_kind_ p with None => true | Some k => kind_value k =? kind_value Floodsub end.
Definition kind_at_least (k : PeerKind) (p : Peer) : bool :=
  match peer_kind_ p with None => false | Some k' => kind_value k <=? kind_value k' end.
Definition isGossipsub : Peer -> bool := kind_at_least Gossipsub.
Definition isGossipsubv1_1 : Peer -> bool := kind_at_least Gossipsubv1_1.
Definition isGossipsubv1_2 : Peer -> bool := kind_at_least Gossipsubv1_2.

Record Topic := mkTopic {
  topic_hash_ : TopicHash;
  publish_only_ : bool;
  receive_channel_ : list Message;
  history_ : list (list MessageId);
  backoff_ : TopicBackoff.t PeerPtr;
  topic_peers_ : gset PeerPtr;
  mesh_peers_ : gset PeerPtr;
  last_publish_ : Z
}.

Record MessageCacheEntry := mkEntry { cached_message : Message; cached_iwant : gmap PeerId nat }.

(** ** Environment *)

Class Env := {
  (** [Clock::now()] at its [n]-th use. *)
  clock : nat -> Z;
  (** [std::ranges::shuffle] with the engine's state at its [n]-th use. *)
  shuffle : forall {A : Type}, nat -> list A -> list A;
  (** The order in which the [n]-th traversal of an unordered container meets its elements. *)
  order : forall {A : Type}, nat -> list A -> list A;
  (** The same for the topics summed by [Score::score]. *)
  score_order : gmap TopicHash TopicStats -> list (TopicHash * TopicStats);
  (** [host_->getId()]. *)
  host_id : PeerId;
  (** The key pair of the node, and what the crypto provider and the key marshaller
      ([Keys.v]) use of other libraries. *)
  host_keys : KeyPair;
  providers : Providers;
  rsa_der : RsaDer;
  key_protobuf : Protobuf;
  (** Code generated by protobuf. *)
  encode_message : pb_Message -> bytes;
  encode_rpc : pb_RPC -> bytes;
  decode_rpc : bytes -> option pb_RPC
}.

#[export] Existing Instances providers rsa_der key_protobuf.

(** What the code relies on: a steady clock, and that shuffling and traversal
    neither lose nor repeat elements. *)
Class EnvLaws (E : Env) : Prop := {
  clock_steady : forall n, clock n <= clock (S n);
  shuffle_permutes : forall A n (l : list A), shuffle n l ≡ₚ l;
  order_permutes : forall A n (l : list A), order n l ≡ₚ l;
  (** The node has a key to sign with. *)
  crypto_sign_ok : forall b, exists sig, Provider.sign b (privateKey host_keys) = Some (success sig);
  (** Only the message without any field has the empty encoding. *)
  encode_rpc_nonempty : forall r, encode_rpc r = [] -> r = mkRPC [] [] None
}.

(** ** State of [Gossip] *)

(** Where a writer coroutine of [checkWrite] waits: for its first turn, or for
    the completion of the write of [current] with [rest] still to write. *)
Inductive writer := Starting | Sending (current : bytes) (rest : list bytes).

(** Undefined behaviour: what the crypto provider reads beyond the end of a signature or a
    key, a sort by a comparison that is no strict weak order, and the conversion to [size_t]
    of a number that is not in its range. *)
Inductive ub :=
| Overrun (pb : pb_Message)
| Unordered (scores : list double)
| OutOfRange (count : double).

Record Gossip := mkGossip {
  topics_ : gmap TopicHash Topic;
  peers_ : gmap PeerId PeerPtr;
  last_seq_no : Seqno;
  duplicate_cache_ : TimeCache.t MessageId unit;
  message_cache_ : gmap MessageId MessageCacheEntry;
  gossip_promises_ : GossipPromises.t MessageId PeerPtr;
  score_ : Score;
  heartbeat_ticks_ : Z;
  count_received_ihave_ : gmap PeerPtr nat;
  count_sent_iwant_ : gmap PeerPtr nat;
  (** Memory: the [Peer] objects, the next address, the running writers. *)
  heap : gmap PeerPtr Peer;
  next_ptr : PeerPtr;
  writers : gmap PeerPtr writer;
  (** Uses of the environment so far. *)
  uses : nat;
  (** The first undefined behaviour; from there on the program may do anything, and what
      the model does stands for one way to go on. *)
  undefined : option ub
}.

(** Updates of one field. *)
Definition set_topics_ f (s : Gossip) : Gossip :=
  mkGossip (f (topics_ s)) (peers_ s) (last_seq_no s) (duplicate_cache_ s) (message_cache_ s)
    (gossip_promises_ s) (score_ s) (heartbeat_ticks_ s) (count_received_ihave_ s)
    (count_sent_iwant_ s) (heap s) (next_ptr s) (writers s) (uses s) (undefined s).
Definition set_peers_ f (s : Gossip) : Gossip :=
  mkGossip (topics_ s) (f (peers_ s)) (last_seq_no s) (duplicate_cache_ s) (message_cache_ s)
    (gossip_promises_ s) (score_ s) (heartbeat_ticks_ s) (count_received_ihave_ s)
    (count_sent_iwant_ s) (heap s) (next_ptr s) (writers s) (uses s) (undefined s).
Definition set_last_seq_no f (s : Gossip) : Gossip :=
  mkGossip (topics_ s) (peers_ s) (f (last_seq_no s)) (duplicate_cache_ s) (message_cache_ s)
    (gossip_promises_ s) (score_ s) (heartbeat_ticks_ s) (count_received_ihave_ s)
    (count_sent_iwant_ s) (heap s) (next_ptr s) (writers s) (uses s) (undefined s).
Definition set_duplicate_cache_ f (s : Gossip) : Gossip :=
  mkGossip (topics_ s) (peers_ s) (last_seq_no s) (f (duplicate_cache_ s)) (message_cache_ s)
    (gossip_promises_ s) (score_ s) (heartbeat_ticks_ s) (count_received_ihave_ s)
    (count_sent_iwant_ s) (heap s) (next_ptr s) (writers s) (uses s) (undefined s).
Definition set_message_cache_ f (s : Gossip) : Gossip :=
  mkGossip (topics_ s) (peers_ s) (last_seq_no s) (duplicate_cache_ s) (f (message_cache_ s))
    (gossip_promises_ s) (score_ s) (heartbeat_ticks_ s) (count_received_ihave_ s)
    (count_sent_iwant_ s) (heap s) (next_ptr s) (writers s) (uses s) (undefined s).
Definition set_gossip_promises_ f (s : Gossip) : Gossip :=
  mkGossip (topics_ s) (peers_ s) (last_seq_no s) (duplicate_cache_ s) (message_cache_ s)
    (f (gossip_promises_ s)) (score_ s) (heartbeat_ticks_ s) (count_received_ihave_ s)
    (count_sent_iwant_ s) (heap s) (next_ptr s) (writers s) (uses s) (undefined s).
Definition set_score_ f (s : Gossip) : Gossip :=
  mkGossip (topics_ s) (peers_ s) (last_seq_no s) (duplicate_cache_ s) (message_cache_ s)
    (gossip_promises_ s) (f (score_ s)) (heartbeat_ticks_ s) (count_received_ihave_ s)
    (count_sent_iwant_ s) (heap s) (next_ptr s) (writers s) (uses s) (undefined s).
Definition set_heartbeat_ticks_ f (s : Gossip) : Gossip :=
  mkGossip (topics_ s) (peers_ s) (last_seq_no s) (duplicate_cache_ s) (message_cache_ s)
    (gossip_promises_ s) (score_ s) (f (heartbeat_ticks_ s)) (count_received_ihave_ s)
    (count_sent_iwant_ s) (heap s) (next_ptr s) (writers s) (uses s) (undefined s).
Definition set_count_received_ihave_ f (s : Gossip) : Gossip :=
  mkGossip (topics_ s) (peers_ s) (last_seq_no s) (duplicate_cache_ s) (message_cache_ s)
    (gossip_promises_ s) (score_ s) (heartbeat_ticks_ s) (f (count_received_ihave_ s))
    (count_sent_iwant_ s) (heap s) (next_ptr s) (writers s) (uses s) (undefined s).
Definition set_count_sent_iwant_ f (s : Gossip) : Gossip :=
  mkGossip (topics_ s) (peers_ s) (last_seq_no s) (duplicate_cache_ s) (message_cache_ s)
    (gossip_promises_ s) (score_ s) (heartbeat_ticks_ s) (count_received_ihave_ s)
    (f (count_sent_iwant_ s)) (heap s) (next_ptr s) (writers s) (uses s) (undefined s).
Definition set_heap f (s : Gossip) : Gossip :=
  mkGossip (topics_ s) (peers_ s) (last_seq_no s) (duplicate_cache_ s) (message_cache_ s)
    (gossip_promises_ s) (score_ s) (heartbeat_ticks_ s) (count_received_ihave_ s)
    (count_sent_iwant_ s) (f (heap s)) (next_ptr s) (writers s) (uses s) (undefined s).
Definition set_next_ptr f (s : Gossip) : Gossip :=
  mkGossip (topics_ s) (peers_ s) (last_seq_no s) (duplicate_cache_ s) (message_cache_ s)
    (gossip_promises_ s) (score_ s) (heartbeat_ticks_ s) (count_received_ihave_ s)
    (count_sent_iwant_ s) (heap s) (f (next_ptr s)) (writers s) (uses s) (undefined s).
Definition set_writers f (s : Gossip) : Gossip :=
  mkGossip (topics_ s) (peers_ s) (last_seq_no s) (duplicate_cache_ s) (message_cache_ s)
    (gossip_promises_ s) (score_ s) (heartbeat_ticks_ s) (count_received_ihave_ s)
    (count_sent_iwant_ s) (heap s) (next_ptr s) (f (writers s)) (uses s) (undefined s).
Definition set_uses f (s : Gossip) : Gossip :=
  mkGossip (topics_ s) (peers_ s) (last_seq_no s) (duplicate_cache_ s) (message_cache_ s)
    (gossip_promises_ s) (score_ s) (heartbeat_ticks_ s) (count_received_ihave_ s)
    (count_sent_iwant_ s) (heap s) (next_ptr s) (writers s) (f (uses s)) (undefined s).
Definition set_undefined f (s : Gossip) : Gossip :=
  mkGossip (topics_ s) (peers_ s) (last_seq_no s) (duplicate_cache_ s) (message_cache_ s)
    (gossip_promises_ s) (score_ s) (heartbeat_ticks_ s) (count_received_ihave_ s)
    (count_sent_iwant_ s) (heap s) (next_ptr s) (writers s) (uses s) (f (undefined s)).

Definition set_peer_kind k (p : Peer) : Peer :=
  mkPeer (peer_id_ p) (out_ p) k (peer_topics_ p) (stream_out_ p) (streams_in_ p) (batch_ p)
    (writing_ p) (is_connecting_ p) (dont_send_ p).
Definition set_peer_topics f (p : Peer) : Peer :=
  mkPeer (peer_id_ p) (out_ p) (peer_kind_ p) (f (peer_topics_ p)) (stream_out_ p) (streams_in_ p)
    (batch_ p) (writing_ p) (is_connecting_ p) (dont_send_ p).
Definition set_stream_out o (p : Peer) : Peer :=
  mkPeer (peer_id_ p) (out_ p) (peer_kind_ p) (peer_topics_ p) o (streams_in_ p) (batch_ p)
    (writing_ p) (is_connecting_ p) (dont_send_ p).
Definition set_streams_in f (p : Peer) : Peer :=
  mkPeer (peer_id_ p) (out_ p) (peer_kind_ p) (peer_topics_ p) (stream_out_ p) (f (streams_in_ p))
    (batch_ p) (writing_ p) (is_connecting_ p) (dont_send_ p).
Definition set_batch b (p : Peer) : Peer :=
  mkPeer (peer_id_ p) (out_ p) (peer_kind_ p) (peer_topics_ p) (stream_out_ p) (streams_in_ p) b
    (writing_ p) (is_connecting_ p) (dont_send_ p).
Definition set_writing b (p : Peer) : Peer :=
  mkPeer (peer_id_ p) (out_ p) (peer_kind_ p) (peer_topics_ p) (stream_out_ p) (streams_in_ p)
    (batch_ p) b (is_connecting_ p) (dont_send_ p).
Definition set_is_connecting b (p : Peer) : Peer :=
  mkPeer (peer_id_ p) (out_ p) (peer_kind_ p) (peer_topics_ p) (stream_out_ p) (streams_in_ p)
    (batch_ p) (writing_ p) b (dont_send_ p).
Definition set_dont_send d (p : Peer) : Peer :=
  mkPeer (peer_id_ p) (out_ p) (peer_kind_ p) (peer_topics_ p) (stream_out_ p) (streams_in_ p)
    (batch_ p) (writing_ p) (is_connecting_ p) d.

Definition set_publish_only b (t : Topic) : Topic :=
  mkTopic (topic_hash_ t) b (receive_channel_ t) (history_ t) (backoff_ t) (topic_peers_ t)
    (mesh_peers_ t) (last_publish_ t).
Definition set_receive_channel f (t : Topic) : Topic :=
  mkTopic (topic_hash_ t) (publish_only_ t) (f (receive_channel_ t)) (history_ t) (backoff_ t)
    (topic_peers_ t) (mesh_peers_ t) (last_publish_ t).
Definition set_history f (t : Topic) : Topic :=
  mkTopic (topic_hash_ t) (publish_only_ t) (receive_channel_ t) (f (history_ t)) (backoff_ t)
    (topic_peers_ t) (mesh_peers_ t) (last_publish_ t).
Definition set_backoff f (t : Topic) : Topic :=
  mkTopic (topic_hash_ t) (publish_only_ t) (receive_channel_ t) (history_ t) (f (backoff_ t))
    (topic_peers_ t) (mesh_peers_ t) (last_publish_ t).
Definition set_topic_peers f (t : Topic) : Topic :=
  mkTopic (topic_hash_ t) (publish_only_ t) (receive_channel_ t) (history_ t) (backoff_ t)
    (f (topic_peers_ t)) (mesh_peers_ t) (last_publish_ t).
Definition set_mesh_peers f (t : Topic) : Topic :=
  mkTopic (topic_hash_ t) (publish_only_ t) (receive_channel_ t) (history_ t) (backoff_ t)
    (topic_peers_ t) (f (mesh_peers_ t)) (last_publish_ t).
Definition set_last_publish z (t : Topic) : Topic :=
  mkTopic (topic_hash_ t) (publish_only_ t) (receive_channel_ t) (history_ t) (backoff_ t)
    (topic_peers_ t) (mesh_peers_ t) z.

(** ** The execution monad

    A handler maps the state to a new state and a result; [None] is a failed
    assertion, an exception or an access outside of a container. *)

Definition M (A : Type) : Type := Gossip -> option (Gossip * A).

#[global] Instance M_ret : MRet M := fun A a s => Some (s, a).
#[global] Instance M_bind : MBind M := fun A B k m s =>
  match m s with Some (s', a) => k a s' | None => None end.

Definition fail {A} : M A := fun _ => None.
Definition gets {A} (f : Gossip -> A) : M A := fun s => Some (s, f s).
Definition modify (f : Gossip -> Gossip) : M unit := fun s => Some (f s, tt).
(** Undefined behaviour unless [ok]. *)
Definition checked (ok : bool) (u : ub) : M unit :=
  if ok then mret tt else modify (set_undefined (fun o => Some (default u o))).
(** A value that may be missing. *)
Definition get_or_fail {A} (o : option A) : M A :=
  match o with Some a => mret a | None => fail end.

(** A loop that always runs to its end. *)
Fixpoint forM_ {A} (l : list A) (f : A -> M unit) : M unit :=
  match l with
  | [] => mret tt
  | x :: l => f x ;; forM_ l f
  end.

(** A loop left by [break] or [return] when the body gives [false]. *)
Fixpoint forM_while {A} (l : list A) (f : A -> M bool) : M bool :=
  match l with
  | [] => mret true
  | x :: l => go ← f x; if go : bool then forM_while l f else mret false
  end.

Definition whenM (b : bool) (m : M unit) : M unit := if b then m else mret tt.

(** Access through a [PeerPtr] and to a topic. *)
Definition deref (p : PeerPtr) : M Peer := fun s =>
  match heap s !! p with Some peer => Some (s, peer) | None => None end.
Definition update_peer (p : PeerPtr) (f : Peer -> Peer) : M unit := fun s =>
  match heap s !! p with
  | Some peer => Some (set_heap <[p := f peer]> s, tt)
  | None => None
  end.
Definition get_topic (h : TopicHash) : M Topic := fun s =>
  match topics_ s !! h with Some t => Some (s, t) | None => None end.
Definition update_topic (h : TopicHash) (f : Topic -> Topic) : M unit := fun s =>
  match topics_ s !! h with
  | Some t => Some (set_topics_ <[h := f t]> s, tt)
  | None => None
  end.
Definition update_score (f : Score -> option Score) : M unit := fun s =>
  match f (score_ s) with Some sc => Some (set_score_ (fun _ => sc) s, tt) | None => None end.

(** Answers of the environment. *)
Section Environment.
Context `{Env}.

Definition now_ : M Z := fun s => Some (set_uses S s, clock (uses s)).
Definition shuffle_ {A} (l : list A) : M (list A) := fun s => Some (set_uses S s, shuffle (uses s) l).
Definition order_ {A} (l : list A) : M (list A) := fun s => Some (set_uses S s, order (uses s) l).
Definition peer_below (p : Peer) (threshold : double) : M bool :=
  gets (fun s => below score_order (score_ s) (peer_id_ p) threshold).

End Environment.

(** ** Total correctness of a handler

    [wp m s Q]: run from [s], [m] does not fail and ends in a result and state
    satisfying [Q]. *)

Definition wp {A} (m : M A) (s : Gossip) (Q : A -> Gossip -> Prop) : Prop :=
  match m s with Some (s', a) => Q a s' | None => False end.

Lemma wp_bind {A B} (m : M A) (k : A -> M B) (s : Gossip) Q :
  wp m s (fun a s' => wp (k a) s' Q) -> wp (m ≫= k) s Q.
Proof. unfold wp, mbind, M_bind. by destruct (m s) as [[]|]. Qed.

Lemma wp_ret {A} (a : A) s (Q : A -> Gossip -> Prop) : Q a s -> wp (mret a) s Q.
Proof. done. Qed.

Lemma wp_mono {A} (m : M A) s (Q Q' : A -> Gossip -> Prop) :
  wp m s Q -> (forall a s', Q a s' -> Q' a s') -> wp m s Q'.
Proof. unfold wp. destruct (m s) as [[]|]; auto. Qed.

Lemma wp_and {A} (m : M A) s (Q Q' : A -> Gossip -> Prop) :
  wp m s Q -> wp m s Q' -> wp m s (fun a s' => Q a s' /\ Q' a s').
Proof. unfold wp. destruct (m s) as [[]|]; auto. Qed.

Lemma wp_run {A} (m : M A) s Q : wp m s Q -> exists s' a, m s = Some (s', a) /\ Q a s'.
Proof. unfold wp. destruct (m s) as [[s' a]|]; [eauto|done]. Qed.

Lemma wp_of_run {A} (m : M A) s s' a (Q : A -> Gossip -> Prop) : m s = Some (s', a) -> wp m s Q -> Q a s'.
Proof. unfold wp. by intros ->. Qed.

(** Loops: [I] relates the elements still to come and the state. *)
Lemma wp_forM {A} (l : list A) (f : A -> M unit) (I : list A -> Gossip -> Prop) s Q :
  I l s ->
  (forall x rest s, I (x :: rest) s -> wp (f x) s (fun _ => I rest)) ->
  (forall s, I [] s -> Q tt s) ->
  wp (forM_ l f) s Q.
Proof.
  intros Hl Hf HQ. revert s Hl. induction l as [|x l IH]; intros s Hl; cbn [forM_].
  { by apply HQ. }
  apply wp_bind. eapply wp_mono; [by apply Hf|]. intros [] s' Hs'. by apply IH.
Qed.

(** As above for a loop that can be left: on leaving, the elements not visited
    are those of the suffix [rest]. *)
Lemma wp_forM_while {A} (l : list A) (f : A -> M bool) (I : list A -> Gossip -> Prop)
    (Q : bool -> Gossip -> Prop) s :
  I l s ->
  (forall x rest s, I (x :: rest) s ->
     wp (f x) s (fun go s' => if go : bool then I rest s' else Q false s')) ->
  (forall s, I [] s -> Q true s) ->
  wp (forM_while l f) s Q.
Proof.
  intros Hl Hf HQ. revert s Hl. induction l as [|x l IH]; intros s Hl; cbn [forM_while].
  { by apply HQ. }
  apply wp_bind. eapply wp_mono; [by apply Hf|]. intros [] s' Hs'; [by apply IH|done].
Qed.
