(* ===== verification/GossipOps.v ===== *)
(** * Gossipsub: wire conversion, batches, the writer and mesh primitives

    The functions of [src/protocol/gossip/gossip.cpp] that the handlers
    ([GossipHandlers]) are built from. *)

From S2P Require Import Prelude TimeCache Backoff Score GossipState.

(** ** Conversion to wire messages *)

(** [boost::endian::store_big_u64] / [load_big_u64]. *)
Definition store_big_u64 (z : Z) : bytes :=
  map (fun i => (z / 2 ^ (8 * (7 - Z.of_nat i))) mod 256) (seq 0 8).
Definition load_big_u64 (bs : bytes) : Z := foldl (fun acc b => acc * 256 + b) 0 bs.

(** [toProtobuf]. *)
Definition toProtobuf (message : Message) : pb_Message :=
  mkPbMessage (from message) (Some (data message)) (store_big_u64 <$> seqno message)
    (topic message) (signature message) None.

Definition kSigningContext : bytes := str "libp2p-pubsub:".

Section Ops.
Context `{Env} (config_ : Config).

(** [getSignable]: the context and the encoding without signature and key. *)
Definition getSignable (pb : pb_Message) : bytes :=
  kSigningContext ++
  encode_message (mkPbMessage (pb_from pb) (pb_data pb) (pb_seqno pb) (pb_topic pb) None None).

(** [splitBatch]: one message with everything but the publications, when there
    is anything of that kind, then one per publication. *)
Definition splitBatch (message : Rpc) : M (list bytes) :=
  first ←
    (if decide (subscriptions message = ∅ /\ graft_ message = ∅ /\ prune_ message = ∅
                /\ ihave_ message = ∅ /\ iwant_ message = ∅ /\ idontwant_ message = ∅)
     then mret []
     else
       subs ← order_ (map_to_list (subscriptions message));
       grafts ← order_ (elements (graft_ message));
       prunes ← order_ (map_to_list (prune_ message));
       ihaves ← order_ (map_to_list (ihave_ message));
       iwants ← order_ (elements (iwant_ message));
       idontwants ← order_ (elements (idontwant_ message));
       let control :=
         mkControl
           (map (fun '(h, ids) => mkIHave (Some h) ids) ihaves)
           (if decide (iwant_ message = ∅) then [] else [iwants])
           (map Some grafts)
           (map (fun '(h, b) => mkPrune (Some h) (Z.of_nat <$> b)) prunes)
           (if decide (idontwant_ message = ∅) then [] else [idontwants]) in
       let has_control := negb (bool_decide (graft_ message = ∅ /\ prune_ message = ∅
         /\ ihave_ message = ∅ /\ iwant_ message = ∅ /\ idontwant_ message = ∅)) in
       mret [encode_rpc (mkRPC (map (fun '(h, b) => mkSubOpts (Some b) (Some h)) subs) []
                           (if has_control then Some control else None))]);
  mret (first ++ map (fun m => encode_rpc (mkRPC [] [toProtobuf m] None)) (publish_ message)).

(** ** Batches and the writer coroutine *)

(** [coroSpawn] of the writer: a second one for the same peer is an error. *)
Definition spawn_writer (p : PeerPtr) : M unit := fun s =>
  match writers s !! p with
  | Some _ => None
  | None => Some (set_writers <[p := Starting]> s, tt)
  end.

Definition checkWrite (p : PeerPtr) : M unit :=
  peer ← deref p;
  if writing_ peer then mret tt
  else match stream_out_ peer with
  | None => mret tt
  | Some _ =>
      match batch_ peer with
      | None => mret tt
      | Some _ => update_peer p (set_writing true) ;; spawn_writer p
      end
  end.

Definition getBatch (p : PeerPtr) : M unit :=
  update_peer p (fun peer => match batch_ peer with
                             | None => set_batch (Some Rpc_new) peer
                             | Some _ => peer
                             end) ;;
  checkWrite p.

(** [getBatch(peer)] followed by a change [f] of the batch it refers to. *)
Definition with_batch (p : PeerPtr) (f : Rpc -> Rpc) : M unit :=
  getBatch p ;; update_peer p (fun peer => set_batch (f <$> batch_ peer) peer).

(** The end of the coroutine. *)
Definition writer_finish (p : PeerPtr) : M unit :=
  update_peer p (set_writing false) ;; modify (set_writers (delete p)).

(** Start writing [current]; [peer->stream_out_.value()] throws without a stream. *)
Definition writer_write (p : PeerPtr) (current : bytes) (rest : list bytes) : M unit :=
  peer ← deref p;
  match current, stream_out_ peer with
  | [], _ | _, None => fail
  | _, Some _ => modify (set_writers <[p := Sending current rest]>)
  end.

(** The head of the loop.  When the batch splits into no message the loop comes
    back at once and finds no batch. *)
Definition writer_next (p : PeerPtr) : M unit :=
  peer ← deref p;
  match batch_ peer with
  | None => writer_finish p
  | Some message =>
      update_peer p (set_batch None) ;;
      msgs ← splitBatch message;
      match msgs with
      | [] => writer_finish p
      | current :: rest => writer_write p current rest
      end
  end.

(** The coroutine resumes: for the first time, or because its write completed
    ([ok]) or failed. *)
Definition writer_resume (p : PeerPtr) (ok : bool) : M unit :=
  w ← gets (fun s => writers s !! p);
  match w with
  | None => mret tt
  | Some Starting =>
      peer ← deref p;
      if writing_ peer && bool_decide (is_Some (stream_out_ peer)) then writer_next p else fail
  | Some (Sending _ rest) =>
      if ok then
        match rest with
        | [] =>
            peer ← deref p;
            match stream_out_ peer with None => writer_finish p | Some _ => writer_next p end
        | current :: rest => writer_write p current rest
        end
      else update_peer p (set_stream_out None) ;; writer_finish p
  end.

(** ** Backoff *)

(** [backoff] is a count of seconds ([int64_t]); the sum is a [size_t]. *)
Definition update_backoff (h : TopicHash) (p : PeerPtr) (backoff : Z) : M unit :=
  if decide (heartbeat_interval config_ = 0%nat) then fail
  else update_topic h (set_backoff (TopicBackoff.update p
         (u64 (Z.quot backoff (Z.of_nat (heartbeat_interval config_))
               + Z.of_nat (backoff_slack config_))))).

Definition get_backoff_time (t : Topic) (p : PeerPtr) : nat :=
  (saturating_sub (TopicBackoff.get p (backoff_ t)) (backoff_slack config_)
   * heartbeat_interval config_)%nat.

Definition is_backoff_with_slack (t : Topic) (p : PeerPtr) : bool :=
  (0 <? TopicBackoff.get p (backoff_ t))%nat.

(** ** Mesh primitives *)

Definition updatePeerKind (p : PeerPtr) (protocol : ProtocolName) : M unit :=
  peer ← deref p;
  match peer_kind_ peer with
  | Some _ => mret tt
  | None =>
      kind ← get_or_fail (protocol_versions config_ !! protocol);
      update_peer p (set_peer_kind (Some kind))
  end.

(** [Gossip::graft], with its assertion. *)
Definition graft (h : TopicHash) (p : PeerPtr) : M unit :=
  t ← get_topic h;
  if decide (p ∈ mesh_peers_ t) then fail
  else
    update_topic h (set_mesh_peers (fun m => {[p]} ∪ m)) ;;
    peer ← deref p;
    now ← now_;
    update_score (Score.graft now (peer_id_ peer) (topic_hash_ t)) ;;
    with_batch p (rpc_graft (topic_hash_ t)).

Definition make_prune (h : TopicHash) (p : PeerPtr) : M unit :=
  t ← get_topic h;
  peer ← deref p;
  if negb (isGossipsub peer) then mret tt
  else
    update_score (Score.prune (peer_id_ peer) (topic_hash_ t)) ;;
    (if isGossipsubv1_1 peer then update_backoff h p (Z.of_nat (prune_backoff config_)) else mret tt) ;;
    with_batch p (rpc_prune (topic_hash_ t)
      (if isGossipsubv1_1 peer then Some (prune_backoff config_) else None)).

Definition remove_peer_from_mesh (h : TopicHash) (p : PeerPtr) (backoff : option Z)
    (always_update_backoff : bool) : M unit :=
  ot ← gets (fun s => topics_ s !! h);
  match ot with
  | None => mret tt
  | Some t =>
      let peer_removed := bool_decide (p ∈ mesh_peers_ t) in
      update_topic h (set_mesh_peers (fun m => m ∖ {[p]})) ;;
      peer ← deref p;
      (if peer_removed then update_score (Score.prune (peer_id_ peer) h) else mret tt) ;;
      if always_update_backoff || peer_removed
      then update_backoff h p (default (Z.of_nat (prune_backoff config_)) backoff)
      else mret tt
  end.

Fixpoint deref_all (l : list PeerPtr) : M (list Peer) :=
  match l with
  | [] => mret []
  | p :: l => peer ← deref p; rest ← deref_all l; mret (peer :: rest)
  end.

(** [Topic::meshOutCount]. *)
Definition meshOutCount (t : Topic) : M nat :=
  l ← order_ (elements (mesh_peers_ t));
  peers ← deref_all l;
  mret (length (filter (fun peer => out_ peer) peers)).

(** ** [ChoosePeers] *)

(** The loop of [choose]; the predicates only read the state. *)
Fixpoint choose_filter (predicate : PeerPtr -> Peer -> bool) (l : list PeerPtr) : M (list PeerPtr) :=
  match l with
  | [] => mret []
  | p :: l =>
      peer ← deref p;
      rest ← choose_filter predicate l;
      mret (if isGossipsub peer && predicate p peer then p :: rest else rest)
  end.

Definition choose_by (all : gset PeerPtr) (predicate : PeerPtr -> Peer -> bool)
    (get_count : nat -> M nat) : M (list PeerPtr) :=
  l ← order_ (elements all);
  chosen ← choose_filter predicate l;
  chosen ← shuffle_ chosen;
  count ← get_count (length chosen);
  mret (take count chosen).

Definition choose (all : gset PeerPtr) (predicate : PeerPtr -> Peer -> bool) (count : nat) :
    M (list PeerPtr) :=
  choose_by all predicate (fun _ => mret count).

(** [score_.below(peer->peer_id_, threshold)] as a predicate on the score. *)
Definition low (sc : Score) (threshold : double) (peer : Peer) : bool :=
  below score_order sc (peer_id_ peer) threshold.

End Ops.

(** ** Sorting

    [std::ranges::sort] with a strict weak order: insertion sort. *)
Fixpoint insert_by {A} (lt : A -> A -> bool) (x : A) (l : list A) : list A :=
  match l with
  | [] => [x]
  | y :: l => if lt y x then y :: insert_by lt x l else x :: y :: l
  end.
Definition sort_by {A} (lt : A -> A -> bool) (l : list A) : list A :=
  foldr (insert_by lt) [] l.

(** Whether a comparison is a strict weak order of the elements of a list: irreflexive,
    transitive, and with incomparability transitive. *)
Definition strict_weak {A} (lt : A -> A -> bool) (l : list A) : bool :=
  forallb (fun x => negb (lt x x) && forallb (fun y => forallb (fun z =>
    implb (lt x y && lt y z) (lt x z) && implb (lt x z) (lt x y || lt y z)) l) l) l.

(** Sorting by scores; any other comparison is undefined behaviour. *)
Definition sort_ {A} (key : A -> double) (lt : double -> double -> bool) (l : list A) : M (list A) :=
  checked (strict_weak lt (map key l)) (Unordered (map key l)) ;;
  mret (sort_by (fun l r => lt (key l) (key r)) l).
