(* ===== verification/GossipHandlers.v ===== *)
(** * Gossipsub: handlers

    The handlers of class [Gossip] ([src/protocol/gossip/gossip.cpp]): local
    subscription and publication, the inbound RPC handler, the heartbeat, and
    the reactions to connections and streams.  Each is the whole handler with
    its guards and early exits; a [continue] or [return] of the source is the
    corresponding result of the loop body ([forM_], [forM_while]). *)

From Stdlib Require Import SpecFloat.
From S2P Require Import Prelude TimeCache Backoff Multihash Score GossipState GossipOps.

Section Handlers.
Context `{Env} (config_ : Config).

Abbreviation get_backoff_time := (get_backoff_time config_).
Abbreviation update_backoff := (update_backoff config_).
Abbreviation remove_peer_from_mesh := (remove_peer_from_mesh config_).
Abbreviation make_prune := (make_prune config_).
Abbreviation updatePeerKind := (updatePeerKind config_).
Abbreviation thresholds := (score_config config_).

(** ** Broadcast *)

(** The lambda [add_peer]. *)
Definition add_peer (source : option PeerId) (message_id : MessageId) (message : Message)
    (send_idontwant : bool) (p : PeerPtr) : M unit :=
  peer ← deref p;
  if bool_decide (source = Some (peer_id_ peer)) then mret tt
  else if bool_decide (from message = Some (peer_id_ peer)) then mret tt
  else
    low ← peer_below peer (publish_threshold thresholds);
    if low : bool then mret tt
    else with_batch p (fun batch =>
      rpc_publish message (if send_idontwant then rpc_idontwant message_id batch else batch)).

(** Whether IDONTWANT accompanies the message. *)
Definition sends_idontwant (source : option PeerId) (message : Message) : bool :=
  (bool_decide (is_Some source) || idontwant_on_publish config_)
  && (idontwant_message_size_threshold config_ <? length (encode_message (toProtobuf message)))%nat.

(** The end of [broadcast] for a message published here without flooding: fill
    up with peers outside of the mesh, which a publish-only topic remembers. *)
Definition publish_fanout (h : TopicHash) (add : PeerPtr -> M unit) : M unit :=
  t ← get_topic h;
  let more := saturating_sub (mesh_n_for_topic config_ h) (size (mesh_peers_ t)) in
  whenM (negb (more =? 0)%nat)
    (sc ← gets score_;
     chosen ← choose (topic_peers_ t)
       (fun p peer => bool_decide (p ∉ mesh_peers_ t)
                      && negb (low sc (publish_threshold thresholds) peer)) more;
     forM_ chosen (fun p =>
       add p ;;
       whenM (publish_only_ t) (update_topic h (set_mesh_peers (fun m => {[p]} ∪ m))))) ;;
  now ← now_;
  update_topic h (set_last_publish now).

(** The recipients: everybody when flooding, else the floodsub peers and the mesh. *)
Definition send_to_peers (h : TopicHash) (source : option PeerId) (add : PeerPtr -> M unit) : M unit :=
  t ← get_topic h;
  if bool_decide (source = None) && flood_publish config_
  then l ← order_ (elements (topic_peers_ t)); forM_ l add
  else
    l ← order_ (elements (topic_peers_ t));
    forM_ l (fun p => peer ← deref p; whenM (isFloodsub peer) (add p)) ;;
    l ← order_ (elements (mesh_peers_ t));
    forM_ l add ;;
    whenM (bool_decide (source = None)) (publish_fanout h add).

Definition broadcast (h : TopicHash) (source : option PeerId) (message_id : MessageId)
    (message : Message) : M unit :=
  modify (set_message_cache_ (fun c => match c !! message_id with
    | Some _ => c
    | None => <[message_id := mkEntry message ∅]> c
    end)) ;;
  update_topic h (set_history (History.add message_id)) ;;
  modify (set_gossip_promises_ (GossipPromises.remove message_id)) ;;
  let send_idontwant := sends_idontwant source message in
  whenM (bool_decide (is_Some source) && send_idontwant)
    (l ← gets (fun s => GossipPromises.peers message_id (gossip_promises_ s));
     l ← order_ l;
     forM_ l (fun p => with_batch p (rpc_idontwant message_id))) ;;
  send_to_peers h source (add_peer source message_id message send_idontwant).

(** ** Local subscription and publication *)

(** A peer of [getOrCreateTopic] fit for the mesh, given the mesh so far. *)
Definition mesh_candidate (sc : Score) (t : Topic) (p : PeerPtr) (peer : Peer) : bool :=
  bool_decide (p ∉ mesh_peers_ t) && negb (is_backoff_with_slack t p)
  && negb (low sc (zero thresholds) peer).

(** Upgrade of a publish-only topic to a subscribed one. *)
Definition upgrade_topic (h : TopicHash) : M unit :=
  update_topic h (set_publish_only false) ;;
  t ← get_topic h;
  l ← order_ (elements (topic_peers_ t));
  forM_ l (fun p => with_batch p (rpc_subscribe h true)) ;;
  update_topic h (set_mesh_peers (fun _ => ∅)) ;;
  let mesh_n := mesh_n_for_topic config_ h in
  l ← order_ (elements (mesh_peers_ t));
  forM_while l (fun p =>
    t ← get_topic h;
    if decide (mesh_n <= size (mesh_peers_ t))%nat then mret false
    else
      peer ← deref p;
      sc ← gets score_;
      whenM (mesh_candidate sc t p peer) (graft h p) ;;
      mret true) ;;
  t ← get_topic h;
  let more := saturating_sub mesh_n (size (mesh_peers_ t)) in
  whenM (negb (more =? 0)%nat)
    (sc ← gets score_;
     chosen ← choose (topic_peers_ t) (mesh_candidate sc t) more;
     forM_ chosen (graft h)).

(** A new topic knows the connected peers that announced it. *)
Definition create_topic (h : TopicHash) (publish_only : bool) : M unit :=
  history ← get_or_fail (History.make (history_length config_));
  (if decide (heartbeat_interval config_ = 0%nat) then fail else mret tt) ;;
  ptrs ← gets (fun s => (map_to_list (peers_ s)).*2);
  ptrs ← order_ ptrs;
  peers ← deref_all ptrs;
  let members := list_to_set (filter (fun q => h ∈ peer_topics_ q.2) (zip ptrs peers)).*1 in
  modify (set_topics_ <[h := mkTopic h publish_only [] history
    (TopicBackoff.make (prune_backoff config_) (heartbeat_interval config_) (backoff_slack config_))
    members ∅ 0]>).

Definition getOrCreateTopic (h : TopicHash) (publish_only : bool) : M unit :=
  ot ← gets (fun s => topics_ s !! h);
  (match ot with None => create_topic h publish_only | Some _ => mret tt end) ;;
  t ← get_topic h;
  whenM (negb publish_only && publish_only_ t) (upgrade_topic h).

Definition subscribe (h : TopicHash) : M unit := getOrCreateTopic h false.

(** [duplicate_cache_.insert(message_id)], which reads the clock twice. *)
Definition duplicate_insert (message_id : MessageId) : M bool :=
  now ← now_;
  now' ← now_;
  r ← gets (fun s => DuplicateCache.insert message_id now now' (duplicate_cache_ s));
  modify (set_duplicate_cache_ (fun _ => r.1)) ;;
  mret (r.2 : bool).

(** The message [publish] builds. *)
Definition make_message (h : TopicHash) (data : bytes) : M Message :=
  match message_authenticity config_ with
  | AuthSigned =>
      n ← gets last_seq_no;
      modify (set_last_seq_no (fun n => u64 (n + 1))) ;;
      let message := mkMessage (Some host_id) data (Some n) h None None in
      sig ← get_or_fail (match Keys.Provider.sign (getSignable (toProtobuf message)) (Keys.privateKey host_keys) with
                         | Some (success sig) => Some sig
                         | _ => None
                         end);
      mret (mkMessage (Some host_id) data (Some n) h (Some sig) None)
  | AuthAnonymous => mret (mkMessage None data None h None None)
  end.

(** [publish(Topic &, BytesIn)], also behind [Topic::publish]. *)
Definition publish_topic (h : TopicHash) (data : bytes) : M unit :=
  t ← get_topic h;
  message ← make_message (topic_hash_ t) data;
  let message_id := message_id_fn config_ message in
  known ← gets (fun s => DuplicateCache.contains (duplicate_cache_ s) message_id);
  if known : bool then mret tt
  else
    duplicate_insert message_id ;;
    broadcast h None message_id message.

Definition publish (h : TopicHash) (data : bytes) : M unit :=
  getOrCreateTopic h true ;; publish_topic h data.

(** [Topic::receiveMessage] when a message is there; [None]: it waits. *)
Definition receiveMessage (h : TopicHash) : M (option Message) :=
  t ← get_topic h;
  match receive_channel_ t with
  | [] => mret None
  | m :: rest => update_topic h (set_receive_channel (fun _ => rest)) ;; mret (Some m)
  end.

(** ** Inbound RPC *)

(** SUBSCRIBE / UNSUBSCRIBE. *)
Definition handle_subscription (p : PeerPtr) (pb : pb_SubOpts) : M unit :=
  let h := pb_str (so_topic_id pb) in
  ot ← gets (fun s => topics_ s !! h);
  if default false (so_subscribe pb) then
    update_peer p (set_peer_topics (fun ts => {[h]} ∪ ts)) ;;
    match ot with
    | None => mret tt
    | Some _ =>
        update_topic h (set_topic_peers (fun ps => {[p]} ∪ ps)) ;;
        t ← get_topic h;
        peer ← deref p;
        sc ← gets score_;
        whenM (negb (publish_only_ t) && isGossipsub peer
               && (size (mesh_peers_ t) <? mesh_n_low_for_topic config_ h)%nat
               && mesh_candidate sc t p peer)
          (graft h p)
    end
  else
    update_peer p (set_peer_topics (fun ts => ts ∖ {[h]})) ;;
    match ot with
    | None => mret tt
    | Some _ => update_topic h (set_topic_peers (fun ps => ps ∖ {[p]}))
    end ;;
    remove_peer_from_mesh h p None false.

(** The checks of PUBLISH that depend on the validation mode; [None]: drop. *)
Definition validate_publish (pb : pb_Message) : M (option (option PeerId * option Seqno * option bytes)) :=
  match validation_mode config_ with
  | ValidationStrict =>
      r ← get_or_fail (fromBytes (pb_str (pb_from pb)));
      match r with
      | failure _ => mret None
      | success id =>
          let author := toBuffer id in
          if decide (length (pb_str (pb_seqno pb)) <> 8%nat) then mret None
          else
            let seq := load_big_u64 (pb_str (pb_seqno pb)) in
            let signable := getSignable pb in
            let sig := pb_str (pb_signature pb) in
            match Keys.Marshaller.peer_publicKey id with
            | None => mret None
            | Some key =>
                match Keys.Provider.verify signable sig key with
                | Some (success true) => mret (Some (Some author, Some seq, Some sig))
                | Some _ => mret None
                | None => checked false (Overrun pb) ;; mret None
                end
            end
      end
  | ValidationAnonymous =>
      if decide (pb_str (pb_from pb) <> []) then mret None
      else if decide (pb_str (pb_seqno pb) <> []) then mret None
      else if decide (pb_str (pb_signature pb) <> []) then mret None
      else mret (Some (None, None, None))
  end.

(** PUBLISH: validate, drop duplicates, deliver locally and relay. *)
Definition handle_publish (p : PeerPtr) (pb : pb_Message) : M unit :=
  valid ← validate_publish pb;
  match valid with
  | None => mret tt
  | Some (author, seq, sig) =>
      peer ← deref p;
      let message := mkMessage author (pb_str (pb_data pb)) seq (pb_topic pb) sig
                       (Some (peer_id_ peer)) in
      ot ← gets (fun s => topics_ s !! topic message);
      match ot with
      | None => mret tt
      | Some _ =>
          let message_id := message_id_fn config_ message in
          fresh ← duplicate_insert message_id;
          if fresh : bool then
            now ← now_;
            modify (set_score_ (validateMessage now (peer_id_ peer) message_id (topic message))) ;;
            update_topic (topic message) (set_receive_channel (fun c => c ++ [message])) ;;
            now ← now_;
            now' ← now_;
            update_score (deliver_message now now' (peer_id_ peer) message_id (topic message)) ;;
            broadcast (topic message) (Some (peer_id_ peer)) message_id message
          else
            now ← now_;
            now' ← now_;
            update_score (duplicateMessage now now' (peer_id_ peer) message_id (topic message))
      end
  end.

(** The lambda [accept] of GRAFT, with the penalties it adds. *)
Definition graft_accept (t : Topic) (p : PeerPtr) (peer : Peer) : M bool :=
  let backoff := get_backoff_time t p in
  if decide (0 < backoff)%nat then
    modify (set_score_ (addPenalty (peer_id_ peer) 1)) ;;
    whenM (prune_backoff config_ <? backoff + graft_flood_threshold config_)%nat
      (modify (set_score_ (addPenalty (peer_id_ peer) 1))) ;;
    mret false
  else if negb (out_ peer)
          && (mesh_n_high_for_topic config_ (topic_hash_ t) <? size (mesh_peers_ t))%nat
  then mret false
  else
    low ← peer_below peer (zero thresholds);
    mret (negb low).

(** GRAFT; [false]: give up on the connection. *)
Definition handle_graft (p : PeerPtr) (topic_id : option bytes) : M bool :=
  peer ← deref p;
  if negb (isGossipsub peer) then mret false
  else
    let h := pb_str topic_id in
    update_peer p (set_peer_topics (fun ts => {[h]} ∪ ts)) ;;
    ot ← gets (fun s => topics_ s !! h);
    match ot with
    | None => mret true
    | Some t =>
        update_topic h (set_topic_peers (fun ps => {[p]} ∪ ps)) ;;
        if publish_only_ t then mret true
        else if decide (p ∈ mesh_peers_ t) then mret true
        else
          accept ← graft_accept t p peer;
          (if accept : bool then
             update_topic h (set_mesh_peers (fun m => {[p]} ∪ m)) ;;
             now ← now_;
             update_score (Score.graft now (peer_id_ peer) h)
           else make_prune h p) ;;
          mret true
    end.

(** [Backoff{pb_prune.backoff()}]: a [uint64_t] stored in an [int64_t]. *)
Definition s64 (z : Z) : Z := if z <? 2 ^ 63 then z else z - 2 ^ 64.

(** PRUNE. *)
Definition handle_prune (p : PeerPtr) (pb : pb_Prune) : M bool :=
  peer ← deref p;
  if negb (isGossipsub peer) then mret false
  else
    remove_peer_from_mesh (pb_str (prune_topic_id pb)) p (s64 <$> prune_backoff_ pb) true ;;
    mret true.

(** The ids of IHAVE worth asking for. *)
Definition wanted (s : Gossip) (ihaves : list pb_IHave) (skip : bool) : gset MessageId :=
  if skip then ∅
  else
    list_to_set (ihaves ≫= fun pb =>
      match topics_ s !! pb_str (ihave_topic_id pb) with
      | None => []
      | Some _ => filter (fun id => negb (DuplicateCache.contains (duplicate_cache_ s) id)
                                    && negb (GossipPromises.contains (gossip_promises_ s) id))
                         (ihave_message_ids pb)
      end).

(** [++count_received_ihave_[peer]]. *)
Definition bump (p : PeerPtr) (counts : gmap PeerPtr nat) : gmap PeerPtr nat :=
  <[p := S (default 0%nat (counts !! p))]> counts.

Definition handle_ihave (p : PeerPtr) (ihaves : list pb_IHave) : M bool :=
  if decide (ihaves = []) then mret true
  else
    peer ← deref p;
    if negb (isGossipsub peer) then mret false
    else
      modify (set_count_received_ihave_ (bump p)) ;;
      peer_have ← gets (fun s => default 0%nat (count_received_ihave_ s !! p));
      if decide (max_ihave_messages config_ < peer_have)%nat then mret true
      else
        sent ← gets (fun s => count_sent_iwant_ s !! p);
        if match sent with Some n => (max_ihave_length config_ <=? n)%nat | None => false end
        then mret true
        else
          skip ← peer_below peer (gossip_threshold thresholds);
          want_set ← gets (fun s => wanted s ihaves skip);
          if decide (want_set = ∅) then mret true
          else
            let sent := default 0%nat sent in
            let count := Nat.min (size want_set) (saturating_sub (max_ihave_length config_) sent) in
            want ← order_ (elements want_set);
            want ← shuffle_ want;
            let want := take count want in
            modify (set_count_sent_iwant_ <[p := (sent + count)%nat]>) ;;
            getBatch p ;;
            forM_ want (fun id =>
              now ← now_;
              modify (set_gossip_promises_ (GossipPromises.add id p now)) ;;
              update_peer p (fun peer => set_batch (rpc_iwant id <$> batch_ peer) peer)) ;;
            mret true.

(** One id of IWANT: count the request, serve it under the cap. *)
Definition serve_iwant (p : PeerPtr) (peer : Peer) (message_id : MessageId) : M unit :=
  entry ← gets (fun s => message_cache_ s !! message_id);
  match entry with
  | None => mret tt
  | Some e =>
      let count := S (default 0%nat (cached_iwant e !! peer_id_ peer)) in
      modify (set_message_cache_
        <[message_id := mkEntry (cached_message e) (<[peer_id_ peer := count]> (cached_iwant e))]>) ;;
      if decide (gossip_retransimission config_ < count)%nat then mret tt
      else if IDontWantCache.contains (dont_send_ peer) message_id then mret tt
      else with_batch p (rpc_publish (cached_message e))
  end.

Definition handle_iwant (p : PeerPtr) (message_ids : list bytes) : M bool :=
  peer ← deref p;
  if negb (isGossipsub peer) then mret false
  else
    low ← peer_below peer (gossip_threshold thresholds);
    whenM (negb low) (forM_ message_ids (serve_iwant p peer)) ;;
    mret true.

Definition handle_idontwant (p : PeerPtr) (message_ids : list bytes) : M bool :=
  peer ← deref p;
  if negb (isGossipsub peer) then mret false
  else
    forM_ message_ids (fun id =>
      peer ← deref p;
      now ← now_;
      cache ← get_or_fail (IDontWantCache.insert id now (dont_send_ peer));
      update_peer p (set_dont_send cache)) ;;
    mret true.

(** Run [m], then [k] unless [m] says to give up. *)
Definition and_then (m k : M bool) : M bool := go ← m; if go : bool then k else mret false.

Definition handle_rpc (p : PeerPtr) (rpc : pb_RPC) : M bool :=
  peer ← deref p;
  graylisted ← peer_below peer (graylist_threshold thresholds);
  if graylisted : bool then mret true
  else
    forM_ (r_subscriptions rpc) (handle_subscription p) ;;
    forM_ (r_publish rpc) (handle_publish p) ;;
    and_then (forM_while (c_graft (control rpc)) (handle_graft p))
    (and_then (forM_while (c_prune (control rpc)) (handle_prune p))
    (and_then (handle_ihave p (c_ihave (control rpc)))
    (and_then (forM_while (c_iwant (control rpc)) (handle_iwant p))
      (forM_while (c_idontwant (control rpc)) (handle_idontwant p))))).

Definition onMessage (p : PeerPtr) (encoded : bytes) : M bool :=
  match decode_rpc encoded with
  | None => mret false
  | Some rpc => handle_rpc p rpc
  end.

(** ** Heartbeat *)

Definition apply_iwant_penalties : M unit :=
  now ← now_;
  r ← gets (fun s => GossipPromises.clearExpired now (gossip_promises_ s));
  modify (set_gossip_promises_ (fun _ => r.1)) ;;
  l ← order_ (map_to_list r.2);
  forM_ l (fun '(p, count) =>
    peer ← deref p;
    modify (set_score_ (addPenalty (peer_id_ peer) count))).

(** Publish-only topics unused for [fanout_ttl] are dropped. *)
Definition drop_stale_topics : M unit :=
  l ← gets (fun s => map_to_list (topics_ s));
  l ← order_ l;
  forM_ l (fun '(h, t) =>
    whenM (publish_only_ t)
      (now ← now_;
       whenM (negb (now - last_publish_ t <? fanout_ttl config_ * sec))
         (modify (set_topics_ (delete h))))).

(** A publish-only topic: drop peers under the publish threshold, fill up. *)
Definition maintain_fanout (h : TopicHash) : M unit :=
  t ← get_topic h;
  peers ← deref_all (elements (mesh_peers_ t));
  sc ← gets score_;
  let keep := list_to_set (filter (fun q => negb (low sc (publish_threshold thresholds) q.2))
                             (zip (elements (mesh_peers_ t)) peers)).*1 : gset PeerPtr in
  update_topic h (set_mesh_peers (fun _ => keep)) ;;
  t ← get_topic h;
  let more := saturating_sub (mesh_n_for_topic config_ h) (size (mesh_peers_ t)) in
  whenM (negb (more =? 0)%nat)
    (chosen ← choose (topic_peers_ t)
       (fun p peer => bool_decide (p ∉ mesh_peers_ t)
                      && negb (low sc (publish_threshold thresholds) peer)) more;
     forM_ chosen (fun p => update_topic h (set_mesh_peers (fun m => {[p]} ∪ m)))).

(** Peers of the mesh with a negative score are pruned. *)
Definition prune_negative (h : TopicHash) : M unit :=
  t ← get_topic h;
  l ← order_ (elements (mesh_peers_ t));
  forM_ l (fun p =>
    peer ← deref p;
    low ← peer_below peer (zero thresholds);
    whenM low
      (make_prune h p ;; update_topic h (set_mesh_peers (fun m => m ∖ {[p]})))).

(** Too few peers in the mesh: graft some. *)
Definition graft_missing (h : TopicHash) : M unit :=
  t ← get_topic h;
  sc ← gets score_;
  chosen ← choose (topic_peers_ t) (mesh_candidate sc t)
    (saturating_sub (mesh_n_for_topic config_ h) (size (mesh_peers_ t)));
  forM_ chosen (graft h).

(** The loop that prunes until [mesh_n] peers are left, keeping enough outbound ones. *)
Fixpoint prune_excess (h : TopicHash) (mesh_n outbound_min outbound : nat) (l : list PeerPtr) :
    M unit :=
  match l with
  | [] => mret tt
  | p :: l =>
      t ← get_topic h;
      if decide (size (mesh_peers_ t) <= mesh_n)%nat then mret tt
      else
        peer ← deref p;
        if out_ peer && (outbound <=? outbound_min)%nat
        then prune_excess h mesh_n outbound_min outbound l
        else
          update_topic h (set_mesh_peers (fun m => m ∖ {[p]})) ;;
          make_prune h p ;;
          prune_excess h mesh_n outbound_min (if out_ peer then pred outbound else outbound) l
  end.

(** Too many peers in the mesh: keep the best by score and a random choice. *)
Definition prune_surplus (h : TopicHash) : M unit :=
  t ← get_topic h;
  shuffled ← order_ (elements (mesh_peers_ t));
  shuffled ← shuffle_ shuffled;
  peers ← deref_all shuffled;
  sc ← gets score_;
  let score_of q := score score_order sc (peer_id_ q.2) in
  shuffled ← sort_ score_of (fun l r => dltb r l) (zip shuffled peers);
  let shuffled := shuffled.*1 in
  let n := saturating_sub (length shuffled) (retain_scores config_) in
  first ← shuffle_ (take n shuffled);
  outbound ← meshOutCount t;
  prune_excess h (mesh_n_for_topic config_ h) (mesh_outbound_min_for_topic config_ h) outbound
    (first ++ drop n shuffled).

(** Too few outbound peers in the mesh: graft some. *)
Definition graft_outbound (h : TopicHash) : M unit :=
  t ← get_topic h;
  outbound ← meshOutCount t;
  let more := saturating_sub (mesh_outbound_min_for_topic config_ h) outbound in
  whenM (negb (more =? 0)%nat)
    (sc ← gets score_;
     chosen ← choose (topic_peers_ t)
       (fun p peer => out_ peer && mesh_candidate sc t p peer) more;
     forM_ chosen (graft h)).

(** The median of the sorted [scores], as the source computes it. *)
Definition median (scores : list double) : option double :=
  let middle := (length scores / 2)%nat in
  if (length scores mod 2 =? 0)%nat
  then a ← scores !! (middle - 1)%nat;
       b ← scores !! (middle + 1)%nat;
       Some (ddiv (dadd a b) (dz 2))
  else scores !! middle.

(** Opportunistic grafting. *)
Definition graft_opportunistic (h : TopicHash) : M unit :=
  ticks ← gets heartbeat_ticks_;
  t ← get_topic h;
  if decide (opportunistic_graft_ticks config_ = 0%nat) then fail
  else whenM ((ticks mod Z.of_nat (opportunistic_graft_ticks config_) =? 0)
              && (1 <? size (mesh_peers_ t))%nat)
    (l ← order_ (elements (mesh_peers_ t));
     peers ← deref_all l;
     sc ← gets score_;
     scores ← sort_ id dltb (map (fun peer => score score_order sc (peer_id_ peer)) peers);
     med ← get_or_fail (median scores);
     whenM (dltb med (opportunistic_graft_threshold thresholds))
       (chosen ← choose (topic_peers_ t)
          (fun p peer => bool_decide (p ∉ mesh_peers_ t) && negb (is_backoff_with_slack t p)
                         && dltb med (score score_order sc (peer_id_ peer)))
          (opportunistic_graft_peers config_);
        forM_ chosen (graft h))).

Definition maintain_mesh (h : TopicHash) : M unit :=
  prune_negative h ;;
  t ← get_topic h;
  (if decide (size (mesh_peers_ t) < mesh_n_low_for_topic config_ h)%nat then graft_missing h
   else if decide (mesh_n_high_for_topic config_ h < size (mesh_peers_ t))%nat then prune_surplus h
   else mret tt) ;;
  t ← get_topic h;
  (if decide (mesh_n_low_for_topic config_ h <= size (mesh_peers_ t))%nat then graft_outbound h
   else mret tt) ;;
  graft_opportunistic h.

Definition maintain_topic (h : TopicHash) : M unit :=
  t ← get_topic h;
  if publish_only_ t then maintain_fanout h else maintain_mesh h.

(** A number converted to [size_t], and whether it is in the range. *)
Definition dtrunc (d : double) : nat :=
  match d with
  | S754_finite false m e => Z.to_nat (Z.shiftl (Zpos m) e)
  | _ => 0
  end.
Definition in_range (d : double) : bool :=
  match d with
  | S754_zero _ => true
  | S754_finite false m e => Z.shiftl (Zpos m) e <? 2 ^ 64
  | S754_finite true m e => Z.shiftl (Zpos m) e <? 1
  | S754_infinity _ | S754_nan => false
  end.

Definition gossip_count (n : nat) : M nat :=
  let count := dmul (gossip_factor config_) (dz (Z.of_nat n)) in
  checked (in_range count) (OutOfRange count) ;;
  mret (Nat.max (gossip_lazy config_) (dtrunc count)).

Definition emit_gossip_topic (h : TopicHash) : M unit :=
  t ← get_topic h;
  let message_ids := History.get (history_gossip config_) (history_ t) in
  whenM (negb (bool_decide (message_ids = [])))
    (sc ← gets score_;
     chosen ← choose_by (topic_peers_ t)
       (fun p peer => bool_decide (p ∉ mesh_peers_ t)
                      && negb (low sc (gossip_threshold thresholds) peer))
       gossip_count;
     forM_ chosen (fun p =>
       ids ← shuffle_ message_ids;
       with_batch p (rpc_ihave h (take (max_ihave_length config_) ids)))).

(** The topics in the order of a traversal of [topics_]. *)
Definition topic_hashes : M (list TopicHash) :=
  l ← gets (fun s => (map_to_list (topics_ s)).*1); order_ l.

(** A loop over the topics. *)
Definition for_topics (f : TopicHash -> M unit) : M unit := l ← topic_hashes; forM_ l f.

Definition emit_gossip : M unit := for_topics emit_gossip_topic.

(** Message ids that leave the history leave the cache. *)
Definition shift_history (h : TopicHash) : M unit :=
  t ← get_topic h;
  update_topic h (set_history (fun _ => (History.shift (history_ t)).1)) ;;
  forM_ (History.shift (history_ t)).2 (fun id => modify (set_message_cache_ (delete id))).

Definition heartbeat : M unit :=
  modify (set_heartbeat_ticks_ (fun n => u64 (n + 1))) ;;
  modify (set_topics_ (fmap (set_backoff TopicBackoff.shift))) ;;
  modify (set_count_received_ihave_ (fun _ => ∅)) ;;
  modify (set_count_sent_iwant_ (fun _ => ∅)) ;;
  apply_iwant_penalties ;;
  drop_stale_topics ;;
  for_topics maintain_topic ;;
  emit_gossip ;;
  for_topics shift_history ;;
  now ← now_;
  l ← gets (fun s => (map_to_list (peers_ s)).*2);
  forM_ l (fun p => update_peer p (fun peer =>
    set_dont_send (IDontWantCache.clearExpired now (dont_send_ peer)) peer)).

(** ** Connections and streams *)

Definition new_peer (peer_id : PeerId) (out : bool) : M PeerPtr :=
  p ← gets next_ptr;
  modify (set_heap <[p := Peer_new peer_id out]>) ;;
  modify (set_next_ptr S) ;;
  modify (set_peers_ <[peer_id := p]>) ;;
  modify (set_score_ (connect peer_id)) ;;
  mret p.

(** The peer of a connection, created when it is not known. *)
Definition find_or_create (peer_id : PeerId) (out : bool) : M PeerPtr :=
  op ← gets (fun s => peers_ s !! peer_id);
  match op with Some p => mret p | None => new_peer peer_id out end.

(** [handle]: an inbound stream; its read loop then calls [read_loop_step]. *)
Definition handle (peer_id : PeerId) (protocol : ProtocolName) (stream : StreamPtr) : M PeerPtr :=
  p ← find_or_create peer_id false;
  updatePeerKind p protocol ;;
  update_peer p (set_streams_in (fun ss => {[stream]} ∪ ss)) ;;
  mret p.

(** One turn of the read loop: [None] for a failed read.  When it ends the
    stream is forgotten. *)
Definition read_loop_step (p : PeerPtr) (stream : StreamPtr) (frame : option bytes) : M bool :=
  go ← match frame with None => mret false | Some encoded => onMessage p encoded end;
  whenM (negb go) (update_peer p (set_streams_in (fun ss => ss ∖ {[stream]}))) ;;
  mret (go : bool).

(** [on_peer_connected]; [true]: an outbound stream is being opened. *)
Definition on_peer_connected (peer_id : PeerId) (out : bool) : M (PeerPtr * bool) :=
  p ← find_or_create peer_id out;
  peer ← deref p;
  if bool_decide (stream_out_ peer = None) && negb (is_connecting_ peer)
  then update_peer p (set_is_connecting true) ;; mret (p, true)
  else mret (p, false).

(** The continuation of [newStream]; [None]: it failed. *)
Definition on_stream_opened (p : PeerPtr) (result : option (StreamPtr * ProtocolName)) : M unit :=
  update_peer p (set_is_connecting false) ;;
  match result with
  | None => mret tt
  | Some (stream, protocol) =>
      update_peer p (set_stream_out None) ;;
      updatePeerKind p protocol ;;
      update_peer p (set_stream_out (Some stream)) ;;
      l ← gets (fun s => map_to_list (topics_ s));
      whenM (negb (bool_decide (l = [])))
        (getBatch p ;;
         l ← order_ l;
         forM_ l (fun '(h, t) => whenM (negb (publish_only_ t))
           (update_peer p (fun peer => set_batch (rpc_subscribe h true <$> batch_ peer) peer))))
  end.

Definition on_peer_disconnected (peer_id : PeerId) : M unit :=
  now ← now_;
  modify (set_score_ (disconnect score_order now peer_id)) ;;
  op ← gets (fun s => peers_ s !! peer_id);
  match op with
  | None => mret tt
  | Some p =>
      peer ← deref p;
      l ← order_ (elements (peer_topics_ peer));
      forM_ l (fun h =>
        ot ← gets (fun s => topics_ s !! h);
        match ot with
        | None => mret tt
        | Some _ => update_topic h (fun t =>
            set_mesh_peers (fun m => m ∖ {[p]}) (set_topic_peers (fun ps => ps ∖ {[p]}) t))
        end) ;;
      modify (set_peers_ (delete peer_id))
  end.

(** [score_.onDecay()], on its own timer. *)
Definition on_decay : M unit := now ← now_; modify (set_score_ (onDecay now)).

End Handlers.

(** ** Construction *)

(** The protocols to offer, best version first. *)
Definition protocols_ (c : Config) : list ProtocolName :=
  (sort_by (fun l r => kind_value r.2 <? kind_value l.2) (map_to_list (protocol_versions c))).*1.

(** [seq]: the nanoseconds of the system clock. *)
Definition Gossip_new (c : Config) (seq : Z) : Gossip :=
  mkGossip ∅ ∅ (u64 seq) (TimeCache.make (duplicate_cache_time c * sec)) ∅
    (GossipPromises.make (iwant_followup_time c * sec)) (Score_new (score_config c)) 0 ∅ ∅ ∅ 0 ∅ 0 None.
