(* ===== verification/GossipFrame.v ===== *)
(** * Gossipsub: what handlers leave alone

    A relation between the states before and after that every access to the state within,
    but for the changes it is about, is respected by every handler made of such accesses.
    Two relations are of use: that the cache of duplicates stays ([GossipIds]), and that
    undefined behaviour happens only in certain ways ([GossipUndefined]). *)

From S2P Require Import Prelude TimeCache Backoff Score GossipState GossipOps GossipHandlers.

Definition within (R : relation Gossip) {A} (m : M A) : Prop :=
  forall s s' a, m s = Some (s', a) -> R s s'.

(** The accesses that a relation has to allow; others are allowed one by one. *)
Class StateFrame (R : relation Gossip) : Prop := {
  frame_preorder : PreOrder R;
  frame_topics f s : R s (set_topics_ f s);
  frame_heap f s : R s (set_heap f s);
  frame_score f s : R s (set_score_ f s);
  frame_writers f s : R s (set_writers f s);
  frame_uses f s : R s (set_uses f s)
}.
#[export] Existing Instance frame_preorder.

Create HintDb gossip_frame.

Section Frames.
Context `{Env} {R : relation Gossip} `{!StateFrame R}.

Lemma frame_bind {A B} (m : M A) (k : A -> M B) : within R m -> (forall a, within R (k a)) -> within R (m ≫= k).
Proof.
  intros Hm Hk s s' b. unfold mbind, M_bind. destruct (m s) as [[s1 a]|] eqn:E; [|done]. intros E2.
  etrans; [by eapply Hm|by eapply Hk].
Qed.
Lemma frame_ret {A} (a : A) : within R (mret a).
Proof. by intros s s' b [= <- _]. Qed.
Lemma frame_fail {A} : within R (@fail A).
Proof. done. Qed.
Lemma frame_get_or_fail {A} (o : option A) : within R (get_or_fail o).
Proof. destruct o; [apply frame_ret|apply frame_fail]. Qed.
Lemma frame_gets {A} (f : Gossip -> A) : within R (gets f).
Proof. by intros s s' b [= <- _]. Qed.
Lemma frame_modify f : (forall s, R s (f s)) -> within R (modify f).
Proof. by intros Hf s s' b [= <- _]. Qed.
Lemma frame_deref p : within R (deref p).
Proof. intros s s' b. unfold deref. destruct (heap s !! p); [|done]. by intros [= <- _]. Qed.
Lemma frame_update_peer p f : within R (update_peer p f).
Proof. intros s s' b. unfold update_peer. destruct (heap s !! p); [|done]. intros [= <- _]. apply frame_heap. Qed.
Lemma frame_get_topic h : within R (get_topic h).
Proof. intros s s' b. unfold get_topic. destruct (topics_ s !! h); [|done]. by intros [= <- _]. Qed.
Lemma frame_update_topic h f : within R (update_topic h f).
Proof. intros s s' b. unfold update_topic. destruct (topics_ s !! h); [|done]. intros [= <- _]. apply frame_topics. Qed.
Lemma frame_update_score f : within R (update_score f).
Proof. intros s s' b. unfold update_score. destruct (f (score_ s)); [|done]. intros [= <- _]. apply frame_score. Qed.
Lemma frame_now : within R now_.
Proof. intros s s' b [= <- _]. apply frame_uses. Qed.
Lemma frame_order {A} (l : list A) : within R (order_ l).
Proof. intros s s' b [= <- _]. apply frame_uses. Qed.
Lemma frame_shuffle {A} (l : list A) : within R (shuffle_ l).
Proof. intros s s' b [= <- _]. apply frame_uses. Qed.
Lemma frame_below p d : within R (peer_below p d).
Proof. apply frame_gets. Qed.
Lemma frame_spawn p : within R (spawn_writer p).
Proof. intros s s' b. unfold spawn_writer. destruct (writers s !! p); [done|]. intros [= <- _]. apply frame_writers. Qed.
Lemma frame_when b m : within R m -> within R (whenM b m).
Proof. destruct b; [done|intros _; apply frame_ret]. Qed.
Lemma frame_forM {A} (l : list A) f : (forall x, x ∈ l -> within R (f x)) -> within R (forM_ l f).
Proof. induction l as [|x l IH]; intros Hf; [apply frame_ret|]. cbn. apply frame_bind; [|intros _]; set_solver. Qed.
Lemma frame_forM_while {A} (l : list A) f : (forall x, x ∈ l -> within R (f x)) -> within R (forM_while l f).
Proof.
  induction l as [|x l IH]; intros Hf; [apply frame_ret|]. cbn. apply frame_bind; [set_solver|].
  intros []; [|apply frame_ret]. set_solver.
Qed.
Lemma frame_choose_filter pred l : within R (choose_filter pred l).
Proof.
  induction l as [|p l IH]; [apply frame_ret|]. cbn. apply frame_bind; [apply frame_deref|]. intros peer.
  apply frame_bind; [done|]. intros ?. apply frame_ret.
Qed.
Lemma frame_deref_all l : within R (deref_all l).
Proof.
  induction l as [|p l IH]; [apply frame_ret|]. cbn. apply frame_bind; [apply frame_deref|]. intros peer.
  apply frame_bind; [done|]. intros ?. apply frame_ret.
Qed.
End Frames.
#[export] Hint Resolve frame_ret frame_fail frame_get_or_fail frame_gets frame_modify frame_deref frame_update_peer
  frame_get_topic frame_update_topic frame_update_score frame_now frame_order frame_shuffle frame_below frame_spawn
  frame_choose_filter frame_deref_all : gossip_frame.
#[export] Hint Extern 0 (StateFrame _) => typeclasses eauto : gossip_frame.
#[export] Hint Extern 1 => first [apply frame_topics | apply frame_heap | apply frame_score | apply frame_writers | apply frame_uses] : gossip_frame.
Ltac frames := repeat first
  [ solve [auto with gossip_frame] | apply frame_bind; [|intros ?] | apply frame_forM; intros ? ? | apply frame_forM_while; intros ? ?
  | apply frame_when | apply frame_modify; intros ?
  | match goal with |- within _ (match ?x with _ => _ end) => destruct x end ].

Section Shared.
Context `{Env} {R : relation Gossip} `{!StateFrame R} (config_ : Config).

Lemma frame_with_batch p f : within R (with_batch p f).
Proof. unfold with_batch, getBatch, checkWrite. frames. Qed.
Lemma frame_graft h p : within R (graft h p).
Proof. unfold graft. frames. Qed.
Lemma frame_make_prune h p : within R (make_prune config_ h p).
Proof. unfold make_prune, update_backoff. frames. Qed.
Lemma frame_choose_by all predicate get_count : (forall n, within R (get_count n)) -> within R (choose_by all predicate get_count).
Proof. intros Hc. unfold choose_by. frames. Qed.
Lemma frame_choose all predicate count : within R (choose all predicate count).
Proof. apply frame_choose_by. intros n. apply frame_ret. Qed.
End Shared.
#[export] Hint Resolve frame_with_batch frame_graft frame_make_prune frame_choose : gossip_frame.
