(* ===== verification/GossipInv.v ===== *)
(** * Gossipsub: the invariant and the primitives that keep it

    [core_ok] relates topics, peers, scores and promises; [writers_ok] relates
    the per-peer writer coroutines to the flags of the peers.  Operations that
    only queue output are [quiet]: they change nothing [core_ok] looks at. *)

From S2P Require Import Prelude TimeCache Backoff Multihash Score GossipState GossipOps GossipHandlers.

(** ** Rules for the primitive actions *)

Section Rules.
Context `{Env}.
Implicit Types (s : Gossip).

Lemma wp_gets {A} (f : Gossip -> A) s (Q : A -> Gossip -> Prop) : Q (f s) s -> wp (gets f) s Q.
Proof. done. Qed.
Lemma wp_modify f s (Q : unit -> Gossip -> Prop) : Q tt (f s) -> wp (modify f) s Q.
Proof. done. Qed.
Lemma wp_now s (Q : Z -> Gossip -> Prop) : Q (clock (uses s)) (set_uses S s) -> wp now_ s Q.
Proof. done. Qed.
Lemma wp_order {A} (l : list A) s (Q : list A -> Gossip -> Prop) :
  Q (order (uses s) l) (set_uses S s) -> wp (order_ l) s Q.
Proof. done. Qed.
Lemma wp_shuffle {A} (l : list A) s (Q : list A -> Gossip -> Prop) :
  Q (shuffle (uses s) l) (set_uses S s) -> wp (shuffle_ l) s Q.
Proof. done. Qed.
Lemma wp_below peer threshold s (Q : bool -> Gossip -> Prop) :
  Q (low (score_ s) threshold peer) s -> wp (peer_below peer threshold) s Q.
Proof. done. Qed.
Lemma wp_get_or_fail {A} (o : option A) a s (Q : A -> Gossip -> Prop) :
  o = Some a -> Q a s -> wp (get_or_fail o) s Q.
Proof. by intros ->. Qed.
Lemma wp_whenM b m s (Q : unit -> Gossip -> Prop) :
  (b = true -> wp m s Q) -> (b = false -> Q tt s) -> wp (whenM b m) s Q.
Proof. destruct b; [by intros HT _; apply HT|by intros _ HF; apply HF]. Qed.
Lemma wp_deref p s peer (Q : Peer -> Gossip -> Prop) :
  heap s !! p = Some peer -> Q peer s -> wp (deref p) s Q.
Proof. unfold wp, deref. by intros ->. Qed.
Lemma wp_update_peer p f s peer (Q : unit -> Gossip -> Prop) :
  heap s !! p = Some peer -> Q tt (set_heap <[p := f peer]> s) -> wp (update_peer p f) s Q.
Proof. unfold wp, update_peer. by intros ->. Qed.
Lemma wp_get_topic h s t (Q : Topic -> Gossip -> Prop) :
  topics_ s !! h = Some t -> Q t s -> wp (get_topic h) s Q.
Proof. unfold wp, get_topic. by intros ->. Qed.
Lemma wp_update_topic h f s t (Q : unit -> Gossip -> Prop) :
  topics_ s !! h = Some t -> Q tt (set_topics_ <[h := f t]> s) -> wp (update_topic h f) s Q.
Proof. unfold wp, update_topic. by intros ->. Qed.
Lemma wp_update_score f s sc (Q : unit -> Gossip -> Prop) :
  f (score_ s) = Some sc -> Q tt (set_score_ (fun _ => sc) s) -> wp (update_score f) s Q.
Proof. unfold wp, update_score. by intros ->. Qed.

Lemma wp_deref_all l s (Q : list Peer -> Gossip -> Prop) :
  (forall p, p ∈ l -> is_Some (heap s !! p)) ->
  (forall peers, Forall2 (fun p peer => heap s !! p = Some peer) l peers -> Q peers s) ->
  wp (deref_all l) s Q.
Proof.
  revert Q. induction l as [|p l IH]; intros Q Hl HQ; cbn [deref_all].
  { apply wp_ret, HQ. constructor. }
  destruct (Hl p) as [peer Hp]; [set_solver|].
  apply wp_bind. eapply wp_deref; [done|]. apply wp_bind. apply IH; [set_solver|].
  intros peers Hps. apply wp_ret, HQ. by constructor.
Qed.
End Rules.

(** One step through the binds and pure actions of a handler. *)
Ltac wp1 :=
  lazymatch goal with
  | |- wp (choose _ _ _ ≫= _) _ _ => fail
  | |- wp (_ ≫= _) _ _ => apply wp_bind
  | |- wp (mret _) _ _ => apply wp_ret
  | |- wp (gets _) _ _ => apply wp_gets
  | |- wp (modify _) _ _ => apply wp_modify
  | |- wp now_ _ _ => apply wp_now
  | |- wp (order_ _) _ _ => apply wp_order
  | |- wp (shuffle_ _) _ _ => apply wp_shuffle
  | |- wp (peer_below _ _) _ _ => apply wp_below
  | |- wp (deref _) _ _ => eapply wp_deref; [eassumption|]
  | |- wp (update_peer _ _) _ _ => eapply wp_update_peer; [eassumption|]
  | |- wp (get_topic _) _ _ => eapply wp_get_topic; [eassumption|]
  | |- wp (update_topic _ _) _ _ => eapply wp_update_topic; [eassumption|]
  | |- wp (whenM _ _) _ _ => apply wp_whenM; intros ?
  end.
(** All steps up to the next decision, or through boolean decisions too. *)
Ltac wpn := repeat (wp1; cbv beta).
Ltac wps :=
  wpn; repeat (lazymatch goal with
    | |- wp (match ?b with true => _ | false => _ end) _ _ => destruct b eqn:?
    end; wpn).

(** ** Quiet changes: batches, writers *)

(** What the rest of the program reads of a peer. *)
Definition peer_view (peer : Peer) : Peer := set_batch None (set_writing false peer).

Record quiet (s s' : Gossip) : Prop := mkQuiet {
  q_topics : topics_ s' = topics_ s;
  q_peers : peers_ s' = peers_ s;
  q_seq : last_seq_no s' = last_seq_no s;
  q_dup : duplicate_cache_ s' = duplicate_cache_ s;
  q_cache : message_cache_ s' = message_cache_ s;
  q_promises : gossip_promises_ s' = gossip_promises_ s;
  q_score : score_ s' = score_ s;
  q_ticks : heartbeat_ticks_ s' = heartbeat_ticks_ s;
  q_received : count_received_ihave_ s' = count_received_ihave_ s;
  q_sent : count_sent_iwant_ s' = count_sent_iwant_ s;
  q_next : next_ptr s' = next_ptr s;
  q_uses : uses s' = uses s;
  q_heap : forall p, peer_view <$> heap s' !! p = peer_view <$> heap s !! p
}.

#[global] Instance quiet_preorder : PreOrder quiet.
Proof.
  split; [by intros s; constructor|].
  intros s1 s2 s3 H1 H2. constructor; intros; (etrans; [apply H2|apply H1]).
Qed.

Lemma quiet_peer s s' p peer :
  quiet s s' -> heap s !! p = Some peer ->
  exists peer', heap s' !! p = Some peer' /\ peer_view peer' = peer_view peer.
Proof.
  intros Hq Hp. pose proof (q_heap _ _ Hq p) as Hv. rewrite Hp in Hv.
  destruct (heap s' !! p) as [peer'|]; [|done]. exists peer'. split; [done|]. by apply (inj Some).
Qed.

Lemma quiet_peer_inv s s' p peer' :
  quiet s s' -> heap s' !! p = Some peer' ->
  exists peer, heap s !! p = Some peer /\ peer_view peer' = peer_view peer.
Proof.
  intros Hq Hp. pose proof (q_heap _ _ Hq p) as Hv. rewrite Hp in Hv.
  destruct (heap s !! p) as [peer|]; [|done]. exists peer. split; [done|]. by apply (inj Some).
Qed.

(** The fields a view shows. *)
Lemma view_fields a b : peer_view a = peer_view b ->
  peer_id_ a = peer_id_ b /\ out_ a = out_ b /\ peer_kind_ a = peer_kind_ b
  /\ peer_topics_ a = peer_topics_ b /\ stream_out_ a = stream_out_ b
  /\ dont_send_ a = dont_send_ b.
Proof. destruct a, b. intros [=]. naive_solver. Qed.

Lemma quiet_update_peer s p peer peer' :
  heap s !! p = Some peer -> peer_view peer' = peer_view peer ->
  quiet s (set_heap <[p := peer']> s).
Proof.
  intros Hp Hv. constructor; try done. intros q. cbn.
  rewrite lookup_insert. case_decide; subst; [|done]. by rewrite Hp; cbn; rewrite Hv.
Qed.

(** ** The writers *)

Record writers_ok (s : Gossip) : Prop := {
  w_running : forall p peer, heap s !! p = Some peer ->
    (writing_ peer = true <-> is_Some (writers s !! p));
  w_stream : forall p peer, heap s !! p = Some peer ->
    writing_ peer = true -> is_Some (stream_out_ peer);
  w_heap : forall p w, writers s !! p = Some w -> is_Some (heap s !! p);
  w_rest : forall p current rest, writers s !! p = Some (Sending current rest) ->
    Forall (fun m => m <> []) (current :: rest)
}.

(** The heap is changed at [p] only. *)
Lemma writers_ok_update s p peer peer' :
  writers_ok s -> heap s !! p = Some peer ->
  writing_ peer' = writing_ peer ->
  (writing_ peer = true -> is_Some (stream_out_ peer')) ->
  writers_ok (set_heap <[p := peer']> s).
Proof.
  intros [Hr Hs Hh He] Hp Hw Ho. split; cbn; [| | |done].
  - intros q pq. rewrite lookup_insert. case_decide; subst; [|apply Hr].
    intros [= <-]. rewrite Hw. by apply Hr.
  - intros q pq. rewrite lookup_insert. case_decide; subst; [|apply Hs].
    intros [= <-]. rewrite Hw. done.
  - intros q w Hq. rewrite lookup_insert. case_decide; [done|by eapply Hh].
Qed.

Lemma writers_ok_frame s s' :
  writers_ok s -> heap s' = heap s -> writers s' = writers s -> writers_ok s'.
Proof. intros [] Hh Hw. split; rewrite ?Hh, ?Hw; done. Qed.

(** The output queued for a peer. *)
Definition batch_of (s : Gossip) (p : PeerPtr) : Rpc :=
  default Rpc_new (heap s !! p ≫= batch_).

(** Effect of [with_batch p f] between two states. *)
Record queued (p : PeerPtr) (f : Rpc -> Rpc) (s s' : Gossip) : Prop := {
  qd_quiet : quiet s s';
  qd_writers : writers_ok s';
  qd_batch : batch_of s' p = f (batch_of s p);
  qd_set : exists peer, heap s' !! p = Some peer /\ is_Some (batch_ peer);
  qd_others : forall q, q <> p -> heap s' !! q = heap s !! q;
  (** The writer is awake, or there is no stream to write to. *)
  qd_awake : forall peer, heap s' !! p = Some peer ->
    is_Some (stream_out_ peer) -> writing_ peer = true
}.

Lemma writers_ok_spawn s p peer :
  writers_ok s -> heap s !! p = Some peer -> writing_ peer = false ->
  is_Some (stream_out_ peer) ->
  writers s !! p = None
  /\ writers_ok (set_writers <[p := Starting]> (set_heap <[p := set_writing true peer]> s)).
Proof.
  intros [Hr Hs Hh He] Hp Hw Ho.
  assert (writers s !! p = None) as Hn.
  { apply eq_None_not_Some. rewrite <- (Hr p peer Hp). by rewrite Hw. }
  split; [done|]. split; cbn.
  - intros q pq. rewrite !lookup_insert. case_decide; subst; [|apply Hr].
    intros [= <-]. done.
  - intros q pq. rewrite lookup_insert. case_decide; subst; [|apply Hs]. by intros [= <-].
  - intros q w. rewrite !lookup_insert. case_decide; subst; [done|apply Hh].
  - intros q c r. rewrite lookup_insert. case_decide; [done|apply He].
Qed.

Lemma checkWrite_ok p s peer :
  writers_ok s -> heap s !! p = Some peer ->
  wp (checkWrite p) s (fun _ s' => quiet s s' /\ writers_ok s'
    /\ (forall q, q <> p -> heap s' !! q = heap s !! q)
    /\ exists peer', heap s' !! p = Some peer' /\ batch_ peer' = batch_ peer
       /\ stream_out_ peer' = stream_out_ peer
       /\ (is_Some (stream_out_ peer) -> is_Some (batch_ peer) -> writing_ peer' = true)).
Proof.
  intros Hw Hp. unfold checkWrite. wps.
  { split_and!; try done. exists peer. split_and!; done. }
  destruct (stream_out_ peer) as [st|] eqn:Eo.
  2:{ wps. split_and!; try done. exists peer. split_and!; done. }
  destruct (batch_ peer) as [b|] eqn:Eb.
  2:{ wps. split_and!; try done. exists peer. split_and!; try done; by intros _ []. }
  destruct (writers_ok_spawn s p peer) as [Hn Hok]; [done|done|done|by rewrite Eo|].
  wps. unfold wp, spawn_writer. cbn. rewrite Hn. split_and!; [|done| |].
  - etrans; [by apply (quiet_update_peer s p peer (set_writing true peer))|]. by constructor.
  - intros q Hq. cbn. by rewrite lookup_insert_ne.
  - exists (set_writing true peer). cbn. rewrite lookup_insert_eq. done.
Qed.

Lemma getBatch_ok p s peer :
  writers_ok s -> heap s !! p = Some peer -> wp (getBatch p) s (fun _ => queued p id s).
Proof.
  intros Hw Hp. unfold getBatch. wp1. eapply wp_update_peer; [done|].
  set (peer1 := match batch_ peer with None => _ | Some _ => _ end).
  assert (peer_view peer1 = peer_view peer /\ writing_ peer1 = writing_ peer
    /\ stream_out_ peer1 = stream_out_ peer /\ batch_ peer1 = Some (default Rpc_new (batch_ peer)))
    as (Hv & Hw1 & Hs1 & Hb1).
  { unfold peer1. destruct (batch_ peer) eqn:E; cbn; by rewrite ?E. }
  clearbody peer1. set (s1 := set_heap _ s).
  assert (quiet s s1) as Hq1 by by apply (quiet_update_peer s p peer).
  assert (writers_ok s1) as Hw2.
  { apply (writers_ok_update s p peer); [done|done|done|]. rewrite Hs1.
    by apply (w_stream s Hw p). }
  assert (heap s1 !! p = Some peer1) as Hp1 by (cbn; by rewrite lookup_insert_eq).
  eapply wp_mono; [by apply (checkWrite_ok p s1 peer1)|].
  intros _ s' (Hq & Hw' & Ho & peer' & Hp' & Hb' & Hs' & Ha).
  split; [by etrans|done| | | |].
  - unfold batch_of. rewrite Hp', Hp. cbn. by rewrite Hb', Hb1.
  - exists peer'. split; [done|]. by rewrite Hb', Hb1.
  - intros q Hq'. rewrite Ho by done. cbn. by rewrite lookup_insert_ne.
  - intros peer''. rewrite Hp'. intros [= <-]. rewrite Hs', Hb1 in *. naive_solver.
Qed.

(** Changing the batch of a peer that has one. *)
Lemma update_batch_queued p f g s s' peer :
  queued p f s s' -> heap s' !! p = Some peer ->
  queued p (fun b => g (f b)) s (set_heap <[p := set_batch (g <$> batch_ peer) peer]> s').
Proof.
  intros [Hq Hw Hb (peer0 & Hp0 & [b0 Hb0]) Ho Ha] Hp.
  rewrite Hp in Hp0. injection Hp0 as <-. split.
  - etrans; [done|]. by apply (quiet_update_peer s' p peer).
  - apply (writers_ok_update s' p peer); [done|done|done|]. by apply (w_stream s' Hw p).
  - unfold batch_of in *. cbn. rewrite lookup_insert_eq. cbn. rewrite Hp in Hb. cbn in Hb.
    rewrite Hb0 in *. cbn in *. by rewrite Hb.
  - cbn. rewrite lookup_insert_eq. eexists. split; [done|]. cbn. by rewrite Hb0.
  - intros q Hq'. cbn. rewrite lookup_insert_ne by done. by apply Ho.
  - intros peer'. cbn. rewrite lookup_insert_eq. intros [= <-]. by apply (Ha peer).
Qed.

Lemma with_batch_ok p f s peer :
  writers_ok s -> heap s !! p = Some peer -> wp (with_batch p f) s (fun _ => queued p f s).
Proof.
  intros Hw Hp. unfold with_batch. wp1. eapply wp_mono; [by apply (getBatch_ok p s peer)|].
  intros [] s' Hqd. destruct (qd_set _ _ _ _ Hqd) as (peer' & Hp' & _).
  eapply wp_update_peer; [done|]. by apply (update_batch_queued p id f).
Qed.

(** ** The invariant *)

Record config_ok (c : Config) : Prop := {
  cfg_heartbeat : (0 < heartbeat_interval c)%nat;
  cfg_history : (0 < history_length c)%nat;
  cfg_ticks : (0 < opportunistic_graft_ticks c)%nat
}.
Existing Class config_ok.

(** A topic against the peers on the heap: members announced the topic, the
    mesh consists of members that speak gossipsub. *)
Record topic_ok (c : Config) (hp : gmap PeerPtr Peer) (h : TopicHash) (t : Topic) : Prop := {
  t_hash : topic_hash_ t = h;
  t_history : length (history_ t) = history_length c;
  t_backoff : TopicBackoff.ok (backoff_ t);
  t_mesh : mesh_peers_ t ⊆ topic_peers_ t;
  t_members : forall p, p ∈ topic_peers_ t ->
    exists peer, hp !! p = Some peer /\ h ∈ peer_topics_ peer;
  t_gossipsub : forall p peer, p ∈ mesh_peers_ t -> hp !! p = Some peer -> isGossipsub peer = true
}.

Record core_ok `{Env} (c : Config) (s : Gossip) : Prop := {
  c_fresh : forall p, (next_ptr s <= p)%nat -> heap s !! p = None;
  c_peers : forall id p, peers_ s !! id = Some p ->
    exists peer, heap s !! p = Some peer /\ peer_id_ peer = id;
  c_topics : forall h t, topics_ s !! h = Some t -> topic_ok c (heap s) h t;
  (** A connected peer is a member of every topic it announced. *)
  c_announced : forall id p peer h t, peers_ s !! id = Some p -> heap s !! p = Some peer ->
    h ∈ peer_topics_ peer -> topics_ s !! h = Some t -> p ∈ topic_peers_ t;
  c_promises : forall id m p, GossipPromises.map_ (gossip_promises_ s) !! id = Some m ->
    is_Some (m !! p) -> is_Some (heap s !! p);
  c_dont_send : forall p peer, heap s !! p = Some peer ->
    IDontWantCache.inv (clock (uses s)) (dont_send_ peer);
  c_score : known (score_ s);
  c_params : params_ (score_ s) = score_config c;
  c_iwant : forall p n, count_sent_iwant_ s !! p = Some n -> (n <= max_ihave_length c)%nat
}.

Definition inv `{Env} (c : Config) (s : Gossip) : Prop := core_ok c s /\ writers_ok s.

Lemma topic_ok_heap c hp hp' h t :
  topic_ok c hp h t ->
  (forall p peer, hp !! p = Some peer -> p ∈ topic_peers_ t ->
     exists peer', hp' !! p = Some peer' /\ (h ∈ peer_topics_ peer -> h ∈ peer_topics_ peer')
       /\ (isGossipsub peer = true -> isGossipsub peer' = true)) ->
  topic_ok c hp' h t.
Proof.
  intros [H1 H2 H3 H4 H5 H6] Hhp. split; try done.
  - intros p Hp. destruct (H5 p Hp) as (peer & Hpe & Ht).
    destruct (Hhp p peer Hpe Hp) as (peer' & ? & ? & _). eauto.
  - intros p peer' Hp Hpe'. destruct (H5 p) as (peer & Hpe & _); [set_solver|].
    destruct (Hhp p peer Hpe) as (peer'' & ? & _ & Hg); [set_solver|]. simplify_eq.
    apply Hg. by apply (H6 p).
Qed.

(** Heaps that show the same. *)
Definition views (hp hp' : gmap PeerPtr Peer) : Prop :=
  forall p, peer_view <$> hp' !! p = peer_view <$> hp !! p.

#[global] Instance views_preorder : PreOrder views.
Proof. split; [done|]. intros h1 h2 h3 H1 H2 p. etrans; [apply H2|apply H1]. Qed.

Lemma views_peer hp hp' p peer :
  views hp hp' -> hp !! p = Some peer ->
  exists peer', hp' !! p = Some peer' /\ peer_view peer' = peer_view peer.
Proof.
  intros Hv Hp. specialize (Hv p). rewrite Hp in Hv.
  destruct (hp' !! p) as [peer'|]; [|done]. exists peer'. split; [done|]. by apply (inj Some).
Qed.

Lemma views_sym hp hp' : views hp hp' -> views hp' hp.
Proof. intros Hv p. by rewrite Hv. Qed.

Lemma view_gossipsub a b : peer_view a = peer_view b -> isGossipsub a = isGossipsub b.
Proof.
  intros Hv. destruct (view_fields a b Hv) as (_ & _ & Hk & _).
  unfold isGossipsub, kind_at_least. by rewrite Hk.
Qed.

Lemma topic_ok_views c hp hp' h t : views hp hp' -> topic_ok c hp h t -> topic_ok c hp' h t.
Proof.
  intros Hv Ht. apply (topic_ok_heap c hp); [done|]. intros p peer Hp _.
  destruct (views_peer hp hp' p peer Hv Hp) as (peer' & Hp' & Hpv). exists peer'.
  destruct (view_fields peer' peer Hpv) as (_ & _ & _ & -> & _).
  by rewrite (view_gossipsub peer' peer Hpv).
Qed.

Lemma inv_mono {K} `{Countable K} (last last' : Z) (c : TimeCache.t K unit) :
  last <= last' -> IDontWantCache.inv last c -> IDontWantCache.inv last' c.
Proof. intros Hl [H1 H2 H3]. split; [done| |done]. by eapply TimeCache.timed_mono. Qed.

(** A change of topics, peers' output and counters that leaves the members of
    the topics alone. *)
Record mesh_change (s s' : Gossip) : Prop := {
  m_peers : peers_ s' = peers_ s;
  m_seq : last_seq_no s' = last_seq_no s;
  m_dup : duplicate_cache_ s' = duplicate_cache_ s;
  m_cache : message_cache_ s' = message_cache_ s;
  m_promises : gossip_promises_ s' = gossip_promises_ s;
  m_ticks : heartbeat_ticks_ s' = heartbeat_ticks_ s;
  m_received : count_received_ihave_ s' = count_received_ihave_ s;
  m_sent : count_sent_iwant_ s' = count_sent_iwant_ s;
  m_next : next_ptr s' = next_ptr s;
  m_heap : views (heap s) (heap s')
}.

#[global] Instance mesh_change_preorder : PreOrder mesh_change.
Proof.
  split; [by intros s; constructor|].
  intros s1 s2 s3 H1 H2. constructor; try (etrans; [apply H2|apply H1]).
  etrans; [apply H1|apply H2].
Qed.

Lemma quiet_mesh s s' : quiet s s' -> mesh_change s s'.
Proof. intros []. by constructor. Qed.
#[export] Hint Resolve quiet_mesh : p2p.

Section Invariant.
Context `{E : Env} `{!EnvLaws E} (config_ : Config).

Lemma core_frame s s' :
  core_ok config_ s -> topics_ s' = topics_ s -> peers_ s' = peers_ s ->
  gossip_promises_ s' = gossip_promises_ s -> score_ s' = score_ s ->
  (forall p n, count_sent_iwant_ s' !! p = Some n -> (n <= max_ihave_length config_)%nat) ->
  heap s' = heap s -> next_ptr s' = next_ptr s -> uses s' = uses s -> core_ok config_ s'.
Proof.
  intros [] Ht Hp Hg Hs Hc Hh Hn Hu.
  split; rewrite ?Ht, ?Hp, ?Hg, ?Hs, ?Hh, ?Hn, ?Hu; try done.
Qed.

Lemma clock_le n k : clock n <= clock (n + k).
Proof.
  induction k as [|k IH]; [by rewrite Nat.add_0_r|].
  rewrite Nat.add_succ_r. pose proof (clock_steady (n + k)). lia.
Qed.

(** The change of topics, given as a map that is fine for the same members. *)
Lemma core_mesh s s' :
  core_ok config_ s -> mesh_change s s' ->
  known (score_ s') -> params_ (score_ s') = params_ (score_ s) ->
  (uses s <= uses s')%nat ->
  (forall h t', topics_ s' !! h = Some t' -> topic_ok config_ (heap s) h t'
     /\ exists t, topics_ s !! h = Some t /\ topic_peers_ t ⊆ topic_peers_ t') ->
  core_ok config_ s'.
Proof.
  intros [H1 H2 H3 H4 H5 H6 H7 H8 H9] [M1 M2 M3 M4 M5 M6 M7 M8 M9 M10] Hk Hpar Hu Ht.
  pose proof (views_sym _ _ M10) as Hback. split.
  - intros p. rewrite M9. intros Hp. apply H1 in Hp. specialize (M10 p). rewrite Hp in M10.
    by destruct (heap s' !! p).
  - intros id p. rewrite M1. intros Hid. destruct (H2 id p Hid) as (peer & Hp & Hi).
    destruct (views_peer _ _ p peer M10 Hp) as (peer' & Hp' & Hv). exists peer'.
    split; [done|]. destruct (view_fields _ _ Hv) as (-> & _). done.
  - intros h t' Hh. apply (topic_ok_views _ (heap s)); [done|]. by apply Ht.
  - intros id p peer' h t' Hid Hp' Hh Ht'. rewrite M1 in Hid.
    destruct (views_peer _ _ p peer' Hback Hp') as (peer & Hp & Hv).
    destruct (view_fields _ _ Hv) as (_ & _ & _ & Htop & _).
    destruct (Ht h t' Ht') as (_ & t & Ht0 & Hsub). apply Hsub.
    apply (H4 id p peer h t); try done. by rewrite Htop.
  - intros id m p. rewrite M5. intros Hm Hmp. destruct (H5 id m p Hm Hmp) as [peer Hp].
    destruct (views_peer _ _ p peer M10 Hp) as (peer' & Hp' & _). by rewrite Hp'.
  - intros p peer' Hp'. destruct (views_peer _ _ p peer' Hback Hp') as (peer & Hp & Hv).
    destruct (view_fields _ _ Hv) as (_ & _ & _ & _ & _ & <-).
    eapply inv_mono; [|by apply (H6 p)].
    replace (uses s') with (uses s + (uses s' - uses s))%nat by lia. apply clock_le.
  - done.
  - by rewrite Hpar.
  - rewrite M8. apply H9.
Qed.

Lemma core_quiet s s' : quiet s s' -> core_ok config_ s -> core_ok config_ s'.
Proof.
  intros Hq Hc. apply (core_mesh s); [done|by apply quiet_mesh|..]; try (by rewrite (q_score _ _ Hq); apply Hc).
  - by rewrite (q_score _ _ Hq).
  - by rewrite (q_uses _ _ Hq).
  - intros h t'. rewrite (q_topics _ _ Hq). intros Ht. split; [by apply Hc|]. by exists t'.
Qed.

Lemma core_uses s n : core_ok config_ s -> core_ok config_ (set_uses (fun k => n + k)%nat s).
Proof.
  intros Hc. apply (core_mesh s); [done|by constructor|by apply Hc|done|cbn; lia|].
  intros h t Ht. split; [by apply Hc|by exists t].
Qed.

Lemma inv_uses s : inv config_ s -> inv config_ (set_uses S s).
Proof.
  intros [Hc Hw]. split; [by apply (core_uses s 1)|]. by apply (writers_ok_frame s).
Qed.

(** One topic replaced, its members kept or extended. *)
Lemma core_topic s h t t' :
  core_ok config_ s -> topics_ s !! h = Some t -> topic_ok config_ (heap s) h t' ->
  topic_peers_ t ⊆ topic_peers_ t' -> core_ok config_ (set_topics_ <[h := t']> s).
Proof.
  intros Hc Ht Hok Hsub. apply (core_mesh s); [done|by constructor|by apply Hc|done|done|].
  intros h' t''. cbn. rewrite lookup_insert. case_decide; subst.
  - intros [= <-]. split; [done|]. by exists t.
  - intros Ht'. split; [by apply Hc|]. by exists t''.
Qed.

Lemma core_score s sc :
  core_ok config_ s -> known sc -> params_ sc = params_ (score_ s) ->
  core_ok config_ (set_score_ (fun _ => sc) s).
Proof.
  intros Hc Hk Hp. apply (core_mesh s); [done|by constructor|done|done|done|].
  intros h t Ht. split; [by apply Hc|by exists t].
Qed.
End Invariant.
