(* ===== verification/GossipMesh.v ===== *)
(** * Gossipsub: what the mesh primitives do

    Specifications of [graft], [make_prune], [remove_peer_from_mesh], [choose]
    and the loops over them: they keep the invariant and change exactly one
    topic. *)

From S2P Require Import Prelude TimeCache Backoff Multihash Score GossipState GossipOps.
From S2P Require Import GossipHandlers GossipInv.

Lemma low_negb (b : bool) : negb b = true -> b = false.
Proof. by destruct b. Qed.

(** A state predicate about one topic is all a mesh operation needs. *)
Record topic_change (h : TopicHash) (t' : Topic) (s s' : Gossip) : Prop := {
  tc_mesh : mesh_change s s';
  tc_topics : topics_ s' = <[h := t']> (topics_ s)
}.

Lemma topic_change_lookup h t' s s' : topic_change h t' s s' -> topics_ s' !! h = Some t'.
Proof. intros [_ ->]. by rewrite lookup_insert_eq. Qed.

Lemma topic_change_refl h t s : topics_ s !! h = Some t -> topic_change h t s s.
Proof. intros Ht. split; [done|]. by rewrite insert_id. Qed.

Lemma topic_change_trans h t t' s1 s2 s3 :
  topic_change h t s1 s2 -> topic_change h t' s2 s3 -> topic_change h t' s1 s3.
Proof.
  intros [M1 T1] [M2 T2]. split; [by etrans|]. rewrite T2, T1. by rewrite insert_insert_eq.
Qed.

Lemma topic_change_quiet h t s1 s2 s3 :
  topic_change h t s1 s2 -> quiet s2 s3 -> topic_change h t s1 s3.
Proof.
  intros [M T] Hq. split; [etrans; [done|by apply quiet_mesh]|].
  by rewrite (q_topics _ _ Hq).
Qed.

(** Membership of a change of mesh. *)
Lemma topic_ok_mesh c hp h t f :
  topic_ok c hp h t -> f (mesh_peers_ t) ⊆ topic_peers_ t ->
  (forall p peer, p ∈ f (mesh_peers_ t) -> hp !! p = Some peer -> isGossipsub peer = true) ->
  topic_ok c hp h (set_mesh_peers f t).
Proof. intros [H1 H2 H3 H4 H5 H6] Hs Hg. by split. Qed.

Lemma topic_ok_shrink c hp h t f :
  topic_ok c hp h t -> f (mesh_peers_ t) ⊆ mesh_peers_ t -> topic_ok c hp h (set_mesh_peers f t).
Proof.
  intros Ht Hf. apply topic_ok_mesh; [done| |].
  - etrans; [done|apply Ht].
  - intros p peer Hp Hpe. apply (t_gossipsub _ _ _ _ Ht p); [by apply Hf|done].
Qed.

Lemma topic_ok_backoff c hp h t b :
  topic_ok c hp h t -> TopicBackoff.ok b -> topic_ok c hp h (set_backoff (fun _ => b) t).
Proof. intros [] Hb. by split. Qed.

(** Peers read one after the other, paired with their pointers. *)
Lemma zip_heap (hp : gmap PeerPtr Peer) l peers p peer :
  Forall2 (fun p peer => hp !! p = Some peer) l peers ->
  (p, peer) ∈ zip l peers <-> p ∈ l /\ hp !! p = Some peer.
Proof.
  induction 1 as [|q pq l peers Hq _ IH]; [set_solver|]. cbn [zip_with zip].
  rewrite !elem_of_cons, IH. split; [naive_solver|].
  intros [[->|Hl] Hp]; [left; congruence|by right].
Qed.

(** The members for which a predicate of the peer holds, as a set. *)
Lemma elem_of_zip_filter (hp : gmap PeerPtr Peer) l peers p (P : PeerPtr * Peer -> Prop)
    `{!forall q, Decision (P q)} :
  Forall2 (fun p peer => hp !! p = Some peer) l peers ->
  p ∈ (list_to_set (filter P (zip l peers)).*1 : gset PeerPtr)
  <-> p ∈ l /\ exists peer, hp !! p = Some peer /\ P (p, peer).
Proof.
  intros Hf. rewrite elem_of_list_to_set, list_elem_of_fmap. split.
  - intros ([q pq] & -> & [HP Hin]%list_elem_of_filter).
    apply (zip_heap hp) in Hin as [Hl Hp]; [|done]. eauto.
  - intros (Hl & peer & Hp & HP). exists (p, peer). split; [done|].
    apply list_elem_of_filter. split; [done|]. by apply (zip_heap hp).
Qed.

Section Choose.
Context `{E : Env} `{!EnvLaws E}.

(** The peers [choose] returns are distinct, speak gossipsub and satisfy the
    predicate; there are at most as many as asked for. *)
Lemma choose_filter_spec predicate l s (Q : list PeerPtr -> Gossip -> Prop) :
  (forall p, p ∈ l -> is_Some (heap s !! p)) ->
  (forall l', sublist l' l ->
     (forall p, p ∈ l' -> exists peer, heap s !! p = Some peer /\ isGossipsub peer = true
        /\ predicate p peer = true) -> Q l' s) ->
  wp (choose_filter predicate l) s Q.
Proof.
  revert Q. induction l as [|p l IH]; intros Q Hl HQ; cbn [choose_filter].
  { apply wp_ret, HQ; [done|set_solver]. }
  destruct (Hl p) as [peer Hp]; [set_solver|]. wps.
  apply IH; [set_solver|]. intros l' Hsub Hall. wps.
  destruct (isGossipsub peer) eqn:Eg, (predicate p peer) eqn:Ep; cbn; apply HQ;
    try (by constructor); try done.
  intros q [->|]%elem_of_cons; [by exists peer|by apply Hall].
Qed.

Lemma choose_by_spec all predicate get_count s (Q : list PeerPtr -> Gossip -> Prop) :
  (forall p, p ∈ all -> is_Some (heap s !! p)) ->
  (forall l, NoDup l ->
     (forall p, p ∈ l -> p ∈ all /\ exists peer, heap s !! p = Some peer /\ isGossipsub peer = true
        /\ predicate p peer = true) ->
     wp (get_count (length l)) (set_uses S (set_uses S s)) (fun count => Q (take count l))) ->
  wp (choose_by all predicate get_count) s Q.
Proof.
  intros Hall HQ. unfold choose_by. wps.
  assert (forall p, p ∈ order (uses s) (elements all) <-> p ∈ all) as Hin.
  { intros p. by rewrite order_permutes, elem_of_elements. }
  apply choose_filter_spec; [by intros p Hp%Hin%Hall|].
  intros l' Hsub Hl'. wp1. wp1. wp1. apply HQ.
  - rewrite shuffle_permutes. eapply sublist_NoDup; [|done]. rewrite order_permutes. apply NoDup_elements.
  - intros p Hp. rewrite shuffle_permutes in Hp.
    split; [|by apply Hl']. apply Hin. eapply elem_of_sublist; done.
Qed.

Lemma choose_spec all predicate count s (Q : list PeerPtr -> Gossip -> Prop) :
  (forall p, p ∈ all -> is_Some (heap s !! p)) ->
  (forall l, NoDup l -> (length l <= count)%nat ->
     (forall p, p ∈ l -> p ∈ all /\ exists peer, heap s !! p = Some peer /\ isGossipsub peer = true
        /\ predicate p peer = true) ->
     Q l (set_uses S (set_uses S s))) ->
  wp (choose all predicate count) s Q.
Proof.
  intros Hall HQ. apply choose_by_spec; [done|]. intros l Hnd Hl. apply wp_ret, HQ.
  - by eapply sublist_NoDup; [|apply sublist_take].
  - rewrite length_take. apply Nat.le_min_l.
  - intros p Hp. apply Hl. eapply elem_of_sublist; [done|apply sublist_take].
Qed.
End Choose.

Section Specs.
Context `{E : Env} `{!EnvLaws E} (config_ : Config) `{Hcfg : !config_ok config_}.

(** Keeping the invariant through a change of one topic and of the scores. *)
Lemma inv_topic_change s s' h t t' :
  inv config_ s -> topics_ s !! h = Some t -> topic_change h t' s s' ->
  topic_ok config_ (heap s) h t' -> topic_peers_ t ⊆ topic_peers_ t' ->
  known (score_ s') -> params_ (score_ s') = params_ (score_ s) -> (uses s <= uses s')%nat ->
  writers_ok s' -> inv config_ s'.
Proof.
  intros [Hc _] Ht [Hm Htop] Hok Hsub Hk Hp Hu Hw. split; [|done].
  apply (core_mesh config_ s); try done.
  intros h' t''. rewrite Htop, lookup_insert. case_decide; subst.
  - intros [= <-]. split; [done|]. by exists t.
  - intros Ht'. split; [by apply Hc|by exists t''].
Qed.

Lemma update_backoff_spec s h t p b (Q : unit -> Gossip -> Prop) :
  topics_ s !! h = Some t -> TopicBackoff.ok (backoff_ t) ->
  (forall bo, TopicBackoff.ok bo ->
     Q tt (set_topics_ <[h := set_backoff (fun _ => bo) t]> s)) ->
  wp (update_backoff config_ h p b) s Q.
Proof.
  intros Ht Hb HQ. unfold update_backoff. destruct Hcfg.
  rewrite decide_False by lia. wps.
  apply HQ. by apply TopicBackoff.update_ok.
Qed.

Lemma graft_spec s h t p peer :
  inv config_ s -> topics_ s !! h = Some t -> heap s !! p = Some peer ->
  p ∉ mesh_peers_ t -> p ∈ topic_peers_ t -> isGossipsub peer = true ->
  wp (graft h p) s (fun _ s' => inv config_ s'
    /\ topic_change h (set_mesh_peers (fun m => {[p]} ∪ m) t) s s'
    /\ batch_of s' p = rpc_graft h (batch_of s p)
    /\ (forall q, q <> p -> batch_of s' q = batch_of s q)).
Proof.
  intros Hinv Ht Hp Hnm Hm Hg. pose proof Hinv as [Hc Hw].
  pose proof (c_topics _ _ Hc h t Ht) as Hok.
  unfold graft. wps. rewrite decide_False by done. wps.
  set (t' := set_mesh_peers _ t). set (s1 := set_uses S _).
  destruct (graft_ok (clock (uses s)) (peer_id_ peer) (topic_hash_ t) (score_ s))
    as (sc & Hsc & Hk & Hpar & _); [apply Hc|].
  eapply wp_update_score; [done|]. set (s2 := set_score_ _ s1).
  eapply wp_mono; [apply (with_batch_ok p _ s2 peer); [by apply (writers_ok_frame s)|done]|].
  intros [] s' Hqd. pose proof (qd_quiet _ _ _ _ Hqd) as Hq.
  assert (topic_change h t' s s') as Htc.
  { apply (topic_change_quiet h t' s s2); [|done]. by split; [constructor|]. }
  rewrite (t_hash _ _ _ _ Hok) in *. split_and!; [|done| |].
  - apply (inv_topic_change s s' h t t'); try done.
    + apply topic_ok_mesh; [done|pose proof (t_mesh _ _ _ _ Hok); set_solver|].
      intros q pq [->%elem_of_singleton|Hq']%elem_of_union Hpq; [by simplify_eq|].
      by apply (t_gossipsub _ _ _ _ Hok q).
    + by rewrite (q_score _ _ Hq).
    + by rewrite (q_score _ _ Hq).
    + rewrite (q_uses _ _ Hq). cbn. lia.
    + apply Hqd.
  - by rewrite (qd_batch _ _ _ _ Hqd).
  - intros q Hq'. unfold batch_of. by rewrite (qd_others _ _ _ _ Hqd).
Qed.

Lemma make_prune_spec s h t p peer :
  inv config_ s -> topics_ s !! h = Some t -> heap s !! p = Some peer ->
  wp (make_prune config_ h p) s (fun _ s' => inv config_ s'
    /\ (exists bo, topic_change h (set_backoff (fun _ => bo) t) s s')
    /\ (isGossipsub peer = true -> Score.prune (peer_id_ peer) h (score_ s) = Some (score_ s')
          /\ is_Some (prune_ (batch_of s' p) !! h))).
Proof.
  intros Hinv Ht Hp. pose proof Hinv as [Hc Hw]. pose proof (c_topics _ _ Hc h t Ht) as Hok.
  unfold make_prune. wps.
  { split_and!; [done| |by intros Hg; rewrite Hg in *]. exists (backoff_ t).
    replace (set_backoff _ t) with t by by destruct t. by apply topic_change_refl. }
  rewrite (t_hash _ _ _ _ Hok).
  destruct (prune_ok (peer_id_ peer) h (score_ s)) as (sc & Hsc & Hk & Hpar & _); [apply Hc|].
  eapply wp_update_score; [done|]. set (s1 := set_score_ _ s). wp1.
  assert (forall s2 bo b, s2 = set_topics_ <[h := set_backoff (fun _ => bo) t]> s1 ->
    TopicBackoff.ok bo -> wp (with_batch p (rpc_prune h b)) s2 (fun _ s' => inv config_ s'
    /\ (exists bo, topic_change h (set_backoff (fun _ => bo) t) s s')
    /\ (isGossipsub peer = true -> Score.prune (peer_id_ peer) h (score_ s) = Some (score_ s')
          /\ is_Some (prune_ (batch_of s' p) !! h)))) as Hrest.
  { intros s2 bo b -> Hbo.
    eapply wp_mono; [apply (with_batch_ok p _ _ peer); [by apply (writers_ok_frame s)|done]|].
    intros [] s' Hqd. pose proof (qd_quiet _ _ _ _ Hqd) as Hq.
    assert (topic_change h (set_backoff (fun _ => bo) t) s s') as Htc.
    { eapply topic_change_quiet; [|done]. by split; [constructor|]. }
    split_and!; [|by exists bo|].
    - apply (inv_topic_change s s' h t (set_backoff (fun _ => bo) t)); try done.
      + by apply topic_ok_backoff.
      + by rewrite (q_score _ _ Hq).
      + by rewrite (q_score _ _ Hq).
      + by rewrite (q_uses _ _ Hq).
      + apply Hqd.
    - intros _. split; [by rewrite (q_score _ _ Hq)|]. rewrite (qd_batch _ _ _ _ Hqd). cbn.
      destruct (prune_ (batch_of _ p) !! h) eqn:Ep; [by rewrite Ep|]. by rewrite lookup_insert_eq. }
  destruct (isGossipsubv1_1 peer).
  - apply (update_backoff_spec s1 h t); [done|apply Hok|]. intros bo Hbo. by apply (Hrest _ bo).
  - apply wp_ret. apply (Hrest _ (backoff_ t)); [|apply Hok].
    replace (set_backoff _ t) with t by by destruct t.
    unfold s1, set_topics_. cbn. rewrite insert_id by done. by destruct s.
Qed.

(** [remove_peer_from_mesh] says exactly what changes; it is used in the middle
    of handlers, where the invariant need not hold. *)
Lemma remove_peer_spec s h p peer backoff always (Q : unit -> Gossip -> Prop) :
  heap s !! p = Some peer -> known (score_ s) ->
  (topics_ s !! h = None -> Q tt s) ->
  (forall t, topics_ s !! h = Some t -> TopicBackoff.ok (backoff_ t) /\
     forall sc bo, known sc -> params_ sc = params_ (score_ s) -> TopicBackoff.ok bo ->
     Q tt (set_score_ (fun _ => sc) (set_topics_
       <[h := set_backoff (fun _ => bo) (set_mesh_peers (fun m => m ∖ {[p]}) t)]> s))) ->
  wp (remove_peer_from_mesh config_ h p backoff always) s Q.
Proof.
  intros Hp Hk Hnone Hsome. unfold remove_peer_from_mesh. wps.
  destruct (topics_ s !! h) as [t|] eqn:Ht; [|by wps; apply Hnone].
  destruct (Hsome t eq_refl) as [Hbo HQ]. clear Hsome Hnone. wpn.
  set (t1 := set_mesh_peers _ t). set (s1 := set_topics_ _ s).
  assert (exists sc, known sc /\ params_ sc = params_ (score_ s) /\ forall Q : unit -> Gossip -> Prop,
    Q tt (set_score_ (fun _ => sc) s1) ->
    wp (if bool_decide (p ∈ mesh_peers_ t) then update_score (prune (peer_id_ peer) h) else mret tt)
       s1 Q) as (sc & Hksc & Hpar & Hstep).
  { case_bool_decide.
    - destruct (prune_ok (peer_id_ peer) h (score_ s) Hk) as (sc & Hsc & H1 & H2 & _).
      exists sc. split_and!; [done|done|]. intros Q' HQ'. by eapply wp_update_score.
    - exists (score_ s). split_and!; [done|done|]. intros Q' HQ'. apply wp_ret.
      unfold s1 in *. by destruct s. }
  apply Hstep. destruct (always || _).
  - apply (update_backoff_spec _ h t1); [cbn; by rewrite lookup_insert_eq|done|].
    intros bo Hbo'. specialize (HQ sc bo Hksc Hpar Hbo').
    unfold set_topics_, set_score_ in *. cbn in *. by rewrite insert_insert_eq.
  - apply wp_ret. specialize (HQ sc (backoff_ t) Hksc Hpar Hbo).
    unfold s1, t1. by destruct t.
Qed.

(** Members of a topic are on the heap. *)
Lemma members_on_heap s h t p :
  inv config_ s -> topics_ s !! h = Some t -> p ∈ topic_peers_ t -> is_Some (heap s !! p).
Proof.
  intros [Hc _] Ht Hp. destruct (t_members _ _ _ _ (c_topics _ _ Hc h t Ht) p Hp) as (peer & -> & _).
  by eexists.
Qed.

(** Grafting several members not yet in the mesh. *)
Lemma graft_all_spec s h t l :
  inv config_ s -> topics_ s !! h = Some t -> NoDup l ->
  (forall p, p ∈ l -> p ∈ topic_peers_ t /\ p ∉ mesh_peers_ t
     /\ exists peer, heap s !! p = Some peer /\ isGossipsub peer = true) ->
  wp (forM_ l (graft h)) s (fun _ s' => inv config_ s'
    /\ topic_change h (set_mesh_peers (fun m => list_to_set l ∪ m) t) s s').
Proof.
  revert s t. induction l as [|p l IH]; intros s t Hinv Ht Hnd Hl; cbn [forM_].
  { wps. split; [done|]. replace (set_mesh_peers _ t) with t; [by apply topic_change_refl|].
    destruct t. unfold set_mesh_peers. cbn. f_equal. set_solver. }
  apply NoDup_cons in Hnd as [Hp Hnd]. destruct (Hl p) as (Hm & Hnm & peer & Hpe & Hg); [set_solver|].
  wp1. eapply wp_mono; [by apply (graft_spec s h t p peer)|].
  intros [] s1 (Hinv1 & Htc & _). set (t1 := set_mesh_peers _ t) in Htc.
  eapply wp_mono; [apply (IH s1 t1); [done|by apply (topic_change_lookup h t1 s)|done|]|].
  - intros q Hq. destruct (Hl q) as (Hm' & Hnm' & peer' & Hpe' & Hg'); [set_solver|].
    split_and!; [done|cbn; set_solver|].
    destruct (views_peer _ _ q peer' (m_heap _ _ (tc_mesh _ _ _ _ Htc)) Hpe') as (peer'' & ? & Hv).
    exists peer''. split; [done|]. by rewrite (view_gossipsub _ _ Hv).
  - intros [] s2 [Hinv2 Htc2]. split; [done|].
    replace (set_mesh_peers _ t) with (set_mesh_peers (fun m => list_to_set l ∪ m) t1).
    { by eapply topic_change_trans. }
    unfold t1. destruct t. unfold set_mesh_peers. cbn. f_equal. set_solver.
Qed.

(** [choose] among the members outside of the mesh, then [graft]. *)
Lemma choose_graft_spec s h t predicate n :
  inv config_ s -> topics_ s !! h = Some t ->
  (forall p peer, predicate p peer = true -> p ∉ mesh_peers_ t) ->
  wp (chosen ← choose (topic_peers_ t) predicate n; forM_ chosen (graft h)) s
     (fun _ s' => inv config_ s' /\ exists l, NoDup l /\ (length l <= n)%nat
        /\ (forall p, p ∈ l -> p ∈ topic_peers_ t /\ p ∉ mesh_peers_ t
              /\ exists peer, heap s !! p = Some peer /\ predicate p peer = true)
        /\ topic_change h (set_mesh_peers (fun m => list_to_set l ∪ m) t) s s').
Proof.
  intros Hinv Ht Hpred.
  apply wp_bind, choose_spec; [by intros p Hp; apply (members_on_heap s h t)|].
  intros l Hnd Hlen Hl. set (s1 := set_uses _ _).
  assert (inv config_ s1) as Hi1 by by do 2 apply inv_uses.
  assert (forall p, p ∈ l -> p ∉ mesh_peers_ t) as Hout.
  { intros p Hp. destruct (Hl p Hp) as (_ & peer & _ & _ & Hpe). by eapply Hpred. }
  eapply wp_mono; [apply (graft_all_spec s1 h t l); [done|done|done|]|].
  - intros p Hp. destruct (Hl p Hp) as (Hm & peer & Hpe & Hg & _). split_and!; eauto.
  - intros [] s' [Hi' [Hm Htop]]. split; [done|]. exists l. split_and!; [done|done| |].
    + intros p Hp. destruct (Hl p Hp) as (Hm' & peer & Hpe & _ & Hpp). split_and!; eauto.
    + split; [|done]. etrans; [|done]. by constructor.
Qed.
End Specs.
