(* ===== verification/GossipSafe.v ===== *)
(** * Gossipsub: every handler keeps the invariant and never fails

    For each handler: from a state satisfying [inv] it runs to its end (no
    assertion, exception or access out of range) in a state satisfying [inv],
    in which every peer object is still there with its identity. *)

From S2P Require Import Prelude TimeCache Backoff Multihash Score GossipState GossipOps.
From S2P Require Import GossipHandlers GossipInv GossipMesh.

(** Peer objects stay, keep their identity, and keep speaking gossipsub. *)
Definition grows (s s' : Gossip) : Prop :=
  forall p peer, heap s !! p = Some peer -> exists peer', heap s' !! p = Some peer'
    /\ peer_id_ peer' = peer_id_ peer /\ (isGossipsub peer = true -> isGossipsub peer' = true).

#[global] Instance grows_preorder : PreOrder grows.
Proof.
  split; [by intros s p peer ?; exists peer|].
  intros s1 s2 s3 H1 H2 p peer Hp. destruct (H1 p peer Hp) as (p2 & Hp2 & Hi2 & Hg2).
  destruct (H2 p p2 Hp2) as (p3 & Hp3 & Hi3 & Hg3). exists p3. rewrite Hi3. naive_solver.
Qed.

Lemma views_grows s s' : views (heap s) (heap s') -> grows s s'.
Proof.
  intros Hv p peer Hp. destruct (views_peer _ _ p peer Hv Hp) as (peer' & Hp' & Hpv).
  exists peer'. rewrite (view_gossipsub _ _ Hpv). destruct (view_fields _ _ Hpv) as (-> & _). done.
Qed.

Lemma same_heap_grows s s' : heap s' = heap s -> grows s s'.
Proof. intros Hh. apply views_grows. by rewrite Hh. Qed.

Lemma mesh_grows s s' : mesh_change s s' -> grows s s'.
Proof. intros Hm. apply views_grows, Hm. Qed.

Lemma quiet_grows s s' : quiet s s' -> grows s s'.
Proof. intros Hq. by apply mesh_grows, quiet_mesh. Qed.

Lemma grows_some s s' p : grows s s' -> is_Some (heap s !! p) -> is_Some (heap s' !! p).
Proof. intros Hg [peer Hp]. destruct (Hg p peer Hp) as (peer' & -> & _). by eexists. Qed.

Section Safe.
Context `{E : Env} `{!EnvLaws E} {config_ : Config} `{Hcfg : !config_ok config_}.
Implicit Types (s : Gossip) (p : PeerPtr).

Abbreviation inv := (inv config_).

(** What every handler ensures. *)
Definition kept s (s' : Gossip) : Prop := inv s' /\ grows s s'.

Lemma kept_refl s : inv s -> kept s s.
Proof. done. Qed.

Lemma kept_trans s1 s2 s3 : kept s1 s2 -> kept s2 s3 -> kept s1 s3.
Proof. intros [_ H1] [H2 H3]. split; [done|by etrans]. Qed.

(** Sequencing of handlers that keep the invariant. *)
Lemma wp_kept_bind {A B} (m : M A) (k : A -> M B) s :
  wp m s (fun _ => kept s) ->
  (forall a s', kept s s' -> wp (k a) s' (fun _ => kept s')) ->
  wp (m ≫= k) s (fun _ => kept s).
Proof.
  intros Hm Hk. apply wp_bind. eapply wp_mono; [done|]. intros a s1 H1.
  eapply wp_mono; [by apply Hk|]. intros b s2 H2. by apply (kept_trans s s1).
Qed.

Lemma wp_kept_loop {A} (l : list A) f s :
  inv s -> (forall x s', x ∈ l -> kept s s' -> wp (f x) s' (fun _ => kept s')) ->
  wp (forM_ l f) s (fun _ => kept s).
Proof.
  intros Hs Hf. apply (wp_forM l f (fun rest s' => kept s s' /\ forall x, x ∈ rest -> x ∈ l)).
  - done.
  - intros x rest s' [Hk Hin]. eapply wp_mono; [apply Hf; [set_solver|done]|].
    intros [] s2 Hk2. split; [by apply (kept_trans s s')|set_solver].
  - by intros s' [Hk _].
Qed.

Lemma wp_kept_while {A} (l : list A) f s :
  inv s -> (forall x s', x ∈ l -> kept s s' -> wp (f x) s' (fun _ => kept s')) ->
  wp (forM_while l f) s (fun _ => kept s).
Proof.
  intros Hs Hf. apply (wp_forM_while l f (fun rest s' => kept s s' /\ forall x, x ∈ rest -> x ∈ l)).
  - done.
  - intros x rest s' [Hk Hin]. eapply wp_mono; [apply Hf; [set_solver|done]|].
    intros [] s2 Hk2; [split; [by apply (kept_trans s s')|set_solver]|by apply (kept_trans s s')].
  - by intros s' [Hk _].
Qed.

Lemma kept_uses s : inv s -> kept s (set_uses S s).
Proof. intros Hs. split; [by apply inv_uses|by apply same_heap_grows]. Qed.

Lemma kept_quiet s s' : inv s -> quiet s s' -> writers_ok s' -> kept s s'.
Proof. intros [Hc _] Hq Hw. split; [split; [by apply (core_quiet _ s)|done]|by apply quiet_grows]. Qed.

(** Loops that only queue output. *)
Definition quiet_step s (s' : Gossip) : Prop := quiet s s' /\ writers_ok s'.

Lemma wp_quiet_loop {A} (ptr : A -> PeerPtr) (l : list A) f s :
  writers_ok s -> (forall x, x ∈ l -> is_Some (heap s !! ptr x)) ->
  (forall x s' peer, x ∈ l -> writers_ok s' -> quiet s s' -> heap s' !! ptr x = Some peer ->
     wp (f x) s' (fun _ => quiet_step s')) ->
  wp (forM_ l f) s (fun _ => quiet_step s).
Proof.
  intros Hw Hl Hf.
  apply (wp_forM l f (fun rest s' => quiet_step s s' /\ forall x, x ∈ rest -> x ∈ l)).
  - done.
  - intros x rest s' [[Hq Hw'] Hin]. destruct (Hl x) as [peer Hp]; [set_solver|].
    destruct (quiet_peer _ _ _ _ Hq Hp) as (peer' & Hp' & _).
    eapply wp_mono; [by apply (Hf x s' peer'); [set_solver|..]|].
    intros [] s2 [Hq2 Hw2]. split; [split; [by etrans|done]|set_solver].
  - by intros s' [? _].
Qed.

Lemma with_batch_quiet p f s peer :
  writers_ok s -> heap s !! p = Some peer -> wp (with_batch p f) s (fun _ => quiet_step s).
Proof.
  intros Hw Hp. eapply wp_mono; [by apply (with_batch_ok p f s peer)|]. intros [] s' []. done.
Qed.

(** ** Broadcast *)

Lemma add_peer_quiet source id m b p s peer :
  writers_ok s -> heap s !! p = Some peer ->
  wp (add_peer config_ source id m b p) s (fun _ => quiet_step s).
Proof.
  intros Hw Hp. unfold add_peer. wps; try done. by apply (with_batch_quiet p _ s peer).
Qed.

Lemma topic_ok_history c hp h t f :
  topic_ok c hp h t -> length (f (history_ t)) = length (history_ t) ->
  topic_ok c hp h (set_history f t).
Proof. intros [H1 H2 H3 H4 H5 H6] Hf. split; try done. cbn. by rewrite Hf. Qed.

(** A topic changed in fields that do not concern its members. *)
Lemma kept_topic s h t t' :
  inv s -> topics_ s !! h = Some t -> topic_ok config_ (heap s) h t' ->
  topic_peers_ t ⊆ topic_peers_ t' -> kept s (set_topics_ <[h := t']> s).
Proof.
  intros [Hc Hw] Ht Hok Hsub. split; [|by apply same_heap_grows].
  split; [by apply (core_topic _ _ _ t)|by apply (writers_ok_frame s)].
Qed.

Lemma kept_frame s s' :
  inv s -> topics_ s' = topics_ s -> peers_ s' = peers_ s ->
  gossip_promises_ s' = gossip_promises_ s -> score_ s' = score_ s ->
  count_sent_iwant_ s' = count_sent_iwant_ s ->
  heap s' = heap s -> next_ptr s' = next_ptr s -> uses s' = uses s -> writers s' = writers s ->
  kept s s'.
Proof.
  intros [Hc Hw] Ht Hp Hg Hs Hi Hh Hn Hu Hwr. split; [|by apply same_heap_grows]. split.
  - apply (core_frame _ s); try done. rewrite Hi. apply Hc.
  - by apply (writers_ok_frame s).
Qed.

Lemma kept_undefined s f : inv s -> kept s (set_undefined f s).
Proof. intros Hs. by apply kept_frame. Qed.

Lemma kept_score s sc :
  inv s -> known sc -> params_ sc = params_ (score_ s) -> kept s (set_score_ (fun _ => sc) s).
Proof.
  intros [Hc Hw] Hk Hp. split; [|by apply same_heap_grows].
  split; [by apply core_score|by apply (writers_ok_frame s)].
Qed.

(** Promises may be forgotten, or added for existing peers. *)
Lemma kept_promises s g :
  inv s ->
  (forall id m p, GossipPromises.map_ g !! id = Some m -> is_Some (m !! p) -> is_Some (heap s !! p)) ->
  kept s (set_gossip_promises_ (fun _ => g) s).
Proof.
  intros [[] Hw] Hg. split; [|by apply same_heap_grows].
  split; [|by apply (writers_ok_frame s)]. by split.
Qed.

Lemma promise_peers s id p :
  inv s -> p ∈ GossipPromises.peers id (gossip_promises_ s) -> is_Some (heap s !! p).
Proof.
  intros [Hc _]. unfold GossipPromises.peers.
  destruct (GossipPromises.map_ _ !! id) as [m|] eqn:Em; [|set_solver].
  rewrite list_elem_of_fmap. intros ([q time] & -> & Hq%elem_of_map_to_list).
  apply (c_promises _ _ Hc id m q Em). by exists time.
Qed.

Lemma quiet_kept s s' : inv s -> quiet_step s s' -> kept s s'.
Proof. intros Hi [Hq Hw]. by apply kept_quiet. Qed.

(** A loop of [add] over members of a topic, in the order of a traversal. *)
Lemma send_loop_quiet s h t f (l : list PeerPtr) :
  inv s -> topics_ s !! h = Some t -> (forall p, p ∈ l -> p ∈ topic_peers_ t) ->
  (forall p s' peer, writers_ok s' -> heap s' !! p = Some peer ->
     wp (f p) s' (fun _ => quiet_step s')) ->
  wp (forM_ l f) s (fun _ => quiet_step s).
Proof.
  intros Hi Ht Hl Hf. apply (wp_quiet_loop id); [apply Hi| |].
  - intros p Hp. apply (members_on_heap config_ s h t); [done|done|by apply Hl].
  - intros p s' peer _ Hw _ Hp. by apply (Hf p s' peer).
Qed.

Definition quiet_adder (add : PeerPtr -> M unit) : Prop :=
  forall p s peer, writers_ok s -> heap s !! p = Some peer -> wp (add p) s (fun _ => quiet_step s).

Lemma fanout_loop_kept s h l add po :
  inv s -> quiet_adder add ->
  (forall p, p ∈ l -> exists t, topics_ s !! h = Some t /\ p ∈ topic_peers_ t
     /\ exists peer, heap s !! p = Some peer /\ isGossipsub peer = true) ->
  is_Some (topics_ s !! h) ->
  wp (forM_ l (fun p => add p ;; whenM po (update_topic h (set_mesh_peers (fun m => {[p]} ∪ m))))) s
     (fun _ s' => kept s s' /\ is_Some (topics_ s' !! h)).
Proof.
  intros Hi Ha. revert s Hi. induction l as [|p l IH]; intros s Hi Hl Hh; cbn [forM_].
  { wps. done. }
  destruct (Hl p) as (t & Ht & Hm & peer & Hp & Hg); [set_solver|].
  wp1. wp1. eapply wp_mono; [apply (Ha p s peer); [apply Hi|done]|]. intros [] s1 [Hq Hw].
  pose proof (kept_quiet s s1 Hi Hq Hw) as [Hi1 Hg1].
  assert (topics_ s1 !! h = Some t) as Ht1 by by rewrite (q_topics _ _ Hq).
  assert (forall s2 t2, kept s1 s2 -> topics_ s2 !! h = Some t2 ->
    topic_peers_ t2 = topic_peers_ t ->
    wp (forM_ l (fun p => add p ;; whenM po (update_topic h (set_mesh_peers (fun m => {[p]} ∪ m))))) s2
     (fun _ s' => kept s s' /\ is_Some (topics_ s' !! h))) as Hrest.
  { intros s2 t2 Hk2 Ht2 Hp2. eapply wp_mono; [apply IH; [apply Hk2| |by eexists]|].
    - intros q Hq'. exists t2. split; [done|]. rewrite Hp2.
      destruct (Hl q) as (t' & Ht' & Hm' & pq & Hpq & Hgq); [set_solver|]. simplify_eq.
      split; [done|]. destruct Hk2 as [_ Hg2].
      destruct (Hg1 q pq Hpq) as (pq1 & Hpq1 & _ & Hgq1).
      destruct (Hg2 q pq1 Hpq1) as (pq2 & Hpq2 & _ & Hgq2). eauto.
    - intros [] s3 [Hk3 Hs3]. split; [|done].
      apply (kept_trans s s2); [|done]. by apply (kept_trans s s1). }
  wp1.
  - wpn. eapply Hrest; [|cbn; by rewrite lookup_insert_eq|done].
    pose proof Hi1 as [Hc1 _]. pose proof (c_topics _ _ Hc1 h t Ht1) as Hok.
    apply (kept_topic s1 h t); [done|done| |done].
    apply topic_ok_mesh; [done|pose proof (t_mesh _ _ _ _ Hok); set_solver|].
    destruct (Hg1 p peer Hp) as (peer1 & Hp1 & _ & Hgp1).
    intros q pq [->%elem_of_singleton|Hq']%elem_of_union Hpq.
    + simplify_eq. by apply Hgp1.
    + by apply (t_gossipsub _ _ _ _ Hok q).
  - by apply (Hrest s1 t).
Qed.

Lemma publish_fanout_kept s h t add :
  inv s -> topics_ s !! h = Some t -> quiet_adder add ->
  wp (publish_fanout config_ h add) s (fun _ => kept s).
Proof.
  intros Hi Ht Ha. unfold publish_fanout. wp1. wp1. wp1.
  apply (wp_mono _ _ (fun _ s' => kept s s' /\ is_Some (topics_ s' !! h))).
  - apply wp_whenM; [intros _|by intros _].
    wpn. apply wp_bind, choose_spec; [by intros p Hp; apply (members_on_heap config_ s h t)|].
    intros l Hnd _ Hl. set (s1 := set_uses _ _).
    assert (kept s s1) as Hk1.
    { apply (kept_trans s (set_uses S s)); apply kept_uses; [done|by apply inv_uses]. }
    eapply wp_mono; [apply fanout_loop_kept; [apply Hk1|done| |by exists t]|].
    + intros p Hp. destruct (Hl p Hp) as (Hm & peer & Hpe & Hg & _). exists t. eauto.
    + intros [] s2 [Hk2 Hs2]. split; [|done]. by apply (kept_trans s s1).
  - intros [] s1 [[Hi1 Hg1] [t1 Ht1]]. wpn.
    apply (kept_trans s s1); [done|].
    apply (kept_trans s1 (set_uses S s1)); [by apply kept_uses|].
    apply (kept_topic _ h t1); [by apply inv_uses|done| |done].
    destruct Hi1 as [Hc _]. by destruct (c_topics _ _ Hc h t1 Ht1).
Qed.

Lemma send_to_peers_kept s h t source add :
  inv s -> topics_ s !! h = Some t -> quiet_adder add ->
  wp (send_to_peers config_ h source add) s (fun _ => kept s).
Proof.
  intros Hi Ht Ha. unfold send_to_peers. wp1. wp1.
  pose proof (kept_uses s Hi) as Hk1. set (s1 := set_uses S s) in *.
  assert (forall (l : list PeerPtr) n, (forall p, p ∈ l -> p ∈ topic_peers_ t) ->
    forall p, p ∈ order n l -> p ∈ topic_peers_ t) as Hord.
  { intros l n Hl p. rewrite order_permutes. apply Hl. }
  destruct Hi as [Hc Hw]. pose proof (c_topics _ _ Hc h t Ht) as Hok.
  destruct (bool_decide (source = None) && _).
  - wpn. eapply wp_mono; [apply (send_loop_quiet s1 h t); [apply Hk1|done| |done]|].
    + apply Hord. intros p. by rewrite elem_of_elements.
    + intros [] s2 Hq. apply (kept_trans s s1); [done|]. apply quiet_kept; [apply Hk1|done].
  - wpn. eapply wp_mono; [apply (send_loop_quiet s1 h t); [apply Hk1|done| |]|].
    + apply Hord. intros p. by rewrite elem_of_elements.
    + intros p s' peer Hw' Hp. wpn; [by apply (Ha p s' peer)|done].
    + intros [] s2 Hq2. pose proof (quiet_kept s1 s2 (proj1 Hk1) Hq2) as Hk2.
      assert (topics_ s2 !! h = Some t) as Ht2 by by rewrite (q_topics _ _ (proj1 Hq2)).
      wpn. pose proof (kept_uses s2 (proj1 Hk2)) as Hk3. set (s3 := set_uses S s2) in *.
      eapply wp_mono; [apply (send_loop_quiet s3 h t); [apply Hk3|done| |done]|].
      * apply Hord. intros p. rewrite elem_of_elements. apply Hok.
      * intros [] s4 Hq4. pose proof (quiet_kept s3 s4 (proj1 Hk3) Hq4) as Hk4.
        assert (kept s s4) as Hks4.
        { apply (kept_trans s s1); [done|]. apply (kept_trans s1 s2); [done|].
          by apply (kept_trans s2 s3). }
        wpn; [|done]. eapply wp_mono; [apply (publish_fanout_kept s4 h t); [apply Hk4| |done]|].
        { by rewrite (q_topics _ _ (proj1 Hq4)). }
        intros [] s5 Hk5. by apply (kept_trans s s4).
Qed.

Lemma broadcast_kept s h t source id m :
  inv s -> topics_ s !! h = Some t -> wp (broadcast config_ h source id m) s (fun _ => kept s).
Proof.
  intros Hi Ht. unfold broadcast. do 2 (wp1; cbv beta). set (s1 := set_message_cache_ _ s).
  assert (kept s s1) as Hk1 by by apply kept_frame.
  do 2 (wp1; cbv beta). set (s2 := set_topics_ _ s1).
  assert (kept s1 s2) as Hk2.
  { apply (kept_topic s1 h t); [apply Hk1|done| |done]. apply topic_ok_history; [|apply History.length_add].
    destruct Hk1 as [[Hc1 _] _]. by apply (c_topics _ _ Hc1). }
  do 2 (wp1; cbv beta). set (s3 := set_gossip_promises_ _ s2).
  assert (kept s2 s3) as Hk3.
  { apply kept_promises; [apply Hk2|]. intros id' m' p. cbn. rewrite lookup_delete_Some.
    intros [_ Hm]. destruct Hk1 as [[Hc1 _] _]. by apply (c_promises _ _ Hc1 id' m' p). }
  assert (kept s s3) as Hks3 by (apply (kept_trans s s2); [by apply (kept_trans s s1)|done]).
  assert (topics_ s3 !! h = Some (set_history (History.add id) t)) as Ht3
    by (cbn; by rewrite lookup_insert_eq).
  assert (forall s4 b, kept s3 s4 -> topics_ s4 = topics_ s3 ->
    wp (send_to_peers config_ h source (add_peer config_ source id m b)) s4 (fun _ => kept s))
    as Hrest.
  { intros s4 b Hk4 Ht4. eapply wp_mono; [eapply send_to_peers_kept; [apply Hk4|by rewrite Ht4|]|].
    - intros p s' peer. apply add_peer_quiet.
    - intros [] s5 Hk5. apply (kept_trans s s4); [|done]. by apply (kept_trans s s3). }
  wp1. wp1; [|by apply Hrest]. wpn.
  pose proof (kept_uses s3 (proj1 Hk3)) as Hk4. set (s4 := set_uses S s3) in *.
  eapply wp_mono; [apply (wp_quiet_loop (fun p => p)); [apply Hk4| |]|].
  - intros p. rewrite order_permutes. intros Hp. apply (promise_peers s4 id p); [apply Hk4|done].
  - intros p s' peer _ Hw _ Hp. by apply (with_batch_quiet p _ s' peer).
  - intros [] s5 Hq5. apply Hrest; [|by rewrite (q_topics _ _ (proj1 Hq5))].
    apply (kept_trans s3 s4); [done|]. apply quiet_kept; [apply Hk4|done].
Qed.

(** ** Subscription and publication *)

Lemma kept_topic_change s s' h t' : inv s' -> topic_change h t' s s' -> kept s s'.
Proof. intros Hi [Hm _]. split; [done|by apply mesh_grows]. Qed.

(** A step on a topic that keeps its members. *)
Definition kept_members (h : TopicHash) (members : gset PeerPtr) s (s' : Gossip) : Prop :=
  kept s s' /\ exists t', topics_ s' !! h = Some t' /\ topic_peers_ t' = members.

Lemma graft_kept s h t p peer :
  inv s -> topics_ s !! h = Some t -> heap s !! p = Some peer ->
  p ∉ mesh_peers_ t -> p ∈ topic_peers_ t -> isGossipsub peer = true ->
  wp (graft h p) s (fun _ => kept_members h (topic_peers_ t) s).
Proof.
  intros Hi Ht Hp Hn Hm Hg. eapply wp_mono; [by apply (graft_spec config_ s h t p peer)|].
  intros [] s' (Hi' & Htc & _). split; [by eapply kept_topic_change|].
  eexists. split; [by eapply topic_change_lookup|done].
Qed.

Lemma choose_graft_kept s h t predicate n :
  inv s -> topics_ s !! h = Some t ->
  (forall p peer, predicate p peer = true -> p ∉ mesh_peers_ t) ->
  wp (chosen ← choose (topic_peers_ t) predicate n; forM_ chosen (graft h)) s
     (fun _ => kept_members h (topic_peers_ t) s).
Proof.
  intros Hi Ht Hp. eapply wp_mono; [by apply (choose_graft_spec config_)|].
  intros [] s' (Hi' & l & _ & _ & _ & Htc). split; [by eapply kept_topic_change|].
  eexists. split; [by eapply topic_change_lookup|done].
Qed.

Lemma mesh_candidate_out sc t p peer : mesh_candidate config_ sc t p peer = true -> p ∉ mesh_peers_ t.
Proof. unfold mesh_candidate. intros Hm. by reflect_bools. Qed.

Lemma upgrade_topic_kept s h t :
  inv s -> topics_ s !! h = Some t ->
  wp (upgrade_topic config_ h) s (fun _ => kept_members h (topic_peers_ t) s).
Proof.
  intros Hi Ht. pose proof Hi as [Hc _]. pose proof (c_topics _ _ Hc h t Ht) as Hok.
  unfold upgrade_topic. do 2 (wp1; cbv beta). set (t1 := set_publish_only false t).
  set (s1 := set_topics_ _ s).
  assert (kept s s1) as Hk1 by (apply (kept_topic s h t); [done|done|by destruct Hok|done]).
  wp1. eapply (wp_get_topic h _ t1); [cbn; by rewrite lookup_insert_eq|]. wp1. wp1.
  pose proof (kept_uses s1 (proj1 Hk1)) as Hk2. set (s2 := set_uses S s1) in *.
  assert (topics_ s2 !! h = Some t1) as Ht2 by (cbn; by rewrite lookup_insert_eq).
  wp1. eapply wp_mono; [apply (send_loop_quiet s2 h t1); [apply Hk2|done| |]|].
  { intros p. rewrite order_permutes. by rewrite elem_of_elements. }
  { intros p s' peer Hw Hp. by apply (with_batch_quiet p _ s' peer). }
  intros [] s3 Hq3. pose proof (quiet_kept s2 s3 (proj1 Hk2) Hq3) as Hk3.
  assert (topics_ s3 !! h = Some t1) as Ht3 by by rewrite (q_topics _ _ (proj1 Hq3)).
  wpn. set (s4 := set_uses _ _).
  assert (kept s3 s4) as Hk4.
  { eapply kept_trans; [|apply kept_uses]; [apply (kept_topic s3 h t1); [apply Hk3|done| |done]|].
    - apply topic_ok_shrink; [|set_solver]. destruct Hk3 as [[Hc3 _] _]. by apply (c_topics _ _ Hc3).
    - eapply kept_topic; [apply Hk3|done| |done].
      apply topic_ok_shrink; [|set_solver]. destruct Hk3 as [[Hc3 _] _]. by apply (c_topics _ _ Hc3). }
  assert (kept s s4) as Hks4.
  { apply (kept_trans s s3); [|done]. apply (kept_trans s s2); [|done]. by apply (kept_trans s s1). }
  eapply (wp_mono _ _ (fun _ => kept_members h (topic_peers_ t) s)).
  - apply (wp_forM_while _ _ (fun rest s' => kept_members h (topic_peers_ t) s s'
      /\ forall p, p ∈ rest -> p ∈ mesh_peers_ t)).
    + split; [|intros p; by rewrite order_permutes, elem_of_elements].
      split; [done|]. eexists. split; [cbn; by rewrite lookup_insert_eq|done].
    + intros p rest s' [[Hk' (t' & Ht' & Hmem)] Hin]. wps. case_decide.
      { wps. split; [done|by exists t']. }
      destruct (t_members _ _ _ _ Hok p) as (peer & Hp & _); [apply Hok; set_solver|].
      pose proof (t_gossipsub _ _ _ _ Hok p peer (Hin p ltac:(set_solver)) Hp) as Hg.
      destruct (proj2 Hk' p peer Hp) as (peer' & Hp' & _ & Hg'). wpn.
      * eapply wp_mono; [apply (graft_kept s' h t' p peer'); [apply Hk'|done|done| | |by apply Hg']|].
        { by eapply mesh_candidate_out. }
        { rewrite Hmem. apply Hok, Hin. set_solver. }
        intros [] s5 [Hk5 Hm5]. wpn. rewrite Hmem in Hm5. split; [|set_solver].
        split; [by apply (kept_trans s s')|done].
      * split; [|set_solver]. split; [done|by exists t'].
    + by intros s' [? _].
  - intros b s5 [Hk5 (t5 & Ht5 & Hm5)]. wpn; [|split; [done|by exists t5]].
    eapply wp_mono; [apply (choose_graft_kept s5 h t5); [apply Hk5|done|apply mesh_candidate_out]|].
    intros [] s6 [Hk6 Hm6]. rewrite Hm5 in Hm6. split; [by apply (kept_trans s s5)|done].
Qed.

Lemma create_topic_kept s h po :
  inv s -> topics_ s !! h = None ->
  wp (create_topic config_ h po) s (fun _ s' => kept s s' /\ is_Some (topics_ s' !! h)).
Proof.
  intros Hi Ht. pose proof Hi as [Hc Hw]. unfold create_topic. destruct Hcfg.
  wp1. eapply wp_get_or_fail; [unfold History.make; by rewrite decide_True by lia|].
  rewrite decide_False by lia. wpn.
  assert (forall p, p ∈ order (uses s) (map_to_list (peers_ s)).*2 <->
    exists id, peers_ s !! id = Some p) as Hord.
  { intros p. rewrite order_permutes, list_elem_of_fmap. split.
    - intros ([id q] & -> & Hq%elem_of_map_to_list). by exists id.
    - intros [id Hid]. exists (id, p). split; [done|]. by apply elem_of_map_to_list. }
  apply wp_deref_all.
  { intros p [id Hid]%Hord. destruct (c_peers _ _ Hc id p Hid) as (peer & Hp & _). by exists peer. }
  intros peers Hf. wpn. set (members := list_to_set _). set (t := mkTopic _ _ _ _ _ _ _ _).
  assert (forall p, p ∈ members <-> (exists id, peers_ s !! id = Some p)
    /\ exists peer, heap s !! p = Some peer /\ h ∈ peer_topics_ peer) as Hmem.
  { intros p. unfold members. rewrite (elem_of_zip_filter (heap s)) by done. by rewrite Hord. }
  split; [|cbn; by rewrite lookup_insert_eq]. split; [|by apply same_heap_grows].
  destruct (inv_uses config_ s Hi) as [Hc1 _].
  split; [|by apply (writers_ok_frame s)]. destruct Hc1 as [H1 H2 H3 H4 H5 H6 H7 H8 H9].
  split; try done; cbn in *.
  - intros h' t'. rewrite lookup_insert. case_decide; subst; [|apply H3]. intros [= <-].
    split; cbn; [done|by rewrite length_replicate|apply TopicBackoff.wheel_make_ok|set_solver|
      |set_solver]. intros p [_ Hp]%Hmem. done.
  - intros id p peer h' t'. rewrite lookup_insert. case_decide; subst; [|apply H4].
    intros Hid Hp Hh [= <-]. apply Hmem. eauto.
Qed.

Lemma getOrCreateTopic_kept s h po :
  inv s -> wp (getOrCreateTopic config_ h po) s (fun _ s' => kept s s' /\ is_Some (topics_ s' !! h)).
Proof.
  intros Hi. unfold getOrCreateTopic. wpn.
  apply (wp_mono _ _ (fun _ s' => kept s s' /\ is_Some (topics_ s' !! h))).
  { destruct (topics_ s !! h) as [t|] eqn:Ht; [|by apply create_topic_kept].
    wpn. split; [done|by exists t]. }
  intros [] s1 [Hk1 [t Ht]]. wpn; [|split; [done|by exists t]].
  eapply wp_mono; [apply (upgrade_topic_kept s1 h t); [apply Hk1|done]|].
  intros [] s2 [Hk2 (t2 & Ht2 & _)]. split; [by apply (kept_trans s s1)|by exists t2].
Qed.

Lemma kept_step s s' (Q : Gossip -> Prop) : kept s s' -> (inv s' -> Q s') -> Q s'.
Proof. intros [Hi _] HQ. by apply HQ. Qed.

Lemma duplicate_insert_kept s id :
  inv s -> wp (duplicate_insert id) s (fun _ s' => kept s s' /\ topics_ s' = topics_ s).
Proof.
  intros Hi. unfold duplicate_insert. wpn. split; [|done].
  pose proof (kept_uses s Hi) as Hk1. pose proof (kept_uses _ (proj1 Hk1)) as Hk2.
  apply (kept_trans s _ _ Hk1), (kept_trans _ _ _ Hk2). by apply kept_frame; [apply Hk2|..].
Qed.

Lemma make_message_kept s h d :
  inv s -> wp (make_message config_ h d) s (fun _ s' => kept s s' /\ topics_ s' = topics_ s).
Proof.
  intros Hi. unfold make_message. destruct (message_authenticity config_); [|by wpn].
  do 4 (wp1; cbv beta).
  match goal with |- context [Keys.Provider.sign ?b _] => destruct (crypto_sign_ok b) as [sig ->] end.
  wp1. eapply wp_get_or_fail; [done|]. wpn. split; [|done]. by apply kept_frame.
Qed.

Lemma publish_topic_kept s h t d :
  inv s -> topics_ s !! h = Some t -> wp (publish_topic config_ h d) s (fun _ => kept s).
Proof.
  intros Hi Ht. unfold publish_topic. do 3 (wp1; cbv beta).
  eapply wp_mono; [by apply make_message_kept|]. intros m s1 [Hk1 Ht1]. wps; [done|].
  eapply wp_mono; [apply duplicate_insert_kept, Hk1|]. intros _ s2 [Hk2 Ht2].
  eapply wp_mono; [apply (broadcast_kept s2 h t); [apply Hk2|by rewrite Ht2, Ht1]|].
  intros [] s3 Hk3. apply (kept_trans s s1); [done|]. by apply (kept_trans s1 s2).
Qed.

Lemma publish_kept s h d : inv s -> wp (publish config_ h d) s (fun _ => kept s).
Proof.
  intros Hi. unfold publish. wp1. eapply wp_mono; [by apply getOrCreateTopic_kept|].
  intros [] s1 [Hk1 [t Ht]]. eapply wp_mono; [apply (publish_topic_kept s1 h t); [apply Hk1|done]|].
  intros [] s2 Hk2. by apply (kept_trans s s1).
Qed.

Lemma subscribe_kept s h : inv s -> wp (subscribe config_ h) s (fun _ => kept s).
Proof.
  intros Hi. eapply wp_mono; [by apply getOrCreateTopic_kept|]. by intros [] s1 [Hk1 _].
Qed.

(** ** Inbound RPC *)

(** A peer object changed, apart from the topics it announced. *)
Lemma core_peer s p peer peer' :
  core_ok config_ s -> heap s !! p = Some peer -> peer_id_ peer' = peer_id_ peer ->
  peer_topics_ peer' = peer_topics_ peer ->
  (isGossipsub peer = true -> isGossipsub peer' = true) ->
  IDontWantCache.inv (clock (uses s)) (dont_send_ peer') ->
  core_ok config_ (set_heap <[p := peer']> s).
Proof.
  intros [H1 H2 H3 H4 H5 H6 H7 H8 H9] Hp Hid Htop Hg Hd. split; try done; cbn.
  - intros q Hq. rewrite lookup_insert_ne; [by apply H1|]. intros ->. by rewrite H1 in Hp.
  - intros id q Hq. rewrite lookup_insert. case_decide; subst; [|by apply H2].
    destruct (H2 _ _ Hq) as (peer0 & ? & ?). simplify_eq. by exists peer'.
  - intros h t Ht. apply (topic_ok_heap _ (heap s)); [by apply H3|]. intros q pq Hq _.
    rewrite lookup_insert. case_decide; subst; [|by exists pq]. simplify_eq. exists peer'.
    by rewrite Htop.
  - intros id q pq h t Hq. rewrite lookup_insert. case_decide; subst; [|by apply (H4 id)].
    intros [= <-]. rewrite Htop. by apply (H4 id q peer).
  - intros id m q Hm Hq. rewrite lookup_insert. case_decide; [done|]. by apply (H5 id m).
  - intros q pq. rewrite lookup_insert. case_decide; subst; [|apply H6]. by intros [= <-].
Qed.

Lemma kept_peer s p peer peer' :
  inv s -> heap s !! p = Some peer -> peer_id_ peer' = peer_id_ peer ->
  peer_topics_ peer' = peer_topics_ peer ->
  (isGossipsub peer = true -> isGossipsub peer' = true) ->
  IDontWantCache.inv (clock (uses s)) (dont_send_ peer') ->
  writing_ peer' = writing_ peer -> (writing_ peer = true -> is_Some (stream_out_ peer')) ->
  kept s (set_heap <[p := peer']> s).
Proof.
  intros [Hc Hw] Hp Hid Htop Hg Hd Hwr Hs. split; [split|].
  - by apply (core_peer s p peer).
  - by apply (writers_ok_update s p peer).
  - intros q pq Hq. cbn. rewrite lookup_insert. case_decide; subst; [|by exists pq].
    simplify_eq. by exists peer'.
Qed.

(** A peer announces a topic. *)
Definition announce (p : PeerPtr) (h : TopicHash) s : Gossip :=
  set_topics_ (alter (set_topic_peers (fun ps => {[p]} ∪ ps)) h)
    (set_heap (alter (set_peer_topics (fun ts => {[h]} ∪ ts)) p) s).

Lemma alter_insert_eq {K V} `{Countable K} (f : V -> V) (k : K) (m : gmap K V) v :
  m !! k = Some v -> alter f k m = <[k := f v]> m.
Proof.
  intros Hk. apply map_eq. intros j. rewrite lookup_alter, lookup_insert.
  case_decide; subst; [by rewrite Hk|done].
Qed.

Lemma alter_none {K V} `{Countable K} (f : V -> V) (k : K) (m : gmap K V) :
  m !! k = None -> alter f k m = m.
Proof.
  intros Hk. apply map_eq. intros j. rewrite lookup_alter. case_decide; subst; [by rewrite Hk|done].
Qed.

Lemma announce_kept s p peer h :
  inv s -> heap s !! p = Some peer -> kept s (announce p h s).
Proof.
  intros [[H1 H2 H3 H4 H5 H6 H7 H8 H9] Hw] Hp. unfold announce.
  set (peer' := set_peer_topics (fun ts => {[h]} ∪ ts) peer).
  assert (alter (set_peer_topics (fun ts => {[h]} ∪ ts)) p (heap s) = <[p := peer']> (heap s)) as Hh
    by by apply alter_insert_eq.
  assert (forall q pq, heap s !! q = Some pq -> exists pq', <[p := peer']> (heap s) !! q = Some pq'
    /\ peer_id_ pq' = peer_id_ pq /\ peer_topics_ pq ⊆ peer_topics_ pq'
    /\ (isGossipsub pq = true -> isGossipsub pq' = true)) as Hup.
  { intros q pq Hq. rewrite lookup_insert. case_decide; subst; [|by exists pq].
    simplify_eq. exists peer'. split_and!; try done. cbn. set_solver. }
  split; [split|].
  - split; try done; cbn; rewrite ?Hh.
    + intros q Hq. rewrite lookup_insert_ne; [by apply H1|]. intros ->. by rewrite H1 in Hp.
    + intros id q Hq. destruct (H2 id q Hq) as (pq & Hpq & Hi).
      destruct (Hup q pq Hpq) as (pq' & ? & ? & _). exists pq'. by split; [|congruence].
    + intros h' t'. rewrite lookup_alter_Some.
      intros [(<- & t & Ht & ->)|[Hne Ht]].
      * pose proof (H3 h t Ht) as Hok. split; cbn; try apply Hok.
        -- pose proof (t_mesh _ _ _ _ Hok). set_solver.
        -- intros q [->%elem_of_singleton|Hq]%elem_of_union.
           { exists peer'. rewrite lookup_insert_eq. split; [done|]. cbn. set_solver. }
           destruct (t_members _ _ _ _ Hok q Hq) as (pq & Hpq & Hhq).
           destruct (Hup q pq Hpq) as (pq' & ? & _ & Hs & _). exists pq'. split; [done|by apply Hs].
        -- intros q pq' Hq Hpq'.
           destruct (t_members _ _ _ _ Hok q) as (pq & Hpq & _); [by apply Hok|].
           destruct (Hup q pq Hpq) as (pq'' & ? & _ & _ & Hg). simplify_eq. apply Hg.
           by apply (t_gossipsub _ _ _ _ Hok q).
      * apply (topic_ok_heap _ (heap s)); [by apply H3|]. intros q pq Hpq _.
        destruct (Hup q pq Hpq) as (pq' & ? & _ & Hs & ?). exists pq'. split_and!; [done|apply Hs|done].
    + intros id q pq h' t' Hid. rewrite lookup_insert.
      destruct (H2 id q Hid) as (pq0 & Hpq0 & _).
      rewrite lookup_alter_Some. case_decide as Hqp; [subst q; intros [= <-]|intros Hpq].
      * intros Hh' [(<- & t & Ht & ->)|[Hne Ht]]; [cbn; set_solver|].
        apply (H4 id p peer h'); try done. cbn in Hh'. set_solver.
      * intros Hh' [(<- & t & Ht & ->)|[Hne Ht]].
        -- cbn. apply elem_of_union_r. by apply (H4 id q pq h).
        -- by apply (H4 id q pq h').
    + intros id m q Hm Hq. destruct (H5 id m q Hm Hq) as [pq Hpq].
      destruct (Hup q pq Hpq) as (pq' & -> & _). by eexists.
    + intros q pq. rewrite lookup_insert. case_decide; subst; [|apply H6].
      intros [= <-]. by apply (H6 q peer).
  - eapply writers_ok_frame; [apply (writers_ok_update s p peer peer'); [done|done|done|]|cbn; by rewrite Hh|done].
    by apply (w_stream s Hw p).
  - intros q pq Hpq. cbn. rewrite Hh. destruct (Hup q pq Hpq) as (pq' & ? & ? & _ & ?). by exists pq'.
Qed.
End Safe.

Arguments kept {_} config_ s s'.
Arguments kept_members {_} config_ h members s s'.
