(* ===== verification/GossipSafeRpc.v ===== *)
(** * Gossipsub: the inbound RPC handler keeps the invariant *)

From S2P Require Import Prelude TimeCache Backoff Multihash Score GossipState GossipOps.
From S2P Require Import GossipHandlers GossipInv GossipMesh GossipSafe.

Section Rpc.
Context `{E : Env} `{!EnvLaws E} {config_ : Config} `{Hcfg : !config_ok config_}.
Implicit Types (s : Gossip) (p : PeerPtr).

Abbreviation inv := (inv config_).
Abbreviation kept := (kept config_).

Lemma kept_peer_some s s' p : kept s s' -> is_Some (heap s !! p) -> is_Some (heap s' !! p).
Proof. intros [_ Hg]. by apply grows_some. Qed.

(** The state after the two updates of SUBSCRIBE and GRAFT is [announce]. *)
Lemma announce_none s p peer h :
  heap s !! p = Some peer -> topics_ s !! h = None ->
  set_heap <[p := set_peer_topics (fun ts => {[h]} ∪ ts) peer]> s = announce p h s.
Proof.
  intros Hp Ht. unfold announce, set_heap, set_topics_. cbn.
  by rewrite (alter_none _ h), (alter_insert_eq _ p _ peer).
Qed.

Lemma announce_some s p peer h t :
  heap s !! p = Some peer -> topics_ s !! h = Some t ->
  set_topics_ <[h := set_topic_peers (fun ps => {[p]} ∪ ps) t]>
    (set_heap <[p := set_peer_topics (fun ts => {[h]} ∪ ts) peer]> s) = announce p h s.
Proof.
  intros Hp Ht. unfold announce, set_heap, set_topics_. cbn.
  by rewrite (alter_insert_eq _ h _ t), (alter_insert_eq _ p _ peer).
Qed.

(** UNSUBSCRIBE: the topic loses the peer from its members and its mesh. *)
Lemma withdraw_core s p peer h sc g :
  inv s -> heap s !! p = Some peer -> known sc -> params_ sc = params_ (score_ s) ->
  (forall t, topics_ s !! h = Some t -> exists bo, TopicBackoff.ok bo
     /\ g = <[h := set_backoff (fun _ => bo) (set_mesh_peers (fun m => m ∖ {[p]})
               (set_topic_peers (fun ps => ps ∖ {[p]}) t))]>) ->
  (topics_ s !! h = None -> g = id) ->
  kept s (set_score_ (fun _ => sc) (set_topics_ g
    (set_heap <[p := set_peer_topics (fun ts => ts ∖ {[h]}) peer]> s))).
Proof.
  intros [[H1 H2 H3 H4 H5 H6 H7 H8 H9] Hw] Hp Hk Hpar Hsome Hnone.
  set (peer' := set_peer_topics _ peer).
  assert (forall h' t', g (topics_ s) !! h' = Some t' -> h' <> h -> topics_ s !! h' = Some t') as Hother.
  { intros h' t' Ht' Hne. destruct (topics_ s !! h) as [t|] eqn:Ht.
    - destruct (Hsome t eq_refl) as (bo & _ & ->). by rewrite lookup_insert_ne in Ht'.
    - by rewrite Hnone in Ht'. }
  assert (forall t', g (topics_ s) !! h = Some t' -> exists t bo, topics_ s !! h = Some t
    /\ TopicBackoff.ok bo /\ t' = set_backoff (fun _ => bo) (set_mesh_peers (fun m => m ∖ {[p]})
               (set_topic_peers (fun ps => ps ∖ {[p]}) t))) as Hself.
  { intros t' Ht'. destruct (topics_ s !! h) as [t|] eqn:Ht.
    - destruct (Hsome t eq_refl) as (bo & Hbo & ->). rewrite lookup_insert_eq in Ht'. naive_solver.
    - rewrite Hnone in Ht' by done. cbn in Ht'. congruence. }
  split; [split|].
  - split; try done; cbn.
    + intros q Hq. rewrite lookup_insert_ne; [by apply H1|]. intros ->. by rewrite H1 in Hp.
    + intros id q Hq. rewrite lookup_insert. case_decide; subst; [|by apply H2].
      destruct (H2 _ _ Hq) as (peer0 & ? & ?). simplify_eq. by exists peer'.
    + intros h' t' Ht'. destruct (decide (h' = h)) as [->|Hne].
      * destruct (Hself t' Ht') as (t & bo & Ht & Hbo & ->). destruct (H3 h t Ht) as [T1 T2 T3 T4 T5 T6].
        split; cbn; [done|done|done|set_solver| |].
        -- intros q Hq. rewrite lookup_insert_ne by set_solver. apply T5. set_solver.
        -- intros q pq Hq. rewrite lookup_insert_ne by set_solver. apply T6. set_solver.
      * apply (topic_ok_heap _ (heap s)); [by apply H3, Hother|]. intros q pq Hq _.
        rewrite lookup_insert. case_decide; subst; [|by exists pq]. simplify_eq. exists peer'.
        split_and!; [done|cbn; set_solver|done].
    + intros id q pq h' t' Hid. rewrite lookup_insert. case_decide; subst.
      * intros [= <-] Hh' Ht'. cbn in Hh'. apply (H4 id q peer h'); try done; [set_solver|].
        apply Hother; [done|set_solver].
      * intros Hq Hh' Ht'. destruct (decide (h' = h)) as [->|Hne].
        -- destruct (Hself t' Ht') as (t & bo & Ht & _ & ->). cbn.
           pose proof (H4 id q pq h t Hid Hq Hh' Ht). set_solver.
        -- apply (H4 id q pq h'); try done. by apply Hother.
    + intros id m q Hm Hq. rewrite lookup_insert. case_decide; [done|]. by apply (H5 id m).
    + intros q pq. rewrite lookup_insert. case_decide; subst; [|apply H6].
      intros [= <-]. by apply (H6 q peer).
    + by rewrite Hpar.
  - eapply writers_ok_frame; [apply (writers_ok_update s p peer peer'); [done|done|done|]|done|done].
    by apply (w_stream s Hw p).
  - intros q pq Hq. cbn. rewrite lookup_insert. case_decide; subst; [|by exists pq].
    simplify_eq. by exists peer'.
Qed.

Lemma handle_subscription_kept s p pb :
  inv s -> is_Some (heap s !! p) ->
  wp (handle_subscription config_ p pb) s (fun _ => kept s).
Proof.
  intros Hi [peer Hp]. unfold handle_subscription. wpn.
  set (h := pb_str (so_topic_id pb)). destruct (default false (so_subscribe pb)).
  - pose proof (announce_kept s p peer h Hi Hp) as Hk.
    destruct (topics_ s !! h) as [t|] eqn:Ht; wpn; [|by rewrite (announce_none s p peer)].
    rewrite (announce_some s p peer h t) by done.
    set (t' := set_topic_peers (fun ps => {[p]} ∪ ps) t).
    set (peer' := set_peer_topics (fun ts => {[h]} ∪ ts) peer).
    assert (topics_ (announce p h s) !! h = Some t') as Ht'
      by (cbn; by rewrite lookup_alter_eq, Ht).
    assert (heap (announce p h s) !! p = Some peer') as Hp'
      by (cbn; by rewrite lookup_alter_eq, Hp).
    eapply (wp_get_topic h _ t'); [done|]. wp1. eapply wp_deref; [done|]. wpn; [|done].
    reflect_bools.
    eapply wp_mono; [apply (graft_kept (announce p h s) h t' p peer'); try done; [apply Hk| |]|].
    + by eapply mesh_candidate_out.
    + cbn. set_solver.
    + intros [] s2 [Hk2 _]. by apply (kept_trans s (announce p h s)).
  - wp1. wp1. destruct (topics_ s !! h) as [t|] eqn:Ht; wp1.
    + eapply (wp_update_topic h _ _ t); [done|]. cbv beta.
      set (s1 := set_topics_ _ _).
      eapply (remove_peer_spec config_ s1 h p); [cbn; by rewrite lookup_insert_eq|apply Hi| |].
      { cbn. rewrite lookup_insert_eq. done. }
      intros t1. cbn. rewrite lookup_insert_eq. intros [= <-]. destruct Hi as [Hc Hw].
      split; [by destruct (c_topics _ _ Hc h t Ht)|]. intros sc bo Hsc Hpar Hbo.
      unfold s1, set_topics_. cbn. rewrite insert_insert_eq.
      apply (withdraw_core s p peer h sc <[h := _]>); try done; [|by rewrite Ht].
      rewrite Ht. intros t0 [= <-]. by exists bo.
    + wpn. eapply (remove_peer_spec config_ _ h p); [cbn; by rewrite lookup_insert_eq|apply Hi| |].
      * intros _. pose proof (withdraw_core s p peer h (score_ s) id Hi Hp) as Hk.
        destruct s. apply Hk; try done; [apply Hi|]. cbn in *. by rewrite Ht.
      * cbn. intros t1. by rewrite Ht.
Qed.

Lemma validate_publish_total pb s (Q : _ -> Gossip -> Prop) :
  (forall r, Q r s) -> (forall f, Q None (set_undefined f s)) -> wp (validate_publish config_ pb) s Q.
Proof.
  intros HQ HQ'. unfold validate_publish. destruct (validation_mode config_).
  - destruct (fromBytes_total (pb_str (pb_from pb))) as [r Hr].
    wp1. eapply wp_get_or_fail; [done|]. destruct r as [id|e]; [|apply HQ].
    case_decide; [apply HQ|]. cbv zeta. destruct (Keys.Marshaller.peer_publicKey _); [|apply HQ].
    destruct (Keys.Provider.verify _ _ _) as [[[]|]|]; [apply HQ..|]. apply HQ'.
  - repeat (case_decide; [apply HQ|]). apply HQ.
Qed.

(** Score updates that cannot throw. *)
Lemma update_score_kept s f :
  inv s -> (known (score_ s) -> exists sc, f (score_ s) = Some sc /\ known sc
    /\ params_ sc = params_ (score_ s)) ->
  wp (update_score f) s (fun _ s' => kept s s' /\ topics_ s' = topics_ s).
Proof.
  intros Hi Hf. destruct Hf as (sc & Hsc & Hk & Hp); [apply Hi|].
  eapply wp_update_score; [done|]. split; [|done]. by apply kept_score.
Qed.

Lemma modify_score_kept s f :
  inv s -> (known (score_ s) -> known (f (score_ s)) /\ params_ (f (score_ s)) = params_ (score_ s)) ->
  kept s (set_score_ f s).
Proof. intros Hi Hf. destruct Hf as [Hk Hp]; [apply Hi|]. by apply kept_score. Qed.

Lemma addPenalty_known peer_id n sc :
  known sc -> known (addPenalty peer_id n sc) /\ params_ (addPenalty peer_id n sc) = params_ sc.
Proof.
  intros Hk. split; [by apply addPenalty_ok|]. unfold addPenalty. by case_match.
Qed.

Lemma handle_publish_kept s p pb :
  inv s -> is_Some (heap s !! p) -> wp (handle_publish config_ p pb) s (fun _ => kept s).
Proof.
  intros Hi [peer Hp]. unfold handle_publish. wp1. apply validate_publish_total; [|intros f; wpn; by apply kept_undefined].
  intros [[[author seq] sig]|]; [|by wpn]. do 4 (wp1; cbv beta zeta). cbn [topic].
  destruct (topics_ s !! pb_topic pb) as [t|] eqn:Ht; [|by wpn].
  set (m := mkMessage _ _ _ _ _ _). wp1.
  eapply wp_mono; [exact (duplicate_insert_kept s _ Hi)|]. intros [] s1 [Hk1 Ht1]; cbn beta iota.
  - do 4 (wp1; cbv beta). set (s2 := set_score_ _ _).
    assert (kept s1 s2) as Hk2.
    { apply (kept_trans s1 (set_uses S s1)); [apply kept_uses, Hk1|].
      apply modify_score_kept; [apply inv_uses, Hk1|done]. }
    wp1. eapply (wp_update_topic _ _ _ t); [by rewrite <- Ht, <- Ht1|]. wpn.
    set (s3 := set_topics_ _ s2).
    assert (kept s2 s3) as Hk3.
    { apply (kept_topic s2 (pb_topic pb) t); [apply Hk2|by rewrite <- Ht, <- Ht1| |done].
      destruct Hi as [Hc _]. destruct Hk2 as [[Hc2 _] _].
      by destruct (c_topics _ _ Hc2 (pb_topic pb) t) as []; [rewrite <- Ht, <- Ht1|]. }
    pose proof (kept_uses _ (proj1 Hk3)) as Hk4. pose proof (kept_uses _ (proj1 Hk4)) as Hk5.
    eapply wp_mono; [apply update_score_kept; [apply Hk5|]|].
    { intros Hk. destruct (deliver_message_ok (clock (uses s3)) (clock (uses (set_uses S s3)))
        (peer_id_ peer) (message_id_fn config_ m) (topic m) _ Hk) as (sc & ? & ? & ?). by exists sc. }
    intros [] s6 [Hk6 Ht6].
    eapply wp_mono; [eapply (broadcast_kept s6); [apply Hk6|]|].
    { rewrite Ht6. cbn. by rewrite lookup_insert_eq. }
    intros [] s7 Hk7. apply (kept_trans s s1); [done|]. apply (kept_trans s1 s2); [done|].
    apply (kept_trans s2 s3); [done|]. apply (kept_trans s3 s6); [|done].
    exact (kept_trans _ _ _ Hk4 (kept_trans _ _ _ Hk5 Hk6)).
  - do 4 (wp1; cbv beta).
    pose proof (kept_uses s1 (proj1 Hk1)) as Hk2. pose proof (kept_uses _ (proj1 Hk2)) as Hk3.
    eapply wp_mono; [apply update_score_kept; [apply Hk3|]|].
    { intros Hk. destruct (duplicateMessage_ok (clock (uses s1)) (clock (uses (set_uses S s1)))
        (peer_id_ peer) (message_id_fn config_ m) (topic m) _ Hk) as (sc & ? & ? & ?). by exists sc. }
    intros [] s4 [Hk4 _]. apply (kept_trans s s1); [done|].
    exact (kept_trans _ _ _ Hk2 (kept_trans _ _ _ Hk3 Hk4)).
Qed.

Lemma graft_accept_kept s t p peer :
  inv s -> wp (graft_accept config_ t p peer) s (fun _ s' => kept s s' /\ topics_ s' = topics_ s).
Proof.
  intros Hi. unfold graft_accept. case_decide.
  - assert (kept s (set_score_ (addPenalty (peer_id_ peer) 1) s)) as Hk1
      by (apply modify_score_kept; [done|]; apply addPenalty_known).
    wpn; (split; [|done]); [|done]. eapply kept_trans; [done|].
    apply modify_score_kept; [apply Hk1|]. apply addPenalty_known.
  - by wps.
Qed.

Lemma make_prune_kept s h t p peer :
  inv s -> topics_ s !! h = Some t -> heap s !! p = Some peer ->
  wp (make_prune config_ h p) s (fun _ s' => kept s s' /\ exists bo,
    topics_ s' = <[h := set_backoff (fun _ => bo) t]> (topics_ s)).
Proof.
  intros Hi Ht Hp. eapply wp_mono; [by apply (make_prune_spec config_ s h t p peer)|].
  intros [] s' (Hi' & (bo & Htc) & _). split; [by eapply kept_topic_change|]. exists bo. apply Htc.
Qed.

Lemma handle_graft_kept s p topic_id :
  inv s -> is_Some (heap s !! p) -> wp (handle_graft config_ p topic_id) s (fun _ => kept s).
Proof.
  intros Hi [peer Hp]. unfold handle_graft. set (h := pb_str topic_id). wp1. wp1.
  destruct (isGossipsub peer) eqn:Hg; [|by wpn]. cbn [negb].
  pose proof (announce_kept s p peer h Hi Hp) as Hk. do 3 (wp1; cbv beta). wp1. cbn [topics_ set_heap].
  destruct (topics_ s !! h) as [t|] eqn:Ht; [|by wpn; rewrite (announce_none s p peer)].
  do 2 (wp1; cbv beta). rewrite (announce_some s p peer h t) by done.
  set (peer' := set_peer_topics (fun ts => {[h]} ∪ ts) peer).
  set (s1 := announce p h s) in *. set (t' := set_topic_peers (fun ps => {[p]} ∪ ps) t).
  assert (topics_ s1 !! h = Some t') as Ht' by (cbn; by rewrite lookup_alter_eq, Ht).
  assert (heap s1 !! p = Some peer') as Hp' by (cbn; by rewrite lookup_alter_eq, Hp).
  destruct (publish_only_ t); [by wpn|]. case_decide; [by wpn|]. wp1.
  eapply wp_mono; [apply graft_accept_kept, Hk|]. intros [] s2 [Hk2 Ht2]; cbn beta iota.
  - do 2 (wp1; cbv beta). eapply (wp_update_topic _ _ _ t'); [by rewrite Ht2|]. cbv beta.
    do 2 (wp1; cbv beta). set (s3 := set_topics_ _ s2).
    assert (kept s2 s3) as Hk3.
    { apply (kept_topic s2 h t'); [apply Hk2|by rewrite Ht2| |done].
      destruct Hk2 as [[Hc2 _] Hgr].
      pose proof (c_topics _ _ Hc2 h t' ltac:(by rewrite Ht2)) as Hok.
      apply topic_ok_mesh; [done|pose proof (t_mesh _ _ _ _ Hok); set_solver|].
      intros q pq [->%elem_of_singleton|Hq]%elem_of_union Hpq;
        [|by apply (t_gossipsub _ _ _ _ Hok q)].
      destruct (Hgr p peer' Hp') as (p2 & ? & _ & Hg2). simplify_eq. by apply Hg2. }
    pose proof (kept_uses _ (proj1 Hk3)) as Hk4.
    eapply wp_mono; [apply update_score_kept; [apply Hk4|]|].
    { intros Hkn. destruct (graft_ok (clock (uses s3)) (peer_id_ peer) h _ Hkn) as (sc & ? & ? & ? & _).
      by exists sc. }
    intros [] s5 [Hk5 _]. wpn. apply (kept_trans _ _ _ Hk), (kept_trans _ _ _ Hk2).
    exact (kept_trans _ _ _ Hk3 (kept_trans _ _ _ Hk4 Hk5)).
  - wp1. destruct (proj2 Hk2 p peer' Hp') as (p2 & Hp2 & _).
    eapply wp_mono; [apply (make_prune_kept s2 h t' p p2); [apply Hk2|by rewrite Ht2|done]|].
    intros [] s3 [Hk3 _]. wpn. exact (kept_trans _ _ _ Hk (kept_trans _ _ _ Hk2 Hk3)).
Qed.

Lemma handle_prune_kept s p pb :
  inv s -> is_Some (heap s !! p) -> wp (handle_prune config_ p pb) s (fun _ => kept s).
Proof.
  intros Hi [peer Hp]. unfold handle_prune. wps; [done|]. pose proof Hi as [Hc _].
  eapply (remove_peer_spec config_ s); [done|apply Hc|by intros _; wpn|].
  intros t Ht. pose proof (c_topics _ _ Hc _ t Ht) as Hok. split; [apply Hok|].
  intros sc bo Hsc Hpar Hbo. wpn. set (s1 := set_topics_ _ s).
  assert (kept s s1) as Hk1.
  { eapply (kept_topic s _ t); [done|done| |done]. apply topic_ok_backoff; [|done].
    apply topic_ok_shrink; [done|set_solver]. }
  apply (kept_trans s s1); [done|]. apply kept_score; [apply Hk1|done|done].
Qed.

Lemma update_batch_kept s p peer b :
  inv s -> heap s !! p = Some peer -> kept s (set_heap <[p := set_batch b peer]> s).
Proof.
  intros Hi Hp. pose proof Hi as [_ Hw]. apply kept_quiet; [done|by apply (quiet_update_peer s p peer)|].
  apply (writers_ok_update s p peer); [done|done|done|]. by apply (w_stream s Hw p).
Qed.

Lemma promise_add_kept s id p now :
  inv s -> is_Some (heap s !! p) ->
  kept s (set_gossip_promises_ (GossipPromises.add id p now) s).
Proof.
  intros Hi Hp. apply kept_promises; [done|]. pose proof Hi as [Hc _]. intros id' m q. cbn.
  rewrite lookup_insert. case_decide; subst; [|by apply (c_promises _ _ Hc)].
  intros [= <-]. destruct (GossipPromises.map_ (gossip_promises_ s) !! id') as [m|] eqn:Em; cbn.
  - destruct (m !! p) eqn:Ep; [by apply (c_promises _ _ Hc id')|].
    rewrite lookup_insert. case_decide; subst; [done|]. by apply (c_promises _ _ Hc id').
  - rewrite lookup_empty, lookup_insert. case_decide; subst; [done|].
    rewrite lookup_empty. by intros [].
Qed.

Lemma kept_sent s p n :
  inv s -> (n <= max_ihave_length config_)%nat -> kept s (set_count_sent_iwant_ <[p := n]> s).
Proof.
  intros [Hc Hw] Hn. split; [|by apply same_heap_grows]. split; [|by apply (writers_ok_frame s)].
  apply (core_frame _ s); try done. intros q k. cbn. rewrite lookup_insert.
  case_decide; [by intros [= <-]|apply Hc].
Qed.

Lemma handle_ihave_kept s p ihaves :
  inv s -> is_Some (heap s !! p) -> wp (handle_ihave config_ p ihaves) s (fun _ => kept s).
Proof.
  intros Hi [peer Hp]. unfold handle_ihave. case_decide; [by wpn|]. wp1. wp1.
  destruct (isGossipsub peer); [|by wpn]. cbn [negb].
  do 4 (wp1; cbv beta). set (s1 := set_count_received_ihave_ _ s).
  assert (kept s s1) as Hk1 by by apply kept_frame.
  case_decide; [by wpn|]. do 2 (wp1; cbv beta). destruct (match count_sent_iwant_ s1 !! p with
    Some _ => _ | None => _ end) eqn:Esent; [by wpn|].
  do 4 (wp1; cbv beta). case_decide; [by wpn|]. do 6 (wp1; cbv beta zeta).
  set (s2 := set_uses S (set_uses S s1)).
  assert (kept s1 s2) as Hk2.
  { pose proof (kept_uses s1 (proj1 Hk1)) as Hk. exact (kept_trans _ _ _ Hk (kept_uses _ (proj1 Hk))). }
  set (s3 := set_count_sent_iwant_ _ s2).
  assert (kept s2 s3) as Hk3.
  { apply kept_sent; [apply Hk2|]. rewrite saturating_sub_spec.
    destruct (count_sent_iwant_ s1 !! p) as [n|] eqn:En; cbn in *; reflect_bools; lia. }
  wp1. eapply wp_mono; [apply (getBatch_ok p s3 peer); [apply Hk3|done]|].
  intros [] s4 Hqd. assert (kept s3 s4) as Hk4 by by apply kept_quiet; [apply Hk3|apply Hqd..].
  assert (kept s s4) as Hks4.
  { exact (kept_trans _ _ _ Hk1 (kept_trans _ _ _ Hk2 (kept_trans _ _ _ Hk3 Hk4))). }
  wp1. eapply wp_mono; [apply (wp_kept_loop (config_ := config_)); [apply Hk4|]|].
  - intros id s' _ Hk'. destruct (kept_peer_some _ _ p (kept_trans _ _ _ Hks4 Hk')) as [peer' Hp'];
      [by exists peer|].
    wpn. pose proof (kept_uses s' (proj1 Hk')) as Hk5.
    pose proof (promise_add_kept (set_uses S s') id p (clock (uses s')) (proj1 Hk5)) as Hk6.
    cbn [heap set_uses] in Hk6. specialize (Hk6 ltac:(by exists peer')).
    exact (kept_trans _ _ _ Hk5 (kept_trans _ _ _ Hk6 (update_batch_kept _ p peer' _ (proj1 Hk6) Hp'))).
  - intros [] s5 Hk5. wpn. exact (kept_trans _ _ _ Hks4 Hk5).
Qed.

Lemma serve_iwant_kept s p peer peer' id :
  inv s -> heap s !! p = Some peer' -> wp (serve_iwant config_ p peer id) s (fun _ => kept s).
Proof.
  intros Hi Hp. unfold serve_iwant. wp1. wp1. destruct (message_cache_ s !! id) as [e|]; [|by wpn].
  do 2 (wp1; cbv beta). set (s1 := set_message_cache_ _ s).
  assert (kept s s1) as Hk1 by by apply kept_frame. case_decide; [by wpn|].
  destruct (IDontWantCache.contains _ _); [by wpn|].
  eapply wp_mono; [apply (with_batch_quiet p _ s1 peer'); [apply Hk1|done]|].
  intros [] s2 Hq. apply (kept_trans s s1); [done|]. apply quiet_kept; [apply Hk1|done].
Qed.

Lemma handle_iwant_kept s p ids :
  inv s -> is_Some (heap s !! p) -> wp (handle_iwant config_ p ids) s (fun _ => kept s).
Proof.
  intros Hi [peer Hp]. unfold handle_iwant. wp1. wp1.
  destruct (isGossipsub peer); [|by wpn]. cbn [negb]. do 3 (wp1; cbv beta). wp1; [|by wpn].
  eapply wp_mono; [apply (wp_kept_loop (config_ := config_)); [done|]|].
  - intros id s' _ Hk. destruct (proj2 Hk p peer Hp) as (peer' & Hp' & _).
    apply (serve_iwant_kept s' p peer peer'); [apply Hk|done].
  - intros [] s' Hk. by wpn.
Qed.

Lemma handle_idontwant_kept s p ids :
  inv s -> is_Some (heap s !! p) -> wp (handle_idontwant p ids) s (fun _ => kept s).
Proof.
  intros Hi [peer Hp]. unfold handle_idontwant. wp1. wp1.
  destruct (isGossipsub peer); [|by wpn]. cbn [negb]. wp1.
  eapply wp_mono; [apply (wp_kept_loop (config_ := config_)); [done|]|by intros [] s' Hk; wpn].
  intros id s' _ Hk. destruct (proj2 Hk p peer Hp) as (peer' & Hp' & _). pose proof (proj1 Hk) as [Hc Hw].
  do 4 (wp1; cbv beta). pose proof (kept_uses s' (proj1 Hk)) as Hk1.
  destruct (IDontWantCache.insert_inv (clock (uses s')) (clock (uses s')) id (dont_send_ peer'))
    as (c & Hins & Hinv); [lia|by apply (c_dont_send _ _ Hc p)|].
  wp1. eapply wp_get_or_fail; [done|]. wpn. apply (kept_trans _ _ _ Hk1).
  apply (kept_peer _ p peer'); try done; [apply Hk1| |by apply (w_stream _ Hw p)].
  eapply inv_mono; [|done]. apply clock_steady.
Qed.

Lemma and_then_kept s (m k : M bool) :
  wp m s (fun _ => kept s) -> (forall s', kept s s' -> wp k s' (fun _ => kept s')) ->
  wp (and_then m k) s (fun _ => kept s).
Proof.
  intros Hm Hk. apply wp_kept_bind; [done|]. intros [] s' Hs'; [by apply Hk|apply wp_ret].
  split; [apply Hs'|done].
Qed.

(** A loop of a handler over the items of an RPC. *)
Lemma rpc_loop_kept {A} s p (f : A -> M bool) l :
  inv s -> is_Some (heap s !! p) ->
  (forall s x, inv s -> is_Some (heap s !! p) -> wp (f x) s (fun _ => kept s)) ->
  wp (forM_while l f) s (fun _ => kept s).
Proof.
  intros Hi Hp Hf. apply wp_kept_while; [done|]. intros x s' _ Hk.
  apply Hf; [apply Hk|by eapply kept_peer_some].
Qed.

Lemma handle_rpc_kept s p rpc :
  inv s -> is_Some (heap s !! p) -> wp (handle_rpc config_ p rpc) s (fun _ => kept s).
Proof.
  intros Hi Hp. pose proof Hp as [peer Hpe]. unfold handle_rpc. wp1. wp1. wp1. wp1. cbv beta.
  destruct (low _ _ _); [by wpn|].
  apply wp_kept_bind.
  { apply wp_kept_loop; [done|]. intros x s' _ Hk.
    apply handle_subscription_kept; [apply Hk|by apply (kept_peer_some s)]. }
  intros _ s1 Hk1. pose proof (kept_peer_some _ _ p Hk1 Hp) as Hp1. apply wp_kept_bind.
  { apply wp_kept_loop; [apply Hk1|]. intros x s' _ Hk.
    apply handle_publish_kept; [apply Hk|by apply (kept_peer_some s1)]. }
  intros _ s2 Hk2. pose proof (kept_peer_some _ _ p Hk2 Hp1) as Hp2.
  apply and_then_kept; [apply (rpc_loop_kept s2 p); [apply Hk2|done|]; intros; by apply handle_graft_kept|].
  intros s3 Hk3. pose proof (kept_peer_some _ _ p Hk3 Hp2) as Hp3.
  apply and_then_kept; [apply (rpc_loop_kept s3 p); [apply Hk3|done|]; intros; by apply handle_prune_kept|].
  intros s4 Hk4. pose proof (kept_peer_some _ _ p Hk4 Hp3) as Hp4.
  apply and_then_kept; [by apply handle_ihave_kept; [apply Hk4|]|].
  intros s5 Hk5. pose proof (kept_peer_some _ _ p Hk5 Hp4) as Hp5.
  apply and_then_kept; [apply (rpc_loop_kept s5 p); [apply Hk5|done|]; intros; by apply handle_iwant_kept|].
  intros s6 Hk6. apply (rpc_loop_kept s6 p); [apply Hk6|by apply (kept_peer_some s5)|].
  intros; by apply handle_idontwant_kept.
Qed.

Lemma onMessage_kept s p encoded :
  inv s -> is_Some (heap s !! p) -> wp (onMessage config_ p encoded) s (fun _ => kept s).
Proof.
  intros Hi Hp. unfold onMessage. destruct (decode_rpc encoded); [by apply handle_rpc_kept|by wpn].
Qed.
End Rpc.
