(* ===== verification/GossipSafeTick.v ===== *)
(** * Gossipsub: the heartbeat, connections and the writer keep the invariant *)

From S2P Require Import Prelude TimeCache Backoff Multihash Score GossipState GossipOps.
From S2P Require Import GossipHandlers GossipInv GossipMesh GossipSafe GossipSafeRpc.

(** ** Sorting permutes *)

Lemma insert_by_perm {A} (lt : A -> A -> bool) x l : insert_by lt x l ≡ₚ x :: l.
Proof.
  induction l as [|y l IH]; [done|]. cbn. destruct (lt y x); [|done]. rewrite IH. constructor.
Qed.

Lemma sort_by_perm {A} (lt : A -> A -> bool) l : sort_by lt l ≡ₚ l.
Proof. induction l as [|x l IH]; [done|]. cbn. by rewrite insert_by_perm, IH. Qed.

Section Tick.
Context `{E : Env} `{!EnvLaws E} {config_ : Config} `{Hcfg : !config_ok config_}.
Implicit Types (s : Gossip) (p : PeerPtr) (h : TopicHash).

Abbreviation inv := (inv config_).
Abbreviation kept := (kept config_).

(** What a part of the heartbeat ensures: the invariant, the same peers, the
    same tick, and no topic lost. *)
Record ticked s (s' : Gossip) : Prop := {
  tk_inv : inv s';
  tk_grows : grows s s';
  tk_ticks : heartbeat_ticks_ s' = heartbeat_ticks_ s;
  tk_topics : forall h, is_Some (topics_ s !! h) -> is_Some (topics_ s' !! h)
}.

Lemma ticked_refl s : inv s -> ticked s s.
Proof. by split. Qed.

Lemma ticked_trans s1 s2 s3 : ticked s1 s2 -> ticked s2 s3 -> ticked s1 s3.
Proof.
  intros [_ G1 T1 D1] [I2 G2 T2 D2]. split; [done|by etrans|by rewrite T2|auto].
Qed.

Lemma ticked_kept s s' :
  kept s s' -> heartbeat_ticks_ s' = heartbeat_ticks_ s -> topics_ s' = topics_ s -> ticked s s'.
Proof. intros [Hi Hg] Ht Htop. split; try done. by rewrite Htop. Qed.

Lemma ticked_topic s s' h t : inv s' -> topic_change h t s s' -> ticked s s'.
Proof.
  intros Hi [Hm Htop]. split; [done|by apply mesh_grows|apply Hm|].
  intros h' [t' Ht']. rewrite Htop, lookup_insert. case_decide; by eexists.
Qed.

Lemma ticked_quiet s s' : inv s -> quiet_step s s' -> ticked s s'.
Proof. intros Hi Hq. apply ticked_kept; [by apply quiet_kept|apply Hq|apply Hq]. Qed.

Lemma ticked_uses s : inv s -> ticked s (set_uses S s).
Proof. intros Hi. by apply ticked_kept; [apply kept_uses|..]. Qed.

Lemma ticked_undefined s f : inv s -> ticked s (set_undefined f s).
Proof. intros Hi. by apply ticked_kept; [apply kept_undefined|..]. Qed.

(** Undefined behaviour leaves the rest of the state. *)
Lemma wp_checked ok u s (Q : unit -> Gossip -> Prop) :
  Q tt s -> (forall f, Q tt (set_undefined f s)) -> wp (checked ok u) s Q.
Proof. intros H1 H2. unfold checked. destruct ok; [done|]. by apply wp_modify. Qed.

Lemma wp_sort {A} (key : A -> double) lt l s (Q : list A -> Gossip -> Prop) :
  inv s -> (forall l' s', l' ≡ₚ l -> ticked s s' -> topics_ s' = topics_ s -> heap s' = heap s -> score_ s' = score_ s -> Q l' s') ->
  wp (sort_ key lt l) s Q.
Proof.
  intros Hi HQ. unfold sort_. apply wp_bind, wp_checked; [|intros f]; (apply wp_ret, HQ; [apply sort_by_perm| |done..]);
    [by apply ticked_refl|by apply ticked_undefined].
Qed.

Lemma ticked_some s s' p : ticked s s' -> is_Some (heap s !! p) -> is_Some (heap s' !! p).
Proof. intros Ht. by apply grows_some, Ht. Qed.

Lemma wp_ticked_loop {A} (l : list A) f s :
  inv s -> (forall x s', x ∈ l -> ticked s s' -> wp (f x) s' (fun _ => ticked s')) ->
  wp (forM_ l f) s (fun _ => ticked s).
Proof.
  intros Hs Hf. apply (wp_forM l f (fun rest s' => ticked s s' /\ forall x, x ∈ rest -> x ∈ l)).
  - split; [by apply ticked_refl|done].
  - intros x rest s' [Hk Hin]. eapply wp_mono; [apply Hf; [set_solver|done]|].
    intros [] s2 Hk2. split; [by apply (ticked_trans s s')|set_solver].
  - by intros s' [Hk _].
Qed.

(** Sequencing. *)
Lemma wp_ticked_bind {A B} (m : M A) (k : A -> M B) s :
  wp m s (fun _ => ticked s) ->
  (forall a s', ticked s s' -> wp (k a) s' (fun _ => ticked s')) ->
  wp (m ≫= k) s (fun _ => ticked s).
Proof.
  intros Hm Hk. apply wp_bind. eapply wp_mono; [done|]. intros a s1 H1.
  eapply wp_mono; [by apply Hk|]. intros b s2 H2. by apply (ticked_trans s s1).
Qed.

(** Choosing and grafting, from a state reached quietly. *)
Lemma choose_graft_ticked s h t predicate n :
  inv s -> topics_ s !! h = Some t ->
  (forall p peer, predicate p peer = true -> p ∉ mesh_peers_ t) ->
  wp (chosen ← choose (topic_peers_ t) predicate n; forM_ chosen (graft h)) s
     (fun _ => ticked s).
Proof.
  intros Hi Ht Hp. eapply wp_mono; [by apply (choose_graft_spec config_)|].
  intros [] s' (Hi' & l & _ & _ & _ & Htc). by eapply ticked_topic.
Qed.

Lemma mesh_on_heap s h t p :
  inv s -> topics_ s !! h = Some t -> p ∈ mesh_peers_ t -> is_Some (heap s !! p).
Proof.
  intros Hi Ht Hp. apply (members_on_heap config_ s h t); [done|done|].
  destruct Hi as [Hc _]. by apply (t_mesh _ _ _ _ (c_topics _ _ Hc h t Ht)).
Qed.

(** Removing a peer from a mesh. *)
Lemma mesh_remove_ticked s h t p :
  inv s -> topics_ s !! h = Some t ->
  ticked s (set_topics_ <[h := set_mesh_peers (fun m => m ∖ {[p]}) t]> s).
Proof.
  intros Hi Ht. eapply ticked_topic; [|split; [by constructor|done]].
  apply (kept_topic s h t); [done|done| |done]. apply topic_ok_shrink; [|set_solver].
  destruct Hi as [Hc _]. by apply (c_topics _ _ Hc).
Qed.

Lemma make_prune_ticked s h p :
  inv s -> is_Some (topics_ s !! h) -> is_Some (heap s !! p) ->
  wp (make_prune config_ h p) s (fun _ => ticked s).
Proof.
  intros Hi [t Ht] [peer Hp]. eapply wp_mono; [by apply (make_prune_spec config_ s h t p peer)|].
  intros [] s' (Hi' & (bo & Htc) & _). by eapply ticked_topic.
Qed.

Lemma prune_negative_ticked s h :
  inv s -> is_Some (topics_ s !! h) -> wp (prune_negative config_ h) s (fun _ => ticked s).
Proof.
  intros Hi [t Ht]. unfold prune_negative. wpn.
  pose proof (ticked_uses s Hi) as Hk1.
  eapply wp_mono; [apply wp_ticked_loop; [apply Hk1|]|].
  - intros p s' Hp Hk. rewrite order_permutes, elem_of_elements in Hp.
    assert (is_Some (heap s' !! p)) as [peer Hpe].
    { apply (ticked_some _ _ p Hk). by apply (mesh_on_heap s h t). }
    wpn; [|by apply ticked_refl, Hk].
    eapply wp_mono; [apply make_prune_ticked; [apply Hk|apply (tk_topics _ _ Hk); by exists t|by exists peer]|].
    intros [] s2 Hk2. destruct (tk_topics _ _ (ticked_trans _ _ _ Hk Hk2) h) as [t2 Ht2]; [by exists t|].
    wpn. apply (ticked_trans _ _ _ Hk2). apply mesh_remove_ticked; [apply Hk2|done].
  - intros [] s' Hk. by apply (ticked_trans _ _ _ Hk1).
Qed.

Lemma graft_missing_ticked s h :
  inv s -> is_Some (topics_ s !! h) -> wp (graft_missing config_ h) s (fun _ => ticked s).
Proof.
  intros Hi [t Ht]. unfold graft_missing. wpn.
  apply choose_graft_ticked; [done|done|apply mesh_candidate_out].
Qed.

Lemma prune_excess_ticked s h mesh_n omin out l :
  inv s -> is_Some (topics_ s !! h) -> (forall p, p ∈ l -> is_Some (heap s !! p)) ->
  wp (prune_excess config_ h mesh_n omin out l) s (fun _ => ticked s).
Proof.
  revert s out. induction l as [|p l IH]; intros s out Hi [t Ht] Hl; cbn [prune_excess].
  { wpn. by apply ticked_refl. }
  wp1. wp1. case_decide; [wpn; by apply ticked_refl|].
  destruct (Hl p) as [peer Hp]; [set_solver|]. wp1. wp1. destruct (out_ peer && _).
  { apply IH; [done|by exists t|set_solver]. }
  do 2 (wp1; cbv beta). pose proof (mesh_remove_ticked s h t p Hi Ht) as Hk1.
  set (s1 := set_topics_ _ s) in *. wp1.
  eapply wp_mono; [apply make_prune_ticked; [apply Hk1|apply (tk_topics _ _ Hk1); by exists t|by exists peer]|].
  intros [] s2 Hk2. pose proof (ticked_trans _ _ _ Hk1 Hk2) as Hk.
  eapply wp_mono; [apply IH; [apply Hk|apply (tk_topics _ _ Hk); by exists t|]|].
  - intros q Hq. apply (ticked_some _ _ q Hk), Hl. set_solver.
  - intros [] s3 Hk3. by apply (ticked_trans _ _ _ Hk).
Qed.

Lemma meshOutCount_ticked s h t :
  inv s -> topics_ s !! h = Some t ->
  wp (meshOutCount t) s (fun _ s' => ticked s s' /\ topics_ s' = topics_ s).
Proof.
  intros Hi Ht. unfold meshOutCount. wpn. apply wp_deref_all.
  - intros p. rewrite order_permutes, elem_of_elements. intros Hp. by apply (mesh_on_heap s h t).
  - intros peers _. wpn. split; [by apply ticked_uses|done].
Qed.

(** The list [prune_surplus] walks through: all of the mesh. *)
Lemma surplus_members (l sorted : list (PeerPtr * Peer)) n k p :
  sorted ≡ₚ l -> p ∈ shuffle k (take n sorted.*1) ++ drop n sorted.*1 <-> p ∈ l.*1.
Proof. intros Hs. rewrite shuffle_permutes, take_drop. by rewrite Hs. Qed.

Lemma prune_surplus_ticked s h :
  inv s -> is_Some (topics_ s !! h) -> wp (prune_surplus config_ h) s (fun _ => ticked s).
Proof.
  intros Hi [t Ht]. unfold prune_surplus. wp1. wp1. do 4 (wp1; cbv beta). wp1.
  pose proof (ticked_trans _ _ _ (ticked_uses s Hi) (ticked_uses _ (tk_inv _ _ (ticked_uses s Hi)))) as Hk1.
  set (s1 := set_uses S (set_uses S s)) in *.
  set (l := shuffle _ (order _ _)).
  assert (forall p, p ∈ l -> p ∈ mesh_peers_ t) as Hl.
  { intros p. unfold l. by rewrite shuffle_permutes, order_permutes, elem_of_elements. }
  apply wp_deref_all; [by intros p Hp; apply (mesh_on_heap s h t); [..|apply Hl]|].
  intros peers Hf. do 2 (wp1; cbv beta zeta). wp1. apply wp_sort; [apply Hk1|]. intros sorted s1' Hsort Hks Hts _ _.
  do 2 (wp1; cbv beta zeta). pose proof (ticked_trans _ _ _ Hk1 Hks) as Hk1'.
  pose proof (ticked_trans _ _ _ Hk1' (ticked_uses _ (tk_inv _ _ Hk1'))) as Hk2.
  set (s2 := set_uses S s1') in *. wp1.
  eapply wp_mono; [apply (meshOutCount_ticked s2 h t); [apply Hk2|cbn; by rewrite Hts]|].
  intros out s3 [Hk3 Ht3]. pose proof (ticked_trans _ _ _ Hk2 Hk3) as Hk.
  eapply wp_mono; [apply prune_excess_ticked; [apply Hk|apply (tk_topics _ _ Hk); by exists t|]|].
  - intros p. rewrite (surplus_members _ _ _ _ _ Hsort). rewrite list_elem_of_fmap.
    intros ([q pq] & -> & Hq). apply (zip_heap (heap s)) in Hq as [Hq Hpq]; [|done].
    apply (ticked_some _ _ q Hk). by exists pq.
  - intros [] s4 Hk4. by apply (ticked_trans _ _ _ Hk).
Qed.

Lemma graft_outbound_ticked s h :
  inv s -> is_Some (topics_ s !! h) -> wp (graft_outbound config_ h) s (fun _ => ticked s).
Proof.
  intros Hi [t Ht]. unfold graft_outbound. wp1. wp1. wp1.
  eapply wp_mono; [by apply (meshOutCount_ticked s h t)|]. intros out s1 [Hk1 Ht1]. wpn; [|done].
  eapply wp_mono; [apply (choose_graft_ticked s1 h t); [apply Hk1|by rewrite Ht1|]|].
  - intros p peer Hp. apply andb_true_iff in Hp as [_ Hp]. by eapply mesh_candidate_out.
  - intros [] s2 Hk2. by apply (ticked_trans s s1).
Qed.

(** The median exists for every mesh but one of exactly two peers. *)
Lemma median_total (l : list double) :
  (1 < length l)%nat -> length l <> 2%nat -> is_Some (median l).
Proof.
  intros H1 H2. unfold median. destruct (length l mod 2 =? 0)%nat eqn:Ev; reflect_bools.
  - assert (length l = 2 * (length l / 2))%nat as Hd by (pose proof (Nat.div_mod_eq (length l) 2); lia).
    destruct (lookup_lt_is_Some_2 l (length l / 2 - 1)) as [a ->]; [lia|].
    destruct (lookup_lt_is_Some_2 l (length l / 2 + 1)) as [b ->]; [lia|]. by eexists.
  - apply lookup_lt_is_Some_2. apply Nat.div_lt; lia.
Qed.

(** The heartbeats on which opportunistic grafting runs. *)
Definition opportunistic_tick (ticks : Z) : bool :=
  ticks mod Z.of_nat (opportunistic_graft_ticks config_) =? 0.

Lemma graft_opportunistic_ticked s h t :
  inv s -> topics_ s !! h = Some t ->
  (opportunistic_tick (heartbeat_ticks_ s) = true -> size (mesh_peers_ t) <> 2%nat) ->
  wp (graft_opportunistic config_ h) s (fun _ => ticked s).
Proof.
  intros Hi Ht Htick. unfold graft_opportunistic. wpn. destruct Hcfg.
  rewrite decide_False by lia. wp1; [|by apply ticked_refl].
  reflect_bools. wp1. wp1. wp1. pose proof (ticked_uses s Hi) as Hk1.
  set (l := order _ _).
  assert (length l = size (mesh_peers_ t)) as Hlen by (unfold l; by rewrite order_permutes).
  apply wp_deref_all.
  { intros p. unfold l. rewrite order_permutes, elem_of_elements. intros Hp. by apply (mesh_on_heap s h t). }
  intros peers Hf. pose proof (Forall2_length _ _ _ Hf) as Hlen2. do 2 (wp1; cbv beta zeta). wp1.
  apply wp_sort; [apply Hk1|]. intros scores s1 Hsort Hks Hts _ _. pose proof (ticked_trans _ _ _ Hk1 Hks) as Hk1'.
  assert (length scores = size (mesh_peers_ t)) as Hlen3 by (rewrite Hsort, length_map; lia).
  destruct (median_total scores) as [med Hmed]; [lia| |].
  { rewrite Hlen3. apply Htick. unfold opportunistic_tick. by apply Z.eqb_eq. }
  wp1. eapply wp_get_or_fail; [done|]. wp1; [|done].
  eapply wp_mono; [apply (choose_graft_ticked _ h t); [apply Hk1'|by rewrite Hts|]|].
  - intros p peer Hp. by reflect_bools.
  - intros [] s2 Hk2. by apply (ticked_trans _ _ _ Hk1').
Qed.

Lemma bind_fails {A B} (m : M A) (k : A -> M B) s :
  wp m s (fun a s' => k a s' = None) -> (m ≫= k) s = None.
Proof. unfold wp, mbind, M_bind. by destruct (m s) as [[]|]. Qed.

(** On an opportunistic tick a mesh of two peers makes it fail: the median of
    two scores needs a third. *)
Lemma graft_opportunistic_fails s h t :
  inv s -> topics_ s !! h = Some t -> opportunistic_tick (heartbeat_ticks_ s) = true ->
  size (mesh_peers_ t) = 2%nat -> graft_opportunistic config_ h s = None.
Proof.
  intros Hi Ht Htick Hsz. unfold graft_opportunistic. apply bind_fails, wp_gets, bind_fails.
  eapply wp_get_topic; [done|]. destruct Hcfg. rewrite decide_False by lia.
  unfold opportunistic_tick in Htick. rewrite Htick, Hsz. cbn [andb Nat.ltb Nat.leb whenM].
  apply bind_fails, wp_order, bind_fails. set (l := order _ _).
  assert (length l = 2%nat) as Hlen by (unfold l; by rewrite order_permutes).
  apply wp_deref_all.
  { intros p. unfold l. rewrite order_permutes, elem_of_elements. by apply (mesh_on_heap s h t). }
  intros peers Hf%Forall2_length. apply bind_fails, wp_gets. cbv zeta. apply bind_fails, wp_sort; [by apply inv_uses|].
  intros scores s' Hsort _ _ _ _.
  assert (length scores = 2%nat) as Hlen3 by (rewrite Hsort, length_map; lia).
  destruct scores as [|x [|y [|]]]; done.
Qed.

(** [m], or nothing when it fails. *)
Definition attempt (m : M unit) : M unit :=
  fun s => match m s with Some r => Some r | None => Some (s, tt) end.

(** Whatever [m] returns, [m'] returns. *)
Definition refines {A} (m m' : M A) : Prop := forall s r, m s = Some r -> m' s = Some r.

Lemma refines_bind {A B} (m m' : M A) (k k' : A -> M B) :
  refines m m' -> (forall a, refines (k a) (k' a)) -> refines (m ≫= k) (m' ≫= k').
Proof.
  intros Hm Hk s r. unfold mbind, M_bind. destruct (m s) as [[s1 a]|] eqn:Es; [|done].
  rewrite (Hm _ _ Es). apply Hk.
Qed.

Lemma refines_refl {A} (m : M A) : refines m m.
Proof. by intros s r. Qed.

Lemma refines_forM {A} (l : list A) (f f' : A -> M unit) :
  (forall x, refines (f x) (f' x)) -> refines (forM_ l f) (forM_ l f').
Proof.
  intros Hf. induction l as [|x l IH]; cbn [forM_]; [apply refines_refl|by apply refines_bind].
Qed.

Lemma wp_attempt m s (Q : unit -> Gossip -> Prop) :
  Q tt s -> m s = None \/ wp m s Q -> wp (attempt m) s Q.
Proof. unfold wp, attempt. intros HQ [->|Hm]; [done|]. by destruct (m s) as [[]|]. Qed.

(** [maintain_mesh] with [graft] for its last step. *)
Definition maintain_mesh_with (graft : TopicHash -> M unit) (h : TopicHash) : M unit :=
  prune_negative config_ h ;;
  t ← get_topic h;
  (if decide (size (mesh_peers_ t) < mesh_n_low_for_topic config_ h)%nat then graft_missing config_ h
   else if decide (mesh_n_high_for_topic config_ h < size (mesh_peers_ t))%nat
   then prune_surplus config_ h
   else mret tt) ;;
  t ← get_topic h;
  (if decide (mesh_n_low_for_topic config_ h <= size (mesh_peers_ t))%nat
   then graft_outbound config_ h else mret tt) ;;
  graft h.

Lemma maintain_mesh_ticked s h graft :
  inv s -> is_Some (topics_ s !! h) ->
  (forall s' t, inv s' -> topics_ s' !! h = Some t -> heartbeat_ticks_ s' = heartbeat_ticks_ s ->
     wp (graft h) s' (fun _ => ticked s')) ->
  wp (maintain_mesh_with graft h) s (fun _ => ticked s).
Proof.
  intros Hi Hh Hgraft. unfold maintain_mesh_with.
  apply wp_ticked_bind; [by apply prune_negative_ticked|]. intros _ s1 Hk1.
  destruct (tk_topics _ _ Hk1 h Hh) as [t1 Ht1]. wp1. wp1. apply wp_ticked_bind.
  { case_decide; [apply graft_missing_ticked; [apply Hk1|by exists t1]|].
    case_decide; [apply prune_surplus_ticked; [apply Hk1|by exists t1]|].
    wpn. apply ticked_refl, Hk1. }
  intros _ s2 Hk2. destruct (tk_topics _ _ Hk2 h) as [t2 Ht2]; [by exists t1|]. wp1. wp1.
  apply wp_ticked_bind.
  { case_decide; [apply graft_outbound_ticked; [apply Hk2|by exists t2]|].
    wpn. apply ticked_refl, Hk2. }
  intros _ s3 Hk3. destruct (tk_topics _ _ Hk3 h) as [t3 Ht3]; [by exists t2|].
  apply (Hgraft s3 t3); [apply Hk3|done|].
  by rewrite (tk_ticks _ _ Hk3), (tk_ticks _ _ Hk2), (tk_ticks _ _ Hk1).
Qed.

(** Adding members that speak gossipsub to a mesh. *)
Lemma mesh_add_ticked s h t p peer :
  inv s -> topics_ s !! h = Some t -> p ∈ topic_peers_ t ->
  heap s !! p = Some peer -> isGossipsub peer = true ->
  ticked s (set_topics_ <[h := set_mesh_peers (fun m => {[p]} ∪ m) t]> s).
Proof.
  intros Hi Ht Hm Hp Hg. eapply ticked_topic; [|split; [by constructor|done]].
  apply (kept_topic s h t); [done|done| |done]. destruct Hi as [Hc _].
  pose proof (c_topics _ _ Hc h t Ht) as Hok.
  apply topic_ok_mesh; [done|pose proof (t_mesh _ _ _ _ Hok); set_solver|].
  intros q pq [->%elem_of_singleton|Hq]%elem_of_union Hpq; [by simplify_eq|].
  by apply (t_gossipsub _ _ _ _ Hok q).
Qed.

Lemma mesh_add_all_ticked s h t l :
  inv s -> topics_ s !! h = Some t ->
  (forall p, p ∈ l -> p ∈ topic_peers_ t /\ exists peer, heap s !! p = Some peer /\ isGossipsub peer = true) ->
  wp (forM_ l (fun p => update_topic h (set_mesh_peers (fun m => {[p]} ∪ m)))) s (fun _ => ticked s).
Proof.
  revert s t. induction l as [|p l IH]; intros s t Hi Ht Hl; cbn [forM_].
  { wpn. by apply ticked_refl. }
  destruct (Hl p) as (Hm & peer & Hp & Hg); [set_solver|].
  pose proof (mesh_add_ticked s h t p peer Hi Ht Hm Hp Hg) as Hk1. wp1. wp1.
  eapply wp_mono; [eapply IH; [apply Hk1|cbn; by rewrite lookup_insert_eq|]|].
  - intros q Hq. destruct (Hl q) as (Hm' & peer' & Hp' & Hg'); [set_solver|]. cbn. eauto.
  - intros [] s2 Hk2. by apply (ticked_trans _ _ _ Hk1).
Qed.

Lemma maintain_fanout_ticked s h :
  inv s -> is_Some (topics_ s !! h) -> wp (maintain_fanout config_ h) s (fun _ => ticked s).
Proof.
  intros Hi [t Ht]. unfold maintain_fanout. wp1. wp1. wp1. apply wp_deref_all.
  { intros p. rewrite elem_of_elements. intros Hp. by apply (mesh_on_heap s h t). }
  intros peers Hf. do 4 (wp1; cbv beta zeta). set (keep := list_to_set _).
  assert (keep ⊆ mesh_peers_ t) as Hsub.
  { intros p Hp. unfold keep in Hp. apply (elem_of_zip_filter (heap s)) in Hp as [Hp _]; [|done].
    by rewrite elem_of_elements in Hp. }
  set (t1 := set_mesh_peers _ t). set (s1 := set_topics_ _ s).
  assert (ticked s s1) as Hk1.
  { eapply ticked_topic; [|split; [by constructor|done]]. apply (kept_topic s h t); [done|done| |done].
    apply topic_ok_shrink; [|done]. destruct Hi as [Hc _]. by apply (c_topics _ _ Hc). }
  wp1. eapply (wp_get_topic h _ t1); [cbn; by rewrite lookup_insert_eq|]. wp1; [|done].
  apply wp_bind, choose_spec.
  { intros p Hp. apply (members_on_heap config_ s1 h t1); [apply Hk1|cbn; by rewrite lookup_insert_eq|done]. }
  intros l _ _ Hl. set (s2 := set_uses _ _).
  assert (ticked s1 s2) as Hk2.
  { pose proof (ticked_uses s1 (tk_inv _ _ Hk1)) as Hk.
    exact (ticked_trans _ _ _ Hk (ticked_uses _ (tk_inv _ _ Hk))). }
  eapply wp_mono; [eapply (mesh_add_all_ticked s2 h t1); [apply Hk2|cbn; by rewrite lookup_insert_eq|]|].
  - intros p Hp. destruct (Hl p Hp) as (Hm & peer & Hpe & Hg & _). eauto.
  - intros [] s3 Hk3. exact (ticked_trans _ _ _ Hk1 (ticked_trans _ _ _ Hk2 Hk3)).
Qed.

(** ** The rest of the heartbeat *)

Lemma apply_iwant_penalties_ticked s : inv s -> wp apply_iwant_penalties s (fun _ => ticked s).
Proof.
  intros Hi. unfold apply_iwant_penalties. do 6 (wp1; cbv beta).
  pose proof (kept_uses s Hi) as Hk1. set (s1 := set_uses S s) in *.
  assert (kept s1 (set_gossip_promises_
    (fun _ => (GossipPromises.clearExpired (clock (uses s)) (gossip_promises_ s1)).1) s1)) as Hk2.
  { apply kept_promises; [apply Hk1|]. intros id m p Hm Hp.
    pose proof (GossipPromises.clearExpired_keeps (clock (uses s)) (gossip_promises_ s1) id p) as Hkeep.
    rewrite Hm in Hkeep. destruct Hp as [time Hp]. cbn [mbind option_bind] in Hkeep. rewrite Hp in Hkeep.
    destruct (GossipPromises.map_ (gossip_promises_ s1) !! id) as [m0|] eqn:Em; [|done].
    cbn in Hkeep. destruct (m0 !! p) as [time0|] eqn:Ep; [|done].
    destruct Hi as [Hc _]. apply (c_promises _ _ Hc id m0 p Em). by exists time0. }
  set (s2 := set_gossip_promises_ _ s1) in *. wp1. wp1.
  pose proof (kept_uses s2 (proj1 Hk2)) as Hk3. set (s3 := set_uses S s2) in *.
  assert (ticked s s3) as Hks.
  { apply ticked_kept; [|done|done]. exact (kept_trans _ _ _ Hk1 (kept_trans _ _ _ Hk2 Hk3)). }
  eapply wp_mono; [apply wp_ticked_loop; [apply Hk3|]|].
  - intros [p n] s' Hin Hk. rewrite order_permutes, elem_of_map_to_list in Hin.
    assert (is_Some (heap s' !! p)) as [peer Hp].
    { apply (ticked_some _ _ p Hk). destruct (GossipPromises.clearExpired_owed (clock (uses s))
        (gossip_promises_ s1) p) as (id & m & Hm & Hp); [by exists n|].
      destruct Hi as [Hc _]. by apply (c_promises _ _ Hc id m). }
    wpn. apply ticked_kept; [|done|done]. apply modify_score_kept; [apply Hk|]. apply addPenalty_known.
  - intros [] s4 Hk4. exact (ticked_trans _ _ _ Hks Hk4).
Qed.

(** Dropping topics. *)
Lemma drop_topic_kept s h : inv s -> kept s (set_topics_ (delete h) s).
Proof.
  intros [[H1 H2 H3 H4 H5 H6 H7 H8 H9] Hw]. split; [|by apply same_heap_grows].
  split; [|by apply (writers_ok_frame s)]. split; try done; cbn.
  - intros h' t. rewrite lookup_delete_Some. intros [_ Ht]. by apply H3.
  - intros id p peer h' t Hid Hp Hh. rewrite lookup_delete_Some. intros [_ Ht].
    by apply (H4 id p peer h').
Qed.

Lemma drop_stale_topics_kept s :
  inv s -> wp (drop_stale_topics config_) s (fun _ s' => kept s s'
    /\ heartbeat_ticks_ s' = heartbeat_ticks_ s).
Proof.
  intros Hi. unfold drop_stale_topics. do 4 (wp1; cbv beta).
  apply (wp_forM _ _ (fun _ s' => kept s s' /\ heartbeat_ticks_ s' = heartbeat_ticks_ s)).
  - split; [by apply kept_uses|done].
  - intros [h t] rest s' [Hk Ht]. pose proof (kept_uses s' (proj1 Hk)) as Hk1.
    wpn; [|by split; [apply (kept_trans _ _ _ Hk)|]|done]. split; [|done].
    apply (kept_trans _ _ _ Hk), (kept_trans _ _ _ Hk1). apply drop_topic_kept, Hk1.
  - done.
Qed.

Lemma emit_gossip_topic_ticked s h :
  inv s -> is_Some (topics_ s !! h) -> wp (emit_gossip_topic config_ h) s (fun _ => ticked s).
Proof.
  intros Hi [t Ht]. unfold emit_gossip_topic. wp1. wp1. wp1; [|by apply ticked_refl].
  wp1. wp1. apply wp_bind, choose_by_spec; [by intros p Hp; apply (members_on_heap config_ s h t)|].
  intros l _ Hl. pose proof (ticked_uses s Hi) as Hk. pose proof (ticked_uses _ (tk_inv _ _ Hk)) as Hk'.
  unfold gossip_count. cbv zeta. apply wp_bind.
  assert (forall s1 count, ticked s s1 -> heap s1 = heap s -> wp (mret count) s1 (fun count s' => wp (forM_ (take count l) (fun p =>
    ids ← shuffle_ (History.get (history_gossip config_) (history_ t));
    with_batch p (rpc_ihave h (take (max_ihave_length config_) ids)))) s' (fun _ => ticked s))) as Hgo;
    [|apply wp_checked; [|intros f]; apply Hgo; try done].
  2: { exact (ticked_trans _ _ _ Hk Hk'). }
  2: { exact (ticked_trans _ _ _ Hk (ticked_trans _ _ _ Hk' (ticked_undefined _ f (tk_inv _ _ Hk')))). }
  intros s1 count Hk1 Hheap. apply wp_ret.
  eapply wp_mono; [apply wp_ticked_loop; [apply Hk1|]|].
  - intros p s' Hp Hks. eapply elem_of_sublist in Hp; [|apply sublist_take]. rewrite <- Hheap in Hl. destruct (Hl p Hp) as (_ & peer & Hpe & _).
    assert (is_Some (heap s' !! p)) as [peer' Hp'] by (apply (ticked_some _ _ p Hks); by exists peer).
    wpn. pose proof (ticked_uses s' (tk_inv _ _ Hks)) as Hk2.
    eapply wp_mono; [apply (with_batch_quiet p _ _ peer'); [apply Hk2|done]|].
    intros [] s2 Hq. apply (ticked_trans _ _ _ Hk2). apply ticked_quiet; [apply Hk2|done].
  - intros [] s2 Hk2. by apply (ticked_trans _ _ _ Hk1).
Qed.

(** A loop over the topics. *)
Lemma topics_loop_ticked s f :
  inv s ->
  (forall h s', inv s' -> is_Some (topics_ s' !! h) -> heartbeat_ticks_ s' = heartbeat_ticks_ s ->
     wp (f h) s' (fun _ => ticked s')) ->
  wp (for_topics f) s (fun _ => ticked s).
Proof.
  intros Hi Hf. unfold for_topics, topic_hashes. wpn. pose proof (ticked_uses s Hi) as Hk1.
  eapply wp_mono; [apply wp_ticked_loop; [apply Hk1|]|].
  - intros h s' Hh Hk. apply Hf; [apply Hk| |by rewrite (tk_ticks _ _ Hk)].
    apply (tk_topics _ _ Hk). rewrite order_permutes, list_elem_of_fmap in Hh.
    destruct Hh as ([h' t] & -> & Ht%elem_of_map_to_list). by exists t.
  - intros [] s2 Hk2. by apply (ticked_trans _ _ _ Hk1).
Qed.

Lemma shift_history_ticked s h :
  inv s -> is_Some (topics_ s !! h) -> wp (shift_history h) s (fun _ => ticked s).
Proof.
  intros Hi [t Ht]. pose proof Hi as [Hc _]. pose proof (c_topics _ _ Hc h t Ht) as Hok.
  unfold shift_history. wp1. wp1. do 2 (wp1; cbv beta).
  assert (ticked s (set_topics_ <[h := set_history (fun _ => (History.shift (history_ t)).1) t]> s)) as Hk1.
  { eapply ticked_topic; [|split; [by constructor|done]]. apply (kept_topic s h t); [done|done| |done].
    apply topic_ok_history; [done|]. apply History.length_shift.
    destruct Hcfg. intros Hn. pose proof (t_history _ _ _ _ Hok) as Hl. rewrite Hn in Hl. cbn in Hl. lia. }
  eapply wp_mono; [apply wp_ticked_loop; [apply Hk1|]|].
  - intros id s' _ Hk. wpn. apply ticked_kept; [|done|done]. by apply kept_frame; [apply Hk|..].
  - intros [] s2 Hk2. by apply (ticked_trans _ _ _ Hk1).
Qed.

(** Fields that the invariant sees only through the topics' wheels. *)
Lemma shift_backoff_kept s :
  inv s -> kept s (set_topics_ (fmap (set_backoff TopicBackoff.shift)) s).
Proof.
  intros [[H1 H2 H3 H4 H5 H6 H7 H8 H9] Hw]. split; [|by apply same_heap_grows].
  split; [|by apply (writers_ok_frame s)]. split; try done; cbn.
  - intros h t'. rewrite lookup_fmap_Some. intros (t & <- & Ht). destruct (H3 h t Ht).
    split; try done. cbn. by apply TopicBackoff.shift_ok.
  - intros id p peer h t' Hid Hp Hh. rewrite lookup_fmap_Some. intros (t & <- & Ht).
    by apply (H4 id p peer h t).
Qed.

Lemma clear_counts_kept s :
  inv s -> kept s (set_count_sent_iwant_ (fun _ => ∅) (set_count_received_ihave_ (fun _ => ∅) s)).
Proof.
  intros [Hc Hw]. split; [|by apply same_heap_grows]. split; [|by apply (writers_ok_frame s)].
  apply (core_frame _ s); try done.
Qed.

(** Expiring the IDONTWANT marks of the connected peers. *)
Lemma expire_dont_send_kept s l now :
  inv s -> now <= clock (uses s) ->
  (forall p peer, heap s !! p = Some peer -> IDontWantCache.inv now (dont_send_ peer)) ->
  (forall p, p ∈ l -> is_Some (heap s !! p)) ->
  wp (forM_ l (fun p => update_peer p (fun peer =>
    set_dont_send (IDontWantCache.clearExpired now (dont_send_ peer)) peer))) s (fun _ => kept s).
Proof.
  intros Hi Hnow. revert s Hi Hnow. induction l as [|p l IH]; intros s Hi Hnow Hinv Hl; cbn [forM_].
  { by wpn. }
  destruct (Hl p) as [peer Hp]; [set_solver|]. wp1. wp1.
  pose proof Hi as [_ Hw].
  destruct (IDontWantCache.clear_inv now now (dont_send_ peer)) as [Hcl _]; [lia|by apply (Hinv p)|].
  set (peer' := set_dont_send _ peer).
  assert (kept s (set_heap <[p := peer']> s)) as Hk1.
  { apply (kept_peer s p peer); try done; [by eapply inv_mono|by apply (w_stream _ Hw p)]. }
  eapply wp_mono; [apply IH; [apply Hk1|done| |]|].
  - intros q pq. cbn. rewrite lookup_insert. case_decide; subst; [by intros [= <-]|by apply Hinv].
  - intros q Hq. cbn. rewrite lookup_insert. case_decide; [done|]. apply Hl. set_solver.
  - intros [] s2 Hk2. by apply (kept_trans _ _ _ Hk1).
Qed.

(** [maintain_topic] and [heartbeat] with [graft] for opportunistic grafting. *)
Definition maintain_topic_with (graft : TopicHash -> M unit) (h : TopicHash) : M unit :=
  t ← get_topic h;
  if publish_only_ t then maintain_fanout config_ h else maintain_mesh_with graft h.

Definition heartbeat_with (graft : TopicHash -> M unit) : M unit :=
  modify (set_heartbeat_ticks_ (fun n => u64 (n + 1))) ;;
  modify (set_topics_ (fmap (set_backoff TopicBackoff.shift))) ;;
  modify (set_count_received_ihave_ (fun _ => ∅)) ;;
  modify (set_count_sent_iwant_ (fun _ => ∅)) ;;
  apply_iwant_penalties ;;
  drop_stale_topics config_ ;;
  for_topics (maintain_topic_with graft) ;;
  emit_gossip config_ ;;
  for_topics shift_history ;;
  now ← now_;
  l ← gets (fun s => (map_to_list (peers_ s)).*2);
  forM_ l (fun p => update_peer p (fun peer =>
    set_dont_send (IDontWantCache.clearExpired now (dont_send_ peer)) peer)).

Lemma maintain_topic_ticked s h graft :
  inv s -> is_Some (topics_ s !! h) ->
  (forall s' t, inv s' -> topics_ s' !! h = Some t -> heartbeat_ticks_ s' = heartbeat_ticks_ s ->
     wp (graft h) s' (fun _ => ticked s')) ->
  wp (maintain_topic_with graft h) s (fun _ => ticked s).
Proof.
  intros Hi [t Ht] Hgraft. unfold maintain_topic_with. wp1. wp1.
  destruct (publish_only_ t); [by apply maintain_fanout_ticked|by apply maintain_mesh_ticked].
Qed.

Lemma heartbeat_with_kept s graft :
  inv s ->
  (forall h s' t, inv s' -> topics_ s' !! h = Some t ->
     heartbeat_ticks_ s' = u64 (heartbeat_ticks_ s + 1) -> wp (graft h) s' (fun _ => ticked s')) ->
  wp (heartbeat_with graft) s (fun _ => kept s).
Proof.
  intros Hi Hgraft. unfold heartbeat_with. do 8 (wp1; cbv beta).
  set (s1 := set_heartbeat_ticks_ _ s). set (s2 := set_topics_ _ s1). set (s4 := set_count_sent_iwant_ _ _).
  assert (kept s s1) as Hk1 by by apply kept_frame.
  assert (kept s s4) as Hk4.
  { apply (kept_trans _ _ _ Hk1), (kept_trans _ s2); [apply shift_backoff_kept, Hk1|].
    apply clear_counts_kept. apply (shift_backoff_kept s1), Hk1. }
  assert (heartbeat_ticks_ s4 = u64 (heartbeat_ticks_ s + 1)) as Ht4 by done.
  clearbody s4. wp1. eapply wp_mono; [apply apply_iwant_penalties_ticked, Hk4|].
  intros [] s5 Hk5. wp1. eapply wp_mono; [apply drop_stale_topics_kept, Hk5|].
  intros [] s6 [Hk6 Ht6].
  assert (heartbeat_ticks_ s6 = u64 (heartbeat_ticks_ s + 1)) as Ht.
  { by rewrite Ht6, (tk_ticks _ _ Hk5). }
  assert (kept s s6) as Hks6.
  { apply (kept_trans _ _ _ Hk4), (kept_trans _ s5); [|done]. split; apply Hk5. }
  wp1. eapply wp_mono; [apply topics_loop_ticked; [apply Hks6|]|].
  { intros h s' Hi' Hh Hts. apply maintain_topic_ticked; [done|done|].
    intros s'' t Hi'' Ht'' Hts'. apply (Hgraft h s'' t); [done|done|]. by rewrite Hts', Hts. }
  intros [] s7 Hk7. wp1. eapply wp_mono; [apply topics_loop_ticked; [apply Hk7|]|].
  { intros h s' Hi' Hh _. by apply emit_gossip_topic_ticked. }
  intros [] s8 Hk8. wp1. eapply wp_mono; [apply topics_loop_ticked; [apply Hk8|]|].
  { intros h s' Hi' Hh _. by apply shift_history_ticked. }
  intros [] s9 Hk9. do 4 (wp1; cbv beta).
  assert (kept s s9) as Hks9.
  { apply (kept_trans _ _ _ Hks6). pose proof (ticked_trans _ _ _ Hk7 (ticked_trans _ _ _ Hk8 Hk9)) as Hk.
    split; apply Hk. }
  pose proof (kept_uses s9 (proj1 Hks9)) as Hk10. set (s10 := set_uses S s9) in *.
  pose proof (proj1 Hks9) as [Hc9 _].
  eapply wp_mono; [apply (expire_dont_send_kept s10); [apply Hk10|apply clock_steady| |]|].
  - apply (c_dont_send _ _ Hc9).
  - intros p. rewrite list_elem_of_fmap. intros ([id q] & -> & Hq%elem_of_map_to_list).
    destruct (c_peers _ _ Hc9 id q Hq) as (peer & Hp & _). by exists peer.
  - intros [] s11 Hk11. exact (kept_trans _ _ _ Hks9 (kept_trans _ _ _ Hk10 Hk11)).
Qed.

(** Off the opportunistic ticks the heartbeat never fails. *)
Lemma heartbeat_kept s :
  inv s -> opportunistic_tick (u64 (heartbeat_ticks_ s + 1)) = false ->
  wp (heartbeat config_) s (fun _ => kept s).
Proof.
  intros Hi Htick. apply (heartbeat_with_kept s (graft_opportunistic config_)); [done|].
  intros h s' t Hi' Ht Hts. apply (graft_opportunistic_ticked s' h t); [done|done|].
  by rewrite Hts, Htick.
Qed.

Lemma heartbeat_refines graft :
  (forall h, refines (graft_opportunistic config_ h) (graft h)) ->
  refines (heartbeat config_) (heartbeat_with graft).
Proof.
  intros Hg. unfold heartbeat, heartbeat_with.
  do 6 (apply refines_bind; [apply refines_refl|intros _]).
  apply refines_bind; [|intros _; apply refines_refl].
  unfold for_topics. apply refines_bind; [apply refines_refl|]. intros l. apply refines_forM.
  intros h. apply refines_bind; [apply refines_refl|]. intros t.
  destruct (publish_only_ t); [apply refines_refl|]. unfold maintain_mesh, maintain_mesh_with.
  do 5 (apply refines_bind; [apply refines_refl|intros ?]). apply Hg.
Qed.

(** On the others a heartbeat that does not fail keeps the invariant too. *)
Lemma heartbeat_keeps s s' :
  inv s -> heartbeat config_ s = Some (s', tt) -> kept s s'.
Proof.
  intros Hi Hs. apply (heartbeat_refines (fun h => attempt (graft_opportunistic config_ h))) in Hs.
  - refine (wp_of_run _ _ _ _ (fun _ => kept s) Hs _). apply heartbeat_with_kept; [done|].
    intros h s1 t Hi1 Ht _. apply wp_attempt; [by apply ticked_refl|].
    destruct (decide (opportunistic_tick (heartbeat_ticks_ s1) = true /\ size (mesh_peers_ t) = 2%nat))
      as [[H1 H2]|Hn]; [left; by apply (graft_opportunistic_fails s1 h t)|right].
    apply (graft_opportunistic_ticked s1 h t); [done|done|]. intros H1 H2. by apply Hn.
  - intros h s1 r Hr. unfold attempt. by rewrite Hr.
Qed.
End Tick.
