(* ===== verification/GossipRun.v ===== *)
(** * Gossipsub: events and runs

    Connections, streams and the writer coroutine keep the invariant; with the
    handlers of the previous files, every event does, and so does every run. *)

From S2P Require Import Prelude TimeCache Backoff Multihash Score GossipState GossipOps.
From S2P Require Import GossipHandlers GossipInv GossipMesh GossipSafe GossipSafeRpc.
From S2P Require Import GossipSafeTick.

Section Run.
Context `{E : Env} `{!EnvLaws E} {config_ : Config} `{Hcfg : !config_ok config_}.
Implicit Types (s : Gossip) (p : PeerPtr) (h : TopicHash).

Abbreviation inv := (inv config_).
Abbreviation kept := (kept config_).

(** ** The writer coroutine *)

Lemma kept_uses_n s n : inv s -> kept s (set_uses (fun k => n + k)%nat s).
Proof.
  intros [Hc Hw]. split; [|by apply same_heap_grows].
  split; [by apply core_uses|by apply (writers_ok_frame s)].
Qed.

Lemma order_nil {A} n (l : list A) : order n l = [] -> l = [].
Proof.
  intros Hn. pose proof (order_permutes _ n l) as Hp. rewrite Hn in Hp. symmetry. by apply Permutation_nil_l.
Qed.

(** Messages handed to the transport are never empty. *)
Lemma splitBatch_spec message s (Q : list bytes -> Gossip -> Prop) :
  (forall l n, Forall (fun m => m <> []) l -> Q l (set_uses (fun k => n + k)%nat s)) ->
  wp (splitBatch message) s Q.
Proof.
  intros HQ. unfold splitBatch. wp1.
  assert (Forall (fun m => m <> [])
    (map (fun m => encode_rpc (mkRPC [] [toProtobuf m] None)) (publish_ message))) as Hpub.
  { apply Forall_forall. intros x. rewrite list_elem_of_fmap.
    intros (m & -> & _) He%encode_rpc_nonempty. done. }
  case_decide as Hall.
  { wpn. specialize (HQ _ 0%nat Hpub). by destruct s. }
  wpn. apply (HQ _ 6%nat). constructor; [|done]. intros He%encode_rpc_nonempty. apply Hall.
  injection He as Hs Hctl. apply map_eq_nil, order_nil, map_to_list_empty_iff in Hs.
  destruct (bool_decide _) eqn:Hb; [|done]. reflect_bools. done.
Qed.

(** The coroutine ends: the flag is cleared, the stream possibly dropped. *)
Lemma stop_writer_kept s p peer peer' :
  inv s -> heap s !! p = Some peer -> writing_ peer' = false ->
  peer_id_ peer' = peer_id_ peer -> peer_topics_ peer' = peer_topics_ peer ->
  peer_kind_ peer' = peer_kind_ peer -> dont_send_ peer' = dont_send_ peer ->
  kept s (set_writers (delete p) (set_heap <[p := peer']> s)).
Proof.
  intros [Hc [Hr Hs Hh He]] Hp Hw Hid Htop Hkind Hdont.
  assert (isGossipsub peer = true -> isGossipsub peer' = true) as Hg
    by (unfold isGossipsub, kind_at_least; by rewrite Hkind).
  split; [split|].
  - assert (core_ok config_ (set_heap <[p := peer']> s)) as Hc'.
    { apply (core_peer s p peer); try done. rewrite Hdont. by apply (c_dont_send _ _ Hc p). }
    apply (core_frame _ _ _ Hc'); try done. apply Hc'.
  - split; cbn.
    + intros q pq. rewrite lookup_insert. case_decide; subst.
      * intros [= <-]. rewrite lookup_delete_eq, Hw. split; [done|by intros []].
      * rewrite lookup_delete_ne by done. apply Hr.
    + intros q pq. rewrite lookup_insert. case_decide; subst; [|apply Hs].
      intros [= <-]. by rewrite Hw.
    + intros q w. rewrite lookup_delete_Some, lookup_insert. intros [Hne Hw'].
      rewrite decide_False by done. by eapply Hh.
    + intros q c r. rewrite lookup_delete_Some. intros [_ Hw']. by eapply He.
  - intros q pq Hq. cbn. rewrite lookup_insert. case_decide; subst; [|by exists pq].
    simplify_eq. by exists peer'.
Qed.

Lemma writer_finish_kept s p peer :
  inv s -> heap s !! p = Some peer -> wp (writer_finish p) s (fun _ => kept s).
Proof. intros Hi Hp. unfold writer_finish. wpn. by apply (stop_writer_kept s p peer). Qed.

Lemma writer_write_kept s p peer current rest :
  inv s -> heap s !! p = Some peer -> writing_ peer = true ->
  Forall (fun m => m <> []) (current :: rest) ->
  wp (writer_write p current rest) s (fun _ => kept s).
Proof.
  intros Hi Hp Hw Hne. unfold writer_write. wp1. wp1. pose proof Hi as [Hc [Hr Hs Hh He]].
  destruct (Hs p peer Hp Hw) as [st ->]. pose proof Hne as [Hcur _]%Forall_cons.
  destruct current as [|b current]; [done|]. wpn.
  apply kept_quiet; [done|by constructor|]. split; cbn.
  - intros q pq Hq. rewrite lookup_insert. case_decide; subst; [|by apply Hr].
    simplify_eq. by rewrite Hw.
  - done.
  - intros q w. rewrite lookup_insert. case_decide; subst; [by exists peer|apply Hh].
  - intros q c r. rewrite lookup_insert. case_decide; [by intros [= <- <-]|apply He].
Qed.

Lemma writer_next_kept s p peer :
  inv s -> heap s !! p = Some peer -> writing_ peer = true ->
  wp (writer_next p) s (fun _ => kept s).
Proof.
  intros Hi Hp Hw. unfold writer_next. wp1. wp1.
  destruct (batch_ peer) as [message|]; [|by apply (writer_finish_kept s p peer)].
  wp1. wp1. pose proof (update_batch_kept s p peer None Hi Hp) as Hk1. set (s1 := set_heap _ s) in *.
  wp1. apply splitBatch_spec. intros l n Hl.
  pose proof (kept_uses_n s1 n (proj1 Hk1)) as Hk2. set (s2 := set_uses _ s1) in *.
  assert (heap s2 !! p = Some (set_batch None peer)) as Hp2 by (cbn; by rewrite lookup_insert_eq).
  eapply (wp_mono _ _ (fun _ => kept s2));
    [|intros [] s3 Hk3; exact (kept_trans _ _ _ Hk1 (kept_trans _ _ _ Hk2 Hk3))].
  destruct l as [|current rest].
  - by apply (writer_finish_kept s2 p (set_batch None peer)); [apply Hk2|].
  - by apply (writer_write_kept s2 p (set_batch None peer)); [apply Hk2|..].
Qed.

Lemma writer_resume_kept s p ok : inv s -> wp (writer_resume p ok) s (fun _ => kept s).
Proof.
  intros Hi. unfold writer_resume. wp1. wp1. cbv beta. pose proof Hi as [Hc [Hr Hs Hh He]].
  destruct (writers s !! p) as [w|] eqn:Hwr; [|by wpn].
  destruct (Hh p w Hwr) as [peer Hp].
  assert (writing_ peer = true) as Hw by (apply (Hr p peer Hp); by rewrite Hwr).
  destruct w as [|current rest].
  - wp1. wp1. rewrite Hw, bool_decide_true by by apply (Hs p). by apply (writer_next_kept s p peer).
  - pose proof (He p current rest Hwr) as [_ Hrest]%Forall_cons. destruct ok.
    + destruct rest as [|c rest].
      { wp1. wp1. destruct (Hs p peer Hp Hw) as [st ->]. by apply (writer_next_kept s p peer). }
      by apply (writer_write_kept s p peer).
    + wp1. wp1. set (peer' := set_stream_out None peer).
      unfold writer_finish. wp1. eapply (wp_update_peer p _ _ peer');
        [cbn; by rewrite lookup_insert_eq|]. wpn.
      unfold set_heap. cbn. rewrite insert_insert_eq.
      by apply (stop_writer_kept s p peer (set_writing false peer')).
Qed.

(** ** Connections and streams *)

Lemma connect_known id sc : known sc -> known (connect id sc) /\ params_ (connect id sc) = params_ sc.
Proof. intros Hk. by split; [apply connect_ok|]. Qed.

(** A new object for a peer that has none. *)
Lemma new_peer_core s id out :
  inv s -> peers_ s !! id = None ->
  kept s (set_score_ (connect id) (set_peers_ <[id := next_ptr s]> (set_next_ptr S
    (set_heap <[next_ptr s := Peer_new id out]> s)))).
Proof.
  intros [[H1 H2 H3 H4 H5 H6 H7 H8 H9] Hw] Hid.
  assert (heap s !! next_ptr s = None) as Hfresh by by apply H1.
  assert (forall q pq, heap s !! q = Some pq ->
    <[next_ptr s := Peer_new id out]> (heap s) !! q = Some pq) as Hup.
  { intros q pq Hq. rewrite lookup_insert_ne; [done|]. intros <-. congruence. }
  destruct (connect_known id (score_ s) H7) as [Hk Hpar].
  split; [split|].
  - split; cbn; try done; try (by rewrite Hpar).
    + intros q Hq. rewrite lookup_insert_ne by lia. apply H1. lia.
    + intros id' q. rewrite lookup_insert. case_decide; subst.
      * intros [= <-]. rewrite lookup_insert_eq. by eexists.
      * intros (pq & Hpq & Hi)%H2. exists pq. split; [by apply Hup|done].
    + intros h t Ht. apply (topic_ok_heap _ (heap s)); [by apply H3|].
      intros q pq Hq _. exists pq. split; [by apply Hup|done].
    + intros id' q pq h t. rewrite !lookup_insert. repeat case_decide; subst; try done.
      * intros _ [= <-]. cbn. set_solver.
      * intros [= <-] Hh. naive_solver.
      * intros (pq0 & Hpq0 & _)%H2. congruence.
      * intros Hid' Hq. by apply (H4 id' q pq).
    + intros m mp q Hm Hq. destruct (H5 m mp q Hm Hq) as [pq Hpq]. exists pq. by apply Hup.
    + intros q pq. rewrite lookup_insert. case_decide; subst; [|apply H6]. intros [= <-]. cbn.
      apply IDontWantCache.reachable_inv, IDontWantCache.reach_new.
  - destruct Hw as [Hr Hs Hh He]. split; cbn; [| | |done].
    + intros q pq. rewrite lookup_insert. case_decide; subst; [|apply Hr]. intros [= <-]. cbn.
      split; [done|]. intros [w Hwr]. destruct (Hh _ _ Hwr). congruence.
    + intros q pq. rewrite lookup_insert. case_decide; subst; [by intros [= <-]|apply Hs].
    + intros q w Hq. destruct (Hh q w Hq) as [pq Hpq]. exists pq. by apply Hup.
  - intros q pq Hq. exists pq. split; [by apply Hup|done].
Qed.

Lemma find_or_create_kept s id out :
  inv s -> wp (find_or_create id out) s (fun p s' => kept s s' /\ peers_ s' !! id = Some p).
Proof.
  intros Hi. unfold find_or_create. wp1. wp1. cbv beta.
  destruct (peers_ s !! id) as [p|] eqn:Hp; [by wpn|]. unfold new_peer. wpn.
  split; [by apply new_peer_core|]. cbn. by rewrite lookup_insert_eq.
Qed.

Lemma updatePeerKind_kept s p protocol :
  inv s -> is_Some (heap s !! p) -> is_Some (protocol_versions config_ !! protocol) ->
  wp (updatePeerKind config_ p protocol) s (fun _ => kept s).
Proof.
  intros Hi [peer Hp] [kind Hkind]. unfold updatePeerKind. wp1. wp1.
  destruct (peer_kind_ peer) eqn:Ek; [by wpn|]. wp1. eapply wp_get_or_fail; [done|]. wpn.
  pose proof Hi as [Hc Hw]. apply (kept_peer s p peer); try done.
  - unfold isGossipsub, kind_at_least. by rewrite Ek.
  - by apply (c_dont_send _ _ Hc p peer).
  - by apply (w_stream _ Hw p peer).
Qed.

Lemma live_on_heap s id p : inv s -> peers_ s !! id = Some p -> is_Some (heap s !! p).
Proof. intros [Hc _] Hp. destruct (c_peers _ _ Hc id p Hp) as (peer & -> & _). by eexists. Qed.

(** A flag or the set of inbound streams of a peer. *)
Lemma peer_flags_kept s p peer peer' :
  inv s -> heap s !! p = Some peer ->
  set_is_connecting false (set_streams_in (fun _ => ∅) peer')
  = set_is_connecting false (set_streams_in (fun _ => ∅) peer) ->
  kept s (set_heap <[p := peer']> s).
Proof.
  intros Hi Hp Heq. pose proof Hi as [Hc Hw].
  assert (peer_id_ peer' = peer_id_ peer /\ peer_topics_ peer' = peer_topics_ peer
    /\ peer_kind_ peer' = peer_kind_ peer /\ dont_send_ peer' = dont_send_ peer
    /\ writing_ peer' = writing_ peer /\ stream_out_ peer' = stream_out_ peer)
    as (H1 & H2 & H3 & H4 & H5 & H6) by (destruct peer, peer'; naive_solver).
  apply (kept_peer s p peer); try done.
  - unfold isGossipsub, kind_at_least. by rewrite H3.
  - rewrite H4. by apply (c_dont_send _ _ Hc p).
  - rewrite H6. by apply (w_stream _ Hw p).
Qed.

Lemma handle_kept s id protocol stream :
  inv s -> is_Some (protocol_versions config_ !! protocol) ->
  wp (handle config_ id protocol stream) s (fun _ => kept s).
Proof.
  intros Hi Hpr. unfold handle. wp1. eapply wp_mono; [by apply find_or_create_kept|].
  intros p s1 [Hk1 Hp1]. pose proof (live_on_heap s1 id p (proj1 Hk1) Hp1) as Hh1.
  wp1. eapply wp_mono; [by apply updatePeerKind_kept; [apply Hk1|..]|]. intros [] s2 Hk2.
  destruct (kept_peer_some _ _ p Hk2 Hh1) as [peer Hp2]. wpn.
  apply (kept_trans _ _ _ Hk1), (kept_trans _ _ _ Hk2).
  by apply (peer_flags_kept s2 p peer); [apply Hk2|..].
Qed.

Lemma read_loop_step_kept s p stream frame :
  inv s -> is_Some (heap s !! p) ->
  wp (read_loop_step config_ p stream frame) s (fun _ => kept s).
Proof.
  intros Hi Hp. unfold read_loop_step. wp1.
  eapply (wp_mono _ _ (fun _ => kept s)).
  { destruct frame; [by apply onMessage_kept|by wpn]. }
  intros go s1 Hk1. destruct (kept_peer_some _ _ p Hk1 Hp) as [peer Hp1].
  wpn; [|done]. apply (kept_trans _ _ _ Hk1). by apply (peer_flags_kept s1 p peer); [apply Hk1|..].
Qed.

Lemma on_peer_connected_kept s id out :
  inv s -> wp (on_peer_connected id out) s (fun r s' => kept s s' /\ is_Some (heap s' !! r.1)).
Proof.
  intros Hi. unfold on_peer_connected. wp1. eapply wp_mono; [by apply find_or_create_kept|].
  intros p s1 [Hk1 Hp1]. destruct (live_on_heap s1 id p (proj1 Hk1) Hp1) as [peer Hp].
  wps; [|by split; [done|exists peer]]. split; [|cbn; rewrite lookup_insert_eq; by eexists].
  apply (kept_trans _ _ _ Hk1). by apply (peer_flags_kept s1 p peer); [apply Hk1|..].
Qed.

(** Two writes to the same object. *)
Lemma set_heap_twice p a b s : set_heap <[p := b]> (set_heap <[p := a]> s) = set_heap <[p := b]> s.
Proof. unfold set_heap. cbn. by rewrite insert_insert_eq. Qed.

(** The new stream replaces the old one: at no return is a writer without stream. *)
Lemma replace_stream_kept s p peer stream protocol :
  inv s -> heap s !! p = Some peer -> is_Some (protocol_versions config_ !! protocol) ->
  wp (update_peer p (set_stream_out None) ;; updatePeerKind config_ p protocol ;;
      update_peer p (set_stream_out (Some stream))) s (fun _ => kept s).
Proof.
  intros Hi Hp [kind Hkind]. pose proof Hi as [Hc Hw]. wp1. wp1. unfold updatePeerKind.
  assert (forall k, (isGossipsub peer = true -> isGossipsub (set_peer_kind k peer) = true) ->
    kept s (set_heap <[p := set_stream_out (Some stream) (set_peer_kind k peer)]> s)) as Hkept.
  { intros k Hg. apply (kept_peer s p peer); try done. by apply (c_dont_send _ _ Hc p peer). }
  wp1. wp1. eapply wp_deref; [cbn; by rewrite lookup_insert_eq|]. cbn [peer_kind_ set_stream_out].
  destruct (peer_kind_ peer) eqn:Ek.
  - wp1. eapply wp_update_peer; [cbn; by rewrite lookup_insert_eq|]. rewrite set_heap_twice.
    specialize (Hkept (peer_kind_ peer)). rewrite Ek in Hkept. by destruct peer; cbn in *; subst; apply Hkept.
  - wp1. eapply wp_get_or_fail; [done|].
    eapply wp_update_peer; [cbn; by rewrite lookup_insert_eq|]. rewrite set_heap_twice.
    eapply wp_update_peer; [cbn; by rewrite lookup_insert_eq|]. rewrite set_heap_twice.
    apply Hkept. unfold isGossipsub, kind_at_least. by rewrite Ek.
Qed.

Lemma on_stream_opened_kept s p result :
  inv s -> is_Some (heap s !! p) ->
  (forall stream protocol, result = Some (stream, protocol) ->
     is_Some (protocol_versions config_ !! protocol)) ->
  wp (on_stream_opened config_ p result) s (fun _ => kept s).
Proof.
  intros Hi [peer Hp] Hpr. unfold on_stream_opened. wp1. wp1.
  set (peer1 := set_is_connecting false peer). set (s1 := set_heap _ s).
  assert (kept s s1) as Hk1 by by apply (peer_flags_kept s p peer).
  assert (heap s1 !! p = Some peer1) as Hp1 by (cbn; by rewrite lookup_insert_eq).
  destruct result as [[stream protocol]|]; [|by wpn]. specialize (Hpr _ _ eq_refl).
  pose proof (replace_stream_kept s1 p peer1 stream protocol (proj1 Hk1) Hp1 Hpr) as Hrep.
  assert (forall k : M unit,
    wp (update_peer p (set_stream_out None) ;; updatePeerKind config_ p protocol ;;
        update_peer p (set_stream_out (Some stream))) s1
      (fun _ s' => wp k s' (fun _ => kept s)) ->
    wp (update_peer p (set_stream_out None) ;; updatePeerKind config_ p protocol ;;
        update_peer p (set_stream_out (Some stream)) ;; k) s1 (fun _ => kept s)) as Hassoc.
  { intros k. unfold wp, mbind, M_bind.
    destruct (update_peer p (set_stream_out None) s1) as [[sa []]|]; [|done].
    destruct (updatePeerKind config_ p protocol sa) as [[sb []]|]; [|done].
    by destruct (update_peer p (set_stream_out (Some stream)) sb) as [[sc []]|]. }
  apply Hassoc. eapply wp_mono; [done|]. intros [] s2 Hk2. clear Hassoc Hrep.
  destruct (kept_peer_some _ _ p Hk2) as [peer2 Hp2]; [by exists peer1|].
  pose proof (kept_trans _ _ _ Hk1 Hk2) as Hks2. wp1. wp1. wp1; [|done]. wp1.
  eapply wp_mono; [apply (getBatch_ok p s2 peer2); [apply Hk2|done]|]. intros [] s3 Hqd.
  assert (kept s2 s3) as Hk3 by by apply kept_quiet; [apply Hk2|apply Hqd..].
  wp1. wp1. pose proof (kept_uses s3 (proj1 Hk3)) as Hk4.
  eapply wp_mono; [apply (wp_kept_loop (config_ := config_)); [apply Hk4|]|].
  - intros [h t] s' _ Hk. wp1; [|by apply kept_refl, Hk].
    destruct (kept_peer_some _ _ p (kept_trans _ _ _ Hk3 (kept_trans _ _ _ Hk4 Hk))) as [peer' Hp'];
      [by exists peer2|].
    wpn. apply update_batch_kept; [apply Hk|done].
  - intros [] s5 Hk5. exact (kept_trans _ _ _ Hks2 (kept_trans _ _ _ Hk3 (kept_trans _ _ _ Hk4 Hk5))).
Qed.

(** [topic->peers_.erase(peer); topic->mesh_peers_.erase(peer)]. *)
Definition forget (p : PeerPtr) (t : Topic) : Topic :=
  set_mesh_peers (fun m => m ∖ {[p]}) (set_topic_peers (fun ps => ps ∖ {[p]}) t).

(** The loop of [on_peer_disconnected] changes exactly the topics of the list. *)
Lemma forget_loop_spec s p l (Q : unit -> Gossip -> Prop) :
  NoDup l ->
  (forall T, (forall h, T !! h = if decide (h ∈ l) then forget p <$> topics_ s !! h else topics_ s !! h) ->
     Q tt (set_topics_ (fun _ => T) s)) ->
  wp (forM_ l (fun h =>
        ot ← gets (fun s => topics_ s !! h);
        match ot with None => mret tt | Some _ => update_topic h (forget p) end)) s Q.
Proof.
  revert s Q. induction l as [|h l IH]; intros s Q Hnd HQ; cbn [forM_].
  { wpn. specialize (HQ (topics_ s)). destruct s. apply HQ. intros h.
    by rewrite decide_False by set_solver. }
  apply NoDup_cons in Hnd as [Hh Hnd]. wp1. wp1. wp1. cbv beta.
  destruct (topics_ s !! h) as [t|] eqn:Ht; wp1; cbv beta; apply (IH _ Q Hnd); intros T HT.
  - apply HQ. intros h'. rewrite HT. cbn. rewrite lookup_insert.
    destruct (decide (h = h')) as [<-|Hne].
    + rewrite decide_False by done. rewrite decide_True by set_solver. by rewrite Ht.
    + destruct (decide (h' ∈ l)); [by rewrite decide_True by set_solver|by rewrite decide_False by set_solver].
  - apply HQ. intros h'. rewrite HT.
    destruct (decide (h = h')) as [<-|Hne].
    + rewrite decide_False by done. rewrite decide_True by set_solver. by rewrite Ht.
    + destruct (decide (h' ∈ l)); [by rewrite decide_True by set_solver|by rewrite decide_False by set_solver].
Qed.

Lemma disconnect_known now id sc :
  known sc -> known (disconnect score_order now id sc)
  /\ params_ (disconnect score_order now id sc) = params_ sc.
Proof.
  intros Hk. split; [by apply disconnect_ok|]. unfold disconnect. by repeat case_match.
Qed.

(** After the loop nobody refers to the peer, and the map forgets it. *)
Lemma forget_core s id p peer T :
  inv s -> peers_ s !! id = Some p -> heap s !! p = Some peer ->
  (forall h, T !! h = if decide (h ∈ peer_topics_ peer) then forget p <$> topics_ s !! h else topics_ s !! h) ->
  kept s (set_peers_ (delete id) (set_topics_ (fun _ => T) s))
  /\ forall h t, T !! h = Some t -> p ∉ topic_peers_ t.
Proof.
  intros [[H1 H2 H3 H4 H5 H6 H7 H8 H9] Hw] Hid Hp HT.
  assert (forall h t', T !! h = Some t' -> exists t, topics_ s !! h = Some t
    /\ topic_peers_ t' = topic_peers_ t ∖ {[p]} /\ mesh_peers_ t' = mesh_peers_ t ∖ {[p]}
    /\ topic_hash_ t' = topic_hash_ t /\ history_ t' = history_ t /\ backoff_ t' = backoff_ t) as Hsome.
  { intros h t'. rewrite HT. case_decide as Hh.
    - rewrite fmap_Some. intros (t & Ht & ->). by exists t.
    - intros Ht. exists t'. pose proof (H3 h t' Ht) as Hok.
      assert (p ∉ topic_peers_ t') as Hn.
      { intros Hm. destruct (t_members _ _ _ _ Hok p Hm) as (peer' & ? & ?). by simplify_eq. }
      pose proof (t_mesh _ _ _ _ Hok). split_and!; try done; set_solver. }
  split.
  - split; [|by apply same_heap_grows]. split; [|by apply (writers_ok_frame s)].
    split; try done; cbn.
    + intros id' q. rewrite lookup_delete_Some. intros [_ Hq]. by apply H2.
    + intros h t' Ht'. destruct (Hsome h t' Ht') as (t & Ht & Hpe & Hme & Hha & Hhi & Hba).
      destruct (H3 h t Ht) as [T1 T2 T3 T4 T5 T6].
      split; rewrite ?Hpe, ?Hme, ?Hha, ?Hhi, ?Hba; try done; set_solver.
    + intros id' q pq h t'. rewrite lookup_delete_Some. intros [Hne Hq] Hpq Hh Ht'.
      destruct (Hsome h t' Ht') as (t & Ht & -> & _).
      pose proof (H4 id' q pq h t Hq Hpq Hh Ht) as Hm.
      assert (q <> p); [|set_solver]. intros ->.
      destruct (H2 _ _ Hid) as (? & ? & ?), (H2 _ _ Hq) as (? & ? & ?). naive_solver.
  - intros h t' Ht'. destruct (Hsome h t' Ht') as (t & _ & -> & _). set_solver.
Qed.

Lemma on_peer_disconnected_kept s id :
  inv s -> wp (on_peer_disconnected id) s (fun _ s' => kept s s' /\ peers_ s' !! id = None
    /\ forall p h t, peers_ s !! id = Some p -> topics_ s' !! h = Some t ->
         p ∉ topic_peers_ t /\ p ∉ mesh_peers_ t).
Proof.
  intros Hi. unfold on_peer_disconnected. do 6 (wp1; cbv beta).
  set (s1 := set_score_ _ _).
  assert (kept s s1) as Hk1.
  { apply (kept_trans _ (set_uses S s)); [by apply kept_uses|].
    apply modify_score_kept; [by apply inv_uses|]. apply disconnect_known. }
  change (peers_ s1) with (peers_ s). destruct (peers_ s !! id) as [p|] eqn:Hid; [|by wpn].
  destruct (proj1 Hk1) as [Hc1 Hw1]. destruct (c_peers _ _ Hc1 id p Hid) as (peer & Hp & Hpid).
  wp1. eapply wp_deref; [done|]. wp1. wp1. pose proof (kept_uses s1 (proj1 Hk1)) as Hk2.
  set (s2 := set_uses S s1) in *. wp1. apply forget_loop_spec.
  { rewrite order_permutes. apply NoDup_elements. }
  intros T HT. wpn.
  destruct (forget_core s2 id p peer T) as [Hk3 Hgone]; [apply Hk2|done|done| |].
  { intros h. rewrite HT. apply decide_ext. by rewrite order_permutes, elem_of_elements. }
  split_and!.
  - exact (kept_trans _ _ _ Hk1 (kept_trans _ _ _ Hk2 Hk3)).
  - cbn. by rewrite lookup_delete_eq.
  - intros p' h t [= <-] Ht. split; [by apply (Hgone h)|]. intros Hm. apply (Hgone h t Ht).
    destruct Hk3 as [[Hc3 _] _]. by apply (t_mesh _ _ _ _ (c_topics _ _ Hc3 h t Ht)).
Qed.

Lemma on_decay_kept s : inv s -> wp on_decay s (fun _ => kept s).
Proof.
  intros Hi. unfold on_decay. wpn. apply (kept_trans _ (set_uses S s)); [by apply kept_uses|].
  apply modify_score_kept; [by apply inv_uses|]. intros Hk. by split; [apply onDecay_ok|].
Qed.

Lemma receiveMessage_kept s h :
  inv s -> is_Some (topics_ s !! h) -> wp (receiveMessage h) s (fun _ => kept s).
Proof.
  intros Hi [t Ht]. unfold receiveMessage. wp1. wp1. destruct (receive_channel_ t); [by wpn|].
  wpn. apply (kept_topic s h t); [done|done| |done]. destruct Hi as [Hc _].
  by destruct (c_topics _ _ Hc h t Ht).
Qed.

Lemma Gossip_new_inv seq : inv (Gossip_new config_ seq).
Proof.
  split; [split|split]; cbn; try done; intros *; by rewrite lookup_empty.
Qed.
End Run.

(** ** Events and runs *)

(** What the rest of the program and the network do to a [Gossip]. *)
Inductive event :=
| Subscribe (h : TopicHash)
| Publish (h : TopicHash) (data : bytes)
| PublishTopic (h : TopicHash) (data : bytes)
| Receive (h : TopicHash)
| InboundStream (peer_id : PeerId) (protocol : ProtocolName) (stream : StreamPtr)
| Frame (p : PeerPtr) (stream : StreamPtr) (frame : option bytes)
| Connected (peer_id : PeerId) (out : bool)
| StreamOpened (p : PeerPtr) (result : option (StreamPtr * ProtocolName))
| Disconnected (peer_id : PeerId)
| Heartbeat
| Decay
| WriterResumed (p : PeerPtr) (ok : bool).

Section Events.
Context `{E : Env} (config_ : Config).

Definition dispatch (e : event) : M unit :=
  match e with
  | Subscribe h => subscribe config_ h
  | Publish h data => publish config_ h data
  | PublishTopic h data => publish_topic config_ h data
  | Receive h => receiveMessage h ;; mret tt
  | InboundStream id protocol stream => handle config_ id protocol stream ;; mret tt
  | Frame p stream frame => read_loop_step config_ p stream frame ;; mret tt
  | Connected id out => on_peer_connected id out ;; mret tt
  | StreamOpened p result => on_stream_opened config_ p result
  | Disconnected id => on_peer_disconnected id
  | Heartbeat => heartbeat config_
  | Decay => on_decay
  | WriterResumed p ok => writer_resume p ok
  end.

(** When an event can happen: coroutines hold pointers to existing peers, the
    user holds existing topics, the negotiated protocol is one that was offered.
    Everything that happens from there on is covered. *)
Definition event_can (s : Gossip) (e : event) : Prop :=
  match e with
  | PublishTopic h _ | Receive h => is_Some (topics_ s !! h)
  | InboundStream _ protocol _ => is_Some (protocol_versions config_ !! protocol)
  | Frame p _ _ => is_Some (heap s !! p)
  | StreamOpened p result => is_Some (heap s !! p)
      /\ match result with
         | Some (_, protocol) => is_Some (protocol_versions config_ !! protocol)
         | None => True
         end
  | _ => True
  end.

(** When it cannot fail: a heartbeat on an opportunistic tick can (see
    [opportunistic_heartbeat_fails]). *)
Definition event_ok (s : Gossip) (e : event) : Prop :=
  event_can s e /\
  (e = Heartbeat -> opportunistic_tick (config_ := config_) (u64 (heartbeat_ticks_ s + 1)) = false).

(** The states of runs without undefined behaviour. *)
Inductive reachable : Gossip -> Prop :=
| reachable_new seq : reachable (Gossip_new config_ seq)
| reachable_step s e s' :
    reachable s -> event_can s e -> dispatch e s = Some (s', tt) -> undefined s' = None ->
    reachable s'.

End Events.

Section Reach.
Context `{E : Env} `{!EnvLaws E} {config_ : Config} `{Hcfg : !config_ok config_}.

Lemma wp_discard {A} (m : M A) s (Q : Gossip -> Prop) :
  wp m s (fun _ => Q) -> wp (m ;; mret tt) s (fun _ => Q).
Proof. intros Hm. apply wp_bind. eapply wp_mono; [done|]. by intros a s' HQ; apply wp_ret. Qed.

Lemma dispatch_kept s e :
  inv config_ s -> event_ok config_ s e -> wp (dispatch config_ e) s (fun _ => kept config_ s).
Proof.
  intros Hi [He Htick]. destruct e; cbn [dispatch event_can] in *.
  - by apply subscribe_kept.
  - by apply publish_kept.
  - destruct He as [t Ht]. by apply (publish_topic_kept s h t).
  - by apply wp_discard, receiveMessage_kept.
  - by apply wp_discard, handle_kept.
  - by apply wp_discard, read_loop_step_kept.
  - apply wp_discard. eapply wp_mono; [by apply (on_peer_connected_kept (config_ := config_))|].
    by intros r s' [Hk _].
  - destruct He as [Hp Hr]. apply on_stream_opened_kept; [done|done|]. by intros st pr ->.
  - eapply wp_mono; [by apply (on_peer_disconnected_kept (config_ := config_))|]. by intros [] s' [Hk _].
  - apply heartbeat_kept; [done|by apply Htick].
  - by apply on_decay_kept.
  - by apply writer_resume_kept.
Qed.

Lemma dispatch_keeps s e s' :
  inv config_ s -> event_can config_ s e -> dispatch config_ e s = Some (s', tt) -> kept config_ s s'.
Proof.
  intros Hi He Hd. assert (e = Heartbeat \/ e <> Heartbeat) as [->|Hne]
    by (destruct e; by (left + right)); [by apply heartbeat_keeps|].
  by refine (wp_of_run _ _ _ _ (fun _ => kept config_ s) Hd (dispatch_kept s e Hi _)).
Qed.

Lemma gossip_reachable_inv s : reachable config_ s -> inv config_ s.
Proof.
  induction 1 as [seq|s e s' _ IH He Hd _]; [apply Gossip_new_inv|].
  apply (dispatch_keeps s e s' IH He Hd).
Qed.

Lemma reachable_defined s : reachable config_ s -> undefined s = None.
Proof. by induction 1. Qed.
End Reach.
