(* ===== verification/GossipToy.v ===== *)
(** * Gossipsub: a concrete environment

    An environment in which everything computes, to exercise the model and to
    show that the hypotheses of the theorems can hold. *)

From S2P Require Import Prelude TimeCache Backoff Multihash Score GossipState GossipOps.
From S2P Require Import GossipHandlers GossipInv GossipRun.

Definition toy_topic : TopicHash := [7].

(** Frames of one byte stand for some wire messages. *)
Definition toy_decode (b : bytes) : option pb_RPC :=
  match b with
  | [1] => Some (mkRPC [mkSubOpts (Some true) (Some toy_topic)] [] None)
  | [2] => Some (mkRPC [] [mkPbMessage None (Some [42]) None toy_topic None None] None)
  | [3] => Some (mkRPC [] [] (Some (mkControl [] [] [Some toy_topic] [] [])))
  | [4] => Some (mkRPC [] [] (Some (mkControl [] [] [] [mkPrune (Some toy_topic) None] [])))
  | [5] => Some (mkRPC [] [] (Some (mkControl [mkIHave (Some toy_topic) [[50]; [51]; [52]]] [] [] [] [])))
  | [6] => Some (mkRPC [] [] (Some (mkControl [] [[[42]; [42]; [42]; [42]]] [] [] [])))
  | _ => None
  end.

Definition toy_encode (r : pb_RPC) : bytes :=
  match r with
  | mkRPC [] [] None => []
  | _ => [9]
  end.

#[global] Instance toy_env : Env := {|
  clock n := Z.of_nat n;
  shuffle A n l := l;
  order A n l := l;
  score_order := map_to_list;
  host_id := [0; 1; 9];
  host_keys := Keys.toy_keys;
  providers := Keys.Toy.toy_providers;
  rsa_der := Keys.Toy.toy_der;
  key_protobuf := Keys.Toy.toy_protobuf_small;
  encode_message m := pb_topic m ++ pb_str (pb_data m);
  encode_rpc := toy_encode;
  decode_rpc := toy_decode
|}.

#[global] Instance toy_laws : EnvLaws toy_env.
Proof.
  split; cbn; intros; [lia|done|done|by eexists|].
  by destruct r as [[|] [|] [|]].
Qed.

(** The default configuration, with unsigned messages identified by their data. *)
Definition toy_config : Config :=
  let c := default_config data in {|
    message_id_fn := data;
    validation_mode := ValidationAnonymous;
    message_authenticity := AuthAnonymous;
    protocol_versions := protocol_versions c;
    duplicate_cache_time := duplicate_cache_time c;
    default_mesh_params := default_mesh_params c;
    prune_backoff := prune_backoff c;
    unsubscribe_backoff := unsubscribe_backoff c;
    backoff_slack := backoff_slack c;
    graft_flood_threshold := graft_flood_threshold c;
    heartbeat_interval := heartbeat_interval c;
    fanout_ttl := fanout_ttl c;
    retain_scores := retain_scores c;
    history_length := history_length c;
    history_gossip := history_gossip c;
    gossip_retransimission := gossip_retransimission c;
    gossip_lazy := gossip_lazy c;
    gossip_factor := gossip_factor c;
    max_ihave_length := max_ihave_length c;
    max_ihave_messages := max_ihave_messages c;
    flood_publish := flood_publish c;
    idontwant_message_size_threshold := idontwant_message_size_threshold c;
    idontwant_on_publish := idontwant_on_publish c;
    iwant_followup_time := iwant_followup_time c;
    opportunistic_graft_ticks := opportunistic_graft_ticks c;
    opportunistic_graft_peers := opportunistic_graft_peers c;
    score_config := score_config c |}.

#[global] Instance toy_config_ok : config_ok toy_config.
Proof. split; cbn; lia. Qed.

(** Run events, checking that each can happen. *)
Definition event_okb (c : Config) (s : Gossip) (e : event) : bool :=
  match e with
  | PublishTopic h _ | Receive h => bool_decide (is_Some (topics_ s !! h))
  | InboundStream _ protocol _ => bool_decide (is_Some (protocol_versions c !! protocol))
  | Frame p _ _ => bool_decide (is_Some (heap s !! p))
  | StreamOpened p result => bool_decide (is_Some (heap s !! p))
      && match result with
         | Some (_, protocol) => bool_decide (is_Some (protocol_versions c !! protocol))
         | None => true
         end
  | _ => true
  end.

Fixpoint run_events (c : Config) (es : list event) (s : Gossip) : option Gossip :=
  match es with
  | [] => Some s
  | e :: es =>
      if event_okb c s e then
        match dispatch c e s with
        | Some (s', _) => match undefined s' with None => run_events c es s' | Some _ => None end
        | None => None
        end
      else None
  end.

Lemma event_okb_ok c s e : event_okb c s e = true -> event_can c s e.
Proof.
  destruct e as [| | | | | | |p [[st pr]|]| | | |]; cbn; intros He; reflect_bools; try done.
Qed.

Lemma run_events_reachable c es s s' :
  reachable c s -> run_events c es s = Some s' -> reachable c s'.
Proof.
  revert s. induction es as [|e es IH]; intros s Hr; cbn [run_events].
  { by intros [= <-]. }
  destruct (event_okb c s e) eqn:He; [|done].
  destruct (dispatch c e s) as [[s1 []]|] eqn:Hd; [|done]. destruct (undefined s1) eqn:Hu; [done|]. apply IH.
  by apply (reachable_step c s e s1 Hr (event_okb_ok c s e He)).
Qed.

(** A node subscribed to a topic, with two gossipsub peers in its mesh. *)
Definition peer_a : PeerId := [100].
Definition peer_b : PeerId := [101].

Definition two_peers : list event :=
  [Subscribe toy_topic;
   InboundStream peer_a kProtocolGossipsubv1_1 10; Frame 0 10 (Some [1]);
   InboundStream peer_b kProtocolGossipsubv1_2 11; Frame 1 11 (Some [1])].

Definition state_after (es : list event) : Gossip :=
  default (Gossip_new toy_config 0) (run_events toy_config es (Gossip_new toy_config 0)).

Lemma state_after_reachable es : reachable toy_config (state_after es).
Proof.
  unfold state_after. destruct (run_events _ _ _) as [s|] eqn:Hr; cbn; [|apply reachable_new].
  eapply run_events_reachable; [|done]. apply reachable_new.
Qed.

(** The peer behind a pointer and a topic of a state, for states that have them. *)
Definition peer_at (s : Gossip) (p : PeerPtr) : Peer := default (Peer_new [] false) (heap s !! p).
Definition topic_at (s : Gossip) (h : TopicHash) : Topic :=
  default (mkTopic h false [] [] (TopicBackoff.make 1 1 0) ∅ ∅ 0) (topics_ s !! h).

(** The state after the first heartbeat, in which both peers are in the mesh. *)
Definition meshed : Gossip := state_after (two_peers ++ [Heartbeat]).
