(* ===== verification/GossipUndefined.v ===== *)
(** * Gossipsub: undefined behaviour

    In which events the handlers do what the language leaves undefined, and why: a signature
    or a key that is shorter than what the crypto provider copies, scores that cannot be
    sorted because one of them is not a number, a gossip factor whose product with a number
    of peers is not in the range of [size_t]. *)

From Stdlib Require Import SpecFloat.
From S2P Require Import Prelude TimeCache Backoff Multihash Score GossipState GossipOps GossipHandlers GossipFrame.
From S2P Require Import GossipInv GossipRun GossipToy.

(** ** Comparing doubles *)

#[export] Instance double_eq_dec : EqDecision double.
Proof. solve_decision. Defined.

(** Numbers in the order of [<], as a triple. *)
Definition rank (d : double) : Z * Z * Z :=
  match d with
  | S754_infinity true => (-2, 0, 0)
  | S754_finite true m e => (-1, - e, - Zpos m)
  | S754_zero _ | S754_nan => (0, 0, 0)
  | S754_finite false m e => (1, e, Zpos m)
  | S754_infinity false => (2, 0, 0)
  end.
Definition lex (a b : Z * Z * Z) : bool :=
  (a.1.1 <? b.1.1) || (a.1.1 =? b.1.1) && ((a.1.2 <? b.1.2) || (a.1.2 =? b.1.2) && (a.2 <? b.2)).

Lemma dltb_rank x y : x <> S754_nan -> y <> S754_nan -> dltb x y = lex (rank x) (rank y).
Proof.
  intros Hx Hy. unfold dltb, SFltb, lex.
  destruct x as [|[]| |[] m e], y as [|[]| |[] m' e']; try done; cbn [rank fst snd SFcompare]; try (symmetry; lia).
  - destruct (Z.compare_spec e e'); subst; [|symmetry; lia..].
    change (Pos.compare_cont Eq m m') with (m ?= m')%positive. destruct (Pos.compare_spec m m'); cbn [CompOpp]; symmetry; lia.
  - destruct (Z.compare_spec e e'); subst; [|symmetry; lia..].
    change (Pos.compare_cont Eq m m') with (m ?= m')%positive. destruct (Pos.compare_spec m m'); symmetry; lia.
Qed.

(** Without NaN the order is a strict weak one. *)
Lemma lex_weak a b c :
  negb (lex a a) && (implb (lex a b && lex b c) (lex a c) && implb (lex a c) (lex a b || lex b c)) = true.
Proof. unfold lex. lia. Qed.
Lemma dltb_strict_weak l : S754_nan ∉ l -> strict_weak dltb l = true /\ strict_weak (fun a b => dltb b a) l = true.
Proof.
  intros Hl. assert (forall z, z ∈ l -> z <> S754_nan) as Hn by (intros z Hz ->; done).
  split; apply forallb_forall; intros x Hx%list_elem_of_In; rewrite (dltb_rank x x) by auto; apply andb_true_iff; (split;
    [pose proof (lex_weak (rank x) (rank x) (rank x)) as H; by apply andb_true_iff in H as [? _]|]);
    apply forallb_forall; intros y Hy%list_elem_of_In; apply forallb_forall; intros z Hz%list_elem_of_In; rewrite !dltb_rank by auto.
  - pose proof (lex_weak (rank x) (rank y) (rank z)) as H. by apply andb_true_iff in H as [_ ?].
  - pose proof (lex_weak (rank z) (rank y) (rank x)) as H. apply andb_true_iff in H as [_ H].
    by destruct (lex (rank z) (rank y)), (lex (rank y) (rank x)), (lex (rank z) (rank x)).
Qed.

(** ** When undefined behaviour happens *)

(** Undefined behaviour that is new has a cause in [P]. *)
Definition caused (P : ub -> Prop) (s s' : Gossip) : Prop :=
  undefined s' = undefined s \/ exists u, undefined s' = Some u /\ P u.
#[export] Instance caused_frame P : StateFrame (caused P).
Proof.
  split; try by left. split; [by left|]. intros a b c [H1|(u & H1 & Hu)] [H2|H2]; [left; congruence|by right|right..]; [|done].
  exists u. split; [congruence|done].
Qed.

Section Causes.
Context `{E : Env} (config_ : Config).

(** The crypto provider copies 64 bytes of the signature of an Ed25519 key, whatever its
    length, and 91 bytes of an ECDSA key, whose length is not validated. *)
Definition overruns (pb : pb_Message) : Prop :=
  validation_mode config_ = ValidationStrict
  /\ exists id key, fromBytes (pb_str (pb_from pb)) = Some (success id) /\ length (pb_str (pb_seqno pb)) = 8%nat
    /\ Keys.Marshaller.peer_publicKey id = Some key
    /\ (Keys.type key = Keys.Key.Ed25519 /\ (length (pb_str (pb_signature pb)) < 64)%nat
        \/ Keys.type key = Keys.Key.ECDSA /\ (length (Keys.data key) < 91)%nat).

(** Why an event can have undefined behaviour. *)
Definition cause (e : event) (u : ub) : Prop :=
  match u with
  | Overrun pb => exists p stream encoded rpc, e = Frame p stream (Some encoded) /\ decode_rpc encoded = Some rpc
      /\ pb ∈ r_publish rpc /\ overruns pb
  | Unordered scores => e = Heartbeat /\ S754_nan ∈ scores
      /\ exists sc ids, scores = map (score score_order sc) ids
  | OutOfRange count => e = Heartbeat /\ in_range count = false
      /\ exists n, count = dmul (gossip_factor config_) (dz (Z.of_nat n))
  end.

Lemma verify_overrun id key m sig : Keys.Marshaller.peer_publicKey id = Some key ->
  Keys.Provider.verify m sig key = None
  <-> Keys.type key = Keys.Key.Ed25519 /\ (length sig < 64)%nat
      \/ Keys.type key = Keys.Key.ECDSA /\ (length (Keys.data key) < 91)%nat.
Proof.
  unfold Keys.Marshaller.peer_publicKey. destruct (Keys.Marshaller.unmarshalPublicKey _) as [k|] eqn:E1; [|done].
  intros [= ->]. by eapply Keys.verify_bounds.
Qed.

(** Validation reads beyond the end exactly for such a message. *)
Lemma validate_publish_exact pb s s' r : validate_publish config_ pb s = Some (s', r) ->
  overruns pb /\ s' = set_undefined (fun o => Some (default (Overrun pb) o)) s \/ s' = s /\ ~ overruns pb.
Proof.
  unfold validate_publish, overruns. destruct (validation_mode config_) eqn:Em; last first.
  { intros Hr. right. assert (s' = s) as -> by (repeat case_decide; by injection Hr). split; [done|naive_solver]. }
  unfold mbind, M_bind. destruct (fromBytes _) as [[id|]|] eqn:Ef; cbn; [| |done]; [|intros [= <- _]; right; naive_solver].
  case_decide as Hl; [intros [= <- _]; right; naive_solver|].
  destruct (Keys.Marshaller.peer_publicKey id) as [key|] eqn:Ek; [|intros [= <- _]; right; naive_solver].
  pose proof (verify_overrun id key (getSignable pb) (pb_str (pb_signature pb)) Ek) as Hv.
  destruct (Keys.Provider.verify _ _ _) as [r'|].
  - intros Hr. right. assert (s' = s) as -> by (destruct r' as [[]|]; by injection Hr). split; [done|].
    intros (_ & id' & key' & [= <-] & _ & Hk & Hb). assert (key' = key) as -> by congruence. by apply Hv in Hb.
  - intros [= <- _]. left. split; [|done]. split; [done|]. exists id, key. split_and!; [done|lia|done|by apply Hv].
Qed.
End Causes.

(** ** The causes of each event *)
Section Dispatch.
Context `{E : Env} (config_ : Config).

Lemma checked_caused P ok u : (ok = false -> P u) -> within (caused P) (checked ok u).
Proof.
  intros Hu s s' [] . unfold checked. destruct ok; [by intros [= <-]; left|]. intros [= <-].
  destruct (undefined s) as [v|] eqn:Ev; [left|right; exists u]; cbn; by rewrite Ev; auto.
Qed.

(** Sorting by the scores of peers. *)
Lemma sort_caused {A} P (key : A -> double) (lt : double -> double -> bool) l :
  (lt = dltb \/ lt = fun a b => dltb b a) -> (S754_nan ∈ map key l -> P (Unordered (map key l))) -> within (caused P) (sort_ key lt l).
Proof.
  intros Hlt HP. unfold sort_. frames. apply checked_caused. intros Hs. apply HP.
  destruct (decide (S754_nan ∈ map key l)) as [|Hn]; [done|]. destruct (dltb_strict_weak _ Hn) as [H1 H2]. destruct Hlt; congruence.
Qed.

Lemma broadcast_caused P h source id m : within (caused P) (broadcast config_ h source id m).
Proof. unfold broadcast, send_to_peers, publish_fanout, add_peer. frames; by left. Qed.
Lemma getOrCreateTopic_caused P h b : within (caused P) (getOrCreateTopic config_ h b).
Proof. unfold getOrCreateTopic, create_topic, upgrade_topic. frames; by left. Qed.
Lemma publish_topic_caused P h d : within (caused P) (publish_topic config_ h d).
Proof. unfold publish_topic, make_message, duplicate_insert. frames; by left. Qed.
Lemma remove_peer_caused P h p b u : within (caused P) (remove_peer_from_mesh config_ h p b u).
Proof. unfold remove_peer_from_mesh, update_backoff. frames. Qed.

Lemma validate_publish_caused pb :
  within (caused (fun u => u = Overrun pb /\ overruns config_ pb)) (validate_publish config_ pb).
Proof.
  intros s s' r Hr. destruct (validate_publish_exact config_ pb s s' r Hr) as [[Ho ->]|[-> _]]; [|by left].
  destruct (undefined s) as [v|] eqn:Ev; [left|right; exists (Overrun pb)]; cbn; by rewrite Ev.
Qed.
Lemma handle_publish_caused p pb : within (caused (fun u => u = Overrun pb /\ overruns config_ pb)) (handle_publish config_ p pb).
Proof.
  unfold handle_publish, duplicate_insert. apply frame_bind; [apply validate_publish_caused|intros v]. frames; by left.
Qed.

Lemma caused_mono {A} (P Q : ub -> Prop) (m : M A) : (forall u, P u -> Q u) -> within (caused P) m -> within (caused Q) m.
Proof. intros HPQ Hm s s' a Hs. destruct (Hm s s' a Hs) as [?|(u & ? & ?)]; [by left|right; eauto]. Qed.

Lemma handle_rpc_caused P p rpc :
  (forall pb, pb ∈ r_publish rpc -> overruns config_ pb -> P (Overrun pb)) -> within (caused P) (handle_rpc config_ p rpc).
Proof.
  intros HP. unfold handle_rpc, and_then.
  apply frame_bind; [apply frame_deref|intros peer]. apply frame_bind; [apply frame_below|intros []]; [apply frame_ret|].
  apply frame_bind; [|intros _; apply frame_bind; [|intros _]].
  - apply frame_forM. intros pb _. unfold handle_subscription, remove_peer_from_mesh, update_backoff. frames.
  - apply frame_forM. intros pb Hpb. eapply caused_mono; [|apply handle_publish_caused]. intros u [-> Ho]. by apply HP.
  - unfold handle_graft, graft_accept, handle_prune, remove_peer_from_mesh, update_backoff, handle_ihave, handle_iwant, serve_iwant,
      handle_idontwant. frames; by left.
Qed.

(** The heartbeat. *)
Lemma prune_surplus_caused P h :
  (forall l sc ids, S754_nan ∈ l -> l = map (score score_order sc) ids -> P (Unordered l)) -> within (caused P) (prune_surplus config_ h).
Proof.
  intros HP. unfold prune_surplus, meshOutCount.
  assert (forall n m o l, within (caused P) (prune_excess config_ h n m o l)) as Hx.
  { intros n m o l. revert o. induction l as [|p l IH]; intros o; cbn [prune_excess]; frames. }
  apply frame_bind; [apply frame_get_topic|intros t]. apply frame_bind; [apply frame_order|intros l1]. apply frame_bind; [apply frame_shuffle|intros l2].
  apply frame_bind; [apply frame_deref_all|intros peers]. apply frame_bind; [apply frame_gets|intros sc]. cbv zeta.
  apply frame_bind; [|intros sorted; frames].
  apply sort_caused; [by right|]. intros Hn. eapply HP; [done|]. by rewrite <- (map_map (fun q => peer_id_ q.2)).
Qed.
Lemma graft_opportunistic_caused P h :
  (forall l sc ids, S754_nan ∈ l -> l = map (score score_order sc) ids -> P (Unordered l)) -> within (caused P) (graft_opportunistic config_ h).
Proof.
  intros HP. unfold graft_opportunistic. apply frame_bind; [apply frame_gets|intros ticks]. apply frame_bind; [apply frame_get_topic|intros t].
  case_decide; [apply frame_fail|]. apply frame_when. apply frame_bind; [apply frame_order|intros l1].
  apply frame_bind; [apply frame_deref_all|intros peers]. apply frame_bind; [apply frame_gets|intros sc].
  apply frame_bind; [|intros sorted; frames].
  apply sort_caused; [by left|]. rewrite map_id. intros Hn. eapply HP; [done|]. by rewrite <- (map_map peer_id_).
Qed.
Lemma emit_gossip_caused P :
  (forall n, let count := dmul (gossip_factor config_) (dz (Z.of_nat n)) in in_range count = false -> P (OutOfRange count)) ->
  within (caused P) (emit_gossip config_).
Proof.
  intros HP. assert (forall n, within (caused P) (gossip_count config_ n)) as Hg.
  { intros n. unfold gossip_count. apply frame_bind; [|intros _; apply frame_ret]. apply checked_caused, HP. }
  unfold emit_gossip, for_topics, topic_hashes, emit_gossip_topic. frames.
Qed.
Lemma heartbeat_caused P :
  (forall l sc ids, S754_nan ∈ l -> l = map (score score_order sc) ids -> P (Unordered l)) ->
  (forall n, let count := dmul (gossip_factor config_) (dz (Z.of_nat n)) in in_range count = false -> P (OutOfRange count)) ->
  within (caused P) (heartbeat config_).
Proof.
  intros HP HQ. pose proof (emit_gossip_caused P HQ) as He.
  assert (forall h, within (caused P) (maintain_topic config_ h)) as Hm.
  { intros h. pose proof (prune_surplus_caused P h HP) as H1. pose proof (graft_opportunistic_caused P h HP) as H2.
    unfold maintain_topic, maintain_mesh, maintain_fanout, prune_negative, graft_missing, graft_outbound, meshOutCount. frames. }
  unfold heartbeat, apply_iwant_penalties, drop_stale_topics, shift_history.
  unfold for_topics, topic_hashes. frames; by left.
Qed.

Lemma dispatch_caused e : within (caused (cause config_ e)) (dispatch config_ e).
Proof.
  destruct e; cbn [dispatch].
  - apply getOrCreateTopic_caused.
  - unfold publish. apply frame_bind; [apply getOrCreateTopic_caused|intros _; apply publish_topic_caused].
  - apply publish_topic_caused.
  - unfold receiveMessage. frames.
  - unfold handle, find_or_create, new_peer, updatePeerKind. frames; by left.
  - unfold read_loop_step. destruct frame as [encoded|]; [|frames]. unfold onMessage. destruct (decode_rpc encoded) as [rpc|] eqn:Ed; [|frames].
    apply frame_bind; [|intros _; apply frame_ret]. apply frame_bind; [|intros go; frames].
    apply handle_rpc_caused. intros pb Hpb Ho. by exists p, stream, encoded, rpc.
  - unfold on_peer_connected, find_or_create, new_peer. frames; by left.
  - unfold on_stream_opened, updatePeerKind, getBatch, checkWrite. frames.
  - unfold on_peer_disconnected. frames; by left.
  - apply heartbeat_caused; [intros l sc ids Hn Hl|intros n count Hr]; (split; [done|]); eauto.
  - unfold on_decay. frames.
  - unfold writer_resume, writer_next, writer_write, writer_finish, splitBatch. frames.
Qed.

(** ** A peer can cause it *)

Lemma stays_undefined {A} P (m : M A) s s' a : within (caused P) m -> m s = Some (s', a) -> undefined s <> None -> undefined s' <> None.
Proof. intros Hm Hs Hu. destruct (Hm s s' a Hs) as [-> |(u & -> & _)]; done. Qed.
Lemma bind_some {A B} (m : M A) (k : A -> M B) s r : (m ≫= k) s = Some r -> exists s1 a, m s = Some (s1, a) /\ k a s1 = Some r.
Proof. unfold mbind, M_bind. destruct (m s) as [[s1 a]|]; [by eexists _, _|done]. Qed.

Lemma publications_undefined p l pb s s' :
  forM_ l (handle_publish config_ p) s = Some (s', tt) -> pb ∈ l -> overruns config_ pb -> undefined s' <> None.
Proof.
  revert s. induction l as [|x l IH]; intros s; cbn [forM_]; [intros _ ?%not_elem_of_nil; done|].
  intros (s1 & [] & H1 & H2)%bind_some [<- |Hin]%elem_of_cons Ho; [|by apply (IH s1)].
  assert (within (caused (fun _ => True)) (forM_ l (handle_publish config_ p))) as Hrest.
  { apply frame_forM. intros y _. eapply caused_mono; [|apply handle_publish_caused]. done. }
  eapply stays_undefined; [exact Hrest|exact H2|]. unfold handle_publish in H1. apply bind_some in H1 as (s2 & v & Hv & H1).
  destruct (validate_publish_exact config_ pb s s2 v Hv) as [[_ ->]|[_ ?]]; [|done].
  match type of H1 with ?k _ = _ =>
    assert (within (caused (fun _ => True)) k) as Hk by (unfold duplicate_insert; frames; by left) end.
  eapply stays_undefined; [exact Hk|exact H1|done].
Qed.

(** A connected peer makes the node read out of bounds with one frame, unless its score is
    below the graylist threshold: a PUBLISH that names an Ed25519 author and has a signature
    of fewer than 64 bytes is enough. *)
Theorem short_signature_undefined s s' p peer stream encoded rpc pb :
  heap s !! p = Some peer -> below score_order (score_ s) (peer_id_ peer) (graylist_threshold (score_config config_)) = false ->
  decode_rpc encoded = Some rpc -> pb ∈ r_publish rpc -> overruns config_ pb ->
  dispatch config_ (Frame p stream (Some encoded)) s = Some (s', tt) -> undefined s' <> None.
Proof.
  intros Hp Hb Hd Hin Ho. cbn [dispatch]. unfold read_loop_step, onMessage. rewrite Hd.
  intros (s1 & go & Hr & [= <-])%bind_some. apply bind_some in Hr as (s2 & go2 & Hr & Hend).
  match type of Hend with ?k _ = _ => assert (within (caused (fun _ => True)) k) as Hk by frames end.
  eapply stays_undefined; [exact Hk|exact Hend|]. clear Hk Hend.
  unfold handle_rpc in Hr. apply bind_some in Hr as (s3 & peer' & Hpe & Hr). unfold deref in Hpe. rewrite Hp in Hpe. injection Hpe as <- <-.
  apply bind_some in Hr as (s3 & g & [= <- <-] & Hr). rewrite Hb in Hr.
  apply bind_some in Hr as (s4 & [] & _ & Hr). apply bind_some in Hr as (s5 & [] & Hpub & Hr).
  match type of Hr with ?k _ = _ => assert (within (caused (fun _ => True)) k) as Hk end.
  { unfold and_then, handle_graft, graft_accept, handle_prune, remove_peer_from_mesh, update_backoff, handle_ihave, handle_iwant, serve_iwant,
      handle_idontwant. frames; by left. }
  eapply stays_undefined; [exact Hk|exact Hr|]. by eapply publications_undefined.
Qed.
End Dispatch.

(** ** A concrete frame *)

(** The configuration of signed messages, and a frame with a message whose author is the
    node itself and whose signature has three bytes. *)
Definition strict_config : Config := default_config data.
Definition short_signed : pb_Message :=
  mkPbMessage (Some ([0; 36; 8; 1; 18; 32] ++ replicate 32 1)) (Some [42]) (Some (replicate 8 0)) toy_topic (Some [1; 2; 3]) None.
Lemma short_signed_overruns : overruns strict_config short_signed.
Proof.
  split; [reflexivity|]. eexists _, (Keys.mkKey Keys.Key.Ed25519 (replicate 32 1)).
  split_and!; [vm_compute; reflexivity|reflexivity|vm_compute; reflexivity|]. left. split; [reflexivity|cbn; lia].
Qed.
Lemma strict_validation_undefined :
  match validate_publish strict_config short_signed (Gossip_new strict_config 0) with
  | Some (s, None) => undefined s = Some (Overrun short_signed)
  | _ => False
  end.
Proof. vm_compute. reflexivity. Qed.

(** A score that is not a number next to two different ones: no strict weak order. *)
Lemma nan_scores_unordered :
  strict_weak dltb [S754_nan; dz 1; dz 2] = false /\ strict_weak (fun l r => dltb r l) [S754_nan; dz 1; dz 2] = false.
Proof. split; vm_compute; reflexivity. Qed.
