(* ===== verification/GossipIds.v ===== *)
(** * Gossipsub: the default identifier of messages

    [defaultMessageIdFn] of [src/protocol/gossip/gossip.cpp], which the configuration has
    unless it is given another one: the id of the author in base 58 followed by the sequence
    number in decimal.  Duplicates are recognised by it, so two messages must not share it. *)

From S2P Require Import Prelude TimeCache Backoff Multihash Base58 ByteUtil Score GossipState GossipOps GossipHandlers GossipFrame.
From S2P Require Import GossipInv GossipRun GossipToy.

(** Ids of peers are in their binary form; [PeerId::fromBytes] gives this one. *)
Definition empty_from : PeerId := [0; 1; 0].
Definition defaultMessageIdFn (message : Message) : MessageId :=
  encodeBase58 (default empty_from (from message)) ++ to_string (default 0 (seqno message)).

(** ** The texts of ids *)

(** The leading digit and the number of the others, from a bound on the number. *)
Lemma leading_digit ds d n :
  digits 58 ds -> no_leading_zero ds -> 0 < d < 58 ->
  d * 58 ^ Z.of_nat n <= be_value 58 ds < (d + 1) * 58 ^ Z.of_nat n ->
  exists rest, ds = d :: rest /\ length rest = n.
Proof.
  intros Hd Hn Hr Hv. assert (0 < 58 ^ Z.of_nat n) as Hp by (apply Z.pow_pos_nonneg; lia).
  destruct ds as [|x rest]; [unfold be_value in Hv; cbn in Hv; nia|].
  pose proof (be_value_head 58 ltac:(lia) x rest Hd Hn) as Hlow.
  pose proof Hd as Hd'. apply Forall_cons in Hd' as [Hx Hrest].
  pose proof (be_value_bound 58 ltac:(lia) (x :: rest) Hd) as Hup. cbn [length] in Hup.
  assert (length rest = n) as Hlen.
  { destruct (Nat.lt_trichotomy (length rest) n) as [L|[E|L]]; [|done|].
    - assert (58 ^ Z.of_nat (S (length rest)) <= 58 ^ Z.of_nat n) by (apply Z.pow_le_mono_r; lia). nia.
    - assert (58 ^ Z.of_nat (S n) <= 58 ^ Z.of_nat (length rest)) by (apply Z.pow_le_mono_r; lia).
      rewrite Nat2Z.inj_succ, Z.pow_succ_r in H by lia. nia. }
  exists rest. split; [|done]. f_equal. unfold be_value in Hv. cbn [foldl] in Hv. rewrite (be_value_cons_acc 58) in Hv.
  pose proof (be_value_bound 58 ltac:(lia) rest Hrest) as Hb. rewrite Hlen in *. cbn in Hv. nia.
Qed.

(** Ids that start with certain bytes: the zeros in front, then a number between bounds. *)
Lemma id_text prefix key z d n :
  bytes_ok prefix -> bytes_ok key -> 0 < d < 58 ->
  count_while (fun b => b =? 0) (prefix ++ key) = z ->
  skip_while (fun b => b =? 0) (prefix ++ key) = drop z prefix ++ key ->
  let p := be_value 256 (drop z prefix) in
  d * 58 ^ Z.of_nat n <= p * 256 ^ Z.of_nat (length key) ->
  (p + 1) * 256 ^ Z.of_nat (length key) <= (d + 1) * 58 ^ Z.of_nat n ->
  exists rest, encodeBase58 (prefix ++ key) = replicate z 49 ++ char58 d :: rest /\ length rest = n.
Proof.
  intros Hp Hk Hd Hz Hs p Hlow Hup.
  destruct (encodeBase58_spec (prefix ++ key)) as (ds & -> & Hds & Hn & Hv); [by apply Forall_app|].
  rewrite Hz. rewrite Hs in Hv. unfold be_value at 2 in Hv. rewrite foldl_app in Hv. fold (be_value 256 (drop z prefix)) in Hv. fold p in Hv.
  rewrite (be_value_cons_acc 256) in Hv. pose proof (be_value_bound 256 ltac:(lia) key Hk) as Hb.
  destruct (leading_digit ds d n Hds Hn Hd) as (rest & -> & Hl); [rewrite Hv; lia|].
  exists (map char58 rest). split; [done|]. by rewrite length_map.
Qed.

(** The ids that a host can have, as [PeerId::fromPublicKey] makes them: an Ed25519 or
    Secp256k1 key in its protobuf form, inlined, or the SHA-256 of a longer one; or no
    author. *)
Inductive author : option PeerId -> Prop :=
| Anonymous : author None
| OfEd25519 key : bytes_ok key -> length key = 32%nat -> author (Some ([0; 36; 8; 1; 18; 32] ++ key))
| OfSecp256k1 key : bytes_ok key -> length key = 33%nat -> author (Some ([0; 37; 8; 2; 18; 33] ++ key))
| OfSha256 digest : bytes_ok digest -> length digest = 32%nat -> author (Some ([18; 32] ++ digest)).

(** Each kind has texts of one length, and its own first characters. *)
Definition shape (text : bytes) (z : nat) (d : Z) (n : nat) : Prop :=
  exists rest, text = replicate z 49 ++ char58 d :: rest /\ length rest = n.
Definition kinds : list (nat * Z * nat) := 
  [(1%nat, 4, 1%nat); (1%nat, 1, 50%nat); (1%nat, 5, 51%nat); (0%nat, 23, 45%nat)].
Lemma author_text o : author o ->
  exists z d n, (z, d, n) ∈ kinds
    /\ shape (encodeBase58 (default empty_from o)) z d n.
Proof.
  assert (forall x y, (x <=? y) = true -> x <= y) as Hle by (intros x y; apply Z.leb_le).
  intros [|key Hk Hl|key Hk Hl|key Hk Hl]; cbn [default].
  - exists 1%nat, 4, 1%nat. split; [unfold kinds; set_solver|]. by exists [82].
  - exists 1%nat, 1, 50%nat. split; [unfold kinds; set_solver|].
    apply (id_text [0; 36; 8; 1; 18; 32] key); try done; try lia; [by repeat (constructor; [by vm_compute|])|..]; rewrite Hl; apply Hle; vm_compute; reflexivity.
  - exists 1%nat, 5, 51%nat. split; [unfold kinds; set_solver|].
    apply (id_text [0; 37; 8; 2; 18; 33] key); try done; try lia; [by repeat (constructor; [by vm_compute|])|..]; rewrite Hl; apply Hle; vm_compute; reflexivity.
  - exists 0%nat, 23, 45%nat. split; [unfold kinds; set_solver|].
    apply (id_text [18; 32] key); try done; try lia; [by repeat (constructor; [by vm_compute|])|..]; rewrite Hl; apply Hle; vm_compute; reflexivity.
Qed.

Lemma kind_distinct z1 d1 n1 z2 d2 n2 t1 t2 s1 s2 :
  (z1, d1, n1) ∈ kinds -> (z2, d2, n2) ∈ kinds -> shape t1 z1 d1 n1 -> shape t2 z2 d2 n2 -> t1 ++ s1 = t2 ++ s2 ->
  length t1 = length t2.
Proof.
  intros K1 K2 (r1 & -> & L1) (r2 & -> & L2) E.
  assert ((z1, d1, n1) = (z2, d2, n2)) as [= -> -> ->].
  { clear L1 L2. unfold kinds in K1, K2. rewrite !elem_of_cons, elem_of_nil in K1, K2.
    destruct K1 as [[= -> -> ->]|[[= -> -> ->]|[[= -> -> ->]|[[= -> -> ->]|[]]]]],
             K2 as [[= -> -> ->]|[[= -> -> ->]|[[= -> -> ->]|[[= -> -> ->]|[]]]]]; try done; exfalso;
      injection E; intros; discriminate. }
  rewrite !length_app, !length_replicate. cbn [length]. congruence.
Qed.

Lemma author_bytes o : author o -> bytes_ok (default empty_from o).
Proof.
  intros [| | |]; cbn [default]; try (apply Forall_app; split; [|done]); unfold empty_from; by repeat (constructor; [by vm_compute|]).
Qed.

Lemma to_string_inj a b : is_u64 a -> is_u64 b -> to_string a = to_string b -> a = b.
Proof.
  unfold is_u64. intros Ha Hb E. destruct (to_string_spec a ltac:(lia)) as (_ & _ & <-). destruct (to_string_spec b ltac:(lia)) as (_ & _ & <-). by rewrite E.
Qed.

(** The default identifier identifies.  Two messages with the same default id have the same
    author and the same sequence number, whichever of the usual kinds of ids their authors
    have: the text of an id tells where it ends. *)
Theorem default_ids_identify m1 m2 :
  author (from m1) -> author (from m2) -> is_u64 (default 0 (seqno m1)) -> is_u64 (default 0 (seqno m2)) ->
  defaultMessageIdFn m1 = defaultMessageIdFn m2 ->
  from m1 = from m2 /\ default 0 (seqno m1) = default 0 (seqno m2).
Proof.
  intros A1 A2 U1 U2. unfold defaultMessageIdFn. intros E.
  destruct (author_text _ A1) as (z1 & d1 & n1 & K1 & S1). destruct (author_text _ A2) as (z2 & d2 & n2 & K2 & S2).
  pose proof (kind_distinct _ _ _ _ _ _ _ _ _ _ K1 K2 S1 S2 E) as Hl. apply app_inj_1 in E as [Ee Es]; [|done].
  split; [|by apply to_string_inj].
  pose proof (base58_decode_encode _ (author_bytes _ A1)) as D1. rewrite Ee, (base58_decode_encode _ (author_bytes _ A2)) in D1.
  injection D1 as D1. destruct A1, A2; cbn [default] in D1; unfold empty_from in D1; cbn in D1; try congruence.
Qed.

(** ** What does not touch the cache of duplicates *)

Definition same_cache (s s' : Gossip) : Prop := duplicate_cache_ s' = duplicate_cache_ s.
#[export] Instance same_cache_frame : StateFrame same_cache.
Proof. split; try done. split; [done|]. unfold same_cache. intros a b c. congruence. Qed.

Section Publication.
Context `{Env} (config_ : Config).

Lemma broadcast_cache h source id m : within same_cache (broadcast config_ h source id m).
Proof. unfold broadcast, send_to_peers, publish_fanout, add_peer. frames; done. Qed.

Lemma insert_known (id : MessageId) now now' c : DuplicateCache.contains (DuplicateCache.insert id now now' c).1 id = true.
Proof.
  unfold DuplicateCache.insert, DuplicateCache.contains. destruct (TimeCache.contains (TimeCache.clearExpired now c) id) eqn:E; [exact E|].
  cbn [fst]. unfold TimeCache.getOrDefault. destruct (TimeCache.map_ (TimeCache.clearExpired now' (TimeCache.clearExpired now c)) !! id) eqn:E2;
    unfold TimeCache.contains; apply bool_decide_eq_true; cbn; [by rewrite E2|]. by rewrite lookup_insert_eq.
Qed.
Lemma duplicate_insert_known id s s' b :
  duplicate_insert id s = Some (s', b) -> DuplicateCache.contains (duplicate_cache_ s') id = true.
Proof. unfold duplicate_insert, now_, gets, modify, mbind, M_bind, mret, M_ret. intros [= <- _]. apply insert_known. Qed.

(** What [publish] does depends on the id of the message it makes. *)
Lemma publish_known h data s s1 m t :
  topics_ s !! h = Some t -> make_message config_ (topic_hash_ t) data s = Some (s1, m) ->
  DuplicateCache.contains (duplicate_cache_ s1) (message_id_fn config_ m) = true ->
  publish_topic config_ h data s = Some (s1, tt).
Proof.
  intros Ht Hm Hk. unfold publish_topic, get_topic, gets, mbind, M_bind. by rewrite Ht, Hm, Hk.
Qed.

(** The configuration of anonymous messages with the default identifier: after one message
    was published, on any topic, no other message ever leaves the node by [publish], whatever
    its topic and its data; the call changes nothing. *)
Theorem anonymous_messages_collide h1 h2 data1 data2 s s1 t :
  message_authenticity config_ = AuthAnonymous -> message_id_fn config_ = defaultMessageIdFn ->
  publish_topic config_ h1 data1 s = Some (s1, tt) -> topics_ s1 !! h2 = Some t ->
  publish_topic config_ h2 data2 s1 = Some (s1, tt).
Proof.
  intros Ha Hf Hp Ht. apply (publish_known _ _ _ s1 (mkMessage None data2 None (topic_hash_ t) None None) t);
    [done|unfold make_message; by rewrite Ha|]. rewrite Hf.
  unfold publish_topic, make_message in Hp. rewrite Ha, Hf in Hp. unfold mbind, M_bind, get_topic in Hp.
  destruct (topics_ s !! h1) as [t1|]; [|done]. cbn [mret M_ret gets] in Hp. change (defaultMessageIdFn _) with (defaultMessageIdFn (mkMessage None data2 None (topic_hash_ t) None None)) in Hp.
  set (id := defaultMessageIdFn _) in *. destruct (DuplicateCache.contains (duplicate_cache_ s) id) eqn:Ek; [by injection Hp as <-|].
  destruct (duplicate_insert id s) as [[s2 b]|] eqn:Ei; [|done].
  pose proof (broadcast_cache _ _ _ _ _ _ _ Hp) as Hc. unfold same_cache in Hc. rewrite Hc. by eapply duplicate_insert_known.
Qed.
End Publication.

(** ** Signed messages *)
Section Signed.
Context `{Env} (config_ : Config).

(** C12: the default id identifies messages.  Two messages have the same default id exactly
    when they have the same author, of one of the usual kinds of ids, and the same sequence
    number; and the messages that a host signs in states with different sequence numbers,
    which grow by one with each message, have different default ids. *)
Theorem default_ids_exact :
  (forall m1 m2, author (from m1) -> author (from m2) -> is_u64 (default 0 (seqno m1)) -> is_u64 (default 0 (seqno m2)) ->
     defaultMessageIdFn m1 = defaultMessageIdFn m2 <-> from m1 = from m2 /\ default 0 (seqno m1) = default 0 (seqno m2))
  /\ (message_authenticity config_ = AuthSigned -> author (Some host_id) ->
      forall h1 h2 data1 data2 s1 s2 s1' s2' m1 m2,
        is_u64 (last_seq_no s1) -> is_u64 (last_seq_no s2) -> last_seq_no s1 <> last_seq_no s2 ->
        make_message config_ h1 data1 s1 = Some (s1', m1) -> make_message config_ h2 data2 s2 = Some (s2', m2) ->
        last_seq_no s1' = u64 (last_seq_no s1 + 1) /\ defaultMessageIdFn m1 <> defaultMessageIdFn m2).
Proof.
  split.
  - intros m1 m2 A1 A2 U1 U2. split; [by apply default_ids_identify|]. intros [Ef Es]. unfold defaultMessageIdFn. by rewrite Ef, Es.
  - intros Ha Hh h1 h2 data1 data2 s1 s2 s1' s2' m1 m2 U1 U2 Hne. unfold make_message. rewrite Ha.
    unfold mbind, M_bind, gets, modify, get_or_fail, mret, M_ret, fail.
    destruct (Keys.Provider.sign _ _) as [[sig1|]|]; [|done..]. intros [= <- <-].
    destruct (Keys.Provider.sign _ _) as [[sig2|]|]; [|done..]. intros [= <- <-].
    split; [done|]. intros E. apply default_ids_identify in E as [_ E]; cbn [from seqno default] in *; done.
Qed.
End Signed.

(** ** Concrete messages *)
Module ToyIds.
Definition message_of (data : bytes) (n : Z) : Message :=
  mkMessage (Some ([0; 36; 8; 1; 18; 32] ++ replicate 32 5)) data (Some n) [7] None None.

(** The numbers 7 and 71 after the same author: different ids. *)
Lemma default_ids_exact_witness :
  (defaultMessageIdFn (message_of [1] 7) = defaultMessageIdFn (message_of [2] 7)
     <-> from (message_of [1] 7) = from (message_of [2] 7) /\ 7 = 7)
  /\ defaultMessageIdFn (message_of [1] 7) <> defaultMessageIdFn (message_of [1] 71).
Proof.
  assert (forall n, author (from (message_of [1] n))) as A by (intros n; apply OfEd25519; [by apply Forall_replicate|reflexivity]).
  split.
  - apply (proj1 (default_ids_exact (default_config defaultMessageIdFn)) (message_of [1] 7) (message_of [2] 7) (A 7) (A 7)); unfold is_u64; cbn; lia.
  - vm_compute. discriminate.
Defined.
End ToyIds.
