(* ===== verification/GossipChat.v ===== *)
(** * The gossip examples

    [example/03-gossip/gossip_chat_example.cpp] and
    [example/03-gossip/gossip_anonymous_example.cpp]: programs that publish the lines of
    their standard input on a topic and print what they receive.  They differ in the
    configuration.  What the system gives the program of its input is a list of pieces. *)

From S2P Require Import Prelude TimeCache Backoff Multihash ByteUtil Score GossipState GossipOps GossipHandlers GossipInv GossipRun GossipToy GossipIds.

Definition newline : Z := 10.

(** ** [Input] *)

(** [async_read_until]: pieces are added to the buffer until it holds a newline; [None] is
    the end of the input. *)
Fixpoint read_until (pieces : list bytes) (buf : bytes) : option (bytes * list bytes) :=
  if decide (newline ∈ buf) then Some (buf, pieces)
  else match pieces with
       | [] => None
       | p :: pieces => read_until pieces (buf ++ p)
       end.
(** The text before the first newline. *)
Fixpoint before_newline (buf : bytes) : bytes :=
  match buf with
  | [] => []
  | c :: buf => if c =? newline then [] else c :: before_newline buf
  end.
(** [Input::read]; the buffer is empty at the start and is emptied at the end. *)
Definition Input_read (pieces : list bytes) : option (bytes * list bytes) :=
  '(buf, pieces) ← read_until pieces [];
  Some (before_newline buf, pieces).

(** The lines that are read one after another; every read takes a piece at least. *)
Fixpoint lines_read (fuel : nat) (pieces : list bytes) : option (list bytes) :=
  match fuel with
  | O => None
  | S fuel =>
      match Input_read pieces with
      | None => Some []
      | Some (msg, pieces) => l ← lines_read fuel pieces; Some (msg :: l)
      end
  end.

(** ** The tasks *)

Definition example_topic : TopicHash := str "example".
(** [std::format] of the number of the program and the line. *)
Definition chat_text (index : Z) (msg : bytes) : bytes := to_string index ++ str ": " ++ msg.

Section Chat.
Context `{Env} (config_ : Config).

(** The loop that sends; [Some tt] is its end. *)
Fixpoint sender (fuel : nat) (index : Z) (pieces : list bytes) : M unit :=
  match fuel with
  | O => fail
  | S fuel =>
      match Input_read pieces with
      | None => mret tt
      | Some (msg, pieces) =>
          whenM (negb (bool_decide (msg = []))) (publish_topic config_ example_topic (chat_text index msg)) ;;
          sender fuel index pieces
      end
  end.

(** The loop that receives, until it has to wait: what it prints. *)
Fixpoint receiver (fuel : nat) : M (list bytes) :=
  match fuel with
  | O => fail
  | S fuel =>
      m ← receiveMessage example_topic;
      match m with
      | None => mret []
      | Some m => l ← receiver fuel; mret (data m :: l)
      end
  end.
End Chat.

(** The configuration of the anonymous example. *)
Definition anonymous_config : Config :=
  let c := default_config defaultMessageIdFn in {|
    message_id_fn := message_id_fn c;
    validation_mode := ValidationAnonymous;
    message_authenticity := AuthAnonymous;
    protocol_versions := protocol_versions c;
    duplicate_cache_time := duplicate_cache_time c;
    default_mesh_params := default_mesh_params c;
    prune_backoff := prune_backoff c;
    unsubscribe_backoff := unsubscribe_backoff c;
    backoff_slack := backoff_slack c;
    graft_flood_threshold := graft_flood_threshold c;
    heartbeat_interval := heartbeat_interval c;
    fanout_ttl := fanout_ttl c;
    retain_scores := retain_scores c;
    history_length := history_length c;
    history_gossip := history_gossip c;
    gossip_retransimission := gossip_retransimission c;
    gossip_lazy := gossip_lazy c;
    gossip_factor := gossip_factor c;
    max_ihave_length := max_ihave_length c;
    max_ihave_messages := max_ihave_messages c;
    flood_publish := flood_publish c;
    idontwant_message_size_threshold := idontwant_message_size_threshold c;
    idontwant_on_publish := idontwant_on_publish c;
    iwant_followup_time := iwant_followup_time c;
    opportunistic_graft_ticks := opportunistic_graft_ticks c;
    opportunistic_graft_peers := opportunistic_graft_peers c;
    score_config := score_config c
  |}.

(** ** Proofs *)

Lemma read_until_shorter pieces : forall buf buf' rest,
  newline ∉ buf -> read_until pieces buf = Some (buf', rest) -> (length rest < length pieces)%nat.
Proof.
  induction pieces as [|p pieces IH]; intros buf buf' rest Hn; cbn; (rewrite decide_False by done); [done|]. intros E.
  destruct (decide (newline ∈ buf ++ p)) as [Hin|Hin].
  - destruct pieces; cbn in E; rewrite decide_True in E by done; injection E as _ <-; cbn; lia.
  - specialize (IH _ _ _ Hin E). lia.
Qed.

(** Reading ends: as many rounds as there are pieces, and one more. *)
Lemma lines_read_total fuel : forall pieces, (length pieces < fuel)%nat -> is_Some (lines_read fuel pieces).
Proof.
  induction fuel as [|fuel IH]; intros pieces Hl; [lia|]. cbn. unfold Input_read. destruct (read_until pieces []) as [[buf rest]|] eqn:E; [|by eexists].
  cbn. apply read_until_shorter in E; [|apply not_elem_of_nil]. destruct (IH rest) as [l ->]; [lia|]. by eexists.
Qed.

Lemma before_newline_line l rest : newline ∉ l -> before_newline (l ++ newline :: rest) = l.
Proof.
  induction l as [|c l IH]; [done|]. rewrite not_elem_of_cons. intros [Hc Hl]. cbn.
  destruct (Z.eqb_spec c newline); [by destruct Hc|]. by rewrite IH.
Qed.

(** A terminal gives the input line by line; then every line is read. *)
Lemma terminal_lines ls : Forall (fun l => newline ∉ l) ls ->
  lines_read (S (length ls)) (map (fun l => l ++ [newline]) ls) = Some ls.
Proof.
  induction 1 as [|l ls Hl _ IH]; [done|]. cbn [map length]. set (n := S (length ls)) in *. cbn [lines_read]. unfold Input_read. cbn [read_until]. rewrite decide_False by apply not_elem_of_nil.
  cbn [app]. replace (read_until (map _ ls) (l ++ [newline])) with (Some (l ++ [newline], map (fun l => l ++ [newline]) ls)).
  - cbn [mbind option_bind]. rewrite before_newline_line by done. rewrite IH. done.
  - assert (newline ∈ l ++ [newline]) by (apply elem_of_app; right; by left). destruct ls; cbn [map read_until]; by rewrite decide_True.
Qed.

(** Two lines in one piece, as when text is pasted or piped: the second is lost; so is a
    last line without a newline. *)
Lemma pasted_lines_lost :
  lines_read 3 [str "one" ++ [newline] ++ str "two" ++ [newline]; str "three"] = Some [str "one"].
Proof. reflexivity. Qed.

Section Claims.
Context `{Env} (config_ : Config).

Definition nonempty (msg : bytes) : bool := negb (bool_decide (msg = [])).
Definition publish_line (index : Z) (msg : bytes) : M unit := publish_topic config_ example_topic (chat_text index msg).

(** What is published are the lines that are read, but the empty ones, in order. *)
Lemma sender_publishes fuel index : forall pieces ls s,
  lines_read fuel pieces = Some ls ->
  sender config_ fuel index pieces s = forM_ (List.filter nonempty ls) (publish_line index) s.
Proof.
  induction fuel as [|fuel IH]; intros pieces ls s E; [done|]. cbn [sender lines_read] in *.
  destruct (Input_read pieces) as [[msg rest]|]; [|by injection E as <-].
  destruct (lines_read fuel rest) as [l|] eqn:El; cbn [mbind option_bind] in E; [|done]. injection E as <-. cbn [List.filter]. unfold nonempty at 1.
  destruct (negb (bool_decide (msg = []))); cbn [whenM forM_]; unfold mbind, M_bind.
  - fold (publish_line index msg). destruct (publish_line index msg s) as [[s1 a]|]; [by apply IH|done].
  - unfold mret, M_ret. by apply IH.
Qed.

(** The chat of one terminal.  When the input comes line by line, the program publishes on
    its topic every line that is not empty, once and in order, with its number in front, and
    then ends. *)
Theorem chat_publishes_lines index ls s :
  Forall (fun l => newline ∉ l) ls ->
  sender config_ (S (length ls)) index (map (fun l => l ++ [newline]) ls) s
    = forM_ (List.filter nonempty ls) (publish_line index) s.
Proof. intros Hl. apply sender_publishes. by apply terminal_lines. Qed.

(** What the receiver prints is the channel of the topic, from its front, which it empties. *)
Theorem chat_prints_channel s t :
  topics_ s !! example_topic = Some t ->
  exists s', receiver (S (length (receive_channel_ t))) s = Some (s', map data (receive_channel_ t))
    /\ (receive_channel_ <$> topics_ s' !! example_topic) = Some [].
Proof.
  remember (receive_channel_ t) as c eqn:Hc. revert s t Hc. induction c as [|m c IH]; intros s t Hc Ht; cbn [length].
  - cbn [receiver]. exists s. unfold receiveMessage, get_topic, mbind, M_bind. rewrite Ht. cbn. rewrite <- Hc. done.
  - remember (S (length c)) as n eqn:Hn. cbn [receiver]. unfold receiveMessage, get_topic, update_topic, mbind, M_bind, mret, M_ret.
    rewrite Ht, <- Hc, Ht. set (s1 := set_topics_ _ s). set (t1 := set_receive_channel (fun _ => c) t).
    destruct (IH s1 t1) as (s' & E & F); [done|cbn; by rewrite lookup_insert_eq|]. exists s'. by rewrite E.
Qed.
End Claims.

(** C13: the anonymous example sends one message.  However many lines are read, the state after
    all of them is the state after the first that is not empty: the others are taken for
    duplicates of it, because messages without an author and a sequence number all have the
    same default id. *)
Theorem anonymous_chat_sends_one `{Env} index msg ls s s1 t :
  publish_line anonymous_config index msg s = Some (s1, tt) -> topics_ s1 !! example_topic = Some t ->
  forM_ (msg :: ls) (publish_line anonymous_config index) s = Some (s1, tt).
Proof.
  intros Hp Ht. cbn [forM_]. unfold mbind, M_bind. rewrite Hp. induction ls as [|l ls IH]; [done|]. cbn [forM_]. unfold mbind, M_bind.
  unfold publish_line at 1. by rewrite (anonymous_messages_collide anonymous_config example_topic example_topic (chat_text index msg) (chat_text index l) s s1 t).
Qed.

(** ** A concrete chat *)
Module ToyChat.
Definition terminal : list bytes := map (fun l => l ++ [newline]) [str "one"; []; str "two"].
(** How many messages are in the cache after the lines were sent on a subscribed topic. *)
Definition messages_sent (config_ : Config) : option nat :=
  match (subscribe config_ example_topic ;; sender config_ 4 1 terminal) (Gossip_new config_ 0) with
  | Some (s, _) => Some (size (message_cache_ s))
  | None => None
  end.
(** Both lines of a signed chat, and one of the anonymous one. *)
Lemma anonymous_line_lost :
  messages_sent (default_config defaultMessageIdFn) = Some 2%nat /\ messages_sent anonymous_config = Some 1%nat.
Proof. split; vm_compute; reflexivity. Qed.

(** The state of a program that has subscribed. *)
Definition subscribed : Gossip :=
  match subscribe anonymous_config example_topic (Gossip_new anonymous_config 0) with Some (s, _) => s | None => Gossip_new anonymous_config 0 end.
Definition after_one : Gossip :=
  match publish_line anonymous_config 1 (str "one") subscribed with Some (s, _) => s | None => subscribed end.
Lemma anonymous_chat_sends_one_witness :
  forM_ [str "one"; str "two"; str "three"] (publish_line anonymous_config 1) subscribed = Some (after_one, tt)
  /\ size (message_cache_ after_one) = 1%nat.
Proof.
  assert (is_Some (topics_ after_one !! example_topic)) as [t Ht] by (vm_compute; eexists; reflexivity).
  split; [|vm_compute; reflexivity].
  apply (anonymous_chat_sends_one 1 (str "one") [str "two"; str "three"] subscribed after_one t); [|exact Ht].
  vm_compute. reflexivity.
Defined.
End ToyChat.
