(* ===== verification/GossipRelay.v ===== *)
(** * Gossipsub: who receives a message

    The exact effect of [broadcast] on the queues of all peers. *)

From S2P Require Import Prelude TimeCache Backoff Multihash Score GossipState GossipOps.
From S2P Require Import GossipHandlers GossipInv GossipMesh GossipSafe.

Section Relay.
Context `{E : Env} `{!EnvLaws E} {config_ : Config} `{Hcfg : !config_ok config_}.
Implicit Types (s : Gossip) (p : PeerPtr) (h : TopicHash).

(** The conditions of [add_peer] on a recipient. *)
Definition accepts (sc : Score) (source : option PeerId) (m : Message) (peer : Peer) : bool :=
  negb (bool_decide (source = Some (peer_id_ peer)))
  && negb (bool_decide (from m = Some (peer_id_ peer)))
  && negb (low sc (publish_threshold (score_config config_)) peer).

(** What [add_peer] queues. *)
Definition enqueue (id : MessageId) (m : Message) (idw : bool) (b : Rpc) : Rpc :=
  rpc_publish m (if idw then rpc_idontwant id b else b).

(** A step that changes at most the batch of [p]. *)
Record batch_step p (f : Rpc -> Rpc) s (s' : Gossip) : Prop := {
  bs_quiet : quiet_step s s';
  bs_batch : batch_of s' p = f (batch_of s p);
  bs_others : forall q, q <> p -> batch_of s' q = batch_of s q
}.

Lemma queued_step p f s s' : queued p f s s' -> batch_step p f s s'.
Proof.
  intros []. split; [done|done|]. intros q Hq. unfold batch_of. by rewrite qd_others.
Qed.

Lemma batch_step_refl p s : writers_ok s -> batch_step p id s s.
Proof. done. Qed.

Lemma add_peer_step source id m idw p s peer :
  writers_ok s -> heap s !! p = Some peer ->
  wp (add_peer config_ source id m idw p) s (fun _ =>
    batch_step p (if accepts (score_ s) source m peer then enqueue id m idw else Datatypes.id) s).
Proof.
  intros Hw Hp. unfold add_peer, accepts. wps; try done. cbn [negb andb].
  eapply wp_mono; [by apply (with_batch_ok p _ s peer)|]. intros [] s' Hq. by apply queued_step.
Qed.

(** A loop of such steps over distinct peers. *)
Lemma batch_loop l f (sel : PeerPtr -> bool) (g : Rpc -> Rpc) s :
  NoDup l -> writers_ok s -> (forall p, p ∈ l -> is_Some (heap s !! p)) ->
  (forall p s' peer, p ∈ l -> quiet_step s s' -> heap s' !! p = Some peer ->
     wp (f p) s' (fun _ => batch_step p (if sel p then g else id) s')) ->
  wp (forM_ l f) s (fun _ s' => quiet_step s s' /\
    forall q, batch_of s' q = (if bool_decide (q ∈ l) && sel q then g else id) (batch_of s q)).
Proof.
  intros Hnd Hw Hl Hf.
  apply (wp_forM l f (fun rest s' => exists done_, l = done_ ++ rest /\ quiet_step s s' /\
    forall q, batch_of s' q = (if bool_decide (q ∈ done_) && sel q then g else id) (batch_of s q))).
  - exists []. split_and!; try done.
  - intros p rest s' (done_ & -> & [Hq Hw'] & Hb). destruct (Hl p) as [peer Hp]; [set_solver|].
    destruct (quiet_peer _ _ _ _ Hq Hp) as (peer' & Hp' & _).
    eapply wp_mono; [by apply (Hf p s' peer'); [set_solver|..]|].
    intros [] s2 [[Hq2 Hw2] Hb2 Ho2]. exists (done_ ++ [p]). split_and!; [by rewrite <- app_assoc|by split; [etrans|]|].
    intros q. destruct (decide (q = p)) as [->|Hne].
    + rewrite Hb2, Hb. apply NoDup_app in Hnd as (_ & Hdis & _).
      rewrite (bool_decide_false (p ∈ done_)) by (intros Hin; apply (Hdis p Hin); set_solver).
      rewrite (bool_decide_true (p ∈ done_ ++ [p])) by set_solver. done.
    + rewrite Ho2, Hb by done. f_equal. by rewrite (bool_decide_ext (q ∈ done_ ++ [p]) (q ∈ done_)) by set_solver.
  - intros s' (done_ & -> & Hq & Hb). rewrite app_nil_r in *. done.
Qed.

(** Who gets a message: looked up in the state before. *)
Definition eligible s (among : Peer -> PeerPtr -> bool) (source : option PeerId) (m : Message) p : bool :=
  match heap s !! p with
  | Some peer => among peer p && accepts (score_ s) source m peer
  | None => false
  end.

Lemma view_accepts sc source m a b :
  peer_view a = peer_view b -> accepts sc source m a = accepts sc source m b.
Proof. intros Hv. destruct (view_fields a b Hv) as (Hid & _). unfold accepts, low. by rewrite Hid. Qed.

Lemma view_floodsub a b : peer_view a = peer_view b -> isFloodsub a = isFloodsub b.
Proof. intros Hv. destruct (view_fields a b Hv) as (_ & _ & Hk & _). unfold isFloodsub. by rewrite Hk. Qed.

(** [add_peer] over a list of peers, restricted to those [only] selects. *)
Lemma send_loop s l source id m idw (only : Peer -> bool) :
  NoDup l -> writers_ok s -> (forall p, p ∈ l -> is_Some (heap s !! p)) ->
  (forall a b, peer_view a = peer_view b -> only a = only b) ->
  wp (forM_ l (fun p => peer ← deref p; whenM (only peer) (add_peer config_ source id m idw p))) s
    (fun _ s' => quiet_step s s' /\ forall q, batch_of s' q =
      (if bool_decide (q ∈ l) && eligible s (fun peer _ => only peer) source m q
       then enqueue id m idw else Datatypes.id) (batch_of s q)).
Proof.
  intros Hnd Hw Hl Honly.
  apply (batch_loop l _ (eligible s (fun peer _ => only peer) source m)); try done.
  intros p s' peer' Hp [Hq Hw'] Hp'. destruct (Hl p Hp) as [peer Hpe].
  destruct (quiet_peer _ _ _ _ Hq Hpe) as (peer2 & Hp2 & Hv). rewrite Hp' in Hp2. injection Hp2 as <-.
  unfold eligible. rewrite Hpe. rewrite <- (Honly peer' peer Hv), <- (view_accepts _ _ _ _ _ Hv).
  wpn; rewrite H.
  - rewrite <- (q_score _ _ Hq). by apply add_peer_step.
  - done.
Qed.

Lemma send_loop_all s l source id m idw :
  NoDup l -> writers_ok s -> (forall p, p ∈ l -> is_Some (heap s !! p)) ->
  wp (forM_ l (add_peer config_ source id m idw)) s
    (fun _ s' => quiet_step s s' /\ forall q, batch_of s' q =
      (if bool_decide (q ∈ l) && eligible s (fun _ _ => true) source m q
       then enqueue id m idw else Datatypes.id) (batch_of s q)).
Proof.
  intros Hnd Hw Hl. apply (batch_loop l _ (eligible s (fun _ _ => true) source m)); try done.
  intros p s' peer' Hp [Hq Hw'] Hp'. destruct (Hl p Hp) as [peer Hpe].
  destruct (quiet_peer _ _ _ _ Hq Hpe) as (peer2 & Hp2 & Hv). rewrite Hp' in Hp2. injection Hp2 as <-.
  unfold eligible. rewrite Hpe, <- (view_accepts _ _ _ _ _ Hv), <- (q_score _ _ Hq). by apply add_peer_step.
Qed.

Definition respects (among : Peer -> PeerPtr -> bool) : Prop :=
  forall a b p, peer_view a = peer_view b -> among a p = among b p.

Lemma eligible_views s s' among source m p :
  views (heap s) (heap s') -> score_ s' = score_ s -> respects among ->
  eligible s' among source m p = eligible s among source m p.
Proof.
  intros Hv Hs Ha. unfold eligible. rewrite Hs. specialize (Hv p).
  destruct (heap s !! p) as [a|], (heap s' !! p) as [b|]; try done. apply (inj Some) in Hv.
  by rewrite (Ha b a p Hv), (view_accepts _ _ _ b a Hv).
Qed.

Lemma gossipsub_not_floodsub peer : isGossipsub peer = true -> isFloodsub peer = false.
Proof.
  unfold isGossipsub, kind_at_least, isFloodsub. destruct (peer_kind_ peer) as [[]|]; cbn; done.
Qed.

Lemma order_NoDup {A} n (l : list A) : NoDup l -> NoDup (order n l).
Proof. by rewrite order_permutes. Qed.

(** The recipients of a relayed message. *)
Definition relay_to (t : Topic) (peer : Peer) p : bool :=
  bool_decide (p ∈ topic_peers_ t) && (isFloodsub peer || bool_decide (p ∈ mesh_peers_ t)).

Lemma relay_respects t : respects (relay_to t).
Proof. intros a b p Hv. unfold relay_to. by rewrite (view_floodsub a b Hv). Qed.

Lemma send_to_peers_relay s h t src id m idw :
  inv config_ s -> topics_ s !! h = Some t ->
  wp (send_to_peers config_ h (Some src) (add_peer config_ (Some src) id m idw)) s
    (fun _ s' => topics_ s' = topics_ s /\ forall q, batch_of s' q =
      (if eligible s (relay_to t) (Some src) m q then enqueue id m idw else Datatypes.id) (batch_of s q)).
Proof.
  intros Hi Ht. pose proof Hi as [Hc Hw]. pose proof (c_topics _ _ Hc h t Ht) as Hok.
  assert (forall p, p ∈ topic_peers_ t -> is_Some (heap s !! p)) as Hon
    by (intros p Hp; by apply (members_on_heap config_ s h t)).
  unfold send_to_peers. wp1. wp1. rewrite (bool_decide_false (Some src = None)) by done. cbn [andb].
  wp1. wp1. wp1. set (s1 := set_uses S s).
  assert (writers_ok s1) as Hw1 by by apply (writers_ok_frame s).
  eapply wp_mono; [apply (send_loop s1); [apply order_NoDup, NoDup_elements|done| |apply view_floodsub]|].
  { intros p. rewrite order_permutes, elem_of_elements. apply Hon. }
  intros [] s2 [[Hq2 Hw2] Hb2]. wp1. wp1. wp1. set (s3 := set_uses S s2).
  assert (writers_ok s3) as Hw3 by by apply (writers_ok_frame s2).
  eapply wp_mono; [apply (send_loop_all s3); [apply order_NoDup, NoDup_elements|done|]|].
  { intros p. rewrite order_permutes, elem_of_elements. intros Hp.
    destruct (Hon p (t_mesh _ _ _ _ Hok p Hp)) as [peer Hpe].
    destruct (quiet_peer s1 s2 p peer Hq2 Hpe) as (peer' & Hp' & _). by exists peer'. }
  intros [] s4 [[Hq4 _] Hb4]. wp1; [done|]. split.
  { rewrite (q_topics _ _ Hq4). exact (q_topics _ _ Hq2). }
  intros q. rewrite Hb4.
  change (batch_of s3 q) with (batch_of s2 q). rewrite Hb2. change (batch_of s1 q) with (batch_of s q).
  assert (eligible s3 (fun _ _ => true) (Some src) m q = eligible s (fun _ _ => true) (Some src) m q) as ->.
  { apply eligible_views; [exact (q_heap _ _ Hq2)|apply (q_score _ _ Hq2)|done]. }
  change (eligible s1) with (eligible s). unfold eligible, relay_to.
  destruct (heap s !! q) as [peer|] eqn:Hq; [|by rewrite !andb_false_r].
  rewrite (bool_decide_ext (q ∈ order (uses s) (elements (topic_peers_ t))) (q ∈ topic_peers_ t))
    by by rewrite order_permutes, elem_of_elements.
  rewrite (bool_decide_ext (q ∈ order (uses s2) (elements (mesh_peers_ t))) (q ∈ mesh_peers_ t))
    by by rewrite order_permutes, elem_of_elements.
  destruct (accepts (score_ s) (Some src) m peer); [|by rewrite !andb_false_r].
  rewrite !andb_true_r. cbn [andb].
  destruct (decide (q ∈ mesh_peers_ t)) as [Hm|Hm].
  - rewrite (gossipsub_not_floodsub peer (t_gossipsub _ _ _ _ Hok q peer Hm Hq)).
    pose proof (t_mesh _ _ _ _ Hok q Hm) as Hm'.
    by rewrite !(bool_decide_true (q ∈ mesh_peers_ t)), (bool_decide_true (q ∈ topic_peers_ t)) by done.
  - rewrite !(bool_decide_false (q ∈ mesh_peers_ t)) by done. by rewrite orb_false_r.
Qed.

Lemma send_to_peers_flood s h t id m idw :
  inv config_ s -> topics_ s !! h = Some t -> flood_publish config_ = true ->
  wp (send_to_peers config_ h None (add_peer config_ None id m idw)) s
    (fun _ s' => forall q, batch_of s' q =
      (if eligible s (fun _ p => bool_decide (p ∈ topic_peers_ t)) None m q
       then enqueue id m idw else Datatypes.id) (batch_of s q)).
Proof.
  intros Hi Ht Hf. pose proof Hi as [Hc Hw]. unfold send_to_peers. wp1. wp1. rewrite Hf. cbn [andb].
  rewrite (bool_decide_true (None = None)) by done. cbn [andb]. wp1. wp1. set (s1 := set_uses S s).
  eapply wp_mono; [apply (send_loop_all s1); [apply order_NoDup, NoDup_elements|by apply (writers_ok_frame s)|]|].
  { intros p. rewrite order_permutes, elem_of_elements. by apply (members_on_heap config_ s h t). }
  intros [] s2 [_ Hb2] q. rewrite Hb2. unfold eligible. change (heap s1) with (heap s).
  destruct (heap s !! q); [|by rewrite andb_false_r].
  rewrite (bool_decide_ext (q ∈ order (uses s) (elements (topic_peers_ t))) (q ∈ topic_peers_ t))
    by by rewrite order_permutes, elem_of_elements. done.
Qed.

(** [broadcast] up to the choice of recipients: no queue changes, not even for
    the peers that had promised the message. *)
Lemma broadcast_split s h t source id m Q :
  inv config_ s -> topics_ s !! h = Some t ->
  (forall s1 t1, inv config_ s1 -> topics_ s1 !! h = Some t1 ->
     t1 = set_history (History.add id) t -> topics_ s1 = <[h := t1]> (topics_ s) ->
     heap s1 = heap s -> score_ s1 = score_ s ->
     wp (send_to_peers config_ h source (add_peer config_ source id m (sends_idontwant config_ source m)))
       s1 Q) ->
  wp (broadcast config_ h source id m) s Q.
Proof.
  intros Hi Ht HQ. unfold broadcast. do 2 (wp1; cbv beta). set (s1 := set_message_cache_ _ s).
  assert (kept config_ s s1) as Hk1 by by apply kept_frame.
  do 2 (wp1; cbv beta). set (s2 := set_topics_ _ s1).
  assert (kept config_ s1 s2) as Hk2.
  { apply (kept_topic s1 h t); [apply Hk1|done| |done]. apply topic_ok_history; [|apply History.length_add].
    destruct Hk1 as [[Hc1 _] _]. by apply (c_topics _ _ Hc1). }
  do 2 (wp1; cbv beta). set (s3 := set_gossip_promises_ _ s2).
  assert (kept config_ s2 s3) as Hk3.
  { apply kept_promises; [apply Hk2|]. intros id' m' p. cbn. rewrite lookup_delete_Some.
    intros [_ Hm]. destruct Hk1 as [[Hc1 _] _]. by apply (c_promises _ _ Hc1 id' m' p). }
  assert (topics_ s3 !! h = Some (set_history (History.add id) t)) as Ht3
    by (cbn; by rewrite lookup_insert_eq).
  wp1. wp1; [|by eapply HQ; [apply Hk3|..]]. do 4 (wp1; cbv beta).
  assert (GossipPromises.peers id (gossip_promises_ s3) = []) as ->.
  { unfold GossipPromises.peers. cbn. by rewrite lookup_delete_eq. }
  assert (order (uses s3) ([] : list PeerPtr) = []) as -> by (apply Permutation_nil_r, order_permutes).
  cbn [forM_]. wp1. eapply HQ; [apply (kept_uses s3), Hk3|done..].
Qed.
End Relay.
