(* ===== verification/GossipProps.v ===== *)
(** * Gossipsub: properties

    The theorems about the whole of [Gossip], for every environment, every
    configuration with non-zero periods and every reachable state. *)

From S2P Require Import Prelude TimeCache Backoff Multihash Score GossipState GossipOps.
From S2P Require Import GossipHandlers GossipInv GossipMesh GossipSafe GossipSafeRpc.
From S2P Require Import GossipSafeTick GossipRun GossipRelay GossipToy GossipFrame GossipUndefined.

Section Props.
Context `{E : Env} `{!EnvLaws E} {config_ : Config} `{Hcfg : !config_ok config_}.
Implicit Types (s : Gossip) (p : PeerPtr) (h : TopicHash).

(** C1: whatever peers send, in whatever order events happen and however long the node runs,
    no handler fails an assertion, throws or leaves a container, with the exceptions that are
    named.  From every reachable state every event that can happen, but for a heartbeat on an
    opportunistic tick (C11), is handled to its end; and then either nothing was undefined,
    and the state is reachable and satisfies the invariant [inv], or one of these happened:
    the event is a frame with a PUBLISH to be verified whose signature is too short for its
    Ed25519 author or whose ECDSA author is too short (the crypto provider copies a fixed
    number of bytes); or it is a heartbeat that sorts scores of which one is NaN, or whose
    gossip factor times a number of peers is not in the range of [size_t]. *)
Theorem gossip_events_handled s e :
  reachable config_ s -> event_ok config_ s e ->
  exists s', dispatch config_ e s = Some (s', tt)
    /\ match undefined s' with
       | None => reachable config_ s' /\ inv config_ s'
       | Some (Overrun pb) => exists p stream encoded rpc, e = Frame p stream (Some encoded) /\ decode_rpc encoded = Some rpc
           /\ pb ∈ r_publish rpc /\ overruns config_ pb
       | Some (Unordered scores) => e = Heartbeat /\ SpecFloat.S754_nan ∈ scores
           /\ exists sc ids, scores = map (score score_order sc) ids
       | Some (OutOfRange count) => e = Heartbeat /\ in_range count = false
           /\ exists n, count = dmul (gossip_factor config_) (dz (Z.of_nat n))
       end.
Proof.
  intros Hr He. pose proof (gossip_reachable_inv s Hr) as Hi.
  destruct (wp_run _ _ _ (dispatch_kept s e Hi He)) as (s' & [] & Hd & [Hi' _]). exists s'. split; [done|].
  destruct (undefined s') as [u|] eqn:Hu; [|split; [by apply (reachable_step config_ s e s' Hr (proj1 He))|done]].
  destruct (dispatch_caused config_ e s s' tt Hd) as [Hs|(u' & Hu' & Hc)]; [rewrite (reachable_defined s Hr) in Hs; congruence|].
  assert (u' = u) as -> by congruence. by destruct u.
Qed.

(** C5: the membership of a topic is what the connected peers announced.  In
    every reachable state a connected peer is a member of a topic exactly when it
    announced the topic and did not withdraw it; the mesh consists of members,
    each of which speaks gossipsub. *)
Theorem membership_matches_announcements s id p peer h t :
  reachable config_ s -> peers_ s !! id = Some p -> heap s !! p = Some peer ->
  topics_ s !! h = Some t ->
  (p ∈ topic_peers_ t <-> h ∈ peer_topics_ peer)
  /\ (p ∈ mesh_peers_ t -> p ∈ topic_peers_ t /\ isGossipsub peer = true).
Proof.
  intros Hr Hid Hp Ht. destruct (gossip_reachable_inv s Hr) as [Hc _].
  pose proof (c_topics _ _ Hc h t Ht) as Hok. split; [split|].
  - intros Hm. destruct (t_members _ _ _ _ Hok p Hm) as (peer' & ? & ?). by simplify_eq.
  - intros Hh. by apply (c_announced _ _ Hc id p peer h).
  - intros Hm. split; [by apply Hok|by apply (t_gossipsub _ _ _ _ Hok p)].
Qed.

(** C3: a message received from a peer is relayed exactly once to exactly the
    right peers: members of the topic that speak only floodsub or are in the
    mesh, except the peer it came from, its author, and peers under the publish
    threshold.  Nothing else is queued for anybody, IDONTWANT included. *)
Theorem relay_exact s h t src id m :
  reachable config_ s -> topics_ s !! h = Some t ->
  exists s', broadcast config_ h (Some src) id m s = Some (s', tt)
    /\ forall p, batch_of s' p =
      (if eligible (config_ := config_) s (relay_to t) (Some src) m p
       then enqueue id m (sends_idontwant config_ (Some src) m) else Datatypes.id) (batch_of s p).
Proof.
  intros Hr Ht. pose proof (gossip_reachable_inv s Hr) as Hi.
  destruct (wp_run (broadcast config_ h (Some src) id m) s (fun _ s' => forall p, batch_of s' p =
      (if eligible (config_ := config_) s (relay_to t) (Some src) m p
       then enqueue id m (sends_idontwant config_ (Some src) m) else Datatypes.id) (batch_of s p)))
    as (s' & [] & Hs' & HQ); [|by exists s'].
  apply (broadcast_split s h t); [done|done|]. intros s1 t1 Hi1 Ht1 -> _ Hh Hs.
  eapply wp_mono; [by apply send_to_peers_relay|]. intros [] s2 [_ Hb] p. rewrite Hb.
  assert (eligible (config_ := config_) s1 (relay_to (set_history (History.add id) t)) (Some src) m p
    = eligible (config_ := config_) s (relay_to t) (Some src) m p) as ->.
  { unfold eligible. by rewrite Hh, Hs. }
  unfold batch_of. by rewrite Hh.
Qed.

(** With flood publishing (the default) a message published here is queued
    exactly once for every member of the topic that is not under the publish
    threshold (and is not the author), and for nobody else. *)
Theorem flood_publish_exact s h t id m :
  reachable config_ s -> topics_ s !! h = Some t -> flood_publish config_ = true ->
  exists s', broadcast config_ h None id m s = Some (s', tt)
    /\ forall p, batch_of s' p =
      (if eligible (config_ := config_) s (fun _ p => bool_decide (p ∈ topic_peers_ t)) None m p
       then enqueue id m (sends_idontwant config_ None m) else Datatypes.id) (batch_of s p).
Proof.
  intros Hr Ht Hf. pose proof (gossip_reachable_inv s Hr) as Hi.
  destruct (wp_run (broadcast config_ h None id m) s (fun _ s' => forall p, batch_of s' p =
      (if eligible (config_ := config_) s (fun _ p => bool_decide (p ∈ topic_peers_ t)) None m p
       then enqueue id m (sends_idontwant config_ None m) else Datatypes.id) (batch_of s p)))
    as (s' & [] & Hs' & HQ); [|by exists s'].
  apply (broadcast_split s h t); [done|done|]. intros s1 t1 Hi1 Ht1 -> _ Hh Hs.
  eapply wp_mono; [by apply send_to_peers_flood|]. intros [] s2 Hb p. rewrite Hb.
  unfold eligible, batch_of. by rewrite Hh, Hs.
Qed.

(** The message PUBLISH carries, once validated. *)
Definition received (peer : Peer) (pb : pb_Message)
    (v : option PeerId * option Seqno * option bytes) : Message :=
  mkMessage v.1.1 (pb_str (pb_data pb)) v.1.2 (pb_topic pb) v.2 (Some (peer_id_ peer)).

(** C4: a received message reaches the subscriber once.  A valid PUBLISH for a
    known topic whose id the duplicate cache accepts is appended to the topic's
    channel, exactly once; when the cache refuses the id, the channels, the
    queues of all peers and the message cache are left as they were. *)
Theorem publish_delivered_once s p peer pb v t :
  reachable config_ s -> heap s !! p = Some peer ->
  validate_publish config_ pb s = Some (s, Some v) -> topics_ s !! pb_topic pb = Some t ->
  exists s', handle_publish config_ p pb s = Some (s', tt)
    /\ if (DuplicateCache.insert (message_id_fn config_ (received peer pb v)) (clock (uses s))
             (clock (S (uses s))) (duplicate_cache_ s)).2
       then topics_ s' = <[pb_topic pb :=
              set_history (History.add (message_id_fn config_ (received peer pb v)))
                (set_receive_channel (fun c => c ++ [received peer pb v]) t)]> (topics_ s)
       else topics_ s' = topics_ s /\ heap s' = heap s /\ message_cache_ s' = message_cache_ s.
Proof.
  intros Hr Hp Hv Ht. pose proof (gossip_reachable_inv s Hr) as Hi.
  destruct v as [[author seq] sig]. set (m := received peer pb (author, seq, sig)).
  set (id := message_id_fn config_ m).
  destruct (wp_run (handle_publish config_ p pb) s (fun _ s' =>
    if (DuplicateCache.insert id (clock (uses s)) (clock (S (uses s))) (duplicate_cache_ s)).2
       then topics_ s' = <[pb_topic pb := set_history (History.add id)
                (set_receive_channel (fun c => c ++ [m]) t)]> (topics_ s)
       else topics_ s' = topics_ s /\ heap s' = heap s /\ message_cache_ s' = message_cache_ s))
    as (s' & [] & Hs' & HQ); [|by exists s'].
  unfold handle_publish. wp1. unfold wp at 1. rewrite Hv. do 4 (wp1; cbv beta zeta).
  change (mkMessage author _ seq _ sig _) with m. fold id.
  change (topic m) with (pb_topic pb). rewrite Ht.
  unfold duplicate_insert. do 9 (wp1; cbv beta). cbn [uses set_uses duplicate_cache_].
  wp1. set (r := DuplicateCache.insert _ _ _ _). set (s1 := set_duplicate_cache_ _ _).
  assert (kept config_ s s1) as Hk1.
  { exact (proj1 (wp_of_run _ _ _ _ _ eq_refl (duplicate_insert_kept (config_ := config_) s id Hi))). }
  cbv beta.
  destruct r.2.
  - do 4 (wp1; cbv beta). set (s2 := set_score_ _ _).
    assert (kept config_ s1 s2) as Hk2.
    { apply (kept_trans s1 (set_uses S s1)); [apply kept_uses, Hk1|].
      apply modify_score_kept; [apply inv_uses, Hk1|done]. }
    wp1. eapply (wp_update_topic _ _ _ t); [done|]. do 5 (wp1; cbv beta).
    set (t3 := set_receive_channel _ t). set (s3 := set_topics_ _ s2).
    assert (kept config_ s2 s3) as Hk3.
    { apply (kept_topic s2 (pb_topic pb) t); [apply Hk2|done| |done].
      destruct Hk2 as [[Hc2 _] _]. by destruct (c_topics _ _ Hc2 (pb_topic pb) t). }
    pose proof (kept_uses _ (proj1 Hk3)) as Hk4. pose proof (kept_uses _ (proj1 Hk4)) as Hk5.
    eapply wp_mono; [apply (update_score_kept (config_ := config_)); [apply Hk5|]|].
    { intros Hk. destruct (deliver_message_ok (clock (uses s3)) (clock (uses (set_uses S s3)))
        (peer_id_ peer) id (pb_topic pb) _ Hk) as (sc & ? & ? & ?). by exists sc. }
    intros [] s6 [Hk6 Ht6].
    assert (topics_ s6 !! pb_topic pb = Some t3) as Ht6' by (rewrite Ht6; cbn; by rewrite lookup_insert_eq).
    apply (broadcast_split s6 (pb_topic pb) t3); [apply Hk6|done|].
    intros s7 t7 Hi7 Ht7 -> Htop7 _ _.
    eapply wp_mono; [by apply send_to_peers_relay|]. intros [] s8 [-> _].
    rewrite Htop7, Ht6. cbn. by rewrite insert_insert_eq.
  - do 4 (wp1; cbv beta).
    destruct (duplicateMessage_ok (clock (uses s1)) (clock (uses (set_uses S s1)))
        (peer_id_ peer) id (pb_topic pb) (score_ s1)) as (sc & Hsc & _ & _); [apply Hk1|].
    eapply wp_update_score; [done|]. done.
Qed.

(** A disconnected peer is forgotten: it is no longer among the peers, and
    no topic has it as a member or in its mesh. *)
Theorem disconnect_forgets_peer s id p :
  reachable config_ s -> peers_ s !! id = Some p ->
  exists s', on_peer_disconnected id s = Some (s', tt) /\ peers_ s' !! id = None
    /\ forall h t, topics_ s' !! h = Some t -> p ∉ topic_peers_ t /\ p ∉ mesh_peers_ t.
Proof.
  intros Hr Hp. pose proof (gossip_reachable_inv s Hr) as Hi.
  destruct (wp_run _ _ _ (on_peer_disconnected_kept s id Hi)) as (s' & [] & Hd & _ & Hn & Hg).
  exists s'. split_and!; [done|done|]. intros h t Ht. by apply (Hg p h t).
Qed.
End Props.

(** ** The theorems at a concrete node *)

Lemma gossip_events_handled_witness :
  exists s', dispatch toy_config Heartbeat (state_after two_peers) = Some (s', tt)
    /\ undefined s' = None /\ reachable toy_config s' /\ inv toy_config s'.
Proof.
  destruct (gossip_events_handled (config_ := toy_config) (state_after two_peers) Heartbeat) as (s' & Hd & Hu).
  - apply state_after_reachable.
  - split; [exact I|intros _; vm_compute; reflexivity].
  - exists s'. split; [exact Hd|]. assert (undefined s' = None) as Hn.
    { assert (option_map (fun r => undefined r.1) (dispatch toy_config Heartbeat (state_after two_peers)) = Some None) as H
        by (vm_compute; reflexivity). rewrite Hd in H. by injection H. }
    rewrite Hn in Hu. split; [exact Hn|exact Hu].
Defined.

Lemma membership_matches_announcements_witness :
  (0%nat ∈ topic_peers_ (topic_at meshed toy_topic)
     <-> toy_topic ∈ peer_topics_ (peer_at meshed 0%nat))
  /\ (0%nat ∈ mesh_peers_ (topic_at meshed toy_topic) ->
      0%nat ∈ topic_peers_ (topic_at meshed toy_topic) /\ isGossipsub (peer_at meshed 0%nat) = true).
Proof.
  apply (membership_matches_announcements (config_ := toy_config) meshed peer_a).
  - apply state_after_reachable.
  - vm_compute. reflexivity.
  - vm_compute. reflexivity.
  - vm_compute. reflexivity.
Defined.

Definition toy_message : Message := mkMessage None [42] None toy_topic None (Some peer_a).

Lemma relay_exact_witness :
  exists s', broadcast toy_config toy_topic (Some peer_a) [42] toy_message meshed = Some (s', tt)
    /\ forall p, batch_of s' p =
      (if eligible (config_ := toy_config) meshed (relay_to (topic_at meshed toy_topic))
            (Some peer_a) toy_message p
       then enqueue [42] toy_message (sends_idontwant toy_config (Some peer_a) toy_message)
       else Datatypes.id) (batch_of meshed p).
Proof.
  apply relay_exact; [apply state_after_reachable|vm_compute; reflexivity].
Defined.

Lemma flood_publish_exact_witness :
  exists s', broadcast toy_config toy_topic None [42] toy_message meshed = Some (s', tt)
    /\ forall p, batch_of s' p =
      (if eligible (config_ := toy_config) meshed
            (fun _ p => bool_decide (p ∈ topic_peers_ (topic_at meshed toy_topic))) None toy_message p
       then enqueue [42] toy_message (sends_idontwant toy_config None toy_message)
       else Datatypes.id) (batch_of meshed p).
Proof.
  apply flood_publish_exact; [apply state_after_reachable|vm_compute; reflexivity|reflexivity].
Defined.

Definition toy_pb : pb_Message := mkPbMessage None (Some [42]) None toy_topic None None.

Lemma publish_delivered_once_witness :
  exists s', handle_publish toy_config 0%nat toy_pb meshed = Some (s', tt)
    /\ topics_ s' = <[toy_topic := set_history (History.add [42])
         (set_receive_channel (fun c => c ++ [received (peer_at meshed 0%nat) toy_pb (None, None, None)])
            (topic_at meshed toy_topic))]> (topics_ meshed).
Proof.
  destruct (publish_delivered_once (config_ := toy_config) meshed 0%nat (peer_at meshed 0%nat) toy_pb
              (None, None, None) (topic_at meshed toy_topic)) as (s' & Hs' & HQ).
  - apply state_after_reachable.
  - vm_compute. reflexivity.
  - reflexivity.
  - vm_compute. reflexivity.
  - exists s'. split; [exact Hs'|].
    match type of HQ with
    | if ?b then _ else _ =>
        assert (b = true) as Hb by (vm_compute; reflexivity); rewrite Hb in HQ; exact HQ
    end.
Defined.

Lemma disconnect_forgets_peer_witness :
  exists s', on_peer_disconnected peer_a meshed = Some (s', tt) /\ peers_ s' !! peer_a = None
    /\ forall h t, topics_ s' !! h = Some t -> 0%nat ∉ topic_peers_ t /\ 0%nat ∉ mesh_peers_ t.
Proof.
  apply (disconnect_forgets_peer (config_ := toy_config)); [apply state_after_reachable|].
  vm_compute. reflexivity.
Defined.
