(* ===== verification/GossipLimits.v ===== *)
(** * Gossipsub: caps, backoff and the size of the mesh

    The limits that protect a node: how often a message is served on request,
    how many messages are requested, what a GRAFT during backoff costs, and what
    the heartbeat makes of an oversized mesh. *)

From S2P Require Import Prelude TimeCache Backoff Multihash Score GossipState GossipOps.
From S2P Require Import GossipHandlers GossipInv GossipMesh GossipSafe GossipSafeRpc.
From S2P Require Import GossipSafeTick GossipRun GossipToy.

Section Limits.
Context `{E : Env} `{!EnvLaws E} {config_ : Config} `{Hcfg : !config_ok config_}.
Implicit Types (s : Gossip) (p : PeerPtr) (h : TopicHash).

(** ** IWANT *)

Lemma serve_iwant_many n s p peer peer' id e :
  writers_ok s -> heap s !! p = Some peer' -> message_cache_ s !! id = Some e ->
  wp (forM_ (replicate n id) (serve_iwant config_ p peer)) s (fun _ s' =>
    publish_ (batch_of s' p) = publish_ (batch_of s p)
      ++ replicate (if IDontWantCache.contains (dont_send_ peer) id then 0%nat
                    else Nat.min n (gossip_retransimission config_
                                    - default 0%nat (cached_iwant e !! peer_id_ peer)))%nat
           (cached_message e)).
Proof.
  revert s e peer'. induction n as [|n IH]; intros s e peer' Hw Hp He; cbn [replicate forM_].
  { wpn. case_match; cbn; by rewrite app_nil_r. }
  wp1. unfold serve_iwant. do 2 (wp1; cbv beta). rewrite He. do 2 (wp1; cbv beta zeta).
  set (c := default 0%nat _). set (e' := mkEntry _ _). set (s1 := set_message_cache_ _ s).
  assert (message_cache_ s1 !! id = Some e') as He' by (cbn; by rewrite lookup_insert_eq).
  assert (default 0%nat (cached_iwant e' !! peer_id_ peer) = S c) as Hc
    by (cbn; by rewrite lookup_insert_eq).
  assert (writers_ok s1) as Hw1 by by apply (writers_ok_frame s).
  case_decide as Hcap.
  - wp1. eapply wp_mono; [by apply (IH s1 e' peer')|]. intros [] s' ->. rewrite Hc.
    change (batch_of s1 p) with (batch_of s p). cbn [cached_message e']. do 2 f_equal. case_match; lia.
  - destruct (IDontWantCache.contains (dont_send_ peer) id) eqn:Ed.
    { wp1. eapply wp_mono; [by apply (IH s1 e' peer')|]. by intros [] s' ->. }
    eapply wp_mono; [by apply (with_batch_ok p _ s1 peer')|]. intros [] s2 Hqd.
    destruct (qd_set _ _ _ _ Hqd) as (peer2 & Hp2 & _).
    eapply wp_mono; [apply (IH s2 e' peer2); [apply Hqd|done|]|].
    { by rewrite (q_cache _ _ (qd_quiet _ _ _ _ Hqd)). }
    intros [] s' ->. rewrite Hc, (qd_batch _ _ _ _ Hqd). cbn [publish_ rpc_publish].
    change (batch_of s1 p) with (batch_of s p). cbn [cached_message e']. rewrite <- app_assoc. f_equal.
    cbn [app]. change (cached_message e :: replicate ?k _) with (replicate (S k) (cached_message e)).
    f_equal. lia.
Qed.

(** C8: a message is served to a peer that asks for it at most
    [gossip_retransimission] times.  [n] requests for a cached message by a
    gossipsub peer with a sufficient score queue exactly the copies still under
    the cap, and none if the peer said it does not want the message. *)
Theorem iwant_capped s p peer id e n :
  reachable config_ s -> heap s !! p = Some peer -> isGossipsub peer = true ->
  low (score_ s) (gossip_threshold (score_config config_)) peer = false ->
  message_cache_ s !! id = Some e ->
  exists s', handle_iwant config_ p (replicate n id) s = Some (s', true)
    /\ publish_ (batch_of s' p) = publish_ (batch_of s p)
      ++ replicate (if IDontWantCache.contains (dont_send_ peer) id then 0%nat
                    else Nat.min n (gossip_retransimission config_
                                    - default 0%nat (cached_iwant e !! peer_id_ peer)))%nat
           (cached_message e).
Proof.
  intros Hr Hp Hg Hl He. destruct (gossip_reachable_inv s Hr) as [_ Hw].
  pose proof (serve_iwant_many n s p peer peer id e Hw Hp He) as Hs.
  apply wp_run in Hs as (s' & [] & Hs' & HQ). exists s'. split; [|done].
  unfold handle_iwant, mbind, M_bind, deref. rewrite Hp, Hg. cbn [negb].
  unfold peer_below, gets. unfold low in Hl. rewrite Hl. cbn [negb whenM]. by rewrite Hs'.
Qed.

(** ** IHAVE *)

(** The loop that records and requests the chosen ids. *)
Lemma request_loop s p peer l (Q : unit -> Gossip -> Prop) :
  heap s !! p = Some peer -> is_Some (batch_ peer) ->
  (forall s' , iwant_ (batch_of s' p) = list_to_set l ∪ iwant_ (batch_of s p) ->
     count_sent_iwant_ s' = count_sent_iwant_ s ->
     (forall id, GossipPromises.contains (gossip_promises_ s) id = true \/ id ∈ l ->
        GossipPromises.contains (gossip_promises_ s') id = true) -> Q tt s') ->
  wp (forM_ l (fun id =>
      now ← now_;
      modify (set_gossip_promises_ (GossipPromises.add id p now)) ;;
      update_peer p (fun peer => set_batch (rpc_iwant id <$> batch_ peer) peer))) s Q.
Proof.
  revert s peer Q. induction l as [|id l IH]; intros s peer Q Hp [b Hb] HQ; cbn [forM_].
  { wpn. apply HQ; [set_solver|done|]. intros id [Hid|Hid]; [done|set_solver]. }
  wpn. set (s1 := set_heap _ _). eapply (IH s1); [cbn; by rewrite lookup_insert_eq|cbn; by rewrite Hb|].
  intros s' Hw Hc Hpr. apply HQ.
  - rewrite Hw. unfold batch_of. cbn. rewrite lookup_insert_eq, Hp. cbn. rewrite Hb. cbn. set_solver.
  - by rewrite Hc.
  - intros id' Hid'. apply Hpr. cbn. unfold GossipPromises.contains. cbn. rewrite lookup_insert.
    destruct (decide (id = id')) as [<-|Hne].
    + left. by apply bool_decide_true.
    + destruct Hid' as [Hid'|[->|Hid']%elem_of_cons]; [by left|done|by right].
Qed.

Lemma wanted_spec s ihaves skip id :
  id ∈ wanted s ihaves skip ->
  DuplicateCache.contains (duplicate_cache_ s) id = false
  /\ GossipPromises.contains (gossip_promises_ s) id = false.
Proof.
  unfold wanted. destruct skip; [set_solver|]. rewrite elem_of_list_to_set, list_elem_of_bind.
  intros (pb & Hid & _). case_match; [|set_solver].
  apply list_elem_of_filter in Hid as [Hid _]. destruct (DuplicateCache.contains _ _); [done|].
  by destruct (GossipPromises.contains _ _).
Qed.

(** C7: what IHAVE can make a node request is bounded.  Whatever ids a peer
    advertises, the ids requested from it since the last heartbeat never exceed
    [max_ihave_length], the counter of them is exact, and only ids that are
    neither known nor already promised by somebody are requested, each of them
    recorded as a promise. *)
Theorem ihave_bounded s p ihaves :
  reachable config_ s -> is_Some (heap s !! p) ->
  exists s' go W, handle_ihave config_ p ihaves s = Some (s', go)
    /\ iwant_ (batch_of s' p) = W ∪ iwant_ (batch_of s p)
    /\ (default 0 (count_sent_iwant_ s' !! p) = default 0 (count_sent_iwant_ s !! p) + size W)%nat
    /\ (default 0 (count_sent_iwant_ s' !! p) <= max_ihave_length config_)%nat
    /\ forall id, id ∈ W ->
         DuplicateCache.contains (duplicate_cache_ s) id = false
         /\ GossipPromises.contains (gossip_promises_ s) id = false
         /\ GossipPromises.contains (gossip_promises_ s') id = true.
Proof.
  intros Hr [peer Hp]. pose proof (gossip_reachable_inv s Hr) as Hi. pose proof Hi as [Hc Hw].
  set (post := fun (_ : bool) (s' : Gossip) => exists W : gset MessageId,
    iwant_ (batch_of s' p) = W ∪ iwant_ (batch_of s p)
    /\ (default 0 (count_sent_iwant_ s' !! p) = default 0 (count_sent_iwant_ s !! p) + size W)%nat
    /\ forall id, id ∈ W -> DuplicateCache.contains (duplicate_cache_ s) id = false
         /\ GossipPromises.contains (gossip_promises_ s) id = false
         /\ GossipPromises.contains (gossip_promises_ s') id = true).
  assert (wp (handle_ihave config_ p ihaves) s post) as Hpost.
  { assert (forall b s', batch_of s' p = batch_of s p -> count_sent_iwant_ s' = count_sent_iwant_ s ->
      post b s') as Hnone.
    { intros b s' Hb Hs. exists ∅. rewrite Hb, Hs, size_empty. split_and!; [set_solver|lia|set_solver]. }
    unfold handle_ihave. case_decide; [wpn; by apply Hnone|]. wp1. wp1.
    destruct (isGossipsub peer); cbn [negb]; [|wpn; by apply Hnone].
    do 4 (wp1; cbv beta). set (s1 := set_count_received_ihave_ _ s).
    case_decide; [wpn; by apply Hnone|]. do 2 (wp1; cbv beta).
    change (count_sent_iwant_ s1) with (count_sent_iwant_ s).
    destruct (match count_sent_iwant_ s !! p with Some _ => _ | None => _ end) eqn:Esent;
      [wpn; by apply Hnone|].
    do 4 (wp1; cbv beta). case_decide as Hempty; [wpn; by apply Hnone|]. do 6 (wp1; cbv beta zeta).
    set (count := Nat.min _ _). set (want := take count _). set (sent := default 0%nat _).
    set (s3 := set_count_sent_iwant_ _ _). wp1.
    eapply wp_mono; [apply (getBatch_ok p s3 peer); [by apply (writers_ok_frame s)|done]|].
    intros [] s4 Hqd. destruct (qd_set _ _ _ _ Hqd) as (peer4 & Hp4 & Hb4). wp1.
    apply (request_loop s4 p peer4); [done|done|]. intros s5 Hw5 Hc5 Hpr5. wpn.
    set (ws := wanted s1 ihaves _) in count.
    set (all := shuffle _ _) in want.
    assert (all ≡ₚ elements ws) as Hall by (unfold all; by rewrite shuffle_permutes, order_permutes).
    assert (NoDup want) as Hnd.
    { apply (sublist_NoDup want all); [rewrite Hall; apply NoDup_elements|apply sublist_take]. }
    exists (list_to_set want). split_and!.
    - rewrite Hw5, (qd_batch _ _ _ _ Hqd). done.
    - rewrite Hc5, (q_sent _ _ (qd_quiet _ _ _ _ Hqd)). cbn. rewrite lookup_insert_eq. cbn.
      rewrite size_list_to_set by done. unfold want. rewrite length_take, Hall.
      change (length (elements ws)) with (size ws). unfold count, sent. lia.
    - intros id Hid%elem_of_list_to_set. assert (id ∈ ws) as Hwant.
      { apply elem_of_elements. rewrite <- Hall. by eapply elem_of_sublist, sublist_take. }
      destruct (wanted_spec _ _ _ _ Hwant) as [H1 H2]. split_and!; [done|done|]. apply Hpr5. by right. }
  destruct (wp_run _ _ _ (wp_and _ _ _ _ Hpost (handle_ihave_kept s p ihaves Hi (ex_intro _ peer Hp))))
    as (s' & go & Hs' & (W & H1 & H2 & H3) & [[Hc' _] _]).
  exists s', go, W. split_and!; [done|done|done| |done].
  destruct (count_sent_iwant_ s' !! p) as [k|] eqn:Ek; cbn; [by apply (c_iwant _ _ Hc' p)|lia].
Qed.

(** ** GRAFT during backoff *)

Lemma with_stats_penalty peer_id h f sc sc' :
  with_stats peer_id h f sc = Some sc' ->
  behaviour_penalty <$> peer_stats_ sc' !! peer_id = behaviour_penalty <$> peer_stats_ sc !! peer_id.
Proof.
  unfold with_stats, statsOrDefault. intros Hs. destruct (peer_stats_ sc !! peer_id) as [st|] eqn:Est.
  - repeat case_match; simplify_eq; cbn; rewrite ?lookup_insert_eq, ?Est; done.
  - simplify_eq. by rewrite Est.
Qed.

Lemma addPenalty_penalty peer_id n sc :
  behaviour_penalty <$> peer_stats_ (addPenalty peer_id n sc) !! peer_id
  = (fun d => dadd d (dz (Z.of_nat n))) <$> (behaviour_penalty <$> peer_stats_ sc !! peer_id).
Proof.
  unfold addPenalty. destruct (peer_stats_ sc !! peer_id) as [st|] eqn:Est; cbn; rewrite ?Est; [|done].
  by rewrite lookup_insert_eq.
Qed.

(** The penalty of a GRAFT with [backoff] seconds to go: two when it comes soon
    after the PRUNE. *)
Definition graft_penalty (backoff : nat) (d : double) : double :=
  let d := dadd d (dz 1) in
  if (prune_backoff config_ <? backoff + graft_flood_threshold config_)%nat
  then dadd d (dz 1) else d.

Lemma graft_accept_backoff s t p peer :
  (0 < get_backoff_time config_ t p)%nat ->
  wp (graft_accept config_ t p peer) s (fun go s' => go = false
    /\ exists sc, s' = set_score_ (fun _ => sc) s
    /\ behaviour_penalty <$> peer_stats_ sc !! peer_id_ peer
       = graft_penalty (get_backoff_time config_ t p)
           <$> (behaviour_penalty <$> peer_stats_ (score_ s) !! peer_id_ peer)).
Proof.
  intros Hb. unfold graft_accept, graft_penalty. rewrite decide_True by done. do 3 (wp1; cbv beta).
  destruct (_ <? _)%nat; cbn [whenM]; wpn; (split; [done|]); eexists; (split; [done|]);
    rewrite !addPenalty_penalty; cbn; rewrite ?addPenalty_penalty; by destruct (peer_stats_ _ !! _).
Qed.

(** C6: a peer that was pruned cannot force its way back.  A GRAFT while its
    backoff lasts leaves the mesh as it is, is answered with a PRUNE, and raises
    the peer's behaviour penalty, twice when it comes within
    [graft_flood_threshold] of the PRUNE. *)
Theorem graft_in_backoff_refused s p peer topic_id t :
  reachable config_ s -> heap s !! p = Some peer -> isGossipsub peer = true ->
  topics_ s !! pb_str topic_id = Some t -> publish_only_ t = false -> p ∉ mesh_peers_ t ->
  (0 < get_backoff_time config_ t p)%nat ->
  exists s', handle_graft config_ p topic_id s = Some (s', true)
    /\ mesh_peers_ <$> topics_ s' !! pb_str topic_id = Some (mesh_peers_ t)
    /\ is_Some (prune_ (batch_of s' p) !! pb_str topic_id)
    /\ behaviour_penalty <$> peer_stats_ (score_ s') !! peer_id_ peer
       = graft_penalty (get_backoff_time config_ t p)
           <$> (behaviour_penalty <$> peer_stats_ (score_ s) !! peer_id_ peer).
Proof.
  intros Hr Hp Hg Ht Hpub Hm Hb. pose proof (gossip_reachable_inv s Hr) as Hi.
  set (h := pb_str topic_id) in *.
  set (post := fun (go : bool) s' => go = true
    /\ mesh_peers_ <$> topics_ s' !! h = Some (mesh_peers_ t)
    /\ is_Some (prune_ (batch_of s' p) !! h)
    /\ behaviour_penalty <$> peer_stats_ (score_ s') !! peer_id_ peer
       = graft_penalty (get_backoff_time config_ t p)
           <$> (behaviour_penalty <$> peer_stats_ (score_ s) !! peer_id_ peer)).
  destruct (wp_run (handle_graft config_ p topic_id) s post) as (s' & go & Hs' & Hpost);
    [|destruct Hpost as (-> & ? & ? & ?); by exists s'].
  unfold handle_graft. fold h. do 2 wp1. rewrite Hg. cbn [negb].
  pose proof (announce_kept s p peer h Hi Hp) as Hk. do 3 (wp1; cbv beta). wp1. cbn [topics_ set_heap].
  rewrite Ht. do 2 (wp1; cbv beta). rewrite (announce_some s p peer h t) by done.
  set (peer' := set_peer_topics (fun ts => {[h]} ∪ ts) peer).
  set (s1 := announce p h s) in *. set (t' := set_topic_peers (fun ps => {[p]} ∪ ps) t).
  assert (topics_ s1 !! h = Some t') as Ht' by (cbn; by rewrite lookup_alter_eq, Ht).
  assert (heap s1 !! p = Some peer') as Hp' by (cbn; by rewrite lookup_alter_eq, Hp).
  rewrite Hpub, decide_False by done. wp1.
  eapply wp_mono; [apply wp_and; [apply (graft_accept_kept s1 t p peer), Hk|by apply graft_accept_backoff]|].
  intros go s2 ([Hk2 _] & -> & sc & -> & Hsc). wp1.
  eapply wp_mono; [by apply (make_prune_spec config_ _ h t' p peer'); [apply Hk2|..]|].
  intros [] s3 (_ & (bo & Htc) & Hpr). destruct (Hpr Hg) as [Hpr1 Hpr2]. wpn.
  split_and!; [done| |done|].
  - by rewrite (topic_change_lookup _ _ _ _ Htc).
  - change (peer_id_ peer') with (peer_id_ peer) in Hpr1. rewrite (with_stats_penalty _ _ _ _ _ Hpr1). exact Hsc.
Qed.
End Limits.

(** ** The theorems at a concrete node *)

(** Both peers in the mesh and one message cached. *)
Definition cached : Gossip := state_after (two_peers ++ [Heartbeat; Frame 1%nat 11%nat (Some [2])]).
Definition toy_entry : MessageCacheEntry :=
  mkEntry (mkMessage None [42] None toy_topic None (Some peer_b)) ∅.

Lemma iwant_capped_witness :
  exists s', handle_iwant toy_config 0%nat (replicate 5 [42]) cached = Some (s', true)
    /\ publish_ (batch_of s' 0%nat)
       = publish_ (batch_of cached 0%nat) ++ replicate 3 (cached_message toy_entry).
Proof.
  assert ((if IDontWantCache.contains (dont_send_ (peer_at cached 0%nat)) [42]%Z then 0%nat
           else Nat.min 5 (gossip_retransimission toy_config
                 - default 0%nat (cached_iwant toy_entry !! peer_id_ (peer_at cached 0%nat))))%nat
          = 3%nat) as <- by (vm_compute; reflexivity).
  apply (iwant_capped (config_ := toy_config) cached 0%nat (peer_at cached 0%nat) [42] toy_entry 5).
  - apply state_after_reachable.
  - vm_compute. reflexivity.
  - vm_compute. reflexivity.
  - vm_compute. reflexivity.
  - vm_compute. reflexivity.
Defined.

Definition toy_ihave : list pb_IHave := [mkIHave (Some toy_topic) [[50]; [51]; [52]]].

Lemma ihave_bounded_witness :
  exists s' go W, handle_ihave toy_config 0%nat toy_ihave meshed = Some (s', go)
    /\ iwant_ (batch_of s' 0%nat) = W ∪ iwant_ (batch_of meshed 0%nat)
    /\ (default 0 (count_sent_iwant_ s' !! 0%nat)
        = default 0 (count_sent_iwant_ meshed !! 0%nat) + size W)%nat
    /\ (default 0 (count_sent_iwant_ s' !! 0%nat) <= max_ihave_length toy_config)%nat
    /\ forall id, id ∈ W ->
         DuplicateCache.contains (duplicate_cache_ meshed) id = false
         /\ GossipPromises.contains (gossip_promises_ meshed) id = false
         /\ GossipPromises.contains (gossip_promises_ s') id = true.
Proof.
  apply ihave_bounded; [apply state_after_reachable|]. exists (peer_at meshed 0%nat).
  vm_compute. reflexivity.
Defined.

(** One peer has just left the mesh of its own accord. *)
Definition pruned : Gossip := state_after (two_peers ++ [Heartbeat; Frame 0%nat 10%nat (Some [4])]).

Lemma graft_in_backoff_refused_witness :
  exists s', handle_graft toy_config 0%nat (Some toy_topic) pruned = Some (s', true)
    /\ mesh_peers_ <$> topics_ s' !! toy_topic = Some {[1%nat]}
    /\ is_Some (prune_ (batch_of s' 0%nat) !! toy_topic)
    /\ behaviour_penalty <$> peer_stats_ (score_ s') !! peer_a = Some (dz 2).
Proof.
  assert (mesh_peers_ (topic_at pruned toy_topic) = {[1%nat]}) as <- by (vm_compute; reflexivity).
  assert (graft_penalty (config_ := toy_config)
      (get_backoff_time toy_config (topic_at pruned toy_topic) 0%nat)
        <$> (behaviour_penalty <$> peer_stats_ (score_ pruned) !! peer_a) = Some (dz 2)) as <-
    by (vm_compute; reflexivity).
  apply (graft_in_backoff_refused (config_ := toy_config) pruned 0%nat (peer_at pruned 0%nat)
           (Some toy_topic)).
  - apply state_after_reachable.
  - vm_compute. reflexivity.
  - vm_compute. reflexivity.
  - vm_compute. reflexivity.
  - vm_compute. reflexivity.
  - apply (bool_decide_unpack _). vm_compute. exact I.
  - apply Nat.ltb_lt. vm_compute. reflexivity.
Defined.
