(* ===== verification/GossipMeshSize.v ===== *)
(** * Gossipsub: the size of the mesh

    What the heartbeat makes of an oversized mesh, as a function of the mesh and
    of the direction of its connections, and where the heartbeat fails: the
    median of the scores of a mesh of two. *)

From S2P Require Import Prelude TimeCache Backoff Multihash Score GossipState GossipOps.
From S2P Require Import GossipHandlers GossipInv GossipMesh GossipSafe GossipSafeRpc.
From S2P Require Import GossipSafeTick GossipRun GossipToy.

(** Whether we opened the connection to a peer. *)
Definition outs (hp : gmap PeerPtr Peer) (p : PeerPtr) : bool := default false (out_ <$> hp !! p).
(** The outbound peers of a mesh. *)
Definition outbound (o : PeerPtr -> bool) (m : gset PeerPtr) : gset PeerPtr :=
  filter (fun p => o p = true) m.

(** The mesh after [prune_excess], without its effects. *)
Fixpoint excess (o : PeerPtr -> bool) (n omin out : nat) (l : list PeerPtr) (m : gset PeerPtr) :
    gset PeerPtr :=
  match l with
  | [] => m
  | p :: l =>
      if decide (size m <= n)%nat then m
      else if o p && (out <=? omin)%nat then excess o n omin out l m
      else excess o n omin (if o p then pred out else out) l (m ∖ {[p]})
  end.

Lemma size_remove (p : PeerPtr) (m : gset PeerPtr) : p ∈ m -> size (m ∖ {[p]}) = pred (size m).
Proof.
  intros Hp. rewrite size_difference by set_solver. rewrite size_singleton. lia.
Qed.

Lemma outbound_remove o p m :
  p ∈ m -> size (outbound o (m ∖ {[p]})) = if o p then pred (size (outbound o m)) else size (outbound o m).
Proof.
  intros Hp. unfold outbound. destruct (o p) eqn:Ho.
  - rewrite <- (size_remove p) by (apply elem_of_filter; set_solver). f_equal. set_solver.
  - f_equal. apply set_eq. intros q. rewrite !elem_of_filter, elem_of_difference, elem_of_singleton.
    split; [naive_solver|]. intros [Hq Hm]. split_and!; [done|done|]. intros ->. congruence.
Qed.

Lemma excess_spec o n omin l m :
  NoDup l -> (forall p, p ∈ l -> p ∈ m) ->
  (forall p, p ∈ m -> p ∉ l -> o p = true /\ (size (outbound o m) <= omin)%nat) ->
  let m' := excess o n omin (size (outbound o m)) l m in
  m' ⊆ m
  /\ (Nat.min n (size m) <= size m' <= Nat.max n omin)%nat
  /\ (Nat.min omin (size (outbound o m)) <= size (outbound o m'))%nat.
Proof.
  revert m. induction l as [|p l IH]; intros m Hnd Hin Hskip; cbn [excess].
  { split_and!; [done|lia| |lia].
    destruct (decide (m = ∅)) as [->|[q Hq]%set_choose_L]; [rewrite size_empty; lia|].
    assert (outbound o m = m) as Hm.
    { apply set_eq. intros r. unfold outbound. rewrite elem_of_filter. split; [tauto|].
      intros Hr. split; [|done]. apply (Hskip r); set_solver. }
    destruct (Hskip q) as [_ Hle]; [done|set_solver|]. rewrite Hm in Hle. lia. }
  apply NoDup_cons in Hnd as [Hp Hnd]. case_decide as Hn; [split_and!; [done|lia..]|].
  assert (p ∈ m) as Hpm by (apply Hin; set_solver).
  destruct (o p && _) eqn:Ekeep.
  - apply andb_true_iff in Ekeep as [Ho Hle%Nat.leb_le]. apply IH; [done|set_solver|].
    intros q Hq Hnl. destruct (decide (q = p)) as [->|]; [done|]. apply Hskip; set_solver.
  - rewrite <- (outbound_remove o p m) by done.
    pose proof (outbound_remove o p m Hpm) as Hout. pose proof (size_remove p m Hpm) as Hsz.
    destruct (IH (m ∖ {[p]})) as (H1 & H2 & H3); [done|set_solver| |].
    { intros q [Hq Hqp]%elem_of_difference Hnl. destruct (Hskip q Hq) as [Ho Hle]; [set_solver|].
      split; [done|]. rewrite Hout. destruct (o p); lia. }
    cbv zeta in *. rewrite Hsz in H2. split_and!; [set_solver|lia|lia|].
    etrans; [|exact H3]. rewrite Hout. destruct (o p); [|lia].
    apply Nat.leb_gt in Ekeep. lia.
Qed.

Section MeshSize.
Context `{E : Env} `{!EnvLaws E} {config_ : Config} `{Hcfg : !config_ok config_}.
Implicit Types (s : Gossip) (p : PeerPtr) (h : TopicHash).

Lemma outs_views hp hp' p : views hp hp' -> outs hp' p = outs hp p.
Proof.
  intros Hv. unfold outs. specialize (Hv p). destruct (hp' !! p) as [a|], (hp !! p) as [b|]; try done.
  apply (inj Some) in Hv. cbn. by destruct (view_fields _ _ Hv) as (_ & -> & _).
Qed.

Lemma excess_ext o o' n omin out l m :
  (forall p, o p = o' p) -> excess o n omin out l m = excess o' n omin out l m.
Proof.
  intros Ho. revert out m. induction l as [|p l IH]; intros out m; cbn [excess]; [done|].
  rewrite Ho. repeat case_match; auto.
Qed.

(** The loop of the source computes [excess]. *)
Lemma prune_excess_refines s h t n omin out l :
  inv config_ s -> topics_ s !! h = Some t -> (forall p, p ∈ l -> is_Some (heap s !! p)) ->
  wp (prune_excess config_ h n omin out l) s (fun _ s' =>
    mesh_peers_ <$> topics_ s' !! h = Some (excess (outs (heap s)) n omin out l (mesh_peers_ t))).
Proof.
  revert s t out. induction l as [|p l IH]; intros s t out Hi Ht Hl; cbn [prune_excess excess].
  { wpn. by rewrite Ht. }
  wp1. wp1. case_decide; [wpn; by rewrite Ht|].
  destruct (Hl p) as [peer Hp]; [set_solver|]. wp1. wp1.
  assert (outs (heap s) p = out_ peer) as -> by (unfold outs; by rewrite Hp).
  destruct (out_ peer && _); [apply IH; [done|done|set_solver]|].
  do 2 (wp1; cbv beta). pose proof (mesh_remove_ticked s h t p Hi Ht) as Hk1.
  set (t1 := set_mesh_peers _ t) in *. set (s1 := set_topics_ _ s) in *. wp1.
  eapply wp_mono; [apply (make_prune_spec config_ s1 h t1 p peer);
    [apply Hk1|cbn; by rewrite lookup_insert_eq|done]|].
  intros [] s2 (Hi2 & (bo & Htc) & _). pose proof (m_heap _ _ (tc_mesh _ _ _ _ Htc)) as Hv.
  eapply wp_mono; [apply (IH s2 (set_backoff (fun _ => bo) t1)); [done| |]|].
  - by apply topic_change_lookup in Htc.
  - intros q Hq. destruct (Hl q) as [pq Hpq]; [set_solver|].
    destruct (views_peer _ _ q pq Hv Hpq) as (? & ? & _). eauto.
  - intros [] s3 ->. cbn [mesh_peers_ set_backoff]. f_equal. apply excess_ext.
    intros q. by apply outs_views.
Qed.

Lemma length_outs hp l peers :
  Forall2 (fun p peer => hp !! p = Some peer) l peers ->
  length (filter (fun peer => out_ peer) peers) = length (filter (fun p => outs hp p = true) l).
Proof.
  induction 1 as [|p peer l peers Hp _ IH]; [done|]. rewrite !filter_cons.
  assert (outs hp p = out_ peer) as -> by (unfold outs; by rewrite Hp).
  destruct (out_ peer); repeat case_decide; cbn; try done; by f_equal.
Qed.

Lemma meshOutCount_exact s h t :
  inv config_ s -> topics_ s !! h = Some t ->
  wp (meshOutCount t) s (fun n s' =>
    n = size (outbound (outs (heap s)) (mesh_peers_ t)) /\ s' = set_uses S s).
Proof.
  intros Hi Ht. unfold meshOutCount. wpn. set (l := order _ _).
  assert (l ≡ₚ elements (mesh_peers_ t)) as Hl by (unfold l; by rewrite order_permutes).
  apply wp_deref_all; [intros p; rewrite Hl, elem_of_elements; by apply (mesh_on_heap (config_ := config_) s h t)|].
  intros peers Hf. wpn. split; [|done]. rewrite (length_outs _ _ _ Hf).
  rewrite <- (size_list_to_set (C := gset PeerPtr)).
  - f_equal. apply set_eq. intros p. unfold outbound.
    by rewrite elem_of_list_to_set, list_elem_of_filter, elem_of_filter, Hl, elem_of_elements.
  - apply NoDup_filter. rewrite Hl. apply NoDup_elements.
Qed.

(** C9: an oversized mesh is cut to size.  The pruning step of the heartbeat
    only removes peers, leaves at least [mesh_n] of them and at most the larger
    of [mesh_n] and [mesh_outbound_min] (so exactly [mesh_n] when the configured
    minimum of outbound peers is below it), and never takes the outbound peers
    below their minimum. *)
Theorem prune_surplus_cuts_to_size s h t :
  reachable config_ s -> topics_ s !! h = Some t ->
  (mesh_n_for_topic config_ h <= size (mesh_peers_ t))%nat ->
  exists s' m, prune_surplus config_ h s = Some (s', tt)
    /\ mesh_peers_ <$> topics_ s' !! h = Some m
    /\ m ⊆ mesh_peers_ t
    /\ (mesh_n_for_topic config_ h <= size m
         <= Nat.max (mesh_n_for_topic config_ h) (mesh_outbound_min_for_topic config_ h))%nat
    /\ (Nat.min (mesh_outbound_min_for_topic config_ h)
           (size (outbound (outs (heap s)) (mesh_peers_ t)))
         <= size (outbound (outs (heap s)) m))%nat.
Proof.
  intros Hr Ht Hsz. pose proof (gossip_reachable_inv s Hr) as Hi.
  set (n := mesh_n_for_topic _ _) in *. set (omin := mesh_outbound_min_for_topic _ _) in *.
  set (o := outs (heap s)). set (m0 := mesh_peers_ t) in *.
  destruct (wp_run (prune_surplus config_ h) s (fun _ s' => exists l,
    l ≡ₚ elements m0 /\ mesh_peers_ <$> topics_ s' !! h
      = Some (excess o n omin (size (outbound o m0)) l m0))) as (s' & [] & Hs' & l & Hl & Hm).
  - unfold prune_surplus. do 6 (wp1; cbv beta). wp1.
    set (sh := shuffle _ (order _ _)).
    assert (sh ≡ₚ elements m0) as Hsh by (unfold sh; by rewrite shuffle_permutes, order_permutes).
    apply wp_deref_all; [intros p; rewrite Hsh, elem_of_elements; by apply (mesh_on_heap (config_ := config_) s h t)|].
    intros peers Hf. do 2 (wp1; cbv beta zeta). wp1. apply (wp_sort (config_ := config_)); [by do 2 apply inv_uses|].
    intros sorted s1' Hsort Hks Hts Hhs _. do 2 (wp1; cbv beta zeta). wp1.
    set (s1 := set_uses S _).
    eapply wp_mono; [apply (meshOutCount_exact s1 h t); [apply inv_uses, Hks|cbn; by rewrite Hts]|].
    intros out s2 [-> ->]. set (l := _ ++ _).
    assert (l ≡ₚ elements m0) as Hl.
    { unfold l. rewrite shuffle_permutes, take_drop, Hsort, fst_zip, Hsh; [done|].
      by rewrite (Forall2_length _ _ _ Hf). }
    eapply wp_mono; [apply (prune_excess_refines _ h t); [do 2 apply inv_uses; apply Hks|cbn; by rewrite Hts|]|].
    { intros p. rewrite Hl, elem_of_elements. cbn. rewrite Hhs. by apply (mesh_on_heap (config_ := config_) s h t). }
    intros [] s3 ->. cbn [heap set_uses s1]. rewrite Hhs. by exists l.
  - destruct (excess_spec o n omin l m0) as (H1 & H2 & H3).
    { rewrite Hl. apply NoDup_elements. }
    { intros p. by rewrite Hl, elem_of_elements. }
    { intros p Hp. by rewrite Hl, elem_of_elements. }
    eexists s', _. split_and!; [done|done|done|lia|lia|done].
Qed.

(** C11: opportunistic grafting fails on exactly one kind of mesh.  On a tick
    that runs it, and on no other, a topic whose mesh has two peers makes the
    heartbeat read past the end of the vector of scores: the median of an even
    number of scores is taken from the elements before and after the upper one.
    In every other case it ends. *)
Theorem opportunistic_heartbeat_fails s h t :
  reachable config_ s -> topics_ s !! h = Some t ->
  graft_opportunistic config_ h s = None <->
  opportunistic_tick (config_ := config_) (heartbeat_ticks_ s) = true /\ size (mesh_peers_ t) = 2%nat.
Proof.
  intros Hr Ht. pose proof (gossip_reachable_inv s Hr) as Hi. split.
  - intros Hn. destruct (decide (opportunistic_tick (config_ := config_) (heartbeat_ticks_ s) = true
      /\ size (mesh_peers_ t) = 2%nat)) as [|Hno]; [done|]. exfalso.
    assert (wp (graft_opportunistic config_ h) s (fun _ => ticked (config_ := config_) s)) as Hw.
    { apply (graft_opportunistic_ticked s h t); [done|done|]. intros H1 H2. by apply Hno. }
    unfold wp in Hw. by rewrite Hn in Hw.
  - intros [H1 H2]. by apply (graft_opportunistic_fails s h t).
Qed.
End MeshSize.

(** ** The theorems at a concrete node *)

(** Twelve peers announce the topic; the first heartbeat grafts some of them. *)
Definition crowd (n : nat) : list event :=
  Subscribe toy_topic :: flat_map (fun i =>
    [InboundStream [Z.of_nat i] kProtocolGossipsubv1_1 i; Frame i i (Some [1]); Frame i i (Some [3])])
    (seq 0 n).
Definition crowded : Gossip := state_after (crowd 14).

Lemma prune_surplus_cuts_to_size_witness :
  size (mesh_peers_ (topic_at crowded toy_topic)) = 13%nat
  /\ exists s' m, prune_surplus toy_config toy_topic crowded = Some (s', tt)
    /\ mesh_peers_ <$> topics_ s' !! toy_topic = Some m
    /\ m ⊆ mesh_peers_ (topic_at crowded toy_topic) /\ (6 <= size m <= 6)%nat
    /\ (Nat.min 2 (size (outbound (outs (heap crowded)) (mesh_peers_ (topic_at crowded toy_topic))))
         <= size (outbound (outs (heap crowded)) m))%nat.
Proof.
  split; [vm_compute; reflexivity|].
  apply (prune_surplus_cuts_to_size (config_ := toy_config) crowded toy_topic).
  - apply state_after_reachable.
  - vm_compute. reflexivity.
  - apply Nat.leb_le. vm_compute. reflexivity.
Defined.

(** With the default parameters, the 60th heartbeat of a node whose mesh has two
    peers. *)
Definition before_tick_60 : Gossip := state_after (two_peers ++ replicate 59 Heartbeat).

Lemma opportunistic_heartbeat_fails_witness :
  heartbeat toy_config before_tick_60 = None
  /\ (graft_opportunistic toy_config toy_topic meshed = None <->
      opportunistic_tick (config_ := toy_config) (heartbeat_ticks_ meshed) = true
      /\ size (mesh_peers_ (topic_at meshed toy_topic)) = 2%nat).
Proof.
  split; [vm_compute; reflexivity|]. apply opportunistic_heartbeat_fails; [apply state_after_reachable|].
  vm_compute. reflexivity.
Defined.
